(* ===== verification/_CoqProject ===== *)
-Q . S2P
Prelude.v
VoterSet.v
Predicate.v
Plan.v
Digest.v
Compile.v
FlatPlan.v
Joint.v
Ids.v
Codec.v
PlanRecord.v
Types.v
Membership.v
MembershipCommand.v
Probes.v
History.v
Core.v
CoreRequest.v
CoreLog.v
CoreInv.v
CoreEffects.v
CoreSafety.v
CoreExact.v
CoreElection.v
CoreCommit.v
CoreAsk.v
CoreSample.v
Network.v
NetworkLog.v
NetworkInv.v
NetworkDrive.v
NetworkRun.v
NetworkAgree.v
NetworkSample.v
Findings.v
Topology.v
Work.v
Contracts.v
Coding.v
Placement.v
PlacementFacts.v
Components.v
Access.v
AccessFacts.v
Routing.v
RoutingFacts.v
Federation.v
FederationFacts.v
Name.v
Directory.v
DirectoryFacts.v
DirectoryMap.v
DirectoryCodec.v
DirectorySample.v
Staging.v
Reconcile.v
ReconcileFacts.v
ReconcilePlan.v
Intent.v
Replay.v
ReplayPlan.v
ReplayFacts.v
ReplaySafe.v
ReplayOrder.v
ReplaySample.v
BranchStore.v
PathCopy.v
Query.v
PathCopyFacts.v
PathCopySafe.v
Published.v
Listing.v
Journal.v
IntentStore.v
Creation.v
CreationFacts.v
Created.v
Handles.v
HandleFacts.v
PublishedSample.v
