(* ===== verification/Prelude.v ===== *)
(** * Verification of MeshSpan

    MeshSpan stores files as coded stripes on targets across machines and keeps its metadata
    in partitions, each replicated by a consensus group.  This development models the crates
    that decide: [meshspan-consensus], which runs one group; [meshspan-placement] over the
    fault topology of [meshspan-domain], which says where the slices of a stripe go and what
    losses they survive; [meshspan-coding], which turns stripes into slices and back; and
    [meshspan-work], which orders repair; the access, routing and federation rules of
    [meshspan-domain], which say who may do what and which partition may write; and the
    deciding half of [meshspan-filesystem], which keeps a namespace of files in
    content-addressed directories and merges histories written apart.  Source paths
    below are relative to src/crates/meshspan-consensus/src unless they start with a crate
    name.

    ** The program and its parts

    A _quorum plan_ (quorum/) says which sets of voters may elect, commit and read.  It is
    written as three predicates, compiled by exhaustive evaluation to minimal quorums and
    cut sets over voter masks, and refused unless every election quorum meets every
    election, commit and read quorum.  Membership changes (membership.rs) go from a stable
    plan through a _joint_ phase, where both plans must agree, to the next stable plan; the
    active phase has a durable record (plan_record.rs, plan_record/), and each change is a
    command in the replicated log (membership_command.rs).  The _core_ (core/) is a
    deterministic state machine: [step] takes one input (timeout, message, proposal, read,
    plan activation, acknowledgement of a write) and returns ordered effects; whatever must
    be durable is requested first and acted upon only once the driver acknowledges it.

    A _topology_ (meshspan-domain/src/topology.rs) registers hosts, their targets and the fault
    groups that fail together; a failure scenario names how many groups of which classes may
    fail at once, and the oracle enumerates every such loss.  The _placement_ engine
    (meshspan-placement/src) chooses targets and a coding geometry whose proofs satisfy a
    policy, decides which receipts a write waits for, and picks replacements; the _coding_
    engine (meshspan-coding/src) splits a padded stripe, adds recovery slices and rebuilds the
    stripe from verified ones; both implement the lifecycle contract of meshspan-contracts.
    _Work_ policy (meshspan-work/src) encodes maintenance jobs, ranks them and admits them
    against a budget.

    The rest of meshspan-domain/src holds the rules every component consults.  _Access_
    (access.rs) combines rights, replaces owner sets, activates pre-authorised access for a
    bounded time and keeps the graph of nested groups.  _Routing_ (routing.rs) moves write
    ownership of a scope between partitions by preparing, freezing and activating; root
    delegation (partitioning.rs) wraps it with admission evidence.  _Federation_
    (federation*.rs) relates autonomous swarms: a governance forest, grants that travel along
    bounded routes, policies restricted by intersection, and the classification of mutations
    a disconnected peer accepted.

    The _filesystem_ (meshspan-filesystem/src) compares names by a folded key (name.rs) and
    keeps each directory as a trie of immutable nodes addressed by their digest
    (directory.rs).  Writes are staged as extents over a base (staging.rs) until published.
    A _publication_ loads the directories along its path from the branch database, edits the
    last, copies every directory above it up to a new root (namespace_publication.rs), records
    a commit and an intent, moves the head of its branch and leaves a receipt by which a retry
    is recognised (namespace_publication/repository.rs); readers resolve paths and list
    directories below the head (namespace_query.rs).  An open _handle_ (handles.rs, handles/)
    pins a file at a revision for a principal behind one gateway: it has a lease, a fence that
    grows with every takeover, an access and a share mode, byte-range locks, a working length
    and perhaps a deletion to carry out when the last handle of the file has gone.
    Publications form a graph of namespace commits; when clients have been apart, the
    _planner_ (reconciliation.rs) reads the graph from the known heads,
    selects the operations that are still news and orders them causally, and _replay_
    (reconciliation/replay.rs, reconciliation/replay/) turns the intents behind them into
    publications: an edit that lost its place is kept under a recovered name, never dropped.

    ** Files

    - [Prelude]: results, the state-and-error monad of methods on [&mut self] with the
      assertions [post] and [keeps] used for all proofs about it, machine-width arithmetic,
      bytes, ordered iteration, the SHA-256 parameter, the hint database [mesh].
    - [VoterSet], [Predicate], [Plan], [Digest], [Compile], [FlatPlan]: quorum/compile.rs,
      predicate.rs, mod.rs, digest.rs.
    - [Joint]: quorum/transition.rs, [JointQuorumPlan] of membership.rs and
      [ActiveQuorumPlan] of plan_record.rs.
    - [Ids], [Codec], [PlanRecord]: the identifiers of meshspan-domain and the fixed-width
      fields of signed payloads, the bounded cursors,
      plan_record/encode.rs and decode.rs.
    - [Types], [Membership], [MembershipCommand], [Probes], [History]: core/types.rs with
      core/replication_budget.rs, the planners of membership.rs, membership_command.rs,
      core/append_probes.rs, core/membership_history.rs.
    - [Core]: core/state.rs and core/state/membership_replay.rs.  [ConsensusCore] is the
      struct of that name, each method a computation in [Core]; an error returns the state
      as the mutations before it left it, as in the source.
    - [CoreRequest] (what volatile work may change and why each durable mutation may be
      requested), [CoreLog] (the log under a mutation and the role), [CoreInv] (the invariant), [CoreEffects] (what each effect promises), [CoreSafety] and
      [CoreExact] (the guarantees), [CoreElection] (how a core comes to campaign and lead),
      [CoreCommit] (what moves the commit index and a leader's credit for its peers),
      [CoreAsk] (which input a request answers, who sends and who accepts log entries).
    - [Network]: a partition of any number of such cores.  Messages live in a pool from which
      they may be delivered in any order, repeatedly or never; each node has a disk that is
      written before its core is told so; nodes crash and restart at any point.  The drivers
      and the database of the other crates appear only as these actions.
    - [NetworkLog]: histories of the partition, the logs its leaders issued and what it means
      for a log to match them, for a prefix to be held, committed or covered.
      [NetworkInv]: what a received range does to a log, the invariant behind log agreement
      and how one changed node extends it; [NetworkDrive], [NetworkRun]: every action keeps
      it.  [NetworkAgree]: the agreement theorems.
    - [CoreSample], [NetworkSample], [Findings]: concrete runs.
    - [Topology]: meshspan-domain/src/topology.rs, registrations as [SE] computations.
    - [Contracts]: lifecycle.rs of meshspan-domain and the bounded values, errors, lifecycle
      trait (a type class with its laws) and geometry of meshspan-contracts.
    - [Coding]: meshspan-coding/src/lib.rs over the classes [ReedSolomon] and
      [Blake3]; [ReedSolomonLaws] is the documented contract of the transform, which a
      two-plus-one parity code is shown to satisfy.
    - [Placement], [PlacementFacts]: meshspan-placement/src/lib.rs and assessment.rs.
      [Components]: both engines behind the lifecycle contract, and concrete plans and stripes.
    - [Work]: meshspan-work/src/lib.rs.
    - [Access], [AccessFacts]: access.rs.
      [Routing], [RoutingFacts]: routing.rs and partitioning.rs.  [Federation],
      [FederationFacts]: federation.rs, federation_graph.rs, federation_route.rs,
      federation_access.rs, federation_mutation.rs, federation_storage.rs and operation.rs, all
      of meshspan-domain/src.
    - [Name]: UTF-8 and the name rules of name.rs over the class [Unicode].
    - [Directory]: directory.rs, nodes and the editor with its overlay and changed set.
      [DirectoryFacts] (what each edit does to a trie), [DirectoryMap] (the trie as a finite
      map, and editors that hold only part of it), [DirectoryCodec] (the canonical node encoding), [DirectorySample].
    - [Staging]: staging.rs.
    - [BranchStore]: the tables of nodes, revisions, commits and heads, with the statements of
      publication.rs, namespace_publication/repository.rs and namespace_publication/digest.rs
      on them.  [PathCopy]: loading, editing and persisting a path, namespace_publication.rs.
      [Query]: namespace_query.rs.  [PathCopyFacts] (what the statements keep and how a path is
      copied), [PathCopySafe] (one path), [Published] (commit and head), [Listing] (pages).
    - [Journal]: the tables of receipts and commits of every kind and how they are read back,
      namespace_publication/repository.rs with repository/rename_operation.rs,
      repository/unlink_operation.rs, snapshot_restore.rs, reconciliation_apply.rs and
      transfer.rs.  [IntentStore]: the tables of intents, written and read back,
      repository/rename_intent.rs and repository/deletion_intent.rs.  [Creation]: creating a
      directory as one transaction, namespace_publication.rs, and the intents of renames and
      removals.  [CreationFacts] (what is written is read back), [Created] (the guarantees).
    - [Handles]: handles.rs with handles/state.rs, handles/lease.rs, handles/locks.rs,
      handles/information.rs, handles/write.rs and handles/path.rs; every operation a
      transaction that replays its receipt, ends what has lapsed and acts.  [HandleFacts]: what
      each operation does, the invariant and the guarantees over histories of operations and
      publications.  [PublishedSample]: concrete publications and handles.
    - [Reconcile]: reconciliation.rs up to the plan.  [ReconcileFacts] (ancestry and the scan,
      selection, superseding and the drain), [ReconcilePlan] (the guarantees).
    - [Intent]: intents, their digest, derived identities and recovered names.  [Replay]: the
      replay state and every action on it, with deletion and renaming.  [ReplayPlan]:
      validation of a page, the loop over its commits and the digest of the result.
      [ReplayFacts] (one action), [ReplaySafe] and [ReplayOrder] (the
      guarantees), [ReplaySample] (concrete pages).

    ** What the theorems show

    - Plans: a plan compiles exactly when it is safe, a compiled plan decides exactly its
      predicates and lists exactly its cut sets, flat plans always compile, the digest does
      not depend on construction order, and quorums of adjacent reconfiguration phases
      always meet ([FlatPlan], [Joint]).
    - Records and commands: encoding is total within its size limits, decoding inverts it,
      and whatever decodes was proved again from its specification ([PlanRecord],
      [MembershipCommand], [Ids]); what the planners propose is accepted ([Membership]).
    - One core: an invariant of all reachable states; no input moves the term, a cast vote,
      the commit or the applied position back; durable fields change only as an acknowledged
      request says; grants, accepted appends, replicated ranges, commits and released reads
      are true of the state they leave; the commit rule, the release of reads and restart
      are characterised exactly ([CoreSafety], [CoreExact]).
    - The partition: one vote per node and term across crashes, and at most one leader
      elected per term among phases whose quorums meet ([Network]).  Over every history whose
      plans are pairwise the same or neighbouring phases, logs that agree on the term at an
      index agree through it, what a leader committed is in the log of every later leader,
      and no two cores ever commit different entries at one position; a node restarts at a
      position it had committed.  Nothing is assumed of the digests ([NetworkAgree]).
    - Two runs show durable states that [restore] refuses; a third shows a restarted leader
      that releases a read on an answer older than it ([Findings]).
    - Protection: the oracle's minimum is exact over all losses a scenario covers ([Topology]);
      plans never claim more than that, use distinct admitted targets with room, wait for
      receipts that suffice on their own, and repair and rebalance choose a best move; the
      exact search is optimal ([PlacementFacts]).
    - Coding: a stripe comes back from any sufficient set of intact slices ([Coding]).  Both
      engines refine the guarded lifecycle table ([Components]).
    - Work: job subjects have one representation, the packed priority is the lexicographic
      order it stands for, and repair deferral is bounded ([Work]).
    - Access: the group graph stays acyclic under every history, both searches over it end
      with exactly the transitive answer, an activation outlives none of its limits
      ([AccessFacts]).
    - Routing: a write permission once fenced never comes back, the writer changes only
      through a frozen hand-off, delegated routes can always be restored, and signed payloads
      determine the record ([RoutingFacts]).
    - Federation: governance stays a forest whose walks end, routes are exact, an intersected
      policy allows exactly what every restriction allows, and a disconnected mutation is
      admitted exactly inside the whole chain of authority ([FederationFacts]).
    - Directories: every history of edits behaves as one on a finite map from name keys to
      entries, lookups and listings included; two directories with the same entries have the
      same root, whatever edits led there; earlier roots stay readable; a node decodes to
      what was encoded ([DirectoryMap], [DirectoryCodec]).
    - Copy on write: once a path is persisted it answers the request, every directory above it
      has its new revision under the name the path spells, every path beside it and every older
      root reads as before, and the tables stay well formed ([PathCopySafe]).  stat on the
      branch sees the change and nothing else, stat on any other branch sees nothing of it
      ([Published]).  Following cursors through a directory ends with every entry listed once,
      in order, in pages of the size asked for ([Listing]).
    - Creating a directory: once applied, every retry finds the receipt and changes nothing, a
      different request under the operation is refused, the intent read back is the one
      requested, references between the tables hold; the directory is at its path, every path
      beside it and every other branch reads as before, also when it is the first of its
      volume.  The intent table refuses every directory that has a prior revision, so a
      directory that ever changed can be neither renamed nor removed ([Created]).
    - Handles: over every history share modes are respected, locks in force overlap only when
      shared, follow the fence and the lease of their handle, and no deletion is lost or ready
      too early; once a takeover is applied an older fence only ever finds its own receipts;
      an admitted write meets no lock of another handle ([HandleFacts]).
    - Staged writes: reading through the extents gives the bytes that the sequence of writes
      and truncations gives on a plain file ([Staging]).
    - Reconciliation: the exact conditions under which a page is accepted; every operation
      comes after those it depends on and none is lost or repeated; neither the order in which
      commits arrive nor that of the heads matters; the parents of the merge are the minimal
      frontier ([ReconcilePlan]); once its merge is committed, planning again is accepted
      and finds nothing left to do ([ReconcilePlan]).
    - Replay: no entry of the namespace vanishes unless an intent removed or replaced exactly
      it, and a replayed write is visible afterwards ([ReplaySafe]); the publications returned
      are exactly the changes made, and equivalent pages give equal plans ([ReplayOrder]).
      Two concurrent pages that replay misreads, and one on which it stops with an
      out-of-range slice, are evaluated in [ReplaySample].

    ** Choices

    Unsigned integers are [N]; additions the source checks are [checked_add] at their width,
    saturating ones are [saturating_add], and unchecked ranges such as [old_commit + 1] are
    plain sums, exact because indices are bounded by the log length, which the invariant
    keeps within 64 bits.  Node sets and maps ([BTreeSet], [BTreeMap]) are [gset] and [gmap];
    iteration is in ascending order ([ascending]).  SHA-256 and BLAKE3 are parameters, never
    assumed injective; reconstruction supposes that a corrupted slice does not collide with
    the slice it replaces.  Library errors the source maps to one error are [None].  The
    record decoder recurses with fuel 8, the nesting depth beyond which the source refuses a
    predicate, and [predicate_fuel_enough] shows it suffices.  The searches over the group graph take one step per edge and group,
    the walks up the governance forest one per parented swarm; the theorems say that the
    fuel chosen is always enough.  [usize] is 64 bits wide.

    The Unicode tables and BLAKE3 are parameters of the filesystem model.  Where a theorem
    needs two digests to differ it says so of the nodes at hand.  Replay returns [Rejected]
    for an error and [Panicked] where the source slices a string out of range.  The graph scan
    has one step per head and recorded parent, the causal drain one per commit, the search for
    a free recovered name one per candidate the source tries: the theorems that characterise
    the results hold with these counts.  The
    replay guarantees suppose what the loaders establish before replay: every path hangs from
    the root and each visible entry is indexed ([rooted], [tracked], [single_target]).

    A table of the branch database is a map from its primary key.  A statement that would break
    a constraint of the schema fails with [Sqlite], the constraint written out; a transaction is
    a computation whose database is kept only when it succeeds.  The theorems about paths
    suppose that every row satisfies the checks of the schema ([checked]) and that every stored
    directory stands for a finite map ([well_formed]), and show that both are kept.  A trie has 64 levels below
    its root, so loops over it take 65 turns; following pages has more fuel than the directory
    has entries, and [listing_complete] shows that this suffices.  The recursive query for the
    ancestors of a commit takes one round per recorded parent, which [lineage_complete] shows to
    be all of them.

    An UPDATE checks the constraints of the rows it leaves.  The order in which the rows of a
    SELECT reach the INSERT around it is a parameter ([Scan]) of which only is supposed that it
    permutes them.  Between the operations on handles the other transactions may change every
    table the operations only read, in any way; the handles, locks and pending deletions are
    left to the operations modelled.

    ** Not modelled

    The asynchronous runtime, SQL persistence, transports, protobuf encodings and all client
    protocols.  Of the filesystem crate, the stores of staged writes, content and history, the
    transactions that publish, rename and remove files, and of handles creation through an open,
    flush plans, reads, the relocation of a renamed file and the consumption of a pending
    deletion; of the
    acknowledgements of federated mutations only what reading one back reports.  The triggers of
    migrations 043 and 044 write tables of their own, which nothing modelled here reads.
    Accessors that return a field are the record projections; static component
    descriptors are not represented.  Still to do, in this order: linearizable reads on top
    of log agreement, and agreement across a whole chain of reconfigurations, whose first and
    last plans are not neighbours; the other publications as
    whole transactions; the acknowledgement of published writes; the credential texts of the domain crate (pairing invitations, join
    grants, session tokens, API keys, recovery codes), whose secrets come from HMAC and the
    system's randomness. *)

From Stdlib Require Import Ascii String.
From stdpp Require Import prelude gmap sorting list numbers.

Declare Scope mesh_scope.
Delimit Scope mesh_scope with mesh.
#[local] Open Scope N_scope.

(** * Fallible results: Rust's [Result<A, E>] *)

Inductive result (E A : Type) : Type :=
| Ok (a : A)
| Err (e : E).
Arguments Ok {E A} a.
Arguments Err {E A} e.

#[export] Instance result_ret E : MRet (result E) := fun _ a => Ok a.
#[export] Instance result_bind E : MBind (result E) :=
  fun _ _ f m => match m with Ok a => f a | Err e => Err e end.
#[export] Instance result_fmap E : FMap (result E) :=
  fun _ _ f m => match m with Ok a => Ok (f a) | Err e => Err e end.

#[export] Instance result_eq_dec E A `{EqDecision E, EqDecision A} : EqDecision (result E A).
Proof. solve_decision. Defined.

(** [Option::ok_or] and [Result::map_err(|_| e)]. *)
Definition ok_or {E A} (o : option A) (e : E) : result E A :=
  match o with Some a => Ok a | None => Err e end.

Definition map_err {E F A} (f : E -> F) (r : result E A) : result F A :=
  match r with Ok a => Ok a | Err e => Err (f e) end.

Definition is_ok {E A} (r : result E A) : bool :=
  match r with Ok _ => true | Err _ => false end.

Definition is_err {E A} (r : result E A) : bool := negb (is_ok r).

(** [iter().try_fold(init, f)]. *)
Fixpoint try_fold {E A B} (f : A -> B -> result E A) (acc : A) (l : list B) : result E A :=
  match l with
  | [] => Ok acc
  | x :: rest => acc' ← f acc x; try_fold f acc' rest
  end.

(** [iter().map(f).collect::<Result<Vec<_>, _>>()]. *)
Fixpoint try_map {E A B} (f : A -> result E B) (l : list A) : result E (list B) :=
  match l with
  | [] => Ok []
  | x :: rest => y ← f x; ys ← try_map f rest; Ok (y :: ys)
  end.

(** A loop that returns the first [Some] it computes. *)
Fixpoint try_find_map {E A B} (f : A -> result E (option B)) (l : list A) : result E (option B) :=
  match l with
  | [] => Ok None
  | x :: rest => r ← f x; match r with Some y => Ok (Some y) | None => try_find_map f rest end
  end.

(** A loop that returns [false] at the first failed test. *)
Fixpoint try_forallb {E A} (f : A -> result E bool) (l : list A) : result E bool :=
  match l with
  | [] => Ok true
  | x :: rest => f x ≫= fun b : bool => if b then try_forallb f rest else Ok false
  end.

Lemma try_map_id {E A} (f : A -> result E A) l l' :
  (forall x y, f x = Ok y -> y = x) -> try_map f l = Ok l' -> l' = l.
Proof.
  intros Hf. revert l'. induction l as [|x l IH]; intros l'; cbn; [by intros [= <-]|].
  destruct (f x) as [y|] eqn:Ef; [|done]. cbn. destruct (try_map f l) as [ys|]; [|done]. cbn. intros [= <-].
  by rewrite (Hf _ _ Ef), (IH ys).
Qed.

Lemma try_map_Forall2 {E A B} (f : A -> result E B) l k :
  try_map f l = Ok k <-> Forall2 (fun x y => f x = Ok y) l k.
Proof.
  revert k. induction l as [|x l IH]; intros k; cbn.
  - split; [intros [= <-]; constructor|by intros ->%Forall2_nil_inv_l].
  - split.
    + destruct (f x) as [y|] eqn:Ef; [|done]. cbn. destruct (try_map f l) as [ys|]; [|done]. cbn. intros [= <-].
      constructor; [done|]. by apply IH.
    + intros (y & ys & Hy & Hys & ->)%Forall2_cons_inv_l. rewrite Hy. cbn. by rewrite (proj2 (IH ys) Hys).
Qed.

(** * State and errors: a method on [&mut self] returning [Result].
    An error keeps whatever was mutated before it was raised. *)

Definition SE (S E A : Type) : Type := S -> result E A * S.

#[export] Instance SE_ret S E : MRet (SE S E) := fun _ a s => (Ok a, s).
#[export] Instance SE_bind S E : MBind (SE S E) :=
  fun _ _ f m s =>
    match m s with
    | (Ok a, s') => f a s'
    | (Err e, s') => (Err e, s')
    end.

Section se_operations.
Context {S E : Type}.

Definition get_state : SE S E S := fun s => (Ok s, s).
Definition modify_state (f : S -> S) : SE S E unit := fun s => (Ok tt, f s).
Definition raise {A} (e : E) : SE S E A := fun s => (Err e, s).
Definition lift {A} (r : result E A) : SE S E A := fun s => (r, s).
Definition reads {A} (f : S -> A) : SE S E A := fun s => (Ok (f s), s).

(** A loop over an iterator that collects one output per element and stops at
    the first error ([for] with [?], or [map(..).collect::<Result<_, _>>()]). *)
Fixpoint traverse {A B} (f : A -> SE S E B) (l : list A) : SE S E (list B) :=
  match l with
  | [] => mret []
  | x :: l' => y ← f x; ys ← traverse f l'; mret (y :: ys)
  end.

(** Partial-correctness assertion: every outcome of [m] from [s] satisfies [Q]. *)
Definition post {A} (m : SE S E A) (s : S) (Q : result E A -> S -> Prop) : Prop :=
  Q (fst (m s)) (snd (m s)).

Lemma post_intro {A} (m : SE S E A) s Q r s' :
  m s = (r, s') -> post m s Q -> Q r s'.
Proof. unfold post. by intros ->. Qed.

Lemma post_mono {A} (m : SE S E A) s (Q R : result E A -> S -> Prop) :
  post m s Q -> (forall r s', Q r s' -> R r s') -> post m s R.
Proof. unfold post. auto. Qed.

Lemma post_bind {A B} (m : SE S E A) (f : A -> SE S E B) s (Q : result E B -> S -> Prop) :
  post m s (fun r s' => match r with Ok a => post (f a) s' Q | Err e => Q (Err e) s' end) ->
  post (m ≫= f) s Q.
Proof. unfold post, mbind, SE_bind. by destruct (m s) as [[a|e] s']. Qed.

Lemma se_bind_Ok {A B} (m : SE S E A) (f : A -> SE S E B) s b s' :
  (m ≫= f) s = (Ok b, s') <-> exists a s1, m s = (Ok a, s1) /\ f a s1 = (Ok b, s').
Proof. unfold mbind, SE_bind. destruct (m s) as [[a|e] s1]; naive_solver. Qed.

Lemma post_ret {A} (a : A) s (Q : result E A -> S -> Prop) :
  Q (Ok a) s -> post (mret a) s Q.
Proof. done. Qed.

Lemma post_traverse {A B} (f : A -> SE S E B) (l : list A) s
    (I : list B -> S -> Prop) (Q : result E (list B) -> S -> Prop) :
  I [] s ->
  (forall x ys s', x ∈ l -> I ys s' ->
     post (f x) s' (fun r s'' => match r with Ok y => I (ys ++ [y]) s'' | Err e => Q (Err e) s'' end)) ->
  (forall ys s', I ys s' -> Q (Ok ys) s') ->
  post (traverse f l) s Q.
Proof.
  intros H0 Hstep Hend.
  enough (forall l' pre s0, (forall x, x ∈ l' -> x ∈ l) -> I pre s0 ->
    post (traverse f l') s0
      (fun r s' => match r with Ok ys => I (pre ++ ys) s' | Err e => Q (Err e) s' end)) as Hgen.
  { eapply post_mono; [exact (Hgen l [] s (fun _ h => h) H0)|].
    intros [ys|e] s'; simpl; auto. }
  clear H0 s. induction l' as [|x l' IH]; intros pre s0 Hsub HI; simpl.
  - apply post_ret. by rewrite app_nil_r.
  - apply post_bind. eapply post_mono; [apply Hstep; [set_solver|exact HI]|].
    intros [y|e] s1; [|done]. intros HI1. apply post_bind.
    eapply post_mono; [apply (IH _ _ ltac:(set_solver) HI1)|].
    intros [ys|e] s2; [|done]. intros HI2. apply post_ret. by rewrite cons_middle, assoc by apply _.
Qed.

Lemma post_raise {A} (e : E) s (Q : result E A -> S -> Prop) : Q (Err e) s -> post (raise e) s Q.
Proof. done. Qed.

Lemma post_get_bind {B} (f : S -> SE S E B) s Q : post (f s) s Q -> post (get_state ≫= f) s Q.
Proof. done. Qed.

Lemma post_modify {g : S -> S} s (Q : result E unit -> S -> Prop) : Q (Ok tt) (g s) -> post (modify_state g) s Q.
Proof. done. Qed.

Lemma post_modify_bind {B} (g : S -> S) (f : unit -> SE S E B) s Q :
  post (f tt) (g s) Q -> post (modify_state g ≫= f) s Q.
Proof. done. Qed.

Lemma post_lift {A} (r : result E A) s (Q : result E A -> S -> Prop) : Q r s -> post (lift r) s Q.
Proof. done. Qed.

Lemma post_lift_bind {A B} (r : result E A) (f : A -> SE S E B) s Q :
  (forall a, r = Ok a -> post (f a) s Q) -> (forall e, r = Err e -> Q (Err e) s) -> post (lift r ≫= f) s Q.
Proof. intros H1 H2. unfold post, mbind, SE_bind, lift. destruct r; [by apply H1|by apply H2]. Qed.

(** [m] only moves along the relation [R], whether or not it succeeds. *)
Definition keeps {A} (R : S -> S -> Prop) (m : SE S E A) : Prop :=
  forall s, post m s (fun _ s' => R s s').

Section keeping.
Context (R : S -> S -> Prop) `{!PreOrder R}.

Lemma keeps_ret {A} (a : A) : keeps R (mret a).
Proof. intros s. apply post_ret. reflexivity. Qed.

Lemma keeps_raise {A} (e : E) : keeps (A := A) R (raise e).
Proof. intros s. apply post_raise. reflexivity. Qed.

Lemma keeps_lift {A} (r : result E A) : keeps R (lift r).
Proof. intros s. apply post_lift. reflexivity. Qed.

Lemma keeps_get : keeps R get_state.
Proof. intros s. unfold post. reflexivity. Qed.

Lemma keeps_modify (g : S -> S) : (forall s, R s (g s)) -> keeps R (modify_state g).
Proof. intros Hg s. apply post_modify. auto. Qed.

Lemma keeps_bind {A B} (m : SE S E A) (f : A -> SE S E B) :
  keeps R m -> (forall a, keeps R (f a)) -> keeps R (m ≫= f).
Proof.
  intros Hm Hf s. apply post_bind. eapply post_mono; [apply Hm|]. intros [a|e] s' H1; [|done].
  eapply post_mono; [apply Hf|]. intros r s'' H2. by etransitivity.
Qed.

(** Code that reads the state first is checked from the state it read. *)
Lemma keeps_get_bind {B} (f : S -> SE S E B) :
  (forall s, post (f s) s (fun _ s' => R s s')) -> keeps R (get_state ≫= f).
Proof. intros Hf s. apply post_get_bind, Hf. Qed.

Lemma keeps_post_bind {A B} (m : SE S E A) (f : A -> SE S E B) s :
  post m s (fun _ s' => R s s') -> (forall a, keeps R (f a)) -> post (m ≫= f) s (fun _ s' => R s s').
Proof.
  intros Hm Hf. apply post_bind. eapply post_mono; [exact Hm|]. intros [a|e] s' H1; [|done].
  eapply post_mono; [apply Hf|]. intros r s'' H2. by etransitivity.
Qed.

Lemma keeps_traverse {A B} (f : A -> SE S E B) (l : list A) :
  (forall x, keeps R (f x)) -> keeps R (traverse f l).
Proof.
  intros Hf. induction l as [|x l IH]; cbn [traverse]; [apply keeps_ret|].
  apply keeps_bind; [apply Hf|]. intros y. apply keeps_bind; [apply IH|]. intros ys. apply keeps_ret.
Qed.

End keeping.

End se_operations.

Arguments post {S E A} m s Q : simpl never.

(** * Unsigned machine integers *)

Definition u8_max : N := 255.
Definition u16_max : N := 65535.
Definition u32_max : N := 4294967295.
Definition u64_max : N := 18446744073709551615.
Definition usize_max : N := u64_max.

Definition checked_add (limit a b : N) : option N :=
  if a + b <=? limit then Some (a + b) else None.
Definition checked_sub (a b : N) : option N :=
  if b <=? a then Some (a - b) else None.
Definition checked_mul (limit a b : N) : option N :=
  if a * b <=? limit then Some (a * b) else None.
Definition saturating_add (limit a b : N) : N := N.min (a + b) limit.
Definition saturating_sub (a b : N) : N := a - b.
(** [uN::try_from(x)] for a narrower unsigned type. *)
Definition try_narrow (limit x : N) : option N := if x <=? limit then Some x else None.
(** [u64::try_from(len).unwrap_or(u64::MAX)]. *)
Definition u64_of_len (x : N) : N := default u64_max (try_narrow u64_max x).

Definition len {A} (l : list A) : N := N.of_nat (length l).

Lemma checked_add_Some limit a b c :
  checked_add limit a b = Some c <-> c = a + b /\ a + b <= limit.
Proof. unfold checked_add. destruct (N.leb_spec (a + b) limit); naive_solver lia. Qed.

Lemma checked_add_None limit a b : checked_add limit a b = None <-> limit < a + b.
Proof. unfold checked_add. destruct (N.leb_spec (a + b) limit); naive_solver lia. Qed.

Lemma checked_sub_Some a b c : checked_sub a b = Some c <-> c = a - b /\ b <= a.
Proof. unfold checked_sub. destruct (N.leb_spec b a); naive_solver lia. Qed.

Lemma checked_mul_Some limit a b c : checked_mul limit a b = Some c <-> c = a * b /\ a * b <= limit.
Proof. unfold checked_mul. destruct (N.leb_spec (a * b) limit); naive_solver lia. Qed.

Lemma try_narrow_Some limit x y : try_narrow limit x = Some y <-> y = x /\ x <= limit.
Proof. unfold try_narrow. destruct (N.leb_spec x limit); naive_solver lia. Qed.

Lemma ok_or_Ok {E A} (o : option A) (e : E) a : ok_or o e = Ok a <-> o = Some a.
Proof. destruct o; simpl; naive_solver. Qed.

Lemma map_err_Ok {E F A} (f : E -> F) (r : result E A) a : map_err f r = Ok a <-> r = Ok a.
Proof. destruct r; simpl; naive_solver. Qed.

Lemma result_bind_Ok {E A B} (f : A -> result E B) (m : result E A) b :
  m ≫= f = Ok b <-> exists a, m = Ok a /\ f a = Ok b.
Proof. destruct m; simpl; naive_solver. Qed.

Lemma Ok_inj {E A} (a b : A) : Ok (E := E) a = Ok b -> a = b.
Proof. by intros [=]. Qed.

Lemma len_app {A} (l k : list A) : len (l ++ k) = len l + len k.
Proof. unfold len. rewrite length_app. lia. Qed.

Lemma len_cons {A} (x : A) l : len (x :: l) = len l + 1.
Proof. unfold len. simpl. lia. Qed.

(** * Ordered iteration
    A [BTreeSet<K>] of numerically ordered keys is a [gset N]; iterating over it
    visits its elements in increasing order. *)

Definition ascending (s : gset N) : list N := merge_sort N.le (elements s).

#[global] Instance N_le_total : Total N.le.
Proof. intros x y. lia. Qed.

Lemma ascending_perm s : ascending s ≡ₚ elements s.
Proof. apply merge_sort_Permutation. Qed.

Lemma ascending_sorted s : StronglySorted N.le (ascending s).
Proof. apply StronglySorted_merge_sort; apply _. Qed.

Lemma ascending_NoDup s : NoDup (ascending s).
Proof. rewrite ascending_perm. apply NoDup_elements. Qed.

Lemma elem_of_ascending x s : x ∈ ascending s <-> x ∈ s.
Proof. rewrite ascending_perm. apply elem_of_elements. Qed.

Lemma length_ascending s : length (ascending s) = size s.
Proof. by rewrite ascending_perm. Qed.

(** The ordered listing determines the set. *)
Lemma list_to_set_ascending s : list_to_set (ascending s) = s.
Proof. apply set_eq. intros x. by rewrite elem_of_list_to_set, elem_of_ascending. Qed.

(** A [BTreeMap<K, V>] iterates over its bindings by increasing key. *)
Definition ascending_map {V} (m : gmap N V) : list (N * V) :=
  omap (fun k => (fun v => (k, v)) <$> m !! k) (ascending (dom m)).

Lemma elem_of_ascending_map {V} (m : gmap N V) k v :
  (k, v) ∈ ascending_map m <-> m !! k = Some v.
Proof.
  unfold ascending_map. rewrite list_elem_of_omap. split.
  - intros (k' & _ & Hk). destruct (m !! k') eqn:E; simplify_eq/=. done.
  - intros Hk. exists k. rewrite elem_of_ascending, elem_of_dom, Hk. eauto.
Qed.

Lemma ascending_map_keys {V} (m : gmap N V) : (ascending_map m).*1 = ascending (dom m).
Proof.
  unfold ascending_map. assert (forall k, k ∈ ascending (dom m) -> is_Some (m !! k)) as Hall
    by (intros k Hk; by apply elem_of_ascending, elem_of_dom in Hk).
  induction (ascending (dom m)) as [|k ks IH]; [done|]. cbn [omap list_omap].
  destruct (Hall k) as [v Hv]; [by left|]. rewrite Hv. cbn. f_equal. apply IH. intros k' Hk'. apply Hall. by right.
Qed.

Lemma ascending_map_NoDup {V} (m : gmap N V) : NoDup (ascending_map m).*1.
Proof. rewrite ascending_map_keys. apply ascending_NoDup. Qed.

(** Half-open ranges [lo..hi] of unsigned integers, in increasing order. *)
Definition range (lo hi : N) : list N := (fun i => lo + N.of_nat i) <$> seq 0 (N.to_nat (hi - lo)).

Lemma elem_of_range x lo hi : x ∈ range lo hi <-> lo <= x < hi.
Proof.
  unfold range. rewrite list_elem_of_fmap. split.
  - intros (i & -> & Hi%elem_of_seq). lia.
  - intros H. exists (N.to_nat (x - lo)). rewrite elem_of_seq. lia.
Qed.

(** [slice.get(index)] for a machine index. *)
Definition nth_N {A} (l : list A) (i : N) : option A :=
  if i <? len l then l !! N.to_nat i else None.

Lemma nth_N_lookup {A} (l : list A) i : nth_N l i = l !! N.to_nat i.
Proof.
  unfold nth_N, len. destruct (N.ltb_spec i (N.of_nat (length l))); [done|].
  symmetry. apply lookup_ge_None. lia.
Qed.

(** * Byte strings and big-endian integers *)

Abbreviation bytes := (list N) (only parsing).

(** [x.to_be_bytes()] of an unsigned integer of [n] bytes. *)
Fixpoint be_bytes (n : nat) (x : N) : bytes :=
  match n with
  | O => []
  | S n' => (x / 256 ^ N.of_nat n') mod 256 :: be_bytes n' x
  end.

(** [uN::from_be_bytes]. *)
Definition of_be_bytes (l : bytes) : N := foldl (fun acc b => acc * 256 + b) 0 l.

Definition zero32 : bytes := replicate 32 0.

(** A byte-string literal such as [b"MSQP"]. *)
Definition ascii_bytes (s : string) : bytes := map N_of_ascii (list_ascii_of_string s).

(** SHA-256 comes from the [sha2] crate: a parameter of everything that hashes. *)
Class Sha256 := sha256 : bytes -> bytes.

(** Collision resistance, idealised: distinct messages have distinct digests. *)
Class CollisionFree `{Sha256} : Prop := sha256_inj : Inj (=) (=) sha256.

Lemma length_be_bytes n x : length (be_bytes n x) = n.
Proof. induction n as [|n IH]; [done|]. cbn [be_bytes length]. by rewrite IH. Qed.

Lemma len_be_bytes n x : len (be_bytes n x) = N.of_nat n.
Proof. unfold len. by rewrite length_be_bytes. Qed.

Lemma of_be_bytes_acc l acc :
  foldl (fun acc b => acc * 256 + b) acc l = acc * 256 ^ len l + of_be_bytes l.
Proof.
  unfold of_be_bytes. revert acc. induction l as [|b l IH]; intros acc; simpl.
  - rewrite N.pow_0_r. lia.
  - rewrite (IH (acc * 256 + b)), (IH (0 * 256 + b)), len_cons.
    rewrite N.pow_add_r, N.pow_1_r. lia.
Qed.

Lemma of_be_bytes_cons b l : of_be_bytes (b :: l) = b * 256 ^ len l + of_be_bytes l.
Proof. unfold of_be_bytes at 1. simpl. rewrite of_be_bytes_acc. lia. Qed.

Lemma of_be_bytes_be_bytes n x : of_be_bytes (be_bytes n x) = x mod 256 ^ N.of_nat n.
Proof.
  induction n as [|n IH]; [cbn; by rewrite N.mod_1_r|].
  cbn [be_bytes]. rewrite of_be_bytes_cons, IH. unfold len. rewrite length_be_bytes.
  rewrite Nat2N.inj_succ, N.pow_succ_r'.
  rewrite (N.mul_comm 256), N.Div0.mod_mul_r. lia.
Qed.

Lemma be_roundtrip n x : x < 256 ^ N.of_nat n -> of_be_bytes (be_bytes n x) = x.
Proof. intros. rewrite of_be_bytes_be_bytes. by apply N.mod_small. Qed.

(** Equal widths and equal bytes mean equal values: the encoding is injective. *)
Lemma be_bytes_inj n x y :
  x < 256 ^ N.of_nat n -> y < 256 ^ N.of_nat n -> be_bytes n x = be_bytes n y -> x = y.
Proof. intros Hx Hy E. by rewrite <- (be_roundtrip n x), <- (be_roundtrip n y), E. Qed.

(** Lexicographic order on byte strings ([Ord for [u8]] and [Vec<u8>]). *)
Fixpoint bytes_le (l k : bytes) : Prop :=
  match l, k with
  | [], _ => True
  | _ :: _, [] => False
  | x :: l', y :: k' => x < y \/ (x = y /\ bytes_le l' k')
  end.

#[global] Instance bytes_le_dec : RelDecision bytes_le.
Proof. intros l. induction l as [|x l IH]; intros [|y k]; simpl; apply _. Defined.

#[global] Instance bytes_le_total : Total bytes_le.
Proof.
  intros l. induction l as [|x l IH]; intros [|y k]; simpl; auto.
  destruct (IH k), (N.lt_trichotomy x y) as [|[|]]; auto.
Qed.

#[global] Instance bytes_le_trans : Transitive bytes_le.
Proof.
  intros l. induction l as [|x l IH]; intros [|y k] [|z m]; simpl; try done.
  intros [?|[-> ?]] [?|[-> ?]]; eauto; left; lia.
Qed.

#[global] Instance bytes_le_antisymm : AntiSymm (=) bytes_le.
Proof.
  intros l. induction l as [|x l IH]; intros [|y k]; simpl; try done.
  intros [?|[-> ?]] [?|[? ?]]; try lia. f_equal. auto.
Qed.

#[global] Instance bytes_le_refl : Reflexive bytes_le.
Proof. intros l. induction l; simpl; auto. Qed.

(** Only the low-order bytes matter. *)
Lemma be_bytes_mod k m z : (m <= k)%nat -> be_bytes m z = be_bytes m (z mod 256 ^ N.of_nat k).
Proof.
  induction m as [|m IHm]; intros Hm; [done|]. cbn [be_bytes]. f_equal; [|apply IHm; lia].
  apply N.bits_inj; intros q.
  change 256 with (2 ^ 8). rewrite <- !N.pow_mul_r.
  destruct (N.lt_ge_cases q 8).
  - rewrite !N.mod_pow2_bits_low, !N.div_pow2_bits by done.
    rewrite N.mod_pow2_bits_low; [done|lia].
  - by rewrite !N.mod_pow2_bits_high.
Qed.

(** Fixed-width big-endian encoding turns numeric order into byte order: an
    identifier may be compared as a number where the code compares arrays. *)
Lemma be_bytes_le n x y :
  x < 256 ^ N.of_nat n -> y < 256 ^ N.of_nat n ->
  bytes_le (be_bytes n x) (be_bytes n y) <-> x <= y.
Proof.
  revert x y. induction n as [|n IH]; intros x y Hx Hy.
  - cbn in *. lia.
  - rewrite Nat2N.inj_succ, N.pow_succ_r' in Hx, Hy. cbn [be_bytes bytes_le].
    set (B := 256 ^ N.of_nat n) in *. assert (0 < B) by (subst B; lia).
    rewrite !(N.mod_small (_ / B)) by (apply N.Div0.div_lt_upper_bound; lia).
    rewrite (be_bytes_mod n n x), (be_bytes_mod n n y) by lia. fold B.
    rewrite IH by (apply N.mod_lt; lia).
    generalize (N.div_mod x B ltac:(lia)), (N.div_mod y B ltac:(lia)),
      (N.mod_lt x B ltac:(lia)), (N.mod_lt y B ltac:(lia)).
    generalize (x / B) (y / B) (x mod B) (y mod B). clear -H. clearbody B.
    intros qx qy rx ry -> -> Hrx Hry. destruct (N.lt_trichotomy qx qy) as [Hq|[->|Hq]].
    + assert (B * (qx + 1) <= B * qy) by (apply N.mul_le_mono_l; lia). lia.
    + lia.
    + assert (B * (qy + 1) <= B * qx) by (apply N.mul_le_mono_l; lia). lia.
Qed.

Arguments be_bytes : simpl never.

(** * Automation *)

Create HintDb mesh discriminated.
#[export] Hint Resolve ascending_NoDup : mesh.
#[export] Hint Rewrite @elem_of_ascending @elem_of_range : mesh.

(** Turn boolean tests of the code into the propositions they decide. *)
Ltac bool_cases :=
  repeat match goal with
  | H : _ && _ = true |- _ => apply andb_true_iff in H as [? ?]
  | H : _ || _ = false |- _ => apply orb_false_iff in H as [? ?]
  | H : negb _ = true |- _ => apply negb_true_iff in H
  | H : negb _ = false |- _ => apply negb_false_iff in H
  | H : bool_decide _ = true |- _ => apply bool_decide_eq_true in H
  | H : bool_decide _ = false |- _ => apply bool_decide_eq_false in H
  | H : (_ <=? _) = true |- _ => apply N.leb_le in H
  | H : (_ <=? _) = false |- _ => apply N.leb_gt in H
  | H : (_ <? _) = true |- _ => apply N.ltb_lt in H
  | H : (_ <? _) = false |- _ => apply N.ltb_ge in H
  | H : (_ =? _) = true |- _ => apply N.eqb_eq in H
  | H : (_ =? _) = false |- _ => apply N.eqb_neq in H
  end.

(** Invert a successful chain of fallible steps. *)
Ltac inv_ok :=
  repeat match goal with
  | H : mret _ = Ok _ |- _ => apply Ok_inj in H; subst
  | H : Ok _ = Ok _ |- _ => apply Ok_inj in H; subst
  | H : (_, _) = (_, _) |- _ => apply pair_equal_spec in H as [? ?]; subst
  | H : Err _ = Ok _ |- _ => discriminate H
  | H : _ ≫= _ = Ok _ |- _ => apply result_bind_Ok in H as (? & ? & ?)
  | H : ok_or _ _ = Ok _ |- _ => apply ok_or_Ok in H
  | H : map_err _ _ = Ok _ |- _ => apply map_err_Ok in H
  | H : checked_add _ _ _ = Some _ |- _ => apply checked_add_Some in H as [? ?]; subst
  | H : checked_sub _ _ = Some _ |- _ => apply checked_sub_Some in H as [? ?]; subst
  | H : checked_mul _ _ _ = Some _ |- _ => apply checked_mul_Some in H as [? ?]; subst
  | H : try_narrow _ _ = Some _ |- _ => apply try_narrow_Some in H as [? ?]; subst
  | H : (if ?b then Err _ else _) = Ok _ |- _ => destruct b eqn:?; [discriminate H|]
  | H : (if ?b then _ else Err _) = Ok _ |- _ => destruct b eqn:?; [|discriminate H]
  | H : (let '(_, _) := ?p in _) = Ok _ |- _ => destruct p eqn:?
  end.

(** Invert a successful run of a stateful method. *)
Ltac inv_se :=
  repeat match goal with
  | H : (_ ≫= _) _ = (Ok _, _) |- _ => apply se_bind_Ok in H as (? & ? & ? & ?)
  | H : get_state _ = (Ok _, _) |- _ => unfold get_state in H
  | H : lift _ _ = (Ok _, _) |- _ => unfold lift in H
  | H : modify_state _ _ = (Ok _, _) |- _ => unfold modify_state in H
  | H : reads _ _ = (Ok _, _) |- _ => unfold reads in H
  | H : mret _ _ = (Ok _, _) |- _ => unfold mret, SE_ret in H
  | H : raise _ _ = (Ok _, _) |- _ => discriminate H
  | H : (Ok _, _) = (Ok _, _) |- _ => apply pair_equal_spec in H as [? ?]; subst
  | H : (_, _) = (Ok _, _) |- _ => apply pair_equal_spec in H as [? ?]; subst
  | H : (if ?b then raise _ else _) _ = (Ok _, _) |- _ => destruct b eqn:?; [discriminate H|]
  | H : (if ?b then _ else raise _) _ = (Ok _, _) |- _ => destruct b eqn:?; [|discriminate H]
  | H : (let '(_, _) := ?p in _) _ = (Ok _, _) |- _ => destruct p eqn:?
  end; inv_ok.

(** [iter().enumerate()]. *)
Definition enumerate {A} (l : list A) : list (N * A) := imap (fun i x => (N.of_nat i, x)) l.

Lemma filter_all {A} (P : A -> Prop) `{!forall x, Decision (P x)} (l : list A) : (forall x, x ∈ l -> P x) -> filter P l = l.
Proof. induction l as [|x l IH]; intros Hl; [done|]. rewrite filter_cons, decide_True by (apply Hl; by left). f_equal. apply IH. intros y Hy. apply Hl. by right. Qed.

Lemma size_list_to_set_NoDup (l : list N) : size (list_to_set l : gset N) = length l <-> NoDup l.
Proof.
  split; [|apply size_list_to_set]. induction l as [|x l IH]; [constructor|]. cbn [list_to_set length]. intros E.
  assert (size (list_to_set l : gset N) <= length l)%nat as Hle.
  { clear. induction l as [|x l IH]; cbn; [by rewrite size_empty|]. rewrite size_union_alt, size_singleton.
    pose proof (subseteq_size (list_to_set l ∖ {[x]}) (list_to_set l : gset N) ltac:(set_solver)). lia. }
  destruct (decide (x ∈ l)) as [Hx|Hx].
  - rewrite subseteq_union_1_L in E by set_solver. lia.
  - rewrite size_union, size_singleton in E by set_solver. constructor; [done|apply IH; lia].
Qed.

Lemma len_list_to_set_NoDup (l : list N) : N.of_nat (size (list_to_set (C := gset N) l)) = len l <-> NoDup l.
Proof. rewrite <- size_list_to_set_NoDup. unfold len. split; [apply Nat2N.inj|by intros ->]. Qed.

Lemma enumerate_snoc {A} (l : list A) x : enumerate (l ++ [x]) = enumerate l ++ [(len l, x)].
Proof. unfold enumerate, len. rewrite imap_app. simpl. by rewrite Nat.add_0_r. Qed.

Lemma elem_of_enumerate {A} (l : list A) i x :
  (i, x) ∈ enumerate l <-> l !! N.to_nat i = Some x.
Proof.
  unfold enumerate. rewrite elem_of_lookup_imap. split.
  - intros (j & y & ? & ?). simplify_eq. by rewrite Nat2N.id.
  - intros H. exists (N.to_nat i), x. rewrite N2Nat.id. auto.
Qed.
