(* ===== verification/VoterSet.v ===== *)
(** Compact voter subsets: [VoterSet] of quorum/compile.rs, a [u16] bit mask under
    a plan's canonical voter order, with the set reading of each operation. *)

From S2P Require Import Prelude.
From stdpp Require Import prelude gmap.
#[local] Open Scope N_scope.

(** The mask itself; bit [i] stands for the [i]-th voter of the canonical order. *)
Abbreviation VoterSet := N (only parsing).

Module Voters.

Definition EMPTY : VoterSet := 0.

(** [1_u16 << bit]; the shift amount is reduced modulo the width, as an unchecked
    shift does. Plans have at most nine voters, so the reduction never acts. *)
Definition bit_mask (bit : N) : VoterSet := N.shiftl 1 (bit mod 16).

Definition bits (s : VoterSet) : N := s.

Definition intersects (s other : VoterSet) : bool := negb (N.land s other =? 0).

Definition contains (s required : VoterSet) : bool := N.land s required =? required.

Definition contains_bit (s : VoterSet) (bit : N) : bool := negb (N.land s (bit_mask bit) =? 0).

Definition from_nodes (ordered : list N) (nodes : gset N) : VoterSet :=
  foldl (fun mask '(index, voter) =>
           if bool_decide (voter ∈ nodes)
           then match try_narrow u8_max index with
                | Some bit => N.lor mask (bit_mask bit)
                | None => mask
                end
           else mask)
        0 (enumerate ordered).

Definition to_nodes (s : VoterSet) (ordered : list N) : gset N :=
  list_to_set (omap (fun '(index, voter) =>
                       match try_narrow u8_max index with
                       | Some bit => if contains_bit s bit then Some voter else None
                       | None => None
                       end) (enumerate ordered)).

(** ** Set reading *)

Lemma contains_spec s r :
  contains s r = true <-> forall i, N.testbit r i = true -> N.testbit s i = true.
Proof.
  unfold contains. rewrite N.eqb_eq. split.
  - intros E i Hr. rewrite <- E in Hr. rewrite N.land_spec in Hr. by destruct (N.testbit s i).
  - intros H. apply N.bits_inj. intros i. rewrite N.land_spec.
    specialize (H i). destruct (N.testbit s i), (N.testbit r i); simpl; auto.
Qed.

Lemma intersects_spec s r :
  intersects s r = true <-> exists i, N.testbit s i = true /\ N.testbit r i = true.
Proof.
  unfold intersects. rewrite negb_true_iff, N.eqb_neq. split.
  - intros Hne. destruct (N.land s r) as [|p] eqn:E; [done|].
    exists (N.log2 (N.pos p)). rewrite <- andb_true_iff, <- N.land_spec, E.
    by apply N.bit_log2.
  - intros (i & Hs & Hr) E. assert (N.testbit (N.land s r) i = true) as Hi.
    { by rewrite N.land_spec, Hs, Hr. }
    by rewrite E, N.bits_0 in Hi.
Qed.

Lemma bit_mask_testbit b i : b < 16 -> N.testbit (bit_mask b) i = (i =? b).
Proof.
  intros Hb. unfold bit_mask. rewrite N.mod_small by done.
  rewrite N.shiftl_1_l, N.pow2_bits_eqb. apply N.eqb_sym.
Qed.

Lemma contains_bit_spec s b : b < 16 -> contains_bit s b = N.testbit s b.
Proof.
  intros Hb. apply eq_iff_eq_true. change (contains_bit s b) with (intersects s (bit_mask b)).
  rewrite intersects_spec. split.
  - intros (i & Hi & Hm). rewrite bit_mask_testbit in Hm by done. apply N.eqb_eq in Hm. by subst.
  - intros H. exists b. rewrite bit_mask_testbit, N.eqb_refl by done. auto.
Qed.

Lemma contains_refl s : contains s s = true.
Proof. by apply contains_spec. Qed.

Lemma contains_trans s r t : contains s r = true -> contains r t = true -> contains s t = true.
Proof. rewrite !contains_spec. auto. Qed.

Lemma contains_antisym s r : contains s r = true -> contains r s = true -> s = r.
Proof.
  rewrite !contains_spec. intros H1 H2. apply N.bits_inj. intros i.
  specialize (H1 i). specialize (H2 i). destruct (N.testbit s i), (N.testbit r i); auto.
  by symmetry; auto.
Qed.

Lemma contains_le s r : contains s r = true -> r <= s.
Proof.
  unfold contains. intros E%N.eqb_eq. rewrite <- E. apply N.ldiff_le, N.bits_inj. intros i.
  rewrite N.ldiff_spec, N.land_spec, N.bits_0. by destruct (N.testbit s i), (N.testbit r i).
Qed.

Lemma contains_intersects s s' r r' :
  contains s s' = true -> contains r r' = true -> intersects s' r' = true -> intersects s r = true.
Proof. rewrite !contains_spec, !intersects_spec. naive_solver. Qed.

Section canonical_order.
Context (ordered : list N).
Hypothesis Hlen : (length ordered <= 16)%nat.

Lemma from_nodes_spec nodes i :
  N.testbit (from_nodes ordered nodes) i = true <->
  exists v, ordered !! N.to_nat i = Some v /\ v ∈ nodes.
Proof.
  revert Hlen. unfold from_nodes.
  induction ordered as [|v l IH] using rev_ind; intros Hl.
  - simpl. naive_solver.
  - rewrite length_app in Hl. simpl in Hl. specialize (IH ltac:(lia)).
    rewrite enumerate_snoc, foldl_snoc.
    assert (try_narrow u8_max (len l) = Some (len l)) as ->.
    { apply try_narrow_Some. unfold len, u8_max. lia. }
    assert (len l < 16) as Hb by (unfold len; lia).
    transitivity ((exists w, l !! N.to_nat i = Some w /\ w ∈ nodes) \/ (i = len l /\ v ∈ nodes)).
    + rewrite <- IH. case_bool_decide as Hv.
      * rewrite N.lor_spec, orb_true_iff, bit_mask_testbit, N.eqb_eq by done. naive_solver.
      * naive_solver.
    + split.
      * intros [(w & Hw & ?)|[-> ?]].
        -- exists w. by rewrite lookup_app_l by eauto using lookup_lt_Some.
        -- exists v. unfold len. rewrite Nat2N.id. by rewrite list_lookup_middle.
      * intros (w & [Hw|[Hge Hw]]%lookup_app_Some & Hin); [eauto|right].
        destruct (N.to_nat i - length l)%nat eqn:E; [|done]. simplify_eq/=.
        split; [unfold len; lia|done].
Qed.

Lemma from_nodes_bound nodes : from_nodes ordered nodes < 2 ^ len ordered.
Proof.
  destruct (N.eq_dec (from_nodes ordered nodes) 0) as [->|Hne]; [lia|].
  apply N.log2_lt_pow2; [lia|].
  apply N.bit_log2, from_nodes_spec in Hne as (v & Hv%lookup_lt_Some & _).
  unfold len. lia.
Qed.

Lemma from_nodes_mono nodes nodes' :
  nodes ⊆ nodes' -> contains (from_nodes ordered nodes') (from_nodes ordered nodes) = true.
Proof.
  intros Hsub. apply contains_spec. intros i. rewrite !from_nodes_spec. set_solver.
Qed.

Lemma to_nodes_spec s v :
  v ∈ to_nodes s ordered <->
  exists i, ordered !! N.to_nat i = Some v /\ N.testbit s i = true.
Proof.
  unfold to_nodes. rewrite elem_of_list_to_set, list_elem_of_omap.
  assert (forall i w, ordered !! N.to_nat i = Some w -> i < 16) as Hb.
  { intros i w Hi%lookup_lt_Some. lia. }
  split.
  - intros ([i w] & Hi%elem_of_enumerate & Hm). specialize (Hb _ _ Hi).
    replace (try_narrow u8_max i) with (Some i) in Hm
      by (symmetry; apply try_narrow_Some; unfold u8_max; lia).
    rewrite contains_bit_spec in Hm by done. destruct (N.testbit s i) eqn:E; [|done].
    simplify_eq. eauto.
  - intros (i & Hi & Hs). specialize (Hb _ _ Hi). exists (i, v).
    rewrite elem_of_enumerate. split; [done|].
    replace (try_narrow u8_max i) with (Some i)
      by (symmetry; apply try_narrow_Some; unfold u8_max; lia).
    by rewrite contains_bit_spec, Hs by done.
Qed.

(** Acknowledgements cover a required mask exactly when they cover its nodes. *)
Lemma contains_to_nodes acks s :
  s < 2 ^ len ordered ->
  contains (from_nodes ordered acks) s = true <-> to_nodes s ordered ⊆ acks.
Proof.
  intros Hs. rewrite contains_spec. split.
  - intros H v (i & Hi & Hbit)%to_nodes_spec. apply H, from_nodes_spec in Hbit as (w & ? & ?).
    by simplify_eq.
  - intros H i Hbit. apply from_nodes_spec.
    destruct (ordered !! N.to_nat i) as [v|] eqn:Hi.
    + exists v. split; [done|]. apply H, to_nodes_spec. eauto.
    + apply lookup_ge_None in Hi. exfalso.
      assert (len ordered <= i) as Hge by (unfold len; lia).
      rewrite N.bits_above_log2 in Hbit; [done|].
      destruct (N.eq_dec s 0) as [->|]; [by rewrite N.bits_0 in Hbit|].
      apply N.log2_lt_pow2 in Hs; lia.
Qed.

End canonical_order.
End Voters.
