(* ===== verification/Predicate.v ===== *)
(** The bounded quorum expression language of quorum/predicate.rs: its evaluation
    on voter masks, its validation, and the node-set reading both are checked
    against. *)

From S2P Require Import Prelude VoterSet.
From stdpp Require Import prelude gmap.
#[local] Open Scope N_scope.

(** A node identity is its sixteen bytes read as one big-endian number, so the
    derived array order is numeric order ([Prelude.be_bytes_le]). *)
Abbreviation NodeId := N (only parsing).

Inductive QuorumPlanError :=
| InvalidPlan | InvalidMember | InvalidPredicate | NoQuorum | UnsafeIntersection | UnsafeTransition.

#[export] Instance QuorumPlanError_eq_dec : EqDecision QuorumPlanError.
Proof. solve_decision. Defined.

Record WeightedVoter := { voter : NodeId; weight : N }.

#[export] Instance WeightedVoter_eq_dec : EqDecision WeightedVoter.
Proof. solve_decision. Defined.

Inductive QuorumPredicate :=
| Voter (v : NodeId)
| AtLeast (threshold : N) (children : list QuorumPredicate)
| WeightedAtLeast (threshold : N) (voters : list WeightedVoter)
| All_ (children : list QuorumPredicate).

(** Induction through the child lists. *)
Section predicate_induction.
Context (P : QuorumPredicate -> Prop).
Context (HVoter : forall v, P (Voter v)).
Context (HAtLeast : forall t cs, Forall P cs -> P (AtLeast t cs)).
Context (HWeighted : forall t ws, P (WeightedAtLeast t ws)).
Context (HAll : forall cs, Forall P cs -> P (All_ cs)).

Fixpoint QuorumPredicate_nested_ind (p : QuorumPredicate) : P p :=
  let go := fix go (cs : list QuorumPredicate) : Forall P cs :=
    match cs with
    | [] => Forall_nil_2 _
    | c :: cs' => Forall_cons_2 _ _ _ (QuorumPredicate_nested_ind c) (go cs')
    end in
  match p with
  | Voter v => HVoter v
  | AtLeast t cs => HAtLeast t cs (go cs)
  | WeightedAtLeast t ws => HWeighted t ws
  | All_ cs => HAll cs (go cs)
  end.
End predicate_induction.

Definition QuorumPredicate_eq_dec_aux : forall p q : QuorumPredicate, {p = q} + {p <> q}.
Proof.
  fix go 1. intros p q.
  destruct p as [v|t cs|t ws|cs], q as [v'|t' ds|t' xs|ds]; try (right; congruence).
  - destruct (decide (v = v')); [left|right]; congruence.
  - assert ({cs = ds} + {cs <> ds}) as [|].
    { revert ds. induction cs as [|c cs IH]; intros [|d ds]; try (right; congruence); [by left|].
      destruct (go c d), (IH ds); [left|right..]; congruence. }
    all: destruct (decide (t = t')); [left + right|right]; congruence.
  - destruct (decide (t = t')), (decide (ws = xs)); [left|right..]; congruence.
  - assert ({cs = ds} + {cs <> ds}) as [|].
    { revert ds. induction cs as [|c cs IH]; intros [|d ds]; try (right; congruence); [by left|].
      destruct (go c d), (IH ds); [left|right..]; congruence. }
    all: (left + right); congruence.
Defined.

#[export] Instance QuorumPredicate_eq_dec : EqDecision QuorumPredicate := QuorumPredicate_eq_dec_aux.

(** ** Evaluation *)

(** [try_fold(0_u32, checked_add)] over the selected weights. *)
Definition checked_total (ws : list WeightedVoter) : option N :=
  foldl (fun acc w => total ← acc; checked_add u32_max total (weight w)) (Some 0) ws.

Definition voter_acknowledged (acknowledged : VoterSet) (voter_bits : gmap NodeId N) (v : NodeId) : bool :=
  match voter_bits !! v with
  | Some bit => Voters.contains_bit acknowledged bit
  | None => false
  end.

Fixpoint evaluate (p : QuorumPredicate) (acknowledged : VoterSet) (voter_bits : gmap NodeId N) : bool :=
  match p with
  | Voter v => voter_acknowledged acknowledged voter_bits v
  | AtLeast threshold children =>
      threshold <=? len (List.filter (fun c => evaluate c acknowledged voter_bits) children)
  | WeightedAtLeast threshold ws =>
      match checked_total
              (List.filter (fun w => voter_acknowledged acknowledged voter_bits (voter w)) ws) with
      | Some total => threshold <=? total
      | None => false
      end
  | All_ children => forallb (fun c => evaluate c acknowledged voter_bits) children
  end.

(** ** Validation *)

Definition MAXIMUM_PREDICATE_DEPTH : N := 8.
Definition MAXIMUM_PREDICATE_NODES : N := 256.

(** The [for child in children] loop, threading [node_count] and the voters
    referenced so far. *)
Definition validate_children_loop
    (validate : QuorumPredicate -> N -> result QuorumPlanError (gset NodeId * N)) :=
  fix loop (children : list QuorumPredicate) (referenced : gset NodeId) (node_count : N)
    : result QuorumPlanError (gset NodeId * N) :=
    match children with
    | [] => Ok (referenced, node_count)
    | child :: rest =>
        '(child_references, node_count) ← validate child node_count;
        if bool_decide (referenced ## child_references)
        then loop rest (referenced ∪ child_references) node_count
        else Err InvalidPredicate
    end.

Definition validate_disjoint_children
    (validate : QuorumPredicate -> N -> result QuorumPlanError (gset NodeId * N))
    (children : list QuorumPredicate) (node_count : N) : result QuorumPlanError (gset NodeId * N) :=
  match children with
  | [] => Err InvalidPredicate
  | _ => validate_children_loop validate children ∅ node_count
  end.

Fixpoint validate_weighted_loop (weighted : list WeightedVoter) (voters : gset NodeId)
    (referenced : gset NodeId) (total : N) : result QuorumPlanError (gset NodeId * N) :=
  match weighted with
  | [] => Ok (referenced, total)
  | item :: rest =>
      if (weight item =? 0) || negb (bool_decide (voter item ∈ voters))
         || bool_decide (voter item ∈ referenced)
      then Err InvalidPredicate
      else total ← ok_or (checked_add u32_max total (weight item)) InvalidPredicate;
           validate_weighted_loop rest voters ({[voter item]} ∪ referenced) total
  end.

Definition validate_weighted (threshold : N) (weighted : list WeightedVoter) (voters : gset NodeId)
    : result QuorumPlanError (gset NodeId) :=
  if (threshold =? 0) || (len weighted =? 0) then Err InvalidPredicate
  else '(referenced, total) ← validate_weighted_loop weighted voters ∅ 0;
       if total <? threshold then Err InvalidPredicate else Ok referenced.

Fixpoint validate_node (p : QuorumPredicate) (voters : gset NodeId) (depth node_count : N)
    : result QuorumPlanError (gset NodeId * N) :=
  node_count ← ok_or (checked_add usize_max node_count 1) InvalidPredicate;
  if (MAXIMUM_PREDICATE_DEPTH <? depth) || (MAXIMUM_PREDICATE_NODES <? node_count)
  then Err InvalidPredicate
  else
    match p with
    | Voter v => if bool_decide (v ∈ voters) then Ok ({[v]}, node_count) else Err InvalidMember
    | AtLeast threshold children =>
        if (threshold =? 0) || (len children <? threshold) then Err InvalidPredicate
        else validate_disjoint_children (fun c => validate_node c voters (depth + 1)) children node_count
    | All_ children =>
        validate_disjoint_children (fun c => validate_node c voters (depth + 1)) children node_count
    | WeightedAtLeast threshold ws =>
        referenced ← validate_weighted threshold ws voters; Ok (referenced, node_count)
    end.

Definition validate (p : QuorumPredicate) (voters : gset NodeId) : result QuorumPlanError (gset NodeId) :=
  '(referenced, _) ← validate_node p voters 1 0; Ok referenced.

(** ** The reference reading over node sets *)

(** Every voter occurrence, left to right. *)
Fixpoint references (p : QuorumPredicate) : list NodeId :=
  match p with
  | Voter v => [v]
  | AtLeast _ cs => concat (map references cs)
  | WeightedAtLeast _ ws => map voter ws
  | All_ cs => concat (map references cs)
  end.

Fixpoint node_total (p : QuorumPredicate) : N :=
  match p with
  | Voter _ | WeightedAtLeast _ _ => 1
  | AtLeast _ cs | All_ cs => 1 + foldr N.add 0 (map node_total cs)
  end.

Definition total_weight (ws : list WeightedVoter) : N := foldr (fun w t => weight w + t) 0 ws.

(** What a predicate means for a set of acknowledging nodes. *)
Fixpoint holds (p : QuorumPredicate) (acks : gset NodeId) : bool :=
  match p with
  | Voter v => bool_decide (v ∈ acks)
  | AtLeast t cs => t <=? len (List.filter (fun c => holds c acks) cs)
  | WeightedAtLeast t ws =>
      t <=? total_weight (List.filter (fun w => bool_decide (voter w ∈ acks)) ws)
  | All_ cs => forallb (fun c => holds c acks) cs
  end.

(** Local shape conditions at depth [d]: thresholds reachable, children present,
    depth within its bound. *)
Fixpoint well_shaped (d : N) (p : QuorumPredicate) : Prop :=
  let all := fix all cs := match cs with [] => True | c :: cs' => well_shaped (d + 1) c /\ all cs' end in
  d <= MAXIMUM_PREDICATE_DEPTH /\
  match p with
  | Voter _ => True
  | AtLeast t cs => 0 < t <= len cs /\ all cs
  | WeightedAtLeast t ws =>
      0 < t <= total_weight ws /\ total_weight ws <= u32_max /\ Forall (fun w => 0 < weight w) ws
  | All_ cs => cs <> [] /\ all cs
  end.

Lemma well_shaped_all d cs :
  (fix all cs := match cs with [] => True | c :: cs' => well_shaped (d + 1) c /\ all cs' end) cs
  <-> Forall (well_shaped (d + 1)) cs.
Proof. induction cs as [|c cs IH]; [naive_solver|]. by rewrite Forall_cons, IH. Qed.

(** A predicate accepted for a voter set: well shaped, every voter known and
    referenced once, within the node budget. *)
Definition valid_predicate (voters : gset NodeId) (p : QuorumPredicate) : Prop :=
  well_shaped 1 p /\ NoDup (references p) /\ list_to_set (references p) ⊆ voters /\
  node_total p <= MAXIMUM_PREDICATE_NODES.

(** ** What validation accepts *)

Lemma validate_weighted_loop_Ok ws voters refd total r t :
  total <= u32_max ->
  validate_weighted_loop ws voters refd total = Ok (r, t) <->
  Forall (fun w => 0 < weight w) ws /\ NoDup (map voter ws) /\
  (forall v, v ∈ map voter ws -> v ∈ voters /\ v ∉ refd) /\
  t = total + total_weight ws /\ t <= u32_max /\
  r = refd ∪ list_to_set (map voter ws).
Proof.
  revert refd total. induction ws as [|w ws IH]; intros refd total Htot; simpl.
  - split.
    + intros [= <- <-]. repeat split; try constructor; try set_solver; lia.
    + intros (_ & _ & _ & -> & _ & ->). do 2 f_equal; [set_solver|lia].
  - rewrite Forall_cons, NoDup_cons. split.
    + intros H. inv_ok. bool_cases. 
      match goal with HL : validate_weighted_loop _ _ _ _ = Ok _ |- _ =>
        rewrite IH in HL by done; destruct HL as (Hw & Hnd & Hv & -> & Ht & ->) end.
      assert (voter w ∉ map voter ws) by (intros Hin; apply Hv in Hin; set_solver).
      split_and!; try done; try lia.
      * intros v [->|Hin]%elem_of_cons; [done|]. apply Hv in Hin. set_solver.
      * clear. set_solver.
    + intros ([Hw0 Hw] & [Hnin Hnd] & Hv & -> & Ht & ->).
      destruct (Hv (voter w)) as [Hin Hout]; [set_solver|].
      rewrite (proj2 (N.eqb_neq _ _)) by lia. rewrite bool_decide_eq_true_2 by done.
      rewrite bool_decide_eq_false_2 by done. simpl.
      unfold checked_add. rewrite (proj2 (N.leb_le _ _)) by lia. simpl.
      rewrite IH by lia. split_and!; try done; try lia.
      * intros v Hv'. destruct (Hv v) as [? ?]; [by right|]. set_solver.
      * clear. set_solver.
Qed.

Lemma validate_weighted_Ok t ws voters r :
  validate_weighted t ws voters = Ok r <->
  0 < t <= total_weight ws /\ total_weight ws <= u32_max /\ Forall (fun w => 0 < weight w) ws /\
  NoDup (map voter ws) /\ list_to_set (map voter ws) ⊆ voters /\ r = list_to_set (map voter ws).
Proof.
  unfold validate_weighted. split.
  - intros H. inv_ok. bool_cases. rewrite validate_weighted_loop_Ok in * by done.
    destruct_and!; subst. repeat split; try done; try lia; set_solver.
  - intros (Ht & Hmax & Hw & Hnd & Hsub & ->).
    rewrite (proj2 (N.eqb_neq t 0)) by lia.
    assert (len ws <> 0) as Hne by (destruct ws; [simpl in Ht; lia|rewrite len_cons; lia]).
    rewrite (proj2 (N.eqb_neq (len ws) 0)) by done. cbn [orb].
    rewrite (proj2 (validate_weighted_loop_Ok ws voters ∅ 0
      (list_to_set (map voter ws)) (total_weight ws) ltac:(done))).
    + cbn [mbind result_bind]. by rewrite (proj2 (N.ltb_ge _ _)) by lia.
    + split_and!; try done; try lia; [|by rewrite union_empty_l_L].
      intros v Hv. split; [|set_solver]. apply Hsub. by apply elem_of_list_to_set.
Qed.

(** The outcome of a successful visit of [p] at depth [d] with [nc] nodes counted. *)
Definition visit_accepts (voters : gset NodeId) (d : N) (p : QuorumPredicate) (nc : N)
    (r : gset NodeId) (nc' : N) : Prop :=
  well_shaped d p /\ NoDup (references p) /\ list_to_set (references p) ⊆ voters /\
  r = list_to_set (references p) /\ nc' = nc + node_total p /\ nc' <= MAXIMUM_PREDICATE_NODES.

Definition visit_all_accepts (voters : gset NodeId) (d : N) (cs : list QuorumPredicate) (nc : N)
    (r : gset NodeId) (nc' : N) : Prop :=
  Forall (well_shaped d) cs /\ NoDup (concat (map references cs)) /\
  list_to_set (concat (map references cs)) ⊆ voters /\
  r = list_to_set (concat (map references cs)) /\
  nc' = nc + foldr N.add 0 (map node_total cs) /\ nc' <= MAXIMUM_PREDICATE_NODES.

Lemma validate_children_loop_Ok f (voters : gset NodeId) d cs refd nc r nc' :
  Forall (fun c => forall n r' n', n <= MAXIMUM_PREDICATE_NODES ->
    f c n = Ok (r', n') <-> visit_accepts voters d c n r' n') cs ->
  nc <= MAXIMUM_PREDICATE_NODES ->
  validate_children_loop f cs refd nc = Ok (r, nc') <->
  exists r0, r = refd ∪ r0 /\ refd ## r0 /\ visit_all_accepts voters d cs nc r0 nc'.
Proof.
  unfold visit_accepts, visit_all_accepts.
  intros Hf. revert refd nc. induction Hf as [|c cs Hc Hcs IH]; intros refd nc Hnc; simpl.
  - split.
    + intros [= <- <-]. exists ∅. split_and!; try constructor; try set_solver; lia.
    + intros (r0 & -> & _ & _ & _ & _ & -> & -> & _). do 2 f_equal; [set_solver|lia].
  - setoid_rewrite Forall_cons. setoid_rewrite NoDup_app. setoid_rewrite list_to_set_app_L. split.
    + intros H. inv_ok. bool_cases. rewrite Hc in * by done. destruct_and!; subst.
      match goal with HL : validate_children_loop _ _ _ _ = Ok _ |- _ => rename HL into HL0 end.
      rewrite IH in HL0 by done. destruct HL0 as (r0 & -> & Hdis & ? & ? & ? & -> & -> & ?).
      exists (list_to_set (references c) ∪ list_to_set (concat (map references cs))).
      split_and!; try done; try lia; [set_solver..| |set_solver].
      intros v Hv Hv'. apply (Hdis v); set_solver.
    + intros (r0 & -> & Hr & [Hw Hws] & (Hnd & Hdis & Hnds) & Hsub & -> & -> & Hb).
      rewrite (proj2 (Hc nc (list_to_set (references c)) (nc + node_total c) Hnc)).
      2:{ split_and!; try done; [set_solver|lia]. }
      cbn [mbind result_bind]. rewrite bool_decide_eq_true_2 by set_solver.
      rewrite IH by lia. exists (list_to_set (concat (map references cs))).
      split_and!; try done; try lia; [set_solver| |set_solver].
      apply disjoint_union_l. split; [set_solver|].
      intros v Hv%elem_of_list_to_set Hv'%elem_of_list_to_set. by apply (Hdis v).
Qed.

Lemma validate_disjoint_children_Ok (voters : gset NodeId) d cs nc r nc' :
  Forall (fun c => forall e n r' n', n <= MAXIMUM_PREDICATE_NODES ->
    validate_node c voters e n = Ok (r', n') <-> visit_accepts voters e c n r' n') cs ->
  nc <= MAXIMUM_PREDICATE_NODES ->
  validate_disjoint_children (fun c => validate_node c voters d) cs nc = Ok (r, nc') <->
  cs <> [] /\ visit_all_accepts voters d cs nc r nc'.
Proof.
  intros Hcs Hnc. unfold validate_disjoint_children.
  destruct cs as [|c cs]; [split; [done|naive_solver]|].
  rewrite (validate_children_loop_Ok _ voters d).
  - split.
    + intros (r0 & -> & _ & H). by rewrite union_empty_l_L.
    + intros [_ H]. exists r. by rewrite union_empty_l_L.
  - eapply Forall_impl; [exact Hcs|]. auto.
  - done.
Qed.

Lemma validate_node_Ok p (voters : gset NodeId) d nc r nc' :
  nc <= MAXIMUM_PREDICATE_NODES ->
  validate_node p voters d nc = Ok (r, nc') <-> visit_accepts voters d p nc r nc'.
Proof.
  revert d nc r nc'. induction p as [v|t cs IH|t ws|cs IH] using QuorumPredicate_nested_ind;
    intros d nc r nc' Hnc.
  all: assert (checked_add usize_max nc 1 = Some (nc + 1)) as Hca
    by (apply checked_add_Some; unfold MAXIMUM_PREDICATE_NODES, usize_max, u64_max in *; lia).
  all: unfold visit_accepts;
    cbn [validate_node well_shaped references node_total]; rewrite Hca; cbn [ok_or mbind result_bind].
  all: destruct (N.ltb_spec MAXIMUM_PREDICATE_DEPTH d) as [Hd|Hd];
    [split; [done|]; intros ([? _] & _); lia|].
  all: destruct (N.ltb_spec MAXIMUM_PREDICATE_NODES (nc + 1)) as [Hn|Hn];
    [split; [done|]; intros (_ & _ & _ & _ & ? & ?); lia|].
  all: cbn [orb]; rewrite ?well_shaped_all.
  - case_bool_decide as Hv.
    + split.
      * intros [= <- <-]. split_and!; try done; try set_solver. apply NoDup_singleton.
      * intros (_ & _ & _ & -> & -> & _). do 2 f_equal. set_solver.
    + split; [done|]. intros (_ & _ & Hsub & _). set_solver.
  - destruct (N.eqb_spec t 0); [split; [done|lia]|].
    destruct (N.ltb_spec (len cs) t); [split; [done|lia]|]. cbn [orb].
    rewrite (validate_disjoint_children_Ok _ _ _ _ _ _ IH Hn). unfold visit_all_accepts.
    rewrite <- N.add_assoc. split.
    + intros (? & ? & ? & ? & -> & -> & ?). split_and!; try done; lia.
    + intros ((_ & ? & ?) & ? & ? & -> & -> & ?). split_and!; try done.
      intros ->. unfold len in *. simpl in *. lia.
  - split.
    + intros H. inv_ok. rewrite validate_weighted_Ok in *. destruct_and!; subst.
      split_and!; try done; lia.
    + intros ((_ & Ht & Hmax & Hw) & Hnd & Hsub & -> & -> & _).
      rewrite (proj2 (validate_weighted_Ok t ws voters (list_to_set (map voter ws)))); naive_solver.
  - rewrite (validate_disjoint_children_Ok _ _ _ _ _ _ IH Hn). unfold visit_all_accepts.
    rewrite <- N.add_assoc. naive_solver.
Qed.

Lemma validate_Ok p (voters : gset NodeId) r :
  validate p voters = Ok r <-> valid_predicate voters p /\ r = list_to_set (references p).
Proof.
  unfold validate, valid_predicate. split.
  - intros H. inv_ok. rewrite validate_node_Ok in * by done. unfold visit_accepts in *.
    destruct_and!; subst. split_and!; try done; lia.
  - intros [(? & ? & ? & ?) ->].
    rewrite (proj2 (validate_node_Ok p voters 1 0 (list_to_set (references p)) (node_total p) ltac:(done)));
      [done|]. unfold visit_accepts. split_and!; try done.
Qed.

(** ** Meaning of a validated predicate *)

Lemma filter_len_mono {A} (f g : A -> bool) l :
  (forall x, x ∈ l -> f x = true -> g x = true) -> len (List.filter f l) <= len (List.filter g l).
Proof.
  induction l as [|x l IH]; intros H; [done|]. simpl.
  specialize (IH ltac:(intros y Hy; apply H; by right)). specialize (H x ltac:(by left)).
  destruct (f x) eqn:Ef; [rewrite H by done|destruct (g x)]; rewrite ?len_cons; lia.
Qed.

Lemma total_weight_mono (f g : WeightedVoter -> bool) ws :
  (forall w, w ∈ ws -> f w = true -> g w = true) ->
  total_weight (List.filter f ws) <= total_weight (List.filter g ws).
Proof.
  induction ws as [|w ws IH]; intros H; [done|]. simpl.
  specialize (IH ltac:(intros y Hy; apply H; by right)). specialize (H w ltac:(by left)).
  destruct (f w) eqn:Ef; [rewrite H by done|destruct (g w)]; simpl; lia.
Qed.

Lemma total_weight_filter_le f ws : total_weight (List.filter f ws) <= total_weight ws.
Proof. induction ws as [|w ws IH]; simpl; [done|]. destruct (f w); simpl; lia. Qed.

Lemma checked_total_Some ws : total_weight ws <= u32_max -> checked_total ws = Some (total_weight ws).
Proof.
  unfold checked_total. intros Hle.
  enough (forall k, k + total_weight ws <= u32_max ->
    foldl (fun acc w => total ← acc; checked_add u32_max total (weight w)) (Some k) ws
    = Some (k + total_weight ws)) as Hgen by (by rewrite Hgen).
  clear Hle. induction ws as [|w ws IH]; intros k Hk; simpl in *; [by rewrite N.add_0_r|].
  rewrite (proj2 (checked_add_Some u32_max k (weight w) (k + weight w)) ltac:(lia)).
  rewrite IH by lia. f_equal. lia.
Qed.

(** More acknowledgements never lose a quorum. *)
Lemma holds_mono p acks acks' : acks ⊆ acks' -> holds p acks = true -> holds p acks' = true.
Proof.
  intros Hsub. induction p as [v|t cs IH|t ws|cs IH] using QuorumPredicate_nested_ind; cbn [holds].
  - rewrite !bool_decide_eq_true. set_solver.
  - rewrite !N.leb_le. intros Ht. etrans; [exact Ht|]. apply filter_len_mono.
    rewrite Forall_forall in IH. auto.
  - rewrite !N.leb_le. intros Ht. etrans; [exact Ht|]. apply total_weight_mono.
    intros w _. rewrite !bool_decide_eq_true. set_solver.
  - rewrite !forallb_forall. rewrite Forall_forall in IH. intros H c Hc.
    apply IH; [by apply list_elem_of_In|auto].
Qed.

Lemma references_child c cs :
  c ∈ cs -> list_to_set (C := gset NodeId) (references c) ⊆ list_to_set (concat (map references cs)).
Proof.
  intros Hc x. rewrite !elem_of_list_to_set, !list_elem_of_In, in_concat. intros Hx.
  exists (references c). split; [apply in_map; by apply list_elem_of_In|done].
Qed.

(** Only referenced voters matter. *)
Lemma holds_restrict p (S : gset NodeId) acks :
  list_to_set (references p) ⊆ S -> holds p (acks ∩ S) = holds p acks.
Proof.
  induction p as [v|t cs IH|t ws|cs IH] using QuorumPredicate_nested_ind; cbn [holds references]; intros HS.
  - apply bool_decide_ext. set_solver.
  - do 2 f_equal. apply filter_ext_in. intros c Hc%list_elem_of_In. rewrite Forall_forall in IH.
    apply IH; [done|]. etrans; [by apply references_child|done].
  - do 2 f_equal. apply filter_ext_in. intros w Hw. apply bool_decide_ext.
    assert (voter w ∈ S) by (apply HS, elem_of_list_to_set, list_elem_of_In, in_map; done). set_solver.
  - apply eq_iff_eq_true. rewrite !forallb_forall. rewrite Forall_forall in IH.
    assert (forall c, In c cs -> holds c (acks ∩ S) = holds c acks) as Hc.
    { intros c Hc%list_elem_of_In. apply IH; [done|]. etrans; [by apply references_child|done]. }
    split; intros H c Hin; [rewrite <- Hc|rewrite Hc]; auto.
Qed.

(** No acknowledgement at all is never a quorum. *)
Lemma holds_empty d p : well_shaped d p -> holds p ∅ = false.
Proof.
  revert d. induction p as [v|t cs IH|t ws|cs IH] using QuorumPredicate_nested_ind; intros d;
    cbn [holds well_shaped]; rewrite ?well_shaped_all.
  - intros _. apply bool_decide_eq_false. set_solver.
  - intros (_ & [Ht _] & Hcs). apply N.leb_gt.
    replace (List.filter (fun c => holds c ∅) cs) with (@nil QuorumPredicate); [done|].
    clear Ht. induction IH as [|c cs Hc _ IHcs]; simpl; [done|].
    apply Forall_cons in Hcs as [Hc' Hcs']. rewrite (Hc _ Hc'). auto.
  - intros (_ & [Ht _] & _). apply N.leb_gt.
    replace (List.filter (fun w => bool_decide (voter w ∈ ∅)) ws) with (@nil WeightedVoter); [done|].
    clear Ht. induction ws as [|w ws IH]; simpl; [done|]. by rewrite bool_decide_eq_false_2 by set_solver.
  - intros (_ & Hne & Hcs). destruct cs as [|c cs]; [done|]. simpl.
    apply Forall_cons in Hcs as [Hc _]. apply Forall_cons in IH as [IHc _]. by rewrite (IHc _ Hc).
Qed.

(** All referenced voters together satisfy the predicate. *)
Lemma holds_full d p (S : gset NodeId) :
  well_shaped d p -> list_to_set (references p) ⊆ S -> holds p S = true.
Proof.
  revert d. induction p as [v|t cs IH|t ws|cs IH] using QuorumPredicate_nested_ind; intros d;
    cbn [holds well_shaped references]; rewrite ?well_shaped_all.
  - intros _ HS. apply bool_decide_eq_true. set_solver.
  - intros (_ & [_ Ht] & Hcs) HS. apply N.leb_le.
    replace (List.filter (fun c => holds c S) cs) with cs; [done|].
    clear Ht. induction IH as [|c cs Hc _ IHcs]; simpl; [done|].
    apply Forall_cons in Hcs as [Hc' Hcs']. simpl in HS. rewrite list_to_set_app_L in HS.
    rewrite (Hc _ Hc') by set_solver. f_equal. apply IHcs; [done|set_solver].
  - intros (_ & [_ Ht] & _) HS. apply N.leb_le.
    replace (List.filter (fun w => bool_decide (voter w ∈ S)) ws) with ws; [done|].
    clear Ht. induction ws as [|w ws IH]; simpl in *; [done|].
    rewrite bool_decide_eq_true_2 by set_solver. f_equal. apply IH. set_solver.
  - intros (_ & _ & Hcs) HS. apply forallb_forall. intros c Hc%list_elem_of_In.
    rewrite Forall_forall in IH, Hcs. eapply IH; [done|by apply Hcs|].
    etrans; [by apply references_child|done].
Qed.

(** Mask evaluation is the node-set reading of the voters in the mask. *)
Lemma evaluate_holds d p ordered bits m :
  (length ordered <= 16)%nat ->
  (forall v b, bits !! v = Some b <-> ordered !! N.to_nat b = Some v) ->
  well_shaped d p ->
  evaluate p m bits = holds p (Voters.to_nodes m ordered).
Proof.
  intros Hlen Hbits.
  assert (forall v, voter_acknowledged m bits v = bool_decide (v ∈ Voters.to_nodes m ordered)) as Hack.
  { intros v. unfold voter_acknowledged. apply eq_iff_eq_true. rewrite bool_decide_eq_true.
    rewrite Voters.to_nodes_spec by done. destruct (bits !! v) as [b|] eqn:E.
    - apply Hbits in E as E'. rewrite Voters.contains_bit_spec
        by (apply lookup_lt_Some in E'; lia). split; [naive_solver|].
      intros (i & Hi & Hm). apply Hbits in Hi. congruence.
    - split; [done|]. intros (i & Hi & _). apply Hbits in Hi. congruence. }
  revert d. induction p as [v|t cs IH|t ws|cs IH] using QuorumPredicate_nested_ind; intros d;
    cbn [evaluate holds well_shaped]; rewrite ?well_shaped_all.
  - auto.
  - intros (_ & _ & Hcs). do 2 f_equal. apply filter_ext_in. intros c Hc%list_elem_of_In.
    rewrite Forall_forall in IH, Hcs. eapply IH; [done|by apply Hcs].
  - intros (_ & _ & Hmax & _).
    rewrite (filter_ext _ (fun w => bool_decide (voter w ∈ Voters.to_nodes m ordered)))
      by (intros w; apply Hack).
    rewrite checked_total_Some; [done|]. pose proof (total_weight_filter_le
      (fun w => bool_decide (voter w ∈ Voters.to_nodes m ordered)) ws). lia.
  - intros (_ & _ & Hcs). apply eq_iff_eq_true. rewrite !forallb_forall.
    rewrite Forall_forall in IH, Hcs. setoid_rewrite <- list_elem_of_In.
    split; intros H c Hc; [rewrite <- (IH _ Hc _ (Hcs _ Hc))|rewrite (IH _ Hc _ (Hcs _ Hc))]; auto.
Qed.

(** ** Size *)

Lemma well_shaped_references d p : well_shaped d p -> 0 < len (references p).
Proof.
  revert d. induction p as [v|t cs IH|t ws|cs IH] using QuorumPredicate_nested_ind; intros d;
    cbn [well_shaped references]; rewrite ?well_shaped_all.
  - intros _. unfold len. simpl. lia.
  - intros (_ & Ht & Hcs). destruct cs as [|c cs]; [unfold len in Ht; simpl in Ht; lia|].
    apply Forall_cons in Hcs as [Hc _]. apply Forall_cons in IH as [IHc _].
    simpl. rewrite len_app. specialize (IHc _ Hc). lia.
  - intros (_ & Ht & _). destruct ws; simpl in *; [lia|]. rewrite len_cons. lia.
  - intros (_ & Hne & Hcs). destruct cs as [|c cs]; [done|].
    apply Forall_cons in Hcs as [Hc _]. apply Forall_cons in IH as [IHc _].
    simpl. rewrite len_app. specialize (IHc _ Hc). lia.
Qed.

(** At depth [d] each referenced voter pays for at most one path of [9 - d] nodes. *)
Lemma node_total_bound d p :
  well_shaped d p -> node_total p <= (MAXIMUM_PREDICATE_DEPTH + 1 - d) * len (references p).
Proof.
  revert d. induction p as [v|t cs IH|t ws|cs IH] using QuorumPredicate_nested_ind; intros d Hw;
    pose proof (well_shaped_references d _ Hw) as Hpos; revert Hw Hpos;
    cbn [well_shaped references node_total]; rewrite ?well_shaped_all.
  1,3: intros [Hd _] Hpos; assert (1 <= MAXIMUM_PREDICATE_DEPTH + 1 - d) by lia; unfold len in *; nia.
  all: intros (Hd & _ & Hcs) Hpos;
    replace (MAXIMUM_PREDICATE_DEPTH + 1 - d) with (MAXIMUM_PREDICATE_DEPTH + 1 - (d + 1) + 1) by lia;
    rewrite N.mul_add_distr_r;
    enough (foldr N.add 0 (map node_total cs)
              <= (MAXIMUM_PREDICATE_DEPTH + 1 - (d + 1)) * len (concat (map references cs))) by lia;
    clear Hpos; induction IH as [|c cs Hc _ IHcs]; simpl; [apply N.le_0_l|];
    apply Forall_cons in Hcs as [Hc' Hcs']; specialize (Hc _ Hc'); specialize (IHcs Hcs');
    rewrite len_app; lia.
Qed.
