(* ===== verification/Plan.v ===== *)
(** Quorum plans as data: quorum/mod.rs and the [FamilyProof] of quorum/compile.rs.
    The fields of a compiled plan are private to its crate; the accessors here are
    the ones the rest of the code sees. *)

From S2P Require Import Prelude VoterSet Predicate.
From stdpp Require Import prelude gmap.
#[local] Open Scope N_scope.

Definition MAXIMUM_VOTERS : N := 9.
Definition MAXIMUM_LEARNERS : N := 256.

Record QuorumPlanSpec := {
  plan_id : N;
  format_version : N;
  spec_epoch : N;              (* membership_epoch *)
  voters : gset NodeId;
  learners : gset NodeId;
  eligible_leaders : gset NodeId;
  election : QuorumPredicate;
  commit : QuorumPredicate;
  read : QuorumPredicate;
}.

#[export] Instance QuorumPlanSpec_eq_dec : EqDecision QuorumPlanSpec.
Proof. solve_decision. Defined.

Inductive QuorumFamily := Election | Commit | Read.

#[export] Instance QuorumFamily_eq_dec : EqDecision QuorumFamily.
Proof. solve_decision. Defined.

Record FamilyProof := {
  minimal_quorums : list VoterSet;
  minimal_cut_sets : list VoterSet;
}.

#[export] Instance FamilyProof_eq_dec : EqDecision FamilyProof.
Proof. solve_decision. Defined.

Definition family_satisfies (f : FamilyProof) (acknowledgements : VoterSet) : bool :=
  existsb (fun required => Voters.contains acknowledgements required) (minimal_quorums f).

Record CompiledQuorumPlan := {
  spec : QuorumPlanSpec;
  ordered_voters : list NodeId;
  election_proof : FamilyProof;
  commit_proof : FamilyProof;
  read_proof : FamilyProof;
  plan_proof_digest : bytes;
}.

#[export] Instance CompiledQuorumPlan_eq_dec : EqDecision CompiledQuorumPlan.
Proof. solve_decision. Defined.

Definition plan_members (p : CompiledQuorumPlan) : gset NodeId := voters (spec p) ∪ learners (spec p).

Definition family (p : CompiledQuorumPlan) (f : QuorumFamily) : FamilyProof :=
  match f with
  | Election => election_proof p
  | Commit => commit_proof p
  | Read => read_proof p
  end.

Definition plan_satisfies (p : CompiledQuorumPlan) (f : QuorumFamily) (acknowledgements : gset NodeId) : bool :=
  family_satisfies (family p f) (Voters.from_nodes (ordered_voters p) acknowledgements).

(** The predicate a family was compiled from. *)
Definition family_predicate (s : QuorumPlanSpec) (f : QuorumFamily) : QuorumPredicate :=
  match f with Election => election s | Commit => commit s | Read => read s end.

Definition validate_membership (voters learners : gset NodeId) : result QuorumPlanError unit :=
  if bool_decide (voters = ∅) || (MAXIMUM_VOTERS <? N.of_nat (size voters))
     || (MAXIMUM_LEARNERS <? N.of_nat (size learners)) || negb (bool_decide (voters ## learners))
  then Err InvalidPlan
  else Ok tt.

(** The flat default plan: a strict majority elects, and the smallest count that
    meets every majority commits and reads. *)
Definition flat_plan (id epoch : N) (voters learners : gset NodeId) : result QuorumPlanError QuorumPlanSpec :=
  _ ← validate_membership voters learners;
  let count := N.of_nat (size voters) in
  let election_threshold := count / 2 + 1 in
  write_threshold ← ok_or (d ← checked_sub count election_threshold; checked_add usize_max d 1) InvalidPlan;
  let children := map Voter (ascending voters) in
  election_narrow ← ok_or (try_narrow u8_max election_threshold) InvalidPlan;
  commit_narrow ← ok_or (try_narrow u8_max write_threshold) InvalidPlan;
  read_narrow ← ok_or (try_narrow u8_max write_threshold) InvalidPlan;
  Ok {| plan_id := id;
        format_version := 1;
        spec_epoch := epoch;
        voters := voters;
        learners := learners;
        eligible_leaders := voters;
        election := AtLeast election_narrow children;
        commit := AtLeast commit_narrow children;
        read := AtLeast read_narrow children |}.

Lemma validate_membership_Ok vs ls :
  validate_membership vs ls = Ok tt <->
  vs <> ∅ /\ N.of_nat (size vs) <= MAXIMUM_VOTERS /\ N.of_nat (size ls) <= MAXIMUM_LEARNERS /\ vs ## ls.
Proof.
  unfold validate_membership. split.
  - intros H. inv_ok. bool_cases. auto.
  - intros (? & ? & ? & ?). rewrite bool_decide_eq_false_2, bool_decide_eq_true_2 by done.
    by rewrite !(proj2 (N.ltb_ge _ _)) by lia.
Qed.
