(* ===== verification/Digest.v ===== *)
(** The canonical plan digest of quorum/digest.rs. The hashed message is modelled
    byte for byte; its insensitivity to construction order is proved below. *)

From Stdlib Require Import String.
From S2P Require Import Prelude VoterSet Predicate Plan.
From stdpp Require Import prelude gmap sorting.
#[local] Open Scope N_scope.

Definition u64_be (x : N) : bytes := be_bytes 8 x.
Definition id_bytes (x : N) : bytes := be_bytes 16 x.
Arguments id_bytes : simpl never.
Arguments u64_be : simpl never.

(** [sort_unstable] on byte strings; equal elements are identical, so stability is moot. *)
Definition sort_bytes (l : list bytes) : list bytes := merge_sort bytes_le l.

Definition weighted_le (a b : WeightedVoter) : Prop := voter a <= voter b.
#[export] Instance weighted_le_dec : RelDecision weighted_le.
Proof. intros a b. unfold weighted_le. apply _. Defined.

Definition weighted_bytes (threshold : N) (ws : list WeightedVoter) : bytes :=
  let ordered := merge_sort weighted_le ws in
  [3] ++ be_bytes 4 threshold ++ u64_be (u64_of_len (len ordered))
  ++ concat (map (fun w => id_bytes (voter w) ++ be_bytes 2 (weight w)) ordered).

Definition composite_bytes (tag threshold : N) (encoded_children : list bytes) : bytes :=
  let encoded := sort_bytes encoded_children in
  [tag] ++ u64_be threshold ++ u64_be (u64_of_len (len encoded))
  ++ concat (map (fun child => u64_be (u64_of_len (len child)) ++ child) encoded).

Fixpoint predicate_bytes (p : QuorumPredicate) : bytes :=
  match p with
  | Voter v => [1] ++ id_bytes v
  | AtLeast threshold children => composite_bytes 2 threshold (map predicate_bytes children)
  | WeightedAtLeast threshold ws => weighted_bytes threshold ws
  | All_ children => composite_bytes 4 (u64_of_len (len children)) (map predicate_bytes children)
  end.

(** [CanonicalDigest]: the updates append to the message that [finish] hashes. *)
Module CanonicalDigest.
Definition unsigned (value : N) : bytes := u64_be value.
Definition bytes_ (value : bytes) : bytes := unsigned (u64_of_len (len value)) ++ value.
Definition identifiers (values : list NodeId) : bytes :=
  unsigned (u64_of_len (len values)) ++ concat (map id_bytes values).
Definition family (f : FamilyProof) : bytes :=
  unsigned (u64_of_len (len (minimal_quorums f)))
  ++ concat (map (fun q => be_bytes 2 (Voters.bits q)) (minimal_quorums f))
  ++ unsigned (u64_of_len (len (minimal_cut_sets f)))
  ++ concat (map (fun c => be_bytes 2 (Voters.bits c)) (minimal_cut_sets f)).
Definition finish `{Sha256} (message : bytes) : bytes := sha256 message.
End CanonicalDigest.

Definition plan_message (s : QuorumPlanSpec) (ordered : list NodeId) (e c r : FamilyProof) : bytes :=
  CanonicalDigest.bytes_ (ascii_bytes "meshspan.consensus.quorum-plan.v1")
  ++ CanonicalDigest.bytes_ (id_bytes (plan_id s))
  ++ CanonicalDigest.unsigned (format_version s)
  ++ CanonicalDigest.unsigned (spec_epoch s)
  ++ CanonicalDigest.identifiers ordered
  ++ CanonicalDigest.identifiers (ascending (learners s))
  ++ CanonicalDigest.identifiers (ascending (eligible_leaders s))
  ++ CanonicalDigest.bytes_ (predicate_bytes (election s))
  ++ CanonicalDigest.bytes_ (predicate_bytes (commit s))
  ++ CanonicalDigest.bytes_ (predicate_bytes (read s))
  ++ CanonicalDigest.family e ++ CanonicalDigest.family c ++ CanonicalDigest.family r.

Definition plan_digest `{Sha256} (s : QuorumPlanSpec) (ordered : list NodeId) (e c r : FamilyProof) : bytes :=
  CanonicalDigest.finish (plan_message s ordered e c r).

(** Two predicates that differ only in the order of children and weighted voters. *)
Inductive reordered : QuorumPredicate -> QuorumPredicate -> Prop :=
| reordered_Voter v : reordered (Voter v) (Voter v)
| reordered_AtLeast t cs ds es :
    Forall2 reordered cs ds -> ds ≡ₚ es -> reordered (AtLeast t cs) (AtLeast t es)
| reordered_Weighted t ws xs :
    NoDup (map voter ws) -> ws ≡ₚ xs -> reordered (WeightedAtLeast t ws) (WeightedAtLeast t xs)
| reordered_All cs ds es :
    Forall2 reordered cs ds -> ds ≡ₚ es -> reordered (All_ cs) (All_ es).

Lemma sort_bytes_perm l k : l ≡ₚ k -> sort_bytes l = sort_bytes k.
Proof.
  intros Hp. unfold sort_bytes.
  apply (StronglySorted_unique bytes_le); [apply StronglySorted_merge_sort; apply _..|].
  by rewrite !merge_sort_Permutation.
Qed.

#[export] Instance weighted_le_total : Total weighted_le.
Proof. intros a b. unfold weighted_le. lia. Qed.
#[export] Instance weighted_le_trans : Transitive weighted_le.
Proof. intros a b c. unfold weighted_le. lia. Qed.

Lemma weighted_sorted_unique l k :
  NoDup (map voter l) -> l ≡ₚ k -> StronglySorted weighted_le l -> StronglySorted weighted_le k -> l = k.
Proof.
  intros Hnd Hp Hl Hk.
  assert (forall a b, a ∈ l -> b ∈ l -> voter a = voter b -> a = b) as Hinj.
  { clear -Hnd. intros a b Ha Hb E. induction l as [|w l IH]; [set_solver|].
    simpl in Hnd. apply NoDup_cons in Hnd as [Hn Hnd].
    apply elem_of_cons in Ha as [->|Ha], Hb as [->|Hb]; auto; exfalso; apply Hn.
    - rewrite E. apply list_elem_of_fmap. eauto.
    - rewrite <- E. apply list_elem_of_fmap. eauto. }
  apply (StronglySorted_unique_strong weighted_le); [|done..].
  unfold weighted_le. intros a b Ha Hb ? ?. apply Hinj; [done| |lia]. by rewrite Hp.
Qed.

Lemma predicate_bytes_reordered p q : reordered p q -> predicate_bytes p = predicate_bytes q.
Proof.
  revert q. induction p as [v|t cs IH|t ws|cs IH] using QuorumPredicate_nested_ind;
    intros q Hq; inversion Hq as [|? ? ds ? Hcs Hp|? ? ? Hnd Hp|? ds ? Hcs Hp]; subst; cbn [predicate_bytes].
  - done.
  - assert (map predicate_bytes cs = map predicate_bytes ds) as E.
    { clear Hq Hp. induction Hcs; simpl; [done|]. apply Forall_cons in IH as [? ?]. f_equal; auto. }
    unfold composite_bytes. rewrite (sort_bytes_perm (map predicate_bytes cs) (map predicate_bytes es)); [done|].
    rewrite E. by apply Permutation_map.
  - unfold weighted_bytes.
    rewrite (weighted_sorted_unique (merge_sort weighted_le ws) (merge_sort weighted_le xs)); [done| | | |].
    + assert (map voter (merge_sort weighted_le ws) ≡ₚ map voter ws) as ->
        by apply Permutation_map, merge_sort_Permutation. done.
    + by rewrite !merge_sort_Permutation.
    + apply StronglySorted_merge_sort; apply _.
    + apply StronglySorted_merge_sort; apply _.
  - assert (map predicate_bytes cs = map predicate_bytes ds) as E.
    { clear Hq Hp. induction Hcs; simpl; [done|]. apply Forall_cons in IH as [? ?]. f_equal; auto. }
    unfold composite_bytes. rewrite (sort_bytes_perm (map predicate_bytes cs) (map predicate_bytes es)).
    + unfold len. by rewrite (Forall2_length _ _ _ Hcs), (Permutation_length Hp).
    + rewrite E. by apply Permutation_map.
Qed.
