(* ===== verification/Compile.v ===== *)
(** Exhaustive plan compilation: quorum/compile.rs. The compiled minimal quorums
    and cut sets are proved to say exactly what the source predicates say, and
    the intersection proof to hold of every pair of acknowledgement sets. *)

From S2P Require Import Prelude VoterSet Predicate Plan Digest.
From stdpp Require Import prelude gmap.
#[local] Open Scope N_scope.

Definition validate_header (s : QuorumPlanSpec) : result QuorumPlanError unit :=
  _ ← validate_membership (voters s) (learners s);
  if (format_version s =? 0) || (spec_epoch s =? 0) || bool_decide (eligible_leaders s = ∅)
     || negb (bool_decide (eligible_leaders s ⊆ voters s))
  then Err InvalidPlan
  else Ok tt.

(** [enumerate().map(u8::try_from).collect::<Result<BTreeMap<_, _>, _>>()]. *)
Fixpoint index_voters (l : list (N * NodeId)) (acc : gmap NodeId N) : result QuorumPlanError (gmap NodeId N) :=
  match l with
  | [] => Ok acc
  | (index, v) :: rest =>
      bit ← ok_or (try_narrow u8_max index) InvalidPlan;
      index_voters rest (<[v := bit]> acc)
  end.

Definition voter_bits (ordered : list NodeId) : result QuorumPlanError (gmap NodeId N) :=
  index_voters (enumerate ordered) ∅.

Definition reduce_minimal (sets : list VoterSet) : list VoterSet :=
  List.filter (fun candidate =>
    negb (existsb (fun other => negb (other =? candidate) && Voters.contains candidate other) sets)) sets.

(** [1_u16.checked_shl(count)]: [None] at or above the width. *)
Definition checked_shl_one (count : N) : option N :=
  if count <? 16 then Some (N.shiftl 1 count) else None.

(** Voters left after a removal: [full.0 & !removed.0] on [u16]. *)
Definition available (full removed : VoterSet) : VoterSet := N.land full (N.lnot removed 16).

Definition compile_family (p : QuorumPredicate) (bits : gmap NodeId N) (voter_count : N)
    : result QuorumPlanError FamilyProof :=
  set_count ← ok_or (n ← try_narrow u32_max voter_count; checked_shl_one n) InvalidPlan;
  let satisfying := List.filter (fun s => evaluate p s bits) (range 1 set_count) in
  if len satisfying =? 0 then Err NoQuorum
  else
    let quorums := reduce_minimal satisfying in
    let full := set_count - 1 in
    let blocking := List.filter (fun removed =>
      negb (existsb (fun quorum => Voters.contains (available full removed) quorum) quorums))
      (range 1 set_count) in
    Ok {| minimal_quorums := quorums; minimal_cut_sets := reduce_minimal blocking |}.

Definition intersects_all (left right : list VoterSet) : bool :=
  forallb (fun first => forallb (fun second => Voters.intersects first second) right) left.

Definition prove_intersections (e c r : FamilyProof) : result QuorumPlanError unit :=
  let election_unique := intersects_all (minimal_quorums e) (minimal_quorums e) in
  let election_commit := intersects_all (minimal_quorums e) (minimal_quorums c) in
  let election_read := intersects_all (minimal_quorums e) (minimal_quorums r) in
  if election_unique && election_commit && election_read then Ok tt else Err UnsafeIntersection.

Definition compile_plan `{Sha256} (s : QuorumPlanSpec) : result QuorumPlanError CompiledQuorumPlan :=
  _ ← validate_header s;
  let ordered := ascending (voters s) in
  bits ← voter_bits ordered;
  _ ← validate (election s) (voters s);
  _ ← validate (commit s) (voters s);
  _ ← validate (read s) (voters s);
  e ← compile_family (election s) bits (len ordered);
  c ← compile_family (commit s) bits (len ordered);
  r ← compile_family (read s) bits (len ordered);
  _ ← prove_intersections e c r;
  Ok {| spec := s;
        ordered_voters := ordered;
        election_proof := e;
        commit_proof := c;
        read_proof := r;
        plan_proof_digest := plan_digest s ordered e c r |}.

(** ** Minimal reduction *)

Lemma elem_of_filter_b {A} (f : A -> bool) l x : x ∈ List.filter f l <-> x ∈ l /\ f x = true.
Proof. rewrite !list_elem_of_In. apply filter_In. Qed.

Lemma existsb_elem {A} (f : A -> bool) l : existsb f l = true <-> exists x, x ∈ l /\ f x = true.
Proof. rewrite existsb_exists. by setoid_rewrite list_elem_of_In. Qed.

Lemma forallb_elem {A} (f : A -> bool) l : forallb f l = true <-> forall x, x ∈ l -> f x = true.
Proof. rewrite forallb_forall. by setoid_rewrite list_elem_of_In. Qed.

Lemma reduce_minimal_spec sets m :
  m ∈ reduce_minimal sets <->
  m ∈ sets /\ forall o, o ∈ sets -> Voters.contains m o = true -> o = m.
Proof.
  unfold reduce_minimal. rewrite elem_of_filter_b, negb_true_iff.
  rewrite <- not_true_iff_false, existsb_elem. split; intros [Hin H]; split; try done.
  - intros o Ho Hc. destruct (N.eqb_spec o m) as [|Hne]; [done|]. exfalso. apply H.
    exists o. rewrite Hc. apply N.eqb_neq in Hne. by rewrite Hne.
  - intros (o & Ho & [Hne Hc]%andb_true_iff). apply negb_true_iff, N.eqb_neq in Hne. eauto.
Qed.

(** Every listed set contains a minimal one: removal of a strict superset strictly
    decreases the mask. *)
Lemma reduce_minimal_covers sets s :
  s ∈ sets -> exists m, m ∈ reduce_minimal sets /\ Voters.contains s m = true.
Proof.
  induction (N.lt_wf_0 s) as [s _ IH]. intros Hs.
  destruct (existsb (fun o => negb (o =? s) && Voters.contains s o) sets) eqn:E.
  - apply existsb_elem in E as (o & Ho & [Hne Hc]%andb_true_iff).
    apply negb_true_iff, N.eqb_neq in Hne.
    assert (o < s) as Hlt by (apply Voters.contains_le in Hc; lia).
    destruct (IH o Hlt Ho) as (m & Hm & Hcm). exists m. split; [done|].
    by eapply Voters.contains_trans.
  - exists s. split; [|apply Voters.contains_refl]. apply reduce_minimal_spec. split; [done|].
    intros o Ho Hc. destruct (N.eqb_spec o s) as [|Hne]; [done|]. exfalso.
    apply not_true_iff_false in E. apply E, existsb_elem. exists o. rewrite Hc.
    apply N.eqb_neq in Hne. by rewrite Hne.
Qed.

(** ** One family *)

Lemma testbit_bound m n i : m < 2 ^ n -> N.testbit m i = true -> i < n.
Proof.
  intros Hm Hi. destruct (N.lt_ge_cases i n) as [|Hge]; [done|].
  rewrite N.bits_above_log2 in Hi; [done|].
  destruct (N.eq_dec m 0) as [->|]; [by rewrite N.bits_0 in Hi|].
  apply N.log2_lt_pow2 in Hm; lia.
Qed.

Lemma contains_bound n s r : s < 2 ^ n -> Voters.contains s r = true -> r < 2 ^ n.
Proof. intros Hs Hc%Voters.contains_le. lia. Qed.

Lemma checked_shl_one_Some n c : checked_shl_one n = Some c <-> n < 16 /\ c = 2 ^ n.
Proof.
  unfold checked_shl_one. rewrite <- N.shiftl_1_l.
  destruct (N.ltb_spec n 16); naive_solver lia.
Qed.

Lemma compile_family_Ok p bits n f :
  compile_family p bits n = Ok f <->
  n < 16 /\
  let satisfying := List.filter (fun s => evaluate p s bits) (range 1 (2 ^ n)) in
  satisfying <> [] /\
  minimal_quorums f = reduce_minimal satisfying /\
  minimal_cut_sets f = reduce_minimal (List.filter (fun removed =>
      negb (existsb (fun q => Voters.contains (available (2 ^ n - 1) removed) q)
              (reduce_minimal satisfying))) (range 1 (2 ^ n))).
Proof.
  unfold compile_family. split.
  - intros H. inv_ok.
    match goal with HS : _ ≫= _ = Some _ |- _ => apply bind_Some in HS as (m & Hm & HS) end.
    inv_ok. rewrite checked_shl_one_Some in *. destruct_and!; subst. split; [done|]. cbv zeta.
    split_and!; try done. intros E. bool_cases.
    match goal with HN : len _ <> 0 |- _ => apply HN end. by rewrite E.
  - intros (Hn & Hne & Hq & Hc). cbv zeta in *.
    assert (try_narrow u32_max n = Some n) as -> by (apply try_narrow_Some; unfold u32_max; lia).
    cbn [mbind option_bind]. rewrite (proj2 (checked_shl_one_Some n (2 ^ n))) by done.
    cbn [ok_or mbind result_bind].
    set (sat := List.filter _ (range 1 (2 ^ n))) in *.
    rewrite (proj2 (N.eqb_neq (len sat) 0)).
    + f_equal. destruct f. simpl in *. by subst.
    + destruct sat; [done|]. rewrite len_cons. lia.
Qed.

(** Removing [m] leaves exactly the complement of [m]. *)
Lemma survivors_testbit (ordered : list NodeId) m i :
  (length ordered <= 15)%nat -> m < 2 ^ len ordered ->
  N.testbit (available (2 ^ len ordered - 1) m) i = true <->
  i < len ordered /\ N.testbit m i = false.
Proof.
  intros Hlen Hm. unfold available. assert (len ordered < 16) by (unfold len; lia).
  rewrite <- N.pred_sub, <- N.ones_equiv, N.land_spec, andb_true_iff.
  destruct (N.lt_ge_cases i (len ordered)) as [Hi|Hi].
  - rewrite N.ones_spec_low, N.lnot_spec_low by lia. rewrite negb_true_iff. naive_solver.
  - rewrite N.ones_spec_high by done. split; [naive_solver|lia].
Qed.

(** A family proof that represents [p] for the voters in [ordered]. *)
Definition family_represents (p : QuorumPredicate) (ordered : list NodeId) (f : FamilyProof) : Prop :=
  (forall m, m < 2 ^ len ordered -> family_satisfies f m = holds p (Voters.to_nodes m ordered)) /\
  (forall q, q ∈ minimal_quorums f -> 0 < q < 2 ^ len ordered).

Section one_family.
Context (p : QuorumPredicate) (ordered : list NodeId) (bits : gmap NodeId N) (f : FamilyProof).
Hypothesis Hlen : (length ordered <= 15)%nat.
Hypothesis Hbits : forall v b, bits !! v = Some b <-> ordered !! N.to_nat b = Some v.
Hypothesis Hshape : well_shaped 1 p.
Hypothesis Hcompile : compile_family p bits (len ordered) = Ok f.

Lemma evaluate_to_nodes m : evaluate p m bits = holds p (Voters.to_nodes m ordered).
Proof. eapply evaluate_holds; [lia|exact Hbits|exact Hshape]. Qed.

Lemma to_nodes_mono m m' :
  Voters.contains m' m = true -> Voters.to_nodes m ordered ⊆ Voters.to_nodes m' ordered.
Proof.
  intros Hc v. rewrite !Voters.to_nodes_spec by lia. rewrite Voters.contains_spec in Hc. naive_solver.
Qed.

Lemma evaluate_mono m m' :
  Voters.contains m' m = true -> evaluate p m bits = true -> evaluate p m' bits = true.
Proof. rewrite !evaluate_to_nodes. intros Hc. by apply holds_mono, to_nodes_mono. Qed.

Lemma evaluate_zero : evaluate p 0 bits = false.
Proof.
  rewrite evaluate_to_nodes. replace (Voters.to_nodes 0 ordered) with (∅ : gset NodeId).
  - eapply holds_empty, Hshape.
  - apply set_eq. intros v. rewrite Voters.to_nodes_spec by lia. split; [set_solver|].
    intros (i & _ & Hi). by rewrite N.bits_0 in Hi.
Qed.

Lemma satisfying_elem m :
  m ∈ List.filter (fun s => evaluate p s bits) (range 1 (2 ^ len ordered)) <->
  m < 2 ^ len ordered /\ evaluate p m bits = true.
Proof.
  rewrite elem_of_filter_b, elem_of_range. split; [naive_solver|].
  intros [Hm He]. split; [|done]. split; [|done]. destruct m; [|lia].
  by rewrite evaluate_zero in He.
Qed.

Lemma compile_family_quorums m :
  m < 2 ^ len ordered -> family_satisfies f m = evaluate p m bits.
Proof.
  pose proof Hcompile as (_ & _ & Hq & _)%compile_family_Ok. intros Hm.
  apply eq_iff_eq_true. unfold family_satisfies. rewrite existsb_elem, Hq. split.
  - intros (q & [Hs _]%reduce_minimal_spec & Hc).
    apply satisfying_elem in Hs as [_ He]. by eapply evaluate_mono.
  - intros He. destruct (reduce_minimal_covers _ m (proj2 (satisfying_elem m) (conj Hm He)))
      as (q & Hq' & Hc). eauto.
Qed.

Lemma compile_family_represents : family_represents p ordered f.
Proof.
  split.
  - intros m Hm. by rewrite compile_family_quorums, evaluate_to_nodes.
  - pose proof Hcompile as (_ & _ & Hq & _)%compile_family_Ok. intros q. rewrite Hq.
    intros [[Hr%elem_of_range _]%elem_of_filter_b _]%reduce_minimal_spec. lia.
Qed.

(** A compiled family is satisfied by all voters together. *)
Lemma compile_family_full : evaluate p (2 ^ len ordered - 1) bits = true.
Proof.
  pose proof Hcompile as (_ & Hsat & _)%compile_family_Ok.
  destruct (List.filter (fun s => evaluate p s bits) (range 1 (2 ^ len ordered))) as [|s l] eqn:E; [done|].
  assert (s < 2 ^ len ordered /\ evaluate p s bits = true) as [Hs Hse].
  { apply satisfying_elem. rewrite E. by left. }
  apply (evaluate_mono s); [|done]. apply Voters.contains_spec. intros i Hi.
  apply testbit_bound with (n := len ordered) in Hi; [|done].
  by rewrite <- N.pred_sub, <- N.ones_equiv, N.ones_spec_low.
Qed.

(** The cut sets decide blocking: a removal blocks the family exactly when it
    contains a listed cut set. *)
Lemma compile_family_cut_sets m :
  m < 2 ^ len ordered ->
  existsb (fun c => Voters.contains m c) (minimal_cut_sets f) =
  negb (evaluate p (available (2 ^ len ordered - 1) m) bits).
Proof.
  intros Hm.
  assert (forall m, m < 2 ^ len ordered -> available (2 ^ len ordered - 1) m < 2 ^ len ordered) as Hsb.
  { intros x _. apply N.le_lt_trans with (2 ^ len ordered - 1); [|lia].
    apply Voters.contains_le. apply Voters.contains_spec. intros i.
    unfold available. rewrite N.land_spec. by destruct (N.testbit _ i). }
  pose proof Hcompile as (_ & _ & Hq & Hcut)%compile_family_Ok. cbv zeta in *.
  rewrite <- Hq in Hcut. clear Hq.
  assert (forall x, x ∈ List.filter (fun removed => negb (existsb
            (fun q => Voters.contains (available (2 ^ len ordered - 1) removed) q)
            (minimal_quorums f))) (range 1 (2 ^ len ordered))
          <-> 1 <= x < 2 ^ len ordered /\ evaluate p (available (2 ^ len ordered - 1) x) bits = false) as Hblock.
  { intros x. rewrite elem_of_filter_b, elem_of_range. split; intros [Hx H]; split; try done.
    - change (existsb _ _) with (family_satisfies f (available (2 ^ len ordered - 1) x)) in H; rewrite compile_family_quorums in H by (apply Hsb; lia). by apply negb_true_iff.
    - change (existsb _ _) with (family_satisfies f (available (2 ^ len ordered - 1) x)); rewrite compile_family_quorums by (apply Hsb; lia). by rewrite H. }
  assert (available (2 ^ len ordered - 1) 0 = 2 ^ len ordered - 1) as Hs0.
  { apply N.bits_inj. intros i. apply eq_iff_eq_true.
    rewrite survivors_testbit by lia. rewrite N.bits_0, <- N.pred_sub, <- N.ones_equiv.
    destruct (N.lt_ge_cases i (len ordered)); [rewrite N.ones_spec_low|rewrite N.ones_spec_high];
      naive_solver lia. }
  apply eq_iff_eq_true. rewrite existsb_elem, negb_true_iff, Hcut. split.
  - intros (c & [Hc _]%reduce_minimal_spec & Hmc). apply Hblock in Hc as [Hc He].
    apply not_true_iff_false. intros He'. apply not_true_iff_false in He. apply He.
    eapply evaluate_mono; [|exact He']. apply Voters.contains_spec. intros i.
    rewrite !survivors_testbit by lia. intros [Hi Hmi]. split; [done|].
    rewrite Voters.contains_spec in Hmc. specialize (Hmc i).
    destruct (N.testbit c i); [|done]. by rewrite Hmc in Hmi.
  - intros He. destruct (N.eq_dec m 0) as [->|Hne].
    + exfalso. by rewrite Hs0, compile_family_full in He.
    + assert (1 <= m < 2 ^ len ordered) as Hr by lia.
      destruct (reduce_minimal_covers _ m (proj2 (Hblock m) (conj Hr He))) as (c & Hc & Hmc).
      eauto.
Qed.

End one_family.

(** ** Whole plans *)

Lemma index_voters_Ok l acc m :
  (forall i v, (i, v) ∈ l -> i <= u8_max) -> NoDup l.*2 ->
  index_voters l acc = Ok m ->
  forall v b, m !! v = Some b <-> (b, v) ∈ l \/ (v ∉ l.*2 /\ acc !! v = Some b).
Proof.
  revert acc. induction l as [|[i w] l IH]; intros acc Hi Hnd H v b; cbn [index_voters] in H.
  - inv_ok. set_solver.
  - inv_ok. apply NoDup_cons in Hnd as [Hw Hnd]. simpl in Hw.
    match goal with HL : index_voters _ _ = Ok _ |- _ =>
      rewrite (IH _ ltac:(intros; apply (Hi _ v0); by right) Hnd HL v b) end.
    rewrite elem_of_cons. destruct (decide (v = w)) as [->|Hne].
    + rewrite lookup_insert_eq. split.
      * intros [Hin|[_ [= ->]]]; [|by auto]. exfalso. apply Hw, list_elem_of_fmap. by exists (b, w).
      * intros [[[= ->]|Hin]|[Hn _]]; [auto|auto|set_solver].
    + rewrite lookup_insert_ne by done. set_solver.
Qed.

Lemma index_voters_total l acc :
  (forall i v, (i, v) ∈ l -> i <= u8_max) -> exists m, index_voters l acc = Ok m.
Proof.
  revert acc. induction l as [|[i w] l IH]; intros acc Hi; cbn [index_voters]; [eauto|].
  rewrite (proj2 (try_narrow_Some u8_max i i)) by (split; [done|]; apply (Hi i w); by left).
  cbn [ok_or mbind result_bind]. apply IH. intros j v Hj. apply (Hi j v). by right.
Qed.

Lemma enumerate_snd {A} (l : list A) : (enumerate l).*2 = l.
Proof.
  induction l as [|x l IH] using rev_ind; [done|]. by rewrite enumerate_snoc, fmap_app, IH.
Qed.

Lemma enumerate_index_bound {A} (l : list A) i x n :
  (length l <= n)%nat -> (i, x) ∈ enumerate l -> i < N.of_nat n.
Proof. rewrite elem_of_enumerate. intros Hl Hi%lookup_lt_Some. lia. Qed.

Lemma voter_bits_total ordered :
  (length ordered <= 15)%nat -> exists bits, voter_bits ordered = Ok bits.
Proof.
  intros Hl. apply index_voters_total. intros i v Hi.
  apply (enumerate_index_bound _ _ _ 15) in Hi; [|done]. unfold u8_max. lia.
Qed.

Lemma voter_bits_Ok ordered bits :
  (length ordered <= 15)%nat -> NoDup ordered -> voter_bits ordered = Ok bits ->
  forall v b, bits !! v = Some b <-> ordered !! N.to_nat b = Some v.
Proof.
  intros Hl Hnd H v b. rewrite (index_voters_Ok (enumerate ordered) ∅ bits); [|..|done].
  - rewrite elem_of_enumerate, lookup_empty. naive_solver.
  - intros i w Hi. apply (enumerate_index_bound _ _ _ 15) in Hi; [|done]. unfold u8_max. lia.
  - by rewrite enumerate_snd.
Qed.

(** The header conditions of a plan. *)
Definition header_ok (s : QuorumPlanSpec) : Prop :=
  voters s <> ∅ /\ N.of_nat (size (voters s)) <= MAXIMUM_VOTERS /\
  N.of_nat (size (learners s)) <= MAXIMUM_LEARNERS /\ voters s ## learners s /\
  format_version s <> 0 /\ spec_epoch s <> 0 /\
  eligible_leaders s <> ∅ /\ eligible_leaders s ⊆ voters s.

Lemma validate_header_Ok s : validate_header s = Ok tt <-> header_ok s.
Proof.
  unfold validate_header, header_ok. split.
  - intros H. inv_ok. bool_cases.
    match goal with HV : validate_membership _ _ = Ok ?u |- _ => destruct u; apply validate_membership_Ok in HV end.
    naive_solver.
  - intros (? & ? & ? & ? & ? & ? & ? & ?).
    rewrite (proj2 (validate_membership_Ok (voters s) (learners s))) by done. cbn [mbind result_bind].
    rewrite !(proj2 (N.eqb_neq _ _)), bool_decide_eq_false_2, bool_decide_eq_true_2 by done. done.
Qed.

Lemma header_ok_length s : header_ok s -> (length (ascending (voters s)) <= 9)%nat.
Proof. intros (_ & H & _). rewrite length_ascending. unfold MAXIMUM_VOTERS in H. lia. Qed.

(** The safety a plan promises: every election quorum meets every election,
    commit and read quorum. *)
Definition families_intersect (s : QuorumPlanSpec) : Prop :=
  forall f a b, holds (election s) a = true -> holds (family_predicate s f) b = true ->
    exists v, v ∈ voters s /\ v ∈ a /\ v ∈ b.

Lemma to_from_nodes ordered acks :
  (length ordered <= 15)%nat ->
  Voters.to_nodes (Voters.from_nodes ordered acks) ordered = acks ∩ list_to_set ordered.
Proof.
  intros Hl. apply set_eq. intros v. rewrite Voters.to_nodes_spec by lia.
  setoid_rewrite Voters.from_nodes_spec; [|lia].
  rewrite elem_of_intersection, elem_of_list_to_set, list_elem_of_lookup. split.
  - intros (i & Hi & w & Hw & Hin). simplify_eq. eauto.
  - intros [Hin [i Hi]]. exists (N.of_nat i). rewrite Nat2N.id. eauto.
Qed.

Lemma intersects_nodes ordered a b :
  (length ordered <= 15)%nat -> NoDup ordered -> a < 2 ^ len ordered -> b < 2 ^ len ordered ->
  Voters.intersects a b = true <->
  exists v, v ∈ Voters.to_nodes a ordered /\ v ∈ Voters.to_nodes b ordered.
Proof.
  intros Hl Hnd Ha Hb. rewrite Voters.intersects_spec. setoid_rewrite Voters.to_nodes_spec; [|lia..]. split.
  - intros (i & Hai & Hbi). pose proof (testbit_bound _ _ _ Ha Hai) as Hi.
    destruct (lookup_lt_is_Some_2 ordered (N.to_nat i)) as [v Hv]; [unfold len in Hi; lia|]. naive_solver.
  - intros (v & (i & Hi & ?) & (j & Hj & ?)).
    pose proof (NoDup_lookup _ _ _ _ Hnd Hi Hj). assert (i = j) as -> by lia. eauto.
Qed.

Section whole_plan.
Context `{Sha256}.

(** Everything a successful compilation establishes. *)
Lemma compile_plan_inv s p :
  compile_plan s = Ok p ->
  spec p = s /\ ordered_voters p = ascending (voters s) /\ header_ok s /\
  (forall f, valid_predicate (voters s) (family_predicate s f)) /\
  (forall f, exists bits, voter_bits (ascending (voters s)) = Ok bits /\
     compile_family (family_predicate s f) bits (len (ascending (voters s))) = Ok (family p f)) /\
  prove_intersections (election_proof p) (commit_proof p) (read_proof p) = Ok tt /\
  plan_proof_digest p = plan_digest s (ascending (voters s)) (election_proof p) (commit_proof p) (read_proof p).
Proof.
  unfold compile_plan. intros Hc. inv_ok.
  repeat match goal with
  | HV : validate_header _ = Ok ?u |- _ => destruct u; apply validate_header_Ok in HV
  | HV : validate _ _ = Ok _ |- _ => apply validate_Ok in HV as [HV _]
  | u : unit |- _ => destruct u
  end.
  cbn [spec ordered_voters election_proof commit_proof read_proof plan_proof_digest].
  split_and!; try done; intros []; eauto.
Qed.

Lemma compiled_family_represents s p f :
  compile_plan s = Ok p -> family_represents (family_predicate s f) (ascending (voters s)) (family p f).
Proof.
  intros Hc. apply compile_plan_inv in Hc as (_ & _ & Hh & Hv & Hf & _).
  pose proof (header_ok_length s Hh). destruct (Hf f) as (bits & Hb & Hcf). destruct (Hv f) as [Hs _].
  eapply compile_family_represents; [lia| |exact Hs|exact Hcf].
  apply voter_bits_Ok; [lia|apply ascending_NoDup|done].
Qed.

Lemma compiled_satisfies s p f acks :
  compile_plan s = Ok p -> plan_satisfies p f acks = holds (family_predicate s f) acks.
Proof.
  intros Hc. pose proof (compiled_family_represents s p f Hc) as [Hrep _].
  apply compile_plan_inv in Hc as (_ & Ho & Hh & Hv & _). pose proof (header_ok_length s Hh).
  unfold plan_satisfies. rewrite Ho, Hrep by (apply Voters.from_nodes_bound; lia).
  rewrite to_from_nodes, list_to_set_ascending by lia. apply holds_restrict. apply (Hv f).
Qed.

Lemma prove_intersections_Ok s e c r :
  header_ok s ->
  (forall f, valid_predicate (voters s) (family_predicate s f)) ->
  (forall f, family_represents (family_predicate s f) (ascending (voters s))
               (match f with Election => e | Commit => c | Read => r end)) ->
  prove_intersections e c r = Ok tt <-> families_intersect s.
Proof.
  intros Hh Hv Hrep. pose proof (header_ok_length s Hh) as Hl.
  set (ordered := ascending (voters s)) in *.
  assert (forall f, intersects_all (minimal_quorums e)
      (minimal_quorums (match f with Election => e | Commit => c | Read => r end)) = true <->
    forall a b, holds (election s) a = true -> holds (family_predicate s f) b = true ->
      exists v, v ∈ voters s /\ v ∈ a /\ v ∈ b) as Hfam.
  { intros f. destruct (Hrep Election) as [HeR HeB], (Hrep f) as [HfR HfB]. cbv iota in HeR, HeB.
    set (g := match f with Election => e | Commit => c | Read => r end) in *.
    unfold intersects_all. rewrite forallb_elem. setoid_rewrite forallb_elem. split.
    - intros Hall a b Ha Hb.
      assert (forall pr fam x, family_represents pr ordered fam -> valid_predicate (voters s) pr ->
        holds pr x = true -> exists q, q ∈ minimal_quorums fam /\ Voters.to_nodes q ordered ⊆ x ∩ voters s) as Hq.
      { intros pr fam x [HR HB] (_ & _ & Hsub & _) Hx.
        assert (family_satisfies fam (Voters.from_nodes ordered x) = true) as Hs.
        { rewrite HR by (apply Voters.from_nodes_bound; lia).
          rewrite to_from_nodes by lia. unfold ordered. rewrite list_to_set_ascending.
          by rewrite holds_restrict. }
        apply existsb_elem in Hs as (q & Hq & Hc). exists q. split; [done|].
        apply Voters.contains_to_nodes in Hc; [|lia|by apply HB].
        intros v Hin. apply elem_of_intersection. split; [by apply Hc|].
        apply Voters.to_nodes_spec in Hin as (i & Hi & _); [|lia].
        apply elem_of_ascending, list_elem_of_lookup. eauto. }
      destruct (Hq _ _ a (Hrep Election) (Hv Election) Ha) as (qa & Hqa & Hsa).
      destruct (Hq _ _ b (Hrep f) (Hv f) Hb) as (qb & Hqb & Hsb). fold g in Hqb.
      specialize (Hall _ Hqa _ Hqb). apply (intersects_nodes ordered) in Hall as (v & Hva & Hvb).
      + exists v. set_solver.
      + lia.
      + apply ascending_NoDup.
      + by apply HeB.
      + by apply HfB.
    - intros Hall qa Hqa qb Hqb. apply (intersects_nodes ordered); [lia|apply ascending_NoDup| | |].
      + by apply HeB.
      + by apply HfB.
      + destruct (Hall (Voters.to_nodes qa ordered) (Voters.to_nodes qb ordered)) as (v & _ & ? & ?); [..|eauto].
        * change (election s) with (family_predicate s Election). rewrite <- HeR by by apply HeB.
          apply existsb_elem. exists qa. split; [done|apply Voters.contains_refl].
        * rewrite <- HfR by by apply HfB.
          apply existsb_elem. exists qb. split; [done|apply Voters.contains_refl]. }
  unfold prove_intersections, families_intersect.
  destruct (intersects_all (minimal_quorums e) (minimal_quorums e)) eqn:E1,
    (intersects_all (minimal_quorums e) (minimal_quorums c)) eqn:E2,
    (intersects_all (minimal_quorums e) (minimal_quorums r)) eqn:E3; simpl.
  1:{ split; [intros _ f|done]. apply Hfam. by destruct f. }
  all: split; [done|]; intros HF; exfalso.
  all: first [rewrite (proj2 (Hfam Election) (HF Election)) in E1; discriminate
             |rewrite (proj2 (Hfam Commit) (HF Commit)) in E2; discriminate
             |rewrite (proj2 (Hfam Read) (HF Read)) in E3; discriminate].
Qed.

Lemma compiled_intersect s p : compile_plan s = Ok p -> families_intersect s.
Proof.
  intros Hc. pose proof (fun f => compiled_family_represents s p f Hc) as Hrep.
  apply compile_plan_inv in Hc as (_ & _ & Hh & Hv & _ & Hp & _).
  eapply prove_intersections_Ok; [done|done| |exact Hp]. intros f. by destruct f.
Qed.

Lemma compile_family_total s bits f :
  header_ok s -> valid_predicate (voters s) (family_predicate s f) ->
  voter_bits (ascending (voters s)) = Ok bits ->
  exists fp, compile_family (family_predicate s f) bits (len (ascending (voters s))) = Ok fp.
Proof.
  intros Hh (Hs & _ & Hsub & _) Hb. pose proof (header_ok_length s Hh) as Hl.
  set (ordered := ascending (voters s)) in *.
  eexists {| minimal_quorums := _; minimal_cut_sets := _ |}. apply compile_family_Ok.
  split; [unfold len; lia|]. cbv zeta. split; [|done].
  assert (Voters.from_nodes ordered (voters s) ∈
    List.filter (fun s0 => evaluate (family_predicate s f) s0 bits) (range 1 (2 ^ len ordered))) as Hin.
  { apply elem_of_filter_b.
    assert (evaluate (family_predicate s f) (Voters.from_nodes ordered (voters s)) bits = true) as He.
    { erewrite evaluate_holds; [| |by apply (voter_bits_Ok ordered); [lia|apply ascending_NoDup|]|exact Hs]; [|lia].
      rewrite to_from_nodes by lia. unfold ordered. rewrite list_to_set_ascending.
      eapply holds_full; [exact Hs|set_solver]. }
    split; [|done]. apply elem_of_range. split; [|apply Voters.from_nodes_bound; lia].
    destruct (Voters.from_nodes ordered (voters s)) eqn:E; [|lia]. exfalso.
    destruct Hh as (Hne & _). apply Hne. apply elem_of_equiv_empty_L. intros v Hv.
    assert (v ∈ ordered) as [i Hi]%list_elem_of_lookup by by apply elem_of_ascending.
    assert (N.testbit (Voters.from_nodes ordered (voters s)) (N.of_nat i) = true) as Ht.
    { apply Voters.from_nodes_spec; [lia|]. exists v. by rewrite Nat2N.id. }
    by rewrite E, N.bits_0 in Ht. }
  intros E. rewrite E in Hin. set_solver.
Qed.

Lemma compile_plan_total s :
  header_ok s -> (forall f, valid_predicate (voters s) (family_predicate s f)) ->
  families_intersect s -> exists p, compile_plan s = Ok p.
Proof.
  intros Hh Hv Hint. pose proof (header_ok_length s Hh) as Hl.
  destruct (voter_bits_total (ascending (voters s)) ltac:(lia)) as [bits Hb].
  destruct (compile_family_total s bits Election Hh (Hv _) Hb) as [e He].
  destruct (compile_family_total s bits Commit Hh (Hv _) Hb) as [c Hc].
  destruct (compile_family_total s bits Read Hh (Hv _) Hb) as [r Hr].
  simpl family_predicate in *.
  assert (forall f, family_represents (family_predicate s f) (ascending (voters s))
               (match f with Election => e | Commit => c | Read => r end)) as Hrep.
  { intros f. pose proof (voter_bits_Ok (ascending (voters s)) bits ltac:(lia) (ascending_NoDup (voters s)) Hb).
    destruct f; (eapply compile_family_represents; [|eassumption| |eassumption]; [lia|]);
      [apply (Hv Election)|apply (Hv Commit)|apply (Hv Read)]. }
  unfold compile_plan. rewrite (proj2 (validate_header_Ok s) Hh), Hb. cbn [mbind result_bind].
  pose proof (Hv Election) as HvE. pose proof (Hv Commit) as HvC. pose proof (Hv Read) as HvR.
  simpl family_predicate in HvE, HvC, HvR.
  rewrite (proj2 (validate_Ok _ _ _) (conj HvE eq_refl)). cbn [mbind result_bind].
  rewrite (proj2 (validate_Ok _ _ _) (conj HvC eq_refl)). cbn [mbind result_bind].
  rewrite (proj2 (validate_Ok _ _ _) (conj HvR eq_refl)).
  cbn [mbind result_bind]. rewrite He, Hc, Hr. cbn [mbind result_bind].
  rewrite (proj2 (prove_intersections_Ok s e c r Hh Hv Hrep) Hint). cbn [mbind result_bind]. eauto.
Qed.

End whole_plan.
