(* ===== verification/FlatPlan.v ===== *)
(** The flat default plan and the guarantees of compiled plans: what a compiled
    family decides, which specifications compile, and that the flat default does. *)

From S2P Require Import Prelude VoterSet Predicate Plan Digest Compile.
From stdpp Require Import prelude gmap.
#[local] Open Scope N_scope.

(** ** Counting predicates *)

Definition count_in (s : gset NodeId) (l : list NodeId) : N :=
  len (List.filter (fun v => bool_decide (v ∈ s)) l).

Lemma filter_map_voter acks l :
  len (List.filter (fun c => holds c acks) (map Voter l)) = count_in acks l.
Proof.
  unfold count_in. induction l as [|v l IH]; simpl; [done|].
  case_bool_decide; rewrite ?len_cons, IH; done.
Qed.

Lemma count_in_overlap a b l :
  len l < count_in a l + count_in b l -> exists v, v ∈ l /\ v ∈ a /\ v ∈ b.
Proof.
  unfold count_in. induction l as [|v l IH]; simpl; [done|].
  rewrite len_cons. case_bool_decide as Ha; case_bool_decide as Hb; rewrite ?len_cons; intros Hlt.
  1:{ exists v. set_solver. }
  all: destruct IH as (w & ? & ? & ?); [lia|]; exists w; set_solver.
Qed.

Lemma references_flat t l : references (AtLeast t (map Voter l)) = l.
Proof. simpl. induction l as [|v l IH]; simpl; [done|by rewrite IH]. Qed.

Lemma node_total_flat t l : node_total (AtLeast t (map Voter l)) = len l + 1.
Proof.
  simpl. enough (foldr N.add 0 (map node_total (map Voter l)) = len l) by lia.
  induction l as [|v l IH]; simpl; [done|]. rewrite len_cons, IH. lia.
Qed.

Lemma flat_predicate_valid (vs : gset NodeId) t :
  0 < t <= N.of_nat (size vs) -> N.of_nat (size vs) <= MAXIMUM_VOTERS ->
  valid_predicate vs (AtLeast t (map Voter (ascending vs))).
Proof.
  intros Ht Hmax. assert (len (ascending vs) = N.of_nat (size vs)) as Hl
    by (unfold len; by rewrite length_ascending).
  split_and!.
  - cbn [well_shaped]. rewrite well_shaped_all. split; [done|]. split.
    + unfold len. rewrite length_map. fold (len (ascending vs)). lia.
    + apply Forall_forall. intros c (v & -> & _)%list_elem_of_fmap. done.
  - rewrite references_flat. apply ascending_NoDup.
  - rewrite references_flat. by rewrite list_to_set_ascending.
  - rewrite node_total_flat, Hl. unfold MAXIMUM_VOTERS, MAXIMUM_PREDICATE_NODES in *. lia.
Qed.

(** The thresholds of the flat plan of [n] voters. *)
Definition election_count (n : N) : N := n / 2 + 1.
Definition write_count (n : N) : N := n - election_count n + 1.

Definition flat_spec (id epoch : N) (vs ls : gset NodeId) : QuorumPlanSpec :=
  let n := N.of_nat (size vs) in
  let children := map Voter (ascending vs) in
  {| plan_id := id; format_version := 1; spec_epoch := epoch; voters := vs; learners := ls;
     eligible_leaders := vs;
     election := AtLeast (election_count n) children;
     commit := AtLeast (write_count n) children;
     read := AtLeast (write_count n) children |}.

Lemma flat_counts n :
  0 < n -> 0 < election_count n <= n /\ 0 < write_count n <= n /\ n < election_count n + write_count n
           /\ n < 2 * election_count n.
Proof.
  intros Hn. unfold write_count, election_count.
  generalize (N.div_mod n 2 ltac:(done)), (N.mod_lt n 2 ltac:(done)).
  generalize (n / 2) (n mod 2). intros q r. lia.
Qed.

Lemma flat_plan_Ok id epoch vs ls s :
  flat_plan id epoch vs ls = Ok s <-> validate_membership vs ls = Ok tt /\ s = flat_spec id epoch vs ls.
Proof.
  unfold flat_plan. split.
  - intros H. inv_ok. repeat match goal with u : unit |- _ => destruct u end.
    match goal with HS : _ ≫= _ = Some _ |- _ => apply bind_Some in HS as (m & Hm & HS) end.
    inv_ok. done.
  - intros [HV ->]. rewrite HV. cbn [mbind result_bind].
    apply validate_membership_Ok in HV as (Hne & Hmax & _).
    assert (0 < N.of_nat (size vs)) as Hpos.
    { assert (size vs <> 0%nat) by (intros E%size_empty_inv; apply Hne; set_solver). lia. }
    destruct (flat_counts _ Hpos) as (? & ? & ? & ?).
    unfold flat_spec, write_count, election_count, MAXIMUM_VOTERS in *.
    set (n := N.of_nat (size vs)) in *.
    unfold checked_sub. rewrite (proj2 (N.leb_le _ _)) by lia. cbn [mbind option_bind].
    unfold checked_add, usize_max, u64_max, try_narrow, u8_max.
    repeat (rewrite (proj2 (N.leb_le _ _)) by lia; cbn [ok_or mbind result_bind]).
    done.
Qed.

Lemma flat_spec_header id epoch vs ls :
  validate_membership vs ls = Ok tt -> epoch <> 0 -> header_ok (flat_spec id epoch vs ls).
Proof.
  intros HV He. apply validate_membership_Ok in HV. unfold header_ok, flat_spec; simpl.
  split_and!; try naive_solver. 
Qed.

Lemma flat_spec_predicates id epoch vs ls f :
  validate_membership vs ls = Ok tt ->
  valid_predicate vs (family_predicate (flat_spec id epoch vs ls) f).
Proof.
  intros (Hne & Hmax & _)%validate_membership_Ok.
  assert (0 < N.of_nat (size vs)) as Hpos.
  { assert (size vs <> 0%nat) by (intros E%size_empty_inv; apply Hne; set_solver). lia. }
  destruct (flat_counts _ Hpos) as (? & ? & _).
  destruct f; apply flat_predicate_valid; done.
Qed.

Lemma flat_spec_intersect id epoch vs ls :
  validate_membership vs ls = Ok tt -> families_intersect (flat_spec id epoch vs ls).
Proof.
  intros (Hne & Hmax & _)%validate_membership_Ok.
  assert (0 < N.of_nat (size vs)) as Hpos.
  { assert (size vs <> 0%nat) by (intros E%size_empty_inv; apply Hne; set_solver). lia. }
  destruct (flat_counts _ Hpos) as (? & ? & ? & ?).
  assert (len (ascending vs) = N.of_nat (size vs)) as Hl by (unfold len; by rewrite length_ascending).
  intros f a b. unfold flat_spec; destruct f; cbn [family_predicate election commit read holds voters];
    rewrite !filter_map_voter, !N.leb_le; intros Ha Hb;
    (destruct (count_in_overlap a b (ascending vs)) as (v & Hv%elem_of_ascending & ? & ?); [lia|]; eauto).
Qed.

Lemma flat_spec_compiles `{Sha256} id epoch vs ls :
  validate_membership vs ls = Ok tt -> epoch <> 0 ->
  exists p, compile_plan (flat_spec id epoch vs ls) = Ok p.
Proof.
  intros HV He. apply compile_plan_total; [by apply flat_spec_header| |by apply flat_spec_intersect].
  intros f. by apply flat_spec_predicates.
Qed.

(** ** Guarantees *)

(** C20: A compiled family decides exactly its source predicate: for any set of
    acknowledging nodes (voters or not), testing the voter mask against the
    compiled minimal quorums gives the node-set reading of the predicate the
    plan was written with. *)
Theorem compile_plan_exact `{Sha256} s p f acks :
  compile_plan s = Ok p -> plan_satisfies p f acks = holds (family_predicate s f) acks.
Proof. apply compiled_satisfies. Qed.

(** C19: Compilation accepts exactly the safe specifications: a plan compiles if and
    only if its header is in bounds, its three predicates are valid over its voters,
    and every election quorum shares a voter with every election, commit and read
    quorum. *)
Theorem compile_plan_accepts_safe `{Sha256} s :
  (exists p, compile_plan s = Ok p) <->
  header_ok s /\ (forall f, valid_predicate (voters s) (family_predicate s f)) /\ families_intersect s.
Proof.
  split.
  - intros [p Hp]. pose proof (compiled_intersect s p Hp).
    apply compile_plan_inv in Hp as (_ & _ & Hh & Hv & _). auto.
  - intros (Hh & Hv & Hi). by apply compile_plan_total.
Qed.

(** The listed cut sets are exact: a family that compiled can no longer be
    satisfied once the voters in mask [m] are removed if and only if [m] contains
    one of its minimal cut sets. *)
Theorem compile_plan_cut_sets `{Sha256} s p f m :
  compile_plan s = Ok p -> m < 2 ^ len (ordered_voters p) ->
  existsb (fun cut => Voters.contains m cut) (minimal_cut_sets (family p f)) =
  negb (holds (family_predicate s f)
          (voters s ∖ Voters.to_nodes m (ordered_voters p))).
Proof.
  intros Hp Hm. apply compile_plan_inv in Hp as (_ & Ho & Hh & Hv & Hf & _).
  pose proof (header_ok_length s Hh) as Hl. rewrite Ho in *.
  destruct (Hf f) as (bits & Hb & Hcf). destruct (Hv f) as [Hs _].
  pose proof (voter_bits_Ok (ascending (voters s)) bits ltac:(lia) (ascending_NoDup _) Hb) as Hbits.
  erewrite compile_family_cut_sets; [| | |exact Hs|exact Hcf|done]; [|lia|exact Hbits].
  f_equal. erewrite evaluate_holds; [| |exact Hbits|exact Hs]; [|lia]. f_equal.
  apply set_eq. intros v. rewrite elem_of_difference, !Voters.to_nodes_spec by lia. split.
  - intros (i & Hi & Hsv). apply survivors_testbit in Hsv as [_ Hmi]; [|lia|done].
    split; [apply elem_of_ascending, list_elem_of_lookup; eauto|].
    intros (j & Hj & Hmj). pose proof (NoDup_lookup _ _ _ _ (ascending_NoDup _) Hi Hj).
    assert (i = j) as -> by lia. congruence.
  - intros [Hin%elem_of_ascending Hn]. apply list_elem_of_lookup in Hin as [i Hi].
    exists (N.of_nat i). rewrite Nat2N.id. split; [done|].
    apply survivors_testbit; [lia|done|]. split.
    + apply lookup_lt_Some in Hi. unfold len. lia.
    + apply not_true_iff_false. intros Ht. apply Hn. exists (N.of_nat i). by rewrite Nat2N.id.
Qed.

(** The flat default plan of any admissible membership is built and compiles:
    with one to nine voters, at most 256 learners disjoint from them and a positive
    epoch, [flat_plan] returns a specification that [compile_plan] accepts, electing
    by strict majority. *)
Theorem flat_plan_compiles `{Sha256} id epoch vs ls :
  validate_membership vs ls = Ok tt -> epoch <> 0 ->
  exists s p, flat_plan id epoch vs ls = Ok s /\ compile_plan s = Ok p /\
    forall acks, plan_satisfies p Election acks = true <->
      N.of_nat (size vs) < 2 * count_in acks (ascending vs).
Proof.
  intros HV He. destruct (flat_spec_compiles id epoch vs ls HV He) as [p Hp].
  exists (flat_spec id epoch vs ls), p. split; [by apply flat_plan_Ok|]. split; [done|].
  intros acks. rewrite (compiled_satisfies _ _ _ _ Hp). unfold flat_spec.
  cbn [family_predicate election holds]. rewrite filter_map_voter, N.leb_le.
  unfold election_count. pose proof (N.div_mod (N.of_nat (size vs)) 2 ltac:(done)) as Hd.
  pose proof (N.mod_lt (N.of_nat (size vs)) 2 ltac:(done)) as Hm. revert Hd Hm.
  generalize (N.of_nat (size vs) / 2) (N.of_nat (size vs) mod 2). lia.
Qed.

(** The plan digest is canonical: reordering the children of any composite or the
    entries of a weighted threshold leaves the hashed message, hence the digest,
    unchanged. *)
Theorem plan_digest_canonical `{Sha256} s s' ordered e c r :
  plan_id s = plan_id s' -> format_version s = format_version s' -> spec_epoch s = spec_epoch s' ->
  learners s = learners s' -> eligible_leaders s = eligible_leaders s' ->
  reordered (election s) (election s') -> reordered (commit s) (commit s') ->
  reordered (read s) (read s') ->
  plan_digest s ordered e c r = plan_digest s' ordered e c r.
Proof.
  intros E1 E2 E3 E4 E5 He Hc Hr. unfold plan_digest, plan_message.
  rewrite E1, E2, E3, E4, E5.
  by rewrite (predicate_bytes_reordered _ _ He), (predicate_bytes_reordered _ _ Hc),
    (predicate_bytes_reordered _ _ Hr).
Qed.

(** ** Sample values *)

Module Sample.
(** A stand-in for the digest function on sample inputs. *)
Definition sha : Sha256 := fun message => message.
Definition three_voters : QuorumPlanSpec := flat_spec 7 1 {[1; 2; 3]} {[4]}.
Definition weighted_spec (ws : list WeightedVoter) : QuorumPlanSpec :=
  {| plan_id := 9; format_version := 1; spec_epoch := 3; voters := {[1; 2; 3]}; learners := ∅;
     eligible_leaders := {[1]};
     election := WeightedAtLeast 3 ws;
     commit := All_ [Voter 1; AtLeast 1 [Voter 2; Voter 3]];
     read := WeightedAtLeast 3 ws |}.
End Sample.

Lemma compile_plan_exact_witness :
  exists p, @compile_plan Sample.sha Sample.three_voters = Ok p /\
    plan_satisfies p Commit {[2; 3; 4]} = true /\ plan_satisfies p Commit {[3; 4]} = false.
Proof.
  eexists. split; [vm_compute; reflexivity|]. split.
  - rewrite (@compile_plan_exact Sample.sha Sample.three_voters); [vm_compute; reflexivity..].
  - rewrite (@compile_plan_exact Sample.sha Sample.three_voters); [vm_compute; reflexivity..].
Defined.

Lemma compile_plan_cut_sets_witness :
  exists p, @compile_plan Sample.sha Sample.three_voters = Ok p /\
    existsb (fun cut => Voters.contains 3 cut) (minimal_cut_sets (family p Election)) = true /\
    existsb (fun cut => Voters.contains 4 cut) (minimal_cut_sets (family p Election)) = false.
Proof.
  eexists. split; [vm_compute; reflexivity|]. split.
  - rewrite (@compile_plan_cut_sets Sample.sha Sample.three_voters); [vm_compute; reflexivity..].
  - rewrite (@compile_plan_cut_sets Sample.sha Sample.three_voters); [vm_compute; reflexivity..].
Defined.

Lemma flat_plan_compiles_witness :
  validate_membership {[1; 2; 3; 5]} {[4]} = Ok tt /\
  exists s p, flat_plan 7 1 {[1; 2; 3; 5]} {[4]} = Ok s /\ @compile_plan Sample.sha s = Ok p /\
    forall acks, plan_satisfies p Election acks = true <->
      N.of_nat (size ({[1; 2; 3; 5]} : gset N)) < 2 * count_in acks (ascending {[1; 2; 3; 5]}).
Proof.
  split; [vm_compute; reflexivity|].
  apply (@flat_plan_compiles Sample.sha 7 1); [vm_compute; reflexivity|done].
Defined.

Lemma plan_digest_canonical_witness :
  let a := {| voter := 1; weight := 2 |} in let b := {| voter := 2; weight := 1 |} in
  @plan_digest Sample.sha (Sample.weighted_spec [a; b]) [1; 2; 3]
     {| minimal_quorums := [3]; minimal_cut_sets := [1; 2] |} {| minimal_quorums := [3; 5]; minimal_cut_sets := [1] |}
     {| minimal_quorums := [3]; minimal_cut_sets := [1; 2] |} =
  @plan_digest Sample.sha (Sample.weighted_spec [b; a]) [1; 2; 3]
     {| minimal_quorums := [3]; minimal_cut_sets := [1; 2] |} {| minimal_quorums := [3; 5]; minimal_cut_sets := [1] |}
     {| minimal_quorums := [3]; minimal_cut_sets := [1; 2] |}.
Proof.
  intros a b. apply (@plan_digest_canonical Sample.sha); try reflexivity.
  - apply reordered_Weighted; [|apply perm_swap].
    apply (bool_decide_unpack (NoDup (map voter [a; b]))). vm_compute. exact I.
  - apply reordered_All with (ds := [Voter 1; AtLeast 1 [Voter 2; Voter 3]]); [|reflexivity].
    repeat constructor.
    apply reordered_AtLeast with (ds := [Voter 2; Voter 3]); [|reflexivity]. repeat constructor.
  - apply reordered_Weighted; [|apply perm_swap].
    apply (bool_decide_unpack (NoDup (map voter [a; b]))). vm_compute. exact I.
Defined.
