(* ===== verification/Joint.v ===== *)
(** Reconfiguration phases: quorum/transition.rs (the old/new cross-family proof),
    [JointQuorumPlan] of membership.rs and [ActiveQuorumPlan] of plan_record.rs. *)

From Stdlib Require Import String.
From S2P Require Import Prelude VoterSet Predicate Plan Digest Compile FlatPlan.
From stdpp Require Import prelude gmap.
#[local] Open Scope N_scope.

Record JointTransitionProof := {
  old_epoch : N;
  new_epoch : N;
  transition_digest : bytes;
}.

#[export] Instance JointTransitionProof_eq_dec : EqDecision JointTransitionProof.
Proof. solve_decision. Defined.

Module Transition.

Definition intersects_all (left right : list (gset NodeId)) : bool :=
  forallb (fun first => forallb (fun second => negb (bool_decide (first ## second))) right) left.

Definition compose_joint (old new : list (gset NodeId)) : list (gset NodeId) :=
  let candidates := concat (map (fun old_set => map (fun new_set => old_set ∪ new_set) new) old) in
  List.filter (fun candidate =>
    negb (existsb (fun other => negb (bool_decide (other = candidate)) && bool_decide (other ⊆ candidate))
            candidates)) candidates.

Definition node_sets (p : CompiledQuorumPlan) (f : QuorumFamily) : list (gset NodeId) :=
  map (fun set => Voters.to_nodes set (ordered_voters p)) (minimal_quorums (family p f)).

Definition prove_joint_transition `{Sha256} (old new : CompiledQuorumPlan)
    : result QuorumPlanError JointTransitionProof :=
  if spec_epoch (spec new) <=? spec_epoch (spec old) then Err UnsafeTransition
  else
    let old_election := node_sets old Election in
    let old_commit := node_sets old Commit in
    let new_election := node_sets new Election in
    let new_commit := node_sets new Commit in
    let joint_election := compose_joint old_election new_election in
    let joint_commit := compose_joint old_commit new_commit in
    let joint_read := compose_joint (node_sets old Read) (node_sets new Read) in
    let safe := intersects_all old_election joint_commit
      && intersects_all joint_election old_commit
      && intersects_all joint_election joint_election
      && intersects_all joint_election joint_commit
      && intersects_all joint_read joint_election
      && intersects_all joint_election new_commit
      && intersects_all new_election joint_commit in
    if negb safe then Err UnsafeTransition
    else
      Ok {| old_epoch := spec_epoch (spec old);
            new_epoch := spec_epoch (spec new);
            transition_digest := sha256 (ascii_bytes "meshspan.consensus.joint-transition.v1"
              ++ plan_proof_digest old ++ plan_proof_digest new
              ++ u64_be (spec_epoch (spec old)) ++ u64_be (spec_epoch (spec new))
              ++ replicate 5 1) |}.

End Transition.

Inductive MembershipChangeError := InvalidTarget | NoCaughtUpLearner | InvalidTransition.

Record JointQuorumPlan := {
  old_plan : CompiledQuorumPlan;
  new_plan : CompiledQuorumPlan;
  joint_proof : JointTransitionProof;
  joint_digest : bytes;
}.

#[export] Instance JointQuorumPlan_eq_dec : EqDecision JointQuorumPlan.
Proof. solve_decision. Defined.

Module Joint.

Definition new `{Sha256} (old new : CompiledQuorumPlan) : result MembershipChangeError JointQuorumPlan :=
  if negb (spec_epoch (spec new) =? saturating_add u64_max (spec_epoch (spec old)) 1)
  then Err InvalidTransition
  else
    proof ← map_err (fun _ => InvalidTransition) (Transition.prove_joint_transition old new);
    Ok {| old_plan := old; new_plan := new; joint_proof := proof;
          joint_digest := sha256 (ascii_bytes "meshspan.consensus.active-joint-plan.v1"
            ++ plan_proof_digest old ++ plan_proof_digest new ++ transition_digest proof) |}.

Definition satisfies (j : JointQuorumPlan) (f : QuorumFamily) (acks : gset NodeId) : bool :=
  plan_satisfies (old_plan j) f acks && plan_satisfies (new_plan j) f acks.

Definition members (j : JointQuorumPlan) : gset NodeId :=
  (voters (spec (old_plan j)) ∪ learners (spec (old_plan j)))
  ∪ (voters (spec (new_plan j)) ∪ learners (spec (new_plan j))).

Definition eligible (j : JointQuorumPlan) : gset NodeId :=
  eligible_leaders (spec (old_plan j)) ∩ eligible_leaders (spec (new_plan j)).

Definition membership_epoch (j : JointQuorumPlan) : N := new_epoch (joint_proof j).

End Joint.

(** Stable or joint phase, as carried by a running core. *)
Inductive ActiveQuorumPlan :=
| Stable (plan : CompiledQuorumPlan)
| JointPhase (plan : JointQuorumPlan).

#[export] Instance ActiveQuorumPlan_eq_dec : EqDecision ActiveQuorumPlan.
Proof. solve_decision. Defined.

Module Active.

Definition membership_epoch (a : ActiveQuorumPlan) : N :=
  match a with
  | Stable p => spec_epoch (spec p)
  | JointPhase j => Joint.membership_epoch j
  end.

Definition proof_digest (a : ActiveQuorumPlan) : bytes :=
  match a with
  | Stable p => plan_proof_digest p
  | JointPhase j => joint_digest j
  end.

Definition members (a : ActiveQuorumPlan) : gset NodeId :=
  match a with
  | Stable p => voters (spec p) ∪ learners (spec p)
  | JointPhase j => Joint.members j
  end.

Definition voters_ (a : ActiveQuorumPlan) : gset NodeId :=
  match a with
  | Stable p => voters (spec p)
  | JointPhase j => voters (spec (old_plan j)) ∪ voters (spec (new_plan j))
  end.

Definition satisfies (a : ActiveQuorumPlan) (f : QuorumFamily) (acks : gset NodeId) : bool :=
  match a with
  | Stable p => plan_satisfies p f acks
  | JointPhase j => Joint.satisfies j f acks
  end.

Definition eligible (a : ActiveQuorumPlan) : gset NodeId :=
  match a with
  | Stable p => eligible_leaders (spec p)
  | JointPhase j => Joint.eligible j
  end.

Definition recovery_configuration_plan (a : ActiveQuorumPlan) : CompiledQuorumPlan :=
  match a with
  | Stable p => p
  | JointPhase j => old_plan j
  end.

End Active.

(** ** Values built by their constructors
    The fields of compiled and joint plans are private: every value in a running
    program came from [compile_plan] and [JointQuorumPlan::new]. *)
Section constructed.
Context `{Sha256}.

Definition plan_built (p : CompiledQuorumPlan) : Prop := compile_plan (spec p) = Ok p.
Definition joint_built (j : JointQuorumPlan) : Prop :=
  plan_built (old_plan j) /\ plan_built (new_plan j) /\ Joint.new (old_plan j) (new_plan j) = Ok j.
Definition active_built (a : ActiveQuorumPlan) : Prop :=
  match a with Stable p => plan_built p | JointPhase j => joint_built j end.

Lemma compile_plan_built s p : compile_plan s = Ok p -> plan_built p.
Proof. intros Hc. unfold plan_built. pose proof Hc as (-> & _)%compile_plan_inv. done. Qed.

(** Within one plan, an election quorum meets every quorum. *)
Lemma built_intersect p f a b :
  plan_built p -> plan_satisfies p Election a = true -> plan_satisfies p f b = true ->
  exists v, v ∈ voters (spec p) /\ v ∈ a /\ v ∈ b.
Proof.
  intros Hp. rewrite !(compiled_satisfies _ _ _ _ Hp). intros Ha Hb.
  exact (compiled_intersect _ _ Hp f a b Ha Hb).
Qed.

Lemma node_sets_satisfy p f x :
  plan_built p -> x ∈ Transition.node_sets p f -> plan_satisfies p f x = true.
Proof.
  intros Hp (q & -> & Hq)%list_elem_of_fmap.
  rewrite (compiled_satisfies _ _ _ _ Hp).
  destruct (compiled_family_represents _ _ f Hp) as [HR HB].
  pose proof Hp as (_ & Ho & _)%compile_plan_inv. rewrite Ho, <- HR by by apply HB.
  apply existsb_elem. exists q. split; [done|apply Voters.contains_refl].
Qed.

Lemma elem_of_compose_joint c old new :
  c ∈ Transition.compose_joint old new -> exists o n, c = o ∪ n /\ o ∈ old /\ n ∈ new.
Proof.
  unfold Transition.compose_joint. intros [Hc _]%elem_of_filter_b.
  apply list_elem_of_In, in_concat in Hc as (l & Hl & Hc).
  apply in_map_iff in Hl as (o & <- & Ho). apply in_map_iff in Hc as (n & <- & Hn).
  exists o, n. by rewrite !list_elem_of_In.
Qed.

Lemma transition_intersects_all l r :
  (forall a b, a ∈ l -> b ∈ r -> exists v, v ∈ a /\ v ∈ b) -> Transition.intersects_all l r = true.
Proof.
  intros Hlr. apply forallb_elem. intros a Ha. apply forallb_elem. intros b Hb.
  apply negb_true_iff, bool_decide_eq_false. destruct (Hlr a b Ha Hb) as (v & ? & ?). set_solver.
Qed.

(** Joint quorums of compiled plans always intersect: the transition proof fails
    only on a stale epoch. *)
Lemma prove_joint_transition_total old new :
  plan_built old -> plan_built new -> spec_epoch (spec old) < spec_epoch (spec new) ->
  exists proof, Transition.prove_joint_transition old new = Ok proof /\
    old_epoch proof = spec_epoch (spec old) /\ new_epoch proof = spec_epoch (spec new).
Proof.
  intros Ho Hn Hlt. unfold Transition.prove_joint_transition.
  rewrite (proj2 (N.leb_gt _ _)) by done.
  assert (forall p f a b, plan_built p -> a ∈ Transition.node_sets p Election ->
    b ∈ Transition.node_sets p f -> exists v, v ∈ a /\ v ∈ b) as Hpf.
  { intros p f a b Hp Ha Hb. destruct (built_intersect p f a b Hp) as (v & _ & ?); eauto using node_sets_satisfy. }
  rewrite !transition_intersects_all; [simpl; eauto|..].
  all: intros a b Ha Hb;
    repeat match goal with
    | HJ : _ ∈ Transition.compose_joint _ _ |- _ =>
        apply elem_of_compose_joint in HJ as (? & ? & -> & ? & ?)
    end.
  all: match goal with
    | Hb : plan_built ?p, Hx : ?x ∈ Transition.node_sets ?p Election,
      Hy : ?y ∈ Transition.node_sets ?p ?g |- _ => destruct (Hpf p g x y Hb Hx Hy) as (v & ? & ?)
    end; exists v; set_solver.
Qed.

Lemma joint_new_Ok old new j :
  Joint.new old new = Ok j ->
  old_plan j = old /\ new_plan j = new /\
  spec_epoch (spec new) = saturating_add u64_max (spec_epoch (spec old)) 1 /\
  Joint.membership_epoch j = spec_epoch (spec new) /\ spec_epoch (spec old) < spec_epoch (spec new).
Proof.
  unfold Joint.new. intros Hj. inv_ok. bool_cases. unfold Joint.membership_epoch. simpl.
  match goal with HT : Transition.prove_joint_transition _ _ = Ok _ |- _ =>
    unfold Transition.prove_joint_transition in HT; inv_ok end.
  bool_cases. simpl. auto.
Qed.

Lemma joint_new_built old new j :
  plan_built old -> plan_built new -> Joint.new old new = Ok j -> joint_built j.
Proof.
  intros Ho Hn Hj. pose proof (joint_new_Ok _ _ _ Hj) as (E1 & E2 & _).
  unfold joint_built. by rewrite E1, E2.
Qed.

(** Adjacent epochs of compiled plans always form a joint phase. *)
Lemma joint_new_total old new :
  plan_built old -> plan_built new -> spec_epoch (spec old) < u64_max ->
  spec_epoch (spec new) = spec_epoch (spec old) + 1 ->
  exists j, Joint.new old new = Ok j.
Proof.
  intros Ho Hn Hmax He. unfold Joint.new, saturating_add. rewrite He.
  rewrite N.min_l, N.eqb_refl by lia. simpl negb. cbv iota.
  destruct (prove_joint_transition_total old new Ho Hn ltac:(lia)) as (proof & -> & _).
  cbn [map_err mbind result_bind]. eauto.
Qed.

(** Phases that may be active at the same time during one reconfiguration. *)
Inductive adjacent : ActiveQuorumPlan -> ActiveQuorumPlan -> Prop :=
| adjacent_same a : adjacent a a
| adjacent_enter j : adjacent (Stable (old_plan j)) (JointPhase j)
| adjacent_enter' j : adjacent (JointPhase j) (Stable (old_plan j))
| adjacent_leave j : adjacent (JointPhase j) (Stable (new_plan j))
| adjacent_leave' j : adjacent (Stable (new_plan j)) (JointPhase j).

Lemma adjacent_intersect x y f a b :
  adjacent x y -> active_built x -> active_built y ->
  Active.satisfies x Election a = true -> Active.satisfies y f b = true ->
  exists v, v ∈ a /\ v ∈ b.
Proof.
  assert (forall p g u w, plan_built p -> plan_satisfies p Election u = true ->
    plan_satisfies p g w = true -> exists v, v ∈ u /\ v ∈ w) as Hp.
  { intros p g u w Hb Hu Hw. destruct (built_intersect p g u w Hb Hu Hw) as (v & _ & ?). eauto. }
  intros Hadj Hx Hy Ha Hb.
  assert (forall j, joint_built j -> plan_built (old_plan j) /\ plan_built (new_plan j)) as Hj
    by (intros j (? & ? & _); done).
  destruct Hadj as [[p|j]|j|j|j|j]; cbn [Active.satisfies active_built] in *; unfold Joint.satisfies in *;
    try (apply Hj in Hx as [? ?]); bool_cases; eauto; apply Hj in Hy as [? ?]; eauto.
Qed.

End constructed.

(** ** Guarantees *)

(** A joint phase is always reachable: any two compiled plans of adjacent,
    non-exhausted epochs pass the old/new transition proof, so [JointQuorumPlan::new]
    refuses nothing but a non-adjacent epoch. *)
Theorem joint_plan_always_formed `{Sha256} (s s' : QuorumPlanSpec) (p p' : CompiledQuorumPlan) :
  compile_plan s = Ok p -> compile_plan s' = Ok p' ->
  spec_epoch s < u64_max -> spec_epoch s' = spec_epoch s + 1 ->
  exists j, Joint.new p p' = Ok j /\ Joint.membership_epoch j = spec_epoch s'.
Proof.
  intros Hp Hp' Hmax He. pose proof Hp as (Es & _)%compile_plan_inv.
  pose proof Hp' as (Es' & _)%compile_plan_inv.
  destruct (joint_new_total p p') as [j Hj]; eauto using compile_plan_built; [by rewrite Es|by rewrite Es, Es'|].
  exists j. split; [done|]. apply joint_new_Ok in Hj as (_ & _ & _ & -> & _). by rewrite Es'.
Qed.

(** Quorums of adjacent reconfiguration phases intersect: while a plan moves from
    its old stable phase through the joint phase to the new stable phase, every
    election quorum of one phase shares a node with every election, commit and read
    quorum of the same or a neighbouring phase. *)
Theorem adjacent_phases_intersect `{Sha256} x y f a b :
  adjacent x y -> active_built x -> active_built y ->
  Active.satisfies x Election a = true -> Active.satisfies y f b = true ->
  exists v, v ∈ a /\ v ∈ b.
Proof. apply adjacent_intersect. Qed.

Lemma joint_plan_always_formed_witness :
  let s := flat_spec 7 1 {[1; 2; 3]} {[4]} in let s' := flat_spec 8 2 {[1; 2; 3; 4]} ∅ in
  exists p p', @compile_plan Sample.sha s = Ok p /\ @compile_plan Sample.sha s' = Ok p' /\
    exists j, @Joint.new Sample.sha p p' = Ok j /\ Joint.membership_epoch j = 2.
Proof.
  intros s s'. eexists. eexists. split; [vm_compute; reflexivity|]. split; [vm_compute; reflexivity|].
  apply (@joint_plan_always_formed Sample.sha s s'); vm_compute; reflexivity.
Defined.

Lemma adjacent_phases_intersect_witness :
  exists p, @compile_plan Sample.sha (flat_spec 7 1 {[1; 2; 3]} {[4]}) = Ok p /\
    exists v, v ∈ ({[1; 2]} : gset N) /\ v ∈ ({[2; 3]} : gset N).
Proof.
  eexists. split; [vm_compute; reflexivity|].
  destruct (@compile_plan Sample.sha (flat_spec 7 1 {[1; 2; 3]} {[4]})) as [p|e] eqn:E; [|by vm_compute in E].
  apply (@adjacent_phases_intersect Sample.sha (Stable p) (Stable p) Commit).
  - apply adjacent_same.
  - eapply compile_plan_built, E.
  - eapply compile_plan_built, E.
  - revert E. vm_compute. intros [= <-]. reflexivity.
  - revert E. vm_compute. intros [= <-]. reflexivity.
Defined.
