(* ===== verification/Ids.v ===== *)
(** Shared value types of meshspan-domain/src/primitives.rs and uuid.rs: sixteen-byte
    identifiers with their canonical hexadecimal text, instants, durations and
    revisions; and the fixed-width fields of signed payloads. *)

From S2P Require Import Prelude.
From stdpp Require Import prelude list.
#[local] Open Scope N_scope.

Inductive IdentifierError := InvalidLength | InvalidCharacter | Nil.

#[export] Instance IdentifierError_eq_dec : EqDecision IdentifierError.
Proof. solve_decision. Defined.

Definition decode_hex (byte : N) : option N :=
  if (48 <=? byte) && (byte <=? 57) then Some (byte - 48)
  else if (97 <=? byte) && (byte <=? 102) then Some (byte - 97 + 10)
  else None.

Definition validate_identifier (b : bytes) : result IdentifierError bytes :=
  if bool_decide (b = replicate 16 0) then Err Nil else Ok b.

(** The loop over [as_chunks::<2>()]. *)
Fixpoint parse_pairs (text : bytes) : result IdentifierError bytes :=
  match text with
  | high :: low :: rest =>
      h ← ok_or (decode_hex high) InvalidCharacter;
      l ← ok_or (decode_hex low) InvalidCharacter;
      out ← parse_pairs rest;
      Ok (N.lor (N.shiftl h 4) l :: out)
  | _ => Ok []
  end.

Definition parse_identifier (text : bytes) : result IdentifierError bytes :=
  if negb (len text =? 32) then Err InvalidLength
  else raw ← parse_pairs text; validate_identifier raw.

(** An identifier value: its canonical bytes as one big-endian number. *)
Module Identifier.

Definition from_bytes (b : bytes) : result IdentifierError N :=
  raw ← validate_identifier b; Ok (of_be_bytes raw).

Definition parse (text : bytes) : result IdentifierError N :=
  raw ← parse_identifier text; Ok (of_be_bytes raw).

Definition as_bytes (id : N) : bytes := be_bytes 16 id.

(** [write!("{byte:02x}")] for each byte. *)
Definition hex_digit (d : N) : N := if d <? 10 then 48 + d else 97 + (d - 10).
Definition hex_pair (byte : N) : bytes := [hex_digit (byte / 16); hex_digit (byte mod 16)].
Definition display (id : N) : bytes := concat (map hex_pair (as_bytes id)).

(** The values an identifier can hold. *)
Definition valid (id : N) : Prop := 0 < id < 256 ^ 16.

End Identifier.

(** ** Instants, durations, revisions *)

Definition i64_max : Z := 9223372036854775807.
Definition i64_min : Z := (-9223372036854775808)%Z.

(** [UnixMicros::checked_add(DurationMicros)]. *)
Definition unix_checked_add (instant : Z) (duration : N) : option Z :=
  if (Z.of_N duration <=? i64_max)%Z
  then let sum := (instant + Z.of_N duration)%Z in
       if (sum <=? i64_max)%Z then Some sum else None
  else None.

Inductive RevisionError := RevisionExhausted.

Definition revision_next (r : N) : result RevisionError N := ok_or (checked_add u64_max r 1) RevisionExhausted.

(** [uuid_v8]: stamp the RFC 9562 version and variant bits. *)
Definition uuid_v8 (b : bytes) : bytes :=
  <[8%nat := N.lor (N.land (default 0 (b !! 8%nat)) 63) 128]>
    (<[6%nat := N.lor (N.land (default 0 (b !! 6%nat)) 15) 128]> b).

(** ** Facts *)

Lemma be_bytes_range n x : Forall (fun b => b < 256) (be_bytes n x).
Proof. induction n as [|n IH]; constructor; [by apply N.mod_lt|done]. Qed.

Lemma of_be_bytes_zero n : of_be_bytes (replicate n 0) = 0.
Proof. induction n as [|n IH]; [done|]. cbn [replicate]. rewrite of_be_bytes_cons, IH. lia. Qed.

Lemma from_bytes_as_bytes id :
  Identifier.valid id -> Identifier.from_bytes (Identifier.as_bytes id) = Ok id.
Proof.
  intros [Hpos Hlt]. unfold Identifier.from_bytes, Identifier.as_bytes, validate_identifier.
  pose proof (be_roundtrip 16 id Hlt) as E. rewrite bool_decide_eq_false_2.
  - cbn [mbind result_bind]. by rewrite E.
  - intros Hz. rewrite Hz, of_be_bytes_zero in E. lia.
Qed.

Lemma decode_hex_digit d : d < 16 -> decode_hex (Identifier.hex_digit d) = Some d.
Proof.
  intros Hd. unfold decode_hex, Identifier.hex_digit.
  destruct (N.ltb_spec d 10);
    repeat match goal with |- context [?a <=? ?b] => destruct (N.leb_spec a b); try lia end;
    simpl; f_equal; lia.
Qed.

Lemma nibbles_byte b : b < 256 -> N.lor (N.shiftl (b / 16) 4) (b mod 16) = b.
Proof.
  intros Hb. rewrite N.shiftl_mul_pow2. change (2 ^ 4) with 16.
  apply N.bits_inj. intros i. rewrite N.lor_spec.
  change 16 with (2 ^ 4). destruct (N.lt_ge_cases i 4).
  - rewrite N.mul_pow2_bits_low, N.mod_pow2_bits_low by done. done.
  - rewrite N.mul_pow2_bits_high, N.mod_pow2_bits_high by done.
    rewrite N.div_pow2_bits, orb_false_r. f_equal. lia.
Qed.

Lemma parse_pairs_hex bs :
  Forall (fun b => b < 256) bs -> parse_pairs (concat (map Identifier.hex_pair bs)) = Ok bs.
Proof.
  induction 1 as [|b bs Hb Hbs IH]; [done|]. simpl.
  rewrite !decode_hex_digit.
  - cbn [ok_or mbind result_bind]. rewrite IH. cbn [mbind result_bind]. by rewrite nibbles_byte.
  - apply N.Div0.div_lt_upper_bound. lia.
  - by apply N.mod_lt.
Qed.

Lemma length_hex_pairs bs : length (concat (map Identifier.hex_pair bs)) = (2 * length bs)%nat.
Proof. induction bs; simpl; lia. Qed.

(** Identifiers survive their canonical text: parsing the 32 lowercase hexadecimal
    digits an identifier displays as gives the identifier back. *)
Theorem identifier_text_roundtrip (id : N) :
  Identifier.valid id -> Identifier.parse (Identifier.display id) = Ok id.
Proof.
  intros Hv. unfold Identifier.parse, parse_identifier, Identifier.display, len.
  rewrite length_hex_pairs. unfold Identifier.as_bytes. rewrite length_be_bytes. simpl negb. cbv iota.
  rewrite parse_pairs_hex by apply be_bytes_range. cbn [mbind result_bind].
  pose proof (from_bytes_as_bytes id Hv) as E. exact E.
Qed.

Lemma identifier_text_roundtrip_witness :
  Identifier.parse (Identifier.display 2074218329157410987) = Ok 2074218329157410987.
Proof. apply identifier_text_roundtrip. split; reflexivity. Defined.

(** [i64::to_be_bytes]: two's complement. *)
Definition i64_be_bytes (z : Z) : bytes := be_bytes 8 (Z.to_N (z mod 2 ^ 64)).

(** What the width of an identifier allows. *)
Definition id_ok (x : N) : Prop := x < 256 ^ 16.

Lemma i64_be_bytes_inj x y :
  (i64_min <= x <= i64_max)%Z -> (i64_min <= y <= i64_max)%Z -> i64_be_bytes x = i64_be_bytes y -> x = y.
Proof.
  unfold i64_be_bytes, i64_min, i64_max. intros Hx Hy E.
  assert (0 <= x mod 2 ^ 64 < 2 ^ 64)%Z as Hx' by (by apply Z.mod_pos_bound).
  assert (0 <= y mod 2 ^ 64 < 2 ^ 64)%Z as Hy' by (by apply Z.mod_pos_bound).
  apply be_bytes_inj in E; [|change (256 ^ N.of_nat 8) with (2 ^ 64); lia..].
  assert (x mod 2 ^ 64 = y mod 2 ^ 64)%Z as Em by lia. clear E Hx' Hy'.
  rewrite (Z.mod_eq x), (Z.mod_eq y) in Em by done. revert Em. generalize (x / 2 ^ 64)%Z (y / 2 ^ 64)%Z. intros a b. lia.
Qed.

Lemma be_bytes_app_inj n x y s t :
  x < 256 ^ N.of_nat n -> y < 256 ^ N.of_nat n -> be_bytes n x ++ s = be_bytes n y ++ t -> x = y /\ s = t.
Proof.
  intros Hx Hy E. apply app_inj_1 in E as [E ->]; [|by rewrite !length_be_bytes]. split; [by apply (be_bytes_inj n)|done].
Qed.

Lemma as_bytes_app_inj x y s t : id_ok x -> id_ok y -> Identifier.as_bytes x ++ s = Identifier.as_bytes y ++ t -> x = y /\ s = t.
Proof. apply (be_bytes_app_inj 16). Qed.

(** Peel one fixed-width field off an equation between encodings. *)
Ltac peel H :=
  rewrite <- ?app_assoc in H; cbn [app] in H;
  first [ apply as_bytes_app_inj in H as [? H]; [|done|done]
        | apply be_bytes_app_inj in H as [? H]; [|done|done]
        | apply app_inj_1 in H as [? H]; [|congruence] ].
