(* ===== verification/Codec.v ===== *)
(** Bounded cursors over hostile bytes, shared by the record and command decoders,
    and the parsing relation their round trips are proved with. *)

From S2P Require Import Prelude Ids.
From stdpp Require Import prelude gmap.
#[local] Open Scope N_scope.

Record Cursor := { data : bytes; position : N }.

Section decoding.
Context {E : Type} (malformed : E).

Abbreviation Dec A := (SE Cursor E A).

(** [take(length)] / [read_slice(length)]: the next [length] bytes, or an error that
    leaves the cursor where it was. *)
Definition take_bytes (length : N) : Dec bytes :=
  c ← get_state;
  match checked_add usize_max (position c) length with
  | Some stop =>
      if stop <=? len (data c)
      then _ ← modify_state (fun c => {| data := data c; position := stop |});
           mret (take (N.to_nat length) (drop (N.to_nat (position c)) (data c)))
      else raise malformed
  | None => raise malformed
  end.

Definition take_byte : Dec N := b ← take_bytes 1; mret (default 0 (head b)).
Definition take_unsigned (width : N) : Dec N := b ← take_bytes width; mret (of_be_bytes b).
Definition take_identifier : Dec N :=
  b ← take_bytes 16; lift (map_err (fun _ => malformed) (Identifier.from_bytes b)).

(** Bytes not consumed yet. *)
Definition unread (c : Cursor) : bytes := drop (N.to_nat (position c)) (data c).

(** A cursor over an in-memory slice: its length fits the machine. *)
Definition cursor_ok (c : Cursor) : Prop := position c <= len (data c) /\ len (data c) <= usize_max.

(** [m] reads exactly [bs] and yields [a], whatever follows. *)
Definition parses {A} (m : Dec A) (bs : bytes) (a : A) : Prop :=
  forall c tail, cursor_ok c -> unread c = bs ++ tail ->
    exists c', m c = (Ok a, c') /\ cursor_ok c' /\ unread c' = tail /\ data c' = data c.

Lemma parses_ret {A} (a : A) : parses (mret a) [] a.
Proof. intros c tail Hc Hu. by exists c. Qed.

Lemma parses_bind {A B} (m : Dec A) (f : A -> Dec B) bs bs' a b :
  parses m bs a -> parses (f a) bs' b -> parses (m ≫= f) (bs ++ bs') b.
Proof.
  intros Hm Hf c tail Hc Hu. rewrite <- app_assoc in Hu.
  destruct (Hm c _ Hc Hu) as (c1 & E1 & Hc1 & Hu1 & Hd1).
  destruct (Hf c1 _ Hc1 Hu1) as (c2 & E2 & Hc2 & Hu2 & Hd2).
  exists c2. unfold mbind, SE_bind. rewrite E1, E2. split_and!; auto. congruence.
Qed.

(** The continuation of a pure step. *)
Lemma parses_lift {A B} (r : result E A) (f : A -> Dec B) bs a b :
  r = Ok a -> parses (f a) bs b -> parses (lift r ≫= f) bs b.
Proof. intros -> Hf. apply Hf. Qed.

Lemma parses_take bs n : n = len bs -> parses (take_bytes n) bs bs.
Proof.
  intros -> [d p] tail [Hp Hd] Hu. unfold unread in Hu. simpl in *.
  assert (len d = p + len bs + len tail) as Hlen.
  { rewrite <- (take_drop (N.to_nat p) d), len_app, Hu, len_app. unfold len in *.
    rewrite length_take. lia. }
  unfold take_bytes, mbind, SE_bind, get_state. simpl.
  unfold checked_add. rewrite (proj2 (N.leb_le _ _)) by lia.
  rewrite (proj2 (N.leb_le _ _)) by lia. simpl.
  eexists. split; [unfold mret, SE_ret; do 2 f_equal; rewrite Hu; unfold len; by rewrite Nat2N.id, take_app_length|].
  split_and!; [| |done].
  - unfold cursor_ok. simpl. lia.
  - unfold unread. simpl. rewrite N2Nat.inj_add, <- drop_drop, Hu. unfold len.
    by rewrite Nat2N.id, drop_app_length.
Qed.

Lemma parses_byte b : parses take_byte [b] b.
Proof.
  unfold take_byte. rewrite <- (app_nil_r [b]).
  eapply parses_bind; [by apply parses_take|]. apply (parses_ret b).
Qed.

Lemma parses_byte_bind {A} (f : N -> Dec A) b bs a :
  parses (f b) bs a -> parses (take_byte ≫= f) (b :: bs) a.
Proof. intros Hf. change (b :: bs) with ([b] ++ bs). eapply parses_bind; [apply parses_byte|done]. Qed.

Lemma parses_unsigned n x :
  x < 256 ^ N.of_nat n -> parses (take_unsigned (N.of_nat n)) (be_bytes n x) x.
Proof.
  intros Hx. unfold take_unsigned. rewrite <- (app_nil_r (be_bytes n x)).
  eapply parses_bind; [apply parses_take; unfold len; by rewrite length_be_bytes|].
  rewrite be_roundtrip by done. apply parses_ret.
Qed.

Lemma parses_identifier id :
  Identifier.valid id -> parses take_identifier (be_bytes 16 id) id.
Proof.
  intros Hid. unfold take_identifier. rewrite <- (app_nil_r (be_bytes 16 id)).
  eapply parses_bind; [apply parses_take; unfold len; by rewrite length_be_bytes|].
  pose proof (from_bytes_as_bytes id Hid) as Eb. unfold Identifier.as_bytes in Eb. rewrite Eb.
  apply parses_ret.
Qed.

(** [for _ in 0..count]: run [m] a fixed number of times. *)
Fixpoint repeat_dec {A} (count : nat) (m : Dec A) : Dec (list A) :=
  match count with
  | O => mret []
  | S n => x ← m; xs ← repeat_dec n m; mret (x :: xs)
  end.

Lemma parses_repeat {A} (m : Dec A) (enc : A -> bytes) (l : list A) :
  Forall (fun a => parses m (enc a) a) l -> parses (repeat_dec (length l) m) (concat (map enc l)) l.
Proof.
  induction 1 as [|a l Ha Hl IH]; cbn [length repeat_dec map concat]; [apply parses_ret|].
  eapply parses_bind; [exact Ha|]. rewrite <- (app_nil_r (concat _)).
  eapply parses_bind; [exact IH|]. apply parses_ret.
Qed.

(** Running a parser on a whole buffer. *)
Lemma parses_run {A} (m : Dec A) bs a :
  parses m bs a -> len bs <= usize_max ->
  exists c', m {| data := bs; position := 0 |} = (Ok a, c') /\ unread c' = [] /\ cursor_ok c' /\ data c' = bs.
Proof.
  intros Hp Hl. destruct (Hp {| data := bs; position := 0 |} []) as (c' & ? & ? & ? & ?).
  - split; [apply N.le_0_l|done].
  - unfold unread. simpl. by rewrite app_nil_r.
  - eauto.
Qed.

Lemma unread_nil c : cursor_ok c -> unread c = [] -> position c = len (data c).
Proof.
  unfold cursor_ok, unread, len. intros [Hp _] Hu. apply (f_equal length) in Hu.
  rewrite length_drop in Hu. simpl in Hu. lia.
Qed.

End decoding.
