(* ===== verification/PlanRecord.v ===== *)
(** The durable active-plan record: plan_record/encode.rs and plan_record/decode.rs.
    Only source specifications are written; every proof is recompiled on decode. *)

From Stdlib Require Import String.
From S2P Require Import Prelude Ids Codec VoterSet Predicate Plan Digest Compile FlatPlan Joint.
From stdpp Require Import prelude gmap.
#[local] Open Scope N_scope.

Inductive QuorumPlanRecordError := Malformed | Unsafe.

Definition RECORD_MAGIC : bytes := ascii_bytes "MSQP".
Definition RECORD_VERSION : N := 1.
Definition MAXIMUM_RECORD_BYTES : N := 64 * 1024.
Definition STABLE_PHASE : N := 1.
Definition JOINT_PHASE : N := 2.

(** ** Encoder: what each function appends to the output *)
Module Encode.

Abbreviation Enc := (result QuorumPlanRecordError bytes).

Definition unsigned_16 (value : N) : bytes := be_bytes 2 value.
Definition unsigned_32 (value : N) : bytes := be_bytes 4 value.
Definition unsigned_64 (value : N) : bytes := be_bytes 8 value.

Definition counted_length (value : N) : Enc :=
  n ← ok_or (try_narrow u16_max value) Malformed; Ok (unsigned_16 n).

Definition identifiers (values : list NodeId) : Enc :=
  n ← counted_length (len values); Ok (n ++ concat (map id_bytes values)).

Definition weighted_voters (values : list WeightedVoter) : Enc :=
  n ← counted_length (len values);
  Ok (n ++ concat (map (fun w => id_bytes (voter w) ++ unsigned_16 (weight w)) values)).

(** [for value in values { predicate(output, value)? }] *)
Definition each (encode : QuorumPredicate -> Enc) :=
  fix each (values : list QuorumPredicate) : Enc :=
    match values with
    | [] => Ok []
    | v :: rest => a ← encode v; b ← each rest; Ok (a ++ b)
    end.

Definition predicates (encode : QuorumPredicate -> Enc) (values : list QuorumPredicate) : Enc :=
  n ← counted_length (len values); body ← each encode values; Ok (n ++ body).

Fixpoint predicate (value : QuorumPredicate) : Enc :=
  match value with
  | Voter v => Ok ([1] ++ id_bytes v)
  | AtLeast threshold children => body ← predicates predicate children; Ok ([2; threshold] ++ body)
  | WeightedAtLeast threshold ws =>
      body ← weighted_voters ws; Ok ([3] ++ unsigned_32 threshold ++ body)
  | All_ children => body ← predicates predicate children; Ok ([4] ++ body)
  end.

Definition plan_spec (s : QuorumPlanSpec) : Enc :=
  v ← identifiers (ascending (voters s));
  l ← identifiers (ascending (learners s));
  g ← identifiers (ascending (eligible_leaders s));
  e ← predicate (election s);
  c ← predicate (commit s);
  r ← predicate (read s);
  Ok (id_bytes (plan_id s) ++ unsigned_16 (format_version s) ++ unsigned_64 (spec_epoch s)
      ++ v ++ l ++ g ++ e ++ c ++ r).

Definition encode (plan : ActiveQuorumPlan) : Enc :=
  body ← match plan with
         | Stable p => b ← plan_spec (spec p); Ok (STABLE_PHASE :: b)
         | JointPhase j =>
             b ← plan_spec (spec (old_plan j)); b' ← plan_spec (spec (new_plan j));
             Ok (JOINT_PHASE :: b ++ b')
         end;
  let output := RECORD_MAGIC ++ unsigned_16 RECORD_VERSION ++ body in
  if MAXIMUM_RECORD_BYTES <? len output then Err Malformed else Ok output.

End Encode.

(** ** Decoder *)
Module Decode.

Abbreviation Dec A := (SE Cursor QuorumPlanRecordError A).

Definition MAXIMUM_IDENTIFIERS : N := 256.
Definition MAXIMUM_PREDICATE_NODES : N := 256.
Definition MAXIMUM_PREDICATE_DEPTH : N := 8.

Definition take (length : N) : Dec bytes := take_bytes Malformed length.
Definition byte : Dec N := take_byte Malformed.
Definition unsigned_16 : Dec N := take_unsigned Malformed 2.
Definition unsigned_32 : Dec N := take_unsigned Malformed 4.
Definition unsigned_64 : Dec N := take_unsigned Malformed 8.
Definition identifier : Dec N := take_identifier Malformed.
Definition bounded_count (maximum : N) : Dec N :=
  value ← unsigned_16; if maximum <? value then raise Malformed else mret value.
Definition remaining (c : Cursor) : N := saturating_sub (len (data c)) (position c).

Fixpoint insert_fresh (count : nat) (values : gset NodeId) : Dec (gset NodeId) :=
  match count with
  | O => mret values
  | S n => value ← identifier;
           if bool_decide (value ∈ values) then raise Malformed
           else insert_fresh n ({[value]} ∪ values)
  end.

Definition identifiers : Dec (gset NodeId) :=
  count ← bounded_count MAXIMUM_IDENTIFIERS; insert_fresh (N.to_nat count) ∅.

Definition voter_ : Dec QuorumPredicate := node_id ← identifier; mret (Voter node_id).

Definition weighted : Dec QuorumPredicate :=
  threshold ← unsigned_32;
  count ← bounded_count MAXIMUM_IDENTIFIERS;
  ws ← repeat_dec (N.to_nat count)
         (v ← identifier; w ← unsigned_16; mret {| voter := v; weight := w |});
  mret (WeightedAtLeast threshold ws).

(** The loop of [child_predicates], threading [node_count]. *)
Fixpoint children_loop (predicate : N -> Dec (QuorumPredicate * N)) (count : nat) (node_count : N)
    : Dec (list QuorumPredicate * N) :=
  match count with
  | O => mret ([], node_count)
  | S n => '(c, node_count) ← predicate node_count;
           '(cs, node_count) ← children_loop predicate n node_count;
           mret (c :: cs, node_count)
  end.

Definition child_predicates (predicate : N -> Dec (QuorumPredicate * N)) (node_count : N)
    : Dec (list QuorumPredicate * N) :=
  count ← bounded_count MAXIMUM_PREDICATE_NODES; children_loop predicate (N.to_nat count) node_count.

Definition at_least (predicate : N -> Dec (QuorumPredicate * N)) (node_count : N)
    : Dec (QuorumPredicate * N) :=
  threshold ← byte;
  '(children, node_count) ← child_predicates predicate node_count;
  mret (AtLeast threshold children, node_count).

(** [predicate(cursor, depth, node_count)]. The depth bound limits the recursion to
    eight levels; [fuel] counts them and never runs out before [depth] is refused. *)
Fixpoint predicate (fuel : nat) (depth node_count : N) : Dec (QuorumPredicate * N) :=
  node_count ← lift (ok_or (checked_add usize_max node_count 1) Malformed);
  if (MAXIMUM_PREDICATE_DEPTH <? depth) || (MAXIMUM_PREDICATE_NODES <? node_count)
  then raise Malformed
  else
    match fuel with
    | O => raise Malformed
    | S fuel' =>
        tag ← byte;
        if tag =? 1 then p ← voter_; mret (p, node_count)
        else if tag =? 2 then at_least (predicate fuel' (depth + 1)) node_count
        else if tag =? 3 then p ← weighted; mret (p, node_count)
        else if tag =? 4
        then '(children, node_count) ← child_predicates (predicate fuel' (depth + 1)) node_count;
             mret (All_ children, node_count)
        else raise Malformed
    end.

(** Enough for depths one to eight. *)
Definition predicate_fuel : nat := 8.

Definition compiled_plan `{Sha256} : Dec CompiledQuorumPlan :=
  id ← identifier;
  version ← unsigned_16;
  epoch ← unsigned_64;
  vs ← identifiers;
  ls ← identifiers;
  gs ← identifiers;
  '(e, n) ← predicate predicate_fuel 1 0;
  '(c, n) ← predicate predicate_fuel 1 n;
  '(r, _) ← predicate predicate_fuel 1 n;
  lift (map_err (fun _ => Unsafe)
    (compile_plan {| plan_id := id; format_version := version; spec_epoch := epoch; voters := vs;
                     learners := ls; eligible_leaders := gs; election := e; commit := c; read := r |})).

Definition decode_cursor `{Sha256} : Dec ActiveQuorumPlan :=
  magic ← take (len RECORD_MAGIC);
  if negb (bool_decide (magic = RECORD_MAGIC)) then raise Malformed
  else
    version ← unsigned_16;
    if negb (version =? RECORD_VERSION) then raise Malformed
    else
      phase ← byte;
      plan ← (if phase =? STABLE_PHASE then p ← compiled_plan; mret (Stable p)
              else if phase =? JOINT_PHASE
              then old ← compiled_plan; new ← compiled_plan;
                   j ← lift (map_err (fun _ => Unsafe) (Joint.new old new));
                   mret (JointPhase j)
              else raise Malformed);
      c ← get_state;
      if negb (remaining c =? 0) then raise Malformed else mret plan.

Definition decode `{Sha256} (b : bytes) : result QuorumPlanRecordError ActiveQuorumPlan :=
  if MAXIMUM_RECORD_BYTES <? len b then Err Malformed
  else fst (decode_cursor {| data := b; position := 0 |}).

End Decode.

(** ** Values of the declared integer types *)

Fixpoint typed_predicate (p : QuorumPredicate) : Prop :=
  match p with
  | Voter v => Identifier.valid v
  | AtLeast t cs => t <= u8_max /\ (fix all l := match l with [] => True | c :: l' => typed_predicate c /\ all l' end) cs
  | WeightedAtLeast t ws =>
      t <= u32_max /\ Forall (fun w => Identifier.valid (voter w) /\ weight w <= u16_max) ws
  | All_ cs => (fix all l := match l with [] => True | c :: l' => typed_predicate c /\ all l' end) cs
  end.

Lemma typed_all cs :
  (fix all l := match l with [] => True | c :: l' => typed_predicate c /\ all l' end) cs <-> Forall typed_predicate cs.
Proof. induction cs as [|c cs IH]; [naive_solver|]. by rewrite Forall_cons, IH. Qed.

Definition typed_spec (s : QuorumPlanSpec) : Prop :=
  Identifier.valid (plan_id s) /\ format_version s <= u16_max /\ spec_epoch s <= u64_max /\
  (forall v, v ∈ voters s ∪ learners s -> Identifier.valid v) /\
  typed_predicate (election s) /\ typed_predicate (commit s) /\ typed_predicate (read s).

(** ** Round trip *)

Lemma counted_length_Ok n b : Encode.counted_length n = Ok b <-> n <= u16_max /\ b = be_bytes 2 n.
Proof.
  unfold Encode.counted_length, Encode.unsigned_16. split.
  - intros H. inv_ok. done.
  - intros [Hn ->]. by rewrite (proj2 (try_narrow_Some u16_max n n)).
Qed.

Lemma parses_bounded_count maximum n :
  n <= maximum -> n <= u16_max -> parses (Decode.bounded_count maximum) (be_bytes 2 n) n.
Proof.
  intros Hm Hn. unfold Decode.bounded_count. rewrite <- (app_nil_r (be_bytes 2 n)).
  eapply parses_bind; [apply (parses_unsigned Malformed 2); unfold u16_max in Hn; lia|].
  rewrite (proj2 (N.ltb_ge _ _)) by done. apply parses_ret.
Qed.

Lemma parses_insert_fresh l values :
  NoDup l -> Forall Identifier.valid l -> (forall v, v ∈ l -> v ∉ values) ->
  parses (Decode.insert_fresh (length l) values) (concat (map id_bytes l)) (list_to_set l ∪ values).
Proof.
  revert values. induction l as [|v l IH]; intros values Hnd Hv Hf;
    cbn [length Decode.insert_fresh map concat].
  - rewrite list_to_set_nil, union_empty_l_L. apply parses_ret.
  - rewrite list_to_set_cons. apply NoDup_cons in Hnd as [Hn Hnd]. apply Forall_cons in Hv as [Hv Hvs].
    eapply parses_bind; [by apply parses_identifier|].
    rewrite bool_decide_eq_false_2 by (apply Hf; by left).
    replace ({[v]} ∪ list_to_set l ∪ values) with (list_to_set l ∪ ({[v]} ∪ values)) by set_solver.
    apply IH; [done|done|]. intros w Hw. specialize (Hf w ltac:(by right)). set_solver.
Qed.

Lemma parses_identifiers (s : gset NodeId) bs :
  (forall v, v ∈ s -> Identifier.valid v) -> N.of_nat (size s) <= Decode.MAXIMUM_IDENTIFIERS ->
  Encode.identifiers (ascending s) = Ok bs -> parses Decode.identifiers bs s.
Proof.
  intros Hv Hs H. unfold Encode.identifiers in H. inv_ok.
  match goal with HC : Encode.counted_length _ = Ok _ |- _ => apply counted_length_Ok in HC as [Hn ->] end.
  unfold Decode.identifiers, len in *. rewrite length_ascending in *.
  eapply parses_bind; [by apply parses_bounded_count|].
  rewrite Nat2N.id, <- length_ascending. replace s with (list_to_set (ascending s) ∪ ∅ : gset NodeId) at 3.
  - apply parses_insert_fresh; [apply ascending_NoDup| |set_solver].
    apply Forall_forall. intros v Hin%elem_of_ascending. auto.
  - rewrite union_empty_r_L. apply list_to_set_ascending.
Qed.

Lemma parses_weighted t ws bs :
  t <= u32_max -> Forall (fun w => Identifier.valid (voter w) /\ weight w <= u16_max) ws ->
  len ws <= Decode.MAXIMUM_IDENTIFIERS ->
  Encode.weighted_voters ws = Ok bs ->
  parses Decode.weighted (Encode.unsigned_32 t ++ bs) (WeightedAtLeast t ws).
Proof.
  intros Ht Hws Hlen H. unfold Encode.weighted_voters in H. inv_ok.
  match goal with HC : Encode.counted_length _ = Ok _ |- _ => apply counted_length_Ok in HC as [Hn ->] end.
  unfold Decode.weighted.
  eapply parses_bind; [apply (parses_unsigned Malformed 4); unfold u32_max in Ht; lia|].
  eapply parses_bind; [by apply parses_bounded_count|].
  rewrite <- (app_nil_r (concat _)). eapply parses_bind; [|apply parses_ret].
  unfold len. rewrite Nat2N.id.
  apply (parses_repeat _ (fun w => id_bytes (voter w) ++ Encode.unsigned_16 (weight w))).
  eapply Forall_impl; [exact Hws|]. intros [v w] [Hv Hw]. cbn [voter weight] in *.
  eapply parses_bind; [by apply parses_identifier|]. rewrite <- (app_nil_r (Encode.unsigned_16 w)).
  eapply parses_bind; [apply (parses_unsigned Malformed 2); unfold u16_max in Hw; lia|]. apply parses_ret.
Qed.

(** The children of one node, each written and read at the next depth. *)
Lemma parses_children_loop fuel d cs bs nc :
  Forall (fun c => forall nc b, nc + node_total c <= Decode.MAXIMUM_PREDICATE_NODES ->
    Encode.predicate c = Ok b -> parses (Decode.predicate fuel d nc) b (c, nc + node_total c)) cs ->
  nc + foldr N.add 0 (map node_total cs) <= Decode.MAXIMUM_PREDICATE_NODES ->
  Encode.each Encode.predicate cs = Ok bs ->
  parses (Decode.children_loop (Decode.predicate fuel d) (length cs) nc) bs
    (cs, nc + foldr N.add 0 (map node_total cs)).
Proof.
  intros Hcs. revert nc bs. induction Hcs as [|c cs Hc _ IH]; intros nc bs Hb He; cbn [Encode.each] in He.
  - inv_ok. cbn. rewrite N.add_0_r. apply parses_ret.
  - inv_ok. cbn [length Decode.children_loop map foldr] in *.
    match goal with HE : Encode.each _ _ = Ok ?b |- _ => pose proof (IH (nc + node_total c) b ltac:(lia) HE) as Hrest end.
    match goal with HP : Encode.predicate _ = Ok ?a |- _ => pose proof (Hc nc a ltac:(lia) HP) as Hfirst end.
    eapply parses_bind; [exact Hfirst|]. cbv beta iota.
    rewrite <- (app_nil_r x0). eapply parses_bind; [exact Hrest|]. cbv beta iota.
    rewrite N.add_assoc. apply parses_ret.
Qed.

Lemma len_le_node_totals cs : len cs <= foldr N.add 0 (map node_total cs).
Proof.
  induction cs as [|c cs IH]; simpl; [done|]. rewrite len_cons.
  assert (1 <= node_total c) by (destruct c; simpl; lia). lia.
Qed.

Lemma parses_child_predicates fuel d cs bs nc :
  Forall (fun c => forall nc b, nc + node_total c <= Decode.MAXIMUM_PREDICATE_NODES ->
    Encode.predicate c = Ok b -> parses (Decode.predicate fuel d nc) b (c, nc + node_total c)) cs ->
  nc + foldr N.add 0 (map node_total cs) <= Decode.MAXIMUM_PREDICATE_NODES ->
  Encode.predicates Encode.predicate cs = Ok bs ->
  parses (Decode.child_predicates (Decode.predicate fuel d) nc) bs
    (cs, nc + foldr N.add 0 (map node_total cs)).
Proof.
  intros Hcs Hb He. unfold Encode.predicates in He. inv_ok.
  match goal with HC : Encode.counted_length _ = Ok _ |- _ => apply counted_length_Ok in HC as [Hn ->] end.
  pose proof (len_le_node_totals cs). unfold Decode.child_predicates.
  eapply parses_bind; [apply parses_bounded_count; [lia|done]|].
  unfold len. rewrite Nat2N.id. by apply parses_children_loop.
Qed.

Lemma len_references_child c cs : c ∈ cs -> len (references c) <= len (concat (map references cs)).
Proof.
  intros (l1 & l2 & ->)%list_elem_of_split. rewrite map_app, concat_app, len_app. simpl. rewrite len_app. lia.
Qed.

Lemma parses_predicate p fuel d nc bs :
  well_shaped d p -> typed_predicate p -> len (references p) <= Decode.MAXIMUM_IDENTIFIERS ->
  nc + node_total p <= Decode.MAXIMUM_PREDICATE_NODES ->
  9 <= N.of_nat fuel + d -> Encode.predicate p = Ok bs ->
  parses (Decode.predicate fuel d nc) bs (p, nc + node_total p).
Proof.
  revert fuel d nc bs. induction p as [v|t cs IH|t ws|cs IH] using QuorumPredicate_nested_ind;
    intros fuel d nc bs Hw Ht Hr Hn Hf He.
  all: assert (d <= 8) as Hd by (destruct Hw as [Hw _]; unfold MAXIMUM_PREDICATE_DEPTH in Hw; done).
  all: destruct fuel as [|fuel]; [lia|].
  all: cbn [Decode.predicate]; rewrite (proj2 (checked_add_Some usize_max nc 1 (nc + 1)))
    by (simpl node_total in Hn; unfold usize_max, u64_max, Decode.MAXIMUM_PREDICATE_NODES in *; lia).
  all: eapply parses_lift; [reflexivity|].
  all: rewrite (proj2 (N.ltb_ge Decode.MAXIMUM_PREDICATE_DEPTH d)) by done.
  all: rewrite (proj2 (N.ltb_ge Decode.MAXIMUM_PREDICATE_NODES (nc + 1))) by (simpl node_total in Hn; lia).
  all: cbn [orb]; cbn [Encode.predicate] in He; inv_ok.
  all: cbn [well_shaped typed_predicate node_total references] in *;
    rewrite ?well_shaped_all in Hw; rewrite ?typed_all in Ht.
  - apply parses_byte_bind. cbn [N.eqb Pos.eqb]. rewrite <- (app_nil_r (id_bytes v)).
    eapply parses_bind; [|apply parses_ret]. unfold Decode.voter_. rewrite <- (app_nil_r (id_bytes v)).
    eapply parses_bind; [by apply parses_identifier|apply parses_ret].
  - destruct Hw as (_ & _ & Hw), Ht as [Ht Hts].
    apply parses_byte_bind. cbn [N.eqb Pos.eqb]. unfold Decode.at_least.
    apply parses_byte_bind. rewrite <- (app_nil_r x).
    eapply parses_bind; [eapply parses_child_predicates; [|rewrite <- N.add_assoc; exact Hn|eassumption]|].
    + rewrite Forall_forall in IH, Hw, Hts |- *. intros c Hc nc' b Hb Hp.
      pose proof (len_references_child c cs Hc). apply IH; auto; lia.
    + cbv beta iota. rewrite <- N.add_assoc. apply parses_ret.
  - destruct Ht as [Ht Hws].
    apply parses_byte_bind. cbn [N.eqb Pos.eqb].
    rewrite <- (app_nil_r (Encode.unsigned_32 t ++ x)). eapply parses_bind; [|apply parses_ret].
    apply parses_weighted; auto. unfold len in *. by rewrite length_map in Hr.
  - destruct Hw as (_ & _ & Hw).
    apply parses_byte_bind. cbn [N.eqb Pos.eqb]. rewrite <- (app_nil_r x).
    eapply parses_bind; [eapply parses_child_predicates; [|rewrite <- N.add_assoc; exact Hn|eassumption]|].
    + rewrite Forall_forall in IH, Hw, Ht |- *. intros c Hc nc' b Hb Hp.
      pose proof (len_references_child c cs Hc). apply IH; auto; lia.
    + cbv beta iota. rewrite <- N.add_assoc. apply parses_ret.
Qed.

(** A predicate always has an encoding, of a size its nodes and references bound. *)
Lemma encode_predicate_total p :
  node_total p + len (references p) <= u16_max ->
  exists bs, Encode.predicate p = Ok bs /\ len bs <= 7 * node_total p + 18 * len (references p).
Proof.
  induction p as [v|t cs IH|t ws|cs IH] using QuorumPredicate_nested_ind;
    cbn [node_total references Encode.predicate]; intros Hb.
  1: { eexists; split; [reflexivity|]. rewrite len_app. unfold id_bytes. rewrite len_be_bytes. unfold len. simpl. lia. }
  2: { unfold Encode.weighted_voters. unfold len in Hb. rewrite length_map in Hb.
       rewrite (proj2 (counted_length_Ok (len ws) _)) by (split; [unfold len; lia|reflexivity]).
       cbn [mbind result_bind]. eexists; split; [reflexivity|].
       unfold Encode.unsigned_32. rewrite !len_app.
       assert (len (concat (map (fun w => id_bytes (voter w) ++ Encode.unsigned_16 (weight w)) ws)) = 18 * len ws) as ->.
       { clear. induction ws as [|w ws IH]; [done|]. cbn [map concat]. rewrite !len_app, IH, len_cons.
         unfold Encode.unsigned_16, id_bytes. rewrite !len_be_bytes. lia. }
       rewrite !len_be_bytes. unfold len. rewrite length_map. simpl. lia. }
  all: assert (exists body, Encode.each Encode.predicate cs = Ok body /\
         len body <= 7 * foldr N.add 0 (map node_total cs) + 18 * len (concat (map references cs))) as (body & Eb & Hl).
  1,3: induction IH as [|c cs Hc _ IHcs]; [eexists; split; [reflexivity|apply N.le_0_l]|];
    cbn [map foldr concat Encode.each] in *; rewrite len_app in *;
    destruct (Hc ltac:(lia)) as (b1 & -> & ?); destruct (IHcs ltac:(lia)) as (b2 & -> & ?);
    eexists; split; [reflexivity|]; rewrite len_app; lia.
  all: pose proof (len_le_node_totals cs); unfold Encode.predicates;
    rewrite (proj2 (counted_length_Ok (len cs) _)) by (split; [lia|reflexivity]);
    rewrite Eb; cbn [mbind result_bind]; eexists; split; [reflexivity|];
    rewrite !len_app, len_be_bytes; unfold len at 1; cbn [length]; lia.
Qed.

Lemma encode_identifiers_total (s : gset NodeId) :
  N.of_nat (size s) <= u16_max ->
  exists bs, Encode.identifiers (ascending s) = Ok bs /\ len bs = 2 + 16 * N.of_nat (size s).
Proof.
  intros Hs. unfold Encode.identifiers.
  assert (len (ascending s) = N.of_nat (size s)) as El by (unfold len; by rewrite length_ascending).
  rewrite (proj2 (counted_length_Ok (len (ascending s)) _)) by (split; [lia|reflexivity]).
  cbn [mbind result_bind]. eexists; split; [reflexivity|]. rewrite len_app, <- El.
  assert (forall l, len (concat (map id_bytes l)) = 16 * len l) as ->.
  { induction l as [|v l IH]; [done|]. cbn [map concat]. rewrite len_app, IH, len_cons.
    unfold id_bytes. rewrite len_be_bytes. lia. }
  rewrite len_be_bytes. lia.
Qed.

(** What a validated predicate of at most nine voters costs a record. *)
Lemma valid_predicate_budget vs p :
  valid_predicate vs p -> N.of_nat (size vs) <= MAXIMUM_VOTERS ->
  len (references p) <= 9 /\ node_total p <= 72.
Proof.
  intros (Hw & Hnd & Hsub & _) Hs. unfold MAXIMUM_VOTERS in Hs.
  assert (len (references p) <= 9) as Hr.
  { unfold len. rewrite <- (size_list_to_set (C := gset NodeId) (references p) Hnd).
    pose proof (subseteq_size _ _ Hsub). lia. }
  pose proof (node_total_bound 1 p Hw) as Hn. unfold MAXIMUM_PREDICATE_DEPTH in Hn. lia.
Qed.

Definition spec_accepted (s : QuorumPlanSpec) : Prop :=
  header_ok s /\ forall f, valid_predicate (voters s) (family_predicate s f).

Lemma built_accepted `{Sha256} p : plan_built p -> spec_accepted (spec p).
Proof. intros (_ & _ & Hh & Hv & _)%compile_plan_inv. done. Qed.

Lemma accepted_sizes s :
  spec_accepted s ->
  N.of_nat (size (voters s)) <= 9 /\ N.of_nat (size (learners s)) <= 256 /\
  N.of_nat (size (eligible_leaders s)) <= 9 /\
  (forall f, len (references (family_predicate s f)) <= 9 /\ node_total (family_predicate s f) <= 72).
Proof.
  intros [Hh Hv]. pose proof Hh as (_ & Hvs & Hls & _ & _ & _ & _ & Hsub).
  pose proof (subseteq_size _ _ Hsub). unfold MAXIMUM_VOTERS, MAXIMUM_LEARNERS in *.
  split_and!; try lia. intros f. by apply (valid_predicate_budget (voters s)).
Qed.

(** Every accepted specification encodes, far below the record limit. *)
Lemma encode_plan_spec_total s :
  spec_accepted s -> exists bs, Encode.plan_spec s = Ok bs /\ len bs <= 8192.
Proof.
  intros (Hv & Hl & Hg & Hf)%accepted_sizes. unfold Encode.plan_spec.
  destruct (encode_identifiers_total (voters s)) as (v & -> & ?); [unfold u16_max; lia|].
  destruct (encode_identifiers_total (learners s)) as (l & -> & ?); [unfold u16_max; lia|].
  destruct (encode_identifiers_total (eligible_leaders s)) as (g & -> & ?); [unfold u16_max; lia|].
  pose proof (Hf Election) as [? ?]. pose proof (Hf Commit) as [? ?]. pose proof (Hf Read) as [? ?].
  cbn [family_predicate] in *.
  destruct (encode_predicate_total (election s)) as (e & -> & ?); [unfold u16_max; lia|].
  destruct (encode_predicate_total (commit s)) as (c & -> & ?); [unfold u16_max; lia|].
  destruct (encode_predicate_total (read s)) as (r & -> & ?); [unfold u16_max; lia|].
  cbn [mbind result_bind]. eexists; split; [reflexivity|]. rewrite !len_app.
  unfold Encode.unsigned_16, Encode.unsigned_64, id_bytes.
  rewrite !len_be_bytes. lia.
Qed.

Lemma parses_plan_spec `{Sha256} p bs :
  plan_built p -> typed_spec (spec p) -> Encode.plan_spec (spec p) = Ok bs ->
  parses Decode.compiled_plan bs p.
Proof.
  intros Hp (Hid & Hver & Hep & Hvalid & He & Hc & Hr) Henc.
  pose proof (built_accepted p Hp) as Hacc. pose proof Hacc as [Hh Hpred].
  pose proof (accepted_sizes _ Hacc) as (Hv & Hl & Hg & Hf).
  pose proof (Hf Election) as [? ?]. pose proof (Hf Commit) as [? ?]. pose proof (Hf Read) as [? ?].
  cbn [family_predicate] in *.
  pose proof Hh as (_ & _ & _ & _ & _ & _ & _ & Hsub).
  unfold Encode.plan_spec in Henc. inv_ok. unfold Decode.compiled_plan.
  eapply parses_bind; [by apply parses_identifier|].
  eapply parses_bind; [apply (parses_unsigned Malformed 2); unfold u16_max in *; lia|].
  eapply parses_bind; [apply (parses_unsigned Malformed 8); unfold u64_max in *; lia|].
  unfold Decode.MAXIMUM_IDENTIFIERS, Decode.MAXIMUM_PREDICATE_NODES in *.
  eapply parses_bind; [apply (parses_identifiers (voters (spec p))); [set_solver| |done]; unfold Decode.MAXIMUM_IDENTIFIERS; lia|].
  eapply parses_bind; [apply (parses_identifiers (learners (spec p))); [set_solver| |done]; unfold Decode.MAXIMUM_IDENTIFIERS; lia|].
  eapply parses_bind; [apply (parses_identifiers (eligible_leaders (spec p))); [set_solver| |done]; unfold Decode.MAXIMUM_IDENTIFIERS; lia|].
  assert (forall f nc bs, nc <= 144 -> typed_predicate (family_predicate (spec p) f) ->
    Encode.predicate (family_predicate (spec p) f) = Ok bs ->
    parses (Decode.predicate Decode.predicate_fuel 1 nc) bs
      (family_predicate (spec p) f, nc + node_total (family_predicate (spec p) f))) as Hpp.
  { intros f nc bs Hnc Htp Hb. destruct (Hf f). apply parses_predicate; auto;
      unfold Decode.MAXIMUM_IDENTIFIERS, Decode.MAXIMUM_PREDICATE_NODES, Decode.predicate_fuel; try lia.
    apply (Hpred f). }
  eapply parses_bind; [apply (Hpp Election); [lia|done|done]|]. cbn [family_predicate].
  eapply parses_bind; [apply (Hpp Commit); [lia|done|done]|]. cbn [family_predicate].
  rewrite <- (app_nil_r (_ : bytes)).
  eapply parses_bind; [apply (Hpp Read); [lia|done|done]|]. cbn [family_predicate].
  unfold plan_built in Hp. destruct (spec p). cbn in Hp |- *. rewrite Hp. apply parses_ret.
Qed.

(** The recursion bound never shows: with fuel for the levels left below the depth
    limit, more fuel changes nothing, so running out of fuel is never the reason
    a record is refused. *)
Lemma predicate_fuel_enough extra fuel d nc c :
  9 <= N.of_nat fuel + d ->
  Decode.predicate (fuel + extra) d nc c = Decode.predicate fuel d nc c.
Proof.
  revert d nc c. induction fuel as [|fuel IH]; intros d nc c Hd.
  - cbn [plus]. assert (8 < d) by lia.
    destruct extra; [done|]. cbn [Decode.predicate]. unfold mbind, SE_bind, lift.
    destruct (ok_or _ _); [|done]. by rewrite (proj2 (N.ltb_lt Decode.MAXIMUM_PREDICATE_DEPTH d)).
  - cbn [plus Decode.predicate]. unfold mbind, SE_bind, lift. destruct (ok_or _ _) as [n|]; [|done].
    destruct (_ || _); [done|].
    assert (forall k n c, Decode.children_loop (Decode.predicate (fuel + extra) (d + 1)) k n c
      = Decode.children_loop (Decode.predicate fuel (d + 1)) k n c) as Hloop.
    { clear c. induction k as [|k IHk]; intros m c; [done|]. cbn [Decode.children_loop].
      unfold mbind, SE_bind. rewrite IH by lia. destruct (Decode.predicate fuel (d + 1) m c) as [[[q m']|] c'].
      - by rewrite IHk.
      - done. }
    assert (forall n c, Decode.child_predicates (Decode.predicate (fuel + extra) (d + 1)) n c
      = Decode.child_predicates (Decode.predicate fuel (d + 1)) n c) as Hcp.
    { intros m c'. unfold Decode.child_predicates, mbind, SE_bind.
      destruct (Decode.bounded_count _ c') as [[k|] c'']; [|done]. by rewrite Hloop. }
    destruct (Decode.byte c) as [[tag|] c']; [|done].
    destruct (tag =? 1); [done|]. destruct (tag =? 2).
    { unfold Decode.at_least, mbind, SE_bind. destruct (Decode.byte c') as [[t|] c'']; [|done]. by rewrite Hcp. }
    destruct (tag =? 3); [done|]. destruct (tag =? 4); [|done]. by rewrite Hcp.
Qed.

Definition typed_active (plan : ActiveQuorumPlan) : Prop :=
  match plan with
  | Stable p => typed_spec (spec p)
  | JointPhase j => typed_spec (spec (old_plan j)) /\ typed_spec (spec (new_plan j))
  end.

Section record_cursor.
Context `{Sha256}.

(** The plan part of a record, as written and as read. *)
Lemma parses_phase plan :
  active_built plan -> typed_active plan ->
  exists body, Encode.encode plan = Ok (RECORD_MAGIC ++ Encode.unsigned_16 RECORD_VERSION ++ body) /\
    len body <= 16385 /\
    parses (phase ← Decode.byte;
      if phase =? STABLE_PHASE then p ← Decode.compiled_plan; mret (Stable p)
      else if phase =? JOINT_PHASE
      then old ← Decode.compiled_plan; new ← Decode.compiled_plan;
           j ← lift (map_err (fun _ => Unsafe) (Joint.new old new));
           mret (JointPhase j)
      else raise Malformed) body plan.
Proof.
  intros Hb Ht.
  assert (forall body, len body <= 16385 ->
    (MAXIMUM_RECORD_BYTES <? len (RECORD_MAGIC ++ Encode.unsigned_16 RECORD_VERSION ++ body)) = false) as Hsmall.
  { intros body Hl. apply N.ltb_ge. rewrite !len_app. unfold Encode.unsigned_16. rewrite len_be_bytes.
    unfold MAXIMUM_RECORD_BYTES. change (len RECORD_MAGIC) with 4. lia. }
  destruct plan as [p|j]; cbn [active_built typed_active] in *; unfold Encode.encode.
  - destruct (encode_plan_spec_total (spec p) (built_accepted p Hb)) as (b & Eb & Hl).
    exists (STABLE_PHASE :: b). rewrite Eb. cbn [mbind result_bind]. rewrite Hsmall by (rewrite len_cons; lia).
    split_and!; [done|rewrite len_cons; lia|]. apply parses_byte_bind. cbn [N.eqb Pos.eqb STABLE_PHASE].
    rewrite <- (app_nil_r b). eapply parses_bind; [by apply parses_plan_spec|]. apply parses_ret.
  - destruct Hb as (Ho & Hn & Hj), Ht as [Hto Htn].
    destruct (encode_plan_spec_total _ (built_accepted _ Ho)) as (b & Eb & Hl).
    destruct (encode_plan_spec_total _ (built_accepted _ Hn)) as (b' & Eb' & Hl').
    exists (JOINT_PHASE :: b ++ b'). rewrite Eb, Eb'. cbn [mbind result_bind].
    rewrite Hsmall by (rewrite len_cons, len_app; lia).
    split_and!; [done|rewrite len_cons, len_app; lia|]. apply parses_byte_bind. cbn [N.eqb Pos.eqb STABLE_PHASE JOINT_PHASE].
    eapply parses_bind; [by apply (parses_plan_spec (old_plan j))|]. rewrite <- (app_nil_r b').
    eapply parses_bind; [by apply (parses_plan_spec (new_plan j))|]. eapply parses_lift; [by rewrite Hj|]. apply parses_ret.
Qed.

Lemma decode_cursor_built c plan c' :
  Decode.decode_cursor c = (Ok plan, c') -> active_built plan.
Proof.
  assert (forall c p c', Decode.compiled_plan c = (Ok p, c') -> plan_built p) as Hplan.
  { clear. intros c p c' Hrun. unfold Decode.compiled_plan in Hrun. inv_se.
    by eapply compile_plan_built. }
  unfold Decode.decode_cursor. intros Hrun. inv_se.
  match goal with HP : (if ?b then _ else _) _ = _ |- _ => destruct b; [inv_se; cbn; eauto|inv_se] end.
  cbn. eauto using joint_new_built.
Qed.

End record_cursor.

(** A record, its decoding, and its size. *)
Lemma record_roundtrip `{Sha256} plan :
  active_built plan -> typed_active plan ->
  exists record, Encode.encode plan = Ok record /\ Decode.decode record = Ok plan /\ len record <= 16391.
Proof.
  intros Hb Ht. destruct (parses_phase plan Hb Ht) as (body & Eb & Hl & Hp).
  eexists. split; [exact Eb|]. set (record := RECORD_MAGIC ++ _).
  assert (len record <= 16391) as Hlen.
  { subst record. rewrite !len_app. unfold Encode.unsigned_16. rewrite len_be_bytes.
    change (len RECORD_MAGIC) with 4. lia. }
  split; [|exact Hlen].
  unfold Decode.decode. rewrite (proj2 (N.ltb_ge _ _)) by (unfold MAXIMUM_RECORD_BYTES; lia).
  assert (parses (Decode.take (len RECORD_MAGIC)) RECORD_MAGIC RECORD_MAGIC) as Hmagic by by apply parses_take.
  assert (parses Decode.unsigned_16 (Encode.unsigned_16 RECORD_VERSION) RECORD_VERSION) as Hver
    by by apply (parses_unsigned Malformed 2).
  destruct (Hmagic {| data := record; position := 0 |} (Encode.unsigned_16 RECORD_VERSION ++ body))
    as (c1 & E1 & Hc1 & Hu1 & _);
    [split; [apply N.le_0_l|unfold usize_max, u64_max in *; simpl; lia]|done|].
  destruct (Hver c1 body Hc1 Hu1) as (c2 & E2 & Hc2 & Hu2 & _).
  destruct (Hp c2 [] Hc2 ltac:(by rewrite app_nil_r)) as (c3 & E3 & Hc3 & Hu3 & _).
  unfold Decode.decode_cursor. unfold mbind, SE_bind in *. rewrite E1.
  rewrite bool_decide_eq_true_2 by done. cbn [negb]. rewrite E2, N.eqb_refl. cbn [negb].
  destruct (Decode.byte c2) as [[phase|] c2']; [|discriminate E3].
  rewrite E3. unfold get_state, Decode.remaining, saturating_sub.
  by rewrite (unread_nil c3 Hc3 Hu3), N.sub_diag.
Qed.

(** Every compiled plan, stable or joint, whose fields hold values of their Rust
    types is encoded (the 64 KiB limit is never hit), and decoding the record
    recompiles exactly the same plan, proofs and digests included. *)
Theorem plan_record_roundtrip `{Sha256} plan :
  active_built plan -> typed_active plan ->
  exists record, Encode.encode plan = Ok record /\ Decode.decode record = Ok plan.
Proof. intros Hb Ht. destruct (record_roundtrip plan Hb Ht) as (record & He & Hd & _). eauto. Qed.

(** Whatever bytes a node reads back, a record it accepts is a plan whose safety
    was proved again from its source specification: no stored proof is trusted. *)
Theorem decoded_plan_is_proved `{Sha256} record plan :
  Decode.decode record = Ok plan -> active_built plan.
Proof.
  unfold Decode.decode. intros Hd. inv_ok.
  destruct (Decode.decode_cursor _) as [r c'] eqn:E. cbn in Hd. subst r. by eapply decode_cursor_built.
Qed.

(** ** Sample records *)

Lemma sample_typed : typed_spec Sample.three_voters.
Proof.
  unfold typed_spec. split_and!; [split; vm_compute; reflexivity|vm_compute; discriminate..| | | |].
  - cbn [Sample.three_voters flat_spec voters learners]. intros v Hv.
    assert (v = 1 \/ v = 2 \/ v = 3 \/ v = 4) as Hcases by set_solver.
    destruct Hcases as [->|[->|[->| ->]]]; split; vm_compute; reflexivity.
  - vm_compute. repeat split; discriminate.
  - vm_compute. repeat split; discriminate.
  - vm_compute. repeat split; discriminate.
Qed.

Lemma plan_record_roundtrip_witness :
  exists p record, @compile_plan Sample.sha Sample.three_voters = Ok p /\
    Encode.encode (Stable p) = Ok record /\ @Decode.decode Sample.sha record = Ok (Stable p).
Proof.
  destruct (@compile_plan Sample.sha Sample.three_voters) as [p|e] eqn:E; [|vm_compute in E; discriminate E].
  pose proof (@compile_plan_inv Sample.sha _ _ E) as [Es _].
  destruct (@plan_record_roundtrip Sample.sha (Stable p)) as (record & H1 & H2).
  - exact (@compile_plan_built Sample.sha _ _ E).
  - cbn [typed_active]. rewrite Es. exact sample_typed.
  - exists p, record. auto.
Defined.

Definition sample_record : bytes :=
  match @compile_plan Sample.sha Sample.three_voters with
  | Ok p => match Encode.encode (Stable p) with Ok r => r | Err _ => [] end
  | Err _ => []
  end.

Lemma decoded_plan_is_proved_witness :
  exists plan, @Decode.decode Sample.sha sample_record = Ok plan /\ @active_built Sample.sha plan.
Proof.
  destruct (@Decode.decode Sample.sha sample_record) as [plan|e] eqn:E; [|vm_compute in E; discriminate E].
  exists plan. split; [reflexivity|]. exact (@decoded_plan_is_proved Sample.sha sample_record plan E).
Defined.
