(* ===== verification/Types.v ===== *)
(** Consensus inputs, messages, durable mutations and effects: core/types.rs, with
    the replication budget of core/replication_budget.rs. *)

From Stdlib Require Import String.
From S2P Require Import Prelude Predicate Plan Digest Joint.
From stdpp Require Import prelude gmap.
#[local] Open Scope N_scope.

(** ** Errors *)

Inductive CoreError :=
| InvalidConfiguration
| InvalidInput
| StaleMember
| PersistencePending
| StalePersistence
| NotLeader
| Exhausted.

#[export] Instance CoreError_eq_dec : EqDecision CoreError.
Proof. solve_decision. Defined.

(** ** Log positions and entries *)

Definition MAXIMUM_LOG_ENTRY_BYTES : N := 16 * 1024 * 1024.
Definition MAXIMUM_APPEND_ENTRIES : N := 64.
Definition MAXIMUM_APPEND_COMMAND_BYTES : N := 16 * 1024 * 1024.
Definition TERM_CONFIRMATION_VERSION : N := u16_max.
Definition TERM_CONFIRMATION_BYTES : bytes := ascii_bytes "MSCT" ++ [1].

Record LogPosition := { term : N; index : N }.

#[export] Instance LogPosition_eq_dec : EqDecision LogPosition.
Proof. solve_decision. Defined.

Definition GENESIS : LogPosition := {| term := 0; index := 0 |}.

Definition position_is_valid (p : LogPosition) : bool := Bool.eqb (index p =? 0) (term p =? 0).

(** The derived lexicographic [Ord]: [a <= b]. *)
Definition position_le (a b : LogPosition) : bool :=
  (term a <? term b) || ((term a =? term b) && (index a <=? index b)).

Record LogEntry := {
  entry_position : LogPosition;
  operation_id : N;
  command_version : N;
  command : bytes;
  command_digest : bytes;
}.

#[export] Instance LogEntry_eq_dec : EqDecision LogEntry.
Proof. solve_decision. Defined.

Section log_entries.
Context `{Sha256}.

Definition command_digest_of (version : N) (command : bytes) : bytes :=
  sha256 (ascii_bytes "meshspan.consensus.command.v1" ++ be_bytes 2 version
          ++ be_bytes 8 (u64_of_len (len command)) ++ command).

Definition from_shared_command (position : LogPosition) (op version : N) (command : bytes)
    : result CoreError LogEntry :=
  if negb (position_is_valid position) || bool_decide (position = GENESIS) || (version =? 0)
     || ((version =? TERM_CONFIRMATION_VERSION) && negb (bool_decide (command = TERM_CONFIRMATION_BYTES)))
     || (MAXIMUM_LOG_ENTRY_BYTES <? len command)
  then Err InvalidInput
  else Ok {| entry_position := position; operation_id := op; command_version := version;
             command := command; command_digest := command_digest_of version command |}.

(** [LogEntry::new]. *)
Definition new_entry (position : LogPosition) (op version : N) (command : bytes) : result CoreError LogEntry :=
  if MAXIMUM_LOG_ENTRY_BYTES <? len command then Err InvalidInput
  else from_shared_command position op version command.

(** [LogEntry::validate]. *)
Definition validate_entry (e : LogEntry) : result CoreError unit :=
  if negb (position_is_valid (entry_position e)) || bool_decide (entry_position e = GENESIS)
     || (command_version e =? 0)
     || ((command_version e =? TERM_CONFIRMATION_VERSION)
         && negb (bool_decide (command e = TERM_CONFIRMATION_BYTES)))
     || (MAXIMUM_LOG_ENTRY_BYTES <? len (command e))
     || negb (bool_decide (command_digest e = command_digest_of (command_version e) (command e)))
  then Err InvalidInput
  else Ok tt.

(** The record the chaining digest is taken over. *)
Definition entry_message (e : LogEntry) : bytes :=
  ascii_bytes "meshspan.consensus.log-entry.v1"
  ++ be_bytes 8 (term (entry_position e)) ++ be_bytes 8 (index (entry_position e))
  ++ id_bytes (operation_id e) ++ be_bytes 2 (command_version e) ++ command_digest e.

Definition entry_digest (e : LogEntry) : bytes := sha256 (entry_message e).

Definition is_term_confirmation (e : LogEntry) : bool :=
  (command_version e =? TERM_CONFIRMATION_VERSION) && bool_decide (command e = TERM_CONFIRMATION_BYTES).

End log_entries.

(** ** Roles, correlation identities, member incarnations *)

Inductive Role := Follower | Candidate | Leader.

#[export] Instance Role_eq_dec : EqDecision Role.
Proof. solve_decision. Defined.

Abbreviation PersistenceId := N (only parsing).
Abbreviation ProposalId := N (only parsing).
Abbreviation ReadBarrierId := N (only parsing).
Abbreviation AppendProbeId := N (only parsing).

Abbreviation MemberIncarnations := (gmap NodeId N) (only parsing).

Module Incarnations.

Definition for_members (values : gmap NodeId N) (expected : gset NodeId) : result CoreError MemberIncarnations :=
  if negb (bool_decide (dom values = expected)) || existsb (fun '(_, v) => v =? 0) (map_to_list values)
  then Err InvalidConfiguration
  else Ok values.

Definition new (values : gmap NodeId N) (plan : CompiledQuorumPlan) : result CoreError MemberIncarnations :=
  for_members values (voters (spec plan) ∪ learners (spec plan)).

Definition incarnation (self : MemberIncarnations) (node : NodeId) : option N := self !! node.

Definition matches_members (self : MemberIncarnations) (members : gset NodeId) : bool :=
  bool_decide (dom self = members) && forallb (fun '(_, v) => 0 <? v) (map_to_list self).

Definition preserves (self previous : MemberIncarnations) (incumbents : gset NodeId) : bool :=
  forallb (fun m => bool_decide (incarnation self m = incarnation previous m)) (elements incumbents).

End Incarnations.

(** ** Configuration, durable state, messages *)

Record CoreConfig := {
  partition_id : N;
  local_node_id : NodeId;
  local_incarnation : N;
  plan : CompiledQuorumPlan;
  member_incarnations : MemberIncarnations;
}.

Record DurableCoreState := {
  durable_term : N;
  durable_vote : option NodeId;
  durable_log : list LogEntry;
  durable_applied : N;
}.

Definition durable_default : DurableCoreState :=
  {| durable_term := 0; durable_vote := None; durable_log := []; durable_applied := 0 |}.

Record VoteRequest := {
  vq_term : N;
  vq_candidate : NodeId;
  vq_candidate_incarnation : N;
  vq_last_log : LogPosition;
  vq_epoch : N;
  vq_plan_digest : bytes;
}.

Record VoteResponse := {
  vr_term : N;
  vr_granted : bool;
  vr_epoch : N;
  vr_plan_digest : bytes;
}.

Record AppendRequest := {
  aq_probe_id : AppendProbeId;
  aq_term : N;
  aq_leader : NodeId;
  aq_leader_incarnation : N;
  aq_previous : LogPosition;
  aq_previous_digest : bytes;
  aq_entries : list LogEntry;
  aq_leader_commit_index : N;
  aq_read_barrier_id : option ReadBarrierId;
  aq_epoch : N;
  aq_plan_digest : bytes;
}.

Record AppendResponse := {
  ar_probe_id : option AppendProbeId;
  ar_matched_digest : bytes;
  ar_term : N;
  ar_accepted : bool;
  ar_matched_index : N;
  ar_next_index_hint : N;
  ar_read_barrier_id : option ReadBarrierId;
  ar_epoch : N;
  ar_plan_digest : bytes;
}.

Record CommittedPrefix := {
  cp_previous : LogPosition;
  cp_previous_digest : bytes;
  cp_entries : list LogEntry;
  cp_committed_index : N;
  cp_epoch : N;
  cp_plan_digest : bytes;
}.

Inductive CoreMessage :=
| MVoteRequest (request : VoteRequest)
| MVoteResponse (response : VoteResponse)
| MAppendRequest (request : AppendRequest)
| MAppendResponse (response : AppendResponse)
| MCommittedPrefix (prefix : CommittedPrefix).

(** ** Inputs *)

Inductive CoreInput :=
| ElectionTimeout
| Heartbeat
| Message (from : NodeId) (sender_incarnation : N) (message : CoreMessage)
| Persisted (id : PersistenceId)
| Propose (proposal_id : ProposalId) (op version : N) (command : bytes)
| BeginReadBarrier (id : ReadBarrierId)
| CancelReadBarrier (id : ReadBarrierId)
| ConfirmTerm (proposal_id : ProposalId) (op : N)
| ActivateJointPlan (joint : JointQuorumPlan) (incarnations : MemberIncarnations) (committed : LogPosition)
| ActivateStablePlan (stable : CompiledQuorumPlan) (incarnations : MemberIncarnations) (committed : LogPosition)
| AppliedThrough (index : N).

(** ** Durable mutations and effects *)

Record DurableQuorumPlan := {
  dq_active_plan : ActiveQuorumPlan;
  dq_activated_position : LogPosition;
}.

Record DurableMutation := {
  vote_state : option (N * option NodeId);
  truncate_from : option N;
  append : list LogEntry;
  mutation_epoch : option N;
  quorum_plan : option DurableQuorumPlan;
}.

Inductive CoreEffect :=
| Persist (id : PersistenceId) (mutation : DurableMutation)
| Send (to : NodeId) (message : CoreMessage)
| RoleChanged (role : Role) (term : N)
| ProposalAppended (proposal_id : ProposalId) (position : LogPosition)
| CommitReady (entries : list LogEntry)
| ReadBarrierReady (id : ReadBarrierId) (applied_index : N)
| Rejected (error : CoreError).

(** ** Validation of hostile ranges *)

Definition validate_replication_bytes (entries : list LogEntry) : result CoreError unit :=
  _ ← try_fold (fun remaining e => ok_or (checked_sub remaining (len (command e))) InvalidInput)
        MAXIMUM_APPEND_COMMAND_BYTES entries;
  Ok tt.

Section validation.
Context `{Sha256}.

Definition validate_append_entries (request : AppendRequest) : result CoreError unit :=
  if (aq_term request =? 0) || (aq_probe_id request =? 0)
     || negb (position_is_valid (aq_previous request))
     || (MAXIMUM_APPEND_ENTRIES <? len (aq_entries request))
     || match aq_read_barrier_id request with Some id => id =? 0 | None => false end
     || (bool_decide (aq_previous request = GENESIS) && negb (bool_decide (aq_previous_digest request = zero32)))
  then Err InvalidInput
  else
    _ ← validate_replication_bytes (aq_entries request);
    expected ← ok_or (checked_add u64_max (index (aq_previous request)) 1) Exhausted;
    _ ← try_fold (fun expected e =>
          _ ← validate_entry e;
          if negb (index (entry_position e) =? expected) || (aq_term request <? term (entry_position e))
          then Err InvalidInput
          else ok_or (checked_add u64_max expected 1) Exhausted) expected (aq_entries request);
    Ok tt.

Definition validate_committed_prefix (prefix : CommittedPrefix) : result CoreError unit :=
  if negb (position_is_valid (cp_previous prefix))
     || (MAXIMUM_APPEND_ENTRIES <? len (cp_entries prefix))
     || (cp_epoch prefix =? 0) || (cp_committed_index prefix =? 0)
     || (bool_decide (cp_previous prefix = GENESIS) && negb (bool_decide (cp_previous_digest prefix = zero32)))
  then Err InvalidInput
  else
    _ ← validate_replication_bytes (cp_entries prefix);
    last ← try_fold (fun at_ e =>
             _ ← validate_entry e;
             next ← ok_or (checked_add u64_max (index at_) 1) Exhausted;
             if negb (index (entry_position e) =? next) || (term (entry_position e) <? term at_)
             then Err InvalidInput
             else Ok {| term := term (entry_position e); index := next |})
           (cp_previous prefix) (cp_entries prefix);
    if negb (index last =? cp_committed_index prefix) then Err InvalidInput else Ok tt.

End validation.

(** ** Replication budgets *)

Record ReplicationBatchBudget := { max_bytes : N; entry_overhead : N }.

Module Budget.
Definition new (max_bytes entry_overhead : N) : result CoreError ReplicationBatchBudget :=
  if max_bytes <=? entry_overhead then Err InvalidConfiguration
  else Ok {| max_bytes := max_bytes; entry_overhead := entry_overhead |}.
Definition permits_command (b : ReplicationBatchBudget) (command_bytes : N) : bool :=
  (command_bytes <=? MAXIMUM_APPEND_COMMAND_BYTES)
  && match checked_add usize_max command_bytes (entry_overhead b) with
     | Some bytes => bytes <=? max_bytes b
     | None => false
     end.
Definition default : ReplicationBatchBudget :=
  {| max_bytes := MAXIMUM_APPEND_COMMAND_BYTES; entry_overhead := 0 |}.
End Budget.
