(* ===== verification/Membership.v ===== *)
(** Membership planning: the planners of membership.rs, which propose one joint
    transition at a time, and the facts their callers rely on. *)

From S2P Require Import Prelude VoterSet Predicate Plan Digest Compile FlatPlan Joint Types.
From stdpp Require Import prelude gmap.
#[local] Open Scope N_scope.

Record CatchUpEvidence := {
  ev_node_id : NodeId;
  ev_incarnation : N;
  ev_committed_position : LogPosition;
  ev_committed_entry_digest : bytes;
  ev_promotion_eligible : bool;
}.

#[export] Instance CatchUpEvidence_eq_dec : EqDecision CatchUpEvidence.
Proof. solve_decision. Defined.

Record PlannedPromotion := {
  promoted_node_id : NodeId;
  promotion_plan : JointQuorumPlan;
}.

Record PlannedLearnerAdmission := {
  admitted_node_id : NodeId;
  admission_plan : JointQuorumPlan;
  admission_incarnations : MemberIncarnations;
}.

Record PlannedMemberRemoval := {
  removed_node_id : NodeId;
  removal_plan : JointQuorumPlan;
}.

Section planners.
Context `{Sha256}.

(** [compile_plan(flat_plan(..)?)?] with every failure reported as an invalid transition. *)
Definition next_flat (old : CompiledQuorumPlan) (id : N) (voters learners : gset NodeId)
    : result MembershipChangeError CompiledQuorumPlan :=
  epoch ← ok_or (checked_add u64_max (spec_epoch (spec old)) 1) InvalidTransition;
  s ← map_err (fun _ => InvalidTransition) (flat_plan id epoch voters learners);
  map_err (fun _ => InvalidTransition) (compile_plan s).

Definition plan_flat_member_removal (old : CompiledQuorumPlan) (accepted : MemberIncarnations)
    (node : NodeId) (incarnation new_plan_id : N) : result MembershipChangeError PlannedMemberRemoval :=
  if (incarnation =? 0) || negb (Incarnations.matches_members accepted (plan_members old))
     || negb (bool_decide (Incarnations.incarnation accepted node = Some incarnation))
  then Err InvalidTarget
  else
    let was_voter := bool_decide (node ∈ voters (spec old)) in
    let vs := voters (spec old) ∖ {[node]} in
    (* [||]: learners are touched only when the node was not a voter *)
    let was_learner := bool_decide (node ∈ learners (spec old)) in
    let ls := if was_voter then learners (spec old) else learners (spec old) ∖ {[node]} in
    if negb (was_voter || was_learner) || bool_decide (vs = ∅) then Err InvalidTarget
    else
      new ← next_flat old new_plan_id vs ls;
      j ← Joint.new old new;
      Ok {| removed_node_id := node; removal_plan := j |}.

Definition plan_next_flat_learner_admission (old : CompiledQuorumPlan) (accepted : MemberIncarnations)
    (candidates : gmap NodeId N) (new_plan_id : N)
    : result MembershipChangeError (option PlannedLearnerAdmission) :=
  if negb (Incarnations.matches_members accepted (plan_members old))
     || existsb (fun '(node, incarnation) => (incarnation =? 0) || bool_decide (node ∈ plan_members old))
          (ascending_map candidates)
  then Err InvalidTarget
  else
    match ascending_map candidates with
    | [] => Ok None
    | (node, incarnation) :: _ =>
        new ← next_flat old new_plan_id (voters (spec old)) ({[node]} ∪ learners (spec old));
        values ← map_err (fun _ => InvalidTarget) (Incarnations.new (<[node := incarnation]> accepted) new);
        j ← Joint.new old new;
        Ok (Some {| admitted_node_id := node; admission_plan := j; admission_incarnations := values |})
    end.

(** The evidence test of the [find] closure. *)
Definition caught_up (accepted : MemberIncarnations) (evidence : gmap NodeId CatchUpEvidence)
    (committed : LogPosition) (digest : bytes) (node : NodeId) : bool :=
  match evidence !! node with
  | None => false
  | Some candidate =>
      (ev_node_id candidate =? node) && ev_promotion_eligible candidate
      && negb (ev_incarnation candidate =? 0)
      && bool_decide (Incarnations.incarnation accepted node = Some (ev_incarnation candidate))
      && bool_decide (ev_committed_position candidate = committed)
      && bool_decide (ev_committed_entry_digest candidate = digest)
  end.

Definition plan_next_flat_promotion (old : CompiledQuorumPlan) (accepted : MemberIncarnations)
    (evidence : gmap NodeId CatchUpEvidence) (committed : LogPosition) (digest : bytes)
    (desired_voters new_plan_id : N) : result MembershipChangeError (option PlannedPromotion) :=
  let current_voters := N.of_nat (size (voters (spec old))) in
  if (desired_voters <? current_voters) || (9 <? desired_voters) || (index committed =? 0)
  then Err InvalidTarget
  else if current_voters =? desired_voters then Ok None
  else
    node ← ok_or (List.find (caught_up accepted evidence committed digest) (ascending (learners (spec old))))
             NoCaughtUpLearner;
    new ← next_flat old new_plan_id ({[node]} ∪ voters (spec old)) (learners (spec old) ∖ {[node]});
    j ← Joint.new old new;
    Ok (Some {| promoted_node_id := node; promotion_plan := j |}).

End planners.

Definition recommended_voter_count (available : N) : N :=
  if available =? 0 then 0
  else if available =? 1 then 1
  else if available =? 2 then 2
  else
    let bounded := if 9 <? available then 9 else available in
    if N.even bounded then bounded - 1 else bounded.

(** ** What the planners return *)

Section planner_facts.
Context `{Sha256}.

Lemma next_flat_Ok old id vs ls new :
  next_flat old id vs ls = Ok new ->
  plan_built new /\ voters (spec new) = vs /\ learners (spec new) = ls /\
  spec_epoch (spec new) = spec_epoch (spec old) + 1 /\ spec new = flat_spec id (spec_epoch (spec old) + 1) vs ls.
Proof.
  unfold next_flat. intros Hn. inv_ok.
  match goal with HF : flat_plan _ _ _ _ = Ok _ |- _ => apply flat_plan_Ok in HF as [_ ->] end.
  match goal with HC : compile_plan _ = Ok _ |- _ =>
    pose proof (compile_plan_built _ _ HC); apply compile_plan_inv in HC as (Es & _) end.
  rewrite Es. unfold flat_spec. cbn. auto.
Qed.

Lemma next_flat_total old id vs ls :
  validate_membership vs ls = Ok tt -> spec_epoch (spec old) < u64_max ->
  exists new, next_flat old id vs ls = Ok new.
Proof.
  intros HV He. unfold next_flat.
  rewrite (proj2 (checked_add_Some u64_max _ 1 (spec_epoch (spec old) + 1))) by lia.
  cbn [ok_or mbind result_bind]. rewrite (proj2 (flat_plan_Ok _ _ _ _ (flat_spec id (spec_epoch (spec old) + 1) vs ls))) by done.
  cbn [map_err mbind result_bind].
  destruct (flat_spec_compiles id (spec_epoch (spec old) + 1) vs ls HV ltac:(lia)) as [p ->]. cbn. eauto.
Qed.

Lemma matches_members_spec inc members :
  Incarnations.matches_members inc members = true <->
  dom inc = members /\ forall node i, inc !! node = Some i -> 0 < i.
Proof.
  unfold Incarnations.matches_members. rewrite andb_true_iff, bool_decide_eq_true, forallb_forall.
  split; intros [Hd Hall]; split; auto.
  - intros node i Hi. specialize (Hall (node, i)). cbn in Hall. apply N.ltb_lt, Hall.
    apply list_elem_of_In, elem_of_map_to_list. done.
  - intros [node i] Hin. apply list_elem_of_In, elem_of_map_to_list in Hin. apply N.ltb_lt. eauto.
Qed.

(** A successful removal keeps everyone else exactly where they were. *)
Lemma removal_Ok old accepted node inc id r :
  plan_built old -> plan_flat_member_removal old accepted node inc id = Ok r ->
  removed_node_id r = node /\ old_plan (removal_plan r) = old /\ joint_built (removal_plan r) /\
  inc <> 0 /\ accepted !! node = Some inc /\ node ∈ plan_members old /\
  voters (spec (new_plan (removal_plan r))) = voters (spec old) ∖ {[node]} /\
  learners (spec (new_plan (removal_plan r))) = learners (spec old) ∖ {[node]} /\
  voters (spec old) ∖ {[node]} <> ∅.
Proof.
  intros Hold Hr. unfold plan_flat_member_removal in Hr. inv_ok. bool_cases.
  match goal with HN : next_flat _ _ _ _ = Ok _ |- _ => apply next_flat_Ok in HN as (Hnew & Hv & Hl & He & _) end.
  match goal with HJ : Joint.new _ _ = Ok _ |- _ => pose proof (joint_new_Ok _ _ _ HJ) as (E1 & E2 & _);
    pose proof (joint_new_built _ _ _ Hold Hnew HJ) end.
  cbn [removed_node_id removal_plan]. rewrite E1, E2, Hv, Hl. unfold plan_members.
  pose proof Hold as (_ & _ & (_ & _ & _ & Hdisj & _) & _)%compile_plan_inv.
  split_and!; auto.
  - match goal with HB : _ || _ = true |- _ => apply orb_true_iff in HB as [HB|HB] end; bool_cases; set_solver.
  - destruct (bool_decide_reflect (node ∈ voters (spec old))); [set_solver|done].
Qed.

Lemma promotion_Ok old accepted evidence committed digest desired id r :
  plan_built old -> plan_next_flat_promotion old accepted evidence committed digest desired id = Ok (Some r) ->
  old_plan (promotion_plan r) = old /\ joint_built (promotion_plan r) /\
  promoted_node_id r ∈ learners (spec old) /\
  caught_up accepted evidence committed digest (promoted_node_id r) = true /\ index committed <> 0 /\
  (forall v, v ∈ learners (spec old) -> caught_up accepted evidence committed digest v = true ->
     promoted_node_id r <= v) /\
  N.of_nat (size (voters (spec old))) < desired /\
  voters (spec (new_plan (promotion_plan r))) = {[promoted_node_id r]} ∪ voters (spec old) /\
  learners (spec (new_plan (promotion_plan r))) = learners (spec old) ∖ {[promoted_node_id r]}.
Proof.
  intros Hold Hr. unfold plan_next_flat_promotion in Hr. inv_ok. bool_cases.
  destruct (N.eqb_spec (N.of_nat (size (voters (spec old)))) desired); [by simplify_eq|]. inv_ok. simplify_eq.
  match goal with HF : List.find _ _ = Some ?node |- _ =>
    pose proof (find_some _ _ HF) as [Hin Hc]; pose proof HF as Hfirst end.
  match goal with HN : next_flat _ _ _ _ = Ok _ |- _ => apply next_flat_Ok in HN as (Hnew & Hv & Hl & He & _) end.
  match goal with HJ : Joint.new _ _ = Ok _ |- _ => pose proof (joint_new_Ok _ _ _ HJ) as (E1 & E2 & _);
    pose proof (joint_new_built _ _ _ Hold Hnew HJ) end.
  cbn [promoted_node_id promotion_plan]. rewrite E1, E2, Hv, Hl.
  split_and!; auto; [apply elem_of_ascending, list_elem_of_In, Hin| |lia].
  intros v Hvl Hcv. apply elem_of_ascending in Hvl. revert Hfirst Hvl.
  pose proof (ascending_sorted (learners (spec old))) as Hs. induction Hs as [|w l Hs IH Hx]; [done|].
  cbn [List.find]. destruct (caught_up accepted evidence committed digest w) eqn:Ex.
  - intros [= ->] [->|Hin']%elem_of_cons; [done|]. rewrite Forall_forall in Hx. auto.
  - intros Hf [->|Hin']%elem_of_cons; [congruence|]. apply IH; auto.
    apply find_some in Hf as [? ?]. done.
Qed.

Lemma ascending_map_hd {V} (m : gmap N V) k v l :
  ascending_map m = (k, v) :: l -> m !! k = Some v.
Proof. intros E. apply elem_of_ascending_map. rewrite E. by left. Qed.

Lemma admission_Ok old accepted candidates id r :
  plan_built old -> plan_next_flat_learner_admission old accepted candidates id = Ok (Some r) ->
  old_plan (admission_plan r) = old /\ joint_built (admission_plan r) /\
  admitted_node_id r ∉ plan_members old /\
  (exists inc, candidates !! admitted_node_id r = Some inc /\ inc <> 0 /\
     admission_incarnations r = <[admitted_node_id r := inc]> accepted) /\
  dom (admission_incarnations r) = {[admitted_node_id r]} ∪ plan_members old /\
  voters (spec (new_plan (admission_plan r))) = voters (spec old) /\
  learners (spec (new_plan (admission_plan r))) = {[admitted_node_id r]} ∪ learners (spec old).
Proof.
  intros Hold Hr. unfold plan_next_flat_learner_admission in Hr. inv_ok.
  match goal with HB : _ || _ = false |- _ => apply orb_false_iff in HB as [Hm Hall] end.
  apply negb_false_iff, matches_members_spec in Hm as [Hdom _].
  destruct (ascending_map candidates) as [|[node inc] rest] eqn:Ec; [by simplify_eq|]. inv_ok. simplify_eq.
  match goal with HI : Incarnations.new _ _ = Ok _ |- _ => unfold Incarnations.new, Incarnations.for_members in HI end.
  inv_ok.
  apply ascending_map_hd in Ec. cbn [existsb] in Hall. apply orb_false_iff in Hall as [Hh _]. bool_cases.
  match goal with HN : next_flat _ _ _ _ = Ok _ |- _ => apply next_flat_Ok in HN as (Hnew & Hv & Hl & He & _) end.
  match goal with HJ : Joint.new _ _ = Ok _ |- _ => pose proof (joint_new_Ok _ _ _ HJ) as (E1 & E2 & _);
    pose proof (joint_new_built _ _ _ Hold Hnew HJ) end.
  cbn [admitted_node_id admission_plan admission_incarnations]. rewrite E1, E2, Hv, Hl.
  split_and!; eauto. by rewrite dom_insert_L, Hdom.
Qed.

End planner_facts.

(** The recommended number of voters never exceeds the nodes available nor nine, and
    from three nodes on it is the largest odd number that fits: no other odd count
    up to nine that the population can supply is larger. *)
Theorem recommended_voter_count_optimal available :
  recommended_voter_count available <= available /\ recommended_voter_count available <= 9 /\
  (3 <= available -> N.odd (recommended_voter_count available) = true /\
     forall k, N.odd k = true -> k <= available -> k <= 9 -> k <= recommended_voter_count available).
Proof.
  unfold recommended_voter_count.
  destruct (N.eqb_spec available 0); [split_and!; lia|].
  destruct (N.eqb_spec available 1); [split_and!; lia|].
  destruct (N.eqb_spec available 2); [split_and!; lia|].
  set (bounded := if 9 <? available then 9 else available).
  assert (3 <= bounded <= 9 /\ bounded <= available /\ (forall k, k <= available -> k <= 9 -> k <= bounded))
    as (Hb & Ha & Hk) by (subst bounded; destruct (N.ltb_spec 9 available); split_and!; lia).
  clearbody bounded. destruct (N.even bounded) eqn:Ev.
  - split_and!; [lia..|]. intros _. split.
    + rewrite <- (N.sub_add 1 bounded) in Ev by lia. rewrite N.add_1_r, N.even_succ in Ev. done.
    + intros k Hodd Hka Hk9. specialize (Hk k Hka Hk9).
      destruct (N.eq_dec k bounded) as [->|]; [|lia]. rewrite <- N.negb_even, Ev in Hodd. done.
  - split_and!; [lia..|]. intros _. split; [by rewrite <- N.negb_even, Ev|auto].
Qed.

(** A member of a compiled plan can be removed exactly when the caller names its
    accepted incarnation, the incarnation table matches the membership, another voter
    remains, and an epoch is left: in particular the final voter is never removable. *)
Theorem member_removal_exact `{Sha256} old accepted node inc id :
  plan_built old ->
  (exists r, plan_flat_member_removal old accepted node inc id = Ok r) <->
  Incarnations.matches_members accepted (plan_members old) = true /\ accepted !! node = Some inc /\
  voters (spec old) ∖ {[node]} <> ∅ /\ spec_epoch (spec old) < u64_max.
Proof.
  intros Hold. pose proof Hold as (_ & _ & (Hne & Hvs & Hls & Hdisj & _) & _)%compile_plan_inv. split.
  - intros [r Hr]. pose proof (removal_Ok _ _ _ _ _ _ Hold Hr) as (_ & _ & _ & _ & Hacc & _ & _ & _ & Hv).
    unfold plan_flat_member_removal, next_flat in Hr. inv_ok. bool_cases. split_and!; auto. lia.
  - intros (Hm & Hacc & Hv & He). pose proof Hm as [Hdom Hpos]%matches_members_spec.
    assert (node ∈ plan_members old) as Hin by (rewrite <- Hdom; by eapply elem_of_dom_2).
    unfold plan_flat_member_removal. rewrite Hm, (bool_decide_eq_true_2 (_ = Some inc)) by done.
    rewrite (proj2 (N.eqb_neq inc 0)) by (specialize (Hpos _ _ Hacc); lia). cbn [negb orb].
    rewrite (bool_decide_eq_false_2 (_ = ∅)) by done. rewrite orb_false_r.
    assert (bool_decide (node ∈ voters (spec old)) || bool_decide (node ∈ learners (spec old)) = true) as ->.
    { rewrite orb_true_iff, !bool_decide_eq_true. unfold plan_members in Hin. set_solver. }
    cbn [negb]. set (ls := if bool_decide (node ∈ voters (spec old)) then _ else _).
    assert (ls ⊆ learners (spec old)) as Hsub by (subst ls; destruct (bool_decide _); set_solver).
    assert (size ls <= size (learners (spec old)))%nat by by apply subseteq_size.
    assert (size (voters (spec old) ∖ {[node]}) <= size (voters (spec old)))%nat by (apply subseteq_size; set_solver).
    destruct (next_flat_total old id (voters (spec old) ∖ {[node]}) ls) as [new Hnew].
    + apply validate_membership_Ok. split_and!; [done|lia|lia|set_solver].
    + done.
    + rewrite Hnew. cbn [mbind result_bind]. apply next_flat_Ok in Hnew as (Hb & _ & _ & Ee & _).
      destruct (joint_new_total old new Hold Hb He Ee) as [j ->]. cbn. eauto.
Qed.

Lemma member_removal_exact_witness :
  exists p, @compile_plan Sample.sha Sample.three_voters = Ok p /\
    exists r, @plan_flat_member_removal Sample.sha p {[1 := 1; 2 := 1; 3 := 5; 4 := 2]} 3 5 11 = Ok r.
Proof.
  destruct (@compile_plan Sample.sha Sample.three_voters) as [p|e] eqn:E; [|vm_compute in E; discriminate E].
  exists p. split; [done|]. pose proof (@compile_plan_inv Sample.sha _ _ E) as [Es _].
  apply (@member_removal_exact Sample.sha p); [exact (@compile_plan_built Sample.sha _ _ E)|].
  unfold plan_members. rewrite Es. split_and!; [vm_compute; reflexivity|vm_compute; reflexivity| |vm_compute; reflexivity].
  intros E0. vm_compute in E0. discriminate E0.
Defined.
