(* ===== verification/MembershipCommand.v ===== *)
(** Membership transition commands carried by committed log entries: membership_command.rs. *)

From Stdlib Require Import String.
From S2P Require Import Prelude VoterSet Predicate Plan Digest Compile FlatPlan Joint Ids Codec PlanRecord Types Membership.
From stdpp Require Import prelude gmap.
#[local] Open Scope N_scope.

Definition MEMBERSHIP_COMMAND_VERSION : N := 2.
Definition COMMAND_MAGIC : bytes := ascii_bytes "MSMC".
Definition FORMAT_VERSION : N := 1.
Definition ADMIT_LEARNER : N := 1.
Definition PROMOTE_LEARNER : N := 2.
Definition FINALISE_STABLE : N := 3.
Definition REMOVE_MEMBER : N := 4.
Definition MAXIMUM_COMMAND_BYTES : N := 96 * 1024.

Inductive MembershipCommandError :=
| CommandMalformed
| CommandPlan (error : QuorumPlanRecordError)
| CommandInvalidTransition.

Inductive MembershipTransitionCommand :=
| AdmitLearner (joint : JointQuorumPlan) (node : NodeId) (incarnation : N)
| PromoteLearner (joint : JointQuorumPlan) (evidence : CatchUpEvidence)
| RemoveMember (joint : JointQuorumPlan) (node : NodeId) (incarnation : N)
| FinaliseStable (stable : CompiledQuorumPlan).

Definition validate_admission (j : JointQuorumPlan) (node : NodeId) (incarnation : N)
    : result MembershipCommandError unit :=
  let old := spec (old_plan j) in
  let new := spec (new_plan j) in
  let expected_learners := {[node]} ∪ learners old in
  let inserted := negb (bool_decide (node ∈ learners old)) in
  if (incarnation =? 0) || negb inserted || negb (bool_decide (voters old = voters new))
     || negb (bool_decide (expected_learners = learners new))
  then Err CommandInvalidTransition
  else Ok tt.

Definition validate_promotion (j : JointQuorumPlan) (e : CatchUpEvidence) : result MembershipCommandError unit :=
  let old := spec (old_plan j) in
  let new := spec (new_plan j) in
  let expected_learners := learners old ∖ {[ev_node_id e]} in
  let was_learner := bool_decide (ev_node_id e ∈ learners old) in
  let expected_voters := {[ev_node_id e]} ∪ voters old in
  let became_voter := negb (bool_decide (ev_node_id e ∈ voters old)) in
  if negb (ev_promotion_eligible e) || (ev_incarnation e =? 0)
     || bool_decide (ev_committed_position e = GENESIS) || negb was_learner || negb became_voter
     || negb (bool_decide (expected_voters = voters new))
     || negb (bool_decide (expected_learners = learners new))
  then Err CommandInvalidTransition
  else Ok tt.

Definition validate_removal (j : JointQuorumPlan) (node : NodeId) (incarnation : N)
    : result MembershipCommandError unit :=
  let old := spec (old_plan j) in
  let new := spec (new_plan j) in
  let was_voter := bool_decide (node ∈ voters old) in
  let expected_voters := voters old ∖ {[node]} in
  (* [||]: the learners are touched only when the node was not a voter *)
  let removed := was_voter || bool_decide (node ∈ learners old) in
  let expected_learners := if was_voter then learners old else learners old ∖ {[node]} in
  if (incarnation =? 0) || negb removed || bool_decide (expected_voters = ∅)
     || negb (bool_decide (expected_voters = voters new))
     || negb (bool_decide (expected_learners = learners new))
  then Err CommandInvalidTransition
  else Ok tt.

Definition validate_command (c : MembershipTransitionCommand) : result MembershipCommandError unit :=
  match c with
  | AdmitLearner j node incarnation => validate_admission j node incarnation
  | PromoteLearner j evidence => validate_promotion j evidence
  | RemoveMember j node incarnation => validate_removal j node incarnation
  | FinaliseStable _ => Ok tt
  end.

Definition encode_evidence (c : MembershipTransitionCommand) : bytes :=
  match c with
  | AdmitLearner _ node incarnation | RemoveMember _ node incarnation =>
      id_bytes node ++ be_bytes 8 incarnation
  | PromoteLearner _ e =>
      id_bytes (ev_node_id e) ++ be_bytes 8 (ev_incarnation e)
      ++ be_bytes 8 (term (ev_committed_position e)) ++ be_bytes 8 (index (ev_committed_position e))
      ++ ev_committed_entry_digest e
  | FinaliseStable _ => []
  end.

(** The [(kind, active)] pair of [encode]. *)
Definition command_plan (c : MembershipTransitionCommand) : N * ActiveQuorumPlan :=
  match c with
  | AdmitLearner j _ _ => (ADMIT_LEARNER, JointPhase j)
  | PromoteLearner j _ => (PROMOTE_LEARNER, JointPhase j)
  | RemoveMember j _ _ => (REMOVE_MEMBER, JointPhase j)
  | FinaliseStable p => (FINALISE_STABLE, Stable p)
  end.

Definition encode_command (c : MembershipTransitionCommand) : result MembershipCommandError bytes :=
  _ ← validate_command c;
  let '(kind, active) := command_plan c in
  record ← map_err CommandPlan (Encode.encode active);
  plan_length ← ok_or (try_narrow u32_max (len record)) CommandMalformed;
  let output := COMMAND_MAGIC ++ be_bytes 2 FORMAT_VERSION ++ [kind; 0] ++ be_bytes 4 plan_length
                ++ record ++ encode_evidence c in
  if MAXIMUM_COMMAND_BYTES <? len output then Err CommandMalformed else Ok output.

(** ** Decoder *)

Module CommandCursor.
Abbreviation Dec A := (SE Cursor MembershipCommandError A).
Definition read_slice (length : N) : Dec bytes := take_bytes CommandMalformed length.
Definition read_u8 : Dec N := take_byte CommandMalformed.
Definition read_u16 : Dec N := take_unsigned CommandMalformed 2.
Definition read_u32 : Dec N := take_unsigned CommandMalformed 4.
Definition read_u64 : Dec N := take_unsigned CommandMalformed 8.
Definition read_node_id : Dec N := take_identifier CommandMalformed.
Definition is_empty (c : Cursor) : bool := position c =? len (data c).
End CommandCursor.

Definition decode_evidence (kind : N) (active : ActiveQuorumPlan)
    : SE Cursor MembershipCommandError MembershipTransitionCommand :=
  match active with
  | JointPhase j =>
      if kind =? ADMIT_LEARNER
      then node ← CommandCursor.read_node_id; inc ← CommandCursor.read_u64; mret (AdmitLearner j node inc)
      else if kind =? PROMOTE_LEARNER
      then node ← CommandCursor.read_node_id;
           inc ← CommandCursor.read_u64;
           t ← CommandCursor.read_u64;
           i ← CommandCursor.read_u64;
           digest ← CommandCursor.read_slice 32;
           mret (PromoteLearner j {| ev_node_id := node; ev_incarnation := inc;
                                     ev_committed_position := {| term := t; index := i |};
                                     ev_committed_entry_digest := digest;
                                     ev_promotion_eligible := true |})
      else if kind =? REMOVE_MEMBER
      then node ← CommandCursor.read_node_id; inc ← CommandCursor.read_u64; mret (RemoveMember j node inc)
      else raise CommandInvalidTransition
  | Stable p => if kind =? FINALISE_STABLE then mret (FinaliseStable p) else raise CommandInvalidTransition
  end.

Section command_decoding.
Context `{Sha256}.

Definition decode_command_cursor : SE Cursor MembershipCommandError MembershipTransitionCommand :=
  magic ← CommandCursor.read_slice 4;
  if negb (bool_decide (magic = COMMAND_MAGIC)) then raise CommandMalformed
  else
    version ← CommandCursor.read_u16;
    if negb (version =? FORMAT_VERSION) then raise CommandMalformed
    else
      kind ← CommandCursor.read_u8;
      reserved ← CommandCursor.read_u8;
      if negb (reserved =? 0) then raise CommandMalformed
      else
        plan_length ← CommandCursor.read_u32;
        record ← CommandCursor.read_slice plan_length;
        active ← lift (map_err CommandPlan (Decode.decode record));
        command ← decode_evidence kind active;
        c ← get_state;
        if negb (CommandCursor.is_empty c) then raise CommandMalformed
        else _ ← lift (validate_command command); mret command.

Definition decode_command (b : bytes) : result MembershipCommandError MembershipTransitionCommand :=
  if MAXIMUM_COMMAND_BYTES <? len b then Err CommandMalformed
  else fst (decode_command_cursor {| data := b; position := 0 |}).

End command_decoding.

(** ** Round trip *)

Definition typed_evidence (e : CatchUpEvidence) : Prop :=
  Identifier.valid (ev_node_id e) /\ ev_incarnation e <= u64_max /\
  term (ev_committed_position e) <= u64_max /\ index (ev_committed_position e) <= u64_max /\
  length (ev_committed_entry_digest e) = 32%nat.

Definition typed_command (c : MembershipTransitionCommand) : Prop :=
  typed_active (snd (command_plan c)) /\
  match c with
  | AdmitLearner _ node inc | RemoveMember _ node inc => Identifier.valid node /\ inc <= u64_max
  | PromoteLearner _ e => typed_evidence e
  | FinaliseStable _ => True
  end.

Section command_roundtrip_facts.
Context `{Sha256}.

Definition command_built (c : MembershipTransitionCommand) : Prop := active_built (snd (command_plan c)).

Lemma parses_u64 x : x <= u64_max -> parses CommandCursor.read_u64 (be_bytes 8 x) x.
Proof. intros Hx. apply (parses_unsigned CommandMalformed 8). unfold u64_max in Hx. lia. Qed.

Lemma parses_evidence c :
  typed_command c -> validate_command c = Ok tt ->
  parses (decode_evidence (fst (command_plan c)) (snd (command_plan c))) (encode_evidence c) c.
Proof.
  intros [_ Ht] Hv. destruct c as [j node inc|j e|j node inc|p];
    cbn [command_plan fst snd decode_evidence encode_evidence].
  - destruct Ht as [Hid Hi]. cbn [N.eqb Pos.eqb ADMIT_LEARNER].
    eapply parses_bind; [by apply parses_identifier|]. rewrite <- (app_nil_r (be_bytes 8 inc)).
    eapply parses_bind; [by apply parses_u64|apply parses_ret].
  - destruct Ht as (Hid & Hi & Hterm & Hindex & Hd). cbn [N.eqb Pos.eqb ADMIT_LEARNER PROMOTE_LEARNER].
    cbn [validate_command] in Hv. unfold validate_promotion in Hv. inv_ok. bool_cases.
    destruct e as [node inc [t i] digest eligible].
    cbn [ev_node_id ev_incarnation ev_committed_position ev_committed_entry_digest ev_promotion_eligible term index] in *.
    subst eligible. do 4 (eapply parses_bind; [first [by apply parses_identifier|by apply parses_u64]|]).
    rewrite <- (app_nil_r digest).
    eapply parses_bind; [apply parses_take; unfold len; by rewrite Hd|]. rewrite app_nil_r. apply parses_ret.
  - destruct Ht as [Hid Hi]. cbn [N.eqb Pos.eqb ADMIT_LEARNER PROMOTE_LEARNER REMOVE_MEMBER].
    eapply parses_bind; [by apply parses_identifier|]. rewrite <- (app_nil_r (be_bytes 8 inc)).
    eapply parses_bind; [by apply parses_u64|apply parses_ret].
  - apply parses_ret.
Qed.

Lemma encode_evidence_len c : typed_command c -> len (encode_evidence c) <= 72.
Proof.
  intros [_ Ht]. destruct c; cbn [encode_evidence]; rewrite ?len_app; unfold id_bytes; rewrite ?len_be_bytes; try lia.
  - destruct Ht as (_ & _ & _ & _ & Hd). unfold len. rewrite Hd. lia.
  - done.
Qed.

(** The frame around the record, read back as it was written. *)
Lemma parses_frame c record :
  command_built c -> typed_command c -> validate_command c = Ok tt ->
  Decode.decode record = Ok (snd (command_plan c)) -> len record <= 16391 ->
  parses (version ← CommandCursor.read_u16;
          if negb (version =? FORMAT_VERSION) then raise CommandMalformed
          else
            kind ← CommandCursor.read_u8;
            reserved ← CommandCursor.read_u8;
            if negb (reserved =? 0) then raise CommandMalformed
            else
              plan_length ← CommandCursor.read_u32;
              record ← CommandCursor.read_slice plan_length;
              active ← lift (map_err CommandPlan (Decode.decode record));
              decode_evidence kind active)
    (be_bytes 2 FORMAT_VERSION ++ [fst (command_plan c); 0] ++ be_bytes 4 (len record) ++ record ++ encode_evidence c) c.
Proof.
  intros Hb Ht Hv Hd Hl.
  eapply parses_bind; [by apply (parses_unsigned CommandMalformed 2)|]. cbn [negb N.eqb Pos.eqb FORMAT_VERSION].
  apply parses_byte_bind, parses_byte_bind. cbn [negb N.eqb].
  eapply parses_bind; [apply (parses_unsigned CommandMalformed 4); change (256 ^ N.of_nat 4) with 4294967296; lia|].
  eapply parses_bind; [by apply parses_take|].
  eapply parses_lift; [by rewrite Hd|]. by apply parses_evidence.
Qed.

(** Decoding accepts only commands whose plan is proved and whose shape is valid. *)
Lemma decode_command_cursor_inv c0 c c1 :
  decode_command_cursor c0 = (Ok c, c1) -> validate_command c = Ok tt /\ command_built c.
Proof.
  unfold decode_command_cursor. intros Hr. inv_se. repeat match goal with u : unit |- _ => destruct u end.
  split; [done|]. unfold command_built.
  match goal with HD : Decode.decode _ = Ok ?a |- _ =>
    assert (active_built a) as Hab; [|clear HD] end.
  { match goal with HD : Decode.decode _ = Ok _ |- _ => unfold Decode.decode in HD end. inv_ok.
    destruct (Decode.decode_cursor _) as [r cc] eqn:E. cbn in *. subst r. by eapply decode_cursor_built. }
  match goal with HE : decode_evidence _ ?a _ = _ |- _ => unfold decode_evidence in HE; destruct a as [p|j] end.
  - inv_se. exact Hab.
  - repeat match goal with HE : (if ?b then _ else _) _ = _ |- _ => destruct b eqn:? in HE end; inv_se; exact Hab.
Qed.

End command_roundtrip_facts.

(** Every valid membership command over proved plans is encoded within the 96 KiB
    bound, and decoding its bytes gives back exactly the same command. *)
Theorem membership_command_roundtrip `{Sha256} c :
  command_built c -> typed_command c -> validate_command c = Ok tt ->
  exists b, encode_command c = Ok b /\ decode_command b = Ok c.
Proof.
  intros Hb Ht Hv. destruct (record_roundtrip _ Hb (proj1 Ht)) as (record & He & Hd & Hl).
  pose proof (encode_evidence_len c Ht) as Hev.
  set (b := COMMAND_MAGIC ++ be_bytes 2 FORMAT_VERSION ++ [fst (command_plan c); 0] ++ be_bytes 4 (len record)
            ++ record ++ encode_evidence c).
  assert (len b <= 16475) as Hlen.
  { subst b. rewrite !len_app, !len_be_bytes. unfold len at 1 2. cbn [length COMMAND_MAGIC ascii_bytes]. simpl length. lia. }
  exists b. split.
  - unfold encode_command. rewrite Hv. cbn [mbind result_bind].
    destruct (command_plan c) as [kind active] eqn:Ec. cbn [fst snd] in *. rewrite He. cbn [map_err mbind result_bind].
    rewrite (proj2 (try_narrow_Some u32_max (len record) (len record))) by (unfold u32_max; lia).
    cbn [ok_or mbind result_bind]. fold b. rewrite (proj2 (N.ltb_ge _ _)) by (unfold MAXIMUM_COMMAND_BYTES; lia). done.
  - unfold decode_command. rewrite (proj2 (N.ltb_ge _ _)) by (unfold MAXIMUM_COMMAND_BYTES; lia).
    assert (parses (CommandCursor.read_slice 4) COMMAND_MAGIC COMMAND_MAGIC) as Hmagic by by apply parses_take.
    destruct (Hmagic {| data := b; position := 0 |} (drop 4 b)) as (c1 & E1 & Hc1 & Hu1 & _);
      [split; [apply N.le_0_l|unfold usize_max, u64_max; simpl; lia]|done|].
    destruct (parses_frame c record Hb Ht Hv Hd Hl c1 []) as (c2 & E2 & Hc2 & Hu2 & _); [done|by rewrite app_nil_r|].
    unfold decode_command_cursor. unfold mbind at 1, SE_bind at 1. rewrite E1.
    rewrite bool_decide_eq_true_2 by done. cbn [negb]. revert E2. unfold mbind, SE_bind, lift, get_state.
    repeat match goal with
    | |- (match ?e with _ => _ end) = _ -> _ => destruct e as [[?|?] ?]; [|discriminate]
    | |- (match ?e with _ => _ end) = _ -> _ => destruct e as [?|?]; [|discriminate]
    | |- (if ?e then _ else _) _ = _ -> _ => destruct e; [discriminate|]
    end.
    intros ->. unfold CommandCursor.is_empty. rewrite (unread_nil c2 Hc2 Hu2), N.eqb_refl. cbn [negb]. by rewrite Hv.
Qed.

(** Bytes accepted as a membership command carry a plan proved safe again and
    exactly one admission, promotion, removal or finalisation. *)
Theorem decoded_command_is_valid `{Sha256} b c :
  decode_command b = Ok c -> validate_command c = Ok tt /\ command_built c.
Proof.
  unfold decode_command. intros Hd. inv_ok. destruct (decode_command_cursor _) as [r c1] eqn:E.
  cbn in Hd. subst r. by eapply decode_command_cursor_inv.
Qed.

(** What the planners propose is what the log accepts: a planned removal, admission
    or promotion of a compiled plan always forms a valid membership command over a
    proved joint plan. *)
Theorem planned_transitions_valid `{Sha256} old accepted :
  plan_built old ->
  (forall node inc id r, plan_flat_member_removal old accepted node inc id = Ok r ->
     validate_command (RemoveMember (removal_plan r) node inc) = Ok tt /\ joint_built (removal_plan r)) /\
  (forall candidates id r, plan_next_flat_learner_admission old accepted candidates id = Ok (Some r) ->
     exists inc, candidates !! admitted_node_id r = Some inc /\
       validate_command (AdmitLearner (admission_plan r) (admitted_node_id r) inc) = Ok tt /\
       joint_built (admission_plan r)) /\
  (forall evidence committed digest desired id r,
     plan_next_flat_promotion old accepted evidence committed digest desired id = Ok (Some r) ->
     exists e, evidence !! promoted_node_id r = Some e /\
       validate_command (PromoteLearner (promotion_plan r) e) = Ok tt /\ joint_built (promotion_plan r)).
Proof.
  intros Hold. pose proof Hold as (_ & _ & (_ & _ & _ & Hdisj & _) & _)%compile_plan_inv.
  split_and!.
  - intros node inc id r (_ & Eo & Hj & Hi & _ & Hin & Hv & Hl & Hne)%removal_Ok; [|done]. split; [|done].
    cbn [validate_command]. unfold validate_removal. rewrite Eo, Hv, Hl, (proj2 (N.eqb_neq inc 0)) by done.
    unfold plan_members in Hin. rewrite (bool_decide_eq_false_2 (voters (spec old) ∖ {[node]} = ∅)), (bool_decide_eq_true_2 (voters (spec old) ∖ {[node]} = _)) by done.
    destruct (bool_decide_reflect (node ∈ voters (spec old))).
    + cbn [orb negb]. rewrite bool_decide_eq_true_2 by (apply set_eq; clear - Hdisj e; set_solver). done.
    + cbn [orb negb]. rewrite (bool_decide_eq_true_2 (node ∈ _)) by set_solver. by rewrite bool_decide_eq_true_2.
  - intros candidates id r (Eo & Hj & Hin & (inc & Hc & Hi & _) & _ & Hv & Hl)%admission_Ok; [|done].
    exists inc. split_and!; [done| |done]. cbn [validate_command]. unfold validate_admission.
    unfold plan_members in Hin. rewrite Eo, Hv, Hl, (proj2 (N.eqb_neq inc 0)) by done.
    rewrite bool_decide_eq_false_2 by set_solver. by rewrite !bool_decide_eq_true_2.
  - intros evidence committed digest desired id r (Eo & Hj & Hin & Hc & Hidx & _ & _ & Hv & Hl)%promotion_Ok; [|done].
    unfold caught_up in Hc. destruct (evidence !! promoted_node_id r) as [e|] eqn:Ee; [|done]. bool_cases.
    exists e. split_and!; [done| |done]. cbn [validate_command]. unfold validate_promotion.
    rewrite Eo, Hv, Hl. replace (ev_node_id e) with (promoted_node_id r) by done.
    replace (ev_promotion_eligible e) with true by done.
    rewrite (proj2 (N.eqb_neq (ev_incarnation e) 0)) by done.
    rewrite (bool_decide_eq_false_2 (_ = GENESIS)) by (intros E; subst; rewrite E in Hidx; done).
    rewrite (bool_decide_eq_true_2 (_ ∈ learners _)), (bool_decide_eq_false_2 (_ ∈ voters _)) by set_solver.
    by rewrite !bool_decide_eq_true_2.
Qed.

(** ** Sample commands *)

Module SampleCommand.
Definition incarnations : gmap N N := {[1 := 1; 2 := 1; 3 := 5; 4 := 2]}.
(** Removing voter 3 from the three-voter plan. *)
Definition removal : option MembershipTransitionCommand :=
  match @compile_plan Sample.sha Sample.three_voters with
  | Ok p => match @plan_flat_member_removal Sample.sha p incarnations 3 5 11 with
            | Ok r => Some (RemoveMember (removal_plan r) 3 5)
            | Err _ => None
            end
  | Err _ => None
  end.
Definition finalise : option MembershipTransitionCommand :=
  match @compile_plan Sample.sha Sample.three_voters with
  | Ok p => Some (FinaliseStable p)
  | Err _ => None
  end.
End SampleCommand.

Lemma membership_command_roundtrip_witness :
  exists c b, SampleCommand.finalise = Some c /\ encode_command c = Ok b /\ @decode_command Sample.sha b = Ok c.
Proof.
  unfold SampleCommand.finalise.
  destruct (@compile_plan Sample.sha Sample.three_voters) as [p|e] eqn:E; [|vm_compute in E; discriminate E].
  exists (FinaliseStable p).
  destruct (@membership_command_roundtrip Sample.sha (FinaliseStable p)) as (b & H1 & H2).
  - exact (@compile_plan_built Sample.sha _ _ E).
  - split; [|exact I]. cbn [command_plan snd typed_active].
    pose proof (@compile_plan_inv Sample.sha _ _ E) as [-> _]. exact sample_typed.
  - reflexivity.
  - exists b. auto.
Defined.

Definition sample_removal_bytes : bytes :=
  match SampleCommand.removal with
  | Some c => match encode_command c with Ok b => b | Err _ => [] end
  | None => []
  end.

Lemma decoded_command_is_valid_witness :
  exists c, @decode_command Sample.sha sample_removal_bytes = Ok c /\ validate_command c = Ok tt.
Proof.
  destruct (@decode_command Sample.sha sample_removal_bytes) as [c|e] eqn:E; [|vm_compute in E; discriminate E].
  exists c. split; [reflexivity|]. exact (proj1 (@decoded_command_is_valid Sample.sha sample_removal_bytes c E)).
Defined.

Lemma planned_transitions_valid_witness :
  exists p r, @compile_plan Sample.sha Sample.three_voters = Ok p /\
    @plan_next_flat_learner_admission Sample.sha p SampleCommand.incarnations {[9 := 3]} 12 = Ok (Some r) /\
    validate_command (AdmitLearner (admission_plan r) (admitted_node_id r) 3) = Ok tt.
Proof.
  destruct (@compile_plan Sample.sha Sample.three_voters) as [p|e] eqn:E; [|vm_compute in E; discriminate E].
  destruct (@plan_next_flat_learner_admission Sample.sha p SampleCommand.incarnations {[9 := 3]} 12)
    as [[r|]|e] eqn:Er.
  - exists p, r. split_and!; [done|done|].
    destruct (@planned_transitions_valid Sample.sha p SampleCommand.incarnations) as (_ & Hadm & _);
      [exact (@compile_plan_built Sample.sha _ _ E)|].
    destruct (Hadm _ _ _ Er) as (inc & Hi & Hv & _).
    apply lookup_singleton_Some in Hi as [_ Hi]. rewrite <- Hi in Hv. exact Hv.
  - exfalso. vm_compute in E. injection E as <-. vm_compute in Er. discriminate Er.
  - exfalso. vm_compute in E. injection E as <-. vm_compute in Er. discriminate Er.
Defined.
