(* ===== verification/Probes.v ===== *)
(** Append probes of one peer: core/append_probes.rs. Replication progress and leader
    contact are correlated with the exact request that asked for them. *)

From S2P Require Import Prelude Types.
From stdpp Require Import prelude gmap.
#[local] Open Scope N_scope.

Definition MAXIMUM_PROBES_PER_LANE : N := 64.

Inductive ProbeKind := Replication | Contact.

Record AppendProbe := {
  probe_previous : LogPosition;
  probe_previous_digest : bytes;
  probe_through : LogPosition;
  probe_digest : bytes;
  probe_read_barrier_id : option ReadBarrierId;
}.

#[export] Instance AppendProbe_eq_dec : EqDecision AppendProbe.
Proof. solve_decision. Defined.

Record AppendProbes := {
  replication : gmap AppendProbeId AppendProbe;
  contacts : gmap AppendProbeId AppendProbe;
  latest_replication : option AppendProbeId;
}.

Inductive ProbeResult :=
| Matched (index : N)
| Conflict (previous_index : N) (latest : bool)
| ContactResult.

Definition probes_default : AppendProbes :=
  {| replication := ∅; contacts := ∅; latest_replication := None |}.

(** [BTreeMap::pop_first]. *)
Definition pop_first {V} (m : gmap N V) : gmap N V :=
  match ascending (dom m) with
  | [] => m
  | k :: _ => delete k m
  end.

(** Insert, then drop the oldest probe of the lane when it holds more than 64. *)
Definition insert_bounded (id : AppendProbeId) (p : AppendProbe) (lane : gmap AppendProbeId AppendProbe)
    : gmap AppendProbeId AppendProbe :=
  let lane := <[id := p]> lane in
  if MAXIMUM_PROBES_PER_LANE <? N.of_nat (size lane) then pop_first lane else lane.

Section probes.
Context `{Sha256}.

Definition probe_from_request (request : AppendRequest) : AppendProbe :=
  let '(through, digest) :=
    match last (aq_entries request) with
    | Some e => (entry_position e, entry_digest e)
    | None => (aq_previous request, aq_previous_digest request)
    end in
  {| probe_previous := aq_previous request;
     probe_previous_digest := aq_previous_digest request;
     probe_through := through;
     probe_digest := digest;
     probe_read_barrier_id := aq_read_barrier_id request |}.

Definition replication_id (self : AppendProbes) (request : AppendRequest) : option AppendProbeId :=
  let proof := probe_from_request request in
  fst <$> List.find (fun '(_, existing) => bool_decide (existing = proof)) (ascending_map (replication self)).

Definition sent (self : AppendProbes) (request : AppendRequest) (kind : ProbeKind) : AppendProbes :=
  match kind with
  | Replication =>
      {| replication := insert_bounded (aq_probe_id request) (probe_from_request request) (replication self);
         contacts := contacts self;
         latest_replication := Some (aq_probe_id request) |}
  | Contact =>
      {| replication := replication self;
         contacts := insert_bounded (aq_probe_id request) (probe_from_request request) (contacts self);
         latest_replication := latest_replication self |}
  end.

End probes.

(** The evidence checks of [receive], for the probe being answered. *)
Definition response_agrees (response : AppendResponse) (probe : AppendProbe) : bool :=
  bool_decide (ar_read_barrier_id response = probe_read_barrier_id probe)
  && (if ar_accepted response
      then (ar_matched_index response =? index (probe_through probe))
           && bool_decide (ar_matched_digest response = probe_digest probe)
      else (ar_matched_index response =? 0) && bool_decide (ar_matched_digest response = zero32)).

Definition receive_probe (self : AppendProbes) (response : AppendResponse)
    : result CoreError (option ProbeResult * AppendProbes) :=
  match ar_probe_id response with
  | None => Ok (None, self)
  | Some id =>
      match replication self !! id with
      | Some probe =>
          if negb (response_agrees response probe) then Err InvalidInput
          else
            Ok (Some (if ar_accepted response then Matched (index (probe_through probe))
                      else Conflict (index (probe_previous probe)) (bool_decide (latest_replication self = Some id))),
                {| replication := delete id (replication self); contacts := contacts self;
                   latest_replication := latest_replication self |})
      | None =>
          match contacts self !! id with
          | Some probe =>
              if negb (response_agrees response probe) then Err InvalidInput
              else Ok (Some ContactResult,
                       {| replication := replication self; contacts := delete id (contacts self);
                          latest_replication := latest_replication self |})
          | None => Ok (None, self)
          end
      end
  end.

(** ** Lanes stay bounded *)

Definition lanes_bounded (self : AppendProbes) : Prop :=
  N.of_nat (size (replication self)) <= MAXIMUM_PROBES_PER_LANE /\
  N.of_nat (size (contacts self)) <= MAXIMUM_PROBES_PER_LANE.

Lemma insert_bounded_size id p lane :
  N.of_nat (size lane) <= MAXIMUM_PROBES_PER_LANE ->
  N.of_nat (size (insert_bounded id p lane)) <= MAXIMUM_PROBES_PER_LANE.
Proof.
  intros Hs. unfold insert_bounded.
  destruct (N.ltb_spec MAXIMUM_PROBES_PER_LANE (N.of_nat (size (<[id:=p]> lane)))) as [Hgt|]; [|lia].
  unfold pop_first. destruct (ascending (dom (<[id:=p]> lane))) as [|k rest] eqn:E.
  - exfalso. assert (id ∈ ascending (dom (<[id:=p]> lane))) as Hin by (apply elem_of_ascending; set_solver).
    rewrite E in Hin. set_solver.
  - assert (k ∈ dom (<[id:=p]> lane)) as Hk by (apply elem_of_ascending; rewrite E; by left).
    apply elem_of_dom in Hk as [v Hv]. rewrite map_size_delete_Some by eauto.
    pose proof (map_size_insert id p lane) as Hsz. unfold MAXIMUM_PROBES_PER_LANE in *; destruct (lane !! id); unfold Datatypes.id in Hsz; lia.
Qed.

Lemma sent_bounded `{Sha256} self request kind :
  lanes_bounded self -> lanes_bounded (sent self request kind).
Proof. intros [Hr Hc]. destruct kind; split; cbn; auto using insert_bounded_size. Qed.

Lemma receive_bounded self response r self' :
  lanes_bounded self -> receive_probe self response = Ok (r, self') -> lanes_bounded self'.
Proof.
  intros [Hr Hc] Hrun. unfold receive_probe in Hrun.
  destruct (ar_probe_id response) as [id|]; [|by simplify_eq].
  assert (forall lane : gmap AppendProbeId AppendProbe, N.of_nat (size lane) <= MAXIMUM_PROBES_PER_LANE ->
    N.of_nat (size (delete id lane)) <= MAXIMUM_PROBES_PER_LANE) as Hd.
  { intros lane Hl. rewrite map_size_delete. destruct (lane !! id); unfold Datatypes.id; lia. }
  destruct (replication self !! id); [|destruct (contacts self !! id); [|by simplify_eq]];
    inv_ok; simplify_eq; split; cbn; auto.
Qed.

(** ** What a matched probe proves *)

(** A response counts as replication progress only for an outstanding replication
    probe, accepted with exactly the index and the digest that probe asked for. *)
Lemma receive_matched self response i self' :
  receive_probe self response = Ok (Some (Matched i), self') ->
  exists id probe, ar_probe_id response = Some id /\ replication self !! id = Some probe /\
    i = index (probe_through probe) /\ ar_accepted response = true /\
    ar_matched_index response = i /\ ar_matched_digest response = probe_digest probe /\
    replication self' !! id = None.
Proof.
  unfold receive_probe. destruct (ar_probe_id response) as [id|]; [|by intros [=]].
  destruct (replication self !! id) as [probe|] eqn:E; [|by destruct (contacts self !! id); intros Hr; inv_ok].
  intros Hr. inv_ok. bool_cases. destruct (ar_accepted response) eqn:Ea; simplify_eq.
  match goal with HA : response_agrees _ _ = true |- _ => unfold response_agrees in HA; rewrite Ea in HA end.
  bool_cases. exists id, probe. split_and!; auto. cbn. by rewrite lookup_delete_eq.
Qed.

(** A probe answers once: replaying the response finds nothing outstanding. *)
Lemma receive_once self response r self' :
  (forall id, replication self !! id <> None -> contacts self !! id = None) ->
  receive_probe self response = Ok (Some r, self') -> receive_probe self' response = Ok (None, self').
Proof.
  intros Hdisj. unfold receive_probe. destruct (ar_probe_id response) as [id|]; [|by intros [=]].
  destruct (replication self !! id) as [probe|] eqn:E.
  - intros Hr. inv_ok. simplify_eq. cbn. rewrite lookup_delete_eq. rewrite Hdisj by congruence. done.
  - destruct (contacts self !! id) as [probe|] eqn:Ec; [|by intros [=]].
    intros Hr. inv_ok. simplify_eq. cbn. by rewrite E, lookup_delete_eq.
Qed.
