(* ===== verification/History.v ===== *)
(** Committed phase boundaries: core/membership_history.rs. *)

From S2P Require Import Prelude Predicate Plan FlatPlan Joint Types MembershipCommand.
From stdpp Require Import prelude gmap.
#[local] Open Scope N_scope.

Record PhaseBoundary := { boundary_plan : ActiveQuorumPlan; boundary_position : LogPosition }.

(** [MembershipHistory]: its [boundaries] by membership epoch and plan digest. *)
Abbreviation MembershipHistory := (gmap (N * bytes) PhaseBoundary) (only parsing).

Definition phase_change (c : MembershipTransitionCommand) (previous_successor : option ActiveQuorumPlan)
    : result CoreError (ActiveQuorumPlan * ActiveQuorumPlan) :=
  match c with
  | AdmitLearner j _ _ | PromoteLearner j _ | RemoveMember j _ _ =>
      let previous := Stable (old_plan j) in
      if match previous_successor with Some p => negb (bool_decide (p = previous)) | None => false end
      then Err InvalidConfiguration
      else Ok (previous, JointPhase j)
  | FinaliseStable p =>
      match previous_successor with
      | Some (JointPhase j) =>
          if negb (bool_decide (new_plan j = p)) then Err InvalidConfiguration
          else Ok (JointPhase j, Stable p)
      | _ => Err InvalidConfiguration
      end
  end.

Module History.

Definition record (h : MembershipHistory) (plan : ActiveQuorumPlan) (committed : LogPosition) : MembershipHistory :=
  <[(Active.membership_epoch plan, Active.proof_digest plan) :=
      {| boundary_plan := plan; boundary_position := committed |}]> h.

Definition find (h : MembershipHistory) (epoch : N) (digest : bytes) : option PhaseBoundary := h !! (epoch, digest).

(** The loop of [restore] over the applied entries. *)
Fixpoint replay `{Sha256} (log : list LogEntry) (applied_index : N) (h : MembershipHistory)
    (previous_successor : option ActiveQuorumPlan)
    : result CoreError (MembershipHistory * option ActiveQuorumPlan) :=
  match log with
  | [] => Ok (h, previous_successor)
  | e :: rest =>
      if negb (index (entry_position e) <=? applied_index) then Ok (h, previous_successor)
      else if negb (command_version e =? MEMBERSHIP_COMMAND_VERSION)
      then replay rest applied_index h previous_successor
      else
        c ← map_err (fun _ => InvalidConfiguration) (decode_command (command e));
        '(previous, successor) ← phase_change c previous_successor;
        replay rest applied_index (record h previous (entry_position e)) (Some successor)
  end.

Definition restore `{Sha256} (log : list LogEntry) (applied_index : N) (active : ActiveQuorumPlan)
    : result CoreError MembershipHistory :=
  '(h, successor) ← replay log applied_index ∅ None;
  if match successor with Some p => negb (bool_decide (p = active)) | None => false end
  then Err InvalidConfiguration
  else Ok h.

End History.

(** ** Replayed boundaries are committed and proved *)

Section history_facts.
Context `{Sha256}.

(** Every boundary lies at an applied log entry and carries a proved plan. *)
Definition history_ok (h : MembershipHistory) (log : list LogEntry) (applied : N) : Prop :=
  forall k b, h !! k = Some b ->
    k = (Active.membership_epoch (boundary_plan b), Active.proof_digest (boundary_plan b)) /\
    active_built (boundary_plan b) /\
    exists e, e ∈ log /\ entry_position e = boundary_position b /\ index (boundary_position b) <= applied.

Lemma record_ok h log applied plan e :
  history_ok h log applied -> active_built plan -> e ∈ log -> index (entry_position e) <= applied ->
  history_ok (History.record h plan (entry_position e)) log applied.
Proof.
  intros Hh Hp He Hi k b. unfold History.record. rewrite lookup_insert_Some.
  intros [[<- <-]|[_ Hb]]; [cbn; split_and!; eauto|by apply Hh].
Qed.

Lemma phase_change_built c prev previous successor :
  command_built c -> (forall p, prev = Some p -> active_built p) ->
  phase_change c prev = Ok (previous, successor) -> active_built previous /\ active_built successor.
Proof.
  intros Hc Hp Hch. unfold command_built in Hc.
  destruct c as [j n i|j e|j n i|p]; cbn [command_plan snd active_built phase_change] in *.
  1-3: inv_ok; simplify_eq; cbn; split; [apply Hc|exact Hc].
  destruct prev as [[q|j]|]; inv_ok; simplify_eq. split; [by apply Hp|exact Hc].
Qed.

Lemma decode_command_built b c : decode_command b = Ok c -> command_built c.
Proof.
  unfold decode_command. intros Hd. inv_ok. destruct (decode_command_cursor _) as [r c1] eqn:E.
  cbn in Hd. subst r. by apply decode_command_cursor_inv in E as [_ ?].
Qed.

Lemma replay_ok all log applied h prev h' successor :
  (forall e, e ∈ log -> e ∈ all) -> history_ok h all applied -> (forall p, prev = Some p -> active_built p) ->
  History.replay log applied h prev = Ok (h', successor) -> history_ok h' all applied.
Proof.
  revert h prev. induction log as [|e log IH]; intros h prev Hsub Hh Hp Hr; cbn [History.replay] in Hr.
  - by simplify_eq.
  - destruct (N.leb_spec (index (entry_position e)) applied); cbn [negb] in Hr; [|by simplify_eq].
    destruct (negb _); [eapply IH; eauto; set_solver|].
    apply result_bind_Ok in Hr as (c & Hc & Hr). apply map_err_Ok in Hc.
    apply result_bind_Ok in Hr as ([previous succ] & Hch & Hr).
    destruct (phase_change_built c prev previous succ (decode_command_built _ _ Hc) Hp Hch) as [Hb1 Hb2].
    eapply IH; [| | |exact Hr]; [set_solver| |by intros p [= <-]].
    apply record_ok; auto. apply Hsub. by left.
Qed.

End history_facts.

(** A history restored from a durable log only knows phases that were committed: each
    boundary is a proved plan, filed under its own epoch and digest, at the position of
    a log entry the state machine had already applied. *)
Theorem restored_history_is_applied `{Sha256} log applied active h :
  History.restore log applied active = Ok h -> history_ok h log applied.
Proof.
  unfold History.restore. intros Hr. apply result_bind_Ok in Hr as ([h' successor] & Hrep & Hr). inv_ok.
  eapply replay_ok; [done| | |exact Hrep]; [intros k b Hb; by rewrite lookup_empty in Hb|done].
Qed.


Module SampleHistory.
Definition entry : LogEntry :=
  {| entry_position := {| term := 1; index := 1 |}; operation_id := 5;
     command_version := MEMBERSHIP_COMMAND_VERSION; command := sample_removal_bytes;
     command_digest := @command_digest_of Sample.sha MEMBERSHIP_COMMAND_VERSION sample_removal_bytes |}.
End SampleHistory.

Lemma restored_history_is_applied_witness :
  exists c j n i h, SampleCommand.removal = Some c /\ c = RemoveMember j n i /\
    @History.restore Sample.sha [SampleHistory.entry] 1 (JointPhase j) = Ok h /\
    @history_ok Sample.sha h [SampleHistory.entry] 1.
Proof.
  assert (match SampleCommand.removal with
          | Some (RemoveMember j n i) => is_ok (@History.restore Sample.sha [SampleHistory.entry] 1 (JointPhase j))
          | _ => false
          end = true) as Hok by (vm_compute; reflexivity).
  destruct SampleCommand.removal as [[j n i|j e|j n i|p]|];
    [discriminate Hok|discriminate Hok| |discriminate Hok|discriminate Hok].
  destruct (@History.restore Sample.sha [SampleHistory.entry] 1 (JointPhase j)) as [h|er] eqn:Er; [|discriminate Hok].
  exists (RemoveMember j n i), j, n, i, h. split_and!; [reflexivity|reflexivity|exact Er|].
  exact (@restored_history_is_applied Sample.sha [SampleHistory.entry] 1 (JointPhase j) h Er).
Defined.
