(* ===== verification/Core.v ===== *)
(** The deterministic consensus core: core/state.rs with core/state/membership_replay.rs.
    A method on [&mut self] is a computation in [Core]: an error leaves in place
    whatever the method had already changed. *)

From Stdlib Require Import String.
From S2P Require Import Prelude VoterSet Predicate Plan Digest Compile FlatPlan Joint Types Membership MembershipCommand Probes History.
From stdpp Require Import prelude gmap.
#[local] Open Scope N_scope.

Definition MAXIMUM_PENDING_READ_BARRIERS : N := 1024.

(** ** State *)

Record ReadBarrierState := {
  acknowledgements : gset NodeId;
  required_applied_index : option N;
  quorum_confirmed : bool;
}.

Record LeaderState := {
  probes : gmap NodeId AppendProbes;
  matched : gmap NodeId N;
  next : gmap NodeId N;
  read_barriers : gmap ReadBarrierId ReadBarrierState;
}.

Inductive RoleState :=
| Following
| Campaigning (votes : gset NodeId)
| Leading (leader : LeaderState).

Inductive AfterPersistence :=
| Campaign
| VoteReply (to : NodeId) (granted : bool)
| AppendReply (to leader : NodeId) (leader_commit_index : N) (reply : AppendResponse)
| Proposal (proposal_id : ProposalId) (position : LogPosition)
| StepDown
| PrefixReply (from : NodeId) (committed_index : N)
| ActivateJoint (joint : JointQuorumPlan) (incarnations : MemberIncarnations)
| ActivateStable (stable : CompiledQuorumPlan) (incarnations : MemberIncarnations).

Record PendingPersistence := {
  pending_id : PersistenceId;
  mutation : DurableMutation;
  action : AfterPersistence;
}.

Record ConsensusCore := {
  config : CoreConfig;
  active_plan : ActiveQuorumPlan;
  membership_history : MembershipHistory;
  current_term : N;
  voted_for : option NodeId;
  log : list LogEntry;
  commit_index : N;
  applied_index : N;
  leader_id : option NodeId;
  role : RoleState;
  pending : option PendingPersistence;
  next_persistence_id : N;
  next_append_probe_id : N;
  replication_default : ReplicationBatchBudget;
  replication_peers : gmap NodeId ReplicationBatchBudget;
}.

Definition with_history (h : MembershipHistory) (c : ConsensusCore) : ConsensusCore :=
  {| config := config c; active_plan := active_plan c; membership_history := h; current_term :=
     current_term c; voted_for := voted_for c; log := log c; commit_index := commit_index c;
     applied_index := applied_index c; leader_id := leader_id c; role := role c; pending := pending
     c; next_persistence_id := next_persistence_id c; next_append_probe_id := next_append_probe_id
     c; replication_default := replication_default c; replication_peers := replication_peers c |}.

Definition with_plan (p : ActiveQuorumPlan) (c : ConsensusCore) : ConsensusCore :=
  {| config := config c; active_plan := p; membership_history := membership_history c; current_term
     := current_term c; voted_for := voted_for c; log := log c; commit_index := commit_index c;
     applied_index := applied_index c; leader_id := leader_id c; role := role c; pending := pending
     c; next_persistence_id := next_persistence_id c; next_append_probe_id := next_append_probe_id
     c; replication_default := replication_default c; replication_peers := replication_peers c |}.

Definition with_config (g : CoreConfig) (c : ConsensusCore) : ConsensusCore :=
  {| config := g; active_plan := active_plan c; membership_history := membership_history c;
     current_term := current_term c; voted_for := voted_for c; log := log c; commit_index :=
     commit_index c; applied_index := applied_index c; leader_id := leader_id c; role := role c;
     pending := pending c; next_persistence_id := next_persistence_id c; next_append_probe_id :=
     next_append_probe_id c; replication_default := replication_default c; replication_peers :=
     replication_peers c |}.

Definition with_vote (t : N) (v : option NodeId) (c : ConsensusCore) : ConsensusCore :=
  {| config := config c; active_plan := active_plan c; membership_history := membership_history c;
     current_term := t; voted_for := v; log := log c; commit_index := commit_index c; applied_index
     := applied_index c; leader_id := leader_id c; role := role c; pending := pending c;
     next_persistence_id := next_persistence_id c; next_append_probe_id := next_append_probe_id c;
     replication_default := replication_default c; replication_peers := replication_peers c |}.

Definition with_log (l : list LogEntry) (c : ConsensusCore) : ConsensusCore :=
  {| config := config c; active_plan := active_plan c; membership_history := membership_history c;
     current_term := current_term c; voted_for := voted_for c; log := l; commit_index :=
     commit_index c; applied_index := applied_index c; leader_id := leader_id c; role := role c;
     pending := pending c; next_persistence_id := next_persistence_id c; next_append_probe_id :=
     next_append_probe_id c; replication_default := replication_default c; replication_peers :=
     replication_peers c |}.

Definition with_commit (i : N) (c : ConsensusCore) : ConsensusCore :=
  {| config := config c; active_plan := active_plan c; membership_history := membership_history c;
     current_term := current_term c; voted_for := voted_for c; log := log c; commit_index := i;
     applied_index := applied_index c; leader_id := leader_id c; role := role c; pending := pending
     c; next_persistence_id := next_persistence_id c; next_append_probe_id := next_append_probe_id
     c; replication_default := replication_default c; replication_peers := replication_peers c |}.

Definition with_applied (i : N) (c : ConsensusCore) : ConsensusCore :=
  {| config := config c; active_plan := active_plan c; membership_history := membership_history c;
     current_term := current_term c; voted_for := voted_for c; log := log c; commit_index :=
     commit_index c; applied_index := i; leader_id := leader_id c; role := role c; pending :=
     pending c; next_persistence_id := next_persistence_id c; next_append_probe_id :=
     next_append_probe_id c; replication_default := replication_default c; replication_peers :=
     replication_peers c |}.

Definition with_role (r : RoleState) (c : ConsensusCore) : ConsensusCore :=
  {| config := config c; active_plan := active_plan c; membership_history := membership_history c;
     current_term := current_term c; voted_for := voted_for c; log := log c; commit_index :=
     commit_index c; applied_index := applied_index c; leader_id := leader_id c; role := r; pending
     := pending c; next_persistence_id := next_persistence_id c; next_append_probe_id :=
     next_append_probe_id c; replication_default := replication_default c; replication_peers :=
     replication_peers c |}.

Definition with_leader_id (l : option NodeId) (c : ConsensusCore) : ConsensusCore :=
  {| config := config c; active_plan := active_plan c; membership_history := membership_history c;
     current_term := current_term c; voted_for := voted_for c; log := log c; commit_index :=
     commit_index c; applied_index := applied_index c; leader_id := l; role := role c; pending :=
     pending c; next_persistence_id := next_persistence_id c; next_append_probe_id :=
     next_append_probe_id c; replication_default := replication_default c; replication_peers :=
     replication_peers c |}.

Definition with_pending (p : option PendingPersistence) (c : ConsensusCore) : ConsensusCore :=
  {| config := config c; active_plan := active_plan c; membership_history := membership_history c;
     current_term := current_term c; voted_for := voted_for c; log := log c; commit_index :=
     commit_index c; applied_index := applied_index c; leader_id := leader_id c; role := role c;
     pending := p; next_persistence_id := next_persistence_id c; next_append_probe_id :=
     next_append_probe_id c; replication_default := replication_default c; replication_peers :=
     replication_peers c |}.

Definition with_next_persistence_id (n : N) (c : ConsensusCore) : ConsensusCore :=
  {| config := config c; active_plan := active_plan c; membership_history := membership_history c;
     current_term := current_term c; voted_for := voted_for c; log := log c; commit_index :=
     commit_index c; applied_index := applied_index c; leader_id := leader_id c; role := role c;
     pending := pending c; next_persistence_id := n; next_append_probe_id := next_append_probe_id c;
     replication_default := replication_default c; replication_peers := replication_peers c |}.

Definition with_next_append_probe_id (n : N) (c : ConsensusCore) : ConsensusCore :=
  {| config := config c; active_plan := active_plan c; membership_history := membership_history c;
     current_term := current_term c; voted_for := voted_for c; log := log c; commit_index :=
     commit_index c; applied_index := applied_index c; leader_id := leader_id c; role := role c;
     pending := pending c; next_persistence_id := next_persistence_id c; next_append_probe_id := n;
     replication_default := replication_default c; replication_peers := replication_peers c |}.

Definition with_budgets (d : ReplicationBatchBudget) (p : gmap NodeId ReplicationBatchBudget) (c : ConsensusCore) : ConsensusCore :=
  {| config := config c; active_plan := active_plan c; membership_history := membership_history c;
     current_term := current_term c; voted_for := voted_for c; log := log c; commit_index :=
     commit_index c; applied_index := applied_index c; leader_id := leader_id c; role := role c;
     pending := pending c; next_persistence_id := next_persistence_id c; next_append_probe_id :=
     next_append_probe_id c; replication_default := d; replication_peers := p |}.

Definition clear_replication_budget_overrides (c : ConsensusCore) : ConsensusCore :=
  with_budgets (replication_default c) ∅ c.

Abbreviation Core A := (SE ConsensusCore CoreError A).

(** ** Queries on [&self] *)

Definition role_of (c : ConsensusCore) : Role :=
  match role c with Following => Follower | Campaigning _ => Candidate | Leading _ => Leader end.

Definition local_id (c : ConsensusCore) : NodeId := local_node_id (config c).

Definition active_satisfies (c : ConsensusCore) (f : QuorumFamily) (acks : gset NodeId) : bool :=
  Active.satisfies (active_plan c) f acks.
Definition active_membership_epoch (c : ConsensusCore) : N := Active.membership_epoch (active_plan c).
Definition active_plan_digest (c : ConsensusCore) : bytes := Active.proof_digest (active_plan c).
Definition active_voters (c : ConsensusCore) : gset NodeId := Active.voters_ (active_plan c).
Definition active_members (c : ConsensusCore) : gset NodeId := Active.members (active_plan c).
Definition active_eligible_leaders (c : ConsensusCore) : gset NodeId := Active.eligible (active_plan c).

Definition local_is_eligible_leader (c : ConsensusCore) : bool :=
  bool_decide (local_id c ∈ active_eligible_leaders c).
Definition is_local_voter (c : ConsensusCore) : bool := bool_decide (local_id c ∈ active_voters c).

(** [members] and [peers]: every active member, without the local node. *)
Definition peers (c : ConsensusCore) : gset NodeId := active_members c ∖ {[local_id c]}.

Definition last_position (c : ConsensusCore) : LogPosition :=
  match last (log c) with Some e => entry_position e | None => GENESIS end.

Definition entry (c : ConsensusCore) (i : N) : option LogEntry :=
  offset ← checked_sub i 1;
  e ← nth_N (log c) offset;
  if index (entry_position e) =? i then Some e else None.

Definition committed_entry (c : ConsensusCore) : option LogEntry :=
  if 0 <? commit_index c then entry c (commit_index c) else None.

Definition peer_matched_index (c : ConsensusCore) (node : NodeId) : option N :=
  match role c with Leading l => matched l !! node | _ => None end.

Definition validate_sender (c : ConsensusCore) (node : NodeId) (incarnation : N) : result CoreError unit :=
  if bool_decide (Incarnations.incarnation (member_incarnations (config c)) node = Some incarnation)
  then Ok tt else Err StaleMember.

Definition validate_plan (c : ConsensusCore) (epoch : N) (digest : bytes) : result CoreError unit :=
  if (epoch =? active_membership_epoch c) && bool_decide (digest = active_plan_digest c)
  then Ok tt else Err StaleMember.

Definition member_incarnation (c : ConsensusCore) (node : NodeId) : result CoreError N :=
  ok_or (Incarnations.incarnation (member_incarnations (config c)) node) StaleMember.

Definition validate_applied_transition_position (c : ConsensusCore) (at_ : LogPosition) : result CoreError unit :=
  if bool_decide (at_ = GENESIS) || (applied_index c <? index at_)
     || match entry c (index at_) with
        | None => true
        | Some e => negb (term (entry_position e) =? term at_)
        end
  then Err InvalidInput
  else Ok tt.

(** ** Messages built from the current state *)

Definition vote_effect (c : ConsensusCore) (to : NodeId) (granted : bool) : CoreEffect :=
  Send to (MVoteResponse {| vr_term := current_term c; vr_granted := granted;
                            vr_epoch := active_membership_epoch c; vr_plan_digest := active_plan_digest c |}).

Definition append_reply_effect (c : ConsensusCore) (to : NodeId) (reply : AppendResponse) : CoreEffect :=
  Send to (MAppendResponse
    {| ar_probe_id := ar_probe_id reply; ar_matched_digest := ar_matched_digest reply;
       ar_term := current_term c; ar_accepted := ar_accepted reply;
       ar_matched_index := ar_matched_index reply; ar_next_index_hint := ar_next_index_hint reply;
       ar_read_barrier_id := ar_read_barrier_id reply; ar_epoch := ar_epoch reply;
       ar_plan_digest := ar_plan_digest reply |}).

Definition membership_notice (c : ConsensusCore) : AppendResponse :=
  {| ar_probe_id := None; ar_matched_digest := zero32; ar_term := current_term c; ar_accepted := false;
     ar_matched_index := 0;
     ar_next_index_hint := N.max (saturating_add u64_max (index (last_position c)) 1) 1;
     ar_read_barrier_id := None; ar_epoch := active_membership_epoch c;
     ar_plan_digest := active_plan_digest c |}.

Definition membership_notice_effect (c : ConsensusCore) (to : NodeId) : CoreEffect :=
  Send to (MAppendResponse (membership_notice c)).

(** [scan] of [replication_entries]: entries while both byte budgets last. *)
Fixpoint scan_budget (overhead remaining frame : N) (entries : list LogEntry) : list LogEntry :=
  match entries with
  | [] => []
  | e :: rest =>
      match checked_add usize_max (len (command e)) overhead with
      | None => []
      | Some framed =>
          match checked_sub remaining (len (command e)), checked_sub frame framed with
          | Some remaining', Some frame' => e :: scan_budget overhead remaining' frame' rest
          | _, _ => []
          end
      end
  end.

Definition replication_entries (c : ConsensusCore) (peer : NodeId) (start stop : N) : list LogEntry :=
  let budget := default (replication_default c) (replication_peers c !! peer) in
  scan_budget (entry_overhead budget) MAXIMUM_APPEND_COMMAND_BYTES (max_bytes budget)
    (take (N.to_nat MAXIMUM_APPEND_ENTRIES)
      (filter (fun e => start <= index (entry_position e) /\ index (entry_position e) <= stop) (log c))).

Definition commit_effects (c : ConsensusCore) (old_commit : N) : result CoreError (list CoreEffect) :=
  if commit_index c <=? old_commit then Ok []
  else
    entries ← mapM (fun i => ok_or (entry c i) InvalidInput) (range (old_commit + 1) (commit_index c + 1));
    Ok [CommitReady entries].

(** [BTreeMap::entry(k).or_insert(v)]. *)
Definition or_insert {V} (k : N) (v : V) (m : gmap N V) : gmap N V :=
  match m !! k with Some _ => m | None => <[k := v]> m end.

Section core.
Context `{Sha256}.

Definition position_matches (c : ConsensusCore) (p : LogPosition) (digest : bytes) : bool :=
  if bool_decide (p = GENESIS) then bool_decide (digest = zero32)
  else match entry c (index p) with
       | Some e => (term (entry_position e) =? term p) && bool_decide (entry_digest e = digest)
       | None => false
       end.

(** Which suffix of [incoming] is missing here, and where a conflict starts. *)
Fixpoint log_delta (c : ConsensusCore) (incoming : list LogEntry) : result CoreError (option N * list LogEntry) :=
  match incoming with
  | [] => Ok (None, [])
  | e :: rest =>
      match entry c (index (entry_position e)) with
      | Some existing =>
          if (term (entry_position existing) =? term (entry_position e))
             && bool_decide (entry_digest existing = entry_digest e)
          then log_delta c rest
          else if index (entry_position e) <=? commit_index c then Err InvalidInput
          else Ok (Some (index (entry_position e)), incoming)
      | None => Ok (None, incoming)
      end
  end.

Definition append_reply (c : ConsensusCore) (request : AppendRequest) (accepted : bool) : AppendResponse :=
  let proven_index := match last (aq_entries request) with
                      | Some e => index (entry_position e)
                      | None => index (aq_previous request)
                      end in
  {| ar_probe_id := Some (aq_probe_id request);
     ar_matched_digest :=
       if accepted
       then match last (aq_entries request) with
            | Some e => entry_digest e
            | None => aq_previous_digest request
            end
       else zero32;
     ar_term := current_term c;
     ar_accepted := accepted;
     ar_matched_index := if accepted then proven_index else 0;
     ar_next_index_hint :=
       if accepted then N.max (saturating_add u64_max proven_index 1) 1
       else N.max (N.min (index (aq_previous request))
                     (saturating_add u64_max (index (last_position c)) 1)) 1;
     ar_read_barrier_id := aq_read_barrier_id request;
     ar_epoch := active_membership_epoch c;
     ar_plan_digest := active_plan_digest c |}.

(** ** Construction *)

Fixpoint validate_durable_log (durable_term previous_term expected : N) (l : list LogEntry) : result CoreError unit :=
  match l with
  | [] => Ok tt
  | e :: rest =>
      _ ← validate_entry e;
      if negb (index (entry_position e) =? expected) || (durable_term <? term (entry_position e))
         || ((1 <? expected) && (term (entry_position e) <? previous_term))
      then Err InvalidInput
      else
        expected' ← ok_or (checked_add u64_max expected 1) Exhausted;
        validate_durable_log durable_term (term (entry_position e)) expected' rest
  end.

Definition validate_durable_state (d : DurableCoreState) : result CoreError unit :=
  _ ← validate_durable_log (durable_term d) 0 1 (durable_log d);
  let last_index := match last (durable_log d) with Some e => index (entry_position e) | None => 0 end in
  if last_index <? durable_applied d then Err InvalidInput else Ok tt.

Definition restore (cfg : CoreConfig) (d : DurableCoreState) : result CoreError ConsensusCore :=
  let local_is_member := bool_decide (local_node_id cfg ∈ voters (spec (plan cfg)))
                         || bool_decide (local_node_id cfg ∈ learners (spec (plan cfg))) in
  if (local_incarnation cfg =? 0) || negb local_is_member
     || negb (bool_decide (Incarnations.incarnation (member_incarnations cfg) (local_node_id cfg)
                           = Some (local_incarnation cfg)))
     || ((durable_term d =? 0) && bool_decide (durable_vote d <> None))
     || match durable_vote d with
        | Some voter => negb (bool_decide (voter ∈ voters (spec (plan cfg))))
        | None => false
        end
  then Err InvalidConfiguration
  else
    _ ← validate_durable_state d;
    Ok {| config := cfg;
          active_plan := Stable (plan cfg);
          membership_history := ∅;
          current_term := durable_term d;
          voted_for := durable_vote d;
          log := durable_log d;
          commit_index := durable_applied d;
          applied_index := durable_applied d;
          leader_id := None;
          role := Following;
          pending := None;
          next_persistence_id := 1;
          next_append_probe_id := 1;
          replication_default := Budget.default;
          replication_peers := ∅ |}.

Definition new_core (cfg : CoreConfig) : result CoreError ConsensusCore := restore cfg durable_default.

Definition restore_active (cfg : CoreConfig) (d : DurableCoreState) (active : ActiveQuorumPlan)
    : result CoreError ConsensusCore :=
  if negb (Incarnations.matches_members (member_incarnations cfg) (Active.members active))
  then Err InvalidConfiguration
  else
    core ← restore cfg d;
    history ← History.restore (log core) (applied_index core) active;
    Ok (with_plan active (with_history history core)).

Definition set_replication_budgets (default_ : ReplicationBatchBudget) (overrides : gmap NodeId ReplicationBatchBudget)
    : Core unit :=
  c ← get_state;
  if negb (bool_decide (dom overrides ⊆ active_members c)) then raise InvalidConfiguration
  else modify_state (with_budgets default_ overrides).

(** ** Persistence requests *)

Definition vote_mutation (t : N) (v : option NodeId) : DurableMutation :=
  {| vote_state := Some (t, v); truncate_from := None; append := []; mutation_epoch := None; quorum_plan := None |}.

Definition begin_persistence (m : DurableMutation) (a : AfterPersistence) : Core (list CoreEffect) :=
  c ← get_state;
  let id := next_persistence_id c in
  n ← lift (ok_or (checked_add u64_max id 1) Exhausted);
  _ ← modify_state (fun c => with_pending (Some {| pending_id := id; mutation := m; action := a |})
                               (with_next_persistence_id n c));
  mret [Persist id m].

Definition persist_step_down (t : N) : Core (list CoreEffect) := begin_persistence (vote_mutation t None) StepDown.

Definition follow_leader (leader : option NodeId) : Core unit :=
  modify_state (fun c => with_leader_id leader (with_role Following c)).

(** ** Replication probes *)

Definition request_with_probe (id : AppendProbeId) (r : AppendRequest) : AppendRequest :=
  {| aq_probe_id := id; aq_term := aq_term r; aq_leader := aq_leader r;
     aq_leader_incarnation := aq_leader_incarnation r; aq_previous := aq_previous r;
     aq_previous_digest := aq_previous_digest r; aq_entries := aq_entries r;
     aq_leader_commit_index := aq_leader_commit_index r; aq_read_barrier_id := aq_read_barrier_id r;
     aq_epoch := aq_epoch r; aq_plan_digest := aq_plan_digest r |}.

Definition with_probes (p : gmap NodeId AppendProbes) (l : LeaderState) : LeaderState :=
  {| probes := p; matched := matched l; next := next l; read_barriers := read_barriers l |}.
Definition with_progress (m n : gmap NodeId N) (l : LeaderState) : LeaderState :=
  {| probes := probes l; matched := m; next := n; read_barriers := read_barriers l |}.
Definition with_barriers (b : gmap ReadBarrierId ReadBarrierState) (l : LeaderState) : LeaderState :=
  {| probes := probes l; matched := matched l; next := next l; read_barriers := b |}.

Definition probe_effect (peer : NodeId) (kind : ProbeKind) (read_barrier_id : option ReadBarrierId) : Core CoreEffect :=
  c ← get_state;
  match role c with
  | Leading l =>
      previous_index ← match kind with
        | Replication => lift (ok_or (checked_sub (N.max (default 1 (next l !! peer)) 1) 1) InvalidInput)
        | Contact => mret (default 0 (matched l !! peer))
        end;
      previous ← (if previous_index =? 0 then mret GENESIS
                  else lift (ok_or (entry_position <$> entry c previous_index) InvalidInput));
      previous_digest ← (if previous_index =? 0 then mret zero32
                         else lift (ok_or (entry_digest <$> entry c previous_index) InvalidInput));
      entries ← match kind with
        | Replication =>
            start ← lift (ok_or (checked_add u64_max previous_index 1) Exhausted);
            mret (replication_entries c peer start u64_max)
        | Contact => mret []
        end;
      let request :=
        {| aq_probe_id := next_append_probe_id c; aq_term := current_term c; aq_leader := local_id c;
           aq_leader_incarnation := local_incarnation (config c); aq_previous := previous;
           aq_previous_digest := previous_digest; aq_entries := entries;
           aq_leader_commit_index := commit_index c; aq_read_barrier_id := read_barrier_id;
           aq_epoch := active_membership_epoch c; aq_plan_digest := active_plan_digest c |} in
      let existing := match kind with
        | Replication => p ← probes l !! peer; replication_id p request
        | Contact => None
        end in
      request ← match existing with
        | Some id => mret (request_with_probe id request)
        | None =>
            n ← lift (ok_or (checked_add u64_max (next_append_probe_id c) 1) Exhausted);
            _ ← modify_state (with_next_append_probe_id n);
            mret request
        end;
      _ ← modify_state (with_role (Leading (with_probes
            (<[peer := sent (default probes_default (probes l !! peer)) request kind]> (probes l)) l)));
      mret (Send peer (MAppendRequest request))
  | _ => raise NotLeader
  end.

Definition probe_peers (kind : ProbeKind) (read_barrier_id : option ReadBarrierId) : Core (list CoreEffect) :=
  c ← get_state;
  traverse (fun peer => probe_effect peer kind read_barrier_id) (ascending (peers c)).

Definition heartbeat : Core (list CoreEffect) :=
  c ← get_state;
  if negb (bool_decide (role_of c = Leader)) then raise NotLeader
  else
    let last_index := index (last_position c) in
    effects ← traverse (fun peer =>
        c' ← get_state;
        first ← (if match peer_matched_index c' peer with None => true | Some m => m <? last_index end
                 then e ← probe_effect peer Replication None; mret [e]
                 else mret []);
        second ← probe_effect peer Contact None;
        mret (first ++ [second])) (ascending (peers c));
    mret (concat effects).

(** ** Commit advancement *)

(** The reversed loop of [advance_leader_commit]: the highest index of the current term
    a commit quorum holds. *)
Fixpoint search_commit (c : ConsensusCore) (m : gmap NodeId N) (indices : list N) : result CoreError (option N) :=
  match indices with
  | [] => Ok None
  | i :: rest =>
      e ← ok_or (entry c i) InvalidInput;
      if negb (term (entry_position e) =? current_term c) then search_commit c m rest
      else
        let acks : gset NodeId := dom (filter (fun kv => i <= snd kv) m) in
        if active_satisfies c Commit acks then Ok (Some i) else search_commit c m rest
  end.

Definition advance_leader_commit : Core (list CoreEffect) :=
  c ← get_state;
  match role c with
  | Leading l =>
      let old_commit := commit_index c in
      found ← lift (search_commit c (matched l) (reverse (range (old_commit + 1) (index (last_position c) + 1))));
      _ ← match found with Some i => modify_state (with_commit i) | None => mret tt end;
      c' ← get_state;
      lift (commit_effects c' old_commit)
  | _ => mret []
  end.

Definition advance_follower_commit (leader_commit_index : N) : Core (list CoreEffect) :=
  c ← get_state;
  let old_commit := commit_index c in
  let next_commit := N.min leader_commit_index (index (last_position c)) in
  _ ← modify_state (with_commit (N.max next_commit old_commit));
  c' ← get_state;
  lift (commit_effects c' old_commit).

(** ** Linearizable reads *)

Definition complete_read_barriers : Core (list CoreEffect) :=
  c ← get_state;
  if match entry c (commit_index c) with
     | None => true
     | Some e => negb (term (entry_position e) =? current_term c)
     end
  then mret []
  else
    match role c with
    | Leading l =>
        let barriers := (fun b => {| acknowledgements := acknowledgements b;
                                     required_applied_index := Some (default (commit_index c) (required_applied_index b));
                                     quorum_confirmed := quorum_confirmed b |}) <$> read_barriers l in
        let completed := omap (fun '(id, b) =>
            let required := default (commit_index c) (required_applied_index b) in
            if quorum_confirmed b && (required <=? applied_index c) then Some (id, required) else None)
          (ascending_map barriers) in
        _ ← modify_state (with_role (Leading (with_barriers
              (foldl (fun m '(id, _) => delete id m) barriers completed) l)));
        mret (map (fun '(id, required) => ReadBarrierReady id required) completed)
    | _ => mret []
    end.

Definition acknowledge_read_barrier (from : NodeId) (read_barrier_id : option ReadBarrierId) : Core (list CoreEffect) :=
  match read_barrier_id with
  | None => mret []
  | Some id =>
      if id =? 0 then raise InvalidInput
      else
        c ← get_state;
        match role c with
        | Leading l =>
            match read_barriers l !! id with
            | None => mret []
            | Some b =>
                let acks := {[from]} ∪ acknowledgements b in
                _ ← modify_state (with_role (Leading (with_barriers
                      (<[id := {| acknowledgements := acks;
                                  required_applied_index := required_applied_index b;
                                  quorum_confirmed := active_satisfies c Read acks |}]> (read_barriers l)) l)));
                complete_read_barriers
            end
        | _ => mret []
        end
  end.

Definition begin_read_barrier (id : ReadBarrierId) : Core (list CoreEffect) :=
  if id =? 0 then raise InvalidInput
  else
    c ← get_state;
    let required := e ← entry c (commit_index c);
                    if term (entry_position e) =? current_term c then Some (index (entry_position e)) else None in
    let confirmed := active_satisfies c Read {[local_id c]} in
    match role c with
    | Leading l =>
        if (MAXIMUM_PENDING_READ_BARRIERS <=? N.of_nat (size (read_barriers l)))
           || bool_decide (id ∈ dom (read_barriers l))
        then raise InvalidInput
        else
          _ ← modify_state (with_role (Leading (with_barriers
                (<[id := {| acknowledgements := {[local_id c]}; required_applied_index := required;
                            quorum_confirmed := confirmed |}]> (read_barriers l)) l)));
          if confirmed then complete_read_barriers else probe_peers Contact (Some id)
    | _ => raise NotLeader
    end.

Definition cancel_read_barrier (id : ReadBarrierId) : Core (list CoreEffect) :=
  if id =? 0 then raise InvalidInput
  else
    c ← get_state;
    _ ← match role c with
        | Leading l => modify_state (with_role (Leading (with_barriers (delete id (read_barriers l)) l)))
        | _ => mret tt
        end;
    mret [].

Definition applied_through (i : N) : Core (list CoreEffect) :=
  c ← get_state;
  if (i <? applied_index c) || (commit_index c <? i) then raise InvalidInput
  else _ ← modify_state (with_applied i); complete_read_barriers.

(** ** Elections *)

Definition start_election : Core (list CoreEffect) :=
  c ← get_state;
  if bool_decide (role_of c = Leader) then raise InvalidInput
  else if negb (bool_decide (local_id c ∈ active_eligible_leaders c)) then raise NotLeader
  else
    t ← lift (ok_or (checked_add u64_max (current_term c) 1) Exhausted);
    begin_persistence (vote_mutation t (Some (local_id c))) Campaign.

Definition become_leader : Core (list CoreEffect) :=
  c ← get_state;
  let last := index (last_position c) in
  next_index ← lift (ok_or (checked_add u64_max last 1) Exhausted);
  let members := ascending (active_members c) in
  let m := foldl (fun m k => or_insert k 0 m) {[local_id c := last]} members in
  let n := foldl (fun m k => <[k := next_index]> m) ∅ members in
  _ ← modify_state (fun c => with_leader_id (Some (local_id c))
        (with_role (Leading {| probes := ∅; matched := m; next := n; read_barriers := ∅ |}) c));
  sends ← probe_peers Replication None;
  mret (RoleChanged Leader (current_term c) :: sends).

Definition finish_campaign : Core (list CoreEffect) :=
  _ ← modify_state (fun c => with_role (Campaigning {[local_id c]}) (with_leader_id None c));
  c ← get_state;
  let changed := RoleChanged Candidate (current_term c) in
  if active_satisfies c Election {[local_id c]}
  then effects ← become_leader; mret (changed :: effects)
  else
    let request := MVoteRequest
      {| vq_term := current_term c; vq_candidate := local_id c;
         vq_candidate_incarnation := local_incarnation (config c); vq_last_log := last_position c;
         vq_epoch := active_membership_epoch c; vq_plan_digest := active_plan_digest c |} in
    mret (changed :: map (fun voter => Send voter request)
                       (filter (fun voter => voter <> local_id c) (ascending (active_voters c)))).

Definition vote_response (from : NodeId) (response : VoteResponse) : Core (list CoreEffect) :=
  c ← get_state;
  _ ← lift (validate_plan c (vr_epoch response) (vr_plan_digest response));
  if vr_term response =? 0 then raise InvalidInput
  else if current_term c <? vr_term response then persist_step_down (vr_term response)
  else if vr_term response <? current_term c then mret []
  else
    match role c with
    | Campaigning votes =>
        let votes := if vr_granted response then {[from]} ∪ votes else votes in
        _ ← modify_state (with_role (Campaigning votes));
        if active_satisfies c Election votes then become_leader else mret []
    | _ => mret []
    end.

(** ** Historical replication *)

Definition applied_replication_limit (c : ConsensusCore) (epoch : N) (digest : bytes) : option N :=
  '(p, limit) ← (if (active_membership_epoch c =? epoch) && bool_decide (active_plan_digest c = digest)
                 then Some (active_plan c, applied_index c)
                 else b ← History.find (membership_history c) epoch digest;
                      Some (boundary_plan b, index (boundary_position b)));
  if (limit <=? applied_index c) && bool_decide (local_id c ∈ Active.voters_ p) then Some limit else None.

Definition replay_membership_prefix (c : ConsensusCore) (peer : NodeId) (response : AppendResponse)
    : result CoreError (list CoreEffect) :=
  if (ar_term response =? 0) || (ar_next_index_hint response =? 0) then Err StaleMember
  else
    boundary ← ok_or (History.find (membership_history c) (ar_epoch response) (ar_plan_digest response)) StaleMember;
    if negb (bool_decide (local_id c ∈ Active.voters_ (boundary_plan boundary)))
       || negb (bool_decide (peer ∈ Active.members (boundary_plan boundary)))
       || (applied_index c <? index (boundary_position boundary))
    then Err StaleMember
    else
      let stop := index (boundary_position boundary) in
      let next := N.min (ar_next_index_hint response) (saturating_add u64_max stop 1) in
      previous ← (if next =? 1 then Ok GENESIS
                  else ok_or (entry_position <$> entry c (next - 1)) InvalidInput);
      previous_digest ← (if bool_decide (previous = GENESIS) then Ok zero32
                         else ok_or (entry_digest <$> entry c (index previous)) InvalidInput);
      let entries := replication_entries c peer next stop in
      let sent_through := match last entries with
                          | Some e => index (entry_position e)
                          | None => index previous
                          end in
      Ok [Send peer (MCommittedPrefix
            {| cp_previous := previous; cp_previous_digest := previous_digest; cp_entries := entries;
               cp_committed_index := N.min sent_through stop;
               cp_epoch := Active.membership_epoch (boundary_plan boundary);
               cp_plan_digest := Active.proof_digest (boundary_plan boundary) |})].

Definition finish_committed_prefix (from : NodeId) (committed_index : N) : Core (list CoreEffect) :=
  _ ← follow_leader None;
  c ← get_state;
  effects ← advance_follower_commit (N.max committed_index (commit_index c));
  c' ← get_state;
  mret (effects ++ [membership_notice_effect c' from]).

Definition receive_committed_prefix (from : NodeId) (prefix : CommittedPrefix) : Core (list CoreEffect) :=
  _ ← lift (validate_committed_prefix prefix);
  c ← get_state;
  if negb (bool_decide (from ∈ active_voters c)) then raise StaleMember
  else if is_err (validate_plan c (cp_epoch prefix) (cp_plan_digest prefix))
          || (cp_committed_index prefix <=? applied_index c)
  then mret [membership_notice_effect c from]
  else if negb (position_matches c (cp_previous prefix) (cp_previous_digest prefix))
  then
    let notice := membership_notice c in
    mret [Send from (MAppendResponse
      {| ar_probe_id := ar_probe_id notice; ar_matched_digest := ar_matched_digest notice;
         ar_term := ar_term notice; ar_accepted := ar_accepted notice;
         ar_matched_index := ar_matched_index notice;
         ar_next_index_hint := N.min (ar_next_index_hint notice) (N.max (index (cp_previous prefix)) 1);
         ar_read_barrier_id := ar_read_barrier_id notice; ar_epoch := ar_epoch notice;
         ar_plan_digest := ar_plan_digest notice |})]
  else
    '(truncate, suffix) ← lift (log_delta c (cp_entries prefix));
    let observed_term := match last (cp_entries prefix) with
                         | Some e => term (entry_position e)
                         | None => term (cp_previous prefix)
                         end in
    if bool_decide (truncate <> None) || negb (bool_decide (suffix = [])) || (current_term c <? observed_term)
    then begin_persistence
           {| vote_state := if current_term c <? observed_term then Some (observed_term, None) else None;
              truncate_from := truncate; append := suffix; mutation_epoch := None; quorum_plan := None |}
           (PrefixReply from (cp_committed_index prefix))
    else finish_committed_prefix from (cp_committed_index prefix).

(** ** Votes *)

Definition vote_request (from : NodeId) (request : VoteRequest) : Core (list CoreEffect) :=
  c ← get_state;
  if is_err (validate_plan c (vq_epoch request) (vq_plan_digest request))
  then
    if (vq_term request =? 0) || negb (vq_candidate request =? from) then raise InvalidInput
    else
      incarnation ← lift (member_incarnation c from);
      if negb (vq_candidate_incarnation request =? incarnation)
         || negb (position_is_valid (vq_last_log request))
      then raise InvalidInput
      else
        match History.find (membership_history c) (vq_epoch request) (vq_plan_digest request) with
        | Some _ =>
            hint ← lift (ok_or (checked_add u64_max (index (vq_last_log request)) 1) Exhausted);
            lift (replay_membership_prefix c from
              {| ar_probe_id := None; ar_matched_digest := zero32; ar_term := vq_term request;
                 ar_accepted := false; ar_matched_index := 0; ar_next_index_hint := hint;
                 ar_read_barrier_id := None; ar_epoch := vq_epoch request;
                 ar_plan_digest := vq_plan_digest request |})
        | None => mret [membership_notice_effect c from]
        end
  else if negb (vq_candidate request =? from) then raise InvalidInput
  else
    incarnation ← lift (member_incarnation c from);
    if negb (vq_candidate_incarnation request =? incarnation) || (vq_term request =? 0)
       || negb (position_is_valid (vq_last_log request))
       || negb (bool_decide (from ∈ active_eligible_leaders c))
    then raise InvalidInput
    else if (vq_term request <? current_term c) || negb (is_local_voter c)
    then mret [vote_effect c from false]
    else
      let log_is_current := position_le (last_position c) (vq_last_log request) in
      let can_vote := (current_term c <? vq_term request) || bool_decide (voted_for c = None)
                      || bool_decide (voted_for c = Some from) in
      let granted := log_is_current && can_vote in
      if (current_term c <? vq_term request) || (granted && negb (bool_decide (voted_for c = Some from)))
      then begin_persistence (vote_mutation (vq_term request) (if granted then Some from else None))
             (VoteReply from granted)
      else mret [vote_effect c from granted].

(** ** Log replication *)

Definition append_request (from : NodeId) (request : AppendRequest) : Core (list CoreEffect) :=
  _ ← lift (validate_append_entries request);
  if negb (aq_leader request =? from) then raise InvalidInput
  else
    c ← get_state;
    incarnation ← lift (member_incarnation c from);
    if negb (aq_leader_incarnation request =? incarnation)
       || negb (bool_decide (from ∈ active_eligible_leaders c))
    then raise InvalidInput
    else if is_err (validate_plan c (aq_epoch request) (aq_plan_digest request))
    then mret [membership_notice_effect c from]
    else if aq_term request <? current_term c
    then mret [append_reply_effect c from (append_reply c request false)]
    else if negb (position_matches c (aq_previous request) (aq_previous_digest request))
    then
      if current_term c <? aq_term request
      then begin_persistence (vote_mutation (aq_term request) None)
             (AppendReply from from 0 (append_reply c request false))
      else
        _ ← follow_leader (Some from);
        c' ← get_state;
        mret [append_reply_effect c' from (append_reply c' request false)]
    else
      '(truncate, suffix) ← lift (log_delta c (aq_entries request));
      let changes_term := current_term c <? aq_term request in
      if changes_term || bool_decide (truncate <> None) || negb (bool_decide (suffix = []))
      then begin_persistence
             {| vote_state := if changes_term then Some (aq_term request, None) else None;
                truncate_from := truncate; append := suffix; mutation_epoch := None; quorum_plan := None |}
             (AppendReply from from (aq_leader_commit_index request) (append_reply c request true))
      else
        _ ← follow_leader (Some from);
        c' ← get_state;
        let reply := append_reply c' request true in
        effects ← advance_follower_commit (N.min (aq_leader_commit_index request) (ar_matched_index reply));
        c'' ← get_state;
        mret (effects ++ [append_reply_effect c'' from reply]).

(** The progress a correlated replication answer records for its sender. *)
Definition record_progress (from : NodeId) (hint last_index : N) (proof : ProbeResult) (l : LeaderState) : Core unit :=
  let m := default 0 (matched l !! from) in
  let n := default 1 (next l !! from) in
  match proof with
  | ContactResult => mret tt
  | Matched i =>
      if last_index <? i then raise InvalidInput
      else
        let m' := N.max m i in
        _ ← modify_state (with_role (Leading (with_progress (<[from := m']> (matched l)) (next l) l)));
        succ ← lift (ok_or (checked_add u64_max m' 1) Exhausted);
        modify_state (with_role (Leading
          (with_progress (<[from := m']> (matched l)) (<[from := N.max n succ]> (next l)) l)))
  | Conflict previous_index latest =>
      if latest && (m <=? previous_index)
      then
        floor ← lift (ok_or (checked_add u64_max m 1) Exhausted);
        modify_state (with_role (Leading (with_progress (matched l)
          (<[from := N.max (N.min (N.min hint previous_index) (saturating_sub n 1)) floor]> (next l)) l)))
      else mret tt
  end.

Definition response_malformed (r : AppendResponse) : bool :=
  (ar_term r =? 0)
  || match ar_probe_id r with Some id => id =? 0 | None => false end
  || (bool_decide (ar_probe_id r = None) && (ar_accepted r || bool_decide (ar_read_barrier_id r <> None)))
  || (negb (ar_accepted r)
      && (negb (ar_matched_index r =? 0) || negb (bool_decide (ar_matched_digest r = zero32))))
  || (ar_next_index_hint r =? 0)
  || match ar_read_barrier_id r with Some id => id =? 0 | None => false end.

Definition append_response (from : NodeId) (response : AppendResponse) : Core (list CoreEffect) :=
  c ← get_state;
  if is_err (validate_plan c (ar_epoch response) (ar_plan_digest response))
  then lift (replay_membership_prefix c from response)
  else if response_malformed response then raise InvalidInput
  else if current_term c <? ar_term response then persist_step_down (ar_term response)
  else if ar_term response <? current_term c then mret []
  else
    let last_index := index (last_position c) in
    match role c with
    | Leading l =>
        match probes l !! from with
        | None => mret []
        | Some p =>
            '(proof, p') ← lift (receive_probe p response);
            match proof with
            | None =>
                if bool_decide (ar_probe_id response = None) && negb (ar_accepted response)
                then e ← probe_effect from Replication None; mret [e]
                else mret []
            | Some proof =>
                let l' := with_probes (<[from := p']> (probes l)) l in
                _ ← modify_state (with_role (Leading l'));
                match proof with
                | ContactResult => acknowledge_read_barrier from (ar_read_barrier_id response)
                | _ =>
                    _ ← record_progress from (ar_next_index_hint response) last_index proof l';
                    c' ← get_state;
                    let peer_next := match role c' with
                                     | Leading l'' => default 1 (next l'' !! from)
                                     | _ => 1
                                     end in
                    committed ← advance_leader_commit;
                    reads ← acknowledge_read_barrier from (ar_read_barrier_id response);
                    more ← (if peer_next <=? last_index
                            then e ← probe_effect from Replication None; mret [e]
                            else mret []);
                    mret (committed ++ reads ++ more)
                end
            end
        end
    | _ => mret []
    end.

Definition propose (proposal_id : ProposalId) (op version : N) (command : bytes) : Core (list CoreEffect) :=
  c ← get_state;
  if negb (bool_decide (role_of c = Leader)) then raise NotLeader
  else if proposal_id =? 0 then raise InvalidInput
  else
    i ← lift (ok_or (checked_add u64_max (index (last_position c)) 1) Exhausted);
    let position := {| term := current_term c; index := i |} in
    e ← lift (new_entry position op version command);
    begin_persistence
      {| vote_state := None; truncate_from := None; append := [e]; mutation_epoch := None; quorum_plan := None |}
      (Proposal proposal_id position).

(** ** Membership phases *)

Definition plan_mutation (epoch : N) (active : ActiveQuorumPlan) (at_ : LogPosition) : DurableMutation :=
  {| vote_state := None; truncate_from := None; append := []; mutation_epoch := Some epoch;
     quorum_plan := Some {| dq_active_plan := active; dq_activated_position := at_ |} |}.

Definition activate_joint_plan (j : JointQuorumPlan) (incarnations : MemberIncarnations) (at_ : LogPosition)
    : Core (list CoreEffect) :=
  c ← get_state;
  match active_plan c with
  | Stable current =>
      if negb (bool_decide (plan_proof_digest current = plan_proof_digest (old_plan j)))
         || negb (spec_epoch (spec current) =? spec_epoch (spec (old_plan j)))
         || negb (bool_decide (plan_members (old_plan j) = active_members c))
         || negb (Incarnations.matches_members incarnations (Joint.members j))
         || negb (Incarnations.preserves incarnations (member_incarnations (config c)) (active_members c))
      then raise InvalidInput
      else
        _ ← lift (validate_applied_transition_position c at_);
        begin_persistence (plan_mutation (Joint.membership_epoch j) (JointPhase j) at_)
          (ActivateJoint j incarnations)
  | JointPhase _ => raise InvalidInput
  end.

Definition activate_stable_plan (p : CompiledQuorumPlan) (incarnations : MemberIncarnations) (at_ : LogPosition)
    : Core (list CoreEffect) :=
  c ← get_state;
  match active_plan c with
  | JointPhase j =>
      let retained := active_members c ∩ plan_members p in
      if negb (bool_decide (plan_proof_digest p = plan_proof_digest (new_plan j)))
         || negb (spec_epoch (spec p) =? Joint.membership_epoch j)
         || negb (Incarnations.matches_members incarnations (plan_members p))
         || negb (Incarnations.preserves incarnations (member_incarnations (config c)) retained)
      then raise InvalidInput
      else
        _ ← lift (validate_applied_transition_position c at_);
        begin_persistence (plan_mutation (spec_epoch (spec p)) (Stable p) at_) (ActivateStable p incarnations)
  | Stable _ => raise InvalidInput
  end.

Definition with_incarnations (m : MemberIncarnations) (g : CoreConfig) : CoreConfig :=
  {| partition_id := partition_id g; local_node_id := local_node_id g;
     local_incarnation := local_incarnation g; plan := plan g; member_incarnations := m |}.

Definition finish_plan_activation (active : ActiveQuorumPlan) (incarnations : MemberIncarnations) (at_ : LogPosition)
    : Core (list CoreEffect) :=
  _ ← modify_state (fun c =>
        clear_replication_budget_overrides
          (with_config (with_incarnations incarnations (config c))
            (with_plan active
              (with_history (History.record (membership_history c) (active_plan c) at_) c))));
  c ← get_state;
  let members := active_members c in
  let last_index := index (last_position c) in
  next_index ← lift (ok_or (checked_add u64_max last_index 1) Exhausted);
  let may_lead := bool_decide (local_id c ∈ active_eligible_leaders c) in
  _ ← match role c with
      | Leading l =>
          let kept_matched := filter (fun kv => fst kv ∈ members) (matched l) in
          let kept_next := filter (fun kv => fst kv ∈ members) (next l) in
          modify_state (with_role (Leading
            {| probes := ∅;
               matched := foldl (fun m k => or_insert k (if k =? local_id c then last_index else 0) m)
                            kept_matched (ascending members);
               next := foldl (fun m k => or_insert k next_index m) kept_next (ascending members);
               read_barriers := ∅ |}))
      | _ => mret tt
      end;
  if bool_decide (role_of c = Leader) && may_lead && is_local_voter c then probe_peers Replication None
  else if may_lead && is_local_voter c then mret []
  else
    let changed := negb (bool_decide (role_of c = Follower)) in
    _ ← follow_leader None;
    mret (if changed then [RoleChanged Follower (current_term c)] else []).

(** ** Durable completion *)

Fixpoint install_entries (entries : list LogEntry) : Core unit :=
  match entries with
  | [] => mret tt
  | e :: rest =>
      _ ← lift (validate_entry e);
      c ← get_state;
      expected ← lift (ok_or (checked_add u64_max (index (last_position c)) 1) Exhausted);
      if negb (index (entry_position e) =? expected) then raise InvalidInput
      else _ ← modify_state (fun c => with_log (log c ++ [e]) c); install_entries rest
  end.

Definition apply_durable_mutation (m : DurableMutation) : Core unit :=
  c ← get_state;
  if match mutation_epoch m with
     | Some epoch => negb (epoch =? active_membership_epoch c)
                     && negb (epoch =? saturating_add u64_max (active_membership_epoch c) 1)
     | None => false
     end
  then raise InvalidInput
  else
    _ ← match vote_state m with
        | Some (t, v) =>
            if (t <? current_term c) || (t =? 0) then raise InvalidInput
            else
              _ ← (if current_term c <? t then follow_leader None else mret tt);
              modify_state (with_vote t v)
        | None => mret tt
        end;
    _ ← match truncate_from m with
        | Some from =>
            c ← get_state;
            if (from <=? commit_index c) || (from =? 0) then raise InvalidInput
            else modify_state (fun c => with_log (filter (fun e => index (entry_position e) < from) (log c)) c)
        | None => mret tt
        end;
    install_entries (append m).

Definition finish_proposal (proposal_id : ProposalId) (position : LogPosition) : Core (list CoreEffect) :=
  c ← get_state;
  match role c with
  | Leading l =>
      let m := <[local_id c := index position]> (matched l) in
      _ ← modify_state (with_role (Leading (with_progress m (next l) l)));
      succ ← lift (ok_or (checked_add u64_max (index position) 1) Exhausted);
      _ ← modify_state (with_role (Leading (with_progress m (<[local_id c := succ]> (next l)) l)));
      sends ← probe_peers Replication None;
      committed ← advance_leader_commit;
      mret (ProposalAppended proposal_id position :: sends ++ committed)
  | _ => raise NotLeader
  end.

(** What follows once the requested mutation is durable. *)
Definition after_persistence (p : PendingPersistence) : Core (list CoreEffect) :=
  match action p with
  | Campaign => finish_campaign
  | VoteReply to granted =>
      _ ← follow_leader None; c ← get_state; mret [vote_effect c to granted]
  | AppendReply to leader leader_commit_index reply =>
      _ ← follow_leader (Some leader);
      effects ← (if ar_accepted reply
                 then advance_follower_commit (N.min leader_commit_index (ar_matched_index reply))
                 else mret []);
      c ← get_state;
      mret (effects ++ [append_reply_effect c to reply])
  | Proposal proposal_id position => finish_proposal proposal_id position
  | StepDown => _ ← follow_leader None; c ← get_state; mret [RoleChanged Follower (current_term c)]
  | PrefixReply from committed_index => finish_committed_prefix from committed_index
  | ActivateJoint j incarnations =>
      q ← lift (ok_or (quorum_plan (mutation p)) InvalidInput);
      finish_plan_activation (JointPhase j) incarnations (dq_activated_position q)
  | ActivateStable s incarnations =>
      q ← lift (ok_or (quorum_plan (mutation p)) InvalidInput);
      finish_plan_activation (Stable s) incarnations (dq_activated_position q)
  end.

Definition finish_persistence (id : PersistenceId) : Core (list CoreEffect) :=
  c ← get_state;
  match pending c with
  | None => raise StalePersistence
  | Some p =>
      if negb (pending_id p =? id) then raise StalePersistence
      else
        _ ← modify_state (with_pending None);
        _ ← apply_durable_mutation (mutation p);
        after_persistence p
  end.

(** ** Dispatch *)

Definition receive (from : NodeId) (sender_incarnation : N) (message : CoreMessage) : Core (list CoreEffect) :=
  c ← get_state;
  _ ← lift (validate_sender c from sender_incarnation);
  match message with
  | MVoteRequest request => vote_request from request
  | MVoteResponse response => vote_response from response
  | MAppendRequest request => append_request from request
  | MAppendResponse response => append_response from response
  | MCommittedPrefix prefix => receive_committed_prefix from prefix
  end.

Definition step (input : CoreInput) : Core (list CoreEffect) :=
  c ← get_state;
  if bool_decide (pending c <> None) && negb (match input with Persisted _ => true | _ => false end)
  then raise PersistencePending
  else
    match input with
    | ElectionTimeout => start_election
    | Heartbeat => heartbeat
    | Persisted id => finish_persistence id
    | Message from sender_incarnation message => receive from sender_incarnation message
    | Propose proposal_id op version command => propose proposal_id op version command
    | BeginReadBarrier id => begin_read_barrier id
    | CancelReadBarrier id => cancel_read_barrier id
    | ConfirmTerm proposal_id op => propose proposal_id op TERM_CONFIRMATION_VERSION TERM_CONFIRMATION_BYTES
    | ActivateJointPlan j incarnations committed => activate_joint_plan j incarnations committed
    | ActivateStablePlan p incarnations committed => activate_stable_plan p incarnations committed
    | AppliedThrough i => applied_through i
    end.

End core.
