(* ===== verification/CoreRequest.v ===== *)
(** What a handler may change before persistence completes, and what it may ask for.
    [quiet] steps leave every durable field alone and only move the commit and applied
    positions forward; every other handler but [finish_persistence] ends by asking for exactly
    one durable mutation, whose shape and justification [request_ok] records. *)

From S2P Require Import Prelude VoterSet Predicate Plan Digest Compile FlatPlan Joint Types Membership MembershipCommand Probes History Core.
From stdpp Require Import prelude gmap.
#[local] Open Scope N_scope.

(** ** The frame of volatile work *)

Record quiet (c c' : ConsensusCore) : Prop := {
  quiet_config : config c' = config c;
  quiet_plan : active_plan c' = active_plan c;
  quiet_history : membership_history c' = membership_history c;
  quiet_term : current_term c' = current_term c;
  quiet_vote : voted_for c' = voted_for c;
  quiet_log : log c' = log c;
  quiet_pending : pending c' = pending c;
  quiet_persistence_id : next_persistence_id c' = next_persistence_id c;
  quiet_commit : commit_index c <= commit_index c';
  quiet_commit_le : commit_index c' <= N.max (commit_index c) (index (last_position c));
  quiet_applied : applied_index c <= applied_index c';
  quiet_applied_le : applied_index c' <= N.max (applied_index c) (commit_index c');
}.

Lemma last_position_log c c' : log c' = log c -> last_position c' = last_position c.
Proof. unfold last_position. by intros ->. Qed.

#[export] Instance quiet_preorder : PreOrder quiet.
Proof.
  split.
  - intros c. split; try done; lia.
  - intros x y z H1 H2. pose proof (last_position_log _ _ (quiet_log _ _ H1)) as Hl.
    destruct H1, H2. rewrite Hl in *. split; try congruence; lia.
Qed.

(** Updates of the volatile fields. *)
Lemma quiet_role r c : quiet c (with_role r c).
Proof. split; cbn; try done; lia. Qed.
Lemma quiet_leader_id l c : quiet c (with_leader_id l c).
Proof. split; cbn; try done; lia. Qed.
Lemma quiet_probe_id n c : quiet c (with_next_append_probe_id n c).
Proof. split; cbn; try done; lia. Qed.
#[export] Hint Resolve quiet_role quiet_leader_id quiet_probe_id : mesh.

Lemma quiet_with_commit i c :
  commit_index c <= i -> i <= N.max (commit_index c) (index (last_position c)) -> quiet c (with_commit i c).
Proof. intros. split; cbn; try done; lia. Qed.

Lemma quiet_with_applied i c :
  applied_index c <= i -> i <= commit_index c -> quiet c (with_applied i c).
Proof. intros. split; cbn; try done; lia. Qed.

(** Walk through a method, leaving the updates that need an argument. *)
Ltac quiet_step :=
  match goal with
  | |- forall _, _ => intro
  | |- keeps _ (mret _) => apply keeps_ret; apply _
  | |- keeps _ (raise _) => apply keeps_raise; apply _
  | |- keeps _ (lift _) => apply keeps_lift; apply _
  | |- keeps _ (modify_state _) => apply keeps_modify; intros ?; solve [eauto with mesh]
  | |- keeps _ (get_state ≫= _) => apply keeps_get_bind
  | |- keeps _ (_ ≫= _) => apply keeps_bind; [apply _| |]
  | |- keeps _ (if ?b then _ else _) => destruct b eqn:?
  | |- keeps _ (match ?x with _ => _ end) => destruct x eqn:?
  | |- keeps _ _ => solve [eauto with mesh]
  | |- post (get_state ≫= _) _ _ => apply post_get_bind
  | |- post (mret _) _ _ => apply post_ret; reflexivity
  | |- post (raise _) _ _ => apply post_raise; reflexivity
  | |- post (lift _) _ _ => apply post_lift; reflexivity
  | |- post (modify_state _) _ _ => apply post_modify; solve [eauto with mesh]
  | |- post (_ ≫= _) _ _ => apply keeps_post_bind; [apply _| |]
  | |- post (if ?b then _ else _) _ _ => destruct b eqn:?
  | |- post (match ?x with _ => _ end) _ _ => destruct x eqn:?
  | |- post ?m ?s _ => solve [assert (keeps quiet m) as Hk by eauto with mesh; exact (Hk s)]
  end.
Ltac quiet_walk := repeat quiet_step.

Section frame.
Context `{Sha256}.

Lemma follow_leader_quiet l : keeps quiet (follow_leader l).
Proof.
  unfold follow_leader. apply keeps_modify. intros c.
  transitivity (with_role Following c); eauto with mesh.
Qed.
#[local] Hint Resolve follow_leader_quiet : mesh.

Lemma probe_effect_quiet peer kind id : keeps quiet (probe_effect peer kind id).
Proof. unfold probe_effect. quiet_walk. Qed.
#[local] Hint Resolve probe_effect_quiet : mesh.

Lemma probe_peers_quiet kind id : keeps quiet (probe_peers kind id).
Proof. unfold probe_peers. quiet_walk. apply keeps_traverse; [apply _|]. quiet_walk. Qed.
#[local] Hint Resolve probe_peers_quiet : mesh.

Lemma heartbeat_quiet : keeps quiet heartbeat.
Proof.
  unfold heartbeat. quiet_walk. apply keeps_traverse; [apply _|]. quiet_walk.
Qed.

Lemma complete_read_barriers_quiet : keeps quiet complete_read_barriers.
Proof. unfold complete_read_barriers. quiet_walk. Qed.
#[local] Hint Resolve complete_read_barriers_quiet : mesh.

Lemma acknowledge_read_barrier_quiet from id : keeps quiet (acknowledge_read_barrier from id).
Proof. unfold acknowledge_read_barrier. quiet_walk. Qed.
#[local] Hint Resolve acknowledge_read_barrier_quiet : mesh.

Lemma begin_read_barrier_quiet id : keeps quiet (begin_read_barrier id).
Proof. unfold begin_read_barrier. quiet_walk. Qed.

Lemma cancel_read_barrier_quiet id : keeps quiet (cancel_read_barrier id).
Proof. unfold cancel_read_barrier. quiet_walk. Qed.

Lemma applied_through_quiet i : keeps quiet (applied_through i).
Proof.
  unfold applied_through. apply keeps_get_bind. intros c. destruct (_ || _) eqn:E; [quiet_walk|].
  bool_cases. apply keeps_post_bind; [apply _| |quiet_walk].
  apply post_modify, quiet_with_applied; lia.
Qed.

Lemma search_commit_range c m l i : search_commit c m l = Ok (Some i) -> i ∈ l.
Proof.
  induction l as [|j l IH]; cbn [search_commit]; [done|]. intros Hs. inv_ok.
  destruct (negb _); [right; auto|]. destruct (active_satisfies _ _ _); simplify_eq; [by left|right; auto].
Qed.

Lemma advance_leader_commit_quiet : keeps quiet advance_leader_commit.
Proof.
  unfold advance_leader_commit. apply keeps_get_bind. intros c. destruct (role c); [quiet_walk..|].
  apply post_lift_bind; [|intros; reflexivity]. intros found Hf. apply keeps_post_bind; [apply _| |quiet_walk].
  destruct found as [i|]; [|quiet_walk]. apply search_commit_range in Hf.
  rewrite elem_of_reverse, elem_of_range in Hf. apply post_modify, quiet_with_commit; lia.
Qed.
#[local] Hint Resolve advance_leader_commit_quiet : mesh.

Lemma advance_follower_commit_quiet i : keeps quiet (advance_follower_commit i).
Proof.
  unfold advance_follower_commit. apply keeps_get_bind. intros c.
  apply keeps_post_bind; [apply _| |quiet_walk]. apply post_modify, quiet_with_commit; lia.
Qed.
#[local] Hint Resolve advance_follower_commit_quiet : mesh.

Lemma become_leader_quiet : keeps quiet become_leader.
Proof.
  unfold become_leader. quiet_walk. apply keeps_modify. intros c. set (r := Leading _).
  transitivity (with_role r c); eauto with mesh.
Qed.
#[local] Hint Resolve become_leader_quiet : mesh.

Lemma finish_campaign_quiet : keeps quiet finish_campaign.
Proof.
  unfold finish_campaign. apply keeps_bind; [apply _| |quiet_walk]. apply keeps_modify. intros c.
  transitivity (with_leader_id None c); eauto with mesh.
Qed.

Lemma record_progress_quiet from hint last_index proof l : keeps quiet (record_progress from hint last_index proof l).
Proof. unfold record_progress. quiet_walk. Qed.
#[local] Hint Resolve record_progress_quiet : mesh.

Lemma finish_proposal_quiet pid pos : keeps quiet (finish_proposal pid pos).
Proof. unfold finish_proposal. quiet_walk. Qed.

Lemma finish_committed_prefix_quiet from i : keeps quiet (finish_committed_prefix from i).
Proof. unfold finish_committed_prefix. quiet_walk. Qed.

End frame.

#[export] Hint Resolve follow_leader_quiet probe_effect_quiet probe_peers_quiet heartbeat_quiet
  complete_read_barriers_quiet acknowledge_read_barrier_quiet begin_read_barrier_quiet
  cancel_read_barrier_quiet applied_through_quiet advance_leader_commit_quiet
  advance_follower_commit_quiet become_leader_quiet finish_campaign_quiet record_progress_quiet
  finish_proposal_quiet finish_committed_prefix_quiet : mesh.

(** The state [begin_persistence] leaves behind. *)
Definition begun (c : ConsensusCore) (m : DurableMutation) (a : AfterPersistence) : ConsensusCore :=
  with_pending (Some {| pending_id := next_persistence_id c; mutation := m; action := a |})
    (with_next_persistence_id (next_persistence_id c + 1) c).

Section requests.
Context `{Sha256}.

(** Why a mutation may be requested, one case per call of [begin_persistence]. *)
Inductive request_ok (c : ConsensusCore) : DurableMutation -> AfterPersistence -> Prop :=
| request_campaign :
    role_of c <> Leader -> local_id c ∈ active_eligible_leaders c -> current_term c + 1 <= u64_max ->
    request_ok c (vote_mutation (current_term c + 1) (Some (local_id c))) Campaign
| request_vote from (granted : bool) request :
    vq_candidate request = from -> vq_term request <> 0 -> local_id c ∈ active_voters c ->
    vq_epoch request = active_membership_epoch c -> vq_plan_digest request = active_plan_digest c ->
    from ∈ active_eligible_leaders c ->
    current_term c < vq_term request \/ (vq_term request = current_term c /\ granted = true /\ voted_for c = None) ->
    (granted = true -> position_le (last_position c) (vq_last_log request) = true) ->
    request_ok c (vote_mutation (vq_term request) (if granted then Some from else None)) (VoteReply from granted)
| request_step_down t :
    current_term c < t -> request_ok c (vote_mutation t None) StepDown
| request_reject from request :
    current_term c < aq_term request ->
    request_ok c (vote_mutation (aq_term request) None) (AppendReply from from 0 (append_reply c request false))
| request_append from request truncate suffix :
    validate_append_entries request = Ok tt -> current_term c <= aq_term request ->
    position_matches c (aq_previous request) (aq_previous_digest request) = true ->
    log_delta c (aq_entries request) = Ok (truncate, suffix) ->
    request_ok c
      {| vote_state := if current_term c <? aq_term request then Some (aq_term request, None) else None;
         truncate_from := truncate; append := suffix; mutation_epoch := None; quorum_plan := None |}
      (AppendReply from from (aq_leader_commit_index request) (append_reply c request true))
| request_prefix from prefix truncate suffix :
    validate_committed_prefix prefix = Ok tt -> applied_index c < cp_committed_index prefix ->
    position_matches c (cp_previous prefix) (cp_previous_digest prefix) = true ->
    log_delta c (cp_entries prefix) = Ok (truncate, suffix) ->
    let observed := match last (cp_entries prefix) with
                    | Some e => term (entry_position e)
                    | None => term (cp_previous prefix)
                    end in
    request_ok c
      {| vote_state := if current_term c <? observed then Some (observed, None) else None;
         truncate_from := truncate; append := suffix; mutation_epoch := None; quorum_plan := None |}
      (PrefixReply from (cp_committed_index prefix))
| request_proposal pid op version cmd e :
    role_of c = Leader -> index (last_position c) + 1 <= u64_max ->
    new_entry {| term := current_term c; index := index (last_position c) + 1 |} op version cmd = Ok e ->
    request_ok c
      {| vote_state := None; truncate_from := None; append := [e]; mutation_epoch := None; quorum_plan := None |}
      (Proposal pid {| term := current_term c; index := index (last_position c) + 1 |})
| request_joint current j incarnations at_ :
    active_plan c = Stable current -> spec_epoch (spec current) = spec_epoch (spec (old_plan j)) ->
    plan_proof_digest current = plan_proof_digest (old_plan j) ->
    plan_members (old_plan j) = active_members c -> joint_built j ->
    Incarnations.matches_members incarnations (Joint.members j) = true ->
    validate_applied_transition_position c at_ = Ok tt ->
    request_ok c (plan_mutation (Joint.membership_epoch j) (JointPhase j) at_) (ActivateJoint j incarnations)
| request_stable j p incarnations at_ :
    active_plan c = JointPhase j -> spec_epoch (spec p) = Joint.membership_epoch j ->
    plan_proof_digest p = plan_proof_digest (new_plan j) -> plan_built p ->
    Incarnations.matches_members incarnations (plan_members p) = true ->
    validate_applied_transition_position c at_ = Ok tt ->
    request_ok c (plan_mutation (spec_epoch (spec p)) (Stable p) at_) (ActivateStable p incarnations).

(** Either nothing durable is asked for, or exactly one request is made. *)
Inductive outcome (c : ConsensusCore) : result CoreError (list CoreEffect) -> ConsensusCore -> Prop :=
| outcome_quiet r c' : quiet c c' -> outcome c r c'
| outcome_request m a :
    request_ok c m a -> outcome c (Ok [Persist (next_persistence_id c) m]) (begun c m a).

Lemma begin_persistence_outcome c m a :
  request_ok c m a -> post (begin_persistence m a) c (outcome c).
Proof.
  intros Hr. unfold begin_persistence. apply post_get_bind. apply post_lift_bind; [|intros; by apply outcome_quiet].
  intros n Hn. inv_ok. apply post_modify_bind, post_ret. by apply outcome_request.
Qed.

Lemma keeps_outcome {m : Core (list CoreEffect)} c : keeps quiet m -> post m c (outcome c).
Proof. intros Hk. eapply post_mono; [apply Hk|]. intros r c' Hq. by apply outcome_quiet. Qed.

(** Walk to the persistence request of a handler. *)
Ltac request_walk :=
  repeat match goal with
  | |- post (get_state ≫= _) _ _ => apply post_get_bind; cbv beta
  | |- post (lift _ ≫= _) _ _ => apply post_lift_bind; [intros ? ?|intros; by apply outcome_quiet]
  | |- post (if ?b then _ else _) _ _ => destruct b eqn:?
  | |- post (let '(_, _) := ?p in _) _ _ => destruct p eqn:?
  | |- post (raise _) _ _ => apply post_raise; by apply outcome_quiet
  | |- post (mret _) _ _ => apply post_ret; by apply outcome_quiet
  | |- post (lift _) _ _ => apply post_lift; by apply outcome_quiet
  | |- post (begin_persistence _ _) _ _ => apply begin_persistence_outcome
  end.

Lemma start_election_outcome c : post start_election c (outcome c).
Proof.
  unfold start_election. request_walk. bool_cases. inv_ok. apply request_campaign; auto.
Qed.

Lemma persist_step_down_outcome c t : current_term c < t -> post (persist_step_down t) c (outcome c).
Proof. intros Ht. apply begin_persistence_outcome. by apply request_step_down. Qed.

Lemma propose_outcome c pid op version cmd : post (propose pid op version cmd) c (outcome c).
Proof.
  unfold propose. request_walk. bool_cases. inv_ok. eapply request_proposal; eauto.
Qed.

Lemma validate_plan_Ok c epoch digest :
  is_err (validate_plan c epoch digest) = false <-> epoch = active_membership_epoch c /\ digest = active_plan_digest c.
Proof.
  unfold validate_plan. destruct (_ && _) eqn:E; cbn.
  - bool_cases. tauto.
  - split; [done|]. intros [-> ->]. by rewrite N.eqb_refl, bool_decide_eq_true_2 in E.
Qed.

Lemma vote_request_outcome c from request : post (vote_request from request) c (outcome c).
Proof.
  unfold vote_request. request_walk.
  bool_cases. match goal with HV : is_err _ = false |- _ => apply validate_plan_Ok in HV as [He Hd] end.
  unfold is_local_voter in *. bool_cases.
  apply request_vote; auto.
  - match goal with HB : _ || _ = true |- _ => apply orb_true_iff in HB as [HB|HB] end; bool_cases; [by left|].
      destruct (N.lt_ge_cases (current_term c) (vq_term request)); [by left|]. right.
      match goal with HB : _ || _ = true |- _ =>
        pose proof HB as Hcan; rewrite !orb_true_iff, N.ltb_lt, !bool_decide_eq_true in Hcan end.
      split_and!; [lia| |naive_solver lia]. by apply andb_true_iff.
  - intros Hg. bool_cases. done.
Qed.

Lemma append_request_outcome c from request : post (append_request from request) c (outcome c).
Proof.
  unfold append_request. request_walk; repeat match goal with u : unit |- _ => destruct u end; bool_cases.
  - apply request_reject. done.
  - apply keeps_outcome. quiet_walk.
  - eapply request_append; eauto.
  - apply keeps_outcome. quiet_walk.
Qed.

Lemma vote_response_outcome c from response : post (vote_response from response) c (outcome c).
Proof.
  unfold vote_response. request_walk; bool_cases.
  - by apply persist_step_down_outcome.
  - apply keeps_outcome. quiet_walk.
Qed.

Lemma append_response_outcome c from response : post (append_response from response) c (outcome c).
Proof.
  unfold append_response. request_walk; bool_cases.
  - by apply persist_step_down_outcome.
  - apply keeps_outcome. quiet_walk.
Qed.

Lemma receive_committed_prefix_outcome c from prefix : post (receive_committed_prefix from prefix) c (outcome c).
Proof.
  unfold receive_committed_prefix. request_walk; repeat match goal with u : unit |- _ => destruct u end; bool_cases.
  - eapply request_prefix; eauto.
  - apply keeps_outcome. eauto with mesh.
Qed.

Lemma activate_joint_plan_outcome c j inc at_ : joint_built j -> post (activate_joint_plan j inc at_) c (outcome c).
Proof.
  intros Hb. unfold activate_joint_plan. request_walk. destruct (active_plan c) as [current|?] eqn:Ep; request_walk.
  repeat match goal with u : unit |- _ => destruct u end; bool_cases. eapply request_joint; eauto.
Qed.

Lemma activate_stable_plan_outcome c p inc at_ : plan_built p -> post (activate_stable_plan p inc at_) c (outcome c).
Proof.
  intros Hb. unfold activate_stable_plan. request_walk. destruct (active_plan c) as [?|j] eqn:Ep; request_walk.
  repeat match goal with u : unit |- _ => destruct u end; bool_cases. eapply request_stable; eauto.
Qed.

(** Plans reach the core only through their constructors, which prove them. *)
Definition input_built (input : CoreInput) : Prop :=
  match input with
  | ActivateJointPlan j _ _ => joint_built j
  | ActivateStablePlan p _ _ => plan_built p
  | _ => True
  end.

(** Every input but a persistence acknowledgement. *)
Lemma step_outcome c input :
  input_built input -> (forall id, input <> Persisted id) -> post (step input) c (outcome c).
Proof.
  intros Hb Hin. unfold step. request_walk.
  destruct input as [| |from inc message|id|pid op v cmd|id|id|pid op|j inc at_|p inc at_|i];
    auto using start_election_outcome, propose_outcome, activate_joint_plan_outcome, activate_stable_plan_outcome;
    try (apply keeps_outcome; solve [eauto with mesh]); [|by destruct (Hin id)].
  unfold receive. request_walk. destruct message;
    auto using vote_request_outcome, vote_response_outcome, append_request_outcome, append_response_outcome,
      receive_committed_prefix_outcome.
Qed.

End requests.
