(* ===== verification/CoreLog.v ===== *)
(** The replicated log and the volatile role: contiguous, validated entries, what a requested
    mutation does to them and what an accepted range proves about them; a candidate or leader
    voted for itself in its term, a leader never credits a peer with entries it does not hold,
    and its evidence stays bounded. *)

From S2P Require Import Prelude VoterSet Predicate Plan Digest Compile FlatPlan Joint Types Membership MembershipCommand Probes History Core CoreRequest.
From stdpp Require Import prelude gmap.
#[local] Open Scope N_scope.

Section logs.
Context `{Sha256}.

(** Entries numbered consecutively from [start], each valid on its own. *)
Definition contiguous (start : N) (l : list LogEntry) : Prop :=
  forall i e, l !! i = Some e -> index (entry_position e) = start + N.of_nat i /\ validate_entry e = Ok tt.

Definition log_ok (l : list LogEntry) : Prop := contiguous 1 l.

Lemma contiguous_nil start : contiguous start [].
Proof. intros i e. by rewrite lookup_nil. Qed.

Lemma contiguous_cons start e l :
  contiguous start (e :: l) <-> index (entry_position e) = start /\ validate_entry e = Ok tt /\ contiguous (start + 1) l.
Proof.
  split.
  - intros Hc. destruct (Hc 0%nat e eq_refl) as [Hi Hv]. split_and!; [lia|done|].
    intros i e' He. destruct (Hc (S i) e' He). split; [lia|done].
  - intros (Hi & Hv & Hc) [|i] e' He; cbn in He; [simplify_eq; split; [lia|done]|].
    destruct (Hc i e' He). split; [lia|done].
Qed.

Lemma contiguous_app start l k :
  contiguous start (l ++ k) <-> contiguous start l /\ contiguous (start + len l) k.
Proof.
  revert start. induction l as [|e l IH]; intros start; cbn [app].
  - unfold len. cbn. rewrite N.add_0_r. split; [by intros; split; [apply contiguous_nil|]|by intros [_ ?]].
  - rewrite !contiguous_cons, IH, len_cons. replace (start + 1 + len l) with (start + (len l + 1)) by lia. tauto.
Qed.

Lemma contiguous_take start l n : contiguous start l -> contiguous start (take n l).
Proof. intros Hc i e [He _]%lookup_take_Some. by apply Hc. Qed.

Lemma contiguous_drop start l n :
  contiguous start l -> contiguous (start + N.of_nat n) (drop n l).
Proof. intros Hc i e He. rewrite lookup_drop in He. destruct (Hc _ _ He). split; [lia|done]. Qed.

Lemma contiguous_last start l e :
  contiguous start l -> last l = Some e -> index (entry_position e) + 1 = start + len l.
Proof.
  intros Hc Hl. rewrite last_lookup in Hl. destruct (Hc _ _ Hl) as [-> _].
  pose proof (lookup_lt_Some _ _ _ Hl). unfold len. lia.
Qed.

Lemma last_index_len c : log_ok (log c) -> index (last_position c) = len (log c).
Proof.
  intros Hl. unfold last_position. destruct (last (log c)) as [e|] eqn:E.
  - pose proof (contiguous_last 1 _ _ Hl E). lia.
  - apply last_None in E. by rewrite E.
Qed.

Lemma entry_lookup c i e :
  log_ok (log c) -> entry c i = Some e <-> 0 < i /\ log c !! N.to_nat (i - 1) = Some e.
Proof.
  intros Hl. unfold entry, checked_sub. destruct (N.leb_spec 1 i) as [Hi|Hi]; cbn [mbind option_bind]; [|naive_solver lia].
  rewrite nth_N_lookup. destruct (log c !! N.to_nat (i - 1)) as [e'|] eqn:E; cbn [mbind option_bind]; [|naive_solver].
  destruct (Hl _ _ E) as [-> _]. rewrite (proj2 (N.eqb_eq _ _)) by lia. naive_solver lia.
Qed.

Lemma entry_index c i e : entry c i = Some e -> index (entry_position e) = i.
Proof.
  unfold entry. intros Hx. apply bind_Some in Hx as (o & _ & Hx). apply bind_Some in Hx as (e' & _ & Hx).
  destruct (N.eqb_spec (index (entry_position e')) i); by simplify_eq.
Qed.

Lemma entry_exists c i : log_ok (log c) -> 0 < i -> i <= len (log c) -> exists e, entry c i = Some e.
Proof.
  intros Hl Hi Hle. destruct (log c !! N.to_nat (i - 1)) as [e|] eqn:E.
  - exists e. by apply entry_lookup.
  - apply lookup_ge_None in E. unfold len in Hle. lia.
Qed.

Lemma entry_le_len c i e : log_ok (log c) -> entry c i = Some e -> 0 < i /\ i <= len (log c).
Proof.
  intros Hl [Hi He]%entry_lookup; [|done]. apply lookup_lt_Some in He. unfold len. lia.
Qed.

(** [retain(|entry| entry.position.index < from)] cuts the log at [from]. *)
Lemma retain_take from start l :
  contiguous start l -> filter (fun e => index (entry_position e) < from) l = take (N.to_nat (from - start)) l.
Proof.
  revert start. induction l as [|e l IH]; intros start; [by rewrite take_nil|].
  rewrite contiguous_cons. intros (Hi & _ & Hc). rewrite filter_cons, (IH (start + 1) Hc), Hi. case_decide.
  - replace (N.to_nat (from - start)) with (S (N.to_nat (from - (start + 1)))) by lia. done.
  - replace (N.to_nat (from - start)) with 0%nat by lia.
    replace (N.to_nat (from - (start + 1))) with 0%nat by lia. done.
Qed.

(** ** What a mutation does *)

(** The log after [retain] and the appended entries. *)
Definition log_after (m : DurableMutation) (l : list LogEntry) : list LogEntry :=
  match truncate_from m with Some from => take (N.to_nat (from - 1)) l | None => l end ++ append m.

Definition term_after (m : DurableMutation) (t : N) : N :=
  match vote_state m with Some (t', _) => t' | None => t end.
Definition vote_after (m : DurableMutation) (v : option NodeId) : option NodeId :=
  match vote_state m with Some (_, v') => v' | None => v end.

(** What [apply_durable_mutation] needs in order to succeed. *)
Definition mutation_ok (c : ConsensusCore) (m : DurableMutation) : Prop :=
  match mutation_epoch m with
  | Some e => e = active_membership_epoch c \/ e = saturating_add u64_max (active_membership_epoch c) 1
  | None => True
  end /\
  match vote_state m with Some (t, _) => current_term c <= t /\ t <> 0 | None => True end /\
  match truncate_from m with Some from => commit_index c < from /\ from <= len (log c) | None => True end /\
  log_ok (log_after m (log c)) /\ len (log_after m (log c)) <= u64_max.

Definition stepped_down (c : ConsensusCore) (m : DurableMutation) : ConsensusCore :=
  match vote_state m with
  | Some (t, _) => if current_term c <? t then with_leader_id None (with_role Following c) else c
  | None => c
  end.

(** The state [apply_durable_mutation] ends in. *)
Definition mutated (c : ConsensusCore) (m : DurableMutation) : ConsensusCore :=
  with_log (log_after m (log c))
    (with_vote (term_after m (current_term c)) (vote_after m (voted_for c)) (stepped_down c m)).

Lemma with_log_same c : with_log (log c) c = c.
Proof. by destruct c. Qed.
Lemma with_vote_same c : with_vote (current_term c) (voted_for c) c = c.
Proof. by destruct c. Qed.

Lemma install_entries_ok entries c :
  log_ok (log c ++ entries) -> len (log c ++ entries) <= u64_max ->
  install_entries entries c = (Ok tt, with_log (log c ++ entries) c).
Proof.
  revert c. induction entries as [|e rest IH]; intros c Hl Hlen; cbn [install_entries].
  - by rewrite app_nil_r, with_log_same.
  - pose proof Hl as [Hl1 Hl2]%contiguous_app. rewrite contiguous_cons in Hl2. destruct Hl2 as (Hi & Hv & _).
    rewrite len_app, len_cons in Hlen.
    unfold mbind at 1, SE_bind at 1, lift at 1. rewrite Hv. unfold mbind at 1, SE_bind at 1, get_state.
    rewrite (last_index_len c Hl1). rewrite (proj2 (checked_add_Some u64_max _ 1 (len (log c) + 1))) by lia.
    unfold mbind at 1, SE_bind at 1, lift. cbn [ok_or].
    rewrite (proj2 (N.eqb_eq (index (entry_position e)) (len (log c) + 1))) by lia. cbn [negb].
    unfold mbind, SE_bind, modify_state. rewrite IH; cbn [log with_log]; rewrite <- app_assoc; [done|done|].
    cbn [app]. rewrite len_app, len_cons. lia.
Qed.

Lemma apply_durable_mutation_ok c m :
  log_ok (log c) -> mutation_ok c m -> apply_durable_mutation m c = (Ok tt, mutated c m).
Proof.
  intros Hl (He & Hv & Ht & Ha & Hlen). unfold apply_durable_mutation.
  unfold mbind at 1, SE_bind at 1, get_state at 1.
  assert (match mutation_epoch m with
     | Some epoch => negb (epoch =? active_membership_epoch c)
                     && negb (epoch =? saturating_add u64_max (active_membership_epoch c) 1)
     | None => false end = false) as ->.
  { destruct (mutation_epoch m) as [e|]; [|done]. destruct He as [->| ->]; rewrite N.eqb_refl; cbn; [done|].
    by rewrite andb_false_r. }
  set (c1 := with_vote (term_after m (current_term c)) (vote_after m (voted_for c)) (stepped_down c m)).
  assert ((match vote_state m with
        | Some (t, v) =>
            if (t <? current_term c) || (t =? 0) then raise InvalidInput
            else _ ← (if current_term c <? t then follow_leader None else mret tt); modify_state (with_vote t v)
        | None => mret tt
        end) c = (Ok tt, c1)) as Hvote.
  { subst c1. unfold term_after, vote_after, stepped_down. destruct (vote_state m) as [[t v]|]; [|by rewrite with_vote_same].
    destruct Hv as [Hge Hne]. rewrite (proj2 (N.ltb_ge t (current_term c))), (proj2 (N.eqb_neq t 0)) by done. cbn [orb].
    by destruct (current_term c <? t). }
  unfold mbind at 1, SE_bind at 1. rewrite Hvote. unfold mbind at 1, SE_bind at 1.
  assert (log c1 = log c /\ commit_index c1 = commit_index c) as [El Ec].
  { subst c1. unfold stepped_down. destruct (vote_state m) as [[t v]|]; [|done]. by destruct (current_term c <? t). }
  unfold log_after in *. unfold mutated, log_after. fold c1.
  destruct (truncate_from m) as [from|].
  - unfold mbind at 1, SE_bind at 1, get_state. rewrite Ec.
    rewrite (proj2 (N.leb_gt from (commit_index c))), (proj2 (N.eqb_neq from 0)) by lia. cbn [orb].
    unfold modify_state. rewrite El, (retain_take from 1 _ Hl).
    rewrite install_entries_ok by done. done.
  - unfold mret, SE_ret. rewrite install_entries_ok by (by rewrite El). by rewrite El.
Qed.

(** ** Ranges received from peers *)

Lemma try_fold_contiguous limit_term start entries last :
  try_fold (fun expected e =>
    _ ← validate_entry e;
    if negb (index (entry_position e) =? expected) || (limit_term <? term (entry_position e))
    then Err InvalidInput else ok_or (checked_add u64_max expected 1) Exhausted) start entries = Ok last ->
  contiguous start entries /\ Forall (fun e => term (entry_position e) <= limit_term) entries /\
  last = start + len entries /\ (entries <> [] -> last <= u64_max).
Proof.
  revert start. induction entries as [|e rest IH]; intros start Hf; cbn [try_fold] in Hf.
  - inv_ok. split_and!; [apply contiguous_nil|constructor|unfold len; cbn; lia|done].
  - inv_ok. bool_cases. repeat match goal with u : unit |- _ => destruct u end.
    match goal with HF : try_fold _ _ _ = Ok _ |- _ => apply IH in HF as (Hc & Ht & -> & Hlast) end.
    rewrite contiguous_cons, Forall_cons, len_cons. split_and!; auto; [lia|].
    intros _. destruct rest; [unfold len; cbn; lia|]. specialize (Hlast ltac:(done)). rewrite len_cons in *. lia.
Qed.

Lemma validate_append_entries_inv request :
  validate_append_entries request = Ok tt ->
  contiguous (index (aq_previous request) + 1) (aq_entries request) /\
  Forall (fun e => term (entry_position e) <= aq_term request) (aq_entries request) /\
  index (aq_previous request) + 1 + len (aq_entries request) <= u64_max /\ aq_term request <> 0 /\
  position_is_valid (aq_previous request) = true.
Proof.
  unfold validate_append_entries. intros Hv. inv_ok. bool_cases.
  match goal with HF : try_fold _ _ _ = Ok _ |- _ => apply try_fold_contiguous in HF as (Hc & Ht & -> & Hl) end.
  split_and!; auto. destruct (aq_entries request); [unfold len; cbn; lia|by apply Hl].
Qed.

Lemma try_fold_prefix at_ entries last_ :
  try_fold (fun at_ e =>
    _ ← validate_entry e;
    next ← ok_or (checked_add u64_max (index at_) 1) Exhausted;
    if negb (index (entry_position e) =? next) || (term (entry_position e) <? term at_)
    then Err InvalidInput
    else Ok {| term := term (entry_position e); index := next |}) at_ entries = Ok last_ ->
  contiguous (index at_ + 1) entries /\ index last_ = index at_ + len entries /\
  term last_ = match last entries with Some e => term (entry_position e) | None => term at_ end /\
  term at_ <= term last_ /\ Forall (fun e => term (entry_position e) <= term last_) entries /\
  (entries <> [] -> index last_ <= u64_max).
Proof.
  revert at_. induction entries as [|e rest IH]; intros at_ Hf; cbn [try_fold] in Hf.
  - inv_ok. split_and!; [apply contiguous_nil|unfold len; cbn; lia|done|done|constructor|done].
  - inv_ok. bool_cases. repeat match goal with u : unit |- _ => destruct u end.
    match goal with HF : try_fold _ _ _ = Ok _ |- _ => apply IH in HF as (Hc & Hi & Ht & Hle & Hall & Hmax) end.
    cbn [index term] in *. rewrite contiguous_cons, Forall_cons, len_cons. split_and!; auto; try lia.
    + rewrite Ht, last_cons. by destruct (last rest).
    + intros _. destruct rest; [unfold len in Hi; cbn in Hi; lia|]. by apply Hmax.
Qed.

Lemma validate_committed_prefix_inv prefix :
  validate_committed_prefix prefix = Ok tt ->
  contiguous (index (cp_previous prefix) + 1) (cp_entries prefix) /\
  cp_committed_index prefix = index (cp_previous prefix) + len (cp_entries prefix) /\
  (let observed := match last (cp_entries prefix) with
                   | Some e => term (entry_position e) | None => term (cp_previous prefix) end in
   Forall (fun e => term (entry_position e) <= observed) (cp_entries prefix) /\
   term (cp_previous prefix) <= observed) /\
  (cp_entries prefix <> [] -> cp_committed_index prefix <= u64_max) /\
  position_is_valid (cp_previous prefix) = true.
Proof.
  unfold validate_committed_prefix. intros Hv. inv_ok. bool_cases.
  match goal with HF : try_fold _ _ _ = Ok _ |- _ => apply try_fold_prefix in HF as (Hc & Hi & Ht & Hle & Hall & Hmax) end.
  split_and!; auto; [congruence| |by rewrite <- Ht|intros Hne; specialize (Hmax Hne); congruence].
  by rewrite <- Ht.
Qed.

Lemma position_matches_inv c p digest :
  log_ok (log c) -> position_matches c p digest = true -> position_is_valid p = true ->
  index p <= len (log c) /\
  ((p = GENESIS /\ digest = zero32) \/
   exists e, entry c (index p) = Some e /\ term (entry_position e) = term p /\ entry_digest e = digest).
Proof.
  intros Hl. unfold position_matches. destruct (bool_decide_reflect (p = GENESIS)) as [->|Hp].
  - intros Hd _. bool_cases. split; [apply N.le_0_l|by left].
  - destruct (entry c (index p)) as [e|] eqn:E; [|done]. intros Hd _. bool_cases.
    split; [by eapply entry_le_len|right; eauto].
Qed.

(** Two entries that agree as far as the log comparison looks. *)
Definition same_record (e e' : LogEntry) : Prop :=
  entry_position e = entry_position e' /\ entry_digest e = entry_digest e'.

(** What [log_delta] found: the first [k] entries are already here, the rest is new
    and starts either at a conflict above the commit index or right after the log. *)
Lemma log_delta_inv c start incoming truncate suffix :
  log_ok (log c) -> contiguous start incoming -> 0 < start -> start <= len (log c) + 1 ->
  log_delta c incoming = Ok (truncate, suffix) ->
  exists k, suffix = drop k incoming /\ (k <= length incoming)%nat /\
    (forall i e, (i < k)%nat -> incoming !! i = Some e ->
       exists e', entry c (start + N.of_nat i) = Some e' /\ same_record e' e) /\
    match truncate with
    | Some from => from = start + N.of_nat k /\ commit_index c < from /\ from <= len (log c) /\ (k < length incoming)%nat
    | None => start + N.of_nat k <= len (log c) + 1 /\ (suffix <> [] -> start + N.of_nat k = len (log c) + 1)
    end.
Proof.
  intros Hl. revert start. induction incoming as [|e rest IH]; intros start Hc Hpos Hle Hd; cbn [log_delta] in Hd.
  - simplify_eq. exists 0%nat. split_and!; [done|done|intros; lia|lia|done].
  - apply contiguous_cons in Hc as (Hi & Hv & Hc). rewrite Hi in Hd.
    assert (index (entry_position e) <= start <= index (entry_position e)) as Hbounds by lia. clear Hi.
    destruct (entry c start) as [existing|] eqn:E.
    + pose proof (entry_le_len _ _ _ Hl E) as [_ Hlen]. destruct (_ && _) eqn:Es.
      * bool_cases. destruct (IH (start + 1) Hc ltac:(lia) ltac:(lia) Hd) as (k & -> & Hk & Hall & Htr).
        exists (S k). split_and!; [done|cbn; lia| |].
        -- intros [|i] e' Hik He'; cbn in He'.
           ++ simplify_eq. rewrite N.add_0_r. exists existing. split; [done|]. split; [|done].
              pose proof (entry_index _ _ _ E). destruct (entry_position existing), (entry_position e'); cbn in *. f_equal; lia.
           ++ destruct (Hall i e' ltac:(lia) He') as (e'' & He'' & Hs). exists e''. split; [|done].
              replace (start + N.of_nat (S i)) with (start + 1 + N.of_nat i) by lia. done.
        -- replace (start + N.of_nat (S k)) with (start + 1 + N.of_nat k) by lia.
           destruct truncate; cbn [length] in *; [|done]. destruct_and!. split_and!; auto. lia.
      * inv_ok. bool_cases. simplify_eq. exists 0%nat. rewrite N.add_0_r.
        split_and!; try done; [cbn; lia|intros; lia|cbn; lia].
    + simplify_eq. exists 0%nat. rewrite N.add_0_r. split_and!; [done|cbn; lia|intros; lia|done|].
      intros _. destruct (N.eq_dec start (len (log c) + 1)) as [|Hne]; [done|].
      destruct (entry_exists c start Hl Hpos ltac:(lia)) as [x Hx]. congruence.
Qed.

(** The log after installing an accepted range: everything up to the first new entry
    is kept, the range is present, and nothing follows a new entry. *)
Lemma range_installed c start incoming truncate suffix vs :
  log_ok (log c) -> contiguous start incoming -> 0 < start -> start <= len (log c) + 1 ->
  start + len incoming <= u64_max + 1 -> commit_index c <= len (log c) -> len (log c) <= u64_max ->
  log_delta c incoming = Ok (truncate, suffix) ->
  let m := {| vote_state := vs; truncate_from := truncate; append := suffix; mutation_epoch := None; quorum_plan := None |} in
  let l' := log_after m (log c) in
  log_ok l' /\ len l' <= u64_max /\
  match truncate with Some from => commit_index c < from /\ from <= len (log c) | None => True end /\
  (forall i, i < commit_index c -> l' !! N.to_nat i = log c !! N.to_nat i) /\
  start + len incoming <= len l' + 1 /\
  (forall i e, incoming !! i = Some e ->
     exists e', l' !! N.to_nat (start - 1 + N.of_nat i) = Some e' /\ same_record e' e) /\
  (forall e, e ∈ l' -> e ∈ log c \/ e ∈ incoming).
Proof.
  intros Hl Hc Hpos Hstart Hmax Hcommit Hlen Hd m l'.
  destruct (log_delta_inv c start incoming truncate suffix Hl Hc Hpos Hstart Hd) as (k & -> & Hk & Hall & Htr).
  assert (exists n, l' = take n (log c) ++ drop k incoming /\ (n <= length (log c))%nat /\
    (drop k incoming <> [] -> N.of_nat n + 1 = start + N.of_nat k) /\
    (drop k incoming = [] -> n = length (log c)) /\ (N.to_nat (commit_index c) <= n)%nat /\
    start + N.of_nat k <= N.of_nat n + 1)
    as (n & El & Hn & Hnew & Hsame & Hcn & Hreach).
  { subst l' m. unfold log_after. cbn [truncate_from append]. destruct truncate as [from|].
    - destruct Htr as (-> & Hgt & Hfrom & Hkl). exists (N.to_nat (start + N.of_nat k - 1)).
      unfold len in *. split_and!; try done; try lia. intros E. apply (f_equal length) in E. rewrite length_drop in E. cbn in E. lia.
    - exists (length (log c)). rewrite firstn_all. destruct Htr as [Htr1 Htr2]. unfold len in *.
      split_and!; try done; try lia. intros Hne. specialize (Htr2 Hne). lia. }
  assert (length l' = n + (length incoming - k))%nat as Elen.
  { rewrite El, length_app, length_take, length_drop. lia. }
  assert (forall i e, incoming !! i = Some e ->
     exists e', l' !! N.to_nat (start - 1 + N.of_nat i) = Some e' /\ same_record e' e) as Hpresent.
  { intros i e He. destruct (decide (i < k)%nat) as [Hik|Hik].
    - destruct (Hall i e Hik He) as (e' & He' & Hs). exists e'. split; [|done].
      apply entry_lookup in He' as [_ He']; [|done]. replace (start - 1 + N.of_nat i) with (start + N.of_nat i - 1) by lia.
      rewrite El, lookup_app_l; [rewrite lookup_take_lt by lia; done|]. rewrite length_take. lia.
    - assert (drop k incoming !! (i - k)%nat = Some e) as Hdr.
      { rewrite lookup_drop. by replace (k + (i - k))%nat with i by lia. }
      assert (drop k incoming <> []) as Hne by (intros E; by rewrite E, lookup_nil in Hdr).
      specialize (Hnew Hne). exists e. split; [|done]. rewrite El, lookup_app_r by (rewrite length_take; lia).
      rewrite length_take. rewrite <- Hdr. f_equal. lia. }
  split_and!; auto.
  - rewrite El. apply contiguous_app. split; [by apply contiguous_take|].
    destruct (decide (drop k incoming = [])) as [E|Hne]; [rewrite E; apply contiguous_nil|].
    replace (1 + len (take n (log c))) with (start + N.of_nat k); [by apply contiguous_drop|].
    unfold len. rewrite length_take. specialize (Hnew Hne). lia.
  - unfold len in *. rewrite Elen. destruct (decide (drop k incoming = [])) as [E|Hne].
    + specialize (Hsame E). apply (f_equal length) in E. rewrite length_drop in E. cbn in E. lia.
    + specialize (Hnew Hne). lia.
  - destruct truncate as [from|]; [|done]. tauto.
  - intros i Hi. rewrite El, lookup_app_l by (rewrite length_take; lia). by rewrite lookup_take_lt by lia.
  - unfold len in *. rewrite Elen. lia.
  - intros e. rewrite El, elem_of_app. intros [He|He]; [left|right].
    + apply list_elem_of_lookup in He as [i [He _]%lookup_take_Some]. by eapply list_elem_of_lookup_2.
    + apply list_elem_of_lookup in He as [i He]. rewrite lookup_drop in He. by eapply list_elem_of_lookup_2.
Qed.

End logs.

(** Symbolic execution towards an invariant. *)
Ltac inv_step :=
  match goal with
  | |- post (get_state ≫= _) _ _ => apply post_get_bind; cbv beta
  | |- post (modify_state _ ≫= _) _ _ => apply post_modify_bind; cbv beta
  | |- post (mret _ ≫= _) _ _ => apply (post_bind (mret _)), post_ret; cbv beta
  | |- post (lift _ ≫= _) _ _ => apply post_lift_bind; [intros ? ?|intros ? ?; try done]
  | |- post (raise _) _ _ => apply post_raise
  | |- post (mret _) _ _ => apply post_ret
  | |- post (lift _) _ _ => apply post_lift
  | |- post (modify_state _) _ _ => apply post_modify
  | |- post (if ?b then _ else _) _ _ => destruct b eqn:?
  | |- post (match ?x with _ => _ end) _ _ => destruct x eqn:?
  | |- post ((if ?b then _ else _) ≫= _) _ _ => destruct b eqn:?
  | |- post ((match ?x with _ => _ end) ≫= _) _ _ => destruct x eqn:?
  | |- post ((_ ≫= _) ≫= _) _ _ => apply post_bind
  end.
Ltac inv_walk := repeat inv_step; try done.

Section roles.
Context `{Sha256}.

Definition leader_ok (c : ConsensusCore) (l : LeaderState) : Prop :=
  (forall n m, matched l !! n = Some m -> m <= len (log c)) /\
  (forall n p, probes l !! n = Some p -> lanes_bounded p) /\
  N.of_nat (size (read_barriers l)) <= MAXIMUM_PENDING_READ_BARRIERS.

Definition self_elected (c : ConsensusCore) : Prop := voted_for c = Some (local_id c) /\ 0 < current_term c.

Definition role_ok (c : ConsensusCore) : Prop :=
  match role c with
  | Following => True
  | Campaigning _ => self_elected c
  | Leading l => self_elected c /\ leader_ok c l
  end.

(** The log fact the role depends on. *)
Definition role_inv (c : ConsensusCore) : Prop := log_ok (log c) /\ role_ok c.

Lemma role_inv_leader c l :
  role c = Leading l -> role_inv c -> log_ok (log c) /\ self_elected c /\ leader_ok c l.
Proof. unfold role_inv, role_ok. by intros ->. Qed.

Lemma role_inv_with_role c r :
  log_ok (log c) ->
  match r with
  | Following => True
  | Campaigning _ => self_elected c
  | Leading l => self_elected c /\ leader_ok c l
  end -> role_inv (with_role r c).
Proof. intros Hl Hr. split; [done|]. unfold role_ok. cbn. destruct r; exact Hr. Qed.

Definition preserved {A} (P : ConsensusCore -> Prop) (m : Core A) : Prop :=
  forall c, P c -> post m c (fun _ c' => P c').

Lemma preserved_bind {A B} P (m : Core A) (f : A -> Core B) :
  preserved P m -> (forall a, preserved P (f a)) -> preserved P (m ≫= f).
Proof.
  intros Hm Hf c Hc. apply post_bind. eapply post_mono; [by apply Hm|]. intros [a|e] c' Hc'; [|done].
  by apply Hf.
Qed.

Lemma preserved_traverse {A B} P (f : A -> Core B) l : (forall x, preserved P (f x)) -> preserved P (traverse f l).
Proof.
  intros Hf. induction l as [|x l IH]; cbn [traverse]; [by intros c Hc; apply post_ret|].
  apply preserved_bind; [apply Hf|]. intros y. apply preserved_bind; [apply IH|]. by intros ys c Hc; apply post_ret.
Qed.

(** Use a preserved method, then go on from whatever state it left. *)
Lemma preserved_then {A B} P (m : Core A) (f : A -> Core B) c :
  preserved P m -> P c -> (forall a, preserved P (f a)) -> post (m ≫= f) c (fun _ c' => P c').
Proof. intros Hm Hc Hf. exact (preserved_bind P m f Hm Hf c Hc). Qed.

Lemma probe_effect_role peer kind id : preserved role_inv (probe_effect peer kind id).
Proof.
  intros c Hc. unfold probe_effect. apply post_get_bind. destruct (role c) as [|?|l] eqn:Er; [done..|].
  pose proof (role_inv_leader _ _ Er Hc) as (Hl & He & Hm & Hp & Hb).
  assert (forall request n, role_inv (with_role (Leading (with_probes
      (<[peer := sent (default probes_default (probes l !! peer)) request kind]> (probes l)) l))
      (with_next_append_probe_id n c)) /\ role_inv (with_role (Leading (with_probes
      (<[peer := sent (default probes_default (probes l !! peer)) request kind]> (probes l)) l)) c)) as Hdone.
  { intros request n. assert (leader_ok c (with_probes
      (<[peer := sent (default probes_default (probes l !! peer)) request kind]> (probes l)) l)) as Hok.
    { split_and!; [done| |done]. cbn. intros k p [[<- <-]|[_ Hk]]%lookup_insert_Some; [|eauto].
      apply sent_bounded. destruct (probes l !! peer) as [q|] eqn:Eq; cbn; [eauto|].
      split; cbn; rewrite map_size_empty; done. }
    split; apply role_inv_with_role; auto; split; auto. }
  inv_walk; apply (Hdone _ _) || (eapply proj1, Hdone).
Qed.

Lemma probe_peers_role kind id : preserved role_inv (probe_peers kind id).
Proof.
  intros c Hc. unfold probe_peers. apply post_get_bind. apply preserved_traverse; [|done].
  intros peer. apply probe_effect_role.
Qed.

Lemma heartbeat_role : preserved role_inv heartbeat.
Proof.
  intros c Hc. unfold heartbeat. inv_walk. apply preserved_then; [|done|by intros ? ? ?; apply post_ret].
  apply preserved_traverse. intros peer c1 Hc1. apply post_get_bind.
  apply preserved_then; [|done|].
  - destruct (match peer_matched_index c1 peer with None => true | Some m => m <? index (last_position c) end);
      [|by intros ? ?; apply post_ret].
    apply preserved_bind; [apply probe_effect_role|by intros ? ? ?; apply post_ret].
  - intros first. apply preserved_bind; [apply probe_effect_role|by intros ? ? ?; apply post_ret].
Qed.

Lemma foldl_delete_size {V} (m : gmap N V) (l : list (N * N)) :
  (size (foldl (fun m '(id, _) => delete id m) m l) <= size m)%nat.
Proof.
  revert m. induction l as [|[k v] l IH]; intros m; cbn [foldl]; [done|]. etransitivity; [apply IH|].
  rewrite map_size_delete. destruct (m !! k); cbn; lia.
Qed.

Lemma complete_read_barriers_role : preserved role_inv complete_read_barriers.
Proof.
  intros c Hc. unfold complete_read_barriers. inv_walk.
  pose proof (role_inv_leader _ _ ltac:(eassumption) Hc) as (Hl & He & Hm & Hp & Hb).
  apply role_inv_with_role; [done|]. split; [done|]. split_and!; [done|done|]. cbn [read_barriers with_barriers].
  match goal with |- context [foldl _ ?m ?l] => pose proof (foldl_delete_size m l) as Hs end.
  rewrite map_size_fmap in Hs. lia.
Qed.

Lemma acknowledge_read_barrier_role from id : preserved role_inv (acknowledge_read_barrier from id).
Proof.
  intros c Hc. unfold acknowledge_read_barrier. inv_walk. apply complete_read_barriers_role.
  pose proof (role_inv_leader _ _ ltac:(eassumption) Hc) as (Hl & He & Hm & Hp & Hb).
  apply role_inv_with_role; [done|]. split; [done|]. split_and!; [done|done|]. cbn [read_barriers with_barriers].
  rewrite map_size_insert. match goal with HB : read_barriers _ !! _ = Some _ |- _ => rewrite HB end. done.
Qed.

Lemma begin_read_barrier_role id : preserved role_inv (begin_read_barrier id).
Proof.
  intros c Hc. unfold begin_read_barrier. inv_walk; apply complete_read_barriers_role || apply probe_peers_role.
  all: pose proof (role_inv_leader _ _ ltac:(eassumption) Hc) as (Hl & He & Hm & Hp & Hb).
  all: apply role_inv_with_role; [done|]; split; [done|]; split_and!; [done|done|]; cbn [read_barriers with_barriers].
  all: bool_cases; rewrite map_size_insert; destruct (read_barriers _ !! id); cbn; lia.
Qed.

Lemma cancel_read_barrier_role id : preserved role_inv (cancel_read_barrier id).
Proof.
  intros c Hc. unfold cancel_read_barrier. inv_walk.
  pose proof (role_inv_leader _ _ ltac:(eassumption) Hc) as (Hl & He & Hm & Hp & Hb).
  apply role_inv_with_role; [done|]. split; [done|]. split_and!; [done|done|]. cbn [read_barriers with_barriers].
  rewrite map_size_delete. destruct (read_barriers _ !! id); cbn; lia.
Qed.

Lemma applied_through_role i : preserved role_inv (applied_through i).
Proof. intros c Hc. unfold applied_through. inv_walk. by apply complete_read_barriers_role. Qed.

Lemma advance_leader_commit_role : preserved role_inv advance_leader_commit.
Proof. intros c Hc. unfold advance_leader_commit. inv_walk. Qed.

Lemma advance_follower_commit_role i : preserved role_inv (advance_follower_commit i).
Proof. intros c Hc. unfold advance_follower_commit. inv_walk. Qed.

Lemma follow_leader_role leader : preserved role_inv (follow_leader leader).
Proof. intros c [Hl _]. unfold follow_leader. apply post_modify. split; [done|exact I]. Qed.

Lemma foldl_or_insert_bound (f : N -> N) bound (m : gmap N N) keys :
  (forall k v, m !! k = Some v -> v <= bound) -> (forall k, f k <= bound) ->
  forall k v, foldl (fun m k => or_insert k (f k) m) m keys !! k = Some v -> v <= bound.
Proof.
  intros Hm Hf. revert m Hm. induction keys as [|key keys IH]; intros m Hm; cbn [foldl]; [exact Hm|].
  apply IH. intros k v. unfold or_insert. destruct (m !! key) eqn:E; [apply Hm|].
  intros [[<- <-]|[_ Hk]]%lookup_insert_Some; [apply Hf|by eapply Hm].
Qed.

(** Becoming leader starts from the local log and no evidence about anyone else. *)
Lemma become_leader_role c :
  log_ok (log c) -> self_elected c -> role_inv c -> post become_leader c (fun _ c' => role_inv c').
Proof.
  intros Hl He Hc. unfold become_leader. apply post_get_bind. apply post_lift_bind; [|done]. intros n Hn.
  apply post_modify_bind. apply preserved_then; [apply probe_peers_role| |by intros ? ? ?; apply post_ret].
  split; [done|]. split; [done|]. split_and!; cbn.
  - apply (foldl_or_insert_bound (fun _ => 0)); [|lia].
    intros k v [<- <-]%lookup_singleton_Some. by rewrite (last_index_len c Hl).
  - intros k p Hk. by rewrite lookup_empty in Hk.
  - rewrite map_size_empty. unfold MAXIMUM_PENDING_READ_BARRIERS. lia.
Qed.

Lemma finish_campaign_role c :
  log_ok (log c) -> self_elected c -> post finish_campaign c (fun _ c' => role_inv c').
Proof.
  intros Hl He. unfold finish_campaign. apply post_modify_bind, post_get_bind.
  assert (role_inv (with_role (Campaigning {[local_id c]}) (with_leader_id None c))) as Hc by done.
  inv_walk. apply post_bind. eapply post_mono; [apply become_leader_role; done|].
  intros [effects|e] c' Hc'; [by apply post_ret|done].
Qed.

Lemma vote_response_role from response : preserved role_inv (vote_response from response).
Proof.
  intros c Hc. unfold vote_response. inv_walk.
  - unfold persist_step_down, begin_persistence. inv_walk.
  - destruct Hc as [Hl Hr]. unfold role_ok in Hr. match goal with HR : role _ = _ |- _ => rewrite HR in Hr end.
    by apply become_leader_role.
  - destruct Hc as [Hl Hr]. unfold role_ok in Hr. match goal with HR : role _ = _ |- _ => rewrite HR in Hr end. done.
Qed.

Lemma record_progress_role c from hint last_index proof l :
  role c = Leading l -> last_index = len (log c) -> role_inv c ->
  post (record_progress from hint last_index proof l) c (fun _ c' => role_inv c').
Proof.
  intros Er Hli Hc. pose proof (role_inv_leader _ _ Er Hc) as (Hl & He & Hm & Hp & Hb).
  assert (forall i n, i <= len (log c) -> leader_ok c (with_progress (<[from := N.max (default 0 (matched l !! from)) i]> (matched l)) n l)) as Hok.
  { intros i n Hi. split_and!; [|done|done]. cbn. intros k m [[<- <-]|[_ Hk]]%lookup_insert_Some; [|by eapply Hm].
    destruct (matched l !! from) as [x|] eqn:E; cbn; [specialize (Hm _ _ E)|]; lia. }
  unfold record_progress. inv_walk; bool_cases.
  all: apply role_inv_with_role; [done|]; split; [done|]; try (apply Hok; lia); done.
Qed.

Lemma receive_probe_ok c l from p response r p' :
  leader_ok c l -> probes l !! from = Some p -> receive_probe p response = Ok (r, p') ->
  leader_ok c (with_probes (<[from := p']> (probes l)) l).
Proof.
  intros (Hm & Hp & Hb) E Hr. split_and!; [done| |done]. cbn.
  intros k q [[<- <-]|[_ Hk]]%lookup_insert_Some; [|by eapply Hp]. eapply receive_bounded; [by eapply Hp|done].
Qed.

Lemma append_response_role from response : preserved role_inv (append_response from response).
Proof.
  intros c Hc. unfold append_response. apply post_get_bind. destruct (is_err _); [inv_walk|].
  destruct (response_malformed _); [inv_walk|].
  destruct (current_term c <? _); [unfold persist_step_down, begin_persistence; inv_walk|].
  destruct (_ <? current_term c); [inv_walk|].
  destruct (role c) as [|?|l] eqn:Er; [inv_walk..|]. destruct (probes l !! from) as [p|] eqn:Ep; [|inv_walk].
  apply post_lift_bind; [|done]. intros [proof p'] Hrec.
  pose proof (role_inv_leader _ _ Er Hc) as (Hl & He & Hok).
  destruct proof as [proof|]; [|inv_walk; apply preserved_then; [apply probe_effect_role|done|by intros ? ? ?; apply post_ret]].
  apply post_modify_bind. set (l' := with_probes _ l).
  assert (role_inv (with_role (Leading l') c)) as Hc'.
  { apply role_inv_with_role; [done|]. split; [done|]. by eapply receive_probe_ok. }
  assert (forall proof, post
    (_ ← record_progress from (ar_next_index_hint response) (index (last_position c)) proof l';
     c' ← get_state;
     let peer_next := match role c' with Leading l'' => default 1 (next l'' !! from) | _ => 1 end in
     committed ← advance_leader_commit;
     reads ← acknowledge_read_barrier from (ar_read_barrier_id response);
     more ← (if peer_next <=? index (last_position c) then e ← probe_effect from Replication None; mret [e] else mret []);
     mret (committed ++ reads ++ more)) (with_role (Leading l') c) (fun _ c' => role_inv c')) as Hgo.
  { intros proof'. apply post_bind. eapply post_mono; [apply record_progress_role; [done| |done]|].
    { by rewrite (last_index_len c Hl). }
    intros [u|e] c1 Hc1; [|done]. apply post_get_bind.
    apply preserved_then; [apply advance_leader_commit_role|done|]. intros committed.
    apply preserved_bind; [apply acknowledge_read_barrier_role|]. intros reads.
    apply preserved_bind; [|by intros ? ? ?; apply post_ret].
    destruct (_ <=? _); [|by intros ? ?; apply post_ret].
    apply preserved_bind; [apply probe_effect_role|by intros ? ? ?; apply post_ret]. }
  destruct proof; [apply Hgo..|]. by apply acknowledge_read_barrier_role.
Qed.

Lemma finish_proposal_role c pid position :
  role_inv c -> index position <= len (log c) -> post (finish_proposal pid position) c (fun _ c' => role_inv c').
Proof.
  intros Hc Hi. unfold finish_proposal. apply post_get_bind. destruct (role c) as [|?|l] eqn:Er; [inv_walk..|].
  pose proof (role_inv_leader _ _ Er Hc) as (Hl & He & Hm & Hp & Hb).
  assert (forall n, leader_ok c (with_progress (<[local_id c := index position]> (matched l)) n l)) as Hok.
  { intros n. split_and!; [|done|done]. cbn. intros k m [[<- <-]|[_ Hk]]%lookup_insert_Some; [done|by eapply Hm]. }
  apply post_modify_bind. apply post_lift_bind; [|intros; by apply role_inv_with_role]. intros succ _.
  apply post_modify_bind. apply preserved_then; [apply probe_peers_role|by apply (role_inv_with_role c)|].
  intros sends. apply preserved_bind; [apply advance_leader_commit_role|by intros ? ? ?; apply post_ret].
Qed.

Lemma finish_committed_prefix_role c from i :
  log_ok (log c) -> post (finish_committed_prefix from i) c (fun _ c' => role_inv c').
Proof.
  intros Hl. unfold finish_committed_prefix. apply post_modify_bind, post_get_bind.
  apply preserved_then; [apply advance_follower_commit_role|done|]. intros effects c' Hc'. by apply post_get_bind, post_ret.
Qed.

End roles.
