(* ===== verification/CoreInv.v ===== *)
(** The invariant of the consensus core and its preservation by every step. *)

From S2P Require Import Prelude VoterSet Predicate Plan Digest Compile FlatPlan Joint Types Membership MembershipCommand Probes History Core CoreRequest CoreLog.
From stdpp Require Import prelude gmap.
#[local] Open Scope N_scope.

Section invariant.
Context `{Sha256}.

(** What holds of the durable fields and the positions over them. *)
Record core_base (c : ConsensusCore) : Prop := {
  base_log : log_ok (log c);
  base_len : len (log c) <= u64_max;
  base_terms : Forall (fun e => term (entry_position e) <= current_term c) (log c);
  base_commit : commit_index c <= len (log c);
  base_applied : applied_index c <= commit_index c;
  base_vote : current_term c = 0 -> voted_for c = None;
  base_plan : active_built (active_plan c);
}.

Definition pending_ok (c : ConsensusCore) : Prop :=
  match pending c with None => True | Some p => request_ok c (mutation p) (action p) end.

Record core_ok (c : ConsensusCore) : Prop := {
  ok_base : core_base c;
  ok_role : role_ok c;
  ok_pending : pending_ok c;
}.

Lemma quiet_base c c' : quiet c c' -> core_base c -> core_base c'.
Proof.
  intros Hq [Hl Hn Ht Hc Ha Hv Hp]. pose proof (last_index_len c Hl) as Hlast.
  destruct Hq. split; rewrite ?quiet_log, ?quiet_term, ?quiet_vote, ?quiet_plan; auto; lia.
Qed.

(** The comparison only reads the log and the commit index. *)
Lemma log_delta_ext c c' incoming :
  log c' = log c -> commit_index c' = commit_index c -> log_delta c' incoming = log_delta c incoming.
Proof.
  intros El Ec. induction incoming as [|e rest IH]; cbn [log_delta]; [done|].
  rewrite Ec, IH. by replace (entry c' (index (entry_position e))) with (entry c (index (entry_position e)))
    by (unfold entry; by rewrite El).
Qed.

(** A request stays justified while the fields it was read from stay. *)
Lemma request_ok_ext c c' m a :
  config c' = config c -> active_plan c' = active_plan c -> current_term c' = current_term c ->
  voted_for c' = voted_for c -> log c' = log c -> commit_index c' = commit_index c ->
  applied_index c' = applied_index c -> role c' = role c ->
  request_ok c m a -> request_ok c' m a.
Proof.
  intros E1 E2 E3 E4 E5 E6 E7 E8 Hr.
  assert (forall incoming, log_delta c' incoming = log_delta c incoming) as Ed by (intros; by apply log_delta_ext).
  destruct c as [g p h t v l ci ai li r pd np na rd rp], c' as [g' p' h' t' v' l' ci' ai' li' r' pd' np' na' rd' rp'].
  cbn in E1, E2, E3, E4, E5, E6, E7, E8. subst g' p' t' v' l' ci' ai' r'. set (c' := Build_ConsensusCore g p h' _ _ _ _ _ _ _ _ _ _ _ _) in *.
  destruct Hr.
  - by refine (request_campaign c' _ _ _).
  - by refine (request_vote c' _ _ _ _ _ _ _ _ _ _ _).
  - by refine (request_step_down c' _ _).
  - by refine (request_reject c' _ _ _).
  - refine (request_append c' _ _ _ _ _ _ _ _); try assumption. by rewrite Ed.
  - refine (request_prefix c' _ _ _ _ _ _ _ _); try assumption. by rewrite Ed.
  - by refine (request_proposal c' _ _ _ _ _ _ _ _).
  - by refine (request_joint c' _ _ _ _ _ _ _ _ _ _ _).
  - by refine (request_stable c' _ _ _ _ _ _ _ _ _ _).
Qed.

(** What a justified mutation does to the durable fields. *)
Record mutation_sound (c : ConsensusCore) (m : DurableMutation) : Prop := {
  sound_ok : mutation_ok c m;
  sound_terms : Forall (fun e => term (entry_position e) <= term_after m (current_term c)) (log_after m (log c));
  sound_commit : commit_index c <= len (log_after m (log c));
  sound_prefix : forall i, i < commit_index c -> log_after m (log c) !! N.to_nat i = log c !! N.to_nat i;
  sound_term : current_term c <= term_after m (current_term c);
  sound_vote : term_after m (current_term c) = current_term c -> voted_for c <> None ->
    vote_after m (voted_for c) = voted_for c;
  sound_vote_term : term_after m (current_term c) = 0 -> vote_after m (voted_for c) = None;
}.

(** Mutations that leave the log alone. *)
Lemma vote_mutation_sound c t v :
  core_base c -> current_term c <= t -> t <> 0 -> (t = current_term c -> voted_for c = None) ->
  mutation_sound c (vote_mutation t v).
Proof.
  intros [Hl Hn Ht Hc Ha Hv Hp] Hle H0 Hvote.
  assert (log_after (vote_mutation t v) (log c) = log c) as El by (unfold log_after; cbn; apply app_nil_r).
  split; rewrite ?El; cbn; auto.
  - split_and!; rewrite ?El; done.
  - eapply Forall_impl; [exact Ht|]. cbn. lia.
  - intros ->. by rewrite Hvote.
  - done.
Qed.

Lemma plan_mutation_sound c e a at_ :
  core_base c -> e = active_membership_epoch c \/ e = saturating_add u64_max (active_membership_epoch c) 1 ->
  mutation_sound c (plan_mutation e a at_).
Proof.
  intros [Hl Hn Ht Hc Ha Hv Hp] He.
  assert (log_after (plan_mutation e a at_) (log c) = log c) as El by (unfold log_after; cbn; apply app_nil_r).
  split; rewrite ?El; cbn; auto. split_and!; rewrite ?El; done.
Qed.

(** A range received from a peer. *)
Lemma range_sound c start incoming truncate suffix t :
  core_base c -> contiguous start incoming -> 0 < start -> start <= len (log c) + 1 ->
  start + len incoming <= u64_max + 1 -> log_delta c incoming = Ok (truncate, suffix) ->
  Forall (fun e => term (entry_position e) <= N.max t (current_term c)) incoming ->
  mutation_sound c {| vote_state := if current_term c <? t then Some (t, None) else None;
    truncate_from := truncate; append := suffix; mutation_epoch := None; quorum_plan := None |}.
Proof.
  intros [Hl Hn Ht Hc Ha Hv Hp] Hcont Hpos Hstart Hmax Hd Hterms.
  set (m := Build_DurableMutation _ _ _ _ _).
  destruct (range_installed c start incoming truncate suffix (vote_state m) Hl Hcont Hpos Hstart Hmax Hc Hn Hd)
    as (Hl' & Hn' & Htr & Hkeep & Hreach & _ & Hfrom).
  change (Build_DurableMutation (vote_state m) truncate suffix None None) with m in Hl', Hn', Hkeep, Hreach, Hfrom.
  assert (term_after m (current_term c) = N.max t (current_term c)) as Et.
  { subst m. unfold term_after. cbn. destruct (N.ltb_spec (current_term c) t); lia. }
  split; rewrite ?Et; auto.
  - split_and!; auto; cbn; [done|destruct (N.ltb_spec (current_term c) t); [split; lia|done]].
  - apply Forall_forall. intros e He. rewrite Forall_forall in Ht, Hterms.
    destruct (Hfrom e He) as [Hin|Hin]; [specialize (Ht e Hin); cbn in Ht; lia|by apply Hterms].
  - destruct (N.eq_0_gt_0_cases (commit_index c)) as [->|Hpc]; [apply N.le_0_l|].
    specialize (Hkeep (commit_index c - 1) ltac:(lia)).
    destruct (entry_exists c (commit_index c) Hl Hpc Hc) as [e [_ He]%entry_lookup]; [|done].
    rewrite He in Hkeep. apply lookup_lt_Some in Hkeep. unfold len. lia.
  - lia.
  - intros E. subst m. unfold vote_after. cbn. destruct (N.ltb_spec (current_term c) t); [lia|done].
  - intros E. subst m. unfold vote_after. cbn. destruct (N.ltb_spec (current_term c) t); [done|apply Hv; lia].
Qed.

Lemma new_entry_Ok position op version cmd e :
  new_entry position op version cmd = Ok e -> entry_position e = position /\ validate_entry e = Ok tt.
Proof.
  unfold new_entry, from_shared_command. intros Hn. inv_ok. split; [done|]. unfold validate_entry. cbn [entry_position command_version command command_digest].
  rewrite (bool_decide_eq_true_2 (command_digest_of version cmd = _)) by done. cbn [negb]. rewrite orb_false_r.
  by rewrite Heqb, Heqb0.
Qed.

Lemma proposal_sound c e :
  core_base c -> validate_entry e = Ok tt -> entry_position e = {| term := current_term c; index := len (log c) + 1 |} ->
  len (log c) + 1 <= u64_max ->
  mutation_sound c {| vote_state := None; truncate_from := None; append := [e]; mutation_epoch := None; quorum_plan := None |}.
Proof.
  intros [Hl Hn Ht Hc Ha Hv Hp] Hval Hpos Hmax. set (m := Build_DurableMutation _ _ _ _ _).
  assert (log_after m (log c) = log c ++ [e]) as El by done.
  split; rewrite ?El; auto; cbn [term_after vote_after vote_state m]; auto.
  - split_and!; rewrite ?El; try done.
    + apply contiguous_app. split; [done|]. apply contiguous_cons. rewrite Hpos. cbn. split_and!; [lia|done|apply contiguous_nil].
    + rewrite len_app, len_cons. unfold len in *. cbn. lia.
  - apply Forall_app. split; [done|]. constructor; [by rewrite Hpos|constructor].
  - rewrite len_app. lia.
  - intros i Hi. apply lookup_app_l. unfold len in *. lia.
Qed.

Lemma position_valid_zero p : position_is_valid p = true -> index p = 0 -> p = GENESIS.
Proof.
  unfold position_is_valid. intros Hv Hi. destruct p as [t i]. cbn in *. subst i. apply Bool.eqb_prop in Hv.
  symmetry in Hv. apply N.eqb_eq in Hv. by subst.
Qed.

Lemma request_sound c m a : core_base c -> request_ok c m a -> mutation_sound c m.
Proof.
  intros Hb Hr. pose proof Hb as [Hl Hn Ht Hc Ha Hv Hp]. destruct Hr.
  - apply vote_mutation_sound; [done|lia|lia|lia].
  - apply vote_mutation_sound; [done|naive_solver lia|done|naive_solver lia].
  - apply vote_mutation_sound; [done|lia|lia|lia].
  - apply vote_mutation_sound; [done|lia|lia|lia].
  - destruct (validate_append_entries_inv request) as (Hcont & Hterms & Hmax & _ & Hpv); [done|].
    destruct (position_matches_inv c (aq_previous request) (aq_previous_digest request) Hl) as [Hpi _]; [done..|].
    eapply range_sound; eauto; [lia|lia|lia|]. eapply Forall_impl; [exact Hterms|]. cbn. lia.
  - match goal with HV : validate_committed_prefix ?p = Ok _ |- _ =>
      destruct (validate_committed_prefix_inv p HV) as (Hcont & Hci & [Hterms _] & Hmax & Hpv); rename p into pre end.
    destruct (position_matches_inv c (cp_previous pre) (cp_previous_digest pre) Hl) as [Hpi _]; [done..|].
    eapply range_sound; eauto; [lia|lia| |].
    + destruct (decide (cp_entries pre = [])) as [->|Hne]; [unfold len; cbn; lia|specialize (Hmax Hne); lia].
    + eapply Forall_impl; [exact Hterms|]. cbn. lia.
  - match goal with HN : new_entry _ _ _ _ = Ok _ |- _ => apply new_entry_Ok in HN as [Hpos Hval] end.
    rewrite (last_index_len c Hl) in *. by apply proposal_sound.
  - apply plan_mutation_sound; [done|]. right.
    match goal with HJ : joint_built _ |- _ => destruct HJ as (_ & _ & HJ2); apply joint_new_Ok in HJ2 as (_ & _ & He & -> & _) end.
    rewrite He. unfold active_membership_epoch.
    match goal with HA : active_plan c = _ |- _ => rewrite HA end. cbn. congruence.
  - apply plan_mutation_sound; [done|]. left. unfold active_membership_epoch.
    match goal with HA : active_plan c = _ |- _ => rewrite HA end. done.
Qed.

(** ** Completing a persistence request *)

(** The state in which the follow-up of a request runs. *)
Definition resumed (c : ConsensusCore) (p : PendingPersistence) : ConsensusCore :=
  mutated (with_pending None c) (mutation p).

Lemma with_pending_base p c : core_base c -> core_base (with_pending p c).
Proof. intros [H1 H2 H3 H4 H5 H6 H7]. by split. Qed.

Lemma mutated_fields c m :
  current_term (mutated c m) = term_after m (current_term c) /\
  voted_for (mutated c m) = vote_after m (voted_for c) /\
  log (mutated c m) = log_after m (log c) /\
  config (mutated c m) = config c /\ active_plan (mutated c m) = active_plan c /\
  membership_history (mutated c m) = membership_history c /\
  commit_index (mutated c m) = commit_index c /\ applied_index (mutated c m) = applied_index c /\
  pending (mutated c m) = pending c /\ next_persistence_id (mutated c m) = next_persistence_id c.
Proof.
  unfold mutated, stepped_down. destruct (vote_state m) as [[t v]|]; [destruct (current_term c <? t)|]; by split_and!.
Qed.

Lemma mutated_base c m : core_base c -> mutation_sound c m -> core_base (mutated c m).
Proof.
  intros [H1 H2 H3 H4 H5 H6 H7] [(_ & _ & _ & Hl & Hn) Ht Hc _ _ _ Hv].
  destruct (mutated_fields c m) as (Et & Ev & El & _ & Ep & _ & Ec & Ea & _).
  split; rewrite ?Et, ?Ev, ?El, ?Ep, ?Ec, ?Ea; auto.
Qed.

(** An acknowledged request is applied in full: no partial mutation is ever visible. *)
Lemma finish_persistence_run c p :
  core_base c -> pending c = Some p -> request_ok c (mutation p) (action p) ->
  finish_persistence (pending_id p) c = after_persistence p (resumed c p).
Proof.
  intros Hb Hp Hr. unfold finish_persistence. unfold mbind at 1, SE_bind at 1, get_state. rewrite Hp, N.eqb_refl.
  cbn [negb]. unfold mbind, SE_bind, modify_state.
  rewrite apply_durable_mutation_ok; [done|apply Hb|]. by apply request_sound in Hr as [Hok _ _ _ _ _ _].
Qed.

Lemma mutated_role c m :
  role_ok c -> term_after m (current_term c) = current_term c -> vote_after m (voted_for c) = voted_for c ->
  len (log c) <= len (log_after m (log c)) -> role_ok (mutated c m).
Proof.
  intros Hr Et Ev Hlen. unfold mutated, stepped_down. rewrite Et, Ev.
  assert (match vote_state m with
    | Some (t, _) => if current_term c <? t then with_leader_id None (with_role Following c) else c
    | None => c end = c) as ->.
  { unfold term_after in Et. destruct (vote_state m) as [[t v]|]; [|done]. by rewrite Et, N.ltb_irrefl. }
  rewrite with_vote_same. unfold role_ok in *. cbn. destruct (role c) as [|?|l]; [done|done|].
  destruct Hr as [He (Hm & Hp & Hb)]. split; [done|]. split_and!; [|done|done].
  intros n k Hk. cbn. specialize (Hm n k Hk). lia.
Qed.

(** Activating a phase changes the plan, the accepted incarnations and the history. *)
Record activated (c : ConsensusCore) (a : ActiveQuorumPlan) (inc : MemberIncarnations) (at_ : LogPosition)
    (c' : ConsensusCore) : Prop := {
  act_config : config c' = with_incarnations inc (config c);
  act_plan : active_plan c' = a;
  act_history : membership_history c' = History.record (membership_history c) (active_plan c) at_;
  act_term : current_term c' = current_term c;
  act_vote : voted_for c' = voted_for c;
  act_log : log c' = log c;
  act_pending : pending c' = pending c;
  act_persistence_id : next_persistence_id c' = next_persistence_id c;
  act_commit : commit_index c' = commit_index c;
  act_applied : applied_index c' = applied_index c;
}.

Lemma activated_with_role c a inc at_ c' r : activated c a inc at_ c' -> activated c a inc at_ (with_role r c').
Proof. intros []. by split. Qed.

Lemma probe_effect_activated c a inc at_ peer kind id c' :
  activated c a inc at_ c' -> post (probe_effect peer kind id) c' (fun _ c'' => activated c a inc at_ c'').
Proof.
  intros Ha. unfold probe_effect. apply post_get_bind. destruct (role c') as [|?|l]; [done..|].
  assert (forall n, activated c a inc at_ (with_next_append_probe_id n c')) by (destruct Ha; by split).
  repeat inv_step; auto using activated_with_role.
Qed.

Lemma probe_peers_activated c a inc at_ kind id c' :
  activated c a inc at_ c' -> post (probe_peers kind id) c' (fun _ c'' => activated c a inc at_ c'').
Proof.
  intros Ha. unfold probe_peers. apply post_get_bind.
  apply (preserved_traverse (activated c a inc at_)); [|done]. intros peer c1 Hc1. by apply probe_effect_activated.
Qed.

Lemma finish_plan_activation_fields c a inc at_ :
  post (finish_plan_activation a inc at_) c (fun _ c' => activated c a inc at_ c').
Proof.
  unfold finish_plan_activation. apply post_modify_bind, post_get_bind.
  set (c1 := clear_replication_budget_overrides _). assert (activated c a inc at_ c1) as H1 by (by split).
  apply post_lift_bind; [|done]. intros n _. apply post_bind.
  eapply (post_mono _ _ (fun r c2 => r = Ok tt /\ activated c a inc at_ c2)).
  { destruct (role c1); [by apply post_ret..|]. apply post_modify. split; [done|by apply activated_with_role]. }
  intros [u|e] c2 [Hu H2]; [|done]. destruct (_ && _ && _); [by apply probe_peers_activated|].
  destruct (_ && _); [by apply post_ret|]. apply post_modify_bind, post_ret. destruct H2. by split.
Qed.

Lemma finish_plan_activation_role c a inc at_ :
  role_inv c -> post (finish_plan_activation a inc at_) c (fun _ c' => role_inv c').
Proof.
  intros Hc. unfold finish_plan_activation. apply post_modify_bind, post_get_bind.
  set (c1 := clear_replication_budget_overrides _). assert (role_inv c1) as H1 by exact Hc.
  apply post_lift_bind; [|done]. intros n _. apply post_bind.
  eapply (post_mono _ _ (fun _ c2 => role_inv c2)).
  { destruct (role c1) as [|?|l] eqn:Er; [by apply post_ret..|]. apply post_modify.
    pose proof (role_inv_leader _ _ Er H1) as (Hl & He & Hm & Hp & Hb).
    apply role_inv_with_role; [done|]. split; [done|]. split_and!; cbn.
    - apply (foldl_or_insert_bound (fun k => if k =? local_id c1 then index (last_position c1) else 0)).
      + intros k v [Hk _]%map_lookup_filter_Some. by eapply Hm.
      + intros k. rewrite (last_index_len c1 Hl). destruct (k =? local_id c1); [apply N.le_refl|apply N.le_0_l].
    - intros k p Hk. by rewrite lookup_empty in Hk.
    - rewrite map_size_empty. unfold MAXIMUM_PENDING_READ_BARRIERS. lia. }
  intros [u|e] c2 H2; [|done]. destruct (_ && _ && _); [by apply probe_peers_role|].
  destruct (_ && _); [by apply post_ret|]. apply post_modify_bind, post_ret. by destruct H2.
Qed.

(** Which plan and which configuration hold after a request completes. *)
Definition plan_next (p : PendingPersistence) (current : ActiveQuorumPlan) : ActiveQuorumPlan :=
  match action p with
  | ActivateJoint j _ => JointPhase j
  | ActivateStable s _ => Stable s
  | _ => current
  end.

Definition config_next (p : PendingPersistence) (g : CoreConfig) : CoreConfig :=
  match action p with
  | ActivateJoint _ inc | ActivateStable _ inc => with_incarnations inc g
  | _ => g
  end.

Definition activates (p : PendingPersistence) : bool :=
  match action p with ActivateJoint _ _ | ActivateStable _ _ => true | _ => false end.

Lemma after_persistence_quiet p : activates p = false -> keeps quiet (after_persistence p).
Proof.
  unfold activates, after_persistence. intros Ha.
  destruct (action p); try discriminate Ha; solve [eauto with mesh|quiet_walk].
Qed.

Record completed (c : ConsensusCore) (p : PendingPersistence) (c' : ConsensusCore) : Prop := {
  done_term : current_term c' = term_after (mutation p) (current_term c);
  done_vote : voted_for c' = vote_after (mutation p) (voted_for c);
  done_log : log c' = log_after (mutation p) (log c);
  done_plan : active_plan c' = plan_next p (active_plan c);
  done_config : config c' = config_next p (config c);
  done_pending : pending c' = None;
  done_persistence_id : next_persistence_id c' = next_persistence_id c;
  done_commit : commit_index c <= commit_index c';
  done_applied : applied_index c <= applied_index c';
  done_base : core_base c';
}.

Lemma quiet_completed c p c' :
  core_base c -> mutation_sound c (mutation p) -> activates p = false ->
  quiet (resumed c p) c' -> completed c p c'.
Proof.
  intros Hb Hs Hact Hq.
  assert (core_base (resumed c p)) as Hb1.
  { apply mutated_base; [by apply with_pending_base|]. destruct Hs. by split. }
  pose proof (quiet_base _ _ Hq Hb1) as Hb'.
  destruct (mutated_fields (with_pending None c) (mutation p)) as (Et & Ev & El & Eg & Ep & _ & Ec & Ea & En & Ei).
  unfold resumed in Hq. destruct Hq as [Q1 Q2 Q3 Q4 Q5 Q6 Q7 Q8 Q9 Q10 Q11 Q12].
  rewrite ?Et, ?Ev, ?El, ?Eg, ?Ep, ?Ec, ?Ea, ?En, ?Ei in *. cbn in *.
  unfold activates in Hact. split; auto; unfold plan_next, config_next; destruct (action p); done.
Qed.

Lemma activated_completed c p c' a inc at_ :
  core_base c -> mutation_sound c (mutation p) -> active_built a ->
  a = plan_next p (active_plan c) -> with_incarnations inc (config c) = config_next p (config c) ->
  activated (resumed c p) a inc at_ c' -> completed c p c'.
Proof.
  intros Hb Hs Ha Hplan Hcfg Hact.
  assert (core_base (resumed c p)) as [B1 B2 B3 B4 B5 B6 B7].
  { apply mutated_base; [by apply with_pending_base|]. destruct Hs. by split. }
  destruct (mutated_fields (with_pending None c) (mutation p)) as (Et & Ev & El & Eg & Ep & _ & Ec & Ea & En & Ei).
  unfold resumed in *. destruct Hact as [A1 A2 A3 A4 A5 A6 A7 A8 A9 A10].
  rewrite ?Et, ?Ev, ?El, ?Eg, ?Ep, ?Ec, ?Ea, ?En, ?Ei in *. cbn in *.
  split; try congruence; [lia|lia|]. split; rewrite ?A2, ?A4, ?A5, ?A6, ?A9, ?A10; auto.
Qed.

Lemma after_persistence_completed c p :
  core_base c -> request_ok c (mutation p) (action p) ->
  post (after_persistence p) (resumed c p) (fun _ c' => completed c p c').
Proof.
  intros Hb Hr. pose proof (request_sound _ _ _ Hb Hr) as Hs. destruct (activates p) eqn:Ea.
  - unfold activates in Ea. unfold after_persistence.
    destruct p as [pid m act]. cbn [mutation action] in *.
    destruct Hr; try discriminate Ea; cbn [mutation quorum_plan plan_mutation ok_or];
      apply post_lift_bind; [intros q Hq|done|intros q Hq|done]; inv_ok; cbn [dq_activated_position];
      (eapply post_mono; [apply finish_plan_activation_fields|]; intros r c' Hact;
       eapply activated_completed; [done|exact Hs| | | |exact Hact]; done).
  - eapply post_mono; [by apply after_persistence_quiet|]. intros r c' Hq. by eapply quiet_completed.
Qed.

(** The role follows: replies make a follower, a campaign a candidate, a proposal keeps
    the leader whose log only grew. *)
Lemma after_persistence_role c p :
  core_base c -> role_ok c -> request_ok c (mutation p) (action p) ->
  post (after_persistence p) (resumed c p) (fun _ c' => role_inv c').
Proof.
  intros Hb Hrole Hr. pose proof (request_sound _ _ _ Hb Hr) as Hs.
  assert (log_ok (log (resumed c p))) as Hl.
  { apply (mutated_base (with_pending None c)); [by apply with_pending_base|]. destruct Hs. by split. }
  unfold resumed in *. unfold after_persistence. destruct p as [pid m act]. cbn [mutation action] in *. destruct Hr.
  - apply finish_campaign_role; [done|]. destruct (mutated_fields (with_pending None c)
      (vote_mutation (current_term c + 1) (Some (local_id c)))) as (Et & Ev & _ & Eg & _).
    unfold self_elected. rewrite Et, Ev. unfold local_id at 2. rewrite Eg. cbn. split; [done|lia].
  - by apply post_modify_bind, post_get_bind, post_ret.
  - by apply post_modify_bind, post_get_bind, post_ret.
  - apply post_modify_bind. cbn [ar_accepted append_reply]. by apply post_bind, post_ret, post_get_bind, post_ret.
  - apply post_modify_bind. cbn [ar_accepted append_reply].
    apply preserved_then; [apply advance_follower_commit_role|done|]. intros effects c' Hc'. by apply post_get_bind, post_ret.
  - by apply finish_committed_prefix_role.
  - rewrite (last_index_len c) in * by apply Hb. apply finish_proposal_role.
    + split; [done|]. apply mutated_role; cbn; auto. unfold log_after. cbn. rewrite len_app. lia.
    + destruct (mutated_fields (with_pending None c) {| vote_state := None; truncate_from := None; append := [e];
        mutation_epoch := None; quorum_plan := None |}) as (_ & _ & El & _). rewrite El.
      unfold log_after. cbn. rewrite len_app, len_cons. unfold len. cbn. lia.
  - apply post_lift_bind; [|done]. intros q _. apply finish_plan_activation_role.
    split; [done|]. apply mutated_role; cbn; auto. unfold log_after. cbn. by rewrite app_nil_r.
  - apply post_lift_bind; [|done]. intros q _. apply finish_plan_activation_role.
    split; [done|]. apply mutated_role; cbn; auto. unfold log_after. cbn. by rewrite app_nil_r.
Qed.

End invariant.
