(* ===== verification/CoreEffects.v ===== *)
(** What the emitted effects promise, stated about the state a step ends in. *)

From S2P Require Import Prelude VoterSet Predicate Plan Digest Compile FlatPlan Joint Types Membership MembershipCommand Probes History Core CoreRequest CoreLog CoreInv.
From stdpp Require Import prelude gmap.
#[local] Open Scope N_scope.

Section effects.
Context `{Sha256}.

(** [c] holds, at [i], a record with this digest (nothing at genesis). *)
Definition holds_record (c : ConsensusCore) (i : N) (digest : bytes) : Prop :=
  (i = 0 /\ digest = zero32) \/ exists e, entry c i = Some e /\ entry_digest e = digest.

(** [c] holds, at exactly this position, a record with this digest. *)
Definition holds_position (c : ConsensusCore) (p : LogPosition) (digest : bytes) : Prop :=
  (p = GENESIS /\ digest = zero32) \/
  exists e, entry c (index p) = Some e /\ entry_position e = p /\ entry_digest e = digest.

(** [entries] is the part of the log of [c] that starts after [lo]. *)
Definition log_slice (c : ConsensusCore) (lo : N) (entries : list LogEntry) : Prop :=
  forall k e, entries !! k = Some e -> entry c (lo + 1 + N.of_nat k) = Some e.

(** An entry of the current term is committed. *)
Definition term_committed (c : ConsensusCore) : Prop :=
  exists j e, j <= commit_index c /\ entry c j = Some e /\ term (entry_position e) = current_term c.

Definition message_ok (c : ConsensusCore) (to : NodeId) (m : CoreMessage) : Prop :=
  match m with
  | MVoteResponse r => vr_term r = current_term c /\ (vr_granted r = true -> voted_for c = Some to)
  | MVoteRequest q =>
      vq_term q = current_term c /\ vq_candidate q = local_id c /\ voted_for c = Some (local_id c) /\
      vq_last_log q = last_position c
  | MAppendResponse r =>
      ar_term r = current_term c /\
      (ar_accepted r = true -> holds_record c (ar_matched_index r) (ar_matched_digest r))
  | MAppendRequest q =>
      aq_term q = current_term c /\ aq_leader q = local_id c /\ aq_leader_commit_index q <= commit_index c /\
      holds_position c (aq_previous q) (aq_previous_digest q) /\
      log_slice c (index (aq_previous q)) (aq_entries q)
  | MCommittedPrefix p =>
      cp_committed_index p <= applied_index c /\
      holds_position c (cp_previous p) (cp_previous_digest p) /\
      log_slice c (index (cp_previous p)) (cp_entries p)
  end.

Definition effect_ok (c : ConsensusCore) (e : CoreEffect) : Prop :=
  match e with
  | Persist _ _ => False
  | Send to m => message_ok c to m
  | RoleChanged _ t => t = current_term c
  | ProposalAppended _ position =>
      exists e, entry c (index position) = Some e /\ entry_position e = position
  | CommitReady entries => exists lo, lo + len entries <= commit_index c /\ log_slice c lo entries /\ entries <> []
  | ReadBarrierReady _ i => i <= applied_index c /\ term_committed c
  | Rejected _ => False
  end.

Lemma quiet_entry c c' i : quiet c c' -> entry c' i = entry c i.
Proof. intros Hq. unfold entry. by rewrite (quiet_log _ _ Hq). Qed.

Lemma effect_ok_quiet c c' e : quiet c c' -> effect_ok c e -> effect_ok c' e.
Proof.
  intros Hq. pose proof (quiet_entry c c') as Hent. specialize (fun i => Hent i Hq) as He.
  assert (forall i d, holds_record c i d -> holds_record c' i d) as Hrec.
  { intros i d. unfold holds_record. by rewrite He. }
  assert (forall p d, holds_position c p d -> holds_position c' p d) as Hpos.
  { intros p d. unfold holds_position. by rewrite He. }
  assert (forall lo es, log_slice c lo es -> log_slice c' lo es) as Hslice.
  { intros lo es Hs k e' Hk. rewrite He. by apply Hs. }
  assert (local_id c' = local_id c) as Hid by (unfold local_id; by rewrite (quiet_config _ _ Hq)).
  assert (last_position c' = last_position c) as Hlast by (apply last_position_log, Hq).
  destruct Hq as [_ _ _ Qt Qv _ _ _ Qc _ Qa _].
  destruct e as [id m|to m|role t|pid pos|entries|id i|er]; cbn; auto.
  - destruct m; cbn; rewrite ?Qt, ?Qv, ?Hid, ?Hlast; naive_solver lia.
  - congruence.
  - intros (e & He' & ?). exists e. by rewrite He.
  - intros (lo & ? & ? & ?). exists lo. split_and!; auto. lia.
  - intros (? & j & e & ? & ? & ?). split; [lia|]. exists j, e. rewrite He, Qt. split_and!; auto. lia.
Qed.

Lemma effects_ok_quiet c c' es : quiet c c' -> Forall (effect_ok c) es -> Forall (effect_ok c') es.
Proof. intros Hq Hes. eapply Forall_impl; [exact Hes|]. intros e. by apply effect_ok_quiet. Qed.

(** Quiet work whose effects are justified in the state it ends in. *)
Definition emits (c : ConsensusCore) (r : result CoreError (list CoreEffect)) (c' : ConsensusCore) : Prop :=
  quiet c c' /\ match r with Ok es => Forall (effect_ok c') es | Err _ => True end.

Definition yields (m : Core (list CoreEffect)) : Prop := forall c, core_base c -> post m c (emits c).

(** The outcomes of code that runs after effects [es] were emitted. *)
Lemma emits_nil c c' : quiet c c' -> emits c (Ok []) c'.
Proof. intros Hq. split; [done|constructor]. Qed.

Lemma emits_err c c' e : quiet c c' -> emits c (Err e) c'.
Proof. by split. Qed.

Lemma yields_then (m : Core (list CoreEffect)) (f : list CoreEffect -> Core (list CoreEffect)) c0 c :
  quiet c0 c -> core_base c -> yields m ->
  (forall es c', quiet c0 c' -> core_base c' -> Forall (effect_ok c') es -> post (f es) c' (emits c0)) ->
  post (m ≫= f) c (emits c0).
Proof.
  intros Hq Hb Hm Hf. apply post_bind. eapply post_mono; [by apply Hm|]. intros [es|e] c' [Hq' Hes].
  - apply Hf; [by etransitivity|by eapply quiet_base|done].
  - split; [by etransitivity|done].
Qed.

Lemma keeps_then {A} (m : Core A) (f : A -> Core (list CoreEffect)) c0 c :
  quiet c0 c -> core_base c -> keeps quiet m ->
  (forall a c', quiet c0 c' -> core_base c' -> post (f a) c' (emits c0)) -> post (m ≫= f) c (emits c0).
Proof.
  intros Hq Hb Hm Hf. apply post_bind. eapply post_mono; [by apply Hm|]. intros [a|e] c' Hq'.
  - apply Hf; [by etransitivity|by eapply quiet_base].
  - split; [by etransitivity|done].
Qed.

Lemma yields_last (m : Core (list CoreEffect)) c0 c :
  quiet c0 c -> core_base c -> yields m -> post m c (emits c0).
Proof.
  intros Hq Hb Hm. eapply post_mono; [by apply Hm|]. intros r c' [Hq' Hes]. split; [by etransitivity|done].
Qed.

Lemma emits_ret c0 c es : quiet c0 c -> Forall (effect_ok c) es -> post (mret es) c (emits c0).
Proof. intros. apply post_ret. by split. Qed.

(** ** Replicated ranges come from the log *)

Lemma holds_genesis c : holds_record c 0 zero32.
Proof. by left. Qed.

Lemma holds_entry c i e : entry c i = Some e -> holds_position c (entry_position e) (entry_digest e).
Proof. intros He. right. exists e. by rewrite (entry_index _ _ _ He). Qed.

Definition in_range (start stop : N) (e : LogEntry) : Prop :=
  start <= index (entry_position e) /\ index (entry_position e) <= stop.
#[local] Instance in_range_dec start stop e : Decision (in_range start stop e).
Proof. unfold in_range. apply _. Defined.

Lemma filter_past start stop s l : contiguous s l -> stop < s -> filter (in_range start stop) l = [].
Proof.
  revert s. induction l as [|e l IH]; intros s Hc Hlt; [done|].
  apply contiguous_cons in Hc as (Hi & _ & Hc). rewrite filter_cons, decide_False by (unfold in_range; lia).
  apply (IH (s + 1)); [done|lia].
Qed.

Lemma filter_within start stop s l : contiguous s l -> start <= s -> filter (in_range start stop) l `prefix_of` l.
Proof.
  revert s. induction l as [|e l IH]; intros s Hc Hs; [done|].
  apply contiguous_cons in Hc as (Hi & _ & Hc). rewrite filter_cons. case_decide as Hd; unfold in_range in Hd.
  - apply prefix_cons, (IH (s + 1)); [done|lia].
  - rewrite (filter_past _ _ (s + 1)) by (done || lia). apply prefix_nil.
Qed.

(** The filter of [replication_entries] is a prefix of the log from [start] on. *)
Lemma filter_range_drop start stop s l :
  contiguous s l -> s <= start -> filter (in_range start stop) l `prefix_of` drop (N.to_nat (start - s)) l.
Proof.
  revert s. induction l as [|e l IH]; intros s Hc Hs; [by rewrite drop_nil|].
  destruct (N.eq_dec s start) as [->|Hne].
  - rewrite N.sub_diag. cbn [N.to_nat drop]. by apply (filter_within start stop start).
  - apply contiguous_cons in Hc as (Hi & _ & Hc). rewrite filter_cons, decide_False by (unfold in_range; lia).
    replace (N.to_nat (start - s)) with (S (N.to_nat (start - (s + 1)))) by lia. cbn [drop]. apply IH; [done|lia].
Qed.

Lemma scan_budget_prefix overhead remaining frame l : scan_budget overhead remaining frame l `prefix_of` l.
Proof.
  revert remaining frame. induction l as [|e l IH]; intros remaining frame; cbn [scan_budget]; [done|].
  destruct (checked_add _ _ _) as [f|]; [|apply prefix_nil].
  destruct (checked_sub remaining _), (checked_sub frame f); try apply prefix_nil. by apply prefix_cons.
Qed.

Lemma replication_entries_slice c peer start stop :
  log_ok (log c) -> 0 < start -> log_slice c (start - 1) (replication_entries c peer start stop).
Proof.
  intros Hl Hs k e Hk. apply entry_lookup; [done|]. split; [lia|].
  unfold replication_entries in Hk. set (f := filter _ _) in Hk.
  assert (f `prefix_of` drop (N.to_nat (start - 1)) (log c)) as Hf by (by apply (filter_range_drop start stop 1); [|lia]).
  assert (scan_budget (entry_overhead (default (replication_default c) (replication_peers c !! peer)))
    MAXIMUM_APPEND_COMMAND_BYTES (max_bytes (default (replication_default c) (replication_peers c !! peer)))
    (take (N.to_nat MAXIMUM_APPEND_ENTRIES) f) `prefix_of` drop (N.to_nat (start - 1)) (log c)) as Hp.
  { etransitivity; [apply scan_budget_prefix|]. etransitivity; [apply prefix_take|exact Hf]. }
  eapply prefix_lookup_Some in Hk; [|exact Hp]. rewrite lookup_drop in Hk.
  rewrite <- Hk. f_equal. lia.
Qed.

Lemma replication_entries_after c peer i stop :
  log_ok (log c) -> log_slice c i (replication_entries c peer (i + 1) stop).
Proof.
  intros Hl. pose proof (replication_entries_slice c peer (i + 1) stop Hl ltac:(lia)) as Hs.
  by rewrite N.add_sub in Hs.
Qed.

Lemma replication_entries_stop c peer start stop e :
  e ∈ replication_entries c peer start stop -> index (entry_position e) <= stop.
Proof.
  unfold replication_entries. intros He.
  assert (e ∈ filter (fun e => start <= index (entry_position e) /\ index (entry_position e) <= stop) (log c)) as Hf.
  { eapply elem_of_prefix; [exact He|]. etransitivity; [apply scan_budget_prefix|apply prefix_take]. }
  apply list_elem_of_filter in Hf. tauto.
Qed.

(** ** Each method *)

Lemma probe_effect_emits peer kind id c :
  core_base c -> post (probe_effect peer kind id) c
    (fun r c' => quiet c c' /\ match r with Ok e => effect_ok c' e | Err _ => True end).
Proof.
  intros Hb. pose proof (base_log _ Hb) as Hl.
  assert (post (probe_effect peer kind id) c (fun r _ => match r with Ok e => effect_ok c e | Err _ => True end)) as He.
  { unfold probe_effect. apply post_get_bind. destruct (role c) as [|?|l]; [by apply post_raise..|].
    apply post_bind. match goal with |- post ?m c _ => assert (forall Q, (forall i, Q (Ok i) c) -> (forall e, Q (Err e) c) -> post m c Q) as Hm end.
    { intros Q H1 H2. destruct kind; [apply post_lift; destruct (ok_or _ _); auto|by apply post_ret]. }
    apply Hm; [|done]. clear Hm. intros i.
    destruct (i =? 0) eqn:Ei.
    - apply N.eqb_eq in Ei as ->. apply (post_bind (mret _)), post_ret, (post_bind (mret _)), post_ret.
      destruct kind; inv_walk; (split_and!; [done|done|apply N.le_refl|by left|]);
        cbn [aq_entries request_with_probe aq_previous GENESIS index].
      1,2: inv_ok; by apply replication_entries_after.
      all: intros k e; by rewrite lookup_nil.
    - apply post_lift_bind; [|done]. intros prev Hprev. apply post_lift_bind; [|done]. intros d Hd.
      apply ok_or_Ok in Hprev, Hd. destruct (entry c i) as [e|] eqn:E; [|done]. cbn in Hprev, Hd. simplify_eq.
      pose proof (entry_index _ _ _ E) as Hidx. pose proof (holds_entry _ _ _ E) as Hheld.
      destruct kind; inv_walk; (split_and!; [done|done|apply N.le_refl|exact Hheld|]);
        cbn [aq_entries request_with_probe aq_previous].
      1,2: inv_ok; by apply replication_entries_after.
      all: intros k e'; by rewrite lookup_nil. }
  pose proof (probe_effect_quiet peer kind id c) as Hq. unfold post in *.
  destruct (probe_effect peer kind id c) as [[e|e] c']; cbn in *; split; auto. by eapply effect_ok_quiet.
Qed.

Lemma probe_one_yields peer kind id : yields (e ← probe_effect peer kind id; mret [e]).
Proof.
  intros c Hb. apply post_bind. eapply post_mono; [by apply probe_effect_emits|].
  intros [e|e] c' [Hq He]; [apply emits_ret; auto|by apply emits_err].
Qed.

(** A loop that emits per element. *)
Lemma traverse_yields {A} (f : A -> Core (list CoreEffect)) l c :
  (forall x, yields (f x)) -> core_base c ->
  post (traverse f l) c (fun r c' => quiet c c' /\ match r with Ok ess => Forall (effect_ok c') (concat ess) | Err _ => True end).
Proof.
  intros Hf Hb. eapply (post_traverse _ _ _ (fun ess c' => quiet c c' /\ Forall (effect_ok c') (concat ess))).
  - split; [reflexivity|constructor].
  - intros x ess c1 _ [Hq Hes]. eapply post_mono; [apply Hf; by eapply quiet_base|].
    intros [es|e] c2 [Hq2 Hes2]; [|split; [by etransitivity|done]]. split; [by etransitivity|].
    rewrite concat_app. apply Forall_app. split; [by eapply effects_ok_quiet|]. cbn. by rewrite app_nil_r.
  - done.
Qed.

Lemma probe_peers_yields kind id : yields (probe_peers kind id).
Proof.
  intros c Hb. unfold probe_peers. apply post_get_bind. set (l := ascending (peers c)).
  assert (forall (l : list NodeId) c0 c, quiet c0 c -> core_base c ->
    post (traverse (fun peer => probe_effect peer kind id) l) c (emits c0)) as Hgo.
  { clear. induction l as [|p l IH]; intros c0 c Hq Hb; cbn [traverse]; [apply emits_ret; auto|].
    apply post_bind. eapply post_mono; [by apply probe_effect_emits|]. intros [e|e] c1 [Hq1 He]; [|split; [by etransitivity|done]].
    apply post_bind. eapply post_mono; [apply (IH c1 c1); [reflexivity|by eapply quiet_base]|].
    intros [es|er] c2 [Hq2 Hes]; [|split; [|done]; etransitivity; [exact Hq|]; by etransitivity].
    apply emits_ret; [etransitivity; [exact Hq|]; by etransitivity|]. constructor; [by eapply effect_ok_quiet|done]. }
  by apply Hgo.
Qed.

Lemma heartbeat_yields : yields heartbeat.
Proof.
  intros c Hb. unfold heartbeat. apply post_get_bind. destruct (negb _); [by apply post_raise, emits_err|].
  apply post_bind. eapply post_mono; [apply traverse_yields; [|done]|].
  - intros peer c1 Hb1. apply post_get_bind.
    assert (forall m : Core (list CoreEffect), yields m -> post (first ← m; second ← probe_effect peer Contact None;
      mret (first ++ [second])) c1 (emits c1)) as Hgo.
    { intros m Hm. eapply yields_then; [reflexivity|done|exact Hm|]. intros es c2 Hq2 Hb2 Hes.
      apply post_bind. eapply post_mono; [by apply probe_effect_emits|]. intros [e|e] c3 [Hq3 He].
      - apply emits_ret; [by etransitivity|]. apply Forall_app. split; [by eapply effects_ok_quiet|auto].
      - split; [by etransitivity|done]. }
    apply Hgo. destruct (match peer_matched_index c1 peer with None => true | Some m => m <? index (last_position c) end).
    + apply probe_one_yields.
    + intros c2 Hb2. by apply emits_ret.
  - intros [ess|e] c' [Hq Hes]; [by apply emits_ret|by apply emits_err].
Qed.

(** Commit notices list exactly the entries between the old and the new commit index. *)
Lemma commit_effects_ok c old es :
  core_base c -> commit_effects c old = Ok es -> Forall (effect_ok c) es.
Proof.
  intros Hb. unfold commit_effects. destruct (N.leb_spec (commit_index c) old) as [Hle|Hgt]; [by intros [= <-]|].
  intros Hm. inv_ok.
  match goal with HM : mapM _ _ = Ok ?x |- _ => rename x into entries; rename HM into Hmap end.
  assert (forall l es, mapM (fun i => ok_or (entry c i) InvalidInput) l = Ok es ->
    length es = length l /\ forall k e, es !! k = Some e -> exists i, l !! k = Some i /\ entry c i = Some e) as Hlist.
  { clear. induction l as [|i l IH]; intros es Hm; cbn in Hm.
    - unfold mret, result_ret in Hm. simplify_eq. split; [done|]. intros k e. by rewrite lookup_nil.
    - inv_ok. match goal with HM : mapM _ _ = Ok _ |- _ => apply IH in HM as [Hlen Hall] end.
      unfold mret, result_ret in *. simplify_eq. split; [cbn; by rewrite Hlen|].
      intros [|k] e Hk; cbn in Hk; [simplify_eq; eauto|]. destruct (Hall k e Hk) as (j & ? & ?). eauto. }
  apply Hlist in Hmap as [Hlen Hall].
  assert (length entries = N.to_nat (commit_index c - old)) as Elen.
  { rewrite Hlen. unfold range. rewrite length_map, length_seq. lia. }
  constructor; [|constructor]. exists old. split_and!.
  - unfold len. rewrite Elen. lia.
  - intros k e Hk. destruct (Hall k e Hk) as (i & Hi & He). unfold range in Hi.
    rewrite list_lookup_fmap in Hi. destruct (seq 0 _ !! k) as [n|] eqn:En; simplify_eq/=.
    apply lookup_seq in En as [-> _]. cbn in He. done.
  - intros ->. cbn in Elen. lia.
Qed.

Lemma advance_leader_commit_yields : yields advance_leader_commit.
Proof.
  intros c Hb. pose proof (advance_leader_commit_quiet c) as Hq.
  assert (post advance_leader_commit c (fun r c' => core_base c' -> match r with Ok es => Forall (effect_ok c') es | Err _ => True end)) as He.
  { unfold advance_leader_commit. apply post_get_bind. destruct (role c); [by apply post_ret..|].
    apply post_lift_bind; [|done]. intros found _. destruct found; [apply post_modify_bind|apply (post_bind (mret _)), post_ret];
      apply post_get_bind, post_lift; destruct (commit_effects _ _) eqn:E; try done; intros; by eapply commit_effects_ok. }
  unfold post in *. destruct (advance_leader_commit c) as [r c']. cbn in *. split; [done|].
  apply He. by eapply quiet_base.
Qed.

Lemma advance_follower_commit_yields i : yields (advance_follower_commit i).
Proof.
  intros c Hb. pose proof (advance_follower_commit_quiet i c) as Hq.
  assert (post (advance_follower_commit i) c (fun r c' => core_base c' -> match r with Ok es => Forall (effect_ok c') es | Err _ => True end)) as He.
  { unfold advance_follower_commit. apply post_get_bind, post_modify_bind, post_get_bind, post_lift.
    destruct (commit_effects _ _) eqn:E; [|done]. intros. by eapply commit_effects_ok. }
  unfold post in *. destruct (advance_follower_commit i c) as [r c']. cbn in *. split; [done|].
  apply He. by eapply quiet_base.
Qed.

Lemma complete_read_barriers_yields : yields complete_read_barriers.
Proof.
  intros c Hb. pose proof (complete_read_barriers_quiet c) as Hq.
  assert (post complete_read_barriers c (fun r _ => match r with Ok es => Forall (effect_ok c) es | Err _ => True end)) as He.
  { unfold complete_read_barriers. apply post_get_bind.
    destruct (entry c (commit_index c)) as [e|] eqn:E; [|by apply post_ret].
    destruct (negb _) eqn:Et; [by apply post_ret|]. destruct (role c) as [|?|l]; [by apply post_ret..|].
    apply post_modify_bind, post_ret. bool_cases. apply Forall_fmap, Forall_forall. intros [id required] Hin.
    apply list_elem_of_omap in Hin as ([id' b] & _ & Hb'). cbn. destruct (_ && _) eqn:Ed; [|done]. bool_cases. simplify_eq.
    split; [done|]. exists (commit_index c), e. by split_and!. }
  unfold post in *. destruct (complete_read_barriers c) as [[es|er] c']; cbn in *; split; auto.
  by eapply effects_ok_quiet.
Qed.

Lemma acknowledge_read_barrier_yields from id : yields (acknowledge_read_barrier from id).
Proof.
  intros c Hb. unfold acknowledge_read_barrier. destruct id as [id|]; [|by apply emits_ret].
  destruct (id =? 0); [by apply post_raise, emits_err|]. apply post_get_bind.
  destruct (role c) as [|?|l]; [by apply emits_ret..|]. destruct (read_barriers l !! id); [|by apply emits_ret].
  apply post_modify_bind. apply yields_last; [apply quiet_role| |apply complete_read_barriers_yields].
  eapply quiet_base; [apply quiet_role|done].
Qed.

Lemma begin_read_barrier_yields id : yields (begin_read_barrier id).
Proof.
  intros c Hb. unfold begin_read_barrier. destruct (id =? 0); [by apply post_raise, emits_err|]. apply post_get_bind.
  destruct (role c) as [|?|l]; [by apply post_raise, emits_err..|]. destruct (_ || _); [by apply post_raise, emits_err|].
  apply post_modify_bind. destruct (active_satisfies _ _ _);
    (apply yields_last; [apply quiet_role| |by auto using complete_read_barriers_yields, probe_peers_yields]);
    eapply quiet_base; [apply quiet_role|done|apply quiet_role|done].
Qed.

Lemma cancel_read_barrier_yields id : yields (cancel_read_barrier id).
Proof.
  intros c Hb. unfold cancel_read_barrier. destruct (id =? 0); [by apply post_raise, emits_err|]. apply post_get_bind.
  eapply keeps_then; [reflexivity|done| |intros; by apply emits_ret]. quiet_walk.
Qed.

Lemma applied_through_yields i : yields (applied_through i).
Proof.
  intros c Hb. unfold applied_through. apply post_get_bind. destruct (_ || _) eqn:E; [by apply post_raise, emits_err|].
  bool_cases. apply post_modify_bind. assert (quiet c (with_applied i c)) as Hq by (by apply quiet_with_applied).
  apply yields_last; [done|by eapply quiet_base|apply complete_read_barriers_yields].
Qed.

Lemma become_leader_yields : yields become_leader.
Proof.
  intros c Hb. unfold become_leader. apply post_get_bind. apply post_lift_bind; [|intros; by apply emits_err].
  intros n _. set (l := Leading _). assert (quiet c (with_leader_id (Some (local_id c)) (with_role l c))) as Hq.
  { transitivity (with_role l c); eauto with mesh. }
  apply post_modify_bind. eapply yields_then; [exact Hq|by eapply quiet_base|apply probe_peers_yields|].
  intros es c' Hq' Hb' Hes. apply emits_ret; [done|]. constructor; [|done]. cbn. symmetry. apply Hq'.
Qed.

Lemma finish_campaign_yields c :
  core_base c -> voted_for c = Some (local_id c) -> post finish_campaign c (emits c).
Proof.
  intros Hb Hv. unfold finish_campaign. apply post_modify_bind, post_get_bind.
  set (c1 := with_role _ _). assert (quiet c c1) as Hq by (transitivity (with_leader_id None c); eauto with mesh).
  assert (core_base c1) as Hb1 by (by eapply quiet_base). destruct (active_satisfies _ _ _).
  - eapply yields_then; [exact Hq|done|apply become_leader_yields|]. intros es c' Hq' Hb' Hes.
    apply emits_ret; [done|]. constructor; [|done]. cbn. change (current_term c1) with (current_term c). symmetry. apply Hq'.
  - apply emits_ret; [done|]. constructor; [done|]. apply Forall_fmap, Forall_forall. intros v _. by split_and!.
Qed.

Lemma replay_membership_prefix_ok c peer response es :
  core_base c -> replay_membership_prefix c peer response = Ok es -> Forall (effect_ok c) es.
Proof.
  intros Hb. pose proof (base_log _ Hb) as Hl. unfold replay_membership_prefix. intros Hr. inv_ok. bool_cases.
  match goal with HF : History.find _ _ _ = Some ?b |- _ => rename b into boundary end.
  set (nxt := N.min (ar_next_index_hint response) _) in *.
  match goal with HP : (if nxt =? 1 then _ else _) = Ok ?p |- _ => rename p into prev; rename HP into Hprev end.
  assert (index prev + 1 = nxt /\ (nxt =? 1 = true -> prev = GENESIS) /\
    (prev <> GENESIS -> exists e, entry c (index prev) = Some e /\ entry_position e = prev)) as (Hidx & Hgen & Hent).
  { destruct (N.eqb_spec nxt 1) as [E1|E1]; inv_ok.
    - rewrite E1. by split_and!.
    - apply fmap_Some in Hprev as (e & He & ->). pose proof (entry_index _ _ _ He) as Hi. rewrite Hi.
      assert (0 < nxt) by (subst nxt; unfold saturating_add, u64_max; lia).
      split_and!; [lia|done|]. intros _. eauto. }
  constructor; [|constructor]. cbn. split_and!; [lia| |].
  - match goal with HD : (if bool_decide _ then _ else _) = Ok ?d |- _ => rename HD into Hd end.
    destruct (bool_decide_reflect (prev = GENESIS)) as [->|Hne]; inv_ok; [by left|].
    apply fmap_Some in Hd as (e & He & ->). destruct (Hent Hne) as (e' & He' & Hp). right. exists e. by simplify_eq.
  - rewrite <- Hidx. by apply replication_entries_after.
Qed.

Lemma membership_notice_ok c to : effect_ok c (membership_notice_effect c to).
Proof. by split. Qed.

Lemma finish_committed_prefix_yields from i : yields (finish_committed_prefix from i).
Proof.
  intros c Hb. unfold finish_committed_prefix. eapply keeps_then; [reflexivity|done|apply follow_leader_quiet|].
  intros u c1 Hq1 Hb1. apply post_get_bind. eapply yields_then; [done|done|apply advance_follower_commit_yields|].
  intros es c2 Hq2 Hb2 Hes. apply post_get_bind, emits_ret; [done|]. apply Forall_app. split; [done|].
  constructor; [apply membership_notice_ok|constructor].
Qed.

(** ** Accepted appends are held *)

(** What an accepting reply claims about the log it was computed for. *)
Lemma reply_held c c' request truncate suffix vs :
  core_base c -> validate_append_entries request = Ok tt ->
  position_matches c (aq_previous request) (aq_previous_digest request) = true ->
  log_delta c (aq_entries request) = Ok (truncate, suffix) ->
  log c' = log_after {| vote_state := vs; truncate_from := truncate; append := suffix;
                        mutation_epoch := None; quorum_plan := None |} (log c) -> log_ok (log c') ->
  holds_record c' (ar_matched_index (append_reply c request true)) (ar_matched_digest (append_reply c request true)).
Proof.
  intros Hb Hv Hpm Hd El Hl'. pose proof (base_log _ Hb) as Hl.
  destruct (validate_append_entries_inv request Hv) as (Hcont & _ & Hmax & _ & Hpv).
  destruct (position_matches_inv c _ _ Hl Hpm Hpv) as [Hpi Hprev].
  destruct (range_installed c _ _ _ _ vs Hl Hcont ltac:(lia) ltac:(lia) ltac:(lia) (base_commit _ Hb) (base_len _ Hb) Hd)
    as (_ & _ & _ & _ & _ & Hpresent & _). rewrite <- El in Hpresent.
  cbn [append_reply ar_matched_index ar_matched_digest]. destruct (last (aq_entries request)) as [e|] eqn:Elast.
  - rewrite last_lookup in Elast. destruct (Hpresent _ _ Elast) as (e' & He' & Hpos & Hdig).
    destruct (Hcont _ _ Elast) as [Hidx _]. right. exists e'. split; [|done].
    apply entry_lookup; [done|]. split; [lia|]. rewrite <- He'. f_equal. lia.
  - apply last_None in Elast. rewrite Elast in Hd. cbn in Hd. simplify_eq. unfold log_after in El. cbn in El.
    rewrite app_nil_r in El. destruct Hprev as [[-> ->]|(e & He & _ & Hde)]; [apply holds_genesis|].
    right. exists e. split; [|done]. unfold entry in *. by rewrite El.
Qed.

Lemma append_reply_effect_ok c to reply :
  (ar_accepted reply = true -> holds_record c (ar_matched_index reply) (ar_matched_digest reply)) ->
  effect_ok c (append_reply_effect c to reply).
Proof. by split. Qed.

(** ** Handlers that may ask for persistence *)

Definition speaks (c : ConsensusCore) (r : result CoreError (list CoreEffect)) (c' : ConsensusCore) : Prop :=
  emits c r c' \/
  (exists id m, r = Ok [Persist id m]) /\ next_persistence_id c' <> next_persistence_id c.

Lemma yields_speaks m c : yields m -> core_base c -> post m c (speaks c).
Proof. intros Hm Hb. eapply post_mono; [by apply Hm|]. intros r c' He. by left. Qed.

Lemma emits_speaks m c : post m c (emits c) -> post m c (speaks c).
Proof. intros Hm. eapply post_mono; [exact Hm|]. intros r c' He. by left. Qed.

Lemma begin_persistence_speaks m a c : post (begin_persistence m a) c (speaks c).
Proof.
  unfold begin_persistence. apply post_get_bind. apply post_lift_bind; [|intros; by left; apply emits_err].
  intros n Hn. inv_ok. apply post_modify_bind, post_ret. right. split; [eauto|]. cbn. lia.
Qed.

Ltac speak_walk :=
  repeat match goal with
  | |- post (get_state ≫= _) _ _ => apply post_get_bind; cbv beta
  | |- post (lift _ ≫= _) _ _ => apply post_lift_bind; [intros ? ?|intros; by left; apply emits_err]
  | |- post (if ?b then _ else _) _ _ => destruct b eqn:?
  | |- post (let '(_, _) := ?p in _) _ _ => destruct p eqn:?
  | |- post (match ?x with _ => _ end) _ _ => destruct x eqn:?
  | |- post (raise _) _ _ => apply post_raise; by left; apply emits_err
  | |- post (mret []) _ _ => apply post_ret; by left; apply emits_nil
  | |- post (begin_persistence _ _) _ _ => apply begin_persistence_speaks
  end.

Lemma vote_request_speaks from request c : core_base c -> post (vote_request from request) c (speaks c).
Proof.
  intros Hb. unfold vote_request. speak_walk.
  - apply post_lift. left. split; [reflexivity|]. destruct (replay_membership_prefix _ _ _) eqn:E; [|done].
    by eapply replay_membership_prefix_ok.
  - apply emits_speaks, emits_ret; [done|]. constructor; [apply membership_notice_ok|constructor].
  - apply emits_speaks, emits_ret; [done|]. constructor; [by split|constructor].
  - apply emits_speaks, emits_ret; [done|]. constructor; [|constructor]. split; [done|]. cbn [vr_granted].
    intros Hg. match goal with HB : _ || _ && _ = false |- _ => apply orb_false_iff in HB as [_ Hx] end.
    rewrite Hg in Hx. cbn [andb] in Hx. by bool_cases.
Qed.

Lemma vote_response_speaks from response c : core_base c -> post (vote_response from response) c (speaks c).
Proof.
  intros Hb. unfold vote_response. speak_walk.
  - apply begin_persistence_speaks.
  - apply emits_speaks, post_modify_bind. destruct (active_satisfies _ _ _); [|by apply emits_ret; [apply quiet_role|]].
    apply yields_last; [apply quiet_role|eapply quiet_base; [apply quiet_role|done]|apply become_leader_yields].
Qed.

Lemma append_request_speaks from request c : core_base c -> post (append_request from request) c (speaks c).
Proof.
  intros Hb. unfold append_request. speak_walk; repeat match goal with u : unit |- _ => destruct u end.
  - apply emits_speaks, emits_ret; [done|]. constructor; [apply membership_notice_ok|constructor].
  - apply emits_speaks, emits_ret; [done|]. constructor; [by apply append_reply_effect_ok|constructor].
  - apply emits_speaks. eapply keeps_then; [reflexivity|done|apply follow_leader_quiet|].
    intros u c1 Hq1 Hb1. apply post_get_bind, emits_ret; [done|]. constructor; [by apply append_reply_effect_ok|constructor].
  - apply emits_speaks. bool_cases.
    match goal with HT : ~ (_ <> None) |- _ => apply dec_stable in HT; rewrite HT in * end.
    match goal with HS : _ = [] |- _ => rewrite HS in * end.
    eapply keeps_then; [reflexivity|done|apply follow_leader_quiet|].
    intros u c1 Hq1 Hb1. apply post_get_bind. eapply yields_then; [done|done|apply advance_follower_commit_yields|].
    intros es c2 Hq2 Hb2 Hes. apply post_get_bind, emits_ret; [done|]. apply Forall_app. split; [done|].
    constructor; [|constructor]. apply append_reply_effect_ok. intros _.
    replace (ar_matched_index (append_reply c1 request true)) with (ar_matched_index (append_reply c request true)) by done.
    replace (ar_matched_digest (append_reply c1 request true)) with (ar_matched_digest (append_reply c request true)) by done.
    eapply (reply_held c c2 _ None [] None); eauto; [|apply Hb2].
    unfold log_after. cbn. rewrite app_nil_r. apply Hq2.
Qed.

(** Commit, answer waiting reads, then keep replicating. *)
Lemma answer_emits from id (next_probe : Core (list CoreEffect)) c0 c :
  quiet c0 c -> core_base c -> yields next_probe ->
  post (committed ← advance_leader_commit; reads ← acknowledge_read_barrier from id; more ← next_probe;
        mret (committed ++ reads ++ more)) c (emits c0).
Proof.
  intros Hq Hb Hm. eapply yields_then; [done|done|apply advance_leader_commit_yields|]. intros es1 c1 Hq1 Hb1 Hes1.
  apply post_bind. eapply post_mono; [by apply acknowledge_read_barrier_yields|].
  intros [es2|e] c2 [Hq2 Hes2]; [|split; [by etransitivity|done]]. assert (core_base c2) as Hb2 by (by eapply quiet_base).
  apply post_bind. eapply post_mono; [by apply Hm|].
  intros [es3|e] c3 [Hq3 Hes3]; [|split; [|done]; etransitivity; [exact Hq1|]; by etransitivity].
  apply emits_ret; [etransitivity; [exact Hq1|]; by etransitivity|].
  rewrite !Forall_app. split_and!; [|by eapply effects_ok_quiet|done].
  eapply effects_ok_quiet; [|exact Hes1]. by etransitivity.
Qed.

Lemma append_response_speaks from response c : core_base c -> post (append_response from response) c (speaks c).
Proof.
  intros Hb. unfold append_response. speak_walk.
  - apply post_lift. left. split; [reflexivity|]. destruct (replay_membership_prefix _ _ _) eqn:E; [|done].
    by eapply replay_membership_prefix_ok.
  - apply begin_persistence_speaks.
  - apply emits_speaks, post_modify_bind. set (c1 := with_role _ c).
    assert (quiet c c1) as Hq1 by apply quiet_role. assert (core_base c1) as Hb1 by (by eapply quiet_base).
    match goal with |- post (match ?p with _ => _ end) _ _ => destruct p end.
    1,2: eapply keeps_then; [done|done|apply record_progress_quiet|]; intros u c2 Hq2 Hb2; apply post_get_bind;
      apply answer_emits; [done|done|]; destruct (_ <=? _); [apply probe_one_yields|intros c' Hb'; by apply emits_ret].
    apply yields_last; [done|done|apply acknowledge_read_barrier_yields].
  - apply emits_speaks. by apply probe_one_yields.
Qed.

Lemma receive_committed_prefix_speaks from p c : core_base c -> post (receive_committed_prefix from p) c (speaks c).
Proof.
  intros Hb. unfold receive_committed_prefix. speak_walk.
  - apply emits_speaks, emits_ret; [done|]. constructor; [apply membership_notice_ok|constructor].
  - apply emits_speaks, emits_ret; [done|]. constructor; [by split|constructor].
  - apply yields_speaks; [apply finish_committed_prefix_yields|done].
Qed.

Lemma step_speaks input c :
  core_base c -> (forall id, input <> Persisted id) -> post (step input) c (speaks c).
Proof.
  intros Hb Hin. unfold step. apply post_get_bind. destruct (_ && _); [by apply post_raise; left; apply emits_err|].
  destruct input as [| |from inc message|id|pid op v cmd|id|id|pid op|j inc at_|p inc at_|i].
  - unfold start_election. speak_walk.
  - apply yields_speaks; [apply heartbeat_yields|done].
  - unfold receive. speak_walk; auto using vote_request_speaks, vote_response_speaks, append_request_speaks,
      append_response_speaks, receive_committed_prefix_speaks.
  - by destruct (Hin id).
  - unfold propose. speak_walk.
  - apply yields_speaks; [apply begin_read_barrier_yields|done].
  - apply yields_speaks; [apply cancel_read_barrier_yields|done].
  - unfold propose. speak_walk.
  - unfold activate_joint_plan. speak_walk.
  - unfold activate_stable_plan. speak_walk.
  - apply yields_speaks; [apply applied_through_yields|done].
Qed.

(** ** Effects of a completed request *)

Lemma finish_proposal_emits c pid position :
  core_base c -> (exists e, entry c (index position) = Some e /\ entry_position e = position) ->
  post (finish_proposal pid position) c (emits c).
Proof.
  intros Hb Hpos. unfold finish_proposal. apply post_get_bind. destruct (role c) as [|?|l]; [by apply post_raise, emits_err..|].
  eapply keeps_then; [reflexivity|done|quiet_walk|]. intros u c1 Hq1 Hb1.
  apply post_lift_bind; [|intros; by apply emits_err]. intros succ _.
  eapply keeps_then; [done|done|quiet_walk|]. intros u2 c2 Hq2 Hb2.
  eapply yields_then; [done|done|apply probe_peers_yields|]. intros es1 c3 Hq3 Hb3 Hes1.
  apply post_bind. eapply post_mono; [by apply advance_leader_commit_yields|].
  intros [es2|e] c4 [Hq4 Hes2]; [|split; [by etransitivity|done]].
  assert (quiet c c4) as Hq by (by etransitivity). apply emits_ret; [done|].
  constructor; [apply (effect_ok_quiet c); [exact Hq|exact Hpos]|]. apply Forall_app. split; [by apply (effects_ok_quiet c3)|done].
Qed.

Definition effects_ok (r : result CoreError (list CoreEffect)) (c' : ConsensusCore) : Prop :=
  match r with Ok es => Forall (effect_ok c') es | Err _ => True end.

Lemma emits_effects m c : post m c (emits c) -> post m c effects_ok.
Proof. intros Hm. eapply post_mono; [exact Hm|]. by intros r c' [_ He]. Qed.

Lemma finish_plan_activation_effects c a inc at_ :
  core_base c -> active_built a -> post (finish_plan_activation a inc at_) c effects_ok.
Proof.
  intros Hb Ha. unfold finish_plan_activation. apply post_modify_bind, post_get_bind.
  set (c1 := clear_replication_budget_overrides _).
  assert (core_base c1) as Hb1 by (destruct Hb; by split).
  apply post_lift_bind; [|done]. intros n _. apply post_bind.
  eapply (post_mono _ _ (fun _ c2 => quiet c1 c2)).
  { destruct (role c1); [by apply post_ret..|]. apply post_modify, quiet_role. }
  intros [u|e] c2 Hq; [|done]. assert (core_base c2) as Hb2 by (by eapply quiet_base).
  destruct (_ && _ && _); [apply emits_effects; by apply probe_peers_yields|].
  destruct (_ && _); [by apply post_ret; constructor|]. apply post_modify_bind, post_ret.
  destruct (negb _); [|by constructor]. constructor; [|constructor]. cbn. symmetry. apply (quiet_term _ _ Hq).
Qed.

Lemma after_persistence_effects c p :
  core_base c -> request_ok c (mutation p) (action p) -> post (after_persistence p) (resumed c p) effects_ok.
Proof.
  intros Hb Hr. pose proof (request_sound _ _ _ Hb Hr) as Hs.
  assert (core_base (resumed c p)) as Hb1.
  { apply mutated_base; [by apply with_pending_base|]. destruct Hs. by split. }
  pose proof (mutated_fields (with_pending None c) (mutation p)) as (Et & Ev & El & Eg & _).
  unfold resumed in *. unfold after_persistence. destruct p as [pid m act]. cbn [mutation action] in *.
  set (c1 := mutated _ _) in *. destruct Hr.
  - apply emits_effects, finish_campaign_yields; [done|]. unfold local_id. rewrite Ev, Eg. done.
  - apply post_modify_bind, post_get_bind, post_ret. constructor; [|constructor]. split; [done|].
    cbn [vr_granted]. intros ->. exact Ev.
  - apply post_modify_bind, post_get_bind, post_ret. by constructor.
  - apply post_modify_bind. cbn [ar_accepted append_reply]. apply post_bind, post_ret, post_get_bind, post_ret.
    cbn [app]. constructor; [by apply append_reply_effect_ok|constructor].
  - apply emits_effects. apply keeps_then; [reflexivity|done|apply follow_leader_quiet|].
    intros u c2 Hq2 Hb2. cbn [ar_accepted append_reply].
    eapply yields_then; [done|done|apply advance_follower_commit_yields|]. intros es c3 Hq3 Hb3 Hes.
    apply post_get_bind, emits_ret; [done|]. apply Forall_app. split; [done|]. constructor; [|constructor].
    apply append_reply_effect_ok. intros _. eapply reply_held; eauto; [|apply Hb3].
    rewrite (quiet_log _ _ Hq3), El. done.
  - apply emits_effects. by apply finish_committed_prefix_yields.
  - apply emits_effects. apply finish_proposal_emits; [done|]. exists e.
    match goal with HN : new_entry _ _ _ _ = Ok _ |- _ => apply new_entry_Ok in HN as [Hpos _] end.
    split; [|done]. apply entry_lookup; [apply Hb1|]. rewrite (last_index_len c) by apply Hb. cbn [index].
    split; [lia|]. rewrite El. unfold log_after. cbn [truncate_from append].
    rewrite N.add_sub. unfold len. rewrite Nat2N.id. by rewrite list_lookup_middle.
  - apply post_lift_bind; [|done]. intros q _. by apply finish_plan_activation_effects.
  - apply post_lift_bind; [|done]. intros q _. by apply finish_plan_activation_effects.
Qed.

End effects.
