(* ===== verification/CoreSafety.v ===== *)
(** Safety of one consensus core: its invariant, what survives every step, and what its
    messages promise. *)

From S2P Require Import Prelude VoterSet Predicate Plan Digest Compile FlatPlan Joint Types Membership MembershipCommand Probes History Core CoreRequest CoreLog CoreInv CoreEffects.
From stdpp Require Import prelude gmap.
#[local] Open Scope N_scope.

Section step_role.
Context `{Sha256}.

Lemma begin_persistence_role m a : preserved role_inv (begin_persistence m a).
Proof. intros c Hc. unfold begin_persistence. inv_walk. Qed.

Lemma vote_request_role from request : preserved role_inv (vote_request from request).
Proof. intros c Hc. unfold vote_request. inv_walk. by apply begin_persistence_role. Qed.

Lemma append_request_role from request : preserved role_inv (append_request from request).
Proof.
  intros c Hc. unfold append_request. inv_walk; try (by apply begin_persistence_role).
  - apply post_modify_bind, post_get_bind, post_ret. by destruct Hc.
  - apply post_modify_bind, post_get_bind. apply preserved_then; [apply advance_follower_commit_role|by destruct Hc|].
    intros effects c' Hc'. by apply post_get_bind, post_ret.
Qed.

Lemma receive_committed_prefix_role from p : preserved role_inv (receive_committed_prefix from p).
Proof.
  intros c Hc. unfold receive_committed_prefix. inv_walk; [by apply begin_persistence_role|].
  apply finish_committed_prefix_role. by destruct Hc.
Qed.

Lemma step_role input : (forall id, input <> Persisted id) -> preserved role_inv (step input).
Proof.
  intros Hin c Hc. unfold step. apply post_get_bind. destruct (_ && _); [done|].
  destruct input as [| |from inc message|id|pid op v cmd|id|id|pid op|j inc at_|p inc at_|i].
  - unfold start_election. inv_walk. by apply begin_persistence_role.
  - by apply heartbeat_role.
  - unfold receive. inv_walk.
    + by apply vote_request_role.
    + by apply vote_response_role.
    + by apply append_request_role.
    + by apply append_response_role.
    + by apply receive_committed_prefix_role.
  - by destruct (Hin id).
  - unfold propose. inv_walk. by apply begin_persistence_role.
  - by apply begin_read_barrier_role.
  - by apply cancel_read_barrier_role.
  - unfold propose. inv_walk. by apply begin_persistence_role.
  - unfold activate_joint_plan. inv_walk. by apply begin_persistence_role.
  - unfold activate_stable_plan. inv_walk. by apply begin_persistence_role.
  - by apply applied_through_role.
Qed.

End step_role.

Section step_cases.
Context `{Sha256}.

(** The three things a step can be. *)
Inductive step_case (c : ConsensusCore) (input : CoreInput) : result CoreError (list CoreEffect) -> ConsensusCore -> Prop :=
| case_quiet r c' :
    quiet c c' -> role_ok c' -> pending c = None \/ c' = c -> step_case c input r c'
| case_request m a :
    pending c = None -> request_ok c m a -> step_case c input (Ok [Persist (next_persistence_id c) m]) (begun c m a)
| case_completed p r c' :
    pending c = Some p -> input = Persisted (pending_id p) -> request_ok c (mutation p) (action p) ->
    after_persistence p (resumed c p) = (r, c') -> completed c p c' -> role_ok c' -> step_case c input r c'.

Lemma step_persisted c id :
  core_ok c -> post (step (Persisted id)) c (step_case c (Persisted id)).
Proof.
  intros [Hb Hr Hp]. unfold step. apply post_get_bind. cbn [negb]. rewrite andb_false_r.
  unfold pending_ok in Hp. destruct (pending c) as [p|] eqn:Ep.
  - destruct (N.eq_dec (pending_id p) id) as [<-|Hne].
    + unfold post. rewrite (finish_persistence_run c p Hb Ep Hp).
      pose proof (after_persistence_completed c p Hb Hp) as Hdone.
      pose proof (after_persistence_role c p Hb Hr Hp) as Hrole. unfold post in *.
      destruct (after_persistence p (resumed c p)) as [r c'] eqn:E. cbn in *.
      eapply case_completed; eauto. apply Hrole.
    + unfold finish_persistence. apply post_get_bind. rewrite Ep, (proj2 (N.eqb_neq _ _)) by done.
      apply post_raise, case_quiet; auto. reflexivity.
  - unfold finish_persistence. apply post_get_bind. rewrite Ep. apply post_raise, case_quiet; auto. reflexivity.
Qed.

Lemma step_cases c input :
  core_ok c -> input_built input -> post (step input) c (step_case c input).
Proof.
  intros Hc Hi. destruct (match input with Persisted _ => true | _ => false end) eqn:E.
  - destruct input; try discriminate E. by apply step_persisted.
  - assert (forall id, input <> Persisted id) as Hne by (by intros id ->).
    destruct (pending c) as [p|] eqn:Ep.
    + unfold step. apply post_get_bind. rewrite E, bool_decide_eq_true_2 by congruence.
      apply post_raise, case_quiet; [reflexivity|apply Hc|by right].
    + pose proof (step_outcome c input Hi Hne) as Ho.
      pose proof (step_role input Hne c ltac:(destruct Hc as [[Hl _ _ _ _ _ _] Hr _]; by split)) as Hr.
      unfold post in *. destruct (step input c) as [r c']. cbn in *. destruct Ho as [r c' Hq|m a Hreq].
      * apply case_quiet; [done|apply Hr|by left].
      * by apply case_request.
Qed.

Lemma step_case_ok c input r c' : core_ok c -> step_case c input r c' -> core_ok c'.
Proof.
  intros [Hb Hr Hp] Hs. destruct Hs as [r c' Hq Hr' Hpend|m a Hnone Hreq|p r c' Ep Ei Hreq Hrun Hdone Hr'].
  - destruct Hpend as [Hnone| ->]; [|by split].
    split; [by eapply quiet_base|done|]. unfold pending_ok. by rewrite (quiet_pending _ _ Hq), Hnone.
  - split; [by destruct Hb|exact Hr|]. cbn. by apply (request_ok_ext c).
  - split; [apply Hdone|done|]. unfold pending_ok. by rewrite (done_pending _ _ _ Hdone).
Qed.

End step_cases.

(** ** Reachable states *)

Section reachability.
Context `{Sha256}.

(** Everything the public interface of one core can produce. *)
Inductive reachable : ConsensusCore -> Prop :=
| reach_restore cfg d c : plan_built (plan cfg) -> restore cfg d = Ok c -> reachable c
| reach_restore_active cfg d active c :
    plan_built (plan cfg) -> active_built active -> restore_active cfg d active = Ok c -> reachable c
| reach_step c input : reachable c -> input_built input -> reachable (snd (step input c))
| reach_budgets c default_ overrides :
    reachable c -> reachable (snd (set_replication_budgets default_ overrides c))
| reach_clear_budgets c : reachable c -> reachable (clear_replication_budget_overrides c).

Lemma validate_durable_log_Ok t prev expected l :
  validate_durable_log t prev expected l = Ok tt ->
  contiguous expected l /\ Forall (fun e => term (entry_position e) <= t) l /\
  (l <> [] -> expected + len l <= u64_max).
Proof.
  revert prev expected. induction l as [|e l IH]; intros prev expected Hv; cbn [validate_durable_log] in Hv.
  - split_and!; [apply contiguous_nil|constructor|done].
  - inv_ok. bool_cases. repeat match goal with u : unit |- _ => destruct u end.
    match goal with HV : validate_durable_log _ _ _ _ = Ok _ |- _ => apply IH in HV as (Hc & Ht & Hm) end.
    rewrite contiguous_cons, Forall_cons, len_cons. split_and!; auto.
    intros _. destruct l; [unfold len; cbn; lia|]. specialize (Hm ltac:(done)). rewrite len_cons in *. lia.
Qed.

Lemma restore_ok cfg d c :
  plan_built (plan cfg) -> restore cfg d = Ok c -> core_ok c /\ pending c = None /\ role c = Following.
Proof.
  intros Hp Hr. unfold restore in Hr. inv_ok.
  match goal with HV : validate_durable_state _ = Ok _ |- _ => unfold validate_durable_state in HV end. inv_ok.
  repeat match goal with u : unit |- _ => destruct u end.
  match goal with HV : validate_durable_log _ _ _ _ = Ok _ |- _ => apply validate_durable_log_Ok in HV as (Hc & Ht & Hm) end.
  repeat match goal with HB : _ || _ = false |- _ => apply orb_false_iff in HB as [? ?] end.
  split; [|done]. split; [|done|done]. split; cbn; auto.
  - destruct (durable_log d); [unfold len; cbn; lia|]. specialize (Hm ltac:(done)). lia.
  - destruct (last (durable_log d)) as [e|] eqn:E.
    + pose proof (contiguous_last 1 _ _ Hc E). bool_cases. lia.
    + bool_cases. lia.
  - intros E0. match goal with HV : (_ =? 0) && _ = false |- _ => rewrite E0 in HV; cbn in HV end. bool_cases.
    by apply dec_stable.
Qed.

Lemma with_budgets_ok default_ overrides c : core_ok c -> core_ok (with_budgets default_ overrides c).
Proof.
  intros [[] Hr Hp]. split; [by split|exact Hr|]. unfold pending_ok in *. cbn. destruct (pending c) as [p|]; [|done].
  by apply (request_ok_ext c).
Qed.

Lemma reachable_ok c : reachable c -> core_ok c.
Proof.
  induction 1 as [cfg d c Hp Hr|cfg d active c Hp Ha Hr|c input _ IH Hi|c default_ overrides _ IH|c _ IH].
  - by eapply restore_ok.
  - unfold restore_active in Hr. inv_ok.
    match goal with HR : restore _ _ = Ok _ |- _ => apply restore_ok in HR as ([[] Hrole Hpend] & En & Er); [|done] end.
    split; [by split|exact Hrole|]. unfold pending_ok in *. cbn. by rewrite En.
  - pose proof (step_cases c input IH Hi) as Hs. eapply step_case_ok; [exact IH|exact Hs].
  - unfold set_replication_budgets, mbind, SE_bind, get_state. destruct (negb _); [done|].
    cbn. by apply with_budgets_ok.
  - by apply with_budgets_ok.
Qed.

(** Every effect of a successful step is the one persistence request, or true of the
    state the step ends in. *)
Lemma step_effects c input es c' :
  core_ok c -> input_built input -> step input c = (Ok es, c') ->
  (exists m a, es = [Persist (next_persistence_id c) m] /\ c' = begun c m a /\ pending c = None /\ request_ok c m a) \/
  Forall (effect_ok c') es.
Proof.
  intros [Hb Hr Hp] Hi Hs. destruct (match input with Persisted _ => true | _ => false end) eqn:E.
  - destruct input as [| | |id| | | | | | |]; try discriminate E. right. revert Hs.
    unfold step, mbind at 1, SE_bind at 1, get_state. cbn [negb]. rewrite andb_false_r.
    unfold pending_ok in Hp. destruct (pending c) as [p|] eqn:Ep.
    + destruct (N.eq_dec (pending_id p) id) as [<-|Hne].
      * rewrite (finish_persistence_run c p Hb Ep Hp). intros Hrun.
        pose proof (after_persistence_effects c p Hb Hp) as He. unfold post in He. by rewrite Hrun in He.
      * unfold finish_persistence, mbind at 1, SE_bind at 1, get_state. by rewrite Ep, (proj2 (N.eqb_neq _ _)).
    + unfold finish_persistence, mbind at 1, SE_bind at 1, get_state. by rewrite Ep.
  - assert (forall id, input <> Persisted id) as Hne by (by intros id ->).
    pose proof (step_speaks input c Hb Hne) as Hsp. pose proof (step_outcome c input Hi Hne) as Ho.
    assert (pending c = None) as Hnone.
    { destruct (pending c) as [p|] eqn:Ep; [|done]. revert Hs. unfold step, mbind, SE_bind, get_state.
      by rewrite E, bool_decide_eq_true_2 by congruence. }
    unfold post in *. rewrite Hs in Hsp, Ho. cbn in *. destruct Hsp as [[_ He]|[(id & m & Er) Hn]]; [by right|].
    inversion Ho as [r c1 Hq Er1 Ec1|m1 a1 Hreq Er1 Ec1]; subst.
    + by destruct (Hn (quiet_persistence_id _ _ Hq)).
    + left. exists m, a1. by simplify_eq.
Qed.

End reachability.

(** ** What one core guarantees *)

Section guarantees.
Context `{Sha256}.

Lemma completed_prefix c p c' i :
  core_ok c -> pending c = Some p -> completed c p c' -> i <= commit_index c -> entry c' i = entry c i.
Proof.
  intros [Hb _ Hp] Ep Hd Hi. unfold pending_ok in Hp. rewrite Ep in Hp.
  pose proof (sound_prefix _ _ (request_sound _ _ _ Hb Hp)) as Hkeep.
  destruct (N.eq_0_gt_0_cases i) as [->|Hpos]; [done|].
  specialize (Hkeep (i - 1) ltac:(lia)). unfold entry, checked_sub. rewrite (done_log _ _ _ Hd).
  rewrite (proj2 (N.leb_le 1 i)) by lia. cbn [mbind option_bind]. by rewrite !nth_N_lookup, Hkeep.
Qed.

(** The facts every step preserves, whatever its input and outcome. *)
Lemma step_progress c input r c' :
  core_ok c -> input_built input -> step input c = (r, c') ->
  current_term c <= current_term c' /\
  (current_term c' = current_term c -> voted_for c <> None -> voted_for c' = voted_for c) /\
  commit_index c <= commit_index c' /\ applied_index c <= applied_index c' /\
  (forall i, i <= commit_index c -> entry c' i = entry c i) /\ local_id c' = local_id c.
Proof.
  intros Hok Hi Hs. pose proof (step_cases c input Hok Hi) as Hcase. unfold post in Hcase. rewrite Hs in Hcase. cbn in Hcase.
  destruct Hcase as [r c' Hq _ _|m a _ _|p r c' Ep _ Hreq _ Hd _].
  - assert (forall i, entry c' i = entry c i) as He by (intros; by apply quiet_entry).
    destruct Hq as [Q1 Q2 Q3 Q4 Q5 Q6 Q7 Q8 Q9 Q10 Q11 Q12]. unfold local_id. rewrite Q1.
    split_and!; auto. by rewrite Q4.
  - split_and!; auto; reflexivity.
  - pose proof (request_sound _ _ _ (ok_base _ Hok) Hreq) as [_ _ _ _ St Sv _].
    rewrite (done_term _ _ _ Hd), (done_vote _ _ _ Hd).
    split_and!; auto; [apply Hd|apply Hd| |].
    + intros i Hle. by eapply completed_prefix.
    + unfold local_id. rewrite (done_config _ _ _ Hd). unfold config_next. by destruct (action p).
Qed.

End guarantees.

(** C15: in every state a consensus core can reach, its log is numbered 1, 2, 3, ... with
    entries that pass validation and never come from a future term; applied <= committed
    <= last; and a candidate or leader has durably voted for itself in its term, while a
    leader never credits any member with more entries than its own log holds, keeps at
    most 64 probes per lane and at most 1024 pending reads. *)
Theorem core_invariant `{Sha256} c :
  reachable c ->
  (forall i e, log c !! i = Some e ->
     index (entry_position e) = N.of_nat i + 1 /\ validate_entry e = Ok tt /\ term (entry_position e) <= current_term c) /\
  applied_index c <= commit_index c /\ commit_index c <= index (last_position c) /\
  (role_of c <> Follower -> voted_for c = Some (local_id c) /\ 0 < current_term c) /\
  (forall l, role c = Leading l ->
     (forall n m, matched l !! n = Some m -> m <= index (last_position c)) /\
     (forall n p, probes l !! n = Some p -> lanes_bounded p) /\
     N.of_nat (size (read_barriers l)) <= MAXIMUM_PENDING_READ_BARRIERS).
Proof.
  intros [[Hl _ Ht Hc Ha _ _] Hr _]%reachable_ok. rewrite (last_index_len c Hl).
  split_and!; auto.
  - intros i e He. destruct (Hl i e He) as [-> Hv]. rewrite Forall_forall in Ht.
    split_and!; [lia|done|]. apply Ht. by eapply list_elem_of_lookup_2.
  - unfold role_ok, role_of in *. destruct (role c); [done|done|by destruct Hr].
  - intros l E. unfold role_ok in Hr. rewrite E in Hr. apply Hr.
Qed.

(** C16: no input moves a core backwards: its term never decreases, a vote cast in a term is
    never changed or withdrawn in that term, the commit and applied positions never
    decrease, and every committed entry stays exactly as it was. *)
Theorem step_monotone `{Sha256} c input r c' :
  reachable c -> input_built input -> step input c = (r, c') ->
  current_term c <= current_term c' /\
  (current_term c' = current_term c -> voted_for c <> None -> voted_for c' = voted_for c) /\
  commit_index c <= commit_index c' /\ applied_index c <= applied_index c' /\
  (forall i, i <= commit_index c -> entry c' i = entry c i).
Proof.
  intros Hre Hi Hs. destruct (step_progress c input r c' (reachable_ok c Hre) Hi Hs) as (? & ? & ? & ? & ? & _).
  by split_and!.
Qed.

(** C17: the term, the vote, the log and the active plan change only when the driver
    acknowledges the one pending persistence request, and then exactly as that request
    said: no input is partially applied, and no acknowledged request is refused. *)
Theorem durable_state_changes_only_when_persisted `{Sha256} c input r c' :
  reachable c -> input_built input -> step input c = (r, c') ->
  (current_term c' = current_term c /\ voted_for c' = voted_for c /\ log c' = log c /\ active_plan c' = active_plan c /\
   forall p, pending c = Some p -> pending c' = Some p) \/
  (exists p, pending c = Some p /\ input = Persisted (pending_id p) /\ pending c' = None /\
     current_term c' = term_after (mutation p) (current_term c) /\
     voted_for c' = vote_after (mutation p) (voted_for c) /\
     log c' = log_after (mutation p) (log c) /\ active_plan c' = plan_next p (active_plan c)).
Proof.
  intros Hre Hi Hs. pose proof (step_cases c input (reachable_ok c Hre) Hi) as Hcase. unfold post in Hcase.
  rewrite Hs in Hcase. cbn in Hcase. destruct Hcase as [r c' [] _ _|m a Hn _|p r c' Ep Ei _ _ [] _].
  - left. split_and!; auto. congruence.
  - left. split_and!; auto. congruence.
  - right. eauto 10.
Qed.

(** A step that asks for persistence does nothing else visible: the request is its only
    effect, it is remembered until acknowledged, and no durable field has changed yet. *)
Theorem persistence_request_is_alone `{Sha256} c input es c' id m :
  reachable c -> input_built input -> step input c = (Ok es, c') -> Persist id m ∈ es ->
  es = [Persist id m] /\ pending c = None /\
  (exists a, pending c' = Some {| pending_id := id; mutation := m; action := a |}) /\
  current_term c' = current_term c /\ voted_for c' = voted_for c /\ log c' = log c /\ commit_index c' = commit_index c.
Proof.
  intros Hre Hi Hs Hin.
  destruct (step_effects c input es c' (reachable_ok c Hre) Hi Hs) as [(m' & a & -> & -> & Hn & _)|He].
  - apply list_elem_of_singleton in Hin. simplify_eq. split_and!; auto. by exists a.
  - rewrite Forall_forall in He. destruct (He _ Hin).
Qed.

(** A granted vote is durable before it is sent: whenever a step answers a vote request
    positively, the core's durable vote in exactly that term is for that candidate. *)
Theorem granted_vote_is_durable `{Sha256} c input es c' to response :
  reachable c -> input_built input -> step input c = (Ok es, c') ->
  Send to (MVoteResponse response) ∈ es -> vr_granted response = true ->
  voted_for c' = Some to /\ current_term c' = vr_term response.
Proof.
  intros Hre Hi Hs Hin Hg.
  destruct (step_effects c input es c' (reachable_ok c Hre) Hi Hs) as [(m' & a & -> & _)|He].
  - by apply list_elem_of_singleton in Hin.
  - rewrite Forall_forall in He. destruct (He _ Hin) as [Ht Hv]. auto.
Qed.

(** An accepted append is durable before it is acknowledged: the core that reports a
    matched index holds, in its durable log, the record with exactly the digest it
    reports at that index. *)
Theorem accepted_append_is_held `{Sha256} c input es c' to response :
  reachable c -> input_built input -> step input c = (Ok es, c') ->
  Send to (MAppendResponse response) ∈ es -> ar_accepted response = true ->
  ar_term response = current_term c' /\
  ((ar_matched_index response = 0 /\ ar_matched_digest response = zero32) \/
   exists e, entry c' (ar_matched_index response) = Some e /\ entry_digest e = ar_matched_digest response).
Proof.
  intros Hre Hi Hs Hin Hg.
  destruct (step_effects c input es c' (reachable_ok c Hre) Hi Hs) as [(m' & a & -> & _)|He].
  - by apply list_elem_of_singleton in Hin.
  - rewrite Forall_forall in He. destruct (He _ Hin) as [Ht Hv]. split; [done|]. by apply Hv.
Qed.

(** A leader only replicates its own log: every append request carries the sender's
    current term, a previous record it holds, the entries that follow it in its log in
    order, and no commit index beyond its own. *)
Theorem append_request_is_log_slice `{Sha256} c input es c' to request :
  reachable c -> input_built input -> step input c = (Ok es, c') ->
  Send to (MAppendRequest request) ∈ es ->
  aq_term request = current_term c' /\ aq_leader request = local_id c' /\
  aq_leader_commit_index request <= commit_index c' /\
  holds_position c' (aq_previous request) (aq_previous_digest request) /\
  log_slice c' (index (aq_previous request)) (aq_entries request).
Proof.
  intros Hre Hi Hs Hin.
  destruct (step_effects c input es c' (reachable_ok c Hre) Hi Hs) as [(m' & a & -> & _)|He].
  - by apply list_elem_of_singleton in Hin.
  - rewrite Forall_forall in He. apply (He _ Hin).
Qed.

(** The entries handed to the state machine are committed log entries, consecutive and
    in order. *)
Theorem commit_ready_is_committed `{Sha256} c input es c' entries :
  reachable c -> input_built input -> step input c = (Ok es, c') -> CommitReady entries ∈ es ->
  exists lo, lo + len entries <= commit_index c' /\
    forall k e, entries !! k = Some e -> entry c' (lo + 1 + N.of_nat k) = Some e.
Proof.
  intros Hre Hi Hs Hin.
  destruct (step_effects c input es c' (reachable_ok c Hre) Hi Hs) as [(m' & a & -> & _)|He].
  - by apply list_elem_of_singleton in Hin.
  - rewrite Forall_forall in He. destruct (He _ Hin) as (lo & ? & ? & _). eauto.
Qed.

(** A read is only released at a position the state machine has applied, by a node whose
    current term has committed an entry of its own. *)
Theorem released_read_is_applied `{Sha256} c input es c' id i :
  reachable c -> input_built input -> step input c = (Ok es, c') -> ReadBarrierReady id i ∈ es ->
  i <= applied_index c' /\
  exists j e, j <= commit_index c' /\ entry c' j = Some e /\ term (entry_position e) = current_term c'.
Proof.
  intros Hre Hi Hs Hin.
  destruct (step_effects c input es c' (reachable_ok c Hre) Hi Hs) as [(m' & a & -> & _)|He].
  - by apply list_elem_of_singleton in Hin.
  - rewrite Forall_forall in He. apply (He _ Hin).
Qed.
