(* ===== verification/CoreExact.v ===== *)
(** Exact behaviour of the decisions that matter most: which index a leader commits, which
    acknowledgement releases a read, and what a restart restores. *)

From Stdlib Require Import Sorted.
From S2P Require Import Prelude VoterSet Predicate Plan Digest Compile FlatPlan Joint Types Membership MembershipCommand Probes History Core CoreRequest CoreLog CoreInv CoreEffects CoreSafety.
From stdpp Require Import prelude gmap sorting.
#[local] Open Scope N_scope.

(** ** The commit rule *)

(** The members known to hold everything up to [i]. *)
Definition holders (l : LeaderState) (i : N) : gset NodeId := dom (filter (fun kv => i <= snd kv) (matched l)).

(** What a leader may commit: an entry of its own term held by a commit quorum. *)
Definition committable (c : ConsensusCore) (l : LeaderState) (i : N) : Prop :=
  exists e, entry c i = Some e /\ term (entry_position e) = current_term c /\
    active_satisfies c Commit (holders l i) = true.

Section commit_rule.
Context `{Sha256}.

Lemma search_commit_exact c l indices :
  (forall i, i ∈ indices -> exists e, entry c i = Some e) -> StronglySorted N.gt indices ->
  exists found, search_commit c (matched l) indices = Ok found /\
    match found with
    | Some i => i ∈ indices /\ committable c l i /\ forall j, j ∈ indices -> committable c l j -> j <= i
    | None => forall j, j ∈ indices -> ~ committable c l j
    end.
Proof.
  intros He Hs. induction Hs as [|i rest Hs IH Hi]; cbn [search_commit]; [exists None; split; [done|set_solver]|].
  destruct (He i ltac:(by left)) as [e Ee]. rewrite Ee. cbn [ok_or mbind result_bind].
  destruct (IH (fun j Hj => He j ltac:(by right))) as (found & Ef & Hf). rewrite Forall_forall in Hi.
  assert (~ committable c l i -> exists found0, search_commit c (matched l) rest = Ok found0 /\
    match found0 with
    | Some i0 => i0 ∈ i :: rest /\ committable c l i0 /\ forall j, j ∈ i :: rest -> committable c l j -> j <= i0
    | None => forall j, j ∈ i :: rest -> ~ committable c l j
    end) as Hskip.
  { intros Hn. exists found. split; [done|]. destruct found as [k|].
    - destruct Hf as (Hk & Hck & Hmax). split_and!; [by right|done|]. intros j [->|Hj]%elem_of_cons Hj'; [done|auto].
    - intros j [->|Hj]%elem_of_cons; auto. }
  destruct (N.eqb_spec (term (entry_position e)) (current_term c)) as [Et|Et]; cbn [negb].
  - change (dom (filter (fun kv => i <= snd kv) (matched l))) with (holders l i).
    destruct (active_satisfies c Commit (holders l i)) eqn:Eq.
    + exists (Some i). split; [done|]. split_and!; [by left|by exists e|].
      intros j [->|Hj]%elem_of_cons _; [done|]. specialize (Hi j Hj). lia.
    + apply Hskip. intros (e' & Ee' & _ & Hq). congruence.
  - apply Hskip. intros (e' & Ee' & Ht & _). congruence.
Qed.

Lemma StronglySorted_reverse_range lo hi : StronglySorted N.gt (reverse (range lo hi)).
Proof.
  unfold range. generalize (N.to_nat (hi - lo)). intros n. induction n as [|n IH]; [constructor|].
  rewrite seq_S, fmap_app, reverse_app. cbn. constructor; [exact IH|].
  apply Forall_forall. intros x Hx. rewrite elem_of_reverse, list_elem_of_fmap in Hx.
  destruct Hx as (i & -> & Hi%elem_of_seq). lia.
Qed.

Lemma commit_effects_total c old :
  core_base c -> exists es, commit_effects c old = Ok es.
Proof.
  intros Hb. unfold commit_effects. destruct (_ <=? _); [eauto|].
  assert (forall l, (forall i, i ∈ l -> exists e, entry c i = Some e) ->
    exists es, mapM (fun i => ok_or (entry c i) InvalidInput) l = Ok es) as Hmap.
  { induction l as [|i l IH]; intros He; cbn; [eauto|]. destruct (He i ltac:(by left)) as [e ->].
    destruct (IH ltac:(intros j Hj; apply He; by right)) as [es Es]. cbn. rewrite Es. cbn. eauto. }
  destruct (Hmap (range (old + 1) (commit_index c + 1))) as [es Es].
  { intros i Hi%elem_of_range. pose proof (base_commit _ Hb). apply entry_exists; [apply Hb|lia|lia]. }
  rewrite Es. cbn. eauto.
Qed.

End commit_rule.

(** C18: a leader commits exactly what it may: evaluating its matched indices never fails and
    moves the commit index to the highest entry of its own term, above the old commit
    index, that a commit quorum of the active plan holds; entries of earlier terms are
    never counted directly. *)
Theorem leader_commit_exact `{Sha256} c l :
  reachable c -> role c = Leading l ->
  exists es c', advance_leader_commit c = (Ok es, c') /\ commit_index c <= commit_index c' /\
    (commit_index c' <> commit_index c -> committable c l (commit_index c')) /\
    (forall i, commit_index c < i -> committable c l i -> i <= commit_index c').
Proof.
  intros Hre Er. pose proof (ok_base _ (reachable_ok c Hre)) as Hb. pose proof (base_log _ Hb) as Hl.
  set (indices := reverse (range (commit_index c + 1) (index (last_position c) + 1))).
  destruct (search_commit_exact c l indices) as (found & Ef & Hf); [|apply StronglySorted_reverse_range|].
  { intros i Hi. subst indices. rewrite elem_of_reverse, elem_of_range, (last_index_len c Hl) in Hi.
    apply entry_exists; [done|lia|lia]. }
  assert (forall i, commit_index c < i -> committable c l i -> i ∈ indices) as Hall.
  { intros i Hi (e & He & _). subst indices. rewrite elem_of_reverse, elem_of_range, (last_index_len c Hl).
    pose proof (entry_le_len _ _ _ Hl He). lia. }
  set (c1 := match found with Some i => with_commit i c | None => c end).
  assert (quiet c c1) as Hq.
  { subst c1. destruct found as [i|]; [|reflexivity]. destruct Hf as (Hi & _). subst indices.
    rewrite elem_of_reverse, elem_of_range in Hi. apply quiet_with_commit; lia. }
  destruct (commit_effects_total c1 (commit_index c) (quiet_base _ _ Hq Hb)) as [es Es].
  exists es, c1. split_and!.
  - unfold advance_leader_commit, mbind, SE_bind, get_state, lift. rewrite Er. fold indices. rewrite Ef.
    subst c1. by destruct found; cbn; rewrite Es.
  - apply Hq.
  - subst c1. destruct found as [i|]; [|done]. intros _. apply Hf.
  - intros i Hi Hci. specialize (Hall i Hi Hci). subst c1. destruct found as [k|]; [|by destruct (Hf i Hall)].
    by apply Hf.
Qed.

(** ** Reads *)

(** A pending read is released by an acknowledgement exactly when the members that have
    confirmed this leader, the new one included, form a read quorum of the active plan
    and the state machine has applied the position the read must observe. *)
Theorem read_release_exact `{Sha256} c l from id b e :
  role c = Leading l -> id <> 0 -> read_barriers l !! id = Some b ->
  entry c (commit_index c) = Some e -> term (entry_position e) = current_term c ->
  exists es c', acknowledge_read_barrier from (Some id) c = (Ok es, c') /\
    forall i, ReadBarrierReady id i ∈ es <->
      active_satisfies c Read ({[from]} ∪ acknowledgements b) = true /\
      i = default (commit_index c) (required_applied_index b) /\ i <= applied_index c.
Proof.
  intros Er Hid Eb Ee Et. unfold acknowledge_read_barrier, complete_read_barriers.
  rewrite (proj2 (N.eqb_neq id 0)) by done. unfold mbind, SE_bind, get_state, modify_state. rewrite Er, Eb.
  set (c1 := with_role _ c). change (entry c1 (commit_index c1)) with (entry c (commit_index c)). rewrite Ee.
  change (current_term c1) with (current_term c). rewrite (proj2 (N.eqb_eq _ _)) by done. cbn [negb].
  cbn [role with_role c1]. eexists _, _. split; [reflexivity|]. intros i.
  change (commit_index c1) with (commit_index c). change (applied_index c1) with (applied_index c).
  rewrite list_elem_of_fmap. cbn [read_barriers with_barriers]. split.
  - intros ([id' i'] & Heq & Hin). simplify_eq. apply list_elem_of_omap in Hin as ([k b'] & Hk & Hb').
    apply elem_of_ascending_map in Hk. rewrite lookup_fmap in Hk. destruct (_ && _) eqn:Ec in Hb'; [|done]. simplify_eq.
    rewrite lookup_insert_eq in Hk. cbn in Hk. simplify_eq. cbn in *. bool_cases. done.
  - intros (Hq & -> & Ha). exists (id, default (commit_index c) (required_applied_index b)). split; [done|].
    apply list_elem_of_omap. eexists (id, _). rewrite elem_of_ascending_map, lookup_fmap, lookup_insert_eq. cbn.
    split; [reflexivity|]. cbn. rewrite Hq, (proj2 (N.leb_le _ _)) by done. done.
Qed.

(** ** Restart *)

(** The durable image of a core. *)
Definition disk_of (c : ConsensusCore) : DurableCoreState :=
  {| durable_term := current_term c; durable_vote := voted_for c; durable_log := log c;
     durable_applied := applied_index c |}.

(** Terms never decrease along the log. *)
Fixpoint ascending_terms (previous : N) (l : list LogEntry) : Prop :=
  match l with
  | [] => True
  | e :: rest => previous <= term (entry_position e) /\ ascending_terms (term (entry_position e)) rest
  end.

(** The configuration names the local node, a member, with its accepted incarnation. *)
Definition config_ok (cfg : CoreConfig) : Prop :=
  local_incarnation cfg <> 0 /\
  local_node_id cfg ∈ voters (spec (plan cfg)) ∪ learners (spec (plan cfg)) /\
  member_incarnations cfg !! local_node_id cfg = Some (local_incarnation cfg).

Section restarting.
Context `{Sha256}.

Lemma validate_durable_log_exact t previous expected l :
  contiguous expected l -> Forall (fun e => term (entry_position e) <= t) l ->
  expected + len l <= u64_max -> 0 < expected -> (expected = 1 -> previous = 0) ->
  validate_durable_log t previous expected l = Ok tt <-> ascending_terms previous l.
Proof.
  revert previous expected. induction l as [|e l IH]; intros previous expected Hc Ht Hm Hpos Hp;
    cbn [validate_durable_log ascending_terms]; [done|].
  apply contiguous_cons in Hc as (Hi & Hv & Hc). apply Forall_cons in Ht as [Hte Ht]. rewrite len_cons in Hm.
  rewrite Hv. cbn [mbind result_bind]. rewrite Hi, N.eqb_refl, (proj2 (N.ltb_ge t _)) by done. cbn [negb orb].
  rewrite (proj2 (checked_add_Some u64_max expected 1 (expected + 1))) by lia. cbn [ok_or mbind result_bind].
  specialize (IH (term (entry_position e)) (expected + 1) Hc Ht ltac:(lia) ltac:(lia) ltac:(lia)).
  destruct (N.ltb_spec 1 expected) as [H1|H1], (N.ltb_spec (term (entry_position e)) previous) as [H2|H2]; cbn [andb].
  - split; [done|]. intros [? _]. lia.
  - rewrite IH. naive_solver.
  - rewrite Hp in H2 by lia. lia.
  - rewrite IH. naive_solver.
Qed.

Lemma restore_exact cfg c :
  reachable c -> config_ok cfg -> len (log c) < u64_max ->
  ascending_terms 0 (log c) -> (forall v, voted_for c = Some v -> v ∈ voters (spec (plan cfg))) ->
  exists c0, restore cfg (disk_of c) = Ok c0 /\ disk_of c0 = disk_of c /\ commit_index c0 = applied_index c /\
    role c0 = Following /\ pending c0 = None /\ active_plan c0 = Stable (plan cfg).
Proof.
  intros [[Hl Hn Ht Hc Ha Hv _] _ _]%reachable_ok (Hi & Hm & Hinc) Hlt Hasc Hvote.
  unfold restore. cbn [durable_term durable_vote durable_log durable_applied disk_of].
  assert (bool_decide (local_node_id cfg ∈ voters (spec (plan cfg)))
    || bool_decide (local_node_id cfg ∈ learners (spec (plan cfg))) = true) as ->.
  { rewrite orb_true_iff, !bool_decide_eq_true. set_solver. }
  rewrite (proj2 (N.eqb_neq _ _)), (bool_decide_eq_true_2 (_ = Some _)) by done. cbn [negb orb].
  assert ((current_term c =? 0) && bool_decide (voted_for c <> None) = false) as ->.
  { destruct (N.eqb_spec (current_term c) 0) as [E|]; [|done]. cbn. rewrite Hv by done. rewrite bool_decide_eq_false_2; [done|]. intros Hx. by apply Hx. }
  assert (match voted_for c with Some voter => negb (bool_decide (voter ∈ voters (spec (plan cfg)))) | None => false end = false) as ->.
  { destruct (voted_for c) as [v|]; [|done]. by rewrite bool_decide_eq_true_2 by auto. }
  cbn [orb]. unfold validate_durable_state. cbn [disk_of durable_term durable_log durable_applied].
  rewrite (proj2 (validate_durable_log_exact (current_term c) 0 1 (log c) Hl Ht ltac:(lia) ltac:(lia) ltac:(done))) by done.
  cbn [mbind result_bind].
  assert (match last (log c) with Some e => index (entry_position e) | None => 0 end = len (log c)) as ->.
  { pose proof (last_index_len c Hl) as E. unfold last_position in E. by destruct (last (log c)). }
  rewrite (proj2 (N.ltb_ge _ _)) by lia. cbn [mbind result_bind]. eexists. by split_and!.
Qed.

End restarting.

(** A restart loses nothing durable and is possible exactly when it should be: from the
    durable image of a reachable core, under a configuration that names the local member,
    [restore] succeeds if and only if the terms never decrease along the log and the
    recorded vote is for a voter of the configured plan; the restored follower then has
    the same term, vote, log and applied position. *)
Theorem restart_exact `{Sha256} cfg c :
  reachable c -> config_ok cfg -> len (log c) < u64_max ->
  (forall c0, restore cfg (disk_of c) = Ok c0 -> disk_of c0 = disk_of c /\ role c0 = Following) /\
  ((exists c0, restore cfg (disk_of c) = Ok c0) <->
   ascending_terms 0 (log c) /\ (forall v, voted_for c = Some v -> v ∈ voters (spec (plan cfg)))).
Proof.
  intros Hre Hcfg Hlt. pose proof (reachable_ok c Hre) as [[Hl _ Ht _ _ _ _] _ _]. split.
  - intros c0 Hr. unfold restore in Hr. inv_ok. done.
  - split.
    + intros [c0 Hr]. unfold restore in Hr. inv_ok.
      match goal with HV : validate_durable_state _ = Ok _ |- _ => unfold validate_durable_state in HV end. inv_ok.
      repeat match goal with u : unit |- _ => destruct u end. cbn [disk_of durable_log durable_term durable_vote] in *.
      match goal with HV : validate_durable_log _ _ _ _ = Ok _ |- _ =>
        apply validate_durable_log_exact in HV; [|done|done|lia|lia|done] end.
      split; [done|]. intros v Hv. rewrite Hv in *. bool_cases. done.
    + intros [Hasc Hvote]. destruct (restore_exact cfg c Hre Hcfg Hlt Hasc Hvote) as (c0 & Hc0 & _). eauto.
Qed.
