(* ===== verification/CoreElection.v ===== *)
(** How a core comes to campaign and to lead: every handler other than a completed campaign
    and a counted vote leaves candidacy and leadership as they were or gives them up. *)

From S2P Require Import Prelude VoterSet Predicate Plan Digest Compile FlatPlan Joint Types Membership MembershipCommand Probes History Core CoreRequest CoreLog CoreInv CoreEffects CoreSafety.
From stdpp Require Import prelude gmap.
#[local] Open Scope N_scope.

(** [c'] neither campaigns nor leads unless [c] already did, with the same votes. *)
Record steady (c c' : ConsensusCore) : Prop := {
  steady_votes : forall votes, role c' = Campaigning votes -> role c = Campaigning votes;
  steady_leads : role_of c' = Leader -> role_of c = Leader;
}.

Lemma steady_refl c : steady c c.
Proof. by split. Qed.

Lemma steady_role c0 c c' : steady c0 c -> role c' = role c -> steady c0 c'.
Proof. intros [Hv Hl] E. unfold role_of in *. split; unfold role_of; rewrite E; auto. Qed.

Lemma steady_follow c0 c : steady c0 (with_role Following c).
Proof. by split. Qed.

Lemma steady_following c0 c : role c = Following -> steady c0 c.
Proof. intros E. split; unfold role_of; by rewrite E. Qed.

Lemma steady_lead c0 c l l' : steady c0 c -> role c = Leading l -> steady c0 (with_role (Leading l') c).
Proof. intros [_ Hl] E. split; [done|]. intros _. apply Hl. unfold role_of. by rewrite E. Qed.

Create HintDb steady.
#[local] Hint Resolve steady_refl steady_follow steady_lead : steady.

Section steadiness.
Context `{Sha256} (c0 : ConsensusCore).
#[local] Abbreviation still m := (preserved (steady c0) m).

(** Symbolic execution to a [steady] end state; the goals left are calls without a lemma. *)
Ltac steady_end :=
  solve [done | eauto with steady | eapply steady_role; [eassumption|reflexivity]
        | eapply steady_role; [eapply steady_lead; eassumption|reflexivity]
        | eapply steady_lead; [eapply steady_lead; eassumption|reflexivity]
        | eapply steady_lead; [eapply steady_role; [eassumption|reflexivity]|eassumption]
        | eapply steady_role; [apply steady_follow|reflexivity]].
Ltac steady_call :=
  match goal with
  | |- post (traverse _ _) _ _ => apply (preserved_traverse (steady c0)); [|steady_end]
  | |- post ?m ?c _ => apply (fun p : still m => p c); [solve [eauto with steady]|steady_end]
  end.
Ltac steady_walk :=
  repeat first
    [ match goal with |- still _ => intros ? ? end
    | inv_step; cbv beta iota
    | match goal with
      | |- post (_ ≫= _) _ _ =>
          apply post_bind; eapply post_mono; [steady_call|intros [?|?] ? ?; cbv beta iota; [|steady_end]]
      | |- forall _, _ => intro
      | |- steady _ _ => steady_end
      | |- post _ _ (fun _ c' => steady _ c') => steady_call
      | |- post _ _ _ => eapply post_mono; [steady_call|intros [?|?] ? ?; cbv beta iota; [|steady_end]]
      end ].

Lemma follow_leader_steady l : still (follow_leader l).
Proof. unfold follow_leader. steady_walk. Qed.
#[local] Hint Resolve follow_leader_steady : steady.

Lemma probe_effect_steady peer kind id : still (probe_effect peer kind id).
Proof. unfold probe_effect. steady_walk. Qed.
#[local] Hint Resolve probe_effect_steady : steady.

Lemma probe_peers_steady kind id : still (probe_peers kind id).
Proof. unfold probe_peers. steady_walk. Qed.
#[local] Hint Resolve probe_peers_steady : steady.

Lemma complete_read_barriers_steady : still complete_read_barriers.
Proof. unfold complete_read_barriers. steady_walk. Qed.
#[local] Hint Resolve complete_read_barriers_steady : steady.

Lemma acknowledge_read_barrier_steady from id : still (acknowledge_read_barrier from id).
Proof. unfold acknowledge_read_barrier. steady_walk. Qed.
#[local] Hint Resolve acknowledge_read_barrier_steady : steady.

Lemma begin_persistence_steady m a : still (begin_persistence m a).
Proof. unfold begin_persistence. steady_walk. Qed.
#[local] Hint Resolve begin_persistence_steady : steady.

Lemma advance_leader_commit_steady : still advance_leader_commit.
Proof. unfold advance_leader_commit. steady_walk. Qed.
Lemma advance_follower_commit_steady i : still (advance_follower_commit i).
Proof. unfold advance_follower_commit. steady_walk. Qed.
#[local] Hint Resolve advance_leader_commit_steady advance_follower_commit_steady : steady.

Lemma heartbeat_steady : still heartbeat.
Proof. unfold heartbeat. steady_walk. Qed.
Lemma begin_read_barrier_steady id : still (begin_read_barrier id).
Proof. unfold begin_read_barrier. steady_walk. Qed.
Lemma cancel_read_barrier_steady id : still (cancel_read_barrier id).
Proof. unfold cancel_read_barrier. steady_walk. Qed.
Lemma applied_through_steady i : still (applied_through i).
Proof. unfold applied_through. steady_walk. Qed.
Lemma start_election_steady : still start_election.
Proof. unfold start_election. steady_walk. Qed.
Lemma propose_steady pid op version cmd : still (propose pid op version cmd).
Proof. unfold propose. steady_walk. Qed.
Lemma activate_joint_plan_steady j inc at_ : still (activate_joint_plan j inc at_).
Proof. unfold activate_joint_plan. steady_walk. Qed.
Lemma activate_stable_plan_steady p inc at_ : still (activate_stable_plan p inc at_).
Proof. unfold activate_stable_plan. steady_walk. Qed.
Lemma vote_request_steady from request : still (vote_request from request).
Proof. unfold vote_request. steady_walk. Qed.
Lemma append_request_steady from request : still (append_request from request).
Proof. unfold append_request. steady_walk. Qed.
Lemma finish_committed_prefix_steady from i : still (finish_committed_prefix from i).
Proof. unfold finish_committed_prefix. steady_walk. Qed.
#[local] Hint Resolve finish_committed_prefix_steady : steady.
Lemma receive_committed_prefix_steady from p : still (receive_committed_prefix from p).
Proof. unfold receive_committed_prefix. steady_walk. Qed.
Lemma finish_proposal_steady pid pos : still (finish_proposal pid pos).
Proof. unfold finish_proposal. steady_walk. Qed.
Lemma finish_plan_activation_steady a inc at_ : still (finish_plan_activation a inc at_).
Proof. unfold finish_plan_activation. steady_walk. Qed.

Lemma record_progress_steady c from hint last_index proof l :
  role c = Leading l -> steady c0 c -> post (record_progress from hint last_index proof l) c (fun _ c' => steady c0 c').
Proof. intros Er Hc. unfold record_progress. steady_walk. Qed.

Lemma append_response_steady from response : still (append_response from response).
Proof.
  intros c Hc. unfold append_response, persist_step_down. apply post_get_bind.
  repeat match goal with |- post (if ?b then _ else _) _ _ => destruct b eqn:? end; [steady_walk..|].
  destruct (role c) as [|?|l] eqn:Er; [steady_walk..|]. destruct (probes l !! from) as [p|]; [|steady_walk].
  apply post_lift_bind; [|done]. intros [[proof|] p'] _; [|steady_walk]. apply post_modify_bind.
  set (l' := with_probes _ l). assert (steady c0 (with_role (Leading l') c)) as Hc' by eauto with steady.
  destruct proof; [| |by apply acknowledge_read_barrier_steady].
  all: apply post_bind; eapply post_mono; [by apply record_progress_steady|].
  all: intros [u|e] c1 Hc1; [|done]; steady_walk.
Qed.

End steadiness.

Section elections.
Context `{Sha256}.

(** Becoming a leader ends the candidacy, or fails before changing anything. *)
Lemma become_leader_votes c :
  post become_leader c (fun _ c' => (forall votes, role c' = Campaigning votes -> role c = Campaigning votes)).
Proof.
  unfold become_leader. apply post_get_bind, post_lift_bind; [|done]. intros n _. apply post_modify_bind.
  set (c1 := with_leader_id _ _).
  apply (preserved_then (fun c' => forall votes, role c' = Campaigning votes -> role c = Campaigning votes));
    [|done|by intros ? ? ?; apply post_ret].
  intros c2 Hc2. eapply post_mono; [apply (probe_peers_steady c2), steady_refl|]. intros r c3 [Hv _] votes Er. auto.
Qed.

(** The candidate and leader a set of votes makes of [c]. *)
Record tallied (c : ConsensusCore) (votes : gset NodeId) (c' : ConsensusCore) : Prop := {
  tallied_votes : forall votes', role c' = Campaigning votes' -> votes' = votes;
  tallied_leads : role_of c' = Leader -> active_satisfies c Election votes = true;
}.

Lemma finish_campaign_tallied c : post finish_campaign c (fun _ c' => tallied c {[local_id c]} c').
Proof.
  unfold finish_campaign. apply post_modify_bind, post_get_bind. destruct (active_satisfies _ _ _) eqn:Es.
  - apply post_bind. eapply post_mono; [apply become_leader_votes|]. intros [es|e] c' Hv; [apply post_ret|];
      (split; [|done]); intros votes' Er; apply Hv in Er; cbn in Er; by injection Er.
  - apply post_ret. split; cbn; [|done]. by intros votes' [= <-].
Qed.

Lemma vote_response_tallied c from response :
  post (vote_response from response) c (fun _ c' => steady c c' \/
    exists votes, role c = Campaigning votes /\ vr_term response = current_term c /\
      tallied c (if vr_granted response then {[from]} ∪ votes else votes) c').
Proof.
  unfold vote_response. apply post_get_bind, post_lift_bind; [|left; apply steady_refl]. intros _ _.
  destruct (_ =? 0); [left; apply steady_refl|].
  destruct (N.ltb_spec (current_term c) (vr_term response)).
  { eapply post_mono; [apply (begin_persistence_steady c), steady_refl|]. by left. }
  destruct (N.ltb_spec (vr_term response) (current_term c)); [left; apply steady_refl|].
  destruct (role c) as [|votes|l] eqn:Er; [left; apply steady_refl| |left; apply steady_refl].
  apply post_modify_bind. set (tally := if vr_granted response then _ else _).
  destruct (active_satisfies c Election tally) eqn:Es.
  - eapply post_mono; [apply become_leader_votes|]. intros r c' Hv. right. exists votes. split_and!; [done|lia|].
    split; [|done]. intros votes' Er'. apply Hv in Er'. cbn in Er'. by injection Er'.
  - apply post_ret. right. exists votes. split_and!; [done|lia|]. split; cbn; [|done]. by intros votes' [= <-].
Qed.

(** Why the core counts the vote of [v] after a step: it already did in this term, it is its
    own durable vote, or the step delivered the grant of [v] for this term. *)
Inductive supporter (c : ConsensusCore) (input : CoreInput) (c' : ConsensusCore) (v : NodeId) : Prop :=
| vote_kept votes : role c = Campaigning votes -> v ∈ votes -> current_term c' = current_term c -> supporter c input c' v
| vote_own : v = local_id c' -> voted_for c' = Some v -> supporter c input c' v
| vote_counted inc response :
    input = Message v inc (MVoteResponse response) -> vr_granted response = true ->
    vr_term response = current_term c' -> supporter c input c' v.

(** What a step may do to candidacy and leadership. *)
Record campaign_step (c : ConsensusCore) (input : CoreInput) (c' : ConsensusCore) : Prop := {
  campaign_votes : forall votes v, role c' = Campaigning votes -> v ∈ votes -> supporter c input c' v;
  campaign_leads : role_of c' = Leader ->
    (role_of c = Leader /\ current_term c' = current_term c) \/
    (role_of c <> Leader /\
     exists votes, Active.satisfies (active_plan c') Election votes = true /\ forall v, v ∈ votes -> supporter c input c' v);
}.

Lemma steady_campaign c input c' : steady c c' -> current_term c' = current_term c -> campaign_step c input c'.
Proof.
  intros [Hv Hl] Et. split.
  - intros votes v Er Hin. eapply vote_kept; eauto.
  - intros E. left. auto.
Qed.

Lemma step_input_roles c input :
  (forall id, input <> Persisted id) ->
  post (step input) c (fun _ c' => steady c c' \/
    exists from inc response votes, input = Message from inc (MVoteResponse response) /\
      role c = Campaigning votes /\ vr_term response = current_term c /\
      tallied c (if vr_granted response then {[from]} ∪ votes else votes) c').
Proof.
  intros Hin. unfold step. apply post_get_bind. destruct (_ && _); [left; apply steady_refl|].
  assert (forall m : Core (list CoreEffect), preserved (steady c) m ->
    post m c (fun _ c' => steady c c' \/ exists from inc response votes, input = Message from inc (MVoteResponse response) /\
      role c = Campaigning votes /\ vr_term response = current_term c /\
      tallied c (if vr_granted response then {[from]} ∪ votes else votes) c')) as Hs.
  { intros m Hm. eapply post_mono; [apply Hm, steady_refl|]. by left. }
  destruct input as [| |from inc message|id|pid op v cmd|id|id|pid op|j inc at_|p inc at_|i];
    try (apply Hs; solve [auto using start_election_steady, heartbeat_steady, propose_steady, begin_read_barrier_steady,
      cancel_read_barrier_steady, activate_joint_plan_steady, activate_stable_plan_steady, applied_through_steady]).
  - unfold receive. apply post_get_bind, post_lift_bind; [|left; apply steady_refl]. intros _ _.
    destruct message; [|eapply post_mono; [apply vote_response_tallied|]|..];
      try (apply Hs; solve [auto using vote_request_steady, append_request_steady, append_response_steady,
        receive_committed_prefix_steady]).
    intros r c' [Hst|(votes & Hr & Ht & Htl)]; [by left|right]. eauto 10.
  - by destruct (Hin id).
Qed.

(** A completed request leaves the role alone, ends it, or completes a campaign. *)
Lemma after_persistence_roles p c :
  post (after_persistence p) c (fun _ c' => steady c c' \/ (action p = Campaign /\ tallied c {[local_id c]} c')).
Proof.
  assert (forall m : Core (list CoreEffect), preserved (steady c) m ->
    post m c (fun _ c' => steady c c' \/ (action p = Campaign /\ tallied c {[local_id c]} c'))) as Hs.
  { intros m Hm. eapply post_mono; [apply Hm, steady_refl|]. by left. }
  unfold after_persistence. destruct (action p).
  - eapply post_mono; [apply finish_campaign_tallied|]. by right.
  - apply Hs. intros c1 _. apply post_modify_bind, post_get_bind, post_ret. by apply steady_following.
  - apply Hs. intros c1 _. apply post_modify_bind. apply preserved_then; [|by apply steady_following|].
    + destruct (ar_accepted reply); [apply advance_follower_commit_steady|]. by intros c2 H2; apply post_ret.
    + intros es c2 H2. by apply post_get_bind, post_ret.
  - apply Hs, finish_proposal_steady.
  - apply Hs. intros c1 _. apply post_modify_bind, post_get_bind, post_ret. by apply steady_following.
  - apply Hs, finish_committed_prefix_steady.
  - apply Hs, preserved_bind; [by intros c1 H1; apply post_lift|]. intros q. apply finish_plan_activation_steady.
  - apply Hs, preserved_bind; [by intros c1 H1; apply post_lift|]. intros q. apply finish_plan_activation_steady.
Qed.

(** A mutation to a later term ends any candidacy or leadership. *)
Lemma resumed_steady c p :
  mutation_sound c (mutation p) ->
  steady c (resumed c p) /\
  (role_of (resumed c p) <> Follower -> term_after (mutation p) (current_term c) = current_term c).
Proof.
  intros Hs. unfold resumed, mutated, stepped_down. unfold term_after, vote_after.
  pose proof (sound_term _ _ Hs) as Ht. unfold term_after in Ht.
  destruct (vote_state (mutation p)) as [[t v]|]; [|by split; [apply (steady_role _ c); [apply steady_refl|]|]].
  cbn [current_term with_pending]. destruct (N.ltb_spec (current_term c) t).
  - split; [by apply steady_following|done].
  - split; [by apply (steady_role _ c); [apply steady_refl|]|intros _; lia].
Qed.

Lemma completed_campaign c p r c' input :
  core_ok c -> request_ok c (mutation p) (action p) -> after_persistence p (resumed c p) = (r, c') ->
  completed c p c' -> role_ok c' -> campaign_step c input c'.
Proof.
  intros Hok Hreq Hrun Hd Hr'.
  destruct (resumed_steady c p (request_sound _ _ _ (ok_base _ Hok) Hreq)) as [Hst Hterm].
  pose proof (done_term _ _ _ Hd) as Et.
  pose proof (after_persistence_roles p (resumed c p)) as Hroles. unfold post in Hroles. rewrite Hrun in Hroles. cbn [fst snd] in Hroles.
  destruct Hroles as [[Hv Hl]|[Ha [Hv Hl]]].
  - assert (role_of c' <> Follower -> role_of (resumed c p) <> Follower) as Hnf.
    { intros Hn. unfold role_of in Hn, Hl |- *. destruct (role c') as [|votes|] eqn:Er; [done|by rewrite (Hv _ eq_refl)|].
      by rewrite Hl. }
    assert (role_of c' <> Follower -> current_term c' = current_term c) as Hsame
      by (intros Hn; rewrite Et; auto).
    split.
    + intros votes v Er Hin. apply (vote_kept _ _ _ _ votes); [by apply Hst, Hv|done|].
      apply Hsame. unfold role_of. by rewrite Er.
    + intros El. left. split; [by apply Hst, Hl|]. apply Hsame. by rewrite El.
  - assert (local_id (resumed c p) = local_id c' /\ active_plan (resumed c p) = active_plan c') as [Eid Epl].
    { destruct (mutated_fields (with_pending None c) (mutation p)) as (_ & _ & _ & Eg & Ep & _). unfold resumed, local_id.
      rewrite Eg, Ep, (done_config _ _ _ Hd), (done_plan _ _ _ Hd). unfold config_next, plan_next. by rewrite Ha. }
    assert (forall v, v ∈ ({[local_id (resumed c p)]} : gset NodeId) -> role_of c' <> Follower -> supporter c input c' v) as Hself.
    { intros v ->%elem_of_singleton Hn. apply vote_own; [done|]. unfold role_ok, role_of in *. rewrite Eid.
      destruct (role c'); [done|apply Hr'|apply Hr']. }
    split.
    + intros votes v Er Hin. rewrite (Hv _ Er) in Hin. apply Hself; [done|]. unfold role_of. by rewrite Er.
    + intros El. right. split; [by rewrite Ha in Hreq; inversion Hreq|]. exists {[local_id (resumed c p)]}. split.
      * rewrite <- Epl. by apply Hl.
      * intros v Hin. apply Hself; [done|]. by rewrite El.
Qed.

Lemma step_campaign c input r c' :
  core_ok c -> input_built input -> step input c = (r, c') -> campaign_step c input c'.
Proof.
  intros Hok Hi Hs. pose proof (step_cases c input Hok Hi) as Hcase. unfold post in Hcase. rewrite Hs in Hcase. cbn in Hcase.
  destruct (match input with Persisted _ => true | _ => false end) eqn:Epi.
  - destruct input as [| | |id| | | | | | |]; try discriminate Epi.
    destruct Hcase as [r c' Hq _ Hp|m a Hn Hreq|p r c' Ep Ei Hreq Hrun Hd Hr'].
    + assert (c' = c) as ->; [|by apply steady_campaign; [apply steady_refl|]].
      destruct Hp as [Hn| ->]; [|done]. revert Hs. unfold step, finish_persistence, mbind, SE_bind, get_state.
      rewrite Hn. cbn. rewrite Hn. by intros [= _ ->].
    + by apply steady_campaign; [apply (steady_role _ c); [apply steady_refl|]|].
    + by eapply completed_campaign.
  - assert (forall id, input <> Persisted id) as Hne by (by intros id ->).
    assert (current_term c' = current_term c /\ active_plan c' = active_plan c) as [Et Ep].
    { destruct Hcase as [r c' Hq _ _|m a _ _|p r c' _ Ei _ _ _ _]; [by destruct Hq|done|by apply Hne in Ei]. }
    pose proof (step_input_roles c input Hne) as Hr. unfold post in Hr. rewrite Hs in Hr. cbn in Hr.
    destruct Hr as [Hst|(from & inc & response & votes & Ei & Er & Ht & [Htv Htl])]; [by apply steady_campaign|].
    assert (forall v, v ∈ (if vr_granted response then {[from]} ∪ votes else votes) -> supporter c input c' v) as Hsup.
    { intros v Hin. destruct (vr_granted response) eqn:Eg; [|by apply (vote_kept _ _ _ _ votes)].
      apply elem_of_union in Hin as [->%elem_of_singleton|Hin]; [|by apply (vote_kept _ _ _ _ votes)].
      eapply vote_counted; [exact Ei|done|congruence]. }
    split.
    + intros votes' v Er' Hin. rewrite (Htv _ Er') in Hin. auto.
    + intros El. right. split; [unfold role_of; by rewrite Er|]. eexists. split; [|exact Hsup]. rewrite Ep. by apply Htl.
Qed.

End elections.
