(* ===== verification/CoreCommit.v ===== *)
(** What moves the commit index and a leader's view of its peers: a leader commits an entry
    of its term that credited members form a commit quorum for, credit comes only from its
    own log or from an accepted answer carrying the digest of one of its records, and a
    follower commits no further than the message it answers allows. *)

From S2P Require Import Prelude VoterSet Predicate Plan Digest Compile FlatPlan Joint Types Membership MembershipCommand Probes History Core CoreRequest CoreLog CoreInv CoreEffects CoreSafety CoreElection.
From stdpp Require Import prelude gmap.
#[local] Open Scope N_scope.

Section tracking.
Context `{Sha256}.

(** Every outstanding replication probe asks about a record of the log. *)
Definition probes_ok (c : ConsensusCore) : Prop :=
  forall l peer p id probe, role c = Leading l -> probes l !! peer = Some p -> replication p !! id = Some probe ->
    holds_record c (index (probe_through probe)) (probe_digest probe).

(** The leader's commit rule, over credit [X]. *)
Definition leader_commits (X : NodeId -> N -> Prop) (c : ConsensusCore) : Prop :=
  role_of c = Leader /\
  (exists e, entry c (commit_index c) = Some e /\ term (entry_position e) = current_term c) /\
  exists acks, active_satisfies c Commit acks = true /\ forall p, p ∈ acks -> exists m, commit_index c <= m /\ X p m.

(** Credit stays within [X], and the commit index within [b] or the leader's rule. *)
Record tracks (X : NodeId -> N -> Prop) (b : N) (c : ConsensusCore) : Prop := {
  tracks_log : log_ok (log c);
  tracks_probes : probes_ok c;
  tracks_credit : forall l p m, role c = Leading l -> matched l !! p = Some m -> X p m;
  tracks_commit : commit_index c <= b \/ leader_commits X c;
}.

Context (X : NodeId -> N -> Prop) (b : N).
#[local] Abbreviation ok := (tracks X b).

Lemma holds_record_log c c' i d : log c' = log c -> holds_record c i d -> holds_record c' i d.
Proof. intros E. unfold holds_record, entry. by rewrite E. Qed.

(** The volatile fields that matter are the role and the commit index. *)
Lemma tracks_ext c c' :
  log c' = log c -> role c' = role c -> commit_index c' = commit_index c -> current_term c' = current_term c ->
  active_plan c' = active_plan c -> ok c -> ok c'.
Proof.
  intros El Er Ec Et Ep [H1 H2 H3 H4]. split.
  - by rewrite El.
  - intros l peer p id probe Hr Hp Hi. rewrite Er in Hr. eapply holds_record_log; [done|]. by eapply H2.
  - rewrite Er. apply H3.
  - rewrite Ec. destruct H4 as [?|(Hl & (e & He & Ht) & acks & Hq & Hx)]; [by left|]. right.
    unfold leader_commits, role_of, entry, active_satisfies. rewrite Er, El, Ec, Et, Ep. eauto 10.
Qed.

(** A leader that only changes its probes or its reads. *)
Lemma tracks_lead c l l' :
  ok c -> role c = Leading l -> matched l' = matched l ->
  (forall peer p id probe, probes l' !! peer = Some p -> replication p !! id = Some probe ->
     holds_record c (index (probe_through probe)) (probe_digest probe)) -> ok (with_role (Leading l') c).
Proof.
  intros [H1 H2 H3 H4] Er Em Hp. split; [done| | |].
  - intros l0 peer p id probe [= <-]. apply Hp.
  - intros l0 p m [= <-]. rewrite Em. by apply H3.
  - destruct H4 as [?|(_ & H5)]; [by left|right]. by split.
Qed.

Lemma tracks_lead_same c l l' :
  ok c -> role c = Leading l -> matched l' = matched l -> probes l' = probes l -> ok (with_role (Leading l') c).
Proof. intros Hc Er Em Ep. eapply tracks_lead; eauto. intros peer p id probe. rewrite Ep. by apply (tracks_probes _ _ _ Hc). Qed.

Lemma tracks_follow c leader : log_ok (log c) -> commit_index c <= b -> ok (with_leader_id leader (with_role Following c)).
Proof. intros Hl Hc. split; try done. by left. Qed.

(** ** Probes *)

Lemma slice_last c lo entries e : log_slice c lo entries -> last entries = Some e ->
  holds_record c (index (entry_position e)) (entry_digest e).
Proof.
  intros Hs Hl. rewrite last_lookup in Hl. apply Hs in Hl. right. exists e. by rewrite (entry_index _ _ _ Hl).
Qed.

(** What a request asks about is in the log of its sender. *)
Lemma probe_from_request_held c q :
  holds_record c (index (aq_previous q)) (aq_previous_digest q) -> log_slice c (index (aq_previous q)) (aq_entries q) ->
  holds_record c (index (probe_through (probe_from_request q))) (probe_digest (probe_from_request q)).
Proof.
  intros Hp Hs. unfold probe_from_request. destruct (last (aq_entries q)) as [e|] eqn:El; cbn; [by eapply slice_last|done].
Qed.

Lemma insert_bounded_lookup i x lane k y : insert_bounded i x lane !! k = Some y -> y = x \/ lane !! k = Some y.
Proof.
  unfold insert_bounded. assert (forall m : gmap AppendProbeId AppendProbe, pop_first m ⊆ m) as Hp.
  { intros m. unfold pop_first. destruct (ascending (dom m)); [done|apply delete_subseteq]. }
  destruct (_ <? _); intros Hk; [eapply lookup_weaken in Hk; [|apply Hp]|];
    apply lookup_insert_Some in Hk as [[_ <-]|[_ ?]]; auto.
Qed.

Lemma sent_replication P q kind k y :
  replication (sent P q kind) !! k = Some y -> y = probe_from_request q \/ replication P !! k = Some y.
Proof. destruct kind; cbn; [apply insert_bounded_lookup|by right]. Qed.

Lemma probe_effect_tracks peer kind id : preserved ok (probe_effect peer kind id).
Proof.
  intros c Hc. pose proof (tracks_log _ _ _ Hc) as Hl.
  unfold probe_effect. apply post_get_bind. destruct (role c) as [|?|l] eqn:Er; [done..|].
  assert (forall q, holds_record c (index (aq_previous q)) (aq_previous_digest q) -> log_slice c (index (aq_previous q)) (aq_entries q) ->
    forall c1, log c1 = log c -> role c1 = role c -> commit_index c1 = commit_index c -> current_term c1 = current_term c ->
    active_plan c1 = active_plan c ->
    ok (with_role (Leading (with_probes (<[peer := sent (default probes_default (probes l !! peer)) q kind]> (probes l)) l)) c1)) as Hdone.
  { intros q Hrec Hsl c1 El1 Er1 Ec1 Et1 Ep1. apply (tracks_lead c1 l); [by apply (tracks_ext c)|congruence|done|]. cbn.
    intros k P i probe [[<- <-]|[_ Hk]]%lookup_insert_Some Hi; (eapply holds_record_log; [exact El1|]).
    - apply sent_replication in Hi as [->|Hi]; [by apply probe_from_request_held|].
      destruct (probes l !! peer) as [P0|] eqn:E0; cbn in Hi; [|by rewrite lookup_empty in Hi]. by eapply (tracks_probes _ _ _ Hc).
    - by eapply (tracks_probes _ _ _ Hc). }
  apply post_bind. match goal with |- post ?m c _ => assert (forall Q, (forall i, Q (Ok i) c) -> (forall e, Q (Err e) c) -> post m c Q) as Hm end.
  { intros Q H1 H2. destruct kind; [apply post_lift; destruct (ok_or _ _); auto|by apply post_ret]. }
  apply Hm; [|done]. clear Hm. intros i. destruct (i =? 0) eqn:Ei.
  - apply N.eqb_eq in Ei as ->. apply (post_bind (mret _)), post_ret, (post_bind (mret _)), post_ret.
    destruct kind; inv_walk; apply Hdone; try done; cbn [aq_previous aq_previous_digest aq_entries request_with_probe GENESIS index];
      try apply holds_genesis; try (intros k e; by rewrite lookup_nil); inv_ok; by apply replication_entries_after.
  - apply post_lift_bind; [|done]. intros prev Hprev. apply post_lift_bind; [|done]. intros d Hd.
    apply ok_or_Ok in Hprev, Hd. destruct (entry c i) as [e|] eqn:E; [|done]. cbn in Hprev, Hd. simplify_eq.
    pose proof (entry_index _ _ _ E) as Hidx.
    assert (holds_record c (index (entry_position e)) (entry_digest e)) by (right; exists e; by rewrite Hidx).
    destruct kind; inv_walk; apply Hdone; try done; cbn [aq_previous aq_previous_digest aq_entries request_with_probe];
      try (intros k e'; by rewrite lookup_nil); inv_ok; by apply replication_entries_after.
Qed.

Lemma probe_peers_tracks kind id : preserved ok (probe_peers kind id).
Proof. intros c Hc. unfold probe_peers. apply post_get_bind. apply preserved_traverse; [|done]. intros. apply probe_effect_tracks. Qed.

Lemma probe_one_tracks peer kind id : preserved ok (e ← probe_effect peer kind id; mret [e]).
Proof. apply preserved_bind; [apply probe_effect_tracks|by intros ? ? ?; apply post_ret]. Qed.

Lemma heartbeat_tracks : preserved ok heartbeat.
Proof.
  intros c Hc. unfold heartbeat. inv_walk. apply preserved_then; [|done|by intros ? ? ?; apply post_ret].
  apply preserved_traverse. intros peer c1 Hc1. apply post_get_bind. apply preserved_then; [|done|].
  - destruct (match peer_matched_index c1 peer with None => true | Some m => m <? index (last_position c) end);
      [apply probe_one_tracks|by intros ? ?; apply post_ret].
  - intros first. apply preserved_bind; [apply probe_effect_tracks|by intros ? ? ?; apply post_ret].
Qed.

(** ** Reads *)

Lemma complete_read_barriers_tracks : preserved ok complete_read_barriers.
Proof. intros c Hc. unfold complete_read_barriers. inv_walk. by eapply tracks_lead_same. Qed.

Lemma acknowledge_read_barrier_tracks from id : preserved ok (acknowledge_read_barrier from id).
Proof.
  intros c Hc. unfold acknowledge_read_barrier. inv_walk. apply complete_read_barriers_tracks. by eapply tracks_lead_same.
Qed.

Lemma begin_read_barrier_tracks id : preserved ok (begin_read_barrier id).
Proof.
  intros c Hc. unfold begin_read_barrier.
  inv_walk; (apply complete_read_barriers_tracks || apply probe_peers_tracks); by eapply tracks_lead_same.
Qed.

Lemma cancel_read_barrier_tracks id : preserved ok (cancel_read_barrier id).
Proof. intros c Hc. unfold cancel_read_barrier. inv_walk. by eapply tracks_lead_same. Qed.

Lemma applied_through_tracks i : preserved ok (applied_through i).
Proof. intros c Hc. unfold applied_through. inv_walk. apply complete_read_barriers_tracks. by apply (tracks_ext c). Qed.

(** ** Commit *)

Lemma search_commit_found c m js i :
  search_commit c m js = Ok (Some i) ->
  (exists e, entry c i = Some e /\ term (entry_position e) = current_term c) /\
  exists acks : gset NodeId, active_satisfies c Commit acks = true /\ forall p, p ∈ acks -> exists k, i <= k /\ m !! p = Some k.
Proof.
  induction js as [|j js IH]; cbn [search_commit]; [done|]. intros Hf. apply result_bind_Ok in Hf as (e & He%ok_or_Ok & Hf).
  destruct (negb _) eqn:Et; [auto|]. destruct (active_satisfies _ _ _) eqn:Es; [|auto]. inv_ok. bool_cases.
  injection Hf as <-. split; [eauto|]. eexists. split; [exact Es|]. intros p Hp. apply elem_of_dom in Hp as [k Hk].
  apply map_lookup_filter_Some in Hk as [Hk Hle]. eauto.
Qed.

Lemma advance_leader_commit_tracks : preserved ok advance_leader_commit.
Proof.
  intros c Hc. unfold advance_leader_commit. apply post_get_bind. destruct (role c) as [|?|l] eqn:Er; [inv_walk..|].
  apply post_lift_bind; [|done]. intros [i|] Hf; [|inv_walk]. inv_walk.
  apply search_commit_found in Hf as (He & acks & Hq & Hm). destruct Hc as [H1 H2 H3 H4]. split; [done| |done|].
  - intros l0 peer p id probe Hl Hp Hi. eapply (holds_record_log c); [done|]. by eapply H2.
  - right. split; [unfold role_of; cbn; by rewrite Er|]. split; [exact He|]. exists acks. split; [exact Hq|].
    intros p Hp. destruct (Hm p Hp) as (k & Hk & Hl). exists k. split; [done|]. by eapply H3.
Qed.

(** ** Progress *)

Lemma tracks_matched c l l' :
  ok c -> role c = Leading l -> probes l' = probes l -> (forall p m, matched l' !! p = Some m -> X p m) ->
  ok (with_role (Leading l') c).
Proof.
  intros [H1 H2 H3 H4] Er Ep Hm. split; [done| | |].
  - intros l0 peer p id probe [= <-]. rewrite Ep. intros Hp Hi. eapply (holds_record_log c); [done|]. by eapply H2.
  - intros l0 p m [= <-]. by apply Hm.
  - destruct H4 as [?|(_ & H5)]; [by left|right]. by split.
Qed.

Lemma record_progress_tracks c from hint last_index proof l :
  ok c -> role c = Leading l -> (forall i, proof = Matched i -> X from i) -> X from 0 ->
  post (record_progress from hint last_index proof l) c (fun _ c' => ok c').
Proof.
  intros Hc Er Hi H0.
  assert (forall i n, proof = Matched i -> forall p m,
    matched (with_progress (<[from := N.max (default 0 (matched l !! from)) i]> (matched l)) n l) !! p = Some m -> X p m) as Hm.
  { cbn. intros i n Ei p m [[<- <-]|[_ Hk]]%lookup_insert_Some; [|by eapply tracks_credit].
    destruct (N.max_spec (default 0 (matched l !! from)) i) as [[_ ->]|[_ ->]]; [by apply Hi|].
    destruct (matched l !! from) as [k|] eqn:E; [|done]. by eapply tracks_credit. }
  unfold record_progress. inv_walk; try (by eapply tracks_lead_same).
  all: try change (with_role ?a (with_role _ ?x)) with (with_role a x); by apply (tracks_matched c l); [| | |eapply Hm].
Qed.

Lemma foldl_or_insert_cases (f : N -> N) (m : gmap N N) keys k v :
  foldl (fun m k => or_insert k (f k) m) m keys !! k = Some v -> m !! k = Some v \/ v = f k.
Proof.
  revert m. induction keys as [|key keys IH]; intros m; cbn [foldl]; [by left|]. intros [Hm| ->]%IH; [|by right].
  unfold or_insert in Hm. destruct (m !! key); [by left|]. apply lookup_insert_Some in Hm as [[<- <-]|[_ ?]]; auto.
Qed.

Context (X0 : forall p, X p 0).

(** A leader with no outstanding probe. *)
Lemma tracks_fresh c l :
  log_ok (log c) -> probes l = ∅ -> (forall p m, matched l !! p = Some m -> X p m) -> commit_index c <= b ->
  ok (with_role (Leading l) c).
Proof.
  intros Hl Hp Hm Hc. split; [done| | |by left].
  - intros l0 peer p id probe [= <-]. by rewrite Hp, lookup_empty.
  - intros l0 p m [= <-]. by apply Hm.
Qed.

Lemma become_leader_tracks c :
  ok c -> commit_index c <= b -> X (local_id c) (index (last_position c)) -> post become_leader c (fun _ c' => ok c').
Proof.
  intros Hc Hb Hx. unfold become_leader. apply post_get_bind, post_lift_bind; [|done]. intros n _. apply post_modify_bind.
  apply preserved_then; [apply probe_peers_tracks| |by intros ? ? ?; apply post_ret].
  eapply (tracks_ext (with_role _ c)); [reflexivity..|]. apply tracks_fresh; [apply Hc|done| |done]. cbn.
  intros p m [Hm| ->]%(foldl_or_insert_cases (fun _ => 0)); [|done]. by apply lookup_singleton_Some in Hm as [<- <-].
Qed.

Lemma finish_campaign_tracks c :
  ok c -> commit_index c <= b -> X (local_id c) (index (last_position c)) -> post finish_campaign c (fun _ c' => ok c').
Proof.
  intros Hc Hb Hx. unfold finish_campaign. apply post_modify_bind, post_get_bind. set (c1 := with_role _ _).
  assert (ok c1) as H1 by (split; [apply Hc|done|done|by left]).
  destruct (active_satisfies _ _ _); [|by apply post_ret]. apply post_bind.
  eapply post_mono; [by apply become_leader_tracks|]. intros [es|e] c' Hc'; [by apply post_ret|done].
Qed.

Lemma begin_persistence_tracks m a : preserved ok (begin_persistence m a).
Proof. intros c Hc. unfold begin_persistence. inv_walk. by apply (tracks_ext c). Qed.

Lemma vote_response_tracks c from response :
  ok c -> commit_index c <= b -> X (local_id c) (index (last_position c)) ->
  post (vote_response from response) c (fun _ c' => ok c').
Proof.
  intros Hc Hb Hx. unfold vote_response. inv_walk; [by apply begin_persistence_tracks| |by split; [apply Hc|done|done|left]].
  apply become_leader_tracks; [by split; [apply Hc|done|done|left]|done|done].
Qed.

Lemma finish_proposal_tracks c pid position :
  ok c -> X (local_id c) (index position) -> post (finish_proposal pid position) c (fun _ c' => ok c').
Proof.
  intros Hc Hx. unfold finish_proposal. apply post_get_bind. destruct (role c) as [|?|l] eqn:Er; [inv_walk..|].
  assert (forall n, ok (with_role (Leading (with_progress (<[local_id c := index position]> (matched l)) n l)) c)) as Hl.
  { intros n. apply (tracks_matched c l); [done..|]. cbn. intros p m [[<- <-]|[_ Hk]]%lookup_insert_Some; [done|by eapply tracks_credit]. }
  apply post_modify_bind, post_lift_bind; [|done]. intros succ _. apply post_modify_bind.
  apply preserved_then; [apply probe_peers_tracks|apply Hl|]. intros sends.
  apply preserved_bind; [apply advance_leader_commit_tracks|by intros ? ? ?; apply post_ret].
Qed.

Lemma append_response_tracks c from response :
  ok c ->
  (forall i, role_of c = Leader -> current_term c = ar_term response -> ar_accepted response = true -> ar_matched_index response = i ->
     holds_record c i (ar_matched_digest response) -> X from i) ->
  post (append_response from response) c (fun _ c' => ok c').
Proof.
  intros Hc Hx. unfold append_response. apply post_get_bind. destruct (is_err _); [inv_walk|].
  destruct (response_malformed _); [inv_walk|].
  destruct (N.ltb_spec (current_term c) (ar_term response)); [by apply begin_persistence_tracks|].
  destruct (N.ltb_spec (ar_term response) (current_term c)); [inv_walk|].
  destruct (role c) as [|?|l] eqn:Er; [inv_walk..|]. destruct (probes l !! from) as [P|] eqn:EP; [|inv_walk].
  apply post_lift_bind; [|done]. intros [proof P'] Hrec.
  destruct proof as [proof|]; [|inv_walk; by apply probe_one_tracks].
  apply post_modify_bind. set (l' := with_probes _ l).
  assert (forall k y, replication P' !! k = Some y -> replication P !! k = Some y) as Hsub.
  { intros k y. unfold receive_probe in Hrec. destruct (ar_probe_id response) as [id|]; [|by simplify_eq].
    destruct (replication P !! id); [|destruct (contacts P !! id); [|by simplify_eq]]; inv_ok; simplify_eq; cbn; [|done].
    by intros [_ ?]%lookup_delete_Some. }
  assert (ok (with_role (Leading l') c)) as Hc'.
  { apply (tracks_lead c l); [done..|]. cbn. intros k Q i probe [[<- <-]|[_ Hk]]%lookup_insert_Some Hi;
      eapply (tracks_probes _ _ _ Hc); eauto. }
  assert (forall i, proof = Matched i -> X from i) as Hm.
  { intros i ->. apply receive_matched in Hrec as (id & probe & _ & Hp & -> & Ha & Hi & Hd & _).
    apply Hx; [unfold role_of; by rewrite Er|lia|done|done|]. rewrite Hd. by eapply (tracks_probes _ _ _ Hc). }
  destruct proof; [| |by apply acknowledge_read_barrier_tracks].
  all: apply post_bind; eapply post_mono; [by apply record_progress_tracks|]; intros [u|e] c1 Hc1; [|done]; apply post_get_bind.
  all: apply preserved_then; [apply advance_leader_commit_tracks|done|]; intros committed.
  all: apply preserved_bind; [apply acknowledge_read_barrier_tracks|]; intros reads.
  all: apply preserved_bind; [|by intros ? ? ?; apply post_ret].
  all: destruct (_ <=? _); [apply probe_one_tracks|by intros ? ?; apply post_ret].
Qed.

Lemma finish_plan_activation_tracks c active inc at_ :
  ok c -> commit_index c <= b -> X (local_id c) (index (last_position c)) ->
  post (finish_plan_activation active inc at_) c (fun _ c' => ok c').
Proof.
  intros Hc Hb Hx. unfold finish_plan_activation. apply post_modify_bind, post_get_bind. set (c1 := clear_replication_budget_overrides _).
  assert (ok c1) as H1.
  { destruct Hc as [H1 H2 H3 _]. split; [done| |done|by left].
    intros l peer p id probe Hr Hp Hi. eapply (holds_record_log c); [done|]. by eapply H2. }
  apply post_lift_bind; [|done]. intros n _. apply post_bind.
  eapply (post_mono _ _ (fun r c2 => r = Ok tt /\ ok c2 /\ log c2 = log c /\ commit_index c2 = commit_index c)).
  { destruct (role c1) as [|?|l] eqn:Er; [by apply post_ret..|]. apply post_modify. split_and!; [done| |done|done].
    apply tracks_fresh; [apply H1|done| |done]. cbn. intros p m [Hm| ->]%foldl_or_insert_cases.
    - apply map_lookup_filter_Some in Hm as [Hm _]. by eapply (tracks_credit _ _ _ H1).
    - change (local_node_id (config c)) with (local_id c). destruct (N.eqb_spec p (local_id c)) as [->|]; [exact Hx|done]. }
  intros [u|e] c2 (Hu & Hc2 & El & Ec); [|done]. destruct (_ && _ && _); [by apply probe_peers_tracks|].
  destruct (_ && _); [by apply post_ret|]. apply post_modify_bind, post_ret. apply tracks_follow; [rewrite El; apply Hc|lia].
Qed.

(** ** Followers *)

Lemma advance_follower_commit_tracks c i :
  ok c -> role c = Following -> commit_index c <= b -> i <= b -> post (advance_follower_commit i) c (fun _ c' => ok c').
Proof.
  intros Hc Hr Hb Hi. unfold advance_follower_commit. inv_walk. destruct Hc as [H1 _ _ _]. split; [done| | |].
  - intros l peer p id probe. cbn. by rewrite Hr.
  - intros l p m. cbn. by rewrite Hr.
  - left. cbn. lia.
Qed.

Lemma follow_commit_tracks c leader i :
  log_ok (log c) -> commit_index c <= b -> i <= b ->
  post (advance_follower_commit i) (with_leader_id leader (with_role Following c)) (fun _ c' => ok c').
Proof. intros Hl Hb Hi. apply advance_follower_commit_tracks; try done. by apply tracks_follow. Qed.

(** How far a follower may commit in answer to a range that ends at [through]. *)
Definition append_through (q : AppendRequest) : N :=
  match last (aq_entries q) with Some e => index (entry_position e) | None => index (aq_previous q) end.

Lemma append_request_tracks c from q :
  ok c -> commit_index c <= b ->
  (position_matches c (aq_previous q) (aq_previous_digest q) = true -> log_delta c (aq_entries q) = Ok (None, []) ->
   validate_append_entries q = Ok tt -> aq_term q = current_term c -> N.min (aq_leader_commit_index q) (append_through q) <= b) ->
  post (append_request from q) c (fun _ c' => ok c').
Proof.
  intros Hc Hb Hlimit. unfold append_request. inv_walk; try (by apply begin_persistence_tracks).
  - apply post_modify_bind, post_get_bind, post_ret. apply tracks_follow; [apply Hc|done].
  - bool_cases. apply post_modify_bind, post_get_bind. repeat match goal with u : unit |- _ => destruct u end.
    assert (post (advance_follower_commit (N.min (aq_leader_commit_index q) (append_through q)))
      (with_leader_id (Some from) (with_role Following c)) (fun _ c' => ok c')) as Hgo.
    { apply follow_commit_tracks; [apply Hc|done|]. apply Hlimit; try done; [|lia].
      match goal with HD : log_delta _ _ = _ |- _ => rewrite HD end. subst. destruct o; naive_solver. }
    apply post_bind. eapply post_mono; [exact Hgo|]. intros [es|e] c' Hc'; [by apply post_get_bind, post_ret|done].
Qed.

Lemma finish_committed_prefix_tracks c from i :
  log_ok (log c) -> commit_index c <= b -> i <= b -> post (finish_committed_prefix from i) c (fun _ c' => ok c').
Proof.
  intros Hl Hb Hi. unfold finish_committed_prefix. apply post_modify_bind, post_get_bind.
  apply post_bind. eapply post_mono; [apply follow_commit_tracks; [done|done|]; cbn; lia|].
  intros [es|e] c' Hc'; [by apply post_get_bind, post_ret|done].
Qed.

Lemma receive_committed_prefix_tracks c from prefix :
  ok c -> commit_index c <= b ->
  (position_matches c (cp_previous prefix) (cp_previous_digest prefix) = true -> log_delta c (cp_entries prefix) = Ok (None, []) ->
   validate_committed_prefix prefix = Ok tt -> cp_committed_index prefix <= b) ->
  post (receive_committed_prefix from prefix) c (fun _ c' => ok c').
Proof.
  intros Hc Hb Hlimit. unfold receive_committed_prefix. inv_walk; [by apply begin_persistence_tracks|].
  repeat match goal with u : unit |- _ => destruct u end. bool_cases.
  apply finish_committed_prefix_tracks; [apply Hc|done|]. apply Hlimit; try done.
  match goal with HD : log_delta _ _ = _ |- _ => rewrite HD end. subst. destruct o; naive_solver.
Qed.

End tracking.

(** ** One step *)

Section steps.
Context `{Sha256}.

(** Where a leader's credit for [p] comes from: its own log, what it already credited, or an
    accepted answer about one of its records. *)
Inductive credit (c : ConsensusCore) (input : CoreInput) (p : NodeId) (m : N) : Prop :=
| credit_none : m = 0 -> credit c input p m
| credit_own : p = local_id c -> m <= len (log c) -> credit c input p m
| credit_kept l : role c = Leading l -> matched l !! p = Some m -> credit c input p m
| credit_answer inc r :
    input = Message p inc (MAppendResponse r) -> role_of c = Leader -> ar_accepted r = true -> ar_term r = current_term c ->
    ar_matched_index r = m -> holds_record c m (ar_matched_digest r) -> credit c input p m.

(** How far a follower may move its commit index. *)
Inductive commit_bound (c : ConsensusCore) (input : CoreInput) : N -> Prop :=
| bound_same : commit_bound c input (commit_index c)
| bound_append from inc q :
    input = Message from inc (MAppendRequest q) -> validate_append_entries q = Ok tt ->
    position_matches c (aq_previous q) (aq_previous_digest q) = true -> log_delta c (aq_entries q) = Ok (None, []) ->
    commit_bound c input (N.max (commit_index c) (N.min (aq_leader_commit_index q) (append_through q)))
| bound_prefix from inc p :
    input = Message from inc (MCommittedPrefix p) -> validate_committed_prefix p = Ok tt ->
    position_matches c (cp_previous p) (cp_previous_digest p) = true -> log_delta c (cp_entries p) = Ok (None, []) ->
    commit_bound c input (N.max (commit_index c) (cp_committed_index p)).

Definition tracked (c : ConsensusCore) (input : CoreInput) (c' : ConsensusCore) : Prop :=
  exists b, commit_bound c input b /\ tracks (credit c input) b c'.

Lemma tracks_start c input : log_ok (log c) -> probes_ok c -> tracks (credit c input) (commit_index c) c.
Proof. intros Hl Hp. split; [done|done| |by left]. intros l p m. apply credit_kept. Qed.

Lemma own_last c input : log_ok (log c) -> credit c input (local_id c) (index (last_position c)).
Proof. intros Hl. apply credit_own; [done|]. by rewrite last_index_len. Qed.

Lemma step_tracks c input :
  log_ok (log c) -> probes_ok c -> (forall id, input <> Persisted id) -> post (step input) c (fun _ c' => tracked c input c').
Proof.
  intros Hl Hp Hin. set (X := credit c input). set (b := commit_index c).
  assert (tracks X b c) as Hc by (by apply tracks_start).
  assert (forall p, X p 0) as X0 by (intros p; by apply credit_none).
  pose proof (own_last c input Hl) as Hown.
  assert (forall m : Core (list CoreEffect), post m c (fun _ c' => tracks X b c') -> post m c (fun _ c' => tracked c input c')) as Hsame.
  { intros m Hm. eapply post_mono; [exact Hm|]. intros r c' Hc'. exists b. split; [apply bound_same|done]. }
  unfold step. apply post_get_bind. destruct (_ && _); [by apply Hsame|].
  destruct input as [| |from inc message|id|pid op v cmd|id|id|pid op|j inc at_|p inc at_|i].
  - apply Hsame. unfold start_election. inv_walk. by apply begin_persistence_tracks.
  - apply Hsame. by apply heartbeat_tracks.
  - unfold receive. apply post_get_bind, post_lift_bind; [|intros; exists b; split; [apply bound_same|done]]. intros _ _. destruct message as [q|r|q|r|q].
    + apply Hsame. unfold vote_request. inv_walk. by apply begin_persistence_tracks.
    + apply Hsame. by apply vote_response_tracks.
    + destruct (validate_append_entries q) as [[]|] eqn:Ev; [|apply Hsame, append_request_tracks; [done|done|congruence]].
      destruct (position_matches c (aq_previous q) (aq_previous_digest q)) eqn:Em;
        [|apply Hsame, append_request_tracks; [done|done|congruence]].
      destruct (log_delta c (aq_entries q)) as [[[x|] [|e s]]|] eqn:Ed;
        try (apply Hsame, append_request_tracks; [done|done|congruence]).
      set (b' := N.max (commit_index c) (N.min (aq_leader_commit_index q) (append_through q))).
      eapply (post_mono _ _ (fun _ c' => tracks X b' c')).
      * apply append_request_tracks; [|unfold b'; lia|unfold b'; lia]. split; [done|done| |left; unfold b'; lia]. intros l p m. apply credit_kept.
      * intros _ c' Hc'. exists b'. split; [by eapply bound_append|done].
    + apply Hsame. apply append_response_tracks; [done..|]. intros i El Et Ha Hi Hr. by eapply credit_answer.
    + destruct (validate_committed_prefix q) as [[]|] eqn:Ev; [|apply Hsame, receive_committed_prefix_tracks; [done|done|congruence]].
      destruct (position_matches c (cp_previous q) (cp_previous_digest q)) eqn:Em;
        [|apply Hsame, receive_committed_prefix_tracks; [done|done|congruence]].
      destruct (log_delta c (cp_entries q)) as [[[x|] [|e s]]|] eqn:Ed;
        try (apply Hsame, receive_committed_prefix_tracks; [done|done|congruence]).
      set (b' := N.max (commit_index c) (cp_committed_index q)).
      eapply (post_mono _ _ (fun _ c' => tracks X b' c')).
      * apply receive_committed_prefix_tracks; [|unfold b'; lia|unfold b'; lia]. split; [done|done| |left; unfold b'; lia]. intros l p m. apply credit_kept.
      * intros _ c' Hc'. exists b'. split; [by eapply bound_prefix|done].
  - by destruct (Hin id).
  - apply Hsame. unfold propose. inv_walk. by apply begin_persistence_tracks.
  - apply Hsame. by apply begin_read_barrier_tracks.
  - apply Hsame. by apply cancel_read_barrier_tracks.
  - apply Hsame. unfold propose. inv_walk. by apply begin_persistence_tracks.
  - apply Hsame. unfold activate_joint_plan. inv_walk. by apply begin_persistence_tracks.
  - apply Hsame. unfold activate_stable_plan. inv_walk. by apply begin_persistence_tracks.
  - apply Hsame. by apply applied_through_tracks.
Qed.


(** How far the completion of a request may move the commit index. *)
Inductive completion_bound (k : N) : AfterPersistence -> N -> Prop :=
| completion_same a : completion_bound k a k
| completion_append to leader limit reply :
    ar_accepted reply = true ->
    completion_bound k (AppendReply to leader limit reply) (N.max k (N.min limit (ar_matched_index reply)))
| completion_prefix from limit : completion_bound k (PrefixReply from limit) (N.max k limit).

Lemma holds_record_grows c c' i d k :
  log_ok (log c) -> log_ok (log c') -> log c' = log c ++ k -> holds_record c i d -> holds_record c' i d.
Proof.
  intros Hl Hl' E [Hz|(e & He & Hd)]; [by left|]. right. exists e. split; [|done].
  apply entry_lookup in He as [Hi He]; [|done]. apply entry_lookup; [done|]. split; [done|]. rewrite E. by apply lookup_app_l_Some.
Qed.

Lemma resumed_log_ok c p : core_base c -> request_ok c (mutation p) (action p) -> log_ok (log (resumed c p)).
Proof.
  intros Hb Hr. apply (mutated_base (with_pending None c)); [by apply with_pending_base|].
  pose proof (request_sound _ _ _ Hb Hr) as Hs. destruct Hs. by split.
Qed.

(** A leader that stays one through a completion keeps its log or appends to it. *)
Lemma resumed_probes_ok c p k :
  core_base c -> probes_ok c -> request_ok c (mutation p) (action p) -> log_after (mutation p) (log c) = log c ++ k ->
  probes_ok (resumed c p).
Proof.
  intros Hb Hp Hr El l peer P id probe Er HP Hi.
  assert (log (resumed c p) = log c ++ k) as E by (destruct (mutated_fields (with_pending None c) (mutation p)) as (_ & _ & E & _); unfold resumed; by rewrite E).
  eapply (holds_record_grows c); [apply Hb|by apply resumed_log_ok|exact E|]. eapply Hp; eauto.
  unfold resumed, mutated, stepped_down in Er. destruct (vote_state (mutation p)) as [[t v]|]; [|exact Er].
  destruct (_ <? _); [discriminate Er|exact Er].
Qed.

Lemma after_persistence_tracks c p input :
  core_base c -> probes_ok c -> request_ok c (mutation p) (action p) ->
  post (after_persistence p) (resumed c p) (fun _ c' =>
    exists b, completion_bound (commit_index c) (action p) b /\ tracks (credit (resumed c p) input) b c').
Proof.
  intros Hb Hp Hr. set (c1 := resumed c p). set (X := credit c1 input).
  assert (log_ok (log c1)) as Hl by (by apply resumed_log_ok).
  assert (commit_index c1 = commit_index c) as Ec by (by destruct (mutated_fields (with_pending None c) (mutation p)) as (_ & _ & _ & _ & _ & _ & E & _)).
  assert (forall q, X q 0) as X0 by (intros q; by apply credit_none). pose proof (own_last c1 input Hl) as Hown.
  assert (forall k, log_after (mutation p) (log c) = log c ++ k -> tracks X (commit_index c) c1) as Hstart.
  { intros k El. rewrite <- Ec. apply tracks_start; [done|]. by eapply resumed_probes_ok. }
  assert (forall a, completion_bound (commit_index c) a (commit_index c)) as Hsame by apply completion_same.
  assert (forall m : Core (list CoreEffect), post m c1 (fun _ c' => tracks X (commit_index c) c') ->
    post m c1 (fun _ c' => exists b, completion_bound (commit_index c) (action p) b /\ tracks X b c')) as Hlift.
  { intros m Hm. eapply post_mono; [exact Hm|]. eauto. }
  assert (match action p with Campaign | ActivateJoint _ _ | ActivateStable _ _ => True | _ => False end -> tracks X (commit_index c) c1) as Hplan.
  { intros Hk. apply (Hstart []). destruct Hr; done. }
  unfold after_persistence. destruct (action p) as [|to granted|to leader limit reply|pid pos| |from limit|j inc|s inc] eqn:Ea.
  - apply Hlift, finish_campaign_tracks; [done| |by rewrite Ec|done]. by apply Hplan.
  - apply Hlift. apply post_modify_bind, post_get_bind, post_ret. apply tracks_follow; [done|by rewrite Ec].
  - apply post_modify_bind. destruct (ar_accepted reply) eqn:Eacc.
    + set (b := N.max (commit_index c) (N.min limit (ar_matched_index reply))).
      apply post_bind. eapply post_mono; [apply (follow_commit_tracks X b); [done|rewrite Ec; unfold b; lia|unfold b; lia]|].
      intros [es|e] c' Hc'; [apply post_get_bind, post_ret|]; exists b; (split; [by apply completion_append|done]).
    + apply (post_bind (mret _)), post_ret, post_get_bind, post_ret. exists (commit_index c). split; [done|].
      apply tracks_follow; [done|by rewrite Ec].
  - apply Hlift. inversion Hr; subst. apply finish_proposal_tracks;
      [match goal with HM : _ = mutation p |- _ => apply (Hstart [e]); by rewrite <- HM end|]. apply credit_own; [done|].
    cbn [index]. rewrite (last_index_len c) by apply Hb.
    destruct (mutated_fields (with_pending None c) (mutation p)) as (_ & _ & E & _). unfold c1, resumed. rewrite E.
    match goal with HM : _ = mutation p |- _ => rewrite <- HM end. unfold log_after. cbn. rewrite len_app. unfold len. cbn. lia.
  - apply Hlift. apply post_modify_bind, post_get_bind, post_ret. apply tracks_follow; [done|by rewrite Ec].
  - set (b := N.max (commit_index c) limit).
    eapply post_mono; [apply (finish_committed_prefix_tracks X b); [done|rewrite Ec; unfold b; lia|unfold b; lia]|].
    intros r c' Hc'. exists b. split; [apply completion_prefix|done].
  - apply post_lift_bind; [|intros; exists (commit_index c); split; [done|]; by apply Hplan].
    intros q _. apply Hlift, finish_plan_activation_tracks; [done| |by rewrite Ec|done]. by apply Hplan.
  - apply post_lift_bind; [|intros; exists (commit_index c); split; [done|]; by apply Hplan].
    intros q _. apply Hlift, finish_plan_activation_tracks; [done| |by rewrite Ec|done]. by apply Hplan.
Qed.

End steps.
