(* ===== verification/CoreAsk.v ===== *)
(** Which input a persistence request answers: the message whose fields justify it is the
    message the core was given. *)

From S2P Require Import Prelude VoterSet Predicate Plan Digest Compile FlatPlan Joint Types Membership MembershipCommand Probes History Core CoreRequest CoreLog CoreInv CoreEffects CoreSafety CoreElection CoreCommit.
From stdpp Require Import prelude gmap.
#[local] Open Scope N_scope.

Section asking.
Context `{Sha256}.

(** Requests that leave the log alone and clear the vote in a later term. *)
Definition gives_way (a : AfterPersistence) : bool :=
  match a with StepDown => true | AppendReply _ _ _ reply => negb (ar_accepted reply) | _ => false end.

Inductive asked (c : ConsensusCore) (input : CoreInput) : DurableMutation -> AfterPersistence -> Prop :=
| asked_campaign : role_of c <> Leader -> asked c input (vote_mutation (current_term c + 1) (Some (local_id c))) Campaign
| asked_vote from inc q (granted : bool) :
    input = Message from inc (MVoteRequest q) -> vq_candidate q = from ->
    (granted = true -> position_le (last_position c) (vq_last_log q) = true) ->
    asked c input (vote_mutation (vq_term q) (if granted then Some from else None)) (VoteReply from granted)
| asked_way t a : current_term c < t -> gives_way a = true -> asked c input (vote_mutation t None) a
| asked_append from inc q truncate suffix :
    input = Message from inc (MAppendRequest q) -> validate_append_entries q = Ok tt ->
    current_term c <= aq_term q -> position_matches c (aq_previous q) (aq_previous_digest q) = true ->
    log_delta c (aq_entries q) = Ok (truncate, suffix) ->
    asked c input
      {| vote_state := if current_term c <? aq_term q then Some (aq_term q, None) else None;
         truncate_from := truncate; append := suffix; mutation_epoch := None; quorum_plan := None |}
      (AppendReply from from (aq_leader_commit_index q) (append_reply c q true))
| asked_prefix from inc p truncate suffix :
    input = Message from inc (MCommittedPrefix p) -> validate_committed_prefix p = Ok tt ->
    position_matches c (cp_previous p) (cp_previous_digest p) = true ->
    log_delta c (cp_entries p) = Ok (truncate, suffix) ->
    asked c input
      {| vote_state := (let observed := match last (cp_entries p) with
                                        | Some e => term (entry_position e)
                                        | None => term (cp_previous p)
                                        end in if current_term c <? observed then Some (observed, None) else None);
         truncate_from := truncate; append := suffix; mutation_epoch := None; quorum_plan := None |}
      (PrefixReply from (cp_committed_index p))
| asked_proposal pid e :
    role_of c = Leader -> entry_position e = {| term := current_term c; index := index (last_position c) + 1 |} ->
    asked c input
      {| vote_state := None; truncate_from := None; append := [e]; mutation_epoch := None; quorum_plan := None |}
      (Proposal pid {| term := current_term c; index := index (last_position c) + 1 |})
| asked_plan epoch active at_ a :
    match a with ActivateJoint _ _ | ActivateStable _ _ => True | _ => False end -> asked c input (plan_mutation epoch active at_) a.

Inductive asks (c : ConsensusCore) (input : CoreInput) : result CoreError (list CoreEffect) -> ConsensusCore -> Prop :=
| asks_nothing r c' : quiet c c' -> asks c input r c'
| asks_request m a : asked c input m a -> asks c input (Ok [Persist (next_persistence_id c) m]) (begun c m a).

Lemma begin_persistence_asks c input m a : asked c input m a -> post (begin_persistence m a) c (asks c input).
Proof.
  intros Hr. unfold begin_persistence. apply post_get_bind. apply post_lift_bind; [|intros; by apply asks_nothing].
  intros n Hn. inv_ok. apply post_modify_bind, post_ret. by apply asks_request.
Qed.

Lemma keeps_asks {m : Core (list CoreEffect)} c input : keeps quiet m -> post m c (asks c input).
Proof. intros Hk. eapply post_mono; [apply Hk|]. intros r c' Hq. by apply asks_nothing. Qed.

Ltac ask_walk :=
  repeat match goal with
  | |- post (get_state ≫= _) _ _ => apply post_get_bind; cbv beta
  | |- post (lift _ ≫= _) _ _ => apply post_lift_bind; [intros ? ?|intros; by apply asks_nothing]
  | |- post (if ?b then _ else _) _ _ => destruct b eqn:?
  | |- post (let '(_, _) := ?p in _) _ _ => destruct p eqn:?
  | |- post (raise _) _ _ => apply post_raise; by apply asks_nothing
  | |- post (mret _) _ _ => apply post_ret; by apply asks_nothing
  | |- post (lift _) _ _ => apply post_lift; by apply asks_nothing
  | |- post (begin_persistence _ _) _ _ => apply begin_persistence_asks
  end; repeat match goal with u : unit |- _ => destruct u end; bool_cases.

Lemma propose_asks c input pid op version cmd : post (propose pid op version cmd) c (asks c input).
Proof.
  unfold propose. ask_walk. inv_ok. apply asked_proposal; [done|].
  match goal with HN : new_entry _ _ _ _ = Ok _ |- _ => by apply new_entry_Ok in HN as [-> _] end.
Qed.

Lemma step_asks c input : (forall id, input <> Persisted id) -> post (step input) c (asks c input).
Proof.
  intros Hin. unfold step. ask_walk.
  destruct input as [| |from inc message|id|pid op v cmd|id|id|pid op|j inc at_|p inc at_|i];
    auto using propose_asks; try (apply keeps_asks; solve [eauto with mesh]).
  - unfold start_election. ask_walk. inv_ok. by apply asked_campaign.
  - unfold receive. ask_walk. destruct message as [q|r|q|r|q].
    + unfold vote_request. ask_walk.
      all: try (match goal with |- post (match ?x with _ => _ end) _ _ => destruct x end; ask_walk).
      eapply asked_vote; [done|done|]. intros Hg. bool_cases. done.
    + unfold vote_response, persist_step_down. ask_walk; [by apply asked_way|]. apply keeps_asks. quiet_walk.
    + unfold append_request. ask_walk; [by apply asked_way|apply keeps_asks; quiet_walk|by eapply asked_append|apply keeps_asks; quiet_walk].
    + unfold append_response, persist_step_down. ask_walk; [by apply asked_way|]. apply keeps_asks. quiet_walk.
    + unfold receive_committed_prefix. ask_walk; [by eapply asked_prefix|]. apply keeps_asks. eauto with mesh.
  - by destruct (Hin id).
  - unfold activate_joint_plan. ask_walk. destruct (active_plan c); ask_walk. by apply asked_plan.
  - unfold activate_stable_plan. ask_walk. destruct (active_plan c); ask_walk. by apply asked_plan.
Qed.


(** ** Who sends log entries *)

Definition no_append (es : list CoreEffect) : Prop := forall to q, Send to (MAppendRequest q) ∉ es.

(** Only a node that still leads when the step ends sends append requests. *)
Definition appends_lead (r : result CoreError (list CoreEffect)) (c' : ConsensusCore) : Prop :=
  role_of c' = Leader \/ match r with Ok es => no_append es | Err _ => True end.

Definition leads (c : ConsensusCore) : Prop := role_of c = Leader.

Lemma leads_role c l : role c = Leading l -> leads c.
Proof. unfold leads, role_of. by intros ->. Qed.

Lemma leading c : leads c -> exists l, role c = Leading l.
Proof. unfold leads, role_of. destruct (role c) as [|?|l]; try discriminate. eauto. Qed.

Lemma leads_appends_lead {m : Core (list CoreEffect)} c : preserved leads m -> leads c -> post m c appends_lead.
Proof. intros Hm Hc. eapply post_mono; [by apply Hm|]. intros r c' Hc'. by left. Qed.

Lemma silent_appends_lead es c : no_append es -> post (mret es) c appends_lead.
Proof. intros Hn. apply post_ret. by right. Qed.

Lemma no_append_nil : no_append [].
Proof. intros to q. apply not_elem_of_nil. Qed.

Lemma no_append_one e es : (forall to q, e <> Send to (MAppendRequest q)) -> no_append es -> no_append (e :: es).
Proof. intros He Hn to q [E|Hin]%elem_of_cons; [by apply (He to q)|by apply (Hn to q)]. Qed.

Ltac lead_walk := repeat (intros ? ?; inv_walk); try (by eapply leads_role).

Lemma probe_effect_leads peer kind id : preserved leads (probe_effect peer kind id).
Proof. intros c Hc. unfold probe_effect. destruct kind; inv_walk. Qed.

Lemma probe_one_leads peer kind id : preserved leads (e ← probe_effect peer kind id; mret [e]).
Proof. apply preserved_bind; [apply probe_effect_leads|by intros ? ? ?; apply post_ret]. Qed.

Lemma probe_peers_leads kind id : preserved leads (probe_peers kind id).
Proof. intros c Hc. unfold probe_peers. apply post_get_bind. apply preserved_traverse; [|done]. intros. apply probe_effect_leads. Qed.

Lemma complete_read_barriers_leads : preserved leads complete_read_barriers.
Proof. intros c Hc. unfold complete_read_barriers. inv_walk. Qed.

Lemma acknowledge_read_barrier_leads from id : preserved leads (acknowledge_read_barrier from id).
Proof. intros c Hc. unfold acknowledge_read_barrier. inv_walk. by apply complete_read_barriers_leads. Qed.

Lemma advance_leader_commit_leads : preserved leads advance_leader_commit.
Proof. intros c Hc. unfold advance_leader_commit. inv_walk. Qed.

Lemma record_progress_leads from hint last_index proof l : preserved leads (record_progress from hint last_index proof l).
Proof. intros c Hc. unfold record_progress. inv_walk. Qed.

Lemma become_leader_appends_lead c : post become_leader c appends_lead.
Proof.
  unfold become_leader. apply post_get_bind, post_lift_bind; [|by right]. intros n _. apply post_modify_bind.
  apply leads_appends_lead; [|done]. apply preserved_bind; [apply probe_peers_leads|by intros ? ? ?; apply post_ret].
Qed.

Lemma heartbeat_appends_lead c : post heartbeat c appends_lead.
Proof.
  unfold heartbeat. apply post_get_bind. destruct (negb _) eqn:E; [by apply post_raise; right|]. bool_cases.
  apply leads_appends_lead; [|done]. apply preserved_bind; [|by intros ? ? ?; apply post_ret].
  apply preserved_traverse. intros peer c1 Hc1. apply post_get_bind. apply preserved_then; [|done|].
  - destruct (match peer_matched_index c1 peer with None => true | Some m => m <? index (last_position c) end);
      [apply probe_one_leads|by intros ? ?; apply post_ret].
  - intros first. apply preserved_bind; [apply probe_effect_leads|by intros ? ? ?; apply post_ret].
Qed.

Lemma begin_read_barrier_appends_lead c id : post (begin_read_barrier id) c appends_lead.
Proof.
  unfold begin_read_barrier. destruct (id =? 0); [by apply post_raise; right|]. apply post_get_bind.
  destruct (role c) as [|?|l]; [by apply post_raise; right..|]. destruct (_ || _); [by apply post_raise; right|].
  apply post_modify_bind. apply leads_appends_lead; [|done].
  destruct (active_satisfies _ _ _); [apply complete_read_barriers_leads|apply probe_peers_leads].
Qed.

Lemma replay_no_append c peer response es : replay_membership_prefix c peer response = Ok es -> no_append es.
Proof.
  unfold replay_membership_prefix. intros E. inv_ok. apply no_append_one; [done|apply no_append_nil].
Qed.

Lemma begin_persistence_appends_lead c m a : post (begin_persistence m a) c appends_lead.
Proof.
  unfold begin_persistence. inv_walk; [|by right]. right. apply no_append_one; [done|apply no_append_nil].
Qed.

Lemma append_response_appends_lead c from response : post (append_response from response) c appends_lead.
Proof.
  unfold append_response, persist_step_down. apply post_get_bind. destruct (is_err _).
  { apply post_lift. right. destruct (replay_membership_prefix _ _ _) eqn:E; [by eapply replay_no_append|done]. }
  destruct (response_malformed _); [by apply post_raise; right|].
  destruct (_ <? _); [apply begin_persistence_appends_lead|]. destruct (_ <? _); [apply silent_appends_lead, no_append_nil|].
  destruct (role c) as [|?|l] eqn:Er; [apply silent_appends_lead, no_append_nil..|]. pose proof (leads_role _ _ Er) as Hc.
  apply leads_appends_lead; [|done]. clear Hc Er. intros c1 Hc1. destruct (probes l !! from) as [P|]; [|by apply post_ret].
  apply post_lift_bind; [|done]. intros [[proof|] P'] _; [|destruct (_ && _); [by apply probe_one_leads|by apply post_ret]].
  apply post_modify_bind. destruct proof; [| |by apply acknowledge_read_barrier_leads].
  all: apply preserved_then; [apply record_progress_leads|done|]; intros u; intros c2 Hc2; apply post_get_bind.
  all: apply preserved_then; [apply advance_leader_commit_leads|done|]; intros committed.
  all: apply preserved_bind; [apply acknowledge_read_barrier_leads|]; intros reads.
  all: apply preserved_bind; [|by intros ? ? ?; apply post_ret].
  all: destruct (_ <=? _); [apply probe_one_leads|by intros ? ?; apply post_ret].
Qed.

Lemma commit_effects_no_append c old es : commit_effects c old = Ok es -> no_append es.
Proof.
  unfold commit_effects. destruct (_ <=? _); intros E; inv_ok; [apply no_append_nil|]. apply no_append_one; [done|apply no_append_nil].
Qed.

Definition quiet_sends (r : result CoreError (list CoreEffect)) : Prop := match r with Ok es => no_append es | Err _ => True end.

Lemma advance_follower_commit_silent c i : post (advance_follower_commit i) c (fun r _ => quiet_sends r).
Proof.
  unfold advance_follower_commit. apply post_get_bind, post_modify_bind, post_get_bind, post_lift.
  destruct (commit_effects _ _) eqn:E; [by eapply commit_effects_no_append|done].
Qed.

Lemma no_append_app es fs : no_append es -> no_append fs -> no_append (es ++ fs).
Proof. intros H1 H2 to q [Hin|Hin]%elem_of_app; [by apply (H1 to q)|by apply (H2 to q)]. Qed.

Lemma silent_then {m : Core (list CoreEffect)} (f : ConsensusCore -> CoreEffect) c :
  (forall c', post m c' (fun r _ => quiet_sends r)) -> (forall c' to q, f c' <> Send to (MAppendRequest q)) ->
  post (es ← m; c' ← get_state; mret (es ++ [f c'])) c appends_lead.
Proof.
  intros Hm Hf. apply post_bind. eapply post_mono; [apply Hm|]. intros [es|e] c' Hes; [|by right].
  apply post_get_bind, post_ret. right. apply no_append_app; [done|]. apply no_append_one; [done|apply no_append_nil].
Qed.


Ltac silent := solve [apply no_append_nil | apply no_append_one; [done|apply no_append_nil]].
Ltac speak_walk :=
  repeat match goal with
  | |- post (get_state ≫= _) _ _ => apply post_get_bind; cbv beta
  | |- post (modify_state _ ≫= _) _ _ => apply post_modify_bind; cbv beta
  | |- post (follow_leader _ ≫= _) _ _ => unfold follow_leader
  | |- post (lift _ ≫= _) _ _ => apply post_lift_bind; [intros ? ?|intros; by right]
  | |- post (if ?b then _ else _) _ _ => destruct b eqn:?
  | |- post (let '(_, _) := ?p in _) _ _ => destruct p eqn:?
  | |- post (raise _) _ _ => apply post_raise; by right
  | |- post (mret _) _ _ => apply silent_appends_lead; silent
  | |- post (begin_persistence _ _) _ _ => apply begin_persistence_appends_lead
  end.

Lemma finish_committed_prefix_appends_lead c from i : post (finish_committed_prefix from i) c appends_lead.
Proof.
  unfold finish_committed_prefix. speak_walk. apply (silent_then (fun c' => membership_notice_effect c' from)); [|done].
  intros c'. apply advance_follower_commit_silent.
Qed.

Lemma finish_campaign_appends_lead c : post finish_campaign c appends_lead.
Proof.
  unfold finish_campaign. speak_walk.
  - apply post_bind. eapply post_mono; [apply become_leader_appends_lead|]. intros [es|e] c' [Hl|Hs]; try (by left); [|by right].
    apply post_ret. right. by apply no_append_one.
  - apply silent_appends_lead, no_append_one; [done|]. intros to q Hin. apply list_elem_of_In, in_map_iff in Hin as (v & [=] & _).
Qed.

Lemma finish_proposal_appends_lead c pid position : post (finish_proposal pid position) c appends_lead.
Proof.
  unfold finish_proposal. apply post_get_bind. destruct (role c) as [|?|l] eqn:Er; [by apply post_raise; right..|].
  apply leads_appends_lead; [|by eapply leads_role]. intros c1 Hc1. apply post_modify_bind, post_lift_bind; [|done].
  intros n _. apply post_modify_bind. apply preserved_then; [apply probe_peers_leads|done|]. intros sends.
  apply preserved_bind; [apply advance_leader_commit_leads|by intros ? ? ?; apply post_ret].
Qed.

Lemma finish_plan_activation_appends_lead c a inc at_ : post (finish_plan_activation a inc at_) c appends_lead.
Proof.
  unfold finish_plan_activation. apply post_modify_bind, post_get_bind. set (c1 := clear_replication_budget_overrides _).
  apply post_lift_bind; [|by right]. intros n _. apply post_bind.
  eapply (post_mono _ _ (fun r c2 => r = Ok tt /\ role_of c2 = role_of c1)).
  { destruct (role c1) eqn:Er; [by apply post_ret..|]. apply post_modify. split; [done|]. unfold role_of. by rewrite Er. }
  intros [u|e] c2 [Hu Ero]; [|done]. destruct (_ && _ && _) eqn:E.
  - bool_cases. apply leads_appends_lead; [apply probe_peers_leads|]. unfold leads. congruence.
  - clear E. destruct (_ && _); [speak_walk|]. apply (post_modify_bind (fun c => with_leader_id None (with_role Following c))), post_ret.
    right. destruct (negb _); silent.
Qed.

Lemma after_persistence_appends_lead p c : post (after_persistence p) c appends_lead.
Proof.
  unfold after_persistence. destruct (action p) as [|to granted|to leader limit reply|pid pos| |from limit|j inc|s inc]; speak_walk.
  - apply finish_campaign_appends_lead.
  - apply (silent_then (fun c' => append_reply_effect c' to reply)); [|done]. intros c'.
    destruct (ar_accepted reply); [apply advance_follower_commit_silent|apply post_ret, no_append_nil].
  - apply finish_proposal_appends_lead.
  - apply finish_committed_prefix_appends_lead.
  - apply finish_plan_activation_appends_lead.
  - apply finish_plan_activation_appends_lead.
Qed.

Lemma step_appends_lead c input : post (step input) c appends_lead.
Proof.
  unfold step. speak_walk. destruct input as [| |from inc message|id|pid op v cmd|id|id|pid op|j inc at_|p inc at_|i].
  - unfold start_election. speak_walk.
  - apply heartbeat_appends_lead.
  - unfold receive. speak_walk. destruct message as [q|r|q|r|q].
    + unfold vote_request. speak_walk. apply post_lift. right.
      destruct (replay_membership_prefix _ _ _) eqn:E; [by eapply replay_no_append|done].
    + unfold vote_response, persist_step_down. speak_walk. destruct (role c); [speak_walk| |speak_walk].
      speak_walk. apply become_leader_appends_lead.
    + unfold append_request. speak_walk. apply (silent_then (fun c' => append_reply_effect c' from _)); [|done].
      intros c'. apply advance_follower_commit_silent.
    + apply append_response_appends_lead.
    + unfold receive_committed_prefix. speak_walk. apply finish_committed_prefix_appends_lead.
  - unfold finish_persistence. clear Heqb. apply post_get_bind. destruct (pending c) as [p|]; [|by apply post_raise; right].
    destruct (negb _); [by apply post_raise; right|]. apply post_modify_bind, post_bind.
    eapply (post_mono _ _ (fun _ _ => True)); [done|]. intros [u|e] c' _; [apply after_persistence_appends_lead|by right].
  - unfold propose. speak_walk.
  - apply begin_read_barrier_appends_lead.
  - unfold cancel_read_barrier. clear Heqb. destruct (_ =? 0); [by apply post_raise; right|]. apply post_get_bind, post_bind.
    eapply (post_mono _ _ (fun _ _ => True)); [done|]. intros [u|e] c' _; [|by right]. apply silent_appends_lead; silent.
  - unfold propose. speak_walk.
  - unfold activate_joint_plan. speak_walk. destruct (active_plan c); speak_walk.
  - unfold activate_stable_plan. speak_walk. destruct (active_plan c); speak_walk.
  - unfold applied_through. speak_walk. eapply post_mono; [|intros r c' Hr; right; exact Hr].
    unfold complete_read_barriers. inv_walk; try (by apply no_append_nil).
    intros to q Hin. apply list_elem_of_In, in_map_iff in Hin as ([x y] & [=] & _).
Qed.

Lemma append_requests_lead c input es c' to q :
  step input c = (Ok es, c') -> Send to (MAppendRequest q) ∈ es -> role_of c' = Leader.
Proof.
  intros Hs Hin. pose proof (step_appends_lead c input) as Hp. unfold post in Hp. rewrite Hs in Hp. cbn in Hp.
  destruct Hp as [Hl|Hn]; [done|]. by apply Hn in Hin.
Qed.

(** ** Completions that end a role *)

Definition ends_role (a : AfterPersistence) : bool :=
  match a with VoteReply _ _ | AppendReply _ _ _ _ | StepDown | PrefixReply _ _ => true | _ => false end.

Lemma steady_still_following c c' : role c = Following -> steady c c' -> role c' = Following.
Proof.
  intros Er [Hv Hl]. destruct (role c') as [|votes|l] eqn:E; [done| |].
  - by rewrite (Hv votes) in Er.
  - unfold role_of in Hl. rewrite E, Er in Hl. by specialize (Hl eq_refl).
Qed.

Lemma after_persistence_follows p c : ends_role (action p) = true -> post (after_persistence p) c (fun _ c' => role c' = Following).
Proof.
  intros Ha. unfold after_persistence.
  assert (forall leader i, post (advance_follower_commit i) (with_leader_id leader (with_role Following c)) (fun _ c' => role c' = Following)) as Hf.
  { intros leader i. eapply post_mono; [apply (advance_follower_commit_steady (with_leader_id leader (with_role Following c)) i), steady_refl|].
    intros r c' Hst. eapply steady_still_following; [|exact Hst]. done. }
  destruct (action p) as [|to granted|to leader limit reply|pid pos| |from limit|j inc|s inc]; try discriminate Ha.
  - inv_walk.
  - apply post_modify_bind, post_bind. destruct (ar_accepted reply); [|inv_walk].
    eapply post_mono; [apply Hf|]. intros [es|e] c' Hc'; [by apply post_get_bind, post_ret|done].
  - inv_walk.
  - unfold finish_committed_prefix. apply post_modify_bind, post_get_bind, post_bind.
    eapply post_mono; [apply Hf|]. intros [es|e] c' Hc'; [by apply post_get_bind, post_ret|done].
Qed.

(** ** Who accepts log entries *)

Definition unaccepting (e : CoreEffect) : Prop :=
  match e with Send _ (MAppendResponse r) => ar_accepted r = false | _ => True end.
Definition declines (r : result CoreError (list CoreEffect)) (c' : ConsensusCore) : Prop :=
  match r with Ok es => Forall unaccepting es | Err _ => True end.
Definition never_accepts (m : Core (list CoreEffect)) : Prop := forall c, post m c declines.

Lemma never_accepts_bind {A} (m : Core A) (f : A -> Core (list CoreEffect)) :
  (forall a, never_accepts (f a)) -> never_accepts (m ≫= f).
Proof. intros Hf c. apply post_bind. eapply (post_mono _ _ (fun _ _ => True)); [done|]. intros [a|e] c' _; [apply Hf|done]. Qed.

Lemma declines_then (m : Core (list CoreEffect)) (f : list CoreEffect -> Core (list CoreEffect)) c :
  never_accepts m -> (forall es c', Forall unaccepting es -> post (f es) c' declines) -> post (m ≫= f) c declines.
Proof. intros Hm Hf. apply post_bind. eapply post_mono; [apply Hm|]. intros [es|e] c' Hes; [by apply Hf|done]. Qed.

Lemma probe_effect_declines peer kind id c :
  post (probe_effect peer kind id) c (fun r _ => match r with Ok e => unaccepting e | Err _ => True end).
Proof. unfold probe_effect. destruct kind; inv_walk. Qed.

Lemma probe_one_declines peer kind id : never_accepts (e ← probe_effect peer kind id; mret [e]).
Proof.
  intros c. apply post_bind. eapply post_mono; [apply probe_effect_declines|]. intros [e|e] c' He; [|done].
  apply post_ret. repeat constructor. exact He.
Qed.

Lemma probe_peers_declines kind id : never_accepts (probe_peers kind id).
Proof.
  intros c. unfold probe_peers. apply post_get_bind.
  eapply (post_traverse _ _ _ (fun es _ => Forall unaccepting es)); [constructor| |done].
  intros peer es c1 _ Hes. eapply post_mono; [apply probe_effect_declines|]. intros [e|e] c2 He; [|done].
  apply Forall_app. split; [done|]. repeat constructor. exact He.
Qed.

Lemma heartbeat_declines : never_accepts heartbeat.
Proof.
  intros c. unfold heartbeat. apply post_get_bind. destruct (negb _); [by apply post_raise|]. apply post_bind.
  eapply (post_traverse _ _ _ (fun ess _ => Forall unaccepting (concat ess))); [constructor| |by intros ess c' He; apply post_ret].
  intros peer ess c1 _ Hes. apply post_get_bind, post_bind.
  match goal with |- post ?m c1 _ => assert (never_accepts m) as Hm end.
  { destruct (match peer_matched_index c1 peer with None => true | Some m => m <? index (last_position c) end);
      [apply probe_one_declines|by intros c'; apply post_ret; constructor]. }
  eapply post_mono; [apply Hm|]. intros [es|e] c2 He; [|done]. apply post_bind.
  eapply post_mono; [apply probe_effect_declines|]. intros [e|e] c3 He3; [|done]. apply post_ret.
  rewrite concat_app. apply Forall_app. split; [done|]. cbn. rewrite app_nil_r. apply Forall_app. split; [done|].
  repeat constructor. exact He3.
Qed.

Lemma commit_effects_declines c old es : commit_effects c old = Ok es -> Forall unaccepting es.
Proof. unfold commit_effects. destruct (_ <=? _); intros E; inv_ok; repeat constructor. Qed.

Lemma replay_declines c peer response es : replay_membership_prefix c peer response = Ok es -> Forall unaccepting es.
Proof. unfold replay_membership_prefix. intros E. inv_ok. repeat constructor. Qed.

Ltac decline_walk :=
  repeat match goal with
  | |- never_accepts _ => intros ?
  | |- post (get_state ≫= _) _ _ => apply post_get_bind; cbv beta
  | |- post (modify_state _ ≫= _) _ _ => apply post_modify_bind; cbv beta
  | |- post (follow_leader _ ≫= _) _ _ => unfold follow_leader
  | |- post (mret _ ≫= _) _ _ => apply (post_bind (mret _)), post_ret; cbv beta
  | |- post (lift _ ≫= _) _ _ => apply post_lift_bind; [intros ? ?|done]
  | |- post (if ?b then _ else _) _ _ => destruct b eqn:?
  | |- post (let '(_, _) := ?p in _) _ _ => destruct p eqn:?
  | |- post (match ?x with _ => _ end) _ _ => destruct x eqn:?
  | |- post (raise _) _ _ => by apply post_raise
  | |- post (mret _) _ _ => apply post_ret; solve [repeat constructor]
  | |- post (lift (replay_membership_prefix _ _ _)) _ _ =>
      apply post_lift; destruct (replay_membership_prefix _ _ _) eqn:?; [by eapply replay_declines|done]
  | |- post (lift (commit_effects _ _)) _ _ =>
      apply post_lift; destruct (commit_effects _ _) eqn:?; [by eapply commit_effects_declines|done]
  end.

Lemma complete_read_barriers_declines : never_accepts complete_read_barriers.
Proof. unfold complete_read_barriers. decline_walk. apply post_ret, Forall_fmap, Forall_forall. by intros []. Qed.

Lemma acknowledge_read_barrier_declines from id : never_accepts (acknowledge_read_barrier from id).
Proof. unfold acknowledge_read_barrier. decline_walk. apply complete_read_barriers_declines. Qed.

Lemma advance_leader_commit_declines : never_accepts advance_leader_commit.
Proof.
  unfold advance_leader_commit. decline_walk.
  match goal with |- post (?m ≫= ?f) ?s _ => apply (never_accepts_bind m f) end. intros u. decline_walk.
Qed.

Lemma advance_follower_commit_declines i : never_accepts (advance_follower_commit i).
Proof. unfold advance_follower_commit. decline_walk. Qed.

Lemma become_leader_declines : never_accepts become_leader.
Proof.
  unfold become_leader. decline_walk. apply declines_then; [apply probe_peers_declines|]. intros es c' Hes.
  apply post_ret. by constructor.
Qed.

Lemma begin_persistence_declines m a : never_accepts (begin_persistence m a).
Proof. unfold begin_persistence. decline_walk. Qed.

Lemma finish_committed_prefix_declines from i : never_accepts (finish_committed_prefix from i).
Proof.
  unfold finish_committed_prefix. decline_walk. apply declines_then; [apply advance_follower_commit_declines|].
  intros es c' Hes. apply post_get_bind, post_ret, Forall_app. split; [done|]. by repeat constructor.
Qed.

Lemma finish_campaign_declines : never_accepts finish_campaign.
Proof.
  unfold finish_campaign. decline_walk.
  - apply declines_then; [apply become_leader_declines|]. intros es c' Hes. apply post_ret. by constructor.
  - apply post_ret. constructor; [done|]. apply Forall_fmap, Forall_forall. by intros v _.
Qed.

Lemma finish_proposal_declines pid position : never_accepts (finish_proposal pid position).
Proof.
  unfold finish_proposal. decline_walk. apply declines_then; [apply probe_peers_declines|]. intros es c' Hes.
  apply declines_then; [apply advance_leader_commit_declines|]. intros fs c'' Hfs.
  apply post_ret. constructor; [done|]. by apply Forall_app.
Qed.

Lemma finish_plan_activation_declines a inc at_ : never_accepts (finish_plan_activation a inc at_).
Proof.
  unfold finish_plan_activation. intros c. apply post_modify_bind, post_get_bind, post_lift_bind; [|done]. intros n _.
  match goal with |- post (?m ≫= ?f) ?s _ => apply (never_accepts_bind m f) end. intros _ c'.
  destruct (_ && _ && _); [apply probe_peers_declines|]. decline_walk.
  apply post_ret. destruct (negb _); repeat constructor.
Qed.

Lemma answer_declines from id (next_probe : Core (list CoreEffect)) c :
  never_accepts next_probe ->
  post (committed ← advance_leader_commit; reads ← acknowledge_read_barrier from id; more ← next_probe;
        mret (committed ++ reads ++ more)) c declines.
Proof.
  intros Hn. apply declines_then; [apply advance_leader_commit_declines|]. intros es1 c1 H1.
  apply declines_then; [apply acknowledge_read_barrier_declines|]. intros es2 c2 H2.
  apply declines_then; [done|]. intros es3 c3 H3. apply post_ret. cbn. by rewrite !Forall_app.
Qed.

Lemma append_response_declines from response : never_accepts (append_response from response).
Proof.
  intros c. unfold append_response, persist_step_down. apply post_get_bind.
  destruct (is_err _); [decline_walk|]. destruct (response_malformed _); [by apply post_raise|].
  destruct (_ <? _); [apply begin_persistence_declines|]. destruct (_ <? _); [decline_walk|].
  destruct (role c) as [|?|l]; [decline_walk..|]. destruct (probes l !! from); [|decline_walk].
  apply post_lift_bind; [|done]. intros [[proof|] P'] _; [|destruct (_ && _); [apply probe_one_declines|decline_walk]].
  apply post_modify_bind. destruct proof; [| |apply acknowledge_read_barrier_declines].
  all: match goal with |- post (?m ≫= ?f) ?s _ => apply (never_accepts_bind m f) end; intros u c1; apply post_get_bind.
  all: apply answer_declines; destruct (_ <=? _); [apply probe_one_declines|decline_walk].
Qed.

(** The answer the core gives without asking for persistence: everything sent is held. *)
Inductive accepting (c : ConsensusCore) (input : CoreInput) (r : AppendResponse) : Prop :=
| accepting_append from inc q :
    input = Message from inc (MAppendRequest q) -> validate_append_entries q = Ok tt -> aq_term q = current_term c ->
    position_matches c (aq_previous q) (aq_previous_digest q) = true -> log_delta c (aq_entries q) = Ok (None, []) ->
    ar_matched_index r = append_through q -> accepting c input r.

Definition accepts_only (P : AppendResponse -> Prop) (r : result CoreError (list CoreEffect)) (c' : ConsensusCore) : Prop :=
  match r with Ok es => forall to a, Send to (MAppendResponse a) ∈ es -> ar_accepted a = true -> P a | Err _ => True end.

Lemma declines_accepts P r c' : declines r c' -> accepts_only P r c'.
Proof.
  destruct r as [es|e]; [|done]. cbn. intros Hd to a Hin Ha. rewrite Forall_forall in Hd. specialize (Hd _ Hin). cbn in Hd. congruence.
Qed.

Lemma reply_accepts (P : AppendResponse -> Prop) (m : Core (list CoreEffect)) from reply c :
  never_accepts m -> (forall c', ar_accepted reply = true -> forall a, append_reply_effect c' from reply = Send from (MAppendResponse a) -> P a) ->
  post (es ← m; c' ← get_state; mret (es ++ [append_reply_effect c' from reply])) c (accepts_only P).
Proof.
  intros Hm HP. apply post_bind. eapply post_mono; [apply Hm|]. intros [es|e] c' Hes; [|done].
  apply post_get_bind, post_ret. intros to a [Hin|Hin]%elem_of_app Ha; [by eapply (declines_accepts P (Ok es) c')|].
  apply list_elem_of_singleton in Hin. assert (to = from) as -> by (unfold append_reply_effect in Hin; by simplify_eq).
  apply (HP c'); [|done]. unfold append_reply_effect in Hin. by simplify_eq.
Qed.

Lemma append_request_accepts c from inc q :
  post (append_request from q) c (accepts_only (accepting c (Message from inc (MAppendRequest q)))).
Proof.
  unfold append_request. destruct (validate_append_entries q) as [[]|] eqn:Ev; [|done].
  apply post_lift_bind; [|done]. intros _ _.
  assert (forall m : Core (list CoreEffect), never_accepts m ->
    post m c (accepts_only (accepting c (Message from inc (MAppendRequest q))))) as Hd.
  { intros m Hm. eapply post_mono; [apply Hm|]. intros r c'. apply declines_accepts. }
  destruct (negb _); [done|]. apply post_get_bind, post_lift_bind; [|done]. intros i _. destruct (_ || _); [done|].
  destruct (is_err _); [apply Hd; decline_walk|]. destruct (N.ltb_spec (aq_term q) (current_term c)); [apply Hd; decline_walk|].
  destruct (position_matches c _ _) eqn:Em; cbn [negb].
  - apply post_lift_bind; [|done]. intros [truncate suffix] Edelta.
    destruct (_ || _ || _) eqn:Eb; [apply Hd, begin_persistence_declines|]. bool_cases.
    match goal with HT : ~ (truncate <> None) |- _ => apply dec_stable in HT; subst truncate end.
    match goal with HS : suffix = [] |- _ => subst suffix end.
    apply post_modify_bind, post_get_bind, reply_accepts; [apply advance_follower_commit_declines|].
    intros c' _ a Ha. unfold append_reply_effect in Ha. simplify_eq. eapply accepting_append; try done. lia.
  - destruct (_ <? _); [apply Hd, begin_persistence_declines|]. apply Hd. decline_walk.
Qed.

Lemma step_accepts c input :
  (forall id, input <> Persisted id) -> post (step input) c (accepts_only (accepting c input)).
Proof.
  intros Hin. assert (forall m : Core (list CoreEffect), never_accepts m -> post m c (accepts_only (accepting c input))) as Hd.
  { intros m Hm. eapply post_mono; [apply Hm|]. intros r c'. apply declines_accepts. }
  unfold step. apply post_get_bind. destruct (_ && _); [done|].
  destruct input as [| |from inc message|id|pid op v cmd|id|id|pid op|j inc at_|p inc at_|i].
  - apply Hd. unfold start_election. decline_walk. apply begin_persistence_declines.
  - apply Hd, heartbeat_declines.
  - unfold receive. apply post_get_bind, post_lift_bind; [|done]. intros _ _. destruct message as [q|r|q|r|q].
    + apply Hd. unfold vote_request. decline_walk. apply begin_persistence_declines.
    + apply Hd. unfold vote_response, persist_step_down. decline_walk; [apply begin_persistence_declines|apply become_leader_declines].
    + apply append_request_accepts.
    + apply Hd, append_response_declines.
    + apply Hd. unfold receive_committed_prefix. decline_walk; [apply begin_persistence_declines|apply finish_committed_prefix_declines].
  - by destruct (Hin id).
  - apply Hd. unfold propose. decline_walk. apply begin_persistence_declines.
  - apply Hd. unfold begin_read_barrier. decline_walk; [apply complete_read_barriers_declines|apply probe_peers_declines].
  - apply Hd. unfold cancel_read_barrier. intros c1. destruct (_ =? 0); [done|]. apply post_get_bind.
    match goal with |- post (?m ≫= ?f) ?s _ => apply (never_accepts_bind m f) end. intros u. decline_walk.
  - apply Hd. unfold propose. decline_walk. apply begin_persistence_declines.
  - apply Hd. unfold activate_joint_plan. decline_walk. apply begin_persistence_declines.
  - apply Hd. unfold activate_stable_plan. decline_walk. apply begin_persistence_declines.
  - apply Hd. unfold applied_through. decline_walk. apply complete_read_barriers_declines.
Qed.

Lemma after_persistence_accepts p c :
  post (after_persistence p) c (accepts_only (fun a => exists to leader limit reply,
    action p = AppendReply to leader limit reply /\ ar_accepted reply = true /\ ar_matched_index a = ar_matched_index reply)).
Proof.
  match goal with |- post _ _ (accepts_only ?P) =>
    assert (forall m : Core (list CoreEffect), never_accepts m -> post m c (accepts_only P)) as Hd;
      [intros m Hm; eapply post_mono; [apply Hm|]; intros r c'; apply declines_accepts|] end.
  unfold after_persistence. destruct (action p) as [|to granted|to leader limit reply|pid pos| |from limit|j inc|s inc].
  - apply Hd, finish_campaign_declines.
  - apply Hd. decline_walk.
  - apply post_modify_bind, reply_accepts.
    + destruct (ar_accepted reply); [apply advance_follower_commit_declines|decline_walk].
    + intros c' Ha a Hs. exists to, leader, limit, reply. unfold append_reply_effect in Hs. by simplify_eq.
  - apply Hd, finish_proposal_declines.
  - apply Hd. decline_walk.
  - apply Hd, finish_committed_prefix_declines.
  - apply Hd. decline_walk. apply finish_plan_activation_declines.
  - apply Hd. decline_walk. apply finish_plan_activation_declines.
Qed.

End asking.
