(* ===== verification/CoreSample.v ===== *)
(** Concrete runs of one core and the instances of its guarantees on them. *)

From S2P Require Import Prelude VoterSet Predicate Plan Digest Compile FlatPlan Joint Types Membership MembershipCommand Probes History Core CoreRequest CoreLog CoreInv CoreEffects CoreSafety CoreExact.
From stdpp Require Import prelude gmap.
#[local] Open Scope N_scope.
#[local] Existing Instance Sample.sha.

Module SampleCore.

Definition no_family : FamilyProof := {| minimal_quorums := []; minimal_cut_sets := [] |}.
Definition compiled (s : QuorumPlanSpec) : CompiledQuorumPlan :=
  match compile_plan s with
  | Ok p => p
  | Err _ => {| spec := s; ordered_voters := []; election_proof := no_family; commit_proof := no_family;
                read_proof := no_family; plan_proof_digest := [] |}
  end.
(** Voters 1, 2, 3 and learner 4. *)
Definition base : CompiledQuorumPlan := compiled Sample.three_voters.
Definition incarnations : gmap N N := {[1 := 1; 2 := 1; 3 := 1; 4 := 1]}.
Definition config_for (n : NodeId) : CoreConfig :=
  {| partition_id := 1; local_node_id := n; local_incarnation := 1; plan := base;
     member_incarnations := incarnations |}.

Definition start (n : NodeId) : ConsensusCore :=
  {| config := config_for n; active_plan := Stable base; membership_history := ∅; current_term := 0;
     voted_for := None; log := []; commit_index := 0; applied_index := 0; leader_id := None;
     role := Following; pending := None; next_persistence_id := 1; next_append_probe_id := 1;
     replication_default := Budget.default; replication_peers := ∅ |}.

Definition run (c : ConsensusCore) (inputs : list CoreInput) : ConsensusCore :=
  foldl (fun c input => snd (step input c)) c inputs.

Definition effects_of (input : CoreInput) (c : ConsensusCore) : list CoreEffect :=
  match fst (step input c) with Ok es => es | Err _ => [] end.

Definition digest : bytes := plan_proof_digest base.

Definition ask_vote (t : N) : CoreInput :=
  Message 1 1 (MVoteRequest {| vq_term := t; vq_candidate := 1; vq_candidate_incarnation := 1;
    vq_last_log := GENESIS; vq_epoch := 1; vq_plan_digest := digest |}).

Definition entry_of (t i op version : N) (cmd : bytes) : LogEntry :=
  {| entry_position := {| term := t; index := i |}; operation_id := op; command_version := version;
     command := cmd; command_digest := command_digest_of version cmd |}.

Definition append_from (leader t : N) (previous : LogPosition) (previous_digest : bytes) (entries : list LogEntry)
    (commit epoch : N) (plan_digest : bytes) : CoreInput :=
  Message leader 1 (MAppendRequest {| aq_probe_id := 1; aq_term := t; aq_leader := leader;
    aq_leader_incarnation := 1; aq_previous := previous; aq_previous_digest := previous_digest;
    aq_entries := entries; aq_leader_commit_index := commit; aq_read_barrier_id := None;
    aq_epoch := epoch; aq_plan_digest := plan_digest |}).

(** Node 1 elected with the vote of node 2. *)
Definition grant : CoreInput :=
  Message 2 1 (MVoteResponse {| vr_term := 1; vr_granted := true; vr_epoch := 1; vr_plan_digest := digest |}).
Definition elected : ConsensusCore := run (start 1) [ElectionTimeout; Persisted 1; grant].
(** ... with its term confirmation appended locally. *)
Definition proposed : ConsensusCore := run elected [ConfirmTerm 1 9; Persisted 2].
Definition first_entry : LogEntry := entry_of 1 1 9 TERM_CONFIRMATION_VERSION TERM_CONFIRMATION_BYTES.

(** Node 2 answers the replication probe node 1 sent it with that entry. *)
Definition probe_of (peer : NodeId) (c : ConsensusCore) : N :=
  match role c with
  | Leading l => default 0 (p ← probes l !! peer; latest_replication p)
  | _ => 0
  end.
Definition matched_answer : CoreInput :=
  Message 2 1 (MAppendResponse {| ar_probe_id := Some (probe_of 2 proposed);
    ar_matched_digest := entry_digest first_entry; ar_term := 1; ar_accepted := true; ar_matched_index := 1;
    ar_next_index_hint := 2; ar_read_barrier_id := None; ar_epoch := 1; ar_plan_digest := digest |}).
Definition committed : ConsensusCore := run proposed [matched_answer].

Lemma run_reachable c inputs :
  reachable c -> Forall input_built inputs -> reachable (run c inputs).
Proof.
  intros Hc Hi. revert c Hc. induction Hi as [|i inputs Hi _ IH]; intros c Hc; [done|]. cbn. apply IH.
  by apply reach_step.
Qed.

Lemma base_built : plan_built base.
Proof.
  unfold plan_built, base, compiled. destruct (compile_plan Sample.three_voters) as [p|e] eqn:E.
  - by apply compile_plan_built in E.
  - vm_compute in E. discriminate E.
Qed.

Lemma start_reachable n : n ∈ [1; 2; 3; 4] -> reachable (start n).
Proof.
  intros Hn. apply (reach_restore (config_for n) durable_default); [exact base_built|].
  rewrite !elem_of_cons, elem_of_nil in Hn. destruct_or! Hn; subst; try done; vm_compute; reflexivity.
Qed.

Lemma step_of input c :
  is_ok (fst (step input c)) = true -> step input c = (Ok (effects_of input c), snd (step input c)).
Proof. unfold effects_of. destruct (step input c) as [[es|e] c']; [done|intros [=]]. Qed.

(** Node 2 with a vote request or an append waiting for persistence. *)
Definition voting : ConsensusCore := run (start 2) [ask_vote 1].
Definition receiving : ConsensusCore := run (start 2) [append_from 1 1 GENESIS zero32 [first_entry] 0 1 digest].
Definition proposing : ConsensusCore := run elected [ConfirmTerm 1 9].
(** Node 1 waiting for one more confirmation of a read. *)
Definition reading : ConsensusCore := run committed [AppliedThrough 1; BeginReadBarrier 5].
Definition contact_of (peer : NodeId) (c : ConsensusCore) : N :=
  match role c with
  | Leading l => default 0 (p ← probes l !! peer; head (ascending (dom (contacts p))))
  | _ => 0
  end.
Definition read_answer : CoreInput :=
  Message 2 1 (MAppendResponse {| ar_probe_id := Some (contact_of 2 reading);
    ar_matched_digest := entry_digest first_entry; ar_term := 1; ar_accepted := true; ar_matched_index := 1;
    ar_next_index_hint := 2; ar_read_barrier_id := Some 5; ar_epoch := 1; ar_plan_digest := digest |}).

Ltac reach_sample :=
  repeat match goal with
  | |- reachable (run _ _) => apply run_reachable; [|repeat constructor]
  | |- reachable (start _) => apply start_reachable; repeat constructor
  | |- reachable ?c => unfold c
  end.

(** Poses that the core [c] is reachable ([HR]) and what the input does to it ([HS]). *)
Ltac sample_step input c :=
  assert (reachable c) as HR by reach_sample; assert (input_built input) as HB by exact I;
  pose proof (step_of input c ltac:(vm_compute; reflexivity)) as HS.

End SampleCore.

(** ** Witnesses *)

Lemma core_invariant_witness :
  role_of SampleCore.committed = Leader /\ commit_index SampleCore.committed = 1 /\
  applied_index SampleCore.committed <= commit_index SampleCore.committed.
Proof.
  split; [vm_compute; reflexivity|]. split; [vm_compute; reflexivity|].
  refine (proj1 (proj2 (core_invariant SampleCore.committed _))). SampleCore.reach_sample.
Defined.

Lemma step_monotone_witness :
  exists r c', step SampleCore.matched_answer SampleCore.proposed = (r, c') /\
    commit_index SampleCore.proposed <= commit_index c'.
Proof.
  destruct (step SampleCore.matched_answer SampleCore.proposed) as [r c'] eqn:E. exists r, c'. split; [reflexivity|].
  refine (proj1 (proj2 (proj2 (step_monotone SampleCore.proposed SampleCore.matched_answer r c' _ I E)))).
  SampleCore.reach_sample.
Defined.

Lemma durable_state_changes_only_when_persisted_witness :
  exists r c', step (Persisted 1) SampleCore.voting = (r, c') /\
    (current_term c' = 0 \/ exists p, pending SampleCore.voting = Some p /\
       voted_for c' = vote_after (mutation p) (voted_for SampleCore.voting)).
Proof.
  destruct (step (Persisted 1) SampleCore.voting) as [r c'] eqn:E. exists r, c'. split; [reflexivity|].
  destruct (durable_state_changes_only_when_persisted SampleCore.voting (Persisted 1) r c') as [Hs|Hs].
  - SampleCore.reach_sample.
  - exact I.
  - exact E.
  - left. destruct Hs as (Ht & _). rewrite Ht. vm_compute. reflexivity.
  - right. destruct Hs as (p & Hp & _ & _ & _ & Hv & _). exists p. auto.
Defined.

Lemma persistence_request_is_alone_witness :
  SampleCore.effects_of (SampleCore.ask_vote 1) (SampleCore.start 2) = [Persist 1 (vote_mutation 1 (Some 1))] /\
  voted_for (snd (step (SampleCore.ask_vote 1) (SampleCore.start 2))) = None.
Proof.
  assert (SampleCore.effects_of (SampleCore.ask_vote 1) (SampleCore.start 2) = [Persist 1 (vote_mutation 1 (Some 1))]) as E
    by (vm_compute; reflexivity).
  split; [exact E|].
  SampleCore.sample_step (SampleCore.ask_vote 1) (SampleCore.start 2).
  assert (Persist 1 (vote_mutation 1 (Some 1)) ∈ SampleCore.effects_of (SampleCore.ask_vote 1) (SampleCore.start 2)) as HI
    by (rewrite E; constructor).
  pose proof (persistence_request_is_alone _ _ _ _ _ _ HR HB HS HI) as HH.
  destruct HH as (_ & _ & _ & _ & Hv & _). exact Hv.
Defined.

Lemma granted_vote_is_durable_witness :
  exists r, SampleCore.effects_of (Persisted 1) SampleCore.voting = [Send 1 (MVoteResponse r)] /\ vr_granted r = true /\
    voted_for (snd (step (Persisted 1) SampleCore.voting)) = Some 1.
Proof.
  exists {| vr_term := 1; vr_granted := true; vr_epoch := 1; vr_plan_digest := SampleCore.digest |}.
  assert (SampleCore.effects_of (Persisted 1) SampleCore.voting =
    [Send 1 (MVoteResponse {| vr_term := 1; vr_granted := true; vr_epoch := 1; vr_plan_digest := SampleCore.digest |})]) as E
    by (vm_compute; reflexivity).
  split; [exact E|]. split; [reflexivity|].
  SampleCore.sample_step (Persisted 1) SampleCore.voting.
  assert (Send 1 (MVoteResponse {| vr_term := 1; vr_granted := true; vr_epoch := 1; vr_plan_digest := SampleCore.digest |})
    ∈ SampleCore.effects_of (Persisted 1) SampleCore.voting) as HI by (rewrite E; constructor).
  exact (proj1 (granted_vote_is_durable _ _ _ _ _ _ HR HB HS HI eq_refl)).
Defined.

Definition sample_reply : AppendResponse :=
  {| ar_probe_id := Some 1; ar_matched_digest := entry_digest SampleCore.first_entry; ar_term := 1; ar_accepted := true;
     ar_matched_index := 1; ar_next_index_hint := 2; ar_read_barrier_id := None; ar_epoch := 1;
     ar_plan_digest := SampleCore.digest |}.

Lemma accepted_append_is_held_witness :
  SampleCore.effects_of (Persisted 1) SampleCore.receiving = [Send 1 (MAppendResponse sample_reply)] /\
  ar_term sample_reply = current_term (snd (step (Persisted 1) SampleCore.receiving)).
Proof.
  assert (SampleCore.effects_of (Persisted 1) SampleCore.receiving = [Send 1 (MAppendResponse sample_reply)]) as E
    by (vm_compute; reflexivity).
  split; [exact E|].
  SampleCore.sample_step (Persisted 1) SampleCore.receiving.
  assert (Send 1 (MAppendResponse sample_reply) ∈ SampleCore.effects_of (Persisted 1) SampleCore.receiving) as HI
    by (rewrite E; constructor).
  exact (proj1 (accepted_append_is_held _ _ _ _ _ _ HR HB HS HI eq_refl)).
Defined.

Lemma append_request_is_log_slice_witness :
  exists q, Send 2 (MAppendRequest q) ∈ SampleCore.effects_of (Persisted 2) SampleCore.proposing /\
    log_slice (snd (step (Persisted 2) SampleCore.proposing)) (index (aq_previous q)) (aq_entries q).
Proof.
  destruct (SampleCore.effects_of (Persisted 2) SampleCore.proposing) as [|e0 [|e1 rest]] eqn:E;
    [vm_compute in E; discriminate E|vm_compute in E; discriminate E|].
  assert (match e1 with Send 2 (MAppendRequest _) => True | _ => False end) as He.
  { assert (nth_error (SampleCore.effects_of (Persisted 2) SampleCore.proposing) 1 = Some e1) as Hn by (rewrite E; reflexivity).
    vm_compute in Hn. injection Hn as <-. exact I. }
  destruct e1 as [|to m| | | | |]; try (exfalso; exact He).
  destruct to as [|[|[]|]]; try (exfalso; exact He). destruct m as [| |q| |]; try (exfalso; exact He).
  exists q. split; [constructor; constructor|].
  SampleCore.sample_step (Persisted 2) SampleCore.proposing.
  assert (Send 2 (MAppendRequest q) ∈ SampleCore.effects_of (Persisted 2) SampleCore.proposing) as HI
    by (rewrite E; constructor; constructor).
  exact (proj2 (proj2 (proj2 (proj2 (append_request_is_log_slice _ _ _ _ _ _ HR HB HS HI))))).
Defined.

Lemma commit_ready_is_committed_witness :
  CommitReady [SampleCore.first_entry] ∈ SampleCore.effects_of SampleCore.matched_answer SampleCore.proposed /\
  exists lo, lo + 1 <= commit_index (snd (step SampleCore.matched_answer SampleCore.proposed)).
Proof.
  assert (SampleCore.effects_of SampleCore.matched_answer SampleCore.proposed = [CommitReady [SampleCore.first_entry]]) as E
    by (vm_compute; reflexivity).
  split; [rewrite E; constructor|].
  SampleCore.sample_step SampleCore.matched_answer SampleCore.proposed.
  assert (CommitReady [SampleCore.first_entry] ∈ SampleCore.effects_of SampleCore.matched_answer SampleCore.proposed) as HI
    by (rewrite E; constructor).
  pose proof (commit_ready_is_committed _ _ _ _ _ HR HB HS HI) as HH. destruct HH as (lo & Hlo & _). exists lo. exact Hlo.
Defined.

Lemma released_read_is_applied_witness :
  SampleCore.effects_of SampleCore.read_answer SampleCore.reading = [ReadBarrierReady 5 1] /\
  1 <= applied_index (snd (step SampleCore.read_answer SampleCore.reading)).
Proof.
  assert (SampleCore.effects_of SampleCore.read_answer SampleCore.reading = [ReadBarrierReady 5 1]) as E
    by (vm_compute; reflexivity).
  split; [exact E|].
  SampleCore.sample_step SampleCore.read_answer SampleCore.reading.
  assert (ReadBarrierReady 5 1 ∈ SampleCore.effects_of SampleCore.read_answer SampleCore.reading) as HI
    by (rewrite E; constructor).
  exact (proj1 (released_read_is_applied _ _ _ _ _ _ HR HB HS HI)).
Defined.

Lemma leader_commit_exact_witness :
  exists l, role SampleCore.proposed = Leading l /\
    exists es c', advance_leader_commit SampleCore.proposed = (Ok es, c') /\ commit_index SampleCore.proposed <= commit_index c'.
Proof.
  destruct (role SampleCore.proposed) as [|v|l] eqn:E; [vm_compute in E; discriminate E..|].
  exists l. split; [reflexivity|].
  assert (reachable SampleCore.proposed) as HR by SampleCore.reach_sample.
  pose proof (leader_commit_exact SampleCore.proposed l HR E) as HH. destruct HH as (es & c' & Hr & Hc & _).
  exists es, c'. auto.
Defined.

Lemma read_release_exact_witness :
  exists l b, role SampleCore.reading = Leading l /\ read_barriers l !! 5 = Some b /\
    exists es c', acknowledge_read_barrier 2 (Some 5) SampleCore.reading = (Ok es, c').
Proof.
  destruct (role SampleCore.reading) as [|v|l] eqn:E; [vm_compute in E; discriminate E..|].
  assert (match role SampleCore.reading with Leading l => bool_decide (is_Some (read_barriers l !! 5)) | _ => false end = true)
    as Hb by (vm_compute; reflexivity).
  rewrite E in Hb. apply bool_decide_eq_true in Hb. destruct (read_barriers l !! 5) as [b|] eqn:Eb; [|destruct Hb as [? Hb]; discriminate Hb].
  exists l, b. split; [reflexivity|]. split; [exact Eb|].
  destruct (read_release_exact SampleCore.reading l 2 5 b SampleCore.first_entry E) as (es & c' & Hr & _);
    [discriminate|exact Eb|vm_compute; reflexivity|vm_compute; reflexivity|]. exists es, c'. exact Hr.
Defined.

Lemma restart_exact_witness :
  exists c0, restore (SampleCore.config_for 2) (disk_of (SampleCore.run SampleCore.receiving [Persisted 1])) = Ok c0.
Proof.
  apply (restart_exact (SampleCore.config_for 2)).
  - SampleCore.reach_sample.
  - split_and!; [done| |vm_compute; reflexivity]. apply (bool_decide_unpack _). vm_compute. exact I.
  - vm_compute. reflexivity.
  - split.
    + vm_compute. repeat split; discriminate.
    + assert (voted_for (SampleCore.run SampleCore.receiving [Persisted 1]) = None) as -> by (vm_compute; reflexivity). done.
Defined.
