(* ===== verification/Network.v ===== *)
(** A partition as its cores see it: any number of nodes exchanging messages that may be
    lost, repeated, delayed or reordered, each with a disk its driver writes before it
    acknowledges a persistence request, crashing and restarting at any moment. *)

From S2P Require Import Prelude VoterSet Predicate Plan Digest Compile FlatPlan Joint Types Membership MembershipCommand Probes History Core CoreRequest CoreLog CoreInv CoreEffects CoreSafety CoreElection.
From stdpp Require Import prelude gmap.
#[local] Open Scope N_scope.

(** An authenticated message: the transport vouches for the sender and its incarnation. *)
Record Packet := {
  sent_by : NodeId;
  sent_incarnation : N;
  sent_to : NodeId;
  content : CoreMessage;
}.

Record Node := {
  running : option ConsensusCore;
  disk : DurableCoreState;
  (** The mutation the running core waits for is already on the disk. *)
  written : bool;
}.

(** [ballots] (voter, term, candidate) and [elections] (leader, term, plan) only record what
    happened; no action reads them. *)
Record World := {
  nodes : gmap NodeId Node;
  packets : list Packet;
  ballots : list (NodeId * N * NodeId);
  elections : list (NodeId * N * ActiveQuorumPlan);
}.

Inductive Action :=
| Receive (n : NodeId) (k : nat)
| Local (n : NodeId) (input : CoreInput)
| WriteDisk (n : NodeId)
| Acknowledge (n : NodeId)
| SetBudgets (n : NodeId) (default_ : ReplicationBatchBudget) (overrides : gmap NodeId ReplicationBatchBudget)
| Crash (n : NodeId)
| Restart (n : NodeId) (cfg : CoreConfig) (active : ActiveQuorumPlan) (applied : N).

Definition write_disk (m : DurableMutation) (d : DurableCoreState) : DurableCoreState :=
  {| durable_term := term_after m (durable_term d); durable_vote := vote_after m (durable_vote d);
     durable_log := log_after m (durable_log d); durable_applied := durable_applied d |}.

Definition ballot_of (n : NodeId) (m : DurableMutation) : list (NodeId * N * NodeId) :=
  match vote_state m with Some (t, Some x) => [(n, t, x)] | _ => [] end.

Definition packets_of (n : NodeId) (c : ConsensusCore) (r : result CoreError (list CoreEffect)) : list Packet :=
  match r with
  | Ok es => omap (fun e => match e with
      | Send to m => Some {| sent_by := n; sent_incarnation := local_incarnation (config c); sent_to := to; content := m |}
      | _ => None
      end) es
  | Err _ => []
  end.

Definition election_of (n : NodeId) (before after : ConsensusCore) : list (NodeId * N * ActiveQuorumPlan) :=
  if bool_decide (role_of after = Leader) && negb (bool_decide (role_of before = Leader))
  then [(n, current_term after, active_plan after)] else [].

Definition set_node (n : NodeId) (nd : Node) (w : World) : World :=
  {| nodes := <[n := nd]> (nodes w); packets := packets w; ballots := ballots w; elections := elections w |}.

Section network.
Context `{Sha256}.

(** Node [n] consumes one input and its messages leave. *)
Definition drive (n : NodeId) (nd : Node) (c : ConsensusCore) (input : CoreInput) (w : World) : World :=
  let '(r, c') := step input c in
  {| nodes := <[n := {| running := Some c'; disk := disk nd;
                        written := match input with Persisted _ => false | _ => written nd end |}]> (nodes w);
     packets := packets_of n c' r ++ packets w; ballots := ballots w;
     elections := election_of n c c' ++ elections w |}.

(** What the driver may feed a core on its own: everything but messages and
    acknowledgements. *)
Definition local_input (input : CoreInput) : bool :=
  match input with Message _ _ _ | Persisted _ => false | _ => true end.

Definition act (a : Action) (w : World) : option World :=
  match a with
  | Receive n k =>
      nd ← nodes w !! n; c ← running nd; p ← packets w !! k;
      if sent_to p =? n then Some (drive n nd c (Message (sent_by p) (sent_incarnation p) (content p)) w) else None
  | Local n input =>
      nd ← nodes w !! n; c ← running nd;
      if local_input input then Some (drive n nd c input w) else None
  | WriteDisk n =>
      nd ← nodes w !! n; c ← running nd; p ← pending c;
      if written nd then None
      else Some {| nodes := <[n := {| running := Some c; disk := write_disk (mutation p) (disk nd); written := true |}]> (nodes w);
                   packets := packets w; ballots := ballot_of n (mutation p) ++ ballots w; elections := elections w |}
  | Acknowledge n =>
      nd ← nodes w !! n; c ← running nd; p ← pending c;
      if written nd then Some (drive n nd c (Persisted (pending_id p)) w) else None
  | SetBudgets n default_ overrides =>
      nd ← nodes w !! n; c ← running nd;
      Some (set_node n {| running := Some (snd (set_replication_budgets default_ overrides c)); disk := disk nd;
                          written := written nd |} w)
  | Crash n =>
      nd ← nodes w !! n; Some (set_node n {| running := None; disk := disk nd; written := false |} w)
  | Restart n cfg active applied =>
      nd ← nodes w !! n;
      match running nd, restore_active cfg {| durable_term := durable_term (disk nd); durable_vote := durable_vote (disk nd);
                                              durable_log := durable_log (disk nd); durable_applied := applied |} active with
      | None, Ok c => if local_node_id cfg =? n
                      then Some (set_node n {| running := Some c; disk := disk nd; written := false |} w) else None
      | _, _ => None
      end
  end.

(** Plans reach a node only through their proving constructors. *)
Definition action_built (a : Action) : Prop :=
  match a with
  | Local _ input => input_built input
  | Restart _ cfg active _ => plan_built (plan cfg) /\ active_built active
  | _ => True
  end.

(** Nodes start stopped, with empty disks and nothing sent. *)
Definition initial (members : gset NodeId) : World :=
  {| nodes := gset_to_gmap {| running := None; disk := durable_default; written := false |} members;
     packets := []; ballots := []; elections := [] |}.

Inductive possible : World -> Prop :=
| possible_initial members : possible (initial members)
| possible_act w a w' : possible w -> action_built a -> act a w = Some w' -> possible w'.

(** ** The invariant of the network *)

(** The durable fields of the core, as they will be on the disk once its request is
    written. *)
Definition in_sync (nd : Node) (c : ConsensusCore) : Prop :=
  if written nd
  then exists p, pending c = Some p /\ durable_term (disk nd) = term_after (mutation p) (current_term c) /\
         durable_vote (disk nd) = vote_after (mutation p) (voted_for c)
  else durable_term (disk nd) = current_term c /\ durable_vote (disk nd) = voted_for c.

Record core_backed (w : World) (n : NodeId) (c : ConsensusCore) : Prop := {
  backed_ok : core_ok c;
  backed_id : local_id c = n;
  backed_vote : forall x, voted_for c = Some x -> (n, current_term c, x) ∈ ballots w;
  backed_votes : forall votes v, role c = Campaigning votes -> v ∈ votes -> (v, current_term c, n) ∈ ballots w;
  backed_lead : role_of c = Leader -> exists a, (n, current_term c, a) ∈ elections w;
}.

Record world_ok (w : World) : Prop := {
  world_running : forall n nd c, nodes w !! n = Some nd -> running nd = Some c -> core_backed w n c /\ in_sync nd c;
  world_disk : forall n nd x, nodes w !! n = Some nd -> durable_vote (disk nd) = Some x ->
    (n, durable_term (disk nd), x) ∈ ballots w;
  world_ballot : forall n t x, (n, t, x) ∈ ballots w -> exists nd, nodes w !! n = Some nd /\
    (t < durable_term (disk nd) \/ (t = durable_term (disk nd) /\ durable_vote (disk nd) = Some x));
  world_unique : forall n t x y, (n, t, x) ∈ ballots w -> (n, t, y) ∈ ballots w -> x = y;
  world_packets : forall p r, p ∈ packets w -> content p = MVoteResponse r -> vr_granted r = true ->
    (sent_by p, vr_term r, sent_to p) ∈ ballots w;
  world_elections : forall n t a, (n, t, a) ∈ elections w -> active_built a /\
    exists votes, Active.satisfies a Election votes = true /\ forall v, v ∈ votes -> (v, t, n) ∈ ballots w;
}.

(** Ballots and elections are never forgotten. *)
Lemma core_backed_grow w w' n c :
  ballots w ⊆ ballots w' -> elections w ⊆ elections w' -> core_backed w n c -> core_backed w' n c.
Proof. intros Hb He []. split; eauto. intros Hl. destruct (backed_lead0 Hl) as [a Ha]. eauto. Qed.

(** ** One input *)

Lemma supporter_ballot w n c input c' v :
  world_ok w -> core_backed w n c -> local_id c' = n ->
  (forall x, voted_for c' = Some x -> (n, current_term c', x) ∈ ballots w) ->
  (forall from inc r, input = Message from inc (MVoteResponse r) -> vr_granted r = true -> (from, vr_term r, n) ∈ ballots w) ->
  supporter c input c' v -> (v, current_term c', n) ∈ ballots w.
Proof.
  intros Hw Hc Hid Hvote Hmsg [votes Er Hin Et|Ev Hv|inc r Ei Hg Ht].
  - rewrite Et. by eapply backed_votes.
  - subst v. rewrite Hid in *. auto.
  - rewrite <- Ht. eauto.
Qed.

Lemma packets_granted n c es p r :
  Forall (effect_ok c) es -> p ∈ packets_of n c (Ok es) -> content p = MVoteResponse r -> vr_granted r = true ->
  sent_by p = n /\ vr_term r = current_term c /\ voted_for c = Some (sent_to p).
Proof.
  intros He Hp Hr Hg. cbn in Hp. apply list_elem_of_omap in Hp as (e & Hin & Hs).
  rewrite Forall_forall in He. specialize (He e Hin). destruct e; simplify_eq. cbn in Hr. subst message.
  destruct He as [Ht Hv]. auto.
Qed.

(** An input other than an acknowledgement leaves the durable fields and any pending
    request alone. *)
Lemma input_unsaved c input r c' :
  core_ok c -> input_built input -> (forall id, input <> Persisted id) -> step input c = (r, c') ->
  current_term c' = current_term c /\ voted_for c' = voted_for c /\ local_id c' = local_id c /\
  (forall p, pending c = Some p -> pending c' = Some p).
Proof.
  intros Hok Hi Hne Hs. pose proof (step_cases c input Hok Hi) as Hcase. unfold post in Hcase. rewrite Hs in Hcase.
  cbn in Hcase. destruct Hcase as [r c' Hq _ _|m a Hn _|p r c' _ Ei _ _ _ _]; [|split_and!; try done; congruence|by apply Hne in Ei].
  destruct Hq. unfold local_id. rewrite quiet_config. split_and!; congruence.
Qed.

(** The acknowledgement of the pending request completes it. *)
Lemma acknowledged_completes c p r c' :
  core_ok c -> pending c = Some p -> step (Persisted (pending_id p)) c = (r, c') -> completed c p c'.
Proof.
  intros [Hb Hr Hp] Ep. unfold pending_ok in Hp. rewrite Ep in Hp. unfold step, mbind at 1, SE_bind at 1, get_state.
  cbn [negb]. rewrite andb_false_r, (finish_persistence_run c p Hb Ep Hp). intros Hs.
  pose proof (after_persistence_completed c p Hb Hp) as Hd. unfold post in Hd. by rewrite Hs in Hd.
Qed.

(** The inputs of [act]: a delivered message, a local input, or the acknowledgement of a
    written request. *)
Definition fed (nd : Node) (c : ConsensusCore) (input : CoreInput) : Prop :=
  (forall id, input <> Persisted id) \/
  (written nd = true /\ exists p, pending c = Some p /\ input = Persisted (pending_id p)).

(** After a fed input the core still agrees with its disk, and its vote is recorded. *)
Lemma fed_sync w n nd c input r c' :
  world_ok w -> nodes w !! n = Some nd -> running nd = Some c -> input_built input -> fed nd c input ->
  step input c = (r, c') ->
  local_id c' = n /\ (forall x, voted_for c' = Some x -> (n, current_term c', x) ∈ ballots w) /\
  in_sync {| running := Some c'; disk := disk nd;
             written := match input with Persisted _ => false | _ => written nd end |} c'.
Proof.
  intros Hw Hn Hrun Hi Hfed Hs. destruct (world_running w Hw n nd c Hn Hrun) as [[Hok Hid Hvote _ _] Hsync].
  destruct Hfed as [Hne|(Ewr & p & Ep & ->)].
  - destruct (input_unsaved c input r c' Hok Hi Hne Hs) as (Et & Ev & El & Hpend). rewrite Et, Ev, El.
    split_and!; auto.
    assert (match input with Persisted _ => false | _ => written nd end = written nd) as ->
      by (destruct input; try done; by destruct (Hne id)).
    unfold in_sync in *. cbn [written disk]. destruct (written nd); [|by rewrite Et, Ev].
    destruct Hsync as (p & Ep & Hdt & Hdv). exists p. rewrite Et, Ev. auto.
  - pose proof (acknowledged_completes c p r c' Hok Ep Hs) as Hd. unfold in_sync in *. rewrite Ewr in Hsync.
    destruct Hsync as (p' & Ep' & Hdt & Hdv). rewrite Ep in Ep'. injection Ep' as <-. cbn [written disk].
    rewrite (done_term _ _ _ Hd), (done_vote _ _ _ Hd), <- Hdt, <- Hdv. split_and!; auto.
    + unfold local_id. rewrite (done_config _ _ _ Hd). unfold config_next. by destruct (action p).
    + intros x Hx. by eapply world_disk.
Qed.

Lemma election_of_cases n c c' m t a :
  (m, t, a) ∈ election_of n c c' ->
  m = n /\ t = current_term c' /\ a = active_plan c' /\ role_of c' = Leader /\ role_of c <> Leader.
Proof.
  unfold election_of. destruct (_ && _) eqn:E; [|intros Hin; by apply elem_of_nil in Hin].
  intros Hin%list_elem_of_singleton. bool_cases. by simplify_eq.
Qed.

Lemma drive_ok w n nd c input :
  world_ok w -> nodes w !! n = Some nd -> running nd = Some c -> input_built input -> fed nd c input ->
  (forall from inc r, input = Message from inc (MVoteResponse r) -> vr_granted r = true -> (from, vr_term r, n) ∈ ballots w) ->
  world_ok (drive n nd c input w).
Proof.
  intros Hw Hn Hrun Hi Hfed Hmsg. unfold drive. destruct (step input c) as [r c'] eqn:Hs.
  destruct (world_running w Hw n nd c Hn Hrun) as [Hc Hsync]. pose proof (backed_ok _ _ _ Hc) as Hok.
  destruct (fed_sync w n nd c input r c' Hw Hn Hrun Hi Hfed Hs) as (Hid & Hvote & Hsync').
  assert (core_ok c') as Hok'.
  { pose proof (step_cases c input Hok Hi) as Hcase. unfold post in Hcase. rewrite Hs in Hcase. by eapply step_case_ok. }
  destruct (step_campaign c input r c' Hok Hi Hs) as [Hvotes Hleads].
  assert (forall v, supporter c input c' v -> (v, current_term c', n) ∈ ballots w) as Hsup
    by (intros v; by apply supporter_ballot).
  set (w' := {| nodes := _ |}).
  assert (core_backed w' n c') as Hc'.
  { split; [done|done|exact Hvote|by eauto|]. intros El. cbn [elections w']. unfold election_of.
    rewrite bool_decide_eq_true_2 by done. cbn [andb]. destruct (decide (role_of c = Leader)) as [El0|Hn0].
    - rewrite bool_decide_eq_true_2 by done. cbn [negb app]. destruct (Hleads El) as [[_ Et]|[Hnl _]]; [|done].
      destruct (backed_lead _ _ _ Hc El0) as [a Ha]. exists a. by rewrite Et.
    - rewrite bool_decide_eq_false_2 by done. cbn. eexists. by left. }
  split.
  - intros m md cm Hm Hrm. cbn [nodes w'] in Hm. apply lookup_insert_Some in Hm as [[<- <-]|[Hne Hm]]; [cbn in Hrm; by simplify_eq|].
    destruct (world_running w Hw m md cm Hm Hrm) as [Hcm Hsm]. split; [|done].
    apply (core_backed_grow w); [done|cbn; set_solver|done].
  - intros m md x Hm Hx. cbn [nodes w'] in Hm. apply lookup_insert_Some in Hm as [[<- <-]|[Hne Hm]]; [exact (world_disk w Hw n nd x Hn Hx)|exact (world_disk w Hw m md x Hm Hx)].
  - intros m t x Hin. destruct (world_ballot w Hw m t x Hin) as (md & Hm & Hd). cbn [nodes w'].
    destruct (decide (m = n)) as [->|Hne]; [|exists md; by rewrite lookup_insert_ne].
    rewrite lookup_insert_eq. rewrite Hn in Hm. injection Hm as <-. by eexists.
  - apply Hw.
  - intros p q Hin Hq Hg. cbn [packets w'] in Hin. apply elem_of_app in Hin as [Hin|Hin]; [|exact (world_packets w Hw p q Hin Hq Hg)].
    destruct r as [es|e]; [|by apply elem_of_nil in Hin].
    destruct (step_effects c input es c' Hok Hi Hs) as [(m & a & -> & _)|He]; [by apply elem_of_nil in Hin|].
    destruct (packets_granted n c' es p q He Hin Hq Hg) as (-> & -> & Hv). by apply Hvote.
  - intros m t a Hin. cbn [elections w'] in Hin. apply elem_of_app in Hin as [Hin|Hin]; [|exact (world_elections w Hw m t a Hin)].
    apply election_of_cases in Hin as (-> & -> & -> & El & Hnl). split; [apply Hok'|].
    destruct (Hleads El) as [[El0 _]|[_ (votes & Hq & Hv)]]; [done|]. exists votes. split; [done|]. auto.
Qed.

(** ** Disks *)

(** What writing the pending mutation does to the recorded vote. *)
Lemma write_ballots n c p d :
  core_ok c -> pending c = Some p -> durable_term d = current_term c -> durable_vote d = voted_for c ->
  let d' := write_disk (mutation p) d in
  (forall t x, (n, t, x) ∈ ballot_of n (mutation p) -> t = durable_term d' /\ durable_vote d' = Some x) /\
  (forall x, durable_vote d' = Some x ->
     (n, durable_term d', x) ∈ ballot_of n (mutation p) \/ (durable_term d' = durable_term d /\ durable_vote d = Some x)) /\
  durable_term d <= durable_term d' /\
  (durable_term d' = durable_term d -> forall x, durable_vote d = Some x -> durable_vote d' = Some x).
Proof.
  intros [Hb _ Hp] Ep Et Ev. unfold pending_ok in Hp. rewrite Ep in Hp.
  pose proof (request_sound _ _ _ Hb Hp) as [_ _ _ _ St Sv _]. rewrite <- Et, <- Ev in *. cbn.
  unfold ballot_of, vote_after, term_after in *. destruct (vote_state (mutation p)) as [[t [v|]]|]; split_and!; auto.
  - intros t' x [= -> ->]%list_elem_of_singleton. done.
  - intros x [= ->]. left. by left.
  - intros E x Ex. rewrite Sv; [done|done|by rewrite Ex].
  - intros t' x Hin. by apply elem_of_nil in Hin.
  - done.
  - intros E x Ex. rewrite Sv; [done|done|by rewrite Ex].
  - intros t' x Hin. by apply elem_of_nil in Hin.
Qed.

Lemma ballot_of_voter n m v t x : (v, t, x) ∈ ballot_of n m -> v = n.
Proof.
  unfold ballot_of. destruct (vote_state m) as [[t' [y|]]|]; intros Hin; [|by apply elem_of_nil in Hin..].
  apply list_elem_of_singleton in Hin. by simplify_eq.
Qed.

Lemma write_ok w n nd c p :
  world_ok w -> nodes w !! n = Some nd -> running nd = Some c -> pending c = Some p -> written nd = false ->
  world_ok {| nodes := <[n := {| running := Some c; disk := write_disk (mutation p) (disk nd); written := true |}]> (nodes w);
              packets := packets w; ballots := ballot_of n (mutation p) ++ ballots w; elections := elections w |}.
Proof.
  intros Hw Hn Hrun Ep Ewr. destruct (world_running w Hw n nd c Hn Hrun) as [Hc Hsync].
  unfold in_sync in Hsync. rewrite Ewr in Hsync. destruct Hsync as [Et Ev].
  destruct (write_ballots n c p (disk nd) (backed_ok _ _ _ Hc) Ep Et Ev) as (Hnew & Hvote & Hle & Hkeep).
  set (d' := write_disk (mutation p) (disk nd)) in *. set (w' := {| nodes := _ |}).
  assert (ballots w ⊆ ballots w') as Hgrow by (cbn; set_solver).
  assert (forall t x, (n, t, x) ∈ ballots w' -> t < durable_term d' \/ (t = durable_term d' /\ durable_vote d' = Some x)) as Hmine.
  { intros t x [Hin|Hin]%elem_of_app; [right; auto|].
    destruct (world_ballot w Hw n t x Hin) as (nd' & Hn' & Hd). rewrite Hn in Hn'. injection Hn' as <-.
    destruct Hd as [Hd|[-> Hd]]; [left; lia|]. destruct (decide (durable_term d' = durable_term (disk nd))); [|left; lia].
    right. auto. }
  split.
  - intros m md cm Hm Hrm. cbn [nodes w'] in Hm. apply lookup_insert_Some in Hm as [[<- <-]|[Hne Hm]].
    + cbn in Hrm. injection Hrm as <-. split; [by apply (core_backed_grow w)|]. exists p. cbn. by rewrite Et, Ev.
    + destruct (world_running w Hw m md cm Hm Hrm) as [Hcm Hsm]. split; [by apply (core_backed_grow w)|done].
  - intros m md x Hm Hx. cbn [nodes w'] in Hm. apply lookup_insert_Some in Hm as [[<- <-]|[Hne Hm]].
    + cbn [disk] in *. destruct (Hvote x Hx) as [Hin|[Etd Hold]]; [cbn; set_solver|]. rewrite Etd.
      apply Hgrow, (world_disk w Hw n nd x Hn Hold).
    + apply Hgrow, (world_disk w Hw m md x Hm Hx).
  - intros m t x Hin. cbn [nodes w']. destruct (decide (m = n)) as [->|Hne].
    + rewrite lookup_insert_eq. eexists. split; [reflexivity|]. by apply Hmine.
    + rewrite lookup_insert_ne by done. cbn [ballots w'] in Hin.
      apply elem_of_app in Hin as [Hin%ballot_of_voter|Hin]; [done|]. by eapply world_ballot.
  - intros m t x y Hx Hy. destruct (decide (m = n)) as [->|Hne].
    + pose proof (Hmine t x Hx) as Hdx. pose proof (Hmine t y Hy) as Hdy.
      cbn [ballots w'] in Hx, Hy. apply elem_of_app in Hx as [Hx|Hx], Hy as [Hy|Hy];
        [| | |by eapply (world_unique w Hw n t)];
        repeat match goal with HB : _ ∈ ballot_of _ _ |- _ => apply Hnew in HB as [-> ?] end;
        destruct Hdx as [?|[_ ?]], Hdy as [?|[_ ?]]; try lia; congruence.
    + cbn [ballots w'] in Hx, Hy.
      apply elem_of_app in Hx as [Hx%ballot_of_voter|Hx], Hy as [Hy%ballot_of_voter|Hy]; try done.
      by eapply (world_unique w Hw m t).
  - intros q r Hin Hq Hg. apply Hgrow, (world_packets w Hw q r Hin Hq Hg).
  - intros m t a Hin. destruct (world_elections w Hw m t a Hin) as (Ha & votes & Hq & Hv). split; [done|].
    exists votes. auto.
Qed.

(** Stopping or starting a node changes neither its disk nor what happened. *)
Lemma set_node_ok w n nd run wr :
  world_ok w -> nodes w !! n = Some nd ->
  (forall c, run = Some c -> core_backed w n c /\ in_sync {| running := run; disk := disk nd; written := wr |} c) ->
  world_ok (set_node n {| running := run; disk := disk nd; written := wr |} w).
Proof.
  intros Hw Hn Hrun. split.
  - intros m md cm Hm Hrm. cbn [nodes set_node] in Hm. apply lookup_insert_Some in Hm as [[<- <-]|[Hne Hm]].
    + cbn in Hrm. destruct (Hrun cm Hrm) as (Hc & Hd). split; [|exact Hd]. by apply (core_backed_grow w).
    + destruct (world_running w Hw m md cm Hm Hrm) as [Hcm Hsm]. split; [by apply (core_backed_grow w)|done].
  - intros m md x Hm Hx. cbn [nodes set_node] in Hm. apply lookup_insert_Some in Hm as [[<- <-]|[Hne Hm]];
      [exact (world_disk w Hw n nd x Hn Hx)|exact (world_disk w Hw m md x Hm Hx)].
  - intros m t x Hin. destruct (world_ballot w Hw m t x Hin) as (md & Hm & Hd). cbn [nodes set_node].
    destruct (decide (m = n)) as [->|Hne]; [|exists md; by rewrite lookup_insert_ne].
    rewrite lookup_insert_eq. rewrite Hn in Hm. injection Hm as <-. by eexists.
  - apply Hw.
  - apply Hw.
  - apply Hw.
Qed.

(** Budgets are neither durable nor part of the role. *)
Lemma budgets_backed w n nd c default_ overrides :
  core_backed w n c -> in_sync nd c ->
  core_backed w n (snd (set_replication_budgets default_ overrides c)) /\
  in_sync nd (snd (set_replication_budgets default_ overrides c)).
Proof.
  intros Hc Hs. unfold set_replication_budgets, mbind, SE_bind, get_state. destruct (negb _); [done|]. cbn.
  split; [|exact Hs]. destruct Hc as [Hok]. split; try done. by apply with_budgets_ok.
Qed.

Lemma restored_fields cfg d active c :
  plan_built (plan cfg) -> active_built active -> restore_active cfg d active = Ok c ->
  core_ok c /\ local_id c = local_node_id cfg /\ current_term c = durable_term d /\ voted_for c = durable_vote d /\
  role c = Following.
Proof.
  intros Hp Ha Hr. split; [by apply reachable_ok; eapply reach_restore_active|].
  unfold restore_active, restore in Hr. inv_ok. done.
Qed.

Lemma act_ok a w w' : world_ok w -> action_built a -> act a w = Some w' -> world_ok w'.
Proof.
  intros Hw Hb Ha. destruct a as [n k|n input|n|n|n default_ overrides|n|n cfg active applied]; cbn in Ha;
    apply bind_Some in Ha as (nd & Hn & Ha).
  - apply bind_Some in Ha as (c & Hc & Ha). apply bind_Some in Ha as (p & Hp & Ha).
    destruct (N.eqb_spec (sent_to p) n) as [Eto|]; [|done]. injection Ha as <-. apply drive_ok; try done; [by left|].
    intros from inc r [= <- <- Er] Hg. rewrite <- Eto. eapply world_packets; eauto. by eapply list_elem_of_lookup_2.
  - apply bind_Some in Ha as (c & Hc & Ha). destruct (local_input input) eqn:El; [|done]. injection Ha as <-.
    apply drive_ok; try done; [left; by intros id ->|by intros from inc r ->].
  - apply bind_Some in Ha as (c & Hc & Ha). apply bind_Some in Ha as (p & Hp & Ha).
    destruct (written nd) eqn:Ewr; [done|]. injection Ha as <-. by apply write_ok.
  - apply bind_Some in Ha as (c & Hc & Ha). apply bind_Some in Ha as (p & Hp & Ha).
    destruct (written nd) eqn:Ewr; [|done]. injection Ha as <-. apply drive_ok; try done. right. eauto.
  - apply bind_Some in Ha as (c & Hc & Ha). injection Ha as <-. apply set_node_ok; [done|done|]. intros c1 [= <-].
    destruct (world_running w Hw n nd c Hn Hc) as [Hback Hsync].
    destruct (budgets_backed w n nd c default_ overrides Hback Hsync) as [Hb' Hs']. split; [done|exact Hs'].
  - injection Ha as <-. by apply set_node_ok.
  - destruct (running nd) eqn:Erun; [done|]. destruct (restore_active _ _ _) as [c|] eqn:Er; [|done].
    destruct (N.eqb_spec (local_node_id cfg) n) as [Eid|]; [|done]. injection Ha as <-. apply set_node_ok; [done|done|].
    intros c1 [= <-]. destruct Hb as [Hp Hact].
    destruct (restored_fields _ _ _ _ Hp Hact Er) as (Hok & Hid & Et & Ev & Erole). cbn in Et, Ev.
    split; [|split; cbn; congruence]. split; [done|congruence| | |].
    + intros x Hx. rewrite Et. apply (world_disk w Hw n nd x Hn). by rewrite <- Ev.
    + intros votes v E. by rewrite Erole in E.
    + unfold role_of. by rewrite Erole.
Qed.

Lemma possible_ok w : possible w -> world_ok w.
Proof.
  induction 1 as [members|w a w' _ IH Hb Ha]; [|by eapply act_ok].
  assert (forall {A} (x : A), x ∈ [] -> False) as Hnil by (intros A x; apply not_elem_of_nil).
  split; cbn [nodes packets ballots elections initial]; try (by intros; exfalso; eauto).
  - intros n nd c Hn Hc. cbn in Hn. apply lookup_gset_to_gmap_Some in Hn as [_ <-]. done.
  - intros n nd x Hn Hx. cbn in Hn. apply lookup_gset_to_gmap_Some in Hn as [_ <-]. done.
Qed.

End network.

(** C3: election safety of the whole partition.  However messages are lost, repeated or
    reordered and whenever nodes crash and restart from their disks, at most one node is
    elected in a term: two elections of one term under the same phase, or under phases
    adjacent in a reconfiguration, elect the same node, and every node that leads was
    elected in its current term. *)
Theorem election_safety `{Sha256} w :
  possible w ->
  (forall n m t a b, (n, t, a) ∈ elections w -> (m, t, b) ∈ elections w -> adjacent a b -> n = m) /\
  (forall n nd c, nodes w !! n = Some nd -> running nd = Some c -> role_of c = Leader ->
     exists a, (n, current_term c, a) ∈ elections w).
Proof.
  intros Hw%possible_ok. split.
  - intros n m t a b Hn Hm Hadj.
    destruct (world_elections w Hw n t a Hn) as (Ha & va & Hqa & Hva).
    destruct (world_elections w Hw m t b Hm) as (Hb & vb & Hqb & Hvb).
    destruct (adjacent_intersect a b Election va vb Hadj Ha Hb Hqa Hqb) as (v & Hin & Hin').
    eapply (world_unique w Hw v t); auto.
  - intros n nd c Hn Hrun Hl. destruct (world_running w Hw n nd c Hn Hrun) as [Hc _]. by apply (backed_lead _ _ _ Hc).
Qed.

(** One vote per term, across crashes: whatever a node's disk recorded as its vote in a
    term, and whatever grants it sent for that term, name the same candidate. *)
Theorem one_vote_per_term `{Sha256} w p q r s :
  possible w -> p ∈ packets w -> q ∈ packets w ->
  content p = MVoteResponse r -> content q = MVoteResponse s ->
  vr_granted r = true -> vr_granted s = true -> sent_by p = sent_by q -> vr_term r = vr_term s ->
  sent_to p = sent_to q.
Proof.
  intros Hw%possible_ok Hp Hq Er Es Hr Hs Eby Et.
  pose proof (world_packets w Hw p r Hp Er Hr) as Hb. pose proof (world_packets w Hw q s Hq Es Hs) as Hb'.
  rewrite Eby, Et in Hb. by eapply (world_unique w Hw _ _).
Qed.
