(* ===== verification/NetworkLog.v ===== *)
(** Logs across a partition: a history of worlds, which logs its leaders issued, and what it
    means for a log, an acknowledgement or a commit position to rest on them. *)

From S2P Require Import Prelude VoterSet Predicate Plan Digest Compile FlatPlan Joint Types Membership MembershipCommand Probes History Core CoreRequest CoreLog CoreInv CoreEffects CoreSafety CoreElection CoreCommit CoreAsk Network.
From stdpp Require Import prelude gmap.
#[local] Open Scope N_scope.

(** ** Common prefixes *)

(** Both lists have at least [k] elements, the same first [k]. *)
Definition shares {A} (k : nat) (l s : list A) : Prop := take k l = take k s /\ (k <= length l)%nat.

Section shared.
Context {A : Type}.
Implicit Types l s r : list A.

Lemma shares_l k l s : shares k l s -> (k <= length l)%nat.
Proof. by intros []. Qed.

Lemma shares_r k l s : shares k l s -> (k <= length s)%nat.
Proof. intros [E Hk]. apply (f_equal length) in E. rewrite !length_take in E. lia. Qed.

Lemma shares_refl k l : (k <= length l)%nat -> shares k l l.
Proof. done. Qed.

Lemma shares_sym k l s : shares k l s -> shares k s l.
Proof. intros Hs. split; [symmetry; apply Hs|by eapply shares_r]. Qed.

Lemma shares_trans k l s r : shares k l s -> shares k s r -> shares k l r.
Proof. intros [E1 H1] [E2 H2]. split; [congruence|done]. Qed.

Lemma shares_le j k l s : shares k l s -> (j <= k)%nat -> shares j l s.
Proof.
  intros [E Hk] Hj. split; [|lia]. apply (f_equal (take j)) in E. rewrite !take_take in E. by rewrite Nat.min_l in E by lia.
Qed.

Lemma shares_0 l s : shares 0 l s.
Proof. split; [done|lia]. Qed.

Lemma shares_lookup k l s i : shares k l s -> (i < k)%nat -> l !! i = s !! i.
Proof. intros [E _] Hi. rewrite <- (lookup_take_lt l k i), <- (lookup_take_lt s k i) by done. by rewrite E. Qed.

Lemma shares_prefix l s : l `prefix_of` s <-> shares (length l) l s.
Proof.
  split.
  - intros [r ->]. split; [|done]. by rewrite take_app_length, firstn_all.
  - intros [E _]. exists (drop (length l) s). rewrite firstn_all in E. rewrite E at 1. by rewrite take_drop.
Qed.

Lemma prefix_shares k l s : l `prefix_of` s -> (k <= length l)%nat -> shares k l s.
Proof. intros Hp Hk. eapply shares_le; [by apply shares_prefix|done]. Qed.

Definition comparable l s : Prop := l `prefix_of` s \/ s `prefix_of` l.

Lemma comparable_shares k l s : comparable l s -> (k <= length l)%nat -> (k <= length s)%nat -> shares k l s.
Proof. intros [Hp|Hp] Hl Hs; [by apply prefix_shares|by apply shares_sym, prefix_shares]. Qed.

Lemma shares_take k l s : shares k (take k l) s <-> shares k l s.
Proof.
  unfold shares. rewrite take_take, Nat.min_id, length_take. split; intros [E Hk]; (split; [done|lia]).
Qed.

End shared.

(** ** Histories *)

(** The position the newest run of [n] had committed. *)
Fixpoint last_commit (W : list World) (n : NodeId) : N :=
  match W with
  | [] => 0
  | w :: W' => match nodes w !! n ≫= running with Some c => commit_index c | None => last_commit W' n end
  end.

(** A node restarts at a position its state machine applied, so one it had committed. *)
Definition honest (W : list World) (a : Action) : Prop :=
  match a with Restart n _ _ applied => applied <= last_commit W n | _ => True end.

(** The log once the proposal in flight is durable: what a leader has issued. *)
Definition proposed (c : ConsensusCore) : list LogEntry :=
  match pending c with
  | Some p => match action p with Proposal _ _ => log_after (mutation p) (log c) | _ => log c end
  | None => log c
  end.

Definition log_end (l : list LogEntry) : LogPosition :=
  match last l with Some e => entry_position e | None => GENESIS end.

Section histories.
Context `{Sha256}.

(** The worlds an execution went through, newest first. *)
Inductive history : list World -> Prop :=
| history_initial members : history [initial members]
| history_act w h a w' :
    history (w :: h) -> action_built a -> honest (w :: h) a -> act a w = Some w' -> history (w' :: w :: h).

Lemma history_possible w h : history (w :: h) -> possible w.
Proof.
  remember (w :: h) as W eqn:E. intros Hh. revert w h E.
  induction Hh as [members|w0 h0 a w' Hh IH Hb Hho Ha]; intros w h [= <- <-]; [constructor|].
  econstructor; [by eapply IH|done|done].
Qed.

Definition seen (W : list World) (n : NodeId) (nd : Node) : Prop := exists w, w ∈ W /\ nodes w !! n = Some nd.
Definition runs (W : list World) (n : NodeId) (c : ConsensusCore) : Prop := exists nd, seen W n nd /\ running nd = Some c.
Definition used (W : list World) (a : ActiveQuorumPlan) : Prop := exists n c, runs W n c /\ active_plan c = a.

(** A leader of term [t] issued [l]. *)
Definition issued (W : list World) (t : N) (l : list LogEntry) : Prop :=
  exists n c, runs W n c /\ role_of c = Leader /\ current_term c = t /\ l = proposed c.

(** Each entry sits where a leader of its term put it, over the same entries. *)
Definition matching (W : list World) (l : list LogEntry) : Prop :=
  forall i e, l !! i = Some e -> exists s, issued W (term (entry_position e)) s /\ shares (S i) l s.

Definition ordered (l : list LogEntry) : Prop :=
  forall i j e e', (i <= j)%nat -> l !! i = Some e -> l !! j = Some e' -> term (entry_position e) <= term (entry_position e').

Record good (W : list World) (l : list LogEntry) : Prop := {
  good_log : log_ok l;
  good_matching : matching W l;
  good_ordered : ordered l;
}.

(** Node [p] durably had the first [i] entries of [l] while in term [t]. *)
Definition held (W : list World) (p : NodeId) (t : N) (i : nat) (l : list LogEntry) : Prop :=
  exists nd, seen W p nd /\ durable_term (disk nd) = t /\ shares i (durable_log (disk nd)) l.

(** The first [i] entries of [l] were committed by a leader of term [t]. *)
Definition committed (W : list World) (t : N) (i : nat) (l : list LogEntry) : Prop :=
  issued W t l /\ (exists e, l !! pred i = Some e /\ term (entry_position e) = t) /\ (0 < i)%nat /\
  exists a acks, used W a /\ active_built a /\ Active.satisfies a Commit acks = true /\ forall p, p ∈ acks -> held W p t i l.

(** The first [k] entries of [l] are committed. *)
Definition covered (W : list World) (k : nat) (l : list LogEntry) : Prop :=
  k = 0%nat \/ exists t i s, committed W t i s /\ (k <= i)%nat /\ shares k l s.

(** Where a node may take entries from in term [x]: a leader's log or a committed one. *)
Definition trusted (W : list World) (x : N) (s : list LogEntry) : Prop :=
  (exists l, issued W x l /\ s `prefix_of` l) \/ (exists t i l, committed W t i l /\ s `prefix_of` take i l).

(** A log only grows, or is cut where it conflicts with a trusted one. *)
Definition changes (W : list World) (x : N) (l l' : list LogEntry) : Prop :=
  l `prefix_of` l' \/
  exists s j, trusted W x s /\ shares j l l' /\ is_Some (s !! j) /\ l !! j <> s !! j.

(** Node [x] asked for votes of term [u] with a log ending at [p]. *)
Definition requested (W : list World) (x : NodeId) (u : N) (p : LogPosition) : Prop :=
  exists w k q, w ∈ W /\ k ∈ packets w /\ sent_by k = x /\ content k = MVoteRequest q /\ vq_term q = u /\ vq_last_log q = p.

(** An election quorum of term [u] was no further than [base] when it voted; the votes and
    the log are older than the newest world. *)
Definition won (W : list World) (u : N) (base : list LogEntry) : Prop :=
  exists w k h, W = w :: k ++ h /\ good h base /\
  exists a votes, used W a /\ active_built a /\ Active.satisfies a Election votes = true /\
    forall v, v ∈ votes -> exists nd, seen h v nd /\ durable_term (disk nd) = u /\
      position_le (log_end (durable_log (disk nd))) (log_end base) = true.

Definition one_log (W : list World) : Prop := forall t l s, issued W t l -> issued W t s -> comparable l s.

(** Every plan in use is the same or in a neighbouring phase. *)
Definition plans_adjacent (W : list World) : Prop := forall a b, used W a -> used W b -> adjacent a b.

(** ** Facts stay true as a history grows *)

Lemma seen_grow W W' n nd : W ⊆ W' -> seen W n nd -> seen W' n nd.
Proof. intros Hs (w & Hw & Hn). exists w. auto. Qed.
Lemma runs_grow W W' n c : W ⊆ W' -> runs W n c -> runs W' n c.
Proof. intros Hs (nd & Hn & Hr). exists nd. eauto using seen_grow. Qed.
Lemma used_grow W W' a : W ⊆ W' -> used W a -> used W' a.
Proof. intros Hs (n & c & Hr & Ha). exists n, c. eauto using runs_grow. Qed.
Lemma issued_grow W W' t l : W ⊆ W' -> issued W t l -> issued W' t l.
Proof. intros Hs (n & c & Hr & ?). exists n, c. eauto using runs_grow. Qed.
Lemma matching_grow W W' l : W ⊆ W' -> matching W l -> matching W' l.
Proof. intros Hs Hm i e He. destruct (Hm i e He) as (s & ? & ?). eauto using issued_grow. Qed.
Lemma good_grow W W' l : W ⊆ W' -> good W l -> good W' l.
Proof. intros Hs []. split; eauto using matching_grow. Qed.
Lemma held_grow W W' p t i l : W ⊆ W' -> held W p t i l -> held W' p t i l.
Proof. intros Hs (nd & ? & ?). exists nd. eauto using seen_grow. Qed.
Lemma committed_grow W W' t i l : W ⊆ W' -> committed W t i l -> committed W' t i l.
Proof.
  intros Hs (Hi & He & Hp & a & acks & Hu & Hb & Hq & Hh). repeat split; eauto using issued_grow.
  exists a, acks. split_and!; eauto using used_grow, held_grow.
Qed.
Lemma covered_grow W W' k l : W ⊆ W' -> covered W k l -> covered W' k l.
Proof. intros Hs [?|(t & i & s & Hc & ?)]; [by left|right]. exists t, i, s. eauto using committed_grow. Qed.
Lemma trusted_grow W W' x s : W ⊆ W' -> trusted W x s -> trusted W' x s.
Proof.
  intros Hs [(l & Hi & Hp)|(t & i & l & Hc & Hp)]; [left; eauto using issued_grow|right].
  exists t, i, l. eauto using committed_grow.
Qed.
Lemma changes_grow W W' x l l' : W ⊆ W' -> changes W x l l' -> changes W' x l l'.
Proof. intros Hs [?|(s & j & Ht & ?)]; [by left|right]. exists s, j. eauto using trusted_grow. Qed.
Lemma requested_grow W W' x u p : W ⊆ W' -> requested W x u p -> requested W' x u p.
Proof. intros Hs (w & k & q & Hw & ?). exists w, k, q. auto. Qed.
Lemma won_grow w W u base : won W u base -> won (w :: W) u base.
Proof.
  intros (w0 & k & h & -> & Hg & a & votes & Hu & Hr). exists w, (w0 :: k), h. split; [done|]. split; [done|].
  exists a, votes. split; [|done]. eapply used_grow; [|exact Hu]. set_solver.
Qed.
Lemma plans_adjacent_shrink W W' : W ⊆ W' -> plans_adjacent W' -> plans_adjacent W.
Proof. intros Hs Hp a b Ha Hb. apply Hp; by eapply used_grow. Qed.

(** ** Prefixes *)

Lemma good_take W l k : good W l -> good W (take k l).
Proof.
  intros [Hl Hm Ho]. split.
  - by apply contiguous_take.
  - intros i e He. apply lookup_take_Some in He as [He Hi]. destruct (Hm i e He) as (s & Hs & Hsh).
    exists s. split; [done|]. eapply shares_trans; [|exact Hsh].
    apply shares_sym, shares_sym. split; [by rewrite take_take, Nat.min_l by lia|].
    apply lookup_lt_Some in He. rewrite length_take. lia.
  - intros i j e e' Hij He He'. apply lookup_take_Some in He as [He _], He' as [He' _]. by eapply Ho.
Qed.

Lemma prefix_take_eq {A} (l s : list A) : l `prefix_of` s -> l = take (length l) s.
Proof. intros [r ->]. by rewrite take_app_length. Qed.

Lemma good_prefix W l s : good W s -> l `prefix_of` s -> good W l.
Proof. intros Hs ->%prefix_take_eq. by apply good_take. Qed.

Lemma covered_le W j k l : covered W k l -> (j <= k)%nat -> covered W j l.
Proof.
  intros [->|(t & i & s & Hc & Hk & Hs)] Hj; [left; lia|]. right. exists t, i, s. split_and!; [done|lia|by eapply shares_le].
Qed.

Lemma covered_shares W k l l' : covered W k l -> shares k l l' -> covered W k l'.
Proof.
  intros [->|(t & i & s & Hc & Hk & Hs)] Hl; [by left|]. right. exists t, i, s. split_and!; [done|done|].
  eapply shares_trans; [by apply shares_sym|done].
Qed.

Lemma covered_length W k l : covered W k l -> (k <= length l)%nat.
Proof. intros [->|(t & i & s & _ & _ & Hs)]; [lia|by eapply shares_l]. Qed.

Lemma held_shares W p t i l l' : held W p t i l -> shares i l l' -> held W p t i l'.
Proof. intros (nd & Hn & Ht & Hs) Hl. exists nd. split_and!; [done|done|by eapply shares_trans]. Qed.

(** Equal terms at an index mean equal logs up to it. *)
Lemma log_match W l s i e e' :
  one_log W -> matching W l -> matching W s -> l !! i = Some e -> s !! i = Some e' ->
  term (entry_position e) = term (entry_position e') -> shares (S i) l s.
Proof.
  intros H1 Hl Hs He He' Et. destruct (Hl i e He) as (x & Hx & Hsx). destruct (Hs i e' He') as (y & Hy & Hsy).
  rewrite Et in Hx. eapply shares_trans; [exact Hsx|]. eapply shares_trans; [|by apply shares_sym].
  apply comparable_shares; [by eapply H1|by eapply shares_r|by eapply shares_r].
Qed.

End histories.
