(* ===== verification/NetworkInv.v ===== *)
(** The invariant behind log agreement: what a received range does to a log, what the
    invariant says of every node, and how one changed node extends it. *)

From S2P Require Import Prelude VoterSet Predicate Plan Digest Compile FlatPlan Joint Types Membership MembershipCommand Probes History Core CoreRequest CoreLog CoreInv CoreEffects CoreSafety CoreElection CoreCommit CoreAsk Network NetworkLog.
From stdpp Require Import prelude gmap.
#[local] Open Scope N_scope.

Section merging.
Context `{Sha256}.

Lemma entry_term_shares W c cs i e e' :
  one_log W -> good W (log c) -> good W (log cs) -> entry c i = Some e -> entry cs i = Some e' ->
  term (entry_position e) = term (entry_position e') -> shares (N.to_nat i) (log c) (log cs).
Proof.
  intros H1 Hc Hs [Hi He]%entry_lookup [_ He']%entry_lookup Et; [|by apply Hs|by apply Hc].
  replace (N.to_nat i) with (S (N.to_nat (i - 1))) by lia.
  eapply log_match; [exact H1|by apply Hc|by apply Hs|exact He|exact He'|exact Et].
Qed.

Lemma previous_shared W c cs p d :
  one_log W -> good W (log c) -> good W (log cs) -> position_is_valid p = true -> position_matches c p d = true ->
  holds_position cs p d -> shares (N.to_nat (index p)) (log c) (log cs).
Proof.
  intros H1 Hc Hs Hv Hm Hh. destruct (position_matches_inv c p d (good_log _ _ Hc) Hm Hv) as [_ [[-> _]|(e & He & Et & _)]].
  - apply shares_0.
  - destruct Hh as [[-> _]|(e' & He' & Hp & _)]; [apply shares_0|]. eapply entry_term_shares; eauto. by rewrite Hp.
Qed.

Lemma slice_take cs lo entries :
  log_ok (log cs) -> log_slice cs lo entries -> entries = take (length entries) (drop (N.to_nat lo) (log cs)).
Proof.
  intros Hl Hs.
  assert (forall i e, entries !! i = Some e -> drop (N.to_nat lo) (log cs) !! i = Some e) as Hlook.
  { intros i e He. apply Hs, entry_lookup in He as [_ He]; [|done]. rewrite lookup_drop, <- He. f_equal. lia. }
  apply list_eq. intros i. destruct (entries !! i) as [e|] eqn:E.
  - rewrite lookup_take_lt by (by eapply lookup_lt_Some). by rewrite (Hlook i e E).
  - rewrite lookup_take_ge; [done|]. by apply lookup_ge_None.
Qed.

Lemma slice_length cs lo entries :
  log_ok (log cs) -> log_slice cs lo entries -> entries <> [] -> (N.to_nat lo + length entries <= length (log cs))%nat.
Proof.
  intros Hl Hs Hne. destruct (last entries) as [e|] eqn:E; [|by apply last_None in E].
  rewrite last_lookup in E. apply Hs, entry_lookup in E as [_ E]; [|done]. apply lookup_lt_Some in E.
  destruct entries; [done|]. cbn [length pred] in *. lia.
Qed.

Lemma log_delta_conflict c incoming from suffix :
  log_delta c incoming = Ok (Some from, suffix) ->
  exists e rest e', suffix = e :: rest /\ entry c from = Some e' /\ e' <> e.
Proof.
  induction incoming as [|e rest IH]; cbn [log_delta]; [done|].
  destruct (entry c (index (entry_position e))) as [e'|] eqn:E; [|done]. destruct (_ && _) eqn:Eb; [done|].
  destruct (_ <=? _); [done|]. intros [= <- <-]. exists e, rest, e'. split_and!; [done|done|]. intros ->.
  by rewrite N.eqb_refl, bool_decide_eq_true_2 in Eb.
Qed.

(** The matched part of a range. *)
Lemma delta_shared W c cs lo entries truncate suffix :
  one_log W -> good W (log c) -> good W (log cs) -> shares (N.to_nat lo) (log c) (log cs) ->
  contiguous (lo + 1) entries -> log_slice cs lo entries -> log_delta c entries = Ok (truncate, suffix) ->
  exists k, suffix = drop k entries /\ (k <= length entries)%nat /\ shares (N.to_nat lo + k) (log c) (log cs) /\
    match truncate with
    | Some from => from = lo + 1 + N.of_nat k /\ (k < length entries)%nat
    | None => suffix <> [] -> (N.to_nat lo + k = length (log c))%nat
    end.
Proof.
  intros H1 Hc Hs Hlo Hcont Hslice Hd. pose proof (shares_l _ _ _ Hlo) as Hlen.
  destruct (log_delta_inv c (lo + 1) entries truncate suffix (good_log _ _ Hc) Hcont ltac:(lia)
    ltac:(unfold len; lia) Hd) as (k & -> & Hk & Hall & Htr).
  exists k. split_and!; [done|done| |].
  - destruct k as [|k]; [by rewrite Nat.add_0_r|].
    destruct (lookup_lt_is_Some_2 entries k ltac:(lia)) as [e He].
    destruct (Hall k e ltac:(lia) He) as (e' & He' & Hp & _). pose proof (Hslice k e He) as Hes.
    replace (N.to_nat lo + S k)%nat with (N.to_nat (lo + 1 + N.of_nat k)) by lia.
    eapply entry_term_shares; eauto. by rewrite Hp.
  - destruct truncate as [from|].
    + destruct Htr as (? & _ & _ & ?). done.
    + destruct Htr as [_ Htr]. intros Hne. specialize (Htr Hne). unfold len in Htr. lia.
Qed.

(** [l'] is what a range that ends at [k] of the sender's log [s] leaves of [l]. *)
Definition merges (k : nat) (s l l' : list LogEntry) : Prop :=
  shares k l' s /\
  (l' = l \/
   l' = take k s /\ (l `prefix_of` l' \/ exists j, shares j l l' /\ is_Some (take k s !! j) /\ l !! j <> take k s !! j)).

Lemma merged W c cs lo entries truncate suffix vs :
  one_log W -> good W (log c) -> good W (log cs) -> shares (N.to_nat lo) (log c) (log cs) ->
  contiguous (lo + 1) entries -> log_slice cs lo entries -> log_delta c entries = Ok (truncate, suffix) ->
  merges (N.to_nat (lo + len entries)) (log cs) (log c)
    (log_after {| vote_state := vs; truncate_from := truncate; append := suffix; mutation_epoch := None; quorum_plan := None |} (log c)).
Proof.
  intros H1 Hc Hs Hlo Hcont Hslice Hd.
  destruct (delta_shared W c cs lo entries truncate suffix H1 Hc Hs Hlo Hcont Hslice Hd) as (k & Esuf & Hk & Hsh & Htr).
  pose proof (slice_take cs lo entries (good_log _ _ Hs) Hslice) as Hent.
  replace (N.to_nat (lo + len entries)) with (N.to_nat lo + length entries)%nat by (unfold len; lia).
  set (l' := log_after _ _). set (n := (N.to_nat lo + k)%nat) in *.
  destruct (decide (suffix = [])) as [En|Hne].
  - assert (k = length entries) as Ek by (rewrite En in Esuf; apply (f_equal length) in Esuf; rewrite length_drop in Esuf; cbn in Esuf; lia).
    assert (truncate = None) as Et by (destruct truncate; [destruct Htr; lia|done]).
    assert (l' = log c) as El by (subst l'; rewrite Et, En; unfold log_after; cbn; apply app_nil_r).
    rewrite El. split; [by rewrite <- Ek|by left].
  - assert (entries <> []) as Hent0 by (intros ->; by rewrite drop_nil in Esuf).
    pose proof (slice_length cs lo entries (good_log _ _ Hs) Hslice Hent0) as Hlen.
    assert (suffix = take (length entries - k) (drop n (log cs))) as Hsuf.
    { rewrite Esuf. transitivity (drop k (take (length entries) (drop (N.to_nat lo) (log cs)))); [by rewrite <- Hent|].
      unfold n. rewrite <- drop_drop, (take_drop_commute (drop _ _)). by replace (k + (length entries - k))%nat with (length entries) by lia. }
    assert (match truncate with Some from => take (N.to_nat (from - 1)) (log c) | None => log c end = take n (log cs)) as Hkeep.
    { rewrite <- (proj1 Hsh). destruct truncate as [from|]; [destruct Htr as [-> _]; f_equal; lia|].
      rewrite take_ge; [done|]. specialize (Htr Hne). lia. }
    assert (l' = take (N.to_nat lo + length entries) (log cs)) as El.
    { subst l'. unfold log_after. cbn [truncate_from append]. rewrite Hkeep, Hsuf.
      replace (N.to_nat lo + length entries)%nat with (n + (length entries - k))%nat by lia. by rewrite take_take_drop. }
    split; [rewrite El; apply shares_take, shares_refl; lia|]. right. split; [done|]. destruct truncate as [from|].
    + right. exists n. destruct Htr as [Efrom Hkl]. apply log_delta_conflict in Hd as (e & rest & e' & Erest & He' & Hdiff).
      assert (take (N.to_nat lo + length entries) (log cs) !! n = Some e) as Hse.
      { rewrite lookup_take_lt by lia. rewrite Esuf in Erest.
        assert (entries !! k = Some e) as Hke by (rewrite <- (Nat.add_0_r k), <- lookup_drop, Erest; done).
        apply Hslice, entry_lookup in Hke as [_ Hke]; [|apply Hs]. rewrite <- Hke. f_equal. lia. }
      split_and!; [|by eexists|].
      * eapply shares_trans; [exact Hsh|]. rewrite El. apply shares_sym.
        split; [by rewrite take_take, Nat.min_l by lia|rewrite length_take; lia].
      * rewrite Hse. apply entry_lookup in He' as [_ He']; [|apply Hc].
        replace n with (N.to_nat (from - 1)) by lia. rewrite He'. congruence.
    + left. subst l'. unfold log_after. cbn [truncate_from append]. by apply prefix_app_r.
Qed.

Lemma merges_good W k s l l' : good W l -> good W s -> merges k s l l' -> good W l'.
Proof. intros Hl Hs [_ [->|[-> _]]]; [done|by apply good_take]. Qed.

Lemma merges_changes W x k s l l' : trusted W x (take k s) -> merges k s l l' -> changes W x l l'.
Proof.
  intros Ht [_ [->|[_ [Hp|(j & Hj)]]]]; [by left|by left|]. right. exists (take k s), j. done.
Qed.

End merging.

Section invariant.
Context `{Sha256}.

(** What a pending request will make true of the log once it is durable. *)
Record pend_ok (W : list World) (n : NodeId) (c : ConsensusCore) (p : PendingPersistence) : Prop := {
  pend_good : good W (log_after (mutation p) (log c));
  pend_changes : changes W (term_after (mutation p) (current_term c)) (log c) (log_after (mutation p) (log c));
  pend_bound : forall b, completion_bound (commit_index c) (action p) b ->
    covered W (N.to_nat b) (log_after (mutation p) (log c));
  pend_answer : forall to leader limit reply, action p = AppendReply to leader limit reply -> ar_accepted reply = true ->
    exists l, issued W (term_after (mutation p) (current_term c)) l /\
      shares (N.to_nat (ar_matched_index reply)) (log_after (mutation p) (log c)) l;
  pend_vote : forall u x, vote_state (mutation p) = Some (u, Some x) ->
    x = n \/ exists q, requested W x u q /\ position_le (log_end (log_after (mutation p) (log c))) q = true;
}.

Record core_fine (W : list World) (n : NodeId) (c : ConsensusCore) : Prop := {
  fine_ok : core_ok c;
  fine_id : local_id c = n;
  fine_probes : probes_ok c;
  fine_good : good W (log c);
  fine_commit : covered W (N.to_nat (commit_index c)) (log c);
  fine_credit : forall l p m, role c = Leading l -> matched l !! p = Some m ->
    m = 0 \/ held W p (current_term c) (N.to_nat m) (log c);
  fine_pending : forall p, pending c = Some p -> pend_ok W n c p;
}.

(** The disk has what the core knows, or what it asked for. *)
Definition synced (nd : Node) (c : ConsensusCore) : Prop :=
  if written nd
  then exists p, pending c = Some p /\ durable_term (disk nd) = term_after (mutation p) (current_term c) /\
         durable_log (disk nd) = log_after (mutation p) (log c)
  else durable_term (disk nd) = current_term c /\ durable_log (disk nd) = log c.

Record node_ok (W : list World) (n : NodeId) (nd : Node) : Prop := {
  node_disk : good W (durable_log (disk nd));
  node_core : forall c, running nd = Some c -> core_fine W n c /\ synced nd c;
}.

(** What the sender of a packet had when it sent it. *)
Definition packet_ok (W : list World) (p : Packet) : Prop :=
  match content p with
  | MAppendRequest _ => exists c, runs W (sent_by p) c /\ role_of c = Leader /\ message_ok c (sent_to p) (content p)
  | MCommittedPrefix _ => exists c, runs W (sent_by p) c /\ message_ok c (sent_to p) (content p)
  | MAppendResponse r => ar_accepted r = true ->
      exists l, issued W (ar_term r) l /\ held W (sent_by p) (ar_term r) (N.to_nat (ar_matched_index r)) l
  | _ => True
  end.

(** A voter other than the candidate was no further than the candidate's request. *)
Definition ballot_ok (W : list World) (v : NodeId) (u : N) (x : NodeId) : Prop :=
  v = x \/ exists q nd, requested W x u q /\ seen W v nd /\ durable_term (disk nd) = u /\
    position_le (log_end (durable_log (disk nd))) q = true.

Definition node_term (nd : Node) : N :=
  match running nd with Some c => current_term c | None => durable_term (disk nd) end.

Record head_ok (W : list World) (w : World) : Prop := {
  head_possible : possible w;
  head_packets : forall p, p ∈ packets w -> packet_ok W p;
  head_ballots : forall v u x, (v, u, x) ∈ ballots w -> ballot_ok W v u x;
  head_requests : forall x u q nd, requested W x u q -> nodes w !! x = Some nd -> u <= node_term nd /\
    forall c, running nd = Some c -> role_of c = Candidate -> current_term c = u -> q = last_position c;
  head_elections : forall n t a nd, (n, t, a) ∈ elections w -> nodes w !! n = Some nd -> t <= node_term nd /\
    forall c, running nd = Some c -> role_of c = Candidate -> current_term c <> t;
  head_plans : forall n t a, (n, t, a) ∈ elections w -> used W a;
  head_leaders : forall n c, runs W n c -> role_of c = Leader -> exists a, (n, current_term c, a) ∈ elections w;
  head_top : forall n nd c l, nodes w !! n = Some nd -> running nd = Some c -> role_of c = Leader ->
    issued W (current_term c) l -> l `prefix_of` proposed c;
  head_commit : forall n nd, nodes w !! n = Some nd -> covered W (N.to_nat (last_commit W n)) (durable_log (disk nd));
}.

Record inv (W : list World) : Prop := {
  inv_node : forall n nd, seen W n nd -> node_ok W n nd;
  inv_one : one_log W;
  inv_won : forall t l, issued W t l -> exists base, won W t base /\ base `prefix_of` l;
  inv_head : forall w h, W = w :: h -> head_ok W w;
}.

(** ** Growth *)

Lemma pend_ok_grow W W' n c p : W ⊆ W' -> pend_ok W n c p -> pend_ok W' n c p.
Proof.
  intros Hs [H1 H2 H3 H4 H5]. split; eauto using good_grow, changes_grow, covered_grow.
  - intros. destruct (H4 _ _ _ _ H0 H6) as (l & ? & ?). eauto using issued_grow.
  - intros u x E. destruct (H5 u x E) as [?|(q & ? & ?)]; [by left|right]. eauto using requested_grow.
Qed.

Lemma core_fine_grow W W' n c : W ⊆ W' -> core_fine W n c -> core_fine W' n c.
Proof.
  intros Hs [H1 H2 H3 H4 H5 H6 H7]. split; eauto using good_grow, covered_grow, pend_ok_grow.
  intros l p m Er Em. destruct (H6 l p m Er Em); eauto using held_grow.
Qed.

Lemma node_ok_grow W W' n nd : W ⊆ W' -> node_ok W n nd -> node_ok W' n nd.
Proof.
  intros Hs [H1 H2]. split; [by eapply good_grow|]. intros c Hc. destruct (H2 c Hc). split; [by eapply core_fine_grow|done].
Qed.

Lemma packet_ok_grow W W' p : W ⊆ W' -> packet_ok W p -> packet_ok W' p.
Proof.
  intros Hs. unfold packet_ok. destruct (content p) as [q|r|q|r|q]; [done|done| | |].
  - intros (c & Hr & ?). eauto using runs_grow.
  - intros Hp Ha. destruct (Hp Ha) as (l & ? & ?). eauto using issued_grow, held_grow.
  - intros (c & Hr & ?). eauto using runs_grow.
Qed.

Lemma ballot_ok_grow W W' v u x : W ⊆ W' -> ballot_ok W v u x -> ballot_ok W' v u x.
Proof.
  intros Hs [?|(q & nd & ? & ? & ?)]; [by left|right]. exists q, nd. eauto using requested_grow, seen_grow.
Qed.

End invariant.

(** ** One node moves *)

Section extension.
Context `{Sha256} (w : World) (h : list World) (n : NodeId) (nd nd' : Node) (ps : list Packet)
  (bs : list (NodeId * N * NodeId)) (es : list (NodeId * N * ActiveQuorumPlan)).
#[local] Abbreviation W := (w :: h).

Definition moved : World :=
  {| nodes := <[n := nd']> (nodes w); packets := ps ++ packets w; ballots := bs ++ ballots w; elections := es ++ elections w |}.
#[local] Abbreviation W' := (moved :: w :: h).

(** What has to hold of the node that moved. *)
Record advance : Prop := {
  adv_node : node_ok W' n nd';
  adv_packets : forall p, p ∈ ps -> sent_by p = n /\ packet_ok W' p /\
    forall q, content p = MVoteRequest q -> exists c', running nd' = Some c' /\ vq_term q = current_term c' /\ vq_last_log q = last_position c';
  adv_ballots : forall v u x, (v, u, x) ∈ bs -> ballot_ok W' v u x;
  adv_elections : forall m t a, (m, t, a) ∈ es ->
    exists c', m = n /\ running nd' = Some c' /\ t = current_term c' /\ a = active_plan c' /\ role_of c' = Leader;
  adv_term : node_term nd <= node_term nd';
  adv_candidate : forall c', running nd' = Some c' -> role_of c' = Candidate ->
    node_term nd < current_term c' \/
    exists c, running nd = Some c /\ role_of c = Candidate /\ current_term c' = current_term c /\ log c' = log c;
  adv_leader : forall c', running nd' = Some c' -> role_of c' = Leader ->
    (exists c, running nd = Some c /\ role_of c = Leader /\ current_term c' = current_term c /\ proposed c `prefix_of` proposed c') \/
    ((node_term nd < current_term c' \/
      exists c, running nd = Some c /\ role_of c = Candidate /\ current_term c' = current_term c) /\
     won W' (current_term c') (proposed c'));
  adv_commit : covered W' (N.to_nat (last_commit W' n)) (durable_log (disk nd'));
}.

Context (Hinv : inv W) (Hn : nodes w !! n = Some nd) (Hadv : advance) (Hpos : possible moved) (Hadj : plans_adjacent W').

#[local] Lemma head : head_ok W w.
Proof. by eapply inv_head. Qed.

#[local] Lemma grow : W ⊆ W'.
Proof. set_solver. Qed.

Lemma moved_node m md : nodes moved !! m = Some md -> (m = n /\ md = nd') \/ (m <> n /\ nodes w !! m = Some md).
Proof. cbn. intros [[<- <-]|[? ?]]%lookup_insert_Some; [by left|right]. split; congruence. Qed.

Lemma seen_moved m md : seen W' m md -> seen W m md \/ (m = n /\ md = nd').
Proof.
  intros (x & [->|Hx]%elem_of_cons & Hm); [|by left; exists x].
  destruct (moved_node m md Hm) as [?|[_ ?]]; [by right|]. left. exists w. split; [by left|done].
Qed.

Lemma requested_moved x u q : requested W' x u q ->
  requested W x u q \/ (x = n /\ exists c', running nd' = Some c' /\ u = current_term c' /\ q = last_position c').
Proof.
  intros (y & k & r & [->|Hy]%elem_of_cons & Hk & Hby & Hc & Ht & Hl); [|left; by exists y, k, r].
  cbn in Hk. apply elem_of_app in Hk as [Hk|Hk].
  - right. destruct (adv_packets Hadv k Hk) as (Hs & _ & Hq). destruct (Hq r Hc) as (c' & Hr & ? & ?).
    split; [congruence|]. exists c'. split_and!; congruence.
  - left. exists w, k, r. split_and!; try done. by left.
Qed.

Lemma moved_elections m t a : (m, t, a) ∈ elections moved -> used W' a.
Proof.
  cbn. intros [Hin|Hin]%elem_of_app.
  - destruct (adv_elections Hadv m t a Hin) as (c' & -> & Hr & _ & -> & _). exists n, c'. split; [|done].
    exists nd'. split; [|done]. exists moved. split; [by left|]. cbn. by rewrite lookup_insert_eq.
  - eapply used_grow; [apply grow|]. by eapply (head_plans _ _ head).
Qed.

Lemma moved_leaders m c : runs W' m c -> role_of c = Leader -> exists a, (m, current_term c, a) ∈ elections moved.
Proof.
  intros (md & (x & Hx & Hm) & Hr) Hl. apply elem_of_cons in Hx as [->|Hx].
  - pose proof (possible_ok _ Hpos) as Hok. destruct (world_running _ Hok m md c Hm Hr) as [Hb _]. by apply (backed_lead _ _ _ Hb).
  - destruct (head_leaders _ _ head m c) as [a Ha]; [by exists md; split; [exists x|]|done|].
    exists a. cbn. by apply elem_of_app; right.
Qed.

(** Two leaders of one term are one node. *)
Lemma moved_unique m1 c1 m2 c2 :
  runs W' m1 c1 -> runs W' m2 c2 -> role_of c1 = Leader -> role_of c2 = Leader -> current_term c1 = current_term c2 -> m1 = m2.
Proof.
  intros H1 H2 L1 L2 Et. destruct (moved_leaders m1 c1 H1 L1) as [a Ha]. destruct (moved_leaders m2 c2 H2 L2) as [b Hb].
  rewrite Et in Ha. pose proof (possible_ok _ Hpos) as Hok.
  destruct (world_elections _ Hok _ _ _ Ha) as (Ba & va & Qa & Va). destruct (world_elections _ Hok _ _ _ Hb) as (Bb & vb & Qb & Vb).
  destruct (adjacent_intersect a b Election va vb) as (v & Hin & Hin'); eauto using moved_elections.
  eapply (world_unique _ Hok v); eauto.
Qed.

Lemma moved_elections_ok m t a md : (m, t, a) ∈ elections moved -> nodes moved !! m = Some md ->
  t <= node_term md /\ forall c, running md = Some c -> role_of c = Candidate -> current_term c <> t.
Proof.
  intros Hin Hm. cbn in Hin. apply elem_of_app in Hin as [Hin|Hin].
  - destruct (adv_elections Hadv m t a Hin) as (c' & -> & Hr & -> & _ & Hl).
    destruct (moved_node n md Hm) as [[_ ->]|[? _]]; [|done]. unfold node_term. rewrite Hr. split; [done|].
    intros c [= <-]. congruence.
  - destruct (moved_node m md Hm) as [[-> ->]|[_ Hm']]; [|by eapply (head_elections _ _ head)].
    destruct (head_elections _ _ head n t a nd Hin Hn) as [Ht Hc]. pose proof (adv_term Hadv). split; [lia|].
    intros c' Hr' Hcand. destruct (adv_candidate Hadv c' Hr' Hcand) as [?|(c & Hr & Hcc & -> & _)]; [lia|by apply Hc].
Qed.

(** The leader's log holds every log issued in its term. *)
Lemma moved_top m md c l : nodes moved !! m = Some md -> running md = Some c -> role_of c = Leader ->
  issued W' (current_term c) l -> l `prefix_of` proposed c.
Proof.
  intros Hm Hr Hl (m0 & c0 & Hr0 & Hl0 & Et & ->).
  assert (runs W' m c) as Hrun by (exists md; split; [exists moved; split; [by left|done]|done]).
  assert (m0 = m) as -> by (by eapply moved_unique).
  destruct Hr0 as (md0 & Hs0 & Hr0). destruct (seen_moved m md0 Hs0) as [Hs|[-> ->]].
  - assert (issued W (current_term c) (proposed c0)) as Hi by (exists m, c0; split_and!; [by exists md0|done..]).
    destruct (moved_node m md Hm) as [[-> ->]|[_ Hm']]; [|by eapply (head_top _ _ head)].
    destruct (adv_leader Hadv c Hr Hl) as [(c1 & Hr1 & Hl1 & Et1 & Htop)|[Hfresh _]].
    + etransitivity; [|exact Htop]. rewrite Et1 in Hi. by eapply (head_top _ _ head).
    + exfalso. destruct (head_leaders _ _ head n c0) as [a Ha]; [by exists md0|done|]. rewrite Et in Ha.
      destruct (head_elections _ _ head _ _ _ _ Ha Hn) as [Hle Hcand].
      destruct Hfresh as [?|(c1 & Hr1 & Hc1 & Et1)]; [lia|]. by apply (Hcand c1).
  - destruct (moved_node n md Hm) as [[_ ->]|[? _]]; [|done]. rewrite Hr in Hr0. by injection Hr0 as <-.
Qed.

(** An issued log is old, or the newest of the node that moved. *)
Lemma issued_moved t l : issued W' t l -> issued W t l \/
  exists c', running nd' = Some c' /\ role_of c' = Leader /\ current_term c' = t /\ l = proposed c'.
Proof.
  intros (m & c & (md & Hs & Hr) & Hl & Et & ->). destruct (seen_moved m md Hs) as [Ho|[-> ->]]; [left|right; by exists c].
  exists m, c. split_and!; [by exists md|done..].
Qed.

Lemma moved_one_log : one_log W'.
Proof.
  assert (forall t c' s, running nd' = Some c' -> role_of c' = Leader -> current_term c' = t -> issued W' t s -> s `prefix_of` proposed c') as Hnew.
  { intros t c' s Hr Hl <- Hs. eapply moved_top; eauto. cbn. by rewrite lookup_insert_eq. }
  intros t l s Hl Hs. pose proof (issued_moved t l Hl) as [Ho|(c' & ? & ? & ? & ->)]; [|right; by eapply Hnew].
  pose proof (issued_moved t s Hs) as [Ho'|(c' & ? & ? & ? & ->)]; [|left; by eapply Hnew]. by eapply (inv_one _ Hinv).
Qed.

Lemma moved_won t l : issued W' t l -> exists base, won W' t base /\ base `prefix_of` l.
Proof.
  intros [Hi|(c' & Hr & Hl & <- & ->)]%issued_moved.
  - destruct (inv_won _ Hinv t l Hi) as (base & Hw & ?). eauto using won_grow.
  - destruct (adv_leader Hadv c' Hr Hl) as [(c & Hr0 & Hl0 & -> & Htop)|[_ Hw]]; [|by exists (proposed c')].
    destruct (inv_won _ Hinv (current_term c) (proposed c)) as (base & Hw & Hb).
    { exists n, c. split_and!; [exists nd; split; [exists w; split; [by left|done]|done]|done..]. }
    exists base. split; [by apply won_grow|by etransitivity].
Qed.

Lemma moved_requests x u q xd : requested W' x u q -> nodes moved !! x = Some xd -> u <= node_term xd /\
  forall c, running xd = Some c -> role_of c = Candidate -> current_term c = u -> q = last_position c.
Proof.
  intros Hq Hx. destruct (moved_node x xd Hx) as [[-> ->]|[Hne Hx']].
  - destruct (requested_moved n u q Hq) as [Ho|(_ & c' & Hr & -> & ->)].
    + destruct (head_requests _ _ head n u q nd Ho Hn) as [Hu Hc]. pose proof (adv_term Hadv). split; [lia|].
      intros c' Hr' Hcand Et. destruct (adv_candidate Hadv c' Hr' Hcand) as [?|(c & Hr & Hcc & Et' & El)]; [lia|].
      rewrite (last_position_log _ _ El). apply Hc; congruence.
    + unfold node_term. rewrite Hr. split; [done|]. by intros c [= <-].
  - destruct (requested_moved x u q Hq) as [Ho|[? _]]; [|done]. by eapply (head_requests _ _ head).
Qed.

Lemma moved_commit m md : nodes moved !! m = Some md -> covered W' (N.to_nat (last_commit W' m)) (durable_log (disk md)).
Proof.
  intros Hm. destruct (moved_node m md Hm) as [[-> ->]|[Hne Hm']]; [apply (adv_commit Hadv)|].
  eapply covered_grow; [apply grow|]. replace (last_commit W' m) with (last_commit W m); [by apply (head_commit _ _ head)|].
  cbn. rewrite lookup_insert_ne, Hm' by done. cbn. by destruct (running md).
Qed.

Lemma moved_inv : inv W'.
Proof.
  pose proof grow as Hg. split.
  - intros m md Hs. destruct (seen_moved m md Hs) as [Ho|[-> ->]]; [|apply (adv_node Hadv)].
    eapply node_ok_grow; [exact Hg|]. by apply (inv_node _ Hinv).
  - apply moved_one_log.
  - apply moved_won.
  - intros x k [= <- <-]. split.
    + exact Hpos.
    + cbn. intros p [Hp|Hp]%elem_of_app; [by apply (adv_packets Hadv)|]. eapply packet_ok_grow; [exact Hg|]. by apply (head_packets _ _ head).
    + cbn. intros v u x [Hp|Hp]%elem_of_app; [by apply (adv_ballots Hadv)|]. eapply ballot_ok_grow; [exact Hg|]. by apply (head_ballots _ _ head).
    + apply moved_requests.
    + apply moved_elections_ok.
    + apply moved_elections.
    + apply moved_leaders.
    + apply moved_top.
    + apply moved_commit.
Qed.

End extension.
