(* ===== verification/NetworkDrive.v ===== *)
(** One input at one node keeps the invariant behind log agreement, and what the node learns
    from it in terms of the history: ranges extend what it shares with their sender, credit is
    for entries held, commits are covered. *)

From S2P Require Import Prelude VoterSet Predicate Plan Digest Compile FlatPlan Joint Types Membership MembershipCommand Probes History Core CoreRequest CoreLog CoreInv CoreEffects CoreSafety CoreElection CoreCommit CoreAsk Network NetworkLog NetworkInv.
From stdpp Require Import prelude gmap.
#[local] Open Scope N_scope.

Section standing.
Context `{Sha256}.

(** How a step changes who stands and who leads. *)
Record stands (c c' : ConsensusCore) : Prop := {
  stands_candidate : role_of c' = Candidate ->
    current_term c < current_term c' \/ (role_of c = Candidate /\ current_term c' = current_term c /\ log c' = log c);
  stands_leader : role_of c' = Leader ->
    (role_of c = Leader /\ current_term c' = current_term c /\ proposed c `prefix_of` proposed c') \/
    (proposed c' = log c /\ log c' = log c /\ pending c' = None /\ role_of c <> Leader /\
     (current_term c < current_term c' \/ (role_of c = Candidate /\ current_term c' = current_term c)));
}.

Lemma candidate_votes c : role_of c = Candidate -> exists votes, role c = Campaigning votes.
Proof. unfold role_of. destruct (role c); try done. eauto. Qed.

Lemma campaigning c votes : role c = Campaigning votes -> role_of c = Candidate.
Proof. unfold role_of. by intros ->. Qed.

Lemma steady_candidate c c' : steady c c' -> role_of c' = Candidate -> role_of c = Candidate.
Proof. intros [Hv _] [votes Hr]%candidate_votes. by eapply campaigning, Hv. Qed.

Lemma proposed_idle c : pending c = None -> proposed c = log c.
Proof. unfold proposed. by intros ->. Qed.

Lemma request_proposed c m a : pending c = None -> request_ok c m a -> proposed c `prefix_of` proposed (begun c m a).
Proof.
  intros Hn Hr. rewrite (proposed_idle c Hn). unfold proposed. cbn [pending begun with_pending action mutation log with_next_persistence_id].
  destruct Hr; try done. unfold log_after. cbn. by apply prefix_app_r.
Qed.

Lemma input_stands c input r c' :
  core_ok c -> input_built input -> (forall id, input <> Persisted id) -> step input c = (r, c') -> stands c c'.
Proof.
  intros Hok Hi Hne Hs. pose proof (step_cases c input Hok Hi) as Hcase. pose proof (step_input_roles c input Hne) as Hroles.
  unfold post in Hcase, Hroles. rewrite Hs in Hcase, Hroles. cbn [fst snd] in Hcase, Hroles.
  destruct Hcase as [r c' Hq _ Hpend|m a Hn Hreq|p r c' _ Ei _ _ _ _]; [| |by apply Hne in Ei].
  - assert (proposed c' = proposed c) as Hp by (unfold proposed; by rewrite (quiet_pending _ _ Hq), (quiet_log _ _ Hq)).
    pose proof (quiet_term _ _ Hq) as Et. pose proof (quiet_log _ _ Hq) as El.
    destruct Hroles as [Hst|(from & inc & resp & votes & _ & Er & _ & _ & _)].
    + split; [intros Hc; right; split_and!; [by eapply steady_candidate|done..]|].
      intros Hl. left. split_and!; [by apply (steady_leads _ _ Hst)|done|by rewrite Hp].
    + pose proof (campaigning _ _ Er) as Hc. split; [right; done|]. intros Hl. right.
      destruct Hpend as [Hn| ->]; [|congruence]. rewrite Hp, (proposed_idle c Hn). split_and!; [done|done|by rewrite (quiet_pending _ _ Hq)|congruence|by right].
  - split; [by right|]. intros Hl. left. split_and!; [exact Hl|done|by apply request_proposed].
Qed.

Lemma completed_stands c p r c' :
  core_ok c -> pending c = Some p -> step (Persisted (pending_id p)) c = (r, c') -> stands c c'.
Proof.
  intros Hok Ep Hs. pose proof (acknowledged_completes c p r c' Hok Ep Hs) as Hd. destruct Hok as [Hb Hr Hreq].
  unfold pending_ok in Hreq. rewrite Ep in Hreq.
  revert Hs. unfold step, mbind at 1, SE_bind at 1, get_state. cbn [negb]. rewrite andb_false_r, (finish_persistence_run c p Hb Ep Hreq). intros Hrun.
  destruct (resumed_steady c p (request_sound _ _ _ Hb Hreq)) as [Hst Hterm].
  pose proof (after_persistence_roles p (resumed c p)) as Hroles. unfold post in Hroles. rewrite Hrun in Hroles. cbn [fst snd] in Hroles.
  pose proof (done_term _ _ _ Hd) as Et. pose proof (done_log _ _ _ Hd) as El. pose proof (proposed_idle c' (done_pending _ _ _ Hd)) as Hp.
  destruct (ends_role (action p)) eqn:Eend.
  { pose proof (after_persistence_follows p (resumed c p) Eend) as Hf. unfold post in Hf. rewrite Hrun in Hf. cbn in Hf.
    assert (role_of c' = Follower) as Hfo by (unfold role_of; by rewrite Hf). split; congruence. }
  assert (action p = Campaign \/ (steady (resumed c p) c' /\ log_after (mutation p) (log c) = proposed c /\
    (role_of c = Candidate -> log_after (mutation p) (log c) = log c))) as [Ea|(Hst' & Ep' & Ecand)].
  { unfold proposed. rewrite Ep. destruct Hroles as [Hst'|[? _]]; [|by left].
    destruct p as [id m a]. cbn [action mutation] in *.
    destruct Hreq; try discriminate Eend; [by left| |right..]; [right| |].
    - split_and!; [done|done|congruence].
    - assert (forall e a at_, log_after (plan_mutation e a at_) (log c) = log c) as E by (intros; unfold log_after; cbn; apply app_nil_r).
      split_and!; [done|apply E|intros; apply E].
    - assert (forall e a at_, log_after (plan_mutation e a at_) (log c) = log c) as E by (intros; unfold log_after; cbn; apply app_nil_r).
      split_and!; [done|apply E|intros; apply E]. }
  - assert (term_after (mutation p) (current_term c) = current_term c + 1 /\ log_after (mutation p) (log c) = log c /\ role_of c <> Leader) as (E1 & E2 & E3).
    { destruct p as [id m a]. cbn [action mutation] in *. subst a. inversion Hreq; subst. split_and!; [done|unfold log_after; cbn; apply app_nil_r|done]. }
    split; [left; lia|]. intros _. right. rewrite Hp, El, E2. split_and!; [done|done|apply Hd|done|left; lia].
  - split.
    + intros Hc. right. pose proof (steady_candidate _ _ Hst' Hc) as Hc1. pose proof (steady_candidate _ _ Hst Hc1) as Hc0.
      split_and!; [done|rewrite Et; apply Hterm; congruence|rewrite El; by apply Ecand].
    + intros Hl. left. pose proof (steady_leads _ _ Hst' Hl) as Hl1. pose proof (steady_leads _ _ Hst Hl1) as Hl0.
      split_and!; [done|rewrite Et; apply Hterm; congruence|by rewrite Hp, El, Ep'].
Qed.

End standing.

(** ** Everything but inputs *)

Section quiet_actions.
Context `{Sha256}.

Lemma node_term_disk W n nd : node_ok W n nd -> node_term nd <= durable_term (disk nd).
Proof.
  intros [_ Hc]. unfold node_term. destruct (running nd) as [c|] eqn:Er; [|done]. destruct (Hc c eq_refl) as [Hf Hs].
  unfold synced in Hs. destruct (written nd); [|destruct Hs; lia]. destruct Hs as (p & Ep & -> & _).
  destruct (fine_ok _ _ _ Hf) as [Hb _ Hp]. unfold pending_ok in Hp. rewrite Ep in Hp.
  apply (sound_term _ _ (request_sound _ _ _ Hb Hp)).
Qed.

Lemma restored_log cfg d active c :
  restore_active cfg d active = Ok c -> log c = durable_log d /\ commit_index c = durable_applied d /\ pending c = None.
Proof. intros Hr. unfold restore_active, restore in Hr. inv_ok. done. Qed.

Lemma budgets_cases c d o :
  snd (set_replication_budgets d o c) = c \/ snd (set_replication_budgets d o c) = with_budgets d o c.
Proof. unfold set_replication_budgets, mbind, SE_bind, get_state. destruct (negb _); [by left|by right]. Qed.

Lemma budgets_fine W n c d o : core_fine W n c -> core_fine W n (with_budgets d o c).
Proof.
  intros [H1 H2 H3 H4 H5 H6 H7]. split; try done; [by apply with_budgets_ok|].
  intros p Ep. destruct (H7 p Ep). by split.
Qed.

Section at_node.
Context (w : World) (h : list World) (n : NodeId) (nd : Node).
Context (Hinv : inv (w :: h)) (Hn : nodes w !! n = Some nd).

Lemma here_ok : node_ok (w :: h) n nd.
Proof. apply (inv_node _ Hinv). exists w. split; [by left|done]. Qed.

Lemma here_grow x : node_ok (x :: w :: h) n nd.
Proof. eapply node_ok_grow; [|apply here_ok]. set_solver. Qed.

Lemma here_commit x : covered (x :: w :: h) (N.to_nat (last_commit (w :: h) n)) (durable_log (disk nd)).
Proof. eapply covered_grow; [|by eapply head_commit; [eapply inv_head|]]. set_solver. Qed.

(** Only the running core changes. *)
Lemma run_advance c' :
  let nd' := {| running := Some c'; disk := disk nd; written := false |} in
  let x := moved w n nd' [] [] [] in
  running nd = None -> core_fine (x :: w :: h) n c' -> role c' = Following ->
  durable_term (disk nd) = current_term c' -> durable_log (disk nd) = log c' -> advance w h n nd nd' [] [] [].
Proof.
  intros nd' x Hr Hf Hrole Ht Hl. assert (role_of c' = Follower) as Hfo by (unfold role_of; by rewrite Hrole).
  split.
  - split; [apply here_grow|]. intros c [= <-]. split; [exact Hf|]. split; [exact Ht|exact Hl].
  - intros p Hp. by apply elem_of_nil in Hp.
  - intros v u y Hp. by apply elem_of_nil in Hp.
  - intros m t a Hp. by apply elem_of_nil in Hp.
  - unfold node_term. rewrite Hr. cbn. by rewrite Ht.
  - intros c [= <-]. congruence.
  - intros c [= <-]. congruence.
  - cbn [last_commit nodes moved]. rewrite lookup_insert_eq. cbn [mbind option_bind running nd' disk]. rewrite Hl. apply (fine_commit _ _ _ Hf).
Qed.

Lemma crash_advance : advance w h n nd {| running := None; disk := disk nd; written := false |} [] [] [].
Proof.
  split.
  - split; [apply here_grow|done].
  - intros p Hp. by apply elem_of_nil in Hp.
  - intros v u y Hp. by apply elem_of_nil in Hp.
  - intros m t a Hp. by apply elem_of_nil in Hp.
  - unfold node_term at 2. cbn. eapply node_term_disk, here_ok.
  - done.
  - done.
  - cbn [last_commit nodes moved]. rewrite lookup_insert_eq. cbn [mbind option_bind running disk]. apply here_commit.
Qed.

Lemma restart_advance cfg active applied c :
  plan_built (plan cfg) -> active_built active -> applied <= last_commit (w :: h) n -> running nd = None ->
  restore_active cfg {| durable_term := durable_term (disk nd); durable_vote := durable_vote (disk nd);
                        durable_log := durable_log (disk nd); durable_applied := applied |} active = Ok c ->
  local_node_id cfg = n -> advance w h n nd {| running := Some c; disk := disk nd; written := false |} [] [] [].
Proof.
  intros Hp Ha Happ Hr Hres Hid. destruct (restored_fields _ _ _ _ Hp Ha Hres) as (Hok & Hlid & Et & _ & Erole).
  destruct (restored_log _ _ _ _ Hres) as (El & Ec & En). cbn in El, Ec, Et.
  apply run_advance; [done| |done|done|done]. split; [done|congruence| | | |by rewrite Erole|by rewrite En].
  - intros l peer p id probe E. by rewrite Erole in E.
  - rewrite El. apply here_grow.
  - rewrite El, Ec. eapply covered_le; [apply here_commit|lia].
Qed.

Lemma budgets_advance c d o :
  running nd = Some c ->
  advance w h n nd {| running := Some (snd (set_replication_budgets d o c)); disk := disk nd; written := written nd |} [] [] [].
Proof.
  intros Hr. set (c' := snd _). set (nd' := {| running := _ |}). set (x := moved w n nd' [] [] []).
  destruct (node_core _ _ _ (here_grow x) c Hr) as [Hf Hs].
  assert (core_fine (x :: w :: h) n c' /\ synced nd' c' /\ role_of c' = role_of c /\ current_term c' = current_term c /\
    log c' = log c /\ proposed c' = proposed c /\ commit_index c' = commit_index c) as (Hf' & Hs' & Ero & Et & El & Ep & Ec).
  { subst c'. destruct (budgets_cases c d o) as [E|E]; rewrite E in *.
    - split_and!; done.
    - split_and!; try done. by apply budgets_fine. }
  split.
  - split; [apply here_grow|]. intros c1 [= <-]. done.
  - intros p Hp. by apply elem_of_nil in Hp.
  - intros v u y Hp. by apply elem_of_nil in Hp.
  - intros m t a Hp. by apply elem_of_nil in Hp.
  - unfold node_term. rewrite Hr. cbn [running nd']. lia.
  - intros c1 [= <-] Hc. right. exists c. split_and!; congruence.
  - intros c1 [= <-] Hl. left. exists c. rewrite Ep. split_and!; congruence || done.
  - cbn [last_commit nodes moved]. rewrite lookup_insert_eq. cbn [mbind option_bind running nd' disk]. rewrite Ec.
    pose proof (here_commit x) as Hcov. cbn [last_commit] in Hcov. rewrite Hn in Hcov. cbn [mbind option_bind] in Hcov. by rewrite Hr in Hcov.
Qed.

Lemma write_advance c p :
  running nd = Some c -> pending c = Some p -> written nd = false ->
  advance w h n nd {| running := Some c; disk := write_disk (mutation p) (disk nd); written := true |} [] (ballot_of n (mutation p)) [].
Proof.
  intros Hr Ep Ewr. set (nd' := {| running := _ |}). set (x := moved w n nd' [] (ballot_of n (mutation p)) []).
  destruct (node_core _ _ _ (here_grow x) c Hr) as [Hf Hs]. unfold synced in Hs. rewrite Ewr in Hs. destruct Hs as [Et El].
  pose proof (fine_pending _ _ _ Hf p Ep) as Hp.
  assert (durable_log (disk nd') = log_after (mutation p) (log c)) as El' by (cbn; by rewrite El).
  assert (durable_term (disk nd') = term_after (mutation p) (current_term c)) as Et' by (cbn; by rewrite Et).
  split.
  - split; [rewrite El'; apply (pend_good _ _ _ _ Hp)|]. intros c1 [= <-]. split; [done|]. exists p. done.
  - intros k Hk. by apply elem_of_nil in Hk.
  - intros v u y Hb. unfold ballot_of in Hb. destruct (vote_state (mutation p)) as [[t [z|]]|] eqn:Ev; [|by apply elem_of_nil in Hb..].
    apply list_elem_of_singleton in Hb. injection Hb as -> -> ->.
    destruct (pend_vote _ _ _ _ Hp t z Ev) as [->|(q & Hq & Hle)]; [by left|]. right. exists q, nd'. split_and!.
    + done.
    + exists x. split; [by left|]. cbn. by rewrite lookup_insert_eq.
    + rewrite Et'. unfold term_after. by rewrite Ev.
    + by rewrite El'.
  - intros m t a Hk. by apply elem_of_nil in Hk.
  - unfold node_term. by rewrite Hr.
  - intros c1 [= <-] Hc. right. by exists c.
  - intros c1 [= <-] Hl. left. by exists c.
  - cbn [last_commit nodes moved]. rewrite lookup_insert_eq. cbn [mbind option_bind running nd']. rewrite El'.
    apply (pend_bound _ _ _ _ Hp). apply completion_same.
Qed.

End at_node.
End quiet_actions.

Section driving.
Context `{Sha256}.

Lemma held_le W p t i j l : held W p t i l -> (j <= i)%nat -> held W p t j l.
Proof. intros (nd & ? & ? & ?) Hj. exists nd. split_and!; [done|done|by eapply shares_le]. Qed.

Lemma log_proposed c : core_ok c -> log c `prefix_of` proposed c.
Proof.
  intros [_ _ Hp]. unfold proposed, pending_ok in *. destruct (pending c) as [[id m a]|]; [|done]. cbn [action mutation] in *.
  destruct Hp; try done. unfold log_after. cbn. by apply prefix_app_r.
Qed.

Lemma append_through_len q :
  validate_append_entries q = Ok tt -> append_through q = index (aq_previous q) + len (aq_entries q).
Proof.
  intros (Hc & _)%validate_append_entries_inv. unfold append_through. destruct (last (aq_entries q)) as [e|] eqn:E.
  - pose proof (contiguous_last _ _ _ Hc E). lia.
  - apply last_None in E. rewrite E. unfold len. cbn. lia.
Qed.

(** A sound request leaves the committed entries in place. *)
Lemma request_shares c m a :
  core_base c -> request_ok c m a -> shares (N.to_nat (commit_index c)) (log c) (log_after m (log c)).
Proof.
  intros Hb Hr. pose proof (request_sound _ _ _ Hb Hr) as Hs. pose proof (base_commit _ Hb) as Hc. unfold len in Hc. split; [|lia].
  apply list_eq. intros i. destruct (decide (i < N.to_nat (commit_index c))%nat) as [Hi|Hi].
  - rewrite !lookup_take_lt by done. pose proof (sound_prefix _ _ Hs (N.of_nat i) ltac:(lia)) as E. by rewrite Nat2N.id in E.
  - by rewrite !lookup_take_ge by lia.
Qed.

(** ** Leaders *)

(** Credit for entries held, and a commit quorum of it, cover the new commit index. *)
Lemma tracks_fine W n (X : NodeId -> N -> Prop) b c :
  core_ok c -> runs W n c -> tracks X b c -> covered W (N.to_nat b) (log c) ->
  (forall p m, X p m -> m = 0 \/ held W p (current_term c) (N.to_nat m) (log c)) ->
  probes_ok c /\ covered W (N.to_nat (commit_index c)) (log c) /\
  forall l p m, role c = Leading l -> matched l !! p = Some m -> m = 0 \/ held W p (current_term c) (N.to_nat m) (log c).
Proof.
  intros Hok Hr [Hl Hp Hx Hc] Hb HX. split_and!; [done| |eauto].
  destruct Hc as [Hle|(Hlead & (e & He & Ht) & acks & Hq & Hacks)]; [eapply covered_le; [exact Hb|lia]|].
  apply entry_lookup in He as [Hpos He]; [|done]. set (k := N.to_nat (commit_index c)).
  assert (shares k (log c) (proposed c)) as Hsh.
  { apply prefix_shares; [by apply log_proposed|]. apply lookup_lt_Some in He. lia. }
  right. exists (current_term c), k, (proposed c). split_and!; [|done|done]. split_and!.
  - exists n, c. done.
  - exists e. split; [|done]. rewrite <- (shares_lookup _ _ _ _ Hsh) by lia. by replace (pred k) with (N.to_nat (commit_index c - 1)) by lia.
  - lia.
  - exists (active_plan c), acks. split_and!; [by exists n, c|apply Hok|done|]. intros p Hin.
    destruct (Hacks p Hin) as (m & Hm & Hxm). destruct (HX p m Hxm) as [->|Hh]; [lia|].
    eapply held_shares; [|exact Hsh]. eapply held_le; [exact Hh|lia].
Qed.

Section with_history.
Context (w : World) (h : list World) (n : NodeId) (nd : Node) (c : ConsensusCore) (input : CoreInput).
#[local] Abbreviation W := (w :: h).
Context (Hinv : inv W) (Hn : nodes w !! n = Some nd) (Hrun : running nd = Some c).
(** Messages come out of the network. *)
Context (Hmsg : forall from inc m, input = Message from inc m ->
  exists p, p ∈ packets w /\ sent_by p = from /\ sent_to p = n /\ content p = m).

#[local] Lemma fine : core_fine W n c.
Proof. by apply (node_core _ _ _ (here_ok w h n nd Hinv Hn)). Qed.

#[local] Lemma seen_here : seen W n nd.
Proof. exists w. split; [by left|done]. Qed.

Lemma runs_fine m cm : runs W m cm -> core_fine W m cm.
Proof. intros (md & Hs & Hr). by apply (node_core _ _ _ (inv_node _ Hinv m md Hs)). Qed.

(** The leader behind an append request. *)
Lemma append_sender from inc q :
  input = Message from inc (MAppendRequest q) ->
  exists cs, core_fine W from cs /\ issued W (aq_term q) (proposed cs) /\ aq_leader_commit_index q <= commit_index cs /\
    holds_position cs (aq_previous q) (aq_previous_digest q) /\ log_slice cs (index (aq_previous q)) (aq_entries q).
Proof.
  intros E. destruct (Hmsg _ _ _ E) as (p & Hp & Hby & Hto & Hc).
  pose proof (head_packets _ _ (inv_head _ Hinv w h eq_refl) p Hp) as Hok. unfold packet_ok in Hok. rewrite Hc, Hby in Hok.
  destruct Hok as (cs & Hr & Hl & Ht & _ & Hk & Hprev & Hs). exists cs. split_and!; try done; [by apply runs_fine|].
  exists from, cs. done.
Qed.

Lemma prefix_sender from inc q :
  input = Message from inc (MCommittedPrefix q) ->
  exists cs, core_fine W from cs /\ cp_committed_index q <= commit_index cs /\
    holds_position cs (cp_previous q) (cp_previous_digest q) /\ log_slice cs (index (cp_previous q)) (cp_entries q).
Proof.
  intros E. destruct (Hmsg _ _ _ E) as (p & Hp & Hby & Hto & Hc).
  pose proof (head_packets _ _ (inv_head _ Hinv w h eq_refl) p Hp) as Hok. unfold packet_ok in Hok. rewrite Hc, Hby in Hok.
  destruct Hok as (cs & Hr & Hk & Hprev & Hs). pose proof (runs_fine _ _ Hr) as Hf. exists cs. split_and!; try done.
  pose proof (base_applied _ (ok_base _ (fine_ok _ _ _ Hf))). lia.
Qed.

(** The range of an append request, merged into the log. *)
Lemma append_merges from inc q truncate suffix vs :
  input = Message from inc (MAppendRequest q) -> validate_append_entries q = Ok tt ->
  position_matches c (aq_previous q) (aq_previous_digest q) = true -> log_delta c (aq_entries q) = Ok (truncate, suffix) ->
  exists cs, core_fine W from cs /\ issued W (aq_term q) (proposed cs) /\ aq_leader_commit_index q <= commit_index cs /\
    merges (N.to_nat (append_through q)) (log cs) (log c)
      (log_after {| vote_state := vs; truncate_from := truncate; append := suffix; mutation_epoch := None; quorum_plan := None |} (log c)).
Proof.
  intros E Hv Hm Hd. destruct (append_sender from inc q E) as (cs & Hf & Hi & Hk & Hp & Hs). exists cs. split_and!; try done.
  destruct (validate_append_entries_inv q Hv) as (Hcont & _ & _ & _ & Hpv). rewrite (append_through_len q Hv).
  eapply merged; eauto using inv_one, fine_good, fine. eapply previous_shared; eauto using inv_one, fine_good, fine.
Qed.

Lemma prefix_merges from inc q truncate suffix vs :
  input = Message from inc (MCommittedPrefix q) -> validate_committed_prefix q = Ok tt ->
  position_matches c (cp_previous q) (cp_previous_digest q) = true -> log_delta c (cp_entries q) = Ok (truncate, suffix) ->
  exists cs, core_fine W from cs /\ covered W (N.to_nat (cp_committed_index q)) (log cs) /\
    merges (N.to_nat (cp_committed_index q)) (log cs) (log c)
      (log_after {| vote_state := vs; truncate_from := truncate; append := suffix; mutation_epoch := None; quorum_plan := None |} (log c)).
Proof.
  intros E Hv Hm Hd. destruct (prefix_sender from inc q E) as (cs & Hf & Hk & Hp & Hs). exists cs. split_and!; try done.
  - eapply covered_le; [apply (fine_commit _ _ _ Hf)|lia].
  - destruct (validate_committed_prefix_inv q Hv) as (Hcont & -> & _ & _ & Hpv).
    eapply merged; eauto using inv_one, fine_good, fine. eapply previous_shared; eauto using inv_one, fine_good, fine.
Qed.

(** A commit position of the sender within the range is covered here too. *)
Lemma merges_covered k k' cs s l' :
  merges k s cs l' -> covered W k' s -> (k' <= k)%nat -> covered W k' l'.
Proof. intros [Hsh _] Hc Hk. eapply covered_shares; [exact Hc|]. apply shares_sym. by eapply shares_le. Qed.

Lemma log_after_nothing vs l :
  log_after {| vote_state := vs; truncate_from := None; append := []; mutation_epoch := None; quorum_plan := None |} l = l.
Proof. unfold log_after. cbn. apply app_nil_r. Qed.

Lemma covered_max k k' l : covered W k l -> covered W k' l -> covered W (Nat.max k k') l.
Proof. intros H1 H2. destruct (Nat.max_spec k k') as [[_ ->]|[_ ->]]; done. Qed.

(** However far a step may commit is covered. *)
Lemma bound_covered b : commit_bound c input b -> covered W (N.to_nat b) (log c).
Proof.
  pose proof (fine_commit _ _ _ fine) as Hc. intros [|from inc q E Hv Hm Hd|from inc q E Hv Hm Hd]; [done|..].
  - destruct (append_merges from inc q None [] None E Hv Hm Hd) as (cs & Hf & _ & Hk & Hmg). rewrite log_after_nothing in Hmg.
    rewrite N2Nat.inj_max. apply covered_max; [done|]. eapply merges_covered; [exact Hmg| |lia].
    eapply covered_le; [apply (fine_commit _ _ _ Hf)|lia].
  - destruct (prefix_merges from inc q None [] None E Hv Hm Hd) as (cs & Hf & Hcov & Hmg). rewrite log_after_nothing in Hmg.
    rewrite N2Nat.inj_max. apply covered_max; [done|]. by eapply merges_covered.
Qed.

(** Credit is for entries held: the node's own disk, what it already credited, or an accepted
    answer. *)
Lemma credit_held p m :
  durable_term (disk nd) = current_term c -> durable_log (disk nd) = log c -> credit c input p m ->
  m = 0 \/ held W p (current_term c) (N.to_nat m) (log c).
Proof.
  intros Ht Hl [->|Hp Hm|l Er Em|inc r E Hlead Ha Et <- Hr]; [by left| | |].
  - right. exists nd. rewrite Hp, (fine_id _ _ _ fine), Hl. split_and!; [apply seen_here|done|].
    apply shares_refl. unfold len in Hm. lia.
  - by eapply (fine_credit _ _ _ fine).
  - destruct (Hmsg _ _ _ E) as (k & Hk & Hby & _ & Hc).
    pose proof (head_packets _ _ (inv_head _ Hinv w h eq_refl) k Hk) as Hok. unfold packet_ok in Hok. rewrite Hc, Hby in Hok.
    destruct (Hok Ha) as (l & Hi & Hh). rewrite Et in Hi, Hh. destruct Hr as [[-> _]|(e & He & _)]; [by left|]. right.
    pose proof Hh as (md & _ & _ & Hs). pose proof (good_log _ _ (fine_good _ _ _ fine)) as Hlog.
    apply entry_le_len in He as [_ He]; [|done]. unfold len in He.
    eapply held_shares; [exact Hh|]. pose proof (log_proposed c (fine_ok _ _ _ fine)) as Hpre.
    assert (issued W (current_term c) (proposed c)) as Hme by (exists n, c; split_and!; [exists nd; split; [apply seen_here|done]|done..]).
    eapply shares_trans; [|apply shares_sym, (prefix_shares _ _ _ Hpre); lia].
    apply comparable_shares; [by eapply (inv_one _ Hinv)|by eapply shares_r|]. apply prefix_length in Hpre. lia.
Qed.

(** ** Requests *)

(** A request that leaves the log alone and grants nothing about it. *)
Lemma pend_same W0 c0 p :
  log_after (mutation p) (log c0) = log c0 -> good W0 (log c0) -> covered W0 (N.to_nat (commit_index c0)) (log c0) ->
  (forall to leader limit reply, action p = AppendReply to leader limit reply -> ar_accepted reply = false) ->
  (forall from limit, action p <> PrefixReply from limit) ->
  (forall u y, vote_state (mutation p) = Some (u, Some y) ->
     y = n \/ exists q, requested W0 y u q /\ position_le (last_position c0) q = true) -> pend_ok W0 n c0 p.
Proof.
  intros El Hg Hc Happ Hpre Hv. split; rewrite ?El; [done|by left| | |exact Hv].
  - intros b Hb. inversion Hb as [a Ea|to leader limit reply Ha Ea|from limit Ea]; subst; [done|..].
    + symmetry in Ea. apply Happ in Ea. congruence.
    + symmetry in Ea. by apply Hpre in Ea.
  - intros to leader limit reply Ea Ha. apply Happ in Ea. congruence.
Qed.

Lemma vote_mutation_log t v l : log_after (vote_mutation t v) l = l.
Proof. unfold log_after. cbn. apply app_nil_r. Qed.
Lemma plan_mutation_log e a at_ l : log_after (plan_mutation e a at_) l = l.
Proof. unfold log_after. cbn. apply app_nil_r. Qed.

(** A request that installs a range of [cs]. *)
Lemma pend_range W0 c0 p k cs :
  good W0 (log c0) -> good W0 (log cs) -> covered W0 (N.to_nat (commit_index c0)) (log c0) ->
  request_ok c0 (mutation p) (action p) -> core_base c0 ->
  merges k (log cs) (log c0) (log_after (mutation p) (log c0)) ->
  k = 0%nat \/ trusted W0 (term_after (mutation p) (current_term c0)) (take k (log cs)) ->
  (forall b, completion_bound (commit_index c0) (action p) b -> b = commit_index c0 \/
     exists j, N.to_nat b = Nat.max (N.to_nat (commit_index c0)) j /\ (j <= k)%nat /\ covered W0 j (log cs)) ->
  (forall to leader limit reply, action p = AppendReply to leader limit reply -> ar_accepted reply = true ->
     N.to_nat (ar_matched_index reply) = k /\
     exists l, issued W0 (term_after (mutation p) (current_term c0)) l /\ log cs `prefix_of` l) ->
  (forall u y, vote_state (mutation p) <> Some (u, Some y)) -> pend_ok W0 n c0 p.
Proof.
  intros Hg Hgs Hc Hreq Hbase Hm Ht Hb Hans Hv.
  assert (covered W0 (N.to_nat (commit_index c0)) (log_after (mutation p) (log c0))) as Hc'.
  { eapply covered_shares; [exact Hc|]. by eapply request_shares. }
  split.
  - exact (merges_good _ _ _ _ _ Hg Hgs Hm).
  - destruct Ht as [->|Ht]; [|by eapply merges_changes]. destruct Hm as [_ [->|[_ [Hp|(j & _ & [y Hy] & _)]]]]; [by left|by left|].
    by rewrite take_0, lookup_nil in Hy.
  - intros b [->|(j & -> & Hj & Hcov)]%Hb; [done|]. destruct (Nat.max_spec (N.to_nat (commit_index c0)) j) as [[_ ->]|[_ ->]]; [|done].
    eapply covered_shares; [exact Hcov|]. apply shares_sym. by eapply shares_le; [apply Hm|].
  - intros to leader limit reply Ea Ha. destruct (Hans _ _ _ _ Ea Ha) as (-> & l & Hi & Hp). exists l. split; [done|].
    destruct Hm as [Hsh _]. eapply shares_trans; [exact Hsh|]. apply prefix_shares; [done|by eapply shares_r].
  - intros u y Hvs. by destruct (Hv u y).
Qed.

Lemma proposal_good W0 m c0 e :
  core_base c0 -> good W0 (log c0) -> log_ok (log c0 ++ [e]) -> term (entry_position e) = current_term c0 ->
  log_after m (log c0) = log c0 ++ [e] -> issued W0 (current_term c0) (log c0 ++ [e]) -> good W0 (log_after m (log c0)).
Proof.
  intros Hb [Hl Hm Ho] Hok Et -> Hi. pose proof (base_terms _ Hb) as Ht. rewrite Forall_forall in Ht. split; [done| |].
  - intros i y Hy. destruct (decide (i < length (log c0))%nat) as [Hlt|Hge].
    + rewrite lookup_app_l in Hy by done. destruct (Hm i y Hy) as (s & Hs & Hsh). exists s. split; [done|].
      eapply shares_trans; [|exact Hsh]. apply shares_sym, prefix_shares; [by apply prefix_app_r|lia].
    + pose proof (lookup_lt_Some _ _ _ Hy) as Hlen. rewrite length_app in Hlen. cbn in Hlen. assert (i = length (log c0)) as -> by lia.
      rewrite list_lookup_middle in Hy by reflexivity. injection Hy as <-. rewrite Et. exists (log c0 ++ [e]). split; [done|].
      apply shares_refl. rewrite length_app. cbn. lia.
  - intros i j y y' Hij Hy Hy'. destruct (decide (j < length (log c0))%nat) as [Hlt|Hge].
    + rewrite lookup_app_l in Hy, Hy' by lia. exact (Ho i j y y' Hij Hy Hy').
    + pose proof (lookup_lt_Some _ _ _ Hy') as Hlen. rewrite length_app in Hlen. cbn in Hlen. assert (j = length (log c0)) as -> by lia.
      rewrite list_lookup_middle in Hy' by reflexivity. injection Hy' as <-. rewrite Et.
      destruct (decide (i < length (log c0))%nat) as [Hlt|Hge'].
      * rewrite lookup_app_l in Hy by done. by eapply Ht, list_elem_of_lookup_2.
      * assert (i = length (log c0)) as -> by lia. rewrite list_lookup_middle in Hy by reflexivity. injection Hy as <-. lia.
Qed.

Lemma trusted_prefix x k cs :
  core_fine W x cs -> covered W k (log cs) -> forall y, k = 0%nat \/ trusted W y (take k (log cs)).
Proof.
  intros Hf [->|(t & i & s & Hc & Hk & Hsh)] y; [by left|]. right. right. exists t, i, s. split; [done|].
  rewrite (proj1 Hsh). replace (take k s) with (take k (take i s)) by (rewrite take_take; f_equal; lia). apply prefix_take.
Qed.

Section requested_now.
Context (W0 : list World) (m : DurableMutation) (a : AfterPersistence).
Context (Hgrow : W ⊆ W0) (Hruns : runs W0 n (begun c m a)) (Hreq : request_ok c m a).
#[local] Abbreviation asks_now := (pend_ok W0 n (begun c m a) {| pending_id := next_persistence_id c; mutation := m; action := a |}).

#[local] Lemma now_good : good W0 (log (begun c m a)).
Proof. exact (good_grow _ _ _ Hgrow (fine_good _ _ _ fine)). Qed.
#[local] Lemma now_covered : covered W0 (N.to_nat (commit_index (begun c m a))) (log (begun c m a)).
Proof. exact (covered_grow _ _ _ _ Hgrow (fine_commit _ _ _ fine)). Qed.
#[local] Lemma now_base : core_base (begun c m a).
Proof. by destruct (ok_base _ (fine_ok _ _ _ fine)). Qed.
#[local] Lemma now_request : request_ok (begun c m a) m a.
Proof. by apply (request_ok_ext c). Qed.

Lemma asked_range_append from inc q truncate suffix :
  input = Message from inc (MAppendRequest q) -> validate_append_entries q = Ok tt -> current_term c <= aq_term q ->
  position_matches c (aq_previous q) (aq_previous_digest q) = true -> log_delta c (aq_entries q) = Ok (truncate, suffix) ->
  m = {| vote_state := if current_term c <? aq_term q then Some (aq_term q, None) else None;
         truncate_from := truncate; append := suffix; mutation_epoch := None; quorum_plan := None |} ->
  a = AppendReply from from (aq_leader_commit_index q) (append_reply c q true) -> asks_now.
Proof.
  intros E Hv Hterm Hm Hd Em Ea.
  destruct (append_merges from inc q truncate suffix (vote_state m) E Hv Hm Hd) as (cs & Hfs & Hi & Hk & Hmg).
  pose proof (log_proposed cs (fine_ok _ _ _ Hfs)) as Hpre.
  assert (term_after m (current_term (begun c m a)) = aq_term q) as Eterm.
  { rewrite Em. unfold term_after. cbn. destruct (N.ltb_spec (current_term c) (aq_term q)); [done|]. cbn. lia. }
  eapply (pend_range W0 _ _ _ cs); cbn [mutation action];
    [apply now_good|by eapply good_grow, (fine_good _ _ _ Hfs)|apply now_covered|apply now_request|apply now_base| | | | |].
  - rewrite Em in Hmg |- *. exact Hmg.
  - right. left. exists (proposed cs). rewrite Eterm. split; [by eapply issued_grow|]. etransitivity; [apply prefix_take|done].
  - rewrite Ea. intros b Hb. inversion Hb; subst b; [by left|right].
    exists (Nat.min (N.to_nat (aq_leader_commit_index q)) (N.to_nat (append_through q))).
    split_and!; [by rewrite N2Nat.inj_max, N2Nat.inj_min|lia|].
    eapply covered_grow; [exact Hgrow|]. eapply covered_le; [apply (fine_commit _ _ _ Hfs)|lia].
  - intros to leader limit reply Hact _. rewrite Ea in Hact. injection Hact as <- <- <- <-. split; [done|]. exists (proposed cs). rewrite Eterm.
    split; [by eapply issued_grow|done].
  - rewrite Em. intros u y. cbn. by destruct (_ <? _).
Qed.

Lemma asked_range_prefix from inc q truncate suffix observed :
  input = Message from inc (MCommittedPrefix q) -> validate_committed_prefix q = Ok tt ->
  position_matches c (cp_previous q) (cp_previous_digest q) = true -> log_delta c (cp_entries q) = Ok (truncate, suffix) ->
  m = {| vote_state := if current_term c <? observed then Some (observed, None) else None;
         truncate_from := truncate; append := suffix; mutation_epoch := None; quorum_plan := None |} ->
  a = PrefixReply from (cp_committed_index q) -> asks_now.
Proof.
  intros E Hv Hm Hd Em Ea.
  destruct (prefix_merges from inc q truncate suffix (vote_state m) E Hv Hm Hd) as (cs & Hfs & Hcov & Hmg).
  eapply (pend_range W0 _ _ _ cs); cbn [mutation action];
    [apply now_good|by eapply good_grow, (fine_good _ _ _ Hfs)|apply now_covered|apply now_request|apply now_base| | | | |].
  - rewrite Em in Hmg |- *. exact Hmg.
  - match goal with |- _ \/ trusted _ ?y _ => destruct (trusted_prefix _ _ _ Hfs Hcov y) as [?|?] end; [by left|right; by eapply trusted_grow].
  - rewrite Ea. intros b Hb. inversion Hb; subst b; [by left|right]. exists (N.to_nat (cp_committed_index q)).
    split_and!; [by rewrite N2Nat.inj_max|done|by eapply covered_grow].
  - by rewrite Ea.
  - rewrite Em. intros u y. cbn. by destruct (_ <? _).
Qed.

Lemma asked_new_entry pid position e :
  role_of c = Leader -> term (entry_position e) = current_term c ->
  m = {| vote_state := None; truncate_from := None; append := [e]; mutation_epoch := None; quorum_plan := None |} ->
  a = Proposal pid position -> asks_now.
Proof.
  intros Hl Het Em Ea.
  assert (issued W0 (current_term c) (log c ++ [e])) as Hi.
  { exists n, (begun c m a). split_and!; [done|exact Hl|done|]. unfold proposed. cbn. by rewrite Ea, Em. }
  pose proof (sound_ok _ _ (request_sound _ _ _ now_base now_request)) as (_ & _ & _ & Hlog & _).
  assert (log_after m (log (begun c m a)) = log c ++ [e]) as El by (by rewrite Em).
  split; cbn [mutation action].
  - apply (proposal_good W0 m (begun c m a) e); [apply now_base|apply now_good|rewrite El in Hlog; exact Hlog|done|done|done].
  - left. rewrite El. by apply prefix_app_r.
  - intros b Hb. assert (b = commit_index (begun c m a)) as -> by (rewrite Ea in Hb; by inversion Hb).
    eapply covered_shares; [apply now_covered|].
    eapply request_shares; [apply now_base|apply now_request].
  - by rewrite Ea.
  - by rewrite Em.
Qed.

Lemma asked_pend : asked c input m a -> asks_now.
Proof.
  pose proof now_good as Hg. pose proof now_covered as Hc. intros Hask.
  inversion Hask as [Hl Em Ea|from inc q granted E Ecand Hle Em Ea|t a' Ht Hgw Em Ea|from inc q truncate suffix E Hv Hterm Hm Hd Em Ea
    |from inc q truncate suffix E Hv Hm Hd Em Ea|pid e Hl Hpos Em Ea|epoch active at_ a' Ha Em Ea].
  - apply pend_same; cbn [mutation action]; rewrite <- ?Em; try done; [apply vote_mutation_log|by rewrite <- Ea..|].
    intros u y [= <- <-]. left. apply (fine_id _ _ _ fine).
  - apply pend_same; cbn [mutation action]; rewrite <- ?Em; try done; [apply vote_mutation_log|by rewrite <- Ea..|].
    cbn. intros u y Hvs. right. exists (vq_last_log q).
    destruct granted; [|done]. injection Hvs as <- <-. split; [|by apply Hle].
    destruct (Hmsg _ _ _ E) as (k & Hk & Hby & _ & Hck). eapply requested_grow; [exact Hgrow|].
    exists w, k, q. split_and!; try done. by left.
  - apply pend_same; cbn [mutation action]; rewrite <- ?Em; try done; [apply vote_mutation_log|..].
    + intros to leader limit reply Er. rewrite Er in Hgw. cbn in Hgw. by destruct (ar_accepted reply).
    + intros from limit Er. by rewrite Er in Hgw.
  - rewrite Em, Ea. exact (asked_range_append from inc q truncate suffix E Hv Hterm Hm Hd (eq_sym Em) (eq_sym Ea)).
  - rewrite Em, Ea. exact (asked_range_prefix from inc q truncate suffix _ E Hv Hm Hd (eq_sym Em) (eq_sym Ea)).
  - rewrite Em, Ea. refine (asked_new_entry pid _ e Hl _ (eq_sym Em) (eq_sym Ea)). by rewrite Hpos.
  - apply pend_same; cbn [mutation action]; rewrite <- ?Em; try done; [apply plan_mutation_log|..]; by destruct a.
Qed.

End requested_now.

End with_history.
End driving.
