(* ===== verification/NetworkRun.v ===== *)
(** Every action of the partition keeps the invariant behind log agreement. *)

From S2P Require Import Prelude VoterSet Predicate Plan Digest Compile FlatPlan Joint Types Membership MembershipCommand Probes History Core CoreRequest CoreLog CoreInv CoreEffects CoreSafety CoreElection CoreCommit CoreAsk Network NetworkLog NetworkInv NetworkDrive.
From stdpp Require Import prelude gmap.
#[local] Open Scope N_scope.

Section running.
Context `{Sha256}.

Lemma synced_idle nd c : synced nd c -> pending c = None ->
  written nd = false /\ durable_term (disk nd) = current_term c /\ durable_log (disk nd) = log c.
Proof. unfold synced. intros Hs Hn. destruct (written nd); [|done]. destruct Hs as (p & Hp & _). congruence. Qed.

Lemma synced_covered W n nd c : core_fine W n c -> synced nd c -> covered W (N.to_nat (commit_index c)) (durable_log (disk nd)).
Proof.
  intros Hf Hs. unfold synced in Hs. destruct (written nd).
  - destruct Hs as (p & Ep & _ & ->). apply (pend_bound _ _ _ _ (fine_pending _ _ _ Hf p Ep)), completion_same.
  - destruct Hs as [_ ->]. apply (fine_commit _ _ _ Hf).
Qed.

(** A core that waits for its disk refuses every other input. *)
Lemma step_blocked c p input :
  pending c = Some p -> (forall id, input <> Persisted id) -> step input c = (Err PersistencePending, c).
Proof.
  intros Ep Hne. unfold step, mbind, SE_bind, get_state. rewrite bool_decide_eq_true_2 by congruence.
  destruct input; try done. by destruct (Hne id).
Qed.

(** What an idle core asked for, and why. *)
Lemma idle_request c input r c' p :
  core_ok c -> input_built input -> (forall id, input <> Persisted id) -> pending c = None -> step input c = (r, c') ->
  pending c' = Some p ->
  exists m a, c' = begun c m a /\ p = {| pending_id := next_persistence_id c; mutation := m; action := a |} /\
    asked c input m a /\ request_ok c m a.
Proof.
  intros Hok Hi Hne Hidle Hs Ep. pose proof (step_cases c input Hok Hi) as Hcase. pose proof (step_asks c input Hne) as Hask.
  unfold post in Hcase, Hask. rewrite Hs in Hcase, Hask. cbn [fst snd] in Hcase, Hask.
  destruct Hask as [r c' Hq|m a Hask]; [by rewrite (quiet_pending _ _ Hq), Hidle in Ep|]. exists m, a.
  cbn in Ep. injection Ep as <-. split_and!; [done|done|done|].
  inversion Hcase as [r1 c1 Hq _ _ Er Ec|m' a' _ Hreq Em Ec|p' r1 c1 Ep' Ei]; subst.
  - pose proof (quiet_pending _ _ Hq) as E. by rewrite Hidle in E.
  - done.
  - congruence.
Qed.

Section at_node.
Context (w : World) (h : list World) (n : NodeId) (nd : Node) (c : ConsensusCore) (input : CoreInput).
Context (r : result CoreError (list CoreEffect)) (c' : ConsensusCore).
#[local] Abbreviation W := (w :: h).
Context (Hinv : inv W) (Hn : nodes w !! n = Some nd) (Hrun : running nd = Some c).
Context (Hbuilt : input_built input) (Hfed : fed nd c input).
Context (Hmsg : forall from inc m, input = Message from inc m ->
  exists p, p ∈ packets w /\ sent_by p = from /\ sent_to p = n /\ content p = m).
Context (Hstep : step input c = (r, c')).

Definition node_next : Node :=
  {| running := Some c'; disk := disk nd; written := match input with Persisted _ => false | _ => written nd end |}.
Definition world_next : World := moved w n node_next (packets_of n c' r) [] (election_of n c c').
#[local] Abbreviation W' := (world_next :: w :: h).

#[local] Lemma W_grow : W ⊆ W'.
Proof. set_solver. Qed.

#[local] Lemma fine_here : core_fine W n c.
Proof. by apply (node_core _ _ _ (here_ok w h n nd Hinv Hn)). Qed.

#[local] Lemma synced_here : synced nd c.
Proof. by apply (node_core _ _ _ (here_ok w h n nd Hinv Hn)). Qed.

#[local] Lemma ok_here : core_ok c.
Proof. apply (fine_ok _ _ _ fine_here). Qed.

#[local] Lemma world_here : world_ok w.
Proof. apply possible_ok. by eapply head_possible, inv_head. Qed.

#[local] Lemma runs_next : runs W' n c'.
Proof. exists node_next. split; [|done]. exists world_next. split; [by left|]. cbn. by rewrite lookup_insert_eq. Qed.

Lemma next_ok : core_ok c'.
Proof.
  pose proof (step_cases c input ok_here Hbuilt) as Hcase. unfold post in Hcase. rewrite Hstep in Hcase.
  by eapply step_case_ok; [apply ok_here|].
Qed.

Lemma next_stands : stands c c'.
Proof.
  destruct Hfed as [Hne|(_ & p & Ep & ->)]; [by eapply input_stands; eauto using ok_here|by eapply completed_stands; eauto using ok_here].
Qed.

Lemma next_id : local_id c' = n /\ current_term c <= current_term c'.
Proof.
  destruct (step_progress c input r c' ok_here Hbuilt Hstep) as (Ht & _ & _ & _ & _ & Hid).
  split; [|done]. rewrite Hid. apply (fine_id _ _ _ fine_here).
Qed.

(** What is left to show once the core itself is fine. *)
Lemma drive_advance :
  core_fine W' n c' -> synced node_next c' ->
  (forall p, p ∈ packets_of n c' r -> packet_ok W' p /\
     forall q, content p = MVoteRequest q -> vq_term q = current_term c' /\ vq_last_log q = last_position c') ->
  (role_of c' = Leader -> role_of c <> Leader -> won W' (current_term c') (proposed c')) ->
  advance w h n nd node_next (packets_of n c' r) [] (election_of n c c').
Proof.
  intros Hf Hs Hpk Hw. pose proof next_stands as Hst. pose proof next_id as [_ Hle]. split.
  - split; [apply (here_grow w h n nd Hinv Hn)|]. intros c1 [= <-]. done.
  - intros p Hp. destruct (Hpk p Hp) as [Hok Hq]. split_and!; [|done|].
    + unfold packets_of in Hp. destruct r as [es|e]; [|by apply elem_of_nil in Hp].
      apply list_elem_of_omap in Hp as (e & _ & He). destruct e; by simplify_eq.
    + intros q E. exists c'. split; [done|by apply Hq].
  - intros v u y Hp. by apply elem_of_nil in Hp.
  - intros m t a (-> & -> & -> & Hl & _)%election_of_cases. by exists c'.
  - unfold node_term. by rewrite Hrun.
  - unfold node_term. rewrite Hrun. intros c1 [= <-] Hc. destruct (stands_candidate _ _ Hst Hc) as [?|?]; [by left|right]. by exists c.
  - unfold node_term. rewrite Hrun. intros c1 [= <-] Hl. destruct (stands_leader _ _ Hst Hl) as [?|(_ & _ & _ & Hnl & Hor)]; [left; by exists c|right].
    split; [|by apply Hw]. destruct Hor as [?|?]; [by left|right; by exists c].
  - cbn [last_commit nodes moved world_next]. rewrite lookup_insert_eq. cbn [mbind option_bind running node_next disk].
    by apply (synced_covered _ n node_next).
Qed.

(** ** Winning an election *)

Lemma elected_ballots : role_of c' = Leader -> role_of c <> Leader ->
  exists votes, Active.satisfies (active_plan c') Election votes = true /\ forall v, v ∈ votes -> (v, current_term c', n) ∈ ballots w.
Proof.
  intros Hl Hnl. pose proof world_here as Hw. destruct (world_running w Hw n nd c Hn Hrun) as [Hc _].
  destruct (fed_sync w n nd c input r c' Hw Hn Hrun Hbuilt Hfed Hstep) as (Hid & Hvote & _).
  destruct (step_campaign c input r c' ok_here Hbuilt Hstep) as [_ Hleads].
  destruct (Hleads Hl) as [[? _]|(_ & votes & Hq & Hv)]; [done|]. exists votes. split; [done|]. intros v Hin.
  eapply supporter_ballot; eauto. intros from inc q E Hg. destruct (Hmsg _ _ _ E) as (p & Hp & <- & <- & Hcp).
  by eapply (world_packets w Hw).
Qed.

Lemma elected_won : synced node_next c' -> role_of c' = Leader -> role_of c <> Leader -> won W' (current_term c') (proposed c').
Proof.
  intros Hs Hl Hnl. destruct (stands_leader _ _ next_stands Hl) as [[? _]|(Hp & El & Hidle & _ & Hfresh)]; [done|].
  destruct (synced_idle _ _ Hs Hidle) as (_ & Et & Elog). cbn [disk node_next] in Et, Elog.
  destruct (elected_ballots Hl Hnl) as (votes & Hq & Hv).
  exists world_next, [], W. split; [done|]. rewrite Hp. split; [apply (fine_good _ _ _ fine_here)|].
  exists (active_plan c'), votes. split_and!; [exists n, c'; split; [apply runs_next|done]|apply next_ok|done|].
  intros v Hin. destruct (inv_head _ Hinv w h eq_refl) as [_ _ Hb Hr _ _ _ _ _].
  destruct (Hb _ _ _ (Hv v Hin)) as [->|(q & vd & Hreq & Hseen & Ht & Hle)].
  - exists nd. split_and!; [exists w; split; [by left|done]|done|]. rewrite Elog, El. unfold position_le.
    by rewrite N.eqb_refl, N.leb_refl, orb_true_r.
  - exists vd. split_and!; [done|done|]. destruct (Hr n (current_term c') q nd Hreq Hn) as [Hterm Hcand].
    unfold node_term in Hterm. rewrite Hrun in Hterm. destruct Hfresh as [?|[Hc Ec]]; [lia|].
    by rewrite (Hcand c Hrun Hc (eq_sym Ec)) in Hle.
Qed.

(** ** Sending *)

Lemma next_packets :
  (forall es to a, r = Ok es -> Send to (MAppendResponse a) ∈ es -> ar_accepted a = true ->
     exists l, issued W' (ar_term a) l /\ held W' n (ar_term a) (N.to_nat (ar_matched_index a)) l) ->
  forall p, p ∈ packets_of n c' r -> packet_ok W' p /\
    forall q, content p = MVoteRequest q -> vq_term q = current_term c' /\ vq_last_log q = last_position c'.
Proof.
  intros Hacc p Hp. destruct r as [es|e] eqn:Er; [|by apply elem_of_nil in Hp].
  cbn in Hp. apply list_elem_of_omap in Hp as (e & Hin & Hs). destruct e as [|to m| | | | |]; simplify_eq.
  destruct (step_effects c input es c' ok_here Hbuilt Hstep) as [(m' & a & -> & _)|He]; [by apply list_elem_of_singleton in Hin|].
  rewrite Forall_forall in He. pose proof (He _ Hin) as Hm. cbn [effect_ok] in Hm. unfold packet_ok. cbn [content sent_by sent_to].
  destruct m as [q|q|q|a|q]; (split; [|try done]).
  - done.
  - intros q' [= <-]. destruct Hm as (? & _ & _ & ?). done.
  - done.
  - exists c'. split_and!; [apply runs_next|by eapply append_requests_lead|exact Hm].
  - intros Ha. by eapply Hacc.
  - exists c'. split; [apply runs_next|exact Hm].
Qed.

Lemma answer_term es to a : r = Ok es -> Send to (MAppendResponse a) ∈ es -> ar_term a = current_term c'.
Proof.
  intros Er Hin. pose proof Hstep as Hs. rewrite Er in Hs. destruct (step_effects c input es c' ok_here Hbuilt Hs) as [(m' & b & -> & _)|He].
  - by apply list_elem_of_singleton in Hin.
  - rewrite Forall_forall in He. apply (He _ Hin).
Qed.

(** ** Inputs to an idle core *)

Section idle.
Context (Hne : forall id, input <> Persisted id) (Hidle : pending c = None).

#[local] Lemma idle_fields : current_term c' = current_term c /\ log c' = log c.
Proof.
  pose proof (step_cases c input ok_here Hbuilt) as Hcase. unfold post in Hcase. rewrite Hstep in Hcase. cbn in Hcase.
  destruct Hcase as [r1 c1 Hq _ _|m a _ _|p r1 c1 _ Ei _ _ _ _]; [|done|by apply Hne in Ei]. split; apply Hq.
Qed.

#[local] Lemma idle_disk : written nd = false /\ durable_term (disk nd) = current_term c /\ durable_log (disk nd) = log c.
Proof. apply synced_idle; [apply synced_here|done]. Qed.

Lemma idle_pending p : pending c' = Some p -> pend_ok W' n c' p.
Proof.
  intros Ep. destruct (idle_request c input r c' p ok_here Hbuilt Hne Hidle Hstep Ep) as (m & a & Ec & -> & Hask & Hreq).
  pose proof runs_next as Hr'. pose proof W_grow as Hg. revert Hr' Hg. generalize W' as W0. rewrite Ec. intros W0 Hr' Hg.
  by eapply (asked_pend w h n nd c input Hinv Hn Hrun Hmsg).
Qed.

Lemma idle_fine : core_fine W' n c'.
Proof.
  destruct idle_fields as [Et El]. destruct idle_disk as (_ & Hdt & Hdl).
  pose proof (step_tracks c input (good_log _ _ (fine_good _ _ _ fine_here)) (fine_probes _ _ _ fine_here) Hne) as Htr.
  unfold post in Htr. rewrite Hstep in Htr. cbn [fst snd] in Htr. destruct Htr as (b & Hb & Htr).
  destruct (tracks_fine W' n _ b c' next_ok runs_next Htr) as (Hp & Hc & Hcr).
  - rewrite El. eapply covered_grow; [apply W_grow|]. by eapply (bound_covered w h n nd c input).
  - intros p m Hx. rewrite Et, El. destruct (credit_held w h n nd c input Hinv Hn Hrun Hmsg p m Hdt Hdl Hx) as [?|Hh]; [by left|right].
    eapply held_grow; [apply W_grow|done].
  - split; [apply next_ok|apply next_id|done| |done|done|apply idle_pending].
    rewrite El. eapply good_grow; [apply W_grow|]. apply (fine_good _ _ _ fine_here).
Qed.

Lemma idle_synced : synced node_next c'.
Proof.
  destruct idle_fields as [Et El]. destruct idle_disk as (Hwr & Hdt & Hdl). unfold synced. cbn [written disk node_next].
  assert (match input with Persisted _ => false | _ => written nd end = false) as -> by (rewrite Hwr; by destruct input).
  by rewrite Et, El.
Qed.

Lemma idle_accepts es to a : r = Ok es -> Send to (MAppendResponse a) ∈ es -> ar_accepted a = true ->
  exists l, issued W' (ar_term a) l /\ held W' n (ar_term a) (N.to_nat (ar_matched_index a)) l.
Proof.
  intros Er Hin Ha. rewrite (answer_term es to a Er Hin). destruct idle_fields as [-> _]. destruct idle_disk as (_ & Hdt & Hdl).
  pose proof (step_accepts c input Hne) as Hacc. unfold post in Hacc. rewrite Hstep, Er in Hacc. cbn [fst snd accepts_only] in Hacc.
  destruct (Hacc to a Hin Ha) as [from inc q E Hv Eq Hm Hd ->]. rewrite <- Eq in *.
  destruct (append_merges w h n nd c input Hinv Hn Hrun Hmsg from inc q None [] None E Hv Hm Hd) as (cs & Hfs & Hi & _ & [Hsh _]).
  rewrite log_after_nothing in Hsh. exists (proposed cs). split; [eapply issued_grow; [apply W_grow|done]|].
  eapply held_grow; [apply W_grow|]. exists nd. split_and!; [exists w; split; [by left|done]|done|]. rewrite Hdl.
  eapply shares_trans; [exact Hsh|]. apply prefix_shares; [apply log_proposed, (fine_ok _ _ _ Hfs)|by eapply shares_r].
Qed.

Lemma idle_advance : advance w h n nd node_next (packets_of n c' r) [] (election_of n c c').
Proof.
  apply drive_advance; [apply idle_fine|apply idle_synced|apply next_packets, idle_accepts|apply elected_won, idle_synced].
Qed.

End idle.

(** ** Acknowledged requests *)

Section acknowledged.
Context (p : PendingPersistence) (Ep : pending c = Some p) (Ei : input = Persisted (pending_id p)) (Ewr : written nd = true).

#[local] Lemma ack_completed : completed c p c'.
Proof. eapply acknowledged_completes; [apply ok_here|done|by rewrite <- Ei]. Qed.

#[local] Lemma ack_request : request_ok c (mutation p) (action p).
Proof. pose proof (ok_pending _ ok_here) as Hp. unfold pending_ok in Hp. by rewrite Ep in Hp. Qed.

#[local] Lemma ack_run : after_persistence p (resumed c p) = (r, c').
Proof.
  rewrite <- Hstep, Ei. unfold step, mbind at 1, SE_bind at 1, get_state. cbn [negb].
  by rewrite andb_false_r, (finish_persistence_run c p (ok_base _ ok_here) Ep ack_request).
Qed.

#[local] Lemma ack_pend : pend_ok W' n c p.
Proof. eapply pend_ok_grow; [apply W_grow|]. by apply (fine_pending _ _ _ fine_here). Qed.

#[local] Lemma ack_disk : durable_term (disk nd) = current_term c' /\ durable_log (disk nd) = log c'.
Proof.
  pose proof synced_here as Hs. unfold synced in Hs. rewrite Ewr in Hs. destruct Hs as (q & Eq & Ht & Hl).
  rewrite Ep in Eq. injection Eq as <-. rewrite Ht, Hl, (done_term _ _ _ ack_completed), (done_log _ _ _ ack_completed). done.
Qed.

Lemma ack_synced : synced node_next c'.
Proof. unfold synced. cbn [written disk node_next]. rewrite Ei. apply ack_disk. Qed.

Lemma resumed_role l : role (resumed c p) = Leading l -> role c = Leading l.
Proof.
  unfold resumed, mutated, stepped_down. destruct (vote_state (mutation p)) as [[t v]|]; [|done]. by destruct (_ <? _).
Qed.

(** Only a proposal or a plan leaves a leader in place, and neither cuts its log. *)
Lemma steady_log : ends_role (action p) = false -> log c `prefix_of` log c'.
Proof.
  intros Hend. rewrite (done_log _ _ _ ack_completed). pose proof ack_request as Hreq. destruct (action p); try discriminate Hend; inversion Hreq;
    unfold log_after; cbn; try (by apply prefix_app_r).
Qed.

Lemma ack_credit q m : ends_role (action p) = false -> credit (resumed c p) Heartbeat q m ->
  m = 0 \/ held W' q (current_term c') (N.to_nat m) (log c').
Proof.
  intros Hend Hx. pose proof (mutated_fields (with_pending None c) (mutation p)) as (Et & _ & El & Eg & _).
  fold (resumed c p) in Et, El, Eg. destruct ack_disk as [Hdt Hdl]. pose proof ack_completed as Hd.
  destruct Hx as [->|Hq Hm|l Er Em|inc a E]; [by left| | |done].
  - right. exists nd. rewrite Hq. unfold local_id. rewrite Eg. cbn [config with_pending].
    change (local_node_id (config c)) with (local_id c). rewrite (fine_id _ _ _ fine_here), Hdl.
    split_and!; [exists w; split; [right; left|done]|done|]. apply shares_refl.
    rewrite (done_log _ _ _ Hd). rewrite El in Hm. cbn [log with_pending] in Hm. unfold len in Hm. lia.
  - pose proof (resumed_role l Er) as Er'. destruct (fine_credit _ _ _ fine_here l q m Er' Em) as [?|Hh]; [by left|right].
    destruct (resumed_steady c p (request_sound _ _ _ (ok_base _ ok_here) ack_request)) as [_ Hterm].
    assert (role_of (resumed c p) <> Follower) as Hrole by (unfold role_of; by rewrite Er).
    rewrite (done_term _ _ _ Hd), (Hterm Hrole). eapply held_grow; [apply W_grow|].
    eapply held_shares; [exact Hh|]. destruct Hh as (md & _ & _ & Hs). apply prefix_shares; [by apply steady_log|by eapply shares_r].
Qed.

Lemma ack_fine : core_fine W' n c'.
Proof.
  pose proof (after_persistence_tracks c p Heartbeat (ok_base _ ok_here) (fine_probes _ _ _ fine_here) ack_request) as Htr.
  unfold post in Htr. rewrite ack_run in Htr. cbn [fst snd] in Htr. destruct Htr as (b & Hb & Htr).
  pose proof ack_completed as Hd. pose proof (pend_bound _ _ _ _ ack_pend b Hb) as Hcov. rewrite <- (done_log _ _ _ Hd) in Hcov.
  assert (probes_ok c' /\ covered W' (N.to_nat (commit_index c')) (log c') /\
    forall l q m, role c' = Leading l -> matched l !! q = Some m -> m = 0 \/ held W' q (current_term c') (N.to_nat m) (log c')) as (Hp & Hc & Hcr).
  { destruct (ends_role (action p)) eqn:Hend.
    - pose proof (after_persistence_follows p (resumed c p) Hend) as Hf. unfold post in Hf. rewrite ack_run in Hf. cbn in Hf.
      eapply (tracks_fine W' n (fun _ _ => False) b); [apply next_ok|apply runs_next| |done|done].
      destruct Htr as [H1 H2 _ H4]. split; [done|done|by rewrite Hf|]. left. destruct H4 as [?|[Hl _]]; [done|].
      unfold role_of in Hl. by rewrite Hf in Hl.
    - eapply (tracks_fine W' n _ b); [apply next_ok|apply runs_next|exact Htr|done|]. intros q m. by apply ack_credit. }
  split; [apply next_ok|apply next_id|done| |done|done|].
  - rewrite (done_log _ _ _ Hd). apply (pend_good _ _ _ _ ack_pend).
  - intros q Eq. by rewrite (done_pending _ _ _ Hd) in Eq.
Qed.

Lemma ack_accepts es to a : r = Ok es -> Send to (MAppendResponse a) ∈ es -> ar_accepted a = true ->
  exists l, issued W' (ar_term a) l /\ held W' n (ar_term a) (N.to_nat (ar_matched_index a)) l.
Proof.
  intros Er Hin Ha. rewrite (answer_term es to a Er Hin). destruct ack_disk as [Hdt Hdl]. pose proof ack_completed as Hd.
  pose proof (after_persistence_accepts p (resumed c p)) as Hacc. unfold post in Hacc. rewrite ack_run, Er in Hacc. cbn [fst snd accepts_only] in Hacc.
  destruct (Hacc to a Hin Ha) as (to' & leader & limit & reply & Eact & Hra & ->).
  destruct (pend_answer _ _ _ _ ack_pend _ _ _ _ Eact Hra) as (l & Hi & Hsh). rewrite <- (done_term _ _ _ Hd) in Hi.
  rewrite <- (done_log _ _ _ Hd) in Hsh. exists l. split; [done|]. exists nd.
  split_and!; [exists w; split; [right; left|done]|done|by rewrite Hdl].
Qed.

Lemma ack_advance : advance w h n nd node_next (packets_of n c' r) [] (election_of n c c').
Proof.
  apply drive_advance; [apply ack_fine|apply ack_synced|apply next_packets, ack_accepts|apply elected_won, ack_synced].
Qed.

End acknowledged.

(** ** A core that waits *)

Lemma blocked_advance p :
  pending c = Some p -> (forall id, input <> Persisted id) ->
  advance w h n nd node_next (packets_of n c' r) [] (election_of n c c').
Proof.
  intros Ep Hne. pose proof (step_blocked c p input Ep Hne) as Hb. rewrite Hstep in Hb. injection Hb as Er Ec.
  assert (synced node_next c') as Hs.
  { pose proof synced_here as Hs. rewrite Ec. unfold synced in *. cbn [written disk node_next].
    assert (match input with Persisted _ => false | _ => written nd end = written nd) as ->; [|done].
    destruct input; try done. by destruct (Hne id). }
  apply drive_advance; [|done| |by apply elected_won].
  - rewrite Ec. eapply core_fine_grow; [apply W_grow|apply fine_here].
  - rewrite Er. intros q Hq. by apply elem_of_nil in Hq.
Qed.

Lemma fed_advance : advance w h n nd node_next (packets_of n c' r) [] (election_of n c c').
Proof.
  destruct Hfed as [Hne|(Ewr & p & Ep & Ei)]; [|by eapply ack_advance].
  destruct (pending c) as [p|] eqn:Ep; [by eapply blocked_advance|by apply idle_advance].
Qed.

End at_node.
End running.
