(* ===== verification/NetworkAgree.v ===== *)
(** Log agreement of a partition: log matching, leader completeness and state machine
    safety over every history whose plans stay adjacent. *)

From S2P Require Import Prelude VoterSet Predicate Plan Digest Compile FlatPlan Joint Types Membership MembershipCommand Probes History Core CoreRequest CoreLog CoreInv CoreEffects CoreSafety CoreElection CoreCommit CoreAsk Network NetworkLog NetworkInv NetworkDrive NetworkRun.
From stdpp Require Import prelude gmap.
#[local] Open Scope N_scope.

Section agreement.
Context `{Sha256}.

(** ** The invariant holds *)

Lemma good_nil W : good W [].
Proof. split; [apply contiguous_nil|..]; intros i; intros; by rewrite lookup_nil in *. Qed.

Lemma initial_node members n nd : nodes (initial members) !! n = Some nd ->
  nd = {| running := None; disk := durable_default; written := false |}.
Proof. cbn. by intros [_ <-]%lookup_gset_to_gmap_Some. Qed.

Lemma initial_inv members : inv [initial members].
Proof.
  assert (forall n nd, seen [initial members] n nd -> nd = {| running := None; disk := durable_default; written := false |}) as Hseen.
  { intros n nd (w & ->%list_elem_of_singleton & Hn). by eapply initial_node. }
  assert (forall n c, ~ runs [initial members] n c) as Hruns.
  { intros n c (nd & ->%Hseen & Hr). done. }
  assert (forall t l, ~ issued [initial members] t l) as Hissued by (intros t l (n & c & Hr & _); by eapply Hruns).
  assert (forall {A} (x : A), x ∈ [] -> False) as Hnil by (intros A x; apply not_elem_of_nil).
  split.
  - intros n nd ->%Hseen. split; [apply good_nil|done].
  - intros t l s Hl. by apply Hissued in Hl.
  - intros t l Hl. by apply Hissued in Hl.
  - intros w h [= <- <-]. split.
    + constructor.
    + intros p Hp. by apply Hnil in Hp.
    + intros v u x Hp. by apply Hnil in Hp.
    + intros x u q nd (w & k & r & ->%list_elem_of_singleton & Hk & _). by apply Hnil in Hk.
    + intros n t a nd Hp. by apply Hnil in Hp.
    + intros n t a Hp. by apply Hnil in Hp.
    + intros n c Hr. by apply Hruns in Hr.
    + intros n nd c l ->%initial_node Hr. done.
    + intros n nd Hn. left. cbn [last_commit]. rewrite Hn. apply initial_node in Hn. by subst nd.
Qed.

Lemma receive_msg (w : World) n k p :
  packets w !! k = Some p -> sent_to p = n -> forall from inc m, Message (sent_by p) (sent_incarnation p) (content p) = Message from inc m ->
  exists q, q ∈ packets w /\ sent_by q = from /\ sent_to q = n /\ content q = m.
Proof. intros Hp Hto from inc m [= <- <- <-]. exists p. split_and!; [by eapply list_elem_of_lookup_2|done..]. Qed.

Lemma drive_inv w h n nd c input :
  inv (w :: h) -> nodes w !! n = Some nd -> running nd = Some c -> input_built input -> fed nd c input ->
  (forall from inc m, input = Message from inc m ->
     exists p, p ∈ packets w /\ sent_by p = from /\ sent_to p = n /\ content p = m) ->
  possible (drive n nd c input w) -> plans_adjacent (drive n nd c input w :: w :: h) -> inv (drive n nd c input w :: w :: h).
Proof.
  intros Hinv Hn Hr Hb Hfed Hmsg. unfold drive. destruct (step input c) as [r c'] eqn:Hs. intros Hp Hadj.
  eapply (moved_inv w h n nd (node_next nd input c') (packets_of n c' r) [] (election_of n c c')); [done|done| |exact Hp|exact Hadj].
  by eapply fed_advance.
Qed.

Lemma act_inv a w h w' :
  inv (w :: h) -> action_built a -> honest (w :: h) a -> act a w = Some w' -> plans_adjacent (w' :: w :: h) -> inv (w' :: w :: h).
Proof.
  intros Hinv Hb Hho Ha Hadj. assert (possible w') as Hp.
  { eapply possible_act; [|exact Hb|exact Ha]. by eapply head_possible, inv_head. }
  destruct a as [n k|n input|n|n|n default_ overrides|n|n cfg active applied]; cbn in Ha; apply bind_Some in Ha as (nd & Hn & Ha).
  - apply bind_Some in Ha as (c & Hc & Ha). apply bind_Some in Ha as (p & Hpk & Ha).
    destruct (N.eqb_spec (sent_to p) n) as [Eto|]; [|done]. injection Ha as <-. apply drive_inv; try done; [by left|by eapply receive_msg].
  - apply bind_Some in Ha as (c & Hc & Ha). destruct (local_input input) eqn:El; [|done]. injection Ha as <-.
    apply drive_inv; try done; [left; by intros id ->|by intros from inc m ->].
  - apply bind_Some in Ha as (c & Hc & Ha). apply bind_Some in Ha as (p & Hpk & Ha).
    destruct (written nd) eqn:Ewr; [done|]. injection Ha as <-.
    exact (moved_inv w h n nd _ [] _ [] Hinv Hn (write_advance w h n nd Hinv Hn c p Hc Hpk Ewr) Hp Hadj).
  - apply bind_Some in Ha as (c & Hc & Ha). apply bind_Some in Ha as (p & Hpk & Ha).
    destruct (written nd) eqn:Ewr; [|done]. injection Ha as <-. apply drive_inv; try done. right. eauto.
  - apply bind_Some in Ha as (c & Hc & Ha). injection Ha as <-.
    exact (moved_inv w h n nd _ [] [] [] Hinv Hn (budgets_advance w h n nd Hinv Hn c default_ overrides Hc) Hp Hadj).
  - injection Ha as <-. exact (moved_inv w h n nd _ [] [] [] Hinv Hn (crash_advance w h n nd Hinv Hn) Hp Hadj).
  - destruct (running nd) eqn:Erun; [done|]. destruct (restore_active _ _ _) as [c|] eqn:Er; [|done].
    destruct (N.eqb_spec (local_node_id cfg) n) as [Eid|]; [|done]. injection Ha as <-. destruct Hb as [Hpl Hact].
    exact (moved_inv w h n nd _ [] [] [] Hinv Hn (restart_advance w h n nd Hinv Hn cfg active applied c Hpl Hact Hho Erun Er Eid) Hp Hadj).
Qed.

Lemma history_inv W : history W -> plans_adjacent W -> inv W.
Proof.
  induction 1 as [members|w h a w' Hh IH Hb Hho Ha]; intros Hadj; [apply initial_inv|].
  eapply act_inv; [|exact Hb|exact Hho|exact Ha|exact Hadj]. apply IH. eapply plans_adjacent_shrink; [|exact Hadj]. set_solver.
Qed.

Lemma history_suffix W h w k : history W -> W = k ++ w :: h -> history (w :: h).
Proof.
  intros Hh. revert k. induction Hh as [members|w0 h0 a w' Hh IH Hb Hho Ha]; intros [|x k] E.
  - injection E as <- <-. constructor.
  - destruct k; discriminate E.
  - injection E as <- <-. by econstructor.
  - injection E as <- E. by eapply IH.
Qed.

(** ** Disks over time *)

Lemma disk_step a w h w' v d d' :
  inv (w :: h) -> act a w = Some w' -> nodes w !! v = Some d -> nodes w' !! v = Some d' ->
  changes (w :: h) (durable_term (disk d')) (durable_log (disk d)) (durable_log (disk d')) /\
  durable_term (disk d) <= durable_term (disk d').
Proof.
  intros Hinv Ha Hv Hv'.
  assert (forall n nd nd', nodes w !! n = Some nd -> nodes w' = <[n := nd']> (nodes w) ->
    (changes (w :: h) (durable_term (disk nd')) (durable_log (disk nd)) (durable_log (disk nd')) /\ durable_term (disk nd) <= durable_term (disk nd')) ->
    changes (w :: h) (durable_term (disk d')) (durable_log (disk d)) (durable_log (disk d')) /\ durable_term (disk d) <= durable_term (disk d')) as Hone.
  { intros n nd nd' Hn Hw Hch. rewrite Hw in Hv'. apply lookup_insert_Some in Hv' as [[<- <-]|[_ Hv']].
    - rewrite Hn in Hv. by injection Hv as <-.
    - rewrite Hv in Hv'. injection Hv' as <-. split; [by left|done]. }
  assert (forall n nd c input, nodes w !! n = Some nd -> w' = drive n nd c input w ->
    changes (w :: h) (durable_term (disk d')) (durable_log (disk d)) (durable_log (disk d')) /\ durable_term (disk d) <= durable_term (disk d')) as Hdrive.
  { intros n nd c input Hn Hw. unfold drive in Hw. destruct (step input c) as [r c'].
    eapply Hone; [exact Hn|by rewrite Hw|]. cbn. split; [by left|done]. }
  destruct a as [n k|n input|n|n|n default_ overrides|n|n cfg active applied]; cbn in Ha; apply bind_Some in Ha as (nd & Hn & Ha).
  - apply bind_Some in Ha as (c & Hc & Ha). apply bind_Some in Ha as (p & Hpk & Ha).
    destruct (_ =? _); [|done]. injection Ha as <-. eapply Hdrive; [exact Hn|reflexivity].
  - apply bind_Some in Ha as (c & Hc & Ha). destruct (local_input input); [|done]. injection Ha as <-. eapply Hdrive; [exact Hn|reflexivity].
  - apply bind_Some in Ha as (c & Hc & Ha). apply bind_Some in Ha as (p & Hpk & Ha).
    destruct (written nd) eqn:Ewr; [done|]. injection Ha as <-. eapply Hone; [exact Hn|done|]. cbn.
    destruct (node_core _ _ _ (here_ok w h n nd Hinv Hn) c Hc) as [Hf Hs]. unfold synced in Hs. rewrite Ewr in Hs. destruct Hs as [-> ->].
    split; [apply (pend_changes _ _ _ _ (fine_pending _ _ _ Hf p Hpk))|].
    destruct (fine_ok _ _ _ Hf) as [Hb _ Hp]. unfold pending_ok in Hp. rewrite Hpk in Hp. apply (sound_term _ _ (request_sound _ _ _ Hb Hp)).
  - apply bind_Some in Ha as (c & Hc & Ha). apply bind_Some in Ha as (p & Hpk & Ha).
    destruct (written nd); [|done]. injection Ha as <-. eapply Hdrive; [exact Hn|reflexivity].
  - apply bind_Some in Ha as (c & Hc & Ha). injection Ha as <-. eapply Hone; [exact Hn|done|]. cbn. split; [by left|done].
  - injection Ha as <-. eapply Hone; [exact Hn|done|]. cbn. split; [by left|done].
  - destruct (running nd); [done|]. destruct (restore_active _ _ _); [|done]. destruct (_ =? _); [|done]. injection Ha as <-.
    eapply Hone; [exact Hn|done|]. cbn. split; [by left|done].
Qed.

(** Nodes are never added or removed. *)
Lemma act_nodes a w w' v : act a w = Some w' -> is_Some (nodes w' !! v) -> is_Some (nodes w !! v).
Proof.
  intros Ha. assert (forall n nd nd', nodes w !! n = Some nd -> nodes w' = <[n := nd']> (nodes w) -> is_Some (nodes w' !! v) -> is_Some (nodes w !! v)) as Hone.
  { intros n nd nd' Hn ->. destruct (decide (n = v)) as [->|?]; [by rewrite Hn; eauto|by rewrite lookup_insert_ne]. }
  destruct a as [n k|n input|n|n|n default_ overrides|n|n cfg active applied]; cbn in Ha; apply bind_Some in Ha as (nd & Hn & Ha).
  1,2,4: repeat (apply bind_Some in Ha as (? & ? & Ha)); destruct (_ : bool); [|done]; injection Ha as <-; unfold drive in *;
    match goal with |- context [step ?i ?c] => destruct (step i c) end; by eapply Hone.
  - repeat (apply bind_Some in Ha as (? & ? & Ha)). destruct (written nd); [done|]. injection Ha as <-. by eapply Hone.
  - repeat (apply bind_Some in Ha as (? & ? & Ha)). injection Ha as <-. by eapply Hone.
  - injection Ha as <-. by eapply Hone.
  - destruct (running nd); [done|]. destruct (restore_active _ _ _); [|done]. destruct (_ =? _); [|done]. injection Ha as <-. by eapply Hone.
Qed.

(** ** Leader completeness *)

Section completeness.
Context (W : list World) (Hhist : history W) (Hadj : plans_adjacent W).

#[local] Lemma suffix_sub h : h `suffix_of` W -> h ⊆ W.
Proof. intros [k E]. set_solver. Qed.

#[local] Lemma suffix_history w h : (w :: h) `suffix_of` W -> history (w :: h).
Proof. intros [k E]. by eapply history_suffix. Qed.

#[local] Lemma suffix_inv w h : (w :: h) `suffix_of` W -> inv (w :: h).
Proof.
  intros Hs. apply history_inv; [by apply suffix_history|]. eapply plans_adjacent_shrink; [by apply suffix_sub|done].
Qed.

#[local] Lemma whole_inv : inv W.
Proof. by apply history_inv. Qed.

(** Leaders of the worlds in [h] have what was ever committed in earlier terms. *)
Definition complete (h : list World) : Prop :=
  forall u l, issued h u l -> forall t i s, committed W t i s -> t < u -> shares i s l.

Lemma committed_bound t i s : committed W t i s -> (0 < i <= length s)%nat /\ exists e, s !! pred i = Some e /\ term (entry_position e) = t.
Proof. intros (_ & (e & He & Ht) & Hi & _). split; [|by exists e]. apply lookup_lt_Some in He. lia. Qed.

(** Nothing committed conflicts with a trusted log. *)
Lemma trusted_agrees h x s0 t i s l j e :
  h `suffix_of` W -> complete h -> good h l -> shares i l s -> committed W t i s -> t <= x -> trusted h x s0 ->
  (j < i)%nat -> s0 !! j = Some e -> l !! j = Some e.
Proof.
  intros Hsuf Hcomp Hg Hsh Hc Hx Htr Hj He. pose proof (suffix_sub h Hsuf) as Hsub.
  assert (forall x l0, issued h x l0 -> t <= x -> l0 !! j = Some e -> l !! j = Some e) as Hlater.
  { intros x' l0 Hi Hle He0. rewrite (shares_lookup _ _ _ j Hsh Hj). destruct (decide (t < x')) as [Hlt|Hge].
    - by rewrite (shares_lookup _ _ _ j (Hcomp _ _ Hi _ _ _ Hc Hlt) Hj).
    - assert (x' = t) as -> by lia. pose proof (shares_r _ _ _ Hsh) as Hlen.
      pose proof (inv_one _ whole_inv t s l0 (proj1 Hc) (issued_grow _ _ _ _ Hsub Hi)) as Hcmp.
      rewrite (shares_lookup (S j) s l0); [done| |lia]. apply comparable_shares; [done|lia|]. apply lookup_lt_Some in He0. lia. }
  destruct Htr as [(l0 & Hi & Hp)|(t2 & i2 & l2 & Hc2 & Hp)].
  - eapply Hlater; [done|done|]. by eapply prefix_lookup_Some.
  - eapply prefix_lookup_Some in He; [|exact Hp]. apply lookup_take_Some in He as [He Hj2]. pose proof Hc2 as [Hi2 _].
    destruct (decide (t <= t2)) as [?|Hlt]; [by eapply Hlater|].
    destruct (committed_bound t i s Hc) as (Hi & y & Hy & Hyt). rewrite <- (shares_lookup _ _ _ (pred i) Hsh) in Hy by lia.
    destruct (good_matching _ _ Hg _ _ Hy) as (l0 & Hl0 & Hsh0). rewrite Hyt in Hl0. replace (S (pred i)) with i in Hsh0 by lia.
    pose proof (Hcomp _ _ Hl0 _ _ _ (committed_grow _ _ _ _ _ Hsub Hc2) ltac:(lia)) as Hsh2.
    by rewrite (shares_lookup _ _ _ j Hsh0 Hj), <- (shares_lookup _ _ _ j Hsh2 Hj2).
Qed.

Lemma change_keeps h x t i s l l' :
  h `suffix_of` W -> complete h -> good h l -> committed W t i s -> t <= x -> changes h x l l' -> shares i l s -> shares i l' s.
Proof.
  intros Hsuf Hcomp Hg Hc Hx [Hp|(s0 & j & Htr & Hj & [e He] & Hne)] Hsh.
  - eapply shares_trans; [|exact Hsh]. apply shares_sym, prefix_shares; [done|by eapply shares_l].
  - destruct (decide (i <= j)%nat) as [Hle|Hlt].
    + eapply shares_trans; [|exact Hsh]. apply shares_sym. by eapply shares_le.
    + destruct Hne. rewrite He. eapply trusted_agrees; eauto. lia.
Qed.

(** What a disk held when a commit counted it is still there later. *)
Lemma retained L v t i s k :
  (forall h, h `suffix_of` W -> (length h < L)%nat -> complete h) -> committed W t i s ->
  forall x y x0 y0 d0 d, x :: y = k ++ x0 :: y0 -> (x :: y) `suffix_of` W -> (length (x :: y) <= L)%nat ->
  nodes x0 !! v = Some d0 -> t <= durable_term (disk d0) -> shares i (durable_log (disk d0)) s ->
  nodes x !! v = Some d -> t <= durable_term (disk d) /\ shares i (durable_log (disk d)) s.
Proof.
  intros IHL Hc. induction k as [|z k IH]; intros x y x0 y0 d0 d E Hsuf Hlen Hd0 Ht Hsh Hd.
  - injection E as -> ->. rewrite Hd0 in Hd. by injection Hd as <-.
  - injection E as -> E. destruct y as [|x1 y1]; [by destruct k|].
    pose proof (suffix_history _ _ Hsuf) as Hh. inversion Hh as [|w h a w' Hh1 _ _ Ha]; subst.
    assert ((x1 :: y1) `suffix_of` W) as Hsuf1 by (etransitivity; [by apply suffix_cons_r|exact Hsuf]).
    destruct (act_nodes a x1 z v Ha) as [d1 Hd1]; [by eexists|]. cbn [length] in Hlen.
    destruct (IH x1 y1 x0 y0 d0 d1 E Hsuf1 ltac:(cbn; lia) Hd0 Ht Hsh Hd1) as [Ht1 Hsh1].
    destruct (disk_step a x1 y1 z v d1 d (suffix_inv _ _ Hsuf1) Ha Hd1 Hd) as [Hch Hle]. split; [lia|].
    eapply change_keeps; [exact Hsuf1|apply IHL; [done|cbn; lia]| |done| |exact Hch|done]; [|lia].
    apply (node_disk _ _ _ (here_ok x1 y1 v d1 (suffix_inv _ _ Hsuf1) Hd1)).
Qed.

(** Terms on a disk never go back. *)
Lemma disk_terms v k : forall x y x0 y0 d0 d, x :: y = k ++ x0 :: y0 -> (x :: y) `suffix_of` W ->
  nodes x0 !! v = Some d0 -> nodes x !! v = Some d -> durable_term (disk d0) <= durable_term (disk d).
Proof.
  induction k as [|z k IH]; intros x y x0 y0 d0 d E Hsuf Hd0 Hd.
  - injection E as -> ->. rewrite Hd0 in Hd. by injection Hd as <-.
  - injection E as -> E. destruct y as [|x1 y1]; [by destruct k|].
    pose proof (suffix_history _ _ Hsuf) as Hh. inversion Hh as [|w h a w' Hh1 _ _ Ha]; subst.
    assert ((x1 :: y1) `suffix_of` W) as Hsuf1 by (etransitivity; [by apply suffix_cons_r|exact Hsuf]).
    destruct (act_nodes a x1 z v Ha) as [d1 Hd1]; [by eexists|].
    pose proof (IH x1 y1 x0 y0 d0 d1 E Hsuf1 Hd0 Hd1).
    destruct (disk_step a x1 y1 z v d1 d (suffix_inv _ _ Hsuf1) Ha Hd1 Hd) as [_ Hle]. lia.
Qed.

(** A voter of a later term, as it was when it voted, held what it had acknowledged. *)
Lemma voter_holds L h v t u i s d :
  (forall h, h `suffix_of` W -> (length h < L)%nat -> complete h) -> committed W t i s ->
  h `suffix_of` W -> (length h <= L)%nat -> held W v t i s -> seen h v d -> durable_term (disk d) = u -> t < u ->
  shares i (durable_log (disk d)) s.
Proof.
  intros IHL Hc Hsuf Hlen (d1 & (w1 & Hw1 & Hd1) & Ht1 & Hsh) (w2 & Hw2 & Hd2) Ht2 Hlt.
  apply list_elem_of_split in Hw1 as (k1 & y1 & E1), Hw2 as (k2 & y2 & E2). pose proof Hsuf as [k3 E3].
  assert ((w2 :: y2) `suffix_of` W) as Hsuf2 by (exists (k3 ++ k2); by rewrite E3, E2, app_assoc).
  pose proof E3 as E. rewrite E2, app_assoc in E. rewrite E1 in E. apply app_eq_inv in E as [(k & _ & E)|(k & _ & E)].
  - eapply (retained L v t i s k IHL Hc w2 y2 w1 y1 d1 d); try done; [|by rewrite Ht1].
    rewrite E2, length_app in Hlen. cbn [length] in *. lia.
  - pose proof (disk_terms v k w1 y1 w2 y2 d d1 E ltac:(by exists k1) Hd2 Hd1). lia.
Qed.

(** A log that a voter found at least as long as its own has what the voter held. *)
Lemma base_complete L h t i s l base :
  (forall h, h `suffix_of` W -> (length h < L)%nat -> complete h) -> committed W t i s ->
  h `suffix_of` W -> (length h < L)%nat -> good h base -> good W l -> shares i l s ->
  position_le (log_end l) (log_end base) = true -> shares i s base.
Proof.
  intros IHL Hc Hsuf Hlen Hbase Hl Hsh Hle. destruct (committed_bound t i s Hc) as (Hi & y & Hy & Hyt).
  rewrite <- (shares_lookup _ _ _ (pred i) Hsh) in Hy by lia. pose proof (shares_l _ _ _ Hsh) as Hil.
  destruct (lookup_lt_is_Some_2 l (pred (length l)) ltac:(lia)) as [e He]. pose proof He as Hlast. rewrite <- last_lookup in Hlast.
  pose proof (good_ordered _ _ Hl (pred i) (pred (length l)) y e ltac:(lia) Hy He) as Hte.
  destruct (good_log _ _ Hl _ _ He) as [Hie _]. unfold log_end in Hle. rewrite Hlast in Hle.
  destruct (last base) as [eb|] eqn:Eb; [|unfold position_le in Hle; cbn in Hle; apply orb_true_iff in Hle as [Hle|Hle]; bool_cases; lia].
  rewrite last_lookup in Eb. destruct (good_log _ _ Hbase _ _ Eb) as [Hib _].
  pose proof (lookup_lt_Some _ _ _ Eb) as Hblen.
  destruct (good_matching _ _ Hbase _ _ Eb) as (l0 & Hl0 & Hsh0). replace (S (pred (length base))) with (length base) in Hsh0 by lia.
  assert (term (entry_position e) < term (entry_position eb) \/
    (term (entry_position e) = term (entry_position eb) /\ (length l <= length base)%nat)) as Hcmp.
  { unfold position_le in Hle. apply orb_true_iff in Hle as [Hle|Hle]; bool_cases; [by left|right]. split; [done|lia]. }
  assert (shares i s l0 /\ (i <= length base)%nat) as [Hs0 Hib'].
  { destruct (decide (t < term (entry_position eb))) as [Hlt|Hge].
    - pose proof (IHL h Hsuf Hlen _ _ Hl0 _ _ _ Hc Hlt) as Hs0. split; [done|].
      destruct (decide (i <= length base)%nat) as [?|Hgt]; [done|]. exfalso.
      assert (l !! pred (length base) = Some eb) as Hleb.
      { rewrite (shares_lookup i l s _ Hsh), (shares_lookup i s l0 _ Hs0) by lia.
        rewrite <- (shares_lookup (length base) base l0 (pred (length base)) Hsh0) by lia. exact Eb. }
      pose proof (good_ordered _ _ Hl (pred (length base)) (pred i) eb y ltac:(lia) Hleb Hy). lia.
    - destruct Hcmp as [?|[Heq Hll]]; [lia|]. split; [|lia].
      assert (term (entry_position eb) = t) as Ht by lia. rewrite Ht in Hl0.
      apply comparable_shares; [|lia|].
      + apply (inv_one _ whole_inv t); [apply Hc|]. eapply issued_grow; [by apply suffix_sub|done].
      + pose proof (shares_r _ _ _ Hsh0). lia. }
  eapply shares_trans; [exact Hs0|]. apply shares_sym. by eapply shares_le.
Qed.

Lemma all_complete h : h `suffix_of` W -> complete h.
Proof.
  remember (length h) as L eqn:EL. revert h EL. induction L as [L IHL] using lt_wf_ind. intros h EL Hsuf u l Hi t i s Hc Hlt.
  assert (forall h, h `suffix_of` W -> (length h < L)%nat -> complete h) as IH by (intros h' Hs' Hl'; by apply (IHL (length h'))).
  assert (inv h) as Hinv.
  { destruct h as [|w h']; [|by apply suffix_inv]. destruct Hi as (n & c & (nd & (w & Hw & _) & _) & _). by apply elem_of_nil in Hw. }
  destruct (inv_won _ Hinv u l Hi) as (base & (w0 & k & h1 & E & Hbase & a & votes & Hu & Hb & Hq & Hv) & Hpre).
  pose proof Hc as (_ & _ & _ & b & acks & Hub & Hbb & Hqb & Hacks).
  destruct (adjacent_intersect a b Commit votes acks) as (v & Hin & Hin'); try done.
  { apply Hadj; [|done]. eapply used_grow; [by apply suffix_sub|done]. }
  destruct (Hv v Hin) as (d & Hseen & Hdt & Hpos).
  assert (h1 `suffix_of` W) as Hsuf1 by (etransitivity; [|exact Hsuf]; exists (w0 :: k); done).
  assert (length h1 < L)%nat as Hlen1 by (rewrite EL, E; cbn; rewrite length_app; lia).
  pose proof (voter_holds L h1 v t u i s d IH Hc Hsuf1 ltac:(lia) (Hacks v Hin') Hseen Hdt Hlt) as Hsh.
  assert (good W (durable_log (disk d))) as Hgd.
  { apply (node_disk _ v), (inv_node _ whole_inv). eapply seen_grow; [by apply suffix_sub|done]. }
  pose proof (base_complete L h1 t i s _ base IH Hc Hsuf1 Hlen1 Hbase Hgd Hsh Hpos) as Hs.
  eapply shares_trans; [exact Hs|]. apply prefix_shares; [done|by eapply shares_r].
Qed.

(** Any two commits agree. *)
Lemma commits_agree t i s t' i' s' k :
  committed W t i s -> committed W t' i' s' -> (k <= i)%nat -> (k <= i')%nat -> shares k s s'.
Proof.
  intros Hc Hc' Hk Hk'. assert (W `suffix_of` W) as Hw by (by exists []).
  destruct (N.lt_total t t') as [Hlt|[->|Hgt]].
  - eapply shares_le; [|exact Hk]. eapply (all_complete W Hw); [apply Hc'|done|done].
  - apply comparable_shares; [eapply (inv_one _ whole_inv); [apply Hc|apply Hc']|..].
    + apply committed_bound in Hc. lia.
    + apply committed_bound in Hc'. lia.
  - apply shares_sym. eapply shares_le; [|exact Hk']. eapply (all_complete W Hw); [apply Hc|done|done].
Qed.

Lemma covered_agree k l l' : covered W k l -> covered W k l' -> shares k l l'.
Proof.
  intros [->|(t & i & s & Hc & Hk & Hs)]; [intros; apply shares_0|].
  intros [->|(t' & i' & s' & Hc' & Hk' & Hs')]; [apply shares_0|].
  eapply shares_trans; [exact Hs|]. eapply shares_trans; [by eapply commits_agree|by apply shares_sym].
Qed.

Lemma runs_fine_here n c : runs W n c -> core_fine W n c.
Proof. intros (nd & Hs & Hr). by apply (node_core _ _ _ (inv_node _ whole_inv n nd Hs)). Qed.

Lemma shares_entry c c' k j : log_ok (log c) -> log_ok (log c') -> shares k (log c) (log c') -> j <= N.of_nat k -> entry c j = entry c' j.
Proof.
  intros Hl Hl' Hs Hj. destruct (N.eq_0_gt_0_cases j) as [->|Hpos]; [done|].
  pose proof (shares_lookup _ _ _ (N.to_nat (j - 1)) Hs ltac:(lia)) as E.
  apply option_eq. intros e. rewrite !entry_lookup by done. by rewrite E.
Qed.

(** The entry in flight is of the leader's own term. *)
Lemma proposed_new c k e : core_ok c -> (length (log c) <= k)%nat -> proposed c !! k = Some e -> term (entry_position e) = current_term c.
Proof.
  intros [_ _ Hp] Hk. unfold proposed, pending_ok in *.
  assert (log c !! k = Some e -> term (entry_position e) = current_term c) as Hno by (intros He; apply lookup_lt_Some in He; lia).
  destruct (pending c) as [[id m a]|]; [|done]. cbn [action mutation] in *. destruct Hp; try done.
  match goal with HN : new_entry _ _ _ _ = Ok _ |- _ => apply new_entry_Ok in HN as [Hpos _] end.
  unfold log_after. cbn. intros He. pose proof (lookup_lt_Some _ _ _ He) as Hl. rewrite length_app in Hl. cbn in Hl.
  rewrite lookup_app_r in He by lia. replace (k - length (log c))%nat with 0%nat in He by lia. injection He as <-. by rewrite Hpos.
Qed.

End completeness.
End agreement.



(** C1: state machine safety.  Whatever two cores of a partition, of any nodes at any times
    before or after any crashes, have both committed is the same: the state machines they
    drive apply the same entry at every position. *)
Theorem state_machine_safety `{Sha256} W n m c c' i :
  history W -> plans_adjacent W -> runs W n c -> runs W m c' -> i <= commit_index c -> i <= commit_index c' ->
  entry c i = entry c' i.
Proof.
  intros Hh Ha Hc Hc' Hi Hi'. pose proof (runs_fine_here W Hh Ha n c Hc) as Hf. pose proof (runs_fine_here W Hh Ha m c' Hc') as Hf'.
  apply (shares_entry c c' (N.to_nat i)); [apply Hf|apply Hf'| |lia].
  apply (covered_agree W Hh Ha); (eapply covered_le; [by eapply fine_commit|lia]).
Qed.
