(* ===== verification/NetworkSample.v ===== *)
(** Two runs of a partition: one of three voters and a learner that elects node 1, the witness
    of election safety, and one of three voters that elects node 1, commits its first entry on
    nodes 1 and 2, crashes node 1 and elects node 2, the witness of log agreement. *)

From S2P Require Import Prelude VoterSet Predicate Plan Digest Compile FlatPlan Joint Types Membership MembershipCommand Probes History Core CoreRequest CoreInv CoreSafety CoreSample Network NetworkLog NetworkAgree.
From stdpp Require Import prelude gmap.
#[local] Open Scope N_scope.
#[local] Existing Instance Sample.sha.

Module SampleNetwork.
Import SampleCore.

Definition run_actions (w : World) (actions : list Action) : option World :=
  foldl (fun w a => w ≫= act a) (Some w) actions.

Definition boot (n : NodeId) : Action := Restart n (config_for n) (Stable base) 0.

Definition world0 : World := initial {[1; 2; 3; 4]}.
Definition campaigning : list Action :=
  [boot 1; boot 2; boot 3; Local 1 ElectionTimeout; WriteDisk 1; Acknowledge 1].
(** Node 2 grants its vote, crashes and comes back; node 1 counts the grant. *)
Definition granting : list Action :=
  [Receive 2 0; WriteDisk 2; Acknowledge 2; Crash 2; boot 2; Receive 1 0].
Definition final : World := default world0 (run_actions world0 (campaigning ++ granting)).

Lemma run_actions_possible w actions w' :
  possible w -> Forall action_built actions -> run_actions w actions = Some w' -> possible w'.
Proof.
  intros Hw Ha. unfold run_actions. revert w Hw. induction Ha as [|a actions Ha _ IH]; intros w Hw; cbn [foldl].
  - by intros [= <-].
  - destruct (act a w) as [w1|] eqn:E; cbn [mbind option_bind]; rewrite E.
    + apply IH. by eapply possible_act.
    + clear. induction actions; cbn; auto. done.
Qed.

Lemma final_possible : possible final.
Proof.
  unfold final. destruct (run_actions world0 (campaigning ++ granting)) as [w|] eqn:E; cbn [default].
  - eapply run_actions_possible; [| |exact E]; [constructor|].
    repeat first [apply List.Forall_nil | apply List.Forall_cons]; first [exact I|split; exact base_built].
  - constructor.
Qed.

End SampleNetwork.

Lemma election_safety_witness :
  (1, 1, Stable SampleCore.base) ∈ elections SampleNetwork.final /\
  forall m, (m, 1, Stable SampleCore.base) ∈ elections SampleNetwork.final -> 1 = m.
Proof.
  assert ((1, 1, Stable SampleCore.base) ∈ elections SampleNetwork.final) as Hin.
  { apply (bool_decide_unpack _). vm_compute. exact I. }
  split; [exact Hin|]. intros m Hm.
  pose proof (election_safety SampleNetwork.final SampleNetwork.final_possible) as HS.
  exact (proj1 HS 1 m 1 _ _ Hin Hm (adjacent_same _)).
Defined.

Lemma one_vote_per_term_witness :
  exists p r, p ∈ packets SampleNetwork.final /\ content p = MVoteResponse r /\ vr_granted r = true /\
    forall q s, q ∈ packets SampleNetwork.final -> content q = MVoteResponse s -> vr_granted s = true ->
      sent_by p = sent_by q -> vr_term r = vr_term s -> sent_to p = sent_to q.
Proof.
  set (r := {| vr_term := 1; vr_granted := true; vr_epoch := 1; vr_plan_digest := SampleCore.digest |}).
  set (p := {| sent_by := 2; sent_incarnation := 1; sent_to := 1; content := MVoteResponse r |}).
  assert (nth_error (packets SampleNetwork.final) 3 = Some p) as Hp by (vm_compute; reflexivity).
  apply nth_error_In, list_elem_of_In in Hp. exists p, r. split; [exact Hp|]. split; [reflexivity|]. split; [reflexivity|].
  intros q s Hq Es Hs Eby Et.
  exact (one_vote_per_term SampleNetwork.final p q r s SampleNetwork.final_possible Hp Hq eq_refl Es eq_refl Hs Eby Et).
Defined.

Module SampleHistory.

(** The newest message from [x] reaches [n]. *)
Definition newest (x n : NodeId) (w : World) : Action :=
  Receive n (default 0%nat (fst <$> list_find (fun p => sent_by p = x /\ sent_to p = n) (packets w))).
Definition now (a : Action) (w : World) : Action := a.

Fixpoint run_history (W : list World) (script : list (World -> Action)) : option (list World) :=
  match script with
  | [] => Some W
  | f :: rest => w ← head W; w' ← act (f w) w; run_history (w' :: W) rest
  end.

(** Node [n] makes its request durable and hears of it. *)
Definition persist (n : NodeId) : list (World -> Action) := [now (WriteDisk n); now (Acknowledge n)].

Definition script : list (World -> Action) :=
  map (fun n => now (SampleNetwork.boot n)) [1; 2; 3] ++
  now (Local 1 ElectionTimeout) :: persist 1 ++
  newest 1 2 :: persist 2 ++ newest 2 1 ::
  now (Local 1 (ConfirmTerm 1 9)) :: persist 1 ++
  newest 1 2 :: persist 2 ++ newest 2 1 ::
  now (Local 1 Heartbeat) :: newest 1 2 :: now (Crash 1) ::
  now (Local 2 ElectionTimeout) :: persist 2 ++
  newest 2 3 :: persist 3 ++ [newest 3 2].

Definition worlds : list World := default [SampleNetwork.world0] (run_history [SampleNetwork.world0] script).

Lemma run_history_history W script W' :
  history W -> Forall (fun f => forall w V, action_built (f w) /\ honest V (f w)) script -> run_history W script = Some W' -> history W'.
Proof.
  intros HW Hs. revert W HW. induction Hs as [|f rest Hf _ IH]; intros W HW; cbn [run_history]; [by intros [= <-]|].
  destruct W as [|w h]; [done|]. cbn [head mbind option_bind]. destruct (act (f w) w) as [w'|] eqn:Ha; [|done]. cbn [mbind option_bind].
  apply IH. destruct (Hf w (w :: h)). by econstructor.
Qed.

Lemma worlds_history : history worlds.
Proof.
  unfold worlds. destruct (run_history _ script) as [W|] eqn:E; cbn [default].
  - eapply run_history_history; [constructor| |exact E].
    repeat first [apply List.Forall_nil | apply List.Forall_cons];
      intros w V; (split; [first [exact I|split; exact SampleCore.base_built]|first [exact I|apply N.le_0_l]]).
  - constructor.
Qed.

(** Every core of the history runs the plan [base]. *)
Definition stable_here (w : World) : bool :=
  forallb (fun '(_, nd) => match running nd with Some c => bool_decide (active_plan c = Stable SampleCore.base) | None => true end)
    (map_to_list (nodes w)).

Lemma stable_adjacent W : forallb stable_here W = true -> plans_adjacent W.
Proof.
  intros HW. assert (forall a, used W a -> a = Stable SampleCore.base) as Hone.
  { intros a (n & c & (nd & (w & Hw & Hn) & Hr) & <-). rewrite forallb_forall in HW. specialize (HW w (proj1 (list_elem_of_In _ _) Hw)).
    unfold stable_here in HW. rewrite forallb_forall in HW.
    specialize (HW (n, nd) (proj1 (list_elem_of_In _ _) (proj2 (elem_of_map_to_list _ _ _) Hn))). cbn in HW. rewrite Hr in HW. by bool_cases. }
  intros a b ->%Hone ->%Hone. apply adjacent_same.
Qed.

Lemma worlds_adjacent : plans_adjacent worlds.
Proof. apply stable_adjacent. vm_compute. reflexivity. Qed.

(** The newest core of [n] with a property. *)
Fixpoint find_run (W : list World) (n : NodeId) (P : ConsensusCore -> bool) : option ConsensusCore :=
  match W with
  | [] => None
  | w :: W' =>
      match nodes w !! n ≫= running with
      | Some c => if P c then Some c else find_run W' n P
      | None => find_run W' n P
      end
  end.

Lemma find_run_Some W n P c : find_run W n P = Some c -> runs W n c /\ P c = true.
Proof.
  induction W as [|w W IH]; cbn [find_run]; [done|].
  assert (find_run W n P = Some c -> runs (w :: W) n c /\ P c = true) as Hold.
  { intros Hx. destruct (IH Hx) as [Hr HP]. split; [|done]. eapply runs_grow; [|exact Hr]. set_solver. }
  destruct (nodes w !! n ≫= running) as [c0|] eqn:E; [|exact Hold]. destruct (P c0) eqn:EP; [|exact Hold]. intros [= <-].
  apply bind_Some in E as (nd & Hn & Hr). split; [|done]. exists nd. split; [|done]. exists w. split; [by left|done].
Qed.

Definition holds_here (p : NodeId) (t : N) (i : nat) (l : list LogEntry) (w : World) : bool :=
  match nodes w !! p with
  | Some nd => (durable_term (disk nd) =? t) && bool_decide (take i (durable_log (disk nd)) = take i l) &&
               (i <=? length (durable_log (disk nd)))%nat
  | None => false
  end.

Lemma holds_held W p t i l : existsb (holds_here p t i l) W = true -> held W p t i l.
Proof.
  intros (w & Hw & Hh)%existsb_exists. unfold holds_here in Hh. destruct (nodes w !! p) as [nd|] eqn:Hn; [|done]. bool_cases.
  exists nd. split; [|split; [done|split; [done|by apply Nat.leb_le]]]. exists w. split; [by apply list_elem_of_In|done].
Qed.

Definition leads_in (t : N) (c : ConsensusCore) : bool := bool_decide (role_of c = Leader) && (current_term c =? t).
Definition has_committed (c : ConsensusCore) : bool := commit_index c =? 1.

Definition leader1 : ConsensusCore := default (SampleCore.start 1) (find_run worlds 1 (fun c => leads_in 1 c && has_committed c)).
Definition leader2 : ConsensusCore := default (SampleCore.start 2) (find_run worlds 2 (fun c => leads_in 2 c && has_committed c)).

Lemma leader1_runs : runs worlds 1 leader1 /\ role_of leader1 = Leader /\ current_term leader1 = 1 /\ commit_index leader1 = 1.
Proof.
  assert (is_Some (find_run worlds 1 (fun c => leads_in 1 c && has_committed c))) as [c Hc] by (apply (bool_decide_unpack _); vm_compute; exact I).
  unfold leader1. rewrite Hc. cbn [default]. apply find_run_Some in Hc as [Hr HP]. unfold leads_in, has_committed in HP. by bool_cases.
Qed.

Lemma leader2_runs : runs worlds 2 leader2 /\ role_of leader2 = Leader /\ current_term leader2 = 2 /\ commit_index leader2 = 1.
Proof.
  assert (is_Some (find_run worlds 2 (fun c => leads_in 2 c && has_committed c))) as [c Hc] by (apply (bool_decide_unpack _); vm_compute; exact I).
  unfold leader2. rewrite Hc. cbn [default]. apply find_run_Some in Hc as [Hr HP]. unfold leads_in, has_committed in HP. by bool_cases.
Qed.

Lemma first_committed : committed worlds 1 1 [SampleCore.first_entry].
Proof.
  destruct leader1_runs as (Hr & Hl & Ht & _). split_and!.
  - exists 1, leader1. split_and!; [done|done|done|]. vm_compute. reflexivity.
  - exists SampleCore.first_entry. split; [exact eq_refl|exact eq_refl].
  - lia.
  - exists (Stable SampleCore.base), {[1; 2]}. split_and!.
    + exists 1, leader1. split; [done|]. vm_compute. reflexivity.
    + exact SampleCore.base_built.
    + vm_compute. reflexivity.
    + intros p [->%elem_of_singleton| ->%elem_of_singleton]%elem_of_union; apply holds_held; vm_compute; reflexivity.
Qed.

End SampleHistory.



Lemma state_machine_safety_witness :
  commit_index SampleHistory.leader1 = 1 /\ commit_index SampleHistory.leader2 = 1 /\
  entry SampleHistory.leader1 1 = entry SampleHistory.leader2 1.
Proof.
  destruct SampleHistory.leader1_runs as (H1 & _ & _ & C1). destruct SampleHistory.leader2_runs as (H2 & _ & _ & C2).
  split; [exact C1|]. split; [exact C2|].
  apply (state_machine_safety SampleHistory.worlds 1 2 SampleHistory.leader1 SampleHistory.leader2 1
    SampleHistory.worlds_history SampleHistory.worlds_adjacent H1 H2); [rewrite C1|rewrite C2]; reflexivity.
Defined.
