(* ===== verification/Findings.v ===== *)
(** Two runs that end in a durable state [restore] refuses: a vote for a member that has
    since been removed, and a log whose terms decrease; and one in which a restarted leader
    releases a linearizable read on the strength of an answer that is older than the read:
    probe identifiers and read identifiers begin again at 1 after a restart, and a rejection
    that carries the receiver's term is accepted as contact, so an answer to a request of an
    earlier term of the same node confirms a later read. *)

From S2P Require Import Prelude VoterSet Predicate Plan Digest Compile FlatPlan Joint Types Membership MembershipCommand Probes History Core CoreRequest CoreInv CoreSafety CoreExact CoreSample Network NetworkLog NetworkAgree NetworkSample.
From stdpp Require Import prelude gmap.
#[local] Open Scope N_scope.
#[local] Existing Instance Sample.sha.

(** ** A vote for a removed member *)

Module Removal.
Import SampleCore.

(** Five voters.  Node 1 campaigns in term 2 and node 2 votes for it, both cut off from
    leader 3 of term 1, which removes node 1 with the acknowledgements of 3, 5 and 6: a
    majority of the old, the joint and the new plan. *)
Definition five : CompiledQuorumPlan := compiled (flat_spec 7 1 {[1; 2; 3; 5; 6]} ∅).
Definition incarnations : gmap N N := {[1 := 1; 2 := 1; 3 := 1; 5 := 1; 6 := 1]}.
Definition joint : JointQuorumPlan :=
  match plan_flat_member_removal five incarnations 1 1 11 with
  | Ok r => removal_plan r
  | Err _ => {| old_plan := five; new_plan := five; joint_digest := [];
                joint_proof := {| old_epoch := 0; new_epoch := 0; transition_digest := [] |} |}
  end.
Definition successor : CompiledQuorumPlan := new_plan joint.
Definition remaining : gmap N N := delete 1 incarnations.

Definition encoded (c : MembershipTransitionCommand) : bytes :=
  match encode_command c with Ok b => b | Err _ => [] end.
Definition removal_entry : LogEntry :=
  entry_of 1 1 21 MEMBERSHIP_COMMAND_VERSION (encoded (RemoveMember joint 1 1)).
Definition finalise_entry : LogEntry :=
  entry_of 1 2 22 MEMBERSHIP_COMMAND_VERSION (encoded (FinaliseStable successor)).

Definition first_plan : CoreConfig :=
  {| partition_id := 1; local_node_id := 2; local_incarnation := 1; plan := five; member_incarnations := incarnations |}.
Definition fresh : ConsensusCore :=
  match new_core first_plan with Ok c => c | Err _ => start 2 end.

Definition campaign : CoreInput :=
  Message 1 1 (MVoteRequest {| vq_term := 2; vq_candidate := 1; vq_candidate_incarnation := 1;
    vq_last_log := GENESIS; vq_epoch := 1; vq_plan_digest := plan_proof_digest five |}).
(** Node 3 serves the committed log to a node in an older membership epoch. *)
Definition prefix_from (previous : LogPosition) (previous_digest : bytes) (e : LogEntry) (active : ActiveQuorumPlan)
    : CoreInput :=
  Message 3 1 (MCommittedPrefix {| cp_previous := previous; cp_previous_digest := previous_digest; cp_entries := [e];
    cp_committed_index := index (entry_position e); cp_epoch := Active.membership_epoch active;
    cp_plan_digest := Active.proof_digest active |}).

(** What node 2 receives. *)
Definition inputs : list CoreInput :=
  [campaign; Persisted 1;
   prefix_from GENESIS zero32 removal_entry (Stable five); Persisted 2;
   AppliedThrough 1;
   ActivateJointPlan joint incarnations (entry_position removal_entry); Persisted 3;
   prefix_from (entry_position removal_entry) (entry_digest removal_entry) finalise_entry (JointPhase joint); Persisted 4;
   AppliedThrough 2;
   ActivateStablePlan successor remaining (entry_position finalise_entry); Persisted 5].
Definition final : ConsensusCore := run fresh inputs.
(** The configuration a restart builds: the recovery plan of the durable active plan. *)
Definition restarted : CoreConfig :=
  {| partition_id := 1; local_node_id := 2; local_incarnation := 1;
     plan := Active.recovery_configuration_plan (active_plan final); member_incarnations := remaining |}.

Lemma five_built : plan_built five.
Proof.
  unfold plan_built, five, compiled. destruct (compile_plan (flat_spec 7 1 {[1; 2; 3; 5; 6]} ∅)) as [p|e] eqn:E.
  - by apply compile_plan_built in E.
  - vm_compute in E. discriminate E.
Qed.

Lemma joint_is_built : joint_built joint.
Proof.
  unfold joint. destruct (plan_flat_member_removal five incarnations 1 1 11) as [r|e] eqn:E.
  - exact (proj1 (proj2 (proj2 (removal_Ok _ _ _ _ _ _ five_built E)))).
  - vm_compute in E. discriminate E.
Qed.

Lemma final_reachable : reachable final.
Proof.
  apply run_reachable.
  - apply (reach_restore first_plan durable_default); [exact five_built|vm_compute; reflexivity].
  - repeat first [apply List.Forall_nil | apply List.Forall_cons];
      first [exact I | exact joint_is_built | exact (proj1 (proj2 joint_is_built))].
Qed.

End Removal.


(** ** A log whose terms decrease *)

Module Decreasing.
Import SampleCore.
(** Leader 1 of term 3 sends an entry of term 2 followed by one of term 1. *)
Definition older : LogEntry := entry_of 2 1 31 1 [7].
Definition oldest : LogEntry := entry_of 1 2 32 1 [8].
Definition final : ConsensusCore :=
  run (start 2) [append_from 1 3 GENESIS zero32 [older; oldest] 0 1 digest; Persisted 1].
End Decreasing.

(** [validate_append_entries] does not compare the terms of the entries of a range with
    each other, so a core acknowledges a range whose terms decrease, and its durable state is
    then refused by [restore]. *)
Theorem accepted_decreasing_terms_block_restart :
  reachable Decreasing.final /\ log Decreasing.final = [Decreasing.older; Decreasing.oldest] /\
  restore (SampleCore.config_for 2) (disk_of Decreasing.final) = Err InvalidInput.
Proof.
  split; [unfold Decreasing.final; SampleCore.reach_sample|]. split; vm_compute; reflexivity.
Qed.

Module StaleRead.
Import SampleHistory.

(** The newest packet from [x] to [n] with a property is delivered. *)
Definition chosen (x n : NodeId) (P : CoreMessage -> bool) (w : World) : Action :=
  Receive n (default 0%nat (fst <$> list_find (fun p => sent_by p = x /\ sent_to p = n /\ P (content p) = true) (packets w))).

Definition asks_read (t : N) (m : CoreMessage) : bool :=
  match m with MAppendRequest q => (aq_term q =? t) && bool_decide (aq_read_barrier_id q = Some 1) | _ => false end.
Definition answers_read (m : CoreMessage) : bool :=
  match m with MAppendResponse r => bool_decide (ar_read_barrier_id r = Some 1) | _ => false end.
Definition carries (m : CoreMessage) : bool :=
  match m with MAppendRequest q => negb (bool_decide (aq_entries q = [])) | _ => false end.

(** [n] is elected with the vote of [v]. *)
Definition elect (n v : NodeId) : list (World -> Action) :=
  now (Local n ElectionTimeout) :: persist n ++ newest n v :: persist v ++ [newest v n].
(** Leader [n] commits one entry with [v]. *)
Definition confirm (n v : NodeId) : list (World -> Action) :=
  now (Local n (ConfirmTerm 1 9)) :: persist n ++ chosen n v carries :: persist v ++ [newest v n].

(** Node 1 leads term 1, commits an entry, asks its peers to confirm read 1 and crashes. It
    restarts, leads term 2 with the vote of node 3, which answers the request of term 1 late,
    commits and applies a second entry, and is replaced by node 2 in term 3, whose entry 3 is
    committed with node 3. *)
Definition script : list (World -> Action) :=
  map (fun n => now (SampleNetwork.boot n)) [1; 2; 3] ++
  elect 1 2 ++ confirm 1 2 ++ [now (Local 1 (BeginReadBarrier 1)); now (Crash 1); now (SampleNetwork.boot 1)] ++
  elect 1 3 ++ [chosen 1 3 (asks_read 1)] ++ confirm 1 2 ++ [now (Local 1 (AppliedThrough 2))] ++
  elect 2 3 ++ [newest 2 3; newest 3 2; newest 2 3] ++ persist 3 ++ newest 3 2 :: confirm 2 3.
Definition worlds : list World := default [SampleNetwork.world0] (run_history [SampleNetwork.world0] script).

Lemma stale_worlds_history : history worlds.
Proof.
  unfold worlds. destruct (run_history _ script) as [W|] eqn:E; cbn [default].
  - eapply run_history_history; [constructor| |exact E].
    repeat first [apply List.Forall_nil | apply List.Forall_cons];
      intros w V; (split; [first [exact I|split; exact SampleCore.base_built]|first [exact I|apply N.le_0_l]]).
  - constructor.
Qed.

(** The core that runs on node [n], and whether a read is outstanding there. *)
Definition core_of (n : NodeId) (w : World) : option ConsensusCore := nodes w !! n ≫= running.
Definition idle (c : ConsensusCore) : bool :=
  match role c with Leading l => bool_decide (read_barriers l = ∅) | _ => true end.

(** Before the read begins: node 2 has committed index 3 and node 1 has no outstanding read. *)
Definition overtaken (w : World) : bool :=
  match core_of 2 w, core_of 1 w with
  | Some c2, Some c1 => (commit_index c2 =? 3) && bool_decide (role_of c2 = Leader) && bool_decide (role_of c1 = Leader) && idle c1
  | _, _ => false
  end.

(** The effects release read [r] at index [i]. *)
Definition reports (r i : N) (e : CoreEffect) : bool :=
  match e with ReadBarrierReady id required => (id =? r) && (required =? i) | _ => false end.
Lemma reports_elem r i es : existsb (reports r i) es = true -> ReadBarrierReady r i ∈ es.
Proof. intros ([] & Hin%list_elem_of_In & Hx)%existsb_exists; try done. cbn [reports] in Hx. apply andb_true_iff in Hx as [->%N.eqb_eq ->%N.eqb_eq]. exact Hin. Qed.

(** The late answer of node 3, delivered to node 1, releases read 1 at index 2. *)
Definition releases (w : World) (p : Packet) : bool :=
  match core_of 1 w with
  | Some c =>
      match step (Message (sent_by p) (sent_incarnation p) (content p)) c with
      | (Ok es, _) => (sent_to p =? 1) && (sent_by p =? 3) && existsb (reports 1 2) es
      | _ => false
      end
  | None => false
  end.

(** The read that begins at the end of a history is overtaken and released. *)
Definition ends_stale (W : list World) : bool :=
  match W with
  | w0 :: _ => overtaken w0 && match act (Local 1 (BeginReadBarrier 1)) w0 with
                               | Some w => existsb (releases w) (packets w)
                               | None => false
                               end
  | [] => false
  end.

Lemma worlds_end_stale : ends_stale worlds = true.
Proof. vm_compute. reflexivity. Qed.

Lemma ends_stale_spec W : ends_stale W = true ->
  exists (w0 w : World) (V : list World) (c0 c1 c2 : ConsensusCore) (p : Packet) (es : list CoreEffect) (c' : ConsensusCore),
    W = w0 :: V /\ act (Local 1 (BeginReadBarrier 1)) w0 = Some w /\
    core_of 2 w0 = Some c2 /\ role_of c2 = Leader /\ commit_index c2 = 3 /\
    core_of 1 w0 = Some c0 /\ role_of c0 = Leader /\ idle c0 = true /\
    core_of 1 w = Some c1 /\ p ∈ packets w /\ sent_to p = 1 /\
    step (Message (sent_by p) (sent_incarnation p) (content p)) c1 = (Ok es, c') /\
    ReadBarrierReady 1 2 ∈ es.
Proof.
  destruct W as [|w0 V]; cbn [ends_stale]; [done|]. intros [Ho Hr]%andb_true_iff.
  destruct (act _ w0) as [w|] eqn:Ea; [|done]. apply existsb_exists in Hr as (p & Hp & Hr).
  unfold overtaken in Ho. destruct (core_of 2 w0) as [c2|] eqn:E2; [|done]. destruct (core_of 1 w0) as [c0|] eqn:E0; [|done].
  unfold releases in Hr. destruct (core_of 1 w) as [c1|] eqn:E1; [|done].
  destruct (step _ c1) as [[es|e] c'] eqn:Es; [|done]. bool_cases.
  exists w0, w, V, c0, c1, c2, p, es, c'. split_and!; try done; [by apply list_elem_of_In|by apply reports_elem].
Qed.
End StaleRead.

(** C39: a leader can release a linearizable read below an index that another leader had
    committed before the read began: there is a history of the modelled partition (elections,
    restarts and late messages only) after which node 2 has committed index 3 while node 1, still
    leader of an older term, has no outstanding read; node 1 then begins read 1, and a message
    already in the network makes its core report that read ready at index 2. *)
Theorem stale_read_released :
  exists (w0 w : World) (V : list World) (c0 c1 c2 : ConsensusCore) (p : Packet) (es : list CoreEffect) (c' : ConsensusCore),
    history (w0 :: V) /\ act (Local 1 (BeginReadBarrier 1)) w0 = Some w /\
    StaleRead.core_of 2 w0 = Some c2 /\ role_of c2 = Leader /\ commit_index c2 = 3 /\
    StaleRead.core_of 1 w0 = Some c0 /\ role_of c0 = Leader /\ StaleRead.idle c0 = true /\
    StaleRead.core_of 1 w = Some c1 /\ p ∈ packets w /\ sent_to p = 1 /\
    step (Message (sent_by p) (sent_incarnation p) (content p)) c1 = (Ok es, c') /\
    ReadBarrierReady 1 2 ∈ es.
Proof.
  destruct (StaleRead.ends_stale_spec _ StaleRead.worlds_end_stale) as (w0 & w & V & c0 & c1 & c2 & p & es & c' & E & Hx).
  exists w0, w, V, c0, c1, c2, p, es, c'. split; [|exact Hx]. rewrite <- E. exact StaleRead.stale_worlds_history.
Qed.
