(* ===== verification/Topology.v ===== *)
(** Fault topology and the simultaneous-loss oracle: meshspan-domain/src/topology.rs.  The
    enumeration is shown to decide exactly whether a layout survives every loss a scenario
    allows. *)

From S2P Require Import Prelude.
From stdpp Require Import prelude gmap.
#[local] Open Scope N_scope.

Abbreviation HostId := N (only parsing).
Abbreviation TargetId := N (only parsing).
Abbreviation FaultGroupId := N (only parsing).
Abbreviation FaultGroupClassId := N (only parsing).

Definition MAX_HOSTS : N := 65536.
Definition MAX_TARGETS : N := 262144.
Definition MAX_FAULT_GROUPS : N := 16384.
Definition MAX_SCENARIO_TERMS : N := 16.
Definition MAX_SLICES_PER_STRIPE : N := 24.

Inductive ProtectionError :=
| UnknownHost | UnknownFaultGroup | UnknownResource | IdentityConflict | CapacityExceeded
| InvalidScenario | InsufficientTopology | InvalidProofBound | ProofBoundExceeded | InvalidLayout.

Inductive FaultGroupMember := Host (host : HostId) | Target (target : TargetId).

#[export] Instance FaultGroupMember_eq_dec : EqDecision FaultGroupMember.
Proof. solve_decision. Defined.
#[export] Instance FaultGroupMember_countable : Countable FaultGroupMember.
Proof.
  refine (inj_countable' (fun m => match m with Host h => inl h | Target t => inr t end)
    (fun s => match s with inl h => Host h | inr t => Target t end) _). by intros [].
Defined.

Record FaultGroup := { group_class : FaultGroupClassId; group_members : gset FaultGroupMember }.

Record Topology := {
  hosts : gset HostId;
  target_hosts : gmap TargetId HostId;
  fault_groups : gmap FaultGroupId FaultGroup;
}.

Definition topology_default : Topology := {| hosts := ∅; target_hosts := ∅; fault_groups := ∅ |}.

(** ** Registration *)

Definition target_host (t : Topology) (target : TargetId) : option HostId := target_hosts t !! target.

Abbreviation Registering := (SE Topology ProtectionError bool).

Definition register_host (host : HostId) : Registering :=
  t ← get_state;
  if negb (bool_decide (host ∈ hosts t)) && (N.of_nat (size (hosts t)) =? MAX_HOSTS)
  then raise CapacityExceeded
  else
    _ ← modify_state (fun t => {| hosts := {[host]} ∪ hosts t; target_hosts := target_hosts t;
                                  fault_groups := fault_groups t |});
    mret (negb (bool_decide (host ∈ hosts t))).

Definition register_target (target : TargetId) (host : HostId) : Registering :=
  t ← get_state;
  if negb (bool_decide (host ∈ hosts t)) then raise UnknownHost
  else
    match target_hosts t !! target with
    | Some existing => if negb (existing =? host) then raise IdentityConflict else mret false
    | None =>
        if N.of_nat (size (target_hosts t)) =? MAX_TARGETS then raise CapacityExceeded
        else
          _ ← modify_state (fun t => {| hosts := hosts t; target_hosts := <[target := host]> (target_hosts t);
                                        fault_groups := fault_groups t |});
          mret true
    end.

Definition set_group (id : FaultGroupId) (g : FaultGroup) (t : Topology) : Topology :=
  {| hosts := hosts t; target_hosts := target_hosts t; fault_groups := <[id := g]> (fault_groups t) |}.

Definition register_fault_group (id : FaultGroupId) (class : FaultGroupClassId) : Registering :=
  t ← get_state;
  match fault_groups t !! id with
  | Some existing => if negb (group_class existing =? class) then raise IdentityConflict else mret false
  | None =>
      if N.of_nat (size (fault_groups t)) =? MAX_FAULT_GROUPS then raise CapacityExceeded
      else _ ← modify_state (set_group id {| group_class := class; group_members := ∅ |}); mret true
  end.

Definition require_member_exists (t : Topology) (member : FaultGroupMember) : result ProtectionError unit :=
  let exists_ := match member with
                 | Host host => bool_decide (host ∈ hosts t)
                 | Target target => bool_decide (target ∈ dom (target_hosts t))
                 end in
  if exists_ then Ok tt else Err UnknownResource.

Definition add_fault_group_member (id : FaultGroupId) (member : FaultGroupMember) : Registering :=
  t ← get_state;
  _ ← lift (require_member_exists t member);
  g ← lift (ok_or (fault_groups t !! id) UnknownFaultGroup);
  _ ← modify_state (set_group id {| group_class := group_class g; group_members := {[member]} ∪ group_members g |});
  mret (negb (bool_decide (member ∈ group_members g))).

(** ** Losses *)

Definition groups_in_class (t : Topology) (class : FaultGroupClassId) : list FaultGroupId :=
  map fst (List.filter (fun '(_, g) => group_class g =? class) (ascending_map (fault_groups t))).

Definition member_targets (t : Topology) (m : FaultGroupMember) : gset TargetId :=
  match m with
  | Host host => dom (filter (fun kv => snd kv = host) (target_hosts t))
  | Target target => {[target]}
  end.

Definition targets_affected_by (t : Topology) (failed_groups : list FaultGroupId) : gset TargetId :=
  foldl (fun targets id =>
      match fault_groups t !! id with
      | Some g => targets ∪ ⋃ (member_targets t <$> elements (group_members g))
      | None => targets
      end) ∅ failed_groups.

Record FailureTerm := { term_class : FaultGroupClassId; failure_count : N }.

#[export] Instance FailureTerm_eq_dec : EqDecision FailureTerm.
Proof. solve_decision. Defined.

Abbreviation FailureScenario := (list FailureTerm) (only parsing).

Definition new_scenario (terms : list FailureTerm) : result ProtectionError FailureScenario :=
  if bool_decide (terms = []) || (MAX_SCENARIO_TERMS <? len terms) then Err InvalidScenario
  else
    _ ← try_fold (fun (classes : gset FaultGroupClassId) t =>
          if (failure_count t =? 0) || bool_decide (term_class t ∈ classes) then Err InvalidScenario
          else Ok ({[term_class t]} ∪ classes)) ∅ terms;
    Ok terms.

(** [values[index]] is in range whenever the loop reaches it. *)
Fixpoint build_combinations {A} (values : list A) (remaining start : nat) (current : list A)
    (output : list (list A)) (maximum_sets : N) : result ProtectionError (list (list A)) :=
  match remaining with
  | O => if len output =? maximum_sets then Err ProofBoundExceeded else Ok (output ++ [current])
  | S remaining' =>
      let last_start := (length values - remaining)%nat in
      try_fold (fun output index =>
          match values !! index with
          | Some value => build_combinations values remaining' (index + 1) (current ++ [value]) output maximum_sets
          | None => Ok output
          end) output (seq start (last_start + 1 - start))
  end.

Definition combinations {A} (values : list A) (count : nat) (maximum_sets : N) : result ProtectionError (list (list A)) :=
  build_combinations values count 0 [] [] maximum_sets.

Definition cartesian_union {A} (left right : list (list A)) (maximum_sets : N)
    : result ProtectionError (list (list A)) :=
  _ ← ok_or (n ← checked_mul usize_max (len left) (len right); if n <=? maximum_sets then Some n else None)
        ProofBoundExceeded;
  Ok (first ← left; second ← right; [first ++ second]).

Definition group_loss_sets (scenario : FailureScenario) (t : Topology) (maximum_sets : N)
    : result ProtectionError (list (list FaultGroupId)) :=
  if maximum_sets =? 0 then Err InvalidProofBound
  else
    try_fold (fun combined term =>
        let groups := groups_in_class t (term_class term) in
        let count := failure_count term in
        if len groups <? count then Err InsufficientTopology
        else
          selections ← combinations groups (N.to_nat count) maximum_sets;
          cartesian_union combined selections maximum_sets)
      [[]] scenario.

(** ** The proof of one layout *)

Record ProtectionLayout := { required_slices : N; slice_targets : list TargetId }.

Definition new_layout (required : N) (targets : list TargetId) : result ProtectionError ProtectionLayout :=
  if (required =? 0) || (len targets <? required) || (MAX_SLICES_PER_STRIPE <? len targets)
  then Err InvalidLayout
  else Ok {| required_slices := required; slice_targets := targets |}.

Record ProtectionProof := { survives : bool; evaluated_loss_sets : N; minimum_remaining_slices : N }.

#[export] Instance ProtectionProof_eq_dec : EqDecision ProtectionProof.
Proof. solve_decision. Defined.

Definition remaining_slices (t : Topology) (layout : ProtectionLayout) (groups : list FaultGroupId) : N :=
  let lost := targets_affected_by t groups in
  len (filter (fun target => target ∉ lost) (slice_targets layout)).

(** [iter().min()]. *)
Definition minimum (l : list N) : option N :=
  match l with
  | [] => None
  | x :: rest => Some (foldl N.min x rest)
  end.

Definition prove_protection (t : Topology) (scenario : FailureScenario) (layout : ProtectionLayout)
    (maximum_loss_sets : N) : result ProtectionError ProtectionProof :=
  if existsb (fun target => negb (bool_decide (target ∈ dom (target_hosts t)))) (slice_targets layout)
  then Err UnknownResource
  else
    loss_sets ← group_loss_sets scenario t maximum_loss_sets;
    least ← ok_or (minimum (map (remaining_slices t layout) loss_sets)) InvalidScenario;
    Ok {| survives := required_slices layout <=? least;
          evaluated_loss_sets := len loss_sets;
          minimum_remaining_slices := least |}.

(** ** Combinations *)

(** The sublists of a given length, in order of position. *)
Fixpoint k_sublists {A} (n : nat) (l : list A) : list (list A) :=
  match n, l with
  | O, _ => [[]]
  | S _, [] => []
  | S n', x :: l' => map (cons x) (k_sublists n' l') ++ k_sublists n l'
  end.

Lemma k_sublists_0 {A} (l : list A) : k_sublists 0 l = [[]].
Proof. by destruct l. Qed.

Lemma elem_of_k_sublists {A} (c : list A) n l : c ∈ k_sublists n l <-> c `sublist_of` l /\ length c = n.
Proof.
  revert c n. induction l as [|x l IH]; intros c [|n]; cbn [k_sublists].
  - rewrite list_elem_of_singleton. split; [by intros ->|]. intros [_ Hl]. by apply nil_length_inv.
  - split; [by intros ?%elem_of_nil|]. intros [->%sublist_nil_r Hl]. done.
  - rewrite list_elem_of_singleton. split; [intros ->; split; [apply sublist_nil_l|done]|].
    intros [_ Hl]. by apply nil_length_inv.
  - rewrite elem_of_app, list_elem_of_fmap, IH. split.
    + intros [(d & -> & [Hs <-]%IH)|[Hs Hl]]; [split; [by constructor|done]|split; [by constructor|done]].
    + intros [Hs Hl]. inversion Hs as [|? d ? Hs'|]; subst.
      * left. exists d. split; [done|]. apply IH. split; [done|]. cbn in Hl. lia.
      * right. done.
Qed.

Lemma k_sublists_short {A} n (l : list A) : (length l < n)%nat -> k_sublists n l = [].
Proof.
  revert n. induction l as [|x l IH]; intros [|n] Hl; cbn in *; try lia; [done|].
  rewrite !IH by lia. done.
Qed.

(** Appends the enumeration to [output] unless that exceeds the bound. *)
Definition bounded_append {A} (maximum_sets : N) (output more : list (list A)) : result ProtectionError (list (list A)) :=
  if len output + len more <=? maximum_sets then Ok (output ++ more) else Err ProofBoundExceeded.

Lemma bounded_append_app {A} max (out a b : list (list A)) :
  (out' ← bounded_append max out a; bounded_append max out' b) = bounded_append max out (a ++ b).
Proof.
  unfold bounded_append. rewrite len_app. destruct (N.leb_spec (len out + len a) max); cbn [mbind result_bind].
  - rewrite len_app, <- app_assoc. by rewrite N.add_assoc.
  - rewrite (proj2 (N.leb_gt _ _)) by lia. done.
Qed.

Lemma bounded_append_nil {A} max (out : list (list A)) : len out <= max -> bounded_append max out [] = Ok out.
Proof.
  intros Ho. unfold bounded_append. rewrite (proj2 (N.leb_le _ _)) by (unfold len at 2; cbn; lia). by rewrite app_nil_r.
Qed.

(** The recursive enumeration lists exactly the sublists, or refuses them all. *)
Lemma build_combinations_exact {A} (values : list A) remaining start current output max :
  len output <= max ->
  build_combinations values remaining start current output max =
  bounded_append max output (map (app current) (k_sublists remaining (drop start values))).
Proof.
  revert start current output. induction remaining as [|r IH]; intros start current output Ho.
  - cbn [build_combinations k_sublists map]. unfold bounded_append. rewrite k_sublists_0. cbn [map]. rewrite app_nil_r. change (len [current]) with 1.
    destruct (N.eqb_spec (len output) max), (N.leb_spec (len output + 1) max); try lia; done.
  - cbn [build_combinations].
    assert (length values - r <= start + ((length values - S r) + 1 - start))%nat as Hcover by lia.
    revert Hcover. generalize ((length values - S r) + 1 - start)%nat. intros n. revert start output Ho.
    induction n as [|n IHn]; intros start output Ho Hcover; cbn [seq try_fold].
    + rewrite k_sublists_short; [cbn [map]; by rewrite bounded_append_nil|]. rewrite length_drop. lia.
    + destruct (values !! start) as [v|] eqn:Ev.
      * rewrite (drop_S _ _ _ Ev). cbn [k_sublists]. rewrite map_app, <- bounded_append_app.
        rewrite Nat.add_1_r, IH, map_map by done.
        rewrite (map_ext (fun x => current ++ v :: x) (app (current ++ [v]))) by (intros x; by rewrite <- app_assoc).
        destruct (bounded_append max output _) as [out'|e] eqn:Eb; cbn [mbind result_bind]; [|done].
        apply IHn; [|lia]. unfold bounded_append in Eb. destruct (N.leb_spec (len output + len (map (app (current ++ [v])) (k_sublists r (drop (S start) values)))) max); [|done].
        injection Eb as <-. rewrite len_app. done.
      * cbn [mbind result_bind]. rewrite IHn by (try done; lia). f_equal. f_equal.
        apply lookup_ge_None in Ev. rewrite !k_sublists_short; [done|rewrite length_drop; lia..].
Qed.

Lemma combinations_exact {A} (values : list A) count max :
  combinations values count max =
  if len (k_sublists count values) <=? max then Ok (k_sublists count values) else Err ProofBoundExceeded.
Proof.
  unfold combinations. rewrite build_combinations_exact by apply N.le_0_l. unfold bounded_append.
  rewrite drop_0, (map_ext (app []) (fun x => x)), map_id by done. unfold len at 1. by cbn [length N.of_nat app].
Qed.

(** ** Loss sets *)

Lemma minimum_spec l m : minimum l = Some m -> m ∈ l /\ forall x, x ∈ l -> m <= x.
Proof.
  destruct l as [|x rest]; [done|]. cbn. intros [= <-]. revert x.
  induction rest as [|y rest IH]; intros x; cbn [foldl]; [split; [by left|by intros z [->|[]%elem_of_nil]%elem_of_cons]|].
  destruct (IH (N.min x y)) as [Hin Hle]. split.
  - apply elem_of_cons in Hin as [->|Hin]; [|by right; right].
    destruct (N.min_spec x y) as [[_ ->]|[_ ->]]; [by left|by right; left].
  - pose proof (Hle (N.min x y) ltac:(by left)). intros z [->|[->|Hz]%elem_of_cons]%elem_of_cons; [lia|lia|].
    apply Hle. by right.
Qed.

Lemma sublist_extend {A} (l1 l : list A) n :
  l1 `sublist_of` l -> (length l1 <= n)%nat -> (n <= length l)%nat ->
  exists l2, l1 `sublist_of` l2 /\ l2 `sublist_of` l /\ length l2 = n.
Proof.
  intros Hs. revert n. induction Hs as [|x l1 l Hs IH|x l1 l Hs IH]; intros n H1 H2; cbn in *.
  - exists []. split_and!; [apply sublist_nil_l|apply sublist_nil_l|cbn; lia].
  - destruct n as [|n]; [lia|]. destruct (IH n) as (l2 & ? & ? & ?); [lia|lia|].
    exists (x :: l2). split_and!; [by constructor|by constructor|cbn; lia].
  - destruct (decide (n <= length l)%nat) as [Hle|Hgt].
    + destruct (IH n) as (l2 & ? & ? & ?); [lia|lia|]. exists l2. split_and!; [done|by constructor|done].
    + exists (x :: l). split_and!; [by constructor|done|cbn; lia].
Qed.

(** The groups a term may fail together. *)
Definition selection (t : Topology) (term : FailureTerm) (part : list FaultGroupId) : Prop :=
  part `sublist_of` groups_in_class t (term_class term) /\ length part = N.to_nat (failure_count term).

Lemma cartesian_union_Ok {A} (left right : list (list A)) max out :
  cartesian_union left right max = Ok out ->
  forall x, x ∈ out <-> exists a b, a ∈ left /\ b ∈ right /\ x = a ++ b.
Proof.
  unfold cartesian_union. intros Ho. inv_ok. intros gs. rewrite list_elem_of_bind. split.
  - intros (a & Hx & Ha). apply list_elem_of_bind in Hx as (b & Hx & Hb). apply list_elem_of_singleton in Hx. eauto.
  - intros (a & b & Ha & Hb & ->). exists a. split; [|done]. apply list_elem_of_bind. exists b. split; [by left|done].
Qed.

Lemma group_loss_sets_Ok scenario t max out :
  group_loss_sets scenario t max = Ok out ->
  Forall (fun term => failure_count term <= len (groups_in_class t (term_class term))) scenario /\
  forall gs, gs ∈ out <-> exists parts, Forall2 (selection t) scenario parts /\ gs = concat parts.
Proof.
  unfold group_loss_sets. destruct (max =? 0); [done|]. intros Ho.
  enough (forall acc, try_fold (fun combined term =>
        let groups := groups_in_class t (term_class term) in
        let count := failure_count term in
        if len groups <? count then Err InsufficientTopology
        else selections ← combinations groups (N.to_nat count) max; cartesian_union combined selections max)
      acc scenario = Ok out ->
    Forall (fun term => failure_count term <= len (groups_in_class t (term_class term))) scenario /\
    forall gs, gs ∈ out <-> exists pre parts, pre ∈ acc /\ Forall2 (selection t) scenario parts /\ gs = pre ++ concat parts) as Hgen.
  { destruct (Hgen _ Ho) as [Hf Hin]. split; [done|]. intros gs. rewrite Hin. split.
    - intros (pre & parts & ->%list_elem_of_singleton & ? & ?). eauto.
    - intros (parts & ? & ?). exists [], parts. split_and!; [by left|done|done]. }
  clear Ho. induction scenario as [|term scenario IH]; intros acc Ho; cbn [try_fold] in Ho.
  - injection Ho as <-. split; [constructor|]. intros gs. split.
    + intros Hin. exists gs, []. split_and!; [done|constructor|by rewrite app_nil_r].
    + intros (pre & parts & Hin & ->%Forall2_nil_inv_l & ->). by rewrite app_nil_r.
  - inv_ok. bool_cases. match goal with HT : try_fold _ _ _ = Ok _ |- _ => apply IH in HT as [Hf Hin] end.
    rewrite combinations_exact in *. inv_ok.
    match goal with HC : cartesian_union _ _ _ = Ok _ |- _ => pose proof (cartesian_union_Ok _ _ _ _ HC) as Hc end.
    split; [by constructor|]. intros gs. rewrite Hin. split.
    + intros (pre & parts & Hpre & Hparts & ->). apply Hc in Hpre as (a & b & Ha & Hb & ->).
      exists a, (b :: parts). split_and!; [done| |by rewrite <- app_assoc]. constructor; [by apply elem_of_k_sublists|done].
    + intros (pre & parts & Hpre & Hparts & ->). apply Forall2_cons_inv_l in Hparts as (b & parts' & Hb & Hparts & ->).
      exists (pre ++ b), parts'. split_and!; [|done|by rewrite <- app_assoc]. apply Hc. exists pre, b.
      split_and!; [done|by apply elem_of_k_sublists|done].
Qed.

(** ** What a set of failed groups destroys *)

(** A failed host takes every target registered on it; a failed target only itself. *)
Definition affects (t : Topology) (m : FaultGroupMember) (target : TargetId) : Prop :=
  match m with
  | Host host => target_hosts t !! target = Some host
  | Target other => target = other
  end.

Lemma elem_of_member_targets t m target : target ∈ member_targets t m <-> affects t m target.
Proof.
  destruct m as [h|x]; cbn [member_targets affects]; [|by rewrite elem_of_singleton].
  rewrite elem_of_dom. split.
  - intros [h' [Hm Hh]%map_lookup_filter_Some]. cbn in Hh. by subst.
  - intros Hm. exists h. by apply map_lookup_filter_Some.
Qed.

Lemma elem_of_targets_affected_by t gs target :
  target ∈ targets_affected_by t gs <->
  exists id g m, id ∈ gs /\ fault_groups t !! id = Some g /\ m ∈ group_members g /\ affects t m target.
Proof.
  unfold targets_affected_by.
  enough (forall acc, target ∈ foldl (fun targets id =>
      match fault_groups t !! id with
      | Some g => targets ∪ ⋃ (member_targets t <$> elements (group_members g))
      | None => targets
      end) acc gs <-> target ∈ acc \/
      exists id g m, id ∈ gs /\ fault_groups t !! id = Some g /\ m ∈ group_members g /\ affects t m target) as Hgen.
  { rewrite Hgen. set_solver. }
  induction gs as [|id gs IH]; intros acc; cbn [foldl]; [set_solver|]. rewrite IH.
  destruct (fault_groups t !! id) as [g|] eqn:Eg.
  - rewrite elem_of_union, elem_of_union_list. split.
    + intros [[?|(X & (m & -> & Hm%elem_of_elements)%list_elem_of_fmap & Ht%elem_of_member_targets)]|(id' & g' & m & ? & ? & ? & ?)]; [by left|right..].
      * exists id, g, m. split_and!; [by left|done..].
      * exists id', g', m. split_and!; [by right|done..].
    + intros [?|(id' & g' & m & [->|Hin]%elem_of_cons & Hg & Hm & Ha)]; [by do 2 left|left; right|right; eauto 10].
      rewrite Eg in Hg. injection Hg as <-. exists (member_targets t m).
      split; [apply list_elem_of_fmap_2, elem_of_elements, Hm|by apply elem_of_member_targets].
  - split; (intros [?|(id' & g' & m & Hin & ?)]; [by left|right; exists id', g', m; split; [|done]]).
    + by right.
    + apply elem_of_cons in Hin as [->|]; [destruct_and?; congruence|done].
Qed.

(** The slices of a layout that outlive the failure of some groups. *)
Definition slices_left (t : Topology) (layout : ProtectionLayout) (failed : gset FaultGroupId) : N :=
  remaining_slices t layout (elements failed).

Lemma len_filter_mono {A} (P Q : A -> Prop) `{forall x, Decision (P x), forall x, Decision (Q x)} (l : list A) :
  (forall x, P x -> Q x) -> len (filter P l) <= len (filter Q l).
Proof.
  intros HPQ. induction l as [|x l IH]; [done|]. rewrite !filter_cons.
  repeat case_decide; rewrite ?len_cons; try lia. exfalso. auto.
Qed.

Lemma remaining_slices_anti t layout gs hs :
  (forall g, g ∈ gs -> is_Some (fault_groups t !! g) -> g ∈ hs) ->
  remaining_slices t layout hs <= remaining_slices t layout gs.
Proof.
  intros Hsub. apply len_filter_mono. intros target Hn Hin. apply Hn.
  apply elem_of_targets_affected_by in Hin as (id & g & m & ? & ? & ? & ?).
  apply elem_of_targets_affected_by. exists id, g, m. split_and!; eauto.
Qed.

(** The losses a scenario covers: in every class it names at most the promised number of
    groups fail together, and no group of another class fails. *)
Definition failure_within (t : Topology) (scenario : FailureScenario) (failed : gset FaultGroupId) : Prop :=
  Forall (fun term => len (filter (.∈ failed) (groups_in_class t (term_class term))) <= failure_count term) scenario /\
  forall id g, id ∈ failed -> fault_groups t !! id = Some g -> group_class g ∈ term_class <$> scenario.

Lemma elem_of_groups_in_class t class id :
  id ∈ groups_in_class t class <-> exists g, fault_groups t !! id = Some g /\ group_class g = class.
Proof.
  unfold groups_in_class. rewrite list_elem_of_fmap. split.
  - intros ([k g] & -> & Hin). apply list_elem_of_In, filter_In in Hin as [Hin Hc%N.eqb_eq].
    exists g. split; [|done]. by apply elem_of_ascending_map, list_elem_of_In.
  - intros (g & Hg & <-). exists (id, g). split; [done|]. apply list_elem_of_In, filter_In.
    split; [by apply list_elem_of_In, elem_of_ascending_map|apply N.eqb_refl].
Qed.

Lemma groups_in_class_NoDup t class : NoDup (groups_in_class t class).
Proof.
  unfold groups_in_class. eapply sublist_NoDup; [apply (ascending_NoDup (dom (fault_groups t)))|].
  rewrite <- ascending_map_keys. induction (ascending_map (fault_groups t)) as [|[k g] l IH]; [done|].
  cbn [List.filter]. destruct (group_class g =? class); cbn; by constructor.
Qed.

Lemma new_scenario_classes terms scenario :
  new_scenario terms = Ok scenario -> scenario = terms /\ NoDup (term_class <$> terms).
Proof.
  unfold new_scenario. intros Hn. inv_ok. split; [done|].
  match goal with HT : try_fold _ _ _ = Ok _ |- _ => revert HT end. clear.
  enough (forall seen out, try_fold (fun (classes : gset FaultGroupClassId) t =>
      if (failure_count t =? 0) || bool_decide (term_class t ∈ classes) then Err InvalidScenario
      else Ok ({[term_class t]} ∪ classes)) seen scenario = Ok out ->
    NoDup (term_class <$> scenario) /\ forall c, c ∈ term_class <$> scenario -> c ∉ seen) as Hgen
    by (intros; by eapply Hgen).
  induction scenario as [|term scenario IH]; intros seen out; cbn [try_fold fmap list_fmap].
  { intros _. split; [constructor|set_solver]. }
  intros Ho. inv_ok. bool_cases. match goal with HT : try_fold _ _ _ = Ok _ |- _ => apply IH in HT as [Hnd Hf] end.
  split; [constructor; [|done]; set_solver|]. set_solver.
Qed.

(** ** The proof is exact *)

Lemma selection_cover t scenario (failed : gset FaultGroupId) :
  Forall (fun term => failure_count term <= len (groups_in_class t (term_class term))) scenario ->
  Forall (fun term => len (filter (.∈ failed) (groups_in_class t (term_class term))) <= failure_count term) scenario ->
  exists parts, Forall2 (selection t) scenario parts /\
    forall term id, term ∈ scenario -> id ∈ failed -> id ∈ groups_in_class t (term_class term) -> id ∈ concat parts.
Proof.
  induction scenario as [|term scenario IH]; intros Hbig Hsmall.
  { exists []. split; [constructor|]. set_solver. }
  apply Forall_cons in Hbig as [Hb Hbig]. apply Forall_cons in Hsmall as [Hs Hsmall].
  destruct (IH Hbig Hsmall) as (parts & Hsel & Hcov).
  destruct (sublist_extend (filter (.∈ failed) (groups_in_class t (term_class term)))
    (groups_in_class t (term_class term)) (N.to_nat (failure_count term))) as (part & H1 & H2 & H3);
    [apply sublist_filter|unfold len in Hs; lia|unfold len in Hb; lia|].
  exists (part :: parts). split; [by constructor|]. intros term' id [->|Hin]%elem_of_cons Hf Hc; cbn [concat]; apply elem_of_app.
  - left. eapply elem_of_sublist; [|exact H1]. by apply list_elem_of_filter.
  - right. eauto.
Qed.

Lemma concat_lookup {A} (parts : list (list A)) x :
  x ∈ concat parts <-> exists j part, parts !! j = Some part /\ x ∈ part.
Proof.
  rewrite list_elem_of_In, in_concat. setoid_rewrite <- list_elem_of_In. split.
  - intros (part & [j Hj]%list_elem_of_lookup & ?). eauto.
  - intros (j & part & ?%list_elem_of_lookup_2 & ?). eauto.
Qed.

Lemma selection_attained t scenario parts :
  NoDup (term_class <$> scenario) -> Forall2 (selection t) scenario parts ->
  failure_within t scenario (list_to_set (concat parts)).
Proof.
  intros Hnd Hsel.
  assert (forall id, id ∈ concat parts -> exists j term part, scenario !! j = Some term /\ parts !! j = Some part /\
    id ∈ part /\ id ∈ groups_in_class t (term_class term)) as Hfrom.
  { intros id (j & part & Hj & Hin)%concat_lookup. destruct (Forall2_lookup_r _ _ _ _ _ Hsel Hj) as (term & ? & [Hsub _]).
    exists j, term, part. split_and!; [done..|]. by eapply elem_of_sublist. }
  split.
  - apply Forall_lookup. intros i term Hi. destruct (Forall2_lookup_l _ _ _ _ _ Hsel Hi) as (part & Hpart & [Hsub Hlen]).
    unfold len. enough (length (filter (.∈ (list_to_set (concat parts) : gset N)) (groups_in_class t (term_class term))) <= length part)%nat by lia.
    apply submseteq_length, NoDup_submseteq; [apply NoDup_filter, groups_in_class_NoDup|].
    intros id [Hid%elem_of_list_to_set Hc]%list_elem_of_filter. apply Hfrom in Hid as (j & term' & part' & Hj & Hpart' & Hin & Hc').
    enough (i = j) by (subst; by simplify_eq). eapply (NoDup_lookup (term_class <$> scenario)); [done|by rewrite list_lookup_fmap, Hi|].
    rewrite list_lookup_fmap, Hj. apply elem_of_groups_in_class in Hc as (g & ? & ?), Hc' as (g' & ? & ?). cbn. congruence.
  - intros id g Hid Hg. apply elem_of_list_to_set, Hfrom in Hid as (j & term & part & Hterm%list_elem_of_lookup_2 & _ & _ & Hin).
    apply elem_of_groups_in_class in Hin as (g' & ? & ?). simplify_eq. apply list_elem_of_fmap. eauto.
Qed.

(** A layout keeps enough slices to decode through every loss a scenario covers. *)
Definition protects (t : Topology) (scenario : FailureScenario) (layout : ProtectionLayout) : Prop :=
  forall failed, failure_within t scenario failed -> required_slices layout <= slices_left t layout failed.

Lemma prove_protection_exact t terms scenario layout max proof :
  new_scenario terms = Ok scenario -> prove_protection t scenario layout max = Ok proof ->
  (forall failed, failure_within t scenario failed -> minimum_remaining_slices proof <= slices_left t layout failed) /\
  (exists failed, failure_within t scenario failed /\ slices_left t layout failed = minimum_remaining_slices proof) /\
  (survives proof = true <-> protects t scenario layout).
Proof.
  intros [-> Hnd]%new_scenario_classes. unfold prove_protection. intros Hp. inv_ok. cbn.
  match goal with HG : group_loss_sets _ _ _ = Ok _ |- _ => apply group_loss_sets_Ok in HG as [Hbig Hsets] end.
  match goal with HM : minimum _ = Some _ |- _ => apply minimum_spec in HM as [Hin Hleast] end.
  rename x0 into least. apply list_elem_of_fmap in Hin as (gs & -> & (parts & Hsel & ->)%Hsets).
  assert (forall failed, failure_within t terms failed -> remaining_slices t layout (concat parts) <= slices_left t layout failed) as Hlower.
  { intros failed [Hsmall Hcls]. destruct (selection_cover t terms failed) as (parts' & Hsel' & Hcov); [done..|].
    etransitivity; [apply Hleast, list_elem_of_fmap_2, Hsets; eauto|]. apply remaining_slices_anti.
    intros id Hid%elem_of_elements [g Hg]. pose proof (Hcls id g Hid Hg) as (term & Hc & Hterm)%list_elem_of_fmap.
    eapply Hcov; [done..|]. apply elem_of_groups_in_class. eauto. }
  assert (slices_left t layout (list_to_set (concat parts)) = remaining_slices t layout (concat parts)) as Heq.
  { unfold slices_left. apply N.le_antisymm; apply remaining_slices_anti; set_solver. }
  split_and!; [done|eexists; split; [by apply selection_attained|done]|].
  unfold protects. rewrite N.leb_le. split; [intros; etransitivity; eauto|]. intros Hall. rewrite <- Heq. by apply Hall, selection_attained.
Qed.

(** C27: when the oracle returns a proof for a valid scenario, its minimum is the exact
    number of slices left by the worst loss the scenario covers (every covered loss leaves
    at least that many, and one leaves exactly that many), and the layout is reported to
    survive exactly when every covered loss leaves enough slices to decode. *)
Theorem protection_proof_exact t terms scenario layout max proof :
  new_scenario terms = Ok scenario -> prove_protection t scenario layout max = Ok proof ->
  (forall failed, failure_within t scenario failed -> minimum_remaining_slices proof <= slices_left t layout failed) /\
  (exists failed, failure_within t scenario failed /\ slices_left t layout failed = minimum_remaining_slices proof) /\
  (survives proof = true <-> protects t scenario layout).
Proof. apply prove_protection_exact. Qed.

(** ** Registered state *)

(** No dangling reference and no map past its bound. *)
Record topology_ok (t : Topology) : Prop := {
  ok_target_host : forall target host, target_hosts t !! target = Some host -> host ∈ hosts t;
  ok_members : forall id g m, fault_groups t !! id = Some g -> m ∈ group_members g -> require_member_exists t m = Ok tt;
  ok_sizes : N.of_nat (size (hosts t)) <= MAX_HOSTS /\ N.of_nat (size (target_hosts t)) <= MAX_TARGETS /\
             N.of_nat (size (fault_groups t)) <= MAX_FAULT_GROUPS;
}.

(** Identities keep the meaning they were registered with. *)
Record topology_grows (t t' : Topology) : Prop := {
  grows_hosts : hosts t ⊆ hosts t';
  grows_targets : target_hosts t ⊆ target_hosts t';
  grows_groups : forall id g, fault_groups t !! id = Some g ->
    exists g', fault_groups t' !! id = Some g' /\ group_class g' = group_class g /\ group_members g ⊆ group_members g';
}.

#[export] Instance topology_grows_preorder : PreOrder topology_grows.
Proof.
  split.
  - intros t. split; [done..|]. eauto.
  - intros t1 t2 t3 [Ha Hb Hc] [Ha' Hb' Hc']. split; [by etransitivity..|].
    intros id g (g' & (g'' & ? & ? & ?)%Hc' & ? & ?)%Hc. exists g''. split_and!; [done|congruence|by etransitivity].
Qed.

Lemma member_exists_grows t t' m :
  topology_grows t t' -> require_member_exists t m = Ok tt -> require_member_exists t' m = Ok tt.
Proof.
  intros [Hh Ht _]. unfold require_member_exists. destruct m as [h|x].
  - destruct (bool_decide_reflect (h ∈ hosts t)); [|done]. intros _. by rewrite bool_decide_eq_true_2 by set_solver.
  - destruct (bool_decide_reflect (x ∈ dom (target_hosts t))) as [Hd|]; [|done]. intros _.
    rewrite bool_decide_eq_true_2; [done|]. by apply subseteq_dom in Ht; set_solver.
Qed.

Inductive Registration :=
| RegisterHost (host : HostId)
| RegisterTarget (target : TargetId) (host : HostId)
| RegisterFaultGroup (id : FaultGroupId) (class : FaultGroupClassId)
| AddFaultGroupMember (id : FaultGroupId) (member : FaultGroupMember).

Definition register (r : Registration) : Registering :=
  match r with
  | RegisterHost host => register_host host
  | RegisterTarget target host => register_target target host
  | RegisterFaultGroup id class => register_fault_group id class
  | AddFaultGroupMember id member => add_fault_group_member id member
  end.

(** One registration either leaves a well-formed topology unchanged or grows it. *)
Definition grown (t : Topology) (res : result ProtectionError bool) (t' : Topology) : Prop :=
  topology_ok t' /\ topology_grows t t' /\ (is_err res = true -> t' = t).

Section registration.
Context (t : Topology) (Hok : topology_ok t).

Lemma grown_same res : grown t res t.
Proof using Hok. done. Qed.

#[local] Ltac start := pose proof (ok_sizes t Hok) as (Hsh & Hst & Hsg); pose proof grown_same as Hsame; unfold grown in *; apply post_get_bind.

Lemma register_host_step host : post (register_host host) t (grown t).
Proof using Hok.
  unfold register_host. start.
  destruct (_ && _) eqn:Eg; [by apply post_raise|].
  apply post_modify_bind, post_ret.
  assert (topology_grows t {| hosts := {[host]} ∪ hosts t; target_hosts := target_hosts t; fault_groups := fault_groups t |}) as Hg.
  { split; cbn; [set_solver|done|eauto]. }
  split_and!; [split; cbn|done|done].
  + intros x h Hx%(ok_target_host t Hok). set_solver.
  + intros id g m Hid Hm. eapply member_exists_grows; [exact Hg|]. by eapply ok_members.
  + split_and!; [|done|done]. destruct (decide (host ∈ hosts t)) as [Hin|Hni].
    * replace ({[host]} ∪ hosts t) with (hosts t) by set_solver. done.
    * rewrite bool_decide_eq_false_2 in Eg by done. cbn in Eg. bool_cases.
      rewrite size_union, size_singleton by set_solver. lia.
Qed.

Lemma register_target_step target host : post (register_target target host) t (grown t).
Proof using Hok.
  unfold register_target. start.
  destruct (bool_decide_reflect (host ∈ hosts t)) as [Hh|]; cbn [negb]; [|by apply post_raise].
  destruct (target_hosts t !! target) as [h|] eqn:Et; [destruct (negb _); [by apply post_raise|by apply post_ret]|].
  destruct (_ =? _) eqn:Es; [by apply post_raise|]. bool_cases. apply post_modify_bind, post_ret.
  assert (topology_grows t {| hosts := hosts t; target_hosts := <[target:=host]> (target_hosts t); fault_groups := fault_groups t |}) as Hg.
  { split; cbn; [done|by apply insert_subseteq|eauto]. }
  split_and!; [split; cbn|done|done].
  + intros x h [[<- <-]|[? Hx]]%lookup_insert_Some; [done|]. by eapply ok_target_host.
  + intros id g m Hid Hm. eapply member_exists_grows; [exact Hg|]. by eapply ok_members.
  + rewrite map_size_insert_None by done. lia.
Qed.

Lemma register_fault_group_step id class : post (register_fault_group id class) t (grown t).
Proof using Hok.
  unfold register_fault_group. start.
  destruct (fault_groups t !! id) as [g|] eqn:Eg; [destruct (negb _); [by apply post_raise|by apply post_ret]|].
  destruct (_ =? _) eqn:Es; [by apply post_raise|]. bool_cases. apply post_modify_bind, post_ret. unfold set_group.
  split_and!; [split; cbn|split; cbn; [done..|]|done].
  + apply (ok_target_host t Hok).
  + intros id' g m [[<- <-]|[? Hx]]%lookup_insert_Some Hm; [set_solver|]. by eapply (ok_members t Hok).
  + rewrite map_size_insert_None by done. lia.
  + intros id' g Hid. exists g. rewrite lookup_insert_ne by congruence. done.
Qed.

Lemma add_fault_group_member_step id member : post (add_fault_group_member id member) t (grown t).
Proof using Hok.
  unfold add_fault_group_member. start.
  apply post_lift_bind; [|by intros; split_and!].
  intros [] Hm. apply post_lift_bind; [|by intros; split_and!]. intros g Hg%ok_or_Ok.
  apply post_modify_bind, post_ret. unfold set_group. split_and!; [split; cbn|split; cbn; [done..|]|done].
  + apply (ok_target_host t Hok).
  + intros id' g' m' [[<- <-]|[? Hx]]%lookup_insert_Some Hm'; [|by eapply (ok_members t Hok)]. cbn in Hm'.
    apply elem_of_union in Hm' as [->%elem_of_singleton|Hm']; [done|]. by eapply (ok_members t Hok).
  + rewrite map_size_insert_Some by eauto. lia.
  + intros id' g' Hid. destruct (decide (id' = id)) as [->|].
    * rewrite lookup_insert_eq. eexists. split; [done|]. simplify_eq. cbn. split; [done|set_solver].
    * rewrite lookup_insert_ne by done. eauto.
Qed.

Lemma register_step r : post (register r) t (grown t).
Proof using Hok.
  destruct r; [apply register_host_step|apply register_target_step|apply register_fault_group_step|apply add_fault_group_member_step].
Qed.

End registration.

(** The topology after a sequence of registrations; a refused one changes nothing. *)
Definition registered (rs : list Registration) (t : Topology) : Topology :=
  foldl (fun t r => snd (register r t)) t rs.

(** C31: starting from an empty topology, every sequence of registrations (refused ones
    included) leaves each target on a registered host, each fault-group member registered
    and all three maps within their bounds, and further registrations never remove a host,
    move a target, reclassify a group or drop a member. *)
Theorem registered_topology_ok rs more :
  topology_ok (registered rs topology_default) /\
  topology_grows (registered rs topology_default) (registered (rs ++ more) topology_default).
Proof.
  enough (forall rs t, topology_ok t -> topology_ok (registered rs t) /\ topology_grows t (registered rs t)) as Hgen.
  { assert (topology_ok topology_default) as H0 by (split; cbn; [done|done|rewrite size_empty; done]).
    split; [by apply Hgen|]. unfold registered. rewrite foldl_app. by apply Hgen, Hgen. }
  clear rs more. induction rs as [|r rs IH]; intros t Hok; cbn [registered foldl]; [done|].
  destruct (register_step t Hok r) as (Hok' & Hg & _). destruct (IH _ Hok') as [? ?]. split; [done|by etransitivity].
Qed.

(** ** A three-machine cell *)

Definition sample_registrations : list Registration :=
  (h ← [1; 2; 3]; [RegisterHost h; RegisterTarget (10 + h) h]) ++
  (h ← [1; 2; 3]; [RegisterFaultGroup (20 + h) 9; AddFaultGroupMember (20 + h) (Host h)]).
Definition sample_topology : Topology := registered sample_registrations topology_default.
Definition sample_scenario : FailureScenario := [{| term_class := 9; failure_count := 1 |}].
Definition sample_layout : ProtectionLayout := {| required_slices := 2; slice_targets := [11; 12; 13; 13] |}.

(** Two slices share the third machine, so one machine loss can leave only two. *)
Lemma protection_proof_exact_witness :
  (exists failed, failure_within sample_topology sample_scenario failed /\
    slices_left sample_topology sample_layout failed = 2) /\
  (forall failed, failure_within sample_topology sample_scenario failed ->
    2 <= slices_left sample_topology sample_layout failed).
Proof.
  destruct (protection_proof_exact sample_topology sample_scenario sample_scenario sample_layout 100
    {| survives := true; evaluated_loss_sets := 3; minimum_remaining_slices := 2 |}) as (Hlow & Hat & _);
    [vm_compute; reflexivity|vm_compute; reflexivity|].
  split; [exact Hat|exact Hlow].
Defined.
