(* ===== verification/Work.v ===== *)
(** Maintenance work policy: meshspan-work/src/lib.rs.  The durable encoding of work
    subjects, the sortable priority of health signals, admission against a resource budget
    and the time a repair becomes due. *)

From S2P Require Import Prelude Ids.
From stdpp Require Import prelude list.
#[local] Open Scope N_scope.

Definition MAXIMUM_WORK_SUBJECT_BYTES : N := 128.

Inductive WorkKind := KindRepair | KindScrub | KindDrain | KindRebalance | KindReconcile.

Inductive DrainScope :=
| DrainTarget (target_id : N) (target_generation : N)
| DrainNode (node_id : N) (node_incarnation : N)
| DrainFaultGroup (fault_group_id : N).

Inductive WorkSubject :=
| Repair (volume_id manifest_id stripe_index shard_index source_generation : N)
| Scrub (target_id target_generation : N)
| Drain (scope : DrainScope)
| Rebalance (volume_id topology_revision : N)
| Reconcile (target_id target_generation : N).

Definition kind (s : WorkSubject) : WorkKind :=
  match s with
  | Repair _ _ _ _ _ => KindRepair
  | Scrub _ _ => KindScrub
  | Drain _ => KindDrain
  | Rebalance _ _ => KindRebalance
  | Reconcile _ _ => KindReconcile
  end.

(** ** Durable encoding *)

Definition encode_target_subject (k target_id target_generation : N) : bytes :=
  [k] ++ Identifier.as_bytes target_id ++ be_bytes 8 target_generation.

Definition encode_drain_subject (scope : DrainScope) : bytes :=
  match scope with
  | DrainTarget target_id target_generation => encode_target_subject 3 target_id target_generation
  | DrainNode node_id node_incarnation => [4] ++ Identifier.as_bytes node_id ++ be_bytes 8 node_incarnation
  | DrainFaultGroup fault_group_id => [5] ++ Identifier.as_bytes fault_group_id
  end.

Definition encode (s : WorkSubject) : bytes :=
  [1] ++
  match s with
  | Repair volume_id manifest_id stripe_index shard_index source_generation =>
      [1] ++ Identifier.as_bytes volume_id ++ Identifier.as_bytes manifest_id ++ be_bytes 8 stripe_index ++
      be_bytes 2 shard_index ++ be_bytes 8 source_generation
  | Scrub target_id target_generation => encode_target_subject 2 target_id target_generation
  | Drain scope => encode_drain_subject scope
  | Rebalance volume_id topology_revision => [6] ++ Identifier.as_bytes volume_id ++ be_bytes 8 topology_revision
  | Reconcile target_id target_generation => encode_target_subject 7 target_id target_generation
  end.

Inductive WorkSubjectError := Invalid.

(** [SubjectDecoder]: the unread bytes. *)
Definition Decoder : Type -> Type := SE bytes WorkSubjectError.

Definition take (length : nat) : Decoder bytes :=
  remaining ← get_state;
  if len remaining <? N.of_nat length then raise Invalid
  else _ ← modify_state (drop length); mret (firstn length remaining).

Definition decoder_byte : Decoder N := b ← take 1; mret (default 0 (head b)).
Definition decoder_identifier : Decoder bytes := take 16.
Definition decoder_u64 : Decoder N := b ← take 8; mret (of_be_bytes b).
Definition decoder_u16 : Decoder N := b ← take 2; mret (of_be_bytes b).
Definition decoder_finish : Decoder unit :=
  remaining ← get_state; if bool_decide (remaining = []) then mret tt else raise Invalid.

Definition nonzero (value : N) : result WorkSubjectError N := if value =? 0 then Err Invalid else Ok value.

(** [XId::from_bytes(decoder.identifier()?)?]. *)
Definition decode_identifier : Decoder N :=
  b ← decoder_identifier; lift (map_err (fun _ => Invalid) (Identifier.from_bytes b)).
(** [nonzero(decoder.u64()?)?]. *)
Definition decode_positive : Decoder N := n ← decoder_u64; lift (nonzero n).

Definition decode_subject : Decoder WorkSubject :=
  version ← decoder_byte;
  if negb (version =? 1) then raise Invalid
  else
    variant ← decoder_byte;
    match variant with
    | 1 =>
        volume_id ← decode_identifier; manifest_id ← decode_identifier;
        stripe_index ← decoder_u64; shard_index ← decoder_u16; source_generation ← decode_positive;
        mret (Repair volume_id manifest_id stripe_index shard_index source_generation)
    | 2 => target_id ← decode_identifier; target_generation ← decode_positive; mret (Scrub target_id target_generation)
    | 3 => target_id ← decode_identifier; target_generation ← decode_positive;
           mret (Drain (DrainTarget target_id target_generation))
    | 4 => node_id ← decode_identifier; node_incarnation ← decode_positive;
           mret (Drain (DrainNode node_id node_incarnation))
    | 5 => fault_group_id ← decode_identifier; mret (Drain (DrainFaultGroup fault_group_id))
    | 6 => volume_id ← decode_identifier; topology_revision ← decode_positive;
           mret (Rebalance volume_id topology_revision)
    | 7 => target_id ← decode_identifier; target_generation ← decode_positive;
           mret (Reconcile target_id target_generation)
    | _ => raise Invalid
    end.

Definition decode (b : bytes) : result WorkSubjectError WorkSubject :=
  if MAXIMUM_WORK_SUBJECT_BYTES <? len b then Err Invalid
  else fst ((subject ← decode_subject; _ ← decoder_finish; mret subject) b).

(** ** Priority *)

Inductive WorkUrgency := Routine | Required | UnderProtected | LastRecoveryMargin | Unavailable.

Definition urgency_code (u : WorkUrgency) : N :=
  match u with Routine => 1 | Required => 2 | UnderProtected => 3 | LastRecoveryMargin => 4 | Unavailable => 5 end.

Record WorkSignals := {
  data_unavailable : bool;
  remaining_recovery_margin : N;
  protection_debt : N;
  locality_debt : N;
  instability : N;
  access_heat : N;
  created_at : Z;
  due_at : option Z;
}.

Definition urgency (s : WorkSignals) : WorkUrgency :=
  if data_unavailable s then Unavailable
  else if remaining_recovery_margin s =? 0 then LastRecoveryMargin
  else if 0 <? protection_debt s then UnderProtected
  else if (0 <? locality_debt s) || bool_decide (is_Some (due_at s)) then Required
  else Routine.

(** [checked_sub] on [i64], then [u64::try_from]. *)
Definition elapsed_micros (earlier later : Z) : N :=
  let value := (later - earlier)%Z in
  if (0 <=? value)%Z && (value <=? i64_max)%Z then Z.to_N value else 0.

Definition MICROS_PER_SECOND : N := 1000000.
Definition MAXIMUM_TIME_SCORE : N := 2 ^ 20 - 1.

Definition priority (s : WorkSignals) (now : Z) : N :=
  let age := elapsed_micros (created_at s) now / MICROS_PER_SECOND in
  let lateness := match due_at s with Some due => elapsed_micros due now / MICROS_PER_SECOND | None => 0 end in
  let urgency := urgency_code (urgency s) in
  let debt := N.min (saturating_add u16_max (protection_debt s) (locality_debt s)) 4095 in
  let instability := N.min (instability s) 1023 in
  let heat := N.min (access_heat s) 1023 in
  let time := N.min (saturating_add u64_max age lateness) MAXIMUM_TIME_SCORE in
  N.lor (N.lor (N.lor (N.lor (N.shiftl urgency 60 mod 2 ^ 64) (N.shiftl debt 48 mod 2 ^ 64))
    (N.shiftl instability 38 mod 2 ^ 64)) (N.shiftl heat 28 mod 2 ^ 64)) time.

(** ** Admission *)

Record WorkBudget := { concurrent_jobs : N; budget_in_flight_bytes : N; bytes_per_second : option N }.
Record WorkUsage := { active_jobs : N; usage_in_flight_bytes : N }.
Record WorkDemand := { demand_in_flight_bytes : N }.

Inductive WorkBudgetError := InvalidLimit.

Definition new_budget (maximum_concurrent_jobs maximum_in_flight_bytes : N) (maximum_bytes_per_second : option N)
    : result WorkBudgetError WorkBudget :=
  if (maximum_concurrent_jobs =? 0) || (maximum_in_flight_bytes =? 0) then Err InvalidLimit
  else if bool_decide (maximum_bytes_per_second = Some 0) then Err InvalidLimit
  else Ok {| concurrent_jobs := maximum_concurrent_jobs; budget_in_flight_bytes := maximum_in_flight_bytes;
             bytes_per_second := maximum_bytes_per_second |}.

Definition admits (b : WorkBudget) (usage : WorkUsage) (demand : WorkDemand) : bool :=
  (0 <? demand_in_flight_bytes demand) && (active_jobs usage <? concurrent_jobs b) &&
  match checked_add u64_max (usage_in_flight_bytes usage) (demand_in_flight_bytes demand) with
  | Some bytes => bytes <=? budget_in_flight_bytes b
  | None => false
  end.

(** ** Repair debounce *)

Definition repair_due_at (now absent_since : Z) (margin instability absence_grace maximum_deferral : N) : Z :=
  if margin =? 0 then now
  else
    let divisor := saturating_add u64_max instability 1 in
    let adjusted_grace := absence_grace / divisor in
    let grace_end := default now (unix_checked_add absent_since adjusted_grace) in
    let final_end := default now (unix_checked_add absent_since maximum_deferral) in
    if (grace_end <? final_end)%Z then grace_end else final_end.

(** ** Encoding facts *)

Definition bytes_ok (b : bytes) : Prop := Forall (fun x => x < 256) b.

Lemma of_be_bytes_bound l : bytes_ok l -> of_be_bytes l < 256 ^ len l.
Proof.
  induction 1 as [|x l Hx Hl IH]; [done|]. rewrite of_be_bytes_cons, len_cons, N.pow_add_r, N.pow_1_r.
  apply N.lt_le_trans with ((x + 1) * 256 ^ len l); [lia|]. rewrite (N.mul_comm (256 ^ _)). apply N.mul_le_mono_r. lia.
Qed.

(** Every byte string of the right width is the encoding of its value. *)
Lemma be_bytes_of_be_bytes l : bytes_ok l -> be_bytes (length l) (of_be_bytes l) = l.
Proof.
  induction 1 as [|x l Hx Hl IH]; [done|]. pose proof (of_be_bytes_bound l Hl) as Hb. unfold len in Hb.
  change (be_bytes (length (x :: l))) with (fun z => (z / 256 ^ N.of_nat (length l)) mod 256 :: be_bytes (length l) z).
  cbv beta. rewrite of_be_bytes_cons. unfold len.
  assert (256 ^ N.of_nat (length l) <> 0) by (apply N.pow_nonzero; lia). f_equal.
  - rewrite N.add_comm, N.div_add, N.div_small by done. cbn. by apply N.mod_small.
  - rewrite (be_bytes_mod (length l)) by lia. rewrite N.add_comm, N.Div0.mod_add, N.mod_small by done. exact IH.
Qed.

(** [m] reads exactly the encodings of the values satisfying [P]. *)
Definition reads_format {A} (m : Decoder A) (P : A -> Prop) (enc : A -> bytes) : Prop :=
  forall b a rest, bytes_ok b -> m b = (Ok a, rest) <-> P a /\ b = enc a ++ rest.

Lemma take_format n : reads_format (take n) (fun x => length x = n) (fun x => x).
Proof.
  intros b x rest _. unfold take, get_state, modify_state, raise, mret, SE_ret, mbind, SE_bind, len.
  destruct (N.ltb_spec (N.of_nat (length b)) (N.of_nat n)); split.
  - done.
  - intros [Hx ->]. rewrite length_app in *. lia.
  - intros [= <- <-]. split; [rewrite length_firstn; lia|by rewrite firstn_skipn].
  - intros [<- ->]. by rewrite take_app_length, drop_app_length.
Qed.

Lemma unsigned_format n :
  reads_format (b ← take n; mret (of_be_bytes b)) (fun x => x < 256 ^ N.of_nat n) (be_bytes n).
Proof.
  intros b x rest Hb. rewrite se_bind_Ok. split.
  - intros (raw & s & Hraw & Hx). apply take_format in Hraw as [Hl ->]; [|done]. injection Hx as <- <-.
    apply Forall_app in Hb as [Hr _]. split; [|by rewrite <- Hl, be_bytes_of_be_bytes].
    pose proof (of_be_bytes_bound raw Hr) as Hbound. unfold len in Hbound. by rewrite Hl in Hbound.
  - intros [Hx ->]. exists (be_bytes n x), rest. split; [apply take_format; [done|]; split; [apply length_be_bytes|done]|].
    by rewrite be_roundtrip.
Qed.

Lemma byte_format : reads_format decoder_byte (fun x => x < 256) (fun x => [x]).
Proof.
  intros b x rest Hb. unfold decoder_byte. rewrite se_bind_Ok. split.
  - intros (raw & s & Hraw & Hx). apply take_format in Hraw as [Hl ->]; [|done]. injection Hx as <- <-.
    destruct raw as [|y [|]]; [done| |done]. apply Forall_app in Hb as [Hr _]. split; [by apply Forall_inv in Hr|done].
  - intros [Hx ->]. exists [x], rest. split; [by apply take_format|done].
Qed.

Lemma identifier_format : reads_format decode_identifier Identifier.valid Identifier.as_bytes.
Proof.
  intros b x rest Hb. unfold decode_identifier, decoder_identifier. rewrite se_bind_Ok. split.
  - intros (raw & s & Hraw & Hx). apply take_format in Hraw as [Hl ->]; [|done].
    apply Forall_app in Hb as [Hr _]. unfold lift in Hx. apply pair_equal_spec in Hx as [Hx <-].
    unfold Identifier.from_bytes, validate_identifier in Hx.
    destruct (bool_decide_reflect (raw = replicate 16 0)) as [|Hne]; [done|]. injection Hx as <-.
    pose proof (be_bytes_of_be_bytes raw Hr) as Hback. rewrite Hl in Hback.
    split; [|unfold Identifier.as_bytes; by rewrite Hback]. split.
    + apply N.neq_0_lt_0. intros Hz. rewrite Hz in Hback. by rewrite <- Hback in Hne.
    + pose proof (of_be_bytes_bound raw Hr) as Hbound. unfold len in Hbound. by rewrite Hl in Hbound.
  - intros [Hx ->]. exists (Identifier.as_bytes x), rest. split; [apply take_format; [done|]; split; [apply length_be_bytes|done]|].
    unfold lift. by rewrite from_bytes_as_bytes.
Qed.

Lemma positive_format : reads_format decode_positive (fun x => 0 < x < 2 ^ 64) (be_bytes 8).
Proof.
  intros b x rest Hb. unfold decode_positive, decoder_u64. rewrite se_bind_Ok. unfold lift, nonzero. split.
  - intros (n & s & Hn & Hx). apply unsigned_format in Hn as [Hlt ->]; [|done]. apply pair_equal_spec in Hx as [Hx <-].
    inv_ok. bool_cases. split; [|done]. change (256 ^ N.of_nat 8) with (2 ^ 64) in Hlt. lia.
  - intros [Hx ->]. exists x, rest. split; [apply unsigned_format; [done|]; change (256 ^ N.of_nat 8) with (2 ^ 64); split; [lia|done]|]. rewrite (proj2 (N.eqb_neq x 0)) by lia. done.
Qed.

(** The subjects the types can hold, with the positive generations decoding insists on. *)
Definition subject_ok (s : WorkSubject) : Prop :=
  match s with
  | Repair volume_id manifest_id stripe_index shard_index source_generation =>
      Identifier.valid volume_id /\ Identifier.valid manifest_id /\ stripe_index < 2 ^ 64 /\ shard_index < 2 ^ 16 /\
      0 < source_generation < 2 ^ 64
  | Scrub id generation | Drain (DrainTarget id generation) | Drain (DrainNode id generation)
  | Rebalance id generation | Reconcile id generation => Identifier.valid id /\ 0 < generation < 2 ^ 64
  | Drain (DrainFaultGroup id) => Identifier.valid id
  end.

Lemma bind_format {A B} (m : Decoder A) (P : A -> Prop) (enc : A -> bytes) (f : A -> Decoder B) b c rest :
  reads_format m P enc -> bytes_ok b ->
  (m ≫= f) b = (Ok c, rest) <-> exists a b', P a /\ bytes_ok b' /\ b = enc a ++ b' /\ f a b' = (Ok c, rest).
Proof.
  intros Hm Hb. rewrite se_bind_Ok. split.
  - intros (a & b' & [Ha ->]%Hm & Hf); [|done]. apply Forall_app in Hb as [_ Hb']. eauto 10.
  - intros (a & b' & Ha & _ & -> & Hf). exists a, b'. split; [by apply Hm|done].
Qed.

Lemma bind_ret_format {A B} (m : Decoder A) (P : A -> Prop) (enc : A -> bytes) (f : A -> B) b c rest :
  reads_format m P enc -> bytes_ok b ->
  (a ← m; mret (f a)) b = (Ok c, rest) <-> exists a, P a /\ b = enc a ++ rest /\ c = f a.
Proof.
  intros Hm Hb. rewrite (bind_format _ _ _ _ _ _ _ Hm Hb). split.
  - intros (a & b' & Ha & _ & -> & [= <- <-]). eauto.
  - intros (a & Ha & -> & ->). exists a, rest. apply Forall_app in Hb as [_ ?]. eauto.
Qed.

Lemma bytes_ok_suffix l k : bytes_ok (l ++ k) -> bytes_ok k.
Proof. by intros [_ ?]%Forall_app. Qed.

Lemma bind_run {A B} (m : Decoder A) (P : A -> Prop) (enc : A -> bytes) (f : A -> Decoder B) a b :
  reads_format m P enc -> bytes_ok (enc a ++ b) -> P a -> (m ≫= f) (enc a ++ b) = f a b.
Proof. intros Hm Hb Ha. unfold mbind, SE_bind. by rewrite (proj2 (Hm _ a b Hb) (conj Ha eq_refl)). Qed.

Lemma id_generation_format {B} (f : N -> N -> B) b c rest : bytes_ok b ->
  (id ← decode_identifier; g ← decode_positive; mret (f id g)) b = (Ok c, rest) <->
  exists id g, (Identifier.valid id /\ 0 < g < 2 ^ 64) /\ b = Identifier.as_bytes id ++ be_bytes 8 g ++ rest /\ c = f id g.
Proof.
  intros Hb. rewrite (bind_format _ _ _ _ _ _ _ identifier_format Hb). split.
  - intros (id & b' & Hid & Hb' & -> & Hg). apply (bind_ret_format _ _ _ _ _ _ _ positive_format Hb') in Hg as (g & ? & -> & ->).
    eauto 10.
  - intros (id & g & [Hid Hg] & -> & ->). exists id, (be_bytes 8 g ++ rest). apply Forall_app in Hb as [_ Hb'].
    split_and!; [done..|]. apply (bind_ret_format _ _ _ _ _ _ _ positive_format Hb'). eauto.
Qed.

Lemma repair_format b c rest : bytes_ok b ->
  (volume_id ← decode_identifier; manifest_id ← decode_identifier;
   stripe_index ← decoder_u64; shard_index ← decoder_u16; source_generation ← decode_positive;
   mret (Repair volume_id manifest_id stripe_index shard_index source_generation)) b = (Ok c, rest) <->
  exists v m i j g, subject_ok (Repair v m i j g) /\
    b = Identifier.as_bytes v ++ Identifier.as_bytes m ++ be_bytes 8 i ++ be_bytes 2 j ++ be_bytes 8 g ++ rest /\
    c = Repair v m i j g.
Proof.
  intros Hb. unfold decoder_u64, decoder_u16. split.
  - intros (v & b1 & Hv & H1 & -> & (m & b2 & Hm & H2 & -> & (i & b3 & Hi & H3 & -> & (j & b4 & Hj & H4 & -> & Hg)%(bind_format _ _ _ _ _ _ _ (unsigned_format 2) H3))%(bind_format _ _ _ _ _ _ _ (unsigned_format 8) H2))%(bind_format _ _ _ _ _ _ _ identifier_format H1))%(bind_format _ _ _ _ _ _ _ identifier_format Hb).
    apply (bind_ret_format _ _ _ _ _ _ _ positive_format H4) in Hg as (g & ? & -> & ->).
    exists v, m, i, j, g. split_and!; done.
  - intros (v & m & i & j & g & (Hv & Hm & Hi & Hj & Hg) & -> & ->).
    pose proof (bytes_ok_suffix _ _ Hb) as H1. pose proof (bytes_ok_suffix _ _ H1) as H2.
    pose proof (bytes_ok_suffix _ _ H2) as H3. pose proof (bytes_ok_suffix _ _ H3) as H4.
    rewrite (bind_run _ _ _ _ _ _ identifier_format Hb Hv), (bind_run _ _ _ _ _ _ identifier_format H1 Hm),
      (bind_run _ _ _ _ _ _ (unsigned_format 8) H2 Hi), (bind_run _ _ _ _ _ _ (unsigned_format 2) H3 Hj),
      (bind_run _ _ _ _ _ _ positive_format H4 Hg). done.
Qed.

Lemma decode_subject_format : reads_format decode_subject subject_ok encode.
Proof.
  intros b s rest Hb. unfold decode_subject. split.
  - intros (version & b1 & _ & H1 & -> & Hs)%(bind_format _ _ _ _ _ _ _ byte_format Hb).
    destruct (N.eqb_spec version 1) as [->|]; [|done]. cbn [negb] in Hs.
    apply (bind_format _ _ _ _ _ _ _ byte_format H1) in Hs as (variant & b2 & _ & H2 & -> & Hs).
    destruct variant as [|p]; [done|]. do 3 (try destruct p as [p|p|]); try discriminate Hs.
    all: lazymatch type of Hs with
         | (_ ← decode_identifier; _ ← decode_identifier; _) _ = _ =>
             apply (repair_format _ _ _ H2) in Hs as (v & m & i & j & g & Hok & -> & ->)
         | (_ ← decode_identifier; _ ← decode_positive; _) _ = _ =>
             apply (id_generation_format _ _ _ _ H2) in Hs as (id & g & Hok & -> & ->)
         | _ => apply (bind_ret_format _ _ _ _ _ _ _ identifier_format H2) in Hs as (id & Hok & -> & ->)
         end.
    all: split; [exact Hok|]; unfold encode, encode_drain_subject, encode_target_subject; by rewrite <- ?app_assoc.
  - intros [Hs ->]. unfold encode in *. rewrite <- app_assoc in *.
    rewrite (bind_run _ _ _ _ _ _ byte_format Hb) by done. cbn [negb N.eqb Pos.eqb]. apply bytes_ok_suffix in Hb.
    destruct s as [v m i j g|id g|[id g|id g|id]|id g|id g]; unfold encode_drain_subject, encode_target_subject in *;
      rewrite <- !app_assoc in *; rewrite (bind_run _ _ _ _ _ _ byte_format Hb) by done; apply bytes_ok_suffix in Hb;
      cbv iota; first [apply repair_format|apply id_generation_format|apply (bind_ret_format _ _ _ _ _ _ _ identifier_format)];
      eauto 10.
Qed.

Lemma len_encode s : len (encode s) <= MAXIMUM_WORK_SUBJECT_BYTES.
Proof.
  destruct s as [v m i j g|id g|[id g|id g|id]|id g|id g];
    unfold encode, encode_drain_subject, encode_target_subject, Identifier.as_bytes;
    rewrite !len_app, !len_be_bytes; vm_compute; congruence.
Qed.

(** A byte string decodes to a work subject exactly when the subject is well formed
    (non-nil identifiers, positive generations, fields in range) and the byte string is its
    encoding: every subject survives storage, and no second representation is accepted. *)
Theorem work_subject_roundtrip b s :
  bytes_ok b -> decode b = Ok s <-> subject_ok s /\ b = encode s.
Proof.
  intros Hb. unfold decode. split.
  - intros Hd. inv_ok. destruct ((subject ← decode_subject; _ ← decoder_finish; mret subject) b) as [r rest] eqn:E.
    cbn in Hd. subst r. apply (bind_format _ _ _ _ _ _ _ decode_subject_format Hb) in E as (s' & b' & Hs & _ & -> & Hf).
    apply se_bind_Ok in Hf as ([] & b2 & Hf & [= <- <-]). unfold decoder_finish, get_state, mbind, SE_bind in Hf.
    destruct (bool_decide_reflect (b' = [])) as [->|]; [|done]. by rewrite app_nil_r.
  - intros [Hs ->]. rewrite (proj2 (N.ltb_ge _ _) (len_encode s)). rewrite <- (app_nil_r (encode s)) in *.
    by rewrite (bind_run _ _ _ _ _ _ decode_subject_format Hb).
Qed.

(** ** Priority facts *)

(** What the queue is meant to be ordered by, most significant first: the safety
    consequence, the unmet predicates, then instability, heat and time, each capped. *)
Definition rank (s : WorkSignals) (now : Z) : list N :=
  [urgency_code (urgency s);
   N.min (saturating_add u16_max (protection_debt s) (locality_debt s)) 4095;
   N.min (instability s) 1023;
   N.min (access_heat s) 1023;
   N.min (saturating_add u64_max (elapsed_micros (created_at s) now / MICROS_PER_SECOND)
            (match due_at s with Some due => elapsed_micros due now / MICROS_PER_SECOND | None => 0 end)) MAXIMUM_TIME_SCORE].

Lemma lor_disjoint a b k : b < 2 ^ k -> N.lor (N.shiftl a k) b = a * 2 ^ k + b.
Proof.
  intros Hb. rewrite N.shiftl_mul_pow2.
  assert (N.land (a * 2 ^ k) b = 0) as Hland.
  { apply N.bits_inj. intros n. rewrite N.land_spec, N.bits_0. destruct (N.lt_ge_cases n k).
    - by rewrite N.mul_pow2_bits_low.
    - rewrite <- (N.mod_small b (2 ^ k)) by done. by rewrite N.mod_pow2_bits_high, andb_false_r. }
  rewrite (N.add_nocarry_lxor _ _ Hland). symmetry. by apply N.lxor_lor.
Qed.

(** The five fields do not overlap and stay within 64 bits. *)
Lemma priority_fields s now u d i h t : rank s now = [u; d; i; h; t] ->
  priority s now = u * 2 ^ 60 + (d * 2 ^ 48 + (i * 2 ^ 38 + (h * 2 ^ 28 + t))) /\
  u <= 5 /\ d < 2 ^ 12 /\ i < 2 ^ 10 /\ h < 2 ^ 10 /\ t < 2 ^ 28.
Proof.
  unfold rank. intros [= Hu Hd Hi Hh Ht]. unfold priority. cbv zeta. rewrite Hu, Hd, Hi, Hh, Ht.
  assert (u <= 5) by (rewrite <- Hu; by destruct (urgency s)).
  assert (d <= 4095) by (rewrite <- Hd; apply N.le_min_r). assert (i <= 1023) by (rewrite <- Hi; apply N.le_min_r).
  assert (h <= 1023) by (rewrite <- Hh; apply N.le_min_r).
  assert (t <= 1048575) by (rewrite <- Ht; apply N.le_min_r). clear -H H0 H1 H2 H3.
  rewrite !(N.mod_small (N.shiftl _ _)) by (rewrite N.shiftl_mul_pow2; lia).
  rewrite <- !N.lor_assoc, (lor_disjoint h t) by lia. rewrite (lor_disjoint i) by lia.
  rewrite (lor_disjoint d) by lia. rewrite (lor_disjoint u) by lia. lia.
Qed.

(** The persisted 64-bit priority orders jobs exactly as their capped signals in
    lexicographic order, and two jobs tie only when all five capped signals agree: no
    field overflows into the next, so neither age nor heat nor any amount of debt lets a
    job overtake one with a graver safety consequence. *)
Theorem priority_is_lexicographic s1 s2 now :
  (priority s1 now <= priority s2 now <-> bytes_le (rank s1 now) (rank s2 now)) /\
  (priority s1 now = priority s2 now <-> rank s1 now = rank s2 now) /\ priority s1 now <= u64_max.
Proof.
  destruct (rank s1 now) as [|u1 [|d1 [|i1 [|h1 [|t1 [|]]]]]] eqn:E1; try discriminate E1.
  destruct (rank s2 now) as [|u2 [|d2 [|i2 [|h2 [|t2 [|]]]]]] eqn:E2; try discriminate E2.
  apply priority_fields in E1 as (-> & ? & ? & ? & ? & ?), E2 as (-> & ? & ? & ? & ? & ?).
  cbn [bytes_le]. unfold u64_max. split_and!; [lia| |lia].
  split; [intros|intros [= -> -> -> -> ->]; lia]. assert (u1 = u2 /\ d1 = d2 /\ i1 = i2 /\ h1 = h2 /\ t1 = t2) by lia.
  destruct_and!. by subst.
Qed.

(** ** Admission and repair timing *)

(** An admitted demand leaves both ceilings respected, and a refused one is empty or would
    break a ceiling. *)
Lemma admits_spec b usage demand :
  budget_in_flight_bytes b <= u64_max ->
  admits b usage demand = true <->
  0 < demand_in_flight_bytes demand /\ active_jobs usage + 1 <= concurrent_jobs b /\
  usage_in_flight_bytes usage + demand_in_flight_bytes demand <= budget_in_flight_bytes b.
Proof.
  intros Hmax. unfold admits, checked_add. rewrite !andb_true_iff, !N.ltb_lt.
  destruct (N.leb_spec (usage_in_flight_bytes usage + demand_in_flight_bytes demand) u64_max).
  - rewrite N.leb_le. lia.
  - split; [naive_solver|lia].
Qed.

Definition admit_job (usage : WorkUsage) (demand : WorkDemand) : WorkUsage :=
  {| active_jobs := active_jobs usage + 1;
     usage_in_flight_bytes := usage_in_flight_bytes usage + demand_in_flight_bytes demand |}.

(** Claiming demands one after another, each only if the budget admits it. *)
Definition claim_jobs (b : WorkBudget) (usage : WorkUsage) (demands : list WorkDemand) : WorkUsage :=
  foldl (fun usage demand => if admits b usage demand then admit_job usage demand else usage) usage demands.

Lemma claim_jobs_bounded b usage demands :
  budget_in_flight_bytes b <= u64_max -> active_jobs usage <= concurrent_jobs b ->
  usage_in_flight_bytes usage <= budget_in_flight_bytes b ->
  active_jobs (claim_jobs b usage demands) <= concurrent_jobs b /\
  usage_in_flight_bytes (claim_jobs b usage demands) <= budget_in_flight_bytes b.
Proof.
  intros Hmax. revert usage. unfold claim_jobs. induction demands as [|d demands IH]; intros usage Hj Hb; [done|]. cbn [foldl].
  destruct (admits b usage d) eqn:Ea; [|by apply IH]. apply (admits_spec b usage d Hmax) in Ea as (? & ? & ?). by apply IH.
Qed.

Lemma unix_checked_add_Some instant d e :
  unix_checked_add instant d = Some e <-> (e = instant + Z.of_N d /\ Z.of_N d <= i64_max /\ e <= i64_max)%Z.
Proof. unfold unix_checked_add. repeat case_match; bool_cases; split; intros; simplify_eq; naive_solver lia. Qed.

Lemma grace_antitone grace i j : i <= j ->
  grace / saturating_add u64_max j 1 <= grace / saturating_add u64_max i 1.
Proof. intros Hij. apply N.div_le_compat_l; unfold saturating_add, u64_max; lia. Qed.

(** Repair with margin left is never due before the absence began nor (when the deadline
    is representable) after the administrator's maximum deferral, repeated instability never
    postpones it, and repair without margin is due at once. *)
Theorem repair_due_at_bounded now since margin i j grace deferral latest :
  0 < margin -> i <= j -> unix_checked_add since deferral = Some latest ->
  is_Some (unix_checked_add since grace) ->
  (since <= repair_due_at now since margin j grace deferral <= latest)%Z /\
  (repair_due_at now since margin j grace deferral <= repair_due_at now since margin i grace deferral)%Z /\
  repair_due_at now since 0 j grace deferral = now.
Proof.
  intros Hm Hij Hl [e He]. unfold repair_due_at. rewrite (proj2 (N.eqb_neq margin 0)), Hl by lia. unfold default, id.
  apply unix_checked_add_Some in Hl, He. pose proof (grace_antitone grace i j Hij) as Hg.
  assert (forall k, grace / saturating_add u64_max k 1 <= grace) as Hle by (intros k; apply N.Div0.div_le_upper_bound; unfold saturating_add, u64_max; nia).
  assert (forall k, unix_checked_add since (grace / saturating_add u64_max k 1) = Some (since + Z.of_N (grace / saturating_add u64_max k 1))%Z) as Ha
    by (intros k; apply unix_checked_add_Some; specialize (Hle k); lia).
  rewrite !Ha. unfold default, id. clear Ha Hle. revert Hg.
  generalize (grace / saturating_add u64_max i 1) (grace / saturating_add u64_max j 1). intros gi gj Hg.
  split_and!; try done; repeat match goal with |- context [(?a <? ?b)%Z] => destruct (Z.ltb_spec a b) end; lia.
Qed.

(** ** Examples *)

Definition sample_subject : WorkSubject := Repair 17 18 3 4 5.
Definition sample_bytes : bytes := Eval vm_compute in encode sample_subject.

Lemma work_subject_roundtrip_witness : bytes_ok sample_bytes /\ decode sample_bytes = Ok sample_subject.
Proof.
  assert (bytes_ok sample_bytes) as Hb by (repeat constructor).
  split; [exact Hb|]. apply (work_subject_roundtrip sample_bytes sample_subject Hb).
  split; [vm_compute; repeat split|vm_compute; reflexivity].
Defined.

Lemma repair_due_at_bounded_witness :
  (repair_due_at 100 10 1 3 60 50 <= repair_due_at 100 10 1 1 60 50)%Z /\ repair_due_at 100 10 1 3 60 50 = 25%Z.
Proof.
  assert (is_Some (unix_checked_add 10 60)) as Hg by (vm_compute; eexists; reflexivity).
  split; [|vm_compute; reflexivity].
  apply (repair_due_at_bounded 100 10 1 1 3 60 50 60 ltac:(lia) ltac:(lia) eq_refl Hg).
Defined.
