(* ===== verification/Contracts.v ===== *)
(** The contracts every replaceable component implements: the guarded lifecycle of
    meshspan-domain/src/lifecycle.rs, the bounded values, errors and lifecycle trait of
    meshspan-contracts/src/common.rs and component.rs, and the coding geometry of data.rs. *)

From S2P Require Import Prelude.
From stdpp Require Import prelude.
#[local] Open Scope N_scope.

(** BLAKE3 comes from the [blake3] crate: a parameter of everything that hashes with it. *)
Class Blake3 := blake3 : bytes -> bytes.

(** ** Guarded lifecycle *)

Inductive LifecycleState := Registered | Active | Draining | Retired.
Inductive LifecycleEvent := Activate | BeginDrain | CancelDrain | Retire.

#[export] Instance LifecycleState_eq_dec : EqDecision LifecycleState.
Proof. solve_decision. Defined.
#[export] Instance LifecycleEvent_eq_dec : EqDecision LifecycleEvent.
Proof. solve_decision. Defined.

Record LifecycleTransitionError := { event : LifecycleEvent; state : LifecycleState }.

Definition transition (self : LifecycleState) (event : LifecycleEvent) : result LifecycleTransitionError LifecycleState :=
  match self, event with
  | Registered, Activate | Draining, CancelDrain => Ok Active
  | Active, BeginDrain => Ok Draining
  | (Registered | Draining), Retire => Ok Retired
  | _, _ => Err {| event := event; state := self |}
  end.

(** ** Errors and bounded values *)

Inductive ContractError :=
| InvalidInput | Unauthorized | Stale | Conflict | UnsupportedVersion | NotFound | ResourceExhausted
| Corrupt | DeadlineExceeded | Unavailable | InternalContract.

#[export] Instance ContractError_eq_dec : EqDecision ContractError.
Proof. solve_decision. Defined.

Record BoundedItemsError := { items_actual : N; items_maximum : N }.

Definition new_items {A} (items : list A) (maximum_items : N) : result BoundedItemsError (list A) :=
  if maximum_items <? len items then Err {| items_actual := len items; items_maximum := maximum_items |} else Ok items.

Record BoundedBytesError := { actual : N; maximum : N }.

Definition from_vec (value : bytes) (maximum_bytes : N) : result BoundedBytesError bytes :=
  if maximum_bytes <? len value then Err {| actual := len value; maximum := maximum_bytes |} else Ok value.

Definition copy_from (value : bytes) (maximum_bytes : N) : result BoundedBytesError bytes :=
  if maximum_bytes <? len value then Err {| actual := len value; maximum := maximum_bytes |} else Ok value.

Record ContractVersion := { major : N; minor : N }.
#[export] Instance ContractVersion_eq_dec : EqDecision ContractVersion.
Proof. solve_decision. Defined.
Definition V1_0 : ContractVersion := {| major := 1; minor := 0 |}.

Record RequestContext := {
  contract_version : ContractVersion;
  operation_id : N;
  deadline : Z;
  expected_revision : option N;
}.

Record VersionedPayload := { format_version : N; payload_bytes : bytes }.

(** ** Component lifecycle *)

Record ComponentConfiguration := { schema_version : N; desired_revision : N; canonical_bytes : bytes }.

Inductive ComponentTransition := Ready | NowActive | Pending | Unsupported | TimedOut.

Record ComponentObservation := { observed_revision : N; observed_lifecycle : LifecycleState; observed_at : Z }.

(** The trait: [C] is the component's own state. *)
Class ComponentLifecycle (C : Type) := {
  validate_configuration : C -> ComponentConfiguration -> result ContractError unit;
  prepare : ComponentConfiguration -> SE C ContractError ComponentTransition;
  activate : N -> SE C ContractError ComponentTransition;
  drain : Z -> SE C ContractError ComponentTransition;
  retire : N -> SE C ContractError ComponentTransition;
  observe : C -> Z -> ComponentObservation;
}.

Definition lifecycle_of `{ComponentLifecycle C} (c : C) : LifecycleState := observed_lifecycle (observe c 0%Z).

Inductive LifecycleRequest :=
| RequestPrepare (configuration : ComponentConfiguration)
| RequestActivate (revision : N)
| RequestDrain (deadline : Z)
| RequestRetire (revision : N).

Definition lifecycle_request `{ComponentLifecycle C} (r : LifecycleRequest) : SE C ContractError ComponentTransition :=
  match r with
  | RequestPrepare configuration => prepare configuration
  | RequestActivate revision => activate revision
  | RequestDrain deadline => drain deadline
  | RequestRetire revision => retire revision
  end.

(** One step of the guarded table, or none. *)
Definition lifecycle_move (a b : LifecycleState) : Prop := a = b \/ exists e, transition a e = Ok b.

(** What an implementation owes its callers: a component that has entered service follows
    the guarded table on every request and never falls back to merely registered, and a
    refused request changes nothing. *)
Class LawfulLifecycle (C : Type) `{ComponentLifecycle C} : Prop := {
  request_moves : forall r c, lifecycle_of c <> Registered ->
    post (lifecycle_request r) c (fun _ c' =>
      lifecycle_move (lifecycle_of c) (lifecycle_of c') /\ lifecycle_of c' <> Registered);
  request_refused : forall r c e c', lifecycle_request r c = (Err e, c') -> c' = c;
}.

(** The component after a history of requests. *)
Definition requested `{ComponentLifecycle C} (rs : list LifecycleRequest) (c : C) : C :=
  foldl (fun c r => snd (lifecycle_request r c)) c rs.

Section lawful.
Context `{LawfulLifecycle C}.

Lemma requested_moves (rs : list LifecycleRequest) (c : C) :
  lifecycle_of c <> Registered -> rtc lifecycle_move (lifecycle_of c) (lifecycle_of (requested rs c)).
Proof.
  revert c. induction rs as [|r rs IH]; intros c Hc; cbn [requested foldl]; [done|].
  destruct (request_moves r c Hc) as [Hm Hc']. eapply rtc_l; [exact Hm|by apply IH].
Qed.

Lemma retired_final s : rtc lifecycle_move Retired s -> s = Retired.
Proof.
  remember Retired as r eqn:Er. induction 1 as [|a b c [<-|[e He]] _ IH]; [done|by apply IH|].
  subst a. by destruct e.
Qed.

(** Retirement is permanent, whatever is requested afterwards. *)
Lemma retired_stays (rs : list LifecycleRequest) (c : C) : lifecycle_of c = Retired -> lifecycle_of (requested rs c) = Retired.
Proof. intros Hr. apply retired_final. rewrite <- Hr. apply requested_moves. by rewrite Hr. Qed.

End lawful.

(** ** Coding geometry *)

Definition MAX_SLICES : N := 24.

Record CodingLayout := { data_slices : N; recovery_slices : N; layout_slice_bytes : N }.

Inductive CodingLayoutError := InvalidGeometry.

Definition new_coding_layout (data recovery slice_bytes : N) : result CodingLayoutError CodingLayout :=
  match checked_add u16_max data recovery with
  | None => Err InvalidGeometry
  | Some total_slices =>
      if (data =? 0) || (slice_bytes =? 0) || (MAX_SLICES <? total_slices) then Err InvalidGeometry
      else Ok {| data_slices := data; recovery_slices := recovery; layout_slice_bytes := slice_bytes |}
  end.

Definition total_slices (l : CodingLayout) : N := data_slices l + recovery_slices l.
