(* ===== verification/Coding.v ===== *)
(** Erasure coding behind the contract: meshspan-coding/src/lib.rs.  The Reed-Solomon
    transform (reed-solomon-simd) and BLAKE3 are parameters; what is proved is that padding,
    slicing, digest checks and reassembly around them lose nothing. *)

From S2P Require Import Prelude Contracts.
From stdpp Require Import prelude list.
#[local] Open Scope N_scope.

(** The interface of [reed_solomon_simd]: [None] is any of its errors. *)
Class ReedSolomon := {
  Encoder : Type;
  Decoder : Type;
  supports : N -> N -> bool;
  encoder_new : N -> N -> N -> option Encoder;
  encoder_add_original_shard : Encoder -> bytes -> option Encoder;
  encoder_encode : Encoder -> option (list bytes);
  decoder_new : N -> N -> N -> option Decoder;
  decoder_add_original_shard : Decoder -> N -> bytes -> option Decoder;
  decoder_add_recovery_shard : Decoder -> N -> bytes -> option Decoder;
  decoder_decode : Decoder -> option (N -> option bytes);
}.

Definition MAXIMUM_SLICES : N := 24.
Definition MAXIMUM_SLICE_BYTES : N := 8 * 1024 * 1024.

Module Coding.

(** ** Lifecycle *)

Record ReedSolomonCoding := {
  lifecycle : LifecycleState;
  prepared_revision : option N;
  active_revision : N;
}.

Definition default_coding : ReedSolomonCoding :=
  {| lifecycle := Active; prepared_revision := None; active_revision := 0 |}.

Definition coding_validate_configuration (_ : ReedSolomonCoding) (c : ComponentConfiguration) : result ContractError unit :=
  if (schema_version c =? 1) && negb (desired_revision c =? 0) && bool_decide (canonical_bytes c = []) then Ok tt
  else Err InvalidInput.

Abbreviation CodingSE := (SE ReedSolomonCoding ContractError).

Definition coding_prepare (c : ComponentConfiguration) : CodingSE ComponentTransition :=
  self ← get_state;
  _ ← lift (coding_validate_configuration self c);
  if desired_revision c =? active_revision self then mret NowActive
  else
    _ ← modify_state (fun s => {| lifecycle := lifecycle s; prepared_revision := Some (desired_revision c);
                                  active_revision := active_revision s |});
    mret Ready.

Definition coding_activate (revision : N) : CodingSE ComponentTransition :=
  self ← get_state;
  if (revision =? active_revision self) && bool_decide (lifecycle self = Active) then mret NowActive
  else if negb (bool_decide (prepared_revision self = Some revision)) || bool_decide (lifecycle self = Retired)
  then raise Stale
  else
    _ ← modify_state (fun _ => {| lifecycle := Active; prepared_revision := None; active_revision := revision |});
    mret NowActive.

Definition coding_drain (_ : Z) : CodingSE ComponentTransition :=
  self ← get_state;
  if bool_decide (lifecycle self = Retired) then raise Stale
  else
    _ ← modify_state (fun s => {| lifecycle := Draining; prepared_revision := prepared_revision s;
                                  active_revision := active_revision s |});
    mret Ready.

Definition coding_retire (revision : N) : CodingSE ComponentTransition :=
  self ← get_state;
  if negb (revision =? active_revision self) || negb (bool_decide (lifecycle self = Draining)) then raise Stale
  else
    _ ← modify_state (fun s => {| lifecycle := Retired; prepared_revision := prepared_revision s;
                                  active_revision := active_revision s |});
    mret NowActive.

Definition coding_observe (self : ReedSolomonCoding) (at_ : Z) : ComponentObservation :=
  {| observed_revision := default (active_revision self) (prepared_revision self);
     observed_lifecycle := lifecycle self; observed_at := at_ |}.

#[export] Instance coding_lifecycle : ComponentLifecycle ReedSolomonCoding := {
  validate_configuration := coding_validate_configuration;
  prepare := coding_prepare;
  activate := coding_activate;
  drain := coding_drain;
  retire := coding_retire;
  observe := coding_observe;
}.

Definition require_active (self : ReedSolomonCoding) : result ContractError unit :=
  if bool_decide (lifecycle self = Active) then Ok tt else Err Unavailable.

(** ** Coding *)

Definition validate_context (c : RequestContext) : result ContractError unit :=
  if negb (bool_decide (contract_version c = V1_0)) || (deadline c =? 0)%Z then Err InvalidInput else Ok tt.

Record ReconstructionRequest := {
  context : RequestContext;
  layout : CodingLayout;
  available_slices : list (option bytes);
  slice_digests : list bytes;
  logical_length : N;
  logical_digest : bytes;
}.

Section coding.
Context `{ReedSolomon, Blake3}.

Definition validate_layout (l : CodingLayout) : result ContractError (N * N * N) :=
  let data := data_slices l in
  let recovery := recovery_slices l in
  slice_bytes ← ok_or (try_narrow usize_max (layout_slice_bytes l)) InvalidInput;
  if (data =? 0)
     || match checked_add usize_max data recovery with Some total => MAXIMUM_SLICES <? total | None => true end
     || (slice_bytes =? 0) || (MAXIMUM_SLICE_BYTES <? slice_bytes)
     || (negb (recovery =? 0) && negb (supports data recovery))
  then Err InvalidInput
  else Ok (data, recovery, slice_bytes).

(** [chunks_exact(size)]. *)
Definition chunks_exact (size : N) (l : bytes) : list bytes :=
  map (fun i => take (N.to_nat size) (drop (i * N.to_nat size) l)) (seq 0 (length l / N.to_nat size)).

Definition recovery_shards (data_count recovery_count slice_bytes : N) (slices : list bytes)
    : result ContractError (list bytes) :=
  encoder ← ok_or (encoder_new data_count recovery_count slice_bytes) InvalidInput;
  encoder ← try_fold (fun e original => ok_or (encoder_add_original_shard e original) InvalidInput) encoder slices;
  ok_or (encoder_encode encoder) InternalContract.

Definition encode (self : ReedSolomonCoding) (ctx : RequestContext) (l : CodingLayout) (logical_bytes : bytes)
    : result ContractError (list bytes) :=
  _ ← require_active self;
  _ ← validate_context ctx;
  '(data_count, recovery_count, slice_bytes) ← validate_layout l;
  capacity ← ok_or (checked_mul usize_max data_count slice_bytes) InvalidInput;
  if bool_decide (logical_bytes = []) || (capacity <? len logical_bytes) then Err InvalidInput
  else
    let padded := logical_bytes ++ replicate (N.to_nat (capacity - len logical_bytes)) 0 in
    slices ← try_map (fun slice => map_err (fun _ => InternalContract) (copy_from slice slice_bytes))
               (chunks_exact slice_bytes padded);
    slices ←
      (if negb (recovery_count =? 0) then
         recovery ← recovery_shards data_count recovery_count slice_bytes slices;
         try_fold (fun slices r => s ← map_err (fun _ => InternalContract) (copy_from r slice_bytes); Ok (slices ++ [s]))
           slices recovery
       else Ok slices);
    map_err (fun _ => InternalContract) (new_items slices MAXIMUM_SLICES).

Definition verified_slices (r : ReconstructionRequest) (slice_bytes : N) : result ContractError (list (option bytes)) :=
  try_map (fun '(slice, digest) =>
      match slice with
      | Some slice =>
          if negb (len slice =? slice_bytes) then Err InvalidInput
          else if bool_decide (blake3 slice = digest) then Ok (Some slice)
          else Ok None
      | None => Ok None
      end) (zip (available_slices r) (slice_digests r)).

Definition feed_decoder (data_count : N) (d : Decoder) (slices : list (option bytes)) : result ContractError Decoder :=
  try_fold (fun d '(index, slice) =>
      match slice with
      | None => Ok d
      | Some slice =>
          if index <? data_count then ok_or (decoder_add_original_shard d index slice) InvalidInput
          else ok_or (decoder_add_recovery_shard d (index - data_count) slice) InvalidInput
      end) d (enumerate slices).

Definition recover_originals (slices : list (option bytes)) (data_count recovery_count slice_bytes : N)
    : result ContractError (list bytes) :=
  let originals := take (N.to_nat data_count) slices in
  if forallb (fun s => bool_decide (is_Some s)) originals
  then try_map (fun s => ok_or s InternalContract) originals
  else if recovery_count =? 0 then Err Corrupt
  else
    decoder ← ok_or (decoder_new data_count recovery_count slice_bytes) InvalidInput;
    decoder ← feed_decoder data_count decoder slices;
    restored ← ok_or (decoder_decode decoder) Corrupt;
    try_map (fun index =>
        ok_or (match mjoin (slices !! N.to_nat index) with Some s => Some s | None => restored index end) InternalContract)
      (range 0 data_count).

Definition reconstruct (self : ReedSolomonCoding) (r : ReconstructionRequest) : result ContractError bytes :=
  _ ← require_active self;
  _ ← validate_context (context r);
  '(data_count, recovery_count, slice_bytes) ← validate_layout (layout r);
  let total_count := data_count + recovery_count in
  if negb (len (available_slices r) =? total_count) || negb (len (slice_digests r) =? total_count) then Err InvalidInput
  else
    length_ ← ok_or (try_narrow usize_max (logical_length r)) InvalidInput;
    capacity ← ok_or (checked_mul usize_max data_count slice_bytes) InvalidInput;
    if (length_ =? 0) || (capacity <? length_) then Err InvalidInput
    else
      verified ← verified_slices r slice_bytes;
      if len (List.filter (fun s => bool_decide (is_Some s)) verified) <? data_count then Err Corrupt
      else
        originals ← recover_originals verified data_count recovery_count slice_bytes;
        let logical := take (N.to_nat length_) (concat originals) in
        if negb (bool_decide (blake3 logical = logical_digest r)) then Err Corrupt
        else map_err (fun _ => InternalContract) (from_vec logical capacity).

End coding.

(** ** The documented contract of the transform *)

Section laws.
Context `{ReedSolomon}.

(** Shards of one stripe: the originals, then the recovery shards computed from them. *)
Definition coded (d r b : N) (originals recovery : list bytes) : Prop :=
  len originals = d /\ Forall (fun s => len s = b) originals /\ recovery_shards d r b originals = Ok recovery.

(** Some shards of a stripe went missing, none was replaced. *)
Definition survivors (present : list (option bytes)) (shards : list bytes) : Prop :=
  Forall2 (fun p s => p = None \/ p = Some s) present shards.

Definition present_count (present : list (option bytes)) : N :=
  len (List.filter (fun s => bool_decide (is_Some s)) present).

(** A supported geometry encodes into the requested number of recovery shards, and any
    [d] shards of a stripe restore every original. *)
Class ReedSolomonLaws : Prop := {
  rs_recovery_count : forall d r b originals recovery, coded d r b originals recovery -> len recovery = r;
  rs_any_subset : forall d r b originals recovery present,
    coded d r b originals recovery -> survivors present (originals ++ recovery) -> d <= present_count present ->
    exists fresh fed restored, decoder_new d r b = Some fresh /\ feed_decoder d fresh present = Ok fed /\
      decoder_decode fed = Some restored /\
      forall i s, originals !! N.to_nat i = Some s -> present !! N.to_nat i = Some None -> restored i = Some s;
}.

End laws.

(** ** Padding and slicing *)

Lemma chunks_concat b n (l : bytes) : length l = (n * b)%nat ->
  concat (map (fun i => take b (drop (i * b) l)) (seq 0 n)) = l /\
  Forall (fun s => length s = b) (map (fun i => take b (drop (i * b) l)) (seq 0 n)).
Proof.
  revert l. induction n as [|n IH]; intros l Hl; cbn [seq map concat].
  - by destruct l.
  - destruct (IH (drop b l)) as [Hc Hf]; [rewrite length_drop; lia|].
    rewrite <- seq_shift, map_map.
    rewrite (map_ext (fun i => take b (drop (S i * b) l)) (fun i => take b (drop (i * b) (drop b l))))
      by (intros i; by rewrite drop_drop).
    rewrite Hc. cbn [Nat.mul]. rewrite drop_0, firstn_skipn. split; [done|].
    constructor; [rewrite length_take; lia|done].
Qed.

Lemma chunks_exact_spec d b (l : bytes) : b <> 0 -> len l = d * b ->
  len (chunks_exact b l) = d /\ Forall (fun s => len s = b) (chunks_exact b l) /\ concat (chunks_exact b l) = l.
Proof.
  intros Hb Hl. unfold chunks_exact.
  assert (length l = N.to_nat d * N.to_nat b)%nat as Hlen by (unfold len in Hl; lia).
  assert (length l / N.to_nat b = N.to_nat d)%nat as -> by (rewrite Hlen; apply Nat.div_mul; lia).
  destruct (chunks_concat (N.to_nat b) (N.to_nat d) l Hlen) as [Hc Hf]. split_and!; [|  |done].
  - unfold len. rewrite length_map, length_seq. lia.
  - eapply Forall_impl; [exact Hf|]. intros x Hx. cbn in Hx. unfold len. lia.
Qed.

Lemma copy_from_Ok v m w : copy_from v m = Ok w -> w = v.
Proof. unfold copy_from. intros Hw. by inv_ok. Qed.

(** ** Round trip *)

Section roundtrip.
Context `{ReedSolomon, Blake3}.

Lemma push_recovery_Ok b recovery slices out :
  try_fold (fun slices r => s ← map_err (fun _ => InternalContract) (copy_from r b); Ok (slices ++ [s])) slices recovery = Ok out ->
  out = slices ++ recovery.
Proof.
  revert slices. induction recovery as [|r recovery IH]; intros slices Hf; cbn [try_fold] in Hf.
  - injection Hf as <-. by rewrite app_nil_r.
  - apply result_bind_Ok in Hf as (acc & Hacc & Hf). inv_ok.
    apply IH in Hf. rewrite Hf, <- app_assoc. cbn. do 2 f_equal.
    match goal with HC : copy_from _ _ = Ok _ |- _ => by apply copy_from_Ok in HC end.
Qed.

Lemma validate_layout_Ok l d r b : validate_layout l = Ok (d, r, b) ->
  d = data_slices l /\ r = recovery_slices l /\ b = layout_slice_bytes l /\ d <> 0 /\ b <> 0 /\ d + r <= MAXIMUM_SLICES.
Proof.
  unfold validate_layout. intros Hv. apply result_bind_Ok in Hv as (sb & [-> _]%ok_or_Ok%try_narrow_Some & Hv).
  destruct (_ || _ || _ || _ || _) eqn:E in Hv; [done|]. injection Hv as <- <- <-. bool_cases.
  unfold checked_add in *. repeat case_match; bool_cases; simplify_eq; split_and!; done.
Qed.

(** The stripe an encoding writes down. *)
Lemma encode_Ok self ctx l logical slices : encode self ctx l logical = Ok slices ->
  require_active self = Ok tt /\ logical <> [] /\ exists d r b originals recovery pad,
  validate_layout l = Ok (d, r, b) /\ slices = originals ++ recovery /\ concat originals = logical ++ pad /\
  checked_mul usize_max d b = Some (d * b) /\ len logical <= d * b /\
  len originals = d /\ Forall (fun s => len s = b) originals /\
  (if r =? 0 then recovery = [] else recovery_shards d r b originals = Ok recovery).
Proof.
  unfold encode. intros He. apply result_bind_Ok in He as ([] & Ha & He). apply result_bind_Ok in He as ([] & _ & He).
  apply result_bind_Ok in He as ([[d r] b] & Hv & He). apply result_bind_Ok in He as (capacity & Hc & He).
  apply ok_or_Ok in Hc. pose proof Hc as Hmul. apply checked_mul_Some in Hc as [-> Hmax].
  destruct (bool_decide _ || _) eqn:Eg in He; [done|]. bool_cases.
  apply result_bind_Ok in He as (originals & Ho & He). apply try_map_id in Ho as ->;
    [|intros x y Hy; by apply map_err_Ok, copy_from_Ok in Hy].
  apply result_bind_Ok in He as (all & Hall & Hnew). apply map_err_Ok in Hnew. unfold new_items in Hnew.
  destruct (_ <? _) in Hnew; [done|]. injection Hnew as <-.
  pose proof (validate_layout_Ok _ _ _ _ Hv) as (_ & _ & _ & Hd & Hb & _).
  set (pad := replicate (N.to_nat (d * b - len logical)) 0) in *.
  destruct (chunks_exact_spec d b (logical ++ pad)) as (Hn & Hf & Hcat); [done| |].
  { rewrite len_app. unfold pad, len. rewrite length_replicate. unfold len in *. lia. }
  split_and!; [done|done|]. destruct (r =? 0) eqn:Er; cbn [negb] in Hall.
  - injection Hall as <-. exists d, r, b, (chunks_exact b (logical ++ pad)), [], pad. rewrite Er, app_nil_r. done.
  - apply result_bind_Ok in Hall as (recovery & Hr & Hpush). apply push_recovery_Ok in Hpush as ->.
    exists d, r, b, (chunks_exact b (logical ++ pad)), recovery, pad. rewrite Er. done.
Qed.

(** A presented slice counts when it is exactly the one written. *)
Definition keep (given : option bytes) (written : bytes) : option bytes :=
  if bool_decide (given = Some written) then Some written else None.

(** What may come back from storage: nothing, the slice itself, or other bytes of the same
    length that do not collide with it. *)
Definition presented (b : N) (given : option bytes) (written : bytes) : Prop :=
  forall g, given = Some g -> len g = b /\ (blake3 g = blake3 written -> g = written).

Lemma verified_slices_keep r b slices :
  slice_digests r = map blake3 slices -> Forall2 (presented b) (available_slices r) slices ->
  verified_slices r b = Ok (zip_with keep (available_slices r) slices).
Proof.
  intros Hd Hp. unfold verified_slices. rewrite Hd. clear Hd.
  induction Hp as [|g s given slices Hg _ IH]; cbn [map zip_with try_map]; [done|]. rewrite IH. unfold keep at 2.
  destruct g as [g|]; [|by rewrite bool_decide_eq_false_2]. destruct (Hg g eq_refl) as [-> Hinj]. rewrite N.eqb_refl. cbn [negb].
  destruct (bool_decide_reflect (blake3 g = blake3 s)) as [Heq|Hne].
  - rewrite (Hinj Heq), bool_decide_eq_true_2 by done. done.
  - rewrite bool_decide_eq_false_2; [done|]. by intros [= ->].
Qed.

Lemma keep_survivors given slices : length given = length slices -> survivors (zip_with keep given slices) slices.
Proof.
  intros Hl. unfold survivors. rewrite <- Forall2_same_length in Hl. induction Hl; cbn; constructor; [|done].
  unfold keep. case_bool_decide; auto.
Qed.

Lemma survivors_all present shards :
  survivors present shards -> forallb (fun s => bool_decide (is_Some s)) present = true -> present = map Some shards.
Proof.
  induction 1 as [|p s present shards [->| ->] _ IH]; cbn; [done|done|].
  intros Ha. by rewrite IH.
Qed.

Lemma present_count_le present : present_count present <= len present.
Proof. unfold present_count, len. pose proof (filter_length_le (fun s : option bytes => bool_decide (is_Some s)) present). lia. Qed.

Lemma present_count_full present :
  len present <= present_count present -> forallb (fun s => bool_decide (is_Some s)) present = true.
Proof.
  induction present as [|p present IH]; [done|]. unfold present_count. cbn [List.filter forallb].
  destruct (bool_decide (is_Some p)); rewrite ?len_cons; intros Hl.
  - apply IH. unfold present_count. lia.
  - pose proof (present_count_le present). unfold present_count in *. lia.
Qed.

Lemma try_map_Some (l : list bytes) : try_map (fun s => ok_or s InternalContract) (map Some l) = Ok l.
Proof. induction l as [|x l IH]; [done|]. cbn. by rewrite IH. Qed.

Lemma lookup_range_0 d k i : range 0 d !! k = Some i -> i = N.of_nat k.
Proof.
  unfold range. rewrite list_lookup_fmap. intros (j & Hj & ->)%fmap_Some.
  apply lookup_seq in Hj. lia.
Qed.

Lemma recover_originals_Ok `{!ReedSolomonLaws} d r b originals recovery present :
  len originals = d -> Forall (fun s => len s = b) originals ->
  (if r =? 0 then recovery = [] else recovery_shards d r b originals = Ok recovery) ->
  survivors present (originals ++ recovery) -> d <= present_count present ->
  recover_originals present d r b = Ok originals.
Proof.
  intros Hn Hf Hrec Hs Hc. unfold recover_originals.
  assert (survivors (take (N.to_nat d) present) originals) as Hs0.
  { unfold len in Hn. rewrite <- (take_app_length originals recovery). replace (length originals) with (N.to_nat d) by lia.
    by apply Forall2_take. }
  destruct (forallb _ (take _ _)) eqn:Eall; [by rewrite (survivors_all _ _ Hs0 Eall), try_map_Some|].
  destruct (r =? 0) eqn:Er.
  { exfalso. subst recovery. rewrite app_nil_r in Hs. pose proof (Forall2_length _ _ _ Hs) as Hl.
    rewrite take_ge in Eall by (unfold len in Hn; lia). rewrite present_count_full in Eall; [done|]. unfold len in *. lia. }
  destruct (rs_any_subset d r b originals recovery present) as (fresh & fed & restored & -> & Hfeed & Hdec & Hres); [done..|].
  cbn [ok_or mbind result_bind]. rewrite Hfeed. cbn [mbind result_bind]. rewrite Hdec. cbn [ok_or mbind result_bind].
  apply try_map_Forall2, Forall2_same_length_lookup_2.
  { unfold range. rewrite length_fmap, length_seq. unfold len in Hn. lia. }
  intros k i s ->%lookup_range_0 Hk. rewrite Nat2N.id.
  destruct (Forall2_lookup_r _ _ _ k s Hs) as (p & Hp & [->| ->]); [by apply lookup_app_l_Some| |].
  - rewrite Hp. cbn. rewrite (Hres (N.of_nat k) s); [done|by rewrite Nat2N.id..].
  - by rewrite Hp.
Qed.

(** C28: a stripe that was encoded comes back exactly, whatever happened to its slices in
    storage, as long as the number the geometry calls for are intact: missing slices and
    slices whose bytes changed (without a digest collision) are ignored, padding is removed,
    and the result is the stripe's logical bytes. *)
Theorem reconstruct_encoded `{!ReedSolomonLaws} self ctx l logical slices req :
  encode self ctx l logical = Ok slices ->
  validate_context (context req) = Ok tt -> layout req = l ->
  slice_digests req = map blake3 slices -> logical_length req = len logical -> logical_digest req = blake3 logical ->
  Forall2 (presented (layout_slice_bytes l)) (available_slices req) slices ->
  data_slices l <= present_count (zip_with keep (available_slices req) slices) ->
  reconstruct self req = Ok logical.
Proof.
  intros (Hact & Hne & d & r & b & originals & recovery & pad & Hv & -> & Hcat & Hmul & Hlen & Hn & Hf & Hrec)%encode_Ok.
  intros Hctx Hl Hd Hlog Hdig Hp Hc. subst l. pose proof (validate_layout_Ok _ _ _ _ Hv) as (-> & Hr & Hb & _).
  rewrite <- Hb in Hp. pose proof (Forall2_length _ _ _ Hp) as Hplen.
  assert (len (originals ++ recovery) = data_slices (layout req) + r) as Htot.
  { rewrite len_app, Hn. f_equal. destruct (r =? 0) eqn:Er; [apply N.eqb_eq in Er; rewrite Hrec, Er; done|].
    by eapply rs_recovery_count. }
  unfold reconstruct. rewrite Hact, Hctx, Hv. cbn [mbind result_bind].
  rewrite Hd. unfold len at 1 2. rewrite length_map, Hplen. fold (len (originals ++ recovery)). rewrite Htot, N.eqb_refl. cbn [negb orb].
  apply checked_mul_Some in Hmul as Hmax. rewrite Hlog. unfold try_narrow. rewrite (proj2 (N.leb_le _ _)) by lia.
  cbn [ok_or mbind result_bind]. rewrite Hmul. cbn [ok_or mbind result_bind].
  rewrite (proj2 (N.eqb_neq (len logical) 0)) by (destruct logical; [done|rewrite len_cons; lia]).
  rewrite (proj2 (N.ltb_ge _ _) Hlen). cbn [orb]. rewrite (verified_slices_keep _ _ _ Hd Hp). cbn [mbind result_bind].
  fold (present_count (zip_with keep (available_slices req) (originals ++ recovery))). rewrite (proj2 (N.ltb_ge _ _) Hc).
  rewrite (recover_originals_Ok _ _ _ _ recovery) by (done || by apply keep_survivors).
  cbn [mbind result_bind]. rewrite Hcat.
  replace (take (N.to_nat (len logical)) (logical ++ pad)) with logical by (unfold len; by rewrite Nat2N.id, take_app_length).
  rewrite Hdig, bool_decide_eq_true_2 by done.
  cbn [negb]. unfold from_vec. by rewrite (proj2 (N.ltb_ge _ _) Hlen).
Qed.

(** Whatever was presented, a reconstruction that returns has the digest it was asked for. *)
Lemma reconstruct_verified self req out : reconstruct self req = Ok out ->
  blake3 out = logical_digest req /\ len out <= logical_length req.
Proof.
  unfold reconstruct. intros Hr. do 2 apply result_bind_Ok in Hr as ([] & _ & Hr). apply result_bind_Ok in Hr as ([[d r] b] & _ & Hr).
  inv_ok. unfold from_vec in *. inv_ok. bool_cases. split; [done|]. unfold len. rewrite length_take. lia.
Qed.

End roundtrip.

(** ** Lifecycle facts *)

#[export] Instance coding_lawful : LawfulLifecycle ReedSolomonCoding.
Proof.
  split.
  - intros [c|rev|d|rev] [life prep act] Hc; unfold lifecycle_move; cbn in *;
      unfold coding_prepare, coding_activate, coding_drain, coding_retire; apply post_get_bind; cbn.
    + apply post_lift_bind; [|by auto]. intros _ _. case_match; (split; [by left|done]).
    + repeat case_match; try (split; [by left|done]). bool_cases. destruct life; try done.
      * split; [by left|done].
      * split; [right; by exists CancelDrain|done].
    + case_match; [split; [by left|done]|]. destruct life; try done.
      * split; [right; by exists BeginDrain|done].
      * split; [by left|done].
    + case_match; [split; [by left|done]|]. bool_cases. subst. split; [right; by exists Retire|done].
  - intros [c|rev|d|rev] self e c'; cbn; unfold coding_prepare, coding_activate, coding_drain, coding_retire,
      get_state, lift, mbind, SE_bind; [destruct (coding_validate_configuration self c); [|by intros [= _ <-]]|..];
      repeat case_match; try discriminate; by intros [= _ <-].
Qed.

End Coding.
