(* ===== verification/Placement.v ===== *)
(** Fault-aware placement: meshspan-placement/src/lib.rs and assessment.rs, with the request
    and plan types of meshspan-contracts/src/data.rs and placement_assessment.rs.  Every
    planner is translated whole; the facts are in PlacementFacts.v. *)

From S2P Require Import Prelude Ids Topology Contracts.
From Stdlib Require Import String.
From stdpp Require Import prelude gmap list sorting.
#[local] Open Scope N_scope.

Module Placement.

Definition MAXIMUM_CANDIDATES : N := 256.
Definition MAXIMUM_SLICES : N := 24.
Definition MAXIMUM_SCENARIOS : N := 16.
Definition MAXIMUM_CELLS : N := 256.
Definition MAXIMUM_PROOF_LOSS_SETS : N := 100000.
Definition EXACT_SEARCH_CANDIDATES : N := 10.
Definition DEFAULT_DATA_SLICES : N := 4.

(** ** Requests and plans *)

Inductive ShardAcknowledgement := AckRequired | AckEventual.

#[export] Instance ShardAcknowledgement_eq_dec : EqDecision ShardAcknowledgement.
Proof. solve_decision. Defined.

Record PlacementPlan := {
  coding_layout : CodingLayout;
  plan_slice_targets : list TargetId;
  acknowledgement_roles_of : list ShardAcknowledgement;
  eventual_fallback_roles : list ShardAcknowledgement;
  plan_topology_revision : N;
  plan_capacity_revision : N;
  protection_proofs : list ProtectionProof;
  policy_evidence_of : VersionedPayload;
}.

Record PlacementCandidate := {
  target_id : TargetId;
  host_id : HostId;
  target_generation : N;
  writable_bytes : N;
  performance_weight : N;
  availability_cells : list N;
}.

#[export] Instance PlacementCandidate_eq_dec : EqDecision PlacementCandidate.
Proof. solve_decision. Defined.

Inductive PlacementCellRole := RequiredBeforeCommit | Eventual | Excluded.

#[export] Instance PlacementCellRole_eq_dec : EqDecision PlacementCellRole.
Proof. solve_decision. Defined.

Record PlacementCellRequirement := {
  cell_id : N;
  role : PlacementCellRole;
  complete_local : bool;
  minimum_durable_targets : option N;
  minimum_distinct_nodes : option N;
  local_scenarios : list FailureScenario;
}.

Record PlacementRequest := {
  write_context : RequestContext;
  logical_stripe_bytes : N;
  write_scenarios : list FailureScenario;
  write_required_scenarios : list FailureScenario;
  write_topology : Topology;
  write_topology_revision : N;
  write_capacity_revision : N;
  write_candidates : list PlacementCandidate;
  write_minimum_durable_targets : N;
  write_minimum_distinct_nodes : N;
  write_cells : list PlacementCellRequirement;
}.

Record RepairPlacementRequest := {
  repair_context : RequestContext;
  repair_coding_layout : CodingLayout;
  repair_source_shard_index : N;
  repair_current_targets : list TargetId;
  repair_scenarios : list FailureScenario;
  repair_required_scenarios : list FailureScenario;
  repair_topology : Topology;
  repair_topology_revision : N;
  repair_capacity_revision : N;
  repair_candidates : list PlacementCandidate;
  repair_cells : list PlacementCellRequirement;
}.

Record RepairPlacementPlan := {
  repaired_target_id : TargetId;
  repaired_target_generation : N;
  repaired_fully_protected : bool;
  repaired_proofs : list ProtectionProof;
  repaired_topology_revision : N;
  repaired_capacity_revision : N;
}.

Record RebalancePlacementRequest := {
  rebalance_context : RequestContext;
  rebalance_coding_layout : CodingLayout;
  rebalance_current_targets : list TargetId;
  rebalance_scenarios : list FailureScenario;
  rebalance_required_scenarios : list FailureScenario;
  rebalance_topology : Topology;
  rebalance_topology_revision : N;
  rebalance_capacity_revision : N;
  rebalance_candidates : list PlacementCandidate;
  rebalance_cells : list PlacementCellRequirement;
}.

Record RebalancePlacementPlan := {
  moved_shard_index : N;
  moved_target_id : TargetId;
  moved_target_generation : N;
  current_fully_protected : bool;
  resulting_fully_protected : bool;
  moved_proofs : list ProtectionProof;
  moved_topology_revision : N;
  moved_capacity_revision : N;
}.

Record PlacementAssessmentRequest := {
  assess_coding_layout : CodingLayout;
  recorded_targets : list TargetId;
  assess_scenarios : list FailureScenario;
  assess_topology : Topology;
  assess_candidates : list PlacementCandidate;
  assess_cells : list PlacementCellRequirement;
}.

Record PlacementAssessment := {
  sufficient_receipts : bool;
  protection_satisfied : bool;
  locality_satisfied : bool;
}.

(** ** Lifecycle *)

Record FaultAwarePlacement := {
  lifecycle : LifecycleState;
  prepared_revision : option N;
  active_revision : N;
}.

Definition default_placement : FaultAwarePlacement :=
  {| lifecycle := Active; prepared_revision := None; active_revision := 0 |}.

Definition require_active (self : FaultAwarePlacement) : result ContractError unit :=
  if bool_decide (lifecycle self = Active) then Ok tt else Err Unavailable.

Definition placement_validate_configuration (_ : FaultAwarePlacement) (c : ComponentConfiguration) : result ContractError unit :=
  if (schema_version c =? 1) && negb (desired_revision c =? 0) && bool_decide (canonical_bytes c = []) then Ok tt
  else Err InvalidInput.

Abbreviation PlacementSE := (SE FaultAwarePlacement ContractError).

Definition placement_prepare (c : ComponentConfiguration) : PlacementSE ComponentTransition :=
  self ← get_state;
  _ ← lift (placement_validate_configuration self c);
  if desired_revision c =? active_revision self then mret NowActive
  else if bool_decide (lifecycle self = Retired) then raise Stale
  else
    _ ← modify_state (fun s => {| lifecycle := lifecycle s; prepared_revision := Some (desired_revision c);
                                  active_revision := active_revision s |});
    mret Ready.

Definition placement_activate (revision : N) : PlacementSE ComponentTransition :=
  self ← get_state;
  if (revision =? active_revision self) && bool_decide (lifecycle self = Active) then mret NowActive
  else if negb (bool_decide (prepared_revision self = Some revision)) || bool_decide (lifecycle self = Retired)
  then raise Stale
  else
    _ ← modify_state (fun _ => {| lifecycle := Active; prepared_revision := None; active_revision := revision |});
    mret NowActive.

Definition placement_drain (_ : Z) : PlacementSE ComponentTransition :=
  self ← get_state;
  if bool_decide (lifecycle self = Retired) then raise Stale
  else
    _ ← modify_state (fun s => {| lifecycle := Draining; prepared_revision := prepared_revision s;
                                  active_revision := active_revision s |});
    mret Ready.

Definition placement_retire (revision : N) : PlacementSE ComponentTransition :=
  self ← get_state;
  if negb (revision =? active_revision self) || negb (bool_decide (lifecycle self = Draining)) then raise Stale
  else
    _ ← modify_state (fun s => {| lifecycle := Retired; prepared_revision := prepared_revision s;
                                  active_revision := active_revision s |});
    mret NowActive.

Definition placement_observe (self : FaultAwarePlacement) (at_ : Z) : ComponentObservation :=
  {| observed_revision := default (active_revision self) (prepared_revision self);
     observed_lifecycle := lifecycle self; observed_at := at_ |}.

#[export] Instance placement_lifecycle : ComponentLifecycle FaultAwarePlacement := {
  validate_configuration := placement_validate_configuration;
  prepare := placement_prepare;
  activate := placement_activate;
  drain := placement_drain;
  retire := placement_retire;
  observe := placement_observe;
}.

(** ** Validation *)

(** [any(|x| .. || !seen.insert(key(x)))] over a fresh set. *)
Fixpoint any_bad_or_repeated {A} (bad : A -> bool) (key : A -> N) (seen : gset N) (l : list A) : bool :=
  match l with
  | [] => false
  | x :: rest => bad x || bool_decide (key x ∈ seen) || any_bad_or_repeated bad key ({[key x]} ∪ seen) rest
  end.

Definition bad_cell (cell : PlacementCellRequirement) : bool :=
  bool_decide (minimum_durable_targets cell = Some 0)
  || bool_decide (minimum_distinct_nodes cell = Some 0)
  || match minimum_distinct_nodes cell, minimum_durable_targets cell with
     | Some nodes, Some targets => targets <? nodes
     | _, _ => false
     end
  || (bool_decide (role cell = Excluded) &&
      (complete_local cell || bool_decide (is_Some (minimum_durable_targets cell))
       || bool_decide (is_Some (minimum_distinct_nodes cell)) || negb (bool_decide (local_scenarios cell = [])))).

Definition validate_cells (cells : list PlacementCellRequirement) : result ContractError unit :=
  if any_bad_or_repeated bad_cell cell_id ∅ cells then Err InvalidInput else Ok tt.

Definition bad_context (c : RequestContext) : bool :=
  negb (bool_decide (contract_version c = V1_0)) || (deadline c =? 0)%Z.

Definition bad_candidate (c : PlacementCandidate) : bool :=
  (target_generation c =? 0) || (writable_bytes c =? 0) || (performance_weight c =? 0).

Definition validate_repair_request (r : RepairPlacementRequest) : result ContractError unit :=
  let total := total_slices (repair_coding_layout r) in
  if bad_context (repair_context r)
     || (repair_topology_revision r =? 0) || (repair_capacity_revision r =? 0)
     || bool_decide (repair_scenarios r = []) || (MAXIMUM_SCENARIOS <? len (repair_scenarios r))
     || (len (repair_scenarios r) <? len (repair_required_scenarios r))
     || (MAXIMUM_CELLS <? len (repair_cells r))
     || bool_decide (repair_candidates r = []) || (MAXIMUM_CANDIDATES <? len (repair_candidates r))
     || negb (len (repair_current_targets r) =? total)
     || (total <=? repair_source_shard_index r)
     || any_bad_or_repeated (fun _ => false) (fun t => t) ∅ (repair_current_targets r)
     || any_bad_or_repeated bad_candidate target_id ∅ (repair_candidates r)
     || existsb (fun required => negb (bool_decide (required ∈ repair_scenarios r))) (repair_required_scenarios r)
  then Err InvalidInput
  else validate_cells (repair_cells r).

Definition validate_rebalance_request (r : RebalancePlacementRequest) : result ContractError unit :=
  let total := total_slices (rebalance_coding_layout r) in
  if bad_context (rebalance_context r)
     || (rebalance_topology_revision r =? 0) || (rebalance_capacity_revision r =? 0)
     || bool_decide (rebalance_scenarios r = []) || (MAXIMUM_SCENARIOS <? len (rebalance_scenarios r))
     || (len (rebalance_scenarios r) <? len (rebalance_required_scenarios r))
     || (MAXIMUM_CELLS <? len (rebalance_cells r))
     || bool_decide (rebalance_candidates r = []) || (MAXIMUM_CANDIDATES <? len (rebalance_candidates r))
     || negb (len (rebalance_current_targets r) =? total)
     || any_bad_or_repeated (fun _ => false) (fun t => t) ∅ (rebalance_current_targets r)
     || any_bad_or_repeated bad_candidate target_id ∅ (rebalance_candidates r)
     || existsb (fun required => negb (bool_decide (required ∈ rebalance_scenarios r))) (rebalance_required_scenarios r)
  then Err InvalidInput
  else validate_cells (rebalance_cells r).

Definition validate_request (r : PlacementRequest) : result ContractError unit :=
  if bad_context (write_context r)
     || (logical_stripe_bytes r =? 0)
     || bool_decide (write_scenarios r = []) || (MAXIMUM_SCENARIOS <? len (write_scenarios r))
     || (MAXIMUM_SCENARIOS <? len (write_required_scenarios r))
     || existsb (fun required => negb (bool_decide (required ∈ write_scenarios r))) (write_required_scenarios r)
     || bool_decide (write_candidates r = []) || (MAXIMUM_CANDIDATES <? len (write_candidates r))
     || (MAXIMUM_CELLS <? len (write_cells r))
     || (write_minimum_durable_targets r =? 0) || (write_minimum_distinct_nodes r =? 0)
     || (write_minimum_durable_targets r <? write_minimum_distinct_nodes r)
     || (write_topology_revision r =? 0) || (write_capacity_revision r =? 0)
  then Err InvalidInput
  else if any_bad_or_repeated (fun c => bad_candidate c || (MAXIMUM_CELLS <? len (availability_cells c))
            || negb (bool_decide (target_host (write_topology r) (target_id c) = Some (host_id c))))
            target_id ∅ (write_candidates r)
  then Err InvalidInput
  else if any_bad_or_repeated bad_cell cell_id ∅ (write_cells r) then Err InvalidInput
  else Ok tt.
Definition candidate_is_excluded (c : PlacementCandidate) (cells : list PlacementCellRequirement) : bool :=
  existsb (fun requirement =>
    bool_decide (role requirement = Excluded) && bool_decide (cell_id requirement ∈ availability_cells c)) cells.

(** The sort key [(Reverse(performance_weight), Reverse(writable_bytes), target_id)]. *)
Definition candidate_le (a b : PlacementCandidate) : Prop :=
  performance_weight b < performance_weight a \/
  (performance_weight a = performance_weight b /\
   (writable_bytes b < writable_bytes a \/
    (writable_bytes a = writable_bytes b /\ target_id a <= target_id b))).

#[export] Instance candidate_le_dec : RelDecision candidate_le.
Proof. intros a b. unfold candidate_le. apply _. Defined.

Definition sort_candidates (l : list PlacementCandidate) : list PlacementCandidate := merge_sort candidate_le l.

(** ** Geometry *)

(** [u32::div_ceil]. *)
Definition div_ceil (a b : N) : N := a / b + (if a mod b =? 0 then 0 else 1).

Definition preferred_data_slices (logical_bytes : N) : N :=
  if 1048576 <=? logical_bytes then DEFAULT_DATA_SLICES else if 262144 <=? logical_bytes then 2 else 1.

Definition slice_bytes (logical_bytes data : N) : result ContractError N :=
  let unrounded := div_ceil logical_bytes data in
  ok_or (bytes ← checked_add u32_max unrounded (unrounded mod 2); if bytes =? 0 then None else Some bytes) InvalidInput.

(** ** Proofs *)

Definition best_effort_proof (t : Topology) (scenario : FailureScenario) (l : ProtectionLayout)
    : result ContractError ProtectionProof :=
  match prove_protection t scenario l MAXIMUM_PROOF_LOSS_SETS with
  | Ok proof => Ok proof
  | Err InsufficientTopology => Ok {| survives := false; evaluated_loss_sets := 0; minimum_remaining_slices := 0 |}
  | Err _ => Err InvalidInput
  end.

Definition prove_all (t : Topology) (scenarios : list FailureScenario) (data : N) (targets : list TargetId)
    : result ContractError (option (list ProtectionProof)) :=
  l ← map_err (fun _ => InvalidInput) (new_layout data targets);
  proofs ← try_map (fun scenario => best_effort_proof t scenario l) scenarios;
  Ok (if forallb survives proofs then Some proofs else None).

Definition cell_satisfied (t : Topology) (candidates : list PlacementCandidate) (selected : list TargetId) (data : N)
    (requirement : PlacementCellRequirement) : result ContractError bool :=
  let local := List.filter (fun c => bool_decide (target_id c ∈ selected) &&
                                     bool_decide (cell_id requirement ∈ availability_cells c)) candidates in
  let minimum_targets := default (if complete_local requirement then data else 0) (minimum_durable_targets requirement) in
  if len local <? minimum_targets then Ok false
  else
    let distinct_hosts := N.of_nat (size (list_to_set (map host_id local) : gset HostId)) in
    if distinct_hosts <? default 1 (minimum_distinct_nodes requirement) then Ok false
    else if complete_local requirement || negb (bool_decide (local_scenarios requirement = [])) then
      let local_targets := map target_id local in
      if len local_targets <? data then Ok false
      else
        l ← map_err (fun _ => InvalidInput) (new_layout data local_targets);
        try_forallb (fun scenario => proof ← best_effort_proof t scenario l; Ok (survives proof)) (local_scenarios requirement)
    else Ok true.

Definition cell_constraints_satisfied (t : Topology) (candidates : list PlacementCandidate) (selected : list TargetId)
    (cells : list PlacementCellRequirement) (enforce_eventual : bool) (data : N) : result ContractError bool :=
  try_forallb (cell_satisfied t candidates selected data)
    (List.filter (fun requirement => bool_decide (role requirement = RequiredBeforeCommit)
       || (enforce_eventual && bool_decide (role requirement = Eventual))) cells).

(** ** Selection *)

Record CandidateSelection := { selection_targets : list TargetId; selection_proofs : list ProtectionProof }.

Record SelectionConstraints := {
  sc_topology : Topology;
  sc_scenarios : list FailureScenario;
  sc_cells : list PlacementCellRequirement;
  sc_enforce_eventual : bool;
  sc_data_slices : N;
  sc_candidates : list PlacementCandidate;
}.

(** The test at the leaf of the search, shared with the pruning loop. *)
Definition accept_selection (k : SelectionConstraints) (targets : list TargetId)
    : result ContractError (option (list ProtectionProof)) :=
  proofs ← prove_all (sc_topology k) (sc_scenarios k) (sc_data_slices k) targets;
  match proofs with
  | Some proofs =>
      cell_constraints_satisfied (sc_topology k) (sc_candidates k) targets (sc_cells k) (sc_enforce_eventual k)
        (sc_data_slices k) ≫= fun satisfied : bool => Ok (if satisfied then Some proofs else None)
  | None => Ok None
  end.

Fixpoint choose_exact (k : SelectionConstraints) (remaining start : nat) (selected : list TargetId)
    : result ContractError (option CandidateSelection) :=
  match remaining with
  | O =>
      accepted ← accept_selection k selected;
      Ok (option_map (fun proofs => {| selection_targets := selected; selection_proofs := proofs |}) accepted)
  | S remaining' =>
      last_start ← ok_or (checked_sub (len (sc_candidates k)) (N.of_nat remaining)) InternalContract;
      try_find_map (fun index =>
          match sc_candidates k !! index with
          | Some c => choose_exact k remaining' (index + 1) (selected ++ [target_id c])
          | None => Ok None
          end) (seq start (N.to_nat last_start + 1 - start))
  end.

Definition exact_selection (k : SelectionConstraints) : result ContractError (option CandidateSelection) :=
  try_find_map (fun count => choose_exact k (N.to_nat count) 0 [])
    (range (sc_data_slices k) (N.min (len (sc_candidates k)) MAXIMUM_SLICES + 1)).

(** The loop of [pruned_selection], [index] counting down. *)
Fixpoint prune (k : SelectionConstraints) (index : nat) (targets : list TargetId) (proofs : list ProtectionProof)
    : result ContractError CandidateSelection :=
  match index with
  | O => Ok {| selection_targets := targets; selection_proofs := proofs |}
  | S index' =>
      if sc_data_slices k <? len targets then
        let smaller := delete index' targets in
        accepted ← accept_selection k smaller;
        match accepted with
        | Some fewer => prune k index' smaller fewer
        | None => prune k index' targets proofs
        end
      else Ok {| selection_targets := targets; selection_proofs := proofs |}
  end.

Definition pruned_selection (k : SelectionConstraints) : result ContractError (option CandidateSelection) :=
  let targets := map target_id (firstn (N.to_nat MAXIMUM_SLICES) (sc_candidates k)) in
  accepted ← accept_selection k targets;
  match accepted with
  | None => Ok None
  | Some proofs => s ← prune k (length targets) targets proofs; Ok (Some s)
  end.

Record GeometrySelection := {
  geometry_layout : CodingLayout;
  geometry_targets : list TargetId;
  geometry_proofs : list ProtectionProof;
}.

Definition plan_geometry (k : SelectionConstraints) (bytes : N) : result ContractError (option GeometrySelection) :=
  if len (sc_candidates k) <? sc_data_slices k then Ok None
  else
    selection ← (if len (sc_candidates k) <=? EXACT_SEARCH_CANDIDATES then exact_selection k else pruned_selection k);
    match selection with
    | None => Ok None
    | Some s =>
        count ← ok_or (try_narrow u16_max (len (selection_targets s))) InternalContract;
        recovery ← ok_or (checked_sub count (sc_data_slices k)) InternalContract;
        l ← map_err (fun _ => InternalContract) (new_coding_layout (sc_data_slices k) recovery bytes);
        Ok (Some {| geometry_layout := l; geometry_targets := selection_targets s; geometry_proofs := selection_proofs s |})
    end.

(** ** Acknowledgement *)

Definition acknowledgement_predicates_satisfied (r : PlacementRequest) (required : gset TargetId) (data : N)
    (include_strong_predicates : bool) : result ContractError bool :=
  let minimum_targets := N.max (write_minimum_durable_targets r) data in
  let required_hosts : gset HostId :=
    list_to_set (omap (fun target =>
      option_map host_id (List.find (fun c => target_id c =? target) (write_candidates r))) (ascending required)) in
  if (N.of_nat (size required) <? minimum_targets)
     || (N.of_nat (size required_hosts) <? write_minimum_distinct_nodes r)
  then Ok false
  else if negb include_strong_predicates || bool_decide (write_required_scenarios r = []) then Ok true
  else
    l ← map_err (fun _ => InvalidInput) (new_layout data (ascending required));
    try_forallb (fun scenario => proof ← best_effort_proof (write_topology r) scenario l; Ok (survives proof))
      (write_required_scenarios r).

(** Targets of the cells that gate acknowledgement. *)
Definition cell_gates (r : PlacementRequest) (targets : list TargetId) : gset TargetId :=
  list_to_set (List.filter (fun target =>
    existsb (fun requirement =>
      bool_decide (role requirement = RequiredBeforeCommit) &&
      existsb (fun c => (target_id c =? target) && bool_decide (cell_id requirement ∈ availability_cells c)) (write_candidates r))
    (write_cells r)) targets).

(** [for target in targets { if satisfied { break } required.insert(target) }]. *)
Fixpoint grow_required (r : PlacementRequest) (data : N) (strong : bool) (required : gset TargetId) (targets : list TargetId)
    : result ContractError (gset TargetId) :=
  match targets with
  | [] => Ok required
  | target :: rest =>
      acknowledgement_predicates_satisfied r required data strong ≫= fun satisfied : bool =>
      if satisfied then Ok required else grow_required r data strong ({[target]} ∪ required) rest
  end.

Definition acknowledgement_roles (r : PlacementRequest) (targets : list TargetId) (data : N) (strong : bool)
    : result ContractError (list ShardAcknowledgement) :=
  let gates := if strong then cell_gates r targets else ∅ in
  required ← grow_required r data strong gates targets;
  acknowledgement_predicates_satisfied r required data strong ≫= fun satisfied : bool =>
  if negb satisfied then Err ResourceExhausted
  else Ok (map (fun target => if bool_decide (target ∈ required) then AckRequired else AckEventual) targets).

(** ** Evidence *)

Section evidence.
Context `{Blake3}.

Definition hash_scenario (scenario : FailureScenario) : bytes :=
  be_bytes 8 (u64_of_len (len scenario)) ++
  concat (map (fun t => Identifier.as_bytes (term_class t) ++ be_bytes 2 (failure_count t)) scenario).

Definition hash_optional_u16 (value : option N) : bytes :=
  match value with Some v => [1] ++ be_bytes 2 v | None => [0] end.

Definition cell_role_code (x : PlacementCellRole) : N :=
  match x with RequiredBeforeCommit => 1 | Eventual => 2 | Excluded => 3 end.
Definition acknowledgement_code (x : ShardAcknowledgement) : N := match x with AckRequired => 1 | AckEventual => 0 end.
Definition bool_code (b : bool) : N := if b then 1 else 0.

Definition cell_le (a b : PlacementCellRequirement) : Prop := cell_id a <= cell_id b.
#[export] Instance cell_le_dec : RelDecision cell_le.
Proof. intros a b. unfold cell_le. apply _. Defined.

Definition hash_cell (cell : PlacementCellRequirement) : bytes :=
  Identifier.as_bytes (cell_id cell) ++ [cell_role_code (role cell)] ++ [bool_code (complete_local cell)] ++
  hash_optional_u16 (minimum_durable_targets cell) ++ hash_optional_u16 (minimum_distinct_nodes cell) ++
  concat (map hash_scenario (local_scenarios cell)).

Definition hash_proof (proof : ProtectionProof) : result ContractError bytes :=
  sets ← ok_or (try_narrow u64_max (evaluated_loss_sets proof)) InternalContract;
  remaining ← ok_or (try_narrow u64_max (minimum_remaining_slices proof)) InternalContract;
  Ok ([bool_code (survives proof)] ++ be_bytes 8 sets ++ be_bytes 8 remaining).

Definition policy_evidence (r : PlacementRequest) (l : CodingLayout) (targets : list TargetId)
    (roles fallback : list ShardAcknowledgement) (proofs : list ProtectionProof) : result ContractError bytes :=
  proof_bytes ← try_map hash_proof proofs;
  Ok (blake3 (
    ascii_bytes "meshspan.placement-policy-evidence.v1" ++ [0] ++
    be_bytes 8 (write_topology_revision r) ++ be_bytes 8 (write_capacity_revision r) ++
    be_bytes 2 (data_slices l) ++ be_bytes 2 (recovery_slices l) ++ be_bytes 4 (layout_slice_bytes l) ++
    be_bytes 2 (write_minimum_durable_targets r) ++ be_bytes 2 (write_minimum_distinct_nodes r) ++
    concat (map hash_scenario (write_required_scenarios r)) ++
    concat (map hash_cell (merge_sort cell_le (write_cells r))) ++
    concat (zip_with (fun '(target, acknowledgement) fallback =>
        Identifier.as_bytes target ++ [acknowledgement_code acknowledgement] ++ [acknowledgement_code fallback])
      (zip targets roles) fallback) ++
    concat proof_bytes)).

(** ** Writing a stripe *)

Definition build_plan (r : PlacementRequest) (l : CodingLayout) (targets : list TargetId) (proofs : list ProtectionProof)
    : result ContractError PlacementPlan :=
  protection ← map_err (fun _ => InternalContract) (new_layout (data_slices l) targets);
  try_forallb (fun required => proof ← best_effort_proof (write_topology r) required protection; Ok (survives proof))
    (write_required_scenarios r) ≫= fun survive : bool =>
  if negb survive then Err ResourceExhausted
  else
    configured ← acknowledgement_roles r targets (data_slices l) true;
    fallback ← acknowledgement_roles r targets (data_slices l) false;
    evidence ← policy_evidence r l targets configured fallback proofs;
    bounded_targets ← map_err (fun _ => InternalContract) (new_items targets MAXIMUM_SLICES);
    bounded_roles ← map_err (fun _ => InternalContract) (new_items configured MAXIMUM_SLICES);
    bounded_fallback ← map_err (fun _ => InternalContract) (new_items fallback MAXIMUM_SLICES);
    bounded_proofs ← map_err (fun _ => InternalContract) (new_items proofs MAXIMUM_SCENARIOS);
    evidence_bytes ← map_err (fun _ => InternalContract) (copy_from evidence 32);
    Ok {| coding_layout := l; plan_slice_targets := bounded_targets; acknowledgement_roles_of := bounded_roles;
          eventual_fallback_roles := bounded_fallback; plan_topology_revision := write_topology_revision r;
          plan_capacity_revision := write_capacity_revision r; protection_proofs := bounded_proofs;
          policy_evidence_of := {| format_version := 1; payload_bytes := evidence_bytes |} |}.

Definition build_best_effort_plan (r : PlacementRequest) (candidates : list PlacementCandidate)
    : result ContractError PlacementPlan :=
  bytes ← slice_bytes (logical_stripe_bytes r) 1;
  let targets := map target_id (firstn (N.to_nat MAXIMUM_SLICES)
                   (List.filter (fun c => bytes <=? writable_bytes c) candidates)) in
  if bool_decide (targets = []) then Err ResourceExhausted
  else
    cell_constraints_satisfied (write_topology r) candidates targets (write_cells r) false 1 ≫= fun satisfied : bool =>
    if negb satisfied then Err ResourceExhausted
    else
      recovery ← ok_or (try_narrow u16_max (saturating_sub (len targets) 1)) InternalContract;
      l ← map_err (fun _ => InternalContract) (new_coding_layout 1 recovery bytes);
      protection ← map_err (fun _ => InternalContract) (new_layout 1 targets);
      proofs ← try_map (fun scenario => best_effort_proof (write_topology r) scenario protection) (write_scenarios r);
      build_plan r l targets proofs.

Definition plan_write (self : FaultAwarePlacement) (r : PlacementRequest) : result ContractError PlacementPlan :=
  _ ← require_active self;
  _ ← validate_request r;
  let candidates :=
    sort_candidates (List.filter (fun c => negb (candidate_is_excluded c (write_cells r))) (write_candidates r)) in
  attempt ← try_find_map (fun enforce_eventual =>
      try_find_map (fun data =>
          bytes ← slice_bytes (logical_stripe_bytes r) data;
          plan_geometry
            {| sc_topology := write_topology r; sc_scenarios := write_scenarios r; sc_cells := write_cells r;
               sc_enforce_eventual := enforce_eventual; sc_data_slices := data;
               sc_candidates := List.filter (fun c => bytes <=? writable_bytes c) candidates |} bytes)
        (rev (range 1 (preferred_data_slices (logical_stripe_bytes r) + 1))))
    [true; false];
  match attempt with
  | Some g => build_plan r (geometry_layout g) (geometry_targets g) (geometry_proofs g)
  | None => build_best_effort_plan r candidates
  end.

End evidence.

(** ** Scoring an existing layout *)

Record LayoutQuality := {
  fully_protected : bool;
  required_policy_satisfied : bool;
  surviving_scenarios : N;
  all_cells_satisfied : bool;
  quality_minimum_remaining : N;
}.

(** The derived [Ord] compares the fields in order, [false < true]. *)
Definition quality_key (q : LayoutQuality) : list N :=
  [bool_code (fully_protected q); bool_code (required_policy_satisfied q); surviving_scenarios q;
   bool_code (all_cells_satisfied q); quality_minimum_remaining q].
Definition quality_le (a b : LayoutQuality) : Prop := bytes_le (quality_key a) (quality_key b).
#[export] Instance quality_le_dec : RelDecision quality_le.
Proof. intros a b. unfold quality_le. apply _. Defined.

Record LayoutEvaluation := { evaluation_proofs : list ProtectionProof; quality : LayoutQuality }.

Record LayoutEvaluationContext := {
  ec_topology : Topology;
  ec_scenarios : list FailureScenario;
  ec_required_scenarios : list FailureScenario;
  ec_candidates : list PlacementCandidate;
  ec_cells : list PlacementCellRequirement;
  ec_data_slices : N;
}.

Definition evaluate_layout (k : LayoutEvaluationContext) (targets : list TargetId) : result ContractError LayoutEvaluation :=
  l ← map_err (fun _ => InvalidInput) (new_layout (ec_data_slices k) targets);
  proofs ← try_map (fun scenario => best_effort_proof (ec_topology k) scenario l) (ec_scenarios k);
  let required_scenarios_satisfied := forallb (fun required =>
      match list_find (fun scenario => scenario = required) (ec_scenarios k) with
      | Some (index, _) => match proofs !! index with Some proof => survives proof | None => false end
      | None => false
      end) (ec_required_scenarios k) in
  required_cells ← cell_constraints_satisfied (ec_topology k) (ec_candidates k) targets (ec_cells k) false (ec_data_slices k);
  all_cells ← cell_constraints_satisfied (ec_topology k) (ec_candidates k) targets (ec_cells k) true (ec_data_slices k);
  let surviving := len (List.filter survives proofs) in
  let least := default 0 (minimum (map minimum_remaining_slices proofs)) in
  let all_scenarios := surviving =? len proofs in
  Ok {| evaluation_proofs := proofs;
        quality := {| fully_protected := all_scenarios && all_cells;
                      required_policy_satisfied := required_scenarios_satisfied && required_cells;
                      surviving_scenarios := surviving; all_cells_satisfied := all_cells;
                      quality_minimum_remaining := least |} |}.

(** ** Repair *)

Record RepairCandidateEvaluation := {
  repair_target : PlacementCandidate;
  repair_proofs : list ProtectionProof;
  score : LayoutQuality;
}.

Definition evaluate_repair_candidate (r : RepairPlacementRequest) (c : PlacementCandidate)
    : result ContractError RepairCandidateEvaluation :=
  let targets := <[N.to_nat (repair_source_shard_index r) := target_id c]> (repair_current_targets r) in
  e ← evaluate_layout
        {| ec_topology := repair_topology r; ec_scenarios := repair_scenarios r;
           ec_required_scenarios := repair_required_scenarios r; ec_candidates := repair_candidates r;
           ec_cells := repair_cells r; ec_data_slices := data_slices (repair_coding_layout r) |} targets;
  Ok {| repair_target := c; repair_proofs := evaluation_proofs e; score := quality e |}.

Definition eligible_replacement (current : list TargetId) (cells : list PlacementCellRequirement) (bytes : N)
    (c : PlacementCandidate) : bool :=
  negb (bool_decide (target_id c ∈ current)) && negb (candidate_is_excluded c cells) && (bytes <=? writable_bytes c).

Definition plan_repair (self : FaultAwarePlacement) (r : RepairPlacementRequest) : result ContractError RepairPlacementPlan :=
  _ ← require_active self;
  _ ← validate_repair_request r;
  let candidates := sort_candidates (List.filter
    (eligible_replacement (repair_current_targets r) (repair_cells r) (layout_slice_bytes (repair_coding_layout r)))
    (repair_candidates r)) in
  selected ← try_fold (fun (selected : option RepairCandidateEvaluation) c =>
      e ← evaluate_repair_candidate r c;
      Ok (match selected with
          | None => Some e
          | Some current => if bool_decide (quality_le (score e) (score current)) then Some current else Some e
          end)) None candidates;
  s ← ok_or selected ResourceExhausted;
  proofs ← map_err (fun _ => InternalContract) (new_items (repair_proofs s) MAXIMUM_SCENARIOS);
  Ok {| repaired_target_id := target_id (repair_target s);
        repaired_target_generation := target_generation (repair_target s);
        repaired_fully_protected := fully_protected (score s); repaired_proofs := proofs;
        repaired_topology_revision := repair_topology_revision r;
        repaired_capacity_revision := repair_capacity_revision r |}.

(** ** Rebalance *)

Definition layout_evaluation_context (r : RebalancePlacementRequest) : LayoutEvaluationContext :=
  {| ec_topology := rebalance_topology r; ec_scenarios := rebalance_scenarios r;
     ec_required_scenarios := rebalance_required_scenarios r; ec_candidates := rebalance_candidates r;
     ec_cells := rebalance_cells r; ec_data_slices := data_slices (rebalance_coding_layout r) |}.

Definition eligible_rebalance_candidates (r : RebalancePlacementRequest) : list PlacementCandidate :=
  sort_candidates (List.filter
    (eligible_replacement (rebalance_current_targets r) (rebalance_cells r) (layout_slice_bytes (rebalance_coding_layout r)))
    (rebalance_candidates r)).

Record RebalanceCandidateEvaluation := {
  move_index : N;
  move_target : PlacementCandidate;
  resulting : LayoutEvaluation;
}.

Definition consider_move (r : RebalancePlacementRequest) (current : LayoutEvaluation)
    (selected : option RebalanceCandidateEvaluation) (move : nat * PlacementCandidate)
    : result ContractError (option RebalanceCandidateEvaluation) :=
  let '(index, c) := move in
  after ← evaluate_layout (layout_evaluation_context r) (<[index := target_id c]> (rebalance_current_targets r));
  if bool_decide (quality_le (quality after) (quality current)) then Ok selected
  else
    index_u16 ← ok_or (try_narrow u16_max (N.of_nat index)) InternalContract;
    let candidate := {| move_index := index_u16; move_target := c; resulting := after |} in
    Ok (match selected with
        | None => Some candidate
        | Some best => if bool_decide (quality_le (quality after) (quality (resulting best))) then Some best else Some candidate
        end).

Definition plan_rebalance (self : FaultAwarePlacement) (r : RebalancePlacementRequest)
    : result ContractError (option RebalancePlacementPlan) :=
  _ ← require_active self;
  _ ← validate_rebalance_request r;
  current ← evaluate_layout (layout_evaluation_context r) (rebalance_current_targets r);
  let candidates := eligible_rebalance_candidates r in
  let moves := index ← seq 0 (length (rebalance_current_targets r)); c ← candidates; [(index, c)] in
  selected ← try_fold (consider_move r current) None moves;
  match selected with
  | None => Ok None
  | Some s =>
      proofs ← map_err (fun _ => InternalContract) (new_items (evaluation_proofs (resulting s)) MAXIMUM_SCENARIOS);
      Ok (Some {| moved_shard_index := move_index s; moved_target_id := target_id (move_target s);
                  moved_target_generation := target_generation (move_target s);
                  current_fully_protected := fully_protected (quality current);
                  resulting_fully_protected := fully_protected (quality (resulting s)); moved_proofs := proofs;
                  moved_topology_revision := rebalance_topology_revision r;
                  moved_capacity_revision := rebalance_capacity_revision r |})
  end.

Definition evaluate (self : FaultAwarePlacement) (scenario : FailureScenario) (l : ProtectionLayout) (t : Topology)
    : result ContractError ProtectionProof :=
  _ ← require_active self;
  map_err (fun _ => InvalidInput) (prove_protection t scenario l MAXIMUM_PROOF_LOSS_SETS).

(** ** Assessment of recorded slices *)

Definition validate_assessment (r : PlacementAssessmentRequest) : result ContractError unit :=
  if (total_slices (assess_coding_layout r) <? len (recorded_targets r))
     || (MAXIMUM_SCENARIOS <? len (assess_scenarios r)) || (MAXIMUM_CANDIDATES <? len (assess_candidates r))
     || (MAXIMUM_CELLS <? len (assess_cells r))
     || existsb (fun cell => MAXIMUM_SCENARIOS <? len (local_scenarios cell)) (assess_cells r)
  then Err InvalidInput
  else
    _ ← validate_cells (assess_cells r);
    if any_bad_or_repeated (fun c => (target_generation c =? 0) || (MAXIMUM_CELLS <? len (availability_cells c))
         || negb (bool_decide (target_host (assess_topology r) (target_id c) = Some (host_id c))))
         target_id ∅ (assess_candidates r)
    then Err InvalidInput
    else if any_bad_or_repeated (fun target => negb (bool_decide (target ∈ map target_id (assess_candidates r))))
         (fun t => t) ∅ (recorded_targets r)
    then Err InvalidInput
    else Ok tt.

Definition assess (r : PlacementAssessmentRequest) : result ContractError PlacementAssessment :=
  _ ← validate_assessment r;
  let data := data_slices (assess_coding_layout r) in
  let sufficient := data <=? len (recorded_targets r) in
  protection ←
    (if sufficient then
       l ← map_err (fun _ => InvalidInput) (new_layout data (recorded_targets r));
       try_fold (fun acc scenario => proof ← best_effort_proof (assess_topology r) scenario l; Ok (acc && survives proof))
         sufficient (assess_scenarios r)
     else Ok sufficient);
  let excluded := existsb (fun cell =>
      bool_decide (role cell = Excluded) &&
      existsb (fun c => bool_decide (target_id c ∈ recorded_targets r) && bool_decide (cell_id cell ∈ availability_cells c))
        (assess_candidates r)) (assess_cells r) in
  locality ←
    (if excluded then Ok false
     else cell_constraints_satisfied (assess_topology r) (assess_candidates r) (recorded_targets r) (assess_cells r) true data);
  Ok {| sufficient_receipts := sufficient; protection_satisfied := protection; locality_satisfied := locality |}.

Definition assess_recorded (self : FaultAwarePlacement) (r : PlacementAssessmentRequest)
    : result ContractError PlacementAssessment :=
  _ ← require_active self; assess r.

End Placement.
