(* ===== verification/PlacementFacts.v ===== *)
(** What the placement planners guarantee: plans never overclaim protection, the exact
    search finds a smallest acceptable selection, and repair and rebalance pick a best move. *)

From S2P Require Import Prelude Topology Contracts Placement.
From stdpp Require Import prelude gmap list sorting.
#[local] Open Scope N_scope.

Import Placement.

(** ** Loops *)

Lemma try_find_map_app {E A B} (f : A -> result E (option B)) l k :
  try_find_map f (l ++ k) = (r ← try_find_map f l; match r with Some y => Ok (Some y) | None => try_find_map f k end).
Proof.
  induction l as [|x l IH]; cbn; [by destruct (try_find_map f k) as [[?|]|]|].
  destruct (f x) as [[y|]|e]; cbn; [done|exact IH|done].
Qed.

Lemma try_find_map_map {E A B C} (f : B -> result E (option C)) (g : A -> B) l :
  try_find_map f (map g l) = try_find_map (fun x => f (g x)) l.
Proof. induction l as [|x l IH]; [done|]. cbn. by rewrite IH. Qed.

Lemma try_find_map_ext {E A B} (f g : A -> result E (option B)) l :
  (forall x, f x = g x) -> try_find_map f l = try_find_map g l.
Proof. intros Hfg. induction l as [|x l IH]; [done|]. cbn. by rewrite Hfg, IH. Qed.

(** What precedes an element of a range is smaller. *)
Lemma range_prefix lo hi before n after : range lo hi = before ++ n :: after ->
  forall m, m ∈ range lo hi -> m ∈ before \/ n <= m.
Proof.
  intros Hs m Hm.
  assert (forall (i j : nat) x y, range lo hi !! i = Some x -> range lo hi !! j = Some y -> (i <= j)%nat -> x <= y) as Hmono.
  { unfold range. intros i j x y. rewrite !list_lookup_fmap.
    intros (i' & [-> _]%lookup_seq & ->)%fmap_Some (j' & [-> _]%lookup_seq & ->)%fmap_Some. lia. }
  rewrite Hs in *. apply elem_of_app in Hm as [?|Hm]; [by left|right]. apply list_elem_of_lookup in Hm as [j Hj].
  apply (Hmono (length before) (length before + j)%nat); [by rewrite list_lookup_middle| |lia].
  rewrite lookup_app_r by lia. by replace (length before + j - length before)%nat with j by lia.
Qed.

Lemma try_find_map_Some {E A B} (f : A -> result E (option B)) l y :
  try_find_map f l = Ok (Some y) ->
  exists before x after, l = before ++ x :: after /\ f x = Ok (Some y) /\ forall x', x' ∈ before -> f x' = Ok None.
Proof.
  induction l as [|x l IH]; cbn; [done|]. destruct (f x) as [[z|]|e] eqn:Ef; cbn; [|intros Hf|done].
  - intros [= <-]. exists [], x, l. split_and!; [done..|set_solver].
  - destruct (IH Hf) as (before & x' & after & -> & ? & Hb). exists (x :: before), x', after. split_and!; [done..|].
    intros ? [->|?]%elem_of_cons; auto.
Qed.

Lemma try_find_map_None {E A B} (f : A -> result E (option B)) l :
  try_find_map f l = Ok None <-> forall x, x ∈ l -> f x = Ok None.
Proof.
  induction l as [|x l IH]; cbn; [split; [set_solver|done]|].
  destruct (f x) as [[z|]|e] eqn:Ef; cbn.
  - split; [done|]. intros Hall. rewrite (Hall x) in Ef by (by left). done.
  - rewrite IH. split; [intros Hall ? [->|?]%elem_of_cons; auto|]. intros Hall ? ?. apply Hall. by right.
  - split; [done|]. intros Hall. rewrite (Hall x) in Ef by (by left). done.
Qed.

Lemma try_forallb_true {E A} (f : A -> result E bool) l :
  try_forallb f l = Ok true <-> forall x, x ∈ l -> f x = Ok true.
Proof.
  induction l as [|x l IH]; cbn; [split; [set_solver|done]|].
  destruct (f x) as [[]|e] eqn:Ef; cbn.
  - rewrite IH. split; [intros Hall ? [->|?]%elem_of_cons; auto|]. intros Hall ? ?. apply Hall. by right.
  - split; [done|]. intros Hall. rewrite (Hall x) in Ef by (by left). done.
  - split; [done|]. intros Hall. rewrite (Hall x) in Ef by (by left). done.
Qed.

Lemma any_bad_or_repeated_false {A} (bad : A -> bool) (key : A -> N) seen l :
  any_bad_or_repeated bad key seen l = false ->
  (forall x, x ∈ l -> bad x = false) /\ NoDup (map key l) /\ forall x, x ∈ l -> key x ∉ seen.
Proof.
  revert seen. induction l as [|x l IH]; intros seen; cbn [any_bad_or_repeated map].
  { intros _. split_and!; [set_solver|constructor|set_solver]. }
  intros Hb. bool_cases. match goal with HA : any_bad_or_repeated _ _ _ _ = _ |- _ => apply IH in HA as (Hbad & Hnd & Hseen) end.
  split_and!.
  - intros y [->|?]%elem_of_cons; auto.
  - constructor; [|done]. intros (y & Hy & Hin)%list_elem_of_fmap. apply (Hseen y Hin). set_solver.
  - intros y [->|Hy]%elem_of_cons; [done|]. specialize (Hseen y Hy). set_solver.
Qed.

(** ** Sorted candidates *)

#[export] Instance candidate_le_total : Total candidate_le.
Proof. intros a b. unfold candidate_le. lia. Qed.

Lemma sort_candidates_perm l : sort_candidates l ≡ₚ l.
Proof. apply merge_sort_Permutation. Qed.

(** ** Honest proofs *)

(** Scenarios are only built by the checked constructor. *)
Definition scenario_ok (s : FailureScenario) : Prop := new_scenario s = Ok s.

Lemma best_effort_honest t s l p :
  scenario_ok s -> best_effort_proof t s l = Ok p -> survives p = true -> protects t s l.
Proof.
  intros Hs. unfold best_effort_proof. destruct (prove_protection t s l _) as [p'|[]] eqn:Ep; try discriminate;
    intros [= <-] Hsv; [|discriminate Hsv].
  by apply (prove_protection_exact t s s l _ _ Hs Ep).
Qed.

Lemma try_survive_all t l ss :
  Forall scenario_ok ss ->
  try_forallb (fun s => proof ← best_effort_proof t s l; Ok (survives proof)) ss = Ok true ->
  Forall (fun s => protects t s l) ss.
Proof.
  intros Hok Hall. apply Forall_forall. intros s Hin. rewrite Forall_forall in Hok.
  apply (proj1 (try_forallb_true _ _) Hall) in Hin as Hp. apply result_bind_Ok in Hp as (p & Hp & [= Hsv]).
  eapply best_effort_honest; eauto.
Qed.

(** ** Exact search *)

Definition leaf (k : SelectionConstraints) (targets : list TargetId) : result ContractError (option CandidateSelection) :=
  accepted ← accept_selection k targets;
  Ok (option_map (fun proofs => {| selection_targets := targets; selection_proofs := proofs |}) accepted).

Lemma leaf_None k targets : leaf k targets = Ok None <-> accept_selection k targets = Ok None.
Proof. unfold leaf. destruct (accept_selection k targets) as [[?|]|]; naive_solver. Qed.

Lemma leaf_Some k targets s : leaf k targets = Ok (Some s) <->
  selection_targets s = targets /\ accept_selection k targets = Ok (Some (selection_proofs s)).
Proof.
  unfold leaf. destruct (accept_selection k targets) as [[ps|]|]; cbn; destruct s; cbn; naive_solver.
Qed.

(** The recursion visits the sublists of the candidates in order. *)
Lemma choose_exact_spec k remaining start selected :
  (remaining <= length (sc_candidates k))%nat ->
  choose_exact k remaining start selected =
  try_find_map (fun c => leaf k (selected ++ map target_id c)) (k_sublists remaining (drop start (sc_candidates k))).
Proof.
  revert start selected. induction remaining as [|r IH]; intros start selected Hr.
  - cbn [choose_exact]. rewrite k_sublists_0. cbn [try_find_map map]. rewrite app_nil_r. fold (leaf k selected).
    by destruct (leaf k selected) as [[?|]|].
  - cbn [choose_exact]. unfold checked_sub, len. rewrite (proj2 (N.leb_le _ _)) by lia. cbn [ok_or mbind result_bind].
    assert (length (sc_candidates k) - r <= start +
      (N.to_nat (N.of_nat (length (sc_candidates k)) - N.of_nat (S r)) + 1 - start))%nat as Hcover by lia.
    revert Hcover. generalize (N.to_nat (N.of_nat (length (sc_candidates k)) - N.of_nat (S r)) + 1 - start)%nat.
    intros n. revert start. induction n as [|n IHn]; intros start Hcover; cbn [seq try_find_map].
    + by rewrite k_sublists_short by (rewrite length_drop; lia).
    + destruct (sc_candidates k !! start) as [c|] eqn:Ec.
      * rewrite (drop_S _ _ _ Ec). cbn [k_sublists]. rewrite try_find_map_app, try_find_map_map, Nat.add_1_r, IH by lia.
        rewrite (try_find_map_ext _ (fun c' => leaf k (selected ++ map target_id (c :: c'))))
          by (intros c'; by rewrite <- app_assoc).
        destruct (try_find_map _ (k_sublists r _)) as [[y|]|e]; cbn [mbind result_bind]; [done| |done]. apply IHn. lia.
      * cbn [mbind result_bind]. rewrite IHn by lia. apply lookup_ge_None in Ec.
        by rewrite !k_sublists_short by (rewrite length_drop; lia).
Qed.

Lemma exact_selection_Some k s : exact_selection k = Ok (Some s) ->
  exists c, c `sublist_of` sc_candidates k /\ sc_data_slices k <= len c <= MAXIMUM_SLICES /\
    selection_targets s = map target_id c /\ accept_selection k (map target_id c) = Ok (Some (selection_proofs s)) /\
    forall c', c' `sublist_of` sc_candidates k -> sc_data_slices k <= len c' < len c ->
      accept_selection k (map target_id c') = Ok None.
Proof.
  unfold exact_selection. intros Hs. apply try_find_map_Some in Hs as (before & n & after & Hsplit & Hn & Hbefore).
  assert (forall m, m ∈ before ++ n :: after -> sc_data_slices k <= m <= N.min (len (sc_candidates k)) MAXIMUM_SLICES) as Hrange.
  { intros m Hm. rewrite <- Hsplit in Hm. apply elem_of_range in Hm. lia. }
  pose proof (Hrange n ltac:(set_solver)) as Hnr.
  rewrite choose_exact_spec, drop_0 in Hn by (unfold len in Hnr; lia). cbn [app] in Hn.
  apply try_find_map_Some in Hn as (pre & c & suf & Hc & [Ht Ha]%leaf_Some & _).
  assert (c ∈ k_sublists (N.to_nat n) (sc_candidates k)) as [Hsub Hlen]%elem_of_k_sublists by (rewrite Hc; set_solver).
  assert (len c = n) as Hcn by (unfold len; lia). exists c. split_and!; [done|lia|lia|done|done|].
  intros c' Hsub' Hlt. assert (len c' ∈ before) as Hin.
  { assert (len c' ∈ range (sc_data_slices k) (N.min (len (sc_candidates k)) MAXIMUM_SLICES + 1)) as Hc' by (apply elem_of_range; lia).
    pose proof (range_prefix _ _ _ _ _ Hsplit (len c') Hc') as [?|?]; [done|lia]. }
  apply Hbefore in Hin as Hnone. rewrite choose_exact_spec in Hnone by (apply sublist_length in Hsub'; unfold len; lia).
  rewrite drop_0 in Hnone. apply leaf_None. apply (proj1 (try_find_map_None _ _) Hnone).
  apply elem_of_k_sublists. split; [done|unfold len; lia].
Qed.

Lemma exact_selection_None k : exact_selection k = Ok None ->
  forall c, c `sublist_of` sc_candidates k -> sc_data_slices k <= len c <= MAXIMUM_SLICES ->
  accept_selection k (map target_id c) = Ok None.
Proof.
  unfold exact_selection. intros Hn c Hsub Hl. apply sublist_length in Hsub as Hlen.
  assert (len c ∈ range (sc_data_slices k) (N.min (len (sc_candidates k)) MAXIMUM_SLICES + 1)) as Hin
    by (apply elem_of_range; unfold len in *; lia).
  apply (proj1 (try_find_map_None _ _) Hn) in Hin. rewrite choose_exact_spec, drop_0 in Hin by (unfold len; lia).
  apply leaf_None. apply (proj1 (try_find_map_None _ _) Hin). apply elem_of_k_sublists. split; [done|unfold len; lia].
Qed.

(** The exact search over at most ten candidates is optimal: what it selects satisfies
    every scenario and cell predicate with no smaller selection of candidates doing so, and
    when it selects nothing, no selection of candidates does. *)
Theorem exact_selection_optimal k :
  match exact_selection k with
  | Ok (Some s) =>
      exists c, c `sublist_of` sc_candidates k /\ selection_targets s = map target_id c /\
        accept_selection k (map target_id c) = Ok (Some (selection_proofs s)) /\
        forall c', c' `sublist_of` sc_candidates k -> sc_data_slices k <= len c' < len c ->
          accept_selection k (map target_id c') = Ok None
  | Ok None =>
      forall c, c `sublist_of` sc_candidates k -> sc_data_slices k <= len c <= MAXIMUM_SLICES ->
        accept_selection k (map target_id c) = Ok None
  | Err _ => True
  end.
Proof.
  destruct (exact_selection k) as [[s|]|e] eqn:Ex; [|by apply exact_selection_None|done].
  destruct (exact_selection_Some k s Ex) as (c & ? & _ & ? & ? & ?). eauto.
Qed.

(** ** Selections behind a plan *)

(** Targets come from distinct candidates and carry the proofs the oracle computed. *)
Record selection_sound (t : Topology) (scenarios : list FailureScenario) (pool : list PlacementCandidate) (data : N)
    (targets : list TargetId) (proofs : list ProtectionProof) : Prop := {
  sound_from : exists c, c `sublist_of` pool /\ targets = map target_id c;
  sound_layout : new_layout data targets = Ok {| required_slices := data; slice_targets := targets |};
  sound_proofs : Forall2 (fun s p => best_effort_proof t s {| required_slices := data; slice_targets := targets |} = Ok p)
                   scenarios proofs;
}.

Lemma new_layout_Ok data targets l : new_layout data targets = Ok l ->
  l = {| required_slices := data; slice_targets := targets |} /\ data <> 0 /\ data <= len targets <= MAX_SLICES_PER_STRIPE.
Proof. unfold new_layout. intros Hl. inv_ok. bool_cases. split_and!; done. Qed.

Lemma accept_selection_sound k c proofs :
  c `sublist_of` sc_candidates k -> accept_selection k (map target_id c) = Ok (Some proofs) ->
  selection_sound (sc_topology k) (sc_scenarios k) (sc_candidates k) (sc_data_slices k) (map target_id c) proofs.
Proof.
  intros Hc. unfold accept_selection, prove_all. intros Ha. apply result_bind_Ok in Ha as ([ps|] & Hp & Ha); [|done].
  apply result_bind_Ok in Hp as (l & Hl%map_err_Ok & Hp). apply result_bind_Ok in Hp as (ps' & Hps & Hp).
  pose proof (new_layout_Ok _ _ _ Hl) as (-> & _). apply result_bind_Ok in Ha as ([] & _ & Ha); [|done].
  injection Ha as <-. destruct (forallb survives ps'); [|done]. injection Hp as <-.
  split; [eauto|done|]. by apply try_map_Forall2.
Qed.

Lemma prune_sound k index c proofs s :
  c `sublist_of` sc_candidates k -> accept_selection k (map target_id c) = Ok (Some proofs) ->
  prune k index (map target_id c) proofs = Ok s ->
  selection_sound (sc_topology k) (sc_scenarios k) (sc_candidates k) (sc_data_slices k) (selection_targets s) (selection_proofs s).
Proof.
  revert c proofs. induction index as [|i IH]; intros c proofs Hc Ha; cbn [prune].
  { intros [= <-]. by apply accept_selection_sound. }
  destruct (_ <? _); [|intros [= <-]; by apply accept_selection_sound].
  replace (delete i (map target_id c)) with (map target_id (delete i c)) by apply list_fmap_delete.
  destruct (accept_selection k (map target_id (delete i c))) as [[fewer|]|] eqn:Ea; cbn [mbind result_bind]; [| |done].
  - apply IH; [|done]. etransitivity; [apply sublist_delete|done].
  - by apply IH.
Qed.

Lemma plan_geometry_sound k bytes g : plan_geometry k bytes = Ok (Some g) ->
  selection_sound (sc_topology k) (sc_scenarios k) (sc_candidates k) (sc_data_slices k) (geometry_targets g) (geometry_proofs g) /\
  geometry_layout g = {| data_slices := sc_data_slices k; recovery_slices := len (geometry_targets g) - sc_data_slices k;
                         layout_slice_bytes := bytes |} /\
  sc_data_slices k <= len (geometry_targets g).
Proof.
  unfold plan_geometry. destruct (_ <? _); [done|]. intros Hg. apply result_bind_Ok in Hg as ([s|] & Hs & Hg); [|done].
  assert (selection_sound (sc_topology k) (sc_scenarios k) (sc_candidates k) (sc_data_slices k) (selection_targets s) (selection_proofs s)) as Hsound.
  { destruct (_ <=? _) in Hs.
    - apply exact_selection_Some in Hs as (c & Hc & _ & -> & Ha & _). by apply accept_selection_sound.
    - unfold pruned_selection in Hs. apply result_bind_Ok in Hs as ([ps|] & Ha & Hs); [|done].
      apply result_bind_Ok in Hs as (s' & Hp & [= <-]). eapply prune_sound; [|exact Ha|exact Hp]. apply sublist_take. }
  apply result_bind_Ok in Hg as (count & [-> _]%ok_or_Ok%try_narrow_Some & Hg).
  apply result_bind_Ok in Hg as (recovery & [-> Hle]%ok_or_Ok%checked_sub_Some & Hg).
  apply result_bind_Ok in Hg as (l & Hl%map_err_Ok & [= <-]). cbn. split_and!; [done| |done].
  unfold new_coding_layout in Hl. destruct (checked_add _ _ _); [|done]. destruct (_ || _); [done|]. by injection Hl as <-.
Qed.

(** The candidates a request leaves in play, best first. *)
Definition pool (r : PlacementRequest) : list PlacementCandidate :=
  sort_candidates (List.filter (fun c => negb (candidate_is_excluded c (write_cells r))) (write_candidates r)).

Definition fitting (bytes : N) (cs : list PlacementCandidate) : list PlacementCandidate :=
  List.filter (fun c => bytes <=? writable_bytes c) cs.

(** What is known of a plan before acknowledgement roles are chosen. *)
Record planned (r : PlacementRequest) (l : CodingLayout) (targets : list TargetId) (proofs : list ProtectionProof) : Prop := {
  planned_sound : selection_sound (write_topology r) (write_scenarios r) (fitting (layout_slice_bytes l) (pool r))
                    (data_slices l) targets proofs;
  planned_total : total_slices l = len targets;
  planned_bytes : slice_bytes (logical_stripe_bytes r) (data_slices l) = Ok (layout_slice_bytes l);
}.

Section planned_writes.
Context `{Blake3}.

Lemma best_effort_planned r plan : build_best_effort_plan r (pool r) = Ok plan ->
  exists l targets proofs, planned r l targets proofs /\ build_plan r l targets proofs = Ok plan.
Proof.
  unfold build_best_effort_plan. intros Hb. apply result_bind_Ok in Hb as (bytes & Hbytes & Hb).
  destruct (bool_decide _) eqn:Ene in Hb; [done|]. apply result_bind_Ok in Hb as ([] & _ & Hb); [|done]. cbn [negb] in Hb.
  apply result_bind_Ok in Hb as (recovery & [-> _]%ok_or_Ok%try_narrow_Some & Hb).
  apply result_bind_Ok in Hb as (l & Hl%map_err_Ok & Hb). apply result_bind_Ok in Hb as (pl & Hpl%map_err_Ok & Hb).
  apply result_bind_Ok in Hb as (proofs & Hproofs & Hb). eexists l, _, proofs. split; [|exact Hb].
  pose proof (new_layout_Ok _ _ _ Hpl) as (-> & _ & Hlen).
  unfold new_coding_layout in Hl. destruct (checked_add _ _ _); [|done]. destruct (_ || _) in Hl; [done|]. injection Hl as <-.
  split; cbn [data_slices layout_slice_bytes]; [|unfold total_slices, saturating_sub in *; cbn [data_slices recovery_slices]; lia|done].
  split; [|done|by apply try_map_Forall2]. eexists. split; [|reflexivity]. apply sublist_take.
Qed.

Lemma plan_write_planned self r plan : plan_write self r = Ok plan ->
  validate_request r = Ok tt /\
  exists l targets proofs, planned r l targets proofs /\ build_plan r l targets proofs = Ok plan.
Proof.
  unfold plan_write. intros Hp. apply result_bind_Ok in Hp as ([] & _ & Hp). apply result_bind_Ok in Hp as ([] & Hv & Hp).
  split; [done|]. apply result_bind_Ok in Hp as ([g|] & Hg & Hp); [|by apply best_effort_planned].
  apply try_find_map_Some in Hg as (_ & enforce & _ & _ & Hg & _).
  apply try_find_map_Some in Hg as (_ & data & _ & _ & Hg & _).
  apply result_bind_Ok in Hg as (bytes & Hbytes & Hg).
  apply plan_geometry_sound in Hg as (Hsound & Hlayout & Hle). cbn in *.
  exists (geometry_layout g), (geometry_targets g), (geometry_proofs g). split; [|done]. rewrite Hlayout.
  split; cbn; [exact Hsound|unfold total_slices; cbn; lia|done].
Qed.

End planned_writes.

(** ** Requests *)

Record request_ok (r : PlacementRequest) : Prop := {
  request_candidates : NoDup (map target_id (write_candidates r));
  request_hosts : forall c, c ∈ write_candidates r -> target_hosts (write_topology r) !! target_id c = Some (host_id c);
  request_required : forall s, s ∈ write_required_scenarios r -> s ∈ write_scenarios r;
}.

Lemma validate_request_Ok r : validate_request r = Ok tt -> request_ok r.
Proof.
  unfold validate_request. destruct (_ || _) eqn:Eg; [done|]. bool_cases.
  destruct (any_bad_or_repeated _ target_id _ _) eqn:Ec; [done|]. intros _.
  apply any_bad_or_repeated_false in Ec as (Hbad & Hnd & _). split; [done| |].
  - intros c Hc. specialize (Hbad c Hc). cbn in Hbad. bool_cases. done.
  - intros s Hs. match goal with HE : existsb _ _ = false |- _ => rename HE into Hex end.
    destruct (decide (s ∈ write_scenarios r)) as [|Hn]; [done|]. exfalso. apply not_true_iff_false in Hex. apply Hex.
    apply existsb_exists. exists s. split; [by apply list_elem_of_In|]. by rewrite bool_decide_eq_false_2.
Qed.

Lemma elem_of_pool r c : c ∈ pool r <-> c ∈ write_candidates r /\ candidate_is_excluded c (write_cells r) = false.
Proof.
  unfold pool. rewrite (sort_candidates_perm _), list_elem_of_In, filter_In, <- list_elem_of_In.
  by rewrite negb_true_iff.
Qed.

Lemma filter_ids_sublist (f : PlacementCandidate -> bool) l : List.filter f l `sublist_of` l.
Proof. induction l as [|c l IH]; [done|]. cbn. case_match; by constructor. Qed.

Lemma map_sublist {A B} (f : A -> B) l k : l `sublist_of` k -> map f l `sublist_of` map f k.
Proof. induction 1; cbn; by constructor. Qed.

Lemma pool_ids_NoDup r : request_ok r -> NoDup (map target_id (pool r)).
Proof.
  intros Hr. unfold pool. rewrite (sort_candidates_perm _ : _ ≡ₚ _). eapply sublist_NoDup; [apply (request_candidates r Hr)|].
  apply map_sublist, filter_ids_sublist.
Qed.

Lemma planned_targets_NoDup r l targets proofs : request_ok r -> planned r l targets proofs -> NoDup targets.
Proof.
  intros Hr [[(c & Hc & ->) _ _] _ _]. eapply sublist_NoDup; [apply (pool_ids_NoDup r Hr)|].
  apply map_sublist. etransitivity; [exact Hc|]. apply filter_ids_sublist.
Qed.

Lemma planned_target r l targets proofs t : planned r l targets proofs -> t ∈ targets ->
  exists c, c ∈ write_candidates r /\ target_id c = t /\ candidate_is_excluded c (write_cells r) = false /\
    layout_slice_bytes l <= writable_bytes c.
Proof.
  intros [[(cs & Hcs & ->) _ _] _ _] (c & -> & Hc)%list_elem_of_fmap. eapply elem_of_sublist in Hc; [|exact Hcs].
  apply list_elem_of_In, filter_In in Hc as [Hc%list_elem_of_In%elem_of_pool Hb%N.leb_le].
  exists c. naive_solver.
Qed.

(** Rounding up never loses bytes. *)
Lemma slice_bytes_cover logical data bytes : data <> 0 -> slice_bytes logical data = Ok bytes ->
  logical <= data * bytes /\ bytes mod 2 = 0.
Proof.
  intros Hd. unfold slice_bytes. intros Hs. apply ok_or_Ok in Hs. cbn in Hs. unfold mbind, option_bind in Hs.
  destruct (checked_add _ _ _) as [b|] eqn:Ea; [|done]. apply checked_add_Some in Ea as [-> _].
  destruct (_ =? 0) in Hs; [done|]. injection Hs as <-. unfold div_ceil.
  pose proof (N.div_mod logical data Hd) as Hdiv. pose proof (N.mod_lt logical data Hd) as Hmod. split.
  - revert Hdiv Hmod. generalize (logical / data) (logical mod data). intros q m -> Hm.
    destruct (N.eqb_spec m 0) as [->|]; [generalize ((q + 0) mod 2)|generalize ((q + 1) mod 2)]; intros e; nia.
  - generalize (logical / data + (if logical mod data =? 0 then 0 else 1)). clear. intros n.
    rewrite N.Div0.add_mod, N.Div0.mod_mod. generalize (n mod 2) (N.mod_lt n 2 ltac:(lia)). intros m Hm.
    assert (m = 0 \/ m = 1) as [-> | ->] by lia; done.
Qed.

(** ** Acknowledgement *)

(** The targets whose receipts the write waits for. *)
Definition required_of (targets : list TargetId) (roles : list ShardAcknowledgement) : list TargetId :=
  omap (fun '(t, a) => if bool_decide (a = AckRequired) then Some t else None) (zip targets roles).

Definition hosts_of (t : Topology) (targets : list TargetId) : gset HostId := list_to_set (omap (target_host t) targets).

(** Enough receipts on enough machines and, with [strong], enough to decode through every
    required scenario from those receipts alone. *)
Record receipts_suffice (r : PlacementRequest) (data : N) (strong : bool) (required : list TargetId) : Prop := {
  suffice_targets : N.max (write_minimum_durable_targets r) data <= len required;
  suffice_hosts : write_minimum_distinct_nodes r <= N.of_nat (size (hosts_of (write_topology r) required));
  suffice_scenarios : strong = true -> Forall (fun s => protects (write_topology r) s
    {| required_slices := data; slice_targets := required |}) (write_required_scenarios r);
}.

Lemma protects_perm t s data l k : l ≡ₚ k ->
  protects t s {| required_slices := data; slice_targets := l |} -> protects t s {| required_slices := data; slice_targets := k |}.
Proof.
  intros Hp Hl failed Hf. specialize (Hl failed Hf). unfold slices_left, remaining_slices, len in *. cbn in *.
  by rewrite <- Hp.
Qed.

Lemma receipts_suffice_perm r data strong l k : l ≡ₚ k -> receipts_suffice r data strong l -> receipts_suffice r data strong k.
Proof.
  intros Hp [H1 H2 H3]. split.
  - unfold len in *. by rewrite <- Hp.
  - unfold hosts_of in *. replace (list_to_set (omap (target_host (write_topology r)) k) : gset HostId)
      with (list_to_set (omap (target_host (write_topology r)) l) : gset HostId); [done|].
    apply set_eq. intros h. by rewrite !elem_of_list_to_set, Hp.
  - intros Hs. eapply Forall_impl; [by apply H3|]. intros s. by apply protects_perm.
Qed.

Lemma required_of_filter targets (required : gset TargetId) :
  required_of targets (map (fun t => if bool_decide (t ∈ required) then AckRequired else AckEventual) targets) =
  filter (.∈ required) targets.
Proof.
  unfold required_of. induction targets as [|t ts IH]; [done|]. cbn [map zip zip_with omap list_omap]. rewrite filter_cons.
  destruct (decide (t ∈ required)) as [Hin|Hn].
  - rewrite (bool_decide_eq_true_2 (t ∈ required)) by done. cbn. by rewrite <- IH.
  - rewrite (bool_decide_eq_false_2 (t ∈ required)) by done. cbn. by rewrite <- IH.
Qed.

Lemma filter_required_perm targets (required : gset TargetId) :
  NoDup targets -> (forall t, t ∈ required -> t ∈ targets) -> ascending required ≡ₚ filter (.∈ required) targets.
Proof.
  intros Hnd Hsub. apply NoDup_Permutation; [apply ascending_NoDup|by apply NoDup_filter|].
  intros t. rewrite elem_of_ascending, list_elem_of_filter. naive_solver.
Qed.

Lemma predicates_satisfied r required data strong :
  request_ok r -> Forall scenario_ok (write_required_scenarios r) ->
  acknowledgement_predicates_satisfied r required data strong = Ok true -> receipts_suffice r data strong (ascending required).
Proof.
  intros Hr Hok. unfold acknowledgement_predicates_satisfied. destruct (_ || _) eqn:Eg; [done|]. bool_cases. intros Hs. split.
  - unfold len. rewrite length_ascending. lia.
  - etransitivity; [eassumption|]. unfold hosts_of.
    match goal with |- N.of_nat (size ?X) <= N.of_nat (size ?Y) => assert (X ⊆ Y) as Hsub; [|pose proof (subseteq_size _ _ Hsub); lia] end.
    intros h. rewrite !elem_of_list_to_set, !list_elem_of_omap. intros (t & Ht & Hf). exists t. split; [done|].
    destruct (List.find _ _) as [c|] eqn:Ef; [|done]. injection Hf as <-. apply find_some in Ef as [Hc Heq%N.eqb_eq].
    subst t. unfold target_host. by apply (request_hosts r Hr), list_elem_of_In.
  - intros ->. cbn [negb orb] in Hs. destruct (bool_decide_reflect (write_required_scenarios r = [])) as [->|]; [constructor|].
    apply result_bind_Ok in Hs as (l & Hl%map_err_Ok & Hs). pose proof (new_layout_Ok _ _ _ Hl) as (-> & _).
    by apply try_survive_all.
Qed.

Lemma grow_required_subset r data strong required targets out :
  grow_required r data strong required targets = Ok out -> forall t, t ∈ out -> t ∈ required \/ t ∈ targets.
Proof.
  revert required. induction targets as [|t ts IH]; intros required; cbn [grow_required]; [intros [= <-]; auto|].
  intros Hg. apply result_bind_Ok in Hg as ([] & _ & Hg); [injection Hg as <-; auto|].
  intros x Hx. destruct (IH _ Hg x Hx) as [Hin|Hin]; [|right; by right]. apply elem_of_union in Hin as [->%elem_of_singleton|?]; [right; by left|by left].
Qed.

Lemma acknowledgement_roles_suffice r targets data strong roles :
  request_ok r -> Forall scenario_ok (write_required_scenarios r) -> NoDup targets ->
  acknowledgement_roles r targets data strong = Ok roles ->
  receipts_suffice r data strong (required_of targets roles) /\ length roles = length targets.
Proof.
  intros Hr Hok Hnd. unfold acknowledgement_roles. intros Ha. apply result_bind_Ok in Ha as (required & Hg & Ha).
  apply result_bind_Ok in Ha as ([] & Hs & Ha); [|done]. injection Ha as <-. split; [|by rewrite length_map].
  rewrite required_of_filter. eapply receipts_suffice_perm; [|by apply predicates_satisfied].
  apply filter_required_perm; [done|]. intros t Ht. eapply grow_required_subset in Hg as [Hin|]; [|done|exact Ht].
  destruct strong; [|set_solver]. unfold cell_gates in Hin. apply elem_of_list_to_set, list_elem_of_In, filter_In in Hin as [Hin _].
  by apply list_elem_of_In.
Qed.

(** ** Plans *)

Definition plan_layout (p : PlacementPlan) : ProtectionLayout :=
  {| required_slices := data_slices (coding_layout p); slice_targets := plan_slice_targets p |}.

Section plans.
Context `{Blake3}.

Lemma new_items_Ok {A} (l k : list A) m : new_items l m = Ok k -> k = l.
Proof. unfold new_items. intros Hn. by inv_ok. Qed.

Lemma build_plan_Ok r l targets proofs plan : build_plan r l targets proofs = Ok plan ->
  coding_layout plan = l /\ plan_slice_targets plan = targets /\ protection_proofs plan = proofs /\
  try_forallb (fun s => proof ← best_effort_proof (write_topology r) s (plan_layout plan); Ok (survives proof))
    (write_required_scenarios r) = Ok true /\
  acknowledgement_roles r targets (data_slices l) true = Ok (acknowledgement_roles_of plan) /\
  acknowledgement_roles r targets (data_slices l) false = Ok (eventual_fallback_roles plan).
Proof.
  unfold build_plan. intros Hb. apply result_bind_Ok in Hb as (pl & Hpl%map_err_Ok & Hb).
  pose proof (new_layout_Ok _ _ _ Hpl) as (-> & _). apply result_bind_Ok in Hb as ([] & Hsv & Hb); [|done]. cbn [negb] in Hb.
  apply result_bind_Ok in Hb as (roles & Hroles & Hb). apply result_bind_Ok in Hb as (fallback & Hfall & Hb).
  apply result_bind_Ok in Hb as (evidence & _ & Hb).
  apply result_bind_Ok in Hb as (? & ->%map_err_Ok%new_items_Ok & Hb). apply result_bind_Ok in Hb as (? & ->%map_err_Ok%new_items_Ok & Hb).
  apply result_bind_Ok in Hb as (? & ->%map_err_Ok%new_items_Ok & Hb). apply result_bind_Ok in Hb as (? & ->%map_err_Ok%new_items_Ok & Hb).
  apply result_bind_Ok in Hb as (ev & _ & [= <-]). cbn. done.
Qed.

Lemma required_scenarios_ok r : request_ok r -> Forall scenario_ok (write_scenarios r) -> Forall scenario_ok (write_required_scenarios r).
Proof. rewrite !Forall_forall. intros Hr Hok s Hs. by apply Hok, (request_required r Hr). Qed.

(** C21: a write plan puts the stripe on distinct admitted targets, none excluded by policy and
    each with room for its slice; the geometry holds the whole stripe; every protection proof
    it reports is true (a scenario reported to survive leaves a decodable set of slices after
    every loss it covers); and every required scenario is survived. *)
Theorem plan_write_sound self r plan :
  plan_write self r = Ok plan -> Forall scenario_ok (write_scenarios r) ->
  NoDup (plan_slice_targets plan) /\ len (plan_slice_targets plan) = total_slices (coding_layout plan) /\
  logical_stripe_bytes r <= data_slices (coding_layout plan) * layout_slice_bytes (coding_layout plan) /\
  (forall t, t ∈ plan_slice_targets plan -> exists c, c ∈ write_candidates r /\ target_id c = t /\
     candidate_is_excluded c (write_cells r) = false /\ layout_slice_bytes (coding_layout plan) <= writable_bytes c) /\
  Forall2 (fun s p => survives p = true -> protects (write_topology r) s (plan_layout plan))
    (write_scenarios r) (protection_proofs plan) /\
  Forall (fun s => protects (write_topology r) s (plan_layout plan)) (write_required_scenarios r).
Proof.
  intros (Hv%validate_request_Ok & l & targets & proofs & Hpl & Hb)%plan_write_planned Hok.
  pose proof (build_plan_Ok _ _ _ _ _ Hb) as (<- & <- & <- & Hreq & _ & _). clear Hb.
  pose proof (planned_sound _ _ _ _ Hpl) as [_ Hlayout Hproofs]. apply new_layout_Ok in Hlayout as (_ & Hd & _).
  split_and!.
  - by eapply planned_targets_NoDup.
  - symmetry. by eapply planned_total.
  - eapply slice_bytes_cover; [done|]. by eapply planned_bytes.
  - intros t Ht. by eapply planned_target.
  - fold (plan_layout plan) in Hproofs. clear -Hok Hproofs. induction Hproofs; constructor; [|by apply IHHproofs; inversion Hok].
    intros Hsv. apply Forall_cons in Hok as [? _]. by eapply best_effort_honest.
  - apply try_survive_all; [by apply required_scenarios_ok|done].
Qed.

(** C29: the receipts a plan waits for are enough on their own: at least the configured number
    of targets and machines and at least a decodable set, and every required scenario is
    survived by the required slices alone, before any eventual slice is written; the weaker
    fallback roles still meet the target, machine and decoding minimums. *)
Theorem plan_write_acknowledgement self r plan :
  plan_write self r = Ok plan -> Forall scenario_ok (write_scenarios r) ->
  receipts_suffice r (data_slices (coding_layout plan)) true
    (required_of (plan_slice_targets plan) (acknowledgement_roles_of plan)) /\
  receipts_suffice r (data_slices (coding_layout plan)) false
    (required_of (plan_slice_targets plan) (eventual_fallback_roles plan)) /\
  length (acknowledgement_roles_of plan) = length (plan_slice_targets plan) /\
  length (eventual_fallback_roles plan) = length (plan_slice_targets plan).
Proof.
  intros (Hv%validate_request_Ok & l & targets & proofs & Hpl & Hb)%plan_write_planned Hok.
  pose proof (build_plan_Ok _ _ _ _ _ Hb) as (<- & <- & _ & _ & Hstrong & Hweak).
  pose proof (planned_targets_NoDup _ _ _ _ Hv Hpl) as Hnd. pose proof (required_scenarios_ok r Hv Hok) as Hok'.
  apply acknowledgement_roles_suffice in Hstrong as [? ?], Hweak as [? ?]; done.
Qed.

End plans.

(** ** Best single replacement *)

Arguments quality_le : simpl never.

#[export] Instance quality_le_preorder : PreOrder quality_le.
Proof. split; [intros q; unfold quality_le; reflexivity|]. intros a b c. unfold quality_le. apply transitivity. Qed.

#[export] Instance quality_le_total : Total quality_le.
Proof. intros a b. unfold quality_le. apply (total bytes_le). Qed.

Lemma try_fold_ext {E A B} (f g : A -> B -> result E A) acc l :
  (forall a x, f a x = g a x) -> try_fold f acc l = try_fold g acc l.
Proof. intros Hfg. revert acc. induction l as [|x l IH]; intros acc; [done|]. cbn. rewrite Hfg. by destruct (g acc x); cbn. Qed.

Section best.
Context {A B : Type} (g : A -> result ContractError (option B)) (key : B -> LayoutQuality).

(** Keep the earlier of equally good candidates. *)
Definition pick (best : option B) (o : option B) : option B :=
  match o, best with
  | None, _ => best
  | Some b, None => Some b
  | Some b, Some cur => if bool_decide (quality_le (key b) (key cur)) then Some cur else Some b
  end.

Definition dominated (b : B) (best : option B) : Prop := exists b', best = Some b' /\ quality_le (key b) (key b').

Lemma dominated_pick b best o : dominated b best -> dominated b (pick best o).
Proof.
  intros (b' & -> & Hle). destruct o as [c|]; cbn; [|by exists b']. case_bool_decide as Hc; [by exists b'|].
  exists c. split; [done|]. etransitivity; [exact Hle|]. destruct (total quality_le (key c) (key b')); [done|done].
Qed.

Lemma pick_dominates b best : dominated b (pick best (Some b)).
Proof. destruct best as [c|]; cbn; [case_bool_decide|]; [by exists c|by exists b|by exists b]. Qed.

Lemma fold_best best l out :
  try_fold (fun best x => o ← g x; Ok (pick best o)) best l = Ok out ->
  (forall x, x ∈ l -> exists o, g x = Ok o /\ forall b, o = Some b -> dominated b out) /\
  (out = best \/ exists x b, x ∈ l /\ g x = Ok (Some b) /\ out = Some b) /\
  (forall b, dominated b best -> dominated b out).
Proof.
  revert best. induction l as [|x l IH]; intros best; cbn [try_fold].
  { intros [= <-]. split_and!; [set_solver|by left|done]. }
  intros Hf. apply result_bind_Ok in Hf as (best' & Hx & Hf). apply result_bind_Ok in Hx as (o & Hg & [= <-]).
  apply IH in Hf as (Hall & Hout & Hdom). split_and!.
  - intros y [->|Hy]%elem_of_cons; [|by apply Hall]. exists o. split; [done|]. intros b ->. apply Hdom, pick_dominates.
  - destruct Hout as [->|(y & b & Hy & Hb & ->)]; [|right; exists y, b; split_and!; [by right|done|done]].
    destruct o as [b|]; [|by left]. unfold pick. destruct best as [cur|]; [|right; exists x, b; split_and!; [by left|done..]].
    case_bool_decide; [by left|]. right. exists x, b. split_and!; [by left|done..].
  - intros b Hb. by apply Hdom, dominated_pick.
Qed.

End best.

(** A layout scored as fully protected survives every scenario. *)
Lemma evaluate_layout_honest k targets e :
  Forall scenario_ok (ec_scenarios k) -> evaluate_layout k targets = Ok e -> fully_protected (quality e) = true ->
  Forall (fun s => protects (ec_topology k) s {| required_slices := ec_data_slices k; slice_targets := targets |}) (ec_scenarios k).
Proof.
  intros Hok. unfold evaluate_layout. intros He. apply result_bind_Ok in He as (l & Hl%map_err_Ok & He).
  pose proof (new_layout_Ok _ _ _ Hl) as (-> & _). apply result_bind_Ok in He as (proofs & Hp & He).
  apply result_bind_Ok in He as (rc & _ & He). apply result_bind_Ok in He as (ac & _ & [= <-]). cbn.
  intros [Hall%N.eqb_eq _]%andb_true_iff. apply try_map_Forall2 in Hp.
  assert (Forall (fun p => survives p = true) proofs) as Hsv.
  { clear -Hall. unfold len in Hall. apply Nat2N.inj in Hall. induction proofs as [|p proofs IH]; [done|]. cbn in Hall.
    destruct (survives p) eqn:Es; cbn in Hall; [constructor; [done|]; apply IH; lia|].
    pose proof (filter_length_le survives proofs). lia. }
  clear -Hok Hp Hsv. induction Hp as [|s p ss ps Hsp _ IH]; [done|]. apply Forall_cons in Hok as [? ?], Hsv as [? ?].
  constructor; [by eapply best_effort_honest|by apply IH].
Qed.

Lemma elem_of_eligible (f : PlacementCandidate -> bool) l c :
  c ∈ sort_candidates (List.filter f l) <-> c ∈ l /\ f c = true.
Proof. by rewrite (sort_candidates_perm _), list_elem_of_In, filter_In, <- list_elem_of_In. Qed.

Definition repair_eligible (r : RepairPlacementRequest) (c : PlacementCandidate) : Prop :=
  c ∈ repair_candidates r /\ eligible_replacement (repair_current_targets r) (repair_cells r)
    (layout_slice_bytes (repair_coding_layout r)) c = true.

Lemma repair_fold r l out :
  try_fold (fun (selected : option RepairCandidateEvaluation) c =>
      e ← evaluate_repair_candidate r c;
      Ok (match selected with
          | None => Some e
          | Some current => if bool_decide (quality_le (score e) (score current)) then Some current else Some e
          end)) None l = Ok out ->
  (forall c, c ∈ l -> exists e, evaluate_repair_candidate r c = Ok e /\ dominated score e out) /\
  (out = None \/ exists c e, c ∈ l /\ evaluate_repair_candidate r c = Ok e /\ out = Some e).
Proof.
  rewrite (try_fold_ext _ (fun best c => o ← (e ← evaluate_repair_candidate r c; Ok (Some e)); Ok (pick score best o)))
    by (intros best c; by destruct (evaluate_repair_candidate r c) as [e|]; destruct best).
  intros (Hall & Hout & _)%fold_best. split.
  - intros c Hc. destruct (Hall c Hc) as (o & Ho & Hdom). apply result_bind_Ok in Ho as (e & He & [= <-]). eauto.
  - destruct Hout as [->|(c & e & Hc & He & ->)]; [by left|right]. apply result_bind_Ok in He as (e' & He & [= <-]). eauto.
Qed.

(** A repair goes to an admitted target that does not already hold a slice of the stripe,
    is not excluded and has room, and no other such target would give the stripe a better
    protection score; when the plan reports the repaired stripe fully protected, the repaired
    layout really survives every scenario. *)
Theorem plan_repair_best self r plan :
  plan_repair self r = Ok plan -> Forall scenario_ok (repair_scenarios r) ->
  exists c e, repair_eligible r c /\ repaired_target_id plan = target_id c /\
    repaired_target_generation plan = target_generation c /\ evaluate_repair_candidate r c = Ok e /\
    (forall c', repair_eligible r c' -> exists e', evaluate_repair_candidate r c' = Ok e' /\ quality_le (score e') (score e)) /\
    (repaired_fully_protected plan = true ->
     Forall (fun s => protects (repair_topology r) s
       {| required_slices := data_slices (repair_coding_layout r);
          slice_targets := <[N.to_nat (repair_source_shard_index r) := repaired_target_id plan]> (repair_current_targets r) |})
       (repair_scenarios r)).
Proof.
  unfold plan_repair. intros Hp Hok. apply result_bind_Ok in Hp as ([] & _ & Hp). apply result_bind_Ok in Hp as ([] & _ & Hp).
  apply result_bind_Ok in Hp as (sel & Hfold%repair_fold & Hp). apply result_bind_Ok in Hp as (s & ->%ok_or_Ok & Hp).
  apply result_bind_Ok in Hp as (ps & _ & [= <-]). cbn. destruct Hfold as [Hall [|(c & e & Hc & He & [= ->])]]; [done|].
  pose proof He as Hev. apply result_bind_Ok in Hev as (ev & Hev & [= <-]). cbn in *.
  exists c, {| repair_target := c; repair_proofs := evaluation_proofs ev; score := quality ev |}. cbn.
  split_and!; [by apply elem_of_eligible in Hc|done..| |].
  - intros c' Hc'. destruct (Hall c') as (e' & He' & (b & [= <-] & Hle)); [by apply elem_of_eligible|]. eauto.
  - intros Hfull. apply evaluate_layout_honest in Hev; done.
Qed.

(** ** Rebalance *)

Definition rebalance_move (r : RebalancePlacementRequest) (m : nat * PlacementCandidate) : Prop :=
  (m.1 < length (rebalance_current_targets r))%nat /\ m.2 ∈ rebalance_candidates r /\
  eligible_replacement (rebalance_current_targets r) (rebalance_cells r) (layout_slice_bytes (rebalance_coding_layout r)) m.2 = true.

Definition after_move (r : RebalancePlacementRequest) (m : nat * PlacementCandidate) : result ContractError LayoutEvaluation :=
  evaluate_layout (layout_evaluation_context r) (<[m.1 := target_id m.2]> (rebalance_current_targets r)).

(** The move as an improvement over the current layout, if it is one. *)
Definition improvement (r : RebalancePlacementRequest) (current : LayoutEvaluation) (m : nat * PlacementCandidate)
    : result ContractError (option RebalanceCandidateEvaluation) :=
  after ← after_move r m;
  if bool_decide (quality_le (quality after) (quality current)) then Ok None
  else
    index_u16 ← ok_or (try_narrow u16_max (N.of_nat m.1)) InternalContract;
    Ok (Some {| move_index := index_u16; move_target := m.2; resulting := after |}).

Lemma consider_move_pick r current best m :
  consider_move r current best m = (o ← improvement r current m; Ok (pick (fun b => quality (resulting b)) best o)).
Proof.
  destruct m as [i c]. unfold consider_move, improvement, after_move. cbn [fst snd].
  destruct (evaluate_layout _ _) as [after|]; [|done]. cbn [mbind result_bind].
  case_match; [done|]. destruct (try_narrow _ _); cbn; [|done]. by destruct best.
Qed.

Lemma improvement_Ok r current m o : improvement r current m = Ok o ->
  exists after, after_move r m = Ok after /\
    match o with
    | None => quality_le (quality after) (quality current)
    | Some b => ~ quality_le (quality after) (quality current) /\
        move_index b = N.of_nat m.1 /\ move_target b = m.2 /\ resulting b = after
    end.
Proof.
  unfold improvement. intros Hi. apply result_bind_Ok in Hi as (after & Ha & Hi). exists after. split; [done|].
  case_bool_decide; [by injection Hi as <-|].
  apply result_bind_Ok in Hi as (i & [-> _]%ok_or_Ok%try_narrow_Some & [= <-]). done.
Qed.

Lemma elem_of_moves r m :
  m ∈ (index ← seq 0 (length (rebalance_current_targets r)); c ← eligible_rebalance_candidates r; [(index, c)]) <->
  rebalance_move r m.
Proof.
  unfold rebalance_move, eligible_rebalance_candidates. destruct m as [i c]. cbn. rewrite list_elem_of_bind. split.
  - intros (i' & Hm & Hi%elem_of_seq). apply list_elem_of_bind in Hm as (c' & [= <- <-]%list_elem_of_singleton & Hc%elem_of_eligible). split; [lia|done].
  - intros (Hi & Hc). exists i. split; [|apply elem_of_seq; lia]. apply list_elem_of_bind. exists c. split; [by left|by apply elem_of_eligible].
Qed.

(** A proposed rebalance is a strict improvement of the stripe's protection score by moving
    one slice to an eligible target, and no single move would score better; when nothing is
    proposed, no single move improves the stripe. *)
Theorem plan_rebalance_best self r :
  match plan_rebalance self r with
  | Ok (Some plan) =>
      exists m current after, rebalance_move r m /\ moved_shard_index plan = N.of_nat m.1 /\ moved_target_id plan = target_id m.2 /\
        evaluate_layout (layout_evaluation_context r) (rebalance_current_targets r) = Ok current /\
        after_move r m = Ok after /\ ~ quality_le (quality after) (quality current) /\
        forall m', rebalance_move r m' -> exists after', after_move r m' = Ok after' /\ quality_le (quality after') (quality after)
  | Ok None =>
      exists current, evaluate_layout (layout_evaluation_context r) (rebalance_current_targets r) = Ok current /\
        forall m, rebalance_move r m -> exists after, after_move r m = Ok after /\ quality_le (quality after) (quality current)
  | Err _ => True
  end.
Proof.
  destruct (plan_rebalance self r) as [o|] eqn:Hp; [|done]. unfold plan_rebalance in Hp.
  apply result_bind_Ok in Hp as ([] & _ & Hp). apply result_bind_Ok in Hp as ([] & _ & Hp).
  apply result_bind_Ok in Hp as (current & Hcur & Hp). apply result_bind_Ok in Hp as (sel & Hfold & Hp).
  rewrite (try_fold_ext _ _ _ _ (consider_move_pick r current)) in Hfold. apply fold_best in Hfold as (Hall & Hout & _).
  destruct sel as [b|].
  - apply result_bind_Ok in Hp as (ps & _ & [= <-]). cbn.
    destruct Hout as [|(m & b' & Hm%elem_of_moves & (after & Ha & Hnle & Hi & Ht & Hr)%improvement_Ok & [= <-])]; [done|].
    exists m, current, after. rewrite Hi, Ht. split_and!; [done..|]. intros m' Hm'%elem_of_moves.
    destruct (Hall m' Hm') as (o & (after' & Ha' & Ho)%improvement_Ok & Hdom). exists after'. split; [done|].
    destruct o as [b'|].
    + destruct Ho as (_ & _ & _ & <-). destruct (Hdom b' eq_refl) as (b2 & [= <-] & Hle). by rewrite <- Hr.
    + etransitivity; [exact Ho|]. by destruct (total quality_le (quality current) (quality after)).
  - injection Hp as <-. exists current. split; [done|]. intros m Hm%elem_of_moves.
    destruct (Hall m Hm) as (o & (after & Ha & Ho)%improvement_Ok & Hdom). exists after. split; [done|].
    destruct o as [b|]; [|done]. by destruct (Hdom b eq_refl) as (? & ? & _).
Qed.

(** ** Lifecycle *)

#[export] Instance placement_lawful : LawfulLifecycle FaultAwarePlacement.
Proof.
  split.
  - intros [c|rev|d|rev] [life prep act] Hc; unfold lifecycle_move; cbn in *;
      unfold placement_prepare, placement_activate, placement_drain, placement_retire; apply post_get_bind; cbn.
    + apply post_lift_bind; [|by auto]. intros _ _. repeat case_match; (split; [by left|done]).
    + repeat case_match; try (split; [by left|done]). bool_cases. destruct life; try done.
      * split; [by left|done].
      * split; [right; by exists CancelDrain|done].
    + case_match; [split; [by left|done]|]. destruct life; try done.
      * split; [right; by exists BeginDrain|done].
      * split; [by left|done].
    + case_match; [split; [by left|done]|]. bool_cases. subst. split; [right; by exists Retire|done].
  - intros [c|rev|d|rev] self e c'; cbn; unfold placement_prepare, placement_activate, placement_drain, placement_retire,
      get_state, lift, mbind, SE_bind; [destruct (placement_validate_configuration self c); [|by intros [= _ <-]]|..];
      repeat case_match; try discriminate; by intros [= _ <-].
Qed.
