(* ===== verification/Components.v ===== *)
(** The two built-in engines behind the common lifecycle contract, and concrete runs of them: a
    two-plus-one parity code that satisfies the transform's contract with a stripe read back from
    it with one slice missing or corrupt, and one stripe placed, repaired and rebalanced over
    three machines. *)

From S2P Require Import Prelude Topology Contracts Coding Placement PlacementFacts.
From stdpp Require Import prelude gmap list.
#[local] Open Scope N_scope.

#[local] Existing Instances Coding.coding_lifecycle Coding.coding_lawful Placement.placement_lifecycle.

(** A retired component stays retired through every later request. *)
Definition retirement_final `{ComponentLifecycle C} (c : C) : Prop :=
  forall more, lifecycle_of c = Retired -> lifecycle_of (requested more c) = Retired.

(** Whatever requests reach the coding and placement engines, and in whatever order, their
    lifecycle only takes steps of the guarded transition table from active service, refused
    requests change nothing, retirement is permanent, and an engine that is not active serves
    no encode, reconstruct or planning call. *)
Theorem engines_follow_lifecycle `{ReedSolomon, Blake3} (rs : list LifecycleRequest) :
  let coding := requested rs Coding.default_coding in
  let placement := requested rs Placement.default_placement in
  (rtc lifecycle_move Active (lifecycle_of coding) /\ retirement_final coding /\
   (lifecycle_of coding <> Active -> forall ctx l b req,
      Coding.encode coding ctx l b = Err Unavailable /\ Coding.reconstruct coding req = Err Unavailable)) /\
  (rtc lifecycle_move Active (lifecycle_of placement) /\ retirement_final placement /\
   (lifecycle_of placement <> Active -> forall w fix_ move s l t,
      Placement.plan_write placement w = Err Unavailable /\ Placement.plan_repair placement fix_ = Err Unavailable /\
      Placement.plan_rebalance placement move = Err Unavailable /\ Placement.evaluate placement s l t = Err Unavailable)).
Proof.
  cbv zeta. split; split_and!.
  - change Active with (lifecycle_of Coding.default_coding). by apply requested_moves.
  - intros more. apply retired_stays.
  - intros Hn ctx l b req. unfold Coding.encode, Coding.reconstruct, Coding.require_active.
    rewrite (bool_decide_eq_false_2 (_ = Active)) by exact Hn. by split_and!.
  - change Active with (lifecycle_of Placement.default_placement). by apply requested_moves.
  - intros more. apply retired_stays.
  - intros Hn w fix_ move s l t. unfold Placement.plan_write, Placement.plan_repair, Placement.plan_rebalance, Placement.evaluate,
      Placement.require_active. rewrite (bool_decide_eq_false_2 (_ = Active)) by exact Hn. by split_and!.
Qed.

(** ** A parity code *)

Import Coding.

Definition xor_bytes (x y : bytes) : bytes := zip_with N.lxor x y.

Lemma xor_bytes_cancel x y : length x = length y -> xor_bytes y (xor_bytes x y) = x.
Proof.
  intros Hl. rewrite <- Forall2_same_length in Hl. induction Hl as [|a b x y _ _ IH]; cbn; [done|].
  unfold xor_bytes in IH. rewrite IH. f_equal. by rewrite (N.lxor_comm a b), <- N.lxor_assoc, N.lxor_nilpotent.
Qed.

Lemma xor_bytes_comm x y : xor_bytes x y = xor_bytes y x.
Proof. revert y. induction x as [|a x IH]; intros [|b y]; cbn; [done..|]. unfold xor_bytes in IH. by rewrite IH, N.lxor_comm. Qed.

Definition two_plus_one (d r : N) : bool := (d =? 2) && (r =? 1).

#[export] Instance parity : ReedSolomon := {
  Encoder := list bytes;
  Decoder := option bytes * option bytes * option bytes;
  supports := two_plus_one;
  encoder_new d r _ := if two_plus_one d r then Some [] else None;
  encoder_add_original_shard e s := Some (e ++ [s]);
  encoder_encode e := match e with [x; y] => Some [xor_bytes x y] | _ => None end;
  decoder_new d r _ := if two_plus_one d r then Some (None, None, None) else None;
  decoder_add_original_shard '(x, y, p) i s :=
    match i with 0 => Some (Some s, y, p) | 1 => Some (x, Some s, p) | _ => None end;
  decoder_add_recovery_shard '(x, y, p) i s := match i with 0 => Some (x, y, Some s) | _ => None end;
  decoder_decode '(x, y, p) :=
    match x, y, p with
    | None, Some y, Some p => Some (fun i => if i =? 0 then Some (xor_bytes y p) else None)
    | Some x, None, Some p => Some (fun i => if i =? 1 then Some (xor_bytes x p) else None)
    | Some _, Some _, _ => Some (fun _ => None)
    | _, _, _ => None
    end;
}.

Lemma parity_coded d r b originals recovery : coded d r b originals recovery ->
  d = 2 /\ r = 1 /\ exists x y, originals = [x; y] /\ recovery = [xor_bytes x y] /\ length x = length y.
Proof.
  intros (Hn & Hf & Hr). unfold recovery_shards, two_plus_one in Hr. cbn in Hr. unfold two_plus_one in Hr.
  destruct (N.eqb_spec d 2) as [->|]; [|done]. destruct (N.eqb_spec r 1) as [->|]; [|done]. split_and!; [done..|].
  destruct originals as [|x [|y [|z rest]]]; [done|done| |unfold len in Hn; cbn in Hn; lia].
  injection Hr as <-. exists x, y. split_and!; [done..|].
  apply Forall_cons in Hf as [Hx Hf]. apply Forall_cons in Hf as [Hy _]. unfold len in *. lia.
Qed.

#[export] Instance parity_laws : ReedSolomonLaws.
Proof.
  split.
  - intros d r b originals recovery (-> & -> & x & y & -> & -> & _)%parity_coded. done.
  - intros d r b originals recovery present (-> & -> & x & y & -> & -> & Hl)%parity_coded Hs Hc.
    apply Forall2_cons_inv_r in Hs as (p0 & ps & H0 & Hs & ->). apply Forall2_cons_inv_r in Hs as (p1 & ps' & H1 & Hs & ->).
    apply Forall2_cons_inv_r in Hs as (p2 & ps'' & H2 & Hs & ->). apply Forall2_nil_inv_r in Hs as ->.
    destruct H0 as [->| ->], H1 as [->| ->], H2 as [->| ->]; vm_compute in Hc; try (exfalso; by apply Hc);
      do 3 eexists; (split_and!; [reflexivity|reflexivity|reflexivity|]);
      intros i s Hi Hnone; destruct (N.to_nat i) as [|[|[|k]]] eqn:Ei; cbn in Hi, Hnone; try discriminate Hi; try discriminate Hnone;
      injection Hi as <-; replace i with (N.of_nat (N.to_nat i)) by lia; rewrite Ei; cbn; f_equal.
    + by apply xor_bytes_cancel.
    + rewrite (xor_bytes_comm x y). by apply xor_bytes_cancel.
Qed.

(** ** A stripe of three bytes *)

#[local] Instance sample_blake3 : Blake3 := fun b => b.

Definition sample_coding_layout : CodingLayout := {| data_slices := 2; recovery_slices := 1; layout_slice_bytes := 2 |}.
Definition parity_context : RequestContext :=
  {| contract_version := V1_0; operation_id := 7; deadline := 100; expected_revision := None |}.
Definition sample_logical : bytes := [10; 20; 30].
Definition sample_slices : list bytes := [[10; 20]; [30; 0]; [20; 20]].

(** The first slice came back with a flipped byte. *)
Definition sample_request : ReconstructionRequest :=
  {| context := parity_context; layout := sample_coding_layout;
     available_slices := [Some [11; 20]; Some [30; 0]; Some [20; 20]];
     slice_digests := sample_slices; logical_length := 3; logical_digest := sample_logical |}.

Lemma reconstruct_encoded_witness :
  encode default_coding parity_context sample_coding_layout sample_logical = Ok sample_slices /\
  reconstruct default_coding sample_request = Ok sample_logical.
Proof.
  assert (encode default_coding parity_context sample_coding_layout sample_logical = Ok sample_slices) as He by (vm_compute; reflexivity).
  split; [exact He|].
  apply (reconstruct_encoded _ _ _ _ _ sample_request He); try reflexivity.
  repeat (apply Forall2_cons; split); [..|apply Forall2_nil_2];
    intros g Hg; injection Hg as <-; (split; [reflexivity|]); intros E; exact E.
Defined.

(** ** Three machines *)

Import Placement.

#[local] Instance sample_digest : Blake3 := fun b => firstn 32 (b ++ zero32).

Definition sample_candidate (i : N) : PlacementCandidate :=
  {| target_id := 10 + i; host_id := i; target_generation := 1; writable_bytes := 100000 + i;
     performance_weight := 1; availability_cells := [40] |}.

Definition sample_cell : PlacementCellRequirement :=
  {| cell_id := 40; role := RequiredBeforeCommit; complete_local := true; minimum_durable_targets := None;
     minimum_distinct_nodes := Some 2; local_scenarios := [] |}.

Definition sample_context : RequestContext :=
  {| contract_version := V1_0; operation_id := 7; deadline := 100; expected_revision := None |}.

Definition sample_write : PlacementRequest :=
  {| write_context := sample_context; logical_stripe_bytes := 1001; write_scenarios := [sample_scenario];
     write_required_scenarios := [sample_scenario]; write_topology := sample_topology; write_topology_revision := 3;
     write_capacity_revision := 4; write_candidates := map sample_candidate [1; 2; 3];
     write_minimum_durable_targets := 2; write_minimum_distinct_nodes := 2; write_cells := [sample_cell] |}.

(** The slice held on the second machine is lost. *)
Definition sample_repair : RepairPlacementRequest :=
  {| repair_context := sample_context;
     repair_coding_layout := {| data_slices := 1; recovery_slices := 1; layout_slice_bytes := 1002 |};
     repair_source_shard_index := 1; repair_current_targets := [13; 12]; repair_scenarios := [sample_scenario];
     repair_required_scenarios := []; repair_topology := sample_topology; repair_topology_revision := 3;
     repair_capacity_revision := 4; repair_candidates := map sample_candidate [1; 2; 3]; repair_cells := [sample_cell] |}.

Definition sample_plan : result ContractError PlacementPlan := Eval vm_compute in plan_write default_placement sample_write.

Example sample_plan_targets :
  (fun p => (plan_slice_targets p, acknowledgement_roles_of p, protection_proofs p)) <$> sample_plan =
  Ok ([13; 12], [AckRequired; AckRequired], [{| survives := true; evaluated_loss_sets := 3; minimum_remaining_slices := 1 |}]).
Proof. reflexivity. Qed.

Lemma sample_scenario_ok : Forall scenario_ok [sample_scenario].
Proof. repeat constructor. Defined.

Definition sample_plan_value : PlacementPlan :=
  Eval vm_compute in
    match sample_plan with
    | Ok p => p
    | Err _ => {| coding_layout := {| data_slices := 0; recovery_slices := 0; layout_slice_bytes := 0 |};
                  plan_slice_targets := []; acknowledgement_roles_of := []; eventual_fallback_roles := [];
                  plan_topology_revision := 0; plan_capacity_revision := 0; protection_proofs := [];
                  policy_evidence_of := {| format_version := 0; payload_bytes := [] |} |}
    end.

Lemma sample_plan_Ok : plan_write default_placement sample_write = Ok sample_plan_value.
Proof. vm_compute. reflexivity. Defined.

Lemma plan_write_sound_witness :
  NoDup (plan_slice_targets sample_plan_value) /\
  Forall (fun s => protects (write_topology sample_write) s (plan_layout sample_plan_value)) (write_required_scenarios sample_write).
Proof.
  destruct (plan_write_sound default_placement sample_write sample_plan_value sample_plan_Ok sample_scenario_ok)
    as (Hnd & _ & _ & _ & _ & Hp).
  split; [exact Hnd|exact Hp].
Defined.

Lemma plan_write_acknowledgement_witness :
  receipts_suffice sample_write (data_slices (coding_layout sample_plan_value)) true
    (required_of (plan_slice_targets sample_plan_value) (acknowledgement_roles_of sample_plan_value)).
Proof.
  exact (proj1 (plan_write_acknowledgement default_placement sample_write sample_plan_value sample_plan_Ok sample_scenario_ok)).
Defined.

Definition sample_repair_plan : RepairPlacementPlan :=
  {| repaired_target_id := 11; repaired_target_generation := 1; repaired_fully_protected := true;
     repaired_proofs := [{| survives := true; evaluated_loss_sets := 3; minimum_remaining_slices := 1 |}];
     repaired_topology_revision := 3; repaired_capacity_revision := 4 |}.

Lemma plan_repair_best_witness :
  exists c e, repair_eligible sample_repair c /\ target_id c = 11 /\ evaluate_repair_candidate sample_repair c = Ok e.
Proof.
  destruct (plan_repair_best default_placement sample_repair sample_repair_plan)
    as (c & e & Hc & Ht & _ & He & _); [vm_compute; reflexivity|exact sample_scenario_ok|].
  exists c, e. split; [exact Hc|]. split; [exact (eq_sym Ht)|exact He].
Defined.
