(* ===== verification/AccessFacts.v ===== *)
(** Group graphs stay acyclic and their searches are exact; activations never outlive a
    limit; rights algebra. *)

From S2P Require Import Prelude Ids Access.
From stdpp Require Import prelude gmap list relations.
#[local] Open Scope N_scope.

(** ** Edges *)

(** [b] is a direct member of group [a]. *)
Definition edge (g : GroupGraph) (a b : N) : Prop := b ∈ members_of g a.

(** Edges between registered groups, which the cycle check follows. *)
Definition child (g : GroupGraph) (a b : N) : Prop := edge g a b /\ b ∈ groups g.

Lemma group_for_principal_Some g p a : group_for_principal g p = Some a <-> a = p /\ p ∈ groups g.
Proof.
  unfold group_for_principal, group_principal. split.
  - intros [Hin Heq%N.eqb_eq]%find_some. subst a. by rewrite <- elem_of_ascending, list_elem_of_In.
  - intros [-> Hin]. destruct (List.find _ _) as [b|] eqn:Ef.
    + apply find_some in Ef as [_ Heq%N.eqb_eq]. by subst.
    + exfalso. apply elem_of_ascending, list_elem_of_In, (find_none _ _ Ef p) in Hin. by rewrite N.eqb_refl in Hin.
Qed.

Lemma elem_of_child_groups g a b : b ∈ child_groups g a <-> child g a b.
Proof.
  unfold child_groups, child, edge. rewrite list_elem_of_omap. split.
  - intros (p & Hp & [-> Hin]%group_for_principal_Some). by rewrite elem_of_ascending in Hp.
  - intros [Hp Hin]. exists b. rewrite elem_of_ascending, group_for_principal_Some. done.
Qed.

Lemma child_groups_outside g a : a ∉ dom (members g) -> child_groups g a = [].
Proof. intros Hn. unfold child_groups, members_of. apply not_elem_of_dom in Hn. by rewrite Hn. Qed.

(** ** The cycle check terminates *)

Section potential.
Context (f : N -> nat).

(** What the groups not yet visited may still push. *)
Definition pending (visited : gset N) (l : list N) : nat := sum_list (map f (filter (.∉ visited) l)).

Lemma pending_outside visited x l : x ∉ l -> pending ({[x]} ∪ visited) l = pending visited l.
Proof.
  unfold pending. induction l as [|y l IH]; intros Hx; [done|]. rewrite !filter_cons.
  apply not_elem_of_cons in Hx as [Hne Hx]. specialize (IH Hx). repeat case_decide; cbn; try set_solver; lia.
Qed.

Lemma pending_visit visited x l : NoDup l -> x ∈ l -> x ∉ visited ->
  pending visited l = (f x + pending ({[x]} ∪ visited) l)%nat.
Proof.
  induction 1 as [|y l Hy _ IH]; [set_solver|]. intros [->|Hx]%elem_of_cons Hv; unfold pending in *; rewrite !filter_cons.
  - rewrite decide_True, decide_False by set_solver. cbn. f_equal. symmetry. by apply pending_outside.
  - specialize (IH Hx Hv). assert (x <> y) by (by intros ->). repeat case_decide; cbn; try set_solver; lia.
Qed.

End potential.

Section search.
Context (g : GroupGraph) (target : N).

#[local] Abbreviation visit_cost := (fun a => length (child_groups g a)).
#[local] Abbreviation sources := (elements (dom (members g))).

Lemma reaches_loop_terminates fuel visited frontier :
  (length frontier + pending visit_cost visited sources < fuel)%nat -> is_Some (reaches_loop fuel g target visited frontier).
Proof.
  revert visited frontier. induction fuel as [|fuel IH]; intros visited frontier Hf; [lia|]. cbn [reaches_loop].
  destruct frontier as [|a rest]; [by eexists|]. destruct (a =? target); [by eexists|]. cbn in Hf.
  case_bool_decide as Hv; apply IH; [lia|]. rewrite length_app, length_rev.
  destruct (decide (a ∈ sources)) as [Hin|Hout].
  - rewrite (pending_visit visit_cost visited a) in Hf; [lia|apply NoDup_elements|done|done].
  - rewrite pending_outside by done. rewrite child_groups_outside; [cbn; lia|]. by rewrite <- elem_of_elements.
Qed.

Lemma reaches_loop_sound fuel visited frontier :
  reaches_loop fuel g target visited frontier = Some true -> exists a, a ∈ frontier /\ rtc (child g) a target.
Proof.
  revert visited frontier. induction fuel as [|fuel IH]; intros visited frontier; cbn [reaches_loop]; [done|].
  destruct frontier as [|a rest]; [done|]. destruct (N.eqb_spec a target) as [->|]; [intros _; exists target; split; [by left|done]|].
  case_bool_decide; intros (b & Hb & Hr)%IH; [exists b; split; [by right|done]|].
  apply elem_of_app in Hb as [Hb|Hb]; [|exists b; split; [by right|done]].
  exists a. split; [by left|]. eapply rtc_l; [|exact Hr]. rewrite <- elem_of_child_groups. by rewrite list_elem_of_In, <- in_rev, <- list_elem_of_In in Hb.
Qed.

(** Everything seen so far leads only to what is seen or waiting. *)
Definition explored (visited : gset N) (frontier : list N) : Prop :=
  target ∉ visited /\ forall a b, a ∈ visited -> child g a b -> b ∈ visited \/ b ∈ frontier.

Lemma reaches_loop_complete fuel visited frontier :
  explored visited frontier -> reaches_loop fuel g target visited frontier = Some false ->
  forall a, a ∈ visited \/ a ∈ frontier -> ~ rtc (child g) a target.
Proof.
  revert visited frontier. induction fuel as [|fuel IH]; intros visited frontier [Ht Hc]; cbn [reaches_loop]; [done|].
  destruct frontier as [|a rest].
  - assert (forall x y, rtc (child g) x y -> x ∈ visited -> y ∈ visited) as Hclosed.
    { induction 1 as [|x y z Hxy _ IHr]; [done|]. intros Hx. apply IHr. destruct (Hc x y Hx Hxy); [done|set_solver]. }
    intros _ a [Ha|Ha] Hr; [|set_solver]. by apply Ht, (Hclosed a).
  - destruct (N.eqb_spec a target) as [->|Hne]; [done|]. case_bool_decide as Hv; intros Hf.
    + intros x Hx. eapply IH; [|exact Hf|]; [split; [done|]; intros u v Hu Huv; destruct (Hc u v Hu Huv); set_solver|set_solver].
    + assert (explored ({[a]} ∪ visited) (rev (child_groups g a) ++ rest)) as Hex.
      { split; [set_solver|]. intros u v [->%elem_of_singleton|Hu]%elem_of_union Huv.
        - right. apply elem_of_app. left. by rewrite list_elem_of_In, <- in_rev, <- list_elem_of_In, elem_of_child_groups.
        - destruct (Hc u v Hu Huv); set_solver. }
      intros x Hx. eapply IH; [exact Hex|exact Hf|]. set_solver.
Qed.

End search.

(** The cycle check always terminates and answers exactly whether one group contains the
    other through any chain of nested groups. *)
Lemma reaches_group_exact g start target :
  is_Some (reaches_loop (edge_count g + 2) g target ∅ [start]) /\
  (reaches_group g start target = true <-> rtc (child g) start target).
Proof.
  assert (is_Some (reaches_loop (edge_count g + 2) g target ∅ [start])) as Hsome.
  { apply reaches_loop_terminates. unfold pending, edge_count. rewrite (filter_all (.∉ ∅)) by set_solver. cbn. lia. }
  split; [done|]. unfold reaches_group. destruct Hsome as [[] Hb]; rewrite Hb; cbn [default]; unfold id.
  - split; [|done]. intros _. apply reaches_loop_sound in Hb as (a & ->%list_elem_of_singleton & Hr). done.
  - split; [done|]. intros Hr. exfalso. eapply reaches_loop_complete; [|exact Hb|right; by left|exact Hr]. split; set_solver.
Qed.

(** ** The graph stays acyclic *)

Section one_more_edge.
Context (R : N -> N -> Prop) (c m : N).

#[local] Abbreviation R' := (fun a b => R a b \/ (a = c /\ b = m)).

Lemma rtc_one_more x y : rtc R' x y -> rtc R x y \/ (rtc R x c /\ rtc R m y).
Proof.
  induction 1 as [x|x z y [Hxz|[-> ->]] _ IH]; [by left| |].
  - destruct IH as [?|[? ?]]; [left; by eapply rtc_l|right; split; [by eapply rtc_l|done]].
  - right. destruct IH as [?|[? ?]]; (split; [apply rtc_refl|done]).
Qed.

Lemma tc_first (Q : N -> N -> Prop) x y : tc Q x y -> exists z, Q x z /\ rtc Q z y.
Proof. intros Hq. inversion Hq as [? ? Hxy|? z ? Hxz Hzy]; subst; [by exists y|exists z; split; [done|by apply tc_rtc]]. Qed.

Lemma first_tc (Q : N -> N -> Prop) x z y : Q x z -> rtc Q z y -> tc Q x y.
Proof. intros Hxz Hzy. eapply tc_rtc_r; [by apply tc_once|done]. Qed.

Lemma acyclic_one_more : (forall x, ~ tc R x x) -> ~ rtc R m c -> forall x, ~ tc R' x x.
Proof.
  intros Hac Hmc x (z & [Hxz|[-> ->]] & Hzx)%tc_first; apply rtc_one_more in Hzx as [Hzx|[Hzc Hmx]].
  - apply (Hac x). by eapply first_tc.
  - apply Hmc. etransitivity; [exact Hmx|]. by eapply rtc_l.
  - done.
  - done.
Qed.

End one_more_edge.

(** Edges counted per containing group. *)
Definition edges_total (m : gmap N (gset N)) : N := map_fold (fun _ s n => N.of_nat (size s) + n) 0 m.

Lemma edges_total_insert k s m : edges_total (<[k := s]> m) = N.of_nat (size s) + edges_total (delete k m).
Proof.
  unfold edges_total. rewrite <- insert_delete_eq, map_fold_insert_L; [done|lia|apply lookup_delete_eq].
Qed.

Lemma edges_total_delete k m : edges_total m = N.of_nat (size (default ∅ (m !! k))) + edges_total (delete k m).
Proof.
  destruct (m !! k) as [s|] eqn:Hk; cbn.
  - rewrite <- (insert_id m k s) at 1 by done. apply edges_total_insert.
  - by rewrite delete_id, size_empty.
Qed.

Record graph_ok (g : GroupGraph) : Prop := {
  ok_registered : dom (members g) ⊆ groups g;
  ok_acyclic : forall x, ~ tc (edge g) x x;
  ok_count : membership_count g = edges_total (members g);
  ok_bounds : N.of_nat (size (groups g)) <= MAX_GROUPS /\ membership_count g <= MAX_MEMBERSHIPS;
}.

Lemma edge_source g a b : edge g a b -> a ∈ dom (members g).
Proof. unfold edge, members_of. intros Hb. apply elem_of_dom. destruct (members g !! a); [done|set_solver]. Qed.

(** Between registered groups, following registered members loses nothing. *)
Lemma rtc_edge_child g a c : graph_ok g -> c ∈ groups g -> rtc (edge g) a c -> rtc (child g) a c.
Proof.
  intros Hg Hc Hr. induction Hr as [|a b c Hab Hbc IH]; [done|]. eapply rtc_l; [|by apply IH]. split; [done|].
  inversion Hbc as [|? d ? Hbd]; subst; [done|]. by apply (ok_registered g Hg), (edge_source g b d).
Qed.

Inductive GroupCommand :=
| RegisterGroup (group : GroupId)
| AddMember (containing : GroupId) (member : PrincipalId)
| RemoveMember (containing : GroupId) (member : PrincipalId).

Definition group_command (c : GroupCommand) : SE GroupGraph GroupGraphError unit :=
  match c with
  | RegisterGroup group => _ ← register_group group; mret tt
  | AddMember containing member => _ ← add_member containing member; mret tt
  | RemoveMember containing member => _ ← remove_member containing member; mret tt
  end.

Definition after_commands (cs : list GroupCommand) (g : GroupGraph) : GroupGraph :=
  foldl (fun g c => snd (group_command c g)) g cs.

Definition set_members (g : GroupGraph) (c : GroupId) (s : gset PrincipalId) (count : N) : GroupGraph :=
  {| groups := groups g; members := <[c := s]> (members g); membership_count := count |}.

Lemma edge_set_members g c s count a b : edge (set_members g c s count) a b <-> if decide (a = c) then b ∈ s else edge g a b.
Proof.
  unfold edge, members_of, set_members. cbn. case_decide as Hac; [subst; by rewrite lookup_insert_eq|by rewrite lookup_insert_ne].
Qed.

Lemma set_members_ok g c s count :
  graph_ok g -> c ∈ groups g -> (forall x, ~ tc (edge (set_members g c s count)) x x) ->
  count + N.of_nat (size (members_of g c)) = membership_count g + N.of_nat (size s) -> count <= MAX_MEMBERSHIPS ->
  graph_ok (set_members g c s count).
Proof.
  intros Hg Hc Hac Hn Hmax. split; [|done| |split; [apply (ok_bounds g Hg)|done]].
  - cbn. pose proof (ok_registered g Hg). rewrite dom_insert. set_solver.
  - cbn. rewrite edges_total_insert. pose proof (ok_count g Hg) as Hcount. rewrite (edges_total_delete c) in Hcount.
    unfold members_of in Hn. lia.
Qed.

Lemma register_group_ok group g : graph_ok g -> post (register_group group) g (fun _ g' => graph_ok g').
Proof.
  intros Hg. pose proof (ok_bounds g Hg) as [Hsize Hm]. unfold register_group. apply post_get_bind.
  destruct (_ && _) eqn:Eg; [by apply post_raise|]. apply post_modify_bind, post_ret.
  split; cbn; [pose proof (ok_registered g Hg); set_solver|apply (ok_acyclic g Hg)|apply (ok_count g Hg)|]. split; [|done].
  destruct (decide (group ∈ groups g)) as [Hin|Hni].
  - by replace ({[group]} ∪ groups g) with (groups g) by set_solver.
  - rewrite bool_decide_eq_false_2 in Eg by done. cbn in Eg. bool_cases. rewrite size_union, size_singleton by set_solver. lia.
Qed.

Lemma add_member_ok c m g : graph_ok g -> post (add_member c m) g (fun _ g' => graph_ok g').
Proof.
  intros Hg. unfold add_member. apply post_get_bind. apply post_lift_bind; [|done]. intros [] Hc. unfold require_group in Hc.
  case_bool_decide as Hin; [|done]. unfold group_principal. destruct (N.eqb_spec c m) as [|Hne]; [by apply post_raise|].
  case_bool_decide as Hmem; [by apply post_ret|]. destruct (_ =? MAX_MEMBERSHIPS) eqn:Emax; [by apply post_raise|]. bool_cases.
  destruct (match group_for_principal g m with Some x => reaches_group g x c | None => false end) eqn:Ecy; [by apply post_raise|].
  apply post_modify_bind, post_ret. change (graph_ok (set_members g c ({[m]} ∪ members_of g c) (membership_count g + 1))).
  pose proof (ok_bounds g Hg) as [_ Hm]. apply set_members_ok; [done|done| |rewrite size_union, size_singleton by set_solver; lia|lia].
  assert (~ rtc (edge g) m c) as Hmc.
  { intros Hr. destruct (group_for_principal g m) as [x|] eqn:Egp.
    - apply group_for_principal_Some in Egp as [-> _]. apply (rtc_edge_child g m c Hg Hin) in Hr.
      apply (proj2 (reaches_group_exact g m c)) in Hr. congruence.
    - inversion Hr as [|? b ? Hmb]; subst; [done|]. apply edge_source, (ok_registered g Hg) in Hmb.
      rewrite (proj2 (group_for_principal_Some g m m)) in Egp; done. }
  intros x Hx. apply (acyclic_one_more (edge g) c m (ok_acyclic g Hg) Hmc x).
  eapply tc_congruence with (f := fun y => y) in Hx; [exact Hx|]. intros a b Hab. apply edge_set_members in Hab.
  case_decide; [subst; set_solver|by left].
Qed.

Lemma remove_member_ok c m g : graph_ok g -> post (remove_member c m) g (fun _ g' => graph_ok g').
Proof.
  intros Hg. unfold remove_member. apply post_get_bind. apply post_lift_bind; [|done]. intros [] Hc. unfold require_group in Hc.
  case_bool_decide as Hin; [|done]. case_bool_decide as Hmem; [|by apply post_ret].
  apply post_modify_bind, post_ret. change (graph_ok (set_members g c (members_of g c ∖ {[m]}) (membership_count g - 1))).
  pose proof (ok_bounds g Hg) as [_ Hm]. assert (size (members_of g c) = S (size (members_of g c ∖ {[m]}))) as Hsz.
  { rewrite (union_difference_L {[m]} (members_of g c)) at 1 by set_solver. rewrite size_union, size_singleton by set_solver. done. }
  pose proof (ok_count g Hg) as Hcount. rewrite (edges_total_delete c) in Hcount. fold (members_of g c) in Hcount.
  apply set_members_ok; [done|done| |lia|lia].
  intros x Hx. apply (ok_acyclic g Hg x). eapply tc_congruence with (f := fun y => y) in Hx; [exact Hx|].
  intros a b Hab. apply edge_set_members in Hab. case_decide; [subst; unfold edge; set_solver|done].
Qed.

Lemma group_command_ok c g : graph_ok g -> post (group_command c) g (fun _ g' => graph_ok g').
Proof.
  intros Hg. destruct c; cbn [group_command]; apply post_bind; eapply post_mono;
    [by apply register_group_ok|intros []; done|by apply add_member_ok|intros []; done|by apply remove_member_ok|intros []; done].
Qed.

Lemma after_commands_ok cs g : graph_ok g -> graph_ok (after_commands cs g).
Proof. revert g. induction cs as [|c cs IH]; intros g Hg; [done|]. cbn. apply IH. by apply group_command_ok. Qed.

(** C35: from an empty graph, every sequence of registrations and membership changes, refused
    ones included, leaves a graph in which no group contains itself through any chain of
    members, memberships are only recorded for registered groups, and the membership count
    is exact and within its bound. *)
Theorem group_graph_acyclic cs :
  let g := after_commands cs graph_default in
  (forall x, ~ tc (edge g) x x) /\ dom (members g) ⊆ groups g /\
  membership_count g = edges_total (members g) /\ membership_count g <= MAX_MEMBERSHIPS.
Proof.
  cbv zeta. assert (graph_ok graph_default) as H0.
  { split; cbn; [set_solver| |done|rewrite size_empty; done]. intros x (z & Hz & _)%tc_first. unfold edge, members_of in Hz. cbn in Hz. set_solver. }
  pose proof (after_commands_ok cs _ H0) as Hg.
  split_and!; [apply (ok_acyclic _ Hg)|apply (ok_registered _ Hg)|apply (ok_count _ Hg)|apply (ok_bounds _ Hg)].
Qed.

(** ** Containing groups *)

Section containing.
Context (g : GroupGraph) (principal : PrincipalId).

(** [a] is a registered group with direct member [b]. *)
Definition contained (b a : N) : Prop := a ∈ groups g /\ edge g a b.

Definition fresh_groups (found : gset N) (member : N) : list N :=
  List.filter (fun group => bool_decide (member ∈ members_of g group) && negb (bool_decide (group ∈ found))) (ascending (groups g)).

Lemma elem_of_fresh_groups found b a : a ∈ fresh_groups found b <-> contained b a /\ a ∉ found.
Proof.
  unfold fresh_groups, contained, edge. rewrite list_elem_of_In, filter_In, <- list_elem_of_In, elem_of_ascending.
  rewrite andb_true_iff, negb_true_iff, bool_decide_eq_true, bool_decide_eq_false. tauto.
Qed.

Lemma fresh_groups_NoDup found b : NoDup (fresh_groups found b).
Proof. apply NoDup_ListNoDup, List.NoDup_filter, NoDup_ListNoDup, ascending_NoDup. Qed.

Record searched (found : gset N) (frontier : list N) : Prop := {
  searched_sound : forall a, a ∈ found -> tc contained principal a;
  searched_frontier : forall a, a ∈ frontier -> a = principal \/ a ∈ found;
  searched_closed : forall b a, b = principal \/ b ∈ found -> contained b a -> a ∈ found \/ b ∈ frontier;
  searched_groups : found ⊆ groups g;
}.

Lemma searched_step found b rest : searched found (b :: rest) ->
  searched (list_to_set (fresh_groups found b) ∪ found) (rev (map group_principal (fresh_groups found b)) ++ rest).
Proof.
  intros [Hs Hf Hc Hg].
  assert (forall a, a ∈ rev (map group_principal (fresh_groups found b)) <-> a ∈ fresh_groups found b) as Hrev.
  { intros a. rewrite list_elem_of_In, <- in_rev, <- list_elem_of_In. unfold group_principal. by rewrite map_id. }
  assert (forall a, a ∈ fresh_groups found b -> tc contained principal a) as Hnew.
  { intros a [Hba _]%elem_of_fresh_groups. destruct (Hf b) as [->|Hb]; [by left|by apply tc_once|]. eapply tc_r; [by apply Hs|done]. }
  split.
  - intros a [Ha%elem_of_list_to_set|Ha]%elem_of_union; auto.
  - intros a [Ha%Hrev|Ha]%elem_of_app; [right; set_solver|]. destruct (Hf a) as [?|?]; [by right|by left|right; set_solver].
  - intros x a Hx Hxa. destruct (decide (a ∈ found)) as [|Hn]; [left; set_solver|].
    destruct (decide (x = b)) as [->|Hxb].
    { left. apply elem_of_union_l, elem_of_list_to_set, elem_of_fresh_groups. done. }
    destruct Hx as [->|[Hx%elem_of_list_to_set|Hx]%elem_of_union].
    + destruct (Hc principal a) as [?|Hin]; [by left|done|done|]. right. set_solver.
    + right. apply elem_of_app. left. by apply Hrev.
    + destruct (Hc x a) as [?|Hin]; [by right|done|done|]. right. set_solver.
  - intros a [Ha%elem_of_list_to_set|Ha]%elem_of_union; [|by apply Hg]. by apply elem_of_fresh_groups in Ha as [[? _] _].
Qed.

Lemma searched_done found : searched found [] -> forall a, a ∈ found <-> tc contained principal a.
Proof.
  intros [Hs _ Hc _] a. split; [apply Hs|].
  assert (forall x y, rtc contained x y -> x ∈ found -> y ∈ found) as Hclosed.
  { induction 1 as [|x y z Hxy _ IH]; [done|]. intros Hx. apply IH. destruct (Hc x y) as [?|[]%elem_of_nil]; [by right|done|done]. }
  intros (z & Hz & Hr)%tc_first. eapply Hclosed; [exact Hr|]. destruct (Hc principal z) as [?|[]%elem_of_nil]; [by left|done|done].
Qed.

Lemma containing_loop_exact fuel found frontier :
  searched found frontier -> (length frontier + size (groups g ∖ found) < fuel)%nat ->
  exists out, containing_loop fuel g found frontier = Some out /\ forall a, a ∈ out <-> tc contained principal a.
Proof.
  revert found frontier. induction fuel as [|fuel IH]; intros found frontier Hs Hf; [lia|]. cbn [containing_loop].
  destruct frontier as [|b rest]; [exists found; split; [done|by apply searched_done]|].
  fold (fresh_groups found b). pose proof (searched_step found b rest Hs) as Hs'. apply IH; [done|].
  rewrite length_app, length_rev, length_map. cbn in Hf.
  enough (length (fresh_groups found b) + size (groups g ∖ (list_to_set (fresh_groups found b) ∪ found)) <= size (groups g ∖ found))%nat by lia.
  rewrite <- (size_list_to_set (C := gset N) (fresh_groups found b)) by apply fresh_groups_NoDup.
  rewrite <- size_union by set_solver. apply subseteq_size.
  intros a [Ha|Ha]%elem_of_union; [|set_solver]. apply elem_of_list_to_set, elem_of_fresh_groups in Ha as [[? _] ?]. set_solver.
Qed.

End containing.

(** The search for the groups containing a principal always terminates, and returns exactly
    the registered groups that contain it directly or through any chain of nested groups. *)
Theorem containing_groups_exact g principal :
  is_Some (containing_loop (size (groups g) + 2) g ∅ [principal]) /\
  forall a, a ∈ containing_groups g principal <-> tc (contained g) principal a.
Proof.
  destruct (containing_loop_exact g principal (size (groups g) + 2) ∅ [principal]) as (out & Hout & Hexact).
  - split; [set_solver|set_solver| |set_solver]. intros b a [->|Hb] _; [right; by left|set_solver].
  - replace (groups g ∖ ∅) with (groups g) by set_solver. cbn. lia.
  - split; [by exists out|]. intros a. unfold containing_groups. rewrite Hout. apply Hexact.
Qed.

(** ** Activation *)

Lemma earliest_spec limits e : earliest limits = Some e ->
  Some e ∈ limits /\ forall x, Some x ∈ limits -> (e <= x)%Z.
Proof.
  unfold earliest. destruct (omap id limits) as [|x rest] eqn:El; [done|]. intros [= <-].
  assert (forall y, y ∈ x :: rest <-> Some y ∈ limits) as Hin.
  { intros y. rewrite <- El, list_elem_of_omap. unfold id. split; [by intros (z & ? & ->)|]. intros Hy. by exists (Some y). }
  assert (foldl Z.min x rest ∈ x :: rest /\ forall y, y ∈ x :: rest -> (foldl Z.min x rest <= y)%Z) as [Hmem Hle].
  { clear. revert x. induction rest as [|z rest IH]; intros x; cbn [foldl]; [split; [by left|by intros y ->%list_elem_of_singleton]|].
    destruct (IH (Z.min x z)) as [Hm Hl]. split.
    - apply elem_of_cons in Hm as [->|Hm]; [destruct (Z.min_spec x z) as [[_ ->]|[_ ->]]; set_solver|set_solver].
    - pose proof (Hl (Z.min x z) ltac:(by left)). intros y [->|[->|Hy]%elem_of_cons]%elem_of_cons; [lia|lia|]. apply Hl. by right. }
  split; [by apply Hin|]. intros y Hy. by apply Hle, Hin.
Qed.

(** A moment lies within every limit the request and its policy impose. *)
Definition within_limits (policy : AccessActivationPolicy) (r : AccessActivationRequest) (t : Z) : Prop :=
  (now r <= t /\ t < now r + Z.of_N (duration r) /\ t < session_expires_at r)%Z /\
  permits (window policy) t = true /\ permits (source_window r) t = true.

Lemma permits_until w now_ t :
  permits w now_ = true -> (now_ <= t)%Z -> (permits w t = true <-> forall e, valid_until w = Some e -> (t < e)%Z).
Proof.
  unfold permits. rewrite !andb_true_iff. intros [Hfrom _] Ht. split.
  - intros [_ Hu] e He. rewrite He in Hu. by apply Z.ltb_lt.
  - intros Hu. split.
    + destruct (valid_from w) as [s|]; [|done]. apply Z.leb_le in Hfrom. apply Z.leb_le. lia.
    + destruct (valid_until w) as [e|]; [|done]. by apply Z.ltb_lt, Hu.
Qed.

(** C36: an accepted activation starts now, lasts a positive time no longer than the policy
    allows, and is in force at a moment exactly when that moment lies within the requested
    duration, the session, the policy's window and the source's window; the requester had
    the required assurance and assignment. *)
Theorem activation_bounded policy r a :
  activate policy r = Ok a ->
  (activated_at a = now r /\ now r < expires_at a <= now r + Z.of_N (maximum_duration policy))%Z /\
  (forall t, (activated_at a <= t < expires_at a)%Z <-> within_limits policy r t) /\
  assurance_rank (minimum_assurance policy) <= assurance_rank (assurance r) /\ source_is_authorized r = true.
Proof.
  unfold activate. intros Ha. apply result_bind_Ok in Ha as ([] & Hv & Ha).
  apply result_bind_Ok in Ha as (req & Hreq%ok_or_Ok & Ha). apply result_bind_Ok in Ha as (e & He%ok_or_Ok & Ha).
  destruct (Z.leb_spec e (now r)) as [|Hpos]; [done|]. injection Ha as <-. cbn.
  unfold validate_activation_request in Hv.
  destruct ((duration r =? 0) || _) eqn:Ed; [done|]. destruct (negb (_ && _ && _)); [done|].
  destruct (assurance_rank _ <? _) eqn:Eas; [done|]. destruct (negb (source_is_authorized r)) eqn:Eauth; [done|].
  destruct (negb _ || negb _ || _) eqn:Ew; [done|]. bool_cases.
  apply earliest_spec in He as [Hin Hle].
  unfold unix_checked_add in Hreq. destruct (Z.of_N (duration r) <=? i64_max)%Z; [|done]. cbn in Hreq.
  destruct (_ <=? _)%Z in Hreq; [|done]. injection Hreq as <-.
  pose proof (Hle _ ltac:(by left)) as Hl1. pose proof (Hle _ ltac:(by right; left)) as Hl2.
  assert (forall x, valid_until (source_window r) = Some x -> (e <= x)%Z) as Hl3 by (intros x Hx; apply Hle; rewrite <- Hx; set_solver).
  assert (forall x, valid_until (window policy) = Some x -> (e <= x)%Z) as Hl4 by (intros x Hx; apply Hle; rewrite <- Hx; set_solver).
  split_and!; [done|done|lia| |done|done].
  intros t. unfold within_limits. split.
  - intros [Ht1 Ht2]. split; [lia|]. split; (eapply permits_until; [eassumption|done|]); intros x Hx; [specialize (Hl4 x Hx)|specialize (Hl3 x Hx)]; lia.
  - intros ((Hn & Hd & Hs) & Hp & Hsrc). split; [done|].
    rewrite (permits_until _ (now r) t) in Hp by done. rewrite (permits_until _ (now r) t) in Hsrc by done.
    repeat (apply elem_of_cons in Hin as [Hin|Hin]; [first [injection Hin as ->; lia|symmetry in Hin; auto]|]). set_solver.
Qed.

(** ** Rights as sets of bits *)

Lemma rights_contains_spec a b : Rights.contains a b = true <-> forall i, N.testbit b i = true -> N.testbit a i = true.
Proof.
  unfold Rights.contains. rewrite N.eqb_eq. split.
  - intros E i Hi. rewrite <- E, N.land_spec in Hi. by apply andb_true_iff in Hi as [? _].
  - intros Hall. apply N.bits_inj. intros i. rewrite N.land_spec. destruct (N.testbit b i) eqn:Eb; [by rewrite Hall|apply andb_false_r].
Qed.

(** Rights granted by either of two grants are exactly those of their union, and a
    restriction by two authorities grants exactly what both grant. *)
Lemma union_contains a b r :
  (exists x y, r = Rights.union x y /\ Rights.contains a x = true /\ Rights.contains b y = true) <->
  Rights.contains (Rights.union a b) r = true.
Proof.
  rewrite rights_contains_spec. unfold Rights.union. setoid_rewrite N.lor_spec. split.
  - intros (x & y & -> & Hx & Hy) i. rewrite N.lor_spec, !orb_true_iff. rewrite rights_contains_spec in Hx, Hy. intros [?|?]; auto.
  - intros Hr. exists (N.land r a), (N.land r b). split_and!.
    + apply N.bits_inj. intros i. rewrite N.lor_spec, !N.land_spec. specialize (Hr i).
      destruct (N.testbit r i), (N.testbit a i), (N.testbit b i); try done. by specialize (Hr eq_refl).
    + apply rights_contains_spec. intros i. rewrite N.land_spec. by intros [_ ?]%andb_true_iff.
    + apply rights_contains_spec. intros i. rewrite N.land_spec. by intros [_ ?]%andb_true_iff.
Qed.

Lemma intersection_contains a b r :
  Rights.contains (Rights.intersection a b) r = true <-> Rights.contains a r = true /\ Rights.contains b r = true.
Proof.
  rewrite !rights_contains_spec. unfold Rights.intersection. setoid_rewrite N.land_spec. setoid_rewrite andb_true_iff. naive_solver.
Qed.

(** An owner set never becomes empty, and each replacement moves its revision on. *)
Lemma replace_owners_Ok self expected o out : replace_owners self expected o = Ok out ->
  expected = owner_revision self /\ owners out = o /\ o <> ∅ /\ owner_revision out = owner_revision self + 1 /\
  N.of_nat (size o) <= MAX_OWNERS.
Proof.
  unfold replace_owners, validate_owners, revision_next. intros Hr. inv_ok. bool_cases. subst. split_and!; done.
Qed.

(** ** An activation cut short by the session *)

Definition sample_policy : AccessActivationPolicy :=
  {| maximum_duration := 100; reason_required := true; minimum_assurance := MultiFactor;
     window := {| valid_from := Some 0%Z; valid_until := None |} |}.

Definition sample_activation_request : AccessActivationRequest :=
  {| operation_id := 1; principal_id := 2; subject := SubjectGroup 3; source_is_authorized := true; identity_revision := 4;
     source_revision := 5; policy_revision := 6; reason := [102; 105; 120]; duration := 60; now := 10; session_expires_at := 50;
     assurance := RecentStepUp; source_window := {| valid_from := None; valid_until := Some 90%Z |} |}.

Definition sample_activation : AccessActivation :=
  {| activation_operation_id := 1; activation_principal_id := 2; activation_subject := SubjectGroup 3;
     activation_identity_revision := 4; activation_source_revision := 5; activation_policy_revision := 6;
     activation_reason := [102; 105; 120]; activated_at := 10; expires_at := 50 |}.

Lemma activation_bounded_witness :
  within_limits sample_policy sample_activation_request 49 /\ ~ within_limits sample_policy sample_activation_request 50.
Proof.
  destruct (activation_bounded sample_policy sample_activation_request sample_activation ltac:(vm_compute; reflexivity)) as (_ & H & _).
  split; [apply (H 49%Z); cbn; lia|intros Hw; apply (H 50%Z) in Hw; cbn in Hw; lia].
Defined.
