(* ===== verification/Routing.v ===== *)
(** Fenced hand-off of metadata scopes between partitions: meshspan-domain/src/routing.rs and
    the delegation of partitioning.rs built on it. *)

From S2P Require Import Prelude Ids.
From Stdlib Require Import String.
From stdpp Require Import prelude list.
#[local] Open Scope N_scope.

Abbreviation PartitionId := N (only parsing).
Abbreviation ScopeId := N (only parsing).

Record HandoffEvidence := { frozen_revision : N; snapshot_digest : bytes }.

#[export] Instance HandoffEvidence_eq_dec : EqDecision HandoffEvidence.
Proof. solve_decision. Defined.

Inductive RouteState :=
| RouteActive
| Preparing (destination : PartitionId)
| Frozen (destination : PartitionId) (evidence : HandoffEvidence).

#[export] Instance RouteState_eq_dec : EqDecision RouteState.
Proof. solve_decision. Defined.

Record ScopeRoute := {
  scope_id : ScopeId;
  source_partition : PartitionId;
  ownership_epoch : N;
  routing_epoch : N;
  state : RouteState;
}.

Inductive RouteError := InvalidTransition | Exhausted.

Definition is_zero_digest (d : bytes) : bool := forallb (fun b => b =? 0) d.

Module Route.

Definition new (scope : ScopeId) (partition : PartitionId) (ownership routing : N) : result RouteError ScopeRoute :=
  if (ownership =? 0) || (routing =? 0) then Err InvalidTransition
  else Ok {| scope_id := scope; source_partition := partition; ownership_epoch := ownership; routing_epoch := routing;
             state := RouteActive |}.

Abbreviation RouteM := (SE ScopeRoute RouteError unit).

Definition set_route (r : ScopeRoute) (source : PartitionId) (ownership routing : N) (s : RouteState) : ScopeRoute :=
  {| scope_id := scope_id r; source_partition := source; ownership_epoch := ownership; routing_epoch := routing; state := s |}.

Definition begin_handoff (destination : PartitionId) (epoch : N) : RouteM :=
  r ← get_state;
  if negb (bool_decide (state r = RouteActive)) || (destination =? source_partition r) || (epoch <=? routing_epoch r)
  then raise InvalidTransition
  else modify_state (fun r => set_route r (source_partition r) (ownership_epoch r) epoch (Preparing destination)).

Definition freeze (epoch : N) (evidence : HandoffEvidence) : RouteM :=
  r ← get_state;
  match state r with
  | Preparing destination =>
      if negb (epoch =? routing_epoch r) || (frozen_revision evidence =? 0) || is_zero_digest (snapshot_digest evidence)
      then raise InvalidTransition
      else modify_state (fun r => set_route r (source_partition r) (ownership_epoch r) (routing_epoch r) (Frozen destination evidence))
  | _ => raise InvalidTransition
  end.

Definition activate (destination : PartitionId) (epoch : N) (installed : HandoffEvidence) : RouteM :=
  r ← get_state;
  match state r with
  | Frozen expected evidence =>
      if negb (destination =? expected) || negb (epoch =? routing_epoch r)
         || negb (frozen_revision installed =? frozen_revision evidence)
         || negb (bool_decide (snapshot_digest installed = snapshot_digest evidence))
      then raise InvalidTransition
      else
        match checked_add u64_max (ownership_epoch r) 1 with
        | None => raise Exhausted
        | Some ownership => modify_state (fun r => set_route r destination ownership (routing_epoch r) RouteActive)
        end
  | _ => raise InvalidTransition
  end.

Definition abort (epoch : N) : RouteM :=
  r ← get_state;
  if bool_decide (state r = RouteActive) || (epoch <=? routing_epoch r) then raise InvalidTransition
  else modify_state (fun r => set_route r (source_partition r) (ownership_epoch r) epoch RouteActive).

Definition permits_write (r : ScopeRoute) (partition : PartitionId) (epoch : N) : bool :=
  match state r with RouteActive | Preparing _ => true | Frozen _ _ => false end
  && (epoch =? routing_epoch r) && (partition =? source_partition r).

Definition signing_payload (r : ScopeRoute) : bytes :=
  ascii_bytes "meshspan.scope-route.v1" ++ Identifier.as_bytes (scope_id r) ++ Identifier.as_bytes (source_partition r) ++
  be_bytes 8 (ownership_epoch r) ++ be_bytes 8 (routing_epoch r) ++
  match state r with
  | RouteActive => [1]
  | Preparing destination => [2] ++ Identifier.as_bytes destination
  | Frozen destination evidence =>
      [3] ++ Identifier.as_bytes destination ++ be_bytes 8 (frozen_revision evidence) ++ snapshot_digest evidence
  end.

End Route.

(** ** Delegation from the root *)

Definition MAXIMUM_VOTERS_PER_GROUP : N := 9.

Inductive MetadataOperationFamily :=
| RootControl | Identity | Authentication | Namespace | Configuration | Audit | StorageCatalogue | WorkFamily.

#[export] Instance MetadataOperationFamily_eq_dec : EqDecision MetadataOperationFamily.
Proof. solve_decision. Defined.

Definition family_code (f : MetadataOperationFamily) : N :=
  match f with
  | RootControl => 1 | Identity => 2 | Authentication => 3 | Namespace => 4
  | Configuration => 5 | Audit => 6 | StorageCatalogue => 7 | WorkFamily => 8
  end.

(** Keys are sixteen bytes. *)
Inductive MetadataKeyRange := AllKeys | Bounded (start_inclusive end_exclusive : bytes).

Inductive DelegationError :=
| RootControlCannotMove | InvalidKeyRange | InsufficientEligibleMembers | MissingAdmissionEvidence | InvalidRestoredState
| DelegationRoute (e : RouteError).

(** The loop of [less_than] over arrays of one length. *)
Fixpoint less_than (left right : bytes) : bool :=
  match left, right with
  | x :: left', y :: right' => if x <? y then true else if y <? x then false else less_than left' right'
  | _, _ => false
  end.

Definition bounded (start_inclusive end_exclusive : bytes) : result DelegationError MetadataKeyRange :=
  if negb (less_than start_inclusive end_exclusive) then Err InvalidKeyRange else Ok (Bounded start_inclusive end_exclusive).

(** [contains], with the derived order of byte arrays. *)
Definition range_contains (range : MetadataKeyRange) (key : bytes) : bool :=
  match range with
  | AllKeys => true
  | Bounded start_inclusive end_exclusive =>
      bool_decide (bytes_le start_inclusive key) && negb (bool_decide (bytes_le end_exclusive key))
  end.

Record DelegatedMetadataScope := { delegated_scope_id : ScopeId; family : MetadataOperationFamily; key_range : MetadataKeyRange }.

Definition new_scope (scope : ScopeId) (f : MetadataOperationFamily) (range : MetadataKeyRange)
    : result DelegationError DelegatedMetadataScope :=
  if bool_decide (f = RootControl) then Err RootControlCannotMove
  else Ok {| delegated_scope_id := scope; family := f; key_range := range |}.

Record DelegationAdmission := {
  eligible_member_count : N;
  planned_voter_count : N;
  quorum_plan_digest : bytes;
  load_evidence_digest : bytes;
  measured_at : Z;
}.

Definition new_admission (eligible planned : N) (plan_digest load_digest : bytes) (at_ : Z)
    : result DelegationError DelegationAdmission :=
  if (planned =? 0) || (MAXIMUM_VOTERS_PER_GROUP <? planned) || (eligible <? planned) then Err InsufficientEligibleMembers
  else if is_zero_digest plan_digest || is_zero_digest load_digest then Err MissingAdmissionEvidence
  else Ok {| eligible_member_count := eligible; planned_voter_count := planned; quorum_plan_digest := plan_digest;
             load_evidence_digest := load_digest; measured_at := at_ |}.

Record RootDelegatedRoute := {
  root_partition_id : PartitionId;
  scope : DelegatedMetadataScope;
  route : ScopeRoute;
  pending_admission : option DelegationAdmission;
}.

Module Delegation.

Definition new (root : PartitionId) (s : DelegatedMetadataScope) (ownership routing : N) : result DelegationError RootDelegatedRoute :=
  r ← map_err DelegationRoute (Route.new (delegated_scope_id s) root ownership routing);
  Ok {| root_partition_id := root; scope := s; route := r; pending_admission := None |}.

Definition restore (root : PartitionId) (s : DelegatedMetadataScope) (r : ScopeRoute) (pending : option DelegationAdmission)
    : result DelegationError RootDelegatedRoute :=
  if bool_decide (family s = RootControl) then Err RootControlCannotMove
  else if negb (delegated_scope_id s =? scope_id r) then Err InvalidRestoredState
  else
    let handoff_in_progress := negb (bool_decide (state r = RouteActive)) in
    if negb (Bool.eqb handoff_in_progress (bool_decide (is_Some pending))) then Err InvalidRestoredState
    else Ok {| root_partition_id := root; scope := s; route := r; pending_admission := pending |}.

Abbreviation DelegationM := (SE RootDelegatedRoute DelegationError unit).

(** A method of the route, run on the field. *)
Definition on_route (m : SE ScopeRoute RouteError unit) : DelegationM :=
  fun d =>
    let '(result, r) := m (route d) in
    (map_err DelegationRoute result,
     {| root_partition_id := root_partition_id d; scope := scope d; route := r; pending_admission := pending_admission d |}).

Definition set_pending (p : option DelegationAdmission) (d : RootDelegatedRoute) : RootDelegatedRoute :=
  {| root_partition_id := root_partition_id d; scope := scope d; route := route d; pending_admission := p |}.

Definition begin_delegation (destination : PartitionId) (epoch : N) (admission : DelegationAdmission) : DelegationM :=
  _ ← on_route (Route.begin_handoff destination epoch); modify_state (set_pending (Some admission)).

Definition freeze (epoch : N) (evidence : HandoffEvidence) : DelegationM :=
  d ← get_state;
  if bool_decide (pending_admission d = None) then raise MissingAdmissionEvidence
  else on_route (Route.freeze epoch evidence).

Definition activate (destination : PartitionId) (epoch : N) (installed : HandoffEvidence) : DelegationM :=
  d ← get_state;
  if bool_decide (pending_admission d = None) then raise MissingAdmissionEvidence
  else _ ← on_route (Route.activate destination epoch installed); modify_state (set_pending None).

Definition abort (epoch : N) : DelegationM := _ ← on_route (Route.abort epoch); modify_state (set_pending None).

Definition permits_write (d : RootDelegatedRoute) (partition : PartitionId) (epoch : N) : bool :=
  Route.permits_write (route d) partition epoch.

Definition encode_key_range (range : MetadataKeyRange) : bytes :=
  match range with
  | AllKeys => [1]
  | Bounded start_inclusive end_exclusive => [2] ++ start_inclusive ++ end_exclusive
  end.

Definition encode_admission (a : option DelegationAdmission) : bytes :=
  match a with
  | None => [0]
  | Some a =>
      [1] ++ be_bytes 4 (eligible_member_count a) ++ [planned_voter_count a] ++ quorum_plan_digest a ++
      load_evidence_digest a ++ i64_be_bytes (measured_at a)
  end.

Definition signing_payload (d : RootDelegatedRoute) : bytes :=
  ascii_bytes "meshspan.root-delegated-route.v1" ++ [0] ++ Identifier.as_bytes (root_partition_id d) ++
  Identifier.as_bytes (delegated_scope_id (scope d)) ++ [family_code (family (scope d))] ++
  encode_key_range (key_range (scope d)) ++ Route.signing_payload (route d) ++ encode_admission (pending_admission d).

End Delegation.
