(* ===== verification/RoutingFacts.v ===== *)
(** At most one writer per scope, fenced hand-offs, and signatures that bind the whole route. *)

From S2P Require Import Prelude Ids Routing.
From stdpp Require Import prelude list.
#[local] Open Scope N_scope.

(** ** Histories of one route *)

Inductive RouteCommand :=
| BeginHandoff (destination : PartitionId) (epoch : N)
| Freeze (epoch : N) (evidence : HandoffEvidence)
| ActivateRoute (destination : PartitionId) (epoch : N) (installed : HandoffEvidence)
| AbortHandoff (epoch : N).

Definition route_command (c : RouteCommand) : SE ScopeRoute RouteError unit :=
  match c with
  | BeginHandoff destination epoch => Route.begin_handoff destination epoch
  | Freeze epoch evidence => Route.freeze epoch evidence
  | ActivateRoute destination epoch installed => Route.activate destination epoch installed
  | AbortHandoff epoch => Route.abort epoch
  end.

Definition route_after (cs : list RouteCommand) (r : ScopeRoute) : ScopeRoute :=
  foldl (fun r c => snd (route_command c r)) r cs.

Lemma route_after_snoc cs c r : route_after (cs ++ [c]) r = snd (route_command c (route_after cs r)).
Proof. unfold route_after. by rewrite foldl_app. Qed.

Lemma route_after_app cs1 cs2 r : route_after (cs1 ++ cs2) r = route_after cs2 (route_after cs1 r).
Proof. unfold route_after. by rewrite foldl_app. Qed.

(** The legal moves: each refused command is the first. *)
Inductive route_move (r : ScopeRoute) : RouteCommand -> ScopeRoute -> Prop :=
| MoveRefused c : route_move r c r
| MoveBegin destination epoch :
    state r = RouteActive -> destination <> source_partition r -> routing_epoch r < epoch ->
    route_move r (BeginHandoff destination epoch) (Route.set_route r (source_partition r) (ownership_epoch r) epoch (Preparing destination))
| MoveFreeze destination evidence :
    state r = Preparing destination ->
    route_move r (Freeze (routing_epoch r) evidence)
      (Route.set_route r (source_partition r) (ownership_epoch r) (routing_epoch r) (Frozen destination evidence))
| MoveActivate destination evidence :
    state r = Frozen destination evidence ->
    route_move r (ActivateRoute destination (routing_epoch r) evidence)
      (Route.set_route r destination (ownership_epoch r + 1) (routing_epoch r) RouteActive)
| MoveAbort epoch :
    state r <> RouteActive -> routing_epoch r < epoch ->
    route_move r (AbortHandoff epoch) (Route.set_route r (source_partition r) (ownership_epoch r) epoch RouteActive).

Lemma route_command_move c r : route_move r c (snd (route_command c r)).
Proof.
  destruct c as [d e|e ev|d e ev|e]; cbn [route_command];
    unfold Route.begin_handoff, Route.freeze, Route.activate, Route.abort, get_state, mbind, SE_bind.
  - destruct (_ || _) eqn:E; [constructor|]. bool_cases. by apply MoveBegin.
  - destruct (state r) as [|d|d ev'] eqn:Es; [constructor| |constructor]. destruct (_ || _) eqn:E; [constructor|]. bool_cases. subst.
    by apply MoveFreeze.
  - destruct (state r) as [|d'|d' ev'] eqn:Es; [constructor..|]. destruct (_ || _) eqn:E; [constructor|]. bool_cases. subst.
    unfold checked_add. destruct (_ <=? u64_max); [|constructor]. cbn.
    replace ev with ev' by (destruct ev, ev'; cbn in *; congruence). by apply MoveActivate.
  - destruct (_ || _) eqn:E; [constructor|]. bool_cases. by apply MoveAbort.
Qed.

(** ** Revocation *)

(** A hand-off goes somewhere else. *)
Definition route_ok (r : ScopeRoute) : Prop :=
  match state r with RouteActive => True | Preparing d | Frozen d _ => d <> source_partition r end.

(** The write credential of partition [p] at epoch [e] can no longer become valid. *)
Definition revoked (r : ScopeRoute) (p e : N) : Prop :=
  e < routing_epoch r \/
  (e = routing_epoch r /\
   match state r with RouteActive => p <> source_partition r | Preparing _ => False | Frozen d _ => p <> d end).

Lemma permits_write_spec r p e :
  Route.permits_write r p e = true <->
  e = routing_epoch r /\ p = source_partition r /\ match state r with Frozen _ _ => False | _ => True end.
Proof.
  unfold Route.permits_write. rewrite !andb_true_iff, !N.eqb_eq. destruct (state r); naive_solver.
Qed.

Lemma route_move_ok r c r' : route_ok r -> route_move r c r' -> route_ok r'.
Proof. intros Hr []; unfold route_ok in *; cbn; try done; by rewrite H in Hr. Qed.

Lemma revoked_stays r c r' p e : revoked r p e -> route_move r c r' -> revoked r' p e.
Proof.
  intros Hr []; unfold revoked in *; cbn in *; [done|lia| | |lia].
  - rewrite H in Hr. destruct Hr as [?|[_ []]]. by left.
  - rewrite H in Hr. naive_solver.
Qed.

Lemma revoked_denied r p e : route_ok r -> revoked r p e -> Route.permits_write r p e = false.
Proof.
  intros Hok Hr. apply not_true_iff_false. intros (-> & -> & Hs)%permits_write_spec.
  destruct Hr as [Hlt|[_ Hr]]; [lia|]. destruct (state r); done.
Qed.

(** A valid credential either stays valid or is revoked for good. *)
Lemma permitted_move r c r' p e :
  route_ok r -> Route.permits_write r p e = true -> route_move r c r' ->
  Route.permits_write r' p e = true \/ revoked r' p e.
Proof.
  intros Hok (-> & -> & Hs)%permits_write_spec []; unfold revoked; cbn; [left|right; left; lia| | |right; left; lia].
  - by apply permits_write_spec.
  - right. right. split; [done|]. unfold route_ok in Hok. rewrite H in Hok. congruence.
  - by rewrite H in Hs.
Qed.

Lemma permitted_after cs r p e :
  route_ok r -> Route.permits_write r p e = true ->
  route_ok (route_after cs r) /\ (Route.permits_write (route_after cs r) p e = true \/ revoked (route_after cs r) p e).
Proof.
  intros Hok Hp. induction cs as [|c cs IH] using rev_ind; [by split; [|left]|]. rewrite route_after_snoc.
  destruct IH as [Hok' IH]. pose proof (route_command_move c (route_after cs r)) as Hm.
  split; [by eapply route_move_ok|]. destruct IH as [Hp'|Hr]; [by eapply permitted_move|right; by eapply revoked_stays].
Qed.

(** C32: once a partition that could write a scope at some routing epoch can no longer do so,
    no later command makes that credential valid again, whatever hand-offs, aborts and
    returns to the same partition happen: stale writers stay fenced. *)
Theorem revoked_write_never_returns r p e cs more :
  route_ok r -> Route.permits_write r p e = true -> Route.permits_write (route_after cs r) p e = false ->
  Route.permits_write (route_after (cs ++ more) r) p e = false.
Proof.
  intros Hok Hp Hn. destruct (permitted_after cs r p e Hok Hp) as [Hok' [Hp'|Hr]]; [congruence|].
  rewrite route_after_app. generalize (route_after cs r), Hok', Hr. clear. intros r Hok Hr.
  revert r Hok Hr. induction more as [|c more IH]; intros r Hok Hr; [by apply revoked_denied|].
  cbn. apply IH; [eapply route_move_ok|eapply revoked_stays]; eauto using route_command_move.
Qed.

(** ** Changes of owner *)

Lemma route_move_monotone r c r' : route_move r c r' ->
  ownership_epoch r <= ownership_epoch r' /\ routing_epoch r <= routing_epoch r' /\ scope_id r' = scope_id r /\
  (source_partition r' <> source_partition r ->
   ownership_epoch r < ownership_epoch r' /\
   exists evidence, c = ActivateRoute (source_partition r') (routing_epoch r) evidence /\ state r = Frozen (source_partition r') evidence).
Proof. intros []; cbn; split_and!; try done; try lia; intros Hne; try done. split; [lia|]. eauto. Qed.

Lemma route_after_monotone cs r :
  ownership_epoch r <= ownership_epoch (route_after cs r) /\ routing_epoch r <= routing_epoch (route_after cs r).
Proof.
  induction cs as [|c cs IH] using rev_ind; [done|]. rewrite route_after_snoc.
  pose proof (route_move_monotone _ _ _ (route_command_move c (route_after cs r))) as (? & ? & _). lia.
Qed.

(** Ownership of a scope moves only through a fence: whenever the owner before and after a
    history differ, the history contains an activation of the new owner, presented with
    exactly the evidence the source was frozen at, in a state where no partition at all may
    write; the ownership epoch strictly increases and routing epochs never decrease. *)
Theorem writer_changes_through_fence cs r :
  source_partition (route_after cs r) <> source_partition r ->
  ownership_epoch r < ownership_epoch (route_after cs r) /\ routing_epoch r <= routing_epoch (route_after cs r) /\
  exists before epoch evidence later,
    cs = before ++ ActivateRoute (source_partition (route_after cs r)) epoch evidence :: later /\
    state (route_after before r) = Frozen (source_partition (route_after cs r)) evidence /\
    forall p e, Route.permits_write (route_after before r) p e = false.
Proof.
  intros Hne. split; [|split; [apply route_after_monotone|]].
  - induction cs as [|c cs IH] using rev_ind; [done|]. rewrite route_after_snoc in *.
    pose proof (route_move_monotone _ _ _ (route_command_move c (route_after cs r))) as (Hle & _ & _ & Hch).
    pose proof (route_after_monotone cs r) as [? _].
    destruct (decide (source_partition (route_after cs r) = source_partition r)) as [Heq|Hn]; [|specialize (IH Hn); lia].
    destruct Hch as [? _]; [congruence|lia].
  - induction cs as [|c cs IH] using rev_ind; [done|]. rewrite route_after_snoc in *.
    pose proof (route_move_monotone _ _ _ (route_command_move c (route_after cs r))) as (_ & _ & _ & Hch).
    destruct (decide (source_partition (snd (route_command c (route_after cs r))) = source_partition (route_after cs r))) as [Heq|Hn].
    + rewrite Heq in *. destruct (IH Hne) as (before & epoch & ev & later & Hcs & Hst & Hno).
      exists before, epoch, ev, (later ++ [c]). split_and!; [by rewrite Hcs at 1; rewrite <- app_assoc|done|done].
    + destruct (Hch Hn) as (_ & ev & Hc & Hst). exists cs, (routing_epoch (route_after cs r)), ev, [].
      split_and!; [by rewrite Hc at 1|done|]. intros p e. unfold Route.permits_write. by rewrite Hst.
Qed.

(** ** Signatures bind the route *)

Definition evidence_ok (e : HandoffEvidence) : Prop := frozen_revision e < 2 ^ 64 /\ length (snapshot_digest e) = 32%nat.

(** Field widths of the types. *)
Definition route_fits (r : ScopeRoute) : Prop :=
  id_ok (scope_id r) /\ id_ok (source_partition r) /\ ownership_epoch r < 2 ^ 64 /\ routing_epoch r < 2 ^ 64 /\
  match state r with RouteActive => True | Preparing d => id_ok d | Frozen d e => id_ok d /\ evidence_ok e end.

Lemma route_payload_prefix r1 r2 s t : route_fits r1 -> route_fits r2 ->
  Route.signing_payload r1 ++ s = Route.signing_payload r2 ++ t -> r1 = r2 /\ s = t.
Proof.
  destruct r1 as [sc1 p1 o1 e1 st1], r2 as [sc2 p2 o2 e2 st2]. intros (Hs1 & Hp1 & Ho1 & He1 & Hst1) (Hs2 & Hp2 & Ho2 & He2 & Hst2).
  unfold Route.signing_payload. cbn [scope_id source_partition ownership_epoch routing_epoch state] in *. intros E.
  rewrite <- !app_assoc in E. apply app_inv_head in E. do 4 peel E. subst.
  destruct st1 as [|d1|d1 [f1 g1]], st2 as [|d2|d2 [f2 g2]]; cbn [app] in E; try discriminate E;
    apply (f_equal tail) in E; cbn [tail] in E.
  - by subst.
  - peel E. by subst.
  - destruct Hst1 as [? [? ?]], Hst2 as [? [? ?]]. cbn [frozen_revision snapshot_digest] in *. do 3 peel E. by subst.
Qed.

Definition key_range_fits (k : MetadataKeyRange) : Prop :=
  match k with AllKeys => True | Bounded a b => length a = 16%nat /\ length b = 16%nat end.

Definition admission_fits (a : DelegationAdmission) : Prop :=
  eligible_member_count a < 2 ^ 32 /\ planned_voter_count a < 256 /\ length (quorum_plan_digest a) = 32%nat /\
  length (load_evidence_digest a) = 32%nat /\ (i64_min <= measured_at a <= i64_max)%Z.

Definition delegation_fits (d : RootDelegatedRoute) : Prop :=
  id_ok (root_partition_id d) /\ id_ok (delegated_scope_id (scope d)) /\ key_range_fits (key_range (scope d)) /\
  route_fits (route d) /\ (forall a, pending_admission d = Some a -> admission_fits a).

Lemma family_code_inj f g : family_code f = family_code g -> f = g.
Proof. by destruct f, g. Qed.

Lemma key_range_prefix k1 k2 s t : key_range_fits k1 -> key_range_fits k2 ->
  Delegation.encode_key_range k1 ++ s = Delegation.encode_key_range k2 ++ t -> k1 = k2 /\ s = t.
Proof.
  destruct k1 as [|a1 b1], k2 as [|a2 b2]; cbn [Delegation.encode_key_range app]; intros H1 H2 E; try discriminate E;
    apply (f_equal tail) in E; cbn [tail] in E; [done|].
  destruct H1, H2. do 2 peel E. by subst.
Qed.

Lemma admission_inj a1 a2 : (forall a, a1 = Some a -> admission_fits a) -> (forall a, a2 = Some a -> admission_fits a) ->
  Delegation.encode_admission a1 = Delegation.encode_admission a2 -> a1 = a2.
Proof.
  destruct a1 as [[c1 v1 q1 l1 m1]|], a2 as [[c2 v2 q2 l2 m2]|]; cbn [Delegation.encode_admission app];
    intros H1 H2 E; try discriminate E; [|done].
  apply (f_equal tail) in E; cbn [tail] in E. destruct (H1 _ eq_refl) as (? & ? & ? & ? & ?), (H2 _ eq_refl) as (? & ? & ? & ? & ?).
  cbn [eligible_member_count planned_voter_count quorum_plan_digest load_evidence_digest measured_at] in *.
  peel E. injection E as -> E. do 2 peel E. apply i64_be_bytes_inj in E; [|done..]. by subst.
Qed.

(** The payload signed for a delegated route determines the whole record: the root, the
    scope with its family and key range, every route epoch and hand-off state, and the
    admission evidence.  A signature cannot be reused for a different route. *)
Theorem delegation_payload_injective d1 d2 :
  delegation_fits d1 -> delegation_fits d2 -> Delegation.signing_payload d1 = Delegation.signing_payload d2 -> d1 = d2.
Proof.
  destruct d1 as [root1 [id1 f1 k1] r1 a1], d2 as [root2 [id2 f2 k2] r2 a2].
  intros (? & ? & Hk1 & Hr1 & Ha1) (? & ? & Hk2 & Hr2 & Ha2). unfold Delegation.signing_payload.
  cbn [root_partition_id scope route pending_admission delegated_scope_id family key_range] in *. intros E.
  apply app_inv_head, app_inv_head in E. do 2 peel E. apply (f_equal (fun l => (head l, tail l))) in E. cbn [app head tail] in E.
  apply pair_equal_spec in E as [[= Hf%family_code_inj] E]. apply key_range_prefix in E as [-> E]; [|done..].
  apply route_payload_prefix in E as [-> E]; [|done..]. apply admission_inj in E; [|done..]. by subst.
Qed.

(** ** Directory entries *)

Inductive DelegationCommand :=
| BeginDelegation (destination : PartitionId) (epoch : N) (admission : DelegationAdmission)
| FreezeDelegation (epoch : N) (evidence : HandoffEvidence)
| ActivateDelegation (destination : PartitionId) (epoch : N) (installed : HandoffEvidence)
| AbortDelegation (epoch : N).

Definition delegation_command (c : DelegationCommand) : SE RootDelegatedRoute DelegationError unit :=
  match c with
  | BeginDelegation destination epoch admission => Delegation.begin_delegation destination epoch admission
  | FreezeDelegation epoch evidence => Delegation.freeze epoch evidence
  | ActivateDelegation destination epoch installed => Delegation.activate destination epoch installed
  | AbortDelegation epoch => Delegation.abort epoch
  end.

Definition delegation_after (cs : list DelegationCommand) (d : RootDelegatedRoute) : RootDelegatedRoute :=
  foldl (fun d c => snd (delegation_command c d)) d cs.

Record delegation_ok (d : RootDelegatedRoute) : Prop := {
  ok_family : family (scope d) <> RootControl;
  ok_scope : delegated_scope_id (scope d) = scope_id (route d);
  ok_pending : pending_admission d = None <-> state (route d) = RouteActive;
  ok_route : route_ok (route d);
}.

Lemma on_route_run m d : Delegation.on_route m d =
  (map_err DelegationRoute (fst (m (route d))),
   {| root_partition_id := root_partition_id d; scope := scope d; route := snd (m (route d)); pending_admission := pending_admission d |}).
Proof. unfold Delegation.on_route. by destruct (m (route d)). Qed.

(** What each route command does when it succeeds, and that it does nothing when refused. *)
Lemma route_command_result c r :
  let '(res, r') := route_command c r in
  scope_id r' = scope_id r /\ (route_ok r -> route_ok r') /\
  match res with
  | Err _ => r' = r
  | Ok _ =>
      match c with
      | BeginHandoff _ _ | Freeze _ _ => state r' <> RouteActive
      | ActivateRoute _ _ _ | AbortHandoff _ => state r' = RouteActive
      end
  end.
Proof.
  pose proof (route_command_move c r) as Hm. destruct (route_command c r) as [res r'] eqn:Ec. cbn in Hm.
  split; [by apply route_move_monotone in Hm as (_ & _ & ? & _)|]. split; [intros; by eapply route_move_ok|].
  revert Ec. destruct c; cbn [route_command];
    unfold Route.begin_handoff, Route.freeze, Route.activate, Route.abort, get_state, mbind, SE_bind, raise, modify_state;
    repeat case_match; by intros [= <- <-].
Qed.

Lemma delegation_command_ok c d : delegation_ok d -> delegation_ok (snd (delegation_command c d)).
Proof.
  intros Hd. pose proof Hd as [Hf Hs Hp Hr].
  destruct c as [dest epoch adm|epoch ev|dest epoch ev|epoch]; cbn [delegation_command].
  - unfold Delegation.begin_delegation, mbind, SE_bind. rewrite on_route_run.
    pose proof (route_command_result (BeginHandoff dest epoch) (route d)) as Hc. cbn [route_command] in Hc.
    destruct (Route.begin_handoff dest epoch (route d)) as [[[]|e] r']; destruct Hc as (Hsc & Hok & Hst); cbn.
    + split; cbn; [done|congruence|split; [done|congruence]|auto].
    + subst r'. split; cbn; auto.
  - unfold Delegation.freeze, get_state, mbind, SE_bind. case_bool_decide as Hn; [done|]. rewrite on_route_run.
    pose proof (route_command_result (Freeze epoch ev) (route d)) as Hc. cbn [route_command] in Hc.
    destruct (Route.freeze epoch ev (route d)) as [[[]|e] r']; destruct Hc as (Hsc & Hok & Hst); cbn.
    + split; cbn; [done|congruence|split; [done|congruence]|auto].
    + subst r'. split; cbn; auto.
  - unfold Delegation.activate, get_state, mbind, SE_bind. case_bool_decide as Hn; [done|]. rewrite on_route_run.
    pose proof (route_command_result (ActivateRoute dest epoch ev) (route d)) as Hc. cbn [route_command] in Hc.
    destruct (Route.activate dest epoch ev (route d)) as [[[]|e] r']; destruct Hc as (Hsc & Hok & Hst); cbn.
    + split; cbn; [done|congruence|done|auto].
    + subst r'. split; cbn; auto.
  - unfold Delegation.abort, mbind, SE_bind. rewrite on_route_run.
    pose proof (route_command_result (AbortHandoff epoch) (route d)) as Hc. cbn [route_command] in Hc.
    destruct (Route.abort epoch (route d)) as [[[]|e] r']; destruct Hc as (Hsc & Hok & Hst); cbn.
    + split; cbn; [done|congruence|done|auto].
    + subst r'. split; cbn; auto.
Qed.

Lemma delegation_after_ok cs d : delegation_ok d -> delegation_ok (delegation_after cs d).
Proof. revert d. induction cs as [|c cs IH]; intros d Hd; [done|]. cbn. apply IH. by apply delegation_command_ok. Qed.

(** Every directory entry the operations can produce is accepted by [restore] and restored
    to itself, so a restart never strands a delegation: admission evidence is present exactly
    while a hand-off is in progress, and no entry ever delegates root control. *)
Theorem delegation_restorable root s family_ range scope_ ownership routing d0 cs :
  new_scope s family_ range = Ok scope_ -> Delegation.new root scope_ ownership routing = Ok d0 ->
  let d := delegation_after cs d0 in
  Delegation.restore (root_partition_id d) (scope d) (route d) (pending_admission d) = Ok d /\ family (scope d) <> RootControl.
Proof.
  intros Hs Hn. cbv zeta. assert (delegation_ok d0) as H0.
  { unfold new_scope in Hs. case_bool_decide; [done|]. injection Hs as <-. unfold Delegation.new, Route.new in Hn. inv_ok.
    split; cbn; done. }
  apply (delegation_after_ok cs) in H0 as [Hf Hsc Hp Hr]. split; [|done].
  unfold Delegation.restore. rewrite bool_decide_eq_false_2, Hsc, N.eqb_refl by done. cbn [negb].
  destruct (pending_admission (delegation_after cs d0)) as [a|] eqn:Ea.
  - rewrite bool_decide_eq_false_2 by (intros Hst; apply Hp in Hst; done). rewrite bool_decide_eq_true_2 by done. cbn.
    rewrite <- Ea. by destruct (delegation_after cs d0).
  - rewrite bool_decide_eq_true_2 by (by apply Hp). rewrite bool_decide_eq_false_2 by (by intros []). cbn.
    rewrite <- Ea. by destruct (delegation_after cs d0).
Qed.

(** A bounded range holds its first key. *)
Lemma less_than_spec a b : length a = length b -> less_than a b = true <-> bytes_le a b /\ a <> b.
Proof.
  intros Hl. rewrite <- Forall2_same_length in Hl. induction Hl as [|x y a b _ _ IH]; cbn; [naive_solver|].
  destruct (N.ltb_spec x y); [split; [split; [by left|intros [=]; lia]|done]|].
  destruct (N.ltb_spec y x); [split; [done|lia]|]. assert (x = y) as -> by lia. rewrite IH. naive_solver lia.
Qed.

Lemma bounded_nonempty a b range : length a = length b -> bounded a b = Ok range -> range_contains range a = true.
Proof.
  unfold bounded. intros Hl Hb. inv_ok. bool_cases. match goal with HL : less_than _ _ = true |- _ => apply less_than_spec in HL as [Hle Hne]; [|done] end.
  cbn. rewrite bool_decide_eq_true_2 by reflexivity. rewrite bool_decide_eq_false_2; [done|]. intros Hba. by apply Hne, (anti_symm bytes_le).
Qed.

(** ** A scope moved from partition 1 to partition 2 *)

Definition sample_evidence : HandoffEvidence := {| frozen_revision := 7; snapshot_digest := replicate 32 5 |}.
Definition sample_route : ScopeRoute :=
  {| scope_id := 9; source_partition := 1; ownership_epoch := 1; routing_epoch := 1; state := RouteActive |}.
Definition sample_handoff : list RouteCommand :=
  [BeginHandoff 2 2; Freeze 2 sample_evidence; ActivateRoute 2 2 sample_evidence].
Definition sample_return : list RouteCommand :=
  [BeginHandoff 1 3; Freeze 3 sample_evidence; ActivateRoute 1 3 sample_evidence].

(** Even after the scope returns to partition 1, its old credential is refused. *)
Lemma revoked_write_never_returns_witness :
  source_partition (route_after (sample_handoff ++ sample_return) sample_route) = 1 /\
  Route.permits_write (route_after (sample_handoff ++ sample_return) sample_route) 1 1 = false.
Proof.
  split; [vm_compute; reflexivity|].
  apply (revoked_write_never_returns sample_route 1 1 sample_handoff sample_return); [exact I|vm_compute; reflexivity..].
Defined.

Lemma writer_changes_through_fence_witness :
  ownership_epoch sample_route < ownership_epoch (route_after sample_handoff sample_route).
Proof. apply (writer_changes_through_fence sample_handoff sample_route). vm_compute. discriminate. Defined.

Definition sample_delegation : RootDelegatedRoute :=
  {| root_partition_id := 1; scope := {| delegated_scope_id := 9; family := Namespace; key_range := AllKeys |};
     route := sample_route; pending_admission := None |}.

Lemma sample_delegation_fits : delegation_fits sample_delegation.
Proof. unfold delegation_fits, id_ok, route_fits. cbn. repeat split; done. Defined.

Lemma delegation_payload_injective_witness : sample_delegation = sample_delegation.
Proof.
  apply (delegation_payload_injective sample_delegation sample_delegation sample_delegation_fits sample_delegation_fits). reflexivity.
Defined.

Lemma delegation_restorable_witness :
  let d := delegation_after [FreezeDelegation 1 sample_evidence; AbortDelegation 4] sample_delegation in
  Delegation.restore (root_partition_id d) (scope d) (route d) (pending_admission d) = Ok d.
Proof.
  apply (delegation_restorable 1 9 Namespace AllKeys {| delegated_scope_id := 9; family := Namespace; key_range := AllKeys |} 1 1
    sample_delegation [FreezeDelegation 1 sample_evidence; AbortDelegation 4]); vm_compute; reflexivity.
Defined.
