(* ===== verification/Federation.v ===== *)
(** Federation between autonomous swarms: the relationship graph (federation_graph.rs), grant
    routes (federation_route.rs), policies and their intersection (federation.rs), grants and the
    classification of disconnected mutations (federation_access.rs), signed acknowledgements
    (federation_mutation.rs), storage allocations (federation_storage.rs) and idempotent replay
    (operation.rs), all of meshspan-domain/src. *)

From S2P Require Import Prelude Ids Access.
From Stdlib Require Import String.
From stdpp Require Import prelude gmap list.
#[local] Open Scope N_scope.

Abbreviation MeshId := N (only parsing).

(** ** Relationship graph *)

Record FederationGraph := {
  governance_parent : gmap MeshId MeshId;
  horizontal : gset (MeshId * MeshId);
}.

Inductive FederationGraphError := SelfRelationship | ParentAlreadyExists | GovernanceCycle.

Module Graph.

Definition new : FederationGraph := {| governance_parent := ∅; horizontal := ∅ |}.

Definition canonical_pair (left right : MeshId) : MeshId * MeshId := if left <=? right then (left, right) else (right, left).

(** The [while let] loop of [is_ancestor]. *)
Fixpoint ancestor_loop (fuel : nat) (parents : gmap MeshId MeshId) (possible_ancestor current : MeshId) : option bool :=
  match fuel with
  | O => None
  | S fuel =>
      match parents !! current with
      | Some parent => if parent =? possible_ancestor then Some true else ancestor_loop fuel parents possible_ancestor parent
      | None => Some false
      end
  end.

(** A walk visits every parented swarm at most once. *)
Definition is_ancestor (g : FederationGraph) (possible_ancestor descendant : MeshId) : bool :=
  default false (ancestor_loop (size (governance_parent g) + 1) (governance_parent g) possible_ancestor descendant).

Definition add_governance (governing subordinate : MeshId) : SE FederationGraph FederationGraphError unit :=
  g ← get_state;
  if governing =? subordinate then raise SelfRelationship
  else
    match governance_parent g !! subordinate with
    | Some existing => if existing =? governing then mret tt else raise ParentAlreadyExists
    | None =>
        if is_ancestor g subordinate governing then raise GovernanceCycle
        else modify_state (fun g => {| governance_parent := <[subordinate := governing]> (governance_parent g); horizontal := horizontal g |})
    end.

Definition add_horizontal (left right : MeshId) : SE FederationGraph FederationGraphError unit :=
  if left =? right then raise SelfRelationship
  else modify_state (fun g => {| governance_parent := governance_parent g;
                                 horizontal := {[canonical_pair left right]} ∪ horizontal g |}).

Definition governing_parent (g : FederationGraph) (subordinate : MeshId) : option MeshId := governance_parent g !! subordinate.

(** The loop of [governance_chain]. *)
Fixpoint chain_loop (fuel : nat) (parents : gmap MeshId MeshId) (current : MeshId) : option (list MeshId) :=
  match fuel with
  | O => None
  | S fuel =>
      match parents !! current with
      | Some parent => rest ← chain_loop fuel parents parent; Some (parent :: rest)
      | None => Some []
      end
  end.

Definition governance_chain (g : FederationGraph) (subordinate : MeshId) : list MeshId :=
  default [] (chain_loop (size (governance_parent g) + 1) (governance_parent g) subordinate).

Definition is_horizontal (g : FederationGraph) (left right : MeshId) : bool :=
  negb (left =? right) && bool_decide (canonical_pair left right ∈ horizontal g).

End Graph.

(** ** Grant routes *)

Definition MAXIMUM_FEDERATION_ROUTE_MESHES : N := 64.

Record FederationGrantRoute := { meshes : list MeshId }.

Inductive FederationGrantRouteError := MissingRecipient | TooDeep | RouteCycle.

Module GrantRoute.

Definition from_meshes (m : list MeshId) : result FederationGrantRouteError FederationGrantRoute :=
  if len m <? 2 then Err MissingRecipient
  else if MAXIMUM_FEDERATION_ROUTE_MESHES <? len m then Err TooDeep
  else if negb (N.of_nat (size (list_to_set m : gset MeshId)) =? len m) then Err RouteCycle
  else Ok {| meshes := m |}.

Definition direct (authority_mesh_id recipient_mesh_id : MeshId) : result FederationGrantRouteError FederationGrantRoute :=
  from_meshes [authority_mesh_id; recipient_mesh_id].

Definition delegate_to (r : FederationGrantRoute) (recipient_mesh_id : MeshId) : result FederationGrantRouteError FederationGrantRoute :=
  from_meshes (meshes r ++ [recipient_mesh_id]).

(** Indexing: [None] where the access would be out of range. *)
Definition authority_mesh_id (r : FederationGrantRoute) : option MeshId := meshes r !! 0%nat.
Definition issuer_mesh_id (r : FederationGrantRoute) : option MeshId :=
  i ← checked_sub (len (meshes r)) 2; nth_N (meshes r) i.
Definition recipient_mesh_id (r : FederationGrantRoute) : option MeshId :=
  i ← checked_sub (len (meshes r)) 1; nth_N (meshes r) i.
Definition downstream_depth (r : FederationGrantRoute) : option N := checked_sub (len (meshes r)) 2.

End GrantRoute.

(** ** Policies *)

Definition DEFAULT_FEDERATION_OFFLINE_DURATION : N := 30 * 24 * 60 * 60 * 1000000.

Record FederatedPrincipal := { home_mesh_id : MeshId; federated_principal_id : PrincipalId }.

Inductive FederationResourceScope :=
| VolumeScope (owner_mesh_id volume_id : N)
| SubtreeScope (owner_mesh_id volume_id root_object_id : N)
| FileScope (owner_mesh_id volume_id object_id : N)
| StorageCapacity (provider_mesh_id : MeshId).

#[export] Instance FederationResourceScope_eq_dec : EqDecision FederationResourceScope.
Proof. solve_decision. Defined.

Definition authority_mesh_id (r : FederationResourceScope) : MeshId :=
  match r with
  | VolumeScope owner _ | SubtreeScope owner _ _ | FileScope owner _ _ => owner
  | StorageCapacity provider => provider
  end.

Inductive FederationPreset := View | Edit | Manage.

Record FederationAccess := { rights : N; access_delegation : bool }.

(** A right is one bit. *)
Definition right_bit (i : N) : N := N.shiftl 1 i.
Definition TRAVERSE : N := right_bit 0.
Definition LIST : N := right_bit 1.
Definition READ_DATA : N := right_bit 2.
Definition CREATE_CHILD : N := right_bit 3.
Definition WRITE_DATA : N := right_bit 4.
Definition APPEND_DATA : N := right_bit 5.
Definition RENAME : N := right_bit 6.
Definition DELETE : N := right_bit 7.
Definition READ_ATTRIBUTES : N := right_bit 8.
Definition WRITE_ATTRIBUTES : N := right_bit 9.

Definition from_preset (p : FederationPreset) : FederationAccess :=
  match p with
  | View => {| rights := foldl Rights.union TRAVERSE [LIST; READ_DATA; READ_ATTRIBUTES]; access_delegation := false |}
  | Edit => {| rights := foldl Rights.union TRAVERSE
                 [LIST; READ_DATA; CREATE_CHILD; WRITE_DATA; APPEND_DATA; RENAME; DELETE; READ_ATTRIBUTES; WRITE_ATTRIBUTES];
               access_delegation := false |}
  | Manage => {| rights := RIGHTS_ALL; access_delegation := true |}
  end.

Definition access_intersection (a b : FederationAccess) : FederationAccess :=
  {| rights := Rights.intersection (rights a) (rights b); access_delegation := access_delegation a && access_delegation b |}.

Record StorageParticipation := { counts_towards_protection : bool; serves_reads : bool }.

Definition participation_intersection (a b : StorageParticipation) : StorageParticipation :=
  {| counts_towards_protection := counts_towards_protection a && counts_towards_protection b;
     serves_reads := serves_reads a && serves_reads b |}.

Definition earliest_duration (left right : option N) : option N :=
  match left, right with
  | Some l, Some r => if l <=? r then Some l else Some r
  | Some d, None | None, Some d => Some d
  | None, None => None
  end.

Record NamespaceFederationPolicy := { access : FederationAccess; namespace_offline : option N }.

Definition namespace_intersection (a b : NamespaceFederationPolicy) : NamespaceFederationPolicy :=
  {| access := access_intersection (access a) (access b);
     namespace_offline := earliest_duration (namespace_offline a) (namespace_offline b) |}.

Record StorageFederationPolicy := {
  maximum_storage_bytes : N;
  participation : StorageParticipation;
  storage_delegation : bool;
  storage_offline : option N;
}.

Inductive FederationPolicyError := MissingRestriction | IncompatibleKinds | InvalidStorage.

Definition new_storage_policy (bytes : N) (p : StorageParticipation) (delegation : bool) (offline : option N)
    : result FederationPolicyError StorageFederationPolicy :=
  if bytes =? 0 then Err InvalidStorage
  else Ok {| maximum_storage_bytes := bytes; participation := p; storage_delegation := delegation; storage_offline := offline |}.

Definition storage_intersection (a b : StorageFederationPolicy) : StorageFederationPolicy :=
  {| maximum_storage_bytes := if maximum_storage_bytes a <=? maximum_storage_bytes b then maximum_storage_bytes a else maximum_storage_bytes b;
     participation := participation_intersection (participation a) (participation b);
     storage_delegation := storage_delegation a && storage_delegation b;
     storage_offline := earliest_duration (storage_offline a) (storage_offline b) |}.

Inductive FederationPolicy := NamespacePolicy (p : NamespaceFederationPolicy) | StoragePolicy (p : StorageFederationPolicy).

Definition intersect_pair (effective next : FederationPolicy) : result FederationPolicyError FederationPolicy :=
  match effective, next with
  | NamespacePolicy l, NamespacePolicy r => Ok (NamespacePolicy (namespace_intersection l r))
  | StoragePolicy l, StoragePolicy r => Ok (StoragePolicy (storage_intersection l r))
  | _, _ => Err IncompatibleKinds
  end.

(** [try_fold]. *)
Fixpoint intersect_loop (effective : FederationPolicy) (remaining : list FederationPolicy) : result FederationPolicyError FederationPolicy :=
  match remaining with
  | [] => Ok effective
  | next :: remaining => effective ← intersect_pair effective next; intersect_loop effective remaining
  end.

Definition intersect (policies : list FederationPolicy) : result FederationPolicyError FederationPolicy :=
  match policies with
  | [] => Err MissingRestriction
  | first :: remaining => intersect_loop first remaining
  end.

Definition maximum_offline_duration (p : FederationPolicy) : option N :=
  match p with NamespacePolicy p => namespace_offline p | StoragePolicy p => storage_offline p end.

(** ** Grants *)

Record FederationGrant := {
  grant_id : N;
  relationship_id : N;
  grant_route : FederationGrantRoute;
  upstream_grant_id : option N;
  resource : FederationResourceScope;
  policy : FederationPolicy;
  authority_epoch : N;
  grant_valid_from : Z;
  grant_valid_until : option Z;
}.

Inductive FederationGrantError := InvalidEpoch | InvalidInterval | InvalidResourcePolicy | InvalidRoute | EvidenceMismatch.

(** [checked_sub], then [u64::try_from], then the positivity filter. *)
Definition positive_duration (from until : Z) : option N :=
  let d := (until - from)%Z in
  if ((i64_min <=? d) && (d <=? i64_max) && (0 <? d))%Z then Some (Z.to_N d) else None.

Definition validate_interval (p : FederationPolicy) (from : Z) (until : option Z) : result FederationGrantError unit :=
  match maximum_offline_duration p, until with
  | Some _, None => Err InvalidInterval
  | maximum, Some until =>
      d ← ok_or (positive_duration from until) InvalidInterval;
      if match maximum with Some m => m <? d | None => false end then Err InvalidInterval else Ok tt
  | None, None => Ok tt
  end.

Definition validate_resource_policy (r : FederationResourceScope) (p : FederationPolicy) : result FederationGrantError unit :=
  match r, p with
  | StorageCapacity _, StoragePolicy _ => Ok tt
  | (VolumeScope _ _ | SubtreeScope _ _ _ | FileScope _ _ _), NamespacePolicy _ => Ok tt
  | _, _ => Err InvalidResourcePolicy
  end.

Definition validate_route (r : FederationGrantRoute) (upstream : option N) (res : FederationResourceScope) : result FederationGrantError unit :=
  let is_direct := bool_decide (GrantRoute.downstream_depth r = Some 0) in
  if negb (bool_decide (GrantRoute.authority_mesh_id r = Some (authority_mesh_id res)))
     || negb (Bool.eqb is_direct (bool_decide (upstream = None)))
  then Err InvalidRoute else Ok tt.

Definition new_grant (id relationship : N) (r : FederationGrantRoute) (upstream : option N) (res : FederationResourceScope)
    (p : FederationPolicy) (epoch : N) (from : Z) (until : option Z) : result FederationGrantError FederationGrant :=
  if epoch =? 0 then Err InvalidEpoch
  else
    _ ← validate_route r upstream res;
    _ ← validate_resource_policy res p;
    _ ← validate_interval p from until;
    Ok {| grant_id := id; relationship_id := relationship; grant_route := r; upstream_grant_id := upstream; resource := res;
          policy := p; authority_epoch := epoch; grant_valid_from := from; grant_valid_until := until |}.

Record FederatedMutationEvidence := {
  evidence_grant_id : N;
  evidence_relationship_id : N;
  actor : FederatedPrincipal;
  accepting_mesh_id : MeshId;
  evidence_resource : FederationResourceScope;
  evidence_epoch : N;
  accepted_at : Z;
  required_rights : N;
  storage_bytes : N;
}.

(** [new]: accepted at the actor's own swarm; [new_relayed] is the plain constructor. *)
Definition new_evidence (grant relationship : N) (a : FederatedPrincipal) (res : FederationResourceScope) (epoch : N) (at_ : Z)
    (r bytes : N) : FederatedMutationEvidence :=
  {| evidence_grant_id := grant; evidence_relationship_id := relationship; actor := a; accepting_mesh_id := home_mesh_id a;
     evidence_resource := res; evidence_epoch := epoch; accepted_at := at_; required_rights := r; storage_bytes := bytes |}.

Inductive QuarantineReason := PrincipalInactive | BeforeValidity | GrantExpired | GrantRevoked | OutsideRights | OutsideStorageLimit.
Inductive FederatedMutationAdmission := Admitted_ | Quarantined (reason : QuarantineReason).

Definition validate_evidence_identity (g : FederationGrant) (e : FederatedMutationEvidence) : result FederationGrantError unit :=
  if negb (evidence_grant_id e =? grant_id g)
     || negb (evidence_relationship_id e =? relationship_id g)
     || negb (bool_decide (GrantRoute.recipient_mesh_id (grant_route g) = Some (accepting_mesh_id e)))
     || negb (bool_decide (evidence_resource e = resource g))
     || negb (evidence_epoch e =? authority_epoch g)
  then Err EvidenceMismatch else Ok tt.

Definition classify_policy_use (res : FederationResourceScope) (p : FederationPolicy) (e : FederatedMutationEvidence)
    : result FederationGrantError FederatedMutationAdmission :=
  match res, p with
  | StorageCapacity _, StoragePolicy p =>
      if negb (Rights.is_empty (required_rights e)) || (storage_bytes e =? 0) then Err EvidenceMismatch
      else if maximum_storage_bytes p <? storage_bytes e then Ok (Quarantined OutsideStorageLimit)
      else Ok Admitted_
  | (VolumeScope _ _ | SubtreeScope _ _ _ | FileScope _ _ _), NamespacePolicy p =>
      if Rights.is_empty (required_rights e) || negb (storage_bytes e =? 0) then Err EvidenceMismatch
      else if Rights.contains (rights (access p)) (required_rights e) then Ok Admitted_
      else Ok (Quarantined OutsideRights)
  | _, _ => Err InvalidResourcePolicy
  end.

(** [Option::is_some_and(|limit| at >= limit)]. *)
Definition at_or_after (at_ : Z) (limit : option Z) : bool := match limit with Some l => (l <=? at_)%Z | None => false end.

Definition classify_federated_mutation (g : FederationGrant) (e : FederatedMutationEvidence) (revoked_at : option Z)
    : result FederationGrantError FederatedMutationAdmission :=
  _ ← validate_evidence_identity g e;
  if (accepted_at e <? grant_valid_from g)%Z then Ok (Quarantined BeforeValidity)
  else if at_or_after (accepted_at e) (grant_valid_until g) then Ok (Quarantined GrantExpired)
  else if at_or_after (accepted_at e) revoked_at then Ok (Quarantined GrantRevoked)
  else classify_policy_use (resource g) (policy g) e.

(** ** Signed acknowledgements *)

Record FederatedMutationAcknowledgement := {
  source_operation_id : N;
  evidence : FederatedMutationEvidence;
  payload_digest : bytes;
  signer_generation : N;
  signature : bytes;
}.

Definition append_resource (r : FederationResourceScope) : bytes :=
  match r with
  | VolumeScope owner volume => [1] ++ Identifier.as_bytes owner ++ Identifier.as_bytes volume
  | SubtreeScope owner volume root => [2] ++ Identifier.as_bytes owner ++ Identifier.as_bytes volume ++ Identifier.as_bytes root
  | FileScope owner volume object => [3] ++ Identifier.as_bytes owner ++ Identifier.as_bytes volume ++ Identifier.as_bytes object
  | StorageCapacity provider => [4] ++ Identifier.as_bytes provider
  end.

Definition append_evidence (e : FederatedMutationEvidence) : bytes :=
  Identifier.as_bytes (evidence_grant_id e) ++ Identifier.as_bytes (evidence_relationship_id e) ++
  Identifier.as_bytes (home_mesh_id (actor e)) ++ Identifier.as_bytes (federated_principal_id (actor e)) ++
  Identifier.as_bytes (accepting_mesh_id e) ++ append_resource (evidence_resource e) ++ be_bytes 8 (evidence_epoch e) ++
  i64_be_bytes (accepted_at e) ++ be_bytes 4 (required_rights e) ++ be_bytes 8 (storage_bytes e).

Definition acknowledgement_payload (a : FederatedMutationAcknowledgement) : bytes :=
  ascii_bytes "meshspan.federation.mutation-acknowledgement.v1" ++ Identifier.as_bytes (source_operation_id a) ++
  append_evidence (evidence a) ++ payload_digest a ++ be_bytes 8 (signer_generation a).

(** ** Storage allocations *)

Inductive FederationStorageAction := PutShard | GetShard | ScrubShard | RepairShard | RetireShard | ReclaimShard.

Inductive FederationStorageActionError := UnknownAction.

Definition reserves_capacity (a : FederationStorageAction) : bool := match a with PutShard | RepairShard => true | _ => false end.
Definition action_code (a : FederationStorageAction) : N :=
  match a with PutShard => 1 | GetShard => 2 | ScrubShard => 3 | RepairShard => 4 | RetireShard => 5 | ReclaimShard => 6 end.
Definition action_from_code (code : N) : result FederationStorageActionError FederationStorageAction :=
  match code with
  | 1 => Ok PutShard | 2 => Ok GetShard | 3 => Ok ScrubShard
  | 4 => Ok RepairShard | 5 => Ok RetireShard | 6 => Ok ReclaimShard
  | _ => Err UnknownAction
  end.

Record FederationStorageAllocation := {
  allocation_id : N;
  allocation_grant_id : N;
  provider_node_id : N;
  allocation_target_id : N;
  target_generation : N;
  allocation_maximum_bytes : N;
  allocation_valid_from : Z;
  allocation_valid_until : Z;
}.

Inductive FederationStorageAllocationError := InvalidCapacity | InvalidAllocationInterval.

Definition new_allocation (id grant node target generation maximum : N) (from until : Z)
    : result FederationStorageAllocationError FederationStorageAllocation :=
  if (generation =? 0) || (maximum =? 0) then Err InvalidCapacity
  else if ((from <=? 0) || (until <=? from))%Z then Err InvalidAllocationInterval
  else Ok {| allocation_id := id; allocation_grant_id := grant; provider_node_id := node; allocation_target_id := target;
             target_generation := generation; allocation_maximum_bytes := maximum; allocation_valid_from := from;
             allocation_valid_until := until |}.

Definition is_valid_at (a : FederationStorageAllocation) (now : Z) : bool :=
  ((allocation_valid_from a <=? now) && (now <? allocation_valid_until a))%Z.

(** ** Idempotent operations *)

Record OperationReceipt := {
  receipt_operation_id : N;
  request_digest : bytes;
  result_digest : bytes;
  committed_revision : N;
}.

Inductive OperationDecision := Execute | Replay (receipt : OperationReceipt) | Conflict.

Definition classify_operation (existing : option OperationReceipt) (digest : bytes) : OperationDecision :=
  match existing with
  | None => Execute
  | Some receipt => if bool_decide (request_digest receipt = digest) then Replay receipt else Conflict
  end.
