(* ===== verification/FederationFacts.v ===== *)
(** Federation: governance stays acyclic and its walks terminate, grant routes are exact,
    intersected policies allow exactly what every restriction allows, disconnected mutations
    are admitted only inside the whole chain of authority, and a signed acknowledgement
    determines its evidence. *)

From S2P Require Import Prelude Ids Access AccessFacts Federation.
From stdpp Require Import prelude gmap list relations.
#[local] Open Scope N_scope.

(** ** The governance forest *)

Definition parent_of (parents : gmap N N) (a b : N) : Prop := parents !! a = Some b.
Definition governed (g : FederationGraph) : relation N := parent_of (governance_parent g).
Definition acyclic (parents : gmap N N) : Prop := forall x, ~ tc (parent_of parents) x x.

Lemma parent_of_functional m a b c : parent_of m a b -> parent_of m a c -> b = c.
Proof. unfold parent_of. congruence. Qed.

(** An ancestor of [x] is its parent or an ancestor of its parent. *)
Lemma ancestor_split m x p a : parent_of m x p -> (tc (parent_of m) x a <-> a = p \/ tc (parent_of m) p a).
Proof.
  intros Hp. split.
  - intros Ht. destruct Ht as [x a Ha|x b a Hb Ht]; [left|right]; by rewrite (parent_of_functional _ _ _ _ Hp ltac:(eassumption)).
  - intros [->|Ht]; [by apply tc_once|by eapply tc_l].
Qed.

Lemma no_ancestor m x a : m !! x = None -> ~ tc (parent_of m) x a.
Proof. unfold parent_of. intros Hn Ht. destruct Ht; congruence. Qed.

Lemma walk_step (m : gmap N N) (seen : gset N) x p : acyclic m -> m !! x = Some p ->
  seen ⊆ dom m -> (forall y, y ∈ seen -> tc (parent_of m) y x) ->
  x ∉ seen /\ {[x]} ∪ seen ⊆ dom m /\ (forall y, y ∈ {[x]} ∪ seen -> tc (parent_of m) y p) /\ (size seen < size (dom m))%nat.
Proof.
  intros Ha Hx Hd Hs. assert (x ∉ seen) as Hn by (intros Hin; apply (Ha x); auto).
  assert (x ∈ dom m) as Hxd by (apply elem_of_dom; eauto). split_and!; [done|set_solver| |].
  - intros y [->%elem_of_singleton|Hy]%elem_of_union; [by apply tc_once|]. eapply tc_r; [by apply Hs|done].
  - apply subset_size. set_solver.
Qed.

(** Fuel for a walk that has seen [seen]: the parented swarms not yet on the path, and the root. *)
Definition walk_fuel (m : gmap N N) (seen : gset N) : nat := size (dom m) - size seen.

Lemma chain_loop_exact m : acyclic m -> forall fuel seen x,
  seen ⊆ dom m -> (forall y, y ∈ seen -> tc (parent_of m) y x) -> (walk_fuel m seen < fuel)%nat ->
  exists l, Graph.chain_loop fuel m x = Some l /\ NoDup (x :: l) /\ forall a, a ∈ l <-> tc (parent_of m) x a.
Proof.
  intros Ha. unfold walk_fuel. induction fuel as [|fuel IH]; intros seen x Hd Hs Hf; [lia|]. cbn [Graph.chain_loop].
  destruct (m !! x) as [p|] eqn:Ex.
  - destruct (walk_step m seen x p Ha Ex Hd Hs) as (Hn & Hd' & Hs' & Hlt).
    destruct (IH ({[x]} ∪ seen) p Hd' Hs') as (l & El & Hnd & Hl).
    { rewrite size_union, size_singleton by set_solver. lia. }
    exists (p :: l). rewrite El. split_and!; [done| |].
    + apply NoDup_cons. split; [|done]. rewrite elem_of_cons, Hl. intros Hx. by apply (Ha x), (ancestor_split m x p).
    + intros a. by rewrite elem_of_cons, Hl, (ancestor_split m x p).
  - exists []. split_and!; [done|by apply NoDup_singleton|]. intros a. rewrite elem_of_nil.
    split; [done|]. by intros ?%no_ancestor.
Qed.

Lemma ancestor_loop_exact m a : acyclic m -> forall fuel seen x,
  seen ⊆ dom m -> (forall y, y ∈ seen -> tc (parent_of m) y x) -> (walk_fuel m seen < fuel)%nat ->
  exists b, Graph.ancestor_loop fuel m a x = Some b /\ (b = true <-> tc (parent_of m) x a).
Proof.
  intros Ha. unfold walk_fuel. induction fuel as [|fuel IH]; intros seen x Hd Hs Hf; [lia|]. cbn [Graph.ancestor_loop].
  destruct (m !! x) as [p|] eqn:Ex.
  - destruct (walk_step m seen x p Ha Ex Hd Hs) as (Hn & Hd' & Hs' & Hlt). destruct (N.eqb_spec p a) as [->|Hne].
    + exists true. split; [done|]. split; [|done]. intros _. by apply tc_once.
    + destruct (IH ({[x]} ∪ seen) p Hd' Hs') as (b & Eb & Hb).
      { rewrite size_union, size_singleton by set_solver. lia. }
      exists b. split; [done|]. rewrite Hb, (ancestor_split m x p a) by done. naive_solver.
  - exists false. split; [done|]. split; [done|]. by intros ?%no_ancestor.
Qed.

Lemma is_ancestor_exact g a x : acyclic (governance_parent g) -> Graph.is_ancestor g a x = true <-> tc (governed g) x a.
Proof.
  intros Ha. unfold Graph.is_ancestor, governed.
  destruct (ancestor_loop_exact _ a Ha (size (governance_parent g) + 1) ∅ x) as (b & -> & Hb); [set_solver..| |done].
  unfold walk_fuel. rewrite size_dom. lia.
Qed.

Lemma acyclic_insert m s p : acyclic m -> m !! s = None -> s <> p -> ~ tc (parent_of m) p s -> acyclic (<[s := p]> m).
Proof.
  intros Ha Hs Hne Hp.
  assert (forall x y, tc (parent_of (<[s:=p]> m)) x y -> tc (parent_of m) x y \/ (rtc (parent_of m) x s /\ rtc (parent_of m) p y)) as Hmain.
  { intros x y Ht. induction Ht as [x y H|x y z H Ht IH]; unfold parent_of in H; apply lookup_insert_Some in H as [[<- <-]|[Hn H]].
    - by right.
    - left. by apply tc_once.
    - right. split; [done|]. destruct IH as [Ht'|[_ Hr]]; [by apply tc_rtc|done].
    - destruct IH as [Ht'|[Hr Hr']]; [left; by eapply tc_l|right; split; [by eapply rtc_l|done]]. }
  intros x Ht. destruct (Hmain x x Ht) as [Ht'|[Hxs Hpx]]; [by apply (Ha x)|].
  assert (rtc (parent_of m) p s) as Hr by (by etrans).
  apply rtc_tc in Hr as [->|Hr]; [done|]. by apply Hp.
Qed.

(** ** Histories of relationship changes *)

Inductive federation_command := AddGovernance (governing subordinate : N) | AddHorizontal (left right : N).

Definition federation_step (c : federation_command) : SE FederationGraph FederationGraphError unit :=
  match c with AddGovernance p s => Graph.add_governance p s | AddHorizontal l r => Graph.add_horizontal l r end.

(** A refused change leaves the graph as the code left it. *)
Definition federation_after (cs : list federation_command) : FederationGraph :=
  foldl (fun g c => (federation_step c g).2) Graph.new cs.

Definition federation_ok (g : FederationGraph) : Prop :=
  acyclic (governance_parent g) /\ forall l r, (l, r) ∈ horizontal g -> l < r.

(** [add_governance] run on a graph. *)
Lemma add_governance_run p s g :
  Graph.add_governance p s g =
    if p =? s then (Err SelfRelationship, g)
    else match governance_parent g !! s with
         | Some q => (if q =? p then Ok tt else Err ParentAlreadyExists, g)
         | None =>
             if Graph.is_ancestor g s p then (Err GovernanceCycle, g)
             else (Ok tt, {| governance_parent := <[s := p]> (governance_parent g); horizontal := horizontal g |})
         end.
Proof.
  unfold Graph.add_governance, mbind, SE_bind, get_state. cbn. destruct (p =? s); [done|].
  destruct (governance_parent g !! s) as [q|]; [by destruct (q =? p)|]. by destruct (Graph.is_ancestor g s p).
Qed.

Lemma federation_step_ok c g : federation_ok g -> federation_ok (federation_step c g).2.
Proof.
  intros Hg. pose proof Hg as [Ha Hh]. destruct c as [p s|l r]; cbn [federation_step].
  - rewrite add_governance_run. destruct (N.eqb_spec p s) as [|Hne]; [done|].
    destruct (governance_parent g !! s) as [q|] eqn:Es; [done|].
    destruct (Graph.is_ancestor g s p) eqn:Ea; [done|]. split; [|done]. cbn. apply acyclic_insert; [done|done|congruence|].
    change (parent_of (governance_parent g)) with (governed g). rewrite <- is_ancestor_exact by done. congruence.
  - unfold Graph.add_horizontal. cbn. destruct (N.eqb_spec l r) as [|Hne]; [done|]. split; [done|].
    intros a b [Hin|Hin]%elem_of_union; [|by apply Hh]. apply elem_of_singleton in Hin. revert Hin.
    unfold Graph.canonical_pair. destruct (N.leb_spec l r); intros [= -> ->]; lia.
Qed.

Lemma federation_after_ok cs : federation_ok (federation_after cs).
Proof.
  unfold federation_after. assert (federation_ok Graph.new) as H.
  { split; [|set_solver]. intros x. by apply no_ancestor. }
  revert H. generalize Graph.new. induction cs as [|c cs IH]; intros g Hg; [done|]. cbn. by apply IH, federation_step_ok.
Qed.

Lemma canonical_pair_comm l r : Graph.canonical_pair l r = Graph.canonical_pair r l.
Proof. unfold Graph.canonical_pair. destruct (N.leb_spec l r), (N.leb_spec r l); try done; [f_equal; lia|lia]. Qed.

(** After any history of relationship changes, governance has no cycle, both walks up
    the hierarchy end within one step per parented swarm, a chain lists exactly the
    ancestors, each once, and a new governing edge is refused as a cycle exactly when it
    would close one. *)
Theorem governance_walks_terminate cs :
  let g := federation_after cs in
  (forall x, ~ tc (governed g) x x) /\
  (forall x, Graph.chain_loop (size (governance_parent g) + 1) (governance_parent g) x = Some (Graph.governance_chain g x) /\
             NoDup (x :: Graph.governance_chain g x) /\
             forall a, a ∈ Graph.governance_chain g x <-> tc (governed g) x a) /\
  (forall a x, is_Some (Graph.ancestor_loop (size (governance_parent g) + 1) (governance_parent g) a x)) /\
  (forall p s, fst (Graph.add_governance p s g) = Err GovernanceCycle <->
               p <> s /\ Graph.governing_parent g s = None /\ tc (governed g) p s) /\
  (forall l r, Graph.is_horizontal g l r = Graph.is_horizontal g r l).
Proof.
  intros g. destruct (federation_after_ok cs) as [Ha Hh]. fold g in Ha, Hh.
  assert (walk_fuel (governance_parent g) ∅ < size (governance_parent g) + 1)%nat as Hf
    by (unfold walk_fuel; rewrite size_dom; lia).
  split_and!; [done| | | |].
  - intros x. destruct (chain_loop_exact _ Ha _ ∅ x ltac:(set_solver) ltac:(set_solver) Hf) as (l & El & Hnd & Hl).
    unfold Graph.governance_chain. by rewrite El.
  - intros a x. destruct (ancestor_loop_exact _ a Ha _ ∅ x ltac:(set_solver) ltac:(set_solver) Hf) as (b & Eb & _). by exists b.
  - intros p s. rewrite add_governance_run. unfold Graph.governing_parent. destruct (N.eqb_spec p s) as [|Hne]; [naive_solver|].
    destruct (governance_parent g !! s) as [q|] eqn:Es; [by destruct (q =? p); naive_solver|].
    rewrite <- (is_ancestor_exact g s p Ha). destruct (Graph.is_ancestor g s p); naive_solver.
  - intros l r. unfold Graph.is_horizontal. by rewrite canonical_pair_comm, (N.eqb_sym l r).
Qed.

(** ** Grant routes *)

Definition route_shape (m : list N) : Prop := 2 <= len m <= MAXIMUM_FEDERATION_ROUTE_MESHES /\ NoDup m.

Lemma from_meshes_Ok m r : GrantRoute.from_meshes m = Ok r <-> r = {| meshes := m |} /\ route_shape m.
Proof.
  unfold GrantRoute.from_meshes, route_shape. rewrite <- size_list_to_set_NoDup. unfold len. split.
  - intros E. inv_ok. bool_cases. split_and!; [done|lia|lia|lia].
  - intros [-> [[? ?] E]]. rewrite (proj2 (N.ltb_ge _ _)), (proj2 (N.ltb_ge _ _)), E, N.eqb_refl by done. done.
Qed.

(** A route extended by each recipient in turn. *)
Definition delegate_all (authority recipient : N) (downstream : list N) : result FederationGrantRouteError FederationGrantRoute :=
  foldl (fun r m => route ← r; GrantRoute.delegate_to route m) (GrantRoute.direct authority recipient) downstream.

Lemma route_shape_prefix m k : 2 <= len m -> route_shape (m ++ k) -> route_shape m.
Proof. intros Hm [[_ Hle] [Hnd _]%NoDup_app]. rewrite len_app in Hle. split; [lia|done]. Qed.

Lemma delegate_all_Ok a b ds r :
  delegate_all a b ds = Ok r <-> r = {| meshes := a :: b :: ds |} /\ route_shape (a :: b :: ds).
Proof.
  unfold delegate_all. revert r. induction ds as [|d ds IH] using rev_ind; intros r; [apply from_meshes_Ok|].
  rewrite foldl_app. cbn [foldl]. rewrite result_bind_Ok. setoid_rewrite IH. unfold GrantRoute.delegate_to.
  setoid_rewrite from_meshes_Ok. change (a :: b :: ds ++ [d]) with ((a :: b :: ds) ++ [d]). split.
  - intros (x & [-> _] & -> & H). done.
  - intros [-> H]. eexists. split_and!; [done| |done|done]. apply (route_shape_prefix _ [d]); [|done].
    rewrite !len_cons. lia.
Qed.

(** Delegating a grant downstream succeeds exactly while no swarm repeats and at most 64
    are involved; the route then keeps the original authority first, the last recipient last,
    its immediate predecessor as issuer, and counts one level per extra hop. *)
Theorem delegated_route_exact a b ds :
  (is_ok (delegate_all a b ds) = true <-> NoDup (a :: b :: ds) /\ len ds <= 62) /\
  forall r, delegate_all a b ds = Ok r ->
    GrantRoute.authority_mesh_id r = Some a /\
    GrantRoute.recipient_mesh_id r = last (a :: b :: ds) /\
    GrantRoute.issuer_mesh_id r = last (removelast (a :: b :: ds)) /\
    GrantRoute.downstream_depth r = Some (len ds).
Proof.
  assert (route_shape (a :: b :: ds) <-> NoDup (a :: b :: ds) /\ len ds <= 62) as Hs.
  { unfold route_shape, MAXIMUM_FEDERATION_ROUTE_MESHES. rewrite !len_cons. split; intros [? ?]; split_and!; try done; lia. }
  split.
  - rewrite <- Hs. split.
    + destruct (delegate_all a b ds) as [r|e] eqn:E; [|done]. by apply delegate_all_Ok in E as [_ ?].
    + intros H. by rewrite (proj2 (delegate_all_Ok a b ds _) (conj eq_refl H)).
  - intros r [-> _]%delegate_all_Ok. unfold GrantRoute.recipient_mesh_id, GrantRoute.issuer_mesh_id, GrantRoute.downstream_depth.
    cbn [meshes]. assert (len (a :: b :: ds) = len ds + 2) as -> by (rewrite !len_cons; lia).
    rewrite (proj2 (checked_sub_Some (len ds + 2) 1 (len ds + 1))) by lia.
    rewrite (proj2 (checked_sub_Some (len ds + 2) 2 (len ds))) by lia. cbn [mbind option_bind]. rewrite !nth_N_lookup. split_and!; [done| | |done].
    + rewrite last_lookup. f_equal. unfold len. cbn. lia.
    + rewrite last_lookup, removelast_firstn_len, length_take, lookup_take. case_decide as Hd; [f_equal; unfold len; cbn; lia|].
      cbn in Hd. unfold len in Hd. lia.
Qed.

(** ** Policies denote what they allow *)

(** What a federated peer may ask of a policy. *)
Inductive federated_use :=
| UseRights (requested : N)
| UseBytes (bytes : N)
| UseDelegation
| UseProtection
| UseReads
| UseOffline (duration : N).

Definition within (limit : option N) (d : N) : Prop := match limit with Some l => d <= l | None => True end.

Definition allows (p : FederationPolicy) (u : federated_use) : Prop :=
  match p, u with
  | NamespacePolicy p, UseRights r => Rights.contains (rights (access p)) r = true
  | NamespacePolicy p, UseDelegation => access_delegation (access p) = true
  | NamespacePolicy p, UseOffline d => within (namespace_offline p) d
  | StoragePolicy p, UseBytes n => n <= maximum_storage_bytes p
  | StoragePolicy p, UseDelegation => storage_delegation p = true
  | StoragePolicy p, UseProtection => counts_towards_protection (participation p) = true
  | StoragePolicy p, UseReads => serves_reads (participation p) = true
  | StoragePolicy p, UseOffline d => within (storage_offline p) d
  | _, _ => False
  end.

Definition is_storage (p : FederationPolicy) : bool := match p with NamespacePolicy _ => false | StoragePolicy _ => true end.

Lemma within_earliest a b d : within (earliest_duration a b) d <-> within a d /\ within b d.
Proof. destruct a as [x|], b as [y|]; cbn; [|naive_solver..]. destruct (N.leb_spec x y); cbn; lia. Qed.

Lemma intersect_pair_Ok p q r : intersect_pair p q = Ok r -> is_storage p = is_storage q /\ is_storage r = is_storage q /\
  forall u, allows r u <-> allows p u /\ allows q u.
Proof.
  destruct p as [[[r1 d1] o1]|[b1 [p1 s1] d1 o1]], q as [[[r2 d2] o2]|[b2 [p2 s2] d2 o2]]; intros E; cbn [intersect_pair] in E; inv_ok; split_and!; try done;
    intros [rr|n| | | |t]; cbn; rewrite ?intersection_contains, ?andb_true_iff, ?within_earliest; try tauto.
  destruct (N.leb_spec b1 b2); lia.
Qed.

Lemma intersect_loop_Ok rest : forall p r, intersect_loop p rest = Ok r ->
  Forall (fun q => is_storage q = is_storage p) rest /\ forall u, allows r u <-> allows p u /\ Forall (fun q => allows q u) rest.
Proof.
  induction rest as [|q rest IH]; intros p r E; cbn in E.
  - inv_ok. split; [done|]. intros u. rewrite Forall_nil. tauto.
  - inv_ok. destruct (intersect_pair_Ok _ _ _ H) as (Hk & Hx & Hpq), (IH _ _ H0) as [Hf Hu]. split.
    + constructor; [done|]. eapply Forall_impl; [exact Hf|]. cbn. congruence.
    + intros u. rewrite Hu, Hpq, Forall_cons. tauto.
Qed.

Lemma intersect_loop_kinds rest : forall p, Forall (fun q => is_storage q = is_storage p) rest -> is_ok (intersect_loop p rest) = true.
Proof.
  induction rest as [|q rest IH]; intros p Hf; [done|]. apply Forall_cons in Hf as [Hq Hf]. cbn [intersect_loop].
  destruct (intersect_pair p q) as [r|e] eqn:E; [|by destruct p, q].
  cbn [mbind result_bind]. apply IH. apply intersect_pair_Ok in E as (_ & Hr & _). eapply Forall_impl; [exact Hf|]. cbn. congruence.
Qed.

Lemma intersect_loop_err rest : forall p e, intersect_loop p rest = Err e -> e = IncompatibleKinds.
Proof.
  induction rest as [|q rest IH]; intros p e E; [done|]. cbn [intersect_loop] in E.
  destruct (intersect_pair p q) as [r|e'] eqn:Ep; cbn in E; [by apply (IH r)|]. destruct p, q; cbn in Ep; congruence.
Qed.

Lemma intersect_allows ps p u : intersect ps = Ok p -> allows p u <-> Forall (fun q => allows q u) ps.
Proof.
  destruct ps as [|q ps]; [done|]. cbn [intersect]. intros [_ Hu]%intersect_loop_Ok. by rewrite Hu, Forall_cons.
Qed.

(** C34: intersecting restrictions gives a policy that allows exactly what every one of them
    allows, whether rights, bytes, delegation, protection, reads or time offline; it fails
    only for an empty chain or one that mixes namespace and storage restrictions, never
    inventing authority. *)
Theorem policy_intersection_exact ps :
  match intersect ps with
  | Ok p => forall u, allows p u <-> Forall (fun q => allows q u) ps
  | Err MissingRestriction => ps = []
  | Err IncompatibleKinds => exists p q, p ∈ ps /\ q ∈ ps /\ is_storage p <> is_storage q
  | Err InvalidStorage => False
  end.
Proof.
  destruct (intersect ps) as [p|e] eqn:E; [intros u; by apply intersect_allows|].
  destruct ps as [|q ps]; cbn [intersect] in E; [by injection E as <-|].
  pose proof (intersect_loop_err _ _ _ E) as ->.
  destruct (decide (Forall (fun x => is_storage x = is_storage q) ps)) as [Hf|Hf].
  - apply intersect_loop_kinds in Hf. by rewrite E in Hf.
  - apply not_Forall_Exists in Hf; [|apply _]. apply Exists_exists in Hf as (x & Hx & Hne).
    exists x, q. set_solver.
Qed.

(** ** Admission of disconnected mutations *)

(** The shape of a use: rights without bytes, or bytes without rights. *)
Definition use_of (res : FederationResourceScope) (e : FederatedMutationEvidence) : option federated_use :=
  match res with
  | StorageCapacity _ => if (required_rights e =? 0) && negb (storage_bytes e =? 0) then Some (UseBytes (storage_bytes e)) else None
  | _ => if negb (required_rights e =? 0) && (storage_bytes e =? 0) then Some (UseRights (required_rights e)) else None
  end.

Lemma classify_policy_use_exact res p e : validate_resource_policy res p = Ok tt ->
  classify_policy_use res p e = Ok Admitted_ <-> exists u, use_of res e = Some u /\ allows p u.
Proof.
  intros Hv. unfold classify_policy_use, use_of, Rights.is_empty.
  destruct res, p as [p|p]; try discriminate Hv; clear Hv; destruct (required_rights e =? 0), (storage_bytes e =? 0); cbn; try naive_solver;
    [destruct (Rights.contains _ _) eqn:Ec..|destruct (N.ltb_spec (maximum_storage_bytes p) (storage_bytes e))];
    (split; [discriminate || (intros _; eexists; split; [reflexivity|cbn; lia || done])
           |intros (u & [= <-] & Hu); cbn in Hu; lia || congruence]).
Qed.

(** The evidence names this grant, its relationship, recipient, resource and epoch. *)
Definition authentic (g : FederationGrant) (e : FederatedMutationEvidence) : Prop :=
  evidence_grant_id e = grant_id g /\ evidence_relationship_id e = relationship_id g /\
  GrantRoute.recipient_mesh_id (grant_route g) = Some (accepting_mesh_id e) /\
  evidence_resource e = resource g /\ evidence_epoch e = authority_epoch g.

Lemma validate_evidence_Ok g e u : validate_evidence_identity g e = Ok u <-> authentic g e.
Proof.
  unfold validate_evidence_identity, authentic. destruct u. split.
  - intros E. inv_ok. bool_cases. by split_and!.
  - intros (-> & -> & -> & -> & ->). rewrite !N.eqb_refl, !bool_decide_eq_true_2 by done. done.
Qed.

Lemma at_or_after_false t limit : at_or_after t limit = false <-> forall l, limit = Some l -> (t < l)%Z.
Proof.
  destruct limit as [l|]; cbn; [|naive_solver]. rewrite Z.leb_gt. split; [intros ? ? [= <-]; done|auto].
Qed.

Lemma new_grant_Ok id rel r up res p ep from until g : new_grant id rel r up res p ep from until = Ok g ->
  0 < ep /\ validate_resource_policy res p = Ok tt /\ validate_interval p from until = Ok tt /\
  g = {| grant_id := id; relationship_id := rel; grant_route := r; upstream_grant_id := up; resource := res;
         policy := p; authority_epoch := ep; grant_valid_from := from; grant_valid_until := until |}.
Proof. unfold new_grant. intros E. inv_ok. bool_cases. repeat match goal with u : unit |- _ => destruct u end. split_and!; try done. lia. Qed.

Lemma valid_interval_within p from until u : validate_interval p from (Some until) = Ok u ->
  (from < until)%Z /\ within (maximum_offline_duration p) (Z.to_N (until - from)).
Proof.
  unfold validate_interval, positive_duration. intros E.
  destruct (maximum_offline_duration p) as [m|]; inv_ok;
    (destruct (_ && _)%Z eqn:Eb in H; [|done]); bool_cases; injection H as <-; split; try done; try lia.
Qed.

Lemma allows_offline p d : allows p (UseOffline d) <-> within (maximum_offline_duration p) d.
Proof. by destruct p. Qed.

Lemma classify_policy_use_total res p e : validate_resource_policy res p = Ok tt -> is_Some (use_of res e) ->
  is_ok (classify_policy_use res p e) = true.
Proof.
  unfold classify_policy_use, use_of, Rights.is_empty. intros Hv [u Hu].
  destruct res, p as [p|p]; try discriminate Hv; destruct (required_rights e =? 0), (storage_bytes e =? 0); cbn in *; try discriminate Hu;
    by case_match.
Qed.

Lemma classify_Admitted g e revoked :
  classify_federated_mutation g e revoked = Ok Admitted_ <->
  authentic g e /\ (grant_valid_from g <= accepted_at e)%Z /\
  (forall u, grant_valid_until g = Some u -> (accepted_at e < u)%Z) /\ (forall v, revoked = Some v -> (accepted_at e < v)%Z) /\
  classify_policy_use (resource g) (policy g) e = Ok Admitted_.
Proof.
  unfold classify_federated_mutation. rewrite <- !at_or_after_false, <- (validate_evidence_Ok g e tt), <- Z.ltb_ge.
  destruct (validate_evidence_identity g e) as [[]|]; cbn [mbind result_bind]; [|naive_solver].
  destruct (accepted_at e <? grant_valid_from g)%Z; [naive_solver|].
  destruct (at_or_after (accepted_at e) (grant_valid_until g)), (at_or_after (accepted_at e) revoked); naive_solver.
Qed.


(** ** Signatures bind the evidence *)

Definition resource_fits (r : FederationResourceScope) : Prop :=
  match r with
  | VolumeScope o v => id_ok o /\ id_ok v
  | SubtreeScope o v x | FileScope o v x => id_ok o /\ id_ok v /\ id_ok x
  | StorageCapacity m => id_ok m
  end.

(** Field widths of the types. *)
Definition evidence_fits (e : FederatedMutationEvidence) : Prop :=
  id_ok (evidence_grant_id e) /\ id_ok (evidence_relationship_id e) /\ id_ok (home_mesh_id (actor e)) /\
  id_ok (federated_principal_id (actor e)) /\ id_ok (accepting_mesh_id e) /\ resource_fits (evidence_resource e) /\
  evidence_epoch e < 2 ^ 64 /\ (i64_min <= accepted_at e <= i64_max)%Z /\ required_rights e < 2 ^ 32 /\ storage_bytes e < 2 ^ 64.

Definition acknowledgement_fits (a : FederatedMutationAcknowledgement) : Prop :=
  id_ok (source_operation_id a) /\ evidence_fits (evidence a) /\ length (payload_digest a) = 32%nat /\ signer_generation a < 2 ^ 64.

Lemma append_resource_prefix r1 r2 s t : resource_fits r1 -> resource_fits r2 ->
  append_resource r1 ++ s = append_resource r2 ++ t -> r1 = r2 /\ s = t.
Proof.
  destruct r1, r2; cbn [append_resource resource_fits app]; intros H1 H2 E; try discriminate E;
    apply (f_equal tail) in E; cbn [tail] in E; destruct_and?; repeat (peel E; subst); by subst.
Qed.

Lemma append_evidence_prefix e1 e2 s t : evidence_fits e1 -> evidence_fits e2 ->
  append_evidence e1 ++ s = append_evidence e2 ++ t -> e1 = e2 /\ s = t.
Proof.
  destruct e1 as [g1 r1 [h1 p1] m1 res1 ep1 at1 ri1 b1], e2 as [g2 r2 [h2 p2] m2 res2 ep2 at2 ri2 b2].
  unfold evidence_fits, append_evidence. cbn [evidence_grant_id evidence_relationship_id actor home_mesh_id federated_principal_id
    accepting_mesh_id evidence_resource evidence_epoch accepted_at required_rights storage_bytes].
  intros (? & ? & ? & ? & ? & Hr1 & ? & Ht1 & ? & ?) (? & ? & ? & ? & ? & Hr2 & ? & Ht2 & ? & ?) E.
  do 5 peel E. rewrite <- ?app_assoc in E. apply append_resource_prefix in E as [-> E]; [|done..]. peel E.
  apply app_inj_1 in E as [Et E]; [|by unfold i64_be_bytes; rewrite !length_be_bytes]. apply i64_be_bytes_inj in Et; [|done..].
  do 2 peel E. by subst.
Qed.

(** The bytes an accepting swarm signs determine everything it acknowledges: the source
    operation, the whole evidence with its resource, actor, epoch, time, rights and bytes,
    the payload digest and the signing generation. *)
Theorem acknowledgement_payload_injective a b :
  acknowledgement_fits a -> acknowledgement_fits b -> acknowledgement_payload a = acknowledgement_payload b ->
  source_operation_id a = source_operation_id b /\ evidence a = evidence b /\ payload_digest a = payload_digest b /\
  signer_generation a = signer_generation b.
Proof.
  intros (? & He1 & ? & ?) (? & He2 & ? & ?) E. unfold acknowledgement_payload in E. apply app_inv_head in E. peel E.
  rewrite <- ?app_assoc in E. apply append_evidence_prefix in E as [? E]; [|done..]. peel E.
  by apply (be_bytes_inj 8) in E.
Qed.

(** ** Witnesses *)

Definition sample_policies : list FederationPolicy :=
  [NamespacePolicy {| access := from_preset Edit; namespace_offline := Some DEFAULT_FEDERATION_OFFLINE_DURATION |};
   NamespacePolicy {| access := from_preset View; namespace_offline := None |}].

Definition sample_effective : FederationPolicy :=
  NamespacePolicy {| access := from_preset View; namespace_offline := Some DEFAULT_FEDERATION_OFFLINE_DURATION |}.

Definition sample_grant : FederationGrant :=
  {| grant_id := 5; relationship_id := 6; grant_route := {| meshes := [1; 2] |}; upstream_grant_id := None;
     resource := VolumeScope 1 9; policy := sample_effective; authority_epoch := 3; grant_valid_from := 100;
     grant_valid_until := Some 1000%Z |}.

Definition sample_evidence : FederatedMutationEvidence :=
  new_evidence 5 6 {| home_mesh_id := 2; federated_principal_id := 7 |} (VolumeScope 1 9) 3 200 READ_DATA 0.

Definition sample_acknowledgement : FederatedMutationAcknowledgement :=
  {| source_operation_id := 11; evidence := sample_evidence; payload_digest := replicate 32 1; signer_generation := 1; signature := [] |}.


Lemma acknowledgement_payload_injective_witness : evidence sample_acknowledgement = sample_evidence.
Proof.
  assert (acknowledgement_fits sample_acknowledgement) as H.
  { unfold acknowledgement_fits, evidence_fits, resource_fits, id_ok, i64_min, i64_max. repeat split; try reflexivity; intros [=]. }
  apply (proj1 (proj2 (acknowledgement_payload_injective sample_acknowledgement sample_acknowledgement H H eq_refl))).
Defined.
