(* ===== verification/Name.v ===== *)
(** Rust's [str] (sequences of Unicode scalar values with their UTF-8 bytes, as the standard
    library defines them; lengths, slicing and order are those of the bytes), and the logical
    names of meshspan-filesystem/src/name.rs: limits, components with their comparison key, and
    root-relative paths. *)

From Stdlib Require Import String.
From S2P Require Import Prelude Ids.
From stdpp Require Import prelude list.
#[local] Open Scope N_scope.

(** A [str] is the list of its [chars()]. *)
Abbreviation Str := (list N) (only parsing).

(** A [char]: any code point but a surrogate. *)
Definition scalar (c : N) : Prop := c < 55296 \/ (57344 <= c /\ c < 1114112).
Definition text (s : Str) : Prop := Forall scalar s.

#[export] Instance scalar_dec c : Decision (scalar c).
Proof. unfold scalar. apply _. Defined.

(** [char::encode_utf8]. *)
Definition utf8_char (c : N) : bytes :=
  if c <? 128 then [c]
  else if c <? 2048 then [192 + c / 64; 128 + c mod 64]
  else if c <? 65536 then [224 + c / 4096; 128 + c / 64 mod 64; 128 + c mod 64]
  else [240 + c / 262144; 128 + c / 4096 mod 64; 128 + c / 64 mod 64; 128 + c mod 64].

(** [str::as_bytes] and [str::len]. *)
Definition as_bytes (s : Str) : bytes := concat (map utf8_char s).
Definition str_len (s : Str) : N := len (as_bytes s).

(** [std::str::from_utf8]: shortest forms of scalar values only. *)
Definition continuation (b : N) : bool := (128 <=? b) && (b <? 192).
Fixpoint from_utf8 (b : bytes) : option Str :=
  match b with
  | [] => Some []
  | b0 :: r0 =>
      if b0 <? 128 then cons b0 <$> from_utf8 r0
      else if (194 <=? b0) && (b0 <? 224) then
        match r0 with
        | b1 :: r1 =>
            if continuation b1 then cons ((b0 - 192) * 64 + (b1 - 128)) <$> from_utf8 r1 else None
        | _ => None
        end
      else if (224 <=? b0) && (b0 <? 240) then
        match r0 with
        | b1 :: b2 :: r2 =>
            let c := (b0 - 224) * 4096 + (b1 - 128) * 64 + (b2 - 128) in
            if continuation b1 && continuation b2 && (2048 <=? c) && bool_decide (scalar c)
            then cons c <$> from_utf8 r2 else None
        | _ => None
        end
      else if (240 <=? b0) && (b0 <? 245) then
        match r0 with
        | b1 :: b2 :: b3 :: r3 =>
            let c := (b0 - 240) * 262144 + (b1 - 128) * 4096 + (b2 - 128) * 64 + (b3 - 128) in
            if continuation b1 && continuation b2 && continuation b3 && (65536 <=? c) && bool_decide (scalar c)
            then cons c <$> from_utf8 r3 else None
        | _ => None
        end
      else None
  end.

(** [Ord for str]: the order of the bytes. *)
Definition str_le (a b : Str) : Prop := bytes_le (as_bytes a) (as_bytes b).
Definition str_lt (a b : Str) : Prop := ~ str_le b a.

#[export] Instance str_le_dec : RelDecision str_le.
Proof. intros a b. unfold str_le. apply _. Defined.
#[export] Instance str_lt_dec : RelDecision str_lt.
Proof. intros a b. unfold str_lt. apply _. Defined.

(** [str::is_char_boundary] and [&s[..end]] for an [end] on a boundary. *)
Fixpoint is_char_boundary (s : Str) (i : N) : bool :=
  (i =? 0) ||
  match s with
  | [] => false
  | c :: rest => (len (utf8_char c) <=? i) && is_char_boundary rest (i - len (utf8_char c))
  end.
Fixpoint slice_to (s : Str) (stop : N) : Str :=
  match s with
  | [] => []
  | c :: rest => if stop =? 0 then [] else c :: slice_to rest (stop - len (utf8_char c))
  end.

(** [char::is_control] and [char::is_whitespace]. *)
Definition is_control (c : N) : bool := (c <? 32) || ((127 <=? c) && (c <? 160)).
Definition is_whitespace (c : N) : bool :=
  ((9 <=? c) && (c <=? 13)) || (c =? 32) || (c =? 133) || (c =? 160) || (c =? 5760) ||
  ((8192 <=? c) && (c <=? 8202)) || (c =? 8232) || (c =? 8233) || (c =? 8239) || (c =? 8287) || (c =? 12288).

Fixpoint trim_start (s : Str) : Str :=
  match s with c :: rest => if is_whitespace c then trim_start rest else s | [] => [] end.
Definition trim (s : Str) : Str := rev (trim_start (rev (trim_start s))).

(** [s.split(c).next()]: everything before the first [c]. *)
Fixpoint before (c : N) (s : Str) : Str :=
  match s with [] => [] | x :: rest => if x =? c then [] else x :: before c rest end.

(** [format!("{n}")] of an unsigned integer below [10^20]. *)
Fixpoint decimal_digits (fuel : nat) (n : N) (acc : Str) : Str :=
  match fuel with
  | O => acc
  | S f => let acc' := 48 + n mod 10 :: acc in if n <? 10 then acc' else decimal_digits f (n / 10) acc'
  end.
Definition decimal (n : N) : Str := decimal_digits 20 n [].

(** ** UTF-8 round trip *)

(** The quotients and remainders a character is cut into. *)
Lemma base64_split x : x = 64 * (x / 64) + x mod 64 /\ x mod 64 < 64.
Proof. split; [by apply N.div_mod|by apply N.mod_lt]. Qed.

Lemma from_utf8_char c rest : scalar c -> from_utf8 (utf8_char c ++ rest) = cons c <$> from_utf8 rest.
Proof.
  intros Hc. assert (c < 1114112) as Hmax by (unfold scalar in Hc; lia).
  unfold utf8_char. pose proof (base64_split c) as [E0 H0]. pose proof (base64_split (c / 64)) as [E1 H1].
  pose proof (base64_split (c / 64 / 64)) as [E2 H2].
  replace (c / 4096) with (c / 64 / 64) by (rewrite N.Div0.div_div; done).
  replace (c / 262144) with (c / 64 / 64 / 64) by (rewrite !N.Div0.div_div; done).
  revert E0 H0 E1 H1 E2 H2. generalize (c / 64 / 64 / 64) (c / 64 / 64 mod 64) (c / 64 mod 64) (c mod 64).
  generalize (c / 64 / 64). generalize (c / 64). intros q1 q2 q3 r2 r1 r0 E0 H0 E1 H1 E2 H2.
  destruct (N.ltb_spec c 128) as [L|L]; [cbn [app from_utf8]; by rewrite (proj2 (N.ltb_lt _ _) L)|].
  destruct (N.ltb_spec c 2048) as [L1|L1]; [|destruct (N.ltb_spec c 65536) as [L2|L2]]; cbn [app from_utf8]; unfold continuation.
  all: repeat match goal with
       | |- context [?a <? ?b] => first [rewrite (proj2 (N.ltb_lt a b)) by lia | rewrite (proj2 (N.ltb_ge a b)) by lia]
       | |- context [?a <=? ?b] => first [rewrite (proj2 (N.leb_le a b)) by lia | rewrite (proj2 (N.leb_gt a b)) by lia]
       end; cbn [andb].
  - do 2 f_equal. lia.
  - replace ((224 + q2 - 224) * 4096 + (128 + r1 - 128) * 64 + (128 + r0 - 128)) with c by lia.
    by rewrite (bool_decide_eq_true_2 _ Hc).
  - replace ((240 + q3 - 240) * 262144 + (128 + r2 - 128) * 4096 + (128 + r1 - 128) * 64 + (128 + r0 - 128)) with c by lia.
    by rewrite (bool_decide_eq_true_2 _ Hc).
Qed.

Lemma from_utf8_as_bytes s : text s -> from_utf8 (as_bytes s) = Some s.
Proof. induction 1 as [|c s Hc _ IH]; [done|]. unfold as_bytes. cbn [map concat]. rewrite from_utf8_char by done. fold (as_bytes s). by rewrite IH. Qed.

Lemma as_bytes_inj s t : text s -> text t -> as_bytes s = as_bytes t -> s = t.
Proof. intros Hs Ht E. apply (inj Some). by rewrite <- (from_utf8_as_bytes s), <- (from_utf8_as_bytes t), E. Qed.

Lemma as_bytes_app s t : as_bytes (s ++ t) = as_bytes s ++ as_bytes t.
Proof. unfold as_bytes. by rewrite map_app, concat_app. Qed.

Lemma str_len_cons c s : str_len (c :: s) = len (utf8_char c) + str_len s.
Proof. unfold str_len, as_bytes. cbn [map concat]. by rewrite len_app. Qed.

Lemma utf8_char_len c : 1 <= len (utf8_char c) <= 4.
Proof. unfold utf8_char, len. repeat case_match; cbn [length]; lia. Qed.

Lemma str_len_nil s : str_len s = 0 -> s = [].
Proof. destruct s as [|c s]; [done|]. rewrite str_len_cons. pose proof (utf8_char_len c). lia. Qed.

(** Byte order on texts is a total order whose equality is equality. *)
Lemma str_le_antisymm a b : text a -> text b -> str_le a b -> str_le b a -> a = b.
Proof. intros Ha Hb H1 H2. apply as_bytes_inj; [done..|]. by apply (anti_symm bytes_le). Qed.

Lemma str_lt_irrefl a : ~ str_lt a a.
Proof. unfold str_lt, str_le. intros H. apply H. reflexivity. Qed.

Lemma str_lt_le a b : str_lt a b -> str_le a b.
Proof. unfold str_lt, str_le. intros H. destruct (total bytes_le (as_bytes a) (as_bytes b)); [done|contradiction]. Qed.

Lemma str_lt_trans a b c : str_lt a b -> str_lt b c -> str_lt a c.
Proof. unfold str_lt. intros H1 H2 H3. apply H1. exact (transitivity (R := bytes_le) (str_lt_le _ _ H2) H3). Qed.

Lemma str_trichotomy a b : text a -> text b -> a <> b -> str_lt a b \/ str_lt b a.
Proof.
  intros Ha Hb Hne. destruct (decide (str_lt a b)) as [|H1]; [by left|]. right. intros H2. apply H1. intros H3. apply Hne.
  by apply str_le_antisymm.
Qed.

(** The prefix up to a boundary is a prefix of that many bytes. *)
Lemma slice_to_prefix s i : slice_to s i `prefix_of` s.
Proof. revert i. induction s as [|c s IH]; intros i; cbn [slice_to]; [done|]. case_match; [apply prefix_nil|]. by apply prefix_cons. Qed.

Lemma slice_to_len s i : is_char_boundary s i = true -> str_len (slice_to s i) = i.
Proof.
  revert i. induction s as [|c s IH]; intros i; cbn [is_char_boundary slice_to].
  - rewrite orb_false_r. by intros ->%N.eqb_eq.
  - destruct (N.eqb_spec i 0) as [->|Hi]; [done|]. cbn [orb]. intros [H1%N.leb_le H2]%andb_true_iff.
    rewrite str_len_cons, IH by done. lia.
Qed.

(** Unicode normalisation form C ([unicode-normalization]) and full case folding
    ([unicode-casefold]) are parameters. *)
Class Unicode := { nfc : Str -> Str; case_fold : Str -> Str }.

(** What Unicode says of them: both map texts to texts, and normalising twice changes nothing
    (UAX 15, "Stability of normalised forms"). *)
Class UnicodeLaws `{Unicode} : Prop := {
  nfc_text s : text s -> text (nfc s);
  case_fold_text s : text s -> text (case_fold s);
  nfc_idempotent s : text s -> nfc (nfc s) = nfc s
}.

Definition HARD_MAXIMUM_COMPONENT_BYTES : N := 16 * 1024.
Definition HARD_MAXIMUM_DEPTH : N := 1024.
Definition HARD_MAXIMUM_PATH_BYTES : N := 1024 * 1024.

Inductive CompatibilityProfile := Portable | Extended.
Inductive NamespaceNameError := InvalidLimits | InvalidComponent | PathTooDeep | PathTooLong.

#[export] Instance CompatibilityProfile_eq_dec : EqDecision CompatibilityProfile.
Proof. solve_decision. Defined.

Record NamespaceLimits := {
  profile : CompatibilityProfile;
  maximum_component_bytes : N;
  maximum_depth : N;
  maximum_path_bytes : N
}.

Definition PORTABLE : NamespaceLimits :=
  {| profile := Portable; maximum_component_bytes := 255; maximum_depth := 256; maximum_path_bytes := 4096 |}.
Definition INTERNAL : NamespaceLimits :=
  {| profile := Extended; maximum_component_bytes := HARD_MAXIMUM_COMPONENT_BYTES;
     maximum_depth := HARD_MAXIMUM_DEPTH; maximum_path_bytes := HARD_MAXIMUM_PATH_BYTES |}.

Definition new_limits (p : CompatibilityProfile) (component depth path : N) : result NamespaceNameError NamespaceLimits :=
  if (component =? 0) || (HARD_MAXIMUM_COMPONENT_BYTES <? component) || (depth =? 0) || (HARD_MAXIMUM_DEPTH <? depth)
     || (path <? component) || (HARD_MAXIMUM_PATH_BYTES <? path)
  then Err InvalidLimits
  else Ok {| profile := p; maximum_component_bytes := component; maximum_depth := depth; maximum_path_bytes := path |}.

Record NamespaceComponent := { display : Str; canonical : Str }.

#[export] Instance NamespaceComponent_eq_dec : EqDecision NamespaceComponent.
Proof. solve_decision. Defined.

Definition structurally_invalid (value : Str) : bool :=
  bool_decide (value = []) || bool_decide (value = ascii_bytes ".") || bool_decide (value = ascii_bytes "..")
  || existsb (fun c => is_control c || (c =? 47) || (c =? 92)) value.

(** Device names no Windows client accepts. *)
Definition reserved_stems : list Str :=
  map ascii_bytes ["con"; "prn"; "aux"; "nul";
    "com1"; "com2"; "com3"; "com4"; "com5"; "com6"; "com7"; "com8"; "com9";
    "lpt1"; "lpt2"; "lpt3"; "lpt4"; "lpt5"; "lpt6"; "lpt7"; "lpt8"; "lpt9"]%string.

(** Angle brackets, colon, double quote, bar, question mark and star. *)
Definition ambiguous_character (c : N) : bool := existsb (N.eqb c) [60; 62; 58; 34; 124; 63; 42].

Section naming.
Context `{Unicode}.

Definition portable_name_invalid (value : Str) : bool :=
  negb (bool_decide (value = trim value)) || bool_decide (last value = Some 46)
  || existsb ambiguous_character value
  || bool_decide (case_fold (before 46 value) ∈ reserved_stems).

Definition new_component (value : Str) (limits : NamespaceLimits) : result NamespaceNameError NamespaceComponent :=
  let d := nfc value in
  if structurally_invalid d || (maximum_component_bytes limits <? str_len d)
     || (bool_decide (profile limits = Portable) && portable_name_invalid d)
  then Err InvalidComponent
  else
    let folded := case_fold d in
    let c := nfc folded in
    if bool_decide (c = []) || (maximum_component_bytes limits <? str_len c)
    then Err InvalidComponent
    else Ok {| display := d; canonical := c |}.

Definition from_stored (stored_display stored_canonical : Str) : result NamespaceNameError NamespaceComponent :=
  component ← new_component stored_display INTERNAL;
  if bool_decide (canonical component = stored_canonical) then Ok component else Err InvalidComponent.

End naming.

Definition component_collides (a b : NamespaceComponent) : bool := bool_decide (canonical a = canonical b).

Record NamespacePath := { components : list NamespaceComponent; display_bytes : N; canonical_bytes : N }.

#[export] Instance NamespacePath_eq_dec : EqDecision NamespacePath.
Proof. solve_decision. Defined.

Definition append_component_bytes (current component : N) : result NamespaceNameError N :=
  ok_or (value ← checked_add usize_max current (if current =? 0 then 0 else 1); checked_add usize_max value component) PathTooLong.

(** One turn of the loop that sizes a path. *)
Definition append_sizes (limit : N) (sizes : N * N) (c : NamespaceComponent) : result NamespaceNameError (N * N) :=
  d ← append_component_bytes sizes.1 (str_len (display c));
  k ← append_component_bytes sizes.2 (str_len (canonical c));
  if (limit <? d) || (limit <? k) then Err PathTooLong else Ok (d, k).

Section paths.
Context `{Unicode}.

(** The loop of [from_components] over [values.take(maximum_depth + 1)]. *)
Definition collect_component (limits : NamespaceLimits) (acc : list NamespaceComponent * (N * N)) (value : Str) :
    result NamespaceNameError (list NamespaceComponent * (N * N)) :=
  if len acc.1 =? maximum_depth limits then Err PathTooDeep
  else
    c ← new_component value limits;
    sizes ← append_sizes (maximum_path_bytes limits) acc.2 c;
    Ok (acc.1 ++ [c], sizes).

Definition from_components (values : list Str) (limits : NamespaceLimits) : result NamespaceNameError NamespacePath :=
  acc ← try_fold (collect_component limits) ([], (0, 0))
          (take (N.to_nat (saturating_add usize_max (maximum_depth limits) 1)) values);
  if bool_decide (acc.1 = []) then Err InvalidComponent
  else Ok {| components := acc.1; display_bytes := acc.2.1; canonical_bytes := acc.2.2 |}.

End paths.

Definition from_stored_components (cs : list NamespaceComponent) : result NamespaceNameError NamespacePath :=
  if bool_decide (cs = []) || (HARD_MAXIMUM_DEPTH <? len cs) then Err InvalidComponent
  else
    sizes ← try_fold (append_sizes HARD_MAXIMUM_PATH_BYTES) (0, 0) cs;
    Ok {| components := cs; display_bytes := sizes.1; canonical_bytes := sizes.2 |}.

(** Paths are compared component by component; the components stop at the shorter one. *)
Definition path_collides (a b : NamespacePath) : bool :=
  (len (components a) =? len (components b))
  && forallb (fun '(x, y) => component_collides x y) (zip (components a) (components b)).

(** ** Facts *)

Definition limits_ok (l : NamespaceLimits) : Prop :=
  0 < maximum_component_bytes l <= HARD_MAXIMUM_COMPONENT_BYTES /\ 0 < maximum_depth l <= HARD_MAXIMUM_DEPTH /\
  maximum_component_bytes l <= maximum_path_bytes l <= HARD_MAXIMUM_PATH_BYTES.

Lemma new_limits_ok p c d b l : new_limits p c d b = Ok l -> limits_ok l.
Proof. unfold new_limits. intros Hl. inv_ok. bool_cases. unfold limits_ok. cbn. lia. Qed.

Lemma INTERNAL_ok : limits_ok INTERNAL.
Proof. unfold limits_ok, INTERNAL, HARD_MAXIMUM_COMPONENT_BYTES, HARD_MAXIMUM_DEPTH, HARD_MAXIMUM_PATH_BYTES. cbn. lia. Qed.

(** What every stored name promises. *)
Record component_ok `{Unicode} (c : NamespaceComponent) : Prop := {
  display_text : text (display c);
  canonical_text : text (canonical c);
  display_normal : nfc (display c) = display c;
  canonical_folded : canonical c = nfc (case_fold (display c));
  display_structure : structurally_invalid (display c) = false;
  canonical_nonempty : canonical c <> [];
  display_size : str_len (display c) <= HARD_MAXIMUM_COMPONENT_BYTES;
  canonical_size : str_len (canonical c) <= HARD_MAXIMUM_COMPONENT_BYTES
}.

Section names.
Context `{UnicodeLaws}.

Lemma new_component_ok v l c : text v -> limits_ok l -> new_component v l = Ok c -> component_ok c.
Proof.
  intros Hv [[_ Hc] _]. unfold new_component. intros Hn. inv_ok. bool_cases.
  constructor; cbn [display canonical]; try done; try lia; auto using nfc_text, case_fold_text, nfc_idempotent.
Qed.

Lemma new_component_bounded v l c :
  new_component v l = Ok c -> str_len (display c) <= maximum_component_bytes l /\ str_len (canonical c) <= maximum_component_bytes l.
Proof. unfold new_component. intros Hn. inv_ok. bool_cases. done. Qed.

(** A name that was accepted once is read back from storage as it was. *)
Lemma from_stored_component c : component_ok c -> from_stored (display c) (canonical c) = Ok c.
Proof.
  intros []. unfold from_stored, new_component. rewrite display_normal0, display_structure0. cbn [orb].
  cbn [maximum_component_bytes INTERNAL profile]. rewrite (proj2 (N.ltb_ge _ _) display_size0). cbn [orb].
  rewrite (bool_decide_eq_false_2 (Extended = Portable)) by done. cbn [andb]. rewrite <- canonical_folded0.
  rewrite bool_decide_eq_false_2, (proj2 (N.ltb_ge _ _) canonical_size0) by done. cbn [orb mbind result_bind canonical].
  rewrite bool_decide_eq_true_2 by done. by destruct c.
Qed.

End names.

(** The slash-separated text of a path. *)
Definition tail_joined (l : list Str) : Str := concat (map (cons 47) l).
Definition joined (l : list Str) : Str := match l with [] => [] | x :: rest => x ++ tail_joined rest end.

Lemma str_len_app s t : str_len (s ++ t) = str_len s + str_len t.
Proof. unfold str_len. by rewrite as_bytes_app, len_app. Qed.

Lemma str_len_tail_joined x l : str_len (tail_joined (x :: l)) = 1 + str_len x + str_len (tail_joined l).
Proof. unfold tail_joined. cbn [map concat]. rewrite str_len_app, str_len_cons. reflexivity. Qed.

Lemma append_component_bytes_Ok a b c : append_component_bytes a b = Ok c -> c = a + (if a =? 0 then 0 else 1) + b.
Proof. unfold append_component_bytes. intros (v & Hv & Hc)%ok_or_Ok%bind_Some. inv_ok. done. Qed.

Lemma append_sizes_Ok limit d k c s :
  append_sizes limit (d, k) c = Ok s ->
  s = (d + (if d =? 0 then 0 else 1) + str_len (display c), k + (if k =? 0 then 0 else 1) + str_len (canonical c)) /\
  s.1 <= limit /\ s.2 <= limit.
Proof.
  unfold append_sizes. cbn [fst snd]. intros (d' & Ed & (k' & Ek & E)%result_bind_Ok)%result_bind_Ok.
  apply append_component_bytes_Ok in Ed, Ek. subst. inv_ok. bool_cases. done.
Qed.

Definition nonempty (c : NamespaceComponent) : Prop := display c <> [] /\ canonical c <> [].

Lemma append_sizes_tail limit cs d k sizes :
  try_fold (append_sizes limit) (d, k) cs = Ok sizes -> d <> 0 -> k <> 0 ->
  sizes = (d + str_len (tail_joined (map display cs)), k + str_len (tail_joined (map canonical cs))) /\
  (cs <> [] -> sizes.1 <= limit /\ sizes.2 <= limit).
Proof.
  revert d k. induction cs as [|c cs IH]; intros d k; cbn [try_fold].
  - intros [= <-] ? ?. split; [|done]. change (str_len (tail_joined (map _ []))) with 0. by rewrite !N.add_0_r.
  - intros (s & Hs & E)%result_bind_Ok Hd Hk. cbn [map]. rewrite !str_len_tail_joined.
    apply append_sizes_Ok in Hs as (-> & Hb1 & Hb2). rewrite (proj2 (N.eqb_neq d 0) Hd), (proj2 (N.eqb_neq k 0) Hk) in *.
    apply IH in E as [-> Hb]; [|lia..]. split; [f_equal; lia|]. intros _. destruct cs as [|c' cs]; [|by apply Hb].
    change (str_len (tail_joined (map _ []))) with 0. by rewrite !N.add_0_r.
Qed.

Lemma append_sizes_spec limit cs sizes :
  Forall nonempty cs -> try_fold (append_sizes limit) (0, 0) cs = Ok sizes ->
  sizes = (str_len (joined (map display cs)), str_len (joined (map canonical cs))) /\
  (cs <> [] -> sizes.1 <= limit /\ sizes.2 <= limit).
Proof.
  intros [|c cs' [Hd Hk] _]; cbn [try_fold]; [by intros [= <-]|].
  intros (s & Hs & E)%result_bind_Ok. apply append_sizes_Ok in Hs as (-> & Hb1 & Hb2). cbn [N.eqb] in *. rewrite !N.add_0_l in *.
  apply append_sizes_tail in E as [-> Hb]; [|by intros ?%str_len_nil..].
  cbn [map joined]. rewrite !str_len_app. split; [done|]. intros _. destruct cs'; [|by apply Hb].
  change (str_len (tail_joined (map _ []))) with 0. by rewrite !N.add_0_r.
Qed.

Lemma append_sizes_mono l1 l2 s c s' : l1 <= l2 -> append_sizes l1 s c = Ok s' -> append_sizes l2 s c = Ok s'.
Proof.
  intros Hl. unfold append_sizes. destruct (append_component_bytes s.1 _) as [d|]; [|done].
  destruct (append_component_bytes s.2 _) as [k|]; [|done]. cbn [mbind result_bind]. intros E. inv_ok. bool_cases.
  rewrite !(proj2 (N.ltb_ge _ _)) by lia. done.
Qed.

Lemma try_fold_mono {E A B} (f g : A -> B -> result E A) l a b :
  (forall x y z, f x y = Ok z -> g x y = Ok z) -> try_fold f a l = Ok b -> try_fold g a l = Ok b.
Proof.
  intros Hfg. revert a. induction l as [|x l IH]; intros a; [done|]. cbn [try_fold].
  intros (a' & Ha & Hr)%result_bind_Ok. rewrite (Hfg _ _ _ Ha). by apply IH.
Qed.

Lemma try_fold_snoc {E A B} (f : A -> B -> result E A) l x a b :
  try_fold f a (l ++ [x]) = Ok b <-> exists c, try_fold f a l = Ok c /\ f c x = Ok b.
Proof.
  revert a. induction l as [|y l IH]; intros a; cbn [try_fold app].
  - split; [intros (c & Hc & [= <-])%result_bind_Ok; by exists a|intros (c & [= <-] & Hc); by rewrite Hc].
  - destruct (f a y) as [a'|]; cbn [mbind result_bind]; [apply IH|naive_solver].
Qed.

(** A path as the planners and the replay pass it around. *)
Record path_ok `{Unicode} (p : NamespacePath) : Prop := {
  path_components : Forall component_ok (components p);
  path_stored : from_stored_components (components p) = Ok p
}.

Section path_facts.
Context `{UnicodeLaws}.

Lemma collect_spec l vs cs sizes :
  try_fold (collect_component l) ([], (0, 0)) vs = Ok (cs, sizes) ->
  Forall2 (fun v c => new_component v l = Ok c) vs cs /\
  try_fold (append_sizes (maximum_path_bytes l)) (0, 0) cs = Ok sizes /\ len cs <= maximum_depth l.
Proof.
  revert cs sizes. induction vs as [|v vs IH] using rev_ind; intros cs sizes.
  - intros [= <- <-]. split_and!; [constructor|done|]. unfold len. cbn. lia.
  - intros ([cs0 s0] & (H2 & Hs & Hn)%IH & Hc)%try_fold_snoc. unfold collect_component in Hc. cbn [fst snd] in Hc.
    destruct (N.eqb_spec (len cs0) (maximum_depth l)) as [|Hne]; [done|].
    apply result_bind_Ok in Hc as (c & Hnew & (s & Hsz & E)%result_bind_Ok). apply Ok_inj in E. injection E as <- <-.
    split_and!; [by apply Forall2_app; [|constructor]|apply try_fold_snoc; eauto|].
    rewrite len_app. unfold len in *. cbn. lia.
Qed.

(** A path that was accepted under any limits keeps within them, its recorded sizes are those
    of its slash-separated texts, and it is read back from storage as it was. *)
Lemma from_components_ok vs l p :
  Forall text vs -> limits_ok l -> from_components vs l = Ok p ->
  path_ok p /\ components p <> [] /\ len (components p) <= maximum_depth l /\
  display_bytes p = str_len (joined (map display (components p))) /\
  canonical_bytes p = str_len (joined (map canonical (components p))) /\
  display_bytes p <= maximum_path_bytes l /\ canonical_bytes p <= maximum_path_bytes l.
Proof.
  intros Hvs Hl. unfold from_components. intros ([cs sizes] & (H2 & Hs & Hn)%collect_spec & Hp)%result_bind_Ok.
  cbn [fst snd] in Hp. destruct (bool_decide (cs = [])) eqn:Ene; [done|]. apply bool_decide_eq_false in Ene.
  apply Ok_inj in Hp as <-. cbn [components display_bytes canonical_bytes].
  assert (Forall component_ok cs) as Hok.
  { apply Forall_forall. intros c Hc. apply list_elem_of_lookup in Hc as (i & Hi).
    destruct (Forall2_lookup_r _ _ _ _ _ H2 Hi) as (v & Hv & Hnew). eapply new_component_ok; [|done|exact Hnew].
    rewrite Forall_lookup in Hvs.
    apply lookup_take_Some in Hv as [Hv _]. by apply (Hvs i). }
  assert (Forall nonempty cs) as Hne.
  { eapply Forall_impl; [exact Hok|]. intros c Hc. split; [|by apply canonical_nonempty].
    intros E. pose proof (display_structure c Hc) as Hd. by rewrite E in Hd. }
  destruct (append_sizes_spec _ _ _ Hne Hs) as [-> [Hb1 Hb2]%(fun f => f Ene)].
  split_and!; try done. split; [done|]. cbn [components]. unfold from_stored_components.
  rewrite (bool_decide_eq_false_2 _ Ene). destruct Hl as (_ & Hd & Hpb). rewrite (proj2 (N.ltb_ge _ _)) by lia. cbn [orb].
  erewrite try_fold_mono; [|intros ???; apply (append_sizes_mono (maximum_path_bytes l)); lia|exact Hs]. done.
Qed.

End path_facts.
