(* ===== verification/Directory.v ===== *)
(** The content-addressed directory trie of meshspan-filesystem/src/directory.rs: its nodes and
    their encoding, the in-memory kernel and every operation on it. *)

From Stdlib Require Import String.
From S2P Require Import Prelude Ids Codec Contracts Name.
From stdpp Require Import prelude gmap list.
#[local] Open Scope N_scope.

Definition HASH_NIBBLES : nat := 64.
Definition MAXIMUM_HASH_COLLISION_ENTRIES : N := 8.
Definition MAXIMUM_ENCODED_NODE_BYTES : N := 300 * 1024.

Abbreviation DirectoryNodeDigest := (list N) (only parsing).

Inductive DirectoryEntryKind := Directory | File.

Record DirectoryEntry := {
  name : NamespaceComponent;
  object_id : N;
  object_revision_id : N;
  kind : DirectoryEntryKind;
  generation : N
}.

Inductive DirectoryTrieError :=
| InvalidEntry | StaleEntry | NameConflict | CollisionCapacity | DigestCollision | Corrupt.

Record InternalNode := { depth : N; children : gmap N DirectoryNodeDigest }.
Record LeafNode := { key_hash : bytes; entries : list DirectoryEntry }.
Inductive DirectoryNode := Internal (internal : InternalNode) | Leaf (leaf : LeafNode).

#[export] Instance DirectoryEntryKind_eq_dec : EqDecision DirectoryEntryKind.
Proof. solve_decision. Defined.
#[export] Instance DirectoryEntry_eq_dec : EqDecision DirectoryEntry.
Proof. solve_decision. Defined.
#[export] Instance InternalNode_eq_dec : EqDecision InternalNode.
Proof. solve_decision. Defined.
#[export] Instance LeafNode_eq_dec : EqDecision LeafNode.
Proof. solve_decision. Defined.
#[export] Instance DirectoryNode_eq_dec : EqDecision DirectoryNode.
Proof. solve_decision. Defined.
#[export] Instance DirectoryTrieError_eq_dec : EqDecision DirectoryTrieError.
Proof. solve_decision. Defined.

Definition new_entry (n : NamespaceComponent) (object revision : N) (k : DirectoryEntryKind) (g : N) :
    result DirectoryTrieError DirectoryEntry :=
  if g =? 0 then Err InvalidEntry
  else Ok {| name := n; object_id := object; object_revision_id := revision; kind := k; generation := g |}.

(** The key of an entry. *)
Definition entry_key (e : DirectoryEntry) : Str := canonical (name e).

(** ** Encoding *)

(** [u16::try_from(n).unwrap_or(u16::MAX)] and the same for [u32]. *)
Definition u16_or_max (n : N) : N := default u16_max (try_narrow u16_max n).
Definition u32_or_max (n : N) : N := default u32_max (try_narrow u32_max n).

Definition encode_text (s : Str) : bytes := be_bytes 4 (u32_or_max (str_len s)) ++ as_bytes s.
Definition kind_code (k : DirectoryEntryKind) : N := match k with Directory => 1 | File => 2 end.

Definition encode_entry (e : DirectoryEntry) : bytes :=
  encode_text (canonical (name e)) ++ encode_text (display (name e)) ++
  Identifier.as_bytes (object_id e) ++ Identifier.as_bytes (object_revision_id e) ++
  [kind_code (kind e)] ++ be_bytes 8 (generation e).

Definition encode_node (n : DirectoryNode) : bytes :=
  match n with
  | Internal i =>
      [1; depth i] ++ be_bytes 2 (u16_or_max (N.of_nat (size (children i)))) ++
      concat (map (fun '(slot, child) => slot :: child) (ascending_map (children i)))
  | Leaf l =>
      [2] ++ key_hash l ++ be_bytes 2 (u16_or_max (len (entries l))) ++ concat (map encode_entry (entries l))
  end.

(** [nibble]: high half first. *)
Definition nibble (hash : bytes) (d : nat) : N :=
  let byte := default 0 (hash !! Nat.div2 d) in
  if Nat.even d then N.shiftr byte 4 else N.land byte 15.

Section hashing.
Context `{Blake3}.

Definition name_hash (c : Str) : bytes :=
  blake3 (ascii_bytes "meshspan.filesystem.directory-name.v1" ++ [0] ++ as_bytes c).
Definition node_digest (n : DirectoryNode) : DirectoryNodeDigest :=
  blake3 (ascii_bytes "meshspan.filesystem.directory-node.v1" ++ [0] ++ encode_node n).

(** [windows(2).all(|pair| pair[0].canonical < pair[1].canonical)]. *)
Fixpoint strictly_ordered (l : list DirectoryEntry) : bool :=
  match l with
  | a :: (b :: _) as rest => bool_decide (str_lt (entry_key a) (entry_key b)) && strictly_ordered rest
  | _ => true
  end.

Definition validate_node (n : DirectoryNode) : result DirectoryTrieError unit :=
  match n with
  | Internal i =>
      if (depth i <? N.of_nat HASH_NIBBLES) && (N.of_nat (size (children i)) <=? 16)
         && forallb (fun slot => slot <? 16) (ascending (dom (children i)))
      then Ok tt else Err Corrupt
  | Leaf l =>
      if negb (bool_decide (entries l = [])) && (len (entries l) <=? MAXIMUM_HASH_COLLISION_ENTRIES)
         && forallb (fun e => bool_decide (name_hash (entry_key e) = key_hash l)) (entries l)
         && strictly_ordered (entries l)
      then Ok tt else Err Corrupt
  end.

End hashing.

(** ** The kernel *)

Record DirectoryTrie := {
  root : DirectoryNodeDigest;
  nodes : gmap DirectoryNodeDigest DirectoryNode;
  complete : bool
}.

Record DirectoryMutation := {
  previous_root : DirectoryNodeDigest;
  new_root : DirectoryNodeDigest;
  previous_entry : option DirectoryEntry;
  created_node_count : N;
  created_nodes : list DirectoryNodeDigest
}.

Definition validate_replacement (previous : option DirectoryEntry) (next : DirectoryEntry) (expected : option N) :
    result DirectoryTrieError unit :=
  if negb (bool_decide (object_revision_id <$> previous = expected)) then Err StaleEntry
  else
    match previous with
    | Some p =>
        if negb (object_id p =? object_id next) || negb (bool_decide (kind p = kind next))
           || negb (generation p =? generation next)
        then Err NameConflict else Ok tt
    | None => Ok tt
    end.

(** [binary_search_by] on entries in strict key order: the position of the key, or where it
    would go. *)
Fixpoint search_entries (l : list DirectoryEntry) (key : Str) : nat + nat :=
  match l with
  | [] => inr O
  | e :: rest =>
      if bool_decide (entry_key e = key) then inl O
      else if bool_decide (str_lt (entry_key e) key)
           then match search_entries rest key with inl i => inl (S i) | inr i => inr (S i) end
           else inr O
  end.

(** [Vec::insert] and [Vec::remove]. *)
Definition vec_insert {A} (i : nat) (x : A) (l : list A) : list A := take i l ++ x :: drop i l.
Definition vec_remove {A} (i : nat) (l : list A) : list A := take i l ++ drop (S i) l.

Section kernel.
Context `{Blake3}.

Definition empty_node : DirectoryNode := Internal {| depth := 0; children := ∅ |}.
Definition empty : DirectoryTrie :=
  {| root := node_digest empty_node; nodes := {[ node_digest empty_node := empty_node ]}; complete := true |}.

Definition load_verified (st : gmap DirectoryNodeDigest DirectoryNode) (digest : DirectoryNodeDigest) :
    result DirectoryTrieError DirectoryNode :=
  n ← ok_or (st !! digest) Corrupt;
  _ ← validate_node n;
  if bool_decide (node_digest n = digest) then Ok n else Err Corrupt.

(** [lookup_at]: the loop over the depths that remain, then the leaf. *)
Fixpoint lookup_from (st : gmap DirectoryNodeDigest DirectoryNode) (rest : nat) (selected : DirectoryNodeDigest)
    (hash : bytes) (key : Str) : result DirectoryTrieError (option DirectoryEntry) :=
  n ← load_verified st selected;
  match rest, n with
  | S rest', Internal i =>
      if negb (depth i =? N.of_nat (HASH_NIBBLES - rest)) then Err Corrupt
      else match children i !! nibble hash (HASH_NIBBLES - rest) with
           | Some child => lookup_from st rest' child hash key
           | None => Ok None
           end
  | O, Leaf l =>
      if negb (bool_decide (key_hash l = hash)) then Err Corrupt
      else Ok (List.find (fun e => bool_decide (entry_key e = key)) (entries l))
  | _, _ => Err Corrupt
  end.

Definition lookup_at (t : DirectoryTrie) (from : DirectoryNodeDigest) (n : NamespaceComponent) :
    result DirectoryTrieError (option DirectoryEntry) :=
  lookup_from (nodes t) HASH_NIBBLES from (name_hash (canonical n)) (canonical n).
Definition lookup (t : DirectoryTrie) (n : NamespaceComponent) : result DirectoryTrieError (option DirectoryEntry) :=
  lookup_at t (root t) n.

(** The nodes of the trie and the list of those a mutation created. *)
Record Building := { built : gmap DirectoryNodeDigest DirectoryNode; created : list DirectoryNodeDigest }.
Abbreviation Build A := (SE Building DirectoryTrieError A).

Definition load (digest : DirectoryNodeDigest) : Build DirectoryNode :=
  b ← get_state; lift (load_verified (built b) digest).

Definition store_node (n : DirectoryNode) : Build DirectoryNodeDigest :=
  _ ← lift (validate_node n);
  b ← get_state;
  match built b !! node_digest n with
  | Some existing => if bool_decide (existing = n) then mret (node_digest n) else raise DigestCollision
  | None =>
      _ ← modify_state (fun b => {| built := <[node_digest n := n]> (built b); created := created b ++ [node_digest n] |});
      mret (node_digest n)
  end.

Definition upsert_leaf (selected : DirectoryNodeDigest) (hash : bytes) (e : DirectoryEntry) : Build DirectoryNodeDigest :=
  n ← load selected;
  match n with
  | Internal _ => raise Corrupt
  | Leaf l =>
      if negb (bool_decide (key_hash l = hash)) then raise Corrupt
      else
        match search_entries (entries l) (entry_key e) with
        | inl i => store_node (Leaf {| key_hash := key_hash l; entries := <[i := e]> (entries l) |})
        | inr i =>
            if len (entries l) <? MAXIMUM_HASH_COLLISION_ENTRIES
            then store_node (Leaf {| key_hash := key_hash l; entries := vec_insert i e (entries l) |})
            else raise CollisionCapacity
        end
  end.

(** [build_path] at the depth that leaves [rest] nibbles. *)
Fixpoint build_path (rest : nat) (hash : bytes) (e : DirectoryEntry) : Build DirectoryNodeDigest :=
  match rest with
  | O => store_node (Leaf {| key_hash := hash; entries := [e] |})
  | S rest' =>
      let d := (HASH_NIBBLES - rest)%nat in
      child ← build_path rest' hash e;
      at_depth ← lift (ok_or (try_narrow u8_max (N.of_nat d)) Corrupt);
      store_node (Internal {| depth := at_depth; children := {[ nibble hash d := child ]} |})
  end.

Fixpoint upsert_node (rest : nat) (selected : DirectoryNodeDigest) (hash : bytes) (e : DirectoryEntry) : Build DirectoryNodeDigest :=
  match rest with
  | O => upsert_leaf selected hash e
  | S rest' =>
      let d := (HASH_NIBBLES - rest)%nat in
      n ← load selected;
      match n with
      | Leaf _ => raise Corrupt
      | Internal i =>
          if negb (depth i =? N.of_nat d) then raise Corrupt
          else
            let slot := nibble hash d in
            child ← match children i !! slot with
                    | Some c => upsert_node rest' c hash e
                    | None => build_path rest' hash e
                    end;
            store_node (Internal {| depth := depth i; children := <[slot := child]> (children i) |})
      end
  end.

Definition remove_leaf (selected : DirectoryNodeDigest) (hash : bytes) (key : Str) : Build (option DirectoryNodeDigest) :=
  n ← load selected;
  match n with
  | Internal _ => raise Corrupt
  | Leaf l =>
      if negb (bool_decide (key_hash l = hash)) then raise Corrupt
      else
        match search_entries (entries l) key with
        | inr _ => raise StaleEntry
        | inl i =>
            let left := vec_remove i (entries l) in
            if bool_decide (left = []) then mret None
            else d ← store_node (Leaf {| key_hash := key_hash l; entries := left |}); mret (Some d)
        end
  end.

Fixpoint remove_node (rest : nat) (selected : DirectoryNodeDigest) (hash : bytes) (key : Str) : Build (option DirectoryNodeDigest) :=
  match rest with
  | O => remove_leaf selected hash key
  | S rest' =>
      let d := (HASH_NIBBLES - rest)%nat in
      n ← load selected;
      match n with
      | Leaf _ => raise Corrupt
      | Internal i =>
          if negb (depth i =? N.of_nat d) then raise Corrupt
          else
            let slot := nibble hash d in
            child ← lift (ok_or (children i !! slot) StaleEntry);
            next ← remove_node rest' child hash key;
            let left := match next with Some c => <[slot := c]> (children i) | None => delete slot (children i) end in
            if negb (d =? 0)%nat && bool_decide (left = ∅) then mret None
            else c ← store_node (Internal {| depth := depth i; children := left |}); mret (Some c)
      end
  end.

(** Run a building step on the nodes of a trie; what it stored stays even if it fails. *)
Definition on_nodes {A} (m : Build A) : SE DirectoryTrie DirectoryTrieError (A * list DirectoryNodeDigest) := fun t =>
  let '(r, b) := m {| built := nodes t; created := [] |} in
  ((fun a => (a, created b)) <$> r, {| root := root t; nodes := built b; complete := complete t |}).

Definition set_root (d : DirectoryNodeDigest) (t : DirectoryTrie) : DirectoryTrie :=
  {| root := d; nodes := nodes t; complete := complete t |}.

Definition mutation (old new : DirectoryNodeDigest) (previous : option DirectoryEntry) (made : list DirectoryNodeDigest) : DirectoryMutation :=
  {| previous_root := old; new_root := new; previous_entry := previous; created_node_count := len made; created_nodes := made |}.

Definition upsert (e : DirectoryEntry) (expected : option N) : SE DirectoryTrie DirectoryTrieError DirectoryMutation :=
  t ← get_state;
  previous ← lift (lookup t (name e));
  _ ← lift (validate_replacement previous e expected);
  '(d, made) ← on_nodes (upsert_node HASH_NIBBLES (root t) (name_hash (entry_key e)) e);
  _ ← modify_state (set_root d);
  mret (mutation (root t) d previous made).

Definition remove (n : NamespaceComponent) (expected : N) : SE DirectoryTrie DirectoryTrieError DirectoryMutation :=
  t ← get_state;
  found ← lift (lookup t n);
  previous ← lift (ok_or found StaleEntry);
  if negb (object_revision_id previous =? expected) then raise StaleEntry
  else
    '(next, made) ← on_nodes (remove_node HASH_NIBBLES (root t) (name_hash (canonical n)) (canonical n));
    d ← lift (ok_or next Corrupt);
    _ ← modify_state (set_root d);
    mret (mutation (root t) d (Some previous) made).

(** [verify_node]: depth first, refusing a digest that was already met. *)
Fixpoint verify_node (st : gmap DirectoryNodeDigest DirectoryNode) (rest : nat) (digest : DirectoryNodeDigest) (path : list N) :
    SE (gmap DirectoryNodeDigest (list N)) DirectoryTrieError unit :=
  seen ← get_state;
  _ ← modify_state (insert digest path);
  if bool_decide (is_Some (seen !! digest)) then raise Corrupt
  else
    n ← lift (load_verified st digest);
    match rest, n with
    | S rest', Internal i =>
        if depth i =? N.of_nat (HASH_NIBBLES - rest)
        then _ ← traverse (fun '(slot, child) => verify_node st rest' child (path ++ [slot])) (ascending_map (children i)); mret tt
        else raise Corrupt
    | O, Leaf l =>
        if existsb (fun '(i, slot) => negb (nibble (key_hash l) i =? slot)) (imap pair path)
           || existsb (fun e => negb (bool_decide (name_hash (entry_key e) = key_hash l))) (entries l)
        then raise Corrupt else mret tt
    | _, _ => raise Corrupt
    end.

Definition verify (t : DirectoryTrie) : result DirectoryTrieError unit :=
  if negb (complete t) then Err Corrupt else (verify_node (nodes t) HASH_NIBBLES (root t) [] ∅).1.

Record DirectoryNodeRecord := { digest : DirectoryNodeDigest; node : DirectoryNode }.

(** The loop that indexes untrusted records. *)
Definition index_record (acc : gmap DirectoryNodeDigest DirectoryNode) (r : DirectoryNodeRecord) :
    result DirectoryTrieError (gmap DirectoryNodeDigest DirectoryNode) :=
  _ ← validate_node (node r);
  if negb (bool_decide (digest r = node_digest (node r)))
     || match acc !! digest r with Some existing => negb (bool_decide (existing = node r)) | None => false end
  then Err Corrupt else Ok (<[digest r := node r]> acc).

Definition from_records (from : DirectoryNodeDigest) (records : list DirectoryNodeRecord) : result DirectoryTrieError DirectoryTrie :=
  st ← try_fold index_record ∅ records;
  let t := {| root := from; nodes := st; complete := true |} in
  _ ← verify t; Ok t.

Definition from_selected_records (from : DirectoryNodeDigest) (records : list DirectoryNodeRecord) (n : NamespaceComponent) :
    result DirectoryTrieError DirectoryTrie :=
  st ← try_fold index_record ∅ records;
  let t := {| root := from; nodes := st; complete := false |} in
  _ ← lookup t n; Ok t.

End kernel.

(** ** Decoding hostile node bytes *)

Section decoding.
Context `{Blake3} `{Unicode}.
Abbreviation Dec A := (SE Cursor DirectoryTrieError A).

Definition take_text : Dec Str :=
  length ← take_unsigned Corrupt 4;
  raw ← take_bytes Corrupt length;
  lift (ok_or (from_utf8 raw) Corrupt).

Definition decode_kind (code : N) : result DirectoryTrieError DirectoryEntryKind :=
  if code =? 1 then Ok Directory else if code =? 2 then Ok File else Err Corrupt.

Definition decode_entry : Dec DirectoryEntry :=
  stored_canonical ← take_text;
  stored_display ← take_text;
  n ← lift (map_err (fun _ => Corrupt) (from_stored stored_display stored_canonical));
  object ← take_identifier Corrupt;
  revision ← take_identifier Corrupt;
  code ← take_byte Corrupt;
  k ← lift (decode_kind code);
  g ← take_unsigned Corrupt 8;
  lift (map_err (fun _ => Corrupt) (new_entry n object revision k g)).

(** One turn of the loop over the children of an internal node. *)
Definition decode_child : Dec (N * DirectoryNodeDigest) :=
  slot ← take_byte Corrupt; child ← take_bytes Corrupt 32; mret (slot, child).

Fixpoint decode_children (count : nat) (acc : gmap N DirectoryNodeDigest) : Dec (gmap N DirectoryNodeDigest) :=
  match count with
  | O => mret acc
  | S n =>
      '(slot, child) ← decode_child;
      if bool_decide (is_Some (acc !! slot)) then raise Corrupt
      else decode_children n (<[slot := child]> acc)
  end.

Definition decode_internal : Dec DirectoryNode :=
  at_depth ← take_byte Corrupt;
  count ← take_unsigned Corrupt 2;
  if 16 <? count then raise Corrupt
  else cs ← decode_children (N.to_nat count) ∅; mret (Internal {| depth := at_depth; children := cs |}).

Definition decode_leaf : Dec DirectoryNode :=
  hash ← take_bytes Corrupt 32;
  count ← take_unsigned Corrupt 2;
  if (count =? 0) || (MAXIMUM_HASH_COLLISION_ENTRIES <? count) then raise Corrupt
  else es ← repeat_dec (N.to_nat count) decode_entry; mret (Leaf {| key_hash := hash; entries := es |}).

Definition decode_node : Dec DirectoryNode :=
  tag ← take_byte Corrupt;
  if tag =? 1 then decode_internal else if tag =? 2 then decode_leaf else raise Corrupt.

Definition encode_record (r : DirectoryNodeRecord) : bytes := encode_node (node r).

(** [DirectoryNodeRecord::decode]: the whole input is one valid node with the digest asked for. *)
Definition decode_record (d : DirectoryNodeDigest) (encoded : bytes) : result DirectoryTrieError DirectoryNodeRecord :=
  if MAXIMUM_ENCODED_NODE_BYTES <? len encoded then Err Corrupt
  else
    match decode_node {| data := encoded; position := 0 |} with
    | (Ok n, c) =>
        if negb (bool_decide (unread c = [])) then Err Corrupt
        else _ ← validate_node n; if negb (bool_decide (node_digest n = d)) then Err Corrupt else Ok {| digest := d; node := n |}
    | (Err e, _) => Err e
    end.

(** ** What durable readers ask of one record *)

Definition selected_child (r : DirectoryNodeRecord) (n : NamespaceComponent) (d : nat) :
    result DirectoryTrieError (option DirectoryNodeDigest) :=
  let hash := name_hash (canonical n) in
  match node r with
  | Internal i =>
      if (d <? HASH_NIBBLES)%nat && (depth i =? N.of_nat d) then Ok (children i !! nibble hash d) else Err Corrupt
  | Leaf l => if (d =? HASH_NIBBLES)%nat && bool_decide (key_hash l = hash) then Ok None else Err Corrupt
  end.

Inductive DirectoryReachabilityReference := NodeReference (d : DirectoryNodeDigest) | ObjectRevision (revision : N).

Definition reachability_references (r : DirectoryNodeRecord) : list DirectoryReachabilityReference :=
  match node r with
  | Internal i => map (fun '(_, child) => NodeReference child) (ascending_map (children i))
  | Leaf l => map (fun e => ObjectRevision (object_revision_id e)) (entries l)
  end.

Definition record (t : DirectoryTrie) (d : DirectoryNodeDigest) : result DirectoryTrieError DirectoryNodeRecord :=
  n ← load_verified (nodes t) d; Ok {| digest := d; node := n |}.

End decoding.
