(* ===== verification/DirectoryFacts.v ===== *)
(** The directory trie is a finite map: lookups, insertions and removals, what survives them,
    and the uniqueness of its representation. *)

From Stdlib Require Import String.
From S2P Require Import Prelude Ids Codec Contracts Name Directory.
From stdpp Require Import prelude gmap list sorting.
#[local] Open Scope N_scope.

(** BLAKE3 gives 32 bytes: its Rust type. *)
Definition digest_ok (h : bytes) : Prop := length h = 32%nat /\ Forall (fun b => b < 256) h.
Class Blake3Bytes `{Blake3} : Prop := blake3_bytes (b : bytes) : digest_ok (blake3 b).

(** ** Nibbles *)

Definition nibbles (h : bytes) : list N := map (nibble h) (seq 0 HASH_NIBBLES).

Lemma nibble_lt h d : digest_ok h -> nibble h d < 16.
Proof.
  intros [_ Hb]. unfold nibble. destruct (h !! Nat.div2 d) as [b|] eqn:E; cbn [default from_option id].
  - rewrite Forall_lookup in Hb. specialize (Hb _ _ E). cbv beta in Hb. case_match.
    + rewrite N.shiftr_div_pow2. apply N.Div0.div_lt_upper_bound. change (2 ^ 4) with 16. lia.
    + change 15 with (N.ones 4). rewrite N.land_ones. by apply N.mod_lt.
  - case_match; [rewrite N.shiftr_0_l|rewrite N.land_0_l]; lia.
Qed.

Lemma length_nibbles h : length (nibbles h) = HASH_NIBBLES.
Proof. unfold nibbles. by rewrite length_map, length_seq. Qed.

Lemma lookup_nibbles h d : (d < HASH_NIBBLES)%nat -> nibbles h !! d = Some (nibble h d).
Proof. intros Hd. unfold nibbles. rewrite list_lookup_fmap, lookup_seq_lt by done. done. Qed.

Lemma halves_byte b c : N.shiftr b 4 = N.shiftr c 4 -> N.land b 15 = N.land c 15 -> b = c.
Proof.
  rewrite !N.shiftr_div_pow2. change 15 with (N.ones 4). rewrite !N.land_ones. intros H1 H2.
  rewrite (N.div_mod b (2 ^ 4)), (N.div_mod c (2 ^ 4)) by done. by rewrite H1, H2.
Qed.

Lemma nibbles_inj h k : digest_ok h -> digest_ok k -> nibbles h = nibbles k -> h = k.
Proof.
  intros [Hl _] [Kl _] E.
  assert (forall d, (d < HASH_NIBBLES)%nat -> nibble h d = nibble k d) as Hn.
  { intros d Hd. apply (inj Some). by rewrite <- !lookup_nibbles, E. }
  apply list_eq. intros i. destruct (decide (i < 32)%nat) as [Hi|Hi]; [|by rewrite !lookup_ge_None_2 by lia].
  destruct (lookup_lt_is_Some_2 h i) as [x Hx]; [lia|]. destruct (lookup_lt_is_Some_2 k i) as [y Hy]; [lia|].
  pose proof (Hn (2 * i)%nat ltac:(unfold HASH_NIBBLES; lia)) as H0.
  pose proof (Hn (S (2 * i))%nat ltac:(unfold HASH_NIBBLES; lia)) as H1.
  unfold nibble in H0, H1. rewrite Nat.even_succ, <- Nat.negb_even in H1. rewrite Nat.even_even in H0, H1. cbn [negb] in H1.
  rewrite Nat.div2_succ_double in H1. rewrite Nat.div2_double in H0. rewrite Hx, Hy in *. cbn [default from_option id] in *.
  f_equal. by apply halves_byte.
Qed.

(** ** Entries of a leaf *)

Definition keys_text (l : list DirectoryEntry) : Prop := Forall (fun e => text (entry_key e)) l.
Definition key_lt (a b : DirectoryEntry) : Prop := str_lt (entry_key a) (entry_key b).
Definition find_entry (key : Str) (l : list DirectoryEntry) : option DirectoryEntry :=
  List.find (fun e => bool_decide (entry_key e = key)) l.

Lemma strictly_ordered_spec l : strictly_ordered l = true <-> StronglySorted key_lt l.
Proof.
  transitivity (Sorted key_lt l).
  - induction l as [|a [|b l] IH]; cbn [strictly_ordered]; [split; [constructor|done]|split; [repeat constructor|done]|].
    rewrite andb_true_iff, bool_decide_eq_true, IH. split.
    + intros [H1 H2]. by constructor; [|constructor].
    + intros Hs. inversion Hs as [|?? H2 H1]; subst. by inversion H1.
  - split; [|apply StronglySorted_Sorted]. intros Hs. apply Sorted_StronglySorted; [|done].
    intros x y z. apply str_lt_trans.
Qed.

Lemma find_entry_Some key l e : find_entry key l = Some e -> e ∈ l /\ entry_key e = key.
Proof. intros Hf. apply find_some in Hf as [H1 H2]. bool_cases. split; [by apply list_elem_of_In|done]. Qed.

Lemma find_entry_None key l : find_entry key l = None <-> Forall (fun e => entry_key e <> key) l.
Proof.
  induction l as [|e l IH]; cbn; [split; [constructor|done]|].
  rewrite Forall_cons, <- IH. case_bool_decide; naive_solver.
Qed.

Lemma find_entry_app key l k : find_entry key (l ++ k) = match find_entry key l with Some e => Some e | None => find_entry key k end.
Proof. induction l as [|e l IH]; cbn; [done|]. by case_bool_decide. Qed.

(** Where a key is, or where it goes: the two sides of its place. *)
Lemma search_entries_spec l key :
  StronglySorted key_lt l -> keys_text l -> text key ->
  match search_entries l key with
  | inl i => exists e, l !! i = Some e /\ entry_key e = key
  | inr i => (i <= length l)%nat /\ Forall (fun e => str_lt (entry_key e) key) (take i l) /\ Forall (fun e => str_lt key (entry_key e)) (drop i l)
  end.
Proof.
  intros Hs Ht Hk. induction Hs as [|e l Hs IH He]; cbn [search_entries].
  { split_and!; [done|constructor..]. }
  apply Forall_cons in Ht as [Hte Htl]. case_bool_decide as E1; [by exists e|]. case_bool_decide as E2.
  - specialize (IH Htl). destruct (search_entries l key) as [i|i]; [done|]. destruct IH as (H1 & H2 & H3). cbn [length take drop].
    split_and!; [lia|by constructor|done].
  - cbn [take drop]. assert (str_lt key (entry_key e)) as Hlt by (destruct (str_trichotomy (entry_key e) key); done || contradiction).
    split_and!; [lia|constructor|]. constructor; [done|]. eapply Forall_impl; [exact He|]. intros x. by apply str_lt_trans.
Qed.

Lemma sorted_app l k : StronglySorted key_lt (l ++ k) <-> StronglySorted key_lt l /\ StronglySorted key_lt k /\ Forall (fun a => Forall (key_lt a) k) l.
Proof.
  induction l as [|a l IH]; cbn.
  - split; [intros H; split_and!; [constructor|done|constructor]|tauto].
  - split.
    + intros Hs. inversion Hs as [|?? H1 H2]; subst. apply Forall_app in H2 as [H2 H3]. apply IH in H1 as (? & ? & ?).
      split_and!; [by constructor|done|by constructor].
    + intros (H1 & H2 & H3). inversion_clear H1. apply Forall_cons in H3 as [H3 Hl].
      constructor; [by apply IH|]. by apply Forall_app.
Qed.

(** Entries on one side of a key do not have it. *)
Lemma below_differs (l : list DirectoryEntry) key : Forall (fun e => str_lt (entry_key e) key) l -> find_entry key l = None.
Proof. intros Hl. apply find_entry_None. eapply Forall_impl; [exact Hl|]. intros x Hx <-. by apply (str_lt_irrefl (entry_key x)). Qed.
Lemma above_differs (l : list DirectoryEntry) key : Forall (fun e => str_lt key (entry_key e)) l -> find_entry key l = None.
Proof. intros Hl. apply find_entry_None. eapply Forall_impl; [exact Hl|]. intros x Hx <-. by apply (str_lt_irrefl (entry_key x)). Qed.

Section leaves.
Context (l : list DirectoryEntry) (Hsorted : StronglySorted key_lt l) (Htext : keys_text l).

(** Replacing the entry with a key. *)
Lemma replace_entry i old e :
  l !! i = Some old -> entry_key old = entry_key e ->
  StronglySorted key_lt (<[i := e]> l) /\ keys_text (<[i := e]> l) /\
  forall key, find_entry key (<[i := e]> l) = if bool_decide (key = entry_key e) then Some e else find_entry key l.
Proof.
  intros Hi Ek. pose proof (lookup_lt_Some _ _ _ Hi) as Hlt. apply take_drop_middle in Hi as El. rewrite <- El in Hsorted, Htext.
  rewrite insert_take_drop by done. apply sorted_app in Hsorted as (S1 & S2 & S3). inversion S2 as [|?? S2a S2b]; subst.
  apply Forall_app in Htext as [T1 [T2 T3]%Forall_cons]. split_and!.
  - apply sorted_app. split_and!; [done|constructor; [done|]|].
    + eapply Forall_impl; [exact S2b|]. intros x. unfold key_lt. by rewrite Ek.
    + eapply Forall_impl; [exact S3|]. intros x [Hx Hr]%Forall_cons. constructor; [|done]. unfold key_lt. by rewrite <- Ek.
  - apply Forall_app. split; [done|]. constructor; [by rewrite <- Ek|done].
  - intros key. rewrite <- (f_equal (find_entry key) El). rewrite !find_entry_app.
    unfold find_entry at 2 4. cbn [List.find]. rewrite Ek.
    destruct (find_entry key (take i l)) as [x|] eqn:Ef.
    + apply find_entry_Some in Ef as [Hin <-]. rewrite bool_decide_eq_false_2; [done|]. intros E.
      rewrite Forall_forall in S3. specialize (S3 _ Hin). apply Forall_cons in S3 as [S3 _]. unfold key_lt in S3. rewrite Ek, <- E in S3.
      by apply str_lt_irrefl in S3.
    + repeat case_bool_decide; congruence.
Qed.

(** Inserting an entry with a new key. *)
Lemma insert_entry i e :
  text (entry_key e) -> search_entries l (entry_key e) = inr i ->
  StronglySorted key_lt (vec_insert i e l) /\ keys_text (vec_insert i e l) /\ find_entry (entry_key e) l = None /\
  forall key, find_entry key (vec_insert i e l) = if bool_decide (key = entry_key e) then Some e else find_entry key l.
Proof.
  intros He Es. pose proof (search_entries_spec l (entry_key e) Hsorted Htext He) as Hsp. rewrite Es in Hsp. destruct Hsp as (Hi & H1 & H2).
  rewrite <- (take_drop i l) in Hsorted, Htext. apply sorted_app in Hsorted as (S1 & S2 & S3). apply Forall_app in Htext as [T1 T2].
  assert (find_entry (entry_key e) l = None) as Hnone.
  { rewrite <- (take_drop i l), find_entry_app. by rewrite below_differs, above_differs. }
  unfold vec_insert. split_and!; [| |done|].
  - apply sorted_app. split_and!; [done|by constructor|]. apply Forall_forall. intros a Ha. rewrite Forall_forall in H1, S3. constructor; auto.
    by apply H1.
  - apply Forall_app. split; [done|]. by constructor.
  - intros key. rewrite <- (f_equal (find_entry _) (take_drop i l)) in Hnone. rewrite <- (f_equal (find_entry key) (take_drop i l)).
    rewrite !find_entry_app in *. unfold find_entry at 2. cbn [List.find]. fold (find_entry key (drop i l)).
    destruct (bool_decide (entry_key e = key)) eqn:Ek; bool_cases.
    + subst key. rewrite bool_decide_eq_true_2 by done. by destruct (find_entry (entry_key e) (take i l)).
    + rewrite bool_decide_eq_false_2 by congruence. done.
Qed.

(** Removing the entry with a key. *)
Lemma remove_entry i e :
  l !! i = Some e ->
  StronglySorted key_lt (vec_remove i l) /\ keys_text (vec_remove i l) /\
  forall key, find_entry key (vec_remove i l) = if bool_decide (key = entry_key e) then None else find_entry key l.
Proof.
  intros Hi. apply take_drop_middle in Hi as El. rewrite <- El in Hsorted, Htext.
  apply sorted_app in Hsorted as (S1 & S2 & S3). inversion S2 as [|?? S2a S2b]; subst. apply Forall_app in Htext as [T1 [T2 T3]%Forall_cons].
  unfold vec_remove. split_and!.
  - apply sorted_app. split_and!; [done..|]. eapply Forall_impl; [exact S3|]. by intros x [_ ?]%Forall_cons.
  - by apply Forall_app.
  - intros key. rewrite <- (f_equal (find_entry key) El). rewrite !find_entry_app. unfold find_entry at 4. cbn [List.find]. fold (find_entry key (drop (S i) l)).
    destruct (decide (key = entry_key e)) as [->|Hne].
    + rewrite bool_decide_eq_true_2, below_differs, above_differs; [done|exact S2b| |done].
      eapply Forall_impl; [exact S3|]. by intros x [Hx _]%Forall_cons.
    + rewrite !bool_decide_eq_false_2 by congruence. done.
Qed.

End leaves.

(** ** Well-formed tries *)

Section tries.
Context `{Blake3Bytes}.
Abbreviation Store := (gmap (list N) DirectoryNode) (only parsing).

Lemma load_verified_Ok (st : Store) d n :
  load_verified st d = Ok n <-> st !! d = Some n /\ validate_node n = Ok tt /\ node_digest n = d.
Proof.
  unfold load_verified. destruct (st !! d) as [n'|]; cbn [ok_or mbind result_bind]; [|split; [done|by intros (? & _)]].
  destruct (validate_node n') as [[]|] eqn:Ev; cbn [mbind result_bind]; [|split; [done|intros (? & ? & _); congruence]].
  case_bool_decide as Ed; split; [intros [= <-]; done|intros (? & ? & _); congruence|done|intros (? & ? & ?); congruence].
Qed.

Lemma load_verified_mono (st st' : Store) d n : st ⊆ st' -> load_verified st d = Ok n -> load_verified st' d = Ok n.
Proof. rewrite !load_verified_Ok. intros Hs (H1 & H2 & H3). split_and!; [|done..]. by eapply lookup_weaken. Qed.

Lemma name_hash_ok c : digest_ok (name_hash c).
Proof. apply blake3_bytes. Qed.

(** [good st rest path d]: below [d], reached by the nibbles [path], every node loads, has the
    right depth, and every leaf hangs at the nibbles of its hash. *)
Fixpoint good (st : Store) (rest : nat) (path : list N) (d : bytes) : Prop :=
  exists n, load_verified st d = Ok n /\
  match rest, n with
  | S rest', Internal i => depth i = N.of_nat (HASH_NIBBLES - rest) /\ forall slot c, children i !! slot = Some c -> good st rest' (path ++ [slot]) c
  | O, Leaf l => digest_ok (key_hash l) /\ nibbles (key_hash l) = path /\ keys_text (entries l)
  | _, _ => False
  end.

(** No internal node below [d] is without children. *)
Definition has_children (n : DirectoryNode) : Prop := match n with Internal i => children i <> ∅ | Leaf _ => True end.
Fixpoint pruned (st : Store) (rest : nat) (d : bytes) : Prop :=
  match rest, load_verified st d with
  | S rest', Ok (Internal i) =>
      forall slot c, children i !! slot = Some c -> (forall n, load_verified st c = Ok n -> has_children n) /\ pruned st rest' c
  | _, _ => True
  end.

(** The entries whose names have a hash. *)
Fixpoint walk (st : Store) (rest : nat) (selected hash : bytes) : list DirectoryEntry :=
  match load_verified st selected with
  | Ok n =>
      match rest, n with
      | S rest', Internal i =>
          match children i !! nibble hash (HASH_NIBBLES - rest) with Some c => walk st rest' c hash | None => [] end
      | O, Leaf l => entries l
      | _, _ => []
      end
  | Err _ => []
  end.

Lemma good_mono (st st' : Store) rest path d : st ⊆ st' -> good st rest path d -> good st' rest path d.
Proof.
  intros Hs. revert path d. induction rest as [|rest IH]; intros path d (n & Hn & Hm); exists n;
    (split; [by eapply load_verified_mono|]); [done|].
  destruct n as [i|l]; [|done]. destruct Hm as [Hd Hc]. split; [done|]. intros slot c Hsc. by apply IH, Hc.
Qed.

Lemma walk_mono (st st' : Store) rest path d hash : st ⊆ st' -> good st rest path d -> walk st' rest d hash = walk st rest d hash.
Proof.
  intros Hs. revert path d. induction rest as [|rest IH]; intros path d (n & Hn & Hm); cbn [walk];
    rewrite Hn, (load_verified_mono st st' d n Hs Hn); [done|].
  destruct n as [i|l]; [|done]. destruct Hm as [Hd Hc]. case_match; [|done]. by eapply IH, Hc.
Qed.

Lemma pruned_mono (st st' : Store) rest path d : st ⊆ st' -> good st rest path d -> pruned st rest d -> pruned st' rest d.
Proof.
  intros Hs. revert path d. induction rest as [|rest IH]; intros path d (n & Hn & Hm); cbn [pruned]; [done|].
  rewrite Hn, (load_verified_mono st st' d n Hs Hn). destruct n as [i|l]; [|done]. destruct Hm as [Hd Hc].
  intros Hp slot c Hsc. destruct (Hp slot c Hsc) as [H1 H2]. split; [|by eapply IH; [apply Hc|]].
  intros n Hl. specialize (Hc _ _ Hsc). destruct rest as [|rest]; destruct Hc as (m & Hm & _);
    rewrite (load_verified_mono st st' c m Hs Hm) in Hl; injection Hl as <-; by apply H1.
Qed.

(** The nibbles of [hash] continue [path]. *)
Definition follows (hash : bytes) (path : list N) : Prop := path `prefix_of` nibbles hash.

Lemma follows_snoc hash path :
  follows hash path -> (length path < HASH_NIBBLES)%nat -> follows hash (path ++ [nibble hash (length path)]).
Proof.
  intros [k E] Hl. destruct k as [|x k]; [exfalso; pose proof (length_nibbles hash) as Hn; rewrite E, app_nil_r in Hn; lia|].
  exists k. rewrite <- app_assoc. cbn [app]. rewrite E. do 2 f_equal.
  assert (nibbles hash !! length path = Some x) as Hx by (by rewrite E, list_lookup_middle).
  rewrite lookup_nibbles in Hx by done. congruence.
Qed.

Lemma lookup_from_walk (st : Store) rest path d hash key :
  digest_ok hash -> (length path + rest = HASH_NIBBLES)%nat -> good st rest path d -> follows hash path ->
  lookup_from st rest d hash key = Ok (find_entry key (walk st rest d hash)).
Proof.
  intros Hh. revert path d. induction rest as [|rest IH]; intros path d Hlen (n & Hn & Hm) Hf; cbn [lookup_from walk]; rewrite Hn; cbn [mbind result_bind].
  - destruct n as [i|l]; [done|]. destruct Hm as (H1 & H2 & H3). rewrite bool_decide_eq_true_2; [done|].
    apply nibbles_inj; [done..|]. destruct Hf as [k E]. pose proof (length_nibbles hash) as Hl. rewrite E, length_app in Hl.
    destruct k; [|cbn in Hl; lia]. by rewrite E, app_nil_r.
  - destruct n as [i|l]; [|done]. destruct Hm as [Hd Hc]. rewrite Hd, N.eqb_refl. cbn [negb].
    replace (HASH_NIBBLES - S rest)%nat with (length path) by lia. destruct (children i !! nibble hash (length path)) as [c|] eqn:Ec; [|done].
    eapply IH; [|by apply Hc|apply follows_snoc; [done|lia]]. rewrite length_app. cbn. lia.
Qed.

(** ** Storing nodes *)

Lemma valid_internal i :
  validate_node (Internal i) = Ok tt <-> depth i < N.of_nat HASH_NIBBLES /\ forall slot, slot ∈ dom (children i) -> slot < 16.
Proof.
  cbn [validate_node]. split.
  - intros Hv. inv_ok. bool_cases. split; [done|]. intros slot Hs.
    match goal with Hf : forallb _ _ = true |- _ => rewrite forallb_forall in Hf; specialize (Hf slot) end.
    apply N.ltb_lt. by apply H2, list_elem_of_In, elem_of_ascending.
  - intros [Hd Hs]. rewrite (proj2 (N.ltb_lt _ _) Hd). rewrite (proj2 (N.leb_le _ _)); cycle 1.
    { rewrite <- size_dom. assert (size (dom (children i)) <= 16)%nat; [|lia].
      transitivity (size (list_to_set (C := gset N) (range 0 16))); [|by vm_compute].
      apply subseteq_size. intros x Hx. apply elem_of_list_to_set, elem_of_range. specialize (Hs x Hx). lia. }
    rewrite (proj2 (forallb_forall _ _)); [done|]. intros x Hx. apply N.ltb_lt, Hs, elem_of_ascending, list_elem_of_In, Hx.
Qed.

Lemma valid_leaf l :
  validate_node (Leaf l) = Ok tt <->
  entries l <> [] /\ len (entries l) <= MAXIMUM_HASH_COLLISION_ENTRIES /\
  Forall (fun e => name_hash (entry_key e) = key_hash l) (entries l) /\ StronglySorted key_lt (entries l).
Proof.
  cbn [validate_node]. rewrite <- strictly_ordered_spec. split.
  - intros Hv. inv_ok. bool_cases. split_and!; try done. apply Forall_forall. intros e He.
    match goal with Hf : forallb _ _ = true |- _ => rewrite forallb_forall in Hf; specialize (Hf e); apply list_elem_of_In in He end.
    specialize (H3 He). by bool_cases.
  - intros (H1 & H2 & H3 & H4). rewrite bool_decide_eq_false_2, (proj2 (N.leb_le _ _) H2), H4 by done.
    rewrite (proj2 (forallb_forall _ _)); [done|]. intros e He. apply bool_decide_eq_true_2. rewrite Forall_forall in H3. by apply H3, list_elem_of_In.
Qed.

(** Storing a valid node either succeeds or finds a different node with its digest. *)
Lemma store_node_spec n b :
  validate_node n = Ok tt ->
  let '(r, b') := store_node n b in
  built b ⊆ built b' /\
  match r with Ok d => d = node_digest n /\ load_verified (built b') d = Ok n | Err e => e = DigestCollision end.
Proof.
  intros Hv. unfold store_node, mbind, SE_bind, lift. rewrite Hv. unfold get_state. cbv iota beta.
  destruct (built b !! node_digest n) as [m|] eqn:E.
  - case_bool_decide as Em; cbn; [|done]. subst. split; [done|]. split; [done|]. by apply load_verified_Ok.
  - cbn. split; [by apply insert_subseteq|]. split; [done|]. apply load_verified_Ok. by rewrite lookup_insert_eq.
Qed.

(** A subtrie in good order, without empty nodes where [P] holds. *)
Definition sound (P : Prop) (st : Store) (rest : nat) (path : list N) (d : bytes) : Prop :=
  good st rest path d /\ (P -> pruned st rest d).
Definition sound_child (P : Prop) (st : Store) (rest : nat) (path : list N) (d : bytes) : Prop :=
  sound P st rest path d /\ (P -> forall n, load_verified st d = Ok n -> has_children n).

Lemma full_path h k path :
  digest_ok h -> digest_ok k -> length path = HASH_NIBBLES -> follows h path -> follows k path -> h = k.
Proof.
  intros Hh Hk Hl [x Ex] [y Ey]. pose proof (length_nibbles h) as Hx. pose proof (length_nibbles k) as Hy.
  rewrite Ex, length_app in Hx. rewrite Ey, length_app in Hy. destruct x; [|cbn in Hx; lia]. destruct y; [|cbn in Hy; lia].
  apply nibbles_inj; [done..|congruence].
Qed.

Lemma follows_nibbles h path : length path = HASH_NIBBLES -> follows h path -> nibbles h = path.
Proof. intros Hl [x Ex]. pose proof (length_nibbles h) as Hx. rewrite Ex, length_app in Hx. destruct x; [|cbn in Hx; lia]. by rewrite Ex, app_nil_r. Qed.

(** Two hashes that continue a path agree on its nibbles, and part where the next ones differ. *)
Lemma nibble_follows h path slot : follows h (path ++ [slot]) -> (length path < HASH_NIBBLES)%nat -> nibble h (length path) = slot.
Proof.
  intros [k E] Hl. assert (nibbles h !! length path = Some slot) as Hx.
  { rewrite E, <- app_assoc. cbn [app]. by rewrite list_lookup_middle. }
  rewrite lookup_nibbles in Hx by done. congruence.
Qed.

Lemma follows_prefix h path slot : follows h (path ++ [slot]) -> follows h path.
Proof. intros Hf. eapply prefix_app_l. exact Hf. Qed.

Lemma good_loads st rest path d : good st rest path d -> exists n, load_verified st d = Ok n.
Proof. destruct rest; intros (n & Hn & _); by exists n. Qed.

Lemma sound_mono P st st' rest path d : st ⊆ st' -> sound P st rest path d -> sound P st' rest path d.
Proof. intros Hs [H1 H2]. split; [by eapply good_mono|intros HP; eapply pruned_mono; eauto]. Qed.

Lemma sound_child_mono P st st' rest path d : st ⊆ st' -> sound_child P st rest path d -> sound_child P st' rest path d.
Proof.
  intros Hs [H1 H2]. split; [by eapply sound_mono|]. intros HP n Hn. destruct (good_loads _ _ _ _ (proj1 H1)) as [m Hm].
  rewrite (load_verified_mono _ _ _ _ Hs Hm) in Hn. injection Hn as <-. by apply H2.
Qed.

(** The children of a sound internal node. *)
Definition sound_children (P : Prop) (st : Store) (rest : nat) (path : list N) (m : gmap N bytes) : Prop :=
  forall s x, m !! s = Some x -> s < 16 /\ sound_child P st rest (path ++ [s]) x.

Lemma sound_node P st rest path d :
  (length path + S rest = HASH_NIBBLES)%nat -> sound P st (S rest) path d ->
  exists i, load_verified st d = Ok (Internal i) /\ depth i = N.of_nat (length path) /\ sound_children P st rest path (children i).
Proof.
  intros Hlen [(n & Hn & Hm) Hp]. destruct n as [i|l]; [|done]. destruct Hm as [Hd Hc].
  replace (HASH_NIBBLES - S rest)%nat with (length path) in Hd by lia. exists i. split_and!; [done..|]. intros s x Hx.
  apply load_verified_Ok in Hn as Hn'. destruct Hn' as (_ & Hv & _). apply valid_internal in Hv as [_ Hv].
  split; [apply Hv, elem_of_dom; by exists x|]. cbn [pruned] in Hp. rewrite Hn in Hp.
  split; [split; [by apply Hc|]|]; intros HP; by destruct (Hp HP s x Hx).
Qed.

(** What the child at [slot] answers. *)
Definition below (st : Store) (rest : nat) (m : gmap N bytes) (slot : N) (h : bytes) : list DirectoryEntry :=
  match m !! slot with Some x => walk st rest x h | None => [] end.

Lemma walk_below (st : Store) rest (path : list N) d i :
  (length path + S rest = HASH_NIBBLES)%nat -> load_verified st d = Ok (Internal i) ->
  forall h, walk st (S rest) d h = below st rest (children i) (nibble h (length path)) h.
Proof. intros Hlen Hl h. cbn [walk]. rewrite Hl. by replace (HASH_NIBBLES - S rest)%nat with (length path) by lia. Qed.

Lemma below_mono P st st' rest path m slot h :
  st ⊆ st' -> sound_children P st rest path m -> below st' rest m slot h = below st rest m slot h.
Proof. intros Hs Hm. unfold below. destruct (m !! slot) as [x|] eqn:Ex; [|done]. eapply walk_mono; [done|apply (Hm _ _ Ex)]. Qed.

(** Path copying: an internal node is stored with its new children. *)
Lemma store_internal P (b : Building) rest path m :
  (length path + S rest = HASH_NIBBLES)%nat -> sound_children P (built b) rest path m ->
  let '(r, b') := store_node (Internal {| depth := N.of_nat (length path); children := m |}) b in
  built b ⊆ built b' /\
  match r with
  | Ok d =>
      sound P (built b') (S rest) path d /\ load_verified (built b') d = Ok (Internal {| depth := N.of_nat (length path); children := m |}) /\
      forall h, walk (built b') (S rest) d h = match m !! nibble h (length path) with Some x => walk (built b) rest x h | None => [] end
  | Err e => e = DigestCollision
  end.
Proof.
  intros Hlen Hm. set (i := {| depth := N.of_nat (length path); children := m |}).
  assert (validate_node (Internal i) = Ok tt) as Hv.
  { apply valid_internal. cbn [depth children i]. split; [lia|]. intros s [x Hx]%elem_of_dom. by apply (Hm s x). }
  pose proof (store_node_spec _ b Hv) as Hs. destruct (store_node (Internal i) b) as [[d|e] b']; [|by destruct Hs].
  destruct Hs as (Hb & Ed & Hl). split; [done|]. split; [split|split]; [| |done|].
  - exists (Internal i). split; [done|]. cbn [depth children i]. split; [f_equal; lia|]. intros s x Hx.
    destruct (Hm s x Hx) as [_ [[Hg _] _]]. by eapply good_mono.
  - intros HP. cbn [pruned]. rewrite Hl. cbn [children i]. intros s x Hx.
    destruct (sound_child_mono _ _ _ _ _ _ Hb (proj2 (Hm s x Hx))) as [[_ H1] H2]. split; auto.
  - intros h. cbn [walk]. rewrite Hl. cbn [children i]. replace (HASH_NIBBLES - S rest)%nat with (length path) by lia.
    destruct (m !! nibble h (length path)) as [x|] eqn:Ex; [|done]. eapply walk_mono; [done|apply (Hm _ _ Ex)].
Qed.

Lemma store_leaf P (b : Building) hash path es :
  digest_ok hash -> nibbles hash = path -> keys_text es ->
  es <> [] -> len es <= MAXIMUM_HASH_COLLISION_ENTRIES -> Forall (fun e => name_hash (entry_key e) = hash) es -> StronglySorted key_lt es ->
  let '(r, b') := store_node (Leaf {| key_hash := hash; entries := es |}) b in
  built b ⊆ built b' /\
  match r with
  | Ok d => sound_child P (built b') 0 path d /\ forall h, walk (built b') 0 d h = es
  | Err e => e = DigestCollision
  end.
Proof.
  intros Hh Hp Ht H1 H2 H3 H4. assert (validate_node (Leaf {| key_hash := hash; entries := es |}) = Ok tt) as Hv by (by apply valid_leaf).
  pose proof (store_node_spec _ b Hv) as Hs. destruct (store_node _ b) as [[d|e] b']; [|by destruct Hs]. destruct Hs as (Hb & Ed & Hl).
  split; [done|]. split; [split; [split|]|].
  - eexists. split; [exact Hl|]. done.
  - done.
  - intros _ n Hn. rewrite Hl in Hn. injection Hn as <-. exact I.
  - intros h. cbn [walk]. by rewrite Hl.
Qed.

Lemma post_pair {S E A} (m : SE S E A) s (Q : result E A -> S -> Prop) : (let '(r, s') := m s in Q r s') -> post m s Q.
Proof. unfold post. by destruct (m s). Qed.

(** ** Inserting *)

Section upserting.
Context (hash : bytes) (e : DirectoryEntry).
Hypothesis Hhash : digest_ok hash.
Hypothesis Hkey : text (entry_key e).
Hypothesis Hname : name_hash (entry_key e) = hash.

Lemma build_path_spec P b rest path :
  (length path + rest = HASH_NIBBLES)%nat -> follows hash path ->
  post (build_path rest hash e) b (fun r b' =>
    built b ⊆ built b' /\
    match r with
    | Ok d => sound_child P (built b') rest path d /\
              forall h, digest_ok h -> follows h path -> walk (built b') rest d h = if bool_decide (h = hash) then [e] else []
    | Err x => x = DigestCollision
    end).
Proof.
  revert b path. induction rest as [|rest IH]; intros b path Hlen Hf; cbn [build_path].
  - rewrite Nat.add_0_r in Hlen. eapply post_mono.
    + apply post_pair, (store_leaf P b hash path [e]); [done|by apply follows_nibbles|by repeat constructor|done|by compute|by repeat constructor|repeat constructor].
    + cbv beta. intros [d|x] b' [Hb Hr]; (split; [done|]); [|done]. destruct Hr as [Hs Hw]. split; [done|]. intros h Hh Hfh.
      rewrite Hw, bool_decide_eq_true_2; [done|]. by eapply full_path.
  - replace (HASH_NIBBLES - S rest)%nat with (length path) by lia. apply post_bind. eapply post_mono; [apply (IH b (path ++ [nibble hash (length path)]))|].
    { rewrite length_app. cbn. lia. } { apply follows_snoc; [done|lia]. }
    cbv beta. intros [c|x] b1 [Hb1 Hr]; [|by split]. destruct Hr as [Hs Hw]. apply post_lift_bind.
    2:{ unfold try_narrow, u8_max. rewrite (proj2 (N.leb_le _ _)); [done|]. unfold HASH_NIBBLES in Hlen. lia. }
    intros a [-> _]%ok_or_Ok%try_narrow_Some. eapply post_mono; [apply post_pair, (store_internal P b1 rest path)|]; [done| |].
    { intros s x. rewrite lookup_singleton_Some. intros [<- <-]. split; [by apply nibble_lt|done]. }
    cbv beta. intros [d|x] b2 [Hb2 Hr]; (split; [by etransitivity|]); [|done]. destruct Hr as (Hs2 & Hl & Hw2). split; [split; [done|]|].
    + intros _ n Hn. rewrite Hl in Hn. injection Hn as <-. cbn [has_children children]. apply map_non_empty_singleton.
    + intros h Hh Hfh. rewrite Hw2. destruct (decide (nibble h (length path) = nibble hash (length path))) as [En|En].
      * rewrite En, lookup_singleton_eq. apply Hw; [done|]. rewrite <- En. apply follows_snoc; [done|lia].
      * rewrite lookup_singleton_ne, bool_decide_eq_false_2 by congruence. done.
Qed.

(** What an insertion does to the entries with its hash. *)
Definition upserted (old new : list DirectoryEntry) : Prop :=
  forall key, find_entry key new = if bool_decide (key = entry_key e) then Some e else find_entry key old.

(** No room for one more name with this hash. *)
Definition full_bucket (l : list DirectoryEntry) : Prop :=
  find_entry (entry_key e) l = None /\ MAXIMUM_HASH_COLLISION_ENTRIES <= len l.

Lemma upsert_leaf_spec P b path d :
  length path = HASH_NIBBLES -> follows hash path -> sound P (built b) 0 path d ->
  post (upsert_leaf d hash e) b (fun r b' =>
    built b ⊆ built b' /\
    match r with
    | Ok d' => sound_child P (built b') 0 path d' /\ upserted (walk (built b) 0 d hash) (walk (built b') 0 d' hash) /\
               ~ full_bucket (walk (built b) 0 d hash)
    | Err x => x = DigestCollision \/ (x = CollisionCapacity /\ full_bucket (walk (built b) 0 d hash))
    end).
Proof.
  intros Hlen Hf [(n & Hn & Hm) _]. unfold upsert_leaf, load. apply post_bind, post_get_bind, post_lift. rewrite Hn.
  destruct n as [i|l]; [done|]. destruct Hm as (Hh & Hp & Ht).
  assert (walk (built b) 0 d hash = entries l) as -> by (cbn [walk]; by rewrite Hn).
  assert (key_hash l = hash) as Ek by (apply nibbles_inj; [done..|]; by rewrite Hp, (follows_nibbles hash path)).
  rewrite (bool_decide_eq_true_2 _ Ek). cbn [negb]. apply load_verified_Ok in Hn as (_ & (V1 & V2 & V3 & V4)%valid_leaf & _).
  pose proof (search_entries_spec (entries l) (entry_key e) V4 Ht Hkey) as Hsp.
  destruct (search_entries (entries l) (entry_key e)) as [i|i] eqn:Es.
  - destruct Hsp as (old & Hi & Eold). destruct (replace_entry _ V4 Ht i old e Hi Eold) as (S1 & S2 & S3).
    eapply post_mono; [apply post_pair, (store_leaf P b (key_hash l) path); [done|done|done| | | |done]|].
    + intros E. apply (f_equal length) in E. rewrite length_insert in E. apply lookup_lt_Some in Hi. cbn in E. lia.
    + unfold len. by rewrite length_insert.
    + apply Forall_insert; [done|by rewrite Hname].
    + cbv beta. intros [d'|x] b' [Hb Hr]; (split; [done|]); [|by left]. destruct Hr as [Hs Hw]. split_and!; [done|by rewrite Hw|].
      intros [Hno _]. rewrite find_entry_None, Forall_lookup in Hno. by apply (Hno i old).
  - destruct (insert_entry _ V4 Ht i e Hkey Es) as (S1 & S2 & S3 & S4). destruct (N.ltb_spec (len (entries l)) MAXIMUM_HASH_COLLISION_ENTRIES) as [Hlt|Hge].
    2:{ apply post_raise. split; [done|]. right. done. }
    assert (length (vec_insert i e (entries l)) = S (length (entries l))) as El.
    { unfold vec_insert. rewrite length_app. cbn [length]. rewrite length_take, length_drop. destruct Hsp as [Hi _]. lia. }
    eapply post_mono; [apply post_pair, (store_leaf P b (key_hash l) path); [done|done|done| | | |done]|].
    + intros E. by rewrite E in El.
    + unfold len in *. rewrite El. lia.
    + unfold vec_insert. apply Forall_app. split; [by apply Forall_take|]. constructor; [by rewrite Hname|by apply Forall_drop].
    + cbv beta. intros [d'|x] b' [Hb Hr]; (split; [done|]); [|by left]. destruct Hr as [Hs Hw]. split_and!; [done|by rewrite Hw|].
      intros [_ Hfull]. lia.
Qed.

(** What an insertion promises of a subtrie that answered [old]: the path of its hash is
    rewritten, every other hash is answered as before. *)
Definition upsert_outcome (P : Prop) (b : Building) (rest : nat) (path : list N) (old : bytes -> list DirectoryEntry)
    (r : result DirectoryTrieError bytes) (b' : Building) : Prop :=
  built b ⊆ built b' /\
  match r with
  | Ok d => sound_child P (built b') rest path d /\ upserted (old hash) (walk (built b') rest d hash) /\ ~ full_bucket (old hash) /\
            forall h, digest_ok h -> follows h path -> h <> hash -> walk (built b') rest d h = old h
  | Err x => x = DigestCollision \/ (x = CollisionCapacity /\ full_bucket (old hash))
  end.
Definition upsert_spec (P : Prop) (rest : nat) : Prop := forall b path d,
  (length path + rest = HASH_NIBBLES)%nat -> follows hash path -> sound P (built b) rest path d ->
  post (upsert_node rest d hash e) b (upsert_outcome P b rest path (walk (built b) rest d)).

(** The child on the path of the hash, which may not exist yet. *)
Lemma upsert_child P b rest path m :
  upsert_spec P rest -> (length path + S rest = HASH_NIBBLES)%nat -> follows hash path -> sound_children P (built b) rest path m ->
  let slot := nibble hash (length path) in
  post (match m !! slot with Some c => upsert_node rest c hash e | None => build_path rest hash e end) b
    (upsert_outcome P b rest (path ++ [slot]) (below (built b) rest m slot)).
Proof.
  intros IH Hlen Hf Hm slot. assert (length (path ++ [slot]) + rest = HASH_NIBBLES)%nat as Hlen' by (rewrite length_app; cbn; lia).
  assert (follows hash (path ++ [slot])) as Hf' by (apply follows_snoc; [done|lia]). unfold below.
  destruct (m !! slot) as [c|] eqn:Ec; [apply IH; [done..|apply (Hm _ _ Ec)]|].
  eapply post_mono; [by apply (build_path_spec P b rest (path ++ [slot]))|]. cbv beta.
  intros [c|x] b' [Hb Hr]; (split; [done|]); [|by left]. destruct Hr as [H1 H2]. split_and!; [done| |intros [_ Hx]; by vm_compute in Hx|].
  - rewrite H2, bool_decide_eq_true_2 by done. intros key. cbn. by repeat case_bool_decide.
  - intros h Hh Hfh Hne. by rewrite H2, bool_decide_eq_false_2.
Qed.

Lemma upsert_node_spec P rest : upsert_spec P rest.
Proof.
  induction rest as [|rest IH]; intros b path d Hlen Hf Hs; cbn [upsert_node].
  - rewrite Nat.add_0_r in Hlen. eapply post_mono; [by apply (upsert_leaf_spec P b path)|]. cbv beta.
    intros [d'|x] b' [Hb Hr]; (split; [done|]); [|done]. destruct Hr as (H1 & H2 & H3). split_and!; [done..|].
    intros h Hh Hfh Hne. exfalso. apply Hne. by eapply full_path.
  - destruct (sound_node P (built b) rest path d Hlen Hs) as (i & Hl & Hd & Hc). unfold load.
    pose proof (walk_below (built b) rest path d i Hlen Hl) as Hw.
    replace (HASH_NIBBLES - S rest)%nat with (length path) by lia. apply post_bind, post_get_bind, post_lift. rewrite Hl, Hd, N.eqb_refl. cbn [negb].
    apply post_bind. eapply post_mono; [by apply upsert_child|]. intros [c|x] b1 [Hb1 Hr]; [|split; [done|by rewrite Hw]].
    destruct Hr as (Hsc & Hu & Hnf & Hoth).
    eapply post_mono; [apply post_pair, (store_internal P b1 rest path); [done|]|].
    { intros s x. rewrite lookup_insert_Some. intros [[<- <-]|[Hne Hx]]; [split; [by apply nibble_lt|done]|].
      destruct (Hc s x Hx) as [H1 H2]. split; [done|]. by eapply sound_child_mono. }
    cbv beta. intros [d'|x] b2 [Hb2 Hr]; (split; [by etransitivity|]); [|by left]. destruct Hr as (Hs2 & Hl2 & Hw2).
    rewrite Hw. split_and!; [split; [done|]| |done|].
    + intros _ n Hn. rewrite Hl2 in Hn. injection Hn as <-. cbn [has_children children]. apply insert_non_empty.
    + rewrite Hw2. by rewrite lookup_insert_eq.
    + intros h Hh Hfh Hne. rewrite Hw2, Hw. destruct (decide (nibble h (length path) = nibble hash (length path))) as [En|En].
      * rewrite En, lookup_insert_eq. apply Hoth; [done| |done]. rewrite <- En. apply follows_snoc; [done|lia].
      * rewrite lookup_insert_ne by done. by apply (below_mono P (built b) (built b1) rest path).
Qed.

End upserting.

(** ** Removing *)

Section removing.
Context (hash : bytes) (key : Str).
Hypothesis Hhash : digest_ok hash.
Hypothesis Hkey : text key.

Definition removed (old new : list DirectoryEntry) : Prop :=
  forall k, find_entry k new = if bool_decide (k = key) then None else find_entry k old.

Definition walk_opt (st : Store) (rest : nat) (od : option bytes) (h : bytes) : list DirectoryEntry :=
  match od with Some d => walk st rest d h | None => [] end.

(** What a removal promises of a subtrie that answered [old]; nothing is left of it only below
    the root. *)
Definition remove_outcome (P : Prop) (b : Building) (rest : nat) (path : list N) (old : bytes -> list DirectoryEntry)
    (r : result DirectoryTrieError (option bytes)) (b' : Building) : Prop :=
  built b ⊆ built b' /\
  match r with
  | Ok od =>
      match od with
      | Some d => sound P (built b') rest path d /\ (path <> [] -> sound_child P (built b') rest path d)
      | None => path <> []
      end /\
      removed (old hash) (walk_opt (built b') rest od hash) /\ is_Some (find_entry key (old hash)) /\
      forall h, digest_ok h -> follows h path -> h <> hash -> walk_opt (built b') rest od h = old h
  | Err x => x = DigestCollision \/ (x = StaleEntry /\ find_entry key (old hash) = None)
  end.

Lemma remove_leaf_spec P b path d :
  length path = HASH_NIBBLES -> follows hash path -> sound P (built b) 0 path d ->
  post (remove_leaf d hash key) b (remove_outcome P b 0 path (walk (built b) 0 d)).
Proof.
  intros Hlen Hf [(n & Hn & Hm) _]. unfold remove_leaf, load. apply post_bind, post_get_bind, post_lift. rewrite Hn.
  destruct n as [i|l]; [done|]. destruct Hm as (Hh & Hp & Ht).
  assert (forall h, walk (built b) 0 d h = entries l) as Hw by (intros h; cbn [walk]; by rewrite Hn).
  assert (key_hash l = hash) as Ek by (apply nibbles_inj; [done..|]; by rewrite Hp, (follows_nibbles hash path)).
  assert (path <> []) as Hpne by (intros ->; by cbn in Hlen).
  rewrite (bool_decide_eq_true_2 _ Ek). cbn [negb]. apply load_verified_Ok in Hn as (_ & (V1 & V2 & V3 & V4)%valid_leaf & _).
  pose proof (search_entries_spec (entries l) key V4 Ht Hkey) as Hsp.
  destruct (search_entries (entries l) key) as [i|i] eqn:Es.
  - destruct Hsp as (old & Hi & Eold). destruct (remove_entry _ V4 Ht i old Hi) as (S1 & S2 & S3). rewrite Eold in S3.
    assert (is_Some (find_entry key (entries l))) as Hsome.
    { destruct (find_entry key (entries l)) eqn:E; [by eexists|]. rewrite find_entry_None, Forall_lookup in E. by destruct (E i old). }
    assert (forall h, digest_ok h -> follows h path -> h <> hash -> False) as Honly by (intros h Hh' Hfh Hne; apply Hne; by eapply full_path).
    case_bool_decide as El.
    + apply post_ret. split; [done|]. rewrite Hw. split_and!; [done| |done|intros; exfalso; by eapply Honly].
      cbn [walk_opt]. unfold removed. by rewrite <- El.
    + apply post_bind. eapply post_mono; [apply post_pair, (store_leaf P b (key_hash l) path); [done|done|done|done| | |done]|].
      * unfold len, vec_remove in *. rewrite length_app, length_take, length_drop. lia.
      * unfold vec_remove. apply Forall_app. split; [by apply Forall_take|by apply Forall_drop].
      * cbv beta. intros [d'|x] b' [Hb Hr]; [apply post_ret|]; (split; [done|]); [|by left]. destruct Hr as [Hs Hw'].
        cbn [walk_opt]. rewrite Hw, Hw'. split_and!; [apply Hs|done|done|done|intros; exfalso; by eapply Honly].
  - apply post_raise. split; [done|]. right. split; [done|]. rewrite Hw. destruct Hsp as (_ & H1 & H2).
    rewrite <- (take_drop i (entries l)), find_entry_app. by rewrite below_differs, above_differs.
Qed.

(** The children that are left: one of them replaced or gone. *)
Definition left_children (m : gmap N bytes) (slot : N) (next : option bytes) : gmap N bytes :=
  match next with Some c => <[slot := c]> m | None => delete slot m end.

Lemma left_children_sound (P : Prop) (st st1 : Store) rest path (m : gmap N bytes) slot next :
  sound_children P st rest path m -> st ⊆ st1 -> slot < 16 ->
  (forall c, next = Some c -> sound_child P st1 rest (path ++ [slot]) c) -> sound_children P st1 rest path (left_children m slot next).
Proof.
  intros Hm Hs Hslot Hn s x. unfold left_children. destruct next as [c|].
  - rewrite lookup_insert_Some. intros [[<- <-]|[Hne Hx]]; [split; [done|by apply Hn]|].
    destruct (Hm s x Hx) as [H1 H2]. split; [done|]. by eapply sound_child_mono.
  - rewrite lookup_delete_Some. intros [Hne Hx]. destruct (Hm s x Hx) as [H1 H2]. split; [done|]. by eapply sound_child_mono.
Qed.

Lemma left_children_below (P : Prop) (st st1 : Store) rest path (m : gmap N bytes) slot next s h :
  sound_children P st rest path m -> st ⊆ st1 ->
  below st1 rest (left_children m slot next) s h = if bool_decide (s = slot) then walk_opt st1 rest next h else below st rest m s h.
Proof.
  intros Hm Hs. case_bool_decide as E.
  - subst s. unfold below, left_children. destruct next; [by rewrite lookup_insert_eq|by rewrite lookup_delete_eq].
  - rewrite <- (below_mono P st st1 rest path) by done. unfold below, left_children.
    destruct next; [by rewrite lookup_insert_ne|by rewrite lookup_delete_ne].
Qed.

(** A removal that succeeded below one slot succeeds for the node. *)
Lemma remove_parent P b b1 b2 rest path d i next r :
  (length path + S rest = HASH_NIBBLES)%nat -> load_verified (built b) d = Ok (Internal i) -> sound_children P (built b) rest path (children i) ->
  let slot := nibble hash (length path) in let left := left_children (children i) slot next in
  (exists c, children i !! slot = Some c /\ remove_outcome P b rest (path ++ [slot]) (walk (built b) rest c) (Ok next) b1) ->
  built b1 ⊆ built b2 ->
  match r with
  | Some d' => sound P (built b2) (S rest) path d' /\ (path <> [] -> sound_child P (built b2) (S rest) path d') /\
               forall h, walk (built b2) (S rest) d' h = below (built b1) rest left (nibble h (length path)) h
  | None => path <> [] /\ left = ∅
  end ->
  remove_outcome P b (S rest) path (walk (built b) (S rest) d) (Ok r) b2.
Proof.
  intros Hlen Hl Hc slot left (c & Ec & Hb1 & Hn & Hrem & Hsome & Hoth) Hb2 Hr.
  pose proof (walk_below (built b) rest path d i Hlen Hl) as Hw.
  assert (forall h, walk_opt (built b2) (S rest) r h = below (built b1) rest left (nibble h (length path)) h) as Hwr.
  { intros h. destruct r as [d'|]; [destruct Hr as (_ & _ & Hr); apply Hr|]. destruct Hr as [_ Hr]. unfold below. by rewrite Hr. }
  assert (forall h, walk_opt (built b2) (S rest) r h = if bool_decide (nibble h (length path) = slot) then walk_opt (built b1) rest next h else walk (built b) (S rest) d h) as Hall.
  { intros h. rewrite Hwr, Hw. by apply (left_children_below P (built b) (built b1) rest path). }
  assert (forall h, nibble h (length path) = slot -> walk (built b) (S rest) d h = walk (built b) rest c h) as Hsame.
  { intros h En. rewrite Hw, En. unfold below. by rewrite Ec. }
  split; [by etransitivity|]. rewrite Hall, bool_decide_eq_true_2, (Hsame hash) by done. split_and!; [|done|done|].
  - destruct r as [d'|]; [|apply Hr]. destruct Hr as (H1 & H2 & _). exact (conj H1 H2).
  - intros h Hh Hfh Hne. rewrite Hall. case_bool_decide as En; [|done]. rewrite Hsame by done. apply Hoth; [done| |done].
    rewrite <- En. apply follows_snoc; [done|lia].
Qed.

Lemma remove_node_spec P b rest path d :
  (length path + rest = HASH_NIBBLES)%nat -> follows hash path -> sound P (built b) rest path d ->
  post (remove_node rest d hash key) b (remove_outcome P b rest path (walk (built b) rest d)).
Proof.
  revert b path d. induction rest as [|rest IH]; intros b path d Hlen Hf Hs; cbn [remove_node].
  { rewrite Nat.add_0_r in Hlen. by apply remove_leaf_spec. }
  destruct (sound_node P (built b) rest path d Hlen Hs) as (i & Hl & Hd & Hc). unfold load.
  pose proof (walk_below (built b) rest path d i Hlen Hl) as Hw.
  replace (HASH_NIBBLES - S rest)%nat with (length path) by lia. apply post_bind, post_get_bind, post_lift. rewrite Hl, Hd, N.eqb_refl. cbn [negb].
  set (slot := nibble hash (length path)) in *. apply post_lift_bind.
  2:{ intros x Hx. destruct (children i !! slot) eqn:Ec; [done|]. injection Hx as <-. split; [done|]. right. split; [done|].
      rewrite Hw. unfold below. fold slot. by rewrite Ec. }
  intros c Ec%ok_or_Ok. apply post_bind.
  eapply post_mono; [apply (IH b (path ++ [slot]) c); [rewrite length_app; cbn; lia|apply follows_snoc; [done|lia]|apply (Hc _ _ Ec)]|].
  intros [next|x] b1 Ho. 2:{ destruct Ho as [Hb1 Hr]. split; [done|]. rewrite Hw. unfold below. fold slot. by rewrite Ec. }
  fold (left_children (children i) slot next). set (left := left_children (children i) slot next).
  assert (sound_children P (built b1) rest path left) as Hleft.
  { eapply left_children_sound; [exact Hc|apply Ho|by apply nibble_lt|]. intros c' ->. destruct Ho as [_ [[_ Hn] _]]. apply Hn. by destruct path. }
  destruct (negb (length path =? 0)%nat && bool_decide (left = ∅)) eqn:Eg.
  - apply andb_true_iff in Eg as [Ep%negb_true_iff%Nat.eqb_neq Ee]. bool_cases. apply post_ret. eapply remove_parent; [done..|by exists c|done|]. split; [|done]. by intros ->.
  - apply post_bind. eapply post_mono; [apply post_pair, (store_internal P b1 rest path left); done|]. cbv beta.
    intros [d'|x] b2 [Hb2 Hr]; [apply post_ret|split; [by transitivity (built b1); [apply Ho|]|by left]]. destruct Hr as (H1 & H2 & H3).
    eapply remove_parent; [done..|by exists c|done|]. split_and!; [done| |done]. intros Hp. split; [done|]. intros _ n Hn. rewrite H2 in Hn. injection Hn as <-.
    cbn [has_children children]. intros Ee. rewrite Ee, bool_decide_eq_true_2, andb_true_r in Eg by done.
    apply negb_false_iff, Nat.eqb_eq in Eg. by destruct path.
Qed.

End removing.

End tries.
