(* ===== verification/DirectoryMap.v ===== *)
(** What the directory trie promises its users: it behaves as a finite map from canonical names
    to entries, keeps every older root readable, has one root per content, passes its own
    verification, and survives its byte encoding.  An editor that holds only the nodes a change
    touches does what one with the whole directory does. *)

From Stdlib Require Import String.
From S2P Require Import Prelude Ids Codec Contracts Name Directory DirectoryFacts.
From stdpp Require Import prelude gmap list sorting.
#[local] Open Scope N_scope.

(** One request to a directory. *)
Inductive DirectoryOp := Upsert (e : DirectoryEntry) (expected : option N) | Remove (n : NamespaceComponent) (expected : N).

Definition op_key (op : DirectoryOp) : Str := match op with Upsert e _ => entry_key e | Remove n _ => canonical n end.

(** Abstract directories. *)
Abbreviation DirectoryMap := (gmap (list N) DirectoryEntry) (only parsing).

Definition map_step (op : DirectoryOp) (m : DirectoryMap) : result DirectoryTrieError DirectoryMap :=
  match op with
  | Upsert e expected => _ ← validate_replacement (m !! entry_key e) e expected; Ok (<[entry_key e := e]> m)
  | Remove n expected =>
      previous ← ok_or (m !! canonical n) StaleEntry;
      if negb (object_revision_id previous =? expected) then Err StaleEntry else Ok (delete (canonical n) m)
  end.

Section directories.
Context `{Blake3Bytes}.

Definition trie_step (op : DirectoryOp) : SE DirectoryTrie DirectoryTrieError DirectoryMutation :=
  match op with Upsert e expected => upsert e expected | Remove n expected => Directory.remove n expected end.

(** A history of requests; those refused change nothing a lookup can see. *)
Definition trie_run (ops : list DirectoryOp) (t : DirectoryTrie) : DirectoryTrie := foldl (fun t op => (trie_step op t).2) t ops.

(** The map a trie stands for. *)
Record represents (t : DirectoryTrie) (m : DirectoryMap) : Prop := {
  represents_good : good (nodes t) HASH_NIBBLES [] (root t);
  represents_lookup k : text k -> find_entry k (walk (nodes t) HASH_NIBBLES (root t) (name_hash k)) = m !! k;
  represents_keys k e : m !! k = Some e -> text k /\ entry_key e = k
}.

Lemma follows_nil h : follows h [].
Proof. apply prefix_nil. Qed.

Lemma lookup_represented t m n : represents t m -> text (canonical n) -> Directory.lookup t n = Ok (m !! canonical n).
Proof.
  intros [Hg Hl _] Hn. unfold Directory.lookup, lookup_at. rewrite (lookup_from_walk _ _ []); [by rewrite Hl|apply name_hash_ok|done|done|apply follows_nil].
Qed.

(** The entries found under one hash. *)
Lemma walk_entries st rest path d h :
  (length path + rest = HASH_NIBBLES)%nat -> good st rest path d -> digest_ok h -> follows h path ->
  let es := walk st rest d h in
  keys_text es /\ StronglySorted key_lt es /\ Forall (fun e => name_hash (entry_key e) = h) es.
Proof.
  revert path d. induction rest as [|rest IH]; intros path d Hlen (n & Hn & Hm) Hh Hf; cbn [walk]; rewrite Hn.
  - destruct n as [i|l]; [done|]. destruct Hm as (H1 & H2 & H3). apply load_verified_Ok in Hn as (_ & (_ & _ & V3 & V4)%valid_leaf & _).
    split_and!; [done..|]. assert (key_hash l = h) as <-; [|done]. rewrite Nat.add_0_r in Hlen.
    apply nibbles_inj; [done..|]. by rewrite H2, (follows_nibbles h path).
  - destruct n as [i|l]; [|done]. destruct Hm as [_ Hc]. replace (HASH_NIBBLES - S rest)%nat with (length path) by lia.
    destruct (children i !! nibble h (length path)) as [c|] eqn:Ec; [|split_and!; constructor].
    eapply IH; [|by apply Hc|done|apply follows_snoc; [done|lia]]. rewrite length_app. cbn. lia.
Qed.

(** Names that share the hash of [key] in a map. *)
Definition bucket (m : DirectoryMap) (key : Str) : DirectoryMap := filter (fun '(k, _) => name_hash k = name_hash key) m.

Lemma sorted_keys_NoDup l : StronglySorted key_lt l -> NoDup (map entry_key l).
Proof.
  induction 1 as [|e l _ IH He]; cbn [map]; constructor; [|done]. intros (x & E & Hx)%list_elem_of_fmap.
  rewrite Forall_forall in He. specialize (He x Hx). unfold key_lt in He. rewrite E in He. by apply str_lt_irrefl in He.
Qed.

Lemma find_entry_member l e : StronglySorted key_lt l -> e ∈ l -> find_entry (entry_key e) l = Some e.
Proof.
  intros Hs Hin. destruct (find_entry (entry_key e) l) as [x|] eqn:E.
  - apply find_entry_Some in E as [Hx Ek]. f_equal. apply sorted_keys_NoDup in Hs.
    apply list_elem_of_lookup in Hin as [i Hi], Hx as [j Hj].
    assert (i = j) as <-; [|congruence]. eapply NoDup_lookup; [exact Hs| |]; rewrite list_lookup_fmap.
    + by rewrite Hi.
    + rewrite Hj. cbn. by rewrite Ek.
  - rewrite find_entry_None, Forall_forall in E. by destruct (E e Hin).
Qed.

Lemma walk_bucket t m key :
  represents t m -> (length (walk (nodes t) HASH_NIBBLES (root t) (name_hash key)) <= size (bucket m key))%nat.
Proof.
  intros [Hg Hl _]. destruct (walk_entries _ _ _ _ (name_hash key) (eq_refl : length [] + HASH_NIBBLES = HASH_NIBBLES)%nat Hg (name_hash_ok _) (follows_nil _)) as (W1 & W2 & W3).
  set (es := walk _ _ _ _) in *. transitivity (size (list_to_map (M := gmap (list N) DirectoryEntry) (map (fun e => (entry_key e, e)) es))).
  { rewrite <- length_map_to_list, map_to_list_to_map; [by rewrite length_map|].
    replace (map (fun e => (entry_key e, e)) es).*1 with (map entry_key es); [by apply sorted_keys_NoDup|].
    clear. induction es as [|e es IH]; [done|]. cbn [map]. by rewrite IH. }
  apply map_subseteq_size. apply map_subseteq_spec. intros k e Hk. apply elem_of_list_to_map_2 in Hk.
  apply list_elem_of_fmap in Hk as (e' & E & He). injection E as -> ->. unfold keys_text in W1. rewrite Forall_forall in W1, W3. apply map_lookup_filter_Some.
  split; [|by apply W3]. rewrite <- Hl by (by apply W1). rewrite W3 by done. by apply find_entry_member.
Qed.

(** The outcome of one request against the outcome the map gives. *)
Definition simulates (op : DirectoryOp) (m : DirectoryMap) (t : DirectoryTrie) (r : result DirectoryTrieError DirectoryMutation) (t' : DirectoryTrie) : Prop :=
  nodes t ⊆ nodes t' /\
  match r, map_step op m with
  | Ok u, Ok m' => represents t' m' /\ previous_root u = root t /\ new_root u = root t' /\ previous_entry u = m !! op_key op
  | Err x, Err y => x = y /\ root t' = root t
  | Err DigestCollision, Ok _ => root t' = root t
  | Err CollisionCapacity, Ok _ => root t' = root t /\ m !! op_key op = None /\ MAXIMUM_HASH_COLLISION_ENTRIES <= N.of_nat (size (bucket m (op_key op)))
  | _, _ => False
  end.

(** A root that stood for a map still does in a larger store. *)
Lemma represents_grow t t' m : nodes t ⊆ nodes t' -> root t' = root t -> represents t m -> represents t' m.
Proof.
  intros Hs Hr [Hg Hl Hk]. split; [rewrite Hr; by eapply good_mono| |done].
  intros k Hk'. rewrite Hr, (walk_mono (nodes t) (nodes t') _ []) by done. by apply Hl.
Qed.

Lemma post_on_nodes {A} (m : SE Building DirectoryTrieError A) t (Q : result DirectoryTrieError (A * list bytes) -> DirectoryTrie -> Prop) :
  post m {| built := nodes t; created := [] |} (fun r b => Q ((fun a => (a, created b)) <$> r) {| root := root t; nodes := built b; complete := complete t |}) ->
  post (on_nodes m) t Q.
Proof. unfold post, on_nodes. by destruct (m _) as [r b]. Qed.

(** The map after a hash was answered anew and all others as before. *)
Lemma represents_changed t t' m key old new m' :
  represents t m -> good (nodes t') HASH_NIBBLES [] (root t') -> text key ->
  old = walk (nodes t) HASH_NIBBLES (root t) (name_hash key) -> new = walk (nodes t') HASH_NIBBLES (root t') (name_hash key) ->
  (forall h, digest_ok h -> h <> name_hash key -> walk (nodes t') HASH_NIBBLES (root t') h = walk (nodes t) HASH_NIBBLES (root t) h) ->
  (forall k, find_entry k new = if bool_decide (k = key) then m' !! k else find_entry k old) ->
  (forall k, k <> key -> m' !! k = m !! k) -> (forall e, m' !! key = Some e -> entry_key e = key) ->
  represents t' m'.
Proof.
  intros [Hg Hl Hk] Hg' Ht Eold Enew Hoth Hnew Hm He. split; [done| |].
  - intros k Hkt. destruct (decide (name_hash k = name_hash key)) as [Eh|Eh].
    + rewrite Eh, <- Enew, Hnew. case_bool_decide as E; [done|]. rewrite Eold, <- Eh, Hl, Hm by done. done.
    + rewrite Hoth by (done || apply name_hash_ok). rewrite Hl by done. symmetry. apply Hm. by intros ->.
  - intros k e Hke. destruct (decide (k = key)) as [->|Hne]; [by split; [|apply He]|]. rewrite Hm in Hke by done. by apply Hk.
Qed.

Lemma upsert_simulates P e expected t m :
  represents t m -> sound P (nodes t) HASH_NIBBLES [] (root t) -> text (entry_key e) ->
  post (upsert e expected) t (fun r t' => simulates (Upsert e expected) m t r t' /\ sound P (nodes t') HASH_NIBBLES [] (root t')).
Proof.
  intros Hr Hs Hk. unfold upsert. apply post_get_bind. rewrite (lookup_represented t m) by done. apply post_lift_bind; [|done]. intros p [= <-].
  fold (entry_key e). apply post_lift_bind.
  2:{ intros x Hx. split; [|done]. split; [done|]. cbn [map_step]. rewrite Hx. by destruct x. }
  intros [] Hv. apply post_bind, post_on_nodes.
  eapply post_mono; [apply (upsert_node_spec (name_hash (entry_key e)) e (name_hash_ok _) Hk eq_refl P HASH_NIBBLES _ []); [done|apply follows_nil|exact Hs]|].
  cbn [built created]. intros [d|x] b [Hb Ho]; cbn [fmap result_fmap].
  - destruct Ho as ([[Hg' Hp'] _] & Hu & _ & Hoth). apply post_modify_bind, post_ret. split; [|done]. split; [done|]. cbn [map_step]. rewrite Hv. cbn [mbind result_bind].
    split_and!; [|done..]. eapply (represents_changed t _ m (entry_key e)); [done|done|done|reflexivity|reflexivity| | | |].
    + intros h Hh Hne. apply Hoth; [done|apply follows_nil|done].
    + intros k. cbn [nodes root set_root]. rewrite Hu. case_bool_decide as E; [|done]. by rewrite E, lookup_insert_eq.
    + intros k Hne. by rewrite lookup_insert_ne.
    + intros x. rewrite lookup_insert_eq. by intros [= <-].
  - split; [|by split; [eapply good_mono; [|apply Hs]|intros HP; eapply pruned_mono; [done|apply Hs|by apply Hs]]].
    split; [done|]. cbn [map_step]. rewrite Hv. cbn [mbind result_bind]. destruct Ho as [->|[-> [Hn Hfull]]]; [done|].
    split_and!; [done| |]; cbn [op_key].
    + rewrite <- (represents_lookup t m Hr) by done. exact Hn.
    + etransitivity; [exact Hfull|]. cbn [nodes root]. unfold len. pose proof (walk_bucket t m (entry_key e) Hr). lia.
Qed.

Lemma remove_simulates P n expected t m :
  represents t m -> sound P (nodes t) HASH_NIBBLES [] (root t) -> text (canonical n) ->
  post (Directory.remove n expected) t (fun r t' => simulates (Remove n expected) m t r t' /\ sound P (nodes t') HASH_NIBBLES [] (root t')).
Proof.
  intros Hr Hs Hk. unfold Directory.remove. apply post_get_bind. rewrite (lookup_represented t m) by done. apply post_lift_bind; [|done]. intros p [= <-].
  apply post_lift_bind.
  2:{ intros x Hx. split; [|done]. split; [done|]. cbn [map_step]. rewrite Hx. by destruct x. }
  intros previous Hprev%ok_or_Ok. destruct (negb (object_revision_id previous =? expected)) eqn:Ee.
  { apply post_raise. split; [|done]. split; [done|]. cbn [map_step]. rewrite Hprev. cbn [ok_or mbind result_bind]. by rewrite Ee. }
  apply post_bind, post_on_nodes.
  eapply post_mono; [apply (remove_node_spec (name_hash (canonical n)) (canonical n) (name_hash_ok _) Hk P _ HASH_NIBBLES []); [done|apply follows_nil|exact Hs]|].
  cbn [built created]. intros [od|x] b [Hb Ho]; cbn [fmap result_fmap].
  - destruct Ho as (Hd & Hu & _ & Hoth). destruct od as [d|]; [|done]. destruct Hd as [[Hg' Hp'] _]. apply post_lift_bind; [|done]. intros d' [= <-].
    apply post_modify_bind, post_ret. split; [|done]. split; [done|]. cbn [map_step]. rewrite Hprev. cbn [ok_or mbind result_bind]. rewrite Ee.
    split_and!; [|done..]. eapply (represents_changed t _ m (canonical n)); [done|done|done|reflexivity|reflexivity| | | |].
    + intros h Hh Hne. apply Hoth; [done|apply follows_nil|done].
    + intros k. cbn [nodes root set_root]. cbn [walk_opt] in Hu. rewrite Hu. case_bool_decide as E; [|done]. by rewrite E, lookup_delete_eq.
    + intros k Hne. by rewrite lookup_delete_ne.
    + intros x. by rewrite lookup_delete_eq.
  - split; [|by split; [eapply good_mono; [|apply Hs]|intros HP; eapply pruned_mono; [done|apply Hs|by apply Hs]]].
    split; [done|]. cbn [map_step]. rewrite Hprev. cbn [ok_or mbind result_bind]. rewrite Ee. destruct Ho as [->|[-> Hn]]; [done|].
    cbn [nodes root] in Hn. rewrite (represents_lookup t m Hr) in Hn by done. congruence.
Qed.

Lemma step_simulates P op t m :
  represents t m -> sound P (nodes t) HASH_NIBBLES [] (root t) -> text (op_key op) ->
  post (trie_step op) t (fun r t' => simulates op m t r t' /\ sound P (nodes t') HASH_NIBBLES [] (root t')).
Proof. destruct op as [e expected|n expected]; [apply upsert_simulates|apply remove_simulates]. Qed.

(** What a request leaves behind still stands for some map. *)
Lemma simulates_represents op m t r t' : represents t m -> simulates op m t r t' -> exists m', represents t' m'.
Proof.
  intros Hr [Hs Ho]. destruct r as [u|x], (map_step op m) as [m'|y]; [by exists m'; destruct Ho|done| |].
  - exists m. eapply represents_grow; [done| |done]. destruct x; try done; by destruct Ho.
  - exists m. eapply represents_grow; [done| |done]. destruct x; by destruct Ho.
Qed.

Lemma empty_represents : represents Directory.empty ∅ /\ sound True (nodes Directory.empty) HASH_NIBBLES [] (root Directory.empty).
Proof.
  assert (load_verified (nodes Directory.empty) (root Directory.empty) = Ok empty_node) as Hl.
  { apply load_verified_Ok. cbn [nodes root Directory.empty]. rewrite lookup_singleton_eq. split_and!; [done| |done]. apply valid_internal. cbn. split; [done|].
    intros slot. rewrite dom_empty. set_solver. }
  assert (good (nodes Directory.empty) HASH_NIBBLES [] (root Directory.empty)) as Hg.
  { change HASH_NIBBLES with 64%nat. exists empty_node. split; [exact Hl|]. cbn [empty_node depth children]. split; [done|]. intros slot c. by rewrite lookup_empty. }
  split; [split; [done| |]|split; [done|]].
  - intros k Hk. change HASH_NIBBLES with (S 63). cbn [walk]. rewrite Hl. cbn [empty_node children]. by rewrite !lookup_empty.
  - intros k e. by rewrite lookup_empty.
  - intros _. change HASH_NIBBLES with (S 63). cbn [pruned]. rewrite Hl. cbn [empty_node children]. intros slot c. by rewrite lookup_empty.
Qed.

Lemma run_sound P ops t m :
  represents t m -> sound P (nodes t) HASH_NIBBLES [] (root t) -> Forall (fun op => text (op_key op)) ops ->
  exists m', represents (trie_run ops t) m' /\ sound P (nodes (trie_run ops t)) HASH_NIBBLES [] (root (trie_run ops t)) /\ nodes t ⊆ nodes (trie_run ops t).
Proof.
  intros Hr Hs Hops. revert t m Hr Hs. induction Hops as [|op ops Hop _ IH]; intros t m Hr Hs; [by exists m|].
  pose proof (step_simulates P op t m Hr Hs Hop) as [Hsim Hs']. destruct (simulates_represents _ _ _ _ _ Hr Hsim) as [m1 Hr1].
  destruct (IH _ _ Hr1 Hs') as (m' & H1 & H2 & H3). exists m'. split_and!; [done..|]. transitivity (nodes (trie_step op t).2); [apply Hsim|exact H3].
Qed.

(** ** One root per content *)

(** A subtrie without empty nodes answers some hash. *)
Lemma inhabited st rest path d :
  (length path + rest = HASH_NIBBLES)%nat -> good st rest path d -> pruned st rest d ->
  (forall n, load_verified st d = Ok n -> has_children n) ->
  exists h, digest_ok h /\ follows h path /\ walk st rest d h <> [].
Proof.
  revert path d. induction rest as [|rest IH]; intros path d Hlen (n & Hn & Hm) Hp Hc; specialize (Hc n Hn).
  - destruct n as [i|l]; [done|]. destruct Hm as (H1 & H2 & _). exists (key_hash l). split_and!; [done|unfold follows; by rewrite H2|].
    cbn [walk]. rewrite Hn. apply load_verified_Ok in Hn as (_ & (V1 & _)%valid_leaf & _). exact V1.
  - destruct n as [i|l]; [|done]. destruct Hm as [_ Hg]. cbn [pruned] in Hp. rewrite Hn in Hp.
    destruct (map_choose (children i) Hc) as (slot & c & Hsc). destruct (Hp slot c Hsc) as [P1 P2].
    destruct (IH (path ++ [slot]) c) as (h & H1 & H2 & H3); [rewrite length_app; cbn; lia|by apply Hg|done|done|].
    exists h. split_and!; [done|by eapply follows_prefix|]. rewrite (walk_below st rest path d i) by done. unfold below.
    by rewrite (nibble_follows h path slot), Hsc by (done || lia).
Qed.

(** A child on one side is a child on the other when both sides answer alike. *)
Lemma child_matched st1 st2 rest path d1 d2 i1 i2 slot :
  (length path + S rest = HASH_NIBBLES)%nat -> good st1 (S rest) path d1 -> pruned st1 (S rest) d1 ->
  load_verified st1 d1 = Ok (Internal i1) -> load_verified st2 d2 = Ok (Internal i2) ->
  (forall h, digest_ok h -> follows h path -> walk st1 (S rest) d1 h = walk st2 (S rest) d2 h) ->
  is_Some (children i1 !! slot) -> is_Some (children i2 !! slot).
Proof.
  intros Hlen (n & Hn & Hm) Hp L1 L2 Hw [c Hc]. rewrite L1 in Hn. injection Hn as <-. destruct Hm as [_ Hg].
  cbn [pruned] in Hp. rewrite L1 in Hp. destruct (Hp slot c Hc) as [P1 P2].
  destruct (inhabited st1 rest (path ++ [slot]) c) as (h & H1 & H2 & H3); [rewrite length_app; cbn; lia|by apply Hg|done|done|].
  specialize (Hw h H1 (follows_prefix _ _ _ H2)). rewrite (walk_below st1 rest path d1 i1), (walk_below st2 rest path d2 i2) in Hw by done.
  unfold below in Hw. rewrite (nibble_follows h path slot), Hc in Hw by (done || lia). destruct (children i2 !! slot); [by eexists|done].
Qed.

Lemma unique_node st1 st2 rest path d1 d2 :
  (length path + rest = HASH_NIBBLES)%nat -> good st1 rest path d1 -> good st2 rest path d2 -> pruned st1 rest d1 -> pruned st2 rest d2 ->
  (forall h, digest_ok h -> follows h path -> walk st1 rest d1 h = walk st2 rest d2 h) -> d1 = d2.
Proof.
  revert path d1 d2. induction rest as [|rest IH]; intros path d1 d2 Hlen G1 G2 P1 P2 Hw;
    pose proof G1 as (n1 & L1 & M1); pose proof G2 as (n2 & L2 & M2).
  - destruct n1 as [|l1], n2 as [|l2]; try done. destruct M1 as (A1 & B1 & _), M2 as (A2 & B2 & _).
    assert (key_hash l1 = key_hash l2) as Ek by (apply nibbles_inj; congruence).
    specialize (Hw (key_hash l1) A1 ltac:(unfold follows; by rewrite B1)). cbn [walk] in Hw. rewrite L1, L2 in Hw.
    apply load_verified_Ok in L1 as (_ & _ & <-), L2 as (_ & _ & <-). destruct l1, l2; cbn in *. by subst.
  - destruct n1 as [i1|], n2 as [i2|]; try done. destruct M1 as [D1 C1], M2 as [D2 C2].
    assert (children i1 = children i2) as Ec.
    { apply map_eq. intros slot.
      pose proof (child_matched st1 st2 rest path d1 d2 i1 i2 slot Hlen G1 P1 L1 L2 Hw) as F12.
      pose proof (child_matched st2 st1 rest path d2 d1 i2 i1 slot Hlen G2 P2 L2 L1 ltac:(intros; symmetry; auto)) as F21.
      cbn [pruned] in P1, P2. rewrite L1 in P1. rewrite L2 in P2.
      destruct (children i1 !! slot) as [c1|] eqn:E1, (children i2 !! slot) as [c2|] eqn:E2;
        [|by destruct F12 as [? ?]|by destruct F21 as [? ?]|done].
      f_equal. apply (IH (path ++ [slot])); [rewrite length_app; cbn; lia|by apply C1|by apply C2|by apply (P1 slot)|by apply (P2 slot)|].
      intros h Hh Hf. specialize (Hw h Hh (follows_prefix _ _ _ Hf)).
      rewrite (walk_below st1 rest path d1 i1), (walk_below st2 rest path d2 i2) in Hw by done. unfold below in Hw.
      by rewrite (nibble_follows h path slot), E1, E2 in Hw by (done || lia). }
    apply load_verified_Ok in L1 as (_ & _ & <-), L2 as (_ & _ & <-). do 2 f_equal. destruct i1, i2; cbn in *. by subst.
Qed.

#[local] Instance key_lt_antisymm : AntiSymm (=) key_lt.
Proof. intros a b H1 H2. exfalso. apply (str_lt_irrefl (entry_key a)). exact (str_lt_trans _ _ _ H1 H2). Qed.

(** Equal maps are answered by equal lists. *)
Lemma represents_walk t1 t2 m h : represents t1 m -> represents t2 m -> digest_ok h ->
  walk (nodes t1) HASH_NIBBLES (root t1) h = walk (nodes t2) HASH_NIBBLES (root t2) h.
Proof.
  intros R1 R2 Hh.
  assert (forall t, represents t m -> let es := walk (nodes t) HASH_NIBBLES (root t) h in
            StronglySorted key_lt es /\ forall e, e ∈ es <-> text (entry_key e) /\ name_hash (entry_key e) = h /\ m !! entry_key e = Some e) as Hes.
  { intros t [Hg Hl _] es. destruct (walk_entries (nodes t) HASH_NIBBLES [] (root t) h eq_refl Hg Hh (follows_nil _)) as (W1 & W2 & W3).
    fold es in W1, W2, W3. unfold keys_text in W1. rewrite Forall_forall in W1, W3. split; [done|]. intros e. split.
    - intros He. split_and!; [by apply W1|by apply W3|]. rewrite <- Hl by (by apply W1). rewrite W3 by done. by apply find_entry_member.
    - intros (He & Eh & Em). rewrite <- Hl, Eh in Em by done. by apply find_entry_Some in Em as [? _]. }
  destruct (Hes t1 R1) as [S1 E1], (Hes t2 R2) as [S2 E2]. apply (StronglySorted_unique key_lt); [done..|].
  apply NoDup_Permutation; [apply (NoDup_fmap_1 entry_key); by apply sorted_keys_NoDup..|]. intros e. by rewrite E1, E2.
Qed.

(** ** Verification *)

Lemma walk_located st rest path d h e : good st rest path d -> e ∈ walk st rest d h -> path `prefix_of` nibbles (name_hash (entry_key e)).
Proof.
  revert path d. induction rest as [|rest IH]; intros path d (n & Hn & Hm); cbn [walk]; rewrite Hn.
  - destruct n as [i|l]; [done|]. intros He. destruct Hm as (_ & <- & _). apply load_verified_Ok in Hn as (_ & (_ & _ & V3 & _)%valid_leaf & _).
    rewrite Forall_forall in V3. by rewrite V3.
  - destruct n as [i|l]; [|done]. destruct Hm as [_ Hg]. destruct (children i !! nibble h (HASH_NIBBLES - S rest)) as [c|] eqn:Ec; [|by intros ?%not_elem_of_nil].
    intros He. eapply prefix_app_l. by eapply IH; [apply (Hg _ _ Ec)|].
Qed.

(** The digest of an inhabited subtrie tells where it hangs. *)
Lemma digest_located st rest rest' path path' d :
  (length path + rest = HASH_NIBBLES)%nat -> (length path' + rest' = HASH_NIBBLES)%nat ->
  good st rest path d -> pruned st rest d -> (forall n, load_verified st d = Ok n -> has_children n) -> good st rest' path' d -> path' = path.
Proof.
  intros Hl Hl' Hg Hp Hc Hg'.
  assert (rest' = rest) as ->.
  { destruct rest, rest'; [done|..]; destruct Hg as (n & Hn & Hm), Hg' as (n' & Hn' & Hm'); rewrite Hn in Hn'; injection Hn' as <-;
      destruct n as [i|l]; try done. destruct Hm as [Hd _], Hm' as [Hd' _]. rewrite Hd in Hd'. apply Nat2N.inj in Hd'. lia. }
  destruct (inhabited st rest path d Hl Hg Hp Hc) as (h & _ & _ & Hne). destruct (walk st rest d h) as [|e es] eqn:Ew; [done|].
  assert (e ∈ walk st rest d h) as He by (rewrite Ew; by left).
  destruct (walk_located _ _ _ _ _ _ Hg He) as [k E], (walk_located _ _ _ _ _ _ Hg' He) as [k' E']. rewrite E in E'.
  symmetry. by apply app_inj_1 in E' as [? _]; [|lia].
Qed.

Definition seen_ok (st : gmap (list N) DirectoryNode) (seen : gmap (list N) (list N)) : Prop :=
  forall d p, seen !! d = Some p -> exists r, (length p + r = HASH_NIBBLES)%nat /\ good st r p d.
Definition unvisited (seen : gmap (list N) (list N)) (path : list N) : Prop := forall d p, seen !! d = Some p -> ~ path `prefix_of` p.

(** Visiting a subtrie adds only places below it. *)
Definition visits (st : gmap (list N) DirectoryNode) (path : list N) (seen seen' : gmap (list N) (list N)) : Prop :=
  seen_ok st seen' /\ forall d p, seen' !! d = Some p -> seen !! d = Some p \/ path `prefix_of` p.

Lemma verify_children st rest path l seen :
  (forall slot c s0, (slot, c) ∈ l -> seen_ok st s0 -> unvisited s0 (path ++ [slot]) ->
     exists s1, verify_node st rest c (path ++ [slot]) s0 = (Ok tt, s1) /\ visits st (path ++ [slot]) s0 s1) ->
  NoDup l.*1 -> seen_ok st seen -> (forall slot c, (slot, c) ∈ l -> unvisited seen (path ++ [slot])) ->
  exists ys s1, traverse (fun '(slot, c) => verify_node st rest c (path ++ [slot])) l seen = (Ok ys, s1) /\ visits st path seen s1.
Proof.
  revert seen. induction l as [|[slot c] l IH]; intros seen Hv Hnd Hok Hun; cbn [traverse].
  { exists [], seen. split; [done|]. split; [done|]. auto. }
  apply NoDup_cons in Hnd as [Hfresh Hnd].
  destruct (Hv slot c seen) as (s1 & E1 & Ok1 & V1); [by left|done|by apply (Hun slot c); left|].
  destruct (IH s1) as (ys & s2 & E2 & Ok2 & V2); [|done|done| |].
  - intros slot' c' s0 Hin. apply Hv. by right.
  - intros slot' c' Hin d p Hp Hpre. destruct (V1 d p Hp) as [Hold|Hnew].
    + by apply (Hun slot' c' ltac:(by right) d p Hold).
    + apply Hfresh. apply list_elem_of_fmap. exists (slot', c'). split; [|done]. cbn.
      destruct Hpre as [k ->], Hnew as [k' E]. rewrite <- !app_assoc in E. apply (inj (app path)) in E. cbn in E. congruence.
  - exists (tt :: ys), s2. unfold mbind, SE_bind. rewrite E1, E2. split; [done|]. split; [done|]. intros d p Hp.
    destruct (V2 d p Hp) as [H1|]; [|by right]. destruct (V1 d p H1) as [|Hpre]; [by left|]. right. by eapply prefix_app_l.
Qed.

(** A leaf at the nibbles of its hash passes its checks. *)
Lemma leaf_passes l path :
  validate_node (Leaf l) = Ok tt -> nibbles (key_hash l) = path ->
  existsb (fun '(i, slot) => negb (nibble (key_hash l) i =? slot)) (imap pair path)
  || existsb (fun e => negb (bool_decide (name_hash (entry_key e) = key_hash l))) (entries l) = false.
Proof.
  intros (_ & _ & V3 & _)%valid_leaf Hp. apply orb_false_iff. split; apply not_true_iff_false.
  - intros ([j slot] & Hj & Hx)%existsb_exists. apply list_elem_of_In, elem_of_lookup_imap in Hj as (j' & s' & [= <- <-] & Hj).
    bool_cases. apply Hx. rewrite <- Hp in Hj. pose proof (lookup_lt_Some _ _ _ Hj) as Hlt. rewrite length_nibbles in Hlt.
    rewrite lookup_nibbles in Hj by done. congruence.
  - intros (e & He & Hx)%existsb_exists. rewrite Forall_forall in V3. bool_cases. apply Hx, V3. by apply list_elem_of_In.
Qed.

Lemma verify_node_accepts st rest path d seen :
  (length path + rest = HASH_NIBBLES)%nat -> good st rest path d -> pruned st rest d ->
  (path <> [] -> forall n, load_verified st d = Ok n -> has_children n) -> (path = [] -> seen = ∅) ->
  seen_ok st seen -> unvisited seen path ->
  exists seen', verify_node st rest d path seen = (Ok tt, seen') /\ visits st path seen seen'.
Proof.
  revert path d seen. induction rest as [|rest IH]; intros path d seen Hlen Hg Hp Hc Hroot Hok Hun;
    pose proof Hg as (n & Hn & Hm); cbn [verify_node]; unfold mbind at 1, SE_bind at 1, get_state;
    unfold mbind at 1, SE_bind at 1, modify_state.
  all: assert (seen !! d = None) as Hnew.
  1,3: destruct (decide (path = [])) as [Ep|Ep]; [by rewrite (Hroot Ep)|]; destruct (seen !! d) as [p|] eqn:Es; [|done]; exfalso;
    destruct (Hok d p Es) as (r & Hr & Hgr); apply (Hun d p Es); by rewrite (digest_located st _ r path p d Hlen Hr Hg Hp (Hc Ep) Hgr).
  all: assert (visits st path seen (<[d := path]> seen)) as [Hok' Hvis].
  1,3: split; [intros d' p'; rewrite lookup_insert_Some; intros [[<- <-]|[_ Hs]]; [by eexists; split; [exact Hlen|exact Hg]|by apply Hok]|];
    intros d' p'; rewrite lookup_insert_Some; intros [[<- <-]|[_ Hs]]; [by right|by left].
  all: rewrite Hnew, bool_decide_eq_false_2 by (by intros [? ?]); unfold mbind at 1, SE_bind at 1, lift; rewrite Hn.
  - destruct n as [i|l]; [done|]. destruct Hm as (H1 & H2 & H3). eexists. split; [|split; [exact Hok'|exact Hvis]].
    apply load_verified_Ok in Hn as (_ & Hv & _). by rewrite (leaf_passes l path Hv H2).
  - destruct n as [i|l]; [|done]. destruct Hm as [Hd Hg']. rewrite Hd, N.eqb_refl. cbn [pruned] in Hp. rewrite Hn in Hp.
    destruct (verify_children st rest path (ascending_map (children i)) (<[d := path]> seen)) as (ys & s1 & E & Hv); [| |done| |].
    + intros slot c s0 Hin%elem_of_ascending_map Hs0 Hu0. destruct (Hp slot c Hin) as [P1 P2].
      apply IH; [rewrite length_app; cbn; lia|by apply Hg'|done|done|by destruct path|done|done].
    + apply ascending_map_NoDup.
    + intros slot c _ d' p' Hs' Hpre. destruct (Hvis d' p' Hs') as [Hold|_].
      * apply (Hun d' p' Hold). by eapply prefix_app_l.
      * revert Hs'. rewrite lookup_insert_Some. intros [[<- <-]|[_ Hold]]; [|apply (Hun d' p' Hold); by eapply prefix_app_l].
        apply prefix_length in Hpre. rewrite length_app in Hpre. cbn in Hpre. lia.
    + exists s1. unfold mbind, SE_bind. rewrite E. split; [done|]. destruct Hv as [Hv1 Hv2]. split; [done|]. intros d' p' Hs'.
      destruct (Hv2 d' p' Hs') as [Hx|]; [by apply Hvis|by right].
Qed.

Definition store_text (st : gmap (list N) DirectoryNode) : Prop := forall d l, st !! d = Some (Leaf l) -> keys_text (entries l).

(** Verification accepts only tries in good order. *)
Lemma verify_node_sound st rest path d seen seen' :
  store_text st -> (length path + rest = HASH_NIBBLES)%nat -> verify_node st rest d path seen = (Ok tt, seen') -> good st rest path d.
Proof.
  intros Ht. revert path d seen seen'. induction rest as [|rest IH]; intros path d seen seen' Hlen; cbn [verify_node];
    unfold mbind at 1, SE_bind at 1, get_state; unfold mbind at 1, SE_bind at 1, modify_state; (case_bool_decide; [done|]);
    unfold mbind at 1, SE_bind at 1, lift; destruct (load_verified st d) as [n|] eqn:Hn; try done.
  - destruct n as [i|l]; [done|]. destruct (_ || _) eqn:Eo; [done|]. intros _. apply orb_false_iff in Eo as [E1 E2].
    exists (Leaf l). split; [done|]. apply load_verified_Ok in Hn as (Hst & (V1 & _ & V3 & _)%valid_leaf & _).
    assert (digest_ok (key_hash l)) as Hk.
    { destruct (entries l) as [|e es]; [done|]. apply Forall_cons in V3 as [<- _]. apply name_hash_ok. }
    split_and!; [done| |by eapply Ht]. apply list_eq. intros j. destruct (decide (j < HASH_NIBBLES)%nat) as [Hj|Hj].
    + rewrite lookup_nibbles by done. destruct (lookup_lt_is_Some_2 path j) as [slot Hs]; [lia|]. rewrite Hs. f_equal.
      apply not_true_iff_false in E1. destruct (N.eqb_spec (nibble (key_hash l) j) slot) as [|Hne]; [done|]. exfalso. apply E1, existsb_exists.
      exists (j, slot). split; [apply list_elem_of_In, elem_of_lookup_imap; by exists j, slot|]. by apply negb_true_iff, N.eqb_neq.
    + rewrite !lookup_ge_None_2; [done|lia|rewrite length_nibbles; lia].
  - destruct n as [i|l]; [|done]. destruct (N.eqb_spec (depth i) (N.of_nat (HASH_NIBBLES - S rest))) as [Hd|]; [|done].
    intros (ys & s1 & Htr & _)%se_bind_Ok. exists (Internal i). split; [done|]. split; [done|]. intros slot c Hc%elem_of_ascending_map.
    revert Hc Htr. generalize (<[d := path]> seen) ys s1. induction (ascending_map (children i)) as [|[slot' c'] l IHl]; intros s0 ys' s2 Hin Htr; [by apply not_elem_of_nil in Hin|].
    cbn [traverse] in Htr. apply se_bind_Ok in Htr as ([] & s3 & Hv & (ys3 & s4 & Htr & _)%se_bind_Ok).
    apply elem_of_cons in Hin as [[= -> ->]|Hin]; [|by eapply IHl]. eapply IH; [|exact Hv]. rewrite length_app. cbn. lia.
Qed.

(** Whatever is in good order stands for some map. *)
Fixpoint leaves (st : gmap (list N) DirectoryNode) (rest : nat) (d : bytes) : list DirectoryEntry :=
  match rest, load_verified st d with
  | S rest', Ok (Internal i) => concat (map (fun '(_, c) => leaves st rest' c) (ascending_map (children i)))
  | O, Ok (Leaf l) => entries l
  | _, _ => []
  end.

Lemma elem_of_leaves st rest path d e :
  (length path + rest = HASH_NIBBLES)%nat -> good st rest path d ->
  e ∈ leaves st rest d <-> follows (name_hash (entry_key e)) path /\ e ∈ walk st rest d (name_hash (entry_key e)).
Proof.
  revert path d. induction rest as [|rest IH]; intros path d Hlen Hg; pose proof Hg as (n & Hn & Hm); cbn [leaves]; rewrite Hn.
  - cbn [walk]. rewrite Hn. destruct n as [i|l]; [done|]. split; [|by intros [_ ?]]. intros He. split; [|done].
    destruct Hm as (_ & <- & _). apply load_verified_Ok in Hn as (_ & (_ & _ & V3 & _)%valid_leaf & _). rewrite Forall_forall in V3.
    unfold follows. by rewrite V3.
  - destruct n as [i|l]; [|done]. destruct Hm as [_ Hc]. rewrite list_elem_of_In, in_concat, (walk_below st rest path d i) by done. split.
    + intros (x & Hx & He). apply in_map_iff in Hx as ([slot c] & <- & Hsc). apply list_elem_of_In in Hsc, He. apply elem_of_ascending_map in Hsc.
      apply (IH (path ++ [slot])) in He as [Hf He]; [|rewrite length_app; cbn; lia|by apply Hc].
      split; [by eapply follows_prefix|]. unfold below. by rewrite (nibble_follows _ path slot), Hsc by (done || lia).
    + intros [Hf He]. unfold below in He. destruct (children i !! _) as [c|] eqn:Ec; [|by apply not_elem_of_nil in He].
      eexists. split; [apply in_map_iff; eexists (_, c); split; [reflexivity|]; by apply list_elem_of_In, elem_of_ascending_map|].
      apply list_elem_of_In. eapply (IH (path ++ [_])); [rewrite length_app; cbn; lia|by apply Hc|]. split; [|done]. apply follows_snoc; [done|lia].
Qed.

Lemma good_represents t : good (nodes t) HASH_NIBBLES [] (root t) -> exists m, represents t m.
Proof.
  intros Hg. set (es := leaves (nodes t) HASH_NIBBLES (root t)).
  assert (forall e, e ∈ es -> text (entry_key e) /\ find_entry (entry_key e) (walk (nodes t) HASH_NIBBLES (root t) (name_hash (entry_key e))) = Some e) as Hes.
  { intros e He. apply (elem_of_leaves _ _ []) in He as [_ He]; [|done|done].
    destruct (walk_entries (nodes t) HASH_NIBBLES [] (root t) (name_hash (entry_key e)) eq_refl Hg (name_hash_ok _) (follows_nil _)) as (W1 & W2 & W3).
    unfold keys_text in W1. rewrite Forall_forall in W1. split; [by apply W1|by apply find_entry_member]. }
  exists (list_to_map (map (fun e => (entry_key e, e)) es)). split; [done| |].
  - intros k Hk. destruct (list_to_map (M := gmap (list N) DirectoryEntry) (map (fun e => (entry_key e, e)) es) !! k) as [e|] eqn:E.
    + apply elem_of_list_to_map_2, list_elem_of_fmap in E as (e' & [= -> ->] & He). by apply Hes.
    + destruct (find_entry k _) as [e|] eqn:Ef; [|done]. exfalso. apply find_entry_Some in Ef as [Hin <-].
      assert (e ∈ es) as He by (apply (elem_of_leaves _ _ []); [done|done|by split; [apply follows_nil|]]).
      apply not_elem_of_list_to_map in E. apply E. apply list_elem_of_fmap. exists (entry_key e, e). split; [done|]. apply list_elem_of_fmap. by exists e.
  - intros k e Hke. apply elem_of_list_to_map_2, list_elem_of_fmap in Hke as (e' & [= -> ->] & He). split; [by apply Hes|done].
Qed.

(** A history without refusals, step by step. *)
Fixpoint all_accepted (ops : list DirectoryOp) (t : DirectoryTrie) : bool :=
  match ops with [] => true | op :: rest => is_ok (trie_step op t).1 && all_accepted rest (trie_step op t).2 end.

Lemma accepted_represents ops t m :
  represents t m -> Forall (fun op => text (op_key op)) ops -> all_accepted ops t = true ->
  exists m', try_fold (fun m op => map_step op m) m ops = Ok m' /\ represents (trie_run ops t) m'.
Proof.
  intros Hr Hops. revert t m Hr. induction Hops as [|op ops Hop _ IH]; intros t m Hr; cbn [all_accepted try_fold]; [by exists m|].
  intros [Ha Hrest]%andb_true_iff.
  destruct (step_simulates False op t m Hr ltac:(split; [apply Hr|done]) Hop) as [[_ Hs] _].
  destruct (trie_step op t) as [[u|x] t'] eqn:E; cbn [fst snd] in *; [|done]. destruct (map_step op m) as [m1|]; [|done]. cbn [mbind result_bind].
  destruct Hs as [Hr1 _]. destruct (IH t' m1 Hr1 Hrest) as (m' & E1 & E2). exists m'. split; [done|].
  cbn [trie_run foldl]. by rewrite E.
Qed.

Definition record_text (r : DirectoryNodeRecord) : Prop := match node r with Leaf l => keys_text (entries l) | Internal _ => True end.

Lemma index_records_text records st st' :
  Forall record_text records -> store_text st -> try_fold index_record st records = Ok st' -> store_text st'.
Proof.
  intros Hr. revert st. induction Hr as [|r rs Hx _ IH]; intros st Hst; cbn [try_fold]; [by intros [= <-]|].
  intros (st1 & H1 & H2)%result_bind_Ok. eapply IH; [|exact H2]. unfold index_record in H1. inv_ok.
  intros d l. rewrite lookup_insert_Some. intros [[_ E]|[_ E]]; [|by eapply Hst]. unfold record_text in Hx. by rewrite E in Hx.
Qed.

Lemma verify_represents t : store_text (nodes t) -> verify t = Ok tt -> exists m, represents t m.
Proof.
  intros Hst. unfold verify. destruct (complete t); cbn [negb]; [|done].
  destruct (verify_node (nodes t) HASH_NIBBLES (root t) [] ∅) as [r seen] eqn:E. cbn [fst]. intros ->.
  apply good_represents. by eapply verify_node_sound.
Qed.

Lemma sound_verifies t : complete t = true -> sound True (nodes t) HASH_NIBBLES [] (root t) -> verify t = Ok tt.
Proof.
  intros Hc [Hg Hp]. unfold verify. rewrite Hc. cbn [negb].
  destruct (verify_node_accepts (nodes t) HASH_NIBBLES [] (root t) ∅) as (seen & E & _); try done; [by apply Hp|]. by rewrite E.
Qed.

Lemma run_complete ops t : complete (trie_run ops t) = complete t.
Proof.
  revert t. induction ops as [|op ops IH]; intros t; [done|]. cbn [trie_run foldl]. change (foldl _ ?a ops) with (trie_run ops a).
  rewrite IH. enough (post (trie_step op) t (fun _ t' => complete t' = complete t)) as Hp by exact Hp.
  destruct op as [e expected|n expected]; cbn [trie_step]; unfold upsert, Directory.remove.
  - apply post_get_bind, post_lift_bind; [|done]. intros p _. apply post_lift_bind; [|done]. intros [] _. apply post_bind, post_on_nodes.
    unfold post. by destruct (upsert_node _ _ _ _ _) as [[d|x] b].
  - apply post_get_bind, post_lift_bind; [|done]. intros p _. apply post_lift_bind; [|done]. intros q _. case_match; [done|].
    apply post_bind, post_on_nodes. unfold post. by destruct (remove_node _ _ _ _ _) as [[[d|]|x] b].
Qed.


(** C25: a directory has one root per content: two histories of insertions and removals, from
    empty directories in different stores, that lead to the same entries lead to the same
    root digest, whatever their order and whatever was added and removed on the way. *)
Theorem directory_root_unique (ops1 ops2 : list DirectoryOp) (m : DirectoryMap) :
  Forall (fun op => text (op_key op)) ops1 -> Forall (fun op => text (op_key op)) ops2 ->
  represents (trie_run ops1 Directory.empty) m -> represents (trie_run ops2 Directory.empty) m ->
  root (trie_run ops1 Directory.empty) = root (trie_run ops2 Directory.empty).
Proof.
  intros H1 H2 R1 R2. destruct empty_represents as [R0 S0].
  destruct (run_sound True ops1 _ _ R0 S0 H1) as (_ & _ & [G1 P1] & _). destruct (run_sound True ops2 _ _ R0 S0 H2) as (_ & _ & [G2 P2] & _).
  eapply (unique_node _ _ HASH_NIBBLES []); [done|exact G1|exact G2|by apply P1|by apply P2|]. intros h Hh _. by eapply represents_walk.
Qed.

(** Older roots stay readable: whatever happens to a directory afterwards, a lookup under
    a root that stood for a map when it was current still answers what that map held. *)
Theorem old_roots_readable (t : DirectoryTrie) (m : DirectoryMap) (ops : list DirectoryOp) (n : NamespaceComponent) :
  represents t m -> Forall (fun op => text (op_key op)) ops -> text (canonical n) ->
  lookup_at (trie_run ops t) (root t) n = Ok (m !! canonical n).
Proof.
  intros Hr Hops Hn. destruct (run_sound False ops t m Hr) as (_ & _ & _ & Hs); [by split; [apply Hr|]|done|].
  apply (lookup_represented (set_root (root t) (trie_run ops t)) m); [|done]. by apply (represents_grow t).
Qed.

(** Verification is exact where it matters: every directory reached from the empty one
    passes it, and untrusted records that pass it stand for a map, so that no lookup in what
    was loaded can report corruption. *)
Theorem verified_directories (ops : list DirectoryOp) (d : bytes) (records : list DirectoryNodeRecord) (t : DirectoryTrie) :
  Forall (fun op => text (op_key op)) ops -> Forall record_text records -> from_records d records = Ok t ->
  verify (trie_run ops Directory.empty) = Ok tt /\ root t = d /\ exists m, represents t m.
Proof.
  intros Hops Hrec Ht. split.
  - destruct empty_represents as [R0 S0]. destruct (run_sound True ops _ _ R0 S0 Hops) as (_ & _ & Hs & _).
    apply sound_verifies; [by rewrite run_complete|done].
  - unfold from_records in Ht. apply result_bind_Ok in Ht as (st & Hst & ([] & Hv & [= <-])%result_bind_Ok). split; [done|].
    apply verify_represents; [|done]. eapply index_records_text; [exact Hrec| |exact Hst]. intros x l. by rewrite lookup_empty.
Qed.

End directories.

Section frames.
Context `{Blake3}.
Abbreviation Store := (gmap (list N) DirectoryNode) (only parsing).

(** What a building step added. *)
Record extends (b b1 : Building) : Prop := {
  extends_grows : built b ⊆ built b1;
  extends_created d n : built b1 !! d = Some n -> built b !! d = Some n \/ d ∈ created b1;
  extends_listed d : d ∈ created b -> d ∈ created b1
}.

(** A step that succeeds on a store does the same on every larger one that holds what it
    created. *)
Definition frames {A} (m : SE Building DirectoryTrieError A) : Prop :=
  forall b a b1, m b = (Ok a, b1) ->
    extends b b1 /\ forall (full : Store) c, built b1 ⊆ full -> exists c', m {| built := full; created := c |} = (Ok a, {| built := full; created := c' |}).

Lemma extends_refl b : extends b b.
Proof. split; [done|by left|done]. Qed.

Lemma extends_trans b b1 b2 : extends b b1 -> extends b1 b2 -> extends b b2.
Proof.
  intros [G1 C1 L1] [G2 C2 L2]. split; [by etransitivity| |auto].
  intros d n Hd. destruct (C2 d n Hd) as [Hd'|]; [|by right]. destruct (C1 d n Hd') as [|]; [by left|right; by apply L2].
Qed.

Lemma frames_ret {A} (a : A) : frames (mret a).
Proof. intros b x b1 [= <- <-]. split; [apply extends_refl|]. intros full c _. by exists c. Qed.

Lemma frames_raise {A} e : frames (A := A) (raise e).
Proof. by intros b x b1 [=]. Qed.

Lemma frames_lift {A} (r : result DirectoryTrieError A) : frames (lift r).
Proof. intros b x b1 [= -> <-]. split; [apply extends_refl|]. intros full c _. by exists c. Qed.

Lemma frames_bind {A B} (m : SE Building DirectoryTrieError A) (f : A -> SE Building DirectoryTrieError B) :
  frames m -> (forall a, frames (f a)) -> frames (a ← m; f a).
Proof.
  intros Hm Hf b y b2 E. apply se_bind_Ok in E as (a & b1 & E1 & E2). destruct (Hm _ _ _ E1) as [X1 F1], (Hf _ _ _ _ E2) as [X2 F2].
  split; [by eapply extends_trans|]. intros full c Hsub. destruct (F1 full c) as [c1 R1]; [transitivity (built b2); [apply X2|done]|].
  destruct (F2 full c1 Hsub) as [c2 R2]. exists c2. unfold mbind, SE_bind. by rewrite R1.
Qed.

Lemma frames_load d : frames (load d).
Proof.
  intros b n b1. unfold load. cbn. unfold lift. intros [= E <-]. split; [apply extends_refl|]. intros full c Hsub. exists c.
  unfold load, mbind, SE_bind, get_state, lift. cbn [built]. by rewrite (load_verified_mono (built b) full d n).
Qed.

Lemma frames_store n : frames (store_node n).
Proof.
  intros b d b1 E. unfold store_node in E. apply se_bind_Ok in E as ([] & s & E0 & E). unfold lift in E0. injection E0 as Hv <-.
  apply se_bind_Ok in E as (s & s' & [= <- <-] & E). assert (forall (full : Store) c, full !! node_digest n = Some n ->
    store_node n {| built := full; created := c |} = (Ok (node_digest n), {| built := full; created := c |})) as Hfull.
  { intros full c Hn. unfold store_node, mbind, SE_bind, lift, get_state. rewrite Hv. cbn [built]. rewrite Hn. by rewrite bool_decide_eq_true_2. }
  destruct (built b !! node_digest n) as [x|] eqn:Ex.
  - case_bool_decide as Hx; [|done]. subst x. injection E as <- <-. split; [apply extends_refl|]. intros full c Hsub. exists c.
    apply Hfull. by eapply lookup_weaken.
  - apply se_bind_Ok in E as ([] & s & [= <-] & [= <- <-]). split.
    + split; cbn; [by apply insert_subseteq| |intros d Hd; set_solver].
      intros d x. rewrite lookup_insert_Some. intros [[<- <-]|[_ Hd]]; [right; set_solver|by left].
    + cbn [built]. intros full c Hsub. exists c. apply Hfull. eapply lookup_weaken; [apply lookup_insert_eq|done].
Qed.

Hint Resolve frames_ret frames_raise frames_lift frames_bind frames_load frames_store : frames.

Lemma frames_upsert_leaf d hash e : frames (upsert_leaf d hash e).
Proof.
  unfold upsert_leaf. apply frames_bind; [auto with frames|]. intros [i|l]; [auto with frames|].
  destruct (negb _); [auto with frames|]. destruct (search_entries _ _) as [i|i]; [auto with frames|]. destruct (_ <? _); auto with frames.
Qed.

Lemma frames_build_path rest hash e : frames (build_path rest hash e).
Proof. induction rest as [|rest IH]; cbn [build_path]; auto 6 with frames. Qed.

Lemma frames_upsert_node rest d hash e : frames (upsert_node rest d hash e).
Proof.
  revert d. induction rest as [|rest IH]; intros d; cbn [upsert_node]; [apply frames_upsert_leaf|].
  apply frames_bind; [auto with frames|]. intros [i|l]; [|auto with frames]. destruct (negb _); [auto with frames|].
  apply frames_bind; [|auto with frames]. destruct (children i !! _); [apply IH|apply frames_build_path].
Qed.

Lemma frames_remove_leaf d hash key : frames (remove_leaf d hash key).
Proof.
  unfold remove_leaf. apply frames_bind; [auto with frames|]. intros [i|l]; [auto with frames|].
  destruct (negb _); [auto with frames|]. destruct (search_entries _ _) as [i|i]; [|auto with frames]. case_bool_decide; auto with frames.
Qed.

Lemma frames_remove_node rest d hash key : frames (remove_node rest d hash key).
Proof.
  revert d. induction rest as [|rest IH]; intros d; cbn [remove_node]; [apply frames_remove_leaf|].
  apply frames_bind; [auto with frames|]. intros [i|l]; [|auto with frames]. destruct (negb _); [auto with frames|].
  apply frames_bind; [auto with frames|]. intros c. apply frames_bind; [apply IH|]. intros next. destruct (_ && _); auto with frames.
Qed.

(** A lookup that answers in a part answers the same in the whole. *)
Lemma lookup_from_mono (st st' : Store) rest d hash key r :
  st ⊆ st' -> lookup_from st rest d hash key = Ok r -> lookup_from st' rest d hash key = Ok r.
Proof.
  intros Hs. revert d. induction rest as [|rest IH]; intros d; cbn [lookup_from]; intros E; apply result_bind_Ok in E as (n & Hn & E);
    rewrite (load_verified_mono st st' d n Hs Hn); cbn [mbind result_bind]; [done|].
  destruct n as [i|l]; [|done]. destruct (negb _); [done|]. destruct (children i !! _); [by apply IH|done].
Qed.

(** The whole a trie is part of. *)
Definition whole (full : Store) (t : DirectoryTrie) : DirectoryTrie := {| root := root t; nodes := full; complete := complete t |}.

Lemma lookup_whole full t n r : nodes t ⊆ full -> Directory.lookup t n = Ok r -> Directory.lookup (whole full t) n = Ok r.
Proof. apply lookup_from_mono. Qed.

(** A request to a part that succeeds, on the whole. *)
Definition same_change (full : Store) (op : DirectoryOp) (t t1 : DirectoryTrie) (u : DirectoryMutation) : Prop :=
  exists u', trie_step op (whole full t) = (Ok u', whole full t1) /\ new_root u' = new_root u.

Lemma on_nodes_frames {A} (m : SE Building DirectoryTrieError A) t a made t1 :
  frames m -> on_nodes m t = (Ok (a, made), t1) ->
  root t1 = root t /\ nodes t ⊆ nodes t1 /\ (forall d n, nodes t1 !! d = Some n -> nodes t !! d = Some n \/ d ∈ made) /\
  forall full, nodes t1 ⊆ full -> exists made', on_nodes m (whole full t) = (Ok (a, made'), whole full t1).
Proof.
  intros Hm. unfold on_nodes. destruct (m _) as [[x|e] b1] eqn:E; cbn [fmap result_fmap]; [|done]. intros [= <- <- <-]. cbn [root nodes].
  destruct (Hm _ _ _ E) as [[G C _] F]. split_and!; [done|done|done|]. intros full Hsub. destruct (F full [] Hsub) as [c' Ec].
  exists c'. cbn [whole nodes root complete]. by rewrite Ec.
Qed.

Lemma step_frames op t u t1 :
  trie_step op t = (Ok u, t1) ->
  new_root u = root t1 /\ nodes t ⊆ nodes t1 /\ (forall d n, nodes t1 !! d = Some n -> nodes t !! d = Some n \/ d ∈ created_nodes u) /\
  forall full, nodes t1 ⊆ full -> same_change full op t t1 u.
Proof.
  destruct op as [e expected|n expected]; unfold same_change; cbn [trie_step].
  - unfold upsert. intros E. apply se_bind_Ok in E as (s & s' & [= <- <-] & E). apply se_bind_Ok in E as (previous & s & [= Hp <-] & E).
    apply se_bind_Ok in E as ([] & s & [= Hv <-] & E). apply se_bind_Ok in E as ([d made] & t2 & E2 & E). apply se_bind_Ok in E as ([] & s & [= <-] & [= <- <-]).
    destruct (on_nodes_frames _ _ _ _ _ (frames_upsert_node _ _ _ _) E2) as (Hr & Hs & Hc & Hf). cbn [new_root root set_root nodes created_nodes mutation].
    split_and!; [done..|]. intros full Hsub. destruct (Hf full Hsub) as [made' Ef]. eexists. split.
    { unfold mbind, SE_bind, get_state, lift. rewrite (lookup_whole full t (name e) previous) by (by etransitivity || done). rewrite Hv.
    cbn [whole root] in Ef |- *. rewrite Ef. reflexivity. }
    done.
  - unfold Directory.remove. intros E. apply se_bind_Ok in E as (s & s' & [= <- <-] & E). apply se_bind_Ok in E as (found & s & [= Hp <-] & E).
    apply se_bind_Ok in E as (previous & s & [= Hv <-] & E). destruct (negb _) eqn:Ee; [done|].
    apply se_bind_Ok in E as ([next made] & t2 & E2 & E). apply se_bind_Ok in E as (d & s & [= Hd <-] & E). apply se_bind_Ok in E as ([] & s & [= <-] & [= <- <-]).
    destruct (on_nodes_frames _ _ _ _ _ (frames_remove_node _ _ _ _) E2) as (Hr & Hs & Hc & Hf). cbn [new_root root set_root nodes created_nodes mutation].
    split_and!; [done..|]. intros full Hsub. destruct (Hf full Hsub) as [made' Ef]. eexists. split.
    { unfold mbind, SE_bind, get_state, lift. rewrite (lookup_whole full t n found) by (by etransitivity || done). rewrite Hv, Ee.
    cbn [whole root] in Ef |- *. rewrite Ef, Hd. reflexivity. }
    done.
Qed.

End frames.
