(* ===== verification/DirectoryCodec.v ===== *)
(** The byte encoding of directory nodes: every valid node fits its bound and decodes to
    itself. *)

From Stdlib Require Import String.
From S2P Require Import Prelude Ids Codec Contracts Name Directory DirectoryFacts.
From stdpp Require Import prelude gmap list sorting.
#[local] Open Scope N_scope.

Section codec.
Context `{Blake3} `{UnicodeLaws}.
Abbreviation parses := (parses (E := DirectoryTrieError)).

(** What the Rust types of an entry and of a node guarantee. *)
Record entry_typed (e : DirectoryEntry) : Prop := {
  typed_name : component_ok (name e);
  typed_object : Identifier.valid (object_id e);
  typed_revision : Identifier.valid (object_revision_id e);
  typed_generation : 0 < generation e < 256 ^ 8
}.
Definition node_typed (n : DirectoryNode) : Prop :=
  match n with
  | Internal i => forall slot c, children i !! slot = Some c -> length c = 32%nat
  | Leaf l => length (key_hash l) = 32%nat /\ Forall entry_typed (entries l)
  end.

Lemma parses_bind_nil {A B} (m : SE Cursor DirectoryTrieError A) (f : A -> SE Cursor DirectoryTrieError B) bs a b :
  parses m bs a -> parses (f a) [] b -> parses (m ≫= f) bs b.
Proof. intros Hm Hf. rewrite <- (app_nil_r bs). by eapply parses_bind. Qed.

Lemma parses_final {A} (r : result DirectoryTrieError A) a : r = Ok a -> parses (lift r) [] a.
Proof. intros ->. apply (parses_ret (A := A) (E := DirectoryTrieError) a). Qed.

Lemma u32_or_max_small n : n <= u32_max -> u32_or_max n = n.
Proof. intros Hn. unfold u32_or_max, try_narrow. by rewrite (proj2 (N.leb_le _ _) Hn). Qed.
Lemma u16_or_max_small n : n <= u16_max -> u16_or_max n = n.
Proof. intros Hn. unfold u16_or_max, try_narrow. by rewrite (proj2 (N.leb_le _ _) Hn). Qed.

Lemma parses_text s : text s -> str_len s <= HARD_MAXIMUM_COMPONENT_BYTES -> parses take_text (encode_text s) s.
Proof.
  intros Ht Hl. unfold take_text, encode_text. unfold HARD_MAXIMUM_COMPONENT_BYTES in Hl. rewrite u32_or_max_small by (unfold u32_max; lia).
  eapply parses_bind; [apply (parses_unsigned Corrupt 4); change (256 ^ N.of_nat 4) with 4294967296; lia|].
  eapply parses_bind_nil; [by apply parses_take|]. apply parses_final. by rewrite from_utf8_as_bytes.
Qed.

Lemma parses_entry e : entry_typed e -> parses decode_entry (encode_entry e) e.
Proof.
  intros [Hn Ho Hr [Hg0 Hg]]. unfold decode_entry, encode_entry.
  eapply parses_bind; [apply parses_text; [by apply canonical_text|by apply canonical_size]|].
  eapply parses_bind; [apply parses_text; [by apply display_text|by apply display_size]|].
  eapply parses_lift; [rewrite from_stored_component by done; reflexivity|].
  eapply parses_bind; [by apply parses_identifier|]. eapply parses_bind; [by apply parses_identifier|].
  eapply parses_byte_bind. eapply (parses_lift _ _ _ (kind e)); [by destruct (kind e)|].
  eapply parses_bind_nil; [by apply (parses_unsigned Corrupt 8)|]. apply parses_final. unfold new_entry.
  rewrite (proj2 (N.eqb_neq _ 0)) by lia. by destruct e.
Qed.

Lemma list_to_map_ascending (m : gmap N bytes) : list_to_map (ascending_map m) = m.
Proof.
  apply map_eq. intros k. apply option_eq. intros v. rewrite <- elem_of_list_to_map by apply ascending_map_NoDup. apply elem_of_ascending_map.
Qed.

Lemma parses_children l acc :
  NoDup l.*1 -> Forall (fun '(slot, c) => acc !! slot = None /\ length c = 32%nat) l ->
  parses (decode_children (length l) acc) (concat (map (fun '(slot, c) => slot :: c) l)) (list_to_map l ∪ acc).
Proof.
  revert acc. induction l as [|[slot c] l IH]; intros acc Hnd Hl; cbn [length decode_children map concat list_to_map foldr].
  { rewrite (left_id_L ∅ _). apply parses_ret. }
  apply NoDup_cons in Hnd as [Hfresh Hnd]. apply Forall_cons in Hl as [[Hs Hc] Hl].
  eapply (parses_bind _ _ (slot :: c) _ (slot, c)).
  - unfold decode_child. eapply parses_byte_bind. eapply parses_bind_nil; [apply parses_take; unfold len; by rewrite Hc|]. apply parses_ret.
  - rewrite bool_decide_eq_false_2 by (rewrite Hs; by intros [? ?]).
    change (list_to_map ((slot, c) :: l)) with (<[slot := c]> (list_to_map (M := gmap N bytes) l)).
    replace (<[slot := c]> (list_to_map l) ∪ acc) with (list_to_map (M := gmap N bytes) l ∪ <[slot := c]> acc).
    + apply IH; [done|]. apply Forall_forall. intros [s' c'] Hin. rewrite Forall_forall in Hl. destruct (Hl _ Hin) as [H1' H2']. split; [|done].
      rewrite lookup_insert_ne; [done|]. intros <-. apply Hfresh, list_elem_of_fmap. by exists (slot, c').
    + rewrite <- insert_union_l, <- insert_union_r; [done|]. apply not_elem_of_list_to_map_1. exact Hfresh.
Qed.

Lemma parses_node n : node_typed n -> validate_node n = Ok tt -> parses decode_node (encode_node n) n.
Proof.
  intros Ht Hv. unfold decode_node, encode_node. destruct n as [i|l].
  - apply valid_internal in Hv as [Hd Hs]. eapply parses_byte_bind. cbn [N.eqb Pos.eqb]. unfold decode_internal. eapply parses_byte_bind.
    assert (length (ascending_map (children i)) = size (children i)) as Hsz.
    { rewrite <- (length_fmap fst), ascending_map_keys, length_ascending, size_dom. done. }
    assert (size (children i) <= 16)%nat as H16.
    { rewrite <- size_dom. transitivity (size (list_to_set (C := gset N) (range 0 16))); [|by vm_compute].
      apply subseteq_size. intros x Hx. apply elem_of_list_to_set, elem_of_range. specialize (Hs x Hx). lia. }
    rewrite u16_or_max_small by (unfold u16_max; lia).
    eapply parses_bind; [apply (parses_unsigned Corrupt 2); change (256 ^ N.of_nat 2) with 65536; lia|].
    rewrite (proj2 (N.ltb_ge _ _)) by lia. rewrite Nat2N.id, <- Hsz. eapply parses_bind_nil; [apply parses_children; [apply ascending_map_NoDup|]|].
    + apply Forall_forall. intros [slot c] Hin%elem_of_ascending_map. split; [apply lookup_empty|by eapply Ht].
    + rewrite list_to_map_ascending, (right_id_L ∅ _). destruct i. apply parses_ret.
  - apply valid_leaf in Hv as (V1 & V2 & _ & _). destruct Ht as [Hk He]. eapply parses_byte_bind. cbn [N.eqb Pos.eqb]. unfold decode_leaf.
    eapply parses_bind; [apply parses_take; unfold len; by rewrite Hk|]. unfold MAXIMUM_HASH_COLLISION_ENTRIES in *.
    rewrite u16_or_max_small by (unfold u16_max; lia).
    eapply parses_bind; [apply (parses_unsigned Corrupt 2); change (256 ^ N.of_nat 2) with 65536; lia|].
    rewrite (proj2 (N.eqb_neq _ 0)) by (unfold len; destruct (entries l); [done|cbn; lia]). rewrite (proj2 (N.ltb_ge _ _)) by lia. cbn [orb].
    unfold len. rewrite Nat2N.id. eapply parses_bind_nil; [apply parses_repeat; eapply Forall_impl; [exact He|]; apply parses_entry|].
    destruct l. apply parses_ret.
Qed.

Lemma encode_text_len s : len (encode_text s) = 4 + str_len s.
Proof. unfold encode_text. by rewrite len_app, len_be_bytes. Qed.

Lemma encode_entry_len e : entry_typed e -> len (encode_entry e) <= 2 * HARD_MAXIMUM_COMPONENT_BYTES + 49.
Proof.
  intros [Hn _ _ _]. unfold encode_entry, Identifier.as_bytes. rewrite !len_app, !encode_text_len, !len_be_bytes.
  pose proof (canonical_size _ Hn). pose proof (display_size _ Hn). unfold len. cbn [length]. lia.
Qed.

Lemma len_concat_map {A} (f : A -> bytes) (l : list A) bound : Forall (fun x => len (f x) <= bound) l -> len (concat (map f l)) <= bound * len l.
Proof. induction 1 as [|x l Hx _ IH]; [apply N.le_0_l|]. cbn [map concat]. rewrite len_app, len_cons. lia. Qed.

Lemma encode_node_len n : node_typed n -> validate_node n = Ok tt -> len (encode_node n) <= MAXIMUM_ENCODED_NODE_BYTES.
Proof.
  intros Ht Hv. unfold encode_node, MAXIMUM_ENCODED_NODE_BYTES. destruct n as [i|l].
  - rewrite !len_app, len_be_bytes. etransitivity; [apply N.add_le_mono_l, N.add_le_mono_l, (len_concat_map _ _ 33)|].
    + apply Forall_forall. intros [slot c] Hin%elem_of_ascending_map. rewrite len_cons. unfold len. rewrite (Ht _ _ Hin). done.
    + assert (len (ascending_map (children i)) <= 16); [|unfold len in *; cbn [length]; lia].
      unfold len. rewrite <- (length_fmap fst), ascending_map_keys, length_ascending, size_dom. cbn [validate_node] in Hv. inv_ok. bool_cases. done.
  - apply valid_leaf in Hv as (_ & V2 & _ & _). destruct Ht as [Hk He]. rewrite !len_app, len_be_bytes.
    etransitivity; [apply N.add_le_mono_l, N.add_le_mono_l, N.add_le_mono_l, (len_concat_map _ _ (2 * HARD_MAXIMUM_COMPONENT_BYTES + 49))|].
    + eapply Forall_impl; [exact He|]. apply encode_entry_len.
    + unfold MAXIMUM_HASH_COLLISION_ENTRIES, HARD_MAXIMUM_COMPONENT_BYTES, len in *. rewrite Hk. cbn [length]. lia.
Qed.

(** C30: every valid directory node, whatever its eight names of up to 16 KiB, encodes within
    the 300 KiB a reader accepts, and decoding the bytes under its digest gives it back. *)
Theorem directory_node_roundtrip (n : DirectoryNode) :
  node_typed n -> validate_node n = Ok tt ->
  len (encode_node n) <= MAXIMUM_ENCODED_NODE_BYTES /\
  decode_record (node_digest n) (encode_node n) = Ok {| digest := node_digest n; node := n |}.
Proof.
  intros Ht Hv. pose proof (encode_node_len n Ht Hv) as Hl. split; [done|]. unfold decode_record. rewrite (proj2 (N.ltb_ge _ _) Hl).
  destruct (parses_run decode_node (encode_node n) n (parses_node n Ht Hv)) as (c & E & Hu & _ & _).
  { etransitivity; [exact Hl|]. by vm_compute. }
  rewrite E, Hu, bool_decide_eq_true_2 by done. cbn [negb]. rewrite Hv. cbn [mbind result_bind]. by rewrite bool_decide_eq_true_2.
Qed.

End codec.
