(* ===== verification/DirectorySample.v ===== *)
(** A concrete hash and concrete Unicode tables, and directories over them that the theorems
    are applied to. *)

From Stdlib Require Import String.
From S2P Require Import Prelude Ids Codec Contracts Name Directory DirectoryFacts DirectoryMap DirectoryCodec.
From stdpp Require Import prelude gmap list.
#[local] Open Scope N_scope.

Module SampleDirectory.

(** A 32-byte checksum in the place of BLAKE3. *)
#[export] Instance checksum : Blake3 := fun b => be_bytes 4 (foldl (fun acc x => (acc * 257 + x + 1) mod 1048573) 7 b) ++ replicate 28 0.
#[export] Instance checksum_bytes : Blake3Bytes.
Proof.
  intros b. split; [unfold blake3, checksum; by rewrite length_app, length_be_bytes, length_replicate|].
  apply Forall_app. split; [apply be_bytes_range|]. apply Forall_replicate. lia.
Qed.

(** Texts of letters without accents: already normal, folded to lower case. *)
Definition lower (c : N) : N := if (65 <=? c) && (c <=? 90) then c + 32 else c.
#[export] Instance tables : Unicode := {| nfc := fun s => s; case_fold := map lower |}.
#[export] Instance tables_laws : UnicodeLaws.
Proof.
  constructor; [done| |done]. intros s Hs. cbn [case_fold tables]. apply Forall_fmap. eapply Forall_impl; [exact Hs|]. intros c Hc.
  unfold lower, compose, scalar in *. destruct (_ && _) eqn:E; [|done]. bool_cases. lia.
Qed.

Definition component (s : string) : NamespaceComponent :=
  match new_component (ascii_bytes s) PORTABLE with Ok c => c | Err _ => {| display := []; canonical := [] |} end.
Definition file (s : string) (object revision : N) : DirectoryEntry :=
  {| name := component s; object_id := object; object_revision_id := revision; kind := File; generation := 1 |}.

Definition report : DirectoryEntry := file "Report.txt" 11 21.
Definition report2 : DirectoryEntry := file "REPORT.txt" 11 22.
Definition notes : DirectoryEntry := file "notes" 12 23.

(** Two histories with the same outcome. *)
Definition history1 : list DirectoryOp := [Upsert report None; Upsert notes None; Upsert report2 (Some 21); Remove (component "NOTES") 23].
Definition history2 : list DirectoryOp := [Upsert notes None; Remove (component "notes") 23; Upsert report2 None].

Lemma report_text : text (canonical (component "report.txt")).
Proof. apply (bool_decide_unpack _). vm_compute. exact I. Qed.

Lemma histories_text : Forall (fun op => text (op_key op)) history1 /\ Forall (fun op => text (op_key op)) history2.
Proof. split; apply (bool_decide_unpack _); vm_compute; exact I. Qed.

Lemma represents_result (ops : list DirectoryOp) (m : gmap (list N) DirectoryEntry) :
  Forall (fun op => text (op_key op)) ops -> all_accepted ops Directory.empty = true ->
  try_fold (fun m op => map_step op m) ∅ ops = Ok m -> represents (trie_run ops Directory.empty) m.
Proof.
  intros Ht Ha Hm. destruct (accepted_represents ops _ _ (proj1 empty_represents) Ht Ha) as (m' & E & R).
  rewrite Hm in E. apply Ok_inj in E as <-. exact R.
Qed.

Lemma histories_represent :
  represents (trie_run history1 Directory.empty) {[ entry_key report2 := report2 ]} /\
  represents (trie_run history2 Directory.empty) {[ entry_key report2 := report2 ]}.
Proof.
  split; apply represents_result; [apply histories_text|vm_cast_no_check (eq_refl true)|vm_compute; reflexivity|
    apply histories_text|vm_cast_no_check (eq_refl true)|vm_compute; reflexivity].
Qed.

Definition stored : DirectoryTrie := trie_run history1 Directory.empty.
Definition records : list DirectoryNodeRecord := map (fun '(d, n) => {| digest := d; node := n |}) (map_to_list (nodes stored)).

Lemma loads : exists t, from_records (root stored) records = Ok t.
Proof.
  assert (is_ok (from_records (root stored) records) = true) as Hok by (vm_cast_no_check (eq_refl true)).
  destruct (from_records (root stored) records) as [t|]; [by exists t|done].
Qed.

Lemma records_text : Forall record_text records.
Proof.
  assert (forallb (fun r => match node r with Leaf l => bool_decide (keys_text (entries l)) | Internal _ => true end) records = true) as Hall
    by (vm_cast_no_check (eq_refl true)).
  apply Forall_forall. intros r Hr. unfold record_text. destruct (node r) as [|l] eqn:E; [done|].
  rewrite forallb_forall in Hall. specialize (Hall r (proj1 (list_elem_of_In _ _) Hr)). rewrite E in Hall. by bool_cases.
Qed.

(** A leaf with one file. *)
Definition leaf : DirectoryNode := Leaf {| key_hash := name_hash (entry_key report); entries := [report] |}.

Lemma report_typed : entry_typed report.
Proof.
  assert (new_component (ascii_bytes "Report.txt") PORTABLE = Ok (name report)) as Hn by (vm_compute; reflexivity).
  split; [|split; reflexivity..]. eapply new_component_ok; [|apply (new_limits_ok Portable 255 256 4096); vm_compute; reflexivity|exact Hn].
  apply (bool_decide_unpack _). vm_compute. exact I.
Qed.

End SampleDirectory.
#[local] Existing Instances SampleDirectory.checksum SampleDirectory.checksum_bytes SampleDirectory.tables SampleDirectory.tables_laws.


Lemma directory_root_unique_witness :
  root (trie_run SampleDirectory.history1 Directory.empty) = root (trie_run SampleDirectory.history2 Directory.empty).
Proof.
  destruct SampleDirectory.histories_text as [T1 T2], SampleDirectory.histories_represent as [R1 R2].
  exact (directory_root_unique _ _ _ T1 T2 R1 R2).
Defined.

Lemma old_roots_readable_witness :
  lookup_at (trie_run SampleDirectory.history1 Directory.empty) (root Directory.empty) (SampleDirectory.component "report.txt") = Ok None.
Proof.
  exact (old_roots_readable Directory.empty ∅ SampleDirectory.history1 _ (proj1 empty_represents) (proj1 SampleDirectory.histories_text) SampleDirectory.report_text).
Defined.

Lemma verified_directories_witness :
  exists t, from_records (root SampleDirectory.stored) SampleDirectory.records = Ok t /\
    verify (trie_run SampleDirectory.history1 Directory.empty) = Ok tt /\ root t = root SampleDirectory.stored /\ exists m, represents t m.
Proof.
  destruct SampleDirectory.loads as [t Ht]. exists t. split; [exact Ht|].
  exact (verified_directories _ _ _ t (proj1 SampleDirectory.histories_text) SampleDirectory.records_text Ht).
Defined.

Lemma directory_node_roundtrip_witness :
  decode_record (node_digest SampleDirectory.leaf) (encode_node SampleDirectory.leaf) =
    Ok {| digest := node_digest SampleDirectory.leaf; node := SampleDirectory.leaf |}.
Proof.
  apply (directory_node_roundtrip SampleDirectory.leaf); [|vm_compute; reflexivity].
  split; [apply (name_hash_ok (entry_key SampleDirectory.report))|]. constructor; [exact SampleDirectory.report_typed|constructor].
Defined.
