(* ===== verification/Staging.v ===== *)
(** Private staged writes of meshspan-filesystem/src/staging.rs: fenced, idempotent range
    writes, merged coverage, and completion. *)

From S2P Require Import Prelude Ids Contracts.
From stdpp Require Import prelude gmap list.
#[local] Open Scope N_scope.

Inductive StageWriteError := InvalidInput | StaleFence | OperationConflict | Incomplete.
Inductive StageWriteOutcome := Applied | Replayed.

Record StageWrite := { operation_id : N; stage_fence : N; offset : N; bytes_of : bytes; write_digest : bytes }.
Record AppliedWrite := { applied_offset : N; applied_length : N; applied_digest : bytes }.

#[export] Instance AppliedWrite_eq_dec : EqDecision AppliedWrite.
Proof. solve_decision. Defined.

(** A half-open [Range<u64>]. *)
Record Range := { start : N; stop : N }.

Record StageOverlay := {
  fence : N;
  maximum_bytes : N;
  contents : bytes;
  ranges : list Range;
  operations : gmap N AppliedWrite;
  sequence : N
}.

Record Checkpoint := { checkpoint_sequence : N; logical_extent : N; initialised_ranges : list Range }.

Definition new_overlay (f limit : N) : result StageWriteError StageOverlay :=
  if (f =? 0) || (limit =? 0) then Err InvalidInput
  else Ok {| fence := f; maximum_bytes := limit; contents := []; ranges := []; operations := ∅; sequence := 0 |}.

(** The loop of [insert_range]: [placed] once the merged range has been pushed. *)
Fixpoint merge_ranges (l : list Range) (inserted : Range) (placed : bool) : list Range :=
  match l with
  | [] => if placed then [] else [inserted]
  | r :: rest =>
      if stop r <? start inserted then r :: merge_ranges rest inserted placed
      else if stop inserted <? start r then
        (if placed then [r] else [inserted; r]) ++ merge_ranges rest inserted true
      else merge_ranges rest {| start := N.min (start inserted) (start r); stop := N.max (stop inserted) (stop r) |} placed
  end.
Definition insert_range (l : list Range) (inserted : Range) : list Range := merge_ranges l inserted false.

Definition covers (l : list Range) (final_length : N) : bool :=
  (final_length =? 0) || match l with r :: _ => (start r =? 0) && (final_length <=? stop r) | [] => false end.

(** [Vec::resize(length, 0)] and [bytes[at..at + src.len()].copy_from_slice(src)]. *)
Definition resize (l : bytes) (length : nat) : bytes := take length l ++ replicate (length - List.length l) 0.
Definition overwrite (at_ : nat) (src l : bytes) : bytes := take at_ l ++ src ++ drop (at_ + length src) l.

Section staging.
Context `{Blake3}.

Definition validate_write (w : StageWrite) (expected_fence limit : N) : result StageWriteError AppliedWrite :=
  if negb (stage_fence w =? expected_fence) then Err StaleFence
  else if bool_decide (bytes_of w = []) || negb (bool_decide (blake3 (bytes_of w) = write_digest w)) then Err InvalidInput
  else
    length ← ok_or (try_narrow u64_max (len (bytes_of w))) InvalidInput;
    last ← ok_or (checked_add u64_max (offset w) length) InvalidInput;
    bound ← ok_or (try_narrow u64_max limit) InvalidInput;
    if bound <? last then Err InvalidInput
    else Ok {| applied_offset := offset w; applied_length := length; applied_digest := write_digest w |}.

Definition write (w : StageWrite) : SE StageOverlay StageWriteError StageWriteOutcome :=
  s ← get_state;
  applied ← lift (validate_write w (fence s) (maximum_bytes s));
  match operations s !! operation_id w with
  | Some existing => if bool_decide (existing = applied) then mret Replayed else raise OperationConflict
  | None =>
      total ← lift (ok_or (checked_add u64_max (offset w) (applied_length applied)) InvalidInput);
      last ← lift (ok_or (try_narrow usize_max total) InvalidInput);
      _ ← modify_state (fun s =>
            {| fence := fence s; maximum_bytes := maximum_bytes s;
               contents := if len (contents s) <? last then resize (contents s) (N.to_nat last) else contents s;
               ranges := ranges s; operations := operations s; sequence := sequence s |});
      first ← lift (ok_or (try_narrow usize_max (offset w)) InvalidInput);
      _ ← modify_state (fun s =>
            {| fence := fence s; maximum_bytes := maximum_bytes s;
               contents := overwrite (N.to_nat first) (bytes_of w) (contents s);
               ranges := insert_range (ranges s) {| start := offset w; stop := last |};
               operations := <[operation_id w := applied]> (operations s); sequence := sequence s |});
      next ← lift (ok_or (checked_add u64_max (sequence s) 1) InvalidInput);
      _ ← modify_state (fun s =>
            {| fence := fence s; maximum_bytes := maximum_bytes s; contents := contents s; ranges := ranges s;
               operations := operations s; sequence := next |});
      mret Applied
  end.

End staging.

Definition checkpoint (s : StageOverlay) : Checkpoint :=
  {| checkpoint_sequence := sequence s; logical_extent := u64_of_len (len (contents s)); initialised_ranges := ranges s |}.

Definition complete_bytes (s : StageOverlay) (final_length : N) (sparse : bool) : result StageWriteError bytes :=
  length ← ok_or (try_narrow usize_max final_length) InvalidInput;
  if maximum_bytes s <? length then Err InvalidInput
  else if negb sparse && negb (covers (ranges s) final_length) then Err Incomplete
  else
    let complete := if length <=? len (contents s) then take (N.to_nat length) (contents s) else resize (contents s) (N.to_nat length) in
    map_err (fun _ => InvalidInput) (copy_from (take (N.to_nat length) complete) (maximum_bytes s)).

(** ** Coverage *)

Definition within (i : N) (r : Range) : Prop := start r <= i < stop r.
Definition covered (l : list Range) (i : N) : Prop := Exists (within i) l.

(** Sorted, non-empty ranges from [lo] on, with a gap before each next one. *)
Fixpoint chain (lo : N) (l : list Range) : Prop :=
  match l with [] => True | r :: rest => lo <= start r /\ start r < stop r /\ chain (stop r + 1) rest end.

Lemma chain_weaken lo lo' l : lo' <= lo -> chain lo l -> chain lo' l.
Proof. destruct l; cbn; [done|]. intuition lia. Qed.

Lemma merge_placed l ins : start ins <= stop ins -> chain (stop ins + 1) l -> merge_ranges l ins true = l.
Proof.
  intros Hi. assert (stop ins + 1 <= stop ins + 1) as Hlo by done. revert Hlo. generalize (stop ins + 1) at 2 3. intros lo.
  revert lo. induction l as [|r l IH]; intros lo Hlo; cbn; [done|]. intros (H1 & H2 & H3).
  rewrite (proj2 (N.ltb_ge _ _)), (proj2 (N.ltb_lt _ _)) by lia. cbn. f_equal. eapply IH; [|exact H3]. lia.
Qed.

Lemma merge_ranges_spec l lo ins :
  chain lo l -> lo <= start ins -> start ins < stop ins ->
  chain lo (merge_ranges l ins false) /\ forall i, covered (merge_ranges l ins false) i <-> within i ins \/ covered l i.
Proof.
  revert lo ins. induction l as [|r l IH]; intros lo ins Hc Hlo Hne; cbn [merge_ranges].
  { split; [done|]. intros i. unfold covered. rewrite Exists_cons. done. }
  destruct Hc as (H1 & H2 & H3). destruct (N.ltb_spec (stop r) (start ins)) as [Hb|Hb].
  - destruct (IH (stop r + 1) ins H3) as [Hchain Hcov]; [lia|done|]. split; [done|]. intros i. unfold covered in *. rewrite !Exists_cons, Hcov. tauto.
  - destruct (N.ltb_spec (stop ins) (start r)) as [Ha|Ha].
    + cbn [app]. rewrite merge_placed; [|lia|eapply chain_weaken; [|exact H3]; lia]. split; [cbn; split_and!; [done|done|lia|done|done]|].
      intros i. unfold covered. by rewrite !Exists_cons.
    + destruct (IH lo {| start := N.min (start ins) (start r); stop := N.max (stop ins) (stop r) |}) as [Hchain Hcov]; cbn [start stop]; [|lia|lia|].
      { eapply chain_weaken; [|exact H3]. lia. }
      split; [done|]. intros i. rewrite Hcov. unfold covered. rewrite Exists_cons. unfold within. cbn [start stop]. split; [|intuition lia].
      intros [Hi|Hi]; [|tauto]. destruct (N.lt_ge_cases i (start ins)), (N.lt_ge_cases i (stop ins)); intuition lia.
Qed.

Lemma covered_above lo l i : chain lo l -> covered l i -> lo <= i.
Proof.
  revert lo. induction l as [|r l IH]; intros lo; cbn; [intros _ Hx; by apply Exists_nil in Hx|].
  intros (H1 & H2 & H3) [Hi|Hi]%Exists_cons; [unfold within in Hi; lia|]. specialize (IH _ H3 Hi). lia.
Qed.

(** The first range is all that completion needs to look at. *)
Lemma covers_spec l n : chain 0 l -> covers l n = true <-> forall i, i < n -> covered l i.
Proof.
  intros Hc. unfold covers. destruct (N.eqb_spec n 0) as [->|Hn]; cbn [orb]; [split; [intros _; lia|done]|]. destruct l as [|r l].
  - split; [done|]. intros Hi. specialize (Hi 0 ltac:(lia)). by apply Exists_nil in Hi.
  - destruct Hc as (_ & H2 & H3). rewrite andb_true_iff, N.eqb_eq, N.leb_le. split.
    + intros [Hs Hl] i Hi. left. unfold within. lia.
    + intros Hall. assert (start r = 0) as Hs.
      { pose proof (Hall 0 ltac:(lia)) as Hx. apply Exists_cons in Hx as [Hw|Hw]; [unfold within in Hw; lia|]. pose proof (covered_above _ _ _ H3 Hw). lia. }
      split; [done|]. destruct (N.le_gt_cases n (stop r)) as [|Hlt]; [done|]. exfalso.
      specialize (Hall (stop r) Hlt). apply Exists_cons in Hall as [Hw|Hw]; [unfold within in Hw; lia|].
      pose proof (covered_above _ _ _ H3 Hw). lia.
Qed.

(** ** The reference: a log of accepted writes *)

(** The newest write comes first; it decides every byte it covers. *)
Fixpoint byte_at (log : list StageWrite) (i : N) : option N :=
  match log with
  | [] => None
  | w :: rest => if (offset w <=? i) && (i <? offset w + len (bytes_of w)) then bytes_of w !! N.to_nat (i - offset w) else byte_at rest i
  end.
Definition written (log : list StageWrite) (i : N) : Prop := is_Some (byte_at log i).
Definition extent (log : list StageWrite) : N := foldr (fun w acc => N.max (offset w + len (bytes_of w)) acc) 0 log.

Definition summary (w : StageWrite) : AppliedWrite :=
  {| applied_offset := offset w; applied_length := len (bytes_of w); applied_digest := write_digest w |}.

(** The logged write with an operation identity. *)
Definition logged (log : list StageWrite) (id : N) : option StageWrite := List.find (fun w => operation_id w =? id) log.

Section reference.
Context `{Blake3}.

Definition reference_write (f limit : N) (log : list StageWrite) (w : StageWrite) : result StageWriteError StageWriteOutcome * list StageWrite :=
  match validate_write w f limit with
  | Err e => (Err e, log)
  | Ok _ =>
      match logged log (operation_id w) with
      | Some old => if bool_decide (summary old = summary w) then (Ok Replayed, log) else (Err OperationConflict, log)
      | None => (Ok Applied, w :: log)
      end
  end.

(** What an overlay holds after the writes of a log. *)
Record staged (f limit : N) (log : list StageWrite) (s : StageOverlay) : Prop := {
  staged_fence : fence s = f;
  staged_limit : maximum_bytes s = limit;
  staged_valid : Forall (fun w => is_ok (validate_write w f limit) = true) log;
  staged_length : len (contents s) = extent log;
  staged_bytes i : i < extent log -> contents s !! N.to_nat i = Some (default 0 (byte_at log i));
  staged_chain : chain 0 (ranges s);
  staged_covered i : covered (ranges s) i <-> written log i;
  staged_operations id : operations s !! id = summary <$> logged log id;
  staged_sequence : sequence s = len log
}.

Lemma validate_write_Ok w f limit a :
  validate_write w f limit = Ok a ->
  a = summary w /\ stage_fence w = f /\ bytes_of w <> [] /\ blake3 (bytes_of w) = write_digest w /\
  offset w + len (bytes_of w) <= limit /\ offset w + len (bytes_of w) <= u64_max.
Proof. unfold validate_write. intros Hv. inv_ok. bool_cases. unfold summary. split_and!; try done; lia. Qed.

Lemma written_extent log i : written log i -> i < extent log.
Proof.
  unfold written. induction log as [|w log IH]; cbn [byte_at extent foldr]; [by intros [? ?]|]. fold (extent log).
  destruct (_ && _) eqn:E; [bool_cases; lia|]. intros Hi. specialize (IH Hi). lia.
Qed.

Lemma byte_at_cons w log i :
  byte_at (w :: log) i = if decide (offset w <= i < offset w + len (bytes_of w)) then bytes_of w !! N.to_nat (i - offset w) else byte_at log i.
Proof. cbn [byte_at]. destruct (_ && _) eqn:E; bool_cases; case_decide; try done; exfalso; [|apply andb_false_iff in E as [?|?]; bool_cases]; lia. Qed.

Lemma resize_lookup l n i : (i < n)%nat -> (length l <= n)%nat -> resize l n !! i = Some (default 0 (l !! i)).
Proof.
  intros Hi Hn. unfold resize. rewrite take_ge by done. destruct (l !! i) as [x|] eqn:E; [by erewrite lookup_app_l_Some|].
  rewrite lookup_app_r by (by apply lookup_ge_None). apply lookup_ge_None in E. rewrite lookup_replicate_2 by lia. done.
Qed.

Lemma overwrite_lookup at_ src l i :
  (at_ + length src <= length l)%nat ->
  overwrite at_ src l !! i = if decide (at_ <= i < at_ + length src)%nat then src !! (i - at_)%nat else l !! i.
Proof.
  intros Hl. unfold overwrite. assert (length (take at_ l) = at_) as Ht by (rewrite length_take; lia). case_decide as Hd.
  - rewrite lookup_app_r by lia. rewrite Ht, lookup_app_l by lia. done.
  - destruct (decide (i < at_)%nat) as [Hlt|Hge]; [by rewrite lookup_app_l, lookup_take_lt by lia|].
    rewrite !lookup_app_r by (rewrite ?Ht; lia). rewrite Ht, lookup_drop. f_equal. lia.
Qed.

(** The bytes after growing and overwriting. *)
Lemma staged_grow (l : bytes) w log :
  len l = extent log -> (forall i, i < extent log -> l !! N.to_nat i = Some (default 0 (byte_at log i))) ->
  let last := offset w + len (bytes_of w) in
  let l' := overwrite (N.to_nat (offset w)) (bytes_of w) (if len l <? last then resize l (N.to_nat last) else l) in
  len l' = extent (w :: log) /\ forall i, i < extent (w :: log) -> l' !! N.to_nat i = Some (default 0 (byte_at (w :: log) i)).
Proof.
  intros Hl Hb last l'. set (g := if len l <? last then resize l (N.to_nat last) else l) in l'.
  assert (len g = extent (w :: log)) as Hg.
  { subst g. cbn [extent foldr]. fold (extent log). fold last. destruct (N.ltb_spec (len l) last) as [Hlt|Hge]; [|lia].
    unfold resize, len in *. rewrite length_app, take_ge, length_replicate by lia. lia. }
  assert (forall i, i < extent (w :: log) -> g !! N.to_nat i = Some (default 0 (byte_at log i))) as Hgb.
  { intros i Hi. subst g. destruct (N.lt_ge_cases i (extent log)) as [Hin|Hout].
    - destruct (N.ltb_spec (len l) last) as [Hlt|Hge]; [|by apply Hb]. rewrite resize_lookup by (unfold len in *; lia). by rewrite Hb.
    - assert (byte_at log i = None) as -> by (apply eq_None_not_Some; intros Hw%written_extent; lia). cbn [extent foldr] in Hi. fold (extent log) in Hi.
      rewrite (proj2 (N.ltb_lt _ _)) by lia. rewrite resize_lookup by (unfold len in *; lia). rewrite lookup_ge_None_2; [done|]. unfold len in *. lia. }
  assert (N.to_nat (offset w) + length (bytes_of w) <= length g)%nat as Hfit.
  { cbn [extent foldr] in Hg. unfold len in *. subst last. lia. }
  split.
  - rewrite <- Hg. unfold len, l', overwrite. rewrite !length_app, length_take, length_drop. lia.
  - intros i Hi. unfold l'. rewrite overwrite_lookup by done. rewrite byte_at_cons. unfold len in *. do 2 case_decide; try lia.
    + rewrite N2Nat.inj_sub. destruct (lookup_lt_is_Some_2 (bytes_of w) (N.to_nat i - N.to_nat (offset w))) as [x Hx]; [lia|]. by rewrite Hx.
    + by apply Hgb.
Qed.

(** A staged write does what the reference does. *)
Lemma write_refines f limit log s w :
  staged f limit log s -> len log < u64_max ->
  let '(r, log') := reference_write f limit log w in
  (write w s).1 = r /\ staged f limit log' (write w s).2.
Proof.
  intros Hs Hlen. unfold reference_write, write, mbind, SE_bind, get_state, lift. rewrite (staged_fence _ _ _ _ Hs), (staged_limit _ _ _ _ Hs).
  destruct (validate_write w f limit) as [a|e] eqn:Hv; [|done]. apply validate_write_Ok in Hv as Hv'. destruct Hv' as (-> & _ & Hne & _ & Hlim & Hmax).
  rewrite (staged_operations _ _ _ _ Hs). destruct (logged log (operation_id w)) as [old|] eqn:Elog; cbn [fmap option_fmap option_map].
  { case_bool_decide; done. }
  change (applied_length (summary w)) with (len (bytes_of w)).
  rewrite (proj2 (checked_add_Some u64_max (offset w) (len (bytes_of w)) _) (conj eq_refl Hmax)). cbn [ok_or].
  rewrite (proj2 (try_narrow_Some usize_max _ _) (conj eq_refl Hmax)). cbn [ok_or]. unfold modify_state.
  assert (offset w <= usize_max) as Hoff by (unfold usize_max; lia). assert (len log + 1 <= u64_max) as Hseq by lia.
  rewrite (proj2 (try_narrow_Some usize_max (offset w) _) (conj eq_refl Hoff)). cbn [ok_or].
  rewrite (staged_sequence _ _ _ _ Hs), (proj2 (checked_add_Some u64_max (len log) 1 _) (conj eq_refl Hseq)). cbn [ok_or].
  unfold mret, SE_ret. cbn [fst snd contents ranges operations fence maximum_bytes sequence]. split; [done|].
  destruct (staged_grow (contents s) w log (staged_length _ _ _ _ Hs) (staged_bytes _ _ _ _ Hs)) as [Gl Gb].
  destruct (merge_ranges_spec (ranges s) 0 {| start := offset w; stop := offset w + len (bytes_of w) |}) as [Hchain Hcov]; cbn [start stop];
    [apply Hs|lia|destruct (bytes_of w); [done|rewrite len_cons; lia]|].
  split; cbn [fst snd contents ranges operations fence maximum_bytes sequence]; try apply Hs; try done.
  - constructor; [by rewrite Hv|apply Hs].
  - intros i. unfold insert_range. rewrite Hcov, (staged_covered _ _ _ _ Hs). unfold written. rewrite byte_at_cons. unfold within. cbn [start stop].
    case_decide as Hd; [|tauto]. split; [|by left]. intros _. apply lookup_lt_is_Some_2. unfold len in Hd. lia.
  - intros id. unfold logged. cbn [List.find]. destruct (N.eqb_spec (operation_id w) id) as [<-|Hid]; [by rewrite lookup_insert_eq|].
    rewrite lookup_insert_ne by done. apply Hs.
  - by rewrite len_cons.
Qed.

Definition run_writes (ws : list StageWrite) (s : StageOverlay) : StageOverlay := foldl (fun s w => (write w s).2) s ws.
Definition run_reference (f limit : N) (ws : list StageWrite) (log : list StageWrite) : list StageWrite :=
  foldl (fun log w => (reference_write f limit log w).2) log ws.

Lemma run_refines f limit ws log s :
  staged f limit log s -> len log + len ws <= u64_max -> staged f limit (run_reference f limit ws log) (run_writes ws s).
Proof.
  revert log s. induction ws as [|w ws IH]; intros log s Hs Hl; [done|]. rewrite len_cons in Hl. cbn [run_reference run_writes foldl].
  pose proof (write_refines f limit log s w Hs ltac:(lia)) as Hw. destruct (reference_write f limit log w) as [r log'] eqn:E. cbn [snd].
  apply IH; [apply Hw|]. unfold reference_write in E. repeat case_match; simplify_eq; rewrite ?len_cons; lia.
Qed.

Lemma new_staged f limit s : new_overlay f limit = Ok s -> staged f limit [] s.
Proof.
  unfold new_overlay. intros Hn. inv_ok. split; try done.
  - cbn. lia.
  - intros i. cbn. unfold covered, written. rewrite Exists_nil. cbn. split; [done|by intros [? ?]].
Qed.

Lemma some_unwritten log n : ~ (forall i, i < n -> written log i) -> exists i, i < n /\ ~ written log i.
Proof.
  intros Hno. destruct (decide (Forall (fun i => is_Some (byte_at log (N.of_nat i))) (seq 0 (N.to_nat n)))) as [Hall|Hnot].
  - exfalso. apply Hno. intros i Hi. rewrite Forall_forall in Hall. specialize (Hall (N.to_nat i)). rewrite N2Nat.id in Hall.
    apply Hall, elem_of_seq. lia.
  - apply not_Forall_Exists in Hnot; [|apply _]. apply Exists_exists in Hnot as (i & Hi%elem_of_seq & Hx). exists (N.of_nat i). split; [lia|exact Hx].
Qed.

Lemma complete_bytes_spec f limit log s n sparse :
  staged f limit log s ->
  match complete_bytes s n sparse with
  | Ok bs => n <= limit /\ (sparse = true \/ forall i, i < n -> written log i) /\ len bs = n /\
             forall i, i < n -> bs !! N.to_nat i = Some (default 0 (byte_at log i))
  | Err Incomplete => n <= limit /\ sparse = false /\ exists i, i < n /\ ~ written log i
  | Err InvalidInput => limit < n \/ usize_max < n
  | Err _ => False
  end.
Proof.
  intros Hs. unfold complete_bytes, try_narrow. destruct (N.leb_spec n usize_max) as [Hn|Hn]; cbn [ok_or mbind result_bind]; [|by right].
  rewrite (staged_limit _ _ _ _ Hs). destruct (N.ltb_spec limit n) as [Hl|Hl]; [by left|].
  pose proof (covers_spec (ranges s) n (staged_chain _ _ _ _ Hs)) as Hc.
  assert (covers (ranges s) n = true <-> forall i, i < n -> written log i) as Hcw.
  { rewrite Hc. split; intros Hx i Hi; apply (staged_covered _ _ _ _ Hs), Hx, Hi. }
  destruct (negb sparse && negb (covers (ranges s) n)) eqn:Eg.
  - bool_cases. split_and!; [done|done|]. apply some_unwritten. rewrite <- Hcw. congruence.
  - set (whole := if n <=? len (contents s) then _ else _).
    assert (length whole = N.to_nat n /\ forall i, i < n -> whole !! N.to_nat i = Some (default 0 (byte_at log i))) as [Hwl Hwb].
    { pose proof (staged_length _ _ _ _ Hs) as Hlen. subst whole. destruct (N.leb_spec n (len (contents s))) as [Hle|Hgt].
      - split; [rewrite length_take; unfold len in Hle; lia|]. intros i Hi. rewrite lookup_take_lt by lia. apply (staged_bytes _ _ _ _ Hs). lia.
      - unfold len in *. split; [unfold resize; rewrite length_app, take_ge, length_replicate by lia; lia|]. intros i Hi. rewrite resize_lookup by lia. f_equal.
        destruct (N.lt_ge_cases i (extent log)) as [Hin|Hout]; [by rewrite (staged_bytes _ _ _ _ Hs)|].
        rewrite lookup_ge_None_2 by lia. assert (byte_at log i = None) as ->; [|done]. apply eq_None_not_Some. intros Hw%written_extent. lia. }
    rewrite take_ge by lia. unfold copy_from. rewrite (proj2 (N.ltb_ge _ _)) by (unfold len; lia). cbn [map_err].
    split_and!; [done| |unfold len; lia|done]. apply andb_false_iff in Eg as [E|E]; bool_cases; [by left|right; by apply Hcw].
Qed.

(** C26: staging is exact.  After any history of write requests on a new overlay, shorter than
    2^64, the accepted writes are those of the reference log (a request is refused for a stale
    fence, a bad range or digest, or an operation identity reused for something else, and an
    exact retry is recognised without a second effect); the checkpoint reports their exact
    extent; and completion to a length gives exactly the last write at every byte and zero where
    nothing was written, is refused as incomplete only when the caller did not allow holes and
    some byte below the length was never written, and as invalid only past the limit. *)
Theorem staged_content_exact (f limit : N) (ws : list StageWrite) (s : StageOverlay) :
  new_overlay f limit = Ok s -> len ws < u64_max ->
  let log := run_reference f limit ws [] in
  (forall w, (write w (run_writes ws s)).1 = (reference_write f limit log w).1) /\
  logical_extent (checkpoint (run_writes ws s)) = extent log /\
  forall n sparse,
    match complete_bytes (run_writes ws s) n sparse with
    | Ok bs => n <= limit /\ (sparse = true \/ forall i, i < n -> written log i) /\ len bs = n /\
               forall i, i < n -> bs !! N.to_nat i = Some (default 0 (byte_at log i))
    | Err Incomplete => n <= limit /\ sparse = false /\ exists i, i < n /\ ~ written log i
    | Err InvalidInput => limit < n \/ usize_max < n
    | Err _ => False
    end.
Proof.
  intros Hn Hl log. pose proof (run_refines f limit ws [] s (new_staged _ _ _ Hn) ltac:(change (len (A := StageWrite) []) with 0; lia)) as Hs.
  fold log in Hs. split_and!.
  - intros w. assert (len log < u64_max) as Hlog.
    { assert (forall l, len (run_reference f limit ws l) <= len l + len ws) as Hb.
      { clear. induction ws as [|w ws IH]; intros l; [cbn; lia|]. rewrite len_cons. cbn [run_reference foldl]. etransitivity; [apply IH|].
        unfold reference_write. repeat case_match; cbn [snd]; rewrite ?len_cons; lia. }
      specialize (Hb []). change (len (A := StageWrite) []) with 0 in Hb. fold log in Hb. lia. }
    pose proof (write_refines f limit log (run_writes ws s) w Hs Hlog) as Hw. destruct (reference_write f limit log w) as [r log']. apply Hw.
  - unfold checkpoint. cbn [logical_extent]. rewrite (staged_length _ _ _ _ Hs). unfold u64_of_len.
    enough (extent log <= u64_max) as Hx by (by rewrite (proj2 (try_narrow_Some u64_max (extent log) _) (conj eq_refl Hx))).
    pose proof (staged_valid _ _ _ _ Hs) as Hv. clear -Hv. induction Hv as [|w l Hw _ IH]; [cbn; lia|]. cbn [extent foldr]. fold (extent l).
    destruct (validate_write w f limit) as [a|] eqn:E; [|done]. apply validate_write_Ok in E as (_ & _ & _ & _ & _ & Hm). lia.
  - intros n sparse. by apply (complete_bytes_spec f limit).
Qed.

End reference.

Module SampleStage.
#[export] Instance identity_hash : Blake3 := fun b => b.
Definition put (id at_ : N) (b : bytes) : StageWrite := {| operation_id := id; stage_fence := 3; offset := at_; bytes_of := b; write_digest := b |}.
Definition writes : list StageWrite := [put 1 4 [7; 7]; put 2 0 [1; 2; 3]; put 1 4 [7; 7]; put 3 2 [9; 9; 9]; put 2 0 [5]].
Definition fresh : StageOverlay :=
  {| fence := 3; maximum_bytes := 16; contents := []; ranges := []; operations := ∅; sequence := 0 |}.
End SampleStage.
#[local] Existing Instance SampleStage.identity_hash.

Lemma staged_content_exact_witness :
  logical_extent (checkpoint (run_writes SampleStage.writes SampleStage.fresh)) = 6 /\
  complete_bytes (run_writes SampleStage.writes SampleStage.fresh) 6 false = Ok [1; 2; 9; 9; 9; 7].
Proof.
  destruct (staged_content_exact 3 16 SampleStage.writes SampleStage.fresh) as (_ & He & _); [reflexivity|vm_compute; reflexivity|].
  split; [rewrite He|]; vm_compute; reflexivity.
Defined.
