(* ===== verification/Reconcile.v ===== *)
(** Planning of the reconciliation of disconnected branches,
    meshspan-filesystem/src/reconciliation.rs: hostile commit graphs are validated, the commits
    still to be applied are ordered, and the frontier of the merge is found. *)

From Stdlib Require Import String.
From S2P Require Import Prelude Ids Contracts.
From stdpp Require Import prelude gmap sorting list.
#[local] Open Scope N_scope.

Definition MAXIMUM_COMMITS : N := 65536.
Definition MAXIMUM_FRONTIER_HEADS : N := 1024.
Definition MAXIMUM_PARENTS : N := 1024.

Inductive ReconciliationError :=
| BoundsExceeded | InvalidInput | MissingCommit | MixedNamespace | Cycle | OperationConflict | UnreachableCommit
| MissingIntent | UncommittedRestore | MissingBaseEntry | InvalidLineage.

#[export] Instance ReconciliationError_eq_dec : EqDecision ReconciliationError.
Proof. solve_decision. Defined.

Inductive ReconciliationCommitPayload :=
| Mutation (intent_digest : bytes)
| Merge (replay_digest : bytes)
| Restore (snapshot_id snapshot_namespace_commit_id : N).

Record ReconciliationCommit := {
  commit_id : N;
  branch_id : N;
  volume_id : N;
  root_object_id : N;
  root_object_revision_id : N;
  parents : list N;
  operation_id : N;
  request_digest : bytes;
  payload : ReconciliationCommitPayload
}.

Record ReconciliationFrontier := { converged_head : option N; eligible_heads : list N }.
Record ReconciliationLimits := { commits_limit : N; frontier_limit : N; parents_limit : N }.

Definition DEFAULT_LIMITS : ReconciliationLimits := {| commits_limit := 4096; frontier_limit := 64; parents_limit := 64 |}.

Definition new_limits (commits heads ps : N) : result ReconciliationError ReconciliationLimits :=
  if (commits =? 0) || (MAXIMUM_COMMITS <? commits) || (heads =? 0) || (MAXIMUM_FRONTIER_HEADS <? heads)
     || (ps =? 0) || (MAXIMUM_PARENTS <? ps)
  then Err BoundsExceeded
  else Ok {| commits_limit := commits; frontier_limit := heads; parents_limit := ps |}.

Record ReconciliationPlan := {
  plan_converged_head : option N;
  converged_branch_id : option N;
  plan_volume_id : N;
  plan_root_object_id : N;
  ordered_commits : list N;
  merge_parents : list N;
  commit_headers : gmap N bytes;
  plan_digest_of : bytes
}.

Abbreviation Commits := (gmap N ReconciliationCommit) (only parsing).
Abbreviation Checked A := (result ReconciliationError A).

(** All heads the frontier names. *)
Definition all_heads (f : ReconciliationFrontier) : list N := option_list (converged_head f) ++ eligible_heads f.

(** ** Validation *)

Definition validate_bounds (cs : list ReconciliationCommit) (f : ReconciliationFrontier) (l : ReconciliationLimits) : Checked unit :=
  if bool_decide (cs = []) || bool_decide (eligible_heads f = []) then Err InvalidInput
  else if (commits_limit l <? len cs) || (frontier_limit l <? len (eligible_heads f))
          || existsb (fun c => parents_limit l <? len (parents c)) cs
  then Err BoundsExceeded else Ok tt.

Definition invalid_payload (c : ReconciliationCommit) : bool :=
  match payload c with
  | Mutation _ => 1 <? len (parents c)
  | Merge _ => len (parents c) <? 2
  | Restore _ _ => negb (len (parents c) =? 1)
  end.

Definition index_commit (l : ReconciliationLimits) (indexed : Commits) (c : ReconciliationCommit) : Checked Commits :=
  let ps : gset N := list_to_set (parents c) in
  if negb (N.of_nat (size ps) =? len (parents c)) || bool_decide (commit_id c ∈ ps)
     || (parents_limit l <? len (parents c)) || invalid_payload c || bool_decide (is_Some (indexed !! commit_id c))
  then Err InvalidInput else Ok (<[commit_id c := c]> indexed).

Definition index_commits (cs : list ReconciliationCommit) (l : ReconciliationLimits) : Checked Commits :=
  indexed ← try_fold (index_commit l) ∅ cs;
  if existsb (fun c => existsb (fun p => bool_decide (indexed !! p = None)) (parents c)) cs then Err MissingCommit else Ok indexed.

(** [commits.values()]. *)
Definition values (m : Commits) : list ReconciliationCommit := (ascending_map m).*2.

Definition validate_namespace (m : Commits) (f : ReconciliationFrontier) : Checked unit :=
  first ← ok_or (head (values m)) InvalidInput;
  if existsb (fun c => negb (volume_id c =? volume_id first) || negb (root_object_id c =? root_object_id first)) (values m)
  then Err MixedNamespace
  else
    let heads := all_heads f in
    if negb (N.of_nat (size (list_to_set (C := gset N) heads)) =? len heads) then Err InvalidInput
    else if existsb (fun h => bool_decide (m !! h = None)) heads then Err MissingCommit else Ok tt.

(** ** Reachability *)

(** The loop that pops the last pending commit; each commit's parents are pushed once, so the
    parents of all commits and the heads bound the number of turns. *)
Fixpoint reachable_loop (fuel : nat) (m : Commits) (selected : gset N) (pending : list N) : Checked (gset N) :=
  match fuel with
  | O => Ok selected
  | S fuel =>
      match pending with
      | [] => Ok selected
      | c :: rest =>
          if bool_decide (c ∈ selected) then reachable_loop fuel m selected rest
          else
            commit ← ok_or (m !! c) MissingCommit;
            reachable_loop fuel m ({[c]} ∪ selected) (rev (parents commit) ++ rest)
      end
  end.

Definition parent_count (m : Commits) : nat := sum_list (map (fun c => length (parents c)) (values m)).
(** [pending] is a stack: its last element comes first here. *)
Definition reachable (heads : list N) (m : Commits) : Checked (gset N) :=
  reachable_loop (length heads + parent_count m) m ∅ (rev heads).

(** ** Topological order *)

(** [ready.pop_first()] for pairs of a rank and a commit. *)
Definition rank_le (rank : N -> N) (x y : N) : Prop := rank x < rank y \/ (rank x = rank y /\ x <= y).
#[export] Instance rank_le_dec rank : RelDecision (rank_le rank).
Proof. intros x y. unfold rank_le. apply _. Defined.
Definition first_ready (rank : N -> N) (ready : gset N) : option N := head (merge_sort (rank_le rank) (elements ready)).

(** One resolved parent of [child]. *)
Definition resolve_child (counts : gmap N N) (ready : gset N) (child : N) : Checked (gmap N N * gset N) :=
  count ← ok_or (counts !! child) MissingCommit;
  left ← ok_or (checked_sub count 1) Cycle;
  Ok (<[child := left]> counts, if left =? 0 then {[child]} ∪ ready else ready).

Definition resolve_children (m : Commits) (among : list N) (done : N) (st : gmap N N * gset N) : Checked (gmap N N * gset N) :=
  try_fold (fun '(counts, ready) child =>
      match m !! child with
      | Some c => if bool_decide (done ∈ parents c) then resolve_child counts ready child else Ok (counts, ready)
      | None => Ok (counts, ready)
      end) st among.

(** The loop over ready commits; a commit becomes ready once, so there are at most as many
    turns as commits. *)
Fixpoint drain (fuel : nat) (rank : N -> N) (m : Commits) (among : list N) (counts : gmap N N) (ready : gset N) (ordered : list N) : Checked (list N) :=
  match fuel with
  | O => Ok ordered
  | S fuel =>
      match first_ready rank ready with
      | None => Ok ordered
      | Some c =>
          '(counts', ready') ← resolve_children m among c (counts, ready ∖ {[c]});
          drain fuel rank m among counts' ready' (ordered ++ [c])
      end
  end.

(** The ready set before the loop: commits without unresolved parents. *)
Definition initially_ready (counts : gmap N N) : gset N := dom (filter (fun '(_, n) => n = 0) counts).

Definition validate_acyclic (m : Commits) : Checked unit :=
  let counts := (fun c => len (parents c)) <$> m in
  visited ← drain (size m) (fun _ => 0) m (ascending (dom m)) counts (initially_ready counts) [];
  if len visited =? N.of_nat (size m) then Ok tt else Err Cycle.

Definition operation_of (m : Commits) (c : N) : N := match m !! c with Some x => operation_id x | None => 0 end.
Definition parents_of (m : Commits) (c : N) : list N := match m !! c with Some x => parents x | None => [] end.

Definition order_pending (m : Commits) (pending : gset N) : Checked (list N) :=
  let counts := set_to_map (fun c => (c, len (filter (fun p => p ∈ pending) (parents_of m c)))) pending in
  ordered ← drain (size pending) (operation_of m) m (ascending pending) counts (initially_ready counts) [];
  if len ordered =? N.of_nat (size pending) then Ok ordered else Err Cycle.

(** ** Operations *)

Definition record_operation (ops : gmap N bytes) (c : ReconciliationCommit) : Checked (gmap N bytes) :=
  match ops !! operation_id c with
  | Some d => if bool_decide (d = request_digest c) then Ok (<[operation_id c := request_digest c]> ops) else Err OperationConflict
  | None => Ok (<[operation_id c := request_digest c]> ops)
  end.
Definition validate_operations (m : Commits) : Checked unit := _ ← try_fold record_operation ∅ (values m); Ok tt.

(** Of several commits with one operation the least identity is kept. *)
Definition select_commit (m : Commits) (included : gset N) (selected : gmap N N) (c : N) : gmap N N :=
  let op := operation_of m c in
  if bool_decide (op ∈ included) then selected
  else match selected !! op with
       | Some old => <[op := N.min old c]> selected
       | None => <[op := c]> selected
       end.
Definition select_pending (m : Commits) (eligible converged : gset N) : gset N :=
  let included := set_map (operation_of m) converged in
  map_img (foldl (select_commit m included) ∅ (ascending (eligible ∖ converged))).

(** ** Merge frontier *)

(** The loop over the other heads stops at the first that supersedes the candidate. *)
Fixpoint superseded (m : Commits) (candidate : N) (others : list N) : Checked bool :=
  match others with
  | [] => Ok false
  | h :: rest =>
      if h =? candidate then superseded m candidate rest
      else r ← reachable [h] m; if bool_decide (candidate ∈ r) then Ok true else superseded m candidate rest
  end.
Fixpoint keep_minimal (m : Commits) (heads candidates : list N) : Checked (list N) :=
  match candidates with
  | [] => Ok []
  | c :: rest => s ← superseded m c heads; kept ← keep_minimal m heads rest; Ok (if (s : bool) then kept else c :: kept)
  end.
Definition minimal_frontier (f : ReconciliationFrontier) (m : Commits) : Checked (list N) :=
  let candidates := ascending (list_to_set (all_heads f)) in keep_minimal m candidates candidates.

(** ** Digests *)

Definition u32_be (n : N) : bytes := be_bytes 4 (default u32_max (try_narrow u32_max n)).
Definition update_ids (ids : list N) : bytes := u32_be (len ids) ++ concat (map Identifier.as_bytes (merge_sort N.le ids)).
Definition update_payload (p : ReconciliationCommitPayload) : bytes :=
  match p with
  | Mutation d => 1 :: d
  | Merge d => 2 :: d
  | Restore snapshot commit => 3 :: Identifier.as_bytes snapshot ++ Identifier.as_bytes commit
  end.
Definition commit_fields (c : ReconciliationCommit) : bytes :=
  Identifier.as_bytes (branch_id c) ++ Identifier.as_bytes (volume_id c) ++ Identifier.as_bytes (root_object_id c) ++
  Identifier.as_bytes (root_object_revision_id c) ++ update_ids (parents c) ++ Identifier.as_bytes (operation_id c) ++
  request_digest c ++ update_payload (payload c).
Definition update_commits (m : Commits) : bytes :=
  u32_be (N.of_nat (size m)) ++ concat (map (fun '(id, c) => Identifier.as_bytes id ++ commit_fields c) (ascending_map m)).

Section digests.
Context `{Blake3}.

Definition commit_header_digest (c : ReconciliationCommit) : bytes :=
  blake3 (ascii_bytes "meshspan.filesystem.reconciliation-commit-header.v2" ++ [0] ++ Identifier.as_bytes (commit_id c) ++ commit_fields c).

Definition ordered_fields (m : Commits) (id : N) : bytes :=
  match m !! id with
  | Some c => Identifier.as_bytes (operation_id c) ++ request_digest c ++ update_payload (payload c) ++ Identifier.as_bytes (root_object_revision_id c)
  | None => []
  end.
Definition plan_digest (m : Commits) (f : ReconciliationFrontier) (ordered ps : list N) : bytes :=
  blake3 (ascii_bytes "meshspan.filesystem.reconciliation-plan.v2" ++ [0] ++
    match converged_head f with Some h => 1 :: Identifier.as_bytes h | None => [0] end ++
    update_commits m ++ update_ids (eligible_heads f) ++ update_ids ordered ++ concat (map (ordered_fields m) ordered) ++ update_ids ps).

Definition is_restore (m : Commits) (id : N) : bool :=
  match m !! id with Some c => match payload c with Restore _ _ => true | _ => false end | None => false end.

Definition plan_reconciliation (cs : list ReconciliationCommit) (f : ReconciliationFrontier) (l : ReconciliationLimits) : Checked ReconciliationPlan :=
  _ ← validate_bounds cs f l;
  by_id ← index_commits cs l;
  _ ← validate_namespace by_id f;
  converged ← reachable (option_list (converged_head f)) by_id;
  eligible ← reachable (eligible_heads f) by_id;
  if negb (size (converged ∪ eligible) =? size by_id)%nat then Err UnreachableCommit
  else
    _ ← validate_acyclic by_id;
    _ ← validate_operations by_id;
    let pending := select_pending by_id eligible converged in
    if existsb (is_restore by_id) (ascending pending) then Err UncommittedRestore
    else
      ordered ← order_pending by_id pending;
      ps ← minimal_frontier f by_id;
      namespace ← ok_or (head (values by_id)) InvalidInput;
      Ok {| plan_converged_head := converged_head f;
            converged_branch_id := h ← converged_head f; branch_id <$> by_id !! h;
            plan_volume_id := volume_id namespace;
            plan_root_object_id := root_object_id namespace;
            ordered_commits := ordered;
            merge_parents := ps;
            commit_headers := commit_header_digest <$> by_id;
            plan_digest_of := plan_digest by_id f ordered ps |}.

Definition validates_commits (p : ReconciliationPlan) (cs : list ReconciliationCommit) : bool :=
  (len cs =? N.of_nat (size (commit_headers p)))
  && forallb (fun c => bool_decide (commit_headers p !! commit_id c = Some (commit_header_digest c))) cs.

End digests.
