(* ===== verification/ReconcileFacts.v ===== *)
(** The reconciliation planner: reachability is exact, draining the ready commits yields the
    least topological order or finds a cycle; what the planner accepts, the frontier it merges,
    and its independence of delivery order. *)

From Stdlib Require Import String.
From S2P Require Import Prelude Ids Contracts Reconcile.
From stdpp Require Import prelude gmap sorting list relations.
#[local] Open Scope N_scope.

Definition parent_of (m : gmap N ReconciliationCommit) (x p : N) : Prop := p ∈ parents_of m x.
Definition closed (m : gmap N ReconciliationCommit) : Prop := forall x p, parent_of m x p -> p ∈ dom m.

Lemma parents_of_Some m x c : m !! x = Some c -> parents_of m x = parents c.
Proof. unfold parents_of. by intros ->. Qed.

Lemma elem_of_rev {A} (x : A) l : x ∈ rev l <-> x ∈ l.
Proof. rewrite !list_elem_of_In. symmetry. apply in_rev. Qed.

(** ** Reachability *)

Section reach.
Context (m : gmap N ReconciliationCommit) (Hclosed : closed m).

Definition weight (s : gset N) : nat := sum_list_with (fun x => length (parents_of m x)) (elements s).

Lemma weight_split x s : x ∈ s -> weight s = (length (parents_of m x) + weight (s ∖ {[x]}))%nat.
Proof.
  intros Hx. unfold weight. assert (elements s ≡ₚ x :: elements (s ∖ {[x]})) as ->; [|done].
  rewrite <- elements_union_singleton by set_solver. by rewrite <- union_difference_singleton_L.
Qed.

Lemma parent_count_weight : parent_count m = weight (dom m).
Proof.
  unfold parent_count, values, weight. rewrite <- (ascending_perm (dom m)), <- ascending_map_keys.
  assert (forall k c, (k, c) ∈ ascending_map m -> m !! k = Some c) as Hall by (intros k c; apply elem_of_ascending_map).
  induction (ascending_map m) as [|[k c] l IH]; [done|]. cbn. rewrite IH by (intros; apply Hall; by right).
  by rewrite (parents_of_Some m k c) by (apply Hall; by left).
Qed.

(** What the loop keeps: everything selected is reachable from a head and every edge out of
    it leads to something selected or still pending. *)
Record searching (heads : list N) (selected : gset N) (pending : list N) : Prop := {
  searching_sound x : x ∈ selected \/ x ∈ pending -> exists h, h ∈ heads /\ rtc (parent_of m) h x;
  searching_heads h : h ∈ heads -> h ∈ selected \/ h ∈ pending;
  searching_edges x p : x ∈ selected -> parent_of m x p -> p ∈ selected \/ p ∈ pending;
  searching_known x : x ∈ pending -> x ∈ dom m
}.

Lemma searching_done heads selected :
  searching heads selected [] -> forall x, x ∈ selected <-> exists h, h ∈ heads /\ rtc (parent_of m) h x.
Proof.
  intros [S1 S2 S3 _] x. split; [intros Hx; apply S1; by left|]. intros (h & Hh & Hr).
  destruct (S2 h Hh) as [Hsel|Hbad]; [|by apply not_elem_of_nil in Hbad]. clear Hh. revert Hsel.
  induction Hr as [|y p z Hp _ IHr]; intros Hsel; [done|]. apply IHr. destruct (S3 _ _ Hsel Hp) as [|Hbad]; [done|by apply not_elem_of_nil in Hbad].
Qed.

Lemma searching_skip heads selected c rest : c ∈ selected -> searching heads selected (c :: rest) -> searching heads selected rest.
Proof.
  intros Hc [S1 S2 S3 S4]. split; [set_solver| | |set_solver].
  - intros h Hh. destruct (S2 h Hh) as [|Hin]; [by left|]. set_solver.
  - intros x p Hx Hp. destruct (S3 x p Hx Hp) as [|Hin]; [by left|]. set_solver.
Qed.

Lemma searching_push heads selected c rest x :
  m !! c = Some x -> searching heads selected (c :: rest) -> searching heads ({[c]} ∪ selected) (rev (parents x) ++ rest).
Proof.
  intros Hx [S1 S2 S3 S4].
  assert (forall p, p ∈ parents x <-> parent_of m c p) as Hpar by (intros p; unfold parent_of; by rewrite (parents_of_Some m c x)).
  split.
  - intros y. rewrite elem_of_app, elem_of_rev. intros Hy. destruct (decide (y ∈ parents x)) as [Hyp|Hyp]; [|apply S1; set_solver].
    destruct (S1 c) as (h & Hh & Hr); [set_solver|]. exists h. split; [done|]. eapply rtc_r; [exact Hr|by apply Hpar].
  - intros h Hh. rewrite elem_of_app, elem_of_rev. destruct (S2 h Hh); set_solver.
  - intros y p Hy Hp. rewrite elem_of_app, elem_of_rev. apply elem_of_union in Hy as [->%elem_of_singleton|Hy]; [right; left; by apply Hpar|].
    destruct (S3 y p Hy Hp); set_solver.
  - intros y. rewrite elem_of_app, elem_of_rev. intros [Hy|Hy]; [|apply S4; set_solver]. by eapply Hclosed, Hpar.
Qed.

Lemma reachable_loop_spec heads fuel selected pending :
  searching heads selected pending -> (length pending + weight (dom m ∖ selected) <= fuel)%nat ->
  exists s, reachable_loop fuel m selected pending = Ok s /\ forall x, x ∈ s <-> exists h, h ∈ heads /\ rtc (parent_of m) h x.
Proof.
  revert selected pending. induction fuel as [|fuel IH]; intros selected pending Hs Hf; cbn [reachable_loop].
  - exists selected. split; [done|]. apply searching_done. destruct pending; [done|cbn in Hf; lia].
  - destruct pending as [|c rest]; [by exists selected; split; [|apply searching_done]|]. cbn [length] in Hf. case_bool_decide as Hc.
    + apply IH; [by eapply searching_skip|lia].
    + assert (c ∈ dom m) as Hd by (apply (searching_known _ _ _ Hs); by left). pose proof Hd as [x Hx]%elem_of_dom. rewrite Hx. cbn [ok_or mbind result_bind].
      apply IH; [by apply searching_push|]. rewrite length_app, length_rev. rewrite (weight_split c) in Hf by set_solver.
      rewrite (parents_of_Some m c x) in Hf by done. replace (dom m ∖ ({[c]} ∪ selected)) with (dom m ∖ selected ∖ {[c]}) by set_solver. lia.
Qed.

(** The loop ends within its bound with exactly the ancestors of the heads. *)
Lemma reachable_spec heads :
  (forall h, h ∈ heads -> h ∈ dom m) ->
  exists s, reachable heads m = Ok s /\ forall x, x ∈ s <-> exists h, h ∈ heads /\ rtc (parent_of m) h x.
Proof.
  intros Hh. apply reachable_loop_spec.
  - split; [|intros h Hi; right; by apply elem_of_rev|by intros x p Hx%not_elem_of_empty|intros x Hx; by apply Hh, elem_of_rev].
    intros x [Hx|Hx]; [by apply not_elem_of_empty in Hx|]. exists x. split; [by apply elem_of_rev|apply rtc_refl].
  - rewrite length_rev, difference_empty_L, parent_count_weight. lia.
Qed.

End reach.

Lemma elem_of_take_in {A} (l : list A) n x : x ∈ take n l -> x ∈ l.
Proof. intros Hx. rewrite <- (take_drop n l). apply elem_of_app. by left. Qed.

(** ** Draining *)

#[export] Instance rank_le_total rank : Total (rank_le rank).
Proof. intros x y. unfold rank_le. lia. Qed.
#[export] Instance rank_le_trans rank : Transitive (rank_le rank).
Proof. intros x y z. unfold rank_le. lia. Qed.

Lemma rank_le_antisymm rank x y : rank_le rank x y -> rank_le rank y x -> x = y.
Proof. unfold rank_le. lia. Qed.

Lemma first_ready_Some rank s c : first_ready rank s = Some c -> c ∈ s /\ forall x, x ∈ s -> rank_le rank c x.
Proof.
  unfold first_ready. intros Hc. pose proof (merge_sort_Permutation (rank_le rank) (elements s)) as Hp.
  pose proof (StronglySorted_merge_sort (rank_le rank) (elements s)) as Hs. destruct (merge_sort _ _) as [|y l]; [done|]. injection Hc as ->.
  assert (forall x, x ∈ s <-> x ∈ c :: l) as Hin by (intros x; by rewrite Hp, elem_of_elements). split; [apply Hin; by left|].
  intros x Hx%Hin. inversion Hs as [|?? _ Hall]; subst. apply elem_of_cons in Hx as [->|Hx]; [unfold rank_le; lia|].
  rewrite Forall_forall in Hall. by apply Hall.
Qed.

Lemma first_ready_None rank s : first_ready rank s = None -> s = ∅.
Proof.
  unfold first_ready. intros Hc. pose proof (merge_sort_Permutation (rank_le rank) (elements s)) as Hp. destruct (merge_sort _ _); [|done].
  apply leibniz_equiv, elements_empty_inv. by apply Permutation_nil_l in Hp.
Qed.

Section drain.
Context (rank : N -> N) (m : gmap N ReconciliationCommit) (nodes : gset N).
Hypothesis Hnodes : nodes ⊆ dom m.
Hypothesis Hdistinct : forall x, x ∈ nodes -> NoDup (parents_of m x).

(** Parents among the nodes, and those not yet done. *)
Definition inner (x : N) : list N := filter (fun p => p ∈ nodes) (parents_of m x).
Definition waiting (done : list N) (x : N) : list N := filter (fun p => p ∉ done) (inner x).

(** What the loop keeps. *)
Record draining (done : list N) (counts : gmap N N) (ready : gset N) : Prop := {
  draining_distinct : NoDup done;
  draining_nodes x : x ∈ done -> x ∈ nodes;
  draining_counts x : x ∈ nodes -> counts !! x = Some (len (waiting done x));
  draining_ready x : x ∈ ready <-> x ∈ nodes /\ x ∉ done /\ waiting done x = [];
  draining_order i x : done !! i = Some x -> forall p, p ∈ inner x -> p ∈ take i done;
  draining_least i x : done !! i = Some x ->
    forall y, y ∈ nodes -> y ∉ take i done -> (forall p, p ∈ inner y -> p ∈ take i done) -> rank_le rank x y
}.

Lemma waiting_nil done x : waiting done x = [] <-> forall p, p ∈ inner x -> p ∈ done.
Proof.
  unfold waiting. split.
  - intros Hw p Hp. destruct (decide (p ∈ done)) as [|Hn]; [done|]. assert (p ∈ waiting done x) as Hin by (by apply list_elem_of_filter).
    unfold waiting in Hin. rewrite Hw in Hin. by apply not_elem_of_nil in Hin.
  - intros Hall. apply elem_of_nil_inv. intros p [Hn Hp]%list_elem_of_filter. by apply Hn, Hall.
Qed.

Lemma inner_NoDup x : x ∈ nodes -> NoDup (inner x).
Proof. intros Hx. apply NoDup_filter. by apply Hdistinct. Qed.

(** Doing [c] takes one parent off exactly the nodes that have it. *)
Lemma waiting_snoc done c x :
  x ∈ nodes -> c ∉ done -> len (waiting done x) = len (waiting (done ++ [c]) x) + (if bool_decide (c ∈ inner x) then 1 else 0).
Proof.
  intros Hx Hc. pose proof (inner_NoDup x Hx) as Hnd. unfold waiting. induction (inner x) as [|p l IH]; [done|].
  apply NoDup_cons in Hnd as [Hp Hnd]. specialize (IH Hnd). rewrite !filter_cons. destruct (decide (p = c)) as [->|Hne].
  - rewrite decide_True, decide_False by set_solver. rewrite bool_decide_eq_true_2 by by left. rewrite bool_decide_eq_false_2 in IH by done.
    rewrite len_cons. lia.
  - rewrite (bool_decide_ext (c ∈ p :: l) (c ∈ l)) by (rewrite elem_of_cons; naive_solver). destruct (decide (p ∉ done)) as [Hn|Hn].
    + rewrite decide_True by set_solver. rewrite !len_cons. lia.
    + rewrite decide_False by set_solver. done.
Qed.

(** One pass over the nodes after [c] is done. *)
Lemma resolve_children_spec done c counts ready among :
  NoDup among -> (forall x, x ∈ among -> x ∈ nodes) -> c ∈ nodes -> c ∉ done ->
  (forall x, x ∈ among -> counts !! x = Some (len (waiting done x))) ->
  exists counts' ready',
    resolve_children m among c (counts, ready) = Ok (counts', ready') /\
    (forall x, x ∈ among -> counts' !! x = Some (len (waiting (done ++ [c]) x))) /\
    (forall x, x ∉ among -> counts' !! x = counts !! x) /\
    (forall x, x ∈ ready' <-> x ∈ ready \/ (x ∈ among /\ c ∈ inner x /\ waiting (done ++ [c]) x = [])).
Proof.
  revert counts ready. induction among as [|x l IH]; intros counts ready Hnd Hin Hc Hcd Hcnt; unfold resolve_children; cbn [try_fold].
  { exists counts, ready. split_and!; [done|by intros x Hx%not_elem_of_nil|done|]. intros x. rewrite elem_of_nil. tauto. }
  assert (x ∈ nodes) as Hx by (apply Hin; by left). apply NoDup_cons in Hnd as [Hxl Hnd].
  pose proof (Hnodes _ Hx) as [cx Hcx]%elem_of_dom. rewrite Hcx.
  assert (c ∈ parents cx <-> c ∈ inner x) as Hpar.
  { unfold inner. rewrite list_elem_of_filter, (parents_of_Some m x cx) by done. tauto. }
  rewrite (bool_decide_ext _ _ Hpar). pose proof (waiting_snoc done c x Hx Hcd) as Hw. pose proof (Hcnt x ltac:(by left)) as Hcx0.
  case_bool_decide as Hci.
  - unfold resolve_child. rewrite Hcx0. cbn [ok_or mbind result_bind]. unfold checked_sub. rewrite (proj2 (N.leb_le _ _)) by lia. cbn [ok_or mbind result_bind].
    replace (len (waiting done x) - 1) with (len (waiting (done ++ [c]) x)) by lia.
    destruct (IH (<[x := len (waiting (done ++ [c]) x)]> counts) (if len (waiting (done ++ [c]) x) =? 0 then {[x]} ∪ ready else ready)) as (c' & r' & E & H1 & H2 & H3); [done| |done|done| |].
    { intros y Hy. apply Hin. by right. } { intros y Hy. rewrite lookup_insert_ne by set_solver. apply Hcnt. by right. }
    exists c', r'. split_and!; [exact E| | |].
    + intros y [->|Hy]%elem_of_cons; [|by apply H1]. rewrite H2 by done. by rewrite lookup_insert_eq.
    + intros y Hy. rewrite H2 by set_solver. rewrite lookup_insert_ne by set_solver. done.
    + intros y. rewrite H3, elem_of_cons. destruct (N.eqb_spec (len (waiting (done ++ [c]) x)) 0) as [Hz|Hz].
      * assert (waiting (done ++ [c]) x = []) as Hnil by (destruct (waiting (done ++ [c]) x); [done|by rewrite len_cons in Hz; lia]).
        rewrite elem_of_union, elem_of_singleton. naive_solver.
      * assert (waiting (done ++ [c]) x <> []) as Hnil by (intros E'; by rewrite E' in Hz). naive_solver.
  - cbn [mbind result_bind]. destruct (IH counts ready) as (c' & r' & E & H1 & H2 & H3); [done| |done|done| |].
    { intros y Hy. apply Hin. by right. } { intros y Hy. apply Hcnt. by right. }
    exists c', r'. split_and!; [exact E| | |].
    + intros y [->|Hy]%elem_of_cons; [|by apply H1]. rewrite H2, Hcx0 by done. f_equal. lia.
    + intros y Hy. apply H2. set_solver.
    + intros y. rewrite H3, elem_of_cons. naive_solver.
Qed.

Lemma draining_step done counts ready c among :
  among ≡ₚ elements nodes -> draining done counts ready -> first_ready rank ready = Some c ->
  exists counts' ready', resolve_children m among c (counts, ready ∖ {[c]}) = Ok (counts', ready') /\ draining (done ++ [c]) counts' ready'.
Proof.
  intros Ham [D1 D2 D3 D4 D5 D6] Hc. apply first_ready_Some in Hc as [Hin Hleast]. apply D4 in Hin as (Hcn & Hcd & Hcw).
  assert (forall x, x ∈ among <-> x ∈ nodes) as Hmem by (intros x; by rewrite Ham, elem_of_elements).
  destruct (resolve_children_spec done c counts (ready ∖ {[c]}) among) as (counts' & ready' & E & H1 & H2 & H3).
  { rewrite Ham. apply NoDup_elements. } { intros x. by apply Hmem. } { done. } { done. } { intros x Hx. apply D3. by apply Hmem. }
  exists counts', ready'. split; [exact E|].
  assert (c ∉ inner c) as Hself by (intros Hs; apply Hcd; by eapply waiting_nil).
  split.
  - apply NoDup_app. split_and!; [done|set_solver|apply NoDup_singleton].
  - intros x [Hx|Hx]%elem_of_app; [by apply D2|]. set_solver.
  - intros x Hx. by apply H1, Hmem.
  - intros x. rewrite H3, elem_of_difference, D4, elem_of_singleton, not_elem_of_app, list_elem_of_singleton, Hmem. split.
    + intros [[(Hx & Hxd & Hw) Hne]|(Hx & Hci & Hw)]; [|split; [done|split; [|done]]].
      * split; [done|split; [by split|]]. apply waiting_nil. intros p Hp. apply elem_of_app. left. by eapply waiting_nil.
      * split; [|by intros ->]. intros Hxd. apply list_elem_of_lookup in Hxd as [i Hi]. apply Hcd. eapply elem_of_take_in, D5; [exact Hi|done].
    + intros (Hx & [Hxd Hne] & Hw). destruct (decide (c ∈ inner x)) as [Hci|Hci]; [by right|]. left. split; [|done]. split_and!; [done|done|].
      apply waiting_nil. intros p Hp. rewrite waiting_nil in Hw. specialize (Hw p Hp). apply elem_of_app in Hw as [|Hw]; [done|].
      apply list_elem_of_singleton in Hw as ->. done.
  - intros i x Hi p Hp. apply lookup_app_Some in Hi as [Hi|[Hle Hi]].
    + rewrite take_app_le by (apply lookup_lt_Some in Hi; lia). by eapply D5.
    + apply list_lookup_singleton_Some in Hi as [Hz ->]. rewrite take_app_ge by done. apply elem_of_app. left. by eapply waiting_nil.
  - intros i x Hi y Hy Hyd Hyp. apply lookup_app_Some in Hi as [Hi|[Hle Hi]].
    + rewrite take_app_le in Hyd, Hyp by (apply lookup_lt_Some in Hi; lia). by eapply D6.
    + apply list_lookup_singleton_Some in Hi as [Hz ->]. assert (i = length done) as -> by lia. rewrite take_app_length in Hyd, Hyp.
      apply Hleast, D4. split_and!; [done|done|]. by apply waiting_nil.
Qed.

Lemma draining_length done counts ready : draining done counts ready -> (length done <= size nodes)%nat.
Proof.
  intros [D1 D2 _ _ _ _]. rewrite <- (size_list_to_set (C := gset N) done) by done. apply subseteq_size. intros x. rewrite elem_of_list_to_set. apply D2.
Qed.

Lemma draining_all done counts ready x : draining done counts ready -> (size nodes <= length done)%nat -> x ∈ nodes -> x ∈ done.
Proof.
  intros [D1 D2 _ _ _ _] Hl Hx. assert (list_to_set done = nodes) as E; [|by rewrite <- (elem_of_list_to_set (C := gset N)), E].
  apply set_subseteq_size_eq; [intros y; rewrite elem_of_list_to_set; apply D2|by rewrite size_list_to_set].
Qed.

(** The loop ends within its bound with nothing left to do. *)
Lemma drain_spec fuel among done counts ready :
  among ≡ₚ elements nodes -> draining done counts ready -> (size nodes <= length done + fuel)%nat ->
  exists ordered counts', drain fuel rank m among counts ready done = Ok ordered /\ draining ordered counts' ∅.
Proof.
  intros Ham. revert done counts ready. induction fuel as [|fuel IH]; intros done counts ready Hd Hf; cbn [drain].
  - exists done, counts. split; [done|]. replace ∅ with ready; [done|]. apply set_eq. intros x. rewrite (draining_ready _ _ _ Hd).
    split; [|set_solver]. intros (Hx & Hn & _). exfalso. apply Hn. eapply draining_all; [exact Hd|lia|done].
  - destruct (first_ready rank ready) as [c|] eqn:Ef.
    + destruct (draining_step done counts ready c among Ham Hd Ef) as (counts' & ready' & E & Hd'). rewrite E. cbn [mbind result_bind].
      apply (IH _ counts' ready' Hd'). rewrite length_app. cbn. lia.
    + apply first_ready_None in Ef as ->. by exists done, counts.
Qed.

Definition edge (x p : N) : Prop := x ∈ nodes /\ p ∈ inner x.

Lemma edge_nodes x p : edge x p -> p ∈ nodes.
Proof. intros [_ Hp]. by apply list_elem_of_filter in Hp as [? _]. Qed.

Lemma tc_edge_nodes x y : tc edge x y -> x ∈ nodes.
Proof. by induction 1 as [? ? [? _]|? ? ? [? _]]. Qed.

(** Everything is done exactly when no commit is its own ancestor. *)
Lemma drained_acyclic ordered counts :
  draining ordered counts ∅ -> (forall x, x ∈ nodes -> x ∈ ordered) <-> (forall x, ~ tc edge x x).
Proof.
  intros Hd. split.
  - intros Hall. assert (forall x y, tc edge x y -> forall i j, ordered !! i = Some x -> ordered !! j = Some y -> (j < i)%nat) as Hlt.
    { assert (forall x p, edge x p -> forall i j, ordered !! i = Some x -> ordered !! j = Some p -> (j < i)%nat) as Hstep.
      { intros x p [Hx Hp] i j Hi Hj. pose proof (draining_order _ _ _ Hd i x Hi p Hp) as Ht. apply list_elem_of_lookup in Ht as (k & Hk).
        apply lookup_take_Some in Hk as [Hk Hlt]. assert (j = k) as -> by (eapply NoDup_lookup; [apply Hd|exact Hj|exact Hk]). done. }
      induction 1 as [x y He|x y z He Ht IH]; intros i j Hi Hj; [by eapply Hstep|].
      destruct (list_elem_of_lookup_1 ordered y) as [k Hk]; [by apply Hall, (edge_nodes x)|].
      specialize (IH k j Hk Hj). pose proof (Hstep _ _ He i k Hi Hk). lia. }
    intros x Hx. assert (x ∈ nodes) as Hn by (by eapply tc_edge_nodes).
    destruct (list_elem_of_lookup_1 ordered x) as [i Hi]; [by apply Hall|]. specialize (Hlt _ _ Hx i i Hi Hi). lia.
  - intros Hirr x. assert (sn edge x) as Hsn.
    { apply tc_finite_sn; [intros y; apply Hirr|]. exists (elements nodes). intros y Hy. apply elem_of_elements.
      clear -Hy. induction Hy as [? ? He|]; [by eapply edge_nodes|done]. }
    induction Hsn as [x _ IH]. intros Hx. destruct (decide (x ∈ ordered)) as [|Hn]; [done|]. exfalso.
    destruct (waiting ordered x) as [|p l] eqn:Ew.
    + assert (x ∈ (∅ : gset N)) as Hbad; [|by apply not_elem_of_empty in Hbad]. by apply (draining_ready _ _ _ Hd).
    + assert (p ∈ waiting ordered x) as Hp by (rewrite Ew; by left). apply list_elem_of_filter in Hp as [Hpn Hp].
      apply Hpn, IH; [by split|]. by eapply edge_nodes.
Qed.

(** Before the loop. *)
Lemma draining_start counts :
  (forall x, x ∈ nodes -> counts !! x = Some (len (inner x))) -> dom counts = nodes -> draining [] counts (initially_ready counts).
Proof.
  intros Hc Hdom. assert (forall x, waiting [] x = inner x) as Hw.
  { intros x. unfold waiting. induction (inner x) as [|p l IH]; [done|]. rewrite filter_cons, decide_True by apply not_elem_of_nil. by rewrite IH. }
  split; [constructor|by intros x Hx%not_elem_of_nil| | |by intros i x Hi|by intros i x Hi].
  - intros x Hx. by rewrite Hw, Hc.
  - intros x. unfold initially_ready. rewrite elem_of_dom, Hw. split.
    + intros [n [Hx Hn]%map_lookup_filter_Some]. assert (x ∈ nodes) as Hin by (rewrite <- Hdom; apply elem_of_dom; by eexists).
      split_and!; [done|apply not_elem_of_nil|]. rewrite Hc in Hx by done. injection Hx as <-. destruct (inner x); [done|by rewrite len_cons in Hn; lia].
    + intros (Hx & _ & Hn). exists 0. apply map_lookup_filter_Some. split; [|done]. by rewrite Hc, Hn.
Qed.

End drain.

(** ** Indexing *)

Definition indexed (cs : list ReconciliationCommit) : gmap N ReconciliationCommit := list_to_map (map (fun c => (commit_id c, c)) cs).

(** What one header must satisfy. *)
Definition commit_ok (l : ReconciliationLimits) (c : ReconciliationCommit) : Prop :=
  NoDup (parents c) /\ commit_id c ∉ parents c /\ len (parents c) <= parents_limit l /\ invalid_payload c = false.

#[export] Instance commit_ok_dec l c : Decision (commit_ok l c).
Proof. unfold commit_ok. apply _. Defined.

Lemma index_commit_spec l m c :
  index_commit l m c = if decide (commit_ok l c /\ m !! commit_id c = None) then Ok (<[commit_id c := c]> m) else Err InvalidInput.
Proof.
  pose proof (len_list_to_set_NoDup (parents c)) as Hsize. unfold index_commit. case_decide as Hd.
  - destruct Hd as [(Hn & Hs & Hl & Hp) Hm]. rewrite (proj2 (N.eqb_eq _ _)) by (by apply Hsize). rewrite (proj2 (N.ltb_ge _ _)) by done.
    rewrite Hp, Hm. rewrite bool_decide_eq_false_2 by (by rewrite elem_of_list_to_set). by rewrite bool_decide_eq_false_2 by (intros [? ?]; done).
  - case_match eqn:E; [done|]. exfalso. apply Hd. rewrite !orb_false_iff in E. destruct E as [[[[E1 E2] E3] E4] E5].
    apply negb_false_iff, N.eqb_eq, Hsize in E1. apply bool_decide_eq_false in E2, E5. apply N.ltb_ge in E3.
    split; [split_and!; [done| |done|done]|by apply eq_None_not_Some]. by rewrite <- (elem_of_list_to_set (C := gset N)).
Qed.

(** Duplicated identities and malformed headers are refused whatever their order. *)
Lemma index_loop_spec l cs m :
  try_fold (index_commit l) m cs =
  if decide (NoDup (map commit_id cs) /\ Forall (commit_ok l) cs /\ Forall (fun c => m !! commit_id c = None) cs)
  then Ok (indexed cs ∪ m) else Err InvalidInput.
Proof.
  revert m. induction cs as [|c cs IH]; intros m; cbn [try_fold].
  { rewrite decide_True by (split_and!; constructor). unfold indexed. cbn. by rewrite (left_id_L ∅ _). }
  rewrite index_commit_spec. destruct (decide (commit_ok l c /\ m !! commit_id c = None)) as [[Hc Hm]|Hn]; cbn [mbind result_bind].
  - rewrite IH. clear IH. cbn [map].
    assert (NoDup (map commit_id cs) /\ Forall (commit_ok l) cs /\ Forall (fun x => <[commit_id c := c]> m !! commit_id x = None) cs <->
            NoDup (commit_id c :: map commit_id cs) /\ Forall (commit_ok l) (c :: cs) /\ Forall (fun x => m !! commit_id x = None) (c :: cs)) as Hiff.
    { rewrite NoDup_cons, !Forall_cons, !(Forall_forall (fun x => _ = None)). split.
      - intros (H1 & H2 & H3). assert (forall x, x ∈ cs -> commit_id c <> commit_id x /\ m !! commit_id x = None) as Hx.
        { intros x Hin. specialize (H3 x Hin). cbv beta in H3. by apply lookup_insert_None in H3 as [? ?]. }
        split_and!; try done; [|by intros x Hin; apply Hx]. intros (x & E & Hin)%list_elem_of_fmap. by destruct (Hx x Hin).
      - intros ([H0 H1] & [_ H2] & [_ H3]). split_and!; [done..|]. intros x Hin. apply lookup_insert_None. split; [by apply H3|].
        intros E. apply H0, list_elem_of_fmap. by exists x. }
    case_decide as A; [rewrite decide_True by (by apply Hiff)|by rewrite decide_False by (by rewrite <- Hiff)]. f_equal.
    unfold indexed. cbn [map list_to_map foldr]. change (foldr _ ∅ (map _ cs)) with (indexed cs). rewrite <- insert_union_l, <- insert_union_r; [done|].
    apply not_elem_of_list_to_map_1. apply Hiff in A as ([Hf _]%NoDup_cons & _). intros (p & E & Hp)%list_elem_of_fmap.
    apply list_elem_of_fmap in Hp as (x & -> & Hx). apply Hf, list_elem_of_fmap. by exists x.
  - rewrite decide_False; [done|]. rewrite !Forall_cons. intros (_ & [? _] & [? _]). by apply Hn.
Qed.

Lemma lookup_indexed cs c : NoDup (map commit_id cs) -> c ∈ cs -> indexed cs !! commit_id c = Some c.
Proof.
  intros Hnd Hc. apply elem_of_list_to_map_1; [|apply list_elem_of_fmap; by exists c]. clear Hc.
  replace (map (fun c => (commit_id c, c)) cs).*1 with (map commit_id cs); [done|]. induction cs as [|x cs IH]; [done|]. cbn [map] in *.
  apply NoDup_cons in Hnd as [_ Hnd]. cbn. f_equal. by apply IH.
Qed.

Lemma lookup_indexed_Some cs k c : indexed cs !! k = Some c -> c ∈ cs /\ commit_id c = k.
Proof. intros Hc. apply elem_of_list_to_map_2, list_elem_of_fmap in Hc as (x & [= -> ->] & Hx). done. Qed.

(** Every parent is a commit of the page. *)
Definition parents_present (cs : list ReconciliationCommit) : Prop := Forall (fun c => Forall (fun p => p ∈ map commit_id cs) (parents c)) cs.
#[export] Instance parents_present_dec cs : Decision (parents_present cs).
Proof. unfold parents_present. apply _. Defined.

Lemma indexed_dom cs : dom (indexed cs) = list_to_set (map commit_id cs).
Proof.
  unfold indexed. rewrite dom_list_to_map_L. f_equal. induction cs as [|x cs IH]; [done|]. cbn. by rewrite <- IH.
Qed.

Lemma index_commits_spec cs l :
  index_commits cs l =
  if decide (NoDup (map commit_id cs) /\ Forall (commit_ok l) cs)
  then if decide (parents_present cs) then Ok (indexed cs) else Err MissingCommit
  else Err InvalidInput.
Proof.
  unfold index_commits. rewrite index_loop_spec. destruct (decide (NoDup (map commit_id cs) /\ Forall (commit_ok l) cs)) as [[H1 H2]|Hn].
  2:{ rewrite decide_False; [done|]. intros (? & ? & _). by apply Hn. }
  rewrite decide_True by (split_and!; [done|done|apply Forall_true; intros; apply lookup_empty]). cbn [mbind result_bind]. rewrite (right_id_L ∅ _).
  destruct (existsb _ cs) eqn:E.
  - rewrite decide_False; [done|]. intros Hp. apply existsb_exists in E as (c & Hc%list_elem_of_In & E).
    apply existsb_exists in E as (p & Hpc%list_elem_of_In & E). bool_cases. unfold parents_present in Hp. rewrite Forall_forall in Hp. specialize (Hp c Hc).
    rewrite Forall_forall in Hp. specialize (Hp p Hpc). apply not_elem_of_dom in E. apply E. rewrite indexed_dom. by apply elem_of_list_to_set.
  - rewrite decide_True; [done|]. apply Forall_forall. intros c Hc. apply Forall_forall. intros p Hp. apply not_true_iff_false in E.
    destruct (indexed cs !! p) as [x|] eqn:Ex; [apply lookup_indexed_Some in Ex as [Hx <-]; apply list_elem_of_fmap; by exists x|].
    exfalso. apply E, existsb_exists. exists c. split; [by apply list_elem_of_In|]. apply existsb_exists. exists p. split; [by apply list_elem_of_In|].
    by apply bool_decide_eq_true_2.
Qed.

(** ** Selection *)

Section selection.
Context (m : gmap N ReconciliationCommit).

(** [best] maps each operation of the folded commits to the least of them. *)
Lemma select_fold included l selected :
  (forall op c, selected !! op = Some c -> operation_of m c = op /\ op ∉ included) ->
  forall op c, foldl (select_commit m included) selected l !! op = Some c <->
    op ∉ included /\ operation_of m c = op /\ (c ∈ l \/ selected !! op = Some c) /\
    (forall d, d ∈ l -> operation_of m d = op -> c <= d) /\ (forall d, selected !! op = Some d -> c <= d).
Proof.
  revert selected. induction l as [|x l IH]; intros selected Hsel op c; cbn [foldl].
  - split; [intros Hc; destruct (Hsel _ _ Hc); split_and!; [done|done|by right|by intros d Hd%not_elem_of_nil|intros d Hd; rewrite Hc in Hd; by injection Hd as ->]|].
    intros (_ & _ & [Hc%not_elem_of_nil|Hc] & _); done.
  - rewrite IH; clear IH.
    + unfold select_commit. case_bool_decide as Hin.
      * split; intros (H1 & H2 & H3 & H4 & H5); split_and!; try done; [set_solver| | |].
        -- intros d [->|Hd]%elem_of_cons E; [congruence|by apply H4].
        -- destruct H3 as [[->|?]%elem_of_cons|?]; [congruence|by left|by right].
        -- intros d Hd. apply H4. by right.
      * destruct (decide (operation_of m x = op)) as [<-|Hne].
        -- destruct (selected !! operation_of m x) as [old|] eqn:Eo.
           ++ rewrite lookup_insert_eq. pose proof (Hsel _ _ Eo) as [Ho _]. split; intros (H1 & H2 & H3 & H4 & H5); split_and!; try done.
              ** specialize (H5 _ eq_refl). destruct H3 as [H3|[= H3]]; [left; by right|]. destruct (N.min_spec old x) as [[_ E]|[_ E]]; rewrite E in H3; subst; [by right|left; by left].
              ** intros d [->|Hd]%elem_of_cons E; [specialize (H5 _ eq_refl); lia|by apply H4].
              ** intros d [= <-]. specialize (H5 _ eq_refl). lia.
              ** specialize (H5 _ eq_refl). specialize (H4 x ltac:(by left) eq_refl). destruct H3 as [[->|H3]%elem_of_cons|[= ->]]; [right; f_equal; lia|by left|right; f_equal; lia].
              ** intros d Hd. apply H4. by right.
              ** intros d [= <-]. specialize (H5 _ eq_refl). specialize (H4 x ltac:(by left) eq_refl). lia.
           ++ rewrite lookup_insert_eq. split; intros (H1 & H2 & H3 & H4 & H5); split_and!; try done.
              ** destruct H3 as [H3|[= <-]]; left; [by right|by left].
              ** intros d [->|Hd]%elem_of_cons E; [by apply H5|by apply H4].
              ** destruct H3 as [[->|H3]%elem_of_cons|?]; [by right|by left|done].
              ** intros d Hd. apply H4. by right.
              ** intros d [= <-]. apply H4; [by left|done].
        -- assert ((match selected !! operation_of m x with Some old => <[operation_of m x := N.min old x]> selected | None => <[operation_of m x := x]> selected end) !! op = selected !! op) as ->
             by (destruct (selected !! operation_of m x); by rewrite lookup_insert_ne).
           split; intros (H1 & H2 & H3 & H4 & H5); split_and!; try done; [set_solver| | |].
           ++ intros d [->|Hd]%elem_of_cons E; [congruence|by apply H4].
           ++ destruct H3 as [[->|?]%elem_of_cons|?]; [congruence|by left|by right].
           ++ intros d Hd. apply H4. by right.
    + intros op' c'. unfold select_commit. case_bool_decide as Hin; [apply Hsel|].
      destruct (selected !! operation_of m x) as [old|] eqn:Eo; intros [[<- <-]|[_ Hc]]%lookup_insert_Some; try (by apply Hsel); [|done].
      split; [|done]. destruct (Hsel _ _ Eo). destruct (N.min_spec old x) as [[_ ->]|[_ ->]]; done.
Qed.

(** A commit is pending when it is eligible but not converged, its operation is new, and it is
    the least such commit of its operation. *)
Definition pending_commit (eligible converged : gset N) (x : N) : Prop :=
  x ∈ eligible /\ (forall d, d ∈ converged -> operation_of m d <> operation_of m x) /\
  (forall d, d ∈ eligible -> d ∉ converged -> operation_of m d = operation_of m x -> x <= d).

Lemma select_pending_spec eligible converged x : x ∈ select_pending m eligible converged <-> pending_commit eligible converged x.
Proof.
  unfold select_pending, pending_commit. rewrite elem_of_map_img. split.
  - intros [op Hx]. apply select_fold in Hx as (H1 & H2 & H3 & H4 & _); [|by intros ?? ?%lookup_empty_Some].
    destruct H3 as [H3|H3]; [|by apply lookup_empty_Some in H3]. apply elem_of_ascending, elem_of_difference in H3 as [He Hc].
    split_and!; [done| |]; [intros d Hd E; apply H1, elem_of_map; exists d; by rewrite E, H2|].
    intros d Hd Hn E. apply H4; [by apply elem_of_ascending, elem_of_difference|congruence].
  - intros (H1 & H2 & H3). exists (operation_of m x). apply select_fold; [by intros ?? ?%lookup_empty_Some|].
    split_and!; [|done| | |by intros ? ?%lookup_empty_Some].
    + intros (d & E & Hd)%elem_of_map. by apply (H2 d).
    + left. apply elem_of_ascending, elem_of_difference. split; [done|]. intros Hc. by apply (H2 x).
    + intros d [? ?]%elem_of_ascending%elem_of_difference E. by apply H3.
Qed.

End selection.

(** ** Operations *)

(** Reusing an operation means the same request. *)
Definition operations_agree (cs : list ReconciliationCommit) : Prop :=
  forall c d, c ∈ cs -> d ∈ cs -> operation_id c = operation_id d -> request_digest c = request_digest d.

Lemma record_operations_spec cs ops :
  (exists ops', try_fold record_operation ops cs = Ok ops') \/ try_fold record_operation ops cs = Err OperationConflict.
Proof.
  revert ops. induction cs as [|c cs IH]; intros ops; cbn [try_fold]; [left; by exists ops|].
  destruct (record_operation ops c) as [ops'|e] eqn:E; cbn [mbind result_bind]; [apply IH|]. right. f_equal.
  unfold record_operation in E. destruct (ops !! operation_id c); [case_bool_decide|]; congruence.
Qed.

Lemma record_operations_Ok cs ops :
  (exists ops', try_fold record_operation ops cs = Ok ops') <->
  operations_agree cs /\ (forall c d, c ∈ cs -> ops !! operation_id c = Some d -> d = request_digest c).
Proof.
  revert ops. induction cs as [|c cs IH]; intros ops; cbn [try_fold].
  { split; [intros _|intros _; by exists ops]. split; [intros c d Hc|intros c d Hc]; by apply not_elem_of_nil in Hc. }
  assert ((forall d, ops !! operation_id c = Some d -> d = request_digest c) ->
    (exists ops', try_fold record_operation (<[operation_id c := request_digest c]> ops) cs = Ok ops') <->
    operations_agree (c :: cs) /\ (forall x d, x ∈ c :: cs -> ops !! operation_id x = Some d -> d = request_digest x)) as Hgo.
  { intros Hc. rewrite IH. split.
    - intros [H1 H2]. assert (forall x, x ∈ cs -> operation_id c = operation_id x -> request_digest c = request_digest x) as H3
        by (intros x Hx E; apply H2; [done|rewrite E; apply lookup_insert_eq]). split.
      + intros x y [->|Hx]%elem_of_cons [->|Hy]%elem_of_cons E; [done|by apply H3|symmetry; by apply H3|by apply H1].
      + intros x d [->|Hx]%elem_of_cons E; [by apply Hc|]. destruct (decide (operation_id c = operation_id x)) as [E'|Hne].
        * rewrite <- E' in E. rewrite (Hc _ E). by apply H3.
        * apply H2; [done|]. by rewrite lookup_insert_ne.
    - intros [H1 H2]. split; [intros x y Hx Hy; apply H1; by right|]. intros x d Hx [[E <-]|[Hne E]]%lookup_insert_Some.
      + apply H1; [by left|by right|done].
      + apply H2; [by right|done]. }
  destruct (ops !! operation_id c) as [d|] eqn:Eo; [destruct (decide (d = request_digest c)) as [->|Hd]|].
  1,3: replace (record_operation ops c) with (Ok (E := ReconciliationError) (<[operation_id c := request_digest c]> ops)) by (unfold record_operation; rewrite Eo; try rewrite bool_decide_eq_true_2 by done; done).
  all: cbn [mbind result_bind].
  - apply Hgo. intros d' [= <-]. done.
  - apply Hgo. done.
  - assert (record_operation ops c = Err OperationConflict) as -> by (unfold record_operation; by rewrite Eo, bool_decide_eq_false_2). split; [by intros [? ?]|]. intros [_ H2]. exfalso. apply Hd. apply H2; [by left|done].
Qed.

Lemma operations_agree_perm cs cs' : cs ≡ₚ cs' -> operations_agree cs -> operations_agree cs'.
Proof. intros Hp Ha c d Hc Hd. rewrite <- Hp in Hc, Hd. by apply Ha. Qed.

Lemma ascending_map_perm {V} (m : gmap N V) : ascending_map m ≡ₚ map_to_list m.
Proof.
  apply NoDup_Permutation; [eapply NoDup_fmap_1, ascending_map_NoDup|apply NoDup_map_to_list|].
  intros [k v]. by rewrite elem_of_ascending_map, elem_of_map_to_list.
Qed.

(** The commits of the page in the order of their identities. *)
Lemma values_indexed cs : NoDup (map commit_id cs) -> values (indexed cs) ≡ₚ cs.
Proof.
  intros Hnd. unfold values. rewrite ascending_map_perm. unfold indexed.
  assert ((map (fun c => (commit_id c, c)) cs).*1 = map commit_id cs) as Hk by (clear; induction cs as [|x cs IH]; [done|]; cbn; by rewrite <- IH).
  rewrite map_to_list_to_map by (by rewrite Hk). assert ((map (fun c => (commit_id c, c)) cs).*2 = cs) as ->; [|done].
  clear. induction cs as [|x cs IH]; [done|]. cbn. f_equal. exact IH.
Qed.

Lemma validate_operations_spec cs :
  NoDup (map commit_id cs) ->
  (validate_operations (indexed cs) = Ok tt /\ operations_agree cs) \/ (validate_operations (indexed cs) = Err OperationConflict /\ ~ operations_agree cs).
Proof.
  intros Hnd. pose proof (values_indexed cs Hnd) as Hp. pose proof (record_operations_Ok (values (indexed cs)) ∅) as Hiff.
  assert (operations_agree (values (indexed cs)) <-> operations_agree cs) as Ha by (split; apply operations_agree_perm; [done|by symmetry]).
  unfold validate_operations. destruct (record_operations_spec (values (indexed cs)) ∅) as [[ops E]|E]; rewrite E; cbn [mbind result_bind].
  - left. split; [done|]. apply Ha, Hiff. by exists ops.
  - right. split; [done|]. intros Hc%Ha. destruct (proj2 Hiff) as [ops E']; [|congruence]. split; [done|]. by intros ?? ? ?%lookup_empty_Some.
Qed.

(** ** Acyclicity *)

Lemma tc_edge_dom m : closed m -> forall x y, tc (edge m (dom m)) x y <-> tc (parent_of m) x y.
Proof.
  intros Hcl. assert (forall x y, edge m (dom m) x y <-> parent_of m x y) as He.
  { intros x y. unfold edge, inner, parent_of. rewrite list_elem_of_filter. split; [tauto|]. intros Hp. split_and!; [|by eapply Hcl|done].
    unfold parents_of in Hp. apply elem_of_dom. destruct (m !! x); [by eexists|by apply not_elem_of_nil in Hp]. }
  intros x y. split; apply (tc_congruence (fun z => z)); intros a b; apply He.
Qed.

Definition acyclic (m : gmap N ReconciliationCommit) : Prop := forall x, ~ tc (parent_of m) x x.

Lemma draining_covers rank m nodes ordered counts :
  draining rank m nodes ordered counts ∅ -> length ordered = size nodes <-> (forall x, x ∈ nodes -> x ∈ ordered).
Proof.
  intros Hd. pose proof (draining_length _ _ _ _ _ _ Hd) as Hle. split; [intros E x Hx; eapply draining_all; [exact Hd|lia|done]|].
  intros Hall. assert (size nodes <= length ordered)%nat; [|lia]. rewrite <- (size_list_to_set (C := gset N) ordered) by apply Hd.
  apply subseteq_size. intros x Hx. by apply elem_of_list_to_set, Hall.
Qed.

Lemma validate_acyclic_spec m :
  closed m -> (forall x, NoDup (parents_of m x)) ->
  (validate_acyclic m = Ok tt /\ acyclic m) \/ (validate_acyclic m = Err Cycle /\ ~ acyclic m).
Proof.
  intros Hcl Hnd. set (counts := (fun c => len (parents c)) <$> m).
  assert (draining (fun _ => 0) m (dom m) [] counts (initially_ready counts)) as Hs.
  { apply draining_start; [|apply dom_fmap_L]. intros x [c Hc]%elem_of_dom. unfold counts. rewrite lookup_fmap, Hc. cbn. do 2 f_equal.
    unfold inner. rewrite filter_all; [by rewrite (parents_of_Some m x c)|]. intros p Hp. by eapply Hcl. }
  destruct (drain_spec (fun _ => 0) m (dom m) (reflexivity _) (fun x _ => Hnd x) (size m) (ascending (dom m)) [] counts _ (ascending_perm _) Hs) as (ordered & c' & E & Hd).
  { rewrite size_dom. cbn. lia. }
  unfold validate_acyclic. fold counts. rewrite E. cbn [mbind result_bind].
  pose proof (draining_covers _ _ _ _ _ Hd) as Hcov. pose proof (drained_acyclic _ _ _ _ _ Hd) as Hac. rewrite size_dom in Hcov.
  assert (acyclic m <-> forall x, ~ tc (edge m (dom m)) x x) as Hiff by (split; intros Ha x Hx; apply (Ha x); by apply tc_edge_dom).
  destruct (N.eqb_spec (len ordered) (N.of_nat (size m))) as [Hl|Hl]; [left|right]; (split; [done|]); rewrite Hiff, <- Hac, <- Hcov; unfold len in Hl; lia.
Qed.

(** Part of an acyclic graph drains completely, in the least topological order. *)
Lemma order_pending_spec m pending :
  closed m -> (forall x, NoDup (parents_of m x)) -> acyclic m -> pending ⊆ dom m ->
  exists ordered counts, order_pending m pending = Ok ordered /\ draining (operation_of m) m pending ordered counts ∅ /\ forall x, x ∈ ordered <-> x ∈ pending.
Proof.
  intros Hcl Hnd Hac Hsub. set (counts := set_to_map (fun c => (c, len (inner m pending c))) pending : gmap N N).
  assert (forall x, x ∈ pending -> counts !! x = Some (len (inner m pending x))) as Hc.
  { intros x Hx. apply lookup_set_to_map; [by intros ????|]. by exists x. }
  assert (draining (operation_of m) m pending [] counts (initially_ready counts)) as Hs.
  { apply draining_start; [done|]. apply set_eq. intros x. rewrite elem_of_dom. split; [|intros Hx; by rewrite Hc].
    intros [n Hx]. apply lookup_set_to_map in Hx as (y & Hy & [= <- _]); [done|by intros ????]. }
  destruct (drain_spec (operation_of m) m pending Hsub (fun x _ => Hnd x) (size pending) (ascending pending) [] counts _ (ascending_perm _) Hs) as (ordered & c' & E & Hd); [cbn; lia|].
  assert (forall x, x ∈ pending -> x ∈ ordered) as Hall.
  { apply (drained_acyclic _ _ _ _ _ Hd). intros x Hx. apply (Hac x). revert Hx. apply (tc_congruence (fun z => z)).
    intros a b [_ Hb]. by apply list_elem_of_filter in Hb as [_ ?]. }
  exists ordered, c'. unfold order_pending. change (set_to_map _ pending) with counts. rewrite E. cbn [mbind result_bind].
  rewrite (proj2 (N.eqb_eq _ _)) by (unfold len; f_equal; by eapply draining_covers). split_and!; [done..|]. intros x. split; [by apply Hd|apply Hall].
Qed.

(** ** Merge frontier *)

Lemma sublist_sorted (l : list N) : StronglySorted N.le l -> NoDup l -> forall k, sublist k l -> StronglySorted N.lt k.
Proof.
  intros Hs Hn k Hk. induction Hk as [|x k l Hk IH|x k l Hk IH]; [constructor| |]; inversion Hs as [|?? Hs' Hall]; subst; apply NoDup_cons in Hn as [Hx Hn].
  - constructor; [by apply IH|]. apply Forall_forall. intros y Hy. pose proof (sublist_subseteq _ _ Hk y Hy) as Hin.
    rewrite Forall_forall in Hall. specialize (Hall y Hin). assert (x <> y) by (by intros ->). cbn in *. lia.
  - by apply IH.
Qed.

Section frontier.
Context (m : gmap N ReconciliationCommit) (Hclosed : closed m).

(** A proper descendant of [c] among the heads. *)
Definition superseded_by (heads : list N) (c : N) : Prop := exists h, h ∈ heads /\ h <> c /\ rtc (parent_of m) h c.

Lemma superseded_spec c others :
  (forall h, h ∈ others -> h ∈ dom m) -> exists b, superseded m c others = Ok b /\ (b = true <-> superseded_by others c).
Proof.
  intros Hin. induction others as [|h others IH]; cbn [superseded].
  { exists false. split; [done|]. split; [done|]. intros (h & Hh%not_elem_of_nil & _). done. }
  destruct IH as (b & E & Hb); [intros x Hx; apply Hin; by right|]. destruct (N.eqb_spec h c) as [->|Hne].
  - exists b. split; [done|]. rewrite Hb. unfold superseded_by. setoid_rewrite elem_of_cons. naive_solver.
  - destruct (reachable_spec m Hclosed [h]) as (s & -> & Hs); [intros x ->%list_elem_of_singleton; apply Hin; by left|]. cbn [mbind result_bind].
    setoid_rewrite list_elem_of_singleton in Hs. unfold superseded_by. setoid_rewrite elem_of_cons. case_bool_decide as Hc.
    + exists true. split; [done|]. split; [intros _|done]. apply Hs in Hc as (x & -> & Hx). exists h. auto.
    + exists b. split; [done|]. rewrite Hb. unfold superseded_by. split; [naive_solver|]. intros (x & [->|Hx] & Hxc & Hr); [|by exists x].
      exfalso. apply Hc, Hs. by exists h.
Qed.

Lemma keep_minimal_spec heads candidates :
  (forall h, h ∈ heads -> h ∈ dom m) ->
  exists kept, keep_minimal m heads candidates = Ok kept /\ sublist kept candidates /\ forall c, c ∈ kept <-> c ∈ candidates /\ ~ superseded_by heads c.
Proof.
  intros Hin. induction candidates as [|c l (kept & E & Hsub & Hk)]; cbn [keep_minimal].
  { exists []. split_and!; [done|constructor|]. intros c. rewrite elem_of_nil. tauto. }
  destruct (superseded_spec c heads Hin) as (b & -> & Hb). cbn [mbind result_bind]. rewrite E. cbn [mbind result_bind].
  exists (if b then kept else c :: kept). split; [done|]. destruct b.
  - split; [by constructor|]. intros x. rewrite Hk, elem_of_cons. split; [tauto|]. intros [[->|?] Hn]; [|done]. by destruct Hn; apply Hb.
  - split; [by constructor|]. intros x. rewrite !elem_of_cons, Hk. split; [|tauto]. intros [->|[? ?]]; [|tauto]. split; [by left|]. by intros ?%Hb.
Qed.

Lemma minimal_frontier_spec f :
  (forall h, h ∈ all_heads f -> h ∈ dom m) ->
  exists ps, minimal_frontier f m = Ok ps /\ StronglySorted N.lt ps /\ forall c, c ∈ ps <-> c ∈ all_heads f /\ ~ superseded_by (all_heads f) c.
Proof.
  intros Hin. set (hs := ascending (list_to_set (all_heads f))). assert (forall h, h ∈ hs <-> h ∈ all_heads f) as Hhs
    by (intros h; unfold hs; by rewrite elem_of_ascending, elem_of_list_to_set).
  destruct (keep_minimal_spec hs hs) as (kept & E & Hsub & Hk); [intros h Hh%Hhs; by apply Hin|]. exists kept. split; [exact E|]. split.
  - eapply sublist_sorted; [apply ascending_sorted|apply ascending_NoDup|exact Hsub].
  - intros c. rewrite Hk, Hhs. unfold superseded_by. by setoid_rewrite Hhs.
Qed.

End frontier.
