(* ===== verification/ReconcilePlan.v ===== *)
(** What the reconciliation planner promises: it accepts exactly the well-formed pages, orders
    each outstanding operation once after its ancestors, merges a minimal frontier, and does not
    depend on the order of delivery; with the merge commit of a plan as converged head, the same
    heads leave nothing outstanding. *)

From Stdlib Require Import String.
From S2P Require Import Prelude Ids Contracts Reconcile ReconcileFacts.
From stdpp Require Import prelude gmap sorting list relations.
#[local] Open Scope N_scope.

(** ** Independence of order *)

Lemma existsb_perm {A} (p : A -> bool) l k : l ≡ₚ k -> existsb p l = existsb p k.
Proof. induction 1 as [|x l k _ IH|x y l|l1 l2 l3 _ IH1 _ IH2]; cbn; [done|by rewrite IH| |congruence]. by destruct (p x), (p y). Qed.

Lemma len_perm {A} (l k : list A) : l ≡ₚ k -> len l = len k.
Proof. unfold len. by intros ->. Qed.

Lemma list_to_set_perm (l k : list N) : l ≡ₚ k -> list_to_set (C := gset N) l = list_to_set k.
Proof. intros Hp. apply set_eq. intros x. by rewrite !elem_of_list_to_set, Hp. Qed.

Lemma empty_perm {A} `{EqDecision A} (l k : list A) : l ≡ₚ k -> bool_decide (l = []) = bool_decide (k = []).
Proof. intros Hp. apply bool_decide_ext. split; intros ->; [symmetry in Hp|]; by apply Permutation_nil_r in Hp. Qed.

#[export] Instance ReconciliationCommitPayload_eq_dec : EqDecision ReconciliationCommitPayload.
Proof. solve_decision. Defined.
#[export] Instance ReconciliationCommit_eq_dec : EqDecision ReconciliationCommit.
Proof. solve_decision. Defined.

Lemma indexed_perm cs cs' : cs ≡ₚ cs' -> NoDup (map commit_id cs) -> indexed cs = indexed cs'.
Proof.
  intros Hp Hnd. unfold indexed. apply list_to_map_proper; [|by rewrite Hp]. replace (map (fun c => (commit_id c, c)) cs).*1 with (map commit_id cs); [done|].
  clear. induction cs as [|x cs IH]; [done|]. cbn. by f_equal.
Qed.

Lemma index_commits_perm cs cs' l : cs ≡ₚ cs' -> index_commits cs l = index_commits cs' l.
Proof.
  intros Hp. rewrite !index_commits_spec. assert (map commit_id cs ≡ₚ map commit_id cs') as Hm by by rewrite Hp.
  assert (parents_present cs <-> parents_present cs') as Hpp.
  { unfold parents_present. rewrite !Forall_forall. split; intros Hc c Hin; [rewrite <- Hp in Hin|rewrite Hp in Hin]; specialize (Hc c Hin);
      rewrite Forall_forall in *; intros p Hpc; [rewrite <- Hm|rewrite Hm]; by apply Hc. }
  assert (NoDup (map commit_id cs) /\ Forall (commit_ok l) cs <-> NoDup (map commit_id cs') /\ Forall (commit_ok l) cs') as Hok by by rewrite Hm, Hp.
  repeat case_decide; try tauto. f_equal. apply indexed_perm; [done|tauto].
Qed.

Lemma update_ids_perm l k : l ≡ₚ k -> update_ids l = update_ids k.
Proof.
  intros Hp. unfold update_ids. rewrite (len_perm _ _ Hp). do 3 f_equal. apply (StronglySorted_unique N.le); [apply (StronglySorted_merge_sort N.le)..|].
  by rewrite !merge_sort_Permutation.
Qed.

Lemma reachable_perm m l k : closed m -> (forall h, h ∈ l -> h ∈ dom m) -> l ≡ₚ k -> reachable l m = reachable k m.
Proof.
  intros Hcl Hin Hp. destruct (reachable_spec m Hcl l Hin) as (s & -> & Hs).
  destruct (reachable_spec m Hcl k) as (s' & -> & Hs'); [intros h; rewrite <- Hp; apply Hin|]. f_equal. apply set_eq. intros x. rewrite Hs, Hs'. by setoid_rewrite Hp.
Qed.

(** What an accepted index is. *)
Lemma index_commits_Ok cs l m :
  index_commits cs l = Ok m ->
  m = indexed cs /\ NoDup (map commit_id cs) /\ Forall (commit_ok l) cs /\ parents_present cs.
Proof. rewrite index_commits_spec. repeat case_decide; intros E; try done. injection E as <-. tauto. Qed.

Lemma indexed_parents cs x : x ∈ dom (indexed cs) -> exists c, c ∈ cs /\ commit_id c = x /\ parents_of (indexed cs) x = parents c.
Proof. intros [c Hc]%elem_of_dom. exists c. rewrite (parents_of_Some _ _ _ Hc). by apply lookup_indexed_Some in Hc as [? ?]. Qed.

Lemma parents_of_dom m x p : p ∈ parents_of m x -> x ∈ dom m.
Proof. unfold parents_of. intros Hp. apply elem_of_dom. destruct (m !! x); [by eexists|by apply not_elem_of_nil in Hp]. Qed.

Lemma indexed_closed cs : parents_present cs -> closed (indexed cs).
Proof.
  intros Hpp x p Hp. unfold parent_of in Hp. destruct (indexed_parents cs x (parents_of_dom _ _ _ Hp)) as (c & Hc & _ & E).
  rewrite E in Hp. unfold parents_present in Hpp. rewrite Forall_forall in Hpp. specialize (Hpp c Hc). rewrite Forall_forall in Hpp.
  rewrite indexed_dom. apply elem_of_list_to_set. by apply Hpp.
Qed.

Lemma indexed_NoDup_parents l cs x : Forall (commit_ok l) cs -> NoDup (parents_of (indexed cs) x).
Proof.
  intros Hok. destruct (decide (x ∈ dom (indexed cs))) as [Hx|Hx].
  - destruct (indexed_parents cs x Hx) as (c & Hc & _ & ->). rewrite Forall_forall in Hok. by apply Hok.
  - unfold parents_of. apply not_elem_of_dom in Hx as ->. constructor.
Qed.

(** All commits share the root of the first, the heads are distinct and present. *)
Definition one_namespace (cs : list ReconciliationCommit) : Prop :=
  forall c d, c ∈ cs -> d ∈ cs -> volume_id c = volume_id d /\ root_object_id c = root_object_id d.
Definition heads_known (cs : list ReconciliationCommit) (f : ReconciliationFrontier) : Prop :=
  NoDup (all_heads f) /\ forall h, h ∈ all_heads f -> h ∈ map commit_id cs.

Lemma validate_namespace_spec cs f :
  NoDup (map commit_id cs) -> validate_namespace (indexed cs) f = Ok tt <-> cs <> [] /\ one_namespace cs /\ heads_known cs f.
Proof.
  intros Hnd. pose proof (values_indexed cs Hnd) as Hv. unfold validate_namespace.
  destruct (values (indexed cs)) as [|c0 vs] eqn:Ev; cbn [head ok_or mbind result_bind].
  { apply Permutation_nil_l in Hv as ->. split; [done|by intros [? _]]. }
  assert (c0 ∈ cs) as H0 by (rewrite <- Hv; by left). assert (cs <> []) as Hne by (intros ->; by apply not_elem_of_nil in H0).
  destruct (existsb _ (c0 :: vs)) eqn:En.
  { split; [done|]. intros (_ & Hone & _). apply existsb_exists in En as (c & Hc%list_elem_of_In & E). rewrite Hv in Hc.
    destruct (Hone c c0 Hc H0) as [E1 E2]. by rewrite E1, E2, !N.eqb_refl in E. }
  assert (one_namespace cs) as Hone.
  { assert (forall c, c ∈ cs -> volume_id c = volume_id c0 /\ root_object_id c = root_object_id c0) as Hc.
    { intros c Hc. rewrite <- Hv in Hc. apply not_true_iff_false in En. destruct (N.eqb_spec (volume_id c) (volume_id c0)), (N.eqb_spec (root_object_id c) (root_object_id c0)); try done;
        exfalso; apply En, existsb_exists; (exists c; split; [by apply list_elem_of_In|]); rewrite orb_true_iff, !negb_true_iff, !N.eqb_neq; tauto. }
    intros c d Hcc Hd. destruct (Hc c Hcc) as [-> ->], (Hc d Hd) as [-> ->]. done. }
  pose proof (len_list_to_set_NoDup (all_heads f)) as Hs. unfold heads_known.
  destruct (N.eqb_spec (N.of_nat (size (list_to_set (C := gset N) (all_heads f)))) (len (all_heads f))) as [E|E]; cbn [negb]; [|split; [done|]; tauto].
  destruct (existsb _ (all_heads f)) eqn:Eh; split; try done.
  - intros (_ & _ & _ & Hall). apply existsb_exists in Eh as (h & Hh%list_elem_of_In & Eh). apply bool_decide_eq_true, not_elem_of_dom in Eh.
    rewrite indexed_dom, elem_of_list_to_set in Eh. by destruct Eh; apply Hall.
  - intros _. split_and!; [done|done|by apply Hs|]. intros h Hh. rewrite <- (elem_of_list_to_set (C := gset N)), <- indexed_dom.
    destruct (indexed cs !! h) eqn:El; [apply elem_of_dom; by eexists|]. exfalso. apply not_true_iff_false in Eh. apply Eh, existsb_exists. exists h.
    split; [by apply list_elem_of_In|by apply bool_decide_eq_true_2].
Qed.

(** ** The contract *)

Section contract.
Context (cs : list ReconciliationCommit) (f : ReconciliationFrontier).

Definition ancestor (heads : list N) (x : N) : Prop := exists h, h ∈ heads /\ rtc (parent_of (indexed cs)) h x.
Definition converged_ancestor : N -> Prop := ancestor (option_list (converged_head f)).
Definition eligible_ancestor : N -> Prop := ancestor (eligible_heads f).
Abbreviation operation := (operation_of (indexed cs)).

(** A commit still to be applied: its operation is in no converged ancestor and no lesser
    commit carries the operation. *)
Definition outstanding (x : N) : Prop :=
  eligible_ancestor x /\ (forall d, converged_ancestor d -> operation d <> operation x) /\
  (forall d, eligible_ancestor d -> ~ converged_ancestor d -> operation d = operation x -> x <= d).

Record acceptable (l : ReconciliationLimits) : Prop := {
  acceptable_size : cs <> [] /\ len cs <= commits_limit l;
  acceptable_frontier : eligible_heads f <> [] /\ len (eligible_heads f) <= frontier_limit l;
  acceptable_ids : NoDup (map commit_id cs);
  acceptable_commits : Forall (commit_ok l) cs;
  acceptable_parents : parents_present cs;
  acceptable_namespace : one_namespace cs;
  acceptable_heads : heads_known cs f;
  acceptable_reachable c : c ∈ cs -> converged_ancestor (commit_id c) \/ eligible_ancestor (commit_id c);
  acceptable_acyclic : acyclic (indexed cs);
  acceptable_operations : operations_agree cs;
  acceptable_restores x : outstanding x -> is_restore (indexed cs) x = false
}.

Lemma validate_bounds_Ok l :
  validate_bounds cs f l = Ok tt <->
  cs <> [] /\ eligible_heads f <> [] /\ len cs <= commits_limit l /\ len (eligible_heads f) <= frontier_limit l /\ Forall (fun c => len (parents c) <= parents_limit l) cs.
Proof.
  unfold validate_bounds. assert (existsb (fun c => parents_limit l <? len (parents c)) cs = false <-> Forall (fun c => len (parents c) <= parents_limit l) cs) as He.
  { clear. induction cs as [|c k IH]; cbn; [split; [constructor|done]|]. rewrite Forall_cons, orb_false_iff, N.ltb_ge. tauto. }
  destruct (bool_decide (cs = [])) eqn:E1; [apply bool_decide_eq_true in E1; split; [done|tauto]|]. apply bool_decide_eq_false in E1. cbn [orb].
  destruct (bool_decide (eligible_heads f = [])) eqn:E2; [apply bool_decide_eq_true in E2; split; [done|tauto]|]. apply bool_decide_eq_false in E2.
  destruct (N.ltb_spec (commits_limit l) (len cs)); [split; [done|lia]|]. destruct (N.ltb_spec (frontier_limit l) (len (eligible_heads f))); [split; [done|lia]|]. cbn [orb].
  destruct (existsb _ cs); split; try done; [|intros _; tauto]. intros (_ & _ & _ & _ & Hc). by apply He in Hc.
Qed.

(** The two reachable sets, once the heads are known. *)
Lemma reached : parents_present cs -> heads_known cs f ->
  exists converged eligible,
    reachable (option_list (converged_head f)) (indexed cs) = Ok converged /\ reachable (eligible_heads f) (indexed cs) = Ok eligible /\
    (forall x, x ∈ converged <-> converged_ancestor x) /\ (forall x, x ∈ eligible <-> eligible_ancestor x) /\
    converged ∪ eligible ⊆ dom (indexed cs).
Proof.
  intros Hpp [_ Hh]. pose proof (indexed_closed cs Hpp) as Hcl. assert (forall h, h ∈ all_heads f -> h ∈ dom (indexed cs)) as Hd
    by (intros h Hin; rewrite indexed_dom; by apply elem_of_list_to_set, Hh).
  unfold all_heads in Hd. setoid_rewrite elem_of_app in Hd.
  destruct (reachable_spec _ Hcl (option_list (converged_head f))) as (s1 & E1 & H1); [intros h Hin; apply Hd; by left|].
  destruct (reachable_spec _ Hcl (eligible_heads f)) as (s2 & E2 & H2); [intros h Hin; apply Hd; by right|]. exists s1, s2. split_and!; [done..|].
  assert (forall h x, rtc (parent_of (indexed cs)) h x -> h ∈ dom (indexed cs) -> x ∈ dom (indexed cs)) as Hr
    by (induction 1; intros; [done|]; eauto).
  intros x [(h & Hin & Hx)%H1|(h & Hin & Hx)%H2]%elem_of_union; (eapply Hr; [exact Hx|apply Hd; auto]).
Qed.

Lemma covers converged eligible :
  (forall x, x ∈ converged <-> converged_ancestor x) -> (forall x, x ∈ eligible <-> eligible_ancestor x) -> converged ∪ eligible ⊆ dom (indexed cs) ->
  NoDup (map commit_id cs) ->
  size (converged ∪ eligible) = size (indexed cs) <-> forall c, c ∈ cs -> converged_ancestor (commit_id c) \/ eligible_ancestor (commit_id c).
Proof.
  intros Hc He Hsub Hnd. rewrite <- size_dom. split.
  - intros Hs c Hin. rewrite <- Hc, <- He, <- elem_of_union. assert (converged ∪ eligible = dom (indexed cs)) as -> by (apply set_subseteq_size_eq; [done|lia]).
    apply elem_of_dom. rewrite (lookup_indexed cs c Hnd Hin). by eexists.
  - intros Hall. f_equal. apply set_eq. intros x. split; [apply Hsub|]. intros Hx. destruct (indexed_parents cs x Hx) as (c & Hin & <- & _).
    rewrite elem_of_union, Hc, He. by apply Hall.
Qed.

Lemma outstanding_pending converged eligible x :
  (forall x, x ∈ converged <-> converged_ancestor x) -> (forall x, x ∈ eligible <-> eligible_ancestor x) ->
  x ∈ select_pending (indexed cs) eligible converged <-> outstanding x.
Proof. intros Hc He. rewrite select_pending_spec. unfold pending_commit, outstanding. setoid_rewrite Hc. setoid_rewrite He. done. Qed.

Lemma restores_none pending :
  existsb (is_restore (indexed cs)) (ascending pending) = false <-> forall x, x ∈ pending -> is_restore (indexed cs) x = false.
Proof.
  rewrite <- not_true_iff_false, existsb_exists. split.
  - intros Hn x Hx. apply not_true_iff_false. intros Hr. apply Hn. exists x. split; [by apply list_elem_of_In, elem_of_ascending|done].
  - intros Hall (x & Hx%list_elem_of_In%elem_of_ascending & Hr). by rewrite Hall in Hr.
Qed.

End contract.

Lemma validate_bounds_perm cs cs' f f' l : cs ≡ₚ cs' -> eligible_heads f ≡ₚ eligible_heads f' -> validate_bounds cs f l = validate_bounds cs' f' l.
Proof. intros Hp He. unfold validate_bounds. by rewrite (empty_perm _ _ Hp), (empty_perm _ _ He), (len_perm _ _ Hp), (len_perm _ _ He), (existsb_perm _ _ _ Hp). Qed.

Lemma validate_namespace_perm m f f' : all_heads f ≡ₚ all_heads f' -> validate_namespace m f = validate_namespace m f'.
Proof. intros Hh. unfold validate_namespace. by rewrite (list_to_set_perm _ _ Hh), (len_perm _ _ Hh), (existsb_perm _ _ _ Hh). Qed.

Lemma tc_flip_tc (R : relation N) x y : tc (flip (tc R)) x y -> tc R y x.
Proof. induction 1 as [a b Hab|a b c Hab _ IH]; [exact Hab|]. eapply tc_transitive; [exact IH|exact Hab]. Qed.

(** Above every head stands one that no other head supersedes. *)
Lemma frontier_covers m heads (ps : list N) h :
  acyclic m -> closed m -> (forall x, x ∈ heads -> x ∈ dom m) -> (forall c, c ∈ ps <-> c ∈ heads /\ ~ superseded_by m heads c) -> h ∈ heads ->
  exists q, q ∈ ps /\ rtc (parent_of m) q h.
Proof.
  intros Hac Hcl Hd Hps. assert (sn (flip (tc (parent_of m))) h) as Hsn.
  { apply tc_finite_sn; [intros x Hx; by apply (Hac x), tc_flip_tc|]. exists (elements (dom m)). intros y Hy%tc_flip_tc.
    apply elem_of_elements. inversion Hy; subst; by eapply parents_of_dom. }
  induction Hsn as [h _ IH]. intros Hh. destruct (superseded_spec m Hcl h heads Hd) as ([] & _ & Hb).
  - destruct (proj1 Hb eq_refl) as (x & Hx & Hne & Hr). destruct (IH x) as (q & Hq & Hqx); [|done|].
    + by apply rtc_tc in Hr as [->|Ht].
    + exists q. split; [done|]. by etrans.
  - exists h. split; [|apply rtc_refl]. apply Hps. split; [done|]. by intros ?%Hb.
Qed.

(** An operation is converged, or its least outstanding commit carries it. *)
Lemma operation_kept cs f l (ordered : list N) c :
  acceptable cs f l -> (forall x, x ∈ ordered <-> outstanding cs f x) -> c ∈ cs ->
  (exists d, converged_ancestor cs f d /\ operation_of (indexed cs) d = operation_id c) \/
  exists! x, x ∈ ordered /\ operation_of (indexed cs) x = operation_id c.
Proof.
  intros Ha Hord Hc. destruct (reached cs f) as (conv & elig & _ & _ & Hcv & Hel & Hsub); [apply Ha|apply Ha|].
  destruct (decide (operation_id c ∈ (set_map (operation_of (indexed cs)) conv : gset N))) as [(d & E & Hd%Hcv)%elem_of_map|Hn]; [left; by exists d|right].
  assert (forall d, converged_ancestor cs f d -> operation_of (indexed cs) d <> operation_id c) as Hnc by (intros d Hd%Hcv E; apply Hn, elem_of_map; eauto).
  assert (operation_of (indexed cs) (commit_id c) = operation_id c) as Ec by (unfold operation_of; rewrite lookup_indexed; [done|apply Ha|done]).
  set (same := filter (fun x => operation_of (indexed cs) x = operation_id c) elig : gset N).
  assert (commit_id c ∈ same) as Hin.
  { apply elem_of_filter. split; [done|]. apply Hel. destruct (acceptable_reachable _ _ _ Ha c Hc) as [Hv|]; [|done]. by destruct (Hnc _ Hv). }
  destruct (first_ready (fun _ => 0) same) as [x|] eqn:Ef; [|apply first_ready_None in Ef; rewrite Ef in Hin; by apply not_elem_of_empty in Hin].
  apply first_ready_Some in Ef as [[Ex Hx]%elem_of_filter Hleast]. exists x. split.
  - split; [|done]. apply Hord. split_and!; [by apply Hel|intros d Hd; rewrite Ex; by apply Hnc|]. intros d Hd _ E.
    assert (d ∈ same) as Hds%Hleast by (apply elem_of_filter; split; [congruence|by apply Hel]). unfold rank_le in Hds. lia.
  - intros y [(Hy & Hyc & Hyl)%Hord Ey]. assert (y ∈ same) as Hys%Hleast by (apply elem_of_filter; split; [done|by apply Hel]).
    assert (y <= x) as Hyx; [|unfold rank_le in Hys; lia]. apply Hyl; [by apply Hel| |congruence]. intros Hv. by apply (Hnc x).
Qed.

Section planner.
Context `{Blake3}.

(** What a plan of an acceptable page is. *)
Record planned (cs : list ReconciliationCommit) (f : ReconciliationFrontier) (p : ReconciliationPlan) : Prop := {
  planned_members x : x ∈ ordered_commits p <-> outstanding cs f x;
  planned_once : NoDup (ordered_commits p);
  planned_causal i x q : ordered_commits p !! i = Some x -> q ∈ parents_of (indexed cs) x -> q ∈ ordered_commits p -> q ∈ take i (ordered_commits p);
  planned_least i x y : ordered_commits p !! i = Some x -> y ∈ ordered_commits p -> y ∉ take i (ordered_commits p) ->
    (forall q, q ∈ parents_of (indexed cs) y -> q ∈ ordered_commits p -> q ∈ take i (ordered_commits p)) -> rank_le (operation_of (indexed cs)) x y;
  planned_merge : StronglySorted N.lt (merge_parents p);
  planned_frontier c : c ∈ merge_parents p <-> c ∈ all_heads f /\ ~ superseded_by (indexed cs) (all_heads f) c
}.

Lemma plan_accepted cs f l : acceptable cs f l -> exists p, plan_reconciliation cs f l = Ok p /\ planned cs f p.
Proof.
  intros [[A1 A2] [A3 A4] A5 A6 A7 A8 A9 A10 A11 A12 A13]. pose proof (indexed_closed cs A7) as Hcl.
  unfold plan_reconciliation. rewrite (proj2 (validate_bounds_Ok cs f l)); cbn [mbind result_bind].
  2:{ split_and!; try done. eapply Forall_impl; [exact A6|]. intros c Hc. apply Hc. }
  rewrite index_commits_spec, !decide_True by done. cbn [mbind result_bind].
  rewrite (proj2 (validate_namespace_spec cs f A5)) by done. cbn [mbind result_bind].
  destruct (reached cs f A7 A9) as (conv & elig & -> & -> & Hc & He & Hsub). cbn [mbind result_bind].
  rewrite (proj2 (Nat.eqb_eq _ _)) by (by eapply covers). cbn [negb].
  destruct (validate_acyclic_spec _ Hcl (fun x => indexed_NoDup_parents l cs x A6)) as [[-> _]|[_ ?]]; [|done]. cbn [mbind result_bind].
  destruct (validate_operations_spec cs A5) as [[-> _]|[_ ?]]; [|done]. cbn [mbind result_bind].
  assert (forall x, x ∈ select_pending (indexed cs) elig conv <-> outstanding cs f x) as Hp by (intros x; by apply outstanding_pending).
  set (pending := select_pending (indexed cs) elig conv) in *. rewrite (proj2 (restores_none cs pending)) by (intros x Hx%Hp; by apply A13).
  destruct (order_pending_spec (indexed cs) pending Hcl (fun x => indexed_NoDup_parents l cs x A6) A11) as (ordered & counts & -> & Hd & Hmem).
  { intros x (Hx & _)%Hp. apply Hsub, elem_of_union. right. by apply He. }
  cbn [mbind result_bind]. destruct (minimal_frontier_spec (indexed cs) Hcl f) as (ps & -> & Hsort & Hps).
  { intros h Hh. rewrite indexed_dom. apply elem_of_list_to_set. by apply A9. }
  cbn [mbind result_bind]. pose proof (values_indexed cs A5) as Hv. destruct (values (indexed cs)) as [|c0 vs]; [by apply Permutation_nil_l in Hv|]. cbn [head ok_or mbind result_bind].
  eexists. split; [reflexivity|]. split; cbn; [intros x; by rewrite Hmem|by apply Hd| | |done|done].
  - intros i x q Hi Hq Hin. eapply (draining_order _ _ _ _ _ _ Hd); [exact Hi|]. apply list_elem_of_filter. by rewrite <- Hmem.
  - intros i x y Hi Hy Hn Hall. eapply (draining_least _ _ _ _ _ _ Hd); [exact Hi|by apply Hmem|done|].
    intros q [Hq Hqp]%list_elem_of_filter. apply Hall; [done|by apply Hmem].
Qed.

Lemma plan_acceptable cs f l p : plan_reconciliation cs f l = Ok p -> acceptable cs f l.
Proof.
  unfold plan_reconciliation. intros E. apply result_bind_Ok in E as ([] & (B1 & B2 & B3 & B4 & _)%validate_bounds_Ok & E).
  apply result_bind_Ok in E as (m & (-> & I1 & I2 & I3)%index_commits_Ok & E). apply result_bind_Ok in E as ([] & (_ & N1 & N2)%validate_namespace_spec & E); [|done].
  destruct (reached cs f I3 N2) as (conv & elig & R1 & R2 & Hc & He & Hsub). rewrite R1, R2 in E. cbn [mbind result_bind] in E.
  destruct (size (conv ∪ elig) =? size (indexed cs))%nat eqn:Es; [|done]. apply Nat.eqb_eq in Es. cbn [negb] in E.
  destruct (validate_acyclic_spec _ (indexed_closed cs I3) (fun x => indexed_NoDup_parents l cs x I2)) as [[E1 Hac]|[E1 _]]; rewrite E1 in E; [|done]. cbn [mbind result_bind] in E.
  destruct (validate_operations_spec cs I1) as [[E2 Hop]|[E2 _]]; rewrite E2 in E; [|done]. cbn [mbind result_bind] in E.
  destruct (existsb _ _) eqn:Er; [done|]. split; try done. { by eapply covers. }
  intros x Hx. apply (proj1 (restores_none cs _) Er x). by eapply outstanding_pending.
Qed.

Lemma plan_planned cs f l p : plan_reconciliation cs f l = Ok p -> acceptable cs f l /\ planned cs f p.
Proof.
  intros E. pose proof (plan_acceptable cs f l p E) as Ha. split; [done|]. destruct (plan_accepted cs f l Ha) as (p' & E' & Hp). congruence.
Qed.

(** C22: A page of commits is planned exactly when it is acceptable: within its bounds, with
    distinct well-formed headers whose parents are present, one namespace, distinct known heads
    from which every commit is reachable, no commit its own ancestor, one request per operation,
    and no restore outstanding. *)
Theorem reconciliation_accepts cs f l : (exists p, plan_reconciliation cs f l = Ok p) <-> acceptable cs f l.
Proof.
  split; [intros [p E]; by eapply plan_acceptable|]. intros Ha. destruct (plan_accepted cs f l Ha) as (p & E & _). by exists p.
Qed.

(** C13: The plan applies every outstanding operation exactly once and nothing else.  Each
    operation of the page is either in the converged ancestry or carried by exactly one ordered
    commit; a commit comes after those of its parents that are ordered too; and at each position
    stands the commit of least operation and identity among those whose parents are done. *)
Theorem reconciliation_plan_causal cs f l p :
  plan_reconciliation cs f l = Ok p ->
  NoDup (ordered_commits p) /\
  (forall x, x ∈ ordered_commits p <-> outstanding cs f x) /\
  (forall c, c ∈ cs -> (exists d, converged_ancestor cs f d /\ operation_of (indexed cs) d = operation_id c) \/
     exists! x, x ∈ ordered_commits p /\ operation_of (indexed cs) x = operation_id c) /\
  (forall i x q, ordered_commits p !! i = Some x -> q ∈ parents_of (indexed cs) x -> q ∈ ordered_commits p -> q ∈ take i (ordered_commits p)) /\
  (forall i x y, ordered_commits p !! i = Some x -> y ∈ ordered_commits p -> y ∉ take i (ordered_commits p) ->
    (forall q, q ∈ parents_of (indexed cs) y -> q ∈ ordered_commits p -> q ∈ take i (ordered_commits p)) -> rank_le (operation_of (indexed cs)) x y).
Proof.
  intros [Ha [P1 P2 P3 P4 _ _]]%plan_planned. split_and!; [done|done| |done|done].
  intros c Hc. by eapply operation_kept.
Qed.

(** The merge frontier is the ascending list of exactly those heads of which no other head
    is a descendant: every head is an ancestor of a merge parent and no merge parent is an
    ancestor of another. *)
Theorem merge_parents_minimal cs f l p :
  plan_reconciliation cs f l = Ok p ->
  StronglySorted N.lt (merge_parents p) /\
  (forall h, h ∈ all_heads f -> exists q, q ∈ merge_parents p /\ rtc (parent_of (indexed cs)) q h) /\
  (forall a b, a ∈ merge_parents p -> b ∈ merge_parents p -> rtc (parent_of (indexed cs)) a b -> a = b).
Proof.
  intros [Ha [_ _ _ _ P5 P6]]%plan_planned. split_and!; [done| |].
  - intros h Hh. eapply frontier_covers; [apply Ha|apply indexed_closed, Ha| |exact P6|done].
    intros x Hx. rewrite indexed_dom. apply elem_of_list_to_set. by apply Ha.
  - intros a b Hpa Hpb Hr. apply P6 in Hpa as [Hpa _], Hpb as [_ Hpb]. destruct (decide (a = b)) as [|Hne]; [done|]. destruct Hpb. by exists a.
Qed.

(** The result, plan or refusal, does not depend on the order in which commits and eligible
    heads were delivered. *)
Theorem reconciliation_order_independent cs cs' f f' l :
  cs ≡ₚ cs' -> converged_head f = converged_head f' -> eligible_heads f ≡ₚ eligible_heads f' ->
  plan_reconciliation cs f l = plan_reconciliation cs' f' l.
Proof.
  intros Hp Hc He. assert (all_heads f ≡ₚ all_heads f') as Hh by (unfold all_heads; by rewrite Hc, He).
  unfold plan_reconciliation. rewrite (validate_bounds_perm cs cs' f f' l), (index_commits_perm cs cs') by done.
  destruct (validate_bounds cs' f' l) as [[]|]; cbn [mbind result_bind]; [|done].
  destruct (index_commits cs' l) as [m|] eqn:Em; cbn [mbind result_bind]; [|done].
  apply index_commits_Ok in Em as (-> & I1 & I2 & I3). rewrite (validate_namespace_perm _ f f') by done.
  destruct (validate_namespace (indexed cs') f') as [[]|] eqn:En; cbn [mbind result_bind]; [|done].
  apply validate_namespace_spec in En as (_ & _ & _ & Hk); [|done]. pose proof (indexed_closed cs' I3) as Hcl.
  rewrite Hc. rewrite (reachable_perm (indexed cs') (eligible_heads f) (eligible_heads f') Hcl) by (try done; intros h Hin; rewrite indexed_dom; apply elem_of_list_to_set, Hk;
    unfold all_heads; rewrite elem_of_app, <- He; by right).
  unfold minimal_frontier. rewrite (list_to_set_perm _ _ Hh). unfold plan_digest. by rewrite Hc, (update_ids_perm _ _ He).
Qed.

End planner.

(** The commit that merges a plan: a new identity and operation, the namespace of the page and
    the frontier of the plan as parents. *)
Record merges (cs : list ReconciliationCommit) (l : ReconciliationLimits) (ps : list N) (merge : ReconciliationCommit) : Prop := {
  merges_fresh : commit_id merge ∉ map commit_id cs;
  merges_operation c : c ∈ cs -> operation_id c <> operation_id merge;
  merges_namespace c : c ∈ cs -> volume_id c = volume_id merge /\ root_object_id c = root_object_id merge;
  merges_parents : parents merge = ps;
  merges_payload : exists d, payload merge = Reconcile.Merge d;
  merges_several : 2 <= len ps <= parents_limit l;
  merges_room : len cs < commits_limit l
}.

Lemma sorted_lt_NoDup (l : list N) : StronglySorted N.lt l -> NoDup l.
Proof.
  induction 1 as [|x l _ IH Hall]; [constructor|]. apply NoDup_cons. split; [|done]. intros Hx. rewrite Forall_forall in Hall. specialize (Hall x Hx). cbn in Hall. lia.
Qed.

Lemma sorted_singleton (l : list N) x : StronglySorted N.lt l -> (forall y, y ∈ l <-> y = x) -> l = [x].
Proof.
  intros Hs%sorted_lt_NoDup Hl. apply Permutation_singleton_r, NoDup_Permutation; [done|apply NoDup_singleton|]. intros y. by rewrite Hl, list_elem_of_singleton.
Qed.

Section converge.
Context (cs : list ReconciliationCommit) (merge : ReconciliationCommit).
Hypothesis Hfresh : commit_id merge ∉ map commit_id cs.
Hypothesis Hpp : parents_present cs.
Abbreviation old := (indexed cs).
Abbreviation new := (indexed (merge :: cs)).

Lemma indexed_cons : new = <[commit_id merge := merge]> old.
Proof. done. Qed.

Lemma parents_of_merge : parents_of new (commit_id merge) = parents merge.
Proof. unfold parents_of. by rewrite indexed_cons, lookup_insert_eq. Qed.

Lemma parents_of_old x : x <> commit_id merge -> parents_of new x = parents_of old x.
Proof. intros Hx. unfold parents_of. by rewrite indexed_cons, lookup_insert_ne. Qed.

Lemma old_dom x : x ∈ dom old <-> x ∈ map commit_id cs.
Proof. by rewrite indexed_dom, elem_of_list_to_set. Qed.

(** Nothing old has the merge among its parents. *)
Lemma old_parent x p : x <> commit_id merge -> parent_of new x p <-> parent_of old x p.
Proof. intros Hx. unfold parent_of. by rewrite parents_of_old. Qed.

Lemma old_parent_known x p : parent_of old x p -> p <> commit_id merge.
Proof. intros Hp ->. apply Hfresh, old_dom. by eapply indexed_closed. Qed.

Lemma rtc_old x y : x <> commit_id merge -> rtc (parent_of new) x y <-> rtc (parent_of old) x y.
Proof.
  intros Hx. split; intros Hr; revert Hx; induction Hr as [|x p y Hp _ IH]; intros Hx; try apply rtc_refl.
  - apply old_parent in Hp; [|done]. eapply rtc_l; [exact Hp|]. apply IH. by eapply old_parent_known.
  - eapply rtc_l; [by apply old_parent|]. apply IH. by eapply old_parent_known.
Qed.

Lemma tc_old x y : x <> commit_id merge -> tc (parent_of new) x y -> tc (parent_of old) x y.
Proof.
  intros Hx Ht. induction Ht as [x y Hp|x p y Hp _ IH]; [by apply tc_once, old_parent|]. apply old_parent in Hp; [|done].
  eapply tc_l; [exact Hp|]. apply IH. by eapply old_parent_known.
Qed.

Lemma tc_into_old x y : x <> commit_id merge -> tc (parent_of old) x y -> y <> commit_id merge.
Proof. intros _ Ht. induction Ht; [by eapply old_parent_known|done]. Qed.

Lemma merged_acyclic : (forall p, p ∈ parents merge -> p ∈ map commit_id cs) -> acyclic old -> acyclic new.
Proof.
  intros Hps Hac x Hx. destruct (decide (x = commit_id merge)) as [->|Hne]; [|by apply (Hac x), tc_old].
  assert (exists p, p ∈ parents merge /\ rtc (parent_of new) p (commit_id merge)) as (p & Hp & Hr).
  { inversion Hx as [? ? Hp|? p ? Hp Ht]; subst; unfold parent_of in Hp; rewrite parents_of_merge in Hp; [exists (commit_id merge)|exists p]; split; try done.
    by apply tc_rtc. }
  assert (p <> commit_id merge) as Hpn by (intros ->; by apply Hfresh, Hps). apply rtc_tc in Hr as [->|Hr]; [done|].
  apply tc_old in Hr; [|done]. by eapply tc_into_old in Hr.
Qed.

(** Every ancestor of a covered head is an ancestor of the merge. *)
Lemma merged_covers h x :
  h ∈ map commit_id cs -> (exists q, q ∈ parents merge /\ rtc (parent_of old) q h) -> (forall p, p ∈ parents merge -> p ∈ map commit_id cs) ->
  rtc (parent_of new) h x -> rtc (parent_of new) (commit_id merge) x.
Proof.
  intros Hh (q & Hq & Hqh) Hps Hx. apply rtc_l with q; [unfold parent_of; by rewrite parents_of_merge|].
  etrans; [|exact Hx]. apply rtc_old; [intros ->; by apply Hfresh, Hps|done].
Qed.

End converge.

Section planner.
Context `{Blake3}.

(** The new page is acceptable and has nothing outstanding. *)
Lemma merged_acceptable cs f l p merge :
  plan_reconciliation cs f l = Ok p -> merges cs l (merge_parents p) merge ->
  let f' := {| converged_head := Some (commit_id merge); eligible_heads := eligible_heads f |} in
  acceptable (merge :: cs) f' l /\ (forall x, ~ outstanding (merge :: cs) f' x) /\
  (forall h, h ∈ eligible_heads f -> rtc (parent_of (indexed (merge :: cs))) (commit_id merge) h).
Proof.
  intros [Ha Hp]%plan_planned [M1 M2 M3 M4 [d M5] M6 M7] f'. destruct Ha as [A1 A2 A3 A4 A5 A6 [A7 A8] A9 A10 A11 A12].
  assert (forall q, q ∈ parents merge -> q ∈ map commit_id cs) as Hps by (intros q Hq; rewrite M4 in Hq; apply (planned_frontier _ _ _ Hp) in Hq as [Hq _]; by apply A8).
  assert (forall h, h ∈ all_heads f -> exists q, q ∈ parents merge /\ rtc (parent_of (indexed cs)) q h) as Hcov.
  { intros h Hh. rewrite M4. eapply frontier_covers; [done|by apply indexed_closed| |apply Hp|done]. intros x Hx. rewrite indexed_dom. apply elem_of_list_to_set. by apply A8. }
  assert (forall h x, h ∈ all_heads f -> rtc (parent_of (indexed (merge :: cs))) h x -> rtc (parent_of (indexed (merge :: cs))) (commit_id merge) x) as Hconv
    by (intros h x Hh Hx; eapply merged_covers; [done|done|by apply A8|by apply Hcov|done|done]).
  assert (forall h, h ∈ eligible_heads f -> h ∈ all_heads f) as Hel by (intros h Hh; apply elem_of_app; by right).
  assert (forall x, eligible_ancestor (merge :: cs) f' x -> converged_ancestor (merge :: cs) f' x) as Hall
    by (intros x (h & Hh & Hx); exists (commit_id merge); split; [by left|]; eapply Hconv; [by apply Hel|done]).
  assert (forall x, ~ outstanding (merge :: cs) f' x) as Hnone by (intros x (He & Hd & _); by apply (Hd x); [apply Hall|]).
  split_and!; [|exact Hnone|intros h Hh; eapply Hconv; [by apply Hel|apply rtc_refl]].
  split; try done.
  - split; [done|]. rewrite len_cons. lia.
  - cbn [map]. by apply NoDup_cons.
  - constructor; [|done]. split_and!; [rewrite M4|intros Hq; by apply M1, Hps|by rewrite M4; apply M6|].
    + eapply sorted_lt_NoDup, Hp.
    + unfold invalid_payload. rewrite M5, M4. apply N.ltb_ge, M6.
  - apply Forall_cons. split; [apply Forall_forall; intros q Hq; right; by apply Hps|]. eapply Forall_impl; [exact A5|]. intros c Hc. eapply Forall_impl; [exact Hc|]. by right.
  - intros c e [->|Hc]%elem_of_cons [->|He]%elem_of_cons; [done|..]; [destruct (M3 e He)|by apply M3|by apply A6]; done.
  - split; [cbn; apply NoDup_cons; split; [intros Hin; by apply M1, A8, Hel|]; by apply NoDup_app in A7 as (_ & _ & ?)|].
    intros h [->|Hh]%elem_of_cons; [by left|]. right. by apply A8, Hel.
  - intros c [->|Hc]%elem_of_cons; left; [exists (commit_id merge); split; [by left|apply rtc_refl]|].
    assert (exists h, h ∈ all_heads f /\ rtc (parent_of (indexed cs)) h (commit_id c)) as (h & Hh & Hr).
    { destruct (A9 c Hc) as [(h & Hh & Hr)|(h & Hh & Hr)]; exists h; (split; [|done]); apply elem_of_app; auto. }
    exists (commit_id merge). split; [by left|]. eapply Hconv; [exact Hh|]. apply rtc_old; [done|done|intros ->; by apply M1, A8|done].
  - by apply merged_acyclic.
  - intros c e [->|Hc]%elem_of_cons [->|He]%elem_of_cons E; [done|by destruct (M2 e He)|by destruct (M2 c Hc)|by apply A11].
  - intros x Hx. by destruct (Hnone x).
Qed.

(** C14: Reconciliation converges in one round.  Once the merge commit of a plan is the
    converged head, planning the same heads again is accepted, orders no commit, and the merge
    commit is the whole frontier. *)
Theorem reconciliation_converges cs f l p merge :
  plan_reconciliation cs f l = Ok p -> merges cs l (merge_parents p) merge ->
  exists p', plan_reconciliation (merge :: cs) {| converged_head := Some (commit_id merge); eligible_heads := eligible_heads f |} l = Ok p' /\
    ordered_commits p' = [] /\ merge_parents p' = [commit_id merge].
Proof.
  intros E Hm. destruct (merged_acceptable cs f l p merge E Hm) as (Ha & Hnone & Hheads). destruct (plan_accepted _ _ _ Ha) as (p' & E' & [P1 _ _ _ P5 P6]).
  exists p'. split; [exact E'|]. split; [apply elem_of_nil_inv; intros x Hx%P1; by apply (Hnone x)|].
  assert (forall c, c ∈ merge_parents p' <-> c = commit_id merge) as Hc; [|by apply sorted_singleton].
  intros c. rewrite P6. unfold all_heads. cbn. rewrite elem_of_cons. split.
  - intros [[->|Hh] Hn]; [done|]. destruct (decide (c = commit_id merge)) as [|Hne]; [done|]. destruct Hn. exists (commit_id merge). split_and!; [by left|done|by apply Hheads].
  - intros ->. split; [by left|]. intros (h & [->|Hh]%elem_of_cons & Hne & Hr); [done|]. apply rtc_tc in Hr as [->|Ht]; [done|].
    apply (acceptable_acyclic _ _ _ Ha (commit_id merge)). eapply tc_rtc_l; [by apply Hheads|done].
Qed.

End planner.
