(* ===== verification/Intent.v ===== *)
(** Branch intents and the recovered names and identities of their replay:
    meshspan-filesystem/src/reconciliation.rs, reconciliation/replay/naming.rs and the lineage
    transitions of publication.rs. *)

From Stdlib Require Import String.
From S2P Require Import Prelude Ids Contracts Name Directory Reconcile.
From stdpp Require Import prelude gmap list.
#[local] Open Scope N_scope.

(** A replay returns an error of the planner, or indexes a slice out of its bounds. *)
Inductive Failure := Rejected (error : ReconciliationError) | Panicked.
#[export] Instance Failure_eq_dec : EqDecision Failure.
Proof. solve_decision. Defined.
Abbreviation Replayed A := (result Failure A).

Definition checked {A} (r : Checked A) : Replayed A := match r with Ok a => Ok a | Err e => Err (Rejected e) end.
Definition or_reject {E A} (r : result E A) (e : ReconciliationError) : Replayed A := match r with Ok a => Ok a | Err _ => Err (Rejected e) end.
Definition some_or {A} (o : option A) (e : ReconciliationError) : Replayed A := match o with Some a => Ok a | None => Err (Rejected e) end.

(** [v[..stop]] and [v[start..]]. *)
Definition slice_until {A} (l : list A) (stop : nat) : Replayed (list A) := if (stop <=? length l)%nat then Ok (take stop l) else Err Panicked.
Definition slice_since {A} (l : list A) (start : nat) : Replayed (list A) := if (start <=? length l)%nat then Ok (drop start l) else Err Panicked.

(** ** Intents *)

Inductive PublicationPathError := TransitionCount | ReusedRevision.
Record DirectoryRevisionTransition := { transition_object : N; expected_revision : N; new_revision : N }.
#[export] Instance DirectoryRevisionTransition_eq_dec : EqDecision DirectoryRevisionTransition.
Proof. solve_decision. Defined.

Definition new_transition (object expected next : N) : result PublicationPathError DirectoryRevisionTransition :=
  if expected =? next then Err ReusedRevision
  else Ok {| transition_object := object; expected_revision := expected; new_revision := next |}.

Inductive BranchMutation := FileVersion (version_id : N) | CreateDirectory | DeleteFile (version_id : N) | DeleteDirectory.
#[export] Instance BranchMutation_eq_dec : EqDecision BranchMutation.
Proof. solve_decision. Defined.

Record BranchRenameIntent := {
  source_path : NamespacePath;
  source_ancestors : list DirectoryRevisionTransition;
  source_entry_generation : N;
  intermediate_root_object_revision_id : N
}.

Record BranchMutationIntent := {
  intent_commit_id : N;
  path : NamespacePath;
  ancestors : list DirectoryRevisionTransition;
  intent_object_id : N;
  intent_object_revision_id : N;
  prior_object_revision_id : option N;
  entry_generation : N;
  mutation : BranchMutation;
  rename : option BranchRenameIntent
}.

Definition is_deletion (m : BranchMutation) : bool := match m with DeleteFile _ | DeleteDirectory => true | _ => false end.

Definition mutation_kind (m : BranchMutation) : DirectoryEntryKind :=
  match m with FileVersion _ | DeleteFile _ => File | CreateDirectory | DeleteDirectory => Directory end.

(** ** The digest of an intent *)

Definition update_text (s : Str) : bytes := u32_be (str_len s) ++ as_bytes s.
Definition update_namespace_path (p : NamespacePath) : bytes :=
  be_bytes 2 (u16_or_max (len (components p))) ++ concat (map (fun c => update_text (canonical c) ++ update_text (display c)) (components p)).
Definition update_optional_revision (r : option N) : bytes := match r with Some r => 1 :: Identifier.as_bytes r | None => [0] end.
Definition update_transition (t : DirectoryRevisionTransition) : bytes :=
  Identifier.as_bytes (transition_object t) ++ Identifier.as_bytes (expected_revision t) ++ Identifier.as_bytes (new_revision t).
Definition update_mutation (m : BranchMutation) : bytes :=
  match m with
  | FileVersion v => 1 :: Identifier.as_bytes v
  | CreateDirectory => [2]
  | DeleteFile v => 3 :: Identifier.as_bytes v
  | DeleteDirectory => [4]
  end.

Section digests.
Context `{Blake3}.

Definition intent_domain (i : BranchMutationIntent) : string :=
  if is_deletion (mutation i) then "meshspan.filesystem.branch-mutation-intent.v4"
  else match rename i with
       | Some _ => "meshspan.filesystem.branch-mutation-intent.v3"
       | None => "meshspan.filesystem.branch-mutation-intent.v2"
       end.

Definition intent_digest_of (i : BranchMutationIntent) : bytes :=
  blake3 (ascii_bytes (intent_domain i) ++ [0] ++ Identifier.as_bytes (intent_commit_id i) ++ update_namespace_path (path i) ++
    concat (map update_transition (ancestors i)) ++ Identifier.as_bytes (intent_object_id i) ++ Identifier.as_bytes (intent_object_revision_id i) ++
    update_optional_revision (prior_object_revision_id i) ++ be_bytes 8 (entry_generation i) ++ update_mutation (mutation i) ++
    match rename i with
    | Some r => 1 :: update_namespace_path (source_path r) ++ concat (map update_transition (source_ancestors r)) ++
                be_bytes 8 (source_entry_generation r) ++ Identifier.as_bytes (intermediate_root_object_revision_id r)
    | None => []
    end).

(** ** Derived identities *)

Definition derived_identifier (domain : string) (plan : bytes) (commit source ordinal : N) : bytes :=
  uuid_v8 (take 16 (blake3 (ascii_bytes domain ++ [0] ++ plan ++ Identifier.as_bytes commit ++ Identifier.as_bytes source ++ be_bytes 4 ordinal))).

Definition derived_object (plan : bytes) (commit source : N) : Replayed N :=
  or_reject (Identifier.from_bytes (derived_identifier "meshspan.filesystem.recovered-object.v1" plan commit source 0)) InvalidInput.
Definition derived_revision (plan : bytes) (commit source ordinal : N) : Replayed N :=
  or_reject (Identifier.from_bytes (derived_identifier "meshspan.filesystem.recovered-revision.v1" plan commit source ordinal)) InvalidInput.
Definition derived_file_version (plan : bytes) (commit source : N) : Replayed N :=
  or_reject (Identifier.from_bytes (derived_identifier "meshspan.filesystem.recovered-file-version.v1" plan commit source 0)) InvalidInput.
Definition derived_operation (plan : bytes) (commit source : N) : Replayed N :=
  or_reject (Identifier.from_bytes (derived_identifier "meshspan.filesystem.recovered-publication-operation.v1" plan commit source 0)) InvalidInput.

End digests.

(** ** Paths *)

Abbreviation Key := (list Str) (only parsing).
Definition path_key (p : NamespacePath) : Key := map canonical (components p).

Definition path_prefix (p : NamespacePath) (length : nat) : Replayed NamespacePath :=
  cs ← slice_until (components p) length; or_reject (from_stored_components cs) BoundsExceeded.

(** ** Recovered names *)

(** The loop that steps back to a character boundary; zero is one. *)
Fixpoint floor_boundary (fuel : nat) (s : Str) (stop : N) : N :=
  match fuel with
  | O => stop
  | S fuel => if is_char_boundary s stop then stop else floor_boundary fuel s (stop - 1)
  end.

Section recovered.
Context `{Unicode}.

Definition recovered_suffix (commit counter : N) : Str :=
  ascii_bytes " (recovered " ++ Identifier.display commit ++ (if counter =? 0 then [] else ascii_bytes "-" ++ decimal counter) ++ ascii_bytes ")".

Definition recovered_component (source : NamespaceComponent) (commit counter : N) : Replayed NamespaceComponent :=
  let suffix := recovered_suffix commit counter in
  let limit := maximum_component_bytes INTERNAL in
  let available := limit - str_len suffix in
  let start := N.min (str_len (display source)) available in
  let stop := floor_boundary (N.to_nat start) (display source) start in
  limits ← or_reject (Name.new_limits Extended limit 1024 1048576) BoundsExceeded;
  or_reject (new_component (slice_to (display source) stop ++ suffix) limits) BoundsExceeded.

(** [Some] when the loop returns, [None] when it goes on. *)
Definition try_recovered (source : NamespacePath) (commit : N) (occupied : NamespacePath -> bool) (counter : N) : Replayed (option NamespacePath) :=
  leaf ← some_or (last (components source)) InvalidInput;
  component ← recovered_component leaf commit counter;
  let again :=
    if (length (components source) =? 1)%nat then
      fallback ← or_reject (from_stored_components [component]) BoundsExceeded;
      Ok (if occupied fallback then None else Some fallback)
    else Ok None in
  match from_stored_components (<[pred (length (components source)) := component]> (components source)) with
  | Ok p => if occupied p then again else Ok (Some p)
  | Err _ => again
  end.

Fixpoint first_recovered (source : NamespacePath) (commit : N) (occupied : NamespacePath -> bool) (counters : list N) : Replayed NamespacePath :=
  match counters with
  | [] => Err (Rejected BoundsExceeded)
  | counter :: rest =>
      found ← try_recovered source commit occupied counter;
      match found with Some p => Ok p | None => first_recovered source commit occupied rest end
  end.

Definition recovered_path (source : NamespacePath) (commit : N) (entry_count : nat) (occupied : NamespacePath -> bool) : Replayed NamespacePath :=
  first_recovered source commit occupied (map N.of_nat (seq 0 (S entry_count))).

End recovered.
