(* ===== verification/Replay.v ===== *)
(** Replay of ordered branch intents on the converged namespace:
    meshspan-filesystem/src/reconciliation/replay.rs, replay/delete.rs, replay/rename.rs and
    replay/digest.rs. *)

From Stdlib Require Import String.
From S2P Require Import Prelude Ids Contracts Name Directory Reconcile Intent.
From stdpp Require Import prelude gmap sorting list.
#[local] Open Scope N_scope.

Record NamespaceReplayEntry := {
  base_path : NamespacePath;
  base_object_id : N;
  base_object_revision_id : N;
  base_kind : DirectoryEntryKind;
  base_file_version_id : option N;
  base_directory_is_empty : option bool;
  base_entry_generation : N
}.
Record NamespaceReplayBase := { base_root_object_revision_id : option N; base_entries : list NamespaceReplayEntry }.

Inductive NamespaceReplayDisposition := Applied | Recovered | AlreadyApplied | Preserved.
Inductive NamespaceReplayEffect := Upsert | Remove | Preserve.
#[export] Instance NamespaceReplayDisposition_eq_dec : EqDecision NamespaceReplayDisposition.
Proof. solve_decision. Defined.
#[export] Instance NamespaceReplayEffect_eq_dec : EqDecision NamespaceReplayEffect.
Proof. solve_decision. Defined.

Record NamespaceReplayRemoval := {
  removal_path : NamespacePath;
  removal_object_id : N;
  removal_object_revision_id : N;
  removal_entry_generation : N;
  removal_ancestors : list DirectoryRevisionTransition;
  removal_intermediate_root : N
}.

Record NamespaceReplayAction := {
  action_commit_id : N;
  source_removal : option NamespaceReplayRemoval;
  effect : NamespaceReplayEffect;
  action_source_path : NamespacePath;
  target_path : NamespacePath;
  source_object_id : N;
  target_object_id : N;
  source_object_revision_id : N;
  target_object_revision_id : N;
  target_kind : DirectoryEntryKind;
  target_entry_generation : N;
  target_prior_object_revision_id : option N;
  target_file_version_id : option N;
  target_publication_operation_id : option N;
  target_ancestors : list DirectoryRevisionTransition;
  target_root_object_revision_id : option N;
  action_mutation : BranchMutation;
  disposition : NamespaceReplayDisposition
}.

Record NamespaceReplayPlan := {
  actions : list NamespaceReplayAction;
  plan_quarantined_commits : list N;
  final_root_object_revision_id : option N;
  replay_plan_digest : bytes
}.

Record EffectiveEntry := {
  entry_path : NamespacePath;
  entry_object : N;
  entry_revision : N;
  entry_kind : DirectoryEntryKind;
  entry_version : option N;
  entry_empty : option bool;
  entry_incarnation : N
}.
#[export] Instance EffectiveEntry_eq_dec : EqDecision EffectiveEntry.
Proof. solve_decision. Defined.

Record ReplayState := {
  state_entries : gmap Key EffectiveEntry;
  objects : gmap N EffectiveEntry;
  revisions : gmap N EffectiveEntry;
  current_root : option N
}.

Inductive LeafSelection :=
| Already (current : EffectiveEntry)
| Change (leaf_path : NamespacePath) (object revision : N) (prior file_version publication : option N) (incarnation : N)
    (leaf_disposition : NamespaceReplayDisposition).

(** ** Updates of the state *)

Definition set_entry (k : Key) (e : EffectiveEntry) (st : ReplayState) : ReplayState :=
  {| state_entries := <[k := e]> (state_entries st); objects := objects st; revisions := revisions st; current_root := current_root st |}.
Definition set_object (o : N) (e : EffectiveEntry) (st : ReplayState) : ReplayState :=
  {| state_entries := state_entries st; objects := <[o := e]> (objects st); revisions := revisions st; current_root := current_root st |}.
Definition set_revision (r : N) (e : EffectiveEntry) (st : ReplayState) : ReplayState :=
  {| state_entries := state_entries st; objects := objects st; revisions := <[r := e]> (revisions st); current_root := current_root st |}.
Definition set_root (r : option N) (st : ReplayState) : ReplayState :=
  {| state_entries := state_entries st; objects := objects st; revisions := revisions st; current_root := r |}.
Definition drop_entry (k : Key) (st : ReplayState) : ReplayState :=
  {| state_entries := delete k (state_entries st); objects := objects st; revisions := revisions st; current_root := current_root st |}.
Definition drop_object (o : N) (st : ReplayState) : ReplayState :=
  {| state_entries := state_entries st; objects := delete o (objects st); revisions := revisions st; current_root := current_root st |}.

Definition with_path (p : NamespacePath) (e : EffectiveEntry) : EffectiveEntry :=
  {| entry_path := p; entry_object := entry_object e; entry_revision := entry_revision e; entry_kind := entry_kind e;
     entry_version := entry_version e; entry_empty := entry_empty e; entry_incarnation := entry_incarnation e |}.

Definition occupied (st : ReplayState) (p : NamespacePath) : bool := bool_decide (is_Some (state_entries st !! path_key p)).

(** ** The base *)

Definition effective (b : NamespaceReplayEntry) : EffectiveEntry :=
  {| entry_path := base_path b; entry_object := base_object_id b; entry_revision := base_object_revision_id b; entry_kind := base_kind b;
     entry_version := base_file_version_id b; entry_empty := base_directory_is_empty b; entry_incarnation := base_entry_generation b |}.

Definition base_entry_invalid (b : NamespaceReplayEntry) : bool :=
  (base_entry_generation b =? 0) || bool_decide (components (base_path b) = [])
  || negb (Bool.eqb (bool_decide (base_kind b = File)) (bool_decide (is_Some (base_file_version_id b))))
  || negb (Bool.eqb (bool_decide (base_kind b = Directory)) (bool_decide (is_Some (base_directory_is_empty b)))).

Definition load_entry (st : ReplayState) (b : NamespaceReplayEntry) : Replayed ReplayState :=
  if base_entry_invalid b then Err (Rejected InvalidInput)
  else
    let e := effective b in
    if occupied st (base_path b) || bool_decide (is_Some (revisions st !! base_object_revision_id b))
       || bool_decide (is_Some (objects st !! base_object_id b))
    then Err (Rejected InvalidInput)
    else Ok (set_object (base_object_id b) e (set_revision (base_object_revision_id b) e (set_entry (path_key (base_path b)) e st))).

Definition from_base (b : NamespaceReplayBase) : Replayed ReplayState :=
  try_fold load_entry {| state_entries := ∅; objects := ∅; revisions := ∅; current_root := base_root_object_revision_id b |} (base_entries b).

(** ** Paths *)

(** The known directory that carries [ancestor], by its expected revision first. *)
Definition lineage_target (st : ReplayState) (ancestor : DirectoryRevisionTransition) : option EffectiveEntry :=
  match revisions st !! expected_revision ancestor with
  | Some e => Some e
  | None => objects st !! transition_object ancestor
  end.

(** The ancestors come with their positions, the deepest first. *)
Fixpoint effective_path_loop (st : ReplayState) (p : NamespacePath) (deepest_first : list (nat * DirectoryRevisionTransition)) : Replayed NamespacePath :=
  match deepest_first with
  | [] => Ok p
  | (index, ancestor) :: rest =>
      match lineage_target st ancestor with
      | Some target =>
          if negb (bool_decide (entry_kind target = Directory)) || negb (entry_object target =? transition_object ancestor)
          then Err (Rejected InvalidLineage)
          else
            below ← slice_since (components p) (S index);
            or_reject (from_stored_components (components (entry_path target) ++ below)) BoundsExceeded
      | None => effective_path_loop st p rest
      end
  end.
Definition effective_path_for (st : ReplayState) (p : NamespacePath) (lineage : list DirectoryRevisionTransition) : Replayed NamespacePath :=
  effective_path_loop st p (rev (zip (seq 0 (length lineage)) lineage)).
Definition effective_path (st : ReplayState) (i : BranchMutationIntent) : Replayed NamespacePath := effective_path_for st (path i) (ancestors i).

(** ** Moving descendants *)

(** [Ord for Vec<String>]. *)
Fixpoint key_leb (a b : Key) : bool :=
  match a, b with
  | [], _ => true
  | _ :: _, [] => false
  | x :: a, y :: b => if bool_decide (as_bytes x = as_bytes y) then key_leb a b else bool_decide (str_le x y)
  end.
Definition key_order (x y : Key * EffectiveEntry) : Prop := key_leb x.1 y.1 = true.
#[export] Instance key_order_dec : RelDecision key_order.
Proof. intros x y. unfold key_order. apply _. Defined.

(** [key.len() > prefix.len() && key.starts_with(prefix)]. *)
Definition strictly_below (prefix key : Key) : bool := (length prefix <? length key)%nat && bool_decide (take (length prefix) key = prefix).

Definition relocate (source target : NamespacePath) (st : ReplayState) (affected : Key * EffectiveEntry) : Replayed ReplayState :=
  let '(key, e) := affected in
  below ← slice_since (components (entry_path e)) (length (components source));
  p ← or_reject (from_stored_components (components target ++ below)) BoundsExceeded;
  let moved := with_path p e in
  Ok {| state_entries := <[path_key p := moved]> (delete key (state_entries st));
        objects := alter (with_path p) (entry_object e) (objects st);
        revisions := (fun x => if entry_object x =? entry_object e then with_path p x else x) <$> revisions st;
        current_root := current_root st |}.

Definition relocate_descendants (source target : NamespacePath) (k : DirectoryEntryKind) (st : ReplayState) : Replayed ReplayState :=
  match k with
  | File => Ok st
  | Directory =>
      try_fold (relocate source target) st
        (merge_sort key_order (filter (fun x => strictly_below (path_key source) x.1 = true) (map_to_list (state_entries st))))
  end.

Section replay.
Context `{Blake3} `{Unicode}.

(** ** Advancing the ancestors and the root *)

Definition advance_ancestor (plan : bytes) (commit : ReconciliationCommit) (target : NamespacePath)
    (acc : ReplayState * list DirectoryRevisionTransition) (indexed : nat * DirectoryRevisionTransition) :
    Replayed (ReplayState * list DirectoryRevisionTransition) :=
  let '(st, transitions) := acc in
  let '(index, source) := indexed in
  source_target ← some_or (lineage_target st source) MissingBaseEntry;
  if negb (bool_decide (entry_kind source_target = Directory)) || negb (entry_object source_target =? transition_object source)
  then Err (Rejected InvalidLineage)
  else
    prefix ← path_prefix target (S index);
    current ← some_or (state_entries st !! path_key prefix) MissingBaseEntry;
    if negb (bool_decide (entry_kind current = Directory)) || negb (entry_object current =? entry_object source_target)
    then Err (Rejected InvalidLineage)
    else
      next ← (if (entry_revision current =? expected_revision source) && (entry_object current =? transition_object source)
              then Ok (new_revision source)
              else
                ordinal ← some_or (try_narrow u32_max (N.of_nat (S index))) BoundsExceeded;
                derived_revision plan (commit_id commit) (new_revision source) ordinal);
      transition ← or_reject (new_transition (entry_object current) (entry_revision current) next) InvalidLineage;
      let updated :=
        {| entry_path := entry_path current; entry_object := entry_object current; entry_revision := next; entry_kind := entry_kind current;
           entry_version := entry_version current; entry_empty := Some false; entry_incarnation := entry_incarnation current |} in
      Ok (set_revision (new_revision source) updated (set_object (entry_object updated) updated (set_entry (path_key prefix) updated st)),
          transitions ++ [transition]).

Definition advance_ancestors_for (plan : bytes) (commit : ReconciliationCommit) (lineage : list DirectoryRevisionTransition) (target : NamespacePath)
    (st : ReplayState) : Replayed (ReplayState * list DirectoryRevisionTransition) :=
  try_fold (advance_ancestor plan commit target) (st, []) (zip (seq 0 (length lineage)) lineage).

Definition commit_parent_root (commit : ReconciliationCommit) (commits : gmap N ReconciliationCommit) : Replayed (option N) :=
  match parents commit with
  | [] => Ok None
  | [parent] => p ← some_or (commits !! parent) MissingCommit; Ok (Some (root_object_revision_id p))
  | _ => Err (Rejected InvalidLineage)
  end.

Definition advance_root (plan : bytes) (commit : ReconciliationCommit) (i : BranchMutationIntent) (lineage : list DirectoryRevisionTransition)
    (d : NamespaceReplayDisposition) (commits : gmap N ReconciliationCommit) (st : ReplayState) : Replayed ReplayState :=
  source_base ← commit_parent_root commit commits;
  next ← (if bool_decide (d = Applied) && bool_decide (current_root st = source_base) && bool_decide (lineage = ancestors i)
          then Ok (root_object_revision_id commit)
          else derived_revision plan (commit_id commit) (root_object_revision_id commit) u32_max);
  Ok (set_root (Some next) st).

(** ** Creating and replacing leaves *)

Definition direct_application (i : BranchMutationIntent) (selected : NamespacePath) (current prior_target : option EffectiveEntry) : bool :=
  match prior_target with
  | Some prior =>
      match current with
      | Some e => bool_decide (entry_path e = entry_path prior) && (entry_object e =? entry_object prior)
                  && (entry_revision e =? entry_revision prior) && bool_decide (entry_kind e = mutation_kind (mutation i))
      | None => false
      end
  | None =>
      match prior_object_revision_id i, current with
      | None, None => true
      | Some prior, Some e => bool_decide (entry_path e = selected) && (entry_object e =? intent_object_id i)
                              && (entry_revision e =? prior) && bool_decide (entry_kind e = mutation_kind (mutation i))
      | _, _ => false
      end
  end.

Definition recovered_target (plan : bytes) (commit : ReconciliationCommit) (i : BranchMutationIntent) (p : NamespacePath) (st : ReplayState) :
    Replayed (NamespacePath * N * N * NamespaceReplayDisposition) :=
  recovered ← recovered_path p (commit_id commit) (size (state_entries st)) (occupied st);
  object ← (if existsb (fun e => entry_object e =? intent_object_id i) (map_to_list (state_entries st)).*2
            then if bool_decide (mutation_kind (mutation i) = Directory) then Err (Rejected InvalidLineage)
                 else derived_object plan (commit_id commit) (intent_object_id i)
            else Ok (intent_object_id i));
  revision ← (if object =? intent_object_id i then Ok (intent_object_revision_id i)
              else derived_revision plan (commit_id commit) (intent_object_revision_id i) 0);
  Ok (recovered, object, revision, Recovered).

Definition replay_leaf_content_identity (plan : bytes) (commit : ReconciliationCommit) (m : BranchMutation) (source_object target_object : N) :
    Replayed (option N * option N) :=
  match m with
  | CreateDirectory => Ok (None, None)
  | FileVersion v =>
      if target_object =? source_object then Ok (Some v, None)
      else
        version ← derived_file_version plan (commit_id commit) v;
        operation ← derived_operation plan (commit_id commit) (operation_id commit);
        Ok (Some version, Some operation)
  | DeleteFile _ | DeleteDirectory => Err (Rejected InvalidInput)
  end.

(** The target of a known prior revision belongs to another object. *)
Definition redirected (i : BranchMutationIntent) (prior_target : option EffectiveEntry) : bool :=
  match prior_target with Some t => negb (entry_object t =? intent_object_id i) | None => false end.

Definition select_leaf (plan : bytes) (commit : ReconciliationCommit) (i : BranchMutationIntent) (st : ReplayState) : Replayed LeafSelection :=
  expected ← effective_path st i;
  let prior_target := r ← prior_object_revision_id i; revisions st !! r in
  let selected :=
    match prior_target with
    | None => expected
    | Some t => if redirected i prior_target || negb (bool_decide (path_key (entry_path t) = path_key expected)) then entry_path t else expected
    end in
  let current := state_entries st !! path_key selected in
  if match current with
     | Some e => (entry_object e =? intent_object_id i) && (entry_revision e =? intent_object_revision_id i)
                 && bool_decide (entry_kind e = mutation_kind (mutation i))
     | None => false
     end
  then e ← some_or current InvalidInput; Ok (Already e)
  else
    '(p, object, revision, d) ←
      (if direct_application i selected current prior_target then
         revision ← (if redirected i prior_target then derived_revision plan (commit_id commit) (intent_object_revision_id i) 0
                     else Ok (intent_object_revision_id i));
         Ok (selected, match prior_target with Some t => entry_object t | None => intent_object_id i end, revision,
             if redirected i prior_target then Recovered else Applied)
       else recovered_target plan commit i selected st);
    let prior := entry_revision <$> state_entries st !! path_key p in
    '(version, publication) ← replay_leaf_content_identity plan commit (mutation i) (intent_object_id i) object;
    let incarnation :=
      if bool_decide (d = Recovered) && negb (bool_decide (p = path i)) then 1
      else match prior_target with Some t => entry_incarnation t | None => entry_generation i end in
    Ok (Change p object revision prior version publication incarnation d).

Definition already_applied (commit : ReconciliationCommit) (i : BranchMutationIntent) (target : NamespacePath) (root : option N) : NamespaceReplayAction :=
  {| action_commit_id := commit_id commit; source_removal := None; effect := Preserve; action_source_path := path i; target_path := target;
     source_object_id := intent_object_id i; target_object_id := intent_object_id i;
     source_object_revision_id := intent_object_revision_id i; target_object_revision_id := intent_object_revision_id i;
     target_kind := mutation_kind (mutation i); target_entry_generation := entry_generation i;
     target_prior_object_revision_id := Some (intent_object_revision_id i);
     target_file_version_id := match mutation i with FileVersion v | DeleteFile v => Some v | CreateDirectory | DeleteDirectory => None end;
     target_publication_operation_id := None; target_ancestors := []; target_root_object_revision_id := root;
     action_mutation := mutation i; disposition := AlreadyApplied |}.

(** The part of [apply] for mutations that are neither renames nor deletions. *)
Definition apply_leaf (plan : bytes) (commit : ReconciliationCommit) (i : BranchMutationIntent) (commits : gmap N ReconciliationCommit) (st : ReplayState) :
    Replayed (ReplayState * NamespaceReplayAction) :=
  selection ← select_leaf plan commit i st;
  match selection with
  | Already current =>
      Ok (set_revision (intent_object_revision_id i) current st, already_applied commit i (entry_path current) (current_root st))
  | Change p object revision prior version publication incarnation d =>
      let k := mutation_kind (mutation i) in
      '(st, lineage) ← advance_ancestors_for plan commit (ancestors i) p st;
      st ← advance_root plan commit i lineage d commits st;
      let target :=
        {| entry_path := p; entry_object := object; entry_revision := revision; entry_kind := k; entry_version := version;
           entry_empty := match k with Directory => Some true | File => None end; entry_incarnation := incarnation |} in
      let root := current_root st in
      let st := set_revision (intent_object_revision_id i) target (set_object object target (set_entry (path_key p) target st)) in
      let st := match k with Directory => set_revision revision target st | File => st end in
      Ok (st, {| action_commit_id := commit_id commit; source_removal := None; effect := Upsert; action_source_path := path i; target_path := p;
                 source_object_id := intent_object_id i; target_object_id := object;
                 source_object_revision_id := intent_object_revision_id i; target_object_revision_id := revision;
                 target_kind := k; target_entry_generation := incarnation; target_prior_object_revision_id := prior;
                 target_file_version_id := version; target_publication_operation_id := publication; target_ancestors := lineage;
                 target_root_object_revision_id := root; action_mutation := mutation i; disposition := d |})
  end.

(** ** Deletion *)

Definition deletion_identity (m : BranchMutation) : Replayed (DirectoryEntryKind * option N) :=
  match m with
  | DeleteFile v => Ok (File, Some v)
  | DeleteDirectory => Ok (Directory, None)
  | FileVersion _ | CreateDirectory => Err (Rejected InvalidLineage)
  end.

(** The object an intent names, by identity first. *)
Definition intent_selected (st : ReplayState) (i : BranchMutationIntent) : option EffectiveEntry :=
  match objects st !! intent_object_id i with
  | Some e => Some e
  | None => revisions st !! intent_object_revision_id i
  end.

Definition recovered_target_ancestor (plan : bytes) (commit : ReconciliationCommit) (indexed : nat * DirectoryRevisionTransition) :
    Replayed DirectoryRevisionTransition :=
  let '(index, t) := indexed in
  narrow ← some_or (try_narrow u32_max (N.of_nat index)) BoundsExceeded;
  ordinal ← some_or (checked_add u32_max 0x40000000 narrow) BoundsExceeded;
  next ← derived_revision plan (commit_id commit) (new_revision t) ordinal;
  or_reject (new_transition (transition_object t) (new_revision t) next) InvalidLineage.
Definition recovered_target_ancestors (plan : bytes) (commit : ReconciliationCommit) (source : list DirectoryRevisionTransition) :
    Replayed (list DirectoryRevisionTransition) :=
  try_fold (fun acc x => t ← recovered_target_ancestor plan commit x; Ok (acc ++ [t])) [] (zip (seq 0 (length source)) source).

Definition removal_of (e : EffectiveEntry) (p : NamespacePath) (lineage : list DirectoryRevisionTransition) (root : N) : NamespaceReplayRemoval :=
  {| removal_path := p; removal_object_id := entry_object e; removal_object_revision_id := entry_revision e;
     removal_entry_generation := entry_incarnation e; removal_ancestors := lineage; removal_intermediate_root := root |}.

Definition delete_action (commit : ReconciliationCommit) (i : BranchMutationIntent) (selected : EffectiveEntry)
    (lineage : list DirectoryRevisionTransition) (final_root : N) : NamespaceReplayAction :=
  {| action_commit_id := commit_id commit; source_removal := Some (removal_of selected (entry_path selected) lineage final_root);
     effect := Remove; action_source_path := path i; target_path := entry_path selected;
     source_object_id := intent_object_id i; target_object_id := entry_object selected;
     source_object_revision_id := intent_object_revision_id i; target_object_revision_id := entry_revision selected;
     target_kind := entry_kind selected; target_entry_generation := entry_incarnation selected; target_prior_object_revision_id := None;
     target_file_version_id := entry_version selected; target_publication_operation_id := None; target_ancestors := [];
     target_root_object_revision_id := Some final_root; action_mutation := mutation i; disposition := Applied |}.

Definition preserve_delete (commit : ReconciliationCommit) (i : BranchMutationIntent) (intended : NamespacePath) (retained : option EffectiveEntry)
    (root : option N) (k : DirectoryEntryKind) (version : option N) : NamespaceReplayAction :=
  let target := default
    {| entry_path := intended; entry_object := intent_object_id i; entry_revision := intent_object_revision_id i; entry_kind := k;
       entry_version := version; entry_empty := match k with Directory => Some true | File => None end;
       entry_incarnation := entry_generation i |} retained in
  {| action_commit_id := commit_id commit; source_removal := None; effect := Preserve; action_source_path := path i; target_path := entry_path target;
     source_object_id := intent_object_id i; target_object_id := entry_object target;
     source_object_revision_id := intent_object_revision_id i; target_object_revision_id := entry_revision target;
     target_kind := entry_kind target; target_entry_generation := entry_incarnation target;
     target_prior_object_revision_id := Some (entry_revision target); target_file_version_id := entry_version target;
     target_publication_operation_id := None; target_ancestors := []; target_root_object_revision_id := root;
     action_mutation := mutation i; disposition := match retained with Some _ => Preserved | None => AlreadyApplied end |}.

Definition remove_exact_delete (plan : bytes) (commit : ReconciliationCommit) (i : BranchMutationIntent) (selected : EffectiveEntry)
    (commits : gmap N ReconciliationCommit) (st : ReplayState) : Replayed (ReplayState * NamespaceReplayAction) :=
  '(st, lineage) ← advance_ancestors_for plan commit (ancestors i) (entry_path selected) st;
  source_root ← commit_parent_root commit commits;
  final_root ← (if bool_decide (current_root st = source_root) && bool_decide (entry_path selected = path i) && bool_decide (lineage = ancestors i)
                then Ok (root_object_revision_id commit)
                else derived_revision plan (commit_id commit) (root_object_revision_id commit) u32_max);
  Ok (drop_object (entry_object selected) (drop_entry (path_key (entry_path selected)) (set_root (Some final_root) st)),
      delete_action commit i selected lineage final_root).

Definition recover_changed_directory (plan : bytes) (commit : ReconciliationCommit) (i : BranchMutationIntent) (selected : EffectiveEntry)
    (st : ReplayState) : Replayed (ReplayState * NamespaceReplayAction) :=
  '(st, lineage) ← advance_ancestors_for plan commit (ancestors i) (entry_path selected) st;
  intermediate ← derived_revision plan (commit_id commit) (root_object_revision_id commit) (u32_max - 1);
  let st := drop_object (entry_object selected) (drop_entry (path_key (entry_path selected)) (set_root (Some intermediate) st)) in
  target ← recovered_path (entry_path selected) (commit_id commit) (size (state_entries st)) (occupied st);
  target_sources ← recovered_target_ancestors plan commit lineage;
  '(st, target_lineage) ← advance_ancestors_for plan commit target_sources target st;
  final_root ← derived_revision plan (commit_id commit) (root_object_revision_id commit) u32_max;
  st ← relocate_descendants (entry_path selected) target (entry_kind selected) (set_root (Some final_root) st);
  let moved := with_path target selected in
  Ok (set_revision (entry_revision moved) moved (set_object (entry_object moved) moved (set_entry (path_key target) moved st)),
      {| action_commit_id := commit_id commit; source_removal := Some (removal_of selected (entry_path selected) lineage intermediate);
         effect := Upsert; action_source_path := path i; target_path := target;
         source_object_id := entry_object selected; target_object_id := entry_object selected;
         source_object_revision_id := entry_revision selected; target_object_revision_id := entry_revision selected;
         target_kind := entry_kind selected; target_entry_generation := entry_incarnation selected; target_prior_object_revision_id := None;
         target_file_version_id := entry_version selected; target_publication_operation_id := None; target_ancestors := target_lineage;
         target_root_object_revision_id := Some final_root; action_mutation := mutation i; disposition := Recovered |}).

Definition apply_delete (plan : bytes) (commit : ReconciliationCommit) (i : BranchMutationIntent) (commits : gmap N ReconciliationCommit)
    (st : ReplayState) : Replayed (ReplayState * NamespaceReplayAction) :=
  '(k, version) ← deletion_identity (mutation i);
  intended ← effective_path_for st (path i) (ancestors i);
  let selected := intent_selected st i in
  let preserved := preserve_delete commit i intended
    (match selected with Some e => Some e | None => state_entries st !! path_key intended end) (current_root st) k version in
  match selected with
  | Some e =>
      if bool_decide (entry_kind e = Directory) && (entry_object e =? intent_object_id i) && bool_decide (entry_path e = intended)
         && bool_decide (entry_empty e = Some false)
      then recover_changed_directory plan commit i e st
      else if bool_decide (entry_path e = intended) && (entry_object e =? intent_object_id i) && (entry_revision e =? intent_object_revision_id i)
              && (entry_incarnation e =? entry_generation i) && bool_decide (entry_kind e = k)
      then remove_exact_delete plan commit i e commits st
      else Ok (st, preserved)
  | None => Ok (st, preserved)
  end.

(** ** Renames *)

Definition is_path_prefix (source target : NamespacePath) : bool := strictly_below (path_key source) (path_key target).

Definition effective_mutation (e : EffectiveEntry) : Replayed BranchMutation :=
  match entry_kind e, entry_version e with
  | File, Some v => Ok (FileVersion v)
  | Directory, None => Ok CreateDirectory
  | _, _ => Err (Rejected InvalidInput)
  end.

Definition rename_already_applied (commit : ReconciliationCommit) (i : BranchMutationIntent) (r : BranchRenameIntent) (current : EffectiveEntry)
    (root : option N) : NamespaceReplayAction :=
  {| action_commit_id := commit_id commit; source_removal := None; effect := Preserve; action_source_path := source_path r;
     target_path := entry_path current; source_object_id := intent_object_id i; target_object_id := entry_object current;
     source_object_revision_id := intent_object_revision_id i; target_object_revision_id := entry_revision current;
     target_kind := entry_kind current; target_entry_generation := entry_incarnation current;
     target_prior_object_revision_id := Some (entry_revision current); target_file_version_id := entry_version current;
     target_publication_operation_id := None; target_ancestors := []; target_root_object_revision_id := root;
     action_mutation := mutation i; disposition := AlreadyApplied |}.

Record DirectRenameSource := { direct_entry : EffectiveEntry; direct_removal : NamespaceReplayRemoval; persisted_transition_reused : bool }.
Record RenameTarget := { rename_path : NamespacePath; rename_generation : N; rename_disposition : NamespaceReplayDisposition }.

Definition remove_source (plan : bytes) (commit : ReconciliationCommit) (i : BranchMutationIntent) (r : BranchRenameIntent)
    (commits : gmap N ReconciliationCommit) (p : NamespacePath) (e : EffectiveEntry) (st : ReplayState) : Replayed (ReplayState * DirectRenameSource) :=
  selected ← some_or (state_entries st !! path_key p) MissingBaseEntry;
  if negb (entry_object selected =? entry_object e) || negb (entry_revision selected =? entry_revision e)
     || negb (entry_incarnation selected =? entry_incarnation e)
  then Err (Rejected InvalidLineage)
  else
    '(st, lineage) ← advance_ancestors_for plan commit (source_ancestors r) p st;
    parent_root ← commit_parent_root commit commits;
    let reused := bool_decide (current_root st = parent_root) && bool_decide (p = source_path r) && bool_decide (lineage = source_ancestors r)
                  && (entry_object e =? intent_object_id i) && (entry_revision e =? intent_object_revision_id i) in
    intermediate ← (if reused then Ok (intermediate_root_object_revision_id r)
                    else derived_revision plan (commit_id commit) (intermediate_root_object_revision_id r) (u32_max - 1));
    Ok (drop_object (entry_object e) (drop_entry (path_key p) (set_root (Some intermediate) st)),
        {| direct_entry := e; direct_removal := removal_of e p lineage intermediate; persisted_transition_reused := reused |}).

(** A rename lands on its name, or beside it when the name is taken. *)
Definition free_path (commit : ReconciliationCommit) (p : NamespacePath) (st : ReplayState) : Replayed NamespacePath :=
  if occupied st p then recovered_path p (commit_id commit) (size (state_entries st)) (occupied st) else Ok p.

Definition select_target (commit : ReconciliationCommit) (i : BranchMutationIntent) (st : ReplayState) : Replayed RenameTarget :=
  expected ← effective_path st i;
  p ← free_path commit expected st;
  Ok (if occupied st expected then {| rename_path := p; rename_generation := 1; rename_disposition := Recovered |}
      else {| rename_path := p; rename_generation := entry_generation i; rename_disposition := Applied |}).

Definition complete_direct (plan : bytes) (commit : ReconciliationCommit) (i : BranchMutationIntent) (r : BranchRenameIntent)
    (source : DirectRenameSource) (target : RenameTarget) (st : ReplayState) : Replayed (ReplayState * NamespaceReplayAction) :=
  '(st, lineage) ← advance_ancestors_for plan commit (ancestors i) (rename_path target) st;
  final_root ← (if persisted_transition_reused source && bool_decide (rename_disposition target = Applied)
                   && bool_decide (rename_path target = path i) && bool_decide (lineage = ancestors i)
                then Ok (root_object_revision_id commit)
                else derived_revision plan (commit_id commit) (root_object_revision_id commit) u32_max);
  let st := set_root (Some final_root) st in
  let e := direct_entry source in
  m ← effective_mutation e;
  let moved :=
    {| entry_path := rename_path target; entry_object := entry_object e; entry_revision := entry_revision e; entry_kind := entry_kind e;
       entry_version := entry_version e; entry_empty := entry_empty e; entry_incarnation := rename_generation target |} in
  st ← relocate_descendants (removal_path (direct_removal source)) (rename_path target) (entry_kind e) st;
  Ok (set_revision (entry_revision moved) moved (set_revision (intent_object_revision_id i) moved
        (set_object (entry_object moved) moved (set_entry (path_key (rename_path target)) moved st))),
      {| action_commit_id := commit_id commit; source_removal := Some (direct_removal source); effect := Upsert;
         action_source_path := source_path r; target_path := rename_path target;
         source_object_id := entry_object e; target_object_id := entry_object e;
         source_object_revision_id := entry_revision e; target_object_revision_id := entry_revision e;
         target_kind := entry_kind e; target_entry_generation := rename_generation target; target_prior_object_revision_id := None;
         target_file_version_id := entry_version e; target_publication_operation_id := None; target_ancestors := lineage;
         target_root_object_revision_id := Some final_root; action_mutation := m; disposition := rename_disposition target |}).

Definition apply_competing_rename (plan : bytes) (commit : ReconciliationCommit) (i : BranchMutationIntent) (r : BranchRenameIntent)
    (commits : gmap N ReconciliationCommit) (st : ReplayState) : Replayed (ReplayState * NamespaceReplayAction) :=
  match mutation i with
  | FileVersion v =>
      expected ← effective_path st i;
      p ← free_path commit expected st;
      object ← derived_object plan (commit_id commit) (intent_object_id i);
      revision ← derived_revision plan (commit_id commit) (intent_object_revision_id i) 0;
      version ← derived_file_version plan (commit_id commit) v;
      operation ← derived_operation plan (commit_id commit) (operation_id commit);
      '(st, lineage) ← advance_ancestors_for plan commit (ancestors i) p st;
      st ← advance_root plan commit i lineage Recovered commits st;
      let root := current_root st in
      let target :=
        {| entry_path := p; entry_object := object; entry_revision := revision; entry_kind := File; entry_version := Some version;
           entry_empty := None; entry_incarnation := 1 |} in
      Ok (set_revision revision target (set_revision (intent_object_revision_id i) target (set_object object target (set_entry (path_key p) target st))),
          {| action_commit_id := commit_id commit; source_removal := None; effect := Upsert; action_source_path := source_path r; target_path := p;
             source_object_id := intent_object_id i; target_object_id := object;
             source_object_revision_id := intent_object_revision_id i; target_object_revision_id := revision;
             target_kind := File; target_entry_generation := 1; target_prior_object_revision_id := None;
             target_file_version_id := Some version; target_publication_operation_id := Some operation; target_ancestors := lineage;
             target_root_object_revision_id := root; action_mutation := mutation i; disposition := Recovered |})
  | _ => Err (Rejected InvalidLineage)
  end.

Definition apply_rename (plan : bytes) (commit : ReconciliationCommit) (i : BranchMutationIntent) (r : BranchRenameIntent)
    (commits : gmap N ReconciliationCommit) (st : ReplayState) : Replayed (ReplayState * NamespaceReplayAction) :=
  from ← effective_path_for st (source_path r) (source_ancestors r);
  e ← some_or (intent_selected st i) MissingBaseEntry;
  if negb (bool_decide (entry_kind e = mutation_kind (mutation i))) then Err (Rejected InvalidLineage)
  else
    intended ← effective_path st i;
    if bool_decide (entry_path e = intended) && (entry_revision e =? intent_object_revision_id i) && (entry_incarnation e =? entry_generation i)
    then Ok (set_revision (intent_object_revision_id i) e st, rename_already_applied commit i r e (current_root st))
    else if negb (entry_incarnation e =? source_entry_generation r) then Err (Rejected InvalidLineage)
    else if negb (bool_decide (path_key (entry_path e) = path_key from)) then apply_competing_rename plan commit i r commits st
    else if bool_decide (entry_kind e = Directory) && is_path_prefix from intended then Err (Rejected InvalidLineage)
    else
      '(st, source) ← remove_source plan commit i r commits from e st;
      target ← select_target commit i st;
      complete_direct plan commit i r source target st.

(** ** One intent *)

Definition apply (plan : bytes) (commit : ReconciliationCommit) (i : BranchMutationIntent) (commits : gmap N ReconciliationCommit)
    (st : ReplayState) : Replayed (ReplayState * NamespaceReplayAction) :=
  match rename i with
  | Some r => apply_rename plan commit i r commits st
  | None => if is_deletion (mutation i) then apply_delete plan commit i commits st else apply_leaf plan commit i commits st
  end.

End replay.
