(* ===== verification/ReplayPlan.v ===== *)
(** Validation of intents, the digest of a replay and the whole replay:
    meshspan-filesystem/src/reconciliation/replay.rs and replay/digest.rs. *)

From Stdlib Require Import String.
From S2P Require Import Prelude Ids Contracts Name Directory Reconcile Intent Replay.
From stdpp Require Import prelude gmap sorting list.
#[local] Open Scope N_scope.

(** ** Indices *)

(** [index_commits] of the replay. *)
Definition index_replayed (cs : list ReconciliationCommit) : Replayed (gmap N ReconciliationCommit) :=
  try_fold (fun m c => if bool_decide (is_Some (m !! commit_id c)) then Err (Rejected InvalidInput) else Ok (<[commit_id c := c]> m)) ∅ cs.

Definition is_mutation (m : gmap N ReconciliationCommit) (id : N) : bool :=
  match m !! id with Some c => match payload c with Mutation _ => true | _ => false end | None => false end.

Definition index_intent (ordered : gset N) (m : gmap N BranchMutationIntent) (i : BranchMutationIntent) : Replayed (gmap N BranchMutationIntent) :=
  if bool_decide (intent_commit_id i ∉ ordered) || bool_decide (is_Some (m !! intent_commit_id i)) then Err (Rejected InvalidInput)
  else Ok (<[intent_commit_id i := i]> m).

Definition index_intents (p : ReconciliationPlan) (m : gmap N ReconciliationCommit) (ints : list BranchMutationIntent) : Replayed (gmap N BranchMutationIntent) :=
  let ordered : gset N := list_to_set (filter (fun id => is_mutation m id = true) (ordered_commits p)) in
  if negb (len ints =? N.of_nat (size ordered)) then Err (Rejected MissingIntent) else try_fold (index_intent ordered) ∅ ints.

(** ** Validation *)

(** No object and no revision occurs twice along a lineage. *)
Definition insert_lineage (acc : gset N * gset N) (t : DirectoryRevisionTransition) : Replayed (gset N * gset N) :=
  let '(objects, revisions) := acc in
  if bool_decide (transition_object t ∈ objects) || bool_decide (expected_revision t ∈ revisions)
     || bool_decide (new_revision t ∈ {[expected_revision t]} ∪ revisions)
  then Err (Rejected InvalidLineage)
  else Ok ({[transition_object t]} ∪ objects, {[new_revision t]} ∪ ({[expected_revision t]} ∪ revisions)).

Definition lineage_fits (lineage : list DirectoryRevisionTransition) (p : NamespacePath) : bool :=
  bool_decide (checked_add usize_max (len lineage) 1 = Some (len (components p))).

Definition validate_rename (commit : ReconciliationCommit) (i : BranchMutationIntent) (r : BranchRenameIntent) : Replayed unit :=
  if (source_entry_generation r =? 0) || negb (lineage_fits (source_ancestors r) (source_path r)) || bool_decide (source_path r = path i)
     || (intermediate_root_object_revision_id r =? root_object_revision_id commit)
  then Err (Rejected InvalidInput)
  else
    _ ← try_fold insert_lineage ({[intent_object_id i]}, {[intermediate_root_object_revision_id r]} ∪ {[intent_object_revision_id i]}) (source_ancestors r);
    Ok tt.

Section plan.
Context `{Blake3} `{Unicode}.

Definition validate_intent (commit : ReconciliationCommit) (i : BranchMutationIntent) : Replayed unit :=
  match payload commit with
  | Mutation digest =>
      if negb (intent_commit_id i =? commit_id commit) || negb (bool_decide (intent_digest_of i = digest)) || (entry_generation i =? 0)
         || negb (lineage_fits (ancestors i) (path i))
      then Err (Rejected InvalidInput)
      else
        _ ← try_fold insert_lineage ({[intent_object_id i]}, {[intent_object_revision_id i]}) (ancestors i);
        if is_deletion (mutation i) && bool_decide (is_Some (rename i)) then Err (Rejected InvalidInput)
        else match rename i with Some r => validate_rename commit i r | None => Ok tt end
  | _ => Err (Rejected InvalidInput)
  end.

End plan.

(** ** Digest *)

Definition disposition_code (d : NamespaceReplayDisposition) : N := match d with Applied => 1 | Recovered => 2 | AlreadyApplied => 3 | Preserved => 4 end.
Definition effect_code (e : NamespaceReplayEffect) : N := match e with Upsert => 1 | Remove => 2 | Preserve => 3 end.
Definition update_count (n : N) : bytes := u32_be n.
Definition update_path (p : NamespacePath) : bytes :=
  u32_be (len (components p)) ++
  concat (map (fun c => u32_be (str_len (display c)) ++ as_bytes (display c) ++ u32_be (str_len (canonical c)) ++ as_bytes (canonical c)) (components p)).
Definition update_optional_identifier (v : option N) : bytes := match v with Some v => 1 :: Identifier.as_bytes v | None => [0] end.
Definition update_optional_bool (v : option bool) : bytes := match v with Some b => [1; if b then 1 else 0] | None => [0] end.

Definition update_removal (r : NamespaceReplayRemoval) : bytes :=
  update_path (removal_path r) ++ Identifier.as_bytes (removal_object_id r) ++ Identifier.as_bytes (removal_object_revision_id r) ++
  be_bytes 8 (removal_entry_generation r) ++ update_optional_identifier (Some (removal_intermediate_root r)) ++
  update_count (len (removal_ancestors r)) ++ concat (map update_transition (removal_ancestors r)).

Definition update_action (a : NamespaceReplayAction) : bytes :=
  Identifier.as_bytes (action_commit_id a) ++ [effect_code (effect a)] ++
  match source_removal a with Some r => 1 :: update_removal r | None => [0] end ++
  update_path (action_source_path a) ++ update_path (target_path a) ++
  Identifier.as_bytes (source_object_id a) ++ Identifier.as_bytes (target_object_id a) ++
  Identifier.as_bytes (source_object_revision_id a) ++ Identifier.as_bytes (target_object_revision_id a) ++
  [kind_code (target_kind a)] ++ be_bytes 8 (target_entry_generation a) ++
  update_optional_identifier (target_prior_object_revision_id a) ++ update_optional_identifier (target_file_version_id a) ++
  update_optional_identifier (target_publication_operation_id a) ++ update_mutation (action_mutation a) ++
  [disposition_code (disposition a)] ++ update_optional_identifier (target_root_object_revision_id a) ++
  update_count (len (target_ancestors a)) ++ concat (map update_transition (target_ancestors a)).

Definition update_base_entry (e : NamespaceReplayEntry) : bytes :=
  update_path (base_path e) ++ Identifier.as_bytes (base_object_id e) ++ Identifier.as_bytes (base_object_revision_id e) ++ [kind_code (base_kind e)] ++
  update_optional_identifier (base_file_version_id e) ++ update_optional_bool (base_directory_is_empty e) ++ be_bytes 8 (base_entry_generation e).

(** [entries.sort_by_key(path_key)]. *)
Definition base_order (x y : NamespaceReplayEntry) : Prop := key_leb (path_key (base_path x)) (path_key (base_path y)) = true.
#[export] Instance base_order_dec : RelDecision base_order.
Proof. intros x y. unfold base_order. apply _. Defined.

Section planner.
Context `{Blake3} `{Unicode}.

Definition replay_digest (causal : bytes) (base : NamespaceReplayBase) (acts : list NamespaceReplayAction) (quarantined : list N) (final_root : option N) : bytes :=
  blake3 (ascii_bytes "meshspan.filesystem.namespace-replay-plan.v5" ++ [0] ++ causal ++ update_optional_identifier (base_root_object_revision_id base) ++
    update_count (len (base_entries base)) ++ concat (map update_base_entry (merge_sort base_order (base_entries base))) ++
    update_count (len acts) ++ concat (map update_action acts) ++
    update_count (len quarantined) ++ concat (map Identifier.as_bytes quarantined) ++ update_optional_identifier final_root).

(** ** The whole replay *)

Definition replay_commit (plan : bytes) (m : gmap N ReconciliationCommit) (ints : gmap N BranchMutationIntent) (quarantined : gset N)
    (acc : ReplayState * list NamespaceReplayAction) (id : N) : Replayed (ReplayState * list NamespaceReplayAction) :=
  let '(st, acts) := acc in
  commit ← some_or (m !! id) MissingCommit;
  match payload commit with
  | Mutation _ =>
      i ← some_or (ints !! id) MissingIntent;
      _ ← validate_intent commit i;
      if bool_decide (id ∈ quarantined) then Ok (st, acts)
      else '(st', a) ← Replay.apply plan commit i m st; Ok (st', acts ++ [a])
  | _ => Ok (st, acts)
  end.

Definition plan_namespace_replay_with_quarantine (p : ReconciliationPlan) (cs : list ReconciliationCommit) (ints : list BranchMutationIntent)
    (base : NamespaceReplayBase) (quarantined : gset N) : Replayed NamespaceReplayPlan :=
  if negb (validates_commits p cs) then Err (Rejected InvalidInput)
  else
    m ← index_replayed cs;
    intents ← index_intents p m ints;
    if existsb (fun id => bool_decide (id ∉ ordered_commits p) || negb (is_mutation m id)) (ascending quarantined) then Err (Rejected InvalidInput)
    else
      st ← from_base base;
      '(final, acts) ← try_fold (replay_commit (plan_digest_of p) m intents quarantined) (st, []) (ordered_commits p);
      Ok {| actions := acts; plan_quarantined_commits := ascending quarantined; final_root_object_revision_id := current_root final;
            replay_plan_digest := replay_digest (plan_digest_of p) base acts (ascending quarantined) (current_root final) |}.

Definition plan_namespace_replay (p : ReconciliationPlan) (cs : list ReconciliationCommit) (ints : list BranchMutationIntent) (base : NamespaceReplayBase) :
    Replayed NamespaceReplayPlan :=
  plan_namespace_replay_with_quarantine p cs ints base ∅.

End planner.
