(* ===== verification/ReplayFacts.v ===== *)
(** The state of a replay: its two indices agree, advancing ancestors touches nothing but
    revisions, and moving a directory carries everything below it and nothing else. *)

From Stdlib Require Import String.
From S2P Require Import Prelude Ids Contracts Name Directory Reconcile Intent Replay.
From stdpp Require Import prelude gmap sorting list.
#[local] Open Scope N_scope.

(** ** The invariant *)

(** Every entry stands at its own path, and entries and objects index each other. *)
Record consistent (st : ReplayState) : Prop := {
  consistent_path k e : state_entries st !! k = Some e -> path_key (entry_path e) = k;
  consistent_object k e : state_entries st !! k = Some e -> objects st !! entry_object e = Some e;
  consistent_entry o e : objects st !! o = Some e -> entry_object e = o /\ state_entries st !! path_key (entry_path e) = Some e
}.

(** Above every entry stand the entries of its directories. *)
Definition rooted (st : ReplayState) : Prop :=
  forall k n, is_Some (state_entries st !! k) -> (0 < n < length k)%nat -> is_Some (state_entries st !! take n k).

(** What an ancestor keeps when its revision advances, and what an entry keeps wherever it goes. *)
Record kept (e e' : EffectiveEntry) : Prop := {
  kept_path : entry_path e' = entry_path e;
  kept_object : entry_object e' = entry_object e;
  kept_kind : entry_kind e' = entry_kind e;
  kept_version : entry_version e' = entry_version e;
  kept_incarnation : entry_incarnation e' = entry_incarnation e;
  kept_file : entry_kind e = File -> e' = e
}.
Record carried (e e' : EffectiveEntry) : Prop := {
  carried_object : entry_object e' = entry_object e;
  carried_kind : entry_kind e' = entry_kind e;
  carried_version : entry_version e' = entry_version e;
  carried_file : entry_kind e = File -> entry_revision e' = entry_revision e
}.

#[export] Instance kept_refl : Reflexive kept.
Proof. by constructor. Qed.
#[export] Instance kept_trans : Transitive kept.
Proof. intros x y z [] []. split; try congruence. intros Hf. rewrite kept_file1, kept_file0; congruence. Qed.
#[export] Instance carried_refl : Reflexive carried.
Proof. by constructor. Qed.
#[export] Instance carried_trans : Transitive carried.
Proof. intros x y z [] []. split; try congruence. intros Hf. rewrite carried_file1, carried_file0; congruence. Qed.

Lemma kept_carried e e' : kept e e' -> carried e e'.
Proof. intros []. split; try done. intros Hf. by rewrite kept_file0. Qed.

Create HintDb replay.
#[export] Hint Resolve kept_carried : replay.

(** Two states with the same entries up to revisions. *)
Definition keeps (st st' : ReplayState) : Prop := forall k, option_Forall2 kept (state_entries st !! k) (state_entries st' !! k).

#[export] Instance keeps_refl : Reflexive keeps.
Proof. intros st k. destruct (state_entries st !! k); constructor. reflexivity. Qed.
#[export] Instance keeps_trans : Transitive keeps.
Proof. intros a b c Hab Hbc k. specialize (Hab k). specialize (Hbc k). destruct Hab as [x y Hxy|]; inversion Hbc; subst; constructor. by etrans. Qed.

Lemma keeps_Some st st' k e : keeps st st' -> state_entries st !! k = Some e -> exists e', state_entries st' !! k = Some e' /\ kept e e'.
Proof. intros Hk He. specialize (Hk k). rewrite He in Hk. inversion Hk; subst. eauto. Qed.

Lemma keeps_Some_inv st st' k e' : keeps st st' -> state_entries st' !! k = Some e' -> exists e, state_entries st !! k = Some e /\ kept e e'.
Proof. intros Hk He. specialize (Hk k). rewrite He in Hk. inversion Hk; subst. eauto. Qed.

Lemma keeps_None st st' k : keeps st st' -> state_entries st !! k = None <-> state_entries st' !! k = None.
Proof. intros Hk. specialize (Hk k). inversion Hk; split; congruence. Qed.

Lemma keeps_rooted st st' : keeps st st' -> rooted st -> rooted st'.
Proof.
  intros Hk Hr k n Hs Hn. assert (forall j, is_Some (state_entries st' !! j) <-> is_Some (state_entries st !! j)) as Hj
    by (intros j; rewrite <- !not_eq_None_Some; by rewrite (keeps_None _ _ _ Hk)).
  apply Hj, Hr; [by apply Hj|done].
Qed.

(** Entries with one object are one entry. *)
Lemma consistent_unique st j k d e :
  consistent st -> state_entries st !! j = Some d -> state_entries st !! k = Some e -> entry_object d = entry_object e -> j = k /\ d = e.
Proof.
  intros [Hp Ho _] Hd He E. pose proof (Ho _ _ Hd) as Od. pose proof (Ho _ _ He) as Oe. rewrite E in Od. rewrite Od in Oe. injection Oe as ->.
  split; [|done]. by rewrite <- (Hp _ _ Hd), (Hp _ _ He).
Qed.

(** Revisions and the root are outside the invariant. *)
Lemma consistent_set_revision r e st : consistent st -> consistent (set_revision r e st).
Proof. by intros []. Qed.
Lemma consistent_set_root r st : consistent st -> consistent (set_root r st).
Proof. by intros []. Qed.
#[export] Hint Resolve consistent_set_revision consistent_set_root : replay.

(** An entry put where nothing or its own object stood. *)
Lemma consistent_put st e :
  consistent st ->
  (forall j d, state_entries st !! j = Some d -> entry_object d = entry_object e -> j = path_key (entry_path e)) ->
  (forall d, state_entries st !! path_key (entry_path e) = Some d -> entry_object d = entry_object e) ->
  consistent (set_object (entry_object e) e (set_entry (path_key (entry_path e)) e st)).
Proof.
  intros [Hp Ho He] Hn Hh. split; cbn.
  - intros k d [[<- <-]|[_ Hd]]%lookup_insert_Some; [done|by apply Hp].
  - intros k d [[<- <-]|[Hk Hd]]%lookup_insert_Some; [apply lookup_insert_eq|].
    rewrite lookup_insert_ne; [by eapply Ho|]. intros E. apply Hk. symmetry. by eapply Hn.
  - intros o d [[<- <-]|[Hk Hd]]%lookup_insert_Some; [split; [done|apply lookup_insert_eq]|].
    destruct (He _ _ Hd) as [E Hx]. split; [done|]. rewrite lookup_insert_ne; [done|]. intros E'. rewrite <- E' in Hx. apply Hh in Hx. congruence.
Qed.

Lemma consistent_drop st k e :
  consistent st -> state_entries st !! k = Some e -> consistent (drop_object (entry_object e) (drop_entry k st)).
Proof.
  intros Hc Hk. pose proof (fun j d => consistent_unique st k j e d Hc Hk) as Hu. destruct Hc as [Hp Ho He]. split; cbn.
  - intros j d [_ Hd]%lookup_delete_Some. by apply Hp.
  - intros j d [Hj Hd]%lookup_delete_Some. rewrite lookup_delete_ne; [by eapply Ho|]. intros E. apply Hj. by destruct (Hu j d).
  - intros o d [Hj Hd]%lookup_delete_Some. destruct (He _ _ Hd) as [E Hx]. split; [done|]. rewrite lookup_delete_ne; [done|]. intros E'. rewrite <- E', Hk in Hx. congruence.
Qed.

(** ** Successful steps *)

Lemma some_or_Ok {A} (o : option A) e a : some_or o e = Ok a -> o = Some a.
Proof. destruct o; cbn; [by intros [= ->]|done]. Qed.
Lemma or_reject_Ok {E A} (r : result E A) e a : or_reject r e = Ok a -> r = Ok a.
Proof. destruct r; cbn; [by intros [= ->]|done]. Qed.

(** Invert a successful step of a replay. *)
Ltac inv_replay :=
  repeat match goal with
  | H : some_or _ _ = Ok _ |- _ => apply some_or_Ok in H
  | H : or_reject _ _ = Ok _ |- _ => apply or_reject_Ok in H
  | _ => progress inv_ok
  end.

Section replay.
Context `{Blake3} `{Unicode}.

(** One ancestor: the entry at the prefix keeps everything but its revision. *)
Lemma advance_ancestor_keeps plan commit target st ts x st' ts' :
  consistent st -> advance_ancestor plan commit target (st, ts) x = Ok (st', ts') ->
  consistent st' /\ keeps st st' /\ current_root st' = current_root st /\ length ts' = S (length ts).
Proof.
  intros Hc. unfold advance_ancestor. destruct x as [index source]. intros Hs. inv_replay. bool_cases.
  match goal with Hx : state_entries st !! path_key ?p = Some ?d |- _ => rename d into current; rename p into prefix; rename Hx into Hcur end.
  pose proof (consistent_path _ Hc _ _ Hcur) as Hpath. set (updated := Build_EffectiveEntry _ _ _ _ _ _ _).
  assert (kept current updated) as Hkept by (split; cbn; try done; congruence). split_and!.
  - rewrite <- Hpath. apply consistent_set_revision. change (path_key (entry_path current)) with (path_key (entry_path updated)). apply consistent_put; [done| |].
    + intros j d Hd E. cbn. by edestruct (consistent_unique st j (path_key prefix) d current) as [-> _].
    + intros d Hd. cbn in Hd. rewrite Hpath, Hcur in Hd. by injection Hd as <-.
  - intros k. cbn. destruct (decide (path_key prefix = k)) as [<-|Hk]; [rewrite lookup_insert_eq, Hcur; by constructor|].
    rewrite lookup_insert_ne by done. apply keeps_refl.
  - done.
  - rewrite length_app. cbn. lia.
Qed.

Lemma advance_ancestors_keeps plan commit lineage target st st' ts :
  consistent st -> advance_ancestors_for plan commit lineage target st = Ok (st', ts) ->
  consistent st' /\ keeps st st' /\ current_root st' = current_root st /\ length ts = length lineage.
Proof.
  unfold advance_ancestors_for. intros Hc Ha.
  assert (forall l ts0 st, consistent st -> try_fold (advance_ancestor plan commit target) (st, ts0) l = Ok (st', ts) ->
    consistent st' /\ keeps st st' /\ current_root st' = current_root st /\ length ts = (length ts0 + length l)%nat) as Hgo.
  { clear. induction l as [|x l IH]; intros ts0 st Hc; cbn [try_fold]; intros Hf.
    - inv_ok. split_and!; [done|reflexivity|done|cbn; lia].
    - apply result_bind_Ok in Hf as ([st1 ts1] & H1 & H2). destruct (advance_ancestor_keeps _ _ _ _ _ _ _ _ Hc H1) as (Hc1 & Hk1 & Hr1 & Hl1).
      destruct (IH _ _ Hc1 H2) as (Hc2 & Hk2 & Hr2 & Hl2). split_and!; [done|by etrans|congruence|cbn; lia]. }
  destruct (Hgo _ _ _ Hc Ha) as (H1 & H2 & H3 & H4). split_and!; try done. rewrite length_zip_with, length_seq in H4. cbn in H4. lia.
Qed.

Lemma first_recovered_free source commit occ counters p : first_recovered source commit occ counters = Ok p -> occ p = false /\ components p <> [].
Proof.
  assert (forall cs q, from_stored_components cs = Ok q -> components q = cs /\ cs <> []) as Hst.
  { intros cs q Hq. unfold from_stored_components in Hq. destruct (bool_decide (cs = [])) eqn:E; [done|]. inv_ok. split; [done|]. by apply bool_decide_eq_false in E. }
  induction counters as [|c l IH]; cbn [first_recovered]; [done|]. intros Hf. apply result_bind_Ok in Hf as (found & Ht & Hf).
  destruct found as [q|]; [|by apply IH]. injection Hf as <-. unfold try_recovered in Ht. apply result_bind_Ok in Ht as (leaf & _ & Ht).
  apply result_bind_Ok in Ht as (comp & _ & Ht). cbv zeta in Ht.
  assert ((if (length (components source) =? 1)%nat then fallback ← or_reject (from_stored_components [comp]) BoundsExceeded; Ok (if occ fallback then None else Some fallback) else Ok None) = Ok (Some q) ->
    occ q = false /\ components q <> []) as Hagain.
  { destruct (_ =? _)%nat; [|done]. intros Hx. apply result_bind_Ok in Hx as (fb & Hfb%or_reject_Ok & Hx). destruct (occ fb) eqn:Eo; [done|]. injection Hx as <-.
    split; [done|]. destruct (Hst _ _ Hfb) as [-> ?]. done. }
  destruct (from_stored_components _) as [s|] eqn:Es; [|by apply Hagain]. destruct (occ s) eqn:Eo; [by apply Hagain|]. injection Ht as <-.
  split; [done|]. destruct (Hst _ _ Es) as [-> ?]. done.
Qed.

Lemma occupied_false st p : occupied st p = false -> state_entries st !! path_key p = None.
Proof. unfold occupied. intros Ho%bool_decide_eq_false. by apply eq_None_not_Some. Qed.

(** A recovered name is free. *)
Lemma recovered_path_free source commit n st p : recovered_path source commit n (occupied st) = Ok p -> state_entries st !! path_key p = None /\ components p <> [].
Proof. intros Hr. apply first_recovered_free in Hr as [Ho ?]. split; [by apply occupied_false|done]. Qed.

Lemma free_path_free commit p st q : components p <> [] -> free_path commit p st = Ok q -> state_entries st !! path_key q = None /\ components q <> [].
Proof. unfold free_path. intros Hp. destruct (occupied st p) eqn:Eo; intros Hf; [by apply recovered_path_free in Hf|]. injection Hf as <-. split; [by apply occupied_false|done]. Qed.

End replay.

Section move.
Context (source target : NamespacePath).

(** Where a key below [source] goes. *)
Definition moved_key (k : list Str) : list Str := path_key target ++ drop (length (path_key source)) k.

Lemma from_stored_components_Ok cs p : from_stored_components cs = Ok p -> components p = cs /\ cs <> [].
Proof.
  intros Hq. unfold from_stored_components in Hq. destruct (bool_decide (cs = [])) eqn:E; [done|]. inv_ok. split; [done|]. by apply bool_decide_eq_false in E.
Qed.

(** One descendant. *)
Lemma relocate_spec st k e st' :
  consistent st -> state_entries st !! k = Some e ->
  (forall d, state_entries st !! moved_key k = Some d -> moved_key k = k) ->
  relocate source target st (k, e) = Ok st' ->
  exists p, path_key p = moved_key k /\ consistent st' /\ current_root st' = current_root st /\
    state_entries st' = <[moved_key k := with_path p e]> (delete k (state_entries st)) /\
    (forall o, objects st' !! o = None <-> objects st !! o = None).
Proof.
  intros Hc Hk Hfree. unfold relocate. intros Hr. apply result_bind_Ok in Hr as (below & Hb & Hr). apply result_bind_Ok in Hr as (p & Hp%or_reject_Ok & Hr).
  injection Hr as <-. unfold slice_since in Hb. destruct (_ <=? _)%nat; [|done]. injection Hb as <-. apply from_stored_components_Ok in Hp as [Hp _].
  pose proof (consistent_path _ Hc _ _ Hk) as Hpath.
  assert (path_key p = moved_key k) as Hmk.
  { unfold moved_key, path_key in *. rewrite Hp, map_app, length_map, <- Hpath. f_equal. symmetry. apply skipn_map. }
  exists p. split; [done|]. split_and!; [|done|cbn; by rewrite Hmk|].
  - pose proof (consistent_object _ Hc _ _ Hk) as Hobj. rewrite Hmk. split; cbn.
    + intros j d [[<- <-]|[Hne [Hj Hd]%lookup_delete_Some]]%lookup_insert_Some; [done|by apply (consistent_path _ Hc)].
    + intros j d [[<- <-]|[Hne [Hj Hd]%lookup_delete_Some]]%lookup_insert_Some; cbn; [by rewrite lookup_alter_eq, Hobj|].
      rewrite lookup_alter_ne; [by eapply (consistent_object _ Hc)|]. intros E. apply Hj. by destruct (consistent_unique st k j e d Hc Hk Hd E).
    + intros o d Ho. destruct (decide (o = entry_object e)) as [->|Hne].
      * rewrite lookup_alter_eq, Hobj in Ho. injection Ho as <-. split; [done|]. cbn. by rewrite Hmk, lookup_insert_eq.
      * rewrite lookup_alter_ne in Ho by done. destruct (consistent_entry _ Hc _ _ Ho) as [Ed Hd]. split; [done|].
        assert (path_key (entry_path d) <> k) as Hdk by (intros Ek; rewrite Ek, Hk in Hd; congruence).
        rewrite lookup_insert_ne, lookup_delete_ne; [done|done|]. intros Ek. rewrite <- Ek in Hd. apply Hfree in Hd. congruence.
  - intros o. cbn. destruct (decide (o = entry_object e)) as [->|Hne]; [|by rewrite lookup_alter_ne]. rewrite lookup_alter_eq, fmap_None. done.
Qed.

(** All of them, in any order. *)
Lemma relocate_all_spec l st st' :
  consistent st -> NoDup l.*1 -> (forall k e, (k, e) ∈ l -> state_entries st !! k = Some e) ->
  (forall j k, j ∈ l.*1 -> k ∈ l.*1 -> moved_key j = moved_key k -> j = k) ->
  (forall k d, k ∈ l.*1 -> state_entries st !! moved_key k = Some d -> moved_key k = k) ->
  try_fold (relocate source target) st l = Ok st' ->
  consistent st' /\ current_root st' = current_root st /\ (forall o, objects st' !! o = None <-> objects st !! o = None) /\
  (forall k e, state_entries st !! k = Some e -> k ∉ l.*1 -> state_entries st' !! k = Some e) /\
  (forall k e, (k, e) ∈ l -> exists p, path_key p = moved_key k /\ state_entries st' !! moved_key k = Some (with_path p e)) /\
  (forall j, is_Some (state_entries st' !! j) -> is_Some (state_entries st !! j) \/ exists k, k ∈ l.*1 /\ j = moved_key k).
Proof.
  revert st. induction l as [|[k e] l IH]; intros st Hc Hnd Hin Hinj Hfree Hf; cbn [try_fold] in Hf.
  { injection Hf as <-. split_and!; try done; [by intros k e ?%not_elem_of_nil|by left]. }
  apply result_bind_Ok in Hf as (st1 & H1 & H2). cbn in Hnd. apply NoDup_cons in Hnd as [Hkl Hnd].
  assert (state_entries st !! k = Some e) as Hk by (apply Hin; by left).
  destruct (relocate_spec st k e st1) as (p & Hp & Hc1 & Hr1 & He1 & Ho1); [done|done|intros d; apply Hfree; by left|done|].
  assert (forall j, j ∈ l.*1 -> j <> k) as Hne by (by intros j Hj ->).
  assert (forall j, j ∈ l.*1 -> is_Some (state_entries st !! j)) as Hl.
  { intros j Hj. apply list_elem_of_fmap in Hj as ([j' d] & -> & Hj). exists d. apply Hin. by right. }
  assert (forall j, j ∈ l.*1 -> j <> moved_key k) as Hnm.
  { intros j Hj E. destruct (Hl j Hj) as [d Hd]. rewrite E in Hd. apply Hfree in Hd; [|by left]. apply (Hne j Hj). congruence. }
  destruct (IH st1) as (Q1 & Q2 & Q3 & Q4 & Q5 & Q6); [done|done| | | |done|].
  - intros j d Hj. assert (j ∈ l.*1) as Hjl by (apply list_elem_of_fmap; by exists (j, d)). rewrite He1, lookup_insert_ne, lookup_delete_ne; [apply Hin; by right|by apply not_eq_sym, Hne|by apply not_eq_sym, Hnm].
  - intros j j' Hj Hj'. apply Hinj; by right.
  - intros j d Hj. rewrite He1. intros [[E _]|[_ [_ Hd]%lookup_delete_Some]]%lookup_insert_Some; [|apply (Hfree j d); [by right|done]].
    exfalso. apply (Hne j Hj). symmetry. apply Hinj; [by left|by right|done].
  - split_and!; [done|congruence|intros o; by rewrite Q3| | |].
    + intros j d Hj Hjn. cbn in Hjn. apply not_elem_of_cons in Hjn as [Hjk Hjn]. apply Q4; [|done]. rewrite He1, lookup_insert_ne, lookup_delete_ne; [done|by apply not_eq_sym|].
      intros E. rewrite <- E in Hj. apply Hfree in Hj; [|by left]. congruence.
    + intros j d [[= -> ->]|Hj]%elem_of_cons; [|by apply Q5]. exists p. split; [done|]. apply Q4; [by rewrite He1, lookup_insert_eq|]. intros Hm. by apply (Hnm _ Hm).
    + intros j [[d Hd]|(j' & Hj' & ->)]%Q6; [|right; exists j'; split; [by right|done]]. rewrite He1 in Hd.
      apply lookup_insert_Some in Hd as [[<- _]|[_ [_ Hd]%lookup_delete_Some]]; [right; exists k; split; [by left|done]|left; by exists d].
Qed.

Lemma strictly_below_app k : strictly_below (path_key source) k = true -> k = path_key source ++ drop (length (path_key source)) k /\ drop (length (path_key source)) k <> [].
Proof.
  unfold strictly_below. intros [Hl%Nat.ltb_lt Ht%bool_decide_eq_true]%andb_true_iff. split; [by rewrite <- Ht at 1; rewrite take_drop|].
  intros E. apply (f_equal length) in E. rewrite length_drop in E. cbn in E. lia.
Qed.

(** The whole move, when nothing stands at the target and, apart from the moved entries,
    nothing below it. *)
Lemma relocate_descendants_spec kd st st' :
  consistent st ->
  (forall k d, strictly_below (path_key source) k = true -> is_Some (state_entries st !! k) -> state_entries st !! moved_key k = Some d -> moved_key k = k) ->
  state_entries st !! path_key target = None ->
  relocate_descendants source target kd st = Ok st' ->
  consistent st' /\ current_root st' = current_root st /\ (forall o, objects st' !! o = None <-> objects st !! o = None) /\
  state_entries st' !! path_key target = None /\
  (forall k e, state_entries st !! k = Some e -> exists k' e', state_entries st' !! k' = Some e' /\ carried e e').
Proof.
  intros Hc Hfree Hnone. unfold relocate_descendants. destruct kd; [|intros Hr; injection Hr as <-; split_and!; try done; intros k e He; by exists k, e].
  set (l := merge_sort key_order _). intros Hf.
  assert (forall k e, (k, e) ∈ l <-> strictly_below (path_key source) k = true /\ state_entries st !! k = Some e) as Hl.
  { intros k e. unfold l. by rewrite merge_sort_Permutation, list_elem_of_filter, elem_of_map_to_list. }
  assert (forall k, k ∈ l.*1 <-> strictly_below (path_key source) k = true /\ is_Some (state_entries st !! k)) as Hk.
  { intros k. rewrite list_elem_of_fmap. split; [intros ([k' e] & -> & [? ?]%Hl); split; [done|by exists e]|intros [? [e ?]]; exists (k, e); split; [done|by apply Hl]]. }
  destruct (relocate_all_spec l st st') as (Q1 & Q2 & Q3 & Q4 & Q5 & Q6); [done| | | | |done|].
  - unfold l. rewrite merge_sort_Permutation. apply NoDup_fmap_fst; [|apply NoDup_filter, NoDup_map_to_list].
    intros k e d [_ He%elem_of_map_to_list]%list_elem_of_filter [_ Hd%elem_of_map_to_list]%list_elem_of_filter. congruence.
  - intros k e [_ ?]%Hl. done.
  - intros j k [Hj _]%Hk [Hk' _]%Hk E. apply app_inv_head in E. apply strictly_below_app in Hj as [-> _], Hk' as [-> _]. congruence.
  - intros k d [Hs Hi]%Hk. by apply Hfree.
  - split_and!; try done.
    + apply eq_None_not_Some. intros [Hs|(k & [Hb _]%Hk & E)]%Q6; [rewrite Hnone in Hs; by destruct Hs|].
      apply strictly_below_app in Hb as [_ Hb]. unfold moved_key in E. apply (f_equal length) in E. rewrite length_app in E.
      apply Hb, length_zero_iff_nil. lia.
    + intros k e He. destruct (decide (k ∈ l.*1)) as [Hin|Hin]; [|exists k, e; split; [by apply Q4|reflexivity]].
      destruct (Q5 k e) as (p & _ & Hp); [apply Hl; split; [by apply Hk in Hin as [? _]|done]|]. exists (moved_key k), (with_path p e). split; [done|by constructor].
Qed.

End move.
