(* ===== verification/ReplaySafe.v ===== *)
(** A replayed intent loses no entry: what it replaces or removes is exactly what its branch
    had seen, and everything else stays or moves with its directory. *)

From Stdlib Require Import String.
From S2P Require Import Prelude Ids Contracts Name Directory Reconcile Intent Replay ReplayPlan ReplayFacts.
From stdpp Require Import prelude gmap sorting list.
#[local] Open Scope N_scope.

(** ** Moving an entry with everything below it *)

Lemma free_below st st' p t :
  rooted st -> state_entries st' !! path_key t = None -> components t <> [] ->
  (forall k, is_Some (state_entries st' !! k) <-> is_Some (state_entries st !! k) /\ k <> path_key p) ->
  forall k d, strictly_below (path_key p) k = true -> state_entries st' !! moved_key p t k = Some d -> moved_key p t k = k.
Proof.
  intros Hr Hnone Ht Hdom k d Hb Hd. apply strictly_below_app in Hb as [Hk Hne]. unfold moved_key in *.
  assert (is_Some (state_entries st !! path_key t)) as Hs.
  { replace (path_key t) with (take (length (path_key t)) (path_key t ++ drop (length (path_key p)) k)) by apply take_app_length.
    apply Hr; [apply Hdom; by exists d|]. rewrite length_app. split; [unfold path_key; rewrite length_map; destruct (components t); [done|cbn; lia]|].
    destruct (drop (length (path_key p)) k); [done|cbn; lia]. }
  destruct (decide (path_key t = path_key p)) as [E|E]; [by rewrite E, <- Hk|].
  exfalso. assert (is_Some (state_entries st' !! path_key t)) as [x Hx] by (by apply Hdom). congruence.
Qed.

Lemma is_Some_keeps st st' k : keeps st st' -> is_Some (state_entries st !! k) <-> is_Some (state_entries st' !! k).
Proof. intros Hk. by rewrite <- !not_eq_None_Some, (keeps_None _ _ _ Hk). Qed.

Lemma move_carries st st1 st3 st4 p t e e1 m kd :
  rooted st -> keeps st st1 -> consistent st1 -> state_entries st !! path_key p = Some e -> state_entries st1 !! path_key p = Some e1 ->
  let st2 := drop_object (entry_object e) (drop_entry (path_key p) st1) in
  state_entries st2 !! path_key t = None -> components t <> [] -> keeps st2 st3 -> consistent st3 ->
  relocate_descendants p t kd st3 = Ok st4 -> entry_path m = t -> carried e m ->
  consistent (set_object (entry_object m) m (set_entry (path_key t) m st4)) /\
  forall k d, state_entries st !! k = Some d -> exists k' d', state_entries (set_object (entry_object m) m (set_entry (path_key t) m st4)) !! k' = Some d' /\ carried d d'.
Proof.
  intros Hr K1 C1 He He1 st2 Hnone Ht K3 C3 Hrel <- Hm. pose proof (carried_object _ _ Hm) as Hmo.
  assert (forall k, is_Some (state_entries st3 !! k) <-> is_Some (state_entries st !! k) /\ k <> path_key p) as Hdom.
  { intros k. rewrite <- (is_Some_keeps _ _ k K3). cbn. rewrite lookup_delete_is_Some, <- (is_Some_keeps _ _ k K1). split; intros [? ?]; split; congruence. }
  destruct (relocate_descendants_spec p (entry_path m) kd st3 st4) as (C4 & _ & O4 & N4 & S4); [done| |by apply (keeps_None _ _ _ K3)|done|].
  { intros k d Hb _. eapply free_below; [exact Hr|by apply (keeps_None _ _ _ K3)|done|exact Hdom|done]. }
  assert (objects st4 !! entry_object e = None) as Hno.
  { apply O4, eq_None_not_Some. intros [d Hd]. apply (consistent_entry _ C3) in Hd as [Ed Hd]. apply (keeps_Some_inv _ _ _ _ K3) in Hd as (d2 & Hd2 & Hk2).
    cbn in Hd2. apply lookup_delete_Some in Hd2 as [Hne Hd2]. destruct (keeps_Some _ _ _ _ K1 He) as (x & Hx & Hkx). rewrite He1 in Hx. injection Hx as <-.
    destruct (consistent_unique st1 (path_key p) (path_key (entry_path d)) e1 d2 C1 He1 Hd2); [|done]. rewrite (kept_object _ _ Hkx), <- Ed. apply kept_object, Hk2. }
  split.
  - apply consistent_put; [done| |].
    + intros j d Hd E. apply (consistent_object _ C4) in Hd. congruence.
    + intros d Hd. congruence.
  - intros k d Hd. cbn. destruct (decide (k = path_key p)) as [->|Hne].
    + rewrite He in Hd. injection Hd as <-. exists (path_key (entry_path m)), m. split; [apply lookup_insert_eq|done].
    + destruct (keeps_Some _ _ _ _ K1 Hd) as (d1 & Hd1 & Hk1). destruct (keeps_Some st2 st3 k d1 K3) as (d3 & Hd3 & Hk3); [cbn; by rewrite lookup_delete_ne|].
      destruct (S4 _ _ Hd3) as (k' & d' & Hd' & Hc'). exists k', d'. split; [rewrite lookup_insert_ne; [done|congruence]|].
      etrans; [apply kept_carried; by etrans|done].
Qed.

Lemma consistent_ext st st' : state_entries st' = state_entries st -> objects st' = objects st -> consistent st -> consistent st'.
Proof. intros Ee Eo [P1 P2 P3]. split; rewrite ?Ee, ?Eo; [exact P1|exact P2|exact P3]. Qed.

Section replay.
Context `{Blake3} `{Unicode}.

(** ** Writes *)

(** The place a write selects is free, or holds the object it writes. *)
Lemma select_leaf_Change plan commit i st p o r prior v pub inc d :
  select_leaf plan commit i st = Ok (Change p o r prior v pub inc d) ->
  prior = entry_revision <$> state_entries st !! path_key p /\ (forall e, state_entries st !! path_key p = Some e -> entry_object e = o) /\
  (d = Applied -> o = intent_object_id i /\ r = intent_object_revision_id i).
Proof.
  unfold select_leaf. intros Hs. apply result_bind_Ok in Hs as (expected & _ & Hs). cbv zeta in Hs. revert Hs.
  set (pt := r ← prior_object_revision_id i; revisions st !! r). set (selected := match pt with Some t => _ | None => _ end).
  destruct (match state_entries st !! path_key selected with Some e => _ | None => false end); intros Hs; [by apply result_bind_Ok in Hs as (? & _ & ?)|].
  apply result_bind_Ok in Hs as ([[[p0 o0] r0] d0] & Hp & Hs). apply result_bind_Ok in Hs as ([v0 pub0] & _ & Hs). injection Hs as -> -> -> <- -> -> <- ->.
  split; [done|]. destruct (direct_application _ _ _ _) eqn:Ed.
  - apply result_bind_Ok in Hp as (r1 & Hr1 & Hp). injection Hp as <- <- <- <-. unfold direct_application in Ed. split.
    + intros e He. rewrite He in Ed. destruct pt as [t|]; [bool_cases; done|]. destruct (prior_object_revision_id i); [bool_cases; done|done].
    + unfold redirected in *. destruct pt as [t|]; [|intros _; by injection Hr1 as <-]. destruct (N.eqb_spec (entry_object t) (intent_object_id i)); cbn in *; [|done]. intros _. by injection Hr1 as <-.
  - unfold recovered_target in Hp. apply result_bind_Ok in Hp as (q & Hq & Hp). apply recovered_path_free in Hq as [Hq _].
    apply result_bind_Ok in Hp as (o1 & _ & Hp). apply result_bind_Ok in Hp as (r1 & _ & Hp). injection Hp as <- <- <- <-. split; [|done]. intros e He. congruence.
Qed.

(** Nothing outside the target has the object of the target. *)
Definition single_target (st : ReplayState) (a : NamespaceReplayAction) : Prop :=
  source_removal a = None -> effect a = Upsert -> forall k e, state_entries st !! k = Some e -> entry_object e = target_object_id a -> k = path_key (target_path a).

(** What may become of an entry. *)
Definition survives (st' : ReplayState) (e : EffectiveEntry) : Prop := exists k' e', state_entries st' !! k' = Some e' /\ carried e e'.
Definition replaced (a : NamespaceReplayAction) (k : list Str) (e : EffectiveEntry) : Prop :=
  effect a = Upsert /\ k = path_key (target_path a) /\ entry_object e = target_object_id a /\ target_prior_object_revision_id a = Some (entry_revision e).
Definition removed (i : BranchMutationIntent) (a : NamespaceReplayAction) (k : list Str) (e : EffectiveEntry) : Prop :=
  effect a = Remove /\ is_deletion (mutation i) = true /\ k = path_key (target_path a) /\ entry_object e = intent_object_id i /\
  entry_revision e = intent_object_revision_id i /\ entry_incarnation e = entry_generation i /\ entry_kind e = mutation_kind (mutation i).

(** A written entry: the others stay where they were. *)
Lemma put_carries st st1 t :
  consistent st1 -> keeps st st1 ->
  (forall e, state_entries st !! path_key (entry_path t) = Some e -> entry_object e = entry_object t) ->
  (forall k e, state_entries st !! k = Some e -> entry_object e = entry_object t -> k = path_key (entry_path t)) ->
  consistent (set_object (entry_object t) t (set_entry (path_key (entry_path t)) t st1)).
Proof.
  intros Hc Hk Ht Hs. apply consistent_put; [done| |].
  - intros j d Hd E. apply (keeps_Some_inv _ _ _ _ Hk) in Hd as (d0 & Hd0 & K). eapply Hs; [exact Hd0|]. rewrite <- E. symmetry. apply kept_object, K.
  - intros d Hd. apply (keeps_Some_inv _ _ _ _ Hk) in Hd as (d0 & Hd0 & K). rewrite (kept_object _ _ K). by apply Ht.
Qed.

Lemma put_survives st st1 t k e : keeps st st1 -> state_entries st !! k = Some e -> k <> path_key (entry_path t) ->
  survives (set_object (entry_object t) t (set_entry (path_key (entry_path t)) t st1)) e.
Proof.
  intros Hk He Hne. destruct (keeps_Some _ _ _ _ Hk He) as (e' & He' & K). exists k, e'. split; [cbn; by rewrite lookup_insert_ne|by apply kept_carried].
Qed.

Lemma advance_root_Ok plan commit i ts d commits st st' : advance_root plan commit i ts d commits st = Ok st' -> exists r, st' = set_root (Some r) st.
Proof. unfold advance_root. intros Hr. apply result_bind_Ok in Hr as (? & _ & Hr). apply result_bind_Ok in Hr as (n & _ & Hr). injection Hr as <-. by exists n. Qed.

Lemma apply_leaf_safe plan commit i commits st st' a :
  consistent st -> apply_leaf plan commit i commits st = Ok (st', a) ->
  (single_target st a -> consistent st') /\ (forall k e, state_entries st !! k = Some e -> survives st' e \/ replaced a k e).
Proof.
  intros Hc. unfold apply_leaf. intros Ha. apply result_bind_Ok in Ha as (sel & Hs & Ha). destruct sel as [cur|p o r prior v pub inc d].
  { injection Ha as <- <-. split; [auto with replay|]. intros k e He. left. by exists k, e. }
  apply select_leaf_Change in Hs as (-> & Hobj & _). apply result_bind_Ok in Ha as ([st1 ts] & H1 & Ha).
  apply advance_ancestors_keeps in H1 as (C1 & K1 & _ & _); [|done]. apply result_bind_Ok in Ha as (st2 & H2 & Ha).
  apply advance_root_Ok in H2 as [root ->]. cbv zeta in Ha. set (t := Build_EffectiveEntry p o r _ v _ inc) in Ha.
  injection Ha as Hst <-. set (put := set_object (entry_object t) t (set_entry (path_key (entry_path t)) t (set_root (Some root) st1))).
  assert (state_entries st' = state_entries put /\ objects st' = objects put) as [Ee Eo] by (rewrite <- Hst; by destruct (mutation_kind _)).
  assert (keeps st (set_root (Some root) st1)) as K2 by exact K1. split.
  - intros Hsingle. apply (consistent_ext put); [done|done|]. apply (put_carries st); [by apply consistent_set_root|done|done|].
    intros k e He E. by apply Hsingle with e.
  - intros k e He. destruct (decide (k = path_key p)) as [->|Hne].
    + right. split_and!; cbn; [done|done|by apply Hobj|by rewrite He].
    + left. destruct (put_survives st _ t k e K2 He Hne) as (k' & e' & He' & Hc'). exists k', e'. split; [by rewrite Ee|done].
Qed.

(** ** Deletions *)

(** A deletion or rename names a visible object, or one that the replay has not seen. *)
Definition tracked (st : ReplayState) (i : BranchMutationIntent) : Prop :=
  (is_Some (rename i) \/ is_deletion (mutation i) = true) -> objects st !! intent_object_id i = None -> revisions st !! intent_object_revision_id i = None.

Lemma tracked_selected st i e :
  consistent st -> tracked st i -> (is_Some (rename i) \/ is_deletion (mutation i) = true) -> intent_selected st i = Some e ->
  entry_object e = intent_object_id i /\ state_entries st !! path_key (entry_path e) = Some e.
Proof.
  intros Hc Ht Hi. unfold intent_selected. destruct (objects st !! intent_object_id i) as [x|] eqn:E; [|rewrite (Ht Hi E); done].
  intros Hx. injection Hx as <-. by apply (consistent_entry _ Hc).
Qed.

(** An object goes with its only entry. *)
Lemma drop_consistent st st1 k e : consistent st1 -> keeps st st1 -> state_entries st !! k = Some e -> consistent (drop_object (entry_object e) (drop_entry k st1)).
Proof. intros Hc Hk He. destruct (keeps_Some _ _ _ _ Hk He) as (e1 & He1 & K). rewrite <- (kept_object _ _ K). by apply consistent_drop. Qed.

Lemma remove_exact_safe plan commit i e commits st st' a :
  consistent st -> state_entries st !! path_key (entry_path e) = Some e -> remove_exact_delete plan commit i e commits st = Ok (st', a) ->
  consistent st' /\ effect a = Remove /\ target_path a = entry_path e /\ (forall k d, state_entries st !! k = Some d -> k <> path_key (entry_path e) -> survives st' d).
Proof.
  intros Hc He. unfold remove_exact_delete. intros Hr. apply result_bind_Ok in Hr as ([st1 ts] & H1 & Hr).
  apply advance_ancestors_keeps in H1 as (C1 & K1 & _ & _); [|done]. apply result_bind_Ok in Hr as (? & _ & Hr). apply result_bind_Ok in Hr as (root & _ & Hr).
  injection Hr as <- <-. split_and!; [|done|done|].
  - apply (drop_consistent st); [by apply consistent_set_root|exact K1|done].
  - intros k d Hd Hne. destruct (keeps_Some _ _ _ _ K1 Hd) as (d1 & Hd1 & K). exists k, d1. split; [cbn; by rewrite lookup_delete_ne|by apply kept_carried].
Qed.

Lemma recover_directory_safe plan commit i e st st' a :
  consistent st -> rooted st -> state_entries st !! path_key (entry_path e) = Some e -> recover_changed_directory plan commit i e st = Ok (st', a) ->
  consistent st' /\ effect a = Upsert /\ is_Some (source_removal a) /\ (forall k d, state_entries st !! k = Some d -> survives st' d).
Proof.
  intros Hc Hroot He. unfold recover_changed_directory. intros Hr. apply result_bind_Ok in Hr as ([st1 ts] & H1 & Hr).
  apply advance_ancestors_keeps in H1 as (C1 & K1 & _ & _); [|done]. apply result_bind_Ok in Hr as (inter & _ & Hr). cbv zeta in Hr.
  apply result_bind_Ok in Hr as (t & Ht & Hr). apply recovered_path_free in Ht as [Hfree Hne]. apply result_bind_Ok in Hr as (srcs & _ & Hr).
  apply result_bind_Ok in Hr as ([st3 ts3] & H3 & Hr). apply advance_ancestors_keeps in H3 as (C3 & K3 & _ & _);
    [|apply (drop_consistent st); [by apply consistent_set_root|exact K1|done]].
  apply result_bind_Ok in Hr as (root & _ & Hr). apply result_bind_Ok in Hr as (st4 & H4 & Hr). injection Hr as <- <-.
  destruct (keeps_Some _ _ _ _ K1 He) as (e1 & He1 & _).
  destruct (move_carries st (set_root (Some inter) st1) (set_root (Some root) st3) st4 (entry_path e) t e e1 (with_path t e) (entry_kind e)) as [C5 S5];
    try done; [by apply consistent_set_root|by apply consistent_set_root|].
  split_and!; [by apply consistent_set_revision|done|by eexists|]. intros k d Hd. destruct (S5 k d Hd) as (k' & d' & Hd' & Hcd). by exists k', d'.
Qed.

Lemma apply_delete_safe plan commit i commits st st' a :
  consistent st -> rooted st -> tracked st i -> is_deletion (mutation i) = true -> apply_delete plan commit i commits st = Ok (st', a) ->
  consistent st' /\ (forall k e, state_entries st !! k = Some e -> survives st' e \/ removed i a k e).
Proof.
  intros Hc Hr Ht Hdel. unfold apply_delete. intros Hd. apply result_bind_Ok in Hd as ([kd v] & Hk & Hd). apply result_bind_Ok in Hd as (intended & _ & Hd). cbv zeta in Hd.
  assert (kd = mutation_kind (mutation i)) as -> by (unfold deletion_identity in Hk; destruct (mutation i); try done; by injection Hk as <- _).
  assert (forall x : NamespaceReplayAction, Ok (E := Failure) (st, x) = Ok (st', a) -> consistent st' /\ (forall k e, state_entries st !! k = Some e -> survives st' e \/ removed i a k e)) as Hsame
    by (intros x Hx; injection Hx as <- <-; split; [done|]; intros k e He; left; by exists k, e).
  destruct (intent_selected st i) as [e|] eqn:Es; [|by eapply Hsame]. apply tracked_selected in Es as [Eo He]; [|done|done|by right].
  destruct (_ && _ && _ && _) eqn:E1.
  { apply recover_directory_safe in Hd as (C & _ & _ & S); [|done|done|done]. split; [done|]. intros k d Hx. left. by eapply S. }
  destruct (_ && _ && _ && _ && _) eqn:E2; [|by eapply Hsame]. bool_cases.
  apply remove_exact_safe in Hd as (C & Ea & Et & S); [|done|done]. split; [done|]. intros k d Hx. destruct (decide (k = path_key (entry_path e))) as [->|Hne]; [|left; by eapply S].
  right. rewrite He in Hx. injection Hx as <-. split_and!; try done. by rewrite Et.
Qed.

(** ** Renames *)

Lemma effective_path_nonempty st p lineage q : components p <> [] -> effective_path_for st p lineage = Ok q -> components q <> [].
Proof.
  intros Hp. unfold effective_path_for. generalize (rev (zip (seq 0 (length lineage)) lineage)). intros l. induction l as [|[index x] l IH]; cbn [effective_path_loop].
  { intros Hq. by injection Hq as <-. }
  destruct (lineage_target st x); [|done]. destruct (_ || _); [done|]. intros Hq. apply result_bind_Ok in Hq as (below & _ & Hq%or_reject_Ok).
  by apply from_stored_components_Ok in Hq as [-> ?].
Qed.

Lemma competing_rename_safe plan commit i r commits st st' a :
  consistent st -> components (path i) <> [] -> apply_competing_rename plan commit i r commits st = Ok (st', a) ->
  (single_target st a -> consistent st') /\ (forall k e, state_entries st !! k = Some e -> survives st' e).
Proof.
  intros Hc Hp. unfold apply_competing_rename. destruct (mutation i); try done. intros Ha.
  apply result_bind_Ok in Ha as (expected & Hexp & Ha). apply effective_path_nonempty in Hexp; [|done].
  apply result_bind_Ok in Ha as (p & Hfree & Ha). apply free_path_free in Hfree as [Hfree _]; [|done].
  apply result_bind_Ok in Ha as (o & _ & Ha). apply result_bind_Ok in Ha as (rv & _ & Ha). apply result_bind_Ok in Ha as (v & _ & Ha). apply result_bind_Ok in Ha as (op & _ & Ha).
  apply result_bind_Ok in Ha as ([st1 ts] & H1 & Ha). apply advance_ancestors_keeps in H1 as (C1 & K1 & _ & _); [|done].
  apply result_bind_Ok in Ha as (st2 & H2 & Ha). apply advance_root_Ok in H2 as [root ->]. cbv zeta in Ha. set (t := Build_EffectiveEntry p o rv _ _ _ _) in Ha. injection Ha as <- <-. split.
  - intros Hs. do 2 apply consistent_set_revision. apply (put_carries st (set_root (Some root) st1) t); [by apply consistent_set_root|exact K1| |].
    + intros e He. cbn in He. congruence.
    + intros k e He E. by apply Hs with e.
  - intros k e He. apply (put_survives st (set_root (Some root) st1) t k e); [exact K1|done|]. cbn. congruence.
Qed.

Lemma direct_rename_safe plan commit i r commits from e st st2 source target st' a :
  consistent st -> rooted st -> components (path i) <> [] -> state_entries st !! path_key from = Some e -> 
  remove_source plan commit i r commits from e st = Ok (st2, source) -> select_target commit i st2 = Ok target ->
  complete_direct plan commit i r source target st2 = Ok (st', a) ->
  consistent st' /\ (forall k d, state_entries st !! k = Some d -> survives st' d).
Proof.
  intros Hc Hroot Hp He. unfold remove_source. intros Hr. apply result_bind_Ok in Hr as (sel & _ & Hr). destruct (_ || _ || _); [done|].
  apply result_bind_Ok in Hr as ([st1 ts] & H1 & Hr). apply advance_ancestors_keeps in H1 as (C1 & K1 & _ & _); [|done].
  apply result_bind_Ok in Hr as (proot & _ & Hr). cbv zeta in Hr. apply result_bind_Ok in Hr as (inter & _ & Hr). injection Hr as <- <-.
  unfold select_target. intros Ht. apply result_bind_Ok in Ht as (expected & Hexp & Ht). apply effective_path_nonempty in Hexp; [|done].
  apply result_bind_Ok in Ht as (p & Hfree & Ht). apply free_path_free in Hfree as [Hfree Hne]; [|done].
  assert (rename_path target = p) as <- by (injection Ht as <-; by destruct (occupied _ _)). clear Ht.
  unfold complete_direct. intros Ha. apply result_bind_Ok in Ha as ([st3 ts3] & H3 & Ha). apply advance_ancestors_keeps in H3 as (C3 & K3 & _ & _);
    [|apply (drop_consistent st); [by apply consistent_set_root|exact K1|done]].
  apply result_bind_Ok in Ha as (root & _ & Ha). cbv zeta in Ha. apply result_bind_Ok in Ha as (m & _ & Ha). cbn [direct_entry direct_removal removal_path removal_of] in Ha.
  apply result_bind_Ok in Ha as (st4 & H4 & Ha). set (moved := Build_EffectiveEntry _ _ _ _ _ _ _) in Ha. injection Ha as <- <-.
  destruct (keeps_Some _ _ _ _ K1 He) as (e1 & He1 & _).
  destruct (move_carries st (set_root (Some inter) st1) (set_root (Some root) st3) st4 from (rename_path target) e e1 moved (entry_kind e)) as [C5 S5];
    try done; [by apply consistent_set_root|by apply consistent_set_root|].
  split; [by do 2 apply consistent_set_revision|]. intros k d Hd. destruct (S5 k d Hd) as (k' & d' & Hd' & Hcd). by exists k', d'.
Qed.

Lemma apply_rename_safe plan commit i r commits st st' a :
  consistent st -> rooted st -> tracked st i -> rename i = Some r -> components (path i) <> [] -> apply_rename plan commit i r commits st = Ok (st', a) ->
  (single_target st a -> consistent st') /\ (forall k e, state_entries st !! k = Some e -> survives st' e).
Proof.
  intros Hc Hroot Ht Hren Hp. unfold apply_rename. intros Ha. apply result_bind_Ok in Ha as (from & _ & Ha).
  apply result_bind_Ok in Ha as (e & He%some_or_Ok & Ha). apply tracked_selected in He as [Eo He]; [|done|done|left; by exists r].
  destruct (negb (bool_decide (entry_kind e = _))); [done|]. apply result_bind_Ok in Ha as (intended & _ & Ha).
  destruct (_ && _ && _). { injection Ha as <- <-. split; [auto with replay|]. intros k d Hd. by exists k, d. }
  destruct (negb (entry_incarnation e =? _)); [done|]. destruct (negb (bool_decide (path_key (entry_path e) = _))) eqn:Ek; [by eapply competing_rename_safe|].
  apply negb_false_iff, bool_decide_eq_true in Ek. destruct (_ && _); [done|]. apply result_bind_Ok in Ha as ([st2 source] & H2 & Ha).
  apply result_bind_Ok in Ha as (target & H3 & Ha). rewrite Ek in He. destruct (direct_rename_safe plan commit i r commits from e st st2 source target st' a) as [C S]; done.
Qed.

(** ** The base *)

Lemma from_base_consistent b st : from_base b = Ok st -> consistent st.
Proof.
  unfold from_base. set (st0 := Build_ReplayState _ _ _ _). assert (consistent st0) as Hc by (split; cbn; by intros ?? ?%lookup_empty_Some).
  revert Hc. generalize st0. induction (base_entries b) as [|x l IH]; intros s Hc; cbn [try_fold]; intros Hf; [by injection Hf as <-|].
  apply result_bind_Ok in Hf as (s1 & H1 & H2). apply (IH s1); [|done]. unfold load_entry in H1. destruct (base_entry_invalid x); [done|]. cbv zeta in H1.
  destruct (_ || _ || _) eqn:E; [done|]. injection H1 as <-. rewrite !orb_false_iff in E. destruct E as [[E%occupied_false _] Hobj%bool_decide_eq_false%eq_None_not_Some].
  apply (consistent_ext (set_object (entry_object (effective x)) (effective x) (set_entry (path_key (entry_path (effective x))) (effective x) s))); [done|done|].
  apply consistent_put; [done| |].
  - intros j d Hd E'. apply (consistent_object _ Hc) in Hd. cbn in E'. congruence.
  - intros d Hd. cbn in Hd. congruence.
Qed.

(** ** A run of intents *)

Lemma apply_safe plan commit i commits st st' a :
  consistent st -> rooted st -> tracked st i -> components (path i) <> [] -> Replay.apply plan commit i commits st = Ok (st', a) ->
  (single_target st a -> consistent st') /\ (forall k e, state_entries st !! k = Some e -> survives st' e \/ replaced a k e \/ removed i a k e).
Proof.
  intros Hc Hr Ht Hp. unfold Replay.apply. destruct (rename i) as [r|] eqn:Er; [|destruct (is_deletion (mutation i)) eqn:Ed]; intros Ha.
  - destruct (apply_rename_safe _ _ _ _ _ _ _ _ Hc Hr Ht Er Hp Ha) as [C S]. split; [done|]. intros k e He. left. by eapply S.
  - destruct (apply_delete_safe _ _ _ _ _ _ _ Hc Hr Ht Ed Ha) as [C S]. split; [done|]. intros k e He. destruct (S k e He); tauto.
  - destruct (apply_leaf_safe _ _ _ _ _ _ _ Hc Ha) as [C S]. split; [done|]. intros k e He. destruct (S k e He); tauto.
Qed.

(** Intents replayed one after the other, each on a namespace whose directories are all known,
    naming objects the replay still sees and writing to one place per object. *)
Inductive replaying (plan : bytes) (commits : gmap N ReconciliationCommit) : ReplayState -> list (BranchMutationIntent * NamespaceReplayAction) -> ReplayState -> Prop :=
| replaying_nil st : replaying plan commits st [] st
| replaying_cons st st1 st2 commit i a run :
    Replay.apply plan commit i commits st = Ok (st1, a) -> validate_intent commit i = Ok tt ->
    rooted st -> tracked st i -> single_target st a -> replaying plan commits st1 run st2 -> replaying plan commits st ((i, a) :: run) st2.

Lemma validated_path commit i : validate_intent commit i = Ok tt -> components (path i) <> [].
Proof.
  unfold validate_intent. destruct (payload commit); try done. destruct (_ || _ || _ || _) eqn:E; [done|]. intros _ Hn. rewrite !orb_false_iff in E.
  destruct E as [_ Ef%negb_false_iff]. unfold lineage_fits in Ef. apply bool_decide_eq_true in Ef. apply checked_add_Some in Ef as [Ef _]. rewrite Hn in Ef. unfold len in Ef. cbn in Ef. lia.
Qed.

Lemma replaying_safe plan commits st run st' :
  replaying plan commits st run st' -> consistent st ->
  consistent st' /\ forall k e, state_entries st !! k = Some e -> survives st' e \/
    exists i a k' e', (i, a) ∈ run /\ carried e e' /\ (replaced a k' e' \/ removed i a k' e').
Proof.
  induction 1 as [st|st st1 st2 commit i a run Ha Hv Hr Ht Hs _ IH]; intros Hc; [split; [done|]; intros k e He; left; by exists k, e|].
  destruct (apply_safe _ _ _ _ _ _ _ Hc Hr Ht (validated_path _ _ Hv) Ha) as [C S]. destruct (IH (C Hs)) as [C2 S2]. split; [done|]. intros k e He.
  destruct (S k e He) as [(k1 & e1 & He1 & Hc1)|Hend]; [|right; exists i, a, k, e; split_and!; [by left|reflexivity|done]].
  destruct (S2 k1 e1 He1) as [(k2 & e2 & He2 & Hc2)|(i2 & a2 & k2 & e2 & Hin & Hc2 & Hend)].
  - left. exists k2, e2. split; [done|by etrans].
  - right. exists i2, a2, k2, e2. split_and!; [by right|by etrans|done].
Qed.


(** ** Writes are visible *)

Lemma select_leaf_Already plan commit i st e :
  consistent st -> select_leaf plan commit i st = Ok (Already e) ->
  state_entries st !! path_key (entry_path e) = Some e /\ entry_object e = intent_object_id i /\ entry_revision e = intent_object_revision_id i /\
  entry_kind e = mutation_kind (mutation i).
Proof.
  intros Hc. unfold select_leaf. intros Hs. apply result_bind_Ok in Hs as (expected & _ & Hs). cbv zeta in Hs. revert Hs.
  set (pt := r ← prior_object_revision_id i; revisions st !! r). set (selected := match pt with Some t => _ | None => _ end).
  destruct (state_entries st !! path_key selected) as [x|] eqn:Ex.
  - destruct (_ && _ && _) eqn:Eb; intros Hs; [|apply result_bind_Ok in Hs as ([[[? ?] ?] ?] & _ & Hs); by apply result_bind_Ok in Hs as ([? ?] & _ & Hs)].
    cbn in Hs. injection Hs as ->. bool_cases. split_and!; try done. by rewrite (consistent_path _ Hc _ _ Ex).
  - intros Hs. apply result_bind_Ok in Hs as ([[[? ?] ?] ?] & _ & Hs). by apply result_bind_Ok in Hs as ([? ?] & _ & Hs).
Qed.

Lemma select_leaf_content plan commit i st p o r prior v pub inc d :
  select_leaf plan commit i st = Ok (Change p o r prior v pub inc d) ->
  replay_leaf_content_identity plan commit (mutation i) (intent_object_id i) o = Ok (v, pub) /\ (d = Applied \/ d = Recovered).
Proof.
  unfold select_leaf. intros Hs. apply result_bind_Ok in Hs as (expected & _ & Hs). cbv zeta in Hs.
  destruct (match state_entries st !! _ with Some e => _ | None => false end); [by apply result_bind_Ok in Hs as (? & _ & ?)|].
  apply result_bind_Ok in Hs as ([[[p0 o0] r0] d0] & Hp & Hs). apply result_bind_Ok in Hs as ([v0 pub0] & Hv & Hs). injection Hs as -> -> -> <- -> -> <- ->. split; [done|].
  destruct (direct_application _ _ _ _).
  - apply result_bind_Ok in Hp as (r1 & _ & Hp). injection Hp as _ _ _ <-. destruct (redirected _ _); auto.
  - unfold recovered_target in Hp. apply result_bind_Ok in Hp as (q & _ & Hp). apply result_bind_Ok in Hp as (o1 & _ & Hp). apply result_bind_Ok in Hp as (r1 & _ & Hp). injection Hp as _ _ _ <-. auto.
Qed.

(** A replayed write is visible afterwards: the entry at the target path has the object,
    revision and kind of the action.  Unless it was recovered under another identity, these are
    the object and the revision the branch acknowledged; and a file shows the version it wrote,
    or the copy derived from it. *)
Theorem replayed_write_visible plan commit i commits st st' a :
  consistent st -> rename i = None -> is_deletion (mutation i) = false -> Replay.apply plan commit i commits st = Ok (st', a) ->
  (exists e, state_entries st' !! path_key (target_path a) = Some e /\ entry_object e = target_object_id a /\
     entry_revision e = target_object_revision_id a /\ entry_kind e = mutation_kind (mutation i)) /\
  (disposition a = Recovered \/ (target_object_id a = intent_object_id i /\ target_object_revision_id a = intent_object_revision_id i)) /\
  (forall v, mutation i = FileVersion v -> target_file_version_id a = Some v \/
     exists w, derived_file_version plan (commit_id commit) v = Ok w /\ target_file_version_id a = Some w).
Proof.
  intros Hc Hren Hdel. unfold Replay.apply. rewrite Hren, Hdel. unfold apply_leaf. intros Ha. apply result_bind_Ok in Ha as (sel & Hs & Ha). destruct sel as [cur|p o r prior v pub inc d].
  - apply select_leaf_Already in Hs as (He & Eo & Er & Ek); [|done]. injection Ha as <- <-. cbn. split_and!; [by exists cur|by right|intros v ->; by left].
  - pose proof (select_leaf_content _ _ _ _ _ _ _ _ _ _ _ _ Hs) as [Hv Hd]. apply select_leaf_Change in Hs as (_ & _ & Happ).
    apply result_bind_Ok in Ha as ([st1 ts] & _ & Ha). apply result_bind_Ok in Ha as (st2 & _ & Ha). cbv zeta in Ha. injection Ha as <- <-. cbn. split_and!.
    + destruct (mutation_kind _); eexists; (split; [apply lookup_insert_eq|done]).
    + destruct Hd as [->| ->]; [right; by apply Happ|by left].
    + intros w Hw. rewrite Hw in Hv. cbn in Hv. destruct (o =? _); [left; by injection Hv as <- _|right]. apply result_bind_Ok in Hv as (u & Hu & Hv).
      apply result_bind_Ok in Hv as (op & _ & Hv). injection Hv as <- _. by exists u.
Qed.

End replay.
