(* ===== verification/ReplayOrder.v ===== *)
(** The replay as a whole: one action per admitted mutation, in the order of the plan, and the
    same result whatever the order of its inputs. *)

From Stdlib Require Import String.
From S2P Require Import Prelude Ids Contracts Name Directory Reconcile Intent Replay ReplayPlan ReplayFacts ReconcileFacts ReconcilePlan.
From stdpp Require Import prelude gmap sorting list.
#[local] Open Scope N_scope.

(** ** Loops whose turns commute *)

Lemma try_fold_perm {E A B} (f : A -> B -> result E A) l k a :
  (forall a x y, (b ← f a x; f b y) = (b ← f a y; f b x)) -> l ≡ₚ k -> try_fold f a l = try_fold f a k.
Proof.
  intros Hf Hp. revert a. induction Hp as [|x l k _ IH|x y l|l1 l2 l3 _ IH1 _ IH2]; intros a; [done| | |by rewrite IH1].
  - cbn [try_fold]. destruct (f a x); cbn; [apply IH|done].
  - cbn [try_fold]. specialize (Hf a x y). destruct (f a x) as [b|e], (f a y) as [c|d]; cbn in *; [by rewrite Hf|by rewrite Hf|by rewrite <- Hf|congruence].
Qed.

(** Turns that insert or refuse, where an insertion refuses exactly the items it clashes with. *)
Section inserting.
Context {E A B : Type} (e : E) (bad : A -> B -> bool) (ins : A -> B -> A) (clash : B -> B -> bool).
Hypothesis bad_ins : forall s x y, bad (ins s x) y = bad s y || clash x y.
Hypothesis clash_sym : forall x y, clash x y = clash y x.
Hypothesis ins_comm : forall s x y, clash x y = false -> ins (ins s x) y = ins (ins s y) x.

Lemma inserting_perm l k s : l ≡ₚ k -> try_fold (fun s x => if bad s x then Err e else Ok (ins s x)) s l = try_fold (fun s x => if bad s x then Err e else Ok (ins s x)) s k.
Proof.
  apply try_fold_perm. intros a x y. destruct (bad a x) eqn:Ex, (bad a y) eqn:Ey; cbn; rewrite ?bad_ins, ?Ex, ?Ey; cbn; [done..|].
  rewrite (clash_sym y x). destruct (clash x y) eqn:Ec; [done|]. by rewrite ins_comm.
Qed.

End inserting.

Lemma bool_decide_insert_is_Some `{Countable K} {V} (m : gmap K V) i j x :
  bool_decide (is_Some (<[i := x]> m !! j)) = bool_decide (is_Some (m !! j)) || bool_decide (i = j).
Proof.
  destruct (decide (i = j)) as [->|Hne].
  - rewrite lookup_insert_eq, (bool_decide_eq_true_2 (j = j)), orb_true_r by done. by apply bool_decide_eq_true_2.
  - by rewrite lookup_insert_ne, (bool_decide_eq_false_2 (i = j)), orb_false_r.
Qed.

Lemma bool_decide_sym {A} `{EqDecision A} (x y : A) : bool_decide (x = y) = bool_decide (y = x).
Proof. apply bool_decide_ext. split; congruence. Qed.

Lemma index_replayed_perm cs cs' : cs ≡ₚ cs' -> index_replayed cs = index_replayed cs'.
Proof.
  apply (inserting_perm _ (fun m c => bool_decide (is_Some (m !! commit_id c))) (fun m c => <[commit_id c := c]> m) (fun c d => bool_decide (commit_id c = commit_id d))).
  - intros m c d. apply bool_decide_insert_is_Some.
  - intros c d. apply bool_decide_sym.
  - intros m c d Hne%bool_decide_eq_false. by apply insert_insert_ne.
Qed.

Lemma index_intents_perm p m ints ints' : ints ≡ₚ ints' -> index_intents p m ints = index_intents p m ints'.
Proof.
  intros Hp. unfold index_intents. rewrite (len_perm _ _ Hp). destruct (negb _); [done|]. revert Hp.
  apply (inserting_perm _ (fun m i => bool_decide (intent_commit_id i ∉ _) || bool_decide (is_Some (m !! intent_commit_id i)))
    (fun m i => <[intent_commit_id i := i]> m) (fun i j => bool_decide (intent_commit_id i = intent_commit_id j))).
  - intros s i j. by rewrite bool_decide_insert_is_Some, orb_assoc.
  - intros i j. apply bool_decide_sym.
  - intros s i j Hne%bool_decide_eq_false. by apply insert_insert_ne.
Qed.

(** Two entries of a base that cannot stand together. *)
Definition base_clash (x y : NamespaceReplayEntry) : bool :=
  bool_decide (path_key (base_path x) = path_key (base_path y)) || bool_decide (base_object_revision_id x = base_object_revision_id y)
  || bool_decide (base_object_id x = base_object_id y).

Definition base_refused (st : ReplayState) (b : NamespaceReplayEntry) : bool :=
  base_entry_invalid b || (occupied st (base_path b) || bool_decide (is_Some (revisions st !! base_object_revision_id b)) || bool_decide (is_Some (objects st !! base_object_id b))).
Definition base_loaded (st : ReplayState) (b : NamespaceReplayEntry) : ReplayState :=
  set_object (base_object_id b) (effective b) (set_revision (base_object_revision_id b) (effective b) (set_entry (path_key (base_path b)) (effective b) st)).

Lemma load_entry_eq st b : load_entry st b = if base_refused st b then Err (Rejected InvalidInput) else Ok (base_loaded st b).
Proof. unfold load_entry, base_refused. by destruct (base_entry_invalid b). Qed.

Lemma base_refused_loaded st x y : base_refused (base_loaded st x) y = base_refused st y || base_clash x y.
Proof.
  unfold base_refused, base_loaded, occupied, base_clash. cbn. rewrite !bool_decide_insert_is_Some.
  generalize (bool_decide (is_Some (state_entries st !! path_key (base_path y)))), (bool_decide (is_Some (revisions st !! base_object_revision_id y))),
    (bool_decide (is_Some (objects st !! base_object_id y))), (base_entry_invalid y).
  intros [] [] [] []; cbn; rewrite ?orb_true_r, ?orb_false_r; try done; repeat case_bool_decide; done.
Qed.

Lemma from_base_perm root es es' :
  es ≡ₚ es' -> from_base {| base_root_object_revision_id := root; base_entries := es |} = from_base {| base_root_object_revision_id := root; base_entries := es' |}.
Proof.
  unfold from_base. cbn. generalize ({| state_entries := ∅; objects := ∅; revisions := ∅; current_root := root |}). intros st Hp.
  assert (forall l, try_fold load_entry st l = try_fold (fun s x => if base_refused s x then Err (Rejected InvalidInput) else Ok (base_loaded s x)) st l) as Heq.
  { clear. intros l. revert st. induction l as [|x l IH]; intros st; [done|]. cbn [try_fold]. rewrite load_entry_eq. destruct (base_refused st x); [done|]. cbn. apply IH. }
  rewrite !Heq. revert Hp. apply (inserting_perm _ base_refused base_loaded base_clash).
  - apply base_refused_loaded.
  - intros x y. unfold base_clash. by rewrite (bool_decide_sym (path_key _)), (bool_decide_sym (base_object_revision_id x)), (bool_decide_sym (base_object_id x)).
  - intros s x y Hc. unfold base_clash in Hc. rewrite !orb_false_iff in Hc. destruct Hc as [[H1%bool_decide_eq_false H2%bool_decide_eq_false] H3%bool_decide_eq_false].
    unfold base_loaded, set_object, set_revision, set_entry. cbn. f_equal; by apply insert_insert_ne.
Qed.

(** ** The order of keys *)

Lemma key_leb_total a b : key_leb a b = true \/ key_leb b a = true.
Proof.
  revert b. induction a as [|x a IH]; intros [|y b]; cbn; auto. rewrite (bool_decide_sym (as_bytes y)).
  destruct (bool_decide (as_bytes x = as_bytes y)); [apply IH|]. destruct (total bytes_le (as_bytes x) (as_bytes y)); [left|right]; by apply bool_decide_eq_true_2.
Qed.

Lemma key_leb_trans a b c : key_leb a b = true -> key_leb b c = true -> key_leb a c = true.
Proof.
  revert b c. induction a as [|x a IH]; intros [|y b] [|z c]; cbn; try done.
  destruct (decide (as_bytes x = as_bytes y)) as [E1|N1]; [rewrite (bool_decide_eq_true_2 _ E1)|rewrite (bool_decide_eq_false_2 _ N1)];
    (destruct (decide (as_bytes y = as_bytes z)) as [E2|N2]; [rewrite (bool_decide_eq_true_2 _ E2)|rewrite (bool_decide_eq_false_2 _ N2)]); intros Hab Hbc.
  - rewrite bool_decide_eq_true_2 by congruence. by eapply IH.
  - rewrite bool_decide_eq_false_2 by congruence. apply bool_decide_eq_true in Hbc. apply bool_decide_eq_true_2. unfold str_le in *. by rewrite E1.
  - rewrite bool_decide_eq_false_2 by congruence. apply bool_decide_eq_true in Hab. apply bool_decide_eq_true_2. unfold str_le in *. by rewrite <- E2.
  - apply bool_decide_eq_true in Hab, Hbc. unfold str_le in Hab, Hbc. rewrite bool_decide_eq_false_2; [apply bool_decide_eq_true_2; unfold str_le; by etrans|].
    intros E. rewrite <- E in Hbc. by apply N1, (anti_symm bytes_le).
Qed.

Lemma key_leb_antisym a b : Forall text a -> Forall text b -> key_leb a b = true -> key_leb b a = true -> a = b.
Proof.
  intros Ha. revert b. induction Ha as [|x a Hx _ IH]; intros b Hb; destruct Hb as [|y b Hy Hb]; cbn; try done. rewrite (bool_decide_sym (as_bytes y)).
  destruct (decide (as_bytes x = as_bytes y)) as [E|N]; [rewrite (bool_decide_eq_true_2 _ E)|rewrite (bool_decide_eq_false_2 _ N)].
  - intros Hab Hba. f_equal; [by apply as_bytes_inj|by apply IH].
  - intros Hab%bool_decide_eq_true Hba%bool_decide_eq_true. exfalso. by apply N, (anti_symm bytes_le).
Qed.

#[export] Instance base_order_total : Total base_order.
Proof. intros x y. unfold base_order. apply key_leb_total. Qed.
#[export] Instance base_order_trans : Transitive base_order.
Proof. intros x y z. unfold base_order. apply key_leb_trans. Qed.

(** The names of a base are texts. *)
Definition base_text (es : list NamespaceReplayEntry) : Prop := Forall (fun b => Forall text (path_key (base_path b))) es.

Lemma from_base_distinct root es st :
  from_base {| base_root_object_revision_id := root; base_entries := es |} = Ok st -> NoDup (map (fun b => path_key (base_path b)) es).
Proof.
  unfold from_base. cbn. generalize ({| state_entries := ∅; objects := ∅; revisions := ∅; current_root := root |}). intros st0 Hf.
  assert (NoDup (map (fun b => path_key (base_path b)) es) /\ Forall (fun b => state_entries st0 !! path_key (base_path b) = None) es) as [? _]; [|done].
  revert st0 Hf. induction es as [|x l IH]; intros s Hf; cbn [try_fold map] in *; [split; constructor|].
  apply result_bind_Ok in Hf as (s1 & H1 & H2). rewrite load_entry_eq in H1. unfold base_refused in H1. destruct (base_entry_invalid x); [done|]. cbn in H1.
  destruct (occupied s (base_path x)) eqn:Eo; [done|]. destruct (_ || _) in H1; [done|]. injection H1 as <-. apply occupied_false in Eo.
  destruct (IH _ H2) as [Hnd Hall]. unfold base_loaded in Hall. cbn in Hall. rewrite Forall_forall in Hall. split.
  - apply NoDup_cons. split; [|done]. intros (b & E & Hb)%list_elem_of_fmap. specialize (Hall b Hb). cbv beta in Hall. rewrite <- E, lookup_insert_eq in Hall. done.
  - constructor; [done|]. apply Forall_forall. intros b Hb. specialize (Hall b Hb). cbv beta in Hall. by apply lookup_insert_None in Hall as [? _].
Qed.

Lemma sorted_base_perm es es' : es ≡ₚ es' -> base_text es -> NoDup (map (fun b => path_key (base_path b)) es) -> merge_sort base_order es = merge_sort base_order es'.
Proof.
  intros Hp Ht Hnd. apply (StronglySorted_unique_strong base_order); [|apply (StronglySorted_merge_sort base_order)..|by rewrite !merge_sort_Permutation].
  intros x y. rewrite !merge_sort_Permutation, <- Hp. intros Hx Hy Hxy Hyx. unfold base_text in Ht. rewrite Forall_forall in Ht.
  assert (path_key (base_path x) = path_key (base_path y)) as E by (apply key_leb_antisym; auto).
  apply list_elem_of_lookup in Hx as [i Hi], Hy as [j Hj]. assert (i = j) as ->; [|congruence].
  eapply NoDup_lookup; [exact Hnd|rewrite list_lookup_fmap, Hi; reflexivity|]. rewrite list_lookup_fmap, Hj. cbn. by rewrite E.
Qed.

Lemma from_base_root base st : from_base base = Ok st -> current_root st = base_root_object_revision_id base.
Proof.
  unfold from_base. assert (forall l s, try_fold load_entry s l = Ok st -> current_root st = current_root s) as Hgo; [|intros Hf; by rewrite (Hgo _ _ Hf)].
  induction l as [|x l IH]; intros s Hf; cbn [try_fold] in Hf; [by injection Hf as <-|]. apply result_bind_Ok in Hf as (s1 & H1 & H2). rewrite (IH _ H2).
  rewrite load_entry_eq in H1. destruct (base_refused s x); [done|]. by injection H1 as <-.
Qed.

Section replay.
Context `{Blake3} `{Unicode}.

Lemma validates_commits_perm p cs cs' : cs ≡ₚ cs' -> validates_commits p cs = validates_commits p cs'.
Proof.
  intros Hp. unfold validates_commits. rewrite (len_perm _ _ Hp). f_equal. apply eq_bool_prop_intro. rewrite !Is_true_true, !forallb_forall.
  split; intros Hc c Hin%list_elem_of_In; apply Hc, list_elem_of_In; [by rewrite Hp|by rewrite <- Hp].
Qed.

(** The replay does not depend on delivery order: permuting the commits, the intents and
    the entries of the base changes neither the actions nor the final root nor the digest, nor
    the reason of a refusal. *)
Theorem replay_order_independent p cs cs' ints ints' root es es' quarantined :
  cs ≡ₚ cs' -> ints ≡ₚ ints' -> es ≡ₚ es' -> base_text es ->
  plan_namespace_replay_with_quarantine p cs ints {| base_root_object_revision_id := root; base_entries := es |} quarantined =
  plan_namespace_replay_with_quarantine p cs' ints' {| base_root_object_revision_id := root; base_entries := es' |} quarantined.
Proof.
  intros Hc Hi He Ht. unfold plan_namespace_replay_with_quarantine. rewrite (validates_commits_perm p cs cs' Hc), (index_replayed_perm cs cs' Hc).
  destruct (negb _); [done|]. destruct (index_replayed cs') as [m|]; cbn [mbind result_bind]; [|done]. rewrite (index_intents_perm p m ints ints' Hi).
  destruct (index_intents p m ints') as [im|]; cbn [mbind result_bind]; [|done]. destruct (existsb _ _); [done|].
  destruct (from_base {| base_root_object_revision_id := root; base_entries := es |}) as [st|] eqn:Eb; rewrite (from_base_perm root es es' He) in Eb; rewrite Eb; cbn [mbind result_bind]; [|done].
  destruct (try_fold _ _ _) as [[final acts]|]; cbn [mbind result_bind]; [|done]. f_equal. f_equal. unfold replay_digest. cbn.
  rewrite (len_perm _ _ He), (sorted_base_perm es es' He Ht); [done|]. rewrite <- (from_base_perm root es es' He) in Eb. by eapply from_base_distinct.
Qed.

(** ** Actions *)

Lemma relocate_descendants_root source target k st st' : relocate_descendants source target k st = Ok st' -> current_root st' = current_root st.
Proof.
  unfold relocate_descendants. destruct k; [|intros Hr; by injection Hr as <-]. generalize (merge_sort key_order (filter (fun x => strictly_below (path_key source) x.1 = true) (map_to_list (state_entries st)))).
  intros l. revert st. induction l as [|[key e] l IH]; intros st; cbn [try_fold]; intros Hf; [by injection Hf as <-|].
  apply result_bind_Ok in Hf as (s1 & H1 & H2). rewrite (IH _ H2). unfold relocate in H1. apply result_bind_Ok in H1 as (? & _ & H1). apply result_bind_Ok in H1 as (? & _ & H1). by injection H1 as <-.
Qed.

Ltac bind_Ok := repeat match goal with
  | H : (_ ≫= _) = Ok _ |- _ => let x := fresh "x" in apply result_bind_Ok in H as (x & ? & H); lazymatch type of x with prod _ _ => destruct x as [? ?] | _ => idtac end; cbv zeta in H
  | H : (if ?b then _ else _) = Ok _ |- _ => destruct b; try discriminate H
  | H : Ok _ = Ok _ |- _ => injection H as <- <-
  end.

(** An action belongs to its commit and names the root the state has after it. *)
Lemma apply_action plan commit i commits st st' a :
  Replay.apply plan commit i commits st = Ok (st', a) -> action_commit_id a = commit_id commit /\ target_root_object_revision_id a = current_root st'.
Proof.
  unfold Replay.apply. destruct (rename i) as [r|]; [|destruct (is_deletion (mutation i))]; intros Ha.
  - unfold apply_rename, apply_competing_rename, complete_direct in Ha. bind_Ok; try done.
    { destruct (mutation i); try done. bind_Ok. done. }
    all: cbn; split; [done|]; match goal with Hx : relocate_descendants _ _ _ _ = Ok _ |- _ => apply relocate_descendants_root in Hx; by rewrite Hx end.
  - unfold apply_delete, remove_exact_delete, recover_changed_directory in Ha. bind_Ok. destruct (intent_selected st i); bind_Ok; try done.
    all: cbn; split; [done|]; match goal with Hx : relocate_descendants _ _ _ _ = Ok _ |- _ => apply relocate_descendants_root in Hx; by rewrite Hx end.
  - unfold apply_leaf in Ha. apply result_bind_Ok in Ha as (sel & _ & Ha). destruct sel; bind_Ok; [done|]. destruct (mutation_kind _); done.
Qed.

Lemma index_replayed_Ok cs m : index_replayed cs = Ok m -> m = indexed cs /\ NoDup (map commit_id cs).
Proof.
  unfold index_replayed. intros Hf. assert (m = indexed cs ∪ ∅ /\ NoDup (map commit_id cs) /\ Forall (fun c => (∅ : gmap N ReconciliationCommit) !! commit_id c = None) cs) as (-> & ? & _).
  2:{ by rewrite (right_id_L ∅ (∪)). }
  revert Hf. generalize (∅ : gmap N ReconciliationCommit). induction cs as [|c cs IH]; intros m0 Hf; cbn [try_fold map] in *.
  { injection Hf as <-. split_and!; [unfold indexed; cbn; by rewrite (left_id_L ∅ (∪))|constructor|constructor]. }
  apply result_bind_Ok in Hf as (m1 & H1 & H2). destruct (bool_decide (is_Some (m0 !! commit_id c))) eqn:E; [done|]. injection H1 as <-. apply bool_decide_eq_false, eq_None_not_Some in E.
  destruct (IH _ H2) as (-> & Hnd & Hall). rewrite Forall_forall in Hall.
  assert (commit_id c ∉ map commit_id cs) as Hni. { intros (d & Ed & Hd)%list_elem_of_fmap. specialize (Hall d Hd). cbv beta in Hall. rewrite <- Ed, lookup_insert_eq in Hall. done. }
  split_and!.
  - unfold indexed. cbn [map list_to_map foldr]. change (foldr _ ∅ (map _ cs)) with (indexed cs). rewrite <- insert_union_l, <- insert_union_r; [done|].
    apply (not_elem_of_dom (D := gset N)). change (list_to_map _) with (indexed cs). by rewrite indexed_dom, elem_of_list_to_set.
  - by apply NoDup_cons.
  - constructor; [done|]. apply Forall_forall. intros d Hd. specialize (Hall d Hd). cbv beta in Hall. by apply lookup_insert_None in Hall as [? _].
Qed.

Lemma index_intents_Ok p m ints im : index_intents p m ints = Ok im -> forall id i, im !! id = Some i -> i ∈ ints /\ intent_commit_id i = id.
Proof.
  unfold index_intents. destruct (negb _); [done|]. generalize (list_to_set (C := gset N) (filter (fun id => is_mutation m id = true) (ordered_commits p))). intros ordered Hf id i Hi.
  assert (forall m0, try_fold (index_intent ordered) m0 ints = Ok im -> m0 !! id = Some i \/ (i ∈ ints /\ intent_commit_id i = id)) as Hgo; [|destruct (Hgo ∅ Hf) as [Hx|?]; [by apply lookup_empty_Some in Hx|done]].
  clear Hf. revert ints. induction ints as [|x l IH]; intros m0 Hf; cbn [try_fold] in Hf; [left; by injection Hf as <-|]. apply result_bind_Ok in Hf as (m1 & H1 & H2).
  unfold index_intent in H1. destruct (_ || _); [done|]. injection H1 as <-. destruct (IH _ H2) as [[[<- <-]|[_ Hx]]%lookup_insert_Some|[Hx E]]; [right; split; [by left|done]|by left|right; split; [by right|done]].
Qed.

(** What a replayed commit contributes. *)
Definition admitted (cs : list ReconciliationCommit) (quarantined : gset N) (id : N) : Prop := is_mutation (indexed cs) id = true /\ id ∉ quarantined.
#[export] Instance admitted_dec cs q id : Decision (admitted cs q id).
Proof. unfold admitted. apply _. Defined.

(** The action of a commit replays the intent whose digest the commit carries. *)
Definition faithful (cs : list ReconciliationCommit) (ints : list BranchMutationIntent) (a : NamespaceReplayAction) : Prop :=
  exists c i, c ∈ cs /\ i ∈ ints /\ commit_id c = action_commit_id a /\ intent_commit_id i = action_commit_id a /\ payload c = Mutation (intent_digest_of i).

Lemma replay_fold plan cs ints im q base0 ids st acts st' acts' :
  (forall id i, im !! id = Some i -> i ∈ ints /\ intent_commit_id i = id) ->
  current_root st = match last acts with Some a => target_root_object_revision_id a | None => base0 end -> Forall (faithful cs ints) acts ->
  try_fold (replay_commit plan (indexed cs) im q) (st, acts) ids = Ok (st', acts') ->
  map action_commit_id acts' = map action_commit_id acts ++ filter (admitted cs q) ids /\
  current_root st' = match last acts' with Some a => target_root_object_revision_id a | None => base0 end /\ Forall (faithful cs ints) acts'.
Proof.
  intros Him. revert st acts. induction ids as [|id ids IH]; intros st acts Hr Hfa Hf; cbn [try_fold] in Hf; [injection Hf as <- <-; by rewrite app_nil_r|].
  apply result_bind_Ok in Hf as ([st1 acts1] & H1 & H2). unfold replay_commit in H1. apply result_bind_Ok in H1 as (c & Hc%some_or_Ok & H1). rewrite filter_cons.
  assert (is_mutation (indexed cs) id = match payload c with Mutation _ => true | _ => false end) as Hm by (unfold is_mutation; by rewrite Hc).
  destruct (payload c) as [dg| |] eqn:Ep; [|injection H1 as <- <-; rewrite decide_False by (intros [? _]; congruence); by apply IH with st..].
  apply result_bind_Ok in H1 as (i & Hi%some_or_Ok & H1). apply result_bind_Ok in H1 as (u & Hv & H1). case_bool_decide as Hq.
  { injection H1 as <- <-. rewrite decide_False by (intros [_ ?]; done). by apply IH with st. }
  apply result_bind_Ok in H1 as ([st2 a] & Ha & H1). injection H1 as <- <-. rewrite decide_True by done.
  apply apply_action in Ha as [Eid Er]. apply lookup_indexed_Some in Hc as [Hc Ec]. destruct (Him _ _ Hi) as [Hin Ei].
  destruct (IH st2 (acts ++ [a])) as (I1 & I2 & I3); [by rewrite last_snoc| |done|].
  - apply Forall_app. split; [done|]. apply Forall_singleton. exists c, i. split_and!; [done|done|congruence|congruence|]. rewrite Ep. f_equal.
    unfold validate_intent in Hv. rewrite Ep in Hv. destruct (bool_decide (intent_digest_of i = dg)) eqn:Ed; [symmetry; by apply bool_decide_eq_true in Ed|].
    cbn in Hv. by rewrite orb_true_r in Hv.
  - split_and!; [|done|done]. rewrite I1, map_app, <- app_assoc. cbn. by rewrite Eid, Ec.
Qed.


End replay.
