(* ===== verification/ReplaySample.v ===== *)
(** Concrete branches, in the manner of reconciliation/replay_tests.rs, that the theorems on
    reconciliation are applied to. *)

From Stdlib Require Import String.
From S2P Require Import Prelude Ids Contracts Name Directory Reconcile ReconcileFacts ReconcilePlan.
From S2P Require Import Intent Replay ReplayPlan ReplayFacts ReplaySafe ReplayOrder DirectorySample.
From stdpp Require Import prelude gmap sorting list relations.
Import SampleDirectory.
#[local] Open Scope N_scope.

Module SampleReplay.

Definition at_path (names : list string) : NamespacePath :=
  match from_components (map ascii_bytes names) PORTABLE with Ok p => p | Err _ => {| components := []; display_bytes := 0; canonical_bytes := 0 |} end.

(** A commit of the volume 90 with root object 91; the operation is the request. *)
Definition commit (id branch : N) (ps : list N) (operation root : N) (p : ReconciliationCommitPayload) : ReconciliationCommit :=
  {| commit_id := id; branch_id := branch; volume_id := 90; root_object_id := 91; root_object_revision_id := root; parents := ps;
     operation_id := operation; request_digest := replicate 32 operation; payload := p |}.
Definition bound (id branch : N) (ps : list N) (operation root : N) (i : BranchMutationIntent) : ReconciliationCommit :=
  commit id branch ps operation root (Mutation (intent_digest_of i)).

Definition step (object expected next : N) : DirectoryRevisionTransition := {| transition_object := object; expected_revision := expected; new_revision := next |}.
Definition intent (id : N) (p : list string) (lineage : list DirectoryRevisionTransition) (object revision : N) (prior : option N) (m : BranchMutation)
    (r : option BranchRenameIntent) : BranchMutationIntent :=
  {| intent_commit_id := id; path := at_path p; ancestors := lineage; intent_object_id := object; intent_object_revision_id := revision;
     prior_object_revision_id := prior; entry_generation := 1; mutation := m; rename := r |}.
Definition moved_from (p : list string) (lineage : list DirectoryRevisionTransition) (root : N) : BranchRenameIntent :=
  {| source_path := at_path p; source_ancestors := lineage; source_entry_generation := 1; intermediate_root_object_revision_id := root |}.

Definition base_file (p : list string) (object revision : N) : NamespaceReplayEntry :=
  {| base_path := at_path p; base_object_id := object; base_object_revision_id := revision; base_kind := File;
     base_file_version_id := Some revision; base_directory_is_empty := None; base_entry_generation := 1 |}.
Definition base_directory (p : list string) (object revision : N) (empty : bool) : NamespaceReplayEntry :=
  {| base_path := at_path p; base_object_id := object; base_object_revision_id := revision; base_kind := Directory;
     base_file_version_id := None; base_directory_is_empty := Some empty; base_entry_generation := 1 |}.

(** The replay of a page on a base whose root has revision 10. *)
Definition replayed (cs : list ReconciliationCommit) (heads : list N) (ints : list BranchMutationIntent) (base : list NamespaceReplayEntry) : Replayed NamespaceReplayPlan :=
  p ← checked (plan_reconciliation cs {| converged_head := Some 1; eligible_heads := heads |} DEFAULT_LIMITS);
  plan_namespace_replay p cs ints {| base_root_object_revision_id := Some 10; base_entries := base |}.
Definition start : ReconciliationCommit := commit 1 1 [] 1 10 (Mutation (replicate 32 0)).

(** ** A file is edited on one branch and renamed on another *)

Definition edit : BranchMutationIntent := intent 2 ["source"%string] [] 51 62 (Some 61) (FileVersion 62) None.
Definition renaming : BranchMutationIntent := intent 3 ["destination"%string] [] 51 61 None (FileVersion 61) (Some (moved_from ["source"%string] [] 29)).
Definition page : list ReconciliationCommit := [start; bound 2 2 [1] 2 20 edit; bound 3 3 [1] 3 30 renaming].
Definition frontier : ReconciliationFrontier := {| converged_head := Some 1; eligible_heads := [2; 3] |}.
Definition page_base : NamespaceReplayBase := {| base_root_object_revision_id := Some 10; base_entries := [base_file ["source"%string] 51 61] |}.

Definition get {A} (r : Checked A) (d : A) : A := match r with Ok a => a | Err _ => d end.
Definition no_plan : ReconciliationPlan :=
  {| plan_converged_head := None; converged_branch_id := None; plan_volume_id := 0; plan_root_object_id := 0; ordered_commits := []; merge_parents := [];
     commit_headers := ∅; plan_digest_of := [] |}.
Definition page_plan : ReconciliationPlan := get (plan_reconciliation page frontier DEFAULT_LIMITS) no_plan.

Lemma page_planned : plan_reconciliation page frontier DEFAULT_LIMITS = Ok page_plan.
Proof. vm_compute. reflexivity. Qed.

Lemma reconciliation_plan_causal_witness :
  plan_reconciliation page frontier DEFAULT_LIMITS = Ok page_plan /\ ordered_commits page_plan = [2; 3] /\
  (forall x, x ∈ ordered_commits page_plan <-> outstanding page frontier x).
Proof. split_and!; [apply page_planned|vm_compute; reflexivity|]. apply (reconciliation_plan_causal page frontier DEFAULT_LIMITS page_plan page_planned). Defined.

Lemma merge_parents_minimal_witness :
  merge_parents page_plan = [2; 3] /\ (forall a b, a ∈ merge_parents page_plan -> b ∈ merge_parents page_plan -> rtc (parent_of (indexed page)) a b -> a = b).
Proof. split; [vm_compute; reflexivity|]. apply (merge_parents_minimal page frontier DEFAULT_LIMITS page_plan page_planned). Defined.

Lemma reconciliation_order_independent_witness :
  plan_reconciliation page frontier DEFAULT_LIMITS =
  plan_reconciliation (rev page) {| converged_head := Some 1; eligible_heads := [3; 2] |} DEFAULT_LIMITS.
Proof.
  apply (reconciliation_order_independent page (rev page) frontier {| converged_head := Some 1; eligible_heads := [3; 2] |} DEFAULT_LIMITS);
    [apply Permutation_rev|reflexivity|apply (Permutation_rev [2; 3])].
Defined.

(** The merge of both branches. *)
Definition merge_commit : ReconciliationCommit := commit 9 1 [2; 3] 9 90 (Reconcile.Merge (replicate 32 0)).

Lemma merge_commit_merges : merges page DEFAULT_LIMITS (merge_parents page_plan) merge_commit.
Proof.
  assert (forall c, c ∈ page -> operation_id c <> 9 /\ volume_id c = 90 /\ root_object_id c = 91) as Hc
    by (intros c Hin; unfold page in Hin; repeat (apply elem_of_cons in Hin as [->|Hin]; [by split_and!|]); by apply not_elem_of_nil in Hin).
  split.
  - apply (bool_decide_unpack _). vm_compute. exact I.
  - intros c Hin. apply Hc, Hin.
  - intros c Hin. apply Hc, Hin.
  - vm_compute. reflexivity.
  - by eexists.
  - apply (bool_decide_unpack _). vm_compute. exact I.
  - apply (bool_decide_unpack _). vm_compute. exact I.
Qed.

Lemma reconciliation_converges_witness :
  exists p', plan_reconciliation (merge_commit :: page) {| converged_head := Some 9; eligible_heads := [2; 3] |} DEFAULT_LIMITS = Ok p' /\
    ordered_commits p' = [] /\ merge_parents p' = [9].
Proof. apply (reconciliation_converges page frontier DEFAULT_LIMITS page_plan merge_commit page_planned merge_commit_merges). Defined.

(** ** The two intents replayed *)

Lemma rooted_alt st :
  map_Forall (fun k _ => Forall (fun n => is_Some (state_entries st !! take n k)) (seq 1 (length k - 1))) (state_entries st) -> rooted st.
Proof.
  intros Hm k n [e He] Hn. specialize (Hm k e He). cbv beta in Hm. rewrite Forall_forall in Hm. apply Hm, elem_of_seq. lia.
Qed.

Lemma single_target_alt st a :
  map_Forall (fun k e => entry_object e = target_object_id a -> k = path_key (target_path a)) (state_entries st) -> single_target st a.
Proof. intros Hm _ _ k e He. by apply Hm. Qed.

Definition got {A} (r : Replayed A) (d : A) : A := match r with Ok a => a | Err _ => d end.
Definition blank : ReplayState := {| state_entries := ∅; objects := ∅; revisions := ∅; current_root := None |}.
Definition no_action : NamespaceReplayAction := already_applied start edit (at_path []) None.
Definition step_of (i : BranchMutationIntent) (c : ReconciliationCommit) (st : ReplayState) : ReplayState * NamespaceReplayAction :=
  got (Replay.apply (plan_digest_of page_plan) c i (indexed page) st) (blank, no_action).
Definition state0 : ReplayState := got (from_base page_base) blank.
Definition edit_step : ReplayState * NamespaceReplayAction := step_of edit (bound 2 2 [1] 2 20 edit) state0.
Definition rename_step : ReplayState * NamespaceReplayAction := step_of renaming (bound 3 3 [1] 3 30 renaming) edit_step.1.

Lemma page_replaying : replaying (plan_digest_of page_plan) (indexed page) state0 [(edit, edit_step.2); (renaming, rename_step.2)] rename_step.1.
Proof.
  apply replaying_cons with edit_step.1 (bound 2 2 [1] 2 20 edit); [vm_compute; reflexivity|vm_compute; reflexivity| | | |].
  - apply rooted_alt, (bool_decide_unpack _). vm_compute. exact I.
  - intros _ Hn. exfalso. revert Hn. apply (bool_decide_unpack (state0.(objects) !! _ <> None)). vm_compute. exact I.
  - apply single_target_alt, (bool_decide_unpack _). vm_compute. exact I.
  - apply replaying_cons with rename_step.1 (bound 3 3 [1] 3 30 renaming); [vm_compute; reflexivity|vm_compute; reflexivity| | | |constructor].
    + apply rooted_alt, (bool_decide_unpack _). vm_compute. exact I.
    + intros _ Hn. exfalso. revert Hn. apply (bool_decide_unpack (edit_step.1.(objects) !! _ <> None)). vm_compute. exact I.
    + intros Hn. vm_compute in Hn. discriminate Hn.
Qed.


Lemma state0_consistent : consistent state0.
Proof. apply (from_base_consistent page_base). vm_compute. reflexivity. Qed.

Lemma replayed_write_visible_witness :
  disposition edit_step.2 = Applied /\ exists e, state_entries edit_step.1 !! path_key (target_path edit_step.2) = Some e /\ entry_object e = target_object_id edit_step.2.
Proof.
  split; [vm_compute; reflexivity|].
  destruct (replayed_write_visible (plan_digest_of page_plan) (bound 2 2 [1] 2 20 edit) edit (indexed page) state0 edit_step.1 edit_step.2) as [(e & He & Eo & _) _];
    [apply state0_consistent|reflexivity|reflexivity|vm_compute; reflexivity|]. by exists e.
Defined.

Lemma replay_order_independent_witness :
  plan_namespace_replay_with_quarantine page_plan page [edit; renaming] page_base ∅ =
  plan_namespace_replay_with_quarantine page_plan (rev page) [renaming; edit] page_base ∅.
Proof.
  apply (replay_order_independent page_plan page (rev page) [edit; renaming] [renaming; edit] (Some 10) (base_entries page_base) (base_entries page_base) ∅);
    [apply Permutation_rev|apply (Permutation_rev [edit; renaming])|reflexivity|]. apply (bool_decide_unpack _). vm_compute. exact I.
Defined.

Definition no_replay : NamespaceReplayPlan := {| actions := []; plan_quarantined_commits := []; final_root_object_revision_id := None; replay_plan_digest := [] |}.
Definition page_replay : NamespaceReplayPlan := got (plan_namespace_replay_with_quarantine page_plan page [edit; renaming] page_base ∅) no_replay.


(** ** Pages that replay refuses or changes more than was asked *)

Definition docs (empty : bool) : NamespaceReplayEntry := base_directory ["docs"%string] 50 60 empty.
Definition report : NamespaceReplayEntry := base_file ["docs"; "x"]%string 51 61.

(** One branch moves a file out of its directory, another edits it. *)
Definition move_out : BranchMutationIntent := intent 2 ["x"%string] [] 51 61 None (FileVersion 61) (Some (moved_from ["docs"; "x"]%string [step 50 60 63] 29)).
Definition edit_inside : BranchMutationIntent := intent 3 ["docs"; "x"]%string [step 50 60 64] 51 62 (Some 61) (FileVersion 62) None.

(** Two branches delete the same file. *)
Definition erase (id : N) : BranchMutationIntent := intent id ["x"%string] [] 51 61 None (DeleteFile 61) None.
Definition recreate : BranchMutationIntent := intent 4 ["x"%string] [] 99 98 None (FileVersion 98) None.
Definition summary (r : Replayed NamespaceReplayPlan) : Replayed (list (NamespaceReplayEffect * NamespaceReplayDisposition * N)) :=
  p ← r; Ok (map (fun a => (effect a, disposition a, target_object_id a)) (actions p)).

(** One branch deletes the last file of a directory and then the directory. *)
Definition erase_report : BranchMutationIntent := intent 2 ["docs"; "x"]%string [step 50 60 70] 51 61 None (DeleteFile 61) None.
Definition erase_docs : BranchMutationIntent := intent 3 ["docs"%string] [] 50 70 None DeleteDirectory None.


(** An intent whose prior revision belongs to one of its own ancestors. *)
Definition crooked : BranchMutationIntent := intent 2 ["a"; "b"; "c"]%string [step 50 60 70; step 51 61 71] 52 72 (Some 60) CreateDirectory None.

(** A well-formed page whose intent names the revision of its own ancestor as prior makes
    the planner index a path beyond its end. *)
Theorem ancestor_as_prior_panics :
  replayed [start; bound 2 2 [1] 2 20 crooked] [2] [crooked] [base_directory ["a"%string] 50 60 false; base_directory ["a"; "b"]%string 51 61 true] = Err Panicked.
Proof. vm_compute. reflexivity. Qed.

End SampleReplay.
