(* ===== verification/BranchStore.v ===== *)
(** The tables of the branch database that hold a namespace, with the statements on them:
    meshspan-filesystem/src/publication.rs, namespace_publication/repository.rs and
    namespace_publication/digest.rs over the schema in meshspan-filesystem/schema/branch.

    A table is a map from its primary key; the columns are those the modelled statements read
    or write, identifiers and digests as the bytes stored.  A statement that breaks a
    constraint of the schema (a key, a uniqueness, a reference or a check) fails with
    [Sqlite]; what it would violate is written out.  A transaction is a computation from the
    database it found; its caller keeps the new database only when all of it succeeds. *)

From Stdlib Require Import String.
From S2P Require Import Prelude Ids Codec Contracts Name Directory Intent.
From stdpp Require Import prelude gmap list.
#[local] Open Scope N_scope.

Inductive PublicationError :=
| InvalidInput | StaleHead | OperationConflict | CleanupFenced | Corrupt | InjectedFault
| DirectoryFailure (error : DirectoryTrieError) | Io | Sqlite.
#[export] Instance PublicationError_eq_dec : EqDecision PublicationError.
Proof. solve_decision. Defined.

(** ** Rows *)

Record NodeRow := { format_version : Z; encoded_node : bytes; recorded_at : Z }.

Record RevisionRow := {
  row_volume : bytes;
  row_object : bytes;
  row_kind : Z;
  row_prior : option bytes;
  row_root : option bytes;
  row_version : option bytes;
  row_digest : bytes;
  row_created_by : bytes;
  row_created_at : Z
}.

Record CommitRow := {
  commit_branch : bytes;
  commit_volume : bytes;
  commit_root_object : bytes;
  commit_root_revision : bytes;
  commit_created_by : bytes;
  commit_operation : bytes;
  commit_created_at : Z;
  commit_digest : bytes
}.

Record HeadRow := { head_commit : bytes; head_sequence : Z }.
Record VersionRow := { version_volume : bytes; version_object : bytes; version_length : Z; version_content : bytes; version_manifest : bytes }.
Record ManifestRow := { manifest_length : Z; manifest_content : bytes }.

Record Database := {
  directory_nodes : gmap bytes NodeRow;
  object_revisions : gmap bytes RevisionRow;
  namespace_commits : gmap bytes CommitRow;
  namespace_commit_parents : gmap (bytes * Z) bytes;
  branch_namespace_heads : gmap (bytes * bytes) HeadRow;
  file_versions : gmap bytes VersionRow;
  content_manifests : gmap bytes ManifestRow
}.

Definition with_nodes (t : gmap bytes NodeRow) (db : Database) : Database :=
  {| directory_nodes := t; object_revisions := object_revisions db; namespace_commits := namespace_commits db;
     namespace_commit_parents := namespace_commit_parents db; branch_namespace_heads := branch_namespace_heads db;
     file_versions := file_versions db; content_manifests := content_manifests db |}.
Definition with_revisions (t : gmap bytes RevisionRow) (db : Database) : Database :=
  {| directory_nodes := directory_nodes db; object_revisions := t; namespace_commits := namespace_commits db;
     namespace_commit_parents := namespace_commit_parents db; branch_namespace_heads := branch_namespace_heads db;
     file_versions := file_versions db; content_manifests := content_manifests db |}.
Definition with_commits (t : gmap bytes CommitRow) (parents : gmap (bytes * Z) bytes) (db : Database) : Database :=
  {| directory_nodes := directory_nodes db; object_revisions := object_revisions db; namespace_commits := t;
     namespace_commit_parents := parents; branch_namespace_heads := branch_namespace_heads db;
     file_versions := file_versions db; content_manifests := content_manifests db |}.
Definition with_heads (t : gmap (bytes * bytes) HeadRow) (db : Database) : Database :=
  {| directory_nodes := directory_nodes db; object_revisions := object_revisions db; namespace_commits := namespace_commits db;
     namespace_commit_parents := namespace_commit_parents db; branch_namespace_heads := t;
     file_versions := file_versions db; content_manifests := content_manifests db |}.

Abbreviation Tx A := (SE Database PublicationError A).

(** ** Columns *)

Definition decode_identifier (b : bytes) : result PublicationError N :=
  if negb (len b =? 16) then Err Corrupt else map_err (fun _ => Corrupt) (Identifier.from_bytes b).
Definition copy_array (b : bytes) : result PublicationError bytes := if len b =? 32 then Ok b else Err Corrupt.
Definition optionally {A} (f : bytes -> result PublicationError A) (stored : option bytes) : result PublicationError (option A) :=
  match stored with None => Ok None | Some b => a ← f b; Ok (Some a) end.
Definition decode_optional : option bytes -> result PublicationError (option N) := optionally decode_identifier.

Definition to_i64 (n : N) : result PublicationError Z := if (Z.of_N n <=? i64_max)%Z then Ok (Z.of_N n) else Err InvalidInput.
Definition from_i64 (z : Z) : result PublicationError N := if (0 <=? z)%Z then Ok (Z.to_N z) else Err Corrupt.

Definition update_optional_digest (d : option bytes) : bytes := match d with Some d => 1 :: d | None => [0] end.

#[export] Instance DirectoryNodeRecord_eq_dec : EqDecision DirectoryNodeRecord.
Proof. solve_decision. Defined.

(** ** Directory nodes *)

Section nodes.
Context `{Blake3} `{Unicode}.

Definition load_directory_node (db : Database) (d : DirectoryNodeDigest) : result PublicationError (option DirectoryNodeRecord) :=
  match directory_nodes db !! d with
  | None => Ok None
  | Some row =>
      if negb (format_version row =? 1)%Z then Err Corrupt
      else r ← map_err DirectoryFailure (decode_record d (encoded_node row)); Ok (Some r)
  end.

Definition persist_directory_node (r : DirectoryNodeRecord) (at_ : Z) : Tx unit :=
  let encoded := encode_record r in
  verified ← lift (map_err DirectoryFailure (decode_record (digest r) encoded));
  if negb (bool_decide (verified = r)) then raise Corrupt
  else
    db ← get_state;
    match directory_nodes db !! digest r with
    | Some row =>
        stored ← lift (map_err DirectoryFailure (decode_record (digest r) (encoded_node row)));
        if (format_version row =? 1)%Z && bool_decide (stored = r) then mret tt else raise Corrupt
    | None => modify_state (with_nodes (<[digest r := {| format_version := 1; encoded_node := encoded; recorded_at := at_ |}]> (directory_nodes db)))
    end.

End nodes.

(** ** Object revisions *)

Record ObjectRevisionInsert := {
  inserted_revision : N;
  inserted_volume : N;
  inserted_object : N;
  inserted_kind : N;
  inserted_prior : option N;
  inserted_root : option DirectoryNodeDigest;
  inserted_version : option N;
  inserted_by : N;
  inserted_at : Z
}.
#[export] Instance ObjectRevisionInsert_eq_dec : EqDecision ObjectRevisionInsert.
Proof. solve_decision. Defined.

Section revisions.
Context `{Blake3}.

Definition object_revision_digest (r : ObjectRevisionInsert) : bytes :=
  blake3 (ascii_bytes "meshspan.filesystem.object-revision.v1" ++ [0] ++ Identifier.as_bytes (inserted_revision r) ++
    Identifier.as_bytes (inserted_volume r) ++ Identifier.as_bytes (inserted_object r) ++ [inserted_kind r] ++
    update_optional_revision (inserted_prior r) ++ update_optional_digest (inserted_root r) ++ update_optional_revision (inserted_version r) ++
    Identifier.as_bytes (inserted_by r) ++ i64_be_bytes (inserted_at r)).

(** The constraints of [object_revisions]; a row may refer to itself. *)
Definition revision_admitted (db : Database) (key : bytes) (row : RevisionRow) : bool :=
  (match row_kind row, row_root row, row_version row with 1%Z, Some _, None => true | 2%Z, None, Some _ => true | _, _, _ => false end)
  && match row_prior row with Some p => bool_decide (is_Some (<[key := row]> (object_revisions db) !! p)) | None => true end
  && match row_root row with Some d => bool_decide (is_Some (directory_nodes db !! d)) | None => true end
  && match row_version row with Some v => bool_decide (is_Some (file_versions db !! v)) | None => true end
  && bool_decide (map_Forall (fun _ r => row_digest r <> row_digest row) (object_revisions db)).

Definition revision_row (r : ObjectRevisionInsert) : RevisionRow :=
  {| row_volume := Identifier.as_bytes (inserted_volume r); row_object := Identifier.as_bytes (inserted_object r);
     row_kind := Z.of_N (inserted_kind r); row_prior := Identifier.as_bytes <$> inserted_prior r; row_root := inserted_root r;
     row_version := Identifier.as_bytes <$> inserted_version r; row_digest := object_revision_digest r;
     row_created_by := Identifier.as_bytes (inserted_by r); row_created_at := inserted_at r |}.

Definition persist_object_revision (r : ObjectRevisionInsert) : Tx unit :=
  db ← get_state;
  let key := Identifier.as_bytes (inserted_revision r) in
  if bool_decide (is_Some (object_revisions db !! key)) then raise OperationConflict
  else if revision_admitted db key (revision_row r)
       then modify_state (with_revisions (<[key := revision_row r]> (object_revisions db)))
       else raise Sqlite.

Definition load_object_revision (db : Database) (id : N) : result PublicationError ObjectRevisionInsert :=
  row ← ok_or (object_revisions db !! Identifier.as_bytes id) Sqlite;
  volume ← decode_identifier (row_volume row);
  object ← decode_identifier (row_object row);
  k ← (if (0 <=? row_kind row)%Z && (row_kind row <=? 255)%Z then Ok (Z.to_N (row_kind row)) else Err Corrupt);
  prior ← decode_optional (row_prior row);
  from ← optionally copy_array (row_root row);
  version ← decode_optional (row_version row);
  by_ ← decode_identifier (row_created_by row);
  let r := {| inserted_revision := id; inserted_volume := volume; inserted_object := object; inserted_kind := k; inserted_prior := prior;
              inserted_root := from; inserted_version := version; inserted_by := by_; inserted_at := row_created_at row |} in
  stored ← copy_array (row_digest row);
  if bool_decide (stored = object_revision_digest r) then Ok r else Err Corrupt.

End revisions.

(** ** Commits and heads *)

Record StoredCommit := {
  stored_commit_id : N;
  stored_branch : N;
  stored_commit_volume : N;
  stored_root_object : N;
  stored_root_revision : N;
  stored_parent : option N;
  stored_by : N;
  stored_operation : N;
  stored_at : Z
}.

(** The fields of a publication its commit and head need. *)
Record NamespaceIntent := {
  intent_operation : N;
  intent_branch : N;
  intent_volume : N;
  intent_root_object : N;
  expected_commit : option N;
  intent_root_revision : N;
  intent_commit : N;
  intent_by : N;
  intent_at : Z
}.

Section commits.
Context `{Blake3}.

Definition commit_digest_fields (c : StoredCommit) (request : bytes) : bytes :=
  blake3 (ascii_bytes "meshspan.filesystem.namespace-commit.v1" ++ [0] ++ Identifier.as_bytes (stored_commit_id c) ++ Identifier.as_bytes (stored_branch c) ++
    Identifier.as_bytes (stored_commit_volume c) ++ Identifier.as_bytes (stored_root_object c) ++ Identifier.as_bytes (stored_root_revision c) ++
    update_optional_revision (stored_parent c) ++ Identifier.as_bytes (stored_by c) ++ Identifier.as_bytes (stored_operation c) ++ i64_be_bytes (stored_at c) ++ request).

Definition commit_row (c : StoredCommit) (request : bytes) : CommitRow :=
  {| commit_branch := Identifier.as_bytes (stored_branch c); commit_volume := Identifier.as_bytes (stored_commit_volume c);
     commit_root_object := Identifier.as_bytes (stored_root_object c); commit_root_revision := Identifier.as_bytes (stored_root_revision c);
     commit_created_by := Identifier.as_bytes (stored_by c); commit_operation := Identifier.as_bytes (stored_operation c);
     commit_created_at := stored_at c; commit_digest := commit_digest_fields c request |}.

(** The constraints of [namespace_commits] and [namespace_commit_parents]. *)
Definition commit_admitted (db : Database) (row : CommitRow) : bool :=
  bool_decide (is_Some (object_revisions db !! commit_root_revision row))
  && bool_decide (map_Forall (fun _ r => commit_operation r <> commit_operation row /\ commit_digest r <> commit_digest row) (namespace_commits db)).
Definition parent_admitted (db : Database) (key parent : bytes) : bool :=
  bool_decide (is_Some (namespace_commits db !! parent)) && bool_decide (is_Some (namespace_commits db !! key))
  && bool_decide (map_Forall (fun k p => ~ (k.1 = key /\ (k.2 = 0%Z \/ p = parent))) (namespace_commit_parents db)).

Definition persist_stored_commit (c : StoredCommit) (request : bytes) : Tx unit :=
  db ← get_state;
  let key := Identifier.as_bytes (stored_commit_id c) in
  let row := commit_row c request in
  if bool_decide (is_Some (namespace_commits db !! key)) then raise OperationConflict
  else if negb (commit_admitted db row) then raise Sqlite
  else
    _ ← modify_state (with_commits (<[key := row]> (namespace_commits db)) (namespace_commit_parents db));
    match stored_parent c with
    | None => mret tt
    | Some p =>
        db ← get_state;
        let parent := Identifier.as_bytes p in
        if parent_admitted db key parent
        then modify_state (with_commits (namespace_commits db) (<[(key, 0%Z) := parent]> (namespace_commit_parents db)))
        else raise Sqlite
    end.

Definition persist_commit (i : NamespaceIntent) (request : bytes) : Tx unit :=
  persist_stored_commit
    {| stored_commit_id := intent_commit i; stored_branch := intent_branch i; stored_commit_volume := intent_volume i; stored_root_object := intent_root_object i;
       stored_root_revision := intent_root_revision i; stored_parent := expected_commit i; stored_by := intent_by i; stored_operation := intent_operation i;
       stored_at := intent_at i |} request.

Definition advance_namespace_head (i : NamespaceIntent) (previous : N) : Tx N :=
  sequence ← lift (ok_or (checked_add u64_max previous 1) InvalidInput);
  stored ← lift (to_i64 sequence);
  let key := (Identifier.as_bytes (intent_branch i), Identifier.as_bytes (intent_volume i)) in
  let commit := Identifier.as_bytes (intent_commit i) in
  let row := {| head_commit := commit; head_sequence := stored |} in
  match expected_commit i with
  | Some expected =>
      old ← lift (to_i64 previous);
      db ← get_state;
      match branch_namespace_heads db !! key with
      | Some head =>
          if bool_decide (head_commit head = Identifier.as_bytes expected) && (head_sequence head =? old)%Z
          then if bool_decide (is_Some (namespace_commits db !! commit)) && (0 <? stored)%Z
               then _ ← modify_state (with_heads (<[key := row]> (branch_namespace_heads db))); mret sequence
               else raise Sqlite
          else raise StaleHead
      | None => raise StaleHead
      end
  | None =>
      db ← get_state;
      if bool_decide (branch_namespace_heads db !! key = None) && bool_decide (is_Some (namespace_commits db !! commit)) && (0 <? stored)%Z
      then _ ← modify_state (with_heads (<[key := row]> (branch_namespace_heads db))); mret sequence
      else raise Sqlite
  end.

End commits.
