(* ===== verification/PathCopy.v ===== *)
(** Copying a path of immutable directories: the part of
    meshspan-filesystem/src/namespace_publication.rs that every publication, rename and
    removal shares, with the paths of publication.rs and [persist_path_mutation] of
    namespace_publication/unlink.rs. *)

From S2P Require Import Prelude Ids Codec Contracts Name Directory Intent BranchStore.
From stdpp Require Import prelude gmap list.
#[local] Open Scope N_scope.

(** ** Publication paths *)

Record NamespacePublicationPath := { publication_path : NamespacePath; publication_ancestors : list DirectoryRevisionTransition }.

Definition new_publication_path (p : NamespacePath) (ancestors : list DirectoryRevisionTransition) :
    result PublicationPathError NamespacePublicationPath :=
  if bool_decide (checked_add usize_max (len ancestors) 1 = Some (len (components p)))
  then Ok {| publication_path := p; publication_ancestors := ancestors |}
  else Err TransitionCount.

Definition leaf_name (p : NamespacePublicationPath) : option NamespaceComponent := last (components (publication_path p)).

(** A directory on the path: what it is now, and the revision that will replace it. *)
Record LoadedDirectory := { editor : DirectoryTrie; loaded_object : N; loaded_prior : option N; loaded_next : N }.

Record DirectoryRevisionResult := { result_object : N; result_prior : option N; result_next : N; result_root : DirectoryNodeDigest }.
Record DirectoryPathMutation := { mutated_directories : list DirectoryRevisionResult; mutated_nodes : list DirectoryNodeRecord }.

Section paths.
Context `{Blake3} `{Unicode}.

(** ** Loading *)

(** The loop [for depth in 0..=64]. *)
Fixpoint load_path_records (db : Database) (n : NamespaceComponent) (rest d : nat) (selected : DirectoryNodeDigest) :
    result PublicationError (list DirectoryNodeRecord) :=
  match rest with
  | O => Ok []
  | S rest' =>
      found ← load_directory_node db selected;
      r ← ok_or found Corrupt;
      child ← map_err DirectoryFailure (selected_child r n d);
      match child with
      | None => Ok [r]
      | Some c => rs ← load_path_records db n rest' (S d) c; Ok (r :: rs)
      end
  end.

Definition load_path_editor (db : Database) (from : DirectoryNodeDigest) (n : NamespaceComponent) : result PublicationError DirectoryTrie :=
  records ← load_path_records db n 65 0 from;
  map_err DirectoryFailure (from_selected_records from records n).

Definition load_directory (db : Database) (revision object next volume : N) (selected : NamespaceComponent) :
    result PublicationError LoadedDirectory :=
  stored ← load_object_revision db revision;
  if negb (inserted_kind stored =? 1) || negb (inserted_object stored =? object) || negb (inserted_volume stored =? volume)
     || negb (inserted_revision stored =? revision)
  then Err Corrupt
  else
    from ← ok_or (inserted_root stored) Corrupt;
    t ← load_path_editor db from selected;
    Ok {| editor := t; loaded_object := object; loaded_prior := Some revision; loaded_next := next |}.

(** One turn of the loop down the ancestors. *)
Definition load_next_directory (db : Database) (volume : N) (cs : list NamespaceComponent) (dirs : list LoadedDirectory)
    (indexed : nat * DirectoryRevisionTransition) : result PublicationError (list LoadedDirectory) :=
  let '(index, transition) := indexed in
  parent_name ← ok_or (cs !! index) InvalidInput;
  next_name ← ok_or (cs !! S index) InvalidInput;
  parent ← ok_or (last dirs) Corrupt;
  found ← map_err DirectoryFailure (Directory.lookup (editor parent) parent_name);
  entry ← ok_or found StaleHead;
  if negb (bool_decide (kind entry = Directory)) || negb (object_id entry =? transition_object transition)
     || negb (object_revision_id entry =? expected_revision transition)
  then Err StaleHead
  else
    d ← load_directory db (expected_revision transition) (transition_object transition) (new_revision transition) volume next_name;
    Ok (dirs ++ [d]).

Definition load_path_directories (db : Database) (volume root_object current_root next_root : N) (p : NamespacePublicationPath) :
    result PublicationError (list LoadedDirectory) :=
  let cs := components (publication_path p) in
  first ← ok_or (head cs) InvalidInput;
  d ← load_directory db current_root root_object next_root volume first;
  try_fold (load_next_directory db volume cs) [d] (imap pair (publication_ancestors p)).

(** ** Editing *)

Definition records_of (t : DirectoryTrie) (ds : list DirectoryNodeDigest) : result DirectoryTrieError (list DirectoryNodeRecord) :=
  try_map (record t) ds.

Definition mutate_entry (t : DirectoryTrie) (e : DirectoryEntry) (expected : option N) :
    result PublicationError (DirectoryNodeDigest * list DirectoryNodeRecord) :=
  match upsert e expected t with
  | (Ok u, t') => records ← map_err DirectoryFailure (records_of t' (created_nodes u)); Ok (new_root u, records)
  | (Err x, _) => Err (DirectoryFailure x)
  end.

Definition directory_result (loaded : LoadedDirectory) (from : DirectoryNodeDigest) : DirectoryRevisionResult :=
  {| result_object := loaded_object loaded; result_prior := loaded_prior loaded; result_next := loaded_next loaded; result_root := from |}.

(** The loop up the path; the editors it changes are not read again. *)
Fixpoint propagate_loop (dirs : list LoadedDirectory) (cs : list NamespaceComponent) (indices : list nat)
    (made : list DirectoryNodeRecord) (results : list DirectoryRevisionResult) :
    result PublicationError (list DirectoryRevisionResult * list DirectoryNodeRecord) :=
  match indices with
  | [] => Ok (results, made)
  | parent_index :: rest =>
      child ← ok_or (dirs !! S parent_index) Corrupt;
      n ← ok_or (cs !! parent_index) Corrupt;
      parent ← ok_or (dirs !! parent_index) Corrupt;
      found ← map_err DirectoryFailure (Directory.lookup (editor parent) n);
      old ← ok_or found Corrupt;
      replacement ← map_err DirectoryFailure (new_entry n (loaded_object child) (loaded_next child) Directory (generation old));
      '(parent_root, records) ← mutate_entry (editor parent) replacement (Some (object_revision_id old));
      propagate_loop dirs cs rest (made ++ records) (results ++ [directory_result parent parent_root])
  end.

Definition propagate_directory_change (dirs : list LoadedDirectory) (p : NamespacePublicationPath) (child_root : DirectoryNodeDigest)
    (made : list DirectoryNodeRecord) : result PublicationError DirectoryPathMutation :=
  leaf ← ok_or (last dirs) Corrupt;
  let indices := reverse (seq 0 (pred (length dirs))) in
  '(results, nodes) ← propagate_loop dirs (components (publication_path p)) indices made [directory_result leaf child_root];
  Ok {| mutated_directories := reverse results; mutated_nodes := nodes |}.

Definition mutate_namespace_path (dirs : list LoadedDirectory) (p : NamespacePublicationPath) (leaf_entry : DirectoryEntry)
    (expected : option N) : result PublicationError DirectoryPathMutation :=
  leaf ← ok_or (last dirs) Corrupt;
  '(child_root, made) ← mutate_entry (editor leaf) leaf_entry expected;
  propagate_directory_change dirs p child_root made.

Definition remove_namespace_path (dirs : list LoadedDirectory) (p : NamespacePublicationPath) (expected : N) :
    result PublicationError DirectoryPathMutation :=
  leaf ← ok_or (last dirs) Corrupt;
  n ← ok_or (leaf_name p) InvalidInput;
  match Directory.remove n expected (editor leaf) with
  | (Ok u, t') =>
      made ← map_err DirectoryFailure (records_of t' (created_nodes u));
      propagate_directory_change dirs p (new_root u) made
  | (Err x, _) => Err (DirectoryFailure x)
  end.

(** ** Persisting *)

Definition directory_revision (volume by_ : N) (at_ : Z) (d : DirectoryRevisionResult) : ObjectRevisionInsert :=
  {| inserted_revision := result_next d; inserted_volume := volume; inserted_object := result_object d; inserted_kind := 1;
     inserted_prior := result_prior d; inserted_root := Some (result_root d); inserted_version := None; inserted_by := by_; inserted_at := at_ |}.

Definition persist_directory_path_revisions (volume by_ : N) (at_ : Z) (ds : list DirectoryRevisionResult) : Tx unit :=
  _ ← traverse (fun d => persist_object_revision (directory_revision volume by_ at_ d)) ds; mret tt.

Definition persist_path_mutation (volume by_ : N) (at_ : Z) (m : DirectoryPathMutation) : Tx unit :=
  _ ← traverse (fun r => persist_directory_node r at_) (mutated_nodes m);
  persist_directory_path_revisions volume by_ at_ (mutated_directories m).

End paths.
