(* ===== verification/Query.v ===== *)
(** Reading a namespace: stat and paged listing of meshspan-filesystem/src/namespace_query.rs
    over the tables of [BranchStore]. *)

From S2P Require Import Prelude Ids Codec Contracts Name Directory Intent BranchStore.
From stdpp Require Import prelude gmap list.
#[local] Open Scope N_scope.

Inductive NamespaceQueryError := NotFound | InvalidQuery | StaleCursor | CorruptQuery | QuerySqlite | QueryDirectory (error : PublicationError).
#[export] Instance NamespaceQueryError_eq_dec : EqDecision NamespaceQueryError.
Proof. solve_decision. Defined.

Record NamespaceObjectStat := {
  stat_commit : N;
  stat_object : N;
  stat_revision : N;
  stat_name : NamespaceComponent;
  stat_generation : N;
  stat_kind : DirectoryEntryKind;
  stat_version : option N;
  stat_length : option N
}.

Record NamespaceStatRequest := { stat_branch : N; stat_volume : N; stat_path : NamespacePath }.

(** ** Columns *)

Definition identifier (b : bytes) : result NamespaceQueryError N :=
  if negb (len b =? 16) then Err CorruptQuery else map_err (fun _ => CorruptQuery) (Identifier.from_bytes b).
Definition optional_column {A} (f : bytes -> result NamespaceQueryError A) (stored : option bytes) : result NamespaceQueryError (option A) :=
  match stored with None => Ok None | Some b => a ← f b; Ok (Some a) end.
Definition digest_array (b : bytes) : result NamespaceQueryError bytes := if len b =? 32 then Ok b else Err CorruptQuery.

Record StoredRevision := {
  stored_volume : N;
  stored_object : N;
  stored_kind : DirectoryEntryKind;
  stored_root : option DirectoryNodeDigest;
  stored_version : option N
}.

Definition load_revision (db : Database) (id : N) : result NamespaceQueryError StoredRevision :=
  row ← ok_or (object_revisions db !! Identifier.as_bytes id) QuerySqlite;
  k ← match row_kind row with 1%Z => Ok Directory | 2%Z => Ok File | _ => Err CorruptQuery end;
  from ← optional_column digest_array (row_root row);
  version ← optional_column identifier (row_version row);
  if negb (eqb (bool_decide (k = Directory)) (bool_decide (is_Some from))) || negb (eqb (bool_decide (k = File)) (bool_decide (is_Some version)))
  then Err CorruptQuery
  else
    volume ← identifier (row_volume row);
    object ← identifier (row_object row);
    Ok {| stored_volume := volume; stored_object := object; stored_kind := k; stored_root := from; stored_version := version |}.

Definition load_file_length (db : Database) (volume object version : N) : result NamespaceQueryError N :=
  v ← ok_or (file_versions db !! Identifier.as_bytes version) QuerySqlite;
  m ← ok_or (content_manifests db !! version_manifest v) QuerySqlite;
  length ← (if (0 <=? version_length v)%Z then Ok (Z.to_N (version_length v)) else Err CorruptQuery);
  if negb (bool_decide (version_volume v = Identifier.as_bytes volume)) || negb (bool_decide (version_object v = Identifier.as_bytes object))
     || negb (version_length v =? manifest_length m)%Z || negb (bool_decide (version_content v = manifest_content m))
  then Err CorruptQuery else Ok length.

Section queries.
Context `{Blake3} `{Unicode}.

(** ** Looking a name up *)

Fixpoint lookup_records (db : Database) (n : NamespaceComponent) (rest d : nat) (selected : DirectoryNodeDigest) :
    result NamespaceQueryError (list DirectoryNodeRecord) :=
  match rest with
  | O => Ok []
  | S rest' =>
      found ← map_err QueryDirectory (load_directory_node db selected);
      r ← ok_or found CorruptQuery;
      child ← map_err (fun _ => CorruptQuery) (selected_child r n d);
      match child with
      | None => Ok [r]
      | Some c => rs ← lookup_records db n rest' (S d) c; Ok (r :: rs)
      end
  end.

Definition lookup_entry (db : Database) (from : DirectoryNodeDigest) (n : NamespaceComponent) : result NamespaceQueryError (option DirectoryEntry) :=
  records ← lookup_records db n 65 0 from;
  t ← map_err (fun _ => CorruptQuery) (from_selected_records from records n);
  map_err (fun _ => CorruptQuery) (Directory.lookup t n).

(** ** Stat *)

Definition build_stat (db : Database) (commit volume : N) (e : DirectoryEntry) : result NamespaceQueryError NamespaceObjectStat :=
  revision ← load_revision db (object_revision_id e);
  if negb (stored_volume revision =? volume) || negb (stored_object revision =? object_id e) || negb (bool_decide (stored_kind revision = kind e))
  then Err CorruptQuery
  else
    length ← match stored_version revision with
             | Some v => l ← load_file_length db volume (object_id e) v; Ok (Some l)
             | None => Ok None
             end;
    Ok {| stat_commit := commit; stat_object := object_id e; stat_revision := object_revision_id e; stat_name := name e;
          stat_generation := generation e; stat_kind := kind e; stat_version := stored_version revision; stat_length := length |}.

(** The loop over the components: the entry the last one selects. *)
Fixpoint resolve_loop (db : Database) (volume object revision : N) (cs : list NamespaceComponent) : result NamespaceQueryError DirectoryEntry :=
  match cs with
  | [] => Err NotFound
  | c :: rest =>
      stored ← load_revision db revision;
      if negb (stored_volume stored =? volume) || negb (stored_object stored =? object) || negb (bool_decide (stored_kind stored = Directory))
      then Err CorruptQuery
      else
        from ← ok_or (stored_root stored) CorruptQuery;
        found ← lookup_entry db from c;
        e ← ok_or found NotFound;
        match rest with
        | [] => Ok e
        | _ => if negb (bool_decide (kind e = Directory)) then Err NotFound else resolve_loop db volume (object_id e) (object_revision_id e) rest
        end
  end.

(** The head of a branch joined with its commit. *)
Definition joined_head (db : Database) (branch volume : N) : option (bytes * bytes * bytes) :=
  head ← branch_namespace_heads db !! (Identifier.as_bytes branch, Identifier.as_bytes volume);
  commit ← namespace_commits db !! head_commit head;
  Some (head_commit head, commit_root_object commit, commit_root_revision commit).

Definition stat (db : Database) (request : NamespaceStatRequest) : result NamespaceQueryError NamespaceObjectStat :=
  match joined_head db (stat_branch request) (stat_volume request) with
  | None => Err NotFound
  | Some (commit, root_object, root_revision) =>
      commit_id ← identifier commit;
      object ← identifier root_object;
      revision ← identifier root_revision;
      e ← resolve_loop db (stat_volume request) object revision (components (stat_path request));
      build_stat db commit_id (stat_volume request) e
  end.

(** ** Listing *)

Record DirectoryListCursor := {
  cursor_commit : N;
  cursor_directory : N;
  cursor_revision : N;
  after_name_hash : bytes;
  after_name : NamespaceComponent
}.

Record NamespaceListRequest := {
  list_branch : N;
  list_volume : N;
  directory_path : option NamespacePath;
  cursor : option DirectoryListCursor;
  maximum_results : N
}.

Record NamespaceListEntry := {
  listed_name : NamespaceComponent;
  listed_object : N;
  listed_revision : N;
  listed_generation : N;
  listed_kind : DirectoryEntryKind;
  listed_version : option N;
  listed_length : option N
}.

Record NamespaceListPage := {
  page_commit : N;
  page_directory : N;
  page_revision : N;
  page_entries : list NamespaceListEntry;
  next_cursor : option DirectoryListCursor
}.

Record ResolvedDirectory := { resolved_commit : N; resolved_object : N; resolved_revision : N }.

Definition resolve_directory (db : Database) (request : NamespaceListRequest) : result NamespaceQueryError ResolvedDirectory :=
  match directory_path request with
  | Some p =>
      s ← stat db {| stat_branch := list_branch request; stat_volume := list_volume request; stat_path := p |};
      if negb (bool_decide (stat_kind s = Directory)) then Err NotFound
      else Ok {| resolved_commit := stat_commit s; resolved_object := stat_object s; resolved_revision := stat_revision s |}
  | None =>
      match joined_head db (list_branch request) (list_volume request) with
      | None => Err NotFound
      | Some (commit, root_object, root_revision) =>
          commit_id ← identifier commit;
          object ← identifier root_object;
          revision ← identifier root_revision;
          stored ← load_revision db revision;
          if negb (stored_volume stored =? list_volume request) || negb (stored_object stored =? object) || negb (bool_decide (stored_kind stored = Directory))
          then Err CorruptQuery
          else Ok {| resolved_commit := commit_id; resolved_object := object; resolved_revision := revision |}
      end
  end.

Definition validate_cursor (c : option DirectoryListCursor) (d : ResolvedDirectory) : result NamespaceQueryError unit :=
  match c with
  | None => Ok tt
  | Some c =>
      if negb (cursor_commit c =? resolved_commit d) || negb (cursor_directory c =? resolved_object d) || negb (cursor_revision c =? resolved_revision d)
         || negb (bool_decide (after_name_hash c = name_hash (canonical (after_name c))))
      then Err StaleCursor else Ok tt
  end.

(** [key_hash > cursor.after_name_hash], bytes in order. *)
Fixpoint bytes_lt (a b : bytes) : bool :=
  match a, b with
  | [], _ :: _ => true
  | x :: a', y :: b' => (x <? y) || ((x =? y) && bytes_lt a' b')
  | _, [] => false
  end.

Definition after_cursor (c : option DirectoryListCursor) (on_path : bool) (hash : bytes) (e : DirectoryEntry) : bool :=
  negb on_path
  || match c with
     | None => true
     | Some c => bytes_lt (after_name_hash c) hash || (bool_decide (hash = after_name_hash c) && bool_decide (str_lt (canonical (after_name c)) (entry_key e)))
     end.

(** The loops stop once [maximum] entries are collected; [rest] levels remain below. *)
Fixpoint collect_entries (db : Database) (c : option DirectoryListCursor) (maximum : nat) (rest : nat) (selected : DirectoryNodeDigest)
    (on_path : bool) (output : list DirectoryEntry) : result NamespaceQueryError (list DirectoryEntry) :=
  if (maximum <=? length output)%nat then Ok output
  else
    found ← map_err QueryDirectory (load_directory_node db selected);
    r ← ok_or found CorruptQuery;
    match node r, rest with
    | Internal i, S rest' =>
        let d := (HASH_NIBBLES - rest)%nat in
        if negb (depth i =? N.of_nat d) then Err CorruptQuery
        else
          let cursor_slot := (fun c => nibble (after_name_hash c) d) <$> c in
          try_fold (fun out '(slot, child) =>
            if (maximum <=? length out)%nat then Ok out
            else if on_path && match cursor_slot with Some s => slot <? s | None => false end then Ok out
            else collect_entries db c maximum rest' child (on_path && match cursor_slot with Some s => slot =? s | None => false end) out)
            output (ascending_map (children i))
    | Leaf l, O => Ok (foldl (fun out e => if (maximum <=? length out)%nat then out else if after_cursor c on_path (key_hash l) e then out ++ [e] else out) output (entries l))
    | _, _ => Err CorruptQuery
    end.

Definition list_entry (db : Database) (volume : N) (e : DirectoryEntry) : result NamespaceQueryError NamespaceListEntry :=
  revision ← load_revision db (object_revision_id e);
  if negb (stored_volume revision =? volume) || negb (stored_object revision =? object_id e) || negb (bool_decide (stored_kind revision = kind e))
  then Err CorruptQuery
  else
    length ← match stored_version revision with
             | Some v => l ← load_file_length db volume (object_id e) v; Ok (Some l)
             | None => Ok None
             end;
    Ok {| listed_name := name e; listed_object := object_id e; listed_revision := object_revision_id e; listed_generation := generation e;
          listed_kind := kind e; listed_version := stored_version revision; listed_length := length |}.

Definition list_namespace (db : Database) (request : NamespaceListRequest) : result NamespaceQueryError NamespaceListPage :=
  if (maximum_results request =? 0) || (1024 <? maximum_results request) then Err InvalidQuery
  else
    directory ← resolve_directory db request;
    _ ← validate_cursor (cursor request) directory;
    revision ← load_revision db (resolved_revision directory);
    from ← ok_or (stored_root revision) CorruptQuery;
    let maximum := N.to_nat (maximum_results request) in
    found ← collect_entries db (cursor request) (S maximum) HASH_NIBBLES from true [];
    let has_more := (maximum <? length found)%nat in
    let shown := if has_more then removelast found else found in
    results ← try_map (list_entry db (list_volume request)) shown;
    next ← (if has_more then
              e ← ok_or (last shown) CorruptQuery;
              Ok (Some {| cursor_commit := resolved_commit directory; cursor_directory := resolved_object directory;
                          cursor_revision := resolved_revision directory; after_name_hash := name_hash (entry_key e); after_name := name e |})
            else Ok None);
    Ok {| page_commit := resolved_commit directory; page_directory := resolved_object directory; page_revision := resolved_revision directory;
          page_entries := results; next_cursor := next |}.

End queries.
