(* ===== verification/PathCopyFacts.v ===== *)
(** What the branch database keeps (the directory nodes it stands for, the partial editors and
    lookups read from it, how its statements extend it) and how a path of directories is copied:
    what loading it establishes, what each level of the edit does, and that on the whole
    database every level becomes the map one request makes of it. *)

From S2P Require Import Prelude Ids Codec Contracts Name Directory DirectoryFacts DirectoryMap Intent BranchStore PathCopy Query.
From stdpp Require Import prelude gmap list.
#[local] Open Scope N_scope.

Section stores.
Context `{Blake3Bytes} `{Unicode}.
Abbreviation Store := (gmap (list N) DirectoryNode) (only parsing).

(** The nodes the rows decode to. *)
Definition row_node (d : bytes) (row : NodeRow) : option DirectoryNode :=
  if (format_version row =? 1)%Z then match decode_record d (encoded_node row) with Ok r => Some (node r) | Err _ => None end else None.
Definition stored_nodes (db : Database) : Store := map_imap row_node (directory_nodes db).

Lemma decode_record_Ok d b r : decode_record d b = Ok r -> digest r = d /\ validate_node (node r) = Ok tt /\ node_digest (node r) = d.
Proof.
  unfold decode_record. destruct (_ <? _); [done|]. destruct (decode_node _) as [[n|e] c]; [|done]. destruct (negb _); [done|].
  intros E. apply result_bind_Ok in E as ([] & Hv & E). destruct (negb _) eqn:Ed; [done|]. injection E as <-. cbn. bool_cases. done.
Qed.

Lemma load_node_stored db d r :
  load_directory_node db d = Ok (Some r) <-> stored_nodes db !! d = Some (node r) /\ digest r = d.
Proof.
  unfold load_directory_node, stored_nodes. rewrite map_lookup_imap. destruct (directory_nodes db !! d) as [row|]; cbn; [|naive_solver].
  unfold row_node. destruct (format_version row =? 1)%Z; cbn; [|naive_solver].
  destruct (decode_record d (encoded_node row)) as [x|e] eqn:E; cbn [map_err mbind result_bind]; [|naive_solver].
  pose proof (decode_record_Ok _ _ _ E) as (Ed & _). split; [intros [= <-]; done|]. intros [[= En] E2]. do 2 f_equal. destruct x, r; cbn in *; congruence.
Qed.

Lemma stored_verified db d n : stored_nodes db !! d = Some n <-> load_verified (stored_nodes db) d = Ok n.
Proof.
  rewrite load_verified_Ok. split; [|by intros [? _]]. intros Hn. split; [done|]. unfold stored_nodes in Hn. rewrite map_lookup_imap in Hn.
  apply bind_Some in Hn as (row & _ & Hn). unfold row_node in Hn. destruct (_ =? _)%Z; [|done]. destruct (decode_record _ _) as [x|] eqn:E; [|done].
  injection Hn as <-. by apply decode_record_Ok in E as (_ & ? & ?).
Qed.

Lemma load_stored db d n : stored_nodes db !! d = Some n -> load_directory_node db d = Ok (Some {| digest := d; node := n |}).
Proof. intros Hn. by apply load_node_stored. Qed.

(** ** Records selected for one name *)

Definition held (st : Store) (r : DirectoryNodeRecord) : Prop := st !! digest r = Some (node r).

Lemma load_path_records_held db n rest d sel rs : load_path_records db n rest d sel = Ok rs -> Forall (held (stored_nodes db)) rs.
Proof.
  revert d sel rs. induction rest as [|rest IH]; intros d sel rs; cbn [load_path_records]; [intros [= <-]; constructor|].
  intros E. apply result_bind_Ok in E as (found & Hf & E). apply result_bind_Ok in E as (r & Hr%ok_or_Ok & E). subst found.
  apply load_node_stored in Hf as [Hf <-]. apply result_bind_Ok in E as (child & _ & E). destruct child as [c|]; [|injection E as <-; by repeat constructor].
  apply result_bind_Ok in E as (rs' & Hrs & [= <-]). constructor; [done|]. by eapply IH.
Qed.

Lemma index_records_held (full acc st : Store) rs :
  acc ⊆ full -> Forall (held full) rs -> try_fold index_record acc rs = Ok st -> acc ⊆ st /\ st ⊆ full /\ Forall (held st) rs.
Proof.
  intros Ha Hrs. revert acc Ha. induction Hrs as [|r rs Hr Hrs IH]; intros acc Ha; cbn [try_fold]; [intros [= <-]; by repeat split|].
  intros E. apply result_bind_Ok in E as (acc' & Hi & E). unfold index_record in Hi. apply result_bind_Ok in Hi as ([] & Hv & Hi).
  destruct (_ || _) eqn:Ec; [done|]. injection Hi as <-. assert (<[digest r := node r]> acc ⊆ full) as Hsub by (by apply insert_subseteq_l).
  destruct (IH _ Hsub E) as (I1 & I2 & I3). assert (acc ⊆ <[digest r := node r]> acc) as Hacc.
  { apply map_subseteq_spec. intros x y Hx. destruct (decide (x = digest r)) as [->|Hne]; [|by rewrite lookup_insert_ne].
    rewrite lookup_insert_eq. unfold held in Hr. rewrite (lookup_weaken _ _ _ _ Hx Ha) in Hr. by injection Hr as ->. }
  split_and!; [by etransitivity|done|]. constructor; [|done]. unfold held. eapply lookup_weaken; [apply lookup_insert_eq|done].
Qed.

Lemma index_records_total (db : Database) (acc : Store) rs :
  acc ⊆ stored_nodes db -> Forall (held (stored_nodes db)) rs -> exists st, try_fold index_record acc rs = Ok st.
Proof.
  intros Ha Hrs. revert acc Ha. induction Hrs as [|r rs Hr Hrs IH]; intros acc Ha; cbn [try_fold]; [by eexists|].
  pose proof Hr as (_ & Hv & Hd)%stored_verified%load_verified_Ok. unfold index_record. rewrite Hv. cbn [mbind result_bind].
  rewrite bool_decide_eq_true_2 by done. cbn [negb orb]. assert ((match acc !! digest r with Some x => negb (bool_decide (x = node r)) | None => false end) = false) as ->.
  { destruct (acc !! digest r) as [x|] eqn:Ex; [|done]. unfold held in Hr. rewrite (lookup_weaken _ _ _ _ Ex Ha) in Hr. injection Hr as ->. by rewrite bool_decide_eq_true_2. }
  cbn. apply IH. by apply insert_subseteq_l.
Qed.

(** An editor read from the database is part of it. *)
Lemma load_path_editor_part db from n t :
  load_path_editor db from n = Ok t -> root t = from /\ nodes t ⊆ stored_nodes db.
Proof.
  unfold load_path_editor. intros E. apply result_bind_Ok in E as (rs & Hrs%load_path_records_held & E). apply map_err_Ok in E.
  unfold from_selected_records in E. apply result_bind_Ok in E as (st & Hst & E). apply result_bind_Ok in E as (x & _ & [= <-]). split; [done|].
  by eapply index_records_held in Hst as (_ & ? & _); [|apply map_empty_subseteq|done].
Qed.

(** One turn of both loops at a node that loads. *)
Lemma lookup_records_step db n rest d sel x :
  stored_nodes db !! sel = Some x ->
  lookup_records db n (S rest) d sel =
    (child ← map_err (fun _ => CorruptQuery) (selected_child {| digest := sel; node := x |} n d);
     match child with None => Ok [{| digest := sel; node := x |}] | Some c => rs ← lookup_records db n rest (S d) c; Ok ({| digest := sel; node := x |} :: rs) end).
Proof. intros Hx. cbn [lookup_records]. by rewrite (load_stored _ _ _ Hx). Qed.

Lemma load_path_records_step db n rest d sel x :
  stored_nodes db !! sel = Some x ->
  load_path_records db n (S rest) d sel =
    (child ← map_err DirectoryFailure (selected_child {| digest := sel; node := x |} n d);
     match child with None => Ok [{| digest := sel; node := x |}] | Some c => rs ← load_path_records db n rest (S d) c; Ok ({| digest := sel; node := x |} :: rs) end).
Proof. intros Hx. cbn [load_path_records]. by rewrite (load_stored _ _ _ Hx). Qed.

(** The records of a name in a well-formed directory, and the answer they give. *)
Lemma lookup_records_good db n rest path sel :
  (length path + rest = HASH_NIBBLES)%nat -> good (stored_nodes db) rest path sel -> follows (name_hash (canonical n)) path ->
  exists rs, lookup_records db n (S rest) (HASH_NIBBLES - rest) sel = Ok rs /\ load_path_records db n (S rest) (HASH_NIBBLES - rest) sel = Ok rs /\
    forall st, Forall (held st) rs ->
    lookup_from st rest sel (name_hash (canonical n)) (canonical n) = Ok (find_entry (canonical n) (walk (stored_nodes db) rest sel (name_hash (canonical n)))).
Proof.
  set (hash := name_hash (canonical n)). revert path sel. induction rest as [|rest IH]; intros path sel Hlen (x & Hx & Hm) Hf;
    pose proof Hx as (Hx1 & Hx2 & Hx3)%load_verified_Ok; cbn [walk]; rewrite Hx;
    rewrite (lookup_records_step _ _ _ _ _ _ Hx1), (load_path_records_step _ _ _ _ _ _ Hx1); unfold selected_child; cbn [node]; fold hash.
  - destruct x as [i|l]; [done|]. destruct Hm as (D1 & D2 & D3). assert (key_hash l = hash) as Ek.
    { apply nibbles_inj; [done|apply name_hash_ok|]. rewrite D2, (follows_nibbles hash path); [done|lia|done]. }
    rewrite Nat.sub_0_r, Nat.eqb_refl, bool_decide_eq_true_2 by done. cbn. eexists. split_and!; [done..|].
    intros st [Hs _]%Forall_cons. unfold held in Hs. cbn [digest node] in Hs. cbn [lookup_from]. unfold load_verified. rewrite Hs. cbn [ok_or mbind result_bind].
    rewrite Hx2. cbn [mbind result_bind]. rewrite bool_decide_eq_true_2 by done. cbn [mbind result_bind]. by rewrite Ek, bool_decide_eq_true_2.
  - destruct x as [i|l]; [|done]. destruct Hm as (Hd & Hc). replace (HASH_NIBBLES - S rest)%nat with (length path) in * by lia.
    assert ((length path <? HASH_NIBBLES)%nat = true) as -> by (apply Nat.ltb_lt; lia). rewrite Hd, N.eqb_refl. cbn [andb map_err mbind result_bind].
    assert (forall st, st !! sel = Some (Internal i) -> load_verified st sel = Ok (Internal i)) as Hload by (intros st Hs; by apply load_verified_Ok).
    destruct (children i !! nibble hash (length path)) as [c|] eqn:Ec.
    + destruct (IH (path ++ [nibble hash (length path)]) c) as (rs & R1 & R2 & R3); [rewrite length_app; cbn; lia|by apply Hc|apply follows_snoc; [done|lia]|].
      replace (HASH_NIBBLES - rest)%nat with (S (length path)) in R1, R2 by lia. rewrite R1, R2. cbn [mbind result_bind]. eexists. split_and!; [done..|].
      intros st [Hs Hrs]%Forall_cons. cbn [lookup_from]. rewrite Hload by done. cbn [mbind result_bind].
      replace (HASH_NIBBLES - S rest)%nat with (length path) by lia. rewrite Hd, N.eqb_refl, Ec. cbn [negb]. by apply R3.
    + eexists. split_and!; [done..|]. intros st [Hs _]%Forall_cons. cbn [lookup_from]. rewrite Hload by done. cbn [mbind result_bind].
      replace (HASH_NIBBLES - S rest)%nat with (length path) by lia. by rewrite Hd, N.eqb_refl, Ec.
Qed.

(** ** Directories *)

Definition trie_of (db : Database) (d : bytes) : DirectoryTrie := {| root := d; nodes := stored_nodes db; complete := true |}.

Lemma lookup_entry_represented db d m n :
  represents (trie_of db d) m -> text (canonical n) -> lookup_entry db d n = Ok (m !! canonical n).
Proof.
  intros Hr Hn. destruct (lookup_records_good db n HASH_NIBBLES [] d) as (rs & R1 & R2 & R3); [done|apply Hr|apply follows_nil|].
  rewrite Nat.sub_diag in R1, R2. unfold lookup_entry. change 65%nat with (S HASH_NIBBLES). rewrite R1. cbn [mbind result_bind].
  pose proof (load_path_records_held _ _ _ _ _ _ R2) as Hheld. destruct (index_records_total db ∅ rs) as [st Hst]; [apply map_empty_subseteq|done|].
  destruct (index_records_held (stored_nodes db) ∅ st rs) as (_ & _ & Hin); [apply map_empty_subseteq|done|done|].
  unfold from_selected_records. rewrite Hst. cbn [mbind result_bind]. unfold Directory.lookup, lookup_at. cbn [nodes root].
  rewrite R3 by done. cbn [mbind result_bind map_err]. unfold Directory.lookup, lookup_at. cbn [nodes root]. rewrite R3 by done. cbn [map_err].
  f_equal. apply (represents_lookup _ _ Hr). done.
Qed.

(** Every directory revision stands for a map. *)
Definition well_formed (db : Database) : Prop :=
  forall key row d, object_revisions db !! key = Some row -> row_root row = Some d -> exists m, represents (trie_of db d) m.

(** What a publication may do to the tables it does not own. *)
Record grows (db db' : Database) : Prop := {
  grows_nodes : directory_nodes db ⊆ directory_nodes db';
  grows_revisions : object_revisions db ⊆ object_revisions db';
  grows_versions : file_versions db' = file_versions db;
  grows_manifests : content_manifests db' = content_manifests db;
  grows_commits : namespace_commits db' = namespace_commits db;
  grows_parents : namespace_commit_parents db' = namespace_commit_parents db;
  grows_heads : branch_namespace_heads db' = branch_namespace_heads db
}.

#[export] Instance grows_preorder : PreOrder grows.
Proof. split; [by split|]. intros a b c [A1 A2 A3 A4 A5 A6] [B1 B2 B3 B4 B5 B6]. split; solve [by etransitivity|congruence]. Qed.

Lemma stored_nodes_grow db db' : grows db db' -> stored_nodes db ⊆ stored_nodes db'.
Proof.
  intros Hg. apply map_subseteq_spec. intros d n. unfold stored_nodes. rewrite !map_lookup_imap. intros (row & Hrow & Hn)%bind_Some.
  rewrite (lookup_weaken _ _ _ _ Hrow (grows_nodes _ _ Hg)). done.
Qed.

Lemma represents_stored db db' d m : grows db db' -> represents (trie_of db d) m -> represents (trie_of db' d) m.
Proof. intros Hg. apply represents_grow; [by apply stored_nodes_grow|done]. Qed.

Lemma persist_node_spec r at_ db db' :
  persist_directory_node r at_ db = (Ok tt, db') -> grows db db' /\ object_revisions db' = object_revisions db /\ held (stored_nodes db') r.
Proof.
  unfold persist_directory_node. intros E. apply se_bind_Ok in E as (v & s & [= Hv <-] & E). apply map_err_Ok in Hv.
  destruct (negb _) eqn:Ev; [done|]. bool_cases. subst v. apply se_bind_Ok in E as (s & s' & [= <- <-] & E).
  destruct (directory_nodes db !! digest r) as [row|] eqn:Er.
  - apply se_bind_Ok in E as (x & s & [= Hx <-] & E). apply map_err_Ok in Hx. destruct (_ && _) eqn:Ec; [|done]. injection E as <-.
    apply andb_true_iff in Ec as [Ef Ex]. bool_cases. subst x. split_and!; [done|done|]. unfold held, stored_nodes. rewrite map_lookup_imap, Er. cbn.
    unfold row_node. by rewrite Ef, Hx.
  - injection E as <-. split_and!; [split; cbn; try done; by apply insert_subseteq|done|]. unfold held, stored_nodes. cbn. rewrite map_lookup_imap, lookup_insert_eq.
    cbn. unfold row_node. cbn. unfold encode_record in Hv. unfold encode_record. by rewrite Hv.
Qed.

Lemma persist_revision_spec r db db' :
  persist_object_revision r db = (Ok tt, db') ->
  let key := Identifier.as_bytes (inserted_revision r) in
  grows db db' /\ stored_nodes db' = stored_nodes db /\ object_revisions db !! key = None /\
  object_revisions db' = <[key := revision_row r]> (object_revisions db).
Proof.
  unfold persist_object_revision. intros E. apply se_bind_Ok in E as (s & s' & [= <- <-] & E). case_bool_decide as Hd; [done|].
  apply eq_None_not_Some in Hd. destruct (revision_admitted _ _ _); [|done]. injection E as <-. cbn. split_and!; [split; cbn; try done; by apply insert_subseteq|done..].
Qed.

Lemma persist_nodes_spec rs at_ db x db' :
  traverse (fun r => persist_directory_node r at_) rs db = (Ok x, db') ->
  grows db db' /\ object_revisions db' = object_revisions db /\ Forall (held (stored_nodes db')) rs.
Proof.
  revert db x. induction rs as [|r rs IH]; intros db x; cbn [traverse]; [intros [= <- <-]; by repeat constructor|].
  intros E. apply se_bind_Ok in E as ([] & db1 & E1 & E). apply se_bind_Ok in E as (xs & db2 & E2 & [= <- <-]).
  apply persist_node_spec in E1 as (G1 & O1 & K1). apply IH in E2 as (G2 & O2 & K2). split_and!; [by etransitivity|congruence|].
  constructor; [|done]. eapply lookup_weaken; [exact K1|by apply stored_nodes_grow].
Qed.

(** ** Revisions *)

(** The checks of the schema hold of every row. *)
Definition checked (db : Database) : Prop :=
  map_Forall (fun _ row => (row_kind row = 1%Z /\ is_Some (row_root row) /\ row_version row = None) \/ (row_kind row = 2%Z /\ row_root row = None /\ is_Some (row_version row))) (object_revisions db).

Lemma persist_revision_checked r db db' : persist_object_revision r db = (Ok tt, db') -> checked db -> checked db'.
Proof.
  intros E Hc. pose proof (persist_revision_spec _ _ _ E) as (_ & _ & Hnone & Hrows). unfold checked. rewrite Hrows. apply map_Forall_insert; [done|]. split; [|done].
  unfold persist_object_revision in E. apply se_bind_Ok in E as (s & s' & [= <- <-] & E). case_bool_decide; [done|]. destruct (revision_admitted _ _ _) eqn:Ea; [|done].
  unfold revision_admitted in Ea. rewrite !andb_true_iff in Ea. destruct Ea as [[[[Ek _] _] _] _]. revert Ek. generalize (revision_row r). intros [v o k p d w g b a]. cbn.
  destruct k as [|[k|k|]|]; try done; [destruct k, d, w; try done; right|destruct d, w; try done; left]; eauto.
Qed.

Lemma identifier_decoded b x : decode_identifier b = Ok x -> identifier b = Ok x.
Proof. unfold decode_identifier, identifier. destruct (negb _); [done|]. destruct (Identifier.from_bytes b); [by intros [= ->]|done]. Qed.

Lemma identifier_id x : Identifier.valid x -> identifier (Identifier.as_bytes x) = Ok x.
Proof. intros Hx. unfold identifier, len, Identifier.as_bytes. rewrite length_be_bytes. cbn. fold (Identifier.as_bytes x). by rewrite from_bytes_as_bytes. Qed.

(** The directory revision a row holds, as both readers see it. *)
Definition directory_at (db : Database) (volume object revision : N) (d : bytes) : Prop :=
  load_revision db revision = Ok {| stored_volume := volume; stored_object := object; stored_kind := Directory; stored_root := Some d; stored_version := None |}.

Lemma new_directory_at db volume by_ at_ res :
  Identifier.valid volume -> Identifier.valid (result_object res) -> digest_ok (result_root res) ->
  object_revisions db !! Identifier.as_bytes (result_next res) = Some (revision_row (directory_revision volume by_ at_ res)) ->
  directory_at db volume (result_object res) (result_next res) (result_root res).
Proof.
  intros Hv Ho [Hd _] Hrow. unfold directory_at, load_revision. rewrite Hrow. cbn. unfold digest_array, len. rewrite Hd. cbn.
  by rewrite !identifier_id.
Qed.

Lemma old_directory_at db id r d :
  checked db -> load_object_revision db id = Ok r -> inserted_kind r = 1 -> inserted_root r = Some d ->
  directory_at db (inserted_volume r) (inserted_object r) id d /\ exists row, object_revisions db !! Identifier.as_bytes id = Some row /\ row_root row = Some d.
Proof.
  intros Hc. unfold load_object_revision. intros E. apply result_bind_Ok in E as (row & Hrow%ok_or_Ok & E). specialize (Hc _ _ Hrow). cbv beta in Hc.
  repeat match type of E with mbind _ _ = Ok _ => let x := fresh "x" in let Hx := fresh "E" in apply result_bind_Ok in E as (x & Hx & E) end.
  case_bool_decide; [|done]. injection E as <-. cbn [inserted_kind inserted_root inserted_volume inserted_object]. intros -> ->.
  destruct Hc as [(Ek & _ & Ev)|(Ek & _)]; [|by rewrite Ek in E2]. clear E2. unfold optionally in E4. destruct (row_root row) as [b|] eqn:Er; [|done].
  apply result_bind_Ok in E4 as (b' & Hb & [= ->]). unfold copy_array in Hb. destruct (len b =? 32) eqn:El; [|done]. injection Hb as ->.
  split; [|by exists row]. unfold directory_at, load_revision. rewrite Hrow. cbn [ok_or mbind result_bind]. rewrite Ek, Er, Ev. cbn [optional_column mbind result_bind].
  unfold digest_array. rewrite El. cbn. by rewrite (identifier_decoded _ _ E0), (identifier_decoded _ _ E1).
Qed.

End stores.

(** One directory of the path: its object, the revision it has and the one it gets. *)
Record Step := { step_object : N; step_old : N; step_new : N }.
Definition transition_step (t : DirectoryRevisionTransition) : Step :=
  {| step_object := transition_object t; step_old := expected_revision t; step_new := new_revision t |}.
Definition path_steps (root_object current next : N) (p : NamespacePublicationPath) : list Step :=
  {| step_object := root_object; step_old := current; step_new := next |} :: map transition_step (publication_ancestors p).

Section copying.
Context `{Blake3Bytes} `{Unicode}.

(** ** Loading *)

Definition loaded (db : Database) (volume : N) (s : Step) (c : NamespaceComponent) (d : LoadedDirectory) : Prop :=
  load_directory db (step_old s) (step_object s) (step_new s) volume c = Ok d.

(** The entry of a parent that selects the next directory. *)
Definition selects (d : LoadedDirectory) (c : NamespaceComponent) (s : Step) : Prop :=
  exists e, Directory.lookup (editor d) c = Ok (Some e) /\ kind e = Directory /\ object_id e = step_object s /\ object_revision_id e = step_old s.

Fixpoint chain (db : Database) (volume : N) (steps : list Step) (cs : list NamespaceComponent) (dirs : list LoadedDirectory) : Prop :=
  match steps, cs, dirs with
  | s :: steps', c :: cs', d :: dirs' =>
      loaded db volume s c d /\
      match steps' with
      | [] => cs' = [] /\ dirs' = []
      | next :: _ => selects d c next /\ chain db volume steps' cs' dirs'
      end
  | _, _, _ => False
  end.

Lemma load_ancestors_chain db volume cs pre_cs c rest pre d anc dirs s :
  cs = pre_cs ++ c :: rest -> length rest = length anc -> loaded db volume s c d ->
  try_fold (load_next_directory db volume cs) (pre ++ [d]) (imap (fun i t => ((length pre_cs + i)%nat, t)) anc) = Ok dirs ->
  exists tl, dirs = pre ++ d :: tl /\ chain db volume (s :: map transition_step anc) (c :: rest) (d :: tl).
Proof.
  revert pre_cs c rest pre d s. induction anc as [|t anc IH]; intros pre_cs c rest pre d s Ecs Hlen Hl.
  - cbn. intros [= <-]. destruct rest; [|done]. exists []. by split.
  - cbn [imap try_fold]. rewrite Nat.add_0_r. intros E. apply result_bind_Ok in E as (dirs1 & E1 & E). unfold load_next_directory in E1.
    destruct rest as [|c' rest]; [done|]. rewrite Ecs in E1.
    rewrite (list_lookup_middle pre_cs (c' :: rest) c (length pre_cs)) in E1 by done. cbn [ok_or mbind result_bind] in E1.
    replace ((pre_cs ++ c :: c' :: rest) !! S (length pre_cs)) with (Some c') in E1.
    2:{ rewrite lookup_app_r by lia. by replace (S (length pre_cs) - length pre_cs)%nat with 1%nat by lia. }
    cbn [ok_or mbind result_bind] in E1. rewrite last_snoc in E1. cbn [ok_or mbind result_bind] in E1.
    apply result_bind_Ok in E1 as (found & Hf%map_err_Ok & E1). apply result_bind_Ok in E1 as (e & He%ok_or_Ok & E1). subst found.
    destruct (_ || _) eqn:Ec; [done|]. apply result_bind_Ok in E1 as (d' & Hd & [= <-]). bool_cases.
    destruct (IH (pre_cs ++ [c]) c' rest (pre ++ [d]) d' (transition_step t)) as (tl & -> & Hch); [by rewrite Ecs, <- app_assoc|cbn in Hlen; lia|done| |].
    { rewrite <- E, length_app. f_equal. apply imap_ext. intros i x _. cbn. f_equal. lia. }
    exists (d' :: tl). split; [by rewrite <- app_assoc|]. cbn [map chain]. split; [done|]. split; [|exact Hch].
    exists e. cbn. repeat match goal with H : _ && _ = true |- _ => apply andb_true_iff in H as [? ?] end. bool_cases. by split_and!.
Qed.

Lemma load_path_chain db volume root_object current next p dirs :
  length (components (publication_path p)) = S (length (publication_ancestors p)) ->
  load_path_directories db volume root_object current next p = Ok dirs ->
  chain db volume (path_steps root_object current next p) (components (publication_path p)) dirs.
Proof.
  intros Hlen. unfold load_path_directories, path_steps. destruct (components (publication_path p)) as [|c rest] eqn:Ecs; [done|]. cbn [head ok_or mbind result_bind].
  intros E. apply result_bind_Ok in E as (d & Hd & E).
  destruct (load_ancestors_chain db volume (c :: rest) [] c rest [] d (publication_ancestors p) dirs {| step_object := root_object; step_old := current; step_new := next |})
    as (tl & -> & Hch); [done|cbn in Hlen; lia|done| |exact Hch].
  rewrite <- E. cbn [app length]. f_equal.
Qed.

Lemma chain_length db volume steps cs dirs : chain db volume steps cs dirs -> length dirs = length steps /\ length cs = length steps.
Proof.
  revert cs dirs. induction steps as [|s steps IH]; intros [|c cs] [|d dirs]; try done. intros [_ Hc]. destruct steps as [|s' steps].
  - by destruct Hc as [-> ->].
  - destruct Hc as [_ Hc]. apply IH in Hc as [E1 E2]. cbn [length] in *. lia.
Qed.

(** ** Editing *)

(** What replacing the entry of a child does to a directory of the path. *)
Definition copied (dirs : list LoadedDirectory) (cs : list NamespaceComponent) (made : list DirectoryNodeRecord) (i : nat) (res : DirectoryRevisionResult) : Prop :=
  exists d child n old e recs,
    dirs !! i = Some d /\ dirs !! S i = Some child /\ cs !! i = Some n /\ Directory.lookup (editor d) n = Ok (Some old) /\
    new_entry n (loaded_object child) (loaded_next child) Directory (generation old) = Ok e /\
    mutate_entry (editor d) e (Some (object_revision_id old)) = Ok (result_root res, recs) /\
    res = directory_result d (result_root res) /\ recs ⊆ made.

Lemma copied_mono dirs cs made made' i res : made ⊆ made' -> copied dirs cs made i res -> copied dirs cs made' i res.
Proof. intros Hs (d & child & n & old & e & recs & H1' & H2' & H3' & H4' & H5' & H6' & H7' & H8'). exists d, child, n, old, e, recs. split_and!; try done. set_solver. Qed.

Lemma propagate_loop_spec dirs cs k made results rs made' :
  propagate_loop dirs cs (reverse (seq 0 k)) made results = Ok (rs, made') ->
  exists up, rs = results ++ reverse up /\ length up = k /\ made ⊆ made' /\ forall i res, up !! i = Some res -> copied dirs cs made' i res.
Proof.
  revert made results. induction k as [|k IH]; intros made results.
  - intros [= <- <-]. exists []. split_and!; [by rewrite app_nil_r|done|done|]. intros i res. by rewrite lookup_nil.
  - rewrite seq_S, reverse_snoc. cbn [Nat.add propagate_loop]. intros E.
    apply result_bind_Ok in E as (child & Hch%ok_or_Ok & E). apply result_bind_Ok in E as (n & Hn%ok_or_Ok & E). apply result_bind_Ok in E as (d & Hd%ok_or_Ok & E).
    apply result_bind_Ok in E as (found & Hf%map_err_Ok & E). apply result_bind_Ok in E as (old & Ho%ok_or_Ok & E). subst found.
    apply result_bind_Ok in E as (e & He%map_err_Ok & E). apply result_bind_Ok in E as ([r recs] & Hm & E).
    apply IH in E as (up & -> & Hlen & Hsub & Hup). exists (up ++ [directory_result d r]). split_and!.
    + by rewrite reverse_snoc, <- app_assoc.
    + rewrite length_app. cbn. lia.
    + set_solver.
    + intros i res. rewrite lookup_app_Some, list_lookup_singleton_Some. intros [Hi|(Hi & Hz & <-)]; [by apply Hup|].
      replace i with k by lia. exists d, child, n, old, e, recs. split_and!; try done. set_solver.
Qed.

(** The request the last directory of the path serves. *)
Definition leaf_edited (d : LoadedDirectory) (made : list DirectoryNodeRecord) (op : DirectoryOp) (r : bytes) : Prop :=
  exists u t' recs, trie_step op (editor d) = (Ok u, t') /\ records_of t' (created_nodes u) = Ok recs /\ new_root u = r /\ recs ⊆ made.

(** A request to the last directory, carried up the path. *)
Definition path_edited (dirs : list LoadedDirectory) (cs : list NamespaceComponent) (made : list DirectoryNodeRecord) (op : DirectoryOp)
    (results : list DirectoryRevisionResult) : Prop :=
  exists leaf r up, last dirs = Some leaf /\ results = up ++ [directory_result leaf r] /\ length dirs = S (length up) /\
    leaf_edited leaf made op r /\ forall i res, up !! i = Some res -> copied dirs cs made i res.

Lemma propagate_spec dirs p r made m leaf op :
  last dirs = Some leaf -> leaf_edited leaf made op r -> propagate_directory_change dirs p r made = Ok m ->
  path_edited dirs (components (publication_path p)) (mutated_nodes m) op (mutated_directories m).
Proof.
  intros Hleaf (u & t' & recs & L1 & L2 & L3 & L4). unfold propagate_directory_change. rewrite Hleaf. cbn [ok_or mbind result_bind]. intros E.
  apply result_bind_Ok in E as ([rs made'] & Hp & [= <-]). apply propagate_loop_spec in Hp as (up & -> & Hlen & Hsub & Hup).
  exists leaf, r, up. cbn [mutated_directories mutated_nodes app]. split_and!; [done|by rewrite reverse_cons, reverse_involutive| | |done].
  - rewrite Hlen. destruct dirs; [done|]. cbn. lia.
  - exists u, t', recs. split_and!; try done. set_solver.
Qed.

Lemma mutate_path_spec dirs p e expected m :
  mutate_namespace_path dirs p e expected = Ok m ->
  path_edited dirs (components (publication_path p)) (mutated_nodes m) (Upsert e expected) (mutated_directories m).
Proof.
  unfold mutate_namespace_path. intros E. apply result_bind_Ok in E as (leaf & Hl%ok_or_Ok & E). apply result_bind_Ok in E as ([r recs] & Hm & E).
  eapply propagate_spec; [done| |exact E]. unfold mutate_entry in Hm. destruct (upsert _ _ _) as [[u|x] t'] eqn:Eu; [|done].
  apply result_bind_Ok in Hm as (recs' & Hr%map_err_Ok & [= <- <-]). by exists u, t', recs'.
Qed.

Lemma remove_path_spec dirs p n expected m :
  leaf_name p = Some n -> remove_namespace_path dirs p expected = Ok m ->
  path_edited dirs (components (publication_path p)) (mutated_nodes m) (Remove n expected) (mutated_directories m).
Proof.
  intros Hn. unfold remove_namespace_path. rewrite Hn. intros E. apply result_bind_Ok in E as (leaf & Hl%ok_or_Ok & E). cbn [ok_or mbind result_bind] in E.
  destruct (Directory.remove _ _ _) as [[u|x] t'] eqn:Eu; [|done]. apply result_bind_Ok in E as (recs & Hr%map_err_Ok & E).
  eapply propagate_spec; [done| |exact E]. by exists u, t', recs.
Qed.

(** ** On the whole database *)

(** A part of the database, edited and persisted, against the directory it is part of. *)
Lemma edit_whole db db' t op u t' recs m :
  nodes t ⊆ stored_nodes db -> represents (trie_of db (root t)) m -> text (op_key op) -> grows db db' ->
  trie_step op t = (Ok u, t') -> records_of t' (created_nodes u) = Ok recs -> Forall (held (stored_nodes db')) recs ->
  exists m', map_step op m = Ok m' /\ represents (trie_of db' (new_root u)) m'.
Proof.
  intros Hpart Hrep Hkey Hg Hstep Hrecs Hheld. destruct (step_frames _ _ _ _ Hstep) as (Hroot & Hsub & Hnew & Hsame).
  assert (nodes t' ⊆ stored_nodes db') as Hsub'.
  { apply map_subseteq_spec. intros x n Hx. destruct (Hnew _ _ Hx) as [Hold|Hmade].
    - eapply lookup_weaken; [|by apply stored_nodes_grow]. by eapply lookup_weaken.
    - apply try_map_Forall2 in Hrecs. rewrite list_elem_of_lookup in Hmade. destruct Hmade as [i Hi].
      destruct (Forall2_lookup_l _ _ _ _ _ Hrecs Hi) as (r & Hr & Er). unfold record in Er. apply result_bind_Ok in Er as (n' & Hn' & [= <-]).
      rewrite Forall_lookup in Hheld. specialize (Hheld _ _ Hr). apply load_verified_Ok in Hn' as (Hn' & _). rewrite Hx in Hn'. by injection Hn' as <-. }
  destruct (Hsame _ Hsub') as (u' & Hwhole & Eroot). set (tw := whole (stored_nodes db') t) in *.
  assert (represents tw m) as Hw by (eapply (represents_grow (trie_of db (root t))); [by apply stored_nodes_grow|done|done]).
  pose proof (step_simulates False op tw m Hw (conj (represents_good _ _ Hw) (False_ind _)) Hkey) as Hsim. unfold post in Hsim. rewrite Hwhole in Hsim.
  cbn [fst snd] in Hsim. destruct Hsim as [[_ Hsim] _]. destruct (map_step op m) as [m'|x]; [|done]. destruct Hsim as (Hr' & _ & En & _). exists m'. split; [done|].
  eapply (represents_grow (whole (stored_nodes db') t')); [done| |exact Hr']. cbn. by rewrite <- Hroot.
Qed.

Lemma represents_digest db d m : represents (trie_of db d) m -> digest_ok d.
Proof. intros [Hg _ _]. apply good_loads in Hg as [n (_ & _ & E)%load_verified_Ok]. cbn [root trie_of] in E. rewrite <- E. apply blake3_bytes. Qed.

(** What loading says of one directory. *)
Lemma loaded_directory db volume s c d :
  checked db -> well_formed db -> loaded db volume s c d ->
  loaded_object d = step_object s /\ loaded_next d = step_new s /\ nodes (editor d) ⊆ stored_nodes db /\
  directory_at db volume (step_object s) (step_old s) (root (editor d)) /\ exists m, represents (trie_of db (root (editor d))) m.
Proof.
  intros Hc Hw. unfold loaded, load_directory. intros E. apply result_bind_Ok in E as (r & Hr & E). destruct (_ || _) eqn:Ec; [done|]. bool_cases.
  apply result_bind_Ok in E as (from & Hfrom%ok_or_Ok & E). apply result_bind_Ok in E as (t & Ht & [= <-]). cbn [loaded_object loaded_next editor].
  apply load_path_editor_part in Ht as [-> Ht]. destruct (old_directory_at _ _ r from Hc Hr) as [Hat (row & Hrow & Hd)]; [done..|].
  repeat match goal with H : inserted_object r = _ |- _ => rewrite H in Hat; clear H | H : inserted_volume r = _ |- _ => rewrite H in Hat; clear H end.
  split_and!; [done..|by eapply Hw].
Qed.

(** Every directory of the path before and after: the last one served the request, each other
    one has the entry of its child replaced. *)
Definition respelled (c : NamespaceComponent) (old : DirectoryEntry) (revision : N) : DirectoryEntry :=
  {| name := c; object_id := object_id old; object_revision_id := revision; kind := Directory; generation := generation old |}.

Fixpoint rewritten (db db' : Database) (volume : N) (op : DirectoryOp) (steps : list Step) (cs : list NamespaceComponent) : Prop :=
  match steps, cs with
  | s :: steps', c :: cs' =>
      exists d d' m m',
        directory_at db volume (step_object s) (step_old s) d /\ represents (trie_of db d) m /\
        directory_at db' volume (step_object s) (step_new s) d' /\ represents (trie_of db' d') m' /\
        match steps' with
        | [] => cs' = [] /\ map_step op m = Ok m'
        | next :: _ =>
            (exists old, m !! canonical c = Some old /\ kind old = Directory /\ object_id old = step_object next /\ object_revision_id old = step_old next /\
               m' = <[canonical c := respelled c old (step_new next)]> m) /\
            rewritten db db' volume op steps' cs'
        end
  | _, _ => False
  end.

Definition row_of (db : Database) (volume by_ : N) (at_ : Z) (res : DirectoryRevisionResult) : Prop :=
  object_revisions db !! Identifier.as_bytes (result_next res) = Some (revision_row (directory_revision volume by_ at_ res)).

(** One directory of the path. *)
Lemma rewritten_here db db' volume by_ at_ s c d op u t' recs r :
  checked db -> well_formed db -> grows db db' -> Identifier.valid volume -> Identifier.valid (step_object s) ->
  loaded db volume s c d -> text (op_key op) -> trie_step op (editor d) = (Ok u, t') -> records_of t' (created_nodes u) = Ok recs ->
  Forall (held (stored_nodes db')) recs -> new_root u = r -> row_of db' volume by_ at_ (directory_result d r) ->
  exists m m', directory_at db volume (step_object s) (step_old s) (root (editor d)) /\ represents (trie_of db (root (editor d))) m /\
    directory_at db' volume (step_object s) (step_new s) r /\ represents (trie_of db' r) m' /\ map_step op m = Ok m' /\
    forall n x, text (canonical n) -> Directory.lookup (editor d) n = Ok x -> m !! canonical n = x.
Proof.
  intros Hc Hw Hg Hvol Hobj Hl Hkey Hstep Hrecs Hheld <- Hrow. destruct (loaded_directory _ _ _ _ _ Hc Hw Hl) as (E1 & E2 & Hpart & Hat & m & Hm).
  destruct (edit_whole db db' (editor d) op u t' recs m) as (m' & Hms & Hm'); [done..|]. exists m, m'. split_and!; try done.
  - pose proof (new_directory_at db' volume by_ at_ (directory_result d (new_root u))) as Hnew. cbn [directory_result result_object result_next result_root] in Hnew.
    rewrite E1, E2 in Hnew. apply Hnew; [done|done|by eapply represents_digest|]. unfold row_of in Hrow. cbn [directory_result result_next] in Hrow. by rewrite E2 in Hrow.
  - intros n x Hn Hx. pose proof (lookup_whole (stored_nodes db) (editor d) n x Hpart Hx) as Hlk.
    assert (Directory.lookup (trie_of db (root (editor d))) n = Ok x) as Hlk' by exact Hlk. rewrite (lookup_represented _ m) in Hlk' by done. by injection Hlk' as ->.
Qed.

Lemma rewritten_intro db db' volume by_ at_ op made steps cs dirs results :
  checked db -> well_formed db -> grows db db' -> Identifier.valid volume -> Forall (fun s => Identifier.valid (step_object s)) steps ->
  Forall (fun c => text (canonical c)) cs -> text (op_key op) -> chain db volume steps cs dirs -> path_edited dirs cs made op results ->
  Forall (held (stored_nodes db')) made -> Forall (row_of db' volume by_ at_) results ->
  rewritten db db' volume op steps cs /\ Forall (fun res => exists m, represents (trie_of db' (result_root res)) m) results.
Proof.
  intros Hc Hw Hg Hvol Hobjs Hcs Hkey Hch Hed Hheld Hrows. revert cs dirs results Hobjs Hcs Hch Hed Hrows.
  induction steps as [|s steps IH]; intros [|c cs] [|d dirs] results; try done. intros [Ho Hobjs]%Forall_cons [Htc Hcs]%Forall_cons [Hl Hch] (leaf & r & up & Hlast & -> & Hlen & Hleaf & Hup) Hrows.
  destruct steps as [|next steps].
  - destruct Hch as [-> ->]. destruct up; [|done]. injection Hlast as <-. destruct Hleaf as (u & t' & recs & L1 & L2 & L3 & L4). apply Forall_cons in Hrows as [Hrow _].
    destruct (rewritten_here db db' volume by_ at_ s c d op u t' recs r) as (m & m' & R1 & R2 & R3 & R4 & R5 & _); try done.
    { rewrite Forall_forall in Hheld |- *. intros x Hx. by apply Hheld, L4. }
    split; [by exists (root (editor d)), r, m, m'|]. repeat constructor. by exists m'.
  - destruct Hch as [(e & Hlk & Hk & Eo & Er) Hch]. pose proof (chain_length _ _ _ _ _ Hch) as [Hdl _]. destruct dirs as [|child dirs]; [done|].
    destruct up as [|res up]; [cbn in Hlen; lia|]. apply Forall_cons in Hrows as [Hrow Hrows].
    destruct (Hup 0%nat res eq_refl) as (d0 & child0 & n & old & e' & recs & [= <-] & [= <-] & [= <-] & Hlk' & Hne & Hmu & Eres & Hin).
    rewrite Hlk in Hlk'. injection Hlk' as <-. unfold mutate_entry in Hmu. destruct (upsert _ _ _) as [[u|x] t'] eqn:Eu; [|done].
    apply result_bind_Ok in Hmu as (recs' & Hrs%map_err_Ok & [= Er' <-]). rewrite Eres in Hrow. unfold new_entry in Hne. destruct (generation e =? 0); [done|]. injection Hne as <-.
    match type of Eu with upsert ?x ?y _ = _ => set (op' := Upsert x y) end.
    destruct (rewritten_here db db' volume by_ at_ s c d op' u t' recs' (result_root res)) as (m & m' & R1 & R2 & R3 & R4 & R5 & R6); try done.
    { rewrite Forall_forall in Hheld |- *. intros x Hx. by apply Hheld, Hin. }
    assert (rewritten db db' volume op (next :: steps) cs /\ Forall (fun res => exists m, represents (trie_of db' (result_root res)) m) (up ++ [directory_result leaf r])) as [Hrest Hroots].
    { apply (IH cs (child :: dirs)); try done. exists leaf, r, up. split_and!; try done; [cbn [length] in *; lia|]. intros i res' Hi. exact (Hup (S i) res' Hi). }
    split; [|constructor; [by exists m'|exact Hroots]]. exists (root (editor d)), (result_root res), m, m'. split_and!; try done.
    exists e. pose proof (R6 c (Some e) Htc Hlk) as Hme. split_and!; try done.
      unfold op' in R5. cbn [map_step] in R5. apply result_bind_Ok in R5 as ([] & _ & [= <-]). destruct cs as [|c2 cs2]; [done|]. destruct Hch as [Hlc _].
      destruct (loaded_directory _ _ _ _ _ Hc Hw Hlc) as (C1 & C2 & _). unfold respelled. by rewrite C1, C2, Eo.
Qed.

End copying.
