(* ===== verification/PathCopySafe.v ===== *)
(** Copy on write: a publication changes what a reader of the new root sees at its path and
    nowhere else, and readers of older roots see no change at all. *)

From S2P Require Import Prelude Ids Codec Contracts Name Directory DirectoryFacts DirectoryMap Intent BranchStore PathCopy Query PathCopyFacts.
From stdpp Require Import prelude gmap list.
#[local] Open Scope N_scope.

Definition key_of (q : list NamespaceComponent) : list Str := map canonical q.
Definition texts (q : list NamespaceComponent) : Prop := Forall (fun c => text (canonical c)) q.

(** A query that found its target, or that there is none. *)
Definition answered {A} (r : result NamespaceQueryError A) : Prop := match r with Ok _ | Err NotFound => True | Err _ => False end.

Section reading.
Context `{Blake3Bytes} `{Unicode}.

(** ** Resolving a path *)

Lemma resolve_directory_at db volume object revision d m c rest :
  directory_at db volume object revision d -> represents (trie_of db d) m -> text (canonical c) ->
  resolve_loop db volume object revision (c :: rest) =
    match m !! canonical c with
    | None => Err NotFound
    | Some e => match rest with [] => Ok e | _ => if bool_decide (kind e = Directory) then resolve_loop db volume (object_id e) (object_revision_id e) rest else Err NotFound end
    end.
Proof.
  intros Hat Hr Hc. cbn [resolve_loop]. rewrite Hat. cbn [mbind result_bind stored_volume stored_object stored_kind stored_root ok_or].
  rewrite !N.eqb_refl, bool_decide_eq_true_2 by done. cbn [negb orb]. rewrite (lookup_entry_represented db d m) by done. cbn [mbind result_bind].
  destruct (m !! canonical c) as [e|]; cbn [ok_or mbind result_bind]; [|done]. destruct rest; [done|]. by destruct (bool_decide _).
Qed.

Lemma load_revision_grow db db' id x : grows db db' -> load_revision db id = Ok x -> load_revision db' id = Ok x.
Proof.
  intros Hg. unfold load_revision. intros E. apply result_bind_Ok in E as (row & Hrow%ok_or_Ok & E).
  by rewrite (lookup_weaken _ _ _ _ Hrow (grows_revisions _ _ Hg)).
Qed.

Lemma load_revision_root db id x d : load_revision db id = Ok x -> stored_root x = Some d -> exists key row, object_revisions db !! key = Some row /\ row_root row = Some d.
Proof.
  unfold load_revision. intros E. apply result_bind_Ok in E as (row & Hrow%ok_or_Ok & E). apply result_bind_Ok in E as (k & _ & E).
  apply result_bind_Ok in E as (from & Hf & E). apply result_bind_Ok in E as (v & _ & E). destruct (_ || _); [done|].
  apply result_bind_Ok in E as (vol & _ & E). apply result_bind_Ok in E as (o & _ & [= <-]). cbn. intros ->. exists (Identifier.as_bytes id), row. split; [done|].
  unfold optional_column in Hf. destruct (row_root row) as [b|]; [|done]. apply result_bind_Ok in Hf as (b' & Hb & [= ->]). unfold digest_array in Hb.
  destruct (_ =? _); [|done]. by injection Hb as ->.
Qed.

Lemma column_answered {A} (f : bytes -> result NamespaceQueryError A) o :
  (forall b, f b <> Err NotFound) -> optional_column f o <> Err NotFound.
Proof. intros Hf. destruct o as [b|]; cbn; [|done]. specialize (Hf b). destruct (f b); cbn; congruence. Qed.

Lemma identifier_answered b : identifier b <> Err NotFound.
Proof. unfold identifier. destruct (negb _); [done|]. by destruct (Identifier.from_bytes b). Qed.

Lemma load_revision_answered db id : load_revision db id <> Err NotFound.
Proof.
  unfold load_revision. destruct (object_revisions db !! _) as [row|]; cbn [ok_or mbind result_bind]; [|done].
  destruct (match row_kind row with 1%Z => _ | 2%Z => _ | _ => _ end) as [k|x] eqn:Ek; cbn [mbind result_bind].
  2:{ revert Ek. destruct (row_kind row) as [|[[]|[]|]|]; congruence. }
  pose proof (column_answered digest_array (row_root row)) as H1'. destruct (optional_column digest_array _) as [d|x]; cbn [mbind result_bind].
  2:{ intros [= ->]. apply H1'; [|done]. intros b. unfold digest_array. by destruct (_ =? _). }
  pose proof (column_answered identifier (row_version row) identifier_answered) as H2'. destruct (optional_column identifier _) as [v|x]; cbn [mbind result_bind]; [|congruence].
  destruct (_ || _); [done|]. pose proof (identifier_answered (row_volume row)). destruct (identifier (row_volume row)); cbn [mbind result_bind]; [|congruence].
  pose proof (identifier_answered (row_object row)). destruct (identifier (row_object row)); cbn [mbind result_bind]; congruence.
Qed.

Lemma load_revision_directory db id x d :
  load_revision db id = Ok x -> stored_kind x = Directory -> stored_root x = Some d -> directory_at db (stored_volume x) (stored_object x) id d.
Proof.
  intros Hx Hk Hd. unfold directory_at. rewrite Hx. destruct x as [vol o k r v]. cbn in *. subst k r. do 2 f_equal.
  unfold load_revision in Hx. repeat match type of Hx with mbind _ _ = Ok _ => apply result_bind_Ok in Hx as (? & ? & Hx) end.
  destruct (_ || _) eqn:Ec; [done|]. repeat match type of Hx with mbind _ _ = Ok _ => apply result_bind_Ok in Hx as (? & ? & Hx) end. injection Hx as <- <- -> -> <-.
  apply orb_false_iff in Ec as [_ Ec]. rewrite bool_decide_eq_false_2 in Ec by done. match goal with |- ?v = None => destruct v; [|done] end. cbn in Ec. done.
Qed.

(** A directory that resolves at all. *)
Lemma resolve_reads db volume object revision c rest :
  well_formed db -> answered (resolve_loop db volume object revision (c :: rest)) ->
  exists d m, directory_at db volume object revision d /\ represents (trie_of db d) m.
Proof.
  intros Hw Ha. cbn [resolve_loop] in Ha. pose proof (load_revision_answered db revision) as Hne.
  destruct (load_revision db revision) as [x|[]] eqn:Ex; cbn [mbind result_bind] in Ha; try done.
  destruct (_ || _) eqn:Ec; [done|]. bool_cases. destruct (stored_root x) as [d|] eqn:Ed; cbn [ok_or mbind result_bind] in Ha; [|done].
  destruct (load_revision_root _ _ _ _ Ex Ed) as (key & row & Hrow & Hd). destruct (Hw _ _ _ Hrow Hd) as [m Hm]. exists d, m. split; [|done].
  subst. by apply load_revision_directory.
Qed.

(** Readers of what is already there are not disturbed. *)
Lemma resolve_grow db db' volume object revision q :
  well_formed db -> grows db db' -> texts q -> answered (resolve_loop db volume object revision q) ->
  resolve_loop db' volume object revision q = resolve_loop db volume object revision q.
Proof.
  intros Hw Hg. revert object revision. induction q as [|c rest IH]; intros object revision Ht Ha; [done|]. apply Forall_cons in Ht as [Hc Ht].
  destruct (resolve_reads _ _ _ _ _ _ Hw Ha) as (d & m & Hat & Hm). rewrite (resolve_directory_at db _ _ _ d m) in Ha |- * by done.
  rewrite (resolve_directory_at db' _ _ _ d m); [|by eapply load_revision_grow|by eapply represents_stored|done].
  destruct (m !! canonical c) as [e|]; [|done]. destruct rest as [|c' rest]; [done|]. destruct (bool_decide _); [|done]. by apply IH.
Qed.

(** ** The copied path *)

Definition op_entry (op : DirectoryOp) : option DirectoryEntry := match op with Upsert e _ => Some e | Remove _ _ => None end.
Definition leaf_answer (op : DirectoryOp) : result NamespaceQueryError DirectoryEntry := ok_or (op_entry op) NotFound.

Lemma map_step_at op m m' : map_step op m = Ok m' -> m' !! op_key op = op_entry op /\ forall k, k <> op_key op -> m' !! k = m !! k.
Proof.
  destruct op as [e x|n x]; cbn [map_step op_key op_entry]; intros E.
  - apply result_bind_Ok in E as ([] & _ & [= <-]). split; [apply lookup_insert_eq|]. intros k Hk. by rewrite lookup_insert_ne.
  - apply result_bind_Ok in E as (p & _ & E). destruct (negb _); [done|]. injection E as <-. split; [apply lookup_delete_eq|]. intros k Hk. by rewrite lookup_delete_ne.
Qed.

(** The last component names the entry requested. *)
Definition leads_to (cs : list NamespaceComponent) (op : DirectoryOp) : Prop := canonical <$> last cs = Some (op_key op).

Section rewritten.
Context (db db' : Database) (volume : N) (op : DirectoryOp).

Lemma rewritten_leaf s steps cs q :
  rewritten db db' volume op (s :: steps) cs -> leads_to cs op -> texts q -> key_of q = key_of cs ->
  resolve_loop db' volume (step_object s) (step_new s) q = leaf_answer op.
Proof.
  revert s cs q. induction steps as [|next steps IH]; intros s [|c cs] q; try done.
  - intros (d & d' & m & m' & _ & _ & Hat & Hm' & -> & Hs) Hlead Ht Hq. destruct q as [|c' [|]]; try done. injection Hq as Ec. apply Forall_cons in Ht as [Hc _].
    rewrite (resolve_directory_at db' _ _ _ d' m') by done. apply map_step_at in Hs as [Hs _]. unfold leads_to in Hlead. cbn in Hlead. injection Hlead as Hk.
    rewrite Ec, Hk, Hs. unfold leaf_answer. by destruct (op_entry op).
  - intros (d & d' & m & m' & _ & _ & Hat & Hm' & (old & _ & _ & Eo & _ & Em) & Hrest) Hlead Ht Hq. destruct q as [|c' q]; [done|]. injection Hq as Ec Hq.
    apply Forall_cons in Ht as [Hc Ht]. rewrite (resolve_directory_at db' _ _ _ d' m') by done. rewrite Ec, Em, lookup_insert_eq. destruct cs as [|c2 cs]; [done|].
    destruct q as [|c2' q]; [done|]. cbn [kind respelled]. rewrite bool_decide_eq_true_2 by done. cbn [object_id object_revision_id respelled]. rewrite Eo. by apply (IH next (c2 :: cs)).
Qed.

Lemma rewritten_ancestor s steps cs i c next q :
  rewritten db db' volume op (s :: steps) cs -> steps !! i = Some next -> cs !! i = Some c -> texts q -> key_of q = key_of (take (S i) cs) ->
  exists old, resolve_loop db volume (step_object s) (step_old s) q = Ok old /\ kind old = Directory /\ object_id old = step_object next /\
    object_revision_id old = step_old next /\ resolve_loop db' volume (step_object s) (step_new s) q = Ok (respelled c old (step_new next)).
Proof.
  revert s cs i q. induction steps as [|s' steps IH]; intros s [|c0 cs] i q; try done.
  intros (d & d' & m & m' & Hat0 & Hm0 & Hat & Hm' & (old & Hold & Hk & Eo & Er & Em) & Hrest) Hi Hci Ht Hq. destruct q as [|c' q]; [done|]. injection Hq as Ec Hq.
  apply Forall_cons in Ht as [Hc Ht]. rewrite (resolve_directory_at db' _ _ _ d' m'), (resolve_directory_at db _ _ _ d m) by done. rewrite Ec, Em, lookup_insert_eq, Hold.
  destruct i as [|i]; cbn [lookup list_lookup] in Hi, Hci.
  - injection Hi as ->. injection Hci as ->. destruct q; [|done]. by exists old.
  - destruct q as [|c2 q]; [by destruct cs|]. cbn [kind respelled object_id object_revision_id]. rewrite !bool_decide_eq_true_2, Eo, Er by done. by apply (IH s' cs i).
Qed.

Lemma rewritten_elsewhere s steps cs q :
  well_formed db -> grows db db' -> rewritten db db' volume op (s :: steps) cs -> leads_to cs op -> texts q ->
  ~ key_of q `prefix_of` key_of cs -> ~ key_of cs `prefix_of` key_of q -> answered (resolve_loop db volume (step_object s) (step_old s) q) ->
  resolve_loop db' volume (step_object s) (step_new s) q = resolve_loop db volume (step_object s) (step_old s) q.
Proof.
  intros Hw Hg. revert s cs q. induction steps as [|s' steps IH]; intros s [|c0 cs] q; try done; intros (d & d' & m & m' & Hat0 & Hm0 & Hat & Hm' & Hrest) Hlead Ht Hq1 Hq2 Ha.
  all: destruct q as [|c q]; [by destruct Hq1; apply prefix_nil|]; apply Forall_cons in Ht as [Hc Ht].
  all: rewrite (resolve_directory_at db _ _ _ d m) in Ha |- * by done; rewrite (resolve_directory_at db' _ _ _ d' m') by done.
  - destruct Hrest as [-> [_ Hs]%map_step_at]. rewrite Hs. 2:{ intros E. apply Hq2. unfold leads_to in Hlead. cbn in Hlead. injection Hlead as Hk. cbn. rewrite Hk, E. by apply prefix_cons, prefix_nil. }
    destruct (m !! canonical c) as [e|]; [|done]. destruct q as [|c' q]; [done|]. destruct (bool_decide _); [|done]. by apply resolve_grow.
  - destruct Hrest as [(old & Hold & Hk & Eo & Er & Em) Hrest]. destruct (decide (canonical c = canonical c0)) as [Ec|Hne].
    + rewrite Ec, Hold in Ha |- *. rewrite Em, lookup_insert_eq. destruct q as [|c' q]; [destruct Hq1; cbn; rewrite Ec; apply prefix_cons, prefix_nil|].
      cbn [kind respelled object_id object_revision_id]. rewrite Hk in Ha |- *. rewrite bool_decide_eq_true_2 in Ha |- * by done. rewrite Eo, Er in Ha |- *.
      destruct cs as [|c1 cs]; [by destruct steps|]. apply (IH s' (c1 :: cs)); try done.
      * intros Hp. apply Hq1. cbn. rewrite Ec. by apply prefix_cons.
      * intros Hp. apply Hq2. cbn. rewrite Ec. by apply prefix_cons.
    + rewrite Em, lookup_insert_ne by done. destruct (m !! canonical c) as [e|]; [|done]. destruct q as [|c' q]; [done|]. destruct (bool_decide _); [|done]. by apply resolve_grow.
Qed.

End rewritten.

(** ** Persisting *)

Lemma persist_revisions_spec volume by_ at_ ds db x db' :
  traverse (fun d => persist_object_revision (directory_revision volume by_ at_ d)) ds db = (Ok x, db') ->
  grows db db' /\ stored_nodes db' = stored_nodes db /\ (checked db -> checked db') /\ Forall (row_of db' volume by_ at_) ds /\
  forall key row, object_revisions db' !! key = Some row -> object_revisions db !! key = Some row \/ exists res, res ∈ ds /\ row_root row = Some (result_root res).
Proof.
  revert db x. induction ds as [|d ds IH]; intros db x; cbn [traverse]; [intros [= <- <-]; split_and!; try done; by left|].
  intros E. apply se_bind_Ok in E as ([] & db1 & E1 & E). apply se_bind_Ok in E as (xs & db2 & E2 & [= <- <-]).
  pose proof (persist_revision_checked _ _ _ E1) as Hc. apply persist_revision_spec in E1 as (G1 & N1 & F1 & R1). apply IH in E2 as (G2 & N2 & C2 & W2 & R2).
  split_and!; [by etransitivity|congruence|auto|constructor; [|done]|].
  - unfold row_of. eapply lookup_weaken; [|apply G2]. rewrite R1. apply lookup_insert_eq.
  - intros key row Hrow. destruct (R2 _ _ Hrow) as [Hold|(res & Hres & Hroot)]; [|right; exists res; set_solver].
    rewrite R1, lookup_insert_Some in Hold. destruct Hold as [[_ <-]|[_ Hold]]; [|by left]. right. exists d. split; [set_solver|done].
Qed.

Lemma persist_path_spec volume by_ at_ m db db' :
  persist_path_mutation volume by_ at_ m db = (Ok tt, db') ->
  grows db db' /\ (checked db -> checked db') /\ Forall (held (stored_nodes db')) (mutated_nodes m) /\ Forall (row_of db' volume by_ at_) (mutated_directories m) /\
  forall key row, object_revisions db' !! key = Some row -> object_revisions db !! key = Some row \/ exists res, res ∈ mutated_directories m /\ row_root row = Some (result_root res).
Proof.
  unfold persist_path_mutation, persist_directory_path_revisions. intros E. apply se_bind_Ok in E as (xs & db1 & E1 & E). apply se_bind_Ok in E as (ys & db2 & E2 & [= <-]).
  apply persist_nodes_spec in E1 as (G1 & O1 & W1). apply persist_revisions_spec in E2 as (G2 & N2 & C2 & W2 & R2). split_and!; [by etransitivity| |by rewrite N2|done|by rewrite <- O1].
  unfold checked in *. rewrite O1 in C2. exact C2.
Qed.

(** ** The guarantee *)

(** A request served along a path, as a publication or a removal makes it. *)
Definition edit_path (dirs : list LoadedDirectory) (p : NamespacePublicationPath) (op : DirectoryOp) : result PublicationError DirectoryPathMutation :=
  match op with Upsert e expected => mutate_namespace_path dirs p e expected | Remove _ expected => remove_namespace_path dirs p expected end.

(** Paths as their constructors make them. *)
Record publishable (volume root_object : N) (p : NamespacePublicationPath) : Prop := {
  publishable_ids : Identifier.valid volume /\ Identifier.valid root_object /\ Forall (fun t => Identifier.valid (transition_object t)) (publication_ancestors p);
  publishable_texts : texts (components (publication_path p));
  publishable_shape : new_publication_path (publication_path p) (publication_ancestors p) = Ok p
}.

Lemma publishable_chain db volume root_object current next p dirs :
  new_publication_path (publication_path p) (publication_ancestors p) = Ok p -> load_path_directories db volume root_object current next p = Ok dirs ->
  chain db volume (path_steps root_object current next p) (components (publication_path p)) dirs.
Proof.
  intros Hs. apply load_path_chain. unfold new_publication_path in Hs. case_bool_decide as El; [|done]. apply checked_add_Some in El as [El _]. unfold len in El. lia.
Qed.

Lemma edit_path_spec dirs p op m :
  canonical <$> leaf_name p = Some (op_key op) -> edit_path dirs p op = Ok m ->
  path_edited dirs (components (publication_path p)) (mutated_nodes m) op (mutated_directories m).
Proof.
  intros Hleaf. destruct op as [e x|n x]; cbn [edit_path]; [apply mutate_path_spec|]. destruct (leaf_name p) as [n'|] eqn:En; [|done]. injection Hleaf as Hk. cbn [op_key] in Hk.
  intros Hm. apply (remove_path_spec _ _ n') in Hm as (leaf & r & up & E1 & E2 & E3 & (u & t' & recs & S1 & S2) & E5); [|done]. exists leaf, r, up. split_and!; try done.
  exists u, t', recs. split; [|done]. cbn [trie_step] in S1 |- *. unfold Directory.remove, Directory.lookup, lookup_at in *. by rewrite Hk in S1.
Qed.

(** What the readers of an older root see. *)
Definition undisturbed (db db' : Database) : Prop :=
  forall volume object revision q, texts q -> answered (resolve_loop db volume object revision q) ->
    resolve_loop db' volume object revision q = resolve_loop db volume object revision q.

(** The same of any statements that leave the nodes and rows of the path, with other rows that
    stand for directories. *)
Lemma path_copied_by db volume root_object current next p dirs op m by_ at_ db' :
  checked db -> well_formed db -> publishable volume root_object p -> canonical <$> leaf_name p = Some (op_key op) ->
  load_path_directories db volume root_object current next p = Ok dirs -> edit_path dirs p op = Ok m ->
  grows db db' -> checked db' -> Forall (held (stored_nodes db')) (mutated_nodes m) -> Forall (row_of db' volume by_ at_) (mutated_directories m) ->
  (forall key row d, object_revisions db' !! key = Some row -> row_root row = Some d ->
     object_revisions db !! key = Some row \/ (exists res, res ∈ mutated_directories m /\ d = result_root res) \/ exists x, represents (trie_of db' d) x) ->
  let cs := components (publication_path p) in
  (checked db' /\ well_formed db' /\ undisturbed db db') /\
  (forall q, texts q -> key_of q = key_of cs -> resolve_loop db' volume root_object next q = leaf_answer op) /\
  (forall i c t q, publication_ancestors p !! i = Some t -> cs !! i = Some c -> texts q -> key_of q = key_of (take (S i) cs) ->
     exists old, resolve_loop db volume root_object current q = Ok old /\ object_id old = transition_object t /\ object_revision_id old = expected_revision t /\
       resolve_loop db' volume root_object next q = Ok (respelled c old (new_revision t))) /\
  (forall q, texts q -> ~ key_of q `prefix_of` key_of cs -> ~ key_of cs `prefix_of` key_of q -> answered (resolve_loop db volume root_object current q) ->
     resolve_loop db' volume root_object next q = resolve_loop db volume root_object current q).
Proof.
  intros Hc Hw [(Hvol & Hroot & Hids) Htexts Hshape] Hleaf Hload Hedit Hg Hck Hheld Hrows Hnew. cbv zeta. set (cs := components (publication_path p)) in *.
  pose proof (publishable_chain _ _ _ _ _ _ _ Hshape Hload) as Hch. pose proof (edit_path_spec _ _ _ _ Hleaf Hedit) as Hed. fold cs in Hch, Hed.
  assert (leads_to cs op) as Hlead by exact Hleaf. assert (text (op_key op)) as Hkey.
  { unfold leads_to in Hlead. destruct (last cs) as [c|] eqn:El; [|done]. injection Hlead as <-. apply last_Some_elem_of in El. unfold texts in Htexts. rewrite Forall_forall in Htexts. by apply Htexts. }
  destruct (rewritten_intro db db' volume by_ at_ op (mutated_nodes m) (path_steps root_object current next p) cs dirs (mutated_directories m)) as [Hre Hroots]; try done.
  { constructor; [done|]. apply Forall_map. exact Hids. }
  split_and!; [auto| | | | |].
  - intros key row d Hrow Hd. destruct (Hnew _ _ _ Hrow Hd) as [Hold|[(res & Hres & ->)|Hx]]; [| |done].
    + destruct (Hw _ _ _ Hold Hd) as [x Hx]. exists x. by eapply represents_stored.
    + rewrite Forall_forall in Hroots. by apply Hroots.
  - intros v object revision q Hq Ha. by apply resolve_grow.
  - intros q Hq Hk. by apply (rewritten_leaf db db' volume op _ _ cs) with (q := q) in Hre.
  - intros i c t q Ht Hci Hq Hk. destruct (rewritten_ancestor db db' volume op _ _ cs i c (transition_step t) q Hre) as (old & O1 & O2 & O3 & O4 & O5); try done.
    { rewrite list_lookup_fmap, Ht. done. } by exists old.
  - intros q Hq H1' H2' Ha. by apply (rewritten_elsewhere db db' volume op _ _ cs) with (q := q) in Hre.
Qed.

Lemma path_copied db volume root_object current next p dirs op m by_ at_ db' :
  checked db -> well_formed db -> publishable volume root_object p -> canonical <$> leaf_name p = Some (op_key op) ->
  load_path_directories db volume root_object current next p = Ok dirs -> edit_path dirs p op = Ok m ->
  persist_path_mutation volume by_ at_ m db = (Ok tt, db') ->
  let cs := components (publication_path p) in
  (checked db' /\ well_formed db' /\ undisturbed db db') /\
  (forall q, texts q -> key_of q = key_of cs -> resolve_loop db' volume root_object next q = leaf_answer op) /\
  (forall i c t q, publication_ancestors p !! i = Some t -> cs !! i = Some c -> texts q -> key_of q = key_of (take (S i) cs) ->
     exists old, resolve_loop db volume root_object current q = Ok old /\ object_id old = transition_object t /\ object_revision_id old = expected_revision t /\
       resolve_loop db' volume root_object next q = Ok (respelled c old (new_revision t))) /\
  (forall q, texts q -> ~ key_of q `prefix_of` key_of cs -> ~ key_of cs `prefix_of` key_of q -> answered (resolve_loop db volume root_object current q) ->
     resolve_loop db' volume root_object next q = resolve_loop db volume root_object current q).
Proof.
  intros Hc Hw Hp Hleaf Hload Hedit Hpersist. apply persist_path_spec in Hpersist as (Hg & Hck & Hheld & Hrows & Hnew). eapply (path_copied_by db); eauto.
  intros key row d Hrow Hd. destruct (Hnew _ _ Hrow) as [Hold|(res & Hres & Hroot)]; [by left|]. right; left. exists res. split; [done|congruence].
Qed.

(** C7: Copy on write.  When a publication or a removal along a path has been loaded, edited
    and persisted, the database is still well formed, readers of every older revision are
    undisturbed, and below the new root: the path answers the request (the published entry, or
    that there is none); each directory on the way has its new revision, with the object and
    incarnation it had, under the name the path spells; and every path that neither leads to
    the target nor passes through it resolves as it did below the old root. *)
Theorem path_copy_exact db volume root_object current next p dirs op m by_ at_ db' :
  checked db -> well_formed db -> publishable volume root_object p -> canonical <$> leaf_name p = Some (op_key op) ->
  load_path_directories db volume root_object current next p = Ok dirs -> edit_path dirs p op = Ok m ->
  persist_path_mutation volume by_ at_ m db = (Ok tt, db') ->
  let cs := components (publication_path p) in
  (checked db' /\ well_formed db' /\ undisturbed db db') /\
  (forall q, texts q -> key_of q = key_of cs -> resolve_loop db' volume root_object next q = leaf_answer op) /\
  (forall i c t q, publication_ancestors p !! i = Some t -> cs !! i = Some c -> texts q -> key_of q = key_of (take (S i) cs) ->
     exists old, resolve_loop db volume root_object current q = Ok old /\ object_id old = transition_object t /\ object_revision_id old = expected_revision t /\
       resolve_loop db' volume root_object next q = Ok (respelled c old (new_revision t))) /\
  (forall q, texts q -> ~ key_of q `prefix_of` key_of cs -> ~ key_of cs `prefix_of` key_of q -> answered (resolve_loop db volume root_object current q) ->
     resolve_loop db' volume root_object next q = resolve_loop db volume root_object current q).
Proof. exact (path_copied db volume root_object current next p dirs op m by_ at_ db'). Qed.

End reading.
