(* ===== verification/Published.v ===== *)
(** What stat answers once a publication has moved the head of its branch. *)

From S2P Require Import Prelude Ids Codec Contracts Name Directory DirectoryFacts DirectoryMap Intent BranchStore PathCopy Query PathCopyFacts PathCopySafe.
From stdpp Require Import prelude gmap list.
#[local] Open Scope N_scope.

Section published.
Context `{Blake3Bytes} `{Unicode}.

(** ** The commit and the head *)

Definition head_key (i : NamespaceIntent) : bytes * bytes := (Identifier.as_bytes (intent_branch i), Identifier.as_bytes (intent_volume i)).

Definition stored_of (i : NamespaceIntent) : StoredCommit :=
  {| stored_commit_id := intent_commit i; stored_branch := intent_branch i; stored_commit_volume := intent_volume i; stored_root_object := intent_root_object i;
     stored_root_revision := intent_root_revision i; stored_parent := expected_commit i; stored_by := intent_by i; stored_operation := intent_operation i; stored_at := intent_at i |}.

Lemma persist_commit_rows i request db u db' :
  persist_commit i request db = (Ok u, db') ->
  let key := Identifier.as_bytes (intent_commit i) in
  namespace_commits db !! key = None /\ commit_admitted db (commit_row (stored_of i) request) = true /\
  db' = with_commits (<[key := commit_row (stored_of i) request]> (namespace_commits db))
          (match expected_commit i with Some p => <[(key, 0%Z) := Identifier.as_bytes p]> (namespace_commit_parents db) | None => namespace_commit_parents db end) db.
Proof.
  unfold persist_commit, persist_stored_commit. intros E. apply se_bind_Ok in E as (s & s' & [= <- <-] & E). case_bool_decide as Hd; [done|]. apply eq_None_not_Some in Hd.
  change (Build_StoredCommit _ _ _ _ _ _ _ _ _) with (stored_of i) in E. destruct (commit_admitted _ _) eqn:Ea; [|done]. cbn [negb] in E. generalize dependent (commit_row (stored_of i) request). intros row Ea E. apply se_bind_Ok in E as ([] & db1 & [= <-] & E). cbn [stored_parent stored_of] in E. destruct (expected_commit i) as [p|].
  - apply se_bind_Ok in E as (s & s' & [= <- <-] & E). destruct (parent_admitted _ _ _); [|done]. injection E as _ <-. split_and!; done.
  - injection E as _ <-. split_and!; done.
Qed.

Lemma to_i64_Ok n z : to_i64 n = Ok z -> z = Z.of_N n.
Proof. unfold to_i64. destruct (_ <=? _)%Z; [|done]. by intros [= <-]. Qed.

(** The head row a publication replaces, and the one it leaves. *)
Lemma advance_head_spec i previous sequence db db' :
  advance_namespace_head i previous db = (Ok sequence, db') ->
  sequence = previous + 1 /\
  db' = with_heads (<[head_key i := {| head_commit := Identifier.as_bytes (intent_commit i); head_sequence := Z.of_N sequence |}]> (branch_namespace_heads db)) db /\
  branch_namespace_heads db !! head_key i = (fun e => {| head_commit := Identifier.as_bytes e; head_sequence := Z.of_N previous |}) <$> expected_commit i.
Proof.
  unfold advance_namespace_head. intros E. apply se_bind_Ok in E as (n & s & [= Hn%ok_or_Ok <-] & E). apply checked_add_Some in Hn as [-> _].
  apply se_bind_Ok in E as (z & s & [= ->%to_i64_Ok <-] & E). destruct (expected_commit i) as [p|].
  - apply se_bind_Ok in E as (old & s & [= ->%to_i64_Ok <-] & E). apply se_bind_Ok in E as (s & s' & [= <- <-] & E). fold (head_key i) in E. destruct (branch_namespace_heads db !! _) as [[c q]|] eqn:Eh; [|done].
    cbn [head_commit head_sequence] in E. destruct (bool_decide (c = _) && _) eqn:Ec; [|done]. destruct (bool_decide (is_Some _) && _); [|done]. apply se_bind_Ok in E as ([] & s & [= <-] & [= <- <-]).
    apply andb_true_iff in Ec as [Ec Eq]. apply bool_decide_eq_true in Ec as ->. apply Z.eqb_eq in Eq as ->. done.
  - apply se_bind_Ok in E as (s & s' & [= <- <-] & E). fold (head_key i) in E. destruct (_ && _ && _) eqn:Ec; [|done]. apply se_bind_Ok in E as ([] & s & [= <-] & [= <- <-]).
    rewrite !andb_true_iff in Ec. destruct Ec as [[Ec _] _]. by bool_cases.
Qed.

(** Queries below a root do not depend on commits and heads. *)
Section content.
Context (t : gmap bytes CommitRow) (parents : gmap (bytes * Z) bytes) (heads : gmap (bytes * bytes) HeadRow) (db : Database).
Abbreviation committed := (with_heads heads (with_commits t parents db)).

Lemma lookup_records_commits n rest d sel : lookup_records committed n rest d sel = lookup_records db n rest d sel.
Proof.
  revert d sel. induction rest as [|rest IH]; intros d sel; [done|]. cbn [lookup_records]. change (load_directory_node committed sel) with (load_directory_node db sel).
  destruct (map_err _ _) as [found|]; [|done]. cbn [mbind result_bind]. destruct (ok_or found CorruptQuery) as [r|]; [|done]. cbn [mbind result_bind].
  destruct (map_err _ (selected_child _ _ _)) as [[c|]|]; [|done..]. cbn [mbind result_bind]. by rewrite IH.
Qed.

Lemma lookup_entry_commits d n : lookup_entry committed d n = lookup_entry db d n.
Proof. unfold lookup_entry. by rewrite lookup_records_commits. Qed.

Lemma resolve_commits volume object revision q : resolve_loop committed volume object revision q = resolve_loop db volume object revision q.
Proof.
  revert object revision. induction q as [|c q IH]; intros object revision; [done|]. cbn [resolve_loop]. change (load_revision committed revision) with (load_revision db revision).
  destruct (load_revision db revision) as [x|]; [|done]. cbn [mbind result_bind]. destruct (_ || _); [done|]. destruct (ok_or _ _) as [d|]; [|done]. cbn [mbind result_bind].
  rewrite lookup_entry_commits. destruct (lookup_entry db d c) as [found|]; [|done]. cbn [mbind result_bind]. destruct (ok_or found NotFound) as [e|]; [|done]. cbn [mbind result_bind].
  destruct q; [done|]. destruct (negb _); [done|]. apply IH.
Qed.

Lemma build_stat_commits commit volume e : build_stat committed commit volume e = build_stat db commit volume e.
Proof. reflexivity. Qed.

End content.

(** ** Stat *)

Lemma build_stat_grow db db' commit volume e s : grows db db' -> build_stat db commit volume e = Ok s -> build_stat db' commit volume e = Ok s.
Proof.
  intros Hg. unfold build_stat. intros E. apply result_bind_Ok in E as (x & Hx & E). rewrite (load_revision_grow db db' _ x Hg Hx). cbn [mbind result_bind].
  destruct (_ || _); [done|]. unfold load_file_length in *. by rewrite (grows_versions _ _ Hg), (grows_manifests _ _ Hg).
Qed.

Definition recommitted (commit : N) (s : NamespaceObjectStat) : NamespaceObjectStat :=
  {| stat_commit := commit; stat_object := stat_object s; stat_revision := stat_revision s; stat_name := stat_name s; stat_generation := stat_generation s;
     stat_kind := stat_kind s; stat_version := stat_version s; stat_length := stat_length s |}.

Lemma build_stat_recommitted db old commit volume e s : build_stat db old volume e = Ok s -> build_stat db commit volume e = Ok (recommitted commit s).
Proof.
  unfold build_stat. intros E. apply result_bind_Ok in E as (x & -> & E). cbn [mbind result_bind]. destruct (_ || _); [done|].
  apply result_bind_Ok in E as (l & -> & [= <-]). done.
Qed.

(** The queries of one branch. *)
Definition branch_stat (db : Database) (branch volume : N) (q : NamespacePath) : result NamespaceQueryError NamespaceObjectStat :=
  stat db {| stat_branch := branch; stat_volume := volume; stat_path := q |}.

Lemma branch_stat_head db branch volume commit object revision q :
  Identifier.valid commit -> Identifier.valid object -> Identifier.valid revision ->
  joined_head db branch volume = Some (Identifier.as_bytes commit, Identifier.as_bytes object, Identifier.as_bytes revision) ->
  branch_stat db branch volume q = (e ← resolve_loop db volume object revision (components q); build_stat db commit volume e).
Proof. intros Hc Ho Hr Hj. unfold branch_stat, stat. cbn [stat_branch stat_volume stat_path]. rewrite Hj. by rewrite !identifier_id. Qed.

(** The head after a publication, and the heads of the other branches. *)
Lemma published_head i request previous sequence db db1 db2 :
  persist_commit i request db = (Ok tt, db1) -> advance_namespace_head i previous db1 = (Ok sequence, db2) ->
  (exists t parents heads, db2 = with_heads heads (with_commits t parents db)) /\
  joined_head db2 (intent_branch i) (intent_volume i) =
    Some (Identifier.as_bytes (intent_commit i), Identifier.as_bytes (intent_root_object i), Identifier.as_bytes (intent_root_revision i)) /\
  forall branch volume x, (Identifier.as_bytes branch, Identifier.as_bytes volume) <> head_key i -> joined_head db branch volume = Some x -> joined_head db2 branch volume = Some x.
Proof.
  intros (Hfresh & _ & ->)%persist_commit_rows (_ & -> & _)%advance_head_spec. split_and!; [by eexists _, _, _| |].
  - unfold joined_head. cbn [branch_namespace_heads namespace_commits with_heads with_commits]. unfold head_key. rewrite lookup_insert_eq. cbn [mbind option_bind head_commit].
    rewrite lookup_insert_eq. done.
  - intros branch volume x Hne Hj. unfold joined_head in *. cbn [branch_namespace_heads namespace_commits with_heads with_commits]. rewrite lookup_insert_ne by congruence.
    apply bind_Some in Hj as (head & Hh & Hj). rewrite Hh. cbn [mbind option_bind]. apply bind_Some in Hj as (c & Hc & Hj).
    rewrite lookup_insert_ne by congruence. by rewrite Hc.
Qed.

Lemma bind_answered {A B} (r : result NamespaceQueryError A) (f : A -> result NamespaceQueryError B) : answered (r ≫= f) -> answered r.
Proof. by destruct r. Qed.

(** A query that finds the same entry, when what it says of it is stored. *)
Lemma stat_carried db db' old commit volume r :
  grows db db' -> answered (e ← r; build_stat db old volume e) ->
  (e ← r; build_stat db' commit volume e) = recommitted commit <$> (e ← r; build_stat db old volume e).
Proof.
  intros Hg Ha. destruct r as [e|x]; cbn [mbind result_bind] in *; [|by destruct x]. destruct (build_stat db old volume e) as [s|x] eqn:Es.
  - cbn [fmap result_fmap]. eapply build_stat_grow; [done|]. by eapply build_stat_recommitted.
  - exfalso. unfold build_stat in Es. pose proof (load_revision_answered db (object_revision_id e)) as Hn. destruct (load_revision db _) as [y|y]; cbn [mbind result_bind] in Es.
    2:{ injection Es as ->. by destruct x. }
    destruct (_ || _); [by injection Es as <-|]. destruct (stored_version y) as [v|]; cbn [mbind result_bind] in Es; [|done].
    destruct (load_file_length _ _ _ _) as [l|z] eqn:El; cbn [mbind result_bind] in Es; [done|]. injection Es as ->. revert El. unfold load_file_length.
    destruct (file_versions db !! _) as [w|]; cbn [ok_or mbind result_bind]; [|by intros [= <-]]. destruct (content_manifests db !! _) as [k|]; cbn [ok_or mbind result_bind]; [|by intros [= <-]].
    destruct (_ <=? _)%Z; cbn [mbind result_bind]; [|by intros [= <-]]. destruct (_ || _); [by intros [= <-]|done].
Qed.

(** The other branches, when what is stored for them stays. *)
Lemma other_stat i request previous sequence db db1 db2 db3 branch volume q s :
  grows db db1 -> undisturbed db db1 -> persist_commit i request db1 = (Ok tt, db2) -> advance_namespace_head i previous db2 = (Ok sequence, db3) ->
  (Identifier.as_bytes branch, Identifier.as_bytes volume) <> head_key i -> texts (components q) -> branch_stat db branch volume q = Ok s -> branch_stat db3 branch volume q = Ok s.
Proof.
  intros Hg Hun Hpc Had Hne Hq Hs. destruct (published_head _ _ _ _ _ _ _ Hpc Had) as ((t & parents & heads & ->) & _ & Hothers).
  unfold branch_stat, stat in Hs |- *. cbn [stat_branch stat_volume stat_path] in *.
  destruct (joined_head db branch volume) as [[[commit object] revision]|] eqn:Ej; [|done].
  assert (joined_head db1 branch volume = Some (commit, object, revision)) as Ej1 by (unfold joined_head in *; by rewrite (grows_heads _ _ Hg), (grows_commits _ _ Hg)).
  rewrite (Hothers _ _ _ Hne Ej1). apply result_bind_Ok in Hs as (c & -> & Hs). apply result_bind_Ok in Hs as (o & -> & Hs). apply result_bind_Ok in Hs as (r & -> & Hs).
  apply result_bind_Ok in Hs as (e & He & Hs). cbn [mbind result_bind]. rewrite resolve_commits, Hun, He; [|done|by rewrite He]. cbn [mbind result_bind]. rewrite build_stat_commits. by eapply build_stat_grow.
Qed.

(** A publication is isolated.  Once it has copied its path, recorded its commit and moved
    the head of its branch, stat on that branch answers the request at the path; at every path
    that neither leads to the target nor passes through it, it answers what it answered before,
    under the new commit; and stat on any other branch or volume answers what it did. *)
Theorem publication_isolated db root_object current old_commit p dirs op m by_ at_ db1 i request previous sequence db2 db3 :
  checked db -> well_formed db -> publishable (intent_volume i) root_object p -> canonical <$> leaf_name p = Some (op_key op) ->
  intent_root_object i = root_object -> Identifier.valid (intent_commit i) -> Identifier.valid (intent_root_revision i) -> Identifier.valid old_commit -> Identifier.valid current ->
  joined_head db (intent_branch i) (intent_volume i) = Some (Identifier.as_bytes old_commit, Identifier.as_bytes root_object, Identifier.as_bytes current) ->
  load_path_directories db (intent_volume i) root_object current (intent_root_revision i) p = Ok dirs -> edit_path dirs p op = Ok m ->
  persist_path_mutation (intent_volume i) by_ at_ m db = (Ok tt, db1) -> persist_commit i request db1 = (Ok tt, db2) ->
  advance_namespace_head i previous db2 = (Ok sequence, db3) ->
  let cs := components (publication_path p) in
  (forall q, texts (components q) -> key_of (components q) = key_of cs ->
     branch_stat db3 (intent_branch i) (intent_volume i) q = (e ← leaf_answer op; build_stat db1 (intent_commit i) (intent_volume i) e)) /\
  (forall q, texts (components q) -> ~ key_of (components q) `prefix_of` key_of cs -> ~ key_of cs `prefix_of` key_of (components q) ->
     answered (branch_stat db (intent_branch i) (intent_volume i) q) ->
     branch_stat db3 (intent_branch i) (intent_volume i) q = recommitted (intent_commit i) <$> branch_stat db (intent_branch i) (intent_volume i) q) /\
  (forall branch volume q s, (Identifier.as_bytes branch, Identifier.as_bytes volume) <> head_key i -> texts (components q) ->
     branch_stat db branch volume q = Ok s -> branch_stat db3 branch volume q = Ok s).
Proof.
  intros Hc Hw Hp Hleaf <- Hcommit Hnext Hold Hcur Hhead Hload Hedit Hpersist Hpc Had. cbv zeta. set (cs := components (publication_path p)).
  destruct (path_copied _ _ _ _ _ _ _ _ _ _ _ _ Hc Hw Hp Hleaf Hload Hedit Hpersist) as ((_ & _ & Hun) & Hat & _ & Helse).
  apply persist_path_spec in Hpersist as (Hg & _). pose proof (proj1 (proj2 (publishable_ids _ _ _ Hp))) as Hroot.
  pose proof (fun branch volume q s => other_stat i request previous sequence db db1 db2 db3 branch volume q s Hg Hun Hpc Had) as Hother.
  destruct (published_head _ _ _ _ _ _ _ Hpc Had) as ((t & parents & heads & ->) & Hj & _).
  assert (Identifier.valid (intent_root_object i)) as Hro by done.
  pose proof (fun q => branch_stat_head _ _ _ _ _ _ q Hcommit Hro Hnext Hj) as Hnew. setoid_rewrite resolve_commits in Hnew.
  pose proof (fun q => branch_stat_head _ _ _ _ _ _ q Hold Hro Hcur Hhead) as Hwas. split_and!.
  - intros q Hq Hk. rewrite Hnew, Hat by done. done.
  - intros q Hq H1' H2' Ha. rewrite Hwas in Ha |- *. rewrite Hnew, Helse; [|done..|by eapply bind_answered]. by apply (stat_carried db db1).
  - exact Hother.
Qed.

End published.
