(* ===== verification/Listing.v ===== *)
(** Paged listings: page after page returns every entry of a directory once, in the order of
    its trie. *)

From S2P Require Import Prelude Ids Codec Contracts Name Directory DirectoryFacts DirectoryMap Intent BranchStore PathCopy Query PathCopyFacts PathCopySafe.
From stdpp Require Import prelude gmap list sorting.
#[local] Open Scope N_scope.

(** ** The order of hashes *)

Lemma bytes_lt_split x a b s t : a < b -> bytes_lt (x ++ a :: s) (x ++ b :: t) = true.
Proof. intros Hab. induction x as [|y x IH]; cbn; [by rewrite (proj2 (N.ltb_lt a b))|]. by rewrite IH, N.eqb_refl, orb_true_r. Qed.

Lemma bytes_lt_irrefl x : bytes_lt x x = false.
Proof. induction x as [|y x IH]; cbn; [done|]. by rewrite N.ltb_irrefl, IH, andb_false_r. Qed.

Lemma bytes_lt_trans x y z : bytes_lt x y = true -> bytes_lt y z = true -> bytes_lt x z = true.
Proof.
  revert y z. induction x as [|a x IH]; intros [|b y] [|c z]; cbn; try done.
  rewrite !orb_true_iff, !andb_true_iff, !N.ltb_lt, !N.eqb_eq. intros [H1|[-> H1]] [H2|[-> H2]]; [left; lia|by left|by left|]. right. eauto.
Qed.

Lemma bytes_lt_asym x y : bytes_lt x y = true -> bytes_lt y x = false.
Proof. intros H1. destruct (bytes_lt y x) eqn:H2; [|done]. by rewrite <- (bytes_lt_irrefl x), (bytes_lt_trans x y x). Qed.

Lemma byte_split b : b = 16 * N.shiftr b 4 + N.land b 15.
Proof. rewrite N.shiftr_div_pow2. change 15 with (N.ones 4). rewrite N.land_ones. change (2 ^ 4) with 16. apply N.div_mod. done. Qed.

Lemma low_nibble b : N.land b 15 < 16.
Proof. change 15 with (N.ones 4). rewrite N.land_ones. by apply N.mod_lt. Qed.

Lemma nibble_even h i x : h !! i = Some x -> nibble h (2 * i) = N.shiftr x 4.
Proof. intros Hx. unfold nibble. by rewrite Nat.even_even, Nat.div2_double, Hx. Qed.

Lemma nibble_odd h i x : h !! i = Some x -> nibble h (S (2 * i)) = N.land x 15.
Proof. intros Hx. unfold nibble. by rewrite Nat.even_succ, <- Nat.negb_even, Nat.even_even, Nat.div2_succ_double, Hx. Qed.

(** Hashes part where their nibbles do. *)
Lemma nibbles_bytes_lt h k p a b :
  digest_ok h -> digest_ok k -> (length p < HASH_NIBBLES)%nat -> follows h (p ++ [a]) -> follows k (p ++ [b]) -> a < b -> bytes_lt h k = true.
Proof.
  intros [Hh _] [Hk _] Hp Fh Fk Hab. assert (forall j, (j < length p)%nat -> nibble h j = nibble k j) as Hsame.
  { intros j Hj. apply (inj Some). rewrite <- !lookup_nibbles by lia. destruct Fh as [x ->], Fk as [y ->]. by rewrite <- !app_assoc, !lookup_app_l. }
  pose proof (nibble_follows _ _ _ Fh Hp) as Na. pose proof (nibble_follows _ _ _ Fk Hp) as Nb. set (d := length p) in *. set (i := Nat.div2 d).
  assert (i < 32)%nat as Hi by (unfold i, HASH_NIBBLES in *; rewrite Nat.div2_div; apply Nat.Div0.div_lt_upper_bound; lia).
  destruct (lookup_lt_is_Some_2 h i) as [x Hx]; [lia|]. destruct (lookup_lt_is_Some_2 k i) as [y Hy]; [lia|].
  assert (take i h = take i k) as Htake.
  { apply list_eq. intros j. destruct (decide (j < i)%nat) as [Hj|Hj]; [|by rewrite !lookup_take_ge by lia]. rewrite !lookup_take_lt by done.
    destruct (lookup_lt_is_Some_2 h j) as [u Hu]; [lia|]. destruct (lookup_lt_is_Some_2 k j) as [v Hv]; [lia|]. rewrite Hu, Hv. f_equal.
    apply halves_byte; [rewrite <- (nibble_even h j u), <- (nibble_even k j v) by done|rewrite <- (nibble_odd h j u), <- (nibble_odd k j v) by done]; apply Hsame; unfold i in Hj; pose proof (Nat.div2_odd d); lia. }
  rewrite <- (take_drop_middle h i x Hx), <- (take_drop_middle k i y Hy), Htake. apply bytes_lt_split.
  pose proof (byte_split x). pose proof (byte_split y). pose proof (low_nibble x). pose proof (low_nibble y). pose proof (Nat.div2_odd d) as Ed. fold i in Ed.
  destruct (Nat.odd d); cbn [Nat.b2n] in Ed.
  - assert (d = S (2 * i)) as E by lia. rewrite E, (nibble_odd _ _ x) in Na by done. rewrite E, (nibble_odd _ _ y) in Nb by done.
    pose proof (Hsame (2 * i)%nat ltac:(lia)) as Hs. rewrite (nibble_even _ _ x), (nibble_even _ _ y) in Hs by done. lia.
  - assert (d = (2 * i)%nat) as E by lia. rewrite E, (nibble_even _ _ x) in Na by done. rewrite E, (nibble_even _ _ y) in Nb by done. lia.
Qed.

Section listings.
Context `{Blake3Bytes} `{Unicode}.

(** The order entries are listed in. *)
Definition listed_before (a b : DirectoryEntry) : Prop :=
  bytes_lt (name_hash (entry_key a)) (name_hash (entry_key b)) = true \/ (name_hash (entry_key a) = name_hash (entry_key b) /\ key_lt a b).

Lemma sorted_concat {A} (R : relation A) (ls : list (list A)) :
  Forall (StronglySorted R) ls -> StronglySorted (fun l k => Forall (fun a => Forall (R a) k) l) ls -> StronglySorted R (concat ls).
Proof.
  intros Hs Hc. induction Hc as [|l ls Hc IH Hl]; cbn [concat]; [constructor|]. apply Forall_cons in Hs as [Hs1 Hs]. apply StronglySorted_app_2; [|done|by apply IH].
  intros a b Ha Hb. apply list_elem_of_In, in_concat in Hb as (k & Hk%list_elem_of_In & Hb%list_elem_of_In). rewrite Forall_forall in Hl. specialize (Hl k Hk). cbv beta in Hl. rewrite Forall_forall in Hl. specialize (Hl a Ha). rewrite Forall_forall in Hl. by apply Hl.
Qed.

Lemma ascending_map_sorted {V} (m : gmap N V) : StronglySorted (fun a b => a.1 < b.1) (ascending_map m).
Proof.
  assert (StronglySorted N.lt (ascending_map m).*1) as Hs.
  { rewrite ascending_map_keys. pose proof (ascending_sorted (dom m)) as Hs. pose proof (ascending_NoDup (dom m)) as Hn. revert Hs Hn.
    induction (ascending (dom m)) as [|x l IH]; intros Hs Hn; [constructor|]. inversion Hs as [|?? Hs' Hx]; subst. apply NoDup_cons in Hn as [Hnx Hn].
    constructor; [by apply IH|]. rewrite Forall_forall in Hx |- *. intros y Hy. specialize (Hx y Hy). assert (x <> y) by (by intros ->). lia. }
  revert Hs. induction (ascending_map m) as [|[k v] l IH]; cbn; intros Hs; [constructor|]. inversion Hs as [|?? Hs' Hx]; subst. constructor; [by apply IH|].
  apply (proj1 (Forall_fmap fst (N.lt k) l)) in Hx. eapply Forall_impl; [exact Hx|]. by intros [k' v'].
Qed.

Lemma leaves_sorted st rest path d : (length path + rest = HASH_NIBBLES)%nat -> good st rest path d -> StronglySorted listed_before (leaves st rest d).
Proof.
  revert path d. induction rest as [|rest IH]; intros path d Hlen (n & Hn & Hm); cbn [leaves]; rewrite Hn.
  - destruct n as [|l]; [done|]. apply load_verified_Ok in Hn as (_ & (_ & _ & V3 & V4)%valid_leaf & _). revert V3 V4. generalize (entries l). intros es V3 V4.
    induction V4 as [|e es V4 IHe Hx]; [constructor|]. apply Forall_cons in V3 as [V3 V3']. constructor; [by apply IHe|]. rewrite Forall_forall in Hx, V3' |- *.
    intros y Hy. right. split; [by rewrite V3, (V3' y)|by apply Hx].
  - destruct n as [i|l]; [|done]. destruct Hm as [_ Hc]. apply sorted_concat.
    + apply Forall_map, Forall_forall. intros [slot c] Hsc%elem_of_ascending_map. apply (IH (path ++ [slot])); [rewrite length_app; cbn; lia|by apply Hc].
    + pose proof (ascending_map_sorted (children i)) as Hs. assert (Forall (fun sc => children i !! sc.1 = Some sc.2) (ascending_map (children i))) as Hin
        by (apply Forall_forall; intros [slot c] Hsc%elem_of_ascending_map; done).
      induction Hs as [|[s1 c1] l Hs IHl Hx]; cbn [map]; [constructor|]. apply Forall_cons in Hin as [H1' Hin]. constructor; [by apply IHl|].
      rewrite Forall_map. rewrite Forall_forall in Hx, Hin |- *. intros [s2 c2] Hsc. specialize (Hx _ Hsc). specialize (Hin _ Hsc). cbn in H1', Hin, Hx |- *.
      apply Forall_forall. intros a Ha. apply Forall_forall. intros b Hb. left.
      apply (elem_of_leaves st rest (path ++ [s1])) in Ha as [Fa _]; [|rewrite length_app; cbn; lia|by apply Hc].
      apply (elem_of_leaves st rest (path ++ [s2])) in Hb as [Fb _]; [|rewrite length_app; cbn; lia|by apply Hc].
      eapply (nibbles_bytes_lt _ _ path s1 s2); [apply name_hash_ok..|lia|done|done|done].
Qed.

(** ** Collecting *)

(** The entries a cursor leaves to list. *)
Definition passes (c : option DirectoryListCursor) (e : DirectoryEntry) : bool := after_cursor c true (name_hash (entry_key e)) e.

Lemma take_take_app {A} n (l k j : list A) : take n (take n (l ++ k) ++ j) = take n (l ++ k ++ j).
Proof.
  rewrite app_assoc. destruct (decide (length (l ++ k) <= n)%nat) as [Hle|Hgt]; [by rewrite (take_ge (l ++ k)) by done|].
  rewrite take_app_le by (rewrite length_take; lia). rewrite take_take, Nat.min_id. by rewrite (take_app_le (l ++ k)) by lia.
Qed.

Lemma collect_bucket (f : DirectoryEntry -> bool) maximum es out :
  (length out <= maximum)%nat ->
  foldl (fun out e => if (maximum <=? length out)%nat then out else if f e then out ++ [e] else out) out es = take maximum (out ++ List.filter f es).
Proof.
  revert out. induction es as [|e es IH]; intros out Hl; cbn [foldl List.filter]; [by rewrite app_nil_r, take_ge|].
  destruct (maximum <=? length out)%nat eqn:Em.
  - apply Nat.leb_le in Em. rewrite IH by done. assert (length out = maximum) as <- by lia. by rewrite !take_app_length.
  - apply Nat.leb_gt in Em. destruct (f e); [|by apply IH]. rewrite IH by (rewrite length_app; cbn; lia). by rewrite <- app_assoc.
Qed.

Lemma collect_children {E A B} (f : list A -> B -> result E (list A)) (g : B -> list A) maximum l out :
  (forall out x, x ∈ l -> (length out <= maximum)%nat -> f out x = Ok (take maximum (out ++ g x))) -> (length out <= maximum)%nat ->
  try_fold f out l = Ok (take maximum (out ++ concat (map g l))).
Proof.
  intros Hf. revert out. induction l as [|x l IH]; intros out Hl; cbn [try_fold map concat]; [by rewrite app_nil_r, take_ge|].
  rewrite Hf by (done || by left). cbn [mbind result_bind]. rewrite IH; [by rewrite take_take_app| |rewrite length_take; lia].
  intros out' y Hy. apply Hf. by right.
Qed.

Lemma filter_concat (f : DirectoryEntry -> bool) ls : List.filter f (concat ls) = concat (map (List.filter f) ls).
Proof. induction ls as [|l ls IH]; cbn [concat map]; [done|]. by rewrite List.filter_app, IH. Qed.

Lemma filter_true (f : DirectoryEntry -> bool) l : (forall e, e ∈ l -> f e = true) -> List.filter f l = l.
Proof. induction l as [|e l IH]; intros Hf; cbn; [done|]. rewrite Hf by (by left). rewrite IH; [done|]. intros x Hx. apply Hf. by right. Qed.

Lemma filter_false (f : DirectoryEntry -> bool) l : (forall e, e ∈ l -> f e = false) -> List.filter f l = [].
Proof. induction l as [|e l IH]; intros Hf; cbn; [done|]. rewrite Hf by (by left). apply IH. intros x Hx. apply Hf. by right. Qed.

(** What a cursor hides below a slot, when it is on the path so far. *)
Lemma passes_below c path slot slot' e :
  digest_ok (after_name_hash c) -> (length path < HASH_NIBBLES)%nat -> follows (after_name_hash c) (path ++ [slot']) -> follows (name_hash (entry_key e)) (path ++ [slot]) ->
  slot <> slot' -> passes (Some c) e = (slot' <? slot).
Proof.
  intros Hd Hp Hc He Hne. unfold passes, after_cursor. cbn [negb orb]. destruct (N.lt_ge_cases slot' slot) as [Hlt|Hge].
  - rewrite (nibbles_bytes_lt _ _ path slot' slot) by (done || apply name_hash_ok). by rewrite (proj2 (N.ltb_lt _ _)).
  - rewrite (proj2 (N.ltb_ge _ _)) by done. assert (bytes_lt (name_hash (entry_key e)) (after_name_hash c) = true) as Hlt
      by (apply (nibbles_bytes_lt _ _ path slot slot'); [apply name_hash_ok|done|done|done|done|lia]).
    rewrite (bytes_lt_asym _ _ Hlt). rewrite bool_decide_eq_false_2; [done|]. intros E. rewrite E, bytes_lt_irrefl in Hlt. done.
Qed.

(** A walk that starts on the path of its cursor. *)
Definition on_track (c : option DirectoryListCursor) (path : list N) : Prop :=
  match c with Some c => digest_ok (after_name_hash c) /\ follows (after_name_hash c) path | None => True end.
Definition left_over (c : option DirectoryListCursor) (on_path : bool) (es : list DirectoryEntry) : list DirectoryEntry := if on_path then List.filter (passes c) es else es.

(** Where the children of a node stand to the cursor. *)
Lemma left_over_child st rest path slot child c :
  (length path + S rest = HASH_NIBBLES)%nat -> good st rest (path ++ [slot]) child -> on_track (Some c) path ->
  let s := nibble (after_name_hash c) (length path) in
  on_track (Some c) (path ++ [s]) /\ (slot <> s -> List.filter (passes (Some c)) (leaves st rest child) = if s <? slot then leaves st rest child else []).
Proof.
  intros Hlen Hg [Hd Hf] s. assert (follows (after_name_hash c) (path ++ [s])) as Hs by (apply follows_snoc; [done|lia]). split; [by split|]. intros Hne.
  assert (forall e, e ∈ leaves st rest child -> passes (Some c) e = (s <? slot)) as Hall.
  { intros e He. apply (elem_of_leaves st rest (path ++ [slot])) in He as [He _]; [|rewrite length_app; cbn; lia|done]. by apply (passes_below c path slot s e); [|lia|..]. }
  destruct (s <? slot); [by apply filter_true|by apply filter_false].
Qed.

Lemma collect_entries_spec db c maximum rest path sel on_path out :
  (length path + rest = HASH_NIBBLES)%nat -> good (stored_nodes db) rest path sel -> (on_path = true -> on_track c path) -> (length out <= maximum)%nat ->
  collect_entries db c maximum rest sel on_path out = Ok (take maximum (out ++ left_over c on_path (leaves (stored_nodes db) rest sel))).
Proof.
  revert path sel on_path out. induction rest as [|rest IH]; intros path sel on_path out Hlen (n & Hn & Hm) Htrack Hl; cbn [collect_entries leaves]; rewrite Hn;
    (destruct (maximum <=? length out)%nat eqn:Em; [apply Nat.leb_le in Em; assert (length out = maximum) as <- by lia; by rewrite take_app_length|]); clear Em;
    pose proof Hn as (Hst & _)%load_verified_Ok; rewrite (load_stored _ _ _ Hst); cbn [map_err mbind result_bind ok_or node].
  - destruct n as [i|l]; [done|]. f_equal. rewrite collect_bucket by done. do 2 f_equal. apply load_verified_Ok in Hn as (_ & (_ & _ & V3 & _)%valid_leaf & _). unfold left_over.
    destruct on_path; [|by apply filter_true]. apply filter_ext_in. intros e He%list_elem_of_In. unfold passes. rewrite Forall_forall in V3. by rewrite V3.
  - destruct n as [i|l]; [|done]. destruct Hm as [Hd Hc]. replace (HASH_NIBBLES - S rest)%nat with (length path) in * by lia. rewrite Hd, N.eqb_refl. cbn [negb].
    rewrite (collect_children _ (fun '(slot, child) => left_over c on_path (leaves (stored_nodes db) rest child)) maximum); [|clear out Hl|done].
    { do 2 f_equal. f_equal. unfold left_over. destruct on_path; [|done]. rewrite filter_concat, map_map. f_equal. apply map_ext. by intros [slot child]. }
    intros out [slot child] Hsc%elem_of_ascending_map Hl. specialize (Hc _ _ Hsc). assert (length (path ++ [slot]) + rest = HASH_NIBBLES)%nat as Hlen' by (rewrite length_app; cbn; lia).
    destruct (maximum <=? length out)%nat eqn:Em; [apply Nat.leb_le in Em; assert (length out = maximum) as <- by lia; by rewrite take_app_length|].
    pose proof (fun o Ho => IH (path ++ [slot]) child o out Hlen' Hc Ho Hl) as Hrec. destruct on_path; cbn [andb]; [|by rewrite Hrec]. destruct c as [c|]; cbn [fmap option_fmap option_map].
    2:{ rewrite Hrec by done. unfold left_over. by rewrite filter_true. }
    destruct (left_over_child (stored_nodes db) rest path slot child c Hlen Hc (Htrack eq_refl)) as [Hon Hoff]. set (s := nibble (after_name_hash c) (length path)) in *.
    destruct (N.eqb_spec slot s) as [->|Hne]; [by rewrite N.ltb_irrefl, Hrec|]. specialize (Hoff Hne). unfold left_over at 1. rewrite Hoff.
    destruct (N.ltb_spec slot s) as [Hlt|Hge]; [rewrite (proj2 (N.ltb_ge s slot)) by lia; by rewrite app_nil_r, take_ge|].
    rewrite (proj2 (N.ltb_lt s slot)) by lia. by rewrite Hrec.
Qed.

(** ** Following the cursors *)

Definition with_cursor (c : option DirectoryListCursor) (r : NamespaceListRequest) : NamespaceListRequest :=
  {| list_branch := list_branch r; list_volume := list_volume r; directory_path := directory_path r; cursor := c; maximum_results := maximum_results r |}.

(** Page after page, as a client asks for them. *)
Fixpoint follow_pages (fuel : nat) (db : Database) (r : NamespaceListRequest) : result NamespaceQueryError (list NamespaceListPage) :=
  match fuel with
  | O => Ok []
  | S fuel' =>
      page ← list_namespace db r;
      match next_cursor page with
      | None => Ok [page]
      | Some c => pages ← follow_pages fuel' db (with_cursor (Some c) r); Ok (page :: pages)
      end
  end.

Definition listing (db : Database) (d : bytes) : list DirectoryEntry := leaves (stored_nodes db) HASH_NIBBLES d.
Definition cursor_at (directory : ResolvedDirectory) (e : DirectoryEntry) : DirectoryListCursor :=
  {| cursor_commit := resolved_commit directory; cursor_directory := resolved_object directory; cursor_revision := resolved_revision directory;
     after_name_hash := name_hash (entry_key e); after_name := name e |}.

Lemma listing_entries db d m e : represents (trie_of db d) m -> e ∈ listing db d <-> m !! entry_key e = Some e.
Proof.
  intros Hr. pose proof Hr as [Hg Hl Hk]. unfold listing. rewrite (elem_of_leaves _ _ []); [|done|exact Hg].
  destruct (walk_entries _ HASH_NIBBLES [] d (name_hash (entry_key e)) eq_refl Hg (name_hash_ok _) (follows_nil _)) as (W1 & W2 & W3). split.
  - intros [_ He]. unfold keys_text in W1. rewrite Forall_forall in W1. rewrite <- Hl by (by apply W1). by apply find_entry_member.
  - intros Hm. split; [apply follows_nil|]. destruct (Hk _ _ Hm) as [Ht _]. rewrite <- Hl in Hm by done. by apply find_entry_Some in Hm as [? _].
Qed.

Lemma passes_cursor directory e x : passes (Some (cursor_at directory e)) x = true <-> listed_before e x.
Proof.
  unfold passes, after_cursor, listed_before, key_lt. cbn [negb orb cursor_at after_name_hash after_name]. fold (entry_key e).
  rewrite orb_true_iff, andb_true_iff, !bool_decide_eq_true. naive_solver.
Qed.

Lemma listed_before_asym a b : listed_before a b -> ~ listed_before b a.
Proof.
  intros [H1'|[H1' H2']] [H3'|[H3' H4']].
  - by rewrite (bytes_lt_asym _ _ H1') in H3'.
  - by rewrite H3', bytes_lt_irrefl in H1'.
  - by rewrite H1', bytes_lt_irrefl in H3'.
  - apply (str_lt_irrefl (entry_key a)). exact (str_lt_trans _ _ _ H2' H4').
Qed.

Lemma listed_NoDup l : StronglySorted listed_before l -> NoDup (map entry_key l).
Proof.
  induction 1 as [|e l _ IH He]; cbn [map]; constructor; [|done]. intros (x & E & Hx)%list_elem_of_fmap. rewrite Forall_forall in He.
  destruct (He x Hx) as [Hlt|[_ Hlt]]; [by rewrite E, bytes_lt_irrefl in Hlt|]. unfold key_lt in Hlt. rewrite E in Hlt. by apply str_lt_irrefl in Hlt.
Qed.

Lemma passes_rest directory l e k :
  StronglySorted listed_before (l ++ e :: k) -> List.filter (passes (Some (cursor_at directory e))) (l ++ e :: k) = k.
Proof.
  intros Hs. rewrite List.filter_app. rewrite (filter_false _ l).
  - cbn [app List.filter]. apply StronglySorted_app_1_r in Hs. inversion Hs as [|?? _ Hx]; subst.
    destruct (passes _ e) eqn:Ep; [apply passes_cursor in Ep; by destruct (listed_before_asym _ _ Ep)|].
    apply filter_true. intros x Hk. apply passes_cursor. rewrite Forall_forall in Hx. by apply Hx.
  - intros x Hx. apply not_true_iff_false. rewrite passes_cursor. apply listed_before_asym. eapply StronglySorted_app_1_elem_of; [exact Hs|done|by left].
Qed.

Section one_directory.
Context (db : Database) (r : NamespaceListRequest) (directory : ResolvedDirectory) (revision : StoredRevision) (d : bytes) (m : gmap (list N) DirectoryEntry).
Hypothesis Hmax : 1 <= maximum_results r <= 1024.
Hypothesis Hdir : resolve_directory db r = Ok directory.
Hypothesis Hrev : load_revision db (resolved_revision directory) = Ok revision.
Hypothesis Hroot : stored_root revision = Some d.
Hypothesis Hrep : represents (trie_of db d) m.

(** The entries still to come at a cursor: all at the start, those after it otherwise. *)
Definition still_to_come (c : option DirectoryListCursor) (l : list DirectoryEntry) : Prop :=
  (c = None /\ l = listing db d) \/ exists k e, c = Some (cursor_at directory e) /\ listing db d = k ++ e :: l.

Lemma still_filtered c l : still_to_come c l -> List.filter (passes c) (listing db d) = l /\ validate_cursor c directory = Ok tt /\ on_track c [].
Proof.
  assert (StronglySorted listed_before (listing db d)) as Hs by (apply (leaves_sorted _ _ []); [done|apply Hrep]).
  intros [[-> ->]|(k & e & -> & El)]; [split; [by apply filter_true|done]|]. split_and!.
  - rewrite El in Hs |- *. by apply passes_rest.
  - unfold validate_cursor. cbn [cursor_at cursor_commit cursor_directory cursor_revision after_name_hash after_name]. rewrite !N.eqb_refl, bool_decide_eq_true_2 by done. done.
  - split; [apply name_hash_ok|apply follows_nil].
Qed.

Definition page_of (es : list NamespaceListEntry) (next : option DirectoryListCursor) : NamespaceListPage :=
  {| page_commit := resolved_commit directory; page_directory := resolved_object directory; page_revision := resolved_revision directory; page_entries := es; next_cursor := next |}.

(** One page. *)
Lemma list_page c l es :
  still_to_come c l -> try_map (list_entry db (list_volume r)) l = Ok es ->
  let k := N.to_nat (maximum_results r) in
  list_namespace db (with_cursor c r) =
    Ok (if (k <? length l)%nat then page_of (take k es) (cursor_at directory <$> last (take k l)) else page_of es None).
Proof.
  intros Hc Hes k. destruct (still_filtered c l Hc) as (Hf & Hv & Ht). unfold list_namespace. cbn [with_cursor maximum_results cursor list_volume].
  rewrite (proj2 (N.eqb_neq _ _)), (proj2 (N.ltb_ge _ _)) by lia. cbn [orb]. change (resolve_directory db (with_cursor c r)) with (resolve_directory db r).
  rewrite Hdir. cbn [mbind result_bind]. rewrite Hv. cbn [mbind result_bind]. rewrite Hrev. cbn [mbind result_bind]. rewrite Hroot. cbn [ok_or mbind result_bind].
  rewrite (collect_entries_spec _ _ _ _ []); [|done|apply Hrep|done|cbn; lia]. cbn [app mbind result_bind left_over]. fold (listing db d). rewrite Hf. fold k.
  assert (forall (n : nat), try_map (list_entry db (list_volume r)) (take n l) = Ok (take n es)) as Htake.
  { intros n. apply try_map_Forall2. apply try_map_Forall2 in Hes. by apply Forall2_take. }
  destruct (Nat.ltb_spec k (length l)) as [Hk|Hk].
  - assert (length (take (S k) l) = S k) as El by (rewrite length_take; lia). rewrite El. rewrite (proj2 (Nat.ltb_lt _ _)) by lia.
    rewrite (removelast_firstn l) by done. rewrite Htake. cbn [mbind result_bind]. destruct (last (take k l)) as [e|] eqn:Ee; [done|].
    apply last_None in Ee. apply (f_equal length) in Ee. rewrite length_take in Ee. cbn in Ee. lia.
  - rewrite (take_ge l) by lia. rewrite (proj2 (Nat.ltb_ge _ _)) by lia. rewrite Hes. done.
Qed.

Lemma follow_from c l es fuel :
  still_to_come c l -> try_map (list_entry db (list_volume r)) l = Ok es -> (length l < fuel)%nat ->
  exists pages, follow_pages fuel db (with_cursor c r) = Ok pages /\ concat (map page_entries pages) = es /\
    Forall (fun page => (length (page_entries page) <= N.to_nat (maximum_results r))%nat) pages.
Proof.
  revert c l es. induction fuel as [|fuel IH]; intros c l es Hc Hes Hf; [lia|]. cbn [follow_pages]. rewrite (list_page c l es Hc Hes). cbn [mbind result_bind].
  set (k := N.to_nat (maximum_results r)) in *. pose proof Hes as Hes2%try_map_Forall2. pose proof (Forall2_length _ _ _ Hes2) as El.
  destruct (Nat.ltb_spec k (length l)) as [Hk|Hk]; cbn [next_cursor page_of].
  - destruct (last (take k l)) as [e|] eqn:Ee; cbn [fmap option_fmap option_map].
    2:{ apply last_None in Ee. apply (f_equal length) in Ee. rewrite length_take in Ee. cbn in Ee. lia. }
    apply last_Some in Ee as [k0 Ek]. assert (k0 ++ e :: drop k l = l) as Esplit by (rewrite <- (take_drop k l) at 2; by rewrite Ek, <- app_assoc).
    destruct (IH (Some (cursor_at directory e)) (drop k l) (drop k es)) as (pages & Hp & Hcat & Hall).
    + right. destruct Hc as [[_ Hc]|(k1 & e1 & _ & Hc)].
      * exists k0, e. split; [done|]. by rewrite Esplit.
      * exists (k1 ++ e1 :: k0), e. split; [done|]. rewrite Hc, <- app_assoc. cbn [app]. by rewrite Esplit.
    + apply try_map_Forall2. by apply Forall2_drop.
    + rewrite length_drop. lia.
    + change (with_cursor (Some (cursor_at directory e)) (with_cursor c r)) with (with_cursor (Some (cursor_at directory e)) r). rewrite Hp. cbn [mbind result_bind].
      eexists. split; [reflexivity|]. cbn [map concat page_entries page_of]. rewrite Hcat. split; [apply take_drop|]. constructor; [|done]. cbn [page_entries page_of]. rewrite length_take. lia.
  - eexists. split; [reflexivity|]. cbn [map concat page_entries page_of]. rewrite app_nil_r. split; [done|]. constructor; [|constructor]. cbn [page_entries page_of]. lia.
Qed.

(** Following the cursors from the start: the pages are bounded, and together they are the
    whole directory in order. *)
Lemma follow_all es fuel :
  cursor r = None -> try_map (list_entry db (list_volume r)) (listing db d) = Ok es -> (length (listing db d) < fuel)%nat ->
  exists pages, follow_pages fuel db r = Ok pages /\ concat (map page_entries pages) = es /\
    Forall (fun page => (length (page_entries page) <= N.to_nat (maximum_results r))%nat) pages.
Proof.
  intros Hc Hes Hf. assert (with_cursor None r = r) as E by (unfold with_cursor; rewrite <- Hc; by destruct r).
  rewrite <- E. apply (follow_from None (listing db d)); [by left|done|done].
Qed.

End one_directory.


End listings.
