(* ===== verification/Journal.v ===== *)
(** The receipts of the branch database and the commits they vouch for:
    meshspan-filesystem/src/namespace_publication/repository.rs with repository/rename_operation.rs
    and repository/unlink_operation.rs, the loaders of snapshot_restore.rs and
    reconciliation_apply.rs, the result digests of namespace_publication/digest.rs and of
    meshspan-contracts/src/filesystem.rs, over the operation tables of the branch schema.

    Every operation of a branch leaves one row in the table of its kind.  A commit is read only
    together with the receipt of the operation that made it, whose request it hashes. *)

From Stdlib Require Import String.
From S2P Require Import Prelude Ids Codec Contracts Name Directory Reconcile Intent BranchStore.
From stdpp Require Import prelude gmap sorting list.
#[local] Open Scope N_scope.

(** ** Tables *)

Record FileOperationRow := { fo_request : bytes; fo_commit : bytes; fo_version : bytes; fo_sequence : Z; fo_result : bytes; fo_at : Z }.
Record DirectoryOperationRow := { do_request : bytes; do_commit : bytes; do_revision : bytes; do_sequence : Z; do_result : bytes; do_at : Z }.
Record RenameOperationRow := { ro_request : bytes; ro_commit : bytes; ro_object : bytes; ro_revision : bytes; ro_sequence : Z; ro_result : bytes; ro_at : Z }.
Record UnlinkOperationRow := {
  uo_request : bytes; uo_commit : bytes; uo_object : bytes; uo_revision : bytes; uo_kind : Z; uo_sequence : Z; uo_result : bytes; uo_at : Z
}.
Record RestoreOperationRow := {
  so_request : bytes; so_snapshot : bytes; so_snapshot_commit : bytes; so_expected : bytes; so_commit : bytes; so_root : bytes; so_result : bytes
}.
Record MergeOperationRow := { mo_request : bytes; mo_causal : bytes; mo_replay : bytes; mo_commit : bytes; mo_root : bytes; mo_result : bytes }.
Record EvidenceRow := { imported_request : bytes; imported_intent : bytes; imported_evidence : bytes }.

Record Operations := {
  publication_operations : gmap bytes FileOperationRow;
  directory_operations : gmap bytes DirectoryOperationRow;
  rename_operations : gmap bytes RenameOperationRow;
  unlink_operations : gmap bytes UnlinkOperationRow;
  restore_operations : gmap bytes RestoreOperationRow;
  reconciliation_operations : gmap bytes MergeOperationRow;
  imported_commits : gmap bytes EvidenceRow
}.

Definition with_directory_operations (t : gmap bytes DirectoryOperationRow) (o : Operations) : Operations :=
  {| publication_operations := publication_operations o; directory_operations := t; rename_operations := rename_operations o;
     unlink_operations := unlink_operations o; restore_operations := restore_operations o;
     reconciliation_operations := reconciliation_operations o; imported_commits := imported_commits o |}.

(** [SELECT ... WHERE namespace_commit_id = key ORDER BY ordinal]. *)
Definition ordinal_le {V} (x y : Z * V) : Prop := (x.1 <= y.1)%Z.
#[export] Instance ordinal_le_dec {V} : RelDecision (@ordinal_le V).
Proof. intros x y. unfold ordinal_le. apply _. Defined.

Definition rows_of {V} (key : bytes) (t : gmap (bytes * Z) V) : list (Z * V) :=
  merge_sort ordinal_le (omap (fun '((k, ordinal), v) => if bool_decide (k = key) then Some (ordinal, v) else None) (map_to_list t)).

(** Rows that must be numbered from zero, each decoded in turn. *)
Definition numbered {V A} (decode : V -> result PublicationError A) (rows : list (Z * V)) : result PublicationError (list A) :=
  try_fold (fun found '(ordinal, v) => if (ordinal =? Z.of_nat (length found))%Z then x ← decode v; Ok (found ++ [x]) else Err Corrupt) [] rows.

(** ** Receipts *)

Inductive PublicationDisposition := Applied | Replayed.
#[export] Instance PublicationDisposition_eq_dec : EqDecision PublicationDisposition.
Proof. solve_decision. Defined.

Record NamespacePublicationReceipt := {
  nr_disposition : PublicationDisposition; nr_operation : N; nr_request : bytes; nr_version : N; nr_commit : N; nr_sequence : N; nr_result : bytes
}.
Record DirectoryPublicationReceipt := {
  dr_disposition : PublicationDisposition; dr_operation : N; dr_request : bytes; dr_object : N; dr_revision : N; dr_commit : N; dr_sequence : N; dr_result : bytes
}.
Record NamespaceRenameReceipt := {
  rr_disposition : PublicationDisposition; rr_operation : N; rr_request : bytes; rr_object : N; rr_revision : N; rr_commit : N; rr_sequence : N; rr_result : bytes
}.
Record NamespaceUnlinkReceipt := {
  ur_disposition : PublicationDisposition; ur_operation : N; ur_request : bytes; ur_object : N; ur_revision : N; ur_kind : DirectoryEntryKind;
  ur_commit : N; ur_sequence : N; ur_result : bytes
}.
Record SnapshotRestoreReceipt := {
  sr_disposition : PublicationDisposition; sr_operation : N; sr_request : bytes; sr_snapshot : N; sr_snapshot_commit : N; sr_expected : N;
  sr_commit : N; sr_root : N; sr_result : bytes
}.
Record NamespaceReconciliationReceipt := {
  mr_disposition : PublicationDisposition; mr_operation : N; mr_request : bytes; mr_causal : bytes; mr_replay : bytes; mr_commit : N; mr_root : N; mr_result : bytes
}.

Section receipts.
Context `{Blake3}.

Definition file_result (operation : N) (request : bytes) (version commit sequence : N) : bytes :=
  blake3 (ascii_bytes "meshspan.filesystem.namespace-publication-result.v1" ++ [0] ++ Identifier.as_bytes operation ++ request ++
    Identifier.as_bytes version ++ Identifier.as_bytes commit ++ be_bytes 8 sequence).
Definition directory_operation_result (operation : N) (request : bytes) (revision commit sequence : N) : bytes :=
  blake3 (ascii_bytes "meshspan.filesystem.directory-publication-result.v1" ++ [0] ++ Identifier.as_bytes operation ++ request ++
    Identifier.as_bytes revision ++ Identifier.as_bytes commit ++ be_bytes 8 sequence).
Definition rename_result (operation : N) (request : bytes) (object revision commit sequence : N) : bytes :=
  blake3 (ascii_bytes "meshspan.filesystem.namespace-rename-result.v1" ++ [0] ++ Identifier.as_bytes operation ++ request ++
    Identifier.as_bytes object ++ Identifier.as_bytes revision ++ Identifier.as_bytes commit ++ be_bytes 8 sequence).
Definition unlink_result (operation : N) (request : bytes) (object revision : N) (k : DirectoryEntryKind) (commit sequence : N) : bytes :=
  blake3 (ascii_bytes "meshspan.filesystem.namespace-unlink-result.v1" ++ [0] ++ Identifier.as_bytes operation ++ request ++
    Identifier.as_bytes object ++ Identifier.as_bytes revision ++ [kind_code k] ++ Identifier.as_bytes commit ++ be_bytes 8 sequence).
Definition namespace_snapshot_restore_result_digest (operation : N) (request : bytes) (snapshot snapshot_commit expected commit from : N) : bytes :=
  blake3 (ascii_bytes "meshspan.filesystem.namespace-snapshot-restore-result.v1" ++ [0] ++ Identifier.as_bytes operation ++ request ++
    Identifier.as_bytes snapshot ++ Identifier.as_bytes snapshot_commit ++ Identifier.as_bytes expected ++ Identifier.as_bytes commit ++ Identifier.as_bytes from).
Definition namespace_reconciliation_result_digest (operation commit : N) (request causal replay : bytes) (from : N) : bytes :=
  blake3 (ascii_bytes "meshspan.filesystem.namespace-reconciliation-result.v1" ++ [0] ++ Identifier.as_bytes operation ++ request ++
    causal ++ replay ++ Identifier.as_bytes commit ++ Identifier.as_bytes from).
Definition imported_evidence_digest (commit : N) (request intent : bytes) : bytes :=
  blake3 (ascii_bytes "meshspan.filesystem.imported-namespace-commit-evidence.v1" ++ [0] ++ Identifier.as_bytes commit ++ request ++ intent).

Definition decode_file_receipt (operation : N) (d : PublicationDisposition) (row : FileOperationRow) : result PublicationError NamespacePublicationReceipt :=
  request ← copy_array (fo_request row);
  commit ← decode_identifier (fo_commit row);
  version ← decode_identifier (fo_version row);
  sequence ← from_i64 (fo_sequence row);
  r ← copy_array (fo_result row);
  if negb (bool_decide (r = file_result operation request version commit sequence)) then Err Corrupt
  else Ok {| nr_disposition := d; nr_operation := operation; nr_request := request; nr_version := version; nr_commit := commit; nr_sequence := sequence; nr_result := r |}.

Definition load_file_operation_raw (o : Operations) (operation : N) (d : PublicationDisposition) : result PublicationError (option NamespacePublicationReceipt) :=
  match publication_operations o !! Identifier.as_bytes operation with
  | None => Ok None
  | Some row => r ← decode_file_receipt operation d row; Ok (Some r)
  end.

Definition decode_directory_receipt (operation : N) (d : PublicationDisposition) (row : DirectoryOperationRow) (object : bytes) :
    result PublicationError DirectoryPublicationReceipt :=
  request ← copy_array (do_request row);
  commit ← decode_identifier (do_commit row);
  revision ← decode_identifier (do_revision row);
  object ← decode_identifier object;
  sequence ← from_i64 (do_sequence row);
  r ← copy_array (do_result row);
  if negb (bool_decide (r = directory_operation_result operation request revision commit sequence)) then Err Corrupt
  else Ok {| dr_disposition := d; dr_operation := operation; dr_request := request; dr_object := object; dr_revision := revision; dr_commit := commit;
             dr_sequence := sequence; dr_result := r |}.

(** The row is joined with the revision it names. *)
Definition load_directory_operation_raw (db : Database) (o : Operations) (operation : N) (d : PublicationDisposition) :
    result PublicationError (option DirectoryPublicationReceipt) :=
  match (row ← directory_operations o !! Identifier.as_bytes operation; revision ← object_revisions db !! do_revision row; Some (row, row_object revision)) with
  | None => Ok None
  | Some (row, object) =>
      r ← decode_directory_receipt operation d row object;
      revision ← load_object_revision db (dr_revision r);
      if negb (inserted_kind revision =? 1) || negb (inserted_object revision =? dr_object r) then Err Corrupt else Ok (Some r)
  end.

Definition load_rename_operation (o : Operations) (operation : N) (d : PublicationDisposition) : result PublicationError (option NamespaceRenameReceipt) :=
  match rename_operations o !! Identifier.as_bytes operation with
  | None => Ok None
  | Some row =>
      request ← copy_array (ro_request row);
      commit ← decode_identifier (ro_commit row);
      object ← decode_identifier (ro_object row);
      revision ← decode_identifier (ro_revision row);
      sequence ← from_i64 (ro_sequence row);
      r ← copy_array (ro_result row);
      if bool_decide (r = rename_result operation request object revision commit sequence)
      then Ok (Some {| rr_disposition := d; rr_operation := operation; rr_request := request; rr_object := object; rr_revision := revision; rr_commit := commit;
                       rr_sequence := sequence; rr_result := r |})
      else Err Corrupt
  end.

Definition decode_stored_kind (k : Z) : result PublicationError DirectoryEntryKind :=
  match k with 1%Z => Ok Directory | 2%Z => Ok File | _ => Err Corrupt end.

Definition load_unlink_operation (o : Operations) (operation : N) (d : PublicationDisposition) : result PublicationError (option NamespaceUnlinkReceipt) :=
  match unlink_operations o !! Identifier.as_bytes operation with
  | None => Ok None
  | Some row =>
      request ← copy_array (uo_request row);
      commit ← decode_identifier (uo_commit row);
      object ← decode_identifier (uo_object row);
      revision ← decode_identifier (uo_revision row);
      k ← decode_stored_kind (uo_kind row);
      sequence ← from_i64 (uo_sequence row);
      r ← copy_array (uo_result row);
      if bool_decide (r = unlink_result operation request object revision k commit sequence)
      then Ok (Some {| ur_disposition := d; ur_operation := operation; ur_request := request; ur_object := object; ur_revision := revision; ur_kind := k;
                       ur_commit := commit; ur_sequence := sequence; ur_result := r |})
      else Err Corrupt
  end.

Definition load_restore_receipt_raw (o : Operations) (operation : N) (d : PublicationDisposition) : result PublicationError (option SnapshotRestoreReceipt) :=
  match restore_operations o !! Identifier.as_bytes operation with
  | None => Ok None
  | Some row =>
      request ← copy_array (so_request row);
      snapshot ← decode_identifier (so_snapshot row);
      snapshot_commit ← decode_identifier (so_snapshot_commit row);
      expected ← decode_identifier (so_expected row);
      commit ← decode_identifier (so_commit row);
      from ← decode_identifier (so_root row);
      r ← copy_array (so_result row);
      if bool_decide (namespace_snapshot_restore_result_digest operation request snapshot snapshot_commit expected commit from = r)
      then Ok (Some {| sr_disposition := d; sr_operation := operation; sr_request := request; sr_snapshot := snapshot; sr_snapshot_commit := snapshot_commit;
                       sr_expected := expected; sr_commit := commit; sr_root := from; sr_result := r |})
      else Err Corrupt
  end.

Definition load_reconciliation_receipt (o : Operations) (operation : N) (d : PublicationDisposition) :
    result PublicationError (option NamespaceReconciliationReceipt) :=
  match reconciliation_operations o !! Identifier.as_bytes operation with
  | None => Ok None
  | Some row =>
      request ← copy_array (mo_request row);
      causal ← copy_array (mo_causal row);
      replay ← copy_array (mo_replay row);
      commit ← decode_identifier (mo_commit row);
      from ← decode_identifier (mo_root row);
      r ← copy_array (mo_result row);
      if negb (bool_decide (namespace_reconciliation_result_digest operation commit request causal replay from = r)) then Err Corrupt
      else Ok (Some {| mr_disposition := d; mr_operation := operation; mr_request := request; mr_causal := causal; mr_replay := replay; mr_commit := commit;
                       mr_root := from; mr_result := r |})
  end.

(** Evidence that does not verify counts as none. *)
Definition load_imported_commit_evidence (o : Operations) (commit : N) : option (bytes * bytes) :=
  row ← imported_commits o !! Identifier.as_bytes commit;
  match copy_array (imported_request row), copy_array (imported_intent row), copy_array (imported_evidence row) with
  | Ok request, Ok intent, Ok evidence => if bool_decide (imported_evidence_digest commit request intent = evidence) then Some (request, intent) else None
  | _, _, _ => None
  end.

(** ** Commits *)

Definition load_parents (db : Database) (commit : N) : result PublicationError (list N) :=
  numbered decode_identifier (rows_of (Identifier.as_bytes commit) (namespace_commit_parents db)).

Definition load_single_parent (db : Database) (commit : N) : result PublicationError (option N) :=
  ps ← load_parents db commit;
  if (1 <? length ps)%nat then Err Corrupt else Ok (head ps).

Definition load_commit_request_digest (db : Database) (o : Operations) (operation commit : N) : result PublicationError bytes :=
  file ← load_file_operation_raw o operation Replayed;
  directory ← load_directory_operation_raw db o operation Replayed;
  restore ← load_restore_receipt_raw o operation Replayed;
  rename ← load_rename_operation o operation Replayed;
  unlink ← load_unlink_operation o operation Replayed;
  match file, directory, restore, rename, unlink with
  | Some r, None, None, None, None => if nr_commit r =? commit then Ok (nr_request r) else Err Corrupt
  | None, Some r, None, None, None => if dr_commit r =? commit then Ok (dr_request r) else Err Corrupt
  | None, None, Some r, None, None => if sr_commit r =? commit then Ok (sr_request r) else Err Corrupt
  | None, None, None, Some r, None => if rr_commit r =? commit then Ok (rr_request r) else Err Corrupt
  | None, None, None, None, Some r => if ur_commit r =? commit then Ok (ur_request r) else Err Corrupt
  | None, None, None, None, None => ok_or (fst <$> load_imported_commit_evidence o commit) Corrupt
  | _, _, _, _, _ => Err Corrupt
  end.

Definition load_commit (db : Database) (o : Operations) (commit : N) : result PublicationError StoredCommit :=
  row ← ok_or (namespace_commits db !! Identifier.as_bytes commit) Sqlite;
  branch ← decode_identifier (commit_branch row);
  volume ← decode_identifier (commit_volume row);
  object ← decode_identifier (commit_root_object row);
  revision ← decode_identifier (commit_root_revision row);
  parent ← load_single_parent db commit;
  by_ ← decode_identifier (commit_created_by row);
  operation ← decode_identifier (commit_operation row);
  let c := {| stored_commit_id := commit; stored_branch := branch; stored_commit_volume := volume; stored_root_object := object; stored_root_revision := revision;
              stored_parent := parent; stored_by := by_; stored_operation := operation; stored_at := commit_created_at row |} in
  request ← load_commit_request_digest db o operation commit;
  d ← copy_array (commit_digest row);
  if bool_decide (d = commit_digest_fields c request) then Ok c else Err Corrupt.

Definition merge_commit (commit branch volume object revision : N) (ps : list N) (by_ operation : N) (at_ : Z) (request replay : bytes) : bytes :=
  blake3 (ascii_bytes "meshspan.filesystem.namespace-merge-commit.v1" ++ [0] ++ Identifier.as_bytes commit ++ Identifier.as_bytes branch ++
    Identifier.as_bytes volume ++ Identifier.as_bytes object ++ Identifier.as_bytes revision ++ u32_be (len ps) ++ concat (map Identifier.as_bytes ps) ++
    Identifier.as_bytes by_ ++ Identifier.as_bytes operation ++ i64_be_bytes at_ ++ request ++ replay).

Definition load_merge_reconciliation_commit (db : Database) (o : Operations) (commit : N) (ps : list N) : result PublicationError ReconciliationCommit :=
  row ← ok_or (namespace_commits db !! Identifier.as_bytes commit) Sqlite;
  branch ← decode_identifier (commit_branch row);
  volume ← decode_identifier (commit_volume row);
  object ← decode_identifier (commit_root_object row);
  revision ← decode_identifier (commit_root_revision row);
  by_ ← decode_identifier (commit_created_by row);
  operation ← decode_identifier (commit_operation row);
  found ← load_reconciliation_receipt o operation Replayed;
  r ← ok_or found Corrupt;
  if negb (mr_commit r =? commit) || negb (mr_root r =? revision) then Err Corrupt
  else
    d ← copy_array (commit_digest row);
    if negb (bool_decide (d = merge_commit commit branch volume object revision ps by_ operation (commit_created_at row) (mr_request r) (mr_replay r))) then Err Corrupt
    else Ok {| commit_id := commit; branch_id := branch; volume_id := volume; root_object_id := object; root_object_revision_id := revision; parents := ps;
               operation_id := operation; request_digest := mr_request r; payload := Reconcile.Merge (mr_replay r) |}.

Record NamespaceRoot := { root_volume : N; root_object : N; root_revision : N }.

Definition load_namespace_root (db : Database) (o : Operations) (commit : N) : result PublicationError NamespaceRoot :=
  ps ← load_parents db commit;
  if (2 <=? length ps)%nat then
    c ← load_merge_reconciliation_commit db o commit ps;
    Ok {| root_volume := volume_id c; root_object := root_object_id c; root_revision := root_object_revision_id c |}
  else
    c ← load_commit db o commit;
    Ok {| root_volume := stored_commit_volume c; root_object := stored_root_object c; root_revision := stored_root_revision c |}.

Record BranchNamespaceHead := { head_branch : N; head_volume : N; head_namespace_commit : N; head_number : N }.

Definition load_head (db : Database) (o : Operations) (branch volume : N) : result PublicationError (option BranchNamespaceHead) :=
  match branch_namespace_heads db !! (Identifier.as_bytes branch, Identifier.as_bytes volume) with
  | None => Ok None
  | Some row =>
      commit ← decode_identifier (head_commit row);
      sequence ← from_i64 (head_sequence row);
      selected ← load_namespace_root db o commit;
      if root_volume selected =? volume
      then Ok (Some {| head_branch := branch; head_volume := volume; head_namespace_commit := commit; head_number := sequence |})
      else Err Corrupt
  end.

Definition load_directory_operation (db : Database) (o : Operations) (operation : N) (d : PublicationDisposition) :
    result PublicationError (option DirectoryPublicationReceipt) :=
  found ← load_directory_operation_raw db o operation d;
  match found with
  | None => Ok None
  | Some r => commit ← load_commit db o (dr_commit r); if stored_operation commit =? operation then Ok (Some r) else Err Corrupt
  end.

Definition load_file_operation (db : Database) (o : Operations) (operation : N) (d : PublicationDisposition) :
    result PublicationError (option NamespacePublicationReceipt) :=
  found ← load_file_operation_raw o operation d;
  match found with
  | None => Ok None
  | Some r => commit ← load_commit db o (nr_commit r); if stored_operation commit =? operation then Ok (Some r) else Err Corrupt
  end.

End receipts.
