(* ===== verification/IntentStore.v ===== *)
(** The intents of the branch database, which reconciliation replays elsewhere: persisting and
    reading back a mutation with its path, ancestors, rename and deletion marker, from
    meshspan-filesystem/src/namespace_publication/repository.rs with repository/rename_intent.rs
    and repository/deletion_intent.rs, over migrations 005, 006, 023 and 025 of the branch
    schema. *)

From S2P Require Import Prelude Ids Codec Contracts Name Directory Reconcile Intent BranchStore Journal.
From stdpp Require Import prelude gmap sorting list.
#[local] Open Scope N_scope.

(** ** Tables *)

Record IntentRow := {
  ir_kind : Z; ir_object : bytes; ir_revision : bytes; ir_prior : option bytes; ir_version : option bytes; ir_generation : Z; ir_depth : Z; ir_digest : bytes
}.
Record ComponentRow := { co_display : Str; co_canonical : Str }.
Record AncestorRow := { an_object : bytes; an_prior : bytes; an_resulting : bytes }.
Record RenameRow := { rn_depth : Z; rn_generation : Z; rn_intermediate : bytes }.

Record Intents := {
  commit_intents : gmap bytes IntentRow;
  path_components : gmap (bytes * Z) ComponentRow;
  intent_ancestors : gmap (bytes * Z) AncestorRow;
  commit_renames : gmap bytes RenameRow;
  rename_components : gmap (bytes * Z) ComponentRow;
  rename_ancestors : gmap (bytes * Z) AncestorRow;
  commit_deletions : gset bytes
}.

(** The whole database of a branch.  An acknowledgement is what reading its row back reports:
    a failure, or that there is one. *)
Record Branch := {
  tables : Database;
  operations : Operations;
  intents : Intents;
  acknowledgements : gmap bytes (result PublicationError unit)
}.

Definition with_tables (db : Database) (b : Branch) : Branch :=
  {| tables := db; operations := operations b; intents := intents b; acknowledgements := acknowledgements b |}.
Definition with_operations (o : Operations) (b : Branch) : Branch :=
  {| tables := tables b; operations := o; intents := intents b; acknowledgements := acknowledgements b |}.
Definition with_intents (i : Intents) (b : Branch) : Branch :=
  {| tables := tables b; operations := operations b; intents := i; acknowledgements := acknowledgements b |}.

Abbreviation BranchTx A := (SE Branch PublicationError A).

Definition on_tables {A} (m : Tx A) : BranchTx A := fun b => let '(r, db) := m (tables b) in (r, with_tables db b).

(** [INSERT] of one row, when the schema admits it. *)
Definition insert_row (admitted : Branch -> bool) (change : Intents -> Intents) : BranchTx unit :=
  b ← get_state;
  if admitted b then modify_state (with_intents (change (intents b))) else raise Sqlite.

(** ** Constraints *)

Definition known_revision (db : Database) (r : bytes) : bool := bool_decide (is_Some (object_revisions db !! r)).
Definition within (lo hi z : Z) : bool := (lo <=? z)%Z && (z <=? hi)%Z.
Definition optional_known (known : bytes -> bool) (o : option bytes) : bool := match o with Some b => known b | None => true end.

Definition intent_admitted (key : bytes) (row : IntentRow) (b : Branch) : bool :=
  bool_decide (commit_intents (intents b) !! key = None)
  && bool_decide (is_Some (namespace_commits (tables b) !! key))
  && within 1 2 (ir_kind row)
  && known_revision (tables b) (ir_revision row)
  && optional_known (known_revision (tables b)) (ir_prior row)
  && optional_known (fun v => bool_decide (is_Some (file_versions (tables b) !! v))) (ir_version row)
  && (0 <? ir_generation row)%Z
  && within 1 1024 (ir_depth row)
  && match ir_kind row, ir_version row, ir_prior row with
     | 1%Z, Some _, _ => true
     | 2%Z, None, None => true
     | _, _, _ => false
     end.

Definition component_admitted (parent : Intents -> bytes -> bool) (t : Intents -> gmap (bytes * Z) ComponentRow) (key : bytes) (ordinal : Z) (row : ComponentRow)
    (b : Branch) : bool :=
  parent (intents b) key
  && bool_decide (t (intents b) !! (key, ordinal) = None)
  && within 0 1023 ordinal
  && within 1 16384 (Z.of_nat (length (co_display row)))
  && within 1 16384 (Z.of_nat (length (co_canonical row))).

Definition ancestor_admitted (parent : Intents -> bytes -> bool) (t : Intents -> gmap (bytes * Z) AncestorRow) (key : bytes) (ordinal : Z) (row : AncestorRow)
    (b : Branch) : bool :=
  parent (intents b) key
  && bool_decide (t (intents b) !! (key, ordinal) = None)
  && within 0 1022 ordinal
  && known_revision (tables b) (an_prior row)
  && known_revision (tables b) (an_resulting row)
  && bool_decide (map_Forall (fun k r => ~ (k.1 = key /\ an_object r = an_object row)) (t (intents b)))
  && negb (bool_decide (an_prior row = an_resulting row)).

Definition has_intent (i : Intents) (key : bytes) : bool := bool_decide (is_Some (commit_intents i !! key)).
Definition has_rename (i : Intents) (key : bytes) : bool := bool_decide (is_Some (commit_renames i !! key)).

Definition rename_admitted (key : bytes) (row : RenameRow) (b : Branch) : bool :=
  has_intent (intents b) key
  && negb (has_rename (intents b) key)
  && within 1 1024 (rn_depth row)
  && (0 <? rn_generation row)%Z
  && known_revision (tables b) (rn_intermediate row).

(** ** Updates of the tables *)

Definition with_commit_intents (t : gmap bytes IntentRow) (i : Intents) : Intents :=
  {| commit_intents := t; path_components := path_components i; intent_ancestors := intent_ancestors i; commit_renames := commit_renames i;
     rename_components := rename_components i; rename_ancestors := rename_ancestors i; commit_deletions := commit_deletions i |}.
Definition with_path_components (t : gmap (bytes * Z) ComponentRow) (i : Intents) : Intents :=
  {| commit_intents := commit_intents i; path_components := t; intent_ancestors := intent_ancestors i; commit_renames := commit_renames i;
     rename_components := rename_components i; rename_ancestors := rename_ancestors i; commit_deletions := commit_deletions i |}.
Definition with_intent_ancestors (t : gmap (bytes * Z) AncestorRow) (i : Intents) : Intents :=
  {| commit_intents := commit_intents i; path_components := path_components i; intent_ancestors := t; commit_renames := commit_renames i;
     rename_components := rename_components i; rename_ancestors := rename_ancestors i; commit_deletions := commit_deletions i |}.
Definition with_commit_renames (t : gmap bytes RenameRow) (i : Intents) : Intents :=
  {| commit_intents := commit_intents i; path_components := path_components i; intent_ancestors := intent_ancestors i; commit_renames := t;
     rename_components := rename_components i; rename_ancestors := rename_ancestors i; commit_deletions := commit_deletions i |}.
Definition with_rename_components (t : gmap (bytes * Z) ComponentRow) (i : Intents) : Intents :=
  {| commit_intents := commit_intents i; path_components := path_components i; intent_ancestors := intent_ancestors i; commit_renames := commit_renames i;
     rename_components := t; rename_ancestors := rename_ancestors i; commit_deletions := commit_deletions i |}.
Definition with_rename_ancestors (t : gmap (bytes * Z) AncestorRow) (i : Intents) : Intents :=
  {| commit_intents := commit_intents i; path_components := path_components i; intent_ancestors := intent_ancestors i; commit_renames := commit_renames i;
     rename_components := rename_components i; rename_ancestors := t; commit_deletions := commit_deletions i |}.
Definition with_commit_deletions (t : gset bytes) (i : Intents) : Intents :=
  {| commit_intents := commit_intents i; path_components := path_components i; intent_ancestors := intent_ancestors i; commit_renames := commit_renames i;
     rename_components := rename_components i; rename_ancestors := rename_ancestors i; commit_deletions := t |}.

(** ** Persisting *)

Definition rename_shape (i : BranchMutationIntent) : result PublicationError unit :=
  match rename i with
  | None => Ok tt
  | Some r =>
      if (source_entry_generation r =? 0) || negb (S (length (source_ancestors r)) =? length (components (source_path r)))%nat
         || bool_decide (path i = source_path r)
      then Err InvalidInput else Ok tt
  end.

Definition deletion_shape (i : BranchMutationIntent) : result PublicationError unit :=
  if is_deletion (mutation i) && bool_decide (is_Some (rename i)) then Err InvalidInput else Ok tt.

Definition component_row (c : NamespaceComponent) : ComponentRow := {| co_display := display c; co_canonical := canonical c |}.
Definition ancestor_row (t : DirectoryRevisionTransition) : AncestorRow :=
  {| an_object := Identifier.as_bytes (transition_object t); an_prior := Identifier.as_bytes (expected_revision t); an_resulting := Identifier.as_bytes (new_revision t) |}.
Definition kind_columns (m : BranchMutation) : Z * option bytes :=
  match m with
  | FileVersion v | DeleteFile v => (1%Z, Some (Identifier.as_bytes v))
  | CreateDirectory | DeleteDirectory => (2%Z, None)
  end.

Definition insert_component (key : bytes) (indexed : nat * NamespaceComponent) : BranchTx unit :=
  let '(index, c) := indexed in
  insert_row (component_admitted has_intent path_components key (Z.of_nat index) (component_row c))
    (fun i => with_path_components (<[(key, Z.of_nat index) := component_row c]> (path_components i)) i).
Definition insert_ancestor (key : bytes) (indexed : nat * DirectoryRevisionTransition) : BranchTx unit :=
  let '(index, t) := indexed in
  insert_row (ancestor_admitted has_intent intent_ancestors key (Z.of_nat index) (ancestor_row t))
    (fun i => with_intent_ancestors (<[(key, Z.of_nat index) := ancestor_row t]> (intent_ancestors i)) i).
Definition insert_source_component (key : bytes) (indexed : nat * NamespaceComponent) : BranchTx unit :=
  let '(index, c) := indexed in
  insert_row (component_admitted has_rename rename_components key (Z.of_nat index) (component_row c))
    (fun i => with_rename_components (<[(key, Z.of_nat index) := component_row c]> (rename_components i)) i).
Definition insert_source_ancestor (key : bytes) (indexed : nat * DirectoryRevisionTransition) : BranchTx unit :=
  let '(index, t) := indexed in
  insert_row (ancestor_admitted has_rename rename_ancestors key (Z.of_nat index) (ancestor_row t))
    (fun i => with_rename_ancestors (<[(key, Z.of_nat index) := ancestor_row t]> (rename_ancestors i)) i).

Definition persist_rename (key : bytes) (r : BranchRenameIntent) : BranchTx unit :=
  depth ← lift (to_i64 (len (components (source_path r))));
  generation ← lift (to_i64 (source_entry_generation r));
  let row := {| rn_depth := depth; rn_generation := generation; rn_intermediate := Identifier.as_bytes (intermediate_root_object_revision_id r) |} in
  _ ← insert_row (rename_admitted key row) (fun i => with_commit_renames (<[key := row]> (commit_renames i)) i);
  _ ← traverse (insert_source_component key) (imap pair (components (source_path r)));
  _ ← traverse (insert_source_ancestor key) (imap pair (source_ancestors r));
  mret tt.

Definition persist_deletion (key : bytes) (m : BranchMutation) : BranchTx unit :=
  if is_deletion m
  then insert_row (fun b => has_intent (intents b) key && negb (bool_decide (key ∈ commit_deletions (intents b))))
         (fun i => with_commit_deletions ({[key]} ∪ commit_deletions i) i)
  else mret tt.

Section intents.
Context `{Blake3} `{Unicode}.

Definition persist_branch_intent (i : BranchMutationIntent) : BranchTx unit :=
  _ ← lift (rename_shape i);
  _ ← lift (deletion_shape i);
  generation ← lift (to_i64 (entry_generation i));
  depth ← lift (to_i64 (len (components (path i))));
  let key := Identifier.as_bytes (intent_commit_id i) in
  let row := {| ir_kind := (kind_columns (mutation i)).1; ir_object := Identifier.as_bytes (intent_object_id i);
                ir_revision := Identifier.as_bytes (intent_object_revision_id i); ir_prior := Identifier.as_bytes <$> prior_object_revision_id i;
                ir_version := (kind_columns (mutation i)).2; ir_generation := generation; ir_depth := depth; ir_digest := intent_digest_of i |} in
  _ ← insert_row (intent_admitted key row) (fun t => with_commit_intents (<[key := row]> (commit_intents t)) t);
  _ ← traverse (insert_component key) (imap pair (components (path i)));
  _ ← traverse (insert_ancestor key) (imap pair (ancestors i));
  _ ← match rename i with Some r => persist_rename key r | None => mret tt end;
  persist_deletion key (mutation i).

(** ** Reading back *)

Definition decode_component (row : ComponentRow) : result PublicationError NamespaceComponent :=
  map_err (fun _ => Corrupt) (from_stored (co_display row) (co_canonical row)).

Definition load_components (rows : list (Z * ComponentRow)) (depth : N) : result PublicationError (list NamespaceComponent) :=
  cs ← numbered decode_component rows;
  if negb (len cs =? depth) then Err Corrupt else Ok cs.

Definition decode_ancestor (row : AncestorRow) : result PublicationError DirectoryRevisionTransition :=
  object ← decode_identifier (an_object row);
  prior ← decode_identifier (an_prior row);
  resulting ← decode_identifier (an_resulting row);
  map_err (fun _ => Corrupt) (new_transition object prior resulting).

Definition load_intent_ancestors (rows : list (Z * AncestorRow)) (depth : N) : result PublicationError (list DirectoryRevisionTransition) :=
  ts ← numbered decode_ancestor rows;
  if len ts + 1 =? depth then Ok ts else Err Corrupt.

Definition stored_path (cs : list NamespaceComponent) : result PublicationError NamespacePath :=
  map_err (fun _ => Corrupt) (from_stored_components cs).

Definition load_rename (b : Branch) (commit : N) : result PublicationError (option BranchRenameIntent) :=
  let key := Identifier.as_bytes commit in
  match commit_renames (intents b) !! key with
  | None => Ok None
  | Some row =>
      depth ← from_i64 (rn_depth row);
      cs ← load_components (rows_of key (rename_components (intents b))) depth;
      p ← stored_path cs;
      ts ← load_intent_ancestors (rows_of key (rename_ancestors (intents b))) depth;
      generation ← from_i64 (rn_generation row);
      intermediate ← decode_identifier (rn_intermediate row);
      Ok (Some {| source_path := p; source_ancestors := ts; source_entry_generation := generation; intermediate_root_object_revision_id := intermediate |})
  end.

(** A revision that is a directory of this volume and object. *)
Definition directory_of (volume object : N) (r : ObjectRevisionInsert) : bool :=
  (inserted_volume r =? volume) && (inserted_object r =? object) && (inserted_kind r =? 1) && bool_decide (is_Some (inserted_root r))
  && bool_decide (inserted_version r = None).

Definition validate_directory_transition (db : Database) (volume : N) (t : DirectoryRevisionTransition) : result PublicationError unit :=
  prior ← load_object_revision db (expected_revision t);
  resulting ← load_object_revision db (new_revision t);
  if directory_of volume (transition_object t) prior && directory_of volume (transition_object t) resulting
     && bool_decide (inserted_prior resulting = Some (expected_revision t))
  then Ok tt else Err Corrupt.

Definition validate_directory_transitions (db : Database) (volume : N) (ts : list DirectoryRevisionTransition) : result PublicationError unit :=
  _ ← try_map (validate_directory_transition db volume) ts; Ok tt.

Definition validate_loaded_rename (b : Branch) (c : StoredCommit) (r : BranchRenameIntent) : result PublicationError unit :=
  parent_id ← ok_or (stored_parent c) Corrupt;
  parent ← load_namespace_root (tables b) (operations b) parent_id;
  intermediate ← load_object_revision (tables b) (intermediate_root_object_revision_id r);
  final ← load_object_revision (tables b) (stored_root_revision c);
  if (root_volume parent =? stored_commit_volume c) && (root_object parent =? stored_root_object c)
     && directory_of (stored_commit_volume c) (stored_root_object c) intermediate && bool_decide (inserted_prior intermediate = Some (root_revision parent))
     && directory_of (stored_commit_volume c) (stored_root_object c) final
     && bool_decide (inserted_prior final = Some (intermediate_root_object_revision_id r))
  then validate_directory_transitions (tables b) (stored_commit_volume c) (source_ancestors r)
  else Err Corrupt.

Definition validate_loaded_deletion (b : Branch) (c : StoredCommit) (i : BranchMutationIntent) : result PublicationError unit :=
  if negb (is_deletion (mutation i)) then Ok tt
  else
    parent_id ← ok_or (stored_parent c) Corrupt;
    parent ← load_namespace_root (tables b) (operations b) parent_id;
    from ← load_object_revision (tables b) (stored_root_revision c);
    if (root_volume parent =? stored_commit_volume c) && (root_object parent =? stored_root_object c)
       && directory_of (stored_commit_volume c) (stored_root_object c) from && bool_decide (inserted_prior from = Some (root_revision parent))
    then Ok tt else Err Corrupt.

Definition valid_kind (i : BranchMutationIntent) (r : ObjectRevisionInsert) : bool :=
  match mutation i with
  | FileVersion v | DeleteFile v => (inserted_kind r =? 2) && bool_decide (inserted_root r = None) && bool_decide (inserted_version r = Some v)
  | CreateDirectory =>
      (inserted_kind r =? 1) && bool_decide (is_Some (inserted_root r)) && bool_decide (inserted_version r = None)
      && (bool_decide (is_Some (rename i)) || bool_decide (prior_object_revision_id i = None))
  | DeleteDirectory => (inserted_kind r =? 1) && bool_decide (is_Some (inserted_root r)) && bool_decide (inserted_version r = None)
  end.

Definition validate_loaded_intent (b : Branch) (i : BranchMutationIntent) : result PublicationError unit :=
  _ ← map_err (fun _ => Corrupt) (rename_shape i);
  _ ← map_err (fun _ => Corrupt) (deletion_shape i);
  c ← load_commit (tables b) (operations b) (intent_commit_id i);
  r ← load_object_revision (tables b) (intent_object_revision_id i);
  if negb (stored_commit_volume c =? inserted_volume r) || negb (inserted_object r =? intent_object_id i)
     || negb (bool_decide (inserted_prior r = prior_object_revision_id i)) || negb (valid_kind i r)
  then Err Corrupt
  else
    _ ← validate_directory_transitions (tables b) (stored_commit_volume c) (ancestors i);
    _ ← match rename i with Some r => validate_loaded_rename b c r | None => Ok tt end;
    validate_loaded_deletion b c i.

Definition decode_mutation (k : Z) (version : option N) (deleted : bool) : result PublicationError BranchMutation :=
  match k, version, deleted with
  | 1%Z, Some v, false => Ok (FileVersion v)
  | 2%Z, None, false => Ok CreateDirectory
  | 1%Z, Some v, true => Ok (DeleteFile v)
  | 2%Z, None, true => Ok DeleteDirectory
  | _, _, _ => Err Corrupt
  end.

Definition decode_branch_intent (b : Branch) (commit : N) (row : IntentRow) : result PublicationError BranchMutationIntent :=
  let key := Identifier.as_bytes commit in
  depth ← from_i64 (ir_depth row);
  cs ← load_components (rows_of key (path_components (intents b))) depth;
  version ← decode_optional (ir_version row);
  m ← decode_mutation (ir_kind row) version (bool_decide (key ∈ commit_deletions (intents b)));
  rn ← load_rename b commit;
  p ← stored_path cs;
  ts ← load_intent_ancestors (rows_of key (intent_ancestors (intents b))) depth;
  object ← decode_identifier (ir_object row);
  revision ← decode_identifier (ir_revision row);
  prior ← decode_optional (ir_prior row);
  generation ← from_i64 (ir_generation row);
  let i := {| intent_commit_id := commit; path := p; ancestors := ts; intent_object_id := object; intent_object_revision_id := revision;
              prior_object_revision_id := prior; entry_generation := generation; mutation := m; rename := rn |} in
  _ ← validate_loaded_intent b i;
  d ← copy_array (ir_digest row);
  if bool_decide (d = intent_digest_of i) then Ok i else Err Corrupt.

Definition load_branch_intent (b : Branch) (commit : N) : result PublicationError (option BranchMutationIntent) :=
  match commit_intents (intents b) !! Identifier.as_bytes commit with
  | None => Ok None
  | Some row => i ← decode_branch_intent b commit row; Ok (Some i)
  end.

End intents.
