(* ===== verification/Creation.v ===== *)
(** Creating a directory as one transaction on the branch database: validation, the receipt of
    an earlier attempt, the base it starts from, the copied path, the commit with its intent,
    the head and the receipt, from meshspan-filesystem/src/namespace_publication.rs and
    namespace_publication/repository.rs.  This is [create_directory], which publishes without a
    federated acknowledgement.  The intents that renames (namespace_publication/rename.rs) and
    removals (namespace_publication/unlink.rs) record are here too. *)

From Stdlib Require Import String.
From S2P Require Import Prelude Ids Codec Contracts Name Directory Reconcile Intent BranchStore PathCopy Journal IntentStore.
From stdpp Require Import prelude gmap sorting list.
#[local] Open Scope N_scope.

Record DirectoryPublication := {
  dp_operation : N;
  dp_branch : N;
  dp_volume : N;
  dp_root_object : N;
  dp_expected_commit : option N;
  dp_object : N;
  dp_revision : N;
  dp_root_revision : N;
  dp_commit : N;
  dp_path : NamespacePublicationPath;
  dp_generation : N;
  dp_by : N;
  dp_at : Z
}.

(** Where a test may interrupt a transaction. *)
Module Fault.
Inductive NamespaceFaultPoint :=
| DirectoryNodes | FileVersion | ObjectRevisions | NamespaceCommit | Heads | Operation
| RenameSource | RenameTarget | RenameCommit | RenameHandles | RenameOperation
| UnlinkPath | UnlinkCommit | UnlinkPendingDelete | UnlinkOperation
| ReconciliationLeaf | ReconciliationDirectories | ReconciliationCommit | ReconciliationOperation
| SnapshotRestoreCommit | SnapshotRestoreOperation.
#[export] Instance NamespaceFaultPoint_eq_dec : EqDecision NamespaceFaultPoint.
Proof. solve_decision. Defined.
End Fault.
Export (hints) Fault.

Definition inject (fault : option Fault.NamespaceFaultPoint) (at_ : Fault.NamespaceFaultPoint) : BranchTx unit :=
  if bool_decide (fault = Some at_) then raise InjectedFault else mret tt.

(** A transaction that fails leaves the database as it found it. *)
Definition transact {S E A} (m : SE S E A) : SE S E A :=
  fun b => match m b with (Ok a, b') => (Ok a, b') | (Err e, _) => (Err e, b) end.

(** ** Validation *)

(** [BTreeSet::insert] that must be new. *)
Definition insert_new (x : N) (s : gset N) : option (gset N) := if bool_decide (x ∈ s) then None else Some ({[x]} ∪ s).

Definition collect_transition (sets : gset N * gset N * gset N) (t : DirectoryRevisionTransition) : result PublicationError (gset N * gset N * gset N) :=
  let '(objects, news, priors) := sets in
  objects' ← ok_or (insert_new (transition_object t) objects) InvalidInput;
  news' ← ok_or (insert_new (new_revision t) news) InvalidInput;
  Ok (objects', news', {[expected_revision t]} ∪ priors).

Definition validate_directory_publication (p : DirectoryPublication) : result PublicationError unit :=
  if (dp_root_object p =? dp_object p) || (dp_root_revision p =? dp_revision p) || (dp_generation p =? 0) || bool_decide (leaf_name (dp_path p) = None)
  then Err InvalidInput
  else
    '(_, news, priors) ← try_fold collect_transition ({[dp_root_object p; dp_object p]}, {[dp_root_revision p; dp_revision p]}, ∅) (publication_ancestors (dp_path p));
    if bool_decide (news ∩ priors = ∅) then Ok tt else Err InvalidInput.

Definition from_directory (p : DirectoryPublication) : NamespaceIntent :=
  {| intent_operation := dp_operation p; intent_branch := dp_branch p; intent_volume := dp_volume p; intent_root_object := dp_root_object p;
     expected_commit := dp_expected_commit p; intent_root_revision := dp_root_revision p; intent_commit := dp_commit p; intent_by := dp_by p; intent_at := dp_at p |}.

Definition directory_intent (p : DirectoryPublication) : BranchMutationIntent :=
  {| intent_commit_id := dp_commit p; path := publication_path (dp_path p); ancestors := publication_ancestors (dp_path p); intent_object_id := dp_object p;
     intent_object_revision_id := dp_revision p; prior_object_revision_id := None; entry_generation := dp_generation p; mutation := CreateDirectory; rename := None |}.

Inductive PublicationOperationKind := FileKind | DirectoryKind.

Definition reject_operation_receipts (operation : N) (allowed : PublicationOperationKind) : BranchTx unit :=
  b ← get_state;
  let key := Identifier.as_bytes operation in
  let o := operations b in
  let file := bool_decide (is_Some (publication_operations o !! key)) in
  let directory := bool_decide (is_Some (directory_operations o !! key)) in
  let others := bool_decide (is_Some (rename_operations o !! key)) || bool_decide (is_Some (unlink_operations o !! key))
                || bool_decide (is_Some (restore_operations o !! key)) || bool_decide (is_Some (reconciliation_operations o !! key)) in
  let collision := match allowed with FileKind => directory || others | DirectoryKind => file || others end in
  if collision then raise OperationConflict else mret tt.

(** A commit recorded without an acknowledgement has none. *)
Definition ensure_unacknowledged (commit : N) : BranchTx unit :=
  b ← get_state;
  match acknowledgements b !! Identifier.as_bytes commit with
  | None => mret tt
  | Some (Err e) => raise e
  | Some (Ok _) => raise OperationConflict
  end.

Section creation.
Context `{Blake3} `{Unicode}.

Definition update_publication_path (p : NamespacePublicationPath) : bytes :=
  update_namespace_path (publication_path p) ++ concat (map update_transition (publication_ancestors p)).

Definition directory_request (p : DirectoryPublication) : bytes :=
  blake3 (ascii_bytes "meshspan.filesystem.directory-publication.v1" ++ [0] ++ Identifier.as_bytes (dp_operation p) ++ Identifier.as_bytes (dp_branch p) ++
    Identifier.as_bytes (dp_volume p) ++ Identifier.as_bytes (dp_root_object p) ++ update_optional_revision (dp_expected_commit p) ++
    Identifier.as_bytes (dp_object p) ++ Identifier.as_bytes (dp_revision p) ++ Identifier.as_bytes (dp_root_revision p) ++ Identifier.as_bytes (dp_commit p) ++
    update_publication_path (dp_path p) ++ be_bytes 8 (dp_generation p) ++ Identifier.as_bytes (dp_by p) ++ i64_be_bytes (dp_at p)).

(** ** The base *)

Record NamespaceBase := { base_directories : list LoadedDirectory; base_sequence : N }.

Definition load_initial_base (i : NamespaceIntent) (p : NamespacePublicationPath) : result PublicationError NamespaceBase :=
  if negb (bool_decide (publication_ancestors p = [])) then Err StaleHead
  else Ok {| base_directories := [{| editor := Directory.empty; loaded_object := intent_root_object i; loaded_prior := None; loaded_next := intent_root_revision i |}];
             base_sequence := 0 |}.

(** The walk down the path is that of [load_path_directories]. *)
Definition load_existing_base (b : Branch) (i : NamespaceIntent) (p : NamespacePublicationPath) (h : BranchNamespaceHead) : result PublicationError NamespaceBase :=
  c ← load_namespace_root (tables b) (operations b) (head_namespace_commit h);
  if negb (root_volume c =? intent_volume i) || negb (root_object c =? intent_root_object i) then Err Corrupt
  else if (intent_root_revision i =? root_revision c) || existsb (fun t => new_revision t =? root_revision c) (publication_ancestors p) then Err InvalidInput
  else
    ds ← load_path_directories (tables b) (intent_volume i) (intent_root_object i) (root_revision c) (intent_root_revision i) p;
    Ok {| base_directories := ds; base_sequence := head_number h |}.

Definition load_base (b : Branch) (i : NamespaceIntent) (p : NamespacePublicationPath) : result PublicationError NamespaceBase :=
  found ← load_head (tables b) (operations b) (intent_branch i) (intent_volume i);
  match found, expected_commit i with
  | None, None => load_initial_base i p
  | Some h, Some expected => if head_namespace_commit h =? expected then load_existing_base b i p h else Err StaleHead
  | _, _ => Err StaleHead
  end.

(** ** The transaction *)

Definition persist_directory_operation (p : DirectoryPublication) (request : bytes) (sequence : N) : BranchTx DirectoryPublicationReceipt :=
  let d := directory_operation_result (dp_operation p) request (dp_revision p) (dp_commit p) sequence in
  stored ← lift (to_i64 sequence);
  b ← get_state;
  let key := Identifier.as_bytes (dp_operation p) in
  let row := {| do_request := request; do_commit := Identifier.as_bytes (dp_commit p); do_revision := Identifier.as_bytes (dp_revision p);
                do_sequence := stored; do_result := d; do_at := dp_at p |} in
  if bool_decide (directory_operations (operations b) !! key = None) && bool_decide (is_Some (namespace_commits (tables b) !! do_commit row))
     && bool_decide (is_Some (object_revisions (tables b) !! do_revision row)) && (0 <? stored)%Z
  then
    _ ← modify_state (with_operations (with_directory_operations (<[key := row]> (directory_operations (operations b))) (operations b)));
    mret {| dr_disposition := Applied; dr_operation := dp_operation p; dr_request := request; dr_object := dp_object p; dr_revision := dp_revision p;
            dr_commit := dp_commit p; dr_sequence := sequence; dr_result := d |}
  else raise Sqlite.

Definition new_directory_revision (p : DirectoryPublication) : ObjectRevisionInsert :=
  {| inserted_revision := dp_revision p; inserted_volume := dp_volume p; inserted_object := dp_object p; inserted_kind := 1; inserted_prior := None;
     inserted_root := Some (root Directory.empty); inserted_version := None; inserted_by := dp_by p; inserted_at := dp_at p |}.

(** What happens once no earlier attempt is found. *)
Definition apply_creation (p : DirectoryPublication) (request : bytes) (fault : option Fault.NamespaceFaultPoint) : BranchTx DirectoryPublicationReceipt :=
  let i := from_directory p in
  b ← get_state;
  base ← lift (load_base b i (dp_path p));
  parent ← lift (ok_or (last (base_directories base)) Corrupt);
  n ← lift (ok_or (leaf_name (dp_path p)) InvalidInput);
  found ← lift (map_err DirectoryFailure (Directory.lookup (editor parent) n));
  if bool_decide (is_Some found) then raise StaleHead
  else
    empty_record ← lift (map_err DirectoryFailure (record Directory.empty (root Directory.empty)));
    entry ← lift (map_err DirectoryFailure (new_entry n (dp_object p) (dp_revision p) Directory (dp_generation p)));
    namespace ← lift (mutate_namespace_path (base_directories base) (dp_path p) entry None);
    _ ← on_tables (persist_directory_node empty_record (dp_at p));
    _ ← on_tables (traverse (fun r => persist_directory_node r (dp_at p)) (mutated_nodes namespace));
    _ ← inject fault Fault.DirectoryNodes;
    _ ← on_tables (persist_object_revision (new_directory_revision p));
    _ ← on_tables (persist_directory_path_revisions (dp_volume p) (dp_by p) (dp_at p) (mutated_directories namespace));
    _ ← inject fault Fault.ObjectRevisions;
    _ ← on_tables (persist_commit i request);
    _ ← persist_branch_intent (directory_intent p);
    _ ← inject fault Fault.NamespaceCommit;
    sequence ← on_tables (advance_namespace_head i (base_sequence base));
    _ ← inject fault Fault.Heads;
    receipt ← persist_directory_operation p request sequence;
    _ ← inject fault Fault.Operation;
    mret receipt.

Definition create_directory (p : DirectoryPublication) (fault : option Fault.NamespaceFaultPoint) : BranchTx DirectoryPublicationReceipt :=
  _ ← lift (validate_directory_publication p);
  let request := directory_request p in
  transact (
    _ ← reject_operation_receipts (dp_operation p) DirectoryKind;
    b ← get_state;
    found ← lift (load_directory_operation (tables b) (operations b) (dp_operation p) Replayed);
    match found with
    | Some receipt => if bool_decide (dr_request receipt = request) then _ ← ensure_unacknowledged (dp_commit p); mret receipt else raise OperationConflict
    | None => apply_creation p request fault
    end).

End creation.

(** ** What renames and removals record *)

Record NamespaceRenamePublication := {
  nr_operation : N;
  nr_branch : N;
  nr_volume : N;
  nr_root_object : N;
  nr_expected_commit : N;
  nr_expected_object : N;
  nr_expected_revision : N;
  nr_source_generation : N;
  nr_source : NamespacePublicationPath;
  nr_intermediate_root : N;
  nr_target : NamespacePublicationPath;
  nr_target_generation : N;
  nr_root_revision : N;
  nr_commit : N;
  nr_handle : option N;
  nr_by : N;
  nr_at : Z
}.

Inductive NamespaceUnlinkAuthority :=
| Direct (requesting_handle : option N)
| DeleteOnClose (requesting_handle : N) (requested_at ready_at : Z).

Record NamespaceUnlinkPublication := {
  nu_operation : N;
  nu_branch : N;
  nu_volume : N;
  nu_root_object : N;
  nu_expected_commit : N;
  nu_expected_object : N;
  nu_expected_revision : N;
  nu_expected_kind : DirectoryEntryKind;
  nu_expected_version : option N;
  nu_expected_generation : N;
  nu_path : NamespacePublicationPath;
  nu_root_revision : N;
  nu_commit : N;
  nu_authority : NamespaceUnlinkAuthority;
  nu_by : N;
  nu_at : Z
}.

Definition rename_intent (p : NamespaceRenamePublication) (r : ObjectRevisionInsert) : result PublicationError BranchMutationIntent :=
  m ← match inserted_kind r, inserted_version r with
      | 1, None => Ok CreateDirectory
      | 2, Some v => Ok (FileVersion v)
      | _, _ => Err Corrupt
      end;
  Ok {| intent_commit_id := nr_commit p; path := publication_path (nr_target p); ancestors := publication_ancestors (nr_target p);
        intent_object_id := nr_expected_object p; intent_object_revision_id := nr_expected_revision p; prior_object_revision_id := inserted_prior r;
        entry_generation := nr_target_generation p; mutation := m;
        rename := Some {| source_path := publication_path (nr_source p); source_ancestors := publication_ancestors (nr_source p);
                          source_entry_generation := nr_source_generation p; intermediate_root_object_revision_id := nr_intermediate_root p |} |}.

Definition unlink_intent (p : NamespaceUnlinkPublication) (r : ObjectRevisionInsert) : result PublicationError BranchMutationIntent :=
  m ← match nu_expected_kind p, nu_expected_version p with
      | Directory, None => Ok DeleteDirectory
      | File, Some v => Ok (DeleteFile v)
      | _, _ => Err Corrupt
      end;
  Ok {| intent_commit_id := nu_commit p; path := publication_path (nu_path p); ancestors := publication_ancestors (nu_path p);
        intent_object_id := nu_expected_object p; intent_object_revision_id := nu_expected_revision p; prior_object_revision_id := inserted_prior r;
        entry_generation := nu_expected_generation p; mutation := m; rename := None |}.
