(* ===== verification/CreationFacts.v ===== *)
(** What the statements of a creation write is what the loaders read back: numbered rows,
    revisions, commits with their parents, receipts and intents. *)

From S2P Require Import Prelude Ids Codec Contracts Name Directory DirectoryFacts DirectoryMap Reconcile Intent BranchStore PathCopy Query PathCopyFacts PathCopySafe Published Journal IntentStore Creation.
From stdpp Require Import prelude gmap sorting list.
#[local] Open Scope N_scope.

(** ** Numbered rows *)

Lemma sorted_ordinals_unique {V} (l k : list (Z * V)) :
  StronglySorted ordinal_le l -> StronglySorted ordinal_le k -> NoDup l.*1 -> l ≡ₚ k -> l = k.
Proof.
  revert k. induction l as [|x l IH]; intros [|y k] Hl Hk Hn Hp; [done|by apply Permutation_nil_cons in Hp|by apply symmetry, Permutation_nil_cons in Hp|].
  apply StronglySorted_inv in Hl as [Hl Hx], Hk as [Hk Hy]. rewrite Forall_forall in Hx, Hy. cbn in Hn. apply NoDup_cons in Hn as [Hn Hnd].
  assert (x = y) as ->.
  { assert (x ∈ y :: k) as [->|Hxk]%elem_of_cons by (rewrite <- Hp; by left); [done|].
    assert (y ∈ x :: l) as [->|Hyl]%elem_of_cons by (rewrite Hp; by left); [done|].
    specialize (Hx _ Hyl). specialize (Hy _ Hxk). unfold ordinal_le in *. exfalso. apply Hn. replace (x.1) with (y.1) by lia. by apply list_elem_of_fmap_2. }
  f_equal. apply IH; [done..|by apply Permutation_cons_inv in Hp].
Qed.

Lemma elem_of_rows_of {V : Type} (key : bytes) (t : gmap (bytes * Z) V) z v : (z, v) ∈ rows_of key t <-> t !! (key, z) = Some v.
Proof.
  unfold rows_of. rewrite merge_sort_Permutation, list_elem_of_omap. split.
  - intros ([[k z'] v'] & Hin & E). apply elem_of_map_to_list in Hin. case_bool_decide; [|done]. by simplify_eq.
  - intros E. exists ((key, z), v). rewrite elem_of_map_to_list, bool_decide_eq_true_2; done.
Qed.

Lemma rows_of_NoDup {V : Type} (key : bytes) (t : gmap (bytes * Z) V) : NoDup (rows_of key t).*1.
Proof.
  unfold rows_of. rewrite merge_sort_Permutation. pose proof (NoDup_fst_map_to_list t) as Hn. induction (map_to_list t) as [|[[k z] v] l IH]; [constructor|].
  cbn in Hn |- *. apply NoDup_cons in Hn as [Hn Hnd]. specialize (IH Hnd). case_bool_decide as Hk; [|done]. subst k. cbn. constructor; [|done].
  intros ([z' v'] & -> & Hin)%list_elem_of_fmap. apply list_elem_of_omap in Hin as ([[k z] w] & Hin & E). case_bool_decide; [|done]. simplify_eq.
  apply Hn. by apply (list_elem_of_fmap_2 fst) in Hin.
Qed.

(** Rows that number a list. *)
Definition ordinals {V A : Type} (f : A -> V) (l : list A) : list (Z * V) := imap (fun i x => (Z.of_nat i, f x)) l.

Lemma elem_of_ordinals {V A : Type} (f : A -> V) l z v : (z, v) ∈ ordinals f l <-> exists i x, z = Z.of_nat i /\ l !! i = Some x /\ v = f x.
Proof.
  unfold ordinals. rewrite list_elem_of_lookup. setoid_rewrite list_lookup_imap. split.
  - intros (i & E). destruct (l !! i) as [x|] eqn:Ex; [|done]. cbn in E. simplify_eq. eauto.
  - intros (i & x & -> & Hx & ->). exists i. by rewrite Hx.
Qed.

Lemma ordinals_sorted {V A : Type} (f : A -> V) l n : StronglySorted ordinal_le (imap (fun i x => (Z.of_nat (n + i), f x)) l).
Proof.
  revert n. induction l as [|x l IH]; intros n; cbn; [constructor|]. constructor.
  - erewrite imap_ext; [apply (IH (S n))|]. intros i y _. cbn. repeat f_equal. lia.
  - apply Forall_forall. intros [z v] Hin. rewrite list_elem_of_lookup in Hin. destruct Hin as [i Hi]. rewrite list_lookup_imap in Hi.
    destruct (l !! i); [|done]. cbn in Hi. simplify_eq. unfold ordinal_le. cbn. lia.
Qed.

Lemma ordinals_NoDup {V A : Type} (f : A -> V) l n : NoDup (imap (fun i x => (Z.of_nat (n + i), f x)) l).*1.
Proof.
  revert n. induction l as [|x l IH]; intros n; cbn; [constructor|]. constructor.
  - intros ([z v] & Ez & Hin)%list_elem_of_fmap. rewrite list_elem_of_lookup in Hin. destruct Hin as [i Hi]. rewrite list_lookup_imap in Hi.
    destruct (l !! i); [|done]. cbn in *. simplify_eq. lia.
  - erewrite imap_ext; [apply (IH (S n))|]. intros i y _. cbn. repeat f_equal. lia.
Qed.

Lemma rows_of_ordinals {V A : Type} (key : bytes) (t : gmap (bytes * Z) V) (f : A -> V) l :
  (forall z v, t !! (key, z) = Some v <-> exists i x, z = Z.of_nat i /\ l !! i = Some x /\ v = f x) -> rows_of key t = ordinals f l.
Proof.
  intros Ht. apply sorted_ordinals_unique; [|apply (ordinals_sorted f l 0)|apply rows_of_NoDup|].
  - apply StronglySorted_merge_sort; [intros x y z; unfold ordinal_le; lia|]. intros x y. unfold ordinal_le. lia.
  - apply NoDup_Permutation; [by eapply NoDup_fmap_1, rows_of_NoDup|by eapply NoDup_fmap_1, (ordinals_NoDup f l 0)|].
    intros [z v]. by rewrite elem_of_rows_of, elem_of_ordinals, Ht.
Qed.

Lemma numbered_ordinals {V A : Type} (decode : V -> result PublicationError A) (f : A -> V) l :
  Forall (fun x => decode (f x) = Ok x) l -> numbered decode (ordinals f l) = Ok l.
Proof.
  unfold numbered, ordinals. intros Hl.
  assert (forall (found : list A), Forall (fun x => decode (f x) = Ok x) l ->
    try_fold (fun found '(ordinal, v) => if (ordinal =? Z.of_nat (length found))%Z then x ← decode v; Ok (found ++ [x]) else Err Corrupt) found
      (imap (fun i x => (Z.of_nat (length found + i), f x)) l) = Ok (found ++ l)) as G; [|by apply (G [])].
  clear Hl. induction l as [|x l IH]; intros found Hl; cbn; [by rewrite app_nil_r|]. apply Forall_cons in Hl as [Hx Hl].
  rewrite Nat.add_0_r, Z.eqb_refl, Hx. cbn. replace (found ++ x :: l) with ((found ++ [x]) ++ l) by by rewrite <- app_assoc. rewrite <- (IH (found ++ [x])) by done.
  f_equal. apply imap_ext. intros i y _. cbn. rewrite length_app. cbn. f_equal. lia.
Qed.

(** ** Inserted rows *)

Lemma insert_row_Ok admitted change b u b' :
  insert_row admitted change b = (Ok u, b') -> admitted b = true /\ b' = with_intents (change (intents b)) b.
Proof. unfold insert_row. intros E. apply se_bind_Ok in E as (s & s' & [= <- <-] & E). destruct (admitted b); [|done]. by injection E as _ <-. Qed.

Lemma with_intents_twice i j b : with_intents i (with_intents j b) = with_intents i b.
Proof. done. Qed.

Lemma traverse_insert {A : Type} (f : A -> BranchTx unit) (admitted : A -> Branch -> bool) (change : A -> Intents -> Intents) l b x b' :
  (forall a, f a = insert_row (admitted a) (change a)) -> traverse f l b = (Ok x, b') ->
  b' = with_intents (foldl (fun i a => change a i) (intents b) l) b.
Proof.
  intros Hf. revert b x. induction l as [|a l IH]; intros b x; cbn [traverse foldl]; [intros [= <- <-]; by destruct b|].
  intros E. apply se_bind_Ok in E as ([] & b1 & E1 & E). apply se_bind_Ok in E as (xs & b2 & E2 & [= <- <-]). rewrite Hf in E1. apply insert_row_Ok in E1 as [_ ->].
  apply IH in E2. by rewrite E2.
Qed.

(** The rows a traversal leaves for one commit. *)
Definition put {V A : Type} (key : bytes) (f : A -> V) (t : gmap (bytes * Z) V) (l : list (nat * A)) : gmap (bytes * Z) V :=
  foldl (fun t '(i, x) => <[(key, Z.of_nat i) := f x]> t) t l.

Lemma put_other {V A : Type} (key key' : bytes) (f : A -> V) t l z : key' <> key -> put key f t l !! (key', z) = t !! (key', z).
Proof. intros Hk. revert t. induction l as [|[i x] l IH]; intros t; [done|]. cbn. unfold put in IH. rewrite IH. apply lookup_insert_ne. congruence. Qed.

Lemma put_lookup {V A : Type} (key : bytes) (f : A -> V) t (l : list A) z v :
  (forall z, t !! (key, z) = None) ->
  put key f t (imap pair l) !! (key, z) = Some v <-> exists i x, z = Z.of_nat i /\ l !! i = Some x /\ v = f x.
Proof.
  intros Ht. revert z v. induction l as [|x l IH] using rev_ind; intros z v.
  { cbn. rewrite Ht. split; [done|]. by intros (i & x & _ & ? & _). }
  rewrite imap_app. unfold put in *. rewrite foldl_app. cbn. rewrite Nat.add_0_r. destruct (decide (z = Z.of_nat (length l))) as [->|Hz].
  - rewrite lookup_insert_eq. split.
    + intros [= <-]. exists (length l), x. by rewrite list_lookup_middle.
    + intros (i & y & Ei & Hi & ->). apply Nat2Z.inj in Ei as <-. rewrite list_lookup_middle in Hi by done. by injection Hi as ->.
  - rewrite lookup_insert_ne by congruence. rewrite IH. split; intros (i & y & -> & Hi & ->); exists i, y; split_and!; try done.
    + by apply lookup_app_l_Some.
    + apply lookup_app_Some in Hi as [?|[Hge Hi]]; [done|]. apply list_lookup_singleton_Some in Hi as [Hi _]. exfalso. apply Hz. f_equal. lia.
Qed.

Lemma put_rows {V A : Type} (key : bytes) (f : A -> V) t (l : list A) :
  (forall z, t !! (key, z) = None) -> rows_of key (put key f t (imap pair l)) = ordinals f l.
Proof. intros Ht. apply rows_of_ordinals. intros z v. by apply put_lookup. Qed.

(** ** An intent *)

Section recorded.
Context `{Blake3Bytes} `{Unicode}.

(** The tables after an intent without rename or deletion. *)
Definition intent_row (i : BranchMutationIntent) : IntentRow :=
  {| ir_kind := (kind_columns (mutation i)).1; ir_object := Identifier.as_bytes (intent_object_id i); ir_revision := Identifier.as_bytes (intent_object_revision_id i);
     ir_prior := Identifier.as_bytes <$> prior_object_revision_id i; ir_version := (kind_columns (mutation i)).2; ir_generation := Z.of_N (entry_generation i);
     ir_depth := Z.of_N (len (components (path i))); ir_digest := intent_digest_of i |}.

Definition recorded (i : BranchMutationIntent) (t : Intents) : Intents :=
  let key := Identifier.as_bytes (intent_commit_id i) in
  {| commit_intents := <[key := intent_row i]> (commit_intents t); path_components := put key component_row (path_components t) (imap pair (components (path i)));
     intent_ancestors := put key ancestor_row (intent_ancestors t) (imap pair (ancestors i)); commit_renames := commit_renames t;
     rename_components := rename_components t; rename_ancestors := rename_ancestors t; commit_deletions := commit_deletions t |}.

Lemma fold_components key l t :
  foldl (fun t a => with_path_components (<[(key, Z.of_nat a.1) := component_row a.2]> (path_components t)) t) t l =
  with_path_components (put key component_row (path_components t) l) t.
Proof. revert t. induction l as [|[i c] l IH]; intros t; [by destruct t|]. cbn. by rewrite IH. Qed.
Lemma fold_ancestors key l t :
  foldl (fun t a => with_intent_ancestors (<[(key, Z.of_nat a.1) := ancestor_row a.2]> (intent_ancestors t)) t) t l =
  with_intent_ancestors (put key ancestor_row (intent_ancestors t) l) t.
Proof. revert t. induction l as [|[i c] l IH]; intros t; [by destruct t|]. cbn. by rewrite IH. Qed.

Lemma insert_components_spec key l b x b' :
  traverse (insert_component key) l b = (Ok x, b') -> b' = with_intents (with_path_components (put key component_row (path_components (intents b)) l) (intents b)) b.
Proof.
  intros E. rewrite <- fold_components. eapply (traverse_insert _ (fun a => component_admitted has_intent path_components key (Z.of_nat a.1) (component_row a.2))); [|exact E].
  by intros [].
Qed.
Lemma insert_ancestors_spec key l b x b' :
  traverse (insert_ancestor key) l b = (Ok x, b') -> b' = with_intents (with_intent_ancestors (put key ancestor_row (intent_ancestors (intents b)) l) (intents b)) b.
Proof.
  intros E. rewrite <- fold_ancestors. eapply (traverse_insert _ (fun a => ancestor_admitted has_intent intent_ancestors key (Z.of_nat a.1) (ancestor_row a.2))); [|exact E].
  by intros [].
Qed.

Lemma persist_branch_intent_spec i b u b' :
  rename i = None -> is_deletion (mutation i) = false -> persist_branch_intent i b = (Ok u, b') ->
  intent_admitted (Identifier.as_bytes (intent_commit_id i)) (intent_row i) b = true /\ b' = with_intents (recorded i (intents b)) b.
Proof.
  intros Hr Hd. unfold persist_branch_intent, persist_deletion. rewrite Hr, Hd. intros E. apply se_bind_Ok in E as ([] & s & [= _ <-] & E). apply se_bind_Ok in E as ([] & s & [= _ <-] & E).
  apply se_bind_Ok in E as (g & s & [= Hg <-] & E). apply se_bind_Ok in E as (d & s & [= Hdep <-] & E). apply to_i64_Ok in Hg as ->, Hdep as ->.
  apply se_bind_Ok in E as ([] & b1 & E1 & E). apply insert_row_Ok in E1 as [Ha ->]. apply se_bind_Ok in E as (xs & b2 & E2%insert_components_spec & E).
  apply se_bind_Ok in E as (ys & b3 & E3%insert_ancestors_spec & E). apply se_bind_Ok in E as ([] & s & [= <-] & E). injection E as _ <-. split; [exact Ha|]. by rewrite E3, E2.
Qed.

(** ** Reading it back *)

Lemma decode_identifier_id x : Identifier.valid x -> decode_identifier (Identifier.as_bytes x) = Ok x.
Proof. intros Hx. unfold decode_identifier, len, Identifier.as_bytes. rewrite length_be_bytes. cbn. fold (Identifier.as_bytes x). by rewrite from_bytes_as_bytes. Qed.

Lemma decode_optional_id o : from_option Identifier.valid True o -> decode_optional (Identifier.as_bytes <$> o) = Ok o.
Proof. destruct o as [x|]; [|done]. cbn. intros Hx. by rewrite decode_identifier_id. Qed.

Lemma copy_array_digest d : digest_ok d -> copy_array d = Ok d.
Proof. intros [Hd _]. unfold copy_array, len. by rewrite Hd. Qed.

Definition transition_typed (t : DirectoryRevisionTransition) : Prop :=
  Identifier.valid (transition_object t) /\ Identifier.valid (expected_revision t) /\ Identifier.valid (new_revision t) /\ expected_revision t <> new_revision t.

Lemma decode_ancestor_row t : transition_typed t -> decode_ancestor (ancestor_row t) = Ok t.
Proof.
  intros (H1' & H2' & H3' & Hne). unfold decode_ancestor. cbn. rewrite !decode_identifier_id by done. cbn. unfold new_transition.
  rewrite (proj2 (N.eqb_neq _ _) Hne). by destruct t.
Qed.

Lemma decode_component_row c : component_ok c -> decode_component (component_row c) = Ok c.
Proof. intros Hc. unfold decode_component. cbn. by rewrite from_stored_component. Qed.

(** What the width of its columns asks of an intent. *)
Record intent_typed (i : BranchMutationIntent) : Prop := {
  typed_plain : rename i = None /\ is_deletion (mutation i) = false;
  typed_object : Identifier.valid (intent_object_id i);
  typed_revision : Identifier.valid (intent_object_revision_id i);
  typed_prior : from_option Identifier.valid True (prior_object_revision_id i);
  typed_version : match mutation i with FileVersion v | DeleteFile v => Identifier.valid v | _ => True end;
  typed_components : Forall component_ok (components (path i));
  typed_path : from_stored_components (components (path i)) = Ok (path i);
  typed_ancestors : Forall transition_typed (ancestors i);
  typed_depth : length (components (path i)) = S (length (ancestors i))
}.

(** No rows of a commit that is not there. *)
Record unmentioned (key : bytes) (t : Intents) : Prop := {
  unmentioned_components z : path_components t !! (key, z) = None;
  unmentioned_ancestors z : intent_ancestors t !! (key, z) = None;
  unmentioned_rename : commit_renames t !! key = None;
  unmentioned_deletion : key ∉ commit_deletions t
}.

Lemma from_i64_of n : from_i64 (Z.of_N n) = Ok n.
Proof. unfold from_i64. rewrite (proj2 (Z.leb_le _ _)) by lia. by rewrite N2Z.id. Qed.

Lemma intent_roundtrip i b b' :
  intent_typed i -> unmentioned (Identifier.as_bytes (intent_commit_id i)) (intents b) -> intents b' = recorded i (intents b) ->
  validate_loaded_intent b' i = Ok tt -> load_branch_intent b' (intent_commit_id i) = Ok (Some i).
Proof.
  intros [[Hr Hd] Ho Hrev Hp Hv Hcs Hpath Has Hdep] [Uc Ua Ur Ud] Hb Hval. unfold load_branch_intent. rewrite Hb. cbn [commit_intents recorded]. rewrite lookup_insert_eq.
  unfold decode_branch_intent. cbn [ir_depth intent_row]. rewrite from_i64_of. cbn [mbind result_bind]. unfold load_components. rewrite Hb. cbn [path_components recorded].
  rewrite put_rows, numbered_ordinals by (done || by eapply Forall_impl, decode_component_row). cbn [mbind result_bind]. rewrite N.eqb_refl. cbn [negb mbind result_bind ir_version intent_row].
  assert (decode_optional (kind_columns (mutation i)).2 = Ok (match mutation i with FileVersion v | DeleteFile v => Some v | _ => None end)) as ->.
  { destruct (mutation i); try done; cbn; by rewrite decode_identifier_id. }
  cbn [mbind result_bind ir_kind intent_row]. rewrite bool_decide_eq_false_2 by done.
  assert (decode_mutation (kind_columns (mutation i)).1 (match mutation i with FileVersion v | DeleteFile v => Some v | _ => None end) false = Ok (mutation i)) as -> by by destruct (mutation i).
  cbn [mbind result_bind]. unfold load_rename. rewrite Hb. cbn [commit_renames recorded]. rewrite Ur. cbn [mbind result_bind]. unfold stored_path. rewrite Hpath. cbn [map_err mbind result_bind].
  unfold load_intent_ancestors. cbn [intent_ancestors recorded]. rewrite put_rows, numbered_ordinals by (done || by eapply Forall_impl, decode_ancestor_row). cbn [mbind result_bind].
  replace (len (ancestors i) + 1 =? len (components (path i))) with true by (symmetry; apply N.eqb_eq; unfold len; lia). cbn [mbind result_bind].
  cbn [ir_object ir_revision ir_prior ir_generation ir_digest intent_row]. rewrite !decode_identifier_id, decode_optional_id, from_i64_of by done. cbn [mbind result_bind].
  rewrite <- Hr. replace (Build_BranchMutationIntent _ _ _ _ _ _ _ _ _) with i by by destruct i. rewrite Hval. cbn [mbind result_bind].
  rewrite copy_array_digest by apply blake3_bytes. cbn [mbind result_bind]. by rewrite bool_decide_eq_true_2.
Qed.

(** ** Revisions *)

Definition revision_typed (r : ObjectRevisionInsert) : Prop :=
  Identifier.valid (inserted_volume r) /\ Identifier.valid (inserted_object r) /\ inserted_kind r <= 255 /\ from_option Identifier.valid True (inserted_prior r) /\
  from_option digest_ok True (inserted_root r) /\ from_option Identifier.valid True (inserted_version r) /\ Identifier.valid (inserted_by r).

Lemma load_object_revision_row db r :
  revision_typed r -> object_revisions db !! Identifier.as_bytes (inserted_revision r) = Some (revision_row r) -> load_object_revision db (inserted_revision r) = Ok r.
Proof.
  intros (Hv & Ho & Hk & Hp & Hd & Hw & Hb) Hrow. unfold load_object_revision. rewrite Hrow. cbn [ok_or mbind result_bind revision_row row_volume row_object row_kind row_prior row_root row_version row_created_by row_digest row_created_at].
  rewrite !decode_identifier_id, !decode_optional_id by done. cbn [mbind result_bind]. rewrite (proj2 (Z.leb_le _ _)) by lia. rewrite (proj2 (Z.leb_le _ _)) by lia. cbn [andb mbind result_bind]. rewrite N2Z.id.
  replace (optionally copy_array (inserted_root r)) with (Ok (E := PublicationError) (inserted_root r)).
  2:{ destruct (inserted_root r) as [d|]; [|done]. cbn. by rewrite copy_array_digest. }
  cbn [mbind result_bind]. rewrite copy_array_digest by apply blake3_bytes. cbn [mbind result_bind]. replace (Build_ObjectRevisionInsert _ _ _ _ _ _ _ _ _) with r by by destruct r.
  by rewrite bool_decide_eq_true_2.
Qed.

(** ** Commits *)

Definition commit_typed (c : StoredCommit) : Prop :=
  Identifier.valid (stored_branch c) /\ Identifier.valid (stored_commit_volume c) /\ Identifier.valid (stored_root_object c) /\ Identifier.valid (stored_root_revision c) /\
  from_option Identifier.valid True (stored_parent c) /\ Identifier.valid (stored_by c) /\ Identifier.valid (stored_operation c).

Definition parent_rows (key : bytes) (parent : option N) (t : gmap (bytes * Z) bytes) : gmap (bytes * Z) bytes :=
  match parent with Some p => <[(key, 0%Z) := Identifier.as_bytes p]> t | None => t end.

Lemma load_parents_rows db commit parent t :
  (forall z, t !! (Identifier.as_bytes commit, z) = None) -> from_option Identifier.valid True parent ->
  namespace_commit_parents db = parent_rows (Identifier.as_bytes commit) parent t -> load_parents db commit = Ok (option_list parent).
Proof.
  intros Ht Hp Hdb. unfold load_parents. rewrite Hdb, (rows_of_ordinals _ _ Identifier.as_bytes (option_list parent)), numbered_ordinals; [done| |].
  - destruct parent as [p|]; cbn; repeat constructor. by apply decode_identifier_id.
  - intros z v. destruct parent as [p|]; cbn.
    + destruct (decide (z = 0%Z)) as [->|Hz].
      * rewrite lookup_insert_eq. split; [intros [= <-]; by exists 0%nat, p|]. by intros ([|i] & x & ? & [= <-] & ->).
      * rewrite lookup_insert_ne by congruence. rewrite Ht. split; [done|]. by intros ([|i] & x & ? & ? & _).
    + rewrite Ht. split; [done|]. by intros (i & x & _ & ? & _).
Qed.

Lemma load_commit_rows db o c request t :
  commit_typed c -> (forall z, t !! (Identifier.as_bytes (stored_commit_id c), z) = None) ->
  namespace_commits db !! Identifier.as_bytes (stored_commit_id c) = Some (commit_row c request) ->
  namespace_commit_parents db = parent_rows (Identifier.as_bytes (stored_commit_id c)) (stored_parent c) t ->
  load_commit_request_digest db o (stored_operation c) (stored_commit_id c) = Ok request -> load_commit db o (stored_commit_id c) = Ok c.
Proof.
  intros (Hb & Hv & Ho & Hr & Hp & Hby & Hop) Ht Hrow Hpar Hreq. unfold load_commit. rewrite Hrow.
  cbn [ok_or mbind result_bind commit_row commit_branch commit_volume commit_root_object commit_root_revision commit_created_by commit_operation commit_digest commit_created_at].
  rewrite !decode_identifier_id by done. cbn [mbind result_bind]. unfold load_single_parent. rewrite (load_parents_rows _ _ _ _ Ht Hp Hpar). cbn [mbind result_bind].
  replace (1 <? length (option_list (stored_parent c)))%nat with false by by destruct (stored_parent c). replace (head (option_list (stored_parent c))) with (stored_parent c) by by destruct (stored_parent c).
  cbn [mbind result_bind]. rewrite Hreq. cbn [mbind result_bind]. rewrite copy_array_digest by apply blake3_bytes. cbn [mbind result_bind].
  replace (Build_StoredCommit _ _ _ _ _ _ _ _ _) with c by by destruct c. by rewrite bool_decide_eq_true_2.
Qed.

(** ** The receipt *)

Definition receipt_of (d : PublicationDisposition) (p : DirectoryPublication) (sequence : N) : DirectoryPublicationReceipt :=
  {| dr_disposition := d; dr_operation := dp_operation p; dr_request := directory_request p; dr_object := dp_object p; dr_revision := dp_revision p; dr_commit := dp_commit p;
     dr_sequence := sequence; dr_result := directory_operation_result (dp_operation p) (directory_request p) (dp_revision p) (dp_commit p) sequence |}.
Definition operation_row (p : DirectoryPublication) (sequence : N) : DirectoryOperationRow :=
  {| do_request := directory_request p; do_commit := Identifier.as_bytes (dp_commit p); do_revision := Identifier.as_bytes (dp_revision p); do_sequence := Z.of_N sequence;
     do_result := directory_operation_result (dp_operation p) (directory_request p) (dp_revision p) (dp_commit p) sequence; do_at := dp_at p |}.

(** The identifiers and the path of a request, as the types of the source have them. *)
Record publication_typed (p : DirectoryPublication) : Prop := {
  typed_operation : Identifier.valid (dp_operation p);
  typed_branch : Identifier.valid (dp_branch p);
  typed_volume : Identifier.valid (dp_volume p);
  typed_root_object : Identifier.valid (dp_root_object p);
  typed_expected : from_option Identifier.valid True (dp_expected_commit p);
  typed_new_object : Identifier.valid (dp_object p);
  typed_new_revision : Identifier.valid (dp_revision p);
  typed_root_revision : Identifier.valid (dp_root_revision p);
  typed_commit : Identifier.valid (dp_commit p);
  typed_by : Identifier.valid (dp_by p);
  typed_names : Forall component_ok (components (publication_path (dp_path p)));
  typed_stored : from_stored_components (components (publication_path (dp_path p))) = Ok (publication_path (dp_path p));
  typed_transitions : Forall transition_typed (publication_ancestors (dp_path p));
  typed_shape : length (components (publication_path (dp_path p))) = S (length (publication_ancestors (dp_path p)))
}.

Lemma persist_directory_operation_spec p sequence b r b' :
  persist_directory_operation p (directory_request p) sequence b = (Ok r, b') ->
  r = receipt_of Applied p sequence /\ directory_operations (operations b) !! Identifier.as_bytes (dp_operation p) = None /\ 0 < sequence /\
  b' = with_operations (with_directory_operations (<[Identifier.as_bytes (dp_operation p) := operation_row p sequence]> (directory_operations (operations b))) (operations b)) b.
Proof.
  unfold persist_directory_operation. intros E. apply se_bind_Ok in E as (z & s & [= Hz <-] & E). apply to_i64_Ok in Hz as ->. apply se_bind_Ok in E as (s & s' & [= <- <-] & E).
  destruct (_ && _) eqn:Ea; [|done]. rewrite !andb_true_iff in Ea. destruct Ea as [[[Ea _] _] Hs]. bool_cases. apply se_bind_Ok in E as ([] & s & [= <-] & [= <- <-]). split_and!; try done. lia.
Qed.

Lemma new_revision_typed p : publication_typed p -> revision_typed (new_directory_revision p).
Proof. intros []. unfold revision_typed. cbn. split_and!; try done. apply blake3_bytes. Qed.

Lemma load_receipt db o p sequence d :
  publication_typed p -> directory_operations o !! Identifier.as_bytes (dp_operation p) = Some (operation_row p sequence) ->
  object_revisions db !! Identifier.as_bytes (dp_revision p) = Some (revision_row (new_directory_revision p)) ->
  load_directory_operation_raw db o (dp_operation p) d = Ok (Some (receipt_of d p sequence)).
Proof.
  intros Hp Ho Hr. pose proof (load_object_revision_row db (new_directory_revision p) (new_revision_typed _ Hp) Hr) as Hload. destruct Hp. unfold load_directory_operation_raw.
  rewrite Ho. cbn [mbind option_bind do_revision operation_row]. rewrite Hr. cbn [mbind option_bind]. unfold decode_directory_receipt.
  cbn [do_request do_commit do_revision do_sequence do_result operation_row row_object revision_row inserted_object new_directory_revision].
  rewrite !copy_array_digest by apply blake3_bytes. cbn [mbind result_bind]. rewrite !decode_identifier_id, from_i64_of by done. cbn [mbind result_bind].
  rewrite bool_decide_eq_true_2 by done. cbn [negb mbind result_bind dr_revision]. cbn [inserted_revision new_directory_revision] in Hload. rewrite Hload. cbn [mbind result_bind].
  cbn [inserted_kind inserted_object new_directory_revision dr_object]. by rewrite !N.eqb_refl.
Qed.

(** No operation of another kind has this identity. *)
Definition only_directory (o : Operations) (operation : N) : Prop :=
  let key := Identifier.as_bytes operation in
  publication_operations o !! key = None /\ rename_operations o !! key = None /\ unlink_operations o !! key = None /\ restore_operations o !! key = None /\
  reconciliation_operations o !! key = None.

Lemma reject_directory_Ok operation b u b' : reject_operation_receipts operation DirectoryKind b = (Ok u, b') -> b' = b /\ only_directory (operations b) operation.
Proof.
  unfold reject_operation_receipts. intros E. apply se_bind_Ok in E as (s & s' & [= <- <-] & E). destruct (_ || _) eqn:Ec; [done|]. injection E as _ <-. split; [done|].
  rewrite !orb_false_iff in Ec. destruct Ec as [E1 [[[E2 E3] E4] E5]]. bool_cases. rewrite <- !eq_None_not_Some in *. done.
Qed.

Lemma reject_directory_free operation b : only_directory (operations b) operation -> reject_operation_receipts operation DirectoryKind b = (Ok tt, b).
Proof.
  intros (H1' & H2' & H3' & H4' & H5'). unfold reject_operation_receipts, mbind, SE_bind, get_state. rewrite H1', H2', H3', H4', H5'. by rewrite !bool_decide_eq_false_2 by by intros [].
Qed.

Lemma request_of_receipt db o p sequence :
  publication_typed p -> only_directory o (dp_operation p) -> directory_operations o !! Identifier.as_bytes (dp_operation p) = Some (operation_row p sequence) ->
  object_revisions db !! Identifier.as_bytes (dp_revision p) = Some (revision_row (new_directory_revision p)) ->
  load_commit_request_digest db o (dp_operation p) (dp_commit p) = Ok (directory_request p).
Proof.
  intros Hp (F1 & F2 & F3 & F4 & _) Ho Hr. unfold load_commit_request_digest, load_file_operation_raw, load_restore_receipt_raw, load_rename_operation, load_unlink_operation.
  rewrite F1, F2, F3, F4, (load_receipt _ _ _ sequence) by done. cbn [mbind result_bind dr_commit receipt_of]. by rewrite N.eqb_refl.
Qed.

(** ** The steps of a creation *)

Lemma on_tables_Ok {A : Type} (m : Tx A) b a b' : on_tables m b = (Ok a, b') -> exists db, m (tables b) = (Ok a, db) /\ b' = with_tables db b.
Proof. unfold on_tables. destruct (m (tables b)) as [r db]. intros [= -> <-]. by exists db. Qed.

Lemma inject_Ok fault at_ b u b' : inject fault at_ b = (Ok u, b') -> b' = b.
Proof. unfold inject. case_bool_decide; [done|]. by intros [= _ <-]. Qed.

Lemma transact_Ok {S E A : Type} (m : SE S E A) b a b' : transact m b = (Ok a, b') <-> m b = (Ok a, b').
Proof. unfold transact. destruct (m b) as [[x|x] s]; naive_solver. Qed.

(** What a creation that went through has done: the databases after the empty node, the nodes of
    the path, the new directory, the directories above it, the commit and the head. *)
Record created_steps (p : DirectoryPublication) (b : Branch) (base : NamespaceBase) (entry : DirectoryEntry) (namespace : DirectoryPathMutation) (db1 db2 db3 db4 : Database)
    (sequence : N) (b' : Branch) : Prop := {
  steps_base : load_base b (from_directory p) (dp_path p) = Ok base;
  steps_entry : exists n, leaf_name (dp_path p) = Some n /\ new_entry n (dp_object p) (dp_revision p) Directory (dp_generation p) = Ok entry;
  steps_edited : mutate_namespace_path (base_directories base) (dp_path p) entry None = Ok namespace;
  steps_nodes : exists er xs db0, record Directory.empty (root Directory.empty) = Ok er /\ persist_directory_node er (dp_at p) (tables b) = (Ok tt, db0) /\
    traverse (fun r => persist_directory_node r (dp_at p)) (mutated_nodes namespace) db0 = (Ok xs, db1);
  steps_directory : persist_object_revision (new_directory_revision p) db1 = (Ok tt, db2);
  steps_path : persist_directory_path_revisions (dp_volume p) (dp_by p) (dp_at p) (mutated_directories namespace) db2 = (Ok tt, db3);
  steps_commit : persist_commit (from_directory p) (directory_request p) db3 = (Ok tt, db4);
  steps_intent : intent_admitted (Identifier.as_bytes (dp_commit p)) (intent_row (directory_intent p)) (with_tables db4 b) = true;
  steps_head : advance_namespace_head (from_directory p) (base_sequence base) db4 = (Ok sequence, tables b');
  steps_fresh : directory_operations (operations b) !! Identifier.as_bytes (dp_operation p) = None;
  steps_receipt : operations b' = with_directory_operations (<[Identifier.as_bytes (dp_operation p) := operation_row p sequence]> (directory_operations (operations b))) (operations b);
  steps_recorded : intents b' = recorded (directory_intent p) (intents b);
  steps_acknowledgements : acknowledgements b' = acknowledgements b
}.

Lemma apply_creation_steps p fault b r b' :
  apply_creation p (directory_request p) fault b = (Ok r, b') ->
  exists base entry namespace db1 db2 db3 db4 sequence, created_steps p b base entry namespace db1 db2 db3 db4 sequence b' /\ r = receipt_of Applied p sequence.
Proof.
  unfold apply_creation. intros E. apply se_bind_Ok in E as (s & s' & [= <- <-] & E). apply se_bind_Ok in E as (base & s & [= Hbase <-] & E).
  apply se_bind_Ok in E as (parent & s & [= _ <-] & E). apply se_bind_Ok in E as (n & s & [= Hn%ok_or_Ok <-] & E). apply se_bind_Ok in E as (found & s & [= _ <-] & E).
  case_bool_decide; [done|]. apply se_bind_Ok in E as (er & s & [= Her%map_err_Ok <-] & E). apply se_bind_Ok in E as (entry & s & [= Hentry%map_err_Ok <-] & E).
  apply se_bind_Ok in E as (namespace & s & [= Hed <-] & E).
  apply se_bind_Ok in E as ([] & s & (db0 & E0 & ->)%on_tables_Ok & E). apply se_bind_Ok in E as (xs & s & (db1 & E1 & ->)%on_tables_Ok & E).
  apply se_bind_Ok in E as ([] & s & ->%inject_Ok & E). apply se_bind_Ok in E as ([] & s & (db2 & E2 & ->)%on_tables_Ok & E).
  apply se_bind_Ok in E as ([] & s & (db3 & E3 & ->)%on_tables_Ok & E). apply se_bind_Ok in E as ([] & s & ->%inject_Ok & E).
  apply se_bind_Ok in E as ([] & s & (db4 & E4 & ->)%on_tables_Ok & E). apply se_bind_Ok in E as ([] & s & Ei & E).
  apply persist_branch_intent_spec in Ei as [Ha ->]; [|done..]. apply se_bind_Ok in E as ([] & s & ->%inject_Ok & E).
  apply se_bind_Ok in E as (sequence & s & (db5 & E5 & ->)%on_tables_Ok & E). apply se_bind_Ok in E as ([] & s & ->%inject_Ok & E).
  apply se_bind_Ok in E as (r' & s & Er & E). apply persist_directory_operation_spec in Er as (-> & Hfree & Hpos & ->). apply se_bind_Ok in E as ([] & s & ->%inject_Ok & [= <- <-]).
  exists base, entry, namespace, db1, db2, db3, db4, sequence. split; [|done]. split; try done; [by exists n|]. by exists er, xs, db0.
Qed.

Lemma create_directory_inv p fault b r b' :
  create_directory p fault b = (Ok r, b') -> dr_disposition r = Applied ->
  validate_directory_publication p = Ok tt /\ only_directory (operations b) (dp_operation p) /\
  exists base entry namespace db1 db2 db3 db4 sequence, created_steps p b base entry namespace db1 db2 db3 db4 sequence b' /\ r = receipt_of Applied p sequence.
Proof.
  unfold create_directory. intros E Hd. apply se_bind_Ok in E as ([] & s & [= Hv <-] & E). rewrite transact_Ok in E. apply se_bind_Ok in E as ([] & s & [-> Ho]%reject_directory_Ok & E).
  apply se_bind_Ok in E as (s & s' & [= <- <-] & E). apply se_bind_Ok in E as (found & s & [= Hf <-] & E). split_and!; [done..|]. destruct found as [r'|].
  - exfalso. case_bool_decide; [|done]. apply se_bind_Ok in E as ([] & s & _ & [= <- <-]). unfold load_directory_operation, load_directory_operation_raw in Hf.
    apply result_bind_Ok in Hf as (found & Hraw & Hf). destruct found as [r0|]; [|done]. apply result_bind_Ok in Hf as (c & _ & Hf). destruct (_ =? _); [|done]. injection Hf as ->.
    destruct (_ ≫= _) as [[row object]|]; [|done]. apply result_bind_Ok in Hraw as (r1 & Hr1 & Hraw). apply result_bind_Ok in Hraw as (rev & _ & Hraw). destruct (_ || _); [done|]. injection Hraw as ->.
    unfold decode_directory_receipt in Hr1. do 6 (apply result_bind_Ok in Hr1 as (? & _ & Hr1)). destruct (negb _); [done|]. by injection Hr1 as <-.
  - by eapply apply_creation_steps.
Qed.

End recorded.
