(* ===== verification/Created.v ===== *)
(** What creating a directory promises: it is recorded once and found again by every retry, the
    intent it leaves is the one reconciliation reads, and readers see the new directory at its
    path and nothing else changed. *)

From S2P Require Import Prelude Ids Codec Contracts Name Directory DirectoryFacts DirectoryMap Reconcile Intent BranchStore PathCopy Query PathCopyFacts PathCopySafe Published Journal IntentStore Creation CreationFacts.
From stdpp Require Import prelude gmap sorting list.
#[local] Open Scope N_scope.

(** The references of the schema between the tables. *)
Record referenced (b : Branch) : Prop := {
  referenced_parents k z p : namespace_commit_parents (tables b) !! (k, z) = Some p -> is_Some (namespace_commits (tables b) !! k);
  referenced_acknowledgements k x : acknowledgements b !! k = Some x -> is_Some (namespace_commits (tables b) !! k);
  referenced_intents k x : commit_intents (intents b) !! k = Some x -> is_Some (namespace_commits (tables b) !! k);
  referenced_components k z x : path_components (intents b) !! (k, z) = Some x -> is_Some (commit_intents (intents b) !! k);
  referenced_ancestors k z x : intent_ancestors (intents b) !! (k, z) = Some x -> is_Some (commit_intents (intents b) !! k);
  referenced_renames k x : commit_renames (intents b) !! k = Some x -> is_Some (commit_intents (intents b) !! k);
  referenced_deletions k : k ∈ commit_deletions (intents b) -> is_Some (commit_intents (intents b) !! k)
}.

Lemma referenced_fresh b key :
  referenced b -> namespace_commits (tables b) !! key = None ->
  unmentioned key (intents b) /\ acknowledgements b !! key = None /\ forall z, namespace_commit_parents (tables b) !! (key, z) = None.
Proof.
  intros [Rp Ra Ri Rc Rn Rr Rd] Hk. assert (forall A (o : option A), (forall x, o = Some x -> is_Some (namespace_commits (tables b) !! key)) -> o = None) as G.
  { intros A [x|] Hx; [|done]. destruct (Hx x eq_refl) as [? ?]. congruence. }
  assert (commit_intents (intents b) !! key = None) as Hi by (apply G; eauto).
  assert (forall A (o : option A), (forall x, o = Some x -> is_Some (commit_intents (intents b) !! key)) -> o = None) as G'.
  { intros A [x|] Hx; [|done]. destruct (Hx x eq_refl) as [? ?]. congruence. }
  split_and!; [split; intros|..]; [apply G'; eauto|apply G'; eauto|apply G'; eauto| |apply G; eauto|intros z; apply G; eauto].
  intros Hd. apply Rd in Hd as [? ?]. congruence.
Qed.

Section created.
Context `{Blake3Bytes} `{Unicode}.

(** ** The tables after a creation *)

Lemma head_tables i previous sequence db db' :
  advance_namespace_head i previous db = (Ok sequence, db') ->
  namespace_commits db' = namespace_commits db /\ namespace_commit_parents db' = namespace_commit_parents db /\ object_revisions db' = object_revisions db /\
  directory_nodes db' = directory_nodes db.
Proof. by intros (_ & -> & _)%advance_head_spec. Qed.

Lemma empty_stored db : nodes Directory.empty ⊆ stored_nodes db -> represents (trie_of db (root Directory.empty)) ∅.
Proof. intros Hs. by eapply (represents_grow Directory.empty); [|done|apply empty_represents]. Qed.

Lemma steps_spec p b base entry namespace db1 db2 db3 db4 sequence b' :
  created_steps p b base entry namespace db1 db2 db3 db4 sequence b' ->
  grows (tables b) db3 /\ (checked (tables b) -> checked db3) /\ nodes Directory.empty ⊆ stored_nodes db3 /\
  Forall (held (stored_nodes db3)) (mutated_nodes namespace) /\ Forall (row_of db3 (dp_volume p) (dp_by p) (dp_at p)) (mutated_directories namespace) /\
  object_revisions db3 !! Identifier.as_bytes (dp_revision p) = Some (revision_row (new_directory_revision p)) /\
  forall key row, object_revisions db3 !! key = Some row -> object_revisions (tables b) !! key = Some row \/ row_root row = Some (root Directory.empty) \/
    exists res, res ∈ mutated_directories namespace /\ row_root row = Some (result_root res).
Proof.
  intros [_ _ _ (er & xs & db0 & Her & E0 & E1) E2 E3 _ _ _ _ _ _ _]. apply persist_node_spec in E0 as (G0 & O0 & K0). apply persist_nodes_spec in E1 as (G1 & O1 & W1).
  pose proof (persist_revision_checked _ _ _ E2) as C2. apply persist_revision_spec in E2 as (G2 & N2 & F2 & R2).
  unfold persist_directory_path_revisions in E3. apply se_bind_Ok in E3 as (ys & s & E3 & [= ->]). apply persist_revisions_spec in E3 as (G3 & N3 & C3 & W3 & R3).
  assert (stored_nodes db3 = stored_nodes db1) as Hn by congruence. cbn [inserted_revision new_directory_revision] in R2, F2. split_and!.
  - by do 3 (etransitivity; [eassumption|]).
  - intros Hc. apply C3, C2. unfold checked in *. by rewrite O1, O0.
  - cbn [nodes Directory.empty]. apply map_singleton_subseteq_l. rewrite Hn.
    unfold record in Her. apply result_bind_Ok in Her as (n & Hv & [= <-]). apply load_verified_Ok in Hv as (Hv & _). cbn in Hv. rewrite lookup_singleton_eq in Hv. injection Hv as <-.
    eapply lookup_weaken; [exact K0|by apply stored_nodes_grow].
  - by rewrite Hn.
  - done.
  - eapply lookup_weaken; [|apply G3]. rewrite R2. apply lookup_insert_eq.
  - intros key row Hrow. destruct (R3 _ _ Hrow) as [Hold|Hnew]; [|by right; right]. rewrite R2, lookup_insert_Some in Hold. destruct Hold as [[_ <-]|[_ Hold]]; [by right; left|].
    left. by rewrite <- O0, <- O1.
Qed.

(** ** The directories of the path *)

Lemma load_object_revision_grow db db' id r : object_revisions db ⊆ object_revisions db' -> load_object_revision db id = Ok r -> load_object_revision db' id = Ok r.
Proof. intros Hs. unfold load_object_revision. intros E. apply result_bind_Ok in E as (row & Hrow%ok_or_Ok & E). by rewrite (lookup_weaken _ _ _ _ Hrow Hs). Qed.

Lemma loaded_version db id r : checked db -> load_object_revision db id = Ok r -> inserted_kind r = 1 -> inserted_version r = None.
Proof.
  intros Hc. unfold load_object_revision. intros E. apply result_bind_Ok in E as (row & Hrow%ok_or_Ok & E). specialize (Hc _ _ Hrow). cbv beta in Hc.
  do 2 (apply result_bind_Ok in E as (? & _ & E)). apply result_bind_Ok in E as (k & Hk & E). do 2 (apply result_bind_Ok in E as (? & _ & E)). apply result_bind_Ok in E as (v & Hv & E).
  do 2 (apply result_bind_Ok in E as (? & _ & E)). case_bool_decide; [|done]. injection E as <-. cbn. intros ->. destruct (_ && _); [|done]. injection Hk as Hk.
  destruct Hc as [(_ & _ & Hn)|(Hk2 & _)]; [|by rewrite Hk2 in Hk]. rewrite Hn in Hv. by injection Hv as <-.
Qed.

Lemma chain_loaded db volume steps cs dirs i s :
  chain db volume steps cs dirs -> steps !! i = Some s -> exists c d, dirs !! i = Some d /\ loaded db volume s c d.
Proof.
  revert cs dirs i. induction steps as [|s' steps IH]; intros [|c cs] [|d dirs] [|i]; try done; cbn; intros [Hl Hch].
  - intros [= ->]. by exists c, d.
  - destruct steps as [|next steps]; [done|]. destruct Hch as [_ Hch]. intros Hs. by apply (IH cs dirs i).
Qed.

Lemma loaded_fields db volume s c d :
  loaded db volume s c d -> loaded_object d = step_object s /\ loaded_prior d = Some (step_old s) /\ loaded_next d = step_new s /\
  exists r, load_object_revision db (step_old s) = Ok r /\ inserted_kind r = 1 /\ inserted_object r = step_object s /\ inserted_volume r = volume /\ is_Some (inserted_root r).
Proof.
  unfold loaded, load_directory. intros E. apply result_bind_Ok in E as (r & Hr & E). destruct (_ || _) eqn:Ec; [done|]. apply result_bind_Ok in E as (from & Hf%ok_or_Ok & E).
  apply result_bind_Ok in E as (t & _ & [= <-]). rewrite !orb_false_iff, !negb_false_iff, !N.eqb_eq in Ec. destruct Ec as [[[E1 E2] E3] _]. split_and!; try done. by exists r.
Qed.

Lemma edited_result dirs cs made op results i d : path_edited dirs cs made op results -> dirs !! i = Some d -> exists from, results !! i = Some (directory_result d from).
Proof.
  intros (leaf & r & up & Hlast & -> & Hlen & _ & Hup) Hd. pose proof (lookup_lt_Some _ _ _ Hd) as Hi. destruct (decide (i < length up)%nat) as [Hlt|Hge].
  - destruct (lookup_lt_is_Some_2 up i Hlt) as [res Hres]. destruct (Hup _ _ Hres) as (d' & _ & _ & _ & _ & _ & Hd' & _ & _ & _ & _ & _ & Eres & _). rewrite Hd in Hd'. injection Hd' as <-.
    exists (result_root res). rewrite lookup_app_l, Hres by done. by f_equal.
  - rewrite last_lookup in Hlast. replace (pred (length dirs)) with i in Hlast by lia. rewrite Hd in Hlast. injection Hlast as ->. exists r. rewrite lookup_app_r by lia. by replace (i - length up)%nat with 0%nat by lia.
Qed.

(** ** What is found again *)

Lemma validate_transitions_Ok db volume ts :
  (forall t, t ∈ ts -> validate_directory_transition db volume t = Ok tt) -> validate_directory_transitions db volume ts = Ok tt.
Proof.
  intros Ht. unfold validate_directory_transitions. replace (try_map (validate_directory_transition db volume) ts) with (Ok (E := PublicationError) (map (fun _ => tt) ts)); [done|].
  induction ts as [|t ts IH]; [done|]. cbn. rewrite Ht by set_solver. cbn. rewrite <- IH by set_solver. done.
Qed.

(** The base of a creation: nothing yet, or the directories below the current head. *)
Lemma load_base_cases b p base :
  load_base b (from_directory p) (dp_path p) = Ok base ->
  (dp_expected_commit p = None /\ publication_ancestors (dp_path p) = [] /\
   base = {| base_directories := [{| editor := Directory.empty; loaded_object := dp_root_object p; loaded_prior := None; loaded_next := dp_root_revision p |}]; base_sequence := 0 |}) \/
  exists expected c, dp_expected_commit p = Some expected /\ load_namespace_root (tables b) (operations b) expected = Ok c /\
    root_volume c = dp_volume p /\ root_object c = dp_root_object p /\
    load_path_directories (tables b) (dp_volume p) (dp_root_object p) (root_revision c) (dp_root_revision p) (dp_path p) = Ok (base_directories base).
Proof.
  unfold load_base. cbn [intent_branch intent_volume expected_commit from_directory]. intros E. apply result_bind_Ok in E as (found & _ & E). destruct found as [h|], (dp_expected_commit p) as [e|]; try done.
  - destruct (N.eqb_spec (head_namespace_commit h) e) as [Eh|]; [|done]. right. unfold load_existing_base in E. apply result_bind_Ok in E as (c & Hc & E). rewrite Eh in Hc. destruct (negb _ || _) eqn:Ec; [done|].
    destruct (_ || existsb _ _); [done|]. apply result_bind_Ok in E as (ds & Hds & [= <-]). rewrite orb_false_iff, !negb_false_iff, !N.eqb_eq in Ec. destruct Ec. by exists e, c.
  - left. unfold load_initial_base in E. case_bool_decide; [|done]. by injection E as <-.
Qed.

Lemma load_root_row db o commit c :
  load_namespace_root db o commit = Ok c ->
  exists row, namespace_commits db !! Identifier.as_bytes commit = Some row /\ identifier (commit_root_object row) = Ok (root_object c) /\ identifier (commit_root_revision row) = Ok (root_revision c).
Proof.
  unfold load_namespace_root. intros E. apply result_bind_Ok in E as (ps & _ & E). destruct (_ <=? _)%nat; apply result_bind_Ok in E as (x & Hx & [= <-]).
  - unfold load_merge_reconciliation_commit in Hx. apply result_bind_Ok in Hx as (row & Hrow%ok_or_Ok & Hx). do 2 (apply result_bind_Ok in Hx as (? & _ & Hx)).
    apply result_bind_Ok in Hx as (object & Ho & Hx). apply result_bind_Ok in Hx as (revision & Hr & Hx). do 4 (apply result_bind_Ok in Hx as (? & _ & Hx)). destruct (_ || _); [done|].
    apply result_bind_Ok in Hx as (? & _ & Hx). destruct (negb _); [done|]. injection Hx as <-. exists row. split_and!; [done|by apply identifier_decoded..].
  - unfold load_commit in Hx. apply result_bind_Ok in Hx as (row & Hrow%ok_or_Ok & Hx). do 2 (apply result_bind_Ok in Hx as (? & _ & Hx)).
    apply result_bind_Ok in Hx as (object & Ho & Hx). apply result_bind_Ok in Hx as (revision & Hr & Hx). do 5 (apply result_bind_Ok in Hx as (? & _ & Hx)). case_bool_decide; [|done].
    injection Hx as <-. exists row. split_and!; [done|by apply identifier_decoded..].
Qed.

Section steps.
Context (p : DirectoryPublication) (b : Branch) (base : NamespaceBase) (entry : DirectoryEntry) (namespace : DirectoryPathMutation).
Context (db1 db2 db3 db4 : Database) (sequence : N) (b' : Branch).
Hypothesis Hsteps : created_steps p b base entry namespace db1 db2 db3 db4 sequence b'.
Hypothesis Hp : publication_typed p.
Hypothesis Href : referenced b.
Hypothesis Hfree : only_directory (operations b) (dp_operation p).
Hypothesis Hck : checked (tables b).
Hypothesis Hwf : well_formed (tables b).

Lemma steps_tables :
  let key := Identifier.as_bytes (dp_commit p) in
  namespace_commits (tables b) !! key = None /\ object_revisions (tables b') = object_revisions db3 /\
  namespace_commits (tables b') = <[key := commit_row (stored_of (from_directory p)) (directory_request p)]> (namespace_commits (tables b)) /\
  namespace_commit_parents (tables b') = parent_rows key (dp_expected_commit p) (namespace_commit_parents (tables b)).
Proof.
  pose proof (steps_spec _ _ _ _ _ _ _ _ _ _ _ Hsteps) as (Hg & _). destruct Hsteps as [_ _ _ _ _ _ Ec _ Eh _ _ _ _]. apply persist_commit_rows in Ec as (Hfresh & _ & ->).
  apply head_tables in Eh as (-> & -> & -> & _). cbn in *. rewrite (grows_commits _ _ Hg) in *. by rewrite (grows_parents _ _ Hg).
Qed.

Lemma steps_only : only_directory (operations b') (dp_operation p).
Proof. destruct Hsteps. by rewrite steps_receipt. Qed.

Lemma steps_row : directory_operations (operations b') !! Identifier.as_bytes (dp_operation p) = Some (operation_row p sequence).
Proof. destruct Hsteps. rewrite steps_receipt. apply lookup_insert_eq. Qed.

Lemma steps_revision : object_revisions (tables b') !! Identifier.as_bytes (dp_revision p) = Some (revision_row (new_directory_revision p)).
Proof. pose proof steps_tables as (_ & -> & _). by apply (steps_spec _ _ _ _ _ _ _ _ _ _ _ Hsteps). Qed.

Lemma stored_typed : commit_typed (stored_of (from_directory p)).
Proof. destruct Hp. done. Qed.

Lemma created_commit : load_commit (tables b') (operations b') (dp_commit p) = Ok (stored_of (from_directory p)).
Proof.
  pose proof steps_tables as (Hfresh & _ & Hc & Hpar). apply (load_commit_rows _ _ (stored_of (from_directory p)) (directory_request p) (namespace_commit_parents (tables b))).
  - apply stored_typed.
  - apply (referenced_fresh b); done.
  - rewrite Hc. apply lookup_insert_eq.
  - exact Hpar.
  - apply (request_of_receipt _ _ p sequence); [done|apply steps_only|apply steps_row|apply steps_revision].
Qed.

Lemma created_receipt d : load_directory_operation (tables b') (operations b') (dp_operation p) d = Ok (Some (receipt_of d p sequence)).
Proof.
  unfold load_directory_operation. rewrite (load_receipt _ _ p sequence) by (done || apply steps_row || apply steps_revision). cbn [mbind result_bind dr_commit receipt_of].
  rewrite created_commit. cbn [mbind result_bind stored_operation stored_of from_directory intent_operation]. by rewrite N.eqb_refl.
Qed.

Lemma created_parents : load_parents (tables b') (dp_commit p) = Ok (option_list (dp_expected_commit p)).
Proof.
  pose proof steps_tables as (Hfresh & _ & _ & Hpar). eapply load_parents_rows; [|by destruct Hp|exact Hpar]. apply (referenced_fresh b); done.
Qed.

Lemma created_head :
  load_head (tables b') (operations b') (dp_branch p) (dp_volume p) =
  Ok (Some {| head_branch := dp_branch p; head_volume := dp_volume p; head_namespace_commit := dp_commit p; head_number := sequence |}).
Proof.
  pose proof created_commit as Hc. pose proof created_parents as Hpar. pose proof Hp as [? ? Hvol ? ? ? ? ? Hcommit ? ? ? ? ?]. destruct Hsteps as [_ _ _ _ _ _ _ _ Eh _ _ _ _].
  apply advance_head_spec in Eh as (_ & Et & _). unfold load_head. rewrite Et at 1. cbn [branch_namespace_heads with_heads]. unfold head_key. cbn [intent_branch intent_volume from_directory].
  rewrite lookup_insert_eq. cbn [head_commit head_sequence]. rewrite decode_identifier_id by done. cbn [mbind result_bind].
  rewrite from_i64_of. cbn [mbind result_bind]. unfold load_namespace_root. cbn [intent_commit from_directory]. rewrite Hpar. cbn [mbind result_bind].
  replace (2 <=? length (option_list (dp_expected_commit p)))%nat with false by by destruct (dp_expected_commit p). rewrite Hc. cbn [mbind result_bind root_volume stored_commit_volume stored_of from_directory intent_volume].
  by rewrite N.eqb_refl.
Qed.

Lemma typed_publishable : publishable (dp_volume p) (dp_root_object p) (dp_path p).
Proof.
  destruct Hp as [_ _ Hv Ho _ _ _ _ _ _ Hn Hs Ht Hl]. split.
  - split_and!; [done..|]. eapply Forall_impl; [exact Ht|]. by intros t [? _].
  - eapply Forall_impl; [exact Hn|]. by intros c [].
  - unfold new_publication_path. rewrite bool_decide_eq_true_2; [by destruct (dp_path p)|]. unfold from_stored_components in Hs. destruct (_ || _) eqn:Eb; [done|].
    apply orb_false_iff in Eb as [_ Eb%N.ltb_ge]. apply checked_add_Some. unfold len, HARD_MAXIMUM_DEPTH, usize_max, u64_max in *. lia.
Qed.

Lemma entry_fields : exists n, leaf_name (dp_path p) = Some n /\
  entry = {| name := n; object_id := dp_object p; object_revision_id := dp_revision p; kind := Directory; generation := dp_generation p |}.
Proof. destruct Hsteps as [_ (n & Hn & He) _ _ _ _ _ _ _ _ _ _ _]. exists n. split; [done|]. unfold new_entry in He. destruct (_ =? _); [done|]. by injection He as <-. Qed.

Lemma created_copied current :
  load_path_directories (tables b) (dp_volume p) (dp_root_object p) current (dp_root_revision p) (dp_path p) = Ok (base_directories base) ->
  let cs := components (publication_path (dp_path p)) in
  (checked db3 /\ well_formed db3 /\ undisturbed (tables b) db3) /\
  (forall q, texts q -> key_of q = key_of cs -> resolve_loop db3 (dp_volume p) (dp_root_object p) (dp_root_revision p) q = Ok entry) /\
  (forall q, texts q -> ~ key_of q `prefix_of` key_of cs -> ~ key_of cs `prefix_of` key_of q -> answered (resolve_loop (tables b) (dp_volume p) (dp_root_object p) current q) ->
     resolve_loop db3 (dp_volume p) (dp_root_object p) (dp_root_revision p) q = resolve_loop (tables b) (dp_volume p) (dp_root_object p) current q).
Proof.
  intros Hload. pose proof (steps_spec _ _ _ _ _ _ _ _ _ _ _ Hsteps) as (Hg & Hc & He & Hheld & Hrows & _ & Hnew). pose proof entry_fields as (n & Hn & Hentry).
  pose proof Hsteps as [_ _ Hed _ _ _ _ _ _ _ _ _ _].
  destruct (path_copied_by (tables b) (dp_volume p) (dp_root_object p) current (dp_root_revision p) (dp_path p) (base_directories base) (Upsert entry None) namespace (dp_by p) (dp_at p) db3)
    as (Hk & Hat & _ & Helse); try done; [apply typed_publishable|by rewrite Hn, Hentry|by apply Hc|].
  intros key row d Hrow Hd. destruct (Hnew _ _ Hrow) as [?|[Hroot|(res & Hres & Hroot)]]; [by left|right; right|right; left].
  - exists ∅. by replace d with (root Directory.empty) by congruence; apply empty_stored.
  - exists res. split; [done|congruence].
Qed.

Lemma created_transition t : t ∈ publication_ancestors (dp_path p) -> validate_directory_transition (tables b') (dp_volume p) t = Ok tt.
Proof.
  intros [j Hj]%list_elem_of_lookup. pose proof steps_tables as (_ & Hrev & _). pose proof (steps_spec _ _ _ _ _ _ _ _ _ _ _ Hsteps) as (Hg & _ & _ & _ & Hrows & _).
  pose proof Hsteps as [Hb _ Hed _ _ _ _ _ _ _ _ _ _]. destruct (load_base_cases _ _ _ Hb) as [(_ & Hnil & _)|(e & c & _ & _ & _ & _ & Hload)]; [by rewrite Hnil in Hj|].
  apply mutate_path_spec in Hed.
  pose proof (load_path_chain _ _ _ _ _ _ _ (typed_shape p Hp) Hload) as Hch.
  destruct (chain_loaded _ _ _ _ _ (S j) (transition_step t) Hch) as (n & d & Hd & Hl).
  { change ((transition_step <$> publication_ancestors (dp_path p)) !! j = Some (transition_step t)). by rewrite list_lookup_fmap, Hj. }
  destruct (edited_result _ _ _ _ _ _ _ Hed Hd) as (from & Hres). apply loaded_fields in Hl as (Eo & Ep & En & r & Hr & Hk & Hro & Hrv & Hroot).
  pose proof (proj1 (Forall_lookup _ _) (typed_transitions p Hp) _ _ Hj) as (T1 & T2 & T3 & _). cbn [step_object step_old step_new transition_step] in *.
  rewrite Forall_lookup in Hrows. specialize (Hrows _ _ Hres). unfold row_of in Hrows. cbn [result_next directory_result] in Hrows.
  assert (digest_ok from) as Hfrom.
  { destruct (created_copied (root_revision c) Hload) as ((_ & Hw & _) & _). destruct (Hw _ _ from Hrows eq_refl) as [m Hm]. by apply represents_digest in Hm. }
  assert (load_object_revision (tables b') (new_revision t) = Ok (directory_revision (dp_volume p) (dp_by p) (dp_at p) (directory_result d from))) as Hnew.
  { set (row := directory_revision (dp_volume p) (dp_by p) (dp_at p) (directory_result d from)) in *. assert (revision_typed row) as Htyped.
    { unfold revision_typed, row, directory_revision, directory_result. cbn [inserted_volume inserted_object inserted_kind inserted_prior inserted_root inserted_version inserted_by result_object result_prior result_root].
      rewrite Eo, Ep. destruct Hp. by split_and!. }
    pose proof (load_object_revision_row (tables b') row Htyped) as Hback. rewrite <- En. apply Hback. transitivity (object_revisions db3 !! Identifier.as_bytes (loaded_next d)); [by rewrite <- Hrev|exact Hrows]. }
  assert (load_object_revision (tables b') (expected_revision t) = Ok r) as Hold by (apply (load_object_revision_grow (tables b)); [rewrite Hrev; exact (grows_revisions _ _ Hg)|exact Hr]).
  unfold validate_directory_transition. rewrite Hold. cbn [mbind result_bind]. rewrite Hnew. cbn [mbind result_bind].
  unfold directory_of. cbn [inserted_volume inserted_object inserted_kind inserted_root inserted_version inserted_prior directory_revision directory_result result_object result_prior result_root].
  rewrite (loaded_version _ _ _ Hck Hr Hk), Hk, Hro, Hrv, Eo, Ep, !N.eqb_refl. rewrite (bool_decide_eq_true_2 _ Hroot). by rewrite !bool_decide_eq_true_2 by done.
Qed.

Lemma created_validated : validate_loaded_intent b' (directory_intent p) = Ok tt.
Proof.
  unfold validate_loaded_intent. cbn [rename_shape deletion_shape rename mutation is_deletion directory_intent map_err mbind result_bind andb intent_commit_id intent_object_revision_id ancestors].
  rewrite created_commit. cbn [mbind result_bind]. rewrite (load_object_revision_row (tables b') (new_directory_revision p)) by (by apply new_revision_typed || apply steps_revision).
  cbn [mbind result_bind stored_commit_volume stored_of from_directory intent_volume inserted_volume inserted_object inserted_prior new_directory_revision intent_object_id prior_object_revision_id].
  rewrite !N.eqb_refl, bool_decide_eq_true_2 by done. cbn [negb orb].
  replace (valid_kind (directory_intent p) (new_directory_revision p)) with true by done. cbn [negb].
  rewrite validate_transitions_Ok by apply created_transition. done.
Qed.

Lemma directory_intent_typed : intent_typed (directory_intent p).
Proof. destruct Hp. by split. Qed.

Lemma created_intent : load_branch_intent b' (dp_commit p) = Ok (Some (directory_intent p)).
Proof.
  pose proof steps_tables as (Hfresh & _). destruct (referenced_fresh b _ Href Hfresh) as (Hun & _). apply (intent_roundtrip (directory_intent p) b b' directory_intent_typed Hun); [|apply created_validated].
  by destruct Hsteps.
Qed.

Lemma put_known {V A : Type} (key : bytes) (f : A -> V) t l k z x (Q : bytes -> Prop) :
  put key f t l !! (k, z) = Some x -> Q key -> (forall z x, t !! (k, z) = Some x -> Q k) -> Q k.
Proof. intros E Hq Ht. destruct (decide (k = key)) as [->|Hk]; [done|]. rewrite put_other in E by done. by eapply Ht. Qed.

Lemma insert_known {V W : Type} (key : bytes) (w : W) (m : gmap bytes W) k (o : option V) :
  (forall x, o = Some x -> is_Some (m !! k)) -> forall x, o = Some x -> is_Some (<[key := w]> m !! k).
Proof. intros Ho x Hx. apply lookup_insert_is_Some. destruct (decide (key = k)); [by left|]. right. split; [done|by eapply Ho]. Qed.

Lemma created_referenced : referenced b'.
Proof.
  pose proof steps_tables as (_ & _ & Hc & Hpar). destruct Hsteps as [_ _ _ _ _ _ _ _ _ _ _ Hi Ha]. destruct Href as [Rp Ra Ri Rc Rn Rr Rd].
  set (key := Identifier.as_bytes (dp_commit p)) in *.
  split; rewrite ?Hc, ?Hpar, ?Hi, ?Ha; cbn [recorded commit_intents path_components intent_ancestors commit_renames commit_deletions intent_commit_id directory_intent]; fold key.
  - intros k z x. unfold parent_rows. destruct (dp_expected_commit p); [|by intros Hx; eapply insert_known; [apply (Rp k z)|exact Hx]].
    rewrite lookup_insert_Some. intros [[[= <- _] _]|[_ Hx]]; [eexists; apply lookup_insert_eq|]. eapply insert_known; [apply (Rp k z)|exact Hx].
  - intros k. apply insert_known. intros x. apply Ra.
  - intros k x. rewrite lookup_insert_Some. intros [[<- _]|[_ Hx]]; [eexists; apply lookup_insert_eq|]. eapply insert_known; [apply (Ri k)|exact Hx].
  - intros k z x Hx. eapply (put_known key _ _ _ k z x (fun k => is_Some (<[key := _]> (commit_intents (intents b)) !! k)) Hx); [eexists; apply lookup_insert_eq|].
    intros z' x' Hx'. eapply insert_known; [apply (Rc k z')|exact Hx'].
  - intros k z x Hx. eapply (put_known key _ _ _ k z x (fun k => is_Some (<[key := _]> (commit_intents (intents b)) !! k)) Hx); [eexists; apply lookup_insert_eq|].
    intros z' x' Hx'. eapply insert_known; [apply (Rn k z')|exact Hx'].
  - intros k. apply insert_known. intros x. apply Rr.
  - intros k Hk. apply Rd in Hk as [x Hx]. eapply insert_known; [|exact Hx]. by eexists.
Qed.

(** ** What readers see *)

(** The first directory of a volume: a root that holds it alone. *)
Lemma created_first :
  dp_expected_commit p = None ->
  exists n r, leaf_name (dp_path p) = Some n /\ components (publication_path (dp_path p)) = [n] /\ directory_at db3 (dp_volume p) (dp_root_object p) (dp_root_revision p) r /\
    represents (trie_of db3 r) {[canonical n := entry]} /\ forall res, res ∈ mutated_directories namespace -> result_root res = r.
Proof.
  intros Hnone. pose proof (steps_spec _ _ _ _ _ _ _ _ _ _ _ Hsteps) as (_ & _ & He & Hheld & Hrows & _ & _). pose proof entry_fields as (n & Hn & Hentry).
  pose proof Hsteps as [Hb _ Hed _ _ _ _ _ _ _ _ _ _]. destruct (load_base_cases _ _ _ Hb) as [(_ & Hnil & ->)|(e & c & He' & _)]; [|congruence]. cbn [base_directories] in Hed.
  pose proof (typed_shape p Hp) as Hshape. rewrite Hnil in Hshape. assert (components (publication_path (dp_path p)) = [n]) as Hcs.
  { unfold leaf_name in Hn. destruct (components _) as [|c [|]]; [done| |done]. cbn in Hn. by injection Hn as ->. }
  assert (text (canonical n)) as Htext by (pose proof (publishable_texts _ _ _ typed_publishable) as Ht; rewrite Hcs in Ht; by apply Forall_cons in Ht as [? _]).
  apply mutate_path_spec in Hed as (leaf & r & up & [= <-] & Eres & Hlen & (u & t' & recs & L1 & L2 & L3 & L4) & _). destruct up; [|done]. cbn [app] in Eres.
  destruct (edit_whole db3 db3 Directory.empty (Upsert entry None) u t' recs ∅) as (m' & Hm' & Hr); [done|by apply empty_stored| |done|done|done| |].
  { cbn [op_key]. by rewrite Hentry. }
  { rewrite Forall_forall in Hheld |- *. intros x Hx. by apply Hheld, L4. }
  assert (m' = {[canonical n := entry]}) as ->.
  { cbn [map_step] in Hm'. apply result_bind_Ok in Hm' as ([] & _ & [= <-]). by rewrite Hentry. }
  rewrite L3 in Hr. exists n, r. split_and!; try done.
  - rewrite Eres in Hrows. apply Forall_cons in Hrows as [Hrow _]. destruct Hp. apply (new_directory_at _ _ (dp_by p) (dp_at p) (directory_result {| editor := Directory.empty; loaded_object := dp_root_object p; loaded_prior := None; loaded_next := dp_root_revision p |} r)); [done|done|by eapply represents_digest|exact Hrow].
  - intros res. rewrite Eres. by intros ->%list_elem_of_singleton.
Qed.

(** Both bases: what is stored stays sound, and the entry is below the new root. *)
Lemma created_sound :
  let cs := components (publication_path (dp_path p)) in
  checked db3 /\ well_formed db3 /\ undisturbed (tables b) db3 /\
  forall q, texts q -> key_of q = key_of cs -> resolve_loop db3 (dp_volume p) (dp_root_object p) (dp_root_revision p) q = Ok entry.
Proof.
  pose proof Hsteps as [Hb _ _ _ _ _ _ _ _ _ _ _ _]. destruct (load_base_cases _ _ _ Hb) as [(Hnone & _)|(e & c & _ & _ & _ & _ & Hload)].
  2:{ destruct (created_copied _ Hload) as ((? & ? & ?) & ? & _). by split_and!. }
  pose proof (steps_spec _ _ _ _ _ _ _ _ _ _ _ Hsteps) as (Hg & Hc & He & _ & _ & _ & Hnew). destruct (created_first Hnone) as (n & r & Hn & Hcs & Hat & Hr & Hroots). split_and!.
  - by apply Hc.
  - intros key row d Hrow Hd. destruct (Hnew _ _ Hrow) as [Hold|[Hroot|(res & Hres & Hroot)]].
    + destruct (Hwf _ _ _ Hold Hd) as [x Hx]. exists x. by eapply represents_stored.
    + exists ∅. replace d with (root Directory.empty) by congruence. by apply empty_stored.
    + exists {[canonical n := entry]}. rewrite Hd in Hroot. injection Hroot as ->. by rewrite (Hroots _ Hres).
  - intros v object revision q Hq Ha. by apply resolve_grow.
  - intros q Hq Hk. rewrite Hcs in Hk. destruct q as [|c [|]]; try done. injection Hk as Ec. apply Forall_cons in Hq as [Hq _].
    rewrite (resolve_directory_at db3 _ _ _ r {[canonical n := entry]}) by done. by rewrite Ec, lookup_singleton_eq.
Qed.

Lemma created_stored : checked (tables b') /\ well_formed (tables b').
Proof.
  pose proof Hsteps as [_ _ _ _ _ _ Ec _ Eh _ _ _ _]. destruct (published_head _ _ _ _ _ _ _ Ec Eh) as ((t & parents & heads & ->) & _).
  by destruct created_sound as (? & ? & _).
Qed.

(** The head that stat joins, before and after. *)
Lemma created_joined : joined_head (tables b') (dp_branch p) (dp_volume p) =
  Some (Identifier.as_bytes (dp_commit p), Identifier.as_bytes (dp_root_object p), Identifier.as_bytes (dp_root_revision p)).
Proof. pose proof Hsteps as [_ _ _ _ _ _ Ec _ Eh _ _ _ _]. by destruct (published_head _ _ _ _ _ _ _ Ec Eh) as (_ & Hj & _). Qed.

Lemma head_before : branch_namespace_heads (tables b) !! (Identifier.as_bytes (dp_branch p), Identifier.as_bytes (dp_volume p)) =
  (fun e => {| head_commit := Identifier.as_bytes e; head_sequence := Z.of_N (base_sequence base) |}) <$> dp_expected_commit p.
Proof.
  pose proof (steps_spec _ _ _ _ _ _ _ _ _ _ _ Hsteps) as (Hg & _). pose proof Hsteps as [_ _ _ _ _ _ Ec _ Eh _ _ _ _]. apply persist_commit_rows in Ec as (_ & _ & ->).
  apply advance_head_spec in Eh as (_ & _ & Eh). cbn [branch_namespace_heads with_commits] in Eh. by rewrite (grows_heads _ _ Hg) in Eh.
Qed.

(** A path beside the one of the request. *)
Definition beside (q cs : list NamespaceComponent) : Prop := texts q /\ ~ key_of q `prefix_of` key_of cs /\ ~ key_of cs `prefix_of` key_of q.

Lemma created_beside q :
  beside (components q) (components (publication_path (dp_path p))) -> answered (branch_stat (tables b) (dp_branch p) (dp_volume p) q) ->
  (e ← resolve_loop db3 (dp_volume p) (dp_root_object p) (dp_root_revision p) (components q); build_stat db3 (dp_commit p) (dp_volume p) e) =
  recommitted (dp_commit p) <$> branch_stat (tables b) (dp_branch p) (dp_volume p) q.
Proof.
  intros (Ht & Hq1 & Hq2) Ha. pose proof Hsteps as [Hb _ _ _ _ _ _ _ _ _ _ _ _]. pose proof head_before as Hhead. pose proof (steps_spec _ _ _ _ _ _ _ _ _ _ _ Hsteps) as (Hg & _).
  destruct (load_base_cases _ _ _ Hb) as [(Hnone & _)|(e & c & Hsome & Hc & _ & Ho & Hload)].
  - rewrite Hnone in Hhead. cbn [fmap option_fmap option_map] in Hhead. assert (branch_stat (tables b) (dp_branch p) (dp_volume p) q = Err NotFound) as ->.
    { unfold branch_stat, stat, joined_head. cbn [stat_branch stat_volume]. by rewrite Hhead. }
    destruct (created_first Hnone) as (n & r & Hn & Hcs & Hat & Hr & _). rewrite Hcs in Hq1, Hq2. destruct (components q) as [|x rest]; [by destruct Hq1; apply prefix_nil|].
    apply Forall_cons in Ht as [Hx Ht]. rewrite (resolve_directory_at db3 _ _ _ r {[canonical n := entry]}) by done. rewrite lookup_singleton_ne; [done|].
    intros Ex. apply Hq2. cbn. rewrite Ex. by apply prefix_cons, prefix_nil.
  - rewrite Hsome in Hhead. cbn [fmap option_fmap option_map] in Hhead. destruct (load_root_row _ _ _ _ Hc) as (row & Hrow & Hro & Hrr). pose proof (typed_expected p Hp) as He. rewrite Hsome in He. cbn in He.
    assert (branch_stat (tables b) (dp_branch p) (dp_volume p) q =
      (x ← resolve_loop (tables b) (dp_volume p) (dp_root_object p) (root_revision c) (components q); build_stat (tables b) e (dp_volume p) x)) as Hwas.
    { unfold branch_stat, stat, joined_head. cbn [stat_branch stat_volume stat_path]. rewrite Hhead. cbn [mbind option_bind head_commit]. rewrite Hrow. cbn [mbind option_bind].
      rewrite identifier_id, Hro, Hrr, Ho by done. done. }
    rewrite Hwas in Ha |- *. destruct (created_copied _ Hload) as (_ & _ & Helse). rewrite Helse; [by apply stat_carried|done..|by eapply bind_answered].
Qed.

Lemma created_others branch volume q s :
  (Identifier.as_bytes branch, Identifier.as_bytes volume) <> (Identifier.as_bytes (dp_branch p), Identifier.as_bytes (dp_volume p)) -> texts (components q) ->
  branch_stat (tables b) branch volume q = Ok s -> branch_stat (tables b') branch volume q = Ok s.
Proof.
  pose proof Hsteps as [_ _ _ _ _ _ Ec _ Eh _ _ _ _]. pose proof (steps_spec _ _ _ _ _ _ _ _ _ _ _ Hsteps) as (Hg & _). destruct created_sound as (_ & _ & Hun & _). exact (other_stat (from_directory p) _ _ _ _ _ _ _ branch volume q s Hg Hun Ec Eh).
Qed.

Lemma created_stat q :
  texts (components q) -> key_of (components q) = key_of (components (publication_path (dp_path p))) ->
  branch_stat (tables b') (dp_branch p) (dp_volume p) q =
  Ok {| stat_commit := dp_commit p; stat_object := dp_object p; stat_revision := dp_revision p; stat_name := name entry; stat_generation := dp_generation p;
        stat_kind := Directory; stat_version := None; stat_length := None |}.
Proof.
  intros Hq Hk. pose proof Hsteps as [_ _ _ _ _ _ Ec _ Eh _ _ _ _]. destruct (published_head _ _ _ _ _ _ _ Ec Eh) as ((t & parents & heads & Et) & _). pose proof Hp as [].
  rewrite (branch_stat_head _ _ _ (dp_commit p) (dp_root_object p) (dp_root_revision p)) by (done || apply created_joined). destruct created_sound as (_ & _ & _ & Hat).
  rewrite Et, resolve_commits, Hat by done. cbn [mbind result_bind]. rewrite <- Et. destruct entry_fields as (n & _ & He). rewrite He. unfold build_stat. cbn [object_revision_id object_id kind name generation].
  pose proof (new_directory_at (tables b') (dp_volume p) (dp_by p) (dp_at p)
    (directory_result {| editor := Directory.empty; loaded_object := dp_object p; loaded_prior := None; loaded_next := dp_revision p |} (root Directory.empty))) as Hnew.
  cbn [directory_result result_object result_next result_root loaded_object loaded_next] in Hnew. unfold directory_at in Hnew.
  rewrite Hnew; [|done|done|apply blake3_bytes|apply steps_revision]. cbn [mbind result_bind stored_volume stored_object stored_kind stored_version]. by rewrite !N.eqb_refl.
Qed.

End steps.



(** ** Directories that have changed *)

Lemma persist_directory_refused i b prior :
  kind_columns (mutation i) = (2%Z, None) -> prior_object_revision_id i = Some prior ->
  exists e, persist_branch_intent i b = (Err e, b) /\ (is_ok (rename_shape i) -> is_ok (deletion_shape i) -> is_ok (to_i64 (entry_generation i)) -> is_ok (to_i64 (len (components (path i)))) -> e = Sqlite).
Proof.
  intros Hk Hprior. unfold persist_branch_intent, mbind, SE_bind, lift. destruct (rename_shape i) as [[]|e]; [|by exists e]. destruct (deletion_shape i) as [[]|e]; [|by exists e].
  destruct (to_i64 (entry_generation i)) as [g|e]; [|by exists e]. destruct (to_i64 (len (components (path i)))) as [d|e]; [|by exists e].
  exists Sqlite. split; [|done]. unfold insert_row, get_state, mbind, SE_bind. cbn [fst snd]. rewrite Hk, Hprior. cbn [fst snd].
  replace (intent_admitted _ _ b) with false; [done|]. unfold intent_admitted. cbn [ir_kind ir_version ir_prior fmap option_fmap option_map]. by rewrite andb_false_r.
Qed.

(** C37: A directory whose contents have ever changed can be neither renamed nor removed.  The
    intent of a rename or a removal carries the prior revision of the object it names, and the
    intent table admits no directory with a prior revision: recording the intent fails, the
    statement itself when the shape is valid, and changes nothing. *)
Theorem modified_directory_pinned r b prior :
  inserted_kind r = 1 -> inserted_version r = None -> inserted_prior r = Some prior ->
  (forall p, exists i e, rename_intent p r = Ok i /\ persist_branch_intent i b = (Err e, b) /\
     (is_ok (rename_shape i) -> is_ok (to_i64 (nr_target_generation p)) -> is_ok (to_i64 (len (components (publication_path (nr_target p))))) -> e = Sqlite)) /\
  (forall p, nu_expected_kind p = Directory -> nu_expected_version p = None -> exists i e, unlink_intent p r = Ok i /\ persist_branch_intent i b = (Err e, b) /\
     (is_ok (to_i64 (nu_expected_generation p)) -> is_ok (to_i64 (len (components (publication_path (nu_path p))))) -> e = Sqlite)).
Proof.
  intros Hk Hv Hprior. split.
  - intros p. assert (exists i, rename_intent p r = Ok i /\ kind_columns (mutation i) = (2%Z, None) /\ prior_object_revision_id i = Some prior /\ mutation i = CreateDirectory /\
      entry_generation i = nr_target_generation p /\ path i = publication_path (nr_target p)) as (i & Ei & Ck & Cp & Cm & <- & <-).
    { unfold rename_intent. rewrite Hk, Hv, Hprior. by eexists. }
    destruct (persist_directory_refused i b prior Ck Cp) as (e & He & Hs). exists i, e. split_and!; [done..|]. intros Hr Hg Hd. apply Hs; try done. unfold deletion_shape. by rewrite Cm.
  - intros p Ek Ev. assert (exists i, unlink_intent p r = Ok i /\ kind_columns (mutation i) = (2%Z, None) /\ prior_object_revision_id i = Some prior /\ rename i = None /\
      entry_generation i = nu_expected_generation p /\ path i = publication_path (nu_path p)) as (i & Ei & Ck & Cp & Cr & <- & <-).
    { unfold unlink_intent. rewrite Ek, Ev, Hprior. by eexists. }
    destruct (persist_directory_refused i b prior Ck Cp) as (e & He & Hs). exists i, e. split_and!; [done..|]. intros Hg Hd. unfold rename_shape, deletion_shape in Hs. rewrite Cr in Hs. apply Hs; try done.
    by destruct (is_deletion (mutation i)).
Qed.

End created.
