(* ===== verification/Handles.v ===== *)
(** Open handles of files, their leases and fences, share modes and byte-range locks, on the
    tables of the branch database: meshspan-filesystem/src/handles.rs with handles/state.rs,
    handles/lease.rs, handles/locks.rs, handles/information.rs, handles/write.rs and
    handles/path.rs, over migrations 010, 011, 012, 013, 040 and 046 of the branch schema.
    Identifiers and digests have the lengths their columns demand. *)

From Stdlib Require Import String.
From S2P Require Import Prelude Ids Codec Contracts Name Directory Intent BranchStore PathCopy Query Journal IntentStore Creation.
From stdpp Require Import prelude gmap sorting list.
#[local] Open Scope N_scope.

Inductive HandleError :=
| InvalidInput | NotFound | AlreadyExists | CreationRequired | SharingViolation | DeletePending | StaleHandle | GatewayMismatch | LockConflict
| FlushInProgress | DirectoryNotEmpty | StaleLock | OperationConflict | Corrupt | Namespace (e : PublicationError) | Sqlite.

(** ** Columns *)

Definition identifier (b : bytes) : result HandleError N :=
  if negb (len b =? 16) then Err Corrupt else map_err (fun _ => Corrupt) (Identifier.from_bytes b).
Definition array (b : bytes) : result HandleError bytes := if len b =? 32 then Ok b else Err Corrupt.
Definition to_i64 (n : N) : result HandleError Z := if (Z.of_N n <=? i64_max)%Z then Ok (Z.of_N n) else Err InvalidInput.
(** [u64::try_from] and [u8::try_from] of a column. *)
Definition u64_column (z : Z) : result HandleError N := if (0 <=? z)%Z then Ok (Z.to_N z) else Err Corrupt.
Definition u8_column (z : Z) : result HandleError N := if within 0 255 z then Ok (Z.to_N z) else Err Corrupt.

(** ** Access and sharing *)

Definition READ_ACCESS : N := 1.
Definition WRITE_ACCESS : N := 2.
Definition DELETE_ACCESS : N := 4.
Definition ACCESS_MASK : N := N.lor READ_ACCESS (N.lor WRITE_ACCESS DELETE_ACCESS).

Definition access_bits (read write delete : bool) : N :=
  N.lor (if read then READ_ACCESS else 0) (N.lor (if write then WRITE_ACCESS else 0) (if delete then DELETE_ACCESS else 0)).
Definition new_access (read write delete : bool) : result HandleError N :=
  let bits := access_bits read write delete in if bits =? 0 then Err InvalidInput else Ok bits.
Definition new_share (read write delete : bool) : N := access_bits read write delete.
Definition reads (a : N) : bool := negb (N.land a READ_ACCESS =? 0).
Definition writes (a : N) : bool := negb (N.land a WRITE_ACCESS =? 0).
Definition deletes (a : N) : bool := negb (N.land a DELETE_ACCESS =? 0).
Definition access_from_bits (bits : N) : result HandleError N :=
  if (bits =? 0) || negb (N.ldiff bits ACCESS_MASK =? 0) then Err Corrupt else Ok bits.
Definition share_from_bits (bits : N) : result HandleError N := if N.ldiff bits ACCESS_MASK =? 0 then Ok bits else Err Corrupt.

Inductive CreateDisposition := OpenExisting | CreateNew | OpenOrCreate | OverwriteExisting | OverwriteOrCreate.
#[export] Instance CreateDisposition_eq_dec : EqDecision CreateDisposition.
Proof. solve_decision. Defined.

Definition disposition_code (d : CreateDisposition) : N :=
  match d with OpenExisting => 1 | CreateNew => 2 | OpenOrCreate => 3 | OverwriteExisting => 4 | OverwriteOrCreate => 5 end.
Definition disposition_from_code (code : N) : result HandleError CreateDisposition :=
  match code with 1 => Ok OpenExisting | 2 => Ok CreateNew | 3 => Ok OpenOrCreate | 4 => Ok OverwriteExisting | 5 => Ok OverwriteOrCreate | _ => Err Corrupt end.
Definition truncates_existing (d : CreateDisposition) : bool := match d with OverwriteExisting | OverwriteOrCreate => true | _ => false end.

(** ** Ranges *)

Record ByteRange := { range_start : N; range_length : N }.
Definition new_range (start length : N) : result HandleError ByteRange :=
  stop ← ok_or (checked_add u64_max start length) InvalidInput;
  if (length =? 0) || (9223372036854775807 <? stop) then Err InvalidInput else Ok {| range_start := start; range_length := length |}.
Definition range_end (r : ByteRange) : N := range_start r + range_length r.

Inductive RangeLockKind := Shared | Exclusive.
#[export] Instance RangeLockKind_eq_dec : EqDecision RangeLockKind.
Proof. solve_decision. Defined.
Definition kind_code (k : RangeLockKind) : N := match k with Shared => 1 | Exclusive => 2 end.
Definition kind_from_code (code : N) : result HandleError RangeLockKind := match code with 1 => Ok Shared | 2 => Ok Exclusive | _ => Err Corrupt end.

Inductive RangeLockLifetime := Independent | HandleLifetime.
#[export] Instance RangeLockLifetime_eq_dec : EqDecision RangeLockLifetime.
Proof. solve_decision. Defined.
Definition lifetime_code (l : RangeLockLifetime) : Z := match l with Independent => 1%Z | HandleLifetime => 2%Z end.
Definition lifetime_from_code (code : Z) : result HandleError RangeLockLifetime :=
  match code with 1%Z => Ok Independent | 2%Z => Ok HandleLifetime | _ => Err Corrupt end.

(** ** Tables *)

Record HandleRow := {
  hr_operation : bytes; hr_request : bytes; hr_branch : bytes; hr_volume : bytes; hr_commit : bytes; hr_object : bytes; hr_revision : bytes; hr_version : bytes;
  hr_principal : bytes; hr_authorization : Z; hr_gateway : bytes; hr_opened_fence : Z; hr_fence : Z; hr_desired : Z; hr_share : Z; hr_disposition : Z;
  hr_delete : Z; hr_expires : Z; hr_state : Z; hr_opened_at : Z; hr_closed_at : option Z; hr_receipt : bytes; hr_length : Z
}.
Record LockRow := {
  lr_operation : bytes; lr_request : bytes; lr_handle : bytes; lr_fence : Z; lr_acquired_fence : Z; lr_start : Z; lr_length : Z; lr_kind : Z; lr_expires : Z;
  lr_state : Z; lr_created : Z; lr_released : option Z; lr_receipt : bytes; lr_acquired_expires : Z; lr_lifetime : Z
}.
Record MutationRow := {
  mo_kind : Z; mo_handle : bytes; mo_request : bytes; mo_fence : Z; mo_code : Z; mo_result : bytes; mo_at : Z; mo_value : option Z; mo_identity : option bytes
}.
Record InformationRow := {
  io_kind : Z; io_handle : bytes; io_request : bytes; io_fence : Z; io_length : Z; io_delete : Z; io_at : Z; io_result : bytes
}.
Record AdmissionRow := {
  wa_request : bytes; wa_handle : bytes; wa_fence : Z; wa_principal : bytes; wa_authorization : Z; wa_gateway : bytes; wa_start : Z; wa_length : Z;
  wa_content : bytes; wa_at : Z; wa_receipt : bytes
}.
Record PendingRow := {
  pd_volume : bytes; pd_handle : bytes; pd_revision : bytes; pd_version : bytes; pd_state : Z; pd_requested : Z; pd_ready : option Z
}.
(** The columns of a flush's progress and of a file's head that are read here. *)
Record ProgressRow := { fp_revision : bytes; fp_version : bytes }.
Record FileRow := { bf_volume : bytes; bf_current : option bytes }.

Record HandleTables := {
  open_handles : gmap bytes HandleRow;
  range_locks : gmap bytes LockRow;
  mutation_operations : gmap bytes MutationRow;
  information_operations : gmap bytes InformationRow;
  write_admissions : gmap bytes AdmissionRow;
  pending_deletes : gmap (bytes * bytes) PendingRow;
  handle_paths : gmap (bytes * Z) ComponentRow;
  flush_progress : gmap bytes ProgressRow;
  flush_plans : gset bytes;
  branch_files : gmap (bytes * bytes) FileRow
}.

Definition with_open_handles (t : gmap bytes HandleRow) (h : HandleTables) : HandleTables :=
  {| open_handles := t; range_locks := range_locks h; mutation_operations := mutation_operations h; information_operations := information_operations h;
     write_admissions := write_admissions h; pending_deletes := pending_deletes h; handle_paths := handle_paths h; flush_progress := flush_progress h;
     flush_plans := flush_plans h; branch_files := branch_files h |}.
Definition with_range_locks (t : gmap bytes LockRow) (h : HandleTables) : HandleTables :=
  {| open_handles := open_handles h; range_locks := t; mutation_operations := mutation_operations h; information_operations := information_operations h;
     write_admissions := write_admissions h; pending_deletes := pending_deletes h; handle_paths := handle_paths h; flush_progress := flush_progress h;
     flush_plans := flush_plans h; branch_files := branch_files h |}.
Definition with_mutation_operations (t : gmap bytes MutationRow) (h : HandleTables) : HandleTables :=
  {| open_handles := open_handles h; range_locks := range_locks h; mutation_operations := t; information_operations := information_operations h;
     write_admissions := write_admissions h; pending_deletes := pending_deletes h; handle_paths := handle_paths h; flush_progress := flush_progress h;
     flush_plans := flush_plans h; branch_files := branch_files h |}.
Definition with_information_operations (t : gmap bytes InformationRow) (h : HandleTables) : HandleTables :=
  {| open_handles := open_handles h; range_locks := range_locks h; mutation_operations := mutation_operations h; information_operations := t;
     write_admissions := write_admissions h; pending_deletes := pending_deletes h; handle_paths := handle_paths h; flush_progress := flush_progress h;
     flush_plans := flush_plans h; branch_files := branch_files h |}.
Definition with_write_admissions (t : gmap bytes AdmissionRow) (h : HandleTables) : HandleTables :=
  {| open_handles := open_handles h; range_locks := range_locks h; mutation_operations := mutation_operations h; information_operations := information_operations h;
     write_admissions := t; pending_deletes := pending_deletes h; handle_paths := handle_paths h; flush_progress := flush_progress h;
     flush_plans := flush_plans h; branch_files := branch_files h |}.
Definition with_pending_deletes (t : gmap (bytes * bytes) PendingRow) (h : HandleTables) : HandleTables :=
  {| open_handles := open_handles h; range_locks := range_locks h; mutation_operations := mutation_operations h; information_operations := information_operations h;
     write_admissions := write_admissions h; pending_deletes := t; handle_paths := handle_paths h; flush_progress := flush_progress h;
     flush_plans := flush_plans h; branch_files := branch_files h |}.
Definition with_handle_paths (t : gmap (bytes * Z) ComponentRow) (h : HandleTables) : HandleTables :=
  {| open_handles := open_handles h; range_locks := range_locks h; mutation_operations := mutation_operations h; information_operations := information_operations h;
     write_admissions := write_admissions h; pending_deletes := pending_deletes h; handle_paths := t; flush_progress := flush_progress h;
     flush_plans := flush_plans h; branch_files := branch_files h |}.

(** The database, with the tables handles have of their own. *)
Record HandleStore := { namespace : Branch; handles : HandleTables }.
Abbreviation HandleTx A := (SE HandleStore HandleError A).

Definition on_handles (f : HandleTables -> HandleTables) (s : HandleStore) : HandleStore := {| namespace := namespace s; handles := f (handles s) |}.
Definition get_handles : HandleTx HandleTables := s ← get_state; mret (handles s).
Definition get_namespace : HandleTx Branch := s ← get_state; mret (namespace s).

(** ** Constraints *)

Definition handle_checks (r : HandleRow) : bool :=
  (0 <? hr_authorization r)%Z && (hr_opened_fence r =? 1)%Z && (hr_opened_fence r <=? hr_fence r)%Z && within 1 7 (hr_desired r) && within 0 7 (hr_share r)
  && within 1 5 (hr_disposition r) && within 0 1 (hr_delete r) && within 1 3 (hr_state r) && (hr_opened_at r <? hr_expires r)%Z
  && eqb (hr_state r =? 1)%Z (bool_decide (hr_closed_at r = None)) && (0 <=? hr_length r)%Z.

Definition lock_checks (r : LockRow) : bool :=
  (0 <? lr_fence r)%Z && (0 <? lr_acquired_fence r)%Z && (0 <=? lr_start r)%Z && (0 <? lr_length r)%Z && within 1 2 (lr_kind r) && within 1 3 (lr_state r)
  && (lr_start r <=? i64_max - lr_length r)%Z && (lr_created r <? lr_expires r)%Z && eqb (lr_state r =? 1)%Z (bool_decide (lr_released r = None))
  && within 1 2 (lr_lifetime r).

(** [UPDATE] of the rows a condition selects; the number of rows changed. *)
Definition updated {K V : Type} `{Countable K} (p : K -> V -> bool) (f : V -> V) (t : gmap K V) : gmap K V := map_imap (fun k r => Some (if p k r then f r else r)) t.

Definition update_handles (p : bytes -> HandleRow -> bool) (f : HandleRow -> HandleRow) : HandleTx nat :=
  h ← get_handles;
  let hit := filter (fun kr => p kr.1 kr.2 = true) (open_handles h) in
  if bool_decide (map_Forall (fun _ r => handle_checks (f r) = true) hit)
  then _ ← modify_state (on_handles (with_open_handles (updated p f (open_handles h)))); mret (size hit)
  else raise Sqlite.

Definition update_locks (p : bytes -> LockRow -> bool) (f : LockRow -> LockRow) : HandleTx nat :=
  h ← get_handles;
  let hit := filter (fun kr => p kr.1 kr.2 = true) (range_locks h) in
  if bool_decide (map_Forall (fun _ r => lock_checks (f r) = true) hit)
  then _ ← modify_state (on_handles (with_range_locks (updated p f (range_locks h)))); mret (size hit)
  else raise Sqlite.

(** ** Changes to rows *)

Definition set_lease (gateway : bytes) (authorization fence expires : Z) (r : HandleRow) : HandleRow :=
  {| hr_operation := hr_operation r; hr_request := hr_request r; hr_branch := hr_branch r; hr_volume := hr_volume r; hr_commit := hr_commit r;
     hr_object := hr_object r; hr_revision := hr_revision r; hr_version := hr_version r; hr_principal := hr_principal r; hr_authorization := authorization;
     hr_gateway := gateway; hr_opened_fence := hr_opened_fence r; hr_fence := fence; hr_desired := hr_desired r; hr_share := hr_share r;
     hr_disposition := hr_disposition r; hr_delete := hr_delete r; hr_expires := expires; hr_state := hr_state r; hr_opened_at := hr_opened_at r;
     hr_closed_at := hr_closed_at r; hr_receipt := hr_receipt r; hr_length := hr_length r |}.
Definition end_handle (state now : Z) (r : HandleRow) : HandleRow :=
  {| hr_operation := hr_operation r; hr_request := hr_request r; hr_branch := hr_branch r; hr_volume := hr_volume r; hr_commit := hr_commit r;
     hr_object := hr_object r; hr_revision := hr_revision r; hr_version := hr_version r; hr_principal := hr_principal r; hr_authorization := hr_authorization r;
     hr_gateway := hr_gateway r; hr_opened_fence := hr_opened_fence r; hr_fence := hr_fence r; hr_desired := hr_desired r; hr_share := hr_share r;
     hr_disposition := hr_disposition r; hr_delete := hr_delete r; hr_expires := hr_expires r; hr_state := state; hr_opened_at := hr_opened_at r;
     hr_closed_at := Some now; hr_receipt := hr_receipt r; hr_length := hr_length r |}.
Definition set_information (length delete : Z) (r : HandleRow) : HandleRow :=
  {| hr_operation := hr_operation r; hr_request := hr_request r; hr_branch := hr_branch r; hr_volume := hr_volume r; hr_commit := hr_commit r;
     hr_object := hr_object r; hr_revision := hr_revision r; hr_version := hr_version r; hr_principal := hr_principal r; hr_authorization := hr_authorization r;
     hr_gateway := hr_gateway r; hr_opened_fence := hr_opened_fence r; hr_fence := hr_fence r; hr_desired := hr_desired r; hr_share := hr_share r;
     hr_disposition := hr_disposition r; hr_delete := delete; hr_expires := hr_expires r; hr_state := hr_state r; hr_opened_at := hr_opened_at r;
     hr_closed_at := hr_closed_at r; hr_receipt := hr_receipt r; hr_length := length |}.

Definition end_lock (state now : Z) (l : LockRow) : LockRow :=
  {| lr_operation := lr_operation l; lr_request := lr_request l; lr_handle := lr_handle l; lr_fence := lr_fence l; lr_acquired_fence := lr_acquired_fence l;
     lr_start := lr_start l; lr_length := lr_length l; lr_kind := lr_kind l; lr_expires := lr_expires l; lr_state := state; lr_created := lr_created l;
     lr_released := Some now; lr_receipt := lr_receipt l; lr_acquired_expires := lr_acquired_expires l; lr_lifetime := lr_lifetime l |}.
Definition set_lock_expires (expires : Z) (l : LockRow) : LockRow :=
  {| lr_operation := lr_operation l; lr_request := lr_request l; lr_handle := lr_handle l; lr_fence := lr_fence l; lr_acquired_fence := lr_acquired_fence l;
     lr_start := lr_start l; lr_length := lr_length l; lr_kind := lr_kind l; lr_expires := expires; lr_state := lr_state l; lr_created := lr_created l;
     lr_released := lr_released l; lr_receipt := lr_receipt l; lr_acquired_expires := lr_acquired_expires l; lr_lifetime := lr_lifetime l |}.
Definition set_lock_fence (fence : Z) (l : LockRow) : LockRow :=
  {| lr_operation := lr_operation l; lr_request := lr_request l; lr_handle := lr_handle l; lr_fence := fence; lr_acquired_fence := lr_acquired_fence l;
     lr_start := lr_start l; lr_length := lr_length l; lr_kind := lr_kind l; lr_expires := lr_expires l; lr_state := lr_state l; lr_created := lr_created l;
     lr_released := lr_released l; lr_receipt := lr_receipt l; lr_acquired_expires := lr_acquired_expires l; lr_lifetime := lr_lifetime l |}.
Definition set_ready (now : Z) (p : PendingRow) : PendingRow :=
  {| pd_volume := pd_volume p; pd_handle := pd_handle p; pd_revision := pd_revision p; pd_version := pd_version p; pd_state := 2; pd_requested := pd_requested p;
     pd_ready := Some now |}.

(** ** Expiry and collisions *)

Definition active (r : HandleRow) : bool := (hr_state r =? 1)%Z.
Definition live_at (now : Z) (r : HandleRow) : bool := active r && (now <? hr_expires r)%Z.
Definition lapsed_at (now : Z) (r : HandleRow) : bool := active r && (hr_expires r <=? now)%Z.
Definition on_object (branch volume object : bytes) (r : HandleRow) : bool :=
  bool_decide (hr_branch r = branch) && bool_decide (hr_volume r = volume) && bool_decide (hr_object r = object).
Definition no_handle (p : HandleRow -> bool) (h : HandleTables) : bool := bool_decide (map_Forall (fun _ r => p r = false) (open_handles h)).

(** The order in which a statement that inserts what it selects meets the rows is SQLite's. *)
Class Scan := scan : list (bytes * HandleRow) -> list (bytes * HandleRow).
Class ScanLaw `{Scan} : Prop := scan_permutes rows : scan rows ≡ₚ rows.

(** [INSERT .. ON CONFLICT DO NOTHING] of the deletion a handle asks for. *)
Definition insert_pending (now : Z) (kr : bytes * HandleRow) : HandleTx unit :=
  let '(handle, r) := kr in
  b ← get_namespace;
  h ← get_handles;
  let key := (hr_branch r, hr_object r) in
  let progress := flush_progress h !! handle in
  let row := {| pd_volume := hr_volume r; pd_handle := handle; pd_revision := from_option fp_revision (hr_revision r) progress;
                pd_version := from_option fp_version (hr_version r) progress; pd_state := 1; pd_requested := now; pd_ready := None |} in
  if bool_decide (is_Some (pending_deletes h !! key)) then mret tt
  else if known_revision (tables b) (pd_revision row) && bool_decide (is_Some (file_versions (tables b) !! pd_version row))
          && bool_decide (is_Some (open_handles h !! handle)) && bool_decide (is_Some (branch_files h !! key))
  then modify_state (on_handles (with_pending_deletes (<[key := row]> (pending_deletes h))))
  else raise Sqlite.

Definition lock_lapsed (h : HandleTables) (now : Z) (l : LockRow) : bool :=
  (lr_state l =? 1)%Z && ((lr_expires l <=? now)%Z || from_option (lapsed_at now) false (open_handles h !! lr_handle l)).
Definition deletion_ready (h : HandleTables) (now : Z) (key : bytes * bytes) (p : PendingRow) : bool :=
  (pd_state p =? 1)%Z && no_handle (fun r => on_object key.1 (pd_volume p) key.2 r && live_at now r) h.

Section expiry.
Context `{Scan}.

Definition expire_stale_handles (now : Z) : HandleTx unit :=
  h ← get_handles;
  _ ← update_locks (fun _ l => lock_lapsed h now l) (end_lock 3 now);
  _ ← traverse (insert_pending now) (scan (map_to_list (filter (fun kr => lapsed_at now kr.2 && (hr_delete kr.2 =? 1)%Z = true) (open_handles h))));
  _ ← update_handles (fun _ r => lapsed_at now r) (end_handle 3 now);
  h' ← get_handles;
  modify_state (on_handles (with_pending_deletes (updated (deletion_ready h' now) (set_ready now) (pending_deletes h')))).

End expiry.

Definition reject_operation_collision (operation : N) : HandleTx unit :=
  b ← get_namespace;
  h ← get_handles;
  let key := Identifier.as_bytes operation in
  let o := operations b in
  if bool_decide (is_Some (publication_operations o !! key)) || bool_decide (is_Some (directory_operations o !! key))
     || bool_decide (is_Some (reconciliation_operations o !! key)) || bool_decide (is_Some (restore_operations o !! key))
     || bool_decide (is_Some (rename_operations o !! key)) || bool_decide (is_Some (unlink_operations o !! key))
     || negb (bool_decide (map_Forall (fun _ l => lr_operation l <> key) (range_locks h))) || bool_decide (is_Some (mutation_operations h !! key))
     || bool_decide (is_Some (information_operations h !! key)) || bool_decide (is_Some (write_admissions h !! key)) || bool_decide (key ∈ flush_plans h)
  then raise OperationConflict else mret tt.

(** ** The handle in force *)

(** The commits that lead to a head, [UNION] by [UNION]: no more rounds than recorded parents
    are needed. *)
Definition parents_of (edges : gmap (bytes * Z) bytes) (s : gset bytes) : gset bytes :=
  list_to_set (omap (fun e => if bool_decide (e.1.1 ∈ s) then Some e.2 else None) (map_to_list edges)).
Fixpoint lineage (fuel : nat) (edges : gmap (bytes * Z) bytes) (s : gset bytes) : gset bytes :=
  match fuel with O => s | S n => lineage n edges (s ∪ parents_of edges s) end.

Definition validate_open_lineage (db : Database) (branch volume commit object revision version : N) : result HandleError unit :=
  let b := Identifier.as_bytes in
  let heads := match branch_namespace_heads db !! (b branch, b volume) with Some head => {[head_commit head]} | None => ∅ end in
  let reached := lineage (S (size (namespace_commit_parents db))) (namespace_commit_parents db) heads in
  let commit_ok := match namespace_commits db !! b commit with Some c => bool_decide (commit_volume c = b volume) | None => false end in
  let revision_ok := match object_revisions db !! b revision with
                     | Some r => bool_decide (row_volume r = b volume) && bool_decide (row_object r = b object) && (row_kind r =? 2)%Z
                                 && bool_decide (row_version r = Some (b version))
                     | None => false
                     end in
  let version_ok := match file_versions db !! b version with
                    | Some v => bool_decide (version_volume v = b volume) && bool_decide (version_object v = b object)
                    | None => false
                    end in
  if bool_decide (b commit ∈ reached) && commit_ok && revision_ok && version_ok then Ok tt else Err Corrupt.

Record ActiveHandle := {
  ah_handle : N; ah_branch : N; ah_volume : N; ah_object : N; ah_revision : N; ah_version : N; ah_principal : N; ah_authorization : N; ah_gateway : N;
  ah_fence : N; ah_desired : N; ah_delete : bool; ah_length : N; ah_expires : Z
}.

Definition decode_active (db : Database) (handle : N) (now : Z) (r : HandleRow) : result HandleError ActiveHandle :=
  branch ← identifier (hr_branch r);
  volume ← identifier (hr_volume r);
  commit ← identifier (hr_commit r);
  object ← identifier (hr_object r);
  revision ← identifier (hr_revision r);
  version ← identifier (hr_version r);
  authorization ← u64_column (hr_authorization r);
  fence ← u64_column (hr_fence r);
  bits ← u8_column (hr_desired r);
  desired ← access_from_bits bits;
  length ← u64_column (hr_length r);
  shared ← u8_column (hr_share r);
  _ ← share_from_bits shared;
  if (authorization =? 0) || (fence =? 0) || negb (within 0 1 (hr_delete r)) || (hr_expires r <=? now)%Z then Err Corrupt
  else
    _ ← validate_open_lineage db branch volume commit object revision version;
    principal ← identifier (hr_principal r);
    gateway ← identifier (hr_gateway r);
    Ok {| ah_handle := handle; ah_branch := branch; ah_volume := volume; ah_object := object; ah_revision := revision; ah_version := version;
          ah_principal := principal; ah_authorization := authorization; ah_gateway := gateway; ah_fence := fence; ah_desired := desired;
          ah_delete := (hr_delete r =? 1)%Z; ah_length := length; ah_expires := hr_expires r |}.

Definition load_active (handle : N) (now : Z) : HandleTx ActiveHandle :=
  b ← get_namespace;
  h ← get_handles;
  match open_handles h !! Identifier.as_bytes handle with
  | Some r => if live_at now r then lift (decode_active (tables b) handle now r) else raise StaleHandle
  | None => raise StaleHandle
  end.

(** ** Opening *)

Record OpenHandleRequest := {
  or_operation : N; or_handle : N; or_branch : N; or_volume : N; or_path : NamespacePath; or_principal : N; or_authorization : N; or_gateway : N;
  or_desired : N; or_share : N; or_disposition : CreateDisposition; or_delete : bool; or_expires : Z; or_opened_at : Z
}.

Record OpenHandleReceipt := {
  oh_disposition : PublicationDisposition; oh_operation : N; oh_handle : N; oh_request : bytes; oh_commit : N; oh_object : N; oh_revision : N; oh_version : N;
  oh_length : N; oh_fence : N; oh_truncate : bool; oh_result : bytes
}.

Record ResolvedFile := { rf_commit : N; rf_object : N; rf_revision : N; rf_version : N; rf_length : N }.

Definition validate_open (r : OpenHandleRequest) : result HandleError unit :=
  if (or_authorization r =? 0) || (or_expires r <=? or_opened_at r)%Z || (or_delete r && negb (deletes (or_desired r)))
     || (truncates_existing (or_disposition r) && negb (writes (or_desired r)))
  then Err InvalidInput else Ok tt.

Definition absent_disposition {A} (d : CreateDisposition) : result HandleError A :=
  match d with OpenExisting | OverwriteExisting => Err NotFound | CreateNew | OpenOrCreate | OverwriteOrCreate => Err CreationRequired end.

Definition load_revision (db : Database) (id : N) : result HandleError StoredRevision :=
  row ← ok_or (object_revisions db !! Identifier.as_bytes id) Sqlite;
  k ← match row_kind row with 1%Z => Ok Directory | 2%Z => Ok File | _ => Err Corrupt end;
  from ← match row_root row with Some b => a ← array b; Ok (Some a) | None => Ok None end;
  version ← match row_version row with Some b => v ← identifier b; Ok (Some v) | None => Ok None end;
  if negb (eqb (bool_decide (k = Directory)) (bool_decide (is_Some from))) || negb (eqb (bool_decide (k = File)) (bool_decide (is_Some version))) then Err Corrupt
  else
    volume ← identifier (row_volume row);
    object ← identifier (row_object row);
    Ok {| stored_volume := volume; stored_object := object; stored_kind := k; stored_root := from; stored_version := version |}.

Section opening.
Context `{Blake3} `{Unicode} `{Scan}.

Fixpoint lookup_records (db : Database) (n : NamespaceComponent) (rest d : nat) (selected : DirectoryNodeDigest) : result HandleError (list DirectoryNodeRecord) :=
  match rest with
  | O => Ok []
  | S rest' =>
      found ← map_err Namespace (load_directory_node db selected);
      r ← ok_or found Corrupt;
      child ← map_err (fun e => Namespace (DirectoryFailure e)) (selected_child r n d);
      match child with
      | None => Ok [r]
      | Some c => rs ← lookup_records db n rest' (S d) c; Ok (r :: rs)
      end
  end.

Definition lookup_entry (db : Database) (from : DirectoryNodeDigest) (n : NamespaceComponent) : result HandleError (option DirectoryEntry) :=
  records ← lookup_records db n 65 0 from;
  t ← map_err (fun e => Namespace (DirectoryFailure e)) (from_selected_records from records n);
  map_err (fun e => Namespace (DirectoryFailure e)) (Directory.lookup t n).

(** The directory a step of a path goes through. *)
Definition directory_root (db : Database) (volume object revision : N) : result HandleError DirectoryNodeDigest :=
  stored ← load_revision db revision;
  if negb (stored_volume stored =? volume) || negb (stored_object stored =? object) || negb (bool_decide (stored_kind stored = Directory)) then Err Corrupt
  else ok_or (stored_root stored) Corrupt.

Definition resolve_leaf (s : HandleStore) (branch volume commit : N) (e : DirectoryEntry) : result HandleError (option ResolvedFile) :=
  if negb (bool_decide (kind e = File)) then Ok None
  else
    let db := tables (namespace s) in
    revision ← load_revision db (object_revision_id e);
    version ← ok_or (stored_version revision) Corrupt;
    if negb (stored_volume revision =? volume) || negb (stored_object revision =? object_id e) || negb (bool_decide (stored_kind revision = File)) then Err Corrupt
    else
      head ← ok_or (branch_files (handles s) !! (Identifier.as_bytes branch, Identifier.as_bytes (object_id e))) Corrupt;
      if negb (bool_decide (bf_volume head = Identifier.as_bytes volume)) || negb (bool_decide (bf_current head = Some (Identifier.as_bytes version))) then Err Corrupt
      else
        stored ← ok_or (file_versions db !! Identifier.as_bytes version) Corrupt;
        length ← u64_column (version_length stored);
        Ok (Some {| rf_commit := commit; rf_object := object_id e; rf_revision := object_revision_id e; rf_version := version; rf_length := length |}).

Fixpoint resolve_components (s : HandleStore) (branch volume commit object revision : N) (cs : list NamespaceComponent) : result HandleError (option ResolvedFile) :=
  match cs with
  | [] => Ok None
  | c :: rest =>
      from ← directory_root (tables (namespace s)) volume object revision;
      found ← lookup_entry (tables (namespace s)) from c;
      match found, rest with
      | None, _ => Ok None
      | Some e, [] => resolve_leaf s branch volume commit e
      | Some e, _ => if bool_decide (kind e = Directory) then resolve_components s branch volume commit (object_id e) (object_revision_id e) rest else Ok None
      end
  end.

Definition resolve_file_path (s : HandleStore) (branch volume : N) (p : NamespacePath) : result HandleError (option ResolvedFile) :=
  match joined_head (tables (namespace s)) branch volume with
  | None => Ok None
  | Some (commit, root_object, root_revision) =>
      c ← identifier commit;
      object ← identifier root_object;
      revision ← identifier root_revision;
      resolve_components s branch volume c object revision (components p)
  end.

(** The names as the directories spell them. *)
Fixpoint actual_components (db : Database) (volume object revision : N) (target : ResolvedFile) (cs : list NamespaceComponent) :
    result HandleError (list NamespaceComponent) :=
  match cs with
  | [] => Ok []
  | c :: rest =>
      from ← directory_root db volume object revision;
      found ← lookup_entry db from c;
      e ← ok_or found Corrupt;
      match rest with
      | [] => if negb (object_id e =? rf_object target) || negb (object_revision_id e =? rf_revision target) then Err Corrupt else Ok [name e]
      | _ => names ← actual_components db volume (object_id e) (object_revision_id e) target rest; Ok (name e :: names)
      end
  end.

Definition resolve_actual_path (s : HandleStore) (r : OpenHandleRequest) (target : ResolvedFile) : result HandleError NamespacePath :=
  match joined_head (tables (namespace s)) (or_branch r) (or_volume r) with
  | None => Err Sqlite
  | Some (_, root_object, root_revision) =>
      object ← identifier root_object;
      revision ← identifier root_revision;
      names ← actual_components (tables (namespace s)) (or_volume r) object revision target (components (or_path r));
      map_err (fun _ => Corrupt) (from_stored_components names)
  end.

Definition update_text (t : Str) : bytes := be_bytes 8 (str_len t) ++ t.
Definition flag (x : bool) : bytes := [if x then 1 else 0].

Definition open_request_digest (r : OpenHandleRequest) : bytes :=
  blake3 (ascii_bytes "meshspan.filesystem.open-handle-request.v1" ++ [0] ++ Identifier.as_bytes (or_operation r) ++ Identifier.as_bytes (or_handle r) ++
    Identifier.as_bytes (or_branch r) ++ Identifier.as_bytes (or_volume r) ++ be_bytes 8 (len (components (or_path r))) ++
    concat (map (fun c => update_text (display c) ++ update_text (canonical c)) (components (or_path r))) ++ Identifier.as_bytes (or_principal r) ++
    be_bytes 8 (or_authorization r) ++ Identifier.as_bytes (or_gateway r) ++ [or_desired r] ++ [or_share r] ++ [disposition_code (or_disposition r)] ++
    flag (or_delete r) ++ i64_be_bytes (or_expires r) ++ i64_be_bytes (or_opened_at r)).

Definition open_result_digest_fields (operation handle : N) (request : bytes) (f : ResolvedFile) (fence : N) (truncate : bool) : bytes :=
  blake3 (ascii_bytes "meshspan.filesystem.open-handle-result.v2" ++ [0] ++ Identifier.as_bytes operation ++ Identifier.as_bytes handle ++ request ++
    Identifier.as_bytes (rf_commit f) ++ Identifier.as_bytes (rf_object f) ++ Identifier.as_bytes (rf_revision f) ++ Identifier.as_bytes (rf_version f) ++
    be_bytes 8 (rf_length f) ++ be_bytes 8 fence ++ flag truncate).

Definition load_version_length (db : Database) (version : N) : result HandleError N :=
  row ← ok_or (file_versions db !! Identifier.as_bytes version) Corrupt;
  u64_column (version_length row).

Definition decode_open_receipt (db : Database) (operation : N) (d : PublicationDisposition) (key : bytes) (r : HandleRow) : result HandleError OpenHandleReceipt :=
  request ← array (hr_request r);
  handle ← identifier key;
  branch ← identifier (hr_branch r);
  volume ← identifier (hr_volume r);
  commit ← identifier (hr_commit r);
  object ← identifier (hr_object r);
  revision ← identifier (hr_revision r);
  version ← identifier (hr_version r);
  length ← load_version_length db version;
  fence ← u64_column (hr_opened_fence r);
  desired ← u8_column (hr_desired r);
  shared ← u8_column (hr_share r);
  _ ← access_from_bits desired;
  _ ← share_from_bits shared;
  code ← u8_column (hr_disposition r);
  disposition ← disposition_from_code code;
  result ← array (hr_receipt r);
  _ ← validate_open_lineage db branch volume commit object revision version;
  let f := {| rf_commit := commit; rf_object := object; rf_revision := revision; rf_version := version; rf_length := length |} in
  if negb (fence =? 1) || negb (bool_decide (result = open_result_digest_fields operation handle request f fence (truncates_existing disposition))) then Err Corrupt
  else Ok {| oh_disposition := d; oh_operation := operation; oh_handle := handle; oh_request := request; oh_commit := commit; oh_object := object;
             oh_revision := revision; oh_version := version; oh_length := length; oh_fence := fence; oh_truncate := truncates_existing disposition; oh_result := result |}.

(** The row a unique column selects. *)
Definition selected {V : Type} (p : V -> bool) (t : gmap bytes V) : option (bytes * V) := head (map_to_list (filter (fun kr => p kr.2 = true) t)).

Definition load_open_receipt (s : HandleStore) (operation : N) (d : PublicationDisposition) : result HandleError (option OpenHandleReceipt) :=
  match selected (fun r => bool_decide (hr_operation r = Identifier.as_bytes operation)) (open_handles (handles s)) with
  | None => Ok None
  | Some (key, r) => receipt ← decode_open_receipt (tables (namespace s)) operation d key r; Ok (Some receipt)
  end.

Definition resolve_open_request (s : HandleStore) (r : OpenHandleRequest) : result HandleError (option OpenHandleReceipt) :=
  _ ← validate_open r;
  found ← load_open_receipt s (or_operation r) Replayed;
  match found with
  | None => Ok None
  | Some receipt => if bool_decide (oh_request receipt = open_request_digest r) && (oh_handle receipt =? or_handle r) then Ok (Some receipt) else Err OperationConflict
  end.

(** [(?5 & ((~share_access) & 7)) != 0 OR (desired_access & ((~?6) & 7)) != 0]. *)
Definition share_conflict (desired share : Z) (r : HandleRow) : bool :=
  negb (Z.land desired (Z.land (Z.lnot (hr_share r)) 7) =? 0)%Z || negb (Z.land (hr_desired r) (Z.land (Z.lnot share) 7) =? 0)%Z.

Definition enforce_share_modes (r : OpenHandleRequest) (object : N) : HandleTx unit :=
  h ← get_handles;
  if no_handle (fun x => on_object (Identifier.as_bytes (or_branch r)) (Identifier.as_bytes (or_volume r)) (Identifier.as_bytes object) x && live_at (or_opened_at r) x
                         && share_conflict (Z.of_N (or_desired r)) (Z.of_N (or_share r)) x) h
  then mret tt else raise SharingViolation.

Definition pending_delete (h : HandleTables) (branch volume object : bytes) : bool :=
  match pending_deletes h !! (branch, object) with Some p => bool_decide (pd_volume p = volume) | None => false end.

Definition reject_pending_delete (r : OpenHandleRequest) (object : N) : HandleTx unit :=
  h ← get_handles;
  if pending_delete h (Identifier.as_bytes (or_branch r)) (Identifier.as_bytes (or_volume r)) (Identifier.as_bytes object) then raise DeletePending else mret tt.

Definition reject_handle_collision (handle : N) : HandleTx unit :=
  h ← get_handles; if bool_decide (is_Some (open_handles h !! Identifier.as_bytes handle)) then raise OperationConflict else mret tt.

Definition handle_known (b : Branch) (h : HandleTables) (r : HandleRow) : bool :=
  bool_decide (is_Some (namespace_commits (tables b) !! hr_commit r)) && known_revision (tables b) (hr_revision r)
  && bool_decide (is_Some (file_versions (tables b) !! hr_version r)) && bool_decide (is_Some (branch_files h !! (hr_branch r, hr_object r))).

Definition insert_handle (handle : bytes) (r : HandleRow) : HandleTx unit :=
  b ← get_namespace;
  h ← get_handles;
  if bool_decide (open_handles h !! handle = None) && bool_decide (map_Forall (fun _ x => hr_operation x <> hr_operation r) (open_handles h))
     && handle_checks r && handle_known b h r
  then modify_state (on_handles (with_open_handles (<[handle := r]> (open_handles h)))) else raise Sqlite.

Definition insert_path_component (handle : bytes) (indexed : nat * NamespaceComponent) : HandleTx unit :=
  let '(index, c) := indexed in
  h ← get_handles;
  let row := component_row c in
  if bool_decide (is_Some (open_handles h !! handle)) && bool_decide (handle_paths h !! (handle, Z.of_nat index) = None) && within 0 1023 (Z.of_nat index)
     && within 1 16384 (Z.of_nat (length (co_display row))) && within 1 16384 (Z.of_nat (length (co_canonical row)))
  then modify_state (on_handles (with_handle_paths (<[(handle, Z.of_nat index) := row]> (handle_paths h)))) else raise Sqlite.

Definition opened_row (r : OpenHandleRequest) (request : bytes) (f : ResolvedFile) (authorization length : Z) : HandleRow :=
  {| hr_operation := Identifier.as_bytes (or_operation r); hr_request := request; hr_branch := Identifier.as_bytes (or_branch r);
     hr_volume := Identifier.as_bytes (or_volume r); hr_commit := Identifier.as_bytes (rf_commit f); hr_object := Identifier.as_bytes (rf_object f);
     hr_revision := Identifier.as_bytes (rf_revision f); hr_version := Identifier.as_bytes (rf_version f); hr_principal := Identifier.as_bytes (or_principal r);
     hr_authorization := authorization; hr_gateway := Identifier.as_bytes (or_gateway r); hr_opened_fence := 1; hr_fence := 1; hr_desired := Z.of_N (or_desired r);
     hr_share := Z.of_N (or_share r); hr_disposition := Z.of_N (disposition_code (or_disposition r)); hr_delete := if or_delete r then 1%Z else 0%Z;
     hr_expires := or_expires r; hr_state := 1; hr_opened_at := or_opened_at r; hr_closed_at := None;
     hr_receipt := open_result_digest_fields (or_operation r) (or_handle r) request f 1 (truncates_existing (or_disposition r)); hr_length := length |}.

Definition persist_open (r : OpenHandleRequest) (request : bytes) (f : ResolvedFile) : HandleTx OpenHandleReceipt :=
  s ← get_state;
  p ← lift (resolve_actual_path s r f);
  authorization ← lift (to_i64 (or_authorization r));
  length ← lift (if truncates_existing (or_disposition r) then Ok 0%Z else to_i64 (rf_length f));
  let row := opened_row r request f authorization length in
  _ ← insert_handle (Identifier.as_bytes (or_handle r)) row;
  _ ← traverse (insert_path_component (Identifier.as_bytes (or_handle r))) (imap pair (components p));
  mret {| oh_disposition := Applied; oh_operation := or_operation r; oh_handle := or_handle r; oh_request := request; oh_commit := rf_commit f;
          oh_object := rf_object f; oh_revision := rf_revision f; oh_version := rf_version f; oh_length := rf_length f; oh_fence := 1;
          oh_truncate := truncates_existing (or_disposition r); oh_result := hr_receipt row |}.

Definition open_existing_at (r : OpenHandleRequest) (expected_object : option N) : HandleTx OpenHandleReceipt :=
  _ ← lift (validate_open r);
  transact (
    s ← get_state;
    found ← lift (resolve_open_request s r);
    match found with
    | Some receipt => mret receipt
    | None =>
        _ ← reject_operation_collision (or_operation r);
        _ ← expire_stale_handles (or_opened_at r);
        s' ← get_state;
        resolved ← lift (resolve_file_path s' (or_branch r) (or_volume r) (or_path r));
        match resolved with
        | None => lift (absent_disposition (or_disposition r))
        | Some f =>
            if from_option (fun e => negb (e =? rf_object f)) false expected_object then raise StaleHandle
            else if bool_decide (or_disposition r = CreateNew) then raise AlreadyExists
            else
              _ ← reject_handle_collision (or_handle r);
              _ ← reject_pending_delete r (rf_object f);
              _ ← enforce_share_modes r (rf_object f);
              persist_open r (open_request_digest r) f
        end
    end).
Definition open_existing (r : OpenHandleRequest) : HandleTx OpenHandleReceipt := open_existing_at r None.

End opening.

(** ** Receipts of changes to a handle *)

Definition RENEW_OPERATION : Z := 1.
Definition CLOSE_OPERATION : Z := 2.
Definition UNLOCK_OPERATION : Z := 3.

Definition insert_mutation (operation : N) (row : MutationRow) : HandleTx unit :=
  h ← get_handles;
  let key := Identifier.as_bytes operation in
  if bool_decide (mutation_operations h !! key = None) && within 1 3 (mo_kind row) && bool_decide (is_Some (open_handles h !! mo_handle row))
     && (0 <? mo_fence row)%Z && within 1 3 (mo_code row)
  then modify_state (on_handles (with_mutation_operations (<[key := row]> (mutation_operations h)))) else raise Sqlite.

(** An [UPDATE] that must change exactly one row, and the row of a handle and fence in force. *)
Definition one_row (changed : nat) (e : HandleError) : HandleTx unit := if (changed =? 1)%nat then mret tt else raise e.
Definition held_by (handle : N) (fence now : Z) (key : bytes) (r : HandleRow) : bool :=
  bool_decide (key = Identifier.as_bytes handle) && (hr_state r =? 1)%Z && (hr_fence r =? fence)%Z && (now <? hr_expires r)%Z.

(** ** Byte-range locks *)

Record LockRangeRequest := {
  lq_operation : N; lq_lock : N; lq_handle : N; lq_fence : N; lq_principal : N; lq_gateway : N; lq_range : ByteRange; lq_kind : RangeLockKind;
  lq_lifetime : RangeLockLifetime; lq_expires : Z; lq_at : Z
}.
Record LockRangeReceipt := {
  lc_disposition : PublicationDisposition; lc_operation : N; lc_lock : N; lc_handle : N; lc_request : bytes; lc_fence : N; lc_range : ByteRange;
  lc_kind : RangeLockKind; lc_lifetime : RangeLockLifetime; lc_expires : Z; lc_result : bytes
}.
Record UnlockRangeRequest := { uq_operation : N; uq_lock : N; uq_handle : N; uq_fence : N; uq_principal : N; uq_gateway : N; uq_at : Z }.
Record UnlockRangeReceipt := {
  uc_disposition : PublicationDisposition; uc_operation : N; uc_lock : N; uc_handle : N; uc_request : bytes; uc_fence : N; uc_released_at : Z; uc_result : bytes
}.

Definition validate_lock_request (r : LockRangeRequest) : result HandleError unit :=
  if (lq_fence r =? 0) || (lq_expires r <=? lq_at r)%Z then Err InvalidInput else Ok tt.

Definition validate_lock_owner (r : LockRangeRequest) (a : ActiveHandle) : result HandleError unit :=
  if negb (ah_fence a =? lq_fence r) || negb (ah_principal a =? lq_principal r) || negb (ah_gateway a =? lq_gateway r) || (ah_expires a <? lq_expires r)%Z
     || (bool_decide (lq_lifetime r = HandleLifetime) && negb (lq_expires r =? ah_expires a)%Z)
  then Err StaleHandle
  else match lq_kind r with
       | Shared => if reads (ah_desired a) then Ok tt else Err InvalidInput
       | Exclusive => if writes (ah_desired a) then Ok tt else Err InvalidInput
       end.

Definition reject_lock_identity_collision (lock : N) : HandleTx unit :=
  h ← get_handles; if bool_decide (is_Some (range_locks h !! Identifier.as_bytes lock)) then raise OperationConflict else mret tt.

(** A lock on the object of a handle, in force, that meets a range. *)
Definition lock_meets (h : HandleTables) (a : ActiveHandle) (now start stop : Z) (l : LockRow) : bool :=
  from_option (on_object (Identifier.as_bytes (ah_branch a)) (Identifier.as_bytes (ah_volume a)) (Identifier.as_bytes (ah_object a))) false (open_handles h !! lr_handle l)
  && (lr_state l =? 1)%Z && (now <? lr_expires l)%Z && (lr_start l <? stop)%Z && (start <? lr_start l + lr_length l)%Z.

Definition reject_overlapping_lock (r : LockRangeRequest) (a : ActiveHandle) : HandleTx unit :=
  h ← get_handles;
  stop ← lift (to_i64 (range_end (lq_range r)));
  start ← lift (to_i64 (range_start (lq_range r)));
  if bool_decide (map_Forall (fun _ l => lock_meets h a (lq_at r) start stop l && (bool_decide (lq_kind r = Exclusive) || (lr_kind l =? 2)%Z) = false) (range_locks h))
  then mret tt else raise LockConflict.

Section locks.
Context `{Blake3} `{Unicode} `{Scan}.

Definition lifetime_domain (l : RangeLockLifetime) (independent bound : string) : bytes :=
  match l with Independent => ascii_bytes independent ++ [0] | HandleLifetime => ascii_bytes bound ++ [0; 2] end.

Definition lock_request_digest (r : LockRangeRequest) : bytes :=
  blake3 (lifetime_domain (lq_lifetime r) "meshspan.filesystem.lock-range-request.v1" "meshspan.filesystem.lock-range-request.v2" ++
    Identifier.as_bytes (lq_operation r) ++ Identifier.as_bytes (lq_lock r) ++ Identifier.as_bytes (lq_handle r) ++ be_bytes 8 (lq_fence r) ++
    Identifier.as_bytes (lq_principal r) ++ Identifier.as_bytes (lq_gateway r) ++ be_bytes 8 (range_start (lq_range r)) ++ be_bytes 8 (range_length (lq_range r)) ++
    [kind_code (lq_kind r)] ++ i64_be_bytes (lq_expires r) ++ i64_be_bytes (lq_at r)).

Definition lock_result_digest_fields (operation lock handle : N) (request : bytes) (fence : N) (range : ByteRange) (k : RangeLockKind) (l : RangeLockLifetime) (expires : Z) : bytes :=
  blake3 (lifetime_domain l "meshspan.filesystem.lock-range-result.v1" "meshspan.filesystem.lock-range-result.v2" ++
    Identifier.as_bytes operation ++ Identifier.as_bytes lock ++ Identifier.as_bytes handle ++ request ++ be_bytes 8 fence ++
    be_bytes 8 (range_start range) ++ be_bytes 8 (range_length range) ++ [kind_code k] ++ i64_be_bytes expires).

Definition insert_lock (lock : bytes) (row : LockRow) : HandleTx unit :=
  h ← get_handles;
  if bool_decide (range_locks h !! lock = None) && bool_decide (map_Forall (fun _ l => lr_operation l <> lr_operation row) (range_locks h))
     && bool_decide (is_Some (open_handles h !! lr_handle row)) && lock_checks row
  then modify_state (on_handles (with_range_locks (<[lock := row]> (range_locks h)))) else raise Sqlite.

Definition persist_lock (r : LockRangeRequest) (request : bytes) : HandleTx LockRangeReceipt :=
  let d := lock_result_digest_fields (lq_operation r) (lq_lock r) (lq_handle r) request (lq_fence r) (lq_range r) (lq_kind r) (lq_lifetime r) (lq_expires r) in
  fence ← lift (to_i64 (lq_fence r));
  start ← lift (to_i64 (range_start (lq_range r)));
  length ← lift (to_i64 (range_length (lq_range r)));
  let row := {| lr_operation := Identifier.as_bytes (lq_operation r); lr_request := request; lr_handle := Identifier.as_bytes (lq_handle r); lr_fence := fence;
                lr_acquired_fence := fence; lr_start := start; lr_length := length; lr_kind := Z.of_N (kind_code (lq_kind r)); lr_expires := lq_expires r;
                lr_state := 1; lr_created := lq_at r; lr_released := None; lr_receipt := d; lr_acquired_expires := lq_expires r;
                lr_lifetime := lifetime_code (lq_lifetime r) |} in
  _ ← insert_lock (Identifier.as_bytes (lq_lock r)) row;
  mret {| lc_disposition := Applied; lc_operation := lq_operation r; lc_lock := lq_lock r; lc_handle := lq_handle r; lc_request := request; lc_fence := lq_fence r;
          lc_range := lq_range r; lc_kind := lq_kind r; lc_lifetime := lq_lifetime r; lc_expires := lq_expires r; lc_result := d |}.

Definition decode_lock_receipt (operation : N) (d : PublicationDisposition) (key : bytes) (l : LockRow) : result HandleError LockRangeReceipt :=
  lock ← identifier key;
  request ← array (lr_request l);
  handle ← identifier (lr_handle l);
  fence ← u64_column (lr_acquired_fence l);
  start ← u64_column (lr_start l);
  length ← u64_column (lr_length l);
  range ← map_err (fun _ => Corrupt) (new_range start length);
  code ← u8_column (lr_kind l);
  k ← kind_from_code code;
  result ← array (lr_receipt l);
  lifetime ← lifetime_from_code (lr_lifetime l);
  if (fence =? 0) || negb (bool_decide (result = lock_result_digest_fields operation lock handle request fence range k lifetime (lr_acquired_expires l))) then Err Corrupt
  else Ok {| lc_disposition := d; lc_operation := operation; lc_lock := lock; lc_handle := handle; lc_request := request; lc_fence := fence; lc_range := range;
             lc_kind := k; lc_lifetime := lifetime; lc_expires := lr_acquired_expires l; lc_result := result |}.

Definition load_lock_receipt (h : HandleTables) (operation : N) (d : PublicationDisposition) : result HandleError (option LockRangeReceipt) :=
  match selected (fun l => bool_decide (lr_operation l = Identifier.as_bytes operation)) (range_locks h) with
  | None => Ok None
  | Some (key, l) => receipt ← decode_lock_receipt operation d key l; Ok (Some receipt)
  end.

Definition lock_range (r : LockRangeRequest) : HandleTx LockRangeReceipt :=
  _ ← lift (validate_lock_request r);
  let request := lock_request_digest r in
  transact (
    h ← get_handles;
    found ← lift (load_lock_receipt h (lq_operation r) Replayed);
    match found with
    | Some c => if (lc_lock c =? lq_lock r) && (lc_handle c =? lq_handle r) && bool_decide (lc_request c = request) then mret c else raise OperationConflict
    | None =>
        _ ← reject_operation_collision (lq_operation r);
        _ ← expire_stale_handles (lq_at r);
        a ← load_active (lq_handle r) (lq_at r);
        _ ← lift (validate_lock_owner r a);
        _ ← reject_lock_identity_collision (lq_lock r);
        _ ← reject_overlapping_lock r a;
        persist_lock r request
    end).

Definition unlock_request_digest (r : UnlockRangeRequest) : bytes :=
  blake3 (ascii_bytes "meshspan.filesystem.unlock-range-request.v1" ++ [0] ++ Identifier.as_bytes (uq_operation r) ++ Identifier.as_bytes (uq_lock r) ++
    Identifier.as_bytes (uq_handle r) ++ be_bytes 8 (uq_fence r) ++ Identifier.as_bytes (uq_principal r) ++ Identifier.as_bytes (uq_gateway r) ++ i64_be_bytes (uq_at r)).
Definition unlock_result_digest_fields (operation lock handle : N) (request : bytes) (fence : N) (released_at : Z) : bytes :=
  blake3 (ascii_bytes "meshspan.filesystem.unlock-range-result.v1" ++ [0] ++ Identifier.as_bytes operation ++ Identifier.as_bytes lock ++ Identifier.as_bytes handle ++
    request ++ be_bytes 8 fence ++ i64_be_bytes released_at).

Definition decode_unlock_receipt (operation : N) (d : PublicationDisposition) (row : MutationRow) : result HandleError UnlockRangeReceipt :=
  if negb (mo_kind row =? UNLOCK_OPERATION)%Z || negb (mo_code row =? 1)%Z then Err OperationConflict
  else
    identity ← ok_or (mo_identity row) Corrupt;
    lock ← identifier identity;
    handle ← identifier (mo_handle row);
    request ← array (mo_request row);
    fence ← u64_column (mo_fence row);
    released_at ← ok_or (mo_value row) Corrupt;
    result ← array (mo_result row);
    if (fence =? 0) || negb (bool_decide (result = unlock_result_digest_fields operation lock handle request fence released_at)) then Err Corrupt
    else Ok {| uc_disposition := d; uc_operation := operation; uc_lock := lock; uc_handle := handle; uc_request := request; uc_fence := fence;
               uc_released_at := released_at; uc_result := result |}.

Definition load_unlock_receipt (h : HandleTables) (operation : N) (d : PublicationDisposition) : result HandleError (option UnlockRangeReceipt) :=
  match mutation_operations h !! Identifier.as_bytes operation with
  | None => Ok None
  | Some row => c ← decode_unlock_receipt operation d row; Ok (Some c)
  end.

Definition validate_unlock_owner (r : UnlockRangeRequest) (a : ActiveHandle) : result HandleError unit :=
  if (ah_fence a =? uq_fence r) && (ah_principal a =? uq_principal r) && (ah_gateway a =? uq_gateway r) then Ok tt else Err StaleHandle.

Definition release_lock (r : UnlockRangeRequest) : HandleTx unit :=
  fence ← lift (to_i64 (uq_fence r));
  changed ← update_locks (fun key l => bool_decide (key = Identifier.as_bytes (uq_lock r)) && bool_decide (lr_handle l = Identifier.as_bytes (uq_handle r))
                                       && (lr_fence l =? fence)%Z && (lr_state l =? 1)%Z && (uq_at r <? lr_expires l)%Z) (end_lock 2 (uq_at r));
  one_row changed StaleLock.

Definition persist_unlock (r : UnlockRangeRequest) (request : bytes) : HandleTx UnlockRangeReceipt :=
  let d := unlock_result_digest_fields (uq_operation r) (uq_lock r) (uq_handle r) request (uq_fence r) (uq_at r) in
  fence ← lift (to_i64 (uq_fence r));
  _ ← insert_mutation (uq_operation r) {| mo_kind := UNLOCK_OPERATION; mo_handle := Identifier.as_bytes (uq_handle r); mo_request := request; mo_fence := fence; mo_code := 1;
         mo_result := d; mo_at := uq_at r; mo_value := Some (uq_at r); mo_identity := Some (Identifier.as_bytes (uq_lock r)) |};
  mret {| uc_disposition := Applied; uc_operation := uq_operation r; uc_lock := uq_lock r; uc_handle := uq_handle r; uc_request := request; uc_fence := uq_fence r;
          uc_released_at := uq_at r; uc_result := d |}.

Definition unlock_range (r : UnlockRangeRequest) : HandleTx UnlockRangeReceipt :=
  _ ← lift (if uq_fence r =? 0 then Err InvalidInput else Ok tt);
  let request := unlock_request_digest r in
  transact (
    h ← get_handles;
    found ← lift (load_unlock_receipt h (uq_operation r) Replayed);
    match found with
    | Some c => if (uc_lock c =? uq_lock r) && (uc_handle c =? uq_handle r) && bool_decide (uc_request c = request) then mret c else raise OperationConflict
    | None =>
        _ ← reject_operation_collision (uq_operation r);
        _ ← expire_stale_handles (uq_at r);
        a ← load_active (uq_handle r) (uq_at r);
        _ ← lift (validate_unlock_owner r a);
        _ ← release_lock r;
        persist_unlock r request
    end).

End locks.

(** ** Leases *)

Record HandleLeaseRequest := {
  rq_operation : N; rq_handle : N; rq_fence : N; rq_principal : N; rq_authorization : N; rq_gateway : N; rq_takeover : bool; rq_expires : Z; rq_at : Z
}.
Record HandleLeaseReceipt := {
  rc_disposition : PublicationDisposition; rc_operation : N; rc_handle : N; rc_request : bytes; rc_fence : N; rc_gateway : N; rc_expires : Z; rc_result : bytes
}.
Record CloseHandleRequest := { cq_operation : N; cq_handle : N; cq_fence : N; cq_principal : N; cq_gateway : N; cq_at : Z }.
Inductive CloseHandleOutcome := Closed | DeleteDeferred | DeleteReady.
Record CloseHandleReceipt := {
  cc_disposition : PublicationDisposition; cc_operation : N; cc_handle : N; cc_request : bytes; cc_fence : N; cc_outcome : CloseHandleOutcome; cc_at : Z; cc_result : bytes
}.

Definition outcome_code (o : CloseHandleOutcome) : N := match o with Closed => 1 | DeleteDeferred => 2 | DeleteReady => 3 end.
Definition outcome_from_code (code : N) : result HandleError CloseHandleOutcome :=
  match code with 1 => Ok Closed | 2 => Ok DeleteDeferred | 3 => Ok DeleteReady | _ => Err Corrupt end.

Definition validate_lease (r : HandleLeaseRequest) : result HandleError unit :=
  if (rq_fence r =? 0) || (rq_authorization r =? 0) || (rq_expires r <=? rq_at r)%Z then Err InvalidInput else Ok tt.

Definition validate_lease_owner (r : HandleLeaseRequest) (a : ActiveHandle) : result HandleError unit :=
  if negb (ah_handle a =? rq_handle r) || negb (ah_fence a =? rq_fence r) || negb (ah_principal a =? rq_principal r)
     || (rq_authorization r <? ah_authorization a) || (rq_expires r <? ah_expires a)%Z
  then Err StaleHandle
  else if negb (rq_takeover r) && negb (ah_gateway a =? rq_gateway r) then Err GatewayMismatch else Ok tt.

Definition update_lease (r : HandleLeaseRequest) (resulting : N) : HandleTx unit :=
  authorization ← lift (to_i64 (rq_authorization r));
  fence ← lift (to_i64 resulting);
  expected ← lift (to_i64 (rq_fence r));
  changed ← update_handles (held_by (rq_handle r) expected (rq_at r)) (set_lease (Identifier.as_bytes (rq_gateway r)) authorization fence (rq_expires r));
  _ ← one_row changed StaleHandle;
  _ ← update_locks (fun _ l => bool_decide (lr_handle l = Identifier.as_bytes (rq_handle r)) && (lr_state l =? 1)%Z && (lr_lifetime l =? 2)%Z)
        (set_lock_expires (rq_expires r));
  if rq_takeover r
  then _ ← update_locks (fun _ l => bool_decide (lr_handle l = Identifier.as_bytes (rq_handle r)) && (lr_state l =? 1)%Z) (set_lock_fence fence); mret tt
  else mret tt.

Definition validate_close_owner (r : CloseHandleRequest) (a : ActiveHandle) : result HandleError unit :=
  if (ah_handle a =? cq_handle r) && (ah_fence a =? cq_fence r) && (ah_principal a =? cq_principal r) && (ah_gateway a =? cq_gateway r) then Ok tt else Err StaleHandle.

Definition close_handle_row (r : CloseHandleRequest) : HandleTx unit :=
  fence ← lift (to_i64 (cq_fence r));
  changed ← update_handles (held_by (cq_handle r) fence (cq_at r)) (end_handle 2 (cq_at r));
  one_row changed StaleHandle.

Definition release_handle_locks (r : CloseHandleRequest) : HandleTx unit :=
  _ ← update_locks (fun _ l => bool_decide (lr_handle l = Identifier.as_bytes (cq_handle r)) && (lr_state l =? 1)%Z) (end_lock 2 (cq_at r)); mret tt.

Definition persist_pending_delete (r : CloseHandleRequest) : HandleTx unit :=
  h ← get_handles;
  let key := Identifier.as_bytes (cq_handle r) in
  match open_handles h !! key with Some row => insert_pending (cq_at r) (key, row) | None => mret tt end.

Definition advance_pending_delete (r : CloseHandleRequest) (a : ActiveHandle) : HandleTx CloseHandleOutcome :=
  h ← get_handles;
  let branch := Identifier.as_bytes (ah_branch a) in
  let volume := Identifier.as_bytes (ah_volume a) in
  let object := Identifier.as_bytes (ah_object a) in
  if negb (pending_delete h branch volume object) then mret Closed
  else if negb (no_handle (fun x => on_object branch volume object x && live_at (cq_at r) x) h) then mret DeleteDeferred
  else
    _ ← modify_state (on_handles (with_pending_deletes (updated (fun key p => bool_decide (key = (branch, object)) && (pd_state p =? 1)%Z) (set_ready (cq_at r)) (pending_deletes h))));
    mret DeleteReady.

Section leases.
Context `{Blake3} `{Unicode} `{Scan}.

Definition lease_request_digest (r : HandleLeaseRequest) : bytes :=
  blake3 (ascii_bytes "meshspan.filesystem.handle-lease-request.v1" ++ [0] ++ Identifier.as_bytes (rq_operation r) ++ Identifier.as_bytes (rq_handle r) ++
    be_bytes 8 (rq_fence r) ++ Identifier.as_bytes (rq_principal r) ++ be_bytes 8 (rq_authorization r) ++ Identifier.as_bytes (rq_gateway r) ++ flag (rq_takeover r) ++
    i64_be_bytes (rq_expires r) ++ i64_be_bytes (rq_at r)).
Definition lease_result_digest (operation handle : N) (request : bytes) (fence gateway : N) (expires : Z) : bytes :=
  blake3 (ascii_bytes "meshspan.filesystem.handle-lease-result.v1" ++ [0] ++ Identifier.as_bytes operation ++ Identifier.as_bytes handle ++ request ++ be_bytes 8 fence ++
    Identifier.as_bytes gateway ++ i64_be_bytes expires).
Definition close_request_digest (r : CloseHandleRequest) : bytes :=
  blake3 (ascii_bytes "meshspan.filesystem.close-handle-request.v1" ++ [0] ++ Identifier.as_bytes (cq_operation r) ++ Identifier.as_bytes (cq_handle r) ++
    be_bytes 8 (cq_fence r) ++ Identifier.as_bytes (cq_principal r) ++ Identifier.as_bytes (cq_gateway r) ++ i64_be_bytes (cq_at r)).
Definition close_result_digest (operation handle : N) (request : bytes) (fence : N) (o : CloseHandleOutcome) (closed_at : Z) : bytes :=
  blake3 (ascii_bytes "meshspan.filesystem.close-handle-result.v1" ++ [0] ++ Identifier.as_bytes operation ++ Identifier.as_bytes handle ++ request ++ be_bytes 8 fence ++
    [outcome_code o] ++ i64_be_bytes closed_at).

(** The locks that follow the lease of their handle. *)
Definition validate_bound_lock (h : HandleTables) (r : HandleLeaseRequest) (a : ActiveHandle) (kl : bytes * LockRow) : result HandleError unit :=
  let l := kl.2 in
  operation ← identifier (lr_operation l);
  found ← load_lock_receipt h operation Replayed;
  c ← ok_or found Corrupt;
  if negb (bool_decide (lc_lifetime c = HandleLifetime)) || negb (lc_handle c =? rq_handle r) then Err Corrupt
  else expected ← to_i64 (rq_fence r); if negb (lr_fence l =? expected)%Z || negb (lr_expires l =? ah_expires a)%Z then Err Corrupt else Ok tt.
Definition validate_handle_bound_locks (h : HandleTables) (r : HandleLeaseRequest) (a : ActiveHandle) : result HandleError unit :=
  _ ← try_map (validate_bound_lock h r a)
        (map_to_list (filter (fun kl => bool_decide (lr_handle kl.2 = Identifier.as_bytes (rq_handle r)) && (lr_state kl.2 =? 1)%Z && (lr_lifetime kl.2 =? 2)%Z = true) (range_locks h)));
  Ok tt.

Definition persist_lease_operation (r : HandleLeaseRequest) (request : bytes) (resulting : N) : HandleTx HandleLeaseReceipt :=
  let d := lease_result_digest (rq_operation r) (rq_handle r) request resulting (rq_gateway r) (rq_expires r) in
  fence ← lift (to_i64 resulting);
  _ ← insert_mutation (rq_operation r) {| mo_kind := RENEW_OPERATION; mo_handle := Identifier.as_bytes (rq_handle r); mo_request := request; mo_fence := fence; mo_code := 1;
         mo_result := d; mo_at := rq_at r; mo_value := Some (rq_expires r); mo_identity := Some (Identifier.as_bytes (rq_gateway r)) |};
  mret {| rc_disposition := Applied; rc_operation := rq_operation r; rc_handle := rq_handle r; rc_request := request; rc_fence := resulting; rc_gateway := rq_gateway r;
          rc_expires := rq_expires r; rc_result := d |}.

Definition decode_lease_receipt (operation : N) (d : PublicationDisposition) (row : MutationRow) : result HandleError HandleLeaseReceipt :=
  if negb (mo_kind row =? RENEW_OPERATION)%Z || negb (mo_code row =? 1)%Z then Err OperationConflict
  else
    handle ← identifier (mo_handle row);
    request ← array (mo_request row);
    fence ← u64_column (mo_fence row);
    result ← array (mo_result row);
    expires ← ok_or (mo_value row) Corrupt;
    identity ← ok_or (mo_identity row) Corrupt;
    gateway ← identifier identity;
    if (fence =? 0) || negb (bool_decide (result = lease_result_digest operation handle request fence gateway expires)) then Err Corrupt
    else Ok {| rc_disposition := d; rc_operation := operation; rc_handle := handle; rc_request := request; rc_fence := fence; rc_gateway := gateway;
               rc_expires := expires; rc_result := result |}.

Definition load_lease_receipt (h : HandleTables) (operation : N) (d : PublicationDisposition) : result HandleError (option HandleLeaseReceipt) :=
  match mutation_operations h !! Identifier.as_bytes operation with
  | None => Ok None
  | Some row => c ← decode_lease_receipt operation d row; Ok (Some c)
  end.

Definition renew (r : HandleLeaseRequest) : HandleTx HandleLeaseReceipt :=
  _ ← lift (validate_lease r);
  let request := lease_request_digest r in
  transact (
    h ← get_handles;
    found ← lift (load_lease_receipt h (rq_operation r) Replayed);
    match found with
    | Some c => if (rc_handle c =? rq_handle r) && bool_decide (rc_request c = request) then mret c else raise OperationConflict
    | None =>
        _ ← reject_operation_collision (rq_operation r);
        _ ← expire_stale_handles (rq_at r);
        a ← load_active (rq_handle r) (rq_at r);
        _ ← lift (validate_lease_owner r a);
        h' ← get_handles;
        _ ← lift (validate_handle_bound_locks h' r a);
        resulting ← lift (if rq_takeover r then ok_or (checked_add u64_max (rq_fence r) 1) InvalidInput else Ok (rq_fence r));
        _ ← update_lease r resulting;
        persist_lease_operation r request resulting
    end).

Definition persist_close_operation (r : CloseHandleRequest) (request : bytes) (o : CloseHandleOutcome) : HandleTx CloseHandleReceipt :=
  let d := close_result_digest (cq_operation r) (cq_handle r) request (cq_fence r) o (cq_at r) in
  fence ← lift (to_i64 (cq_fence r));
  _ ← insert_mutation (cq_operation r) {| mo_kind := CLOSE_OPERATION; mo_handle := Identifier.as_bytes (cq_handle r); mo_request := request; mo_fence := fence;
         mo_code := Z.of_N (outcome_code o); mo_result := d; mo_at := cq_at r; mo_value := Some (cq_at r); mo_identity := None |};
  mret {| cc_disposition := Applied; cc_operation := cq_operation r; cc_handle := cq_handle r; cc_request := request; cc_fence := cq_fence r; cc_outcome := o;
          cc_at := cq_at r; cc_result := d |}.

Definition decode_close_receipt (operation : N) (d : PublicationDisposition) (row : MutationRow) : result HandleError CloseHandleReceipt :=
  if negb (mo_kind row =? CLOSE_OPERATION)%Z then Err OperationConflict
  else
    handle ← identifier (mo_handle row);
    request ← array (mo_request row);
    fence ← u64_column (mo_fence row);
    code ← u8_column (mo_code row);
    o ← outcome_from_code code;
    result ← array (mo_result row);
    closed_at ← ok_or (mo_value row) Corrupt;
    if (fence =? 0) || negb (bool_decide (result = close_result_digest operation handle request fence o closed_at)) then Err Corrupt
    else Ok {| cc_disposition := d; cc_operation := operation; cc_handle := handle; cc_request := request; cc_fence := fence; cc_outcome := o; cc_at := closed_at; cc_result := result |}.

Definition resolve_close_request (h : HandleTables) (r : CloseHandleRequest) : result HandleError (option CloseHandleReceipt) :=
  if cq_fence r =? 0 then Err InvalidInput
  else
    match mutation_operations h !! Identifier.as_bytes (cq_operation r) with
    | None => Ok None
    | Some row =>
        c ← decode_close_receipt (cq_operation r) Replayed row;
        if (cc_handle c =? cq_handle r) && bool_decide (cc_request c = close_request_digest r) then Ok (Some c) else Err OperationConflict
    end.

Definition close (r : CloseHandleRequest) : HandleTx CloseHandleReceipt :=
  _ ← lift (if cq_fence r =? 0 then Err InvalidInput else Ok tt);
  transact (
    h ← get_handles;
    found ← lift (resolve_close_request h r);
    match found with
    | Some c => mret c
    | None =>
        let request := close_request_digest r in
        _ ← reject_operation_collision (cq_operation r);
        _ ← expire_stale_handles (cq_at r);
        a ← load_active (cq_handle r) (cq_at r);
        _ ← lift (validate_close_owner r a);
        _ ← close_handle_row r;
        _ ← release_handle_locks r;
        _ ← (if ah_delete a then persist_pending_delete r else mret tt);
        o ← advance_pending_delete r a;
        persist_close_operation r request o
    end).

End leases.

(** ** Length and disposition *)

Record SetHandleLengthRequest := { sl_operation : N; sl_handle : N; sl_fence : N; sl_principal : N; sl_gateway : N; sl_length : N; sl_at : Z }.
Record SetHandleDispositionRequest := { sd_operation : N; sd_handle : N; sd_fence : N; sd_principal : N; sd_gateway : N; sd_delete : bool; sd_at : Z }.
Record HandleInformationReceipt := {
  ic_disposition : PublicationDisposition; ic_operation : N; ic_handle : N; ic_request : bytes; ic_fence : N; ic_length : N; ic_delete : bool; ic_at : Z; ic_result : bytes
}.
Inductive InformationMutation := Length (r : SetHandleLengthRequest) | Disposition (r : SetHandleDispositionRequest).

Definition im_operation (m : InformationMutation) : N := match m with Length r => sl_operation r | Disposition r => sd_operation r end.
Definition im_handle (m : InformationMutation) : N := match m with Length r => sl_handle r | Disposition r => sd_handle r end.
Definition im_fence (m : InformationMutation) : N := match m with Length r => sl_fence r | Disposition r => sd_fence r end.
Definition im_principal (m : InformationMutation) : N := match m with Length r => sl_principal r | Disposition r => sd_principal r end.
Definition im_gateway (m : InformationMutation) : N := match m with Length r => sl_gateway r | Disposition r => sd_gateway r end.
Definition im_at (m : InformationMutation) : Z := match m with Length r => sl_at r | Disposition r => sd_at r end.
Definition im_kind (m : InformationMutation) : N := match m with Length _ => 1 | Disposition _ => 2 end.

Definition validate_information (m : InformationMutation) : result HandleError unit :=
  if (im_fence m =? 0) || match m with Length r => (i64_max <? Z.of_N (sl_length r))%Z | Disposition _ => false end then Err InvalidInput else Ok tt.

Definition validate_information_authority (m : InformationMutation) (a : ActiveHandle) : result HandleError unit :=
  if negb (ah_fence a =? im_fence m) || negb (ah_principal a =? im_principal m) || negb (ah_gateway a =? im_gateway m) then Err StaleHandle
  else if match m with Length _ => writes (ah_desired a) | Disposition _ => deletes (ah_desired a) end then Ok tt else Err InvalidInput.

Definition resulting_state (m : InformationMutation) (a : ActiveHandle) : N * bool :=
  match m with Length r => (sl_length r, ah_delete a) | Disposition r => (ah_length a, sd_delete r) end.

Definition bit (x : bool) : Z := if x then 1%Z else 0%Z.

Definition update_handle (m : InformationMutation) (state : N * bool) : HandleTx unit :=
  length ← lift (to_i64 state.1);
  fence ← lift (to_i64 (im_fence m));
  changed ← update_handles (held_by (im_handle m) fence (im_at m)) (set_information length (bit state.2));
  one_row changed StaleHandle.

Section information.
Context `{Blake3} `{Unicode} `{Scan}.

Definition mutation_request_digest (m : InformationMutation) : bytes :=
  blake3 (ascii_bytes "meshspan.filesystem.handle-information-request.v1" ++ [0] ++ [im_kind m] ++ Identifier.as_bytes (im_operation m) ++ Identifier.as_bytes (im_handle m) ++
    be_bytes 8 (im_fence m) ++ Identifier.as_bytes (im_principal m) ++ Identifier.as_bytes (im_gateway m) ++
    match m with Length r => be_bytes 8 (sl_length r) | Disposition r => flag (sd_delete r) end ++ i64_be_bytes (im_at m)).
Definition information_result_digest (k operation handle : N) (request : bytes) (fence : N) (state : N * bool) (changed_at : Z) : bytes :=
  blake3 (ascii_bytes "meshspan.filesystem.handle-information-result.v1" ++ [0] ++ [k] ++ Identifier.as_bytes operation ++ Identifier.as_bytes handle ++ request ++
    be_bytes 8 fence ++ be_bytes 8 state.1 ++ flag state.2 ++ i64_be_bytes changed_at).

Definition persist_information (m : InformationMutation) (request : bytes) (state : N * bool) : HandleTx HandleInformationReceipt :=
  let d := information_result_digest (im_kind m) (im_operation m) (im_handle m) request (im_fence m) state (im_at m) in
  fence ← lift (to_i64 (im_fence m));
  length ← lift (to_i64 state.1);
  h ← get_handles;
  let key := Identifier.as_bytes (im_operation m) in
  let row := {| io_kind := Z.of_N (im_kind m); io_handle := Identifier.as_bytes (im_handle m); io_request := request; io_fence := fence; io_length := length;
                io_delete := bit state.2; io_at := im_at m; io_result := d |} in
  if bool_decide (information_operations h !! key = None) && within 1 2 (io_kind row) && bool_decide (is_Some (open_handles h !! io_handle row)) && (0 <? fence)%Z
     && (0 <=? length)%Z && within 0 1 (io_delete row)
  then
    _ ← modify_state (on_handles (with_information_operations (<[key := row]> (information_operations h))));
    mret {| ic_disposition := Applied; ic_operation := im_operation m; ic_handle := im_handle m; ic_request := request; ic_fence := im_fence m; ic_length := state.1;
            ic_delete := state.2; ic_at := im_at m; ic_result := d |}
  else raise Sqlite.

Definition decode_information (operation : N) (d : PublicationDisposition) (row : InformationRow) : result HandleError HandleInformationReceipt :=
  k ← u8_column (io_kind row);
  if negb ((k =? 1) || (k =? 2)) || negb (within 0 1 (io_delete row)) then Err Corrupt
  else
    handle ← identifier (io_handle row);
    request ← array (io_request row);
    fence ← u64_column (io_fence row);
    length ← u64_column (io_length row);
    result ← array (io_result row);
    let delete := (io_delete row =? 1)%Z in
    if bool_decide (result = information_result_digest k operation handle request fence (length, delete) (io_at row))
    then Ok {| ic_disposition := d; ic_operation := operation; ic_handle := handle; ic_request := request; ic_fence := fence; ic_length := length; ic_delete := delete;
               ic_at := io_at row; ic_result := result |}
    else Err Corrupt.

Definition load_information (h : HandleTables) (operation : N) (d : PublicationDisposition) : result HandleError (option HandleInformationReceipt) :=
  match information_operations h !! Identifier.as_bytes operation with
  | None => Ok None
  | Some row => c ← decode_information operation d row; Ok (Some c)
  end.

Definition apply_information (m : InformationMutation) : HandleTx HandleInformationReceipt :=
  _ ← lift (validate_information m);
  let request := mutation_request_digest m in
  transact (
    h ← get_handles;
    found ← lift (load_information h (im_operation m) Replayed);
    match found with
    | Some c => if (ic_handle c =? im_handle m) && bool_decide (ic_request c = request) then mret c else raise OperationConflict
    | None =>
        _ ← reject_operation_collision (im_operation m);
        _ ← expire_stale_handles (im_at m);
        a ← load_active (im_handle m) (im_at m);
        _ ← lift (validate_information_authority m a);
        let state := resulting_state m a in
        _ ← update_handle m state;
        persist_information m request state
    end).
Definition set_length (r : SetHandleLengthRequest) : HandleTx HandleInformationReceipt := apply_information (Length r).
Definition set_disposition (r : SetHandleDispositionRequest) : HandleTx HandleInformationReceipt := apply_information (Disposition r).

End information.

(** ** Writes *)

Record HandleWriteAdmissionRequest := {
  wq_operation : N; wq_handle : N; wq_fence : N; wq_principal : N; wq_authorization : N; wq_gateway : N; wq_range : ByteRange; wq_content : bytes; wq_at : Z
}.
Record HandleWriteAdmissionReceipt := {
  wc_disposition : PublicationDisposition; wc_operation : N; wc_handle : N; wc_request : bytes; wc_fence : N; wc_range : ByteRange; wc_content : bytes; wc_at : Z;
  wc_result : bytes
}.

Definition validate_write (r : HandleWriteAdmissionRequest) : result HandleError unit :=
  if (wq_fence r =? 0) || (wq_authorization r =? 0) then Err InvalidInput else Ok tt.

Definition validate_write_authority (r : HandleWriteAdmissionRequest) (a : ActiveHandle) : result HandleError unit :=
  if negb (ah_fence a =? wq_fence r) || negb (ah_principal a =? wq_principal r) || negb (ah_gateway a =? wq_gateway r) || negb (ah_authorization a =? wq_authorization r)
  then Err StaleHandle
  else if writes (ah_desired a) then Ok tt else Err InvalidInput.

Definition reject_conflicting_lock (r : HandleWriteAdmissionRequest) (a : ActiveHandle) : HandleTx unit :=
  h ← get_handles;
  stop ← lift (to_i64 (range_end (wq_range r)));
  start ← lift (to_i64 (range_start (wq_range r)));
  if bool_decide (map_Forall (fun _ l => lock_meets h a (wq_at r) start stop l && negb (bool_decide (lr_handle l = Identifier.as_bytes (wq_handle r))) = false) (range_locks h))
  then mret tt else raise LockConflict.

Definition advance_working_length (r : HandleWriteAdmissionRequest) (a : ActiveHandle) : HandleTx unit :=
  length ← lift (to_i64 (N.max (ah_length a) (range_end (wq_range r))));
  fence ← lift (to_i64 (wq_fence r));
  changed ← update_handles (held_by (wq_handle r) fence (wq_at r)) (fun x => set_information length (hr_delete x) x);
  one_row changed StaleHandle.

Section writes.
Context `{Blake3} `{Unicode} `{Scan}.

Definition write_request_digest (r : HandleWriteAdmissionRequest) : bytes :=
  blake3 (ascii_bytes "meshspan.filesystem.handle-write-admission-request.v1" ++ [0] ++ Identifier.as_bytes (wq_operation r) ++ Identifier.as_bytes (wq_handle r) ++
    be_bytes 8 (wq_fence r) ++ Identifier.as_bytes (wq_principal r) ++ be_bytes 8 (wq_authorization r) ++ Identifier.as_bytes (wq_gateway r) ++
    be_bytes 8 (range_start (wq_range r)) ++ be_bytes 8 (range_length (wq_range r)) ++ wq_content r ++ i64_be_bytes (wq_at r)).
Definition write_result_digest_fields (operation handle : N) (request : bytes) (fence : N) (range : ByteRange) (content : bytes) (admitted_at : Z) : bytes :=
  blake3 (ascii_bytes "meshspan.filesystem.handle-write-admission-result.v1" ++ [0] ++ Identifier.as_bytes operation ++ Identifier.as_bytes handle ++ request ++
    be_bytes 8 fence ++ be_bytes 8 (range_start range) ++ be_bytes 8 (range_length range) ++ content ++ i64_be_bytes admitted_at).

Definition persist_admission (r : HandleWriteAdmissionRequest) (request : bytes) : HandleTx HandleWriteAdmissionReceipt :=
  let d := write_result_digest_fields (wq_operation r) (wq_handle r) request (wq_fence r) (wq_range r) (wq_content r) (wq_at r) in
  fence ← lift (to_i64 (wq_fence r));
  authorization ← lift (to_i64 (wq_authorization r));
  start ← lift (to_i64 (range_start (wq_range r)));
  length ← lift (to_i64 (range_length (wq_range r)));
  h ← get_handles;
  let key := Identifier.as_bytes (wq_operation r) in
  let row := {| wa_request := request; wa_handle := Identifier.as_bytes (wq_handle r); wa_fence := fence; wa_principal := Identifier.as_bytes (wq_principal r);
                wa_authorization := authorization; wa_gateway := Identifier.as_bytes (wq_gateway r); wa_start := start; wa_length := length;
                wa_content := wq_content r; wa_at := wq_at r; wa_receipt := d |} in
  if bool_decide (write_admissions h !! key = None) && bool_decide (is_Some (open_handles h !! wa_handle row)) && (0 <? fence)%Z && (0 <? authorization)%Z
     && (0 <=? start)%Z && (0 <? length)%Z && (start <=? i64_max - length)%Z
  then
    _ ← modify_state (on_handles (with_write_admissions (<[key := row]> (write_admissions h))));
    mret {| wc_disposition := Applied; wc_operation := wq_operation r; wc_handle := wq_handle r; wc_request := request; wc_fence := wq_fence r; wc_range := wq_range r;
            wc_content := wq_content r; wc_at := wq_at r; wc_result := d |}
  else raise Sqlite.

Definition decode_admission (operation : N) (d : PublicationDisposition) (row : AdmissionRow) : result HandleError HandleWriteAdmissionReceipt :=
  handle ← identifier (wa_handle row);
  fence ← u64_column (wa_fence row);
  start ← u64_column (wa_start row);
  length ← u64_column (wa_length row);
  range ← map_err (fun _ => Corrupt) (new_range start length);
  request ← array (wa_request row);
  content ← array (wa_content row);
  result ← array (wa_receipt row);
  if (fence =? 0) || negb (bool_decide (result = write_result_digest_fields operation handle request fence range content (wa_at row))) then Err Corrupt
  else Ok {| wc_disposition := d; wc_operation := operation; wc_handle := handle; wc_request := request; wc_fence := fence; wc_range := range; wc_content := content;
             wc_at := wa_at row; wc_result := result |}.

Definition load_admission (h : HandleTables) (operation : N) (d : PublicationDisposition) : result HandleError (option HandleWriteAdmissionReceipt) :=
  match write_admissions h !! Identifier.as_bytes operation with
  | None => Ok None
  | Some row => c ← decode_admission operation d row; Ok (Some c)
  end.

Definition admit_write (r : HandleWriteAdmissionRequest) : HandleTx HandleWriteAdmissionReceipt :=
  _ ← lift (validate_write r);
  let request := write_request_digest r in
  transact (
    h ← get_handles;
    found ← lift (load_admission h (wq_operation r) Replayed);
    match found with
    | Some c => if (wc_handle c =? wq_handle r) && bool_decide (wc_request c = request) then mret c else raise OperationConflict
    | None =>
        _ ← reject_operation_collision (wq_operation r);
        _ ← expire_stale_handles (wq_at r);
        a ← load_active (wq_handle r) (wq_at r);
        _ ← lift (validate_write_authority r a);
        _ ← reject_conflicting_lock r a;
        _ ← advance_working_length r a;
        persist_admission r request
    end).

End writes.
