(* ===== verification/HandleFacts.v ===== *)
(** What handles promise: share modes and byte-range locks are never in conflict, a fence that
    was passed on is never honoured again, and writes are admitted only beside the locks of
    others. *)

From S2P Require Import Prelude Ids Codec Work Contracts Name Directory Intent BranchStore Query Journal IntentStore Creation CreationFacts Handles.
From stdpp Require Import prelude gmap sorting list.
#[local] Open Scope N_scope.

(** ** Lineage *)

Lemma parents_of_spec edges s p : p ∈ parents_of edges s <-> exists k z, edges !! (k, z) = Some p /\ k ∈ s.
Proof.
  unfold parents_of. rewrite elem_of_list_to_set, list_elem_of_omap. split.
  - intros ([[k z] x] & Hx & Hp). case_bool_decide; [|done]. injection Hp as <-. apply elem_of_map_to_list in Hx. by exists k, z.
  - intros (k & z & He & Hk). exists ((k, z), p). split; [by apply elem_of_map_to_list|]. cbn. by rewrite bool_decide_eq_true_2.
Qed.

Definition lineage_closed (edges : gmap (bytes * Z) bytes) (s : gset bytes) : Prop := parents_of edges s ⊆ s.

Lemma lineage_fixed n edges s : lineage_closed edges s -> lineage n edges s = s.
Proof. revert s. induction n as [|n IH]; intros s Hc; [done|]. cbn [lineage]. unfold lineage_closed in Hc. replace (s ∪ parents_of edges s) with s by set_solver. by apply IH. Qed.

(** Every round adds a recorded parent, until none is missing. *)
Lemma lineage_counts n edges s :
  let targets := list_to_set (map_to_list edges).*2 : gset bytes in
  lineage_closed edges (lineage n edges s) \/ (n + size (targets ∩ s) <= size (targets ∩ lineage n edges s))%nat.
Proof.
  intros targets. revert s. induction n as [|n IH]; intros s; cbn [lineage]; [right; lia|]. destruct (decide (parents_of edges s ⊆ s)) as [Hc|Hc].
  - left. replace (s ∪ parents_of edges s) with s by set_solver. by rewrite lineage_fixed.
  - destruct (IH (s ∪ parents_of edges s)) as [?|Hn]; [by left|right]. assert (exists p, p ∈ parents_of edges s /\ p ∉ s) as (p & Hp & Hps) by (destruct (set_choose_or_empty (parents_of edges s ∖ s)) as [[p Hp]|He]; [exists p; set_solver|exfalso; apply Hc; intros p Hp; destruct (decide (p ∈ s)); [done|set_solver]]).
    assert (p ∈ targets) as Ht. { apply parents_of_spec in Hp as (k & z & He & _). apply elem_of_list_to_set, list_elem_of_fmap. exists ((k, z), p). split; [done|by apply elem_of_map_to_list]. }
    assert (size (targets ∩ s) < size (targets ∩ (s ∪ parents_of edges s)))%nat; [|lia]. apply subset_size. set_solver.
Qed.

Lemma list_set_size (l : list bytes) : (size (list_to_set l : gset bytes) <= length l)%nat.
Proof.
  induction l as [|x l IH]; [by rewrite list_to_set_nil, size_empty|]. rewrite list_to_set_cons, size_union_alt, size_singleton. cbn [length].
  assert (size (list_to_set l ∖ {[x]} : gset bytes) <= size (list_to_set l : gset bytes))%nat by (apply subseteq_size; set_solver). lia.
Qed.

(** The rounds of [validate_open_lineage] reach exactly the ancestors. *)
Lemma lineage_complete edges s : lineage_closed edges (lineage (S (size edges)) edges s) /\ s ⊆ lineage (S (size edges)) edges s.
Proof.
  split.
  - destruct (lineage_counts (S (size edges)) edges s) as [?|Hn]; [done|exfalso]. set (targets := list_to_set (map_to_list edges).*2 : gset bytes) in *.
    assert (size (targets ∩ lineage (S (size edges)) edges s) <= size targets)%nat by (apply subseteq_size; set_solver).
    assert (size targets <= size edges)%nat; [|lia]. unfold targets. etransitivity; [apply list_set_size|]. rewrite length_fmap. by rewrite length_map_to_list.
  - generalize (S (size edges)). intros n. revert s. induction n as [|n IH]; intros s; [done|]. cbn [lineage]. specialize (IH (s ∪ parents_of edges s)). set_solver.
Qed.
Lemma lineage_least n edges s c : s ⊆ c -> lineage_closed edges c -> lineage n edges s ⊆ c.
Proof.
  revert s. induction n as [|n IH]; intros s Hs Hc; [done|]. cbn [lineage]. apply IH; [|done]. apply union_least; [done|]. intros p (k & z & He & Hk)%parents_of_spec. apply Hc, parents_of_spec. exists k, z. set_solver.
Qed.

(** ** Statements *)

Lemma updated_lookup {K V : Type} `{Countable K} (p : K -> V -> bool) f (t : gmap K V) k :
  updated p f t !! k = (fun r => if p k r then f r else r) <$> t !! k.
Proof. unfold updated. rewrite map_lookup_imap. by destruct (t !! k). Qed.

Lemma updated_Some {K V : Type} `{Countable K} (p : K -> V -> bool) f (t : gmap K V) k r' :
  updated p f t !! k = Some r' <-> exists r, t !! k = Some r /\ r' = if p k r then f r else r.
Proof. rewrite updated_lookup, fmap_Some. done. Qed.

Lemma get_handles_Ok s h s' : get_handles s = (Ok h, s') -> h = handles s /\ s' = s.
Proof. by intros [= <- <-]. Qed.
Lemma get_namespace_Ok s b s' : get_namespace s = (Ok b, s') -> b = namespace s /\ s' = s.
Proof. by intros [= <- <-]. Qed.

Lemma update_locks_Ok p f s n s' :
  update_locks p f s = (Ok n, s') ->
  s' = on_handles (with_range_locks (updated p f (range_locks (handles s)))) s /\ n = size (filter (fun kr => p kr.1 kr.2 = true) (range_locks (handles s))).
Proof. unfold update_locks. intros E. apply se_bind_Ok in E as (h & s1 & (-> & ->)%get_handles_Ok & E). case_bool_decide; [|done]. by injection E as <- <-. Qed.

Lemma update_handles_Ok p f s n s' :
  update_handles p f s = (Ok n, s') ->
  s' = on_handles (with_open_handles (updated p f (open_handles (handles s)))) s /\ n = size (filter (fun kr => p kr.1 kr.2 = true) (open_handles (handles s))).
Proof. unfold update_handles. intros E. apply se_bind_Ok in E as (h & s1 & (-> & ->)%get_handles_Ok & E). case_bool_decide; [|done]. by injection E as <- <-. Qed.

Lemma one_row_Ok n e s u s' : one_row n e s = (Ok u, s') -> n = 1%nat /\ s' = s.
Proof. unfold one_row. destruct (Nat.eqb_spec n 1); [|done]. by intros [= <-]. Qed.

(** A change of the one row of a handle in force. *)
Lemma held_row {t : gmap bytes HandleRow} handle fence now :
  size (filter (fun kr => held_by handle fence now kr.1 kr.2 = true) t) = 1%nat ->
  exists r, t !! Identifier.as_bytes handle = Some r /\ active r = true /\ hr_fence r = fence /\ (now < hr_expires r)%Z.
Proof.
  intros Hn. assert (filter (fun kr => held_by handle fence now kr.1 kr.2 = true) t <> ∅) as Hne by (intros E; by rewrite E, map_size_empty in Hn).
  apply map_choose in Hne as (k & r & [Hr Hh]%map_lookup_filter_Some). cbn in Hh. unfold held_by in Hh. rewrite !andb_true_iff, bool_decide_eq_true in Hh. destruct Hh as [[[-> Hs] Hf] He].
  exists r. split_and!; [done|done|by apply Z.eqb_eq|by apply Z.ltb_lt].
Qed.

Lemma held_by_key handle fence now k r : held_by handle fence now k r = true -> k = Identifier.as_bytes handle /\ active r = true /\ hr_fence r = fence /\ (now < hr_expires r)%Z.
Proof. unfold held_by. rewrite !andb_true_iff, bool_decide_eq_true. intros [[[-> Hs] Hf] He]. split_and!; [done|done|by apply Z.eqb_eq|by apply Z.ltb_lt]. Qed.

Lemma held_by_true handle fence now r : active r = true -> hr_fence r = fence -> (now < hr_expires r)%Z -> held_by handle fence now (Identifier.as_bytes handle) r = true.
Proof. intros Ha <- He. unfold held_by. rewrite bool_decide_eq_true_2, Z.eqb_refl by done. unfold active in Ha. rewrite Ha. by apply Z.ltb_lt in He as ->. Qed.

Definition locked (l : LockRow) : bool := (lr_state l =? 1)%Z.

(** The object a handle has open. *)
Definition object_of (r : HandleRow) : bytes * bytes * bytes := (hr_branch r, hr_volume r, hr_object r).

Lemma on_object_spec branch volume object r : on_object branch volume object r = true <-> object_of r = (branch, volume, object).
Proof. unfold on_object, object_of. rewrite !andb_true_iff, !bool_decide_eq_true. naive_solver. Qed.

(** ** The invariant *)

Definition compatible (a b : HandleRow) : Prop := share_conflict (hr_desired a) (hr_share a) b = false.

Definition lock_apart (l m : LockRow) : Prop :=
  (lr_start l + lr_length l <= lr_start m)%Z \/ (lr_start m + lr_length m <= lr_start l)%Z \/ (lr_kind l <> 2%Z /\ lr_kind m <> 2%Z).

Record coherent (h : HandleTables) : Prop := {
  coherent_shares k1 r1 k2 r2 : open_handles h !! k1 = Some r1 -> open_handles h !! k2 = Some r2 -> k1 <> k2 -> active r1 = true -> active r2 = true ->
    object_of r1 = object_of r2 -> compatible r1 r2;
  coherent_owned k l : range_locks h !! k = Some l -> locked l = true ->
    exists r, open_handles h !! lr_handle l = Some r /\ active r = true /\ lr_fence l = hr_fence r /\ (lr_expires l <= hr_expires r)%Z /\
      (lr_lifetime l = 2%Z -> lr_expires l = hr_expires r);
  coherent_locks k1 l1 r1 k2 l2 r2 : range_locks h !! k1 = Some l1 -> range_locks h !! k2 = Some l2 -> k1 <> k2 -> locked l1 = true -> locked l2 = true ->
    open_handles h !! lr_handle l1 = Some r1 -> open_handles h !! lr_handle l2 = Some r2 -> object_of r1 = object_of r2 -> lock_apart l1 l2;
  coherent_ready key p k r : pending_deletes h !! key = Some p -> pd_state p = 2%Z -> open_handles h !! k = Some r -> active r = true ->
    object_of r <> (key.1, pd_volume p, key.2);
  coherent_asked k r : open_handles h !! k = Some r -> active r = false -> hr_delete r = 1%Z -> is_Some (pending_deletes h !! (hr_branch r, hr_object r))
}.

Lemma compatible_sym a b : compatible a b -> compatible b a.
Proof. unfold compatible, share_conflict. rewrite !orb_false_iff. naive_solver. Qed.
Lemma lock_apart_sym a b : lock_apart a b -> lock_apart b a.
Proof. unfold lock_apart. naive_solver. Qed.

(** Handles and locks come to an end, deletions become ready. *)
Record ends (h h' : HandleTables) : Prop := {
  ends_handles k r : open_handles h' !! k = Some r -> active r = true -> open_handles h !! k = Some r;
  ends_locks k l : range_locks h' !! k = Some l -> locked l = true -> range_locks h !! k = Some l /\ exists r, open_handles h' !! lr_handle l = Some r /\ active r = true;
  ends_ready key p : pending_deletes h' !! key = Some p -> pd_state p = 2%Z ->
    (exists p0, pending_deletes h !! key = Some p0 /\ pd_state p0 = 2%Z /\ pd_volume p0 = pd_volume p) \/
    forall k r, open_handles h' !! k = Some r -> active r = true -> object_of r <> (key.1, pd_volume p, key.2);
  ends_asked k r : open_handles h' !! k = Some r -> active r = false -> hr_delete r = 1%Z -> is_Some (pending_deletes h' !! (hr_branch r, hr_object r))
}.

Lemma ends_coherent h h' : coherent h -> ends h h' -> coherent h'.
Proof.
  intros [Cs Co Cl Cr _] [Eh El Er Ea]. split; [| | | |exact Ea].
  - intros k1 r1 k2 r2 H1 H2 Hne A1 A2. by eapply Cs; eauto.
  - intros k l Hl Ha. destruct (El _ _ Hl Ha) as (Hl0 & r & Hr & Ar). destruct (Co _ _ Hl0 Ha) as (r0 & Hr0 & Hx). exists r. split; [done|].
    pose proof (Eh _ _ Hr Ar) as Hr'. rewrite Hr0 in Hr'. by injection Hr' as <-.
  - intros k1 l1 r1 k2 l2 r2 H1 H2 Hne A1 A2 O1 O2. destruct (El _ _ H1 A1) as (L1 & x1 & X1 & Y1), (El _ _ H2 A2) as (L2 & x2 & X2 & Y2).
    rewrite O1 in X1. injection X1 as <-. rewrite O2 in X2. injection X2 as <-. by eapply Cl; eauto.
  - intros key p k r Hp Hs Hr Ha. destruct (Er _ _ Hp Hs) as [(p0 & Hp0 & Hs0 & Hv)|Hn]; [|by eapply Hn]. rewrite <- Hv. by eapply Cr; eauto.
Qed.

Lemma ends_refl h : coherent h -> ends h h.
Proof. intros [_ Co _ _ Ca]. split; [done| | |done]. - intros k l Hl Ha. destruct (Co _ _ Hl Ha) as (r & Hr & Ar & _). eauto. - intros key p Hp Hs. left. eauto. Qed.

(** ** Expiry *)

(** Requests for deletion are added. *)
Record asked (s s' : HandleStore) : Prop := {
  asked_namespace : namespace s' = namespace s;
  asked_handles : open_handles (handles s') = open_handles (handles s);
  asked_locks : range_locks (handles s') = range_locks (handles s);
  asked_old : pending_deletes (handles s) ⊆ pending_deletes (handles s');
  asked_pending key p : pending_deletes (handles s') !! key = Some p -> pending_deletes (handles s) !! key = Some p \/ pd_state p = 1%Z
}.

#[export] Instance asked_preorder : PreOrder asked.
Proof.
  split; [intros s; split; try done; by left|]. intros s1 s2 s3 [A1 A2 A3 A4 A5] [B1 B2 B3 B4 B5]. split; [congruence..|by etransitivity|].
  intros key p Hp. destruct (B5 _ _ Hp); [by apply A5|by right].
Qed.

Lemma insert_pending_Ok now kr s u s' :
  insert_pending now kr s = (Ok u, s') -> asked s s' /\ (is_Some (pending_deletes (handles s') !! (hr_branch kr.2, hr_object kr.2))).
Proof.
  destruct kr as [handle r]. unfold insert_pending. intros E. apply se_bind_Ok in E as (b & s1 & (-> & ->)%get_namespace_Ok & E). apply se_bind_Ok in E as (h & s1 & (-> & ->)%get_handles_Ok & E).
  case_bool_decide as Hp; [by injection E as <- <-|]. apply eq_None_not_Some in Hp. destruct (_ && _ && _); [|done]. injection E as <- <-. cbn [snd handles on_handles pending_deletes with_pending_deletes]. split.
  - split; try done; cbn [handles on_handles pending_deletes with_pending_deletes]; [by apply insert_subseteq|]. intros key p. rewrite lookup_insert_Some. intros [[_ <-]|[_ Hx]]; [by right|by left].
  - eexists. apply lookup_insert_eq.
Qed.

Lemma asked_is_Some s s' key : asked s s' -> is_Some (pending_deletes (handles s) !! key) -> is_Some (pending_deletes (handles s') !! key).
Proof. intros A [p Hp]. exists p. eapply lookup_weaken; [exact Hp|apply A]. Qed.

Lemma insert_pendings_Ok now rows s u s' :
  traverse (insert_pending now) rows s = (Ok u, s') -> asked s s' /\ forall kr, kr ∈ rows -> is_Some (pending_deletes (handles s') !! (hr_branch kr.2, hr_object kr.2)).
Proof.
  revert s u. induction rows as [|x rows IH]; intros s u; cbn [traverse]; [intros [= <- <-]; split; [done|set_solver]|]. intros E.
  apply se_bind_Ok in E as ([] & s1 & E1 & E). apply se_bind_Ok in E as (xs & s2 & E2 & [= <- <-]). apply insert_pending_Ok in E1 as [A1 K1]. apply IH in E2 as [A2 K2]. split; [by etransitivity|].
  intros kr [->|Hkr]%elem_of_cons; [by eapply asked_is_Some|by apply K2].
Qed.

Section facts.
Context `{Blake3} `{Unicode} `{ScanLaw}.

(** Handles and locks whose lease is over are ended and nothing else about them changes. *)
Record expired (now : Z) (s s' : HandleStore) : Prop := {
  expired_namespace : namespace s' = namespace s;
  expired_handles : open_handles (handles s') = updated (fun _ r => lapsed_at now r) (end_handle 3 now) (open_handles (handles s));
  expired_locks : range_locks (handles s') = updated (fun _ l => lock_lapsed (handles s) now l) (end_lock 3 now) (range_locks (handles s));
  expired_pending key p : pending_deletes (handles s') !! key = Some p -> pd_state p = 2%Z ->
    (exists p0, pending_deletes (handles s) !! key = Some p0 /\ pd_state p0 = 2%Z /\ pd_volume p0 = pd_volume p) \/
    no_handle (fun r => on_object key.1 (pd_volume p) key.2 r && live_at now r) (handles s') = true;
  expired_kept key : is_Some (pending_deletes (handles s) !! key) -> is_Some (pending_deletes (handles s') !! key);
  expired_asked k r : open_handles (handles s) !! k = Some r -> lapsed_at now r = true -> hr_delete r = 1%Z -> is_Some (pending_deletes (handles s') !! (hr_branch r, hr_object r))
}.

Lemma updated_is_Some {K V : Type} `{Countable K} (p : K -> V -> bool) f (t : gmap K V) k : is_Some (updated p f t !! k) <-> is_Some (t !! k).
Proof. rewrite updated_lookup. by rewrite fmap_is_Some. Qed.

Lemma expire_Ok now s u s' : expire_stale_handles now s = (Ok u, s') -> expired now s s'.
Proof.
  unfold expire_stale_handles. intros E. apply se_bind_Ok in E as (h & s1 & (-> & ->)%get_handles_Ok & E). apply se_bind_Ok in E as (n1 & s1 & E1 & E). apply update_locks_Ok in E1 as [-> _].
  apply se_bind_Ok in E as (xs & s2 & E2 & E). apply insert_pendings_Ok in E2 as [A K]. pose proof A as [A1 A2 A3 A4 A5]. cbn [on_handles handles namespace] in *.
  apply se_bind_Ok in E as (n2 & s3 & E3 & E). apply update_handles_Ok in E3 as [-> _]. apply se_bind_Ok in E as (h' & s4 & (-> & ->)%get_handles_Ok & E). injection E as _ <-. split.
  - done.
  - cbn. rewrite A2. done.
  - cbn. by rewrite A3.
  - cbn [on_handles handles pending_deletes with_pending_deletes with_open_handles]. intros key p Hp Hs. apply updated_Some in Hp as (p1 & Hp1 & ->). destruct (deletion_ready _ _ _ _) eqn:Er.
    + right. unfold deletion_ready in Er. apply andb_true_iff in Er as [_ Er]. exact Er.
    + destruct (A5 _ _ Hp1) as [Hold|H1s]; [|congruence]. left. by exists p1.
  - cbn [on_handles handles pending_deletes with_pending_deletes with_open_handles]. intros key Hk. apply updated_is_Some. by eapply asked_is_Some.
  - cbn [on_handles handles pending_deletes with_pending_deletes with_open_handles]. intros k r Hr Hl Hd. apply updated_is_Some. apply (K (k, r)). rewrite scan_permutes. apply elem_of_map_to_list, map_lookup_filter_Some.
    split; [done|]. cbn. by rewrite Hl, Hd.
Qed.

Lemma lapsed_end now r : active (end_handle 3 now r) = false.
Proof. done. Qed.
Lemma active_not_lapsed now r : active r = true -> lapsed_at now r = false -> (now < hr_expires r)%Z.
Proof. unfold lapsed_at. intros ->. cbn. by intros ?%Z.leb_gt. Qed.

Lemma expired_active now s s' k r :
  expired now s s' -> open_handles (handles s') !! k = Some r -> active r = true -> open_handles (handles s) !! k = Some r /\ (now < hr_expires r)%Z.
Proof. intros E. rewrite (expired_handles _ _ _ E), updated_Some. intros (r0 & Hr0 & ->). destruct (lapsed_at now r0) eqn:El; [done|]. intros Ha. split; [done|by apply active_not_lapsed]. Qed.

Lemma expired_locked now s s' k l :
  expired now s s' -> range_locks (handles s') !! k = Some l -> locked l = true ->
  range_locks (handles s) !! k = Some l /\ (now < lr_expires l)%Z /\ from_option (lapsed_at now) false (open_handles (handles s) !! lr_handle l) = false.
Proof.
  intros E. rewrite (expired_locks _ _ _ E), updated_Some. intros (l0 & Hl0 & ->). destruct (lock_lapsed _ _ l0) eqn:Ex; [done|]. intros Ha. split; [done|]. unfold lock_lapsed in Ex. unfold locked in Ha. rewrite Ha in Ex. cbn [andb] in Ex.
  apply orb_false_iff in Ex as [?%Z.leb_gt ?]. done.
Qed.

Lemma no_handle_spec p h : no_handle p h = true <-> forall k r, open_handles h !! k = Some r -> p r = false.
Proof. unfold no_handle. rewrite bool_decide_eq_true. done. Qed.

Lemma expired_ends now s s' : coherent (handles s) -> expired now s s' -> ends (handles s) (handles s').
Proof.
  intros [_ Co _ _ Ca] E. split.
  - intros k r Hr Ha. by destruct (expired_active _ _ _ _ _ E Hr Ha).
  - intros k l Hl Ha. destruct (expired_locked _ _ _ _ _ E Hl Ha) as (Hl0 & _ & Hx). split; [done|]. destruct (Co _ _ Hl0 Ha) as (r & Hr & Ar & _). rewrite Hr in Hx. cbn in Hx.
    exists r. split; [|done]. rewrite (expired_handles _ _ _ E), updated_Some. exists r. by rewrite Hx.
  - intros key p Hp Hs. destruct (expired_pending _ _ _ E _ _ Hp Hs) as [|Hn]; [by left|]. right. intros k r Hr Ha Hk. rewrite no_handle_spec in Hn. specialize (Hn _ _ Hr).
    destruct (expired_active _ _ _ _ _ E Hr Ha) as [_ Hlive]. apply on_object_spec in Hk. rewrite Hk in Hn. unfold live_at in Hn. rewrite Ha in Hn. apply Z.ltb_lt in Hlive. by rewrite Hlive in Hn.
  - intros k r'. rewrite (expired_handles _ _ _ E), updated_Some. intros (r & Hr & ->). destruct (lapsed_at now r) eqn:El; intros Ha Hd.
    + exact (expired_asked _ _ _ E k r Hr El Hd).
    + eapply expired_kept; [done|]. by eapply Ca.
Qed.

(** Every handle and lock in force is so at this instant. *)
Definition fresh (now : Z) (h : HandleTables) : Prop :=
  (forall k r, open_handles h !! k = Some r -> active r = true -> (now < hr_expires r)%Z) /\ (forall k l, range_locks h !! k = Some l -> locked l = true -> (now < lr_expires l)%Z).

Lemma expired_fresh now s s' : expired now s s' -> fresh now (handles s').
Proof. intros E. split; intros; [by eapply expired_active|by eapply expired_locked]. Qed.

(** ** The row behind a handle in force *)

Definition typed_row (r : HandleRow) : Prop := bytes_ok (hr_branch r) /\ bytes_ok (hr_volume r) /\ bytes_ok (hr_object r).
Definition typed (t : gmap bytes HandleRow) : Prop := map_Forall (fun _ r => typed_row r) t.

Lemma identifier_bytes b x : identifier b = Ok x -> bytes_ok b -> b = Identifier.as_bytes x.
Proof.
  unfold identifier. destruct (N.eqb_spec (len b) 16) as [El|]; [|done]. cbn [negb]. unfold Identifier.from_bytes, validate_identifier. case_bool_decide; [done|]. intros [= <-] Hb.
  unfold Identifier.as_bytes. rewrite <- (be_bytes_of_be_bytes b) at 1 by done. f_equal. unfold len in El. lia.
Qed.

Lemma u64_column_Ok z n : u64_column z = Ok n -> z = Z.of_N n.
Proof. unfold u64_column. destruct (Z.leb_spec 0 z); [|done]. intros [= <-]. lia. Qed.
Lemma u8_column_Ok z n : u8_column z = Ok n -> z = Z.of_N n.
Proof. unfold u8_column, within. destruct (Z.leb_spec 0 z); [|done]. destruct (_ && _); [|done]. intros [= <-]. lia. Qed.
Lemma handle_i64_Ok n z : to_i64 n = Ok z -> z = Z.of_N n.
Proof. unfold to_i64. destruct (_ <=? _)%Z; [|done]. by intros [= <-]. Qed.

Record row_in_force (s : HandleStore) (handle : N) (now : Z) (a : ActiveHandle) (r : HandleRow) : Prop := {
  in_force_row : open_handles (handles s) !! Identifier.as_bytes handle = Some r;
  in_force_active : active r = true;
  in_force_live : (now < hr_expires r)%Z;
  in_force_fence : hr_fence r = Z.of_N (ah_fence a);
  in_force_expires : hr_expires r = ah_expires a;
  in_force_delete : ah_delete a = (hr_delete r =? 1)%Z;
  in_force_desired : hr_desired r = Z.of_N (ah_desired a);
  in_force_object : typed_row r -> object_of r = (Identifier.as_bytes (ah_branch a), Identifier.as_bytes (ah_volume a), Identifier.as_bytes (ah_object a))
}.

Lemma load_active_Ok handle now s a s' : load_active handle now s = (Ok a, s') -> s' = s /\ exists r, row_in_force s handle now a r.
Proof.
  unfold load_active. intros E. apply se_bind_Ok in E as (b & s1 & (-> & ->)%get_namespace_Ok & E). apply se_bind_Ok in E as (h & s1 & (-> & ->)%get_handles_Ok & E).
  destruct (open_handles _ !! _) as [r|] eqn:Er; [|done]. unfold live_at in E. destruct (active r) eqn:Ea; [|done]. destruct (Z.ltb_spec now (hr_expires r)) as [Hl|]; [|done]. injection E as E <-. split; [done|].
  unfold decode_active in E. apply result_bind_Ok in E as (branch & Hb & E). apply result_bind_Ok in E as (volume & Hv & E). apply result_bind_Ok in E as (commit & _ & E). apply result_bind_Ok in E as (object & Ho & E).
  do 2 (apply result_bind_Ok in E as (? & _ & E)). apply result_bind_Ok in E as (authorization & _ & E). apply result_bind_Ok in E as (fence & Hf%u64_column_Ok & E).
  apply result_bind_Ok in E as (bits & Hbits%u8_column_Ok & E). apply result_bind_Ok in E as (desired & Hd & E). unfold access_from_bits in Hd. destruct (_ || _) in Hd; [done|]. injection Hd as ->. do 3 (apply result_bind_Ok in E as (? & _ & E)).
  destruct (_ || _); [done|]. do 3 (apply result_bind_Ok in E as (? & _ & E)). injection E as <-. exists r. split; try done.
  cbn. intros (Tb & Tv & To). unfold object_of. by rewrite (identifier_bytes _ _ Hb Tb), (identifier_bytes _ _ Hv Tv), (identifier_bytes _ _ Ho To).
Qed.

Lemma reject_collision_Ok operation s u s' : reject_operation_collision operation s = (Ok u, s') -> s' = s.
Proof.
  unfold reject_operation_collision. intros E. apply se_bind_Ok in E as (b & s1 & (-> & ->)%get_namespace_Ok & E). apply se_bind_Ok in E as (h & s1 & (-> & ->)%get_handles_Ok & E).
  match type of E with (if ?c then _ else _) _ = _ => destruct c end; [done|]. by injection E as _ <-.
Qed.

(** What the operations common to all changes of a handle lead to. *)
Lemma prefix_Ok {A : Type} operation handle now (k : ActiveHandle -> HandleTx A) s x s' :
  (_ ← reject_operation_collision operation; _ ← expire_stale_handles now; a ← load_active handle now; k a) s = (Ok x, s') ->
  exists s1 a r, expired now s s1 /\ row_in_force s1 handle now a r /\ k a s1 = (Ok x, s').
Proof.
  intros E. apply se_bind_Ok in E as ([] & s0 & ->%reject_collision_Ok & E). apply se_bind_Ok in E as ([] & s1 & Ex%expire_Ok & E). apply se_bind_Ok in E as (a & s2 & [-> [r Hr]]%load_active_Ok & E).
  by exists s1, a, r.
Qed.

(** ** Rows that last *)

Definition carried_row (r r' : HandleRow) : Prop := object_of r' = object_of r /\ (hr_fence r <= hr_fence r')%Z /\ (active r' = true -> active r = true).
Definition carried (t t' : gmap bytes HandleRow) : Prop := forall k r, t !! k = Some r -> exists r', t' !! k = Some r' /\ carried_row r r'.

#[export] Instance carried_preorder : PreOrder carried.
Proof.
  split; [intros t k r Hr; exists r; split; [done|by split_and!]|]. intros t1 t2 t3 H12 H23 k r Hr. destruct (H12 _ _ Hr) as (r2 & Hr2 & A1 & A2 & A3). destruct (H23 _ _ Hr2) as (r3 & Hr3 & B1 & B2 & B3).
  exists r3. split; [done|]. split_and!; [congruence|lia|auto].
Qed.

Lemma carried_updated p f t : (forall k r, t !! k = Some r -> p k r = true -> carried_row r (f r)) -> carried t (updated p f t).
Proof. intros Hf k r Hr. rewrite updated_lookup, Hr. cbn. eexists. split; [done|]. destruct (p k r) eqn:Ep; [by eapply Hf|by split_and!]. Qed.

Lemma typed_updated p f t : typed t -> (forall r, object_of (f r) = object_of r) -> typed (updated p f t).
Proof. intros Ht Hf k r' (r & Hr & ->)%updated_Some. specialize (Ht _ _ Hr). specialize (Hf r). unfold typed_row, object_of in *. destruct (p k r); [|done]. injection Hf as -> -> ->. done. Qed.

Lemma expired_carried now s s' : expired now s s' -> carried (open_handles (handles s)) (open_handles (handles s')).
Proof. intros E. rewrite (expired_handles _ _ _ E). apply carried_updated. intros k r _ _. split_and!; [done|cbn; lia|done]. Qed.
Lemma expired_typed now s s' : expired now s s' -> typed (open_handles (handles s)) -> typed (open_handles (handles s')).
Proof. intros E Ht. rewrite (expired_handles _ _ _ E). by apply typed_updated. Qed.

(** ** Changes in place *)

Definition same_terms (r r' : HandleRow) : Prop :=
  object_of r' = object_of r /\ hr_desired r' = hr_desired r /\ hr_share r' = hr_share r /\ active r' = active r /\ (active r = false -> r' = r).

Record retuned (h h' : HandleTables) : Prop := {
  retuned_handles k r' : open_handles h' !! k = Some r' -> exists r, open_handles h !! k = Some r /\ same_terms r r';
  retuned_locks k l' : range_locks h' !! k = Some l' -> exists l, range_locks h !! k = Some l /\ lr_handle l' = lr_handle l /\ lr_start l' = lr_start l /\
    lr_length l' = lr_length l /\ lr_kind l' = lr_kind l /\ locked l' = locked l;
  retuned_owned k l : range_locks h' !! k = Some l -> locked l = true -> exists r, open_handles h' !! lr_handle l = Some r /\ active r = true /\ lr_fence l = hr_fence r /\
    (lr_expires l <= hr_expires r)%Z /\ (lr_lifetime l = 2%Z -> lr_expires l = hr_expires r);
  retuned_pending : pending_deletes h' = pending_deletes h
}.

Lemma retuned_coherent h h' : coherent h -> retuned h h' -> coherent h'.
Proof.
  intros [Cs Co Cl Cr Ca] [Rh Rl Ro Rp]. split; [| | | |].
  - intros k1 r1 k2 r2 (a1 & G1 & O1 & D1 & S1 & A1 & _)%Rh (a2 & G2 & O2 & D2 & S2 & A2 & _)%Rh Hne X1 X2 Ho. unfold compatible, share_conflict. rewrite D1, S1, D2, S2.
    apply (Cs k1 a1 k2 a2); try done; congruence.
  - exact Ro.
  - intros k1 l1 r1 k2 l2 r2 (m1 & M1 & F1 & B1 & N1 & K1 & L1)%Rl (m2 & M2 & F2 & B2 & N2 & K2 & L2)%Rl Hne X1 X2 Hr1 Hr2 Ho. rewrite F1 in Hr1. rewrite F2 in Hr2.
    apply Rh in Hr1 as (a1 & G1 & O1 & _). apply Rh in Hr2 as (a2 & G2 & O2 & _). unfold lock_apart. rewrite B1, N1, K1, B2, N2, K2. apply (Cl k1 m1 a1 k2 m2 a2); try done; congruence.
  - rewrite Rp. intros key p k r Hp Hs (a & Ha & O & _ & _ & A & _)%Rh X. rewrite O. apply (Cr key p k a); try done. congruence.
  - rewrite Rp. intros k r (a & Ha & O & _ & _ & A & E)%Rh X Hd. rewrite X in A. symmetry in A. specialize (E A) as ->. by apply (Ca k).
Qed.

Lemma information_retuned h handle fence now f :
  coherent h -> (forall r, hr_expires (f r) = hr_expires r /\ hr_fence (f r) = hr_fence r /\ hr_desired (f r) = hr_desired r /\ hr_share (f r) = hr_share r /\ object_of (f r) = object_of r /\ hr_state (f r) = hr_state r) ->
  retuned h (with_open_handles (updated (held_by handle fence now) f (open_handles h)) h).
Proof.
  intros [_ Co _ _ _] Hf. split; cbn [open_handles range_locks pending_deletes with_open_handles]; [| | |done].
  - intros k r' (r & Hr & ->)%updated_Some. exists r. split; [done|]. destruct (held_by _ _ _ _ _) eqn:Eh; [|by split_and!]. apply held_by_key in Eh as (_ & Ea & _). destruct (Hf r) as (_ & _ & D & S & O & St).
    split_and!; [done..|unfold active; congruence|congruence].
  - intros k l Hl. by exists l.
  - intros k l Hl Ha. destruct (Co _ _ Hl Ha) as (r & Hr & Ar & F & E & L). rewrite updated_lookup, Hr. cbn. eexists. split; [done|]. destruct (held_by _ _ _ _ r); [|done]. destruct (Hf r) as (Ee & Ef & _ & _ & _ & St).
    rewrite Ee, Ef. unfold active. by rewrite St.
Qed.

Lemma renew_retuned h r fence authorization resulting r0 :
  coherent h -> open_handles h !! Identifier.as_bytes (rq_handle r) = Some r0 -> active r0 = true -> hr_fence r0 = fence -> (rq_at r < hr_expires r0)%Z -> (hr_expires r0 <= rq_expires r)%Z ->
  (rq_takeover r = false -> resulting = fence) ->
  let t := updated (held_by (rq_handle r) fence (rq_at r)) (set_lease (Identifier.as_bytes (rq_gateway r)) authorization resulting (rq_expires r)) (open_handles h) in
  let l1 := updated (fun _ l => bool_decide (lr_handle l = Identifier.as_bytes (rq_handle r)) && (lr_state l =? 1)%Z && (lr_lifetime l =? 2)%Z) (set_lock_expires (rq_expires r)) (range_locks h) in
  let l2 := if rq_takeover r then updated (fun _ l => bool_decide (lr_handle l = Identifier.as_bytes (rq_handle r)) && (lr_state l =? 1)%Z) (set_lock_fence resulting) l1 else l1 in
  retuned h (with_range_locks l2 (with_open_handles t h)).
Proof.
  intros [_ Co _ _ _] Hr0 Ha Hf Hl He Hres t l1 l2. set (key := Identifier.as_bytes (rq_handle r)) in *.
  assert (forall k l', l2 !! k = Some l' -> exists l, range_locks h !! k = Some l /\ lr_handle l' = lr_handle l /\ lr_start l' = lr_start l /\ lr_length l' = lr_length l /\ lr_kind l' = lr_kind l /\
    locked l' = locked l /\ lr_lifetime l' = lr_lifetime l /\
    lr_expires l' = (if bool_decide (lr_handle l = key) && locked l && (lr_lifetime l =? 2)%Z then rq_expires r else lr_expires l) /\
    lr_fence l' = (if rq_takeover r && (bool_decide (lr_handle l = key) && locked l) then resulting else lr_fence l)) as Hl2.
  { intros k l' Hk. unfold l2, l1, locked in *. destruct (rq_takeover r).
    - apply updated_Some in Hk as (x & (l & Hx & ->)%updated_Some & ->). exists l. split; [done|]. destruct (bool_decide (lr_handle l = key)) eqn:B1, (lr_state l =? 1)%Z eqn:B2, (lr_lifetime l =? 2)%Z eqn:B3; cbn in *; rewrite ?B1, ?B2; cbn; rewrite ?B2; by split_and!.
    - apply updated_Some in Hk as (l & Hx & ->). exists l. split; [done|]. destruct (bool_decide (lr_handle l = key)) eqn:B1, (lr_state l =? 1)%Z eqn:B2, (lr_lifetime l =? 2)%Z eqn:B3; cbn in *; rewrite ?B2; by split_and!. }
  split; cbn [open_handles range_locks pending_deletes with_open_handles with_range_locks]; [| | |done].
  - intros k r' (x & Hx & ->)%updated_Some. exists x. split; [done|]. destruct (held_by _ _ _ _ _) eqn:Eh; [|by split_and!]. apply held_by_key in Eh as (_ & Ea & _). split_and!; try done. congruence.
  - intros k l' Hk. destruct (Hl2 _ _ Hk) as (l & ? & ? & ? & ? & ? & ? & _). by exists l.
  - intros k l' Hk Hlk. destruct (Hl2 _ _ Hk) as (l & Hx & Eh & _ & _ & _ & Es & El & Ee & Ef). rewrite Es in Hlk. destruct (Co _ _ Hx Hlk) as (x & X1 & X2 & X3 & X4 & X5). rewrite Eh, El, Ee, Ef, Hlk.
    unfold t. rewrite updated_lookup, X1. cbn. eexists. split; [done|]. destruct (decide (lr_handle l = key)) as [Ek|Hk'].
    + rewrite Ek in X1 |- *. rewrite Hr0 in X1. injection X1 as <-. rewrite held_by_true by done. rewrite bool_decide_eq_true_2 by done. cbn [andb]. cbn [hr_fence hr_expires set_lease]. unfold active in *. cbn [hr_state set_lease].
      rewrite andb_true_r. split_and!; [done| | |].
      * destruct (rq_takeover r); [done|]. rewrite Hres by done. congruence.
      * destruct (Z.eqb_spec (lr_lifetime l) 2); lia.
      * intros ->. done.
    + rewrite bool_decide_eq_false_2 by done. cbn [andb]. rewrite andb_false_r. destruct (held_by _ _ _ _ _) eqn:E2; [by apply held_by_key in E2 as (? & _)|]. done.
Qed.

(** ** The operations, applied or replayed *)

Ltac binds E := repeat (apply result_bind_Ok in E as (? & _ & E)).
Ltac pass E := match type of E with (if ?c then _ else _) = _ => destruct c; try done end.

Lemma load_lock_replayed h operation d c : load_lock_receipt h operation d = Ok (Some c) -> lc_disposition c = d.
Proof.
  unfold load_lock_receipt, decode_lock_receipt. destruct (selected _ _) as [[key l]|]; [|done]. intros E. apply result_bind_Ok in E as (c' & E & [= ->]). binds E. pass E. by injection E as <-.
Qed.
Lemma load_unlock_replayed h operation d c : load_unlock_receipt h operation d = Ok (Some c) -> uc_disposition c = d.
Proof.
  unfold load_unlock_receipt, decode_unlock_receipt. destruct (_ !! _) as [row|]; [|done]. intros E. apply result_bind_Ok in E as (c' & E & [= ->]). pass E. binds E. pass E. by injection E as <-.
Qed.
Lemma load_lease_replayed h operation d c : load_lease_receipt h operation d = Ok (Some c) -> rc_disposition c = d.
Proof.
  unfold load_lease_receipt, decode_lease_receipt. destruct (_ !! _) as [row|]; [|done]. intros E. apply result_bind_Ok in E as (c' & E & [= ->]). pass E. binds E. pass E. by injection E as <-.
Qed.
Lemma resolve_close_replayed h r c : resolve_close_request h r = Ok (Some c) -> cc_disposition c = Replayed.
Proof.
  unfold resolve_close_request, decode_close_receipt. destruct (_ =? 0); [done|]. destruct (_ !! _) as [row|]; [|done]. intros E. apply result_bind_Ok in E as (c' & E & Em). destruct (_ && _); [|done]. injection Em as ->.
  pass E. binds E. pass E. by injection E as <-.
Qed.
Lemma load_information_replayed h operation d c : load_information h operation d = Ok (Some c) -> ic_disposition c = d.
Proof.
  unfold load_information, decode_information. destruct (_ !! _) as [row|]; [|done]. intros E. apply result_bind_Ok in E as (c' & E & [= ->]). apply result_bind_Ok in E as (? & _ & E). pass E. binds E. pass E. by injection E as <-.
Qed.
Lemma load_admission_replayed h operation d c : load_admission h operation d = Ok (Some c) -> wc_disposition c = d.
Proof.
  unfold load_admission, decode_admission. destruct (_ !! _) as [row|]; [|done]. intros E. apply result_bind_Ok in E as (c' & E & [= ->]). binds E. pass E. by injection E as <-.
Qed.
Lemma resolve_open_replayed s r c : resolve_open_request s r = Ok (Some c) -> oh_disposition c = Replayed.
Proof.
  unfold resolve_open_request, load_open_receipt, decode_open_receipt. intros E. apply result_bind_Ok in E as ([] & _ & E). apply result_bind_Ok in E as (found & Ef & E). destruct found as [c'|]; [|done]. destruct (_ && _); [|done]. injection E as ->.
  destruct (selected _ _) as [[key x]|]; [|done]. apply result_bind_Ok in Ef as (c1 & Ef & [= ->]). binds Ef. cbv zeta in Ef. pass Ef. by injection Ef as <-.
Qed.

(** Locking. *)
Record lock_taken (r : LockRangeRequest) (s1 : HandleStore) (a : ActiveHandle) (s' : HandleStore) (row : LockRow) : Prop := {
  taken_owner : validate_lock_owner r a = Ok tt;
  taken_clear k l : range_locks (handles s1) !! k = Some l ->
    lock_meets (handles s1) a (lq_at r) (Z.of_N (range_start (lq_range r))) (Z.of_N (range_end (lq_range r))) l && (bool_decide (lq_kind r = Exclusive) || (lr_kind l =? 2)%Z) = false;
  taken_row : locked row = true /\ lr_handle row = Identifier.as_bytes (lq_handle r) /\ lr_fence row = Z.of_N (lq_fence r) /\ lr_start row = Z.of_N (range_start (lq_range r)) /\
    lr_length row = Z.of_N (range_length (lq_range r)) /\ lr_kind row = Z.of_N (kind_code (lq_kind r)) /\ lr_expires row = lq_expires r /\ lr_lifetime row = lifetime_code (lq_lifetime r);
  taken_fresh : range_locks (handles s1) !! Identifier.as_bytes (lq_lock r) = None;
  taken_state : s' = on_handles (with_range_locks (<[Identifier.as_bytes (lq_lock r) := row]> (range_locks (handles s1)))) s1
}.

Lemma lock_range_Ok r s c s' :
  lock_range r s = (Ok c, s') ->
  (lc_disposition c = Replayed /\ s' = s) \/
  (lc_disposition c = Applied /\ exists s1 a r0 row, expired (lq_at r) s s1 /\ row_in_force s1 (lq_handle r) (lq_at r) a r0 /\ lock_taken r s1 a s' row).
Proof.
  unfold lock_range. intros E. apply se_bind_Ok in E as ([] & s0 & [= _ <-] & E). rewrite transact_Ok in E. apply se_bind_Ok in E as (h & s0 & (-> & ->)%get_handles_Ok & E).
  apply se_bind_Ok in E as (found & s0 & [= Hf <-] & E). destruct found as [c0|].
  - left. destruct (_ && _ && _); [|done]. injection E as <- <-. split; [by eapply load_lock_replayed|done].
  - right. apply prefix_Ok in E as (s1 & a & r0 & Ex & Hin & E). apply se_bind_Ok in E as ([] & s2 & [= Hv <-] & E).
    apply se_bind_Ok in E as ([] & s2 & E2 & E). unfold reject_lock_identity_collision in E2. apply se_bind_Ok in E2 as (h & s3 & (-> & ->)%get_handles_Ok & E2). case_bool_decide as Hn; [done|]. apply eq_None_not_Some in Hn. injection E2 as <-.
    apply se_bind_Ok in E as ([] & s2 & E3 & E). unfold reject_overlapping_lock in E3. apply se_bind_Ok in E3 as (h & s3 & (-> & ->)%get_handles_Ok & E3).
    apply se_bind_Ok in E3 as (stop & s3 & [= ->%handle_i64_Ok <-] & E3). apply se_bind_Ok in E3 as (start & s3 & [= ->%handle_i64_Ok <-] & E3). case_bool_decide as Hc; [|done]. injection E3 as <-.
    unfold persist_lock in E. apply se_bind_Ok in E as (fence & s3 & [= ->%handle_i64_Ok <-] & E). apply se_bind_Ok in E as (start & s3 & [= ->%handle_i64_Ok <-] & E). apply se_bind_Ok in E as (length & s3 & [= ->%handle_i64_Ok <-] & E).
    apply se_bind_Ok in E as ([] & s3 & E4 & [= <- <-]). unfold insert_lock in E4. apply se_bind_Ok in E4 as (h & s4 & (-> & ->)%get_handles_Ok & E4). destruct (_ && _ && _); [|done]. injection E4 as <-.
    split; [done|]. eexists s1, a, r0, _. split; [exact Ex|]. split; [exact Hin|]. split; [exact Hv| | |exact Hn|reflexivity]; [|by split_and!]. intros k l Hl. exact (Hc k l Hl).
Qed.

(** The receipt of a change leaves the handles, locks and deletions alone. *)
Definition settled (s s' : HandleStore) : Prop :=
  open_handles (handles s') = open_handles (handles s) /\ range_locks (handles s') = range_locks (handles s) /\ pending_deletes (handles s') = pending_deletes (handles s).

Lemma insert_mutation_Ok operation row s u s' : insert_mutation operation row s = (Ok u, s') -> settled s s'.
Proof. unfold insert_mutation. intros E. apply se_bind_Ok in E as (h & s1 & (-> & ->)%get_handles_Ok & E). destruct (_ && _ && _); [|done]. by injection E as _ <-. Qed.

Lemma settled_trans s1 s2 s3 : settled s1 s2 -> settled s2 s3 -> settled s1 s3.
Proof. unfold settled. intros (-> & -> & ->) (-> & -> & ->). done. Qed.

Lemma settled_coherent s s' : settled s s' -> coherent (handles s) -> coherent (handles s').
Proof. intros (E1 & E2 & E3) [Cs Co Cl Cr Ca]. split; rewrite ?E1, ?E2, ?E3; done. Qed.

Definition unlocked (r : UnlockRangeRequest) (t : gmap bytes LockRow) : gmap bytes LockRow :=
  updated (fun key l => bool_decide (key = Identifier.as_bytes (uq_lock r)) && bool_decide (lr_handle l = Identifier.as_bytes (uq_handle r))
             && (lr_fence l =? Z.of_N (uq_fence r))%Z && (lr_state l =? 1)%Z && (uq_at r <? lr_expires l)%Z) (end_lock 2 (uq_at r)) t.

Lemma unlock_range_Ok r s c s' :
  unlock_range r s = (Ok c, s') ->
  (uc_disposition c = Replayed /\ s' = s) \/
  (uc_disposition c = Applied /\ exists s1 a r0, expired (uq_at r) s s1 /\ row_in_force s1 (uq_handle r) (uq_at r) a r0 /\ validate_unlock_owner r a = Ok tt /\
     settled (on_handles (with_range_locks (unlocked r (range_locks (handles s1)))) s1) s').
Proof.
  unfold unlock_range. intros E. apply se_bind_Ok in E as ([] & s0 & [= _ <-] & E). rewrite transact_Ok in E. apply se_bind_Ok in E as (h & s0 & (-> & ->)%get_handles_Ok & E).
  apply se_bind_Ok in E as (found & s0 & [= Hf <-] & E). destruct found as [c0|].
  - left. destruct (_ && _ && _); [|done]. injection E as <- <-. split; [by eapply load_unlock_replayed|done].
  - right. apply prefix_Ok in E as (s1 & a & r0 & Ex & Hin & E). apply se_bind_Ok in E as ([] & s2 & [= Hv <-] & E).
    apply se_bind_Ok in E as ([] & s2 & E2 & E). unfold release_lock in E2. apply se_bind_Ok in E2 as (fence & s3 & [= ->%handle_i64_Ok <-] & E2). apply se_bind_Ok in E2 as (n & s3 & E3 & E2). apply update_locks_Ok in E3 as [-> _].
    apply one_row_Ok in E2 as [_ ->]. unfold persist_unlock in E. apply se_bind_Ok in E as (fence & s3 & [= _ <-] & E). apply se_bind_Ok in E as ([] & s3 & E4%insert_mutation_Ok & [= <- <-]).
    split; [done|]. exists s1, a, r0. split_and!; done.
Qed.

Definition resulting_fence (r : HandleLeaseRequest) : N := if rq_takeover r then rq_fence r + 1 else rq_fence r.

Record lease_taken (r : HandleLeaseRequest) (s1 s' : HandleStore) (r0 : HandleRow) : Prop := {
  lease_row : open_handles (handles s1) !! Identifier.as_bytes (rq_handle r) = Some r0 /\ active r0 = true /\ (rq_at r < hr_expires r0)%Z /\ hr_fence r0 = Z.of_N (rq_fence r) /\
    (hr_expires r0 <= rq_expires r)%Z;
  lease_state :
    let t := updated (held_by (rq_handle r) (Z.of_N (rq_fence r)) (rq_at r))
               (set_lease (Identifier.as_bytes (rq_gateway r)) (Z.of_N (rq_authorization r)) (Z.of_N (resulting_fence r)) (rq_expires r)) (open_handles (handles s1)) in
    let l1 := updated (fun _ l => bool_decide (lr_handle l = Identifier.as_bytes (rq_handle r)) && (lr_state l =? 1)%Z && (lr_lifetime l =? 2)%Z) (set_lock_expires (rq_expires r))
                (range_locks (handles s1)) in
    let l2 := if rq_takeover r then updated (fun _ l => bool_decide (lr_handle l = Identifier.as_bytes (rq_handle r)) && (lr_state l =? 1)%Z) (set_lock_fence (Z.of_N (resulting_fence r))) l1 else l1 in
    settled (on_handles (fun h => with_range_locks l2 (with_open_handles t h)) s1) s'
}.

Lemma renew_Ok r s c s' :
  renew r s = (Ok c, s') ->
  (rc_disposition c = Replayed /\ s' = s) \/
  (rc_disposition c = Applied /\ rc_fence c = resulting_fence r /\ exists s1 r0, expired (rq_at r) s s1 /\ lease_taken r s1 s' r0).
Proof.
  unfold renew. intros E. apply se_bind_Ok in E as ([] & s0 & [= _ <-] & E). rewrite transact_Ok in E. apply se_bind_Ok in E as (h & s0 & (-> & ->)%get_handles_Ok & E).
  apply se_bind_Ok in E as (found & s0 & [= Hf <-] & E). destruct found as [c0|].
  - left. destruct (_ && _); [|done]. injection E as <- <-. split; [by eapply load_lease_replayed|done].
  - right. apply prefix_Ok in E as (s1 & a & r0 & Ex & [Ir Ia Il If Ie _ _ _] & E). apply se_bind_Ok in E as ([] & s2 & [= Hv <-] & E).
    unfold validate_lease_owner in Hv. destruct (_ || _) eqn:Eo; [done|]. rewrite !orb_false_iff, !negb_false_iff, !N.eqb_eq, N.ltb_ge, Z.ltb_ge in Eo. destruct Eo as [[[[_ Ef] _] _] Ele].
    apply se_bind_Ok in E as (h & s2 & (-> & ->)%get_handles_Ok & E). apply se_bind_Ok in E as ([] & s2 & [= _ <-] & E). apply se_bind_Ok in E as (resulting & s2 & [= Hres <-] & E).
    assert (resulting = resulting_fence r) as ->.
    { unfold resulting_fence. destruct (rq_takeover r); [|by injection Hres as <-]. by apply ok_or_Ok, checked_add_Some in Hres as [-> _]. }
    apply se_bind_Ok in E as ([] & s2 & E2 & E). unfold update_lease in E2. apply se_bind_Ok in E2 as (authorization & s3 & [= ->%handle_i64_Ok <-] & E2). apply se_bind_Ok in E2 as (fence & s3 & [= ->%handle_i64_Ok <-] & E2).
    apply se_bind_Ok in E2 as (expected & s3 & [= ->%handle_i64_Ok <-] & E2). apply se_bind_Ok in E2 as (n & s3 & E3 & E2). apply update_handles_Ok in E3 as [-> _]. apply se_bind_Ok in E2 as ([] & s3 & [_ ->]%one_row_Ok & E2).
    apply se_bind_Ok in E2 as (n1 & s3 & E4 & E2). apply update_locks_Ok in E4 as [-> _].
    unfold persist_lease_operation in E. apply se_bind_Ok in E as (fence & s3 & [= _ <-] & E). apply se_bind_Ok in E as ([] & s3 & E5%insert_mutation_Ok & [= <- <-]).
    split; [done|]. split; [done|]. exists s1, r0. split; [exact Ex|]. split; [split_and!; try done; [congruence|lia]|]. cbv zeta. eapply settled_trans; [|exact E5]. destruct (rq_takeover r).
    + apply se_bind_Ok in E2 as (n2 & s3' & E6 & [= <-]). apply update_locks_Ok in E6 as [-> _]. done.
    + by injection E2 as <-.
Qed.

Record handle_closed (r : CloseHandleRequest) (s1 s' : HandleStore) (r0 : HandleRow) : Prop := {
  closed_handles : open_handles (handles s') = updated (held_by (cq_handle r) (Z.of_N (cq_fence r)) (cq_at r)) (end_handle 2 (cq_at r)) (open_handles (handles s1));
  closed_locks : range_locks (handles s') =
    updated (fun _ l => bool_decide (lr_handle l = Identifier.as_bytes (cq_handle r)) && (lr_state l =? 1)%Z) (end_lock 2 (cq_at r)) (range_locks (handles s1));
  closed_kept key : is_Some (pending_deletes (handles s1) !! key) -> is_Some (pending_deletes (handles s') !! key);
  closed_asked : hr_delete r0 = 1%Z -> is_Some (pending_deletes (handles s') !! (hr_branch r0, hr_object r0));
  closed_ready key p : pending_deletes (handles s') !! key = Some p -> pd_state p = 2%Z ->
    (exists p0, pending_deletes (handles s1) !! key = Some p0 /\ pd_state p0 = 2%Z /\ pd_volume p0 = pd_volume p) \/
    no_handle (fun x => on_object key.1 (pd_volume p) key.2 x && live_at (cq_at r) x) (handles s') = true
}.

(** Asking for the deletion and making it ready. *)
Lemma advance_pending_Ok r a s o s' :
  advance_pending_delete r a s = (Ok o, s') ->
  open_handles (handles s') = open_handles (handles s) /\ range_locks (handles s') = range_locks (handles s) /\
  (forall key, is_Some (pending_deletes (handles s) !! key) -> is_Some (pending_deletes (handles s') !! key)) /\
  forall key p, pending_deletes (handles s') !! key = Some p -> pd_state p = 2%Z ->
    (exists p0, pending_deletes (handles s) !! key = Some p0 /\ pd_state p0 = 2%Z /\ pd_volume p0 = pd_volume p) \/
    no_handle (fun x => on_object key.1 (pd_volume p) key.2 x && live_at (cq_at r) x) (handles s) = true.
Proof.
  unfold advance_pending_delete. intros E. apply se_bind_Ok in E as (h & s1 & (-> & ->)%get_handles_Ok & E). destruct (pending_delete _ _ _ _) eqn:Ep; cbn [negb] in E.
  2:{ injection E as _ <-. split_and!; try done. intros key p Hp Hs. left. by exists p. }
  destruct (no_handle _ _) eqn:En; cbn [negb] in E.
  2:{ injection E as _ <-. split_and!; try done. intros key p Hp Hs. left. by exists p. }
  apply se_bind_Ok in E as ([] & s1 & [= <-] & [= _ <-]). cbn [on_handles handles open_handles range_locks pending_deletes with_pending_deletes]. split_and!; try done; [by intros key; rewrite updated_is_Some|].
  intros key p (p0 & Hp0 & ->)%updated_Some Hs. destruct (_ && _) eqn:Ec; [|left; by exists p0]. right. apply andb_true_iff in Ec as [->%bool_decide_eq_true _]. cbn [fst snd pd_volume set_ready].
  unfold pending_delete in Ep. rewrite Hp0 in Ep. apply bool_decide_eq_true in Ep as ->. exact En.
Qed.

Lemma close_Ok r s c s' :
  close r s = (Ok c, s') ->
  (cc_disposition c = Replayed /\ s' = s) \/
  (cc_disposition c = Applied /\ exists s1 a r0, expired (cq_at r) s s1 /\ row_in_force s1 (cq_handle r) (cq_at r) a r0 /\ validate_close_owner r a = Ok tt /\ handle_closed r s1 s' r0).
Proof.
  unfold close. intros E. apply se_bind_Ok in E as ([] & s0 & [= _ <-] & E). rewrite transact_Ok in E. apply se_bind_Ok in E as (h & s0 & (-> & ->)%get_handles_Ok & E).
  apply se_bind_Ok in E as (found & s0 & [= Hf <-] & E). destruct found as [c0|]; [left; injection E as <- <-; split; [by eapply resolve_close_replayed|done]|right].
  apply prefix_Ok in E as (s1 & a & r0 & Ex & Hin & E). apply se_bind_Ok in E as ([] & s2 & [= Hv <-] & E).
  apply se_bind_Ok in E as ([] & s2 & E2 & E). unfold close_handle_row in E2. apply se_bind_Ok in E2 as (fence & s3 & [= ->%handle_i64_Ok <-] & E2). apply se_bind_Ok in E2 as (n & s3 & E3 & E2). apply update_handles_Ok in E3 as [-> _].
  apply one_row_Ok in E2 as [_ ->]. apply se_bind_Ok in E as ([] & s2 & E4 & E). unfold release_handle_locks in E4. apply se_bind_Ok in E4 as (n1 & s3 & E5 & [= <-]). apply update_locks_Ok in E5 as [-> _].
  apply se_bind_Ok in E as ([] & s2 & E6 & E). set (sm := on_handles _ (on_handles _ s1)) in *. cbn [on_handles handles] in *.
  assert (asked sm s2 /\ (hr_delete r0 = 1%Z -> is_Some (pending_deletes (handles s2) !! (hr_branch r0, hr_object r0)))) as [A Hasked].
  { rewrite (in_force_delete _ _ _ _ _ Hin) in E6. destruct (Z.eqb_spec (hr_delete r0) 1); [|injection E6 as <-; done]. unfold persist_pending_delete in E6.
    apply se_bind_Ok in E6 as (h & s3 & (-> & ->)%get_handles_Ok & E6). unfold sm in E6 at 1. cbn [on_handles handles open_handles with_range_locks with_open_handles] in E6.
    rewrite updated_lookup, (in_force_row _ _ _ _ _ Hin) in E6. cbn [fmap option_fmap option_map] in E6. apply insert_pending_Ok in E6 as [? Hk]. split; [done|]. intros _. revert Hk. cbn [snd]. by destruct (held_by _ _ _ _ r0). }
  apply se_bind_Ok in E as (o & s3 & E7 & E). apply advance_pending_Ok in E7 as (P1 & P2 & P3 & P4).
  unfold persist_close_operation in E. apply se_bind_Ok in E as (fence & s4 & [= _ <-] & E). apply se_bind_Ok in E as ([] & s4 & (Q1 & Q2 & Q3)%insert_mutation_Ok & [= <- <-]).
  split; [done|]. exists s1, a, r0. do 3 (split; [done|]). pose proof A as [B1 B2 B3 B4 B5]. split.
  - by rewrite Q1, P1, B2.
  - by rewrite Q2, P2, B3.
  - intros key Hk. rewrite Q3. apply P3. by eapply asked_is_Some.
  - intros Hd. rewrite Q3. by apply P3, Hasked.
  - intros key p. rewrite Q3. intros Hp Hs. unfold no_handle. rewrite Q1, P1. destruct (P4 _ _ Hp Hs) as [(p0 & Hp0 & Hs0 & Hv0)|Hn]; [|by right]. destruct (B5 _ _ Hp0) as [Hold|H1s]; [|congruence]. left. by exists p0.
Qed.

Lemma closed_ends r s1 s' a r0 :
  coherent (handles s1) -> fresh (cq_at r) (handles s1) -> row_in_force s1 (cq_handle r) (cq_at r) a r0 -> validate_close_owner r a = Ok tt -> handle_closed r s1 s' r0 -> ends (handles s1) (handles s').
Proof.
  intros [_ Co _ _ Ca] [Fh _] [Ir Ia Il If _ _ _ _] Hv C. unfold validate_close_owner in Hv. destruct (_ && _) eqn:Ev; [|done]. rewrite !andb_true_iff, !N.eqb_eq in Ev. destruct Ev as [[[_ Ef] _] _].
  assert (held_by (cq_handle r) (Z.of_N (cq_fence r)) (cq_at r) (Identifier.as_bytes (cq_handle r)) r0 = true) as Hheld by (apply held_by_true; [done|congruence|done]).
  split.
  - intros k x. rewrite (closed_handles _ _ _ _ C), updated_Some. intros (x0 & Hx & ->). by destruct (held_by _ _ _ k x0).
  - intros k l. rewrite (closed_locks _ _ _ _ C), updated_Some. intros (l0 & Hl0 & ->). destruct (_ && _) eqn:El; [done|]. intros Ha. split; [done|]. destruct (Co _ _ Hl0 Ha) as (x & Hx & Ax & _). exists x. split; [|done].
    rewrite (closed_handles _ _ _ _ C), updated_Some. exists x. split; [done|]. destruct (held_by _ _ _ (lr_handle l0) x) eqn:Eh; [|done]. apply held_by_key in Eh as (Ek & _). rewrite bool_decide_eq_true_2 in El by done. unfold locked in Ha. by rewrite Ha in El.
  - intros key p Hp Hs. destruct (closed_ready _ _ _ _ C _ _ Hp Hs) as [|Hn]; [by left|right]. rewrite no_handle_spec in Hn. intros k x Hx Ax Hk. specialize (Hn _ _ Hx). apply on_object_spec in Hk. rewrite Hk in Hn.
    revert Hx. rewrite (closed_handles _ _ _ _ C), updated_Some. intros (x0 & Hx0 & ->). destruct (held_by _ _ _ k x0); [done|]. pose proof (Fh _ _ Hx0 Ax) as Hlive. unfold live_at in Hn. rewrite Ax in Hn. apply Z.ltb_lt in Hlive. by rewrite Hlive in Hn.
  - intros k x. rewrite (closed_handles _ _ _ _ C), updated_Some. intros (x0 & Hx & ->). destruct (held_by _ _ _ k x0) eqn:Eh; intros Ax Hd.
    + apply held_by_key in Eh as (-> & _). rewrite Ir in Hx. injection Hx as <-. exact (closed_asked _ _ _ _ C Hd).
    + apply (closed_kept _ _ _ _ C). by eapply Ca.
Qed.

Definition informed (handle fence : N) (now : Z) (f : HandleRow -> HandleRow) (s1 s' : HandleStore) : Prop :=
  settled (on_handles (with_open_handles (updated (held_by handle (Z.of_N fence) now) f (open_handles (handles s1)))) s1) s'.

Lemma information_Ok m s c s' :
  apply_information m s = (Ok c, s') ->
  (ic_disposition c = Replayed /\ s' = s) \/
  (ic_disposition c = Applied /\ exists s1 a r0, expired (im_at m) s s1 /\ row_in_force s1 (im_handle m) (im_at m) a r0 /\ validate_information_authority m a = Ok tt /\
     informed (im_handle m) (im_fence m) (im_at m) (set_information (Z.of_N (resulting_state m a).1) (bit (resulting_state m a).2)) s1 s').
Proof.
  unfold apply_information. intros E. apply se_bind_Ok in E as ([] & s0 & [= _ <-] & E). rewrite transact_Ok in E. apply se_bind_Ok in E as (h & s0 & (-> & ->)%get_handles_Ok & E).
  apply se_bind_Ok in E as (found & s0 & [= Hf <-] & E). destruct found as [c0|].
  - left. destruct (_ && _); [|done]. injection E as <- <-. split; [by eapply load_information_replayed|done].
  - right. apply prefix_Ok in E as (s1 & a & r0 & Ex & Hin & E). apply se_bind_Ok in E as ([] & s2 & [= Hv <-] & E). apply se_bind_Ok in E as ([] & s2 & E2 & E). unfold update_handle in E2.
    apply se_bind_Ok in E2 as (length & s3 & [= ->%handle_i64_Ok <-] & E2). apply se_bind_Ok in E2 as (fence & s3 & [= ->%handle_i64_Ok <-] & E2). apply se_bind_Ok in E2 as (n & s3 & E3 & E2).
    apply update_handles_Ok in E3 as [-> _]. apply one_row_Ok in E2 as [_ ->].
    unfold persist_information in E. apply se_bind_Ok in E as (fence & s3 & [= _ <-] & E). apply se_bind_Ok in E as (length & s3 & [= _ <-] & E). apply se_bind_Ok in E as (h & s3 & (-> & ->)%get_handles_Ok & E).
    match type of E with (if ?x then _ else _) _ = _ => destruct x end; [|done]. apply se_bind_Ok in E as ([] & s3 & [= <-] & [= <- <-]). split; [done|]. exists s1, a, r0. split_and!; done.
Qed.

Lemma admit_write_Ok r s c s' :
  admit_write r s = (Ok c, s') ->
  (wc_disposition c = Replayed /\ s' = s) \/
  (wc_disposition c = Applied /\ exists s1 a r0 length, expired (wq_at r) s s1 /\ row_in_force s1 (wq_handle r) (wq_at r) a r0 /\ validate_write_authority r a = Ok tt /\
     (forall k l, range_locks (handles s1) !! k = Some l ->
        lock_meets (handles s1) a (wq_at r) (Z.of_N (range_start (wq_range r))) (Z.of_N (range_end (wq_range r))) l && negb (bool_decide (lr_handle l = Identifier.as_bytes (wq_handle r))) = false) /\
     (Z.of_N (range_end (wq_range r)) <= length)%Z /\ informed (wq_handle r) (wq_fence r) (wq_at r) (fun x => set_information length (hr_delete x) x) s1 s').
Proof.
  unfold admit_write. intros E. apply se_bind_Ok in E as ([] & s0 & [= _ <-] & E). rewrite transact_Ok in E. apply se_bind_Ok in E as (h & s0 & (-> & ->)%get_handles_Ok & E).
  apply se_bind_Ok in E as (found & s0 & [= Hf <-] & E). destruct found as [c0|].
  - left. destruct (_ && _); [|done]. injection E as <- <-. split; [by eapply load_admission_replayed|done].
  - right. apply prefix_Ok in E as (s1 & a & r0 & Ex & Hin & E). apply se_bind_Ok in E as ([] & s2 & [= Hv <-] & E). apply se_bind_Ok in E as ([] & s2 & E3 & E). unfold reject_conflicting_lock in E3.
    apply se_bind_Ok in E3 as (h & s3 & (-> & ->)%get_handles_Ok & E3). apply se_bind_Ok in E3 as (stop & s3 & [= ->%handle_i64_Ok <-] & E3). apply se_bind_Ok in E3 as (start & s3 & [= ->%handle_i64_Ok <-] & E3).
    case_bool_decide as Hc; [|done]. injection E3 as <-. apply se_bind_Ok in E as ([] & s2 & E2 & E). unfold advance_working_length in E2. apply se_bind_Ok in E2 as (length & s3 & [= Hlen%handle_i64_Ok <-] & E2).
    apply se_bind_Ok in E2 as (fence & s3 & [= ->%handle_i64_Ok <-] & E2). apply se_bind_Ok in E2 as (n & s3 & E4 & E2). apply update_handles_Ok in E4 as [-> _]. apply one_row_Ok in E2 as [_ ->].
    unfold persist_admission in E. do 4 (apply se_bind_Ok in E as (? & s3 & [= _ <-] & E)). apply se_bind_Ok in E as (h & s3 & (-> & ->)%get_handles_Ok & E).
    match type of E with (if ?x then _ else _) _ = _ => destruct x end; [|done]. apply se_bind_Ok in E as ([] & s3 & [= <-] & [= <- <-]). split; [done|]. exists s1, a, r0, length. split_and!; try done. lia.
Qed.

(** Opening. *)
Record handle_opened (r : OpenHandleRequest) (s1 : HandleStore) (object : N) (s' : HandleStore) (row : HandleRow) : Prop := {
  opened_fresh : open_handles (handles s1) !! Identifier.as_bytes (or_handle r) = None;
  opened_unasked : pending_delete (handles s1) (Identifier.as_bytes (or_branch r)) (Identifier.as_bytes (or_volume r)) (Identifier.as_bytes object) = false;
  opened_shares : no_handle (fun x => on_object (Identifier.as_bytes (or_branch r)) (Identifier.as_bytes (or_volume r)) (Identifier.as_bytes object) x && live_at (or_opened_at r) x
                    && share_conflict (Z.of_N (or_desired r)) (Z.of_N (or_share r)) x) (handles s1) = true;
  opened_terms : active row = true /\ object_of row = (Identifier.as_bytes (or_branch r), Identifier.as_bytes (or_volume r), Identifier.as_bytes object) /\
    hr_desired row = Z.of_N (or_desired r) /\ hr_share row = Z.of_N (or_share r) /\ hr_fence row = 1%Z;
  opened_state : settled (on_handles (with_open_handles (<[Identifier.as_bytes (or_handle r) := row]> (open_handles (handles s1)))) s1) s'
}.

Lemma insert_components_Ok handle cs s u s' : traverse (insert_path_component handle) cs s = (Ok u, s') -> settled s s'.
Proof.
  revert s u. induction cs as [|[i c] cs IH]; intros s u; cbn [traverse]; [by intros [= <- <-]|]. intros E. apply se_bind_Ok in E as ([] & s1 & E1 & E). apply se_bind_Ok in E as (xs & s2 & E2 & [= <- <-]).
  eapply settled_trans; [|by eapply IH]. unfold insert_path_component in E1. apply se_bind_Ok in E1 as (h & s3 & (-> & ->)%get_handles_Ok & E1).
  match type of E1 with (if ?x then _ else _) _ = _ => destruct x end; [|done]. by injection E1 as <-.
Qed.

Lemma open_Ok r expected s c s' :
  open_existing_at r expected s = (Ok c, s') ->
  (oh_disposition c = Replayed /\ s' = s) \/ (oh_disposition c = Applied /\ exists s1 row, expired (or_opened_at r) s s1 /\ handle_opened r s1 (oh_object c) s' row).
Proof.
  unfold open_existing_at. intros E. apply se_bind_Ok in E as ([] & s0 & [= _ <-] & E). rewrite transact_Ok in E. apply se_bind_Ok in E as (s0 & s0' & [= <- <-] & E).
  apply se_bind_Ok in E as (found & s0 & [= Hf <-] & E). destruct found as [c0|]; [left; injection E as <- <-; split; [by eapply resolve_open_replayed|done]|right].
  apply se_bind_Ok in E as ([] & s0 & ->%reject_collision_Ok & E). apply se_bind_Ok in E as ([] & s1 & Ex%expire_Ok & E). apply se_bind_Ok in E as (s2 & s2' & [= <- <-] & E).
  apply se_bind_Ok in E as (resolved & s2 & [= _ <-] & E). destruct resolved as [f|]; [|by unfold absent_disposition in E; destruct (or_disposition r)].
  destruct (from_option _ _ _); [done|]. case_bool_decide; [done|]. apply se_bind_Ok in E as ([] & s2 & E2 & E). unfold reject_handle_collision in E2. apply se_bind_Ok in E2 as (h & s3 & (-> & ->)%get_handles_Ok & E2).
  case_bool_decide as Hn; [done|]. apply eq_None_not_Some in Hn. injection E2 as <-. apply se_bind_Ok in E as ([] & s2 & E3 & E). unfold reject_pending_delete in E3. apply se_bind_Ok in E3 as (h & s3 & (-> & ->)%get_handles_Ok & E3).
  destruct (pending_delete _ _ _ _) eqn:Ep; [done|]. injection E3 as <-. apply se_bind_Ok in E as ([] & s2 & E4 & E). unfold enforce_share_modes in E4. apply se_bind_Ok in E4 as (h & s3 & (-> & ->)%get_handles_Ok & E4).
  destruct (no_handle _ _) eqn:En; [|done]. injection E4 as <-. unfold persist_open in E. apply se_bind_Ok in E as (s2 & s2' & [= <- <-] & E). do 3 (apply se_bind_Ok in E as (? & s2 & [= _ <-] & E)).
  apply se_bind_Ok in E as ([] & s2 & E5 & E). unfold insert_handle in E5. apply se_bind_Ok in E5 as (b & s3 & (-> & ->)%get_namespace_Ok & E5). apply se_bind_Ok in E5 as (h & s3 & (-> & ->)%get_handles_Ok & E5).
  match type of E5 with (if ?x then _ else _) _ = _ => destruct x end; [|done]. injection E5 as <-. apply se_bind_Ok in E as (xs & s2 & E6%insert_components_Ok & [= <- <-]).
  split; [done|]. eexists s1, _. split; [exact Ex|]. split; [exact Hn|exact Ep|exact En| |exact E6]. by split_and!.
Qed.

(** ** What each operation keeps *)

Definition intact (s : HandleStore) : Prop := coherent (handles s) /\ typed (open_handles (handles s)).
Definition kept (s s' : HandleStore) : Prop := (intact s -> intact s') /\ carried (open_handles (handles s)) (open_handles (handles s')).

Lemma kept_refl s : kept s s.
Proof. by split. Qed.

Lemma expired_kept_all now s s1 s' :
  expired now s s1 -> (intact s1 -> fresh now (handles s1) -> intact s') -> carried (open_handles (handles s1)) (open_handles (handles s')) -> kept s s'.
Proof.
  intros Ex Hi Hc. split.
  - intros [C T]. apply Hi; [|by eapply expired_fresh]. split; [|by eapply expired_typed]. eapply ends_coherent; [exact C|by eapply expired_ends].
  - etransitivity; [by eapply expired_carried|exact Hc].
Qed.

Lemma settled_intact s s' : settled s s' -> intact s -> intact s'.
Proof. intros St [C T]. split; [by eapply settled_coherent|]. by rewrite (proj1 St). Qed.

Lemma open_kept r expected s c s' : open_existing_at r expected s = (Ok c, s') -> kept s s'.
Proof.
  intros [[_ ->]|(_ & s1 & row & Ex & [Of Ou Os (Ta & To & Td & Ts & _) St])]%open_Ok; [apply kept_refl|]. eapply expired_kept_all; [exact Ex| |].
  - intros [[Cs Co Cl Cr Ca] T] [Fh _]. eapply settled_intact; [exact St|]. split; cbn [on_handles handles open_handles with_open_handles].
    2:{ apply map_Forall_insert_2; [|done]. unfold typed_row. unfold object_of in To. injection To as -> -> ->. split_and!; apply be_bytes_range. }
    assert (forall k x, open_handles (handles s1) !! k = Some x -> active x = true -> object_of row = object_of x -> compatible row x) as Hnew.
    { intros k x Hx Ax Ho. rewrite no_handle_spec in Os. specialize (Os _ _ Hx). rewrite To in Ho. symmetry in Ho. apply on_object_spec in Ho. rewrite Ho in Os. pose proof (Fh _ _ Hx Ax) as Hlive%Z.ltb_lt. unfold live_at in Os. rewrite Ax, Hlive in Os.
      unfold compatible. by rewrite Td, Ts. }
    split; cbn [open_handles range_locks pending_deletes with_open_handles].
    + intros k1 r1 k2 r2. rewrite !lookup_insert_Some. intros [[<- <-]|[N1 X1]] [[<- <-]|[N2 X2]] Hne A1 A2 Ho; [done|by eapply Hnew|apply compatible_sym; eapply Hnew; [exact X1|done|done]|by eapply Cs].
    + intros k l Hl Ha. destruct (Co _ _ Hl Ha) as (x & Hx & Hrest). exists x. split; [|done]. rewrite lookup_insert_ne; [done|]. intros E. rewrite <- E, Of in Hx. done.
    + intros k1 l1 r1 k2 l2 r2 L1 L2 Hne A1 A2 O1 O2. destruct (Co _ _ L1 A1) as (x1 & X1 & _), (Co _ _ L2 A2) as (x2 & X2 & _). rewrite lookup_insert_ne in O1 by (intros E; rewrite <- E, Of in X1; done).
      rewrite lookup_insert_ne in O2 by (intros E; rewrite <- E, Of in X2; done). by eapply Cl.
    + intros key p k x Hp Hs. rewrite lookup_insert_Some. intros [[_ <-]|[_ Hx]] Ax; [|by eapply Cr]. rewrite To. intros [= E1 E2 E3]. unfold pending_delete in Ou. destruct key as [kb ko]. cbn in E1, E3. rewrite E1, E3, Hp in Ou. by apply bool_decide_eq_false in Ou.
    + intros k x. rewrite lookup_insert_Some. intros [[_ <-]|[_ Hx]] Ax Hd; [congruence|by eapply Ca].
  - rewrite (proj1 St). cbn. intros k x Hx. exists x. split; [|by split_and!]. rewrite lookup_insert_ne; [done|]. intros E. rewrite <- E, Of in Hx. done.
Qed.

Lemma lock_kept r s c s' : lock_range r s = (Ok c, s') -> kept s s'.
Proof.
  intros [[_ ->]|(_ & s1 & a & r0 & row & Ex & [Ir Ia Il If Ie _ _ Io] & [Ow Cn (Rl & Rh & Rf & Rs & Rn & Rk & Re & Rt) Fr ->])]%lock_range_Ok; [apply kept_refl|]. eapply expired_kept_all; [exact Ex| |done].
  intros [[Cs Co Cl Cr Ca] T] [_ Fl]. split; [|done]. specialize (Io (T _ _ Ir)). unfold validate_lock_owner in Ow. match type of Ow with (if ?x then _ else _) = _ => destruct x eqn:Eo end; [done|]. clear Ow.
  rewrite !orb_false_iff, !negb_false_iff, !N.eqb_eq, Z.ltb_ge, andb_false_iff in Eo. destruct Eo as [[[[Ef _] _] Ele] Elt].
  assert (forall k l x, range_locks (handles s1) !! k = Some l -> locked l = true -> open_handles (handles s1) !! lr_handle l = Some x -> object_of r0 = object_of x -> lock_apart row l) as Hnew.
  { intros k l x Hl Ha Hx Ho. specialize (Cn _ _ Hl). unfold lock_meets in Cn. rewrite Hx in Cn. cbn [from_option] in Cn. rewrite Io in Ho. symmetry in Ho. apply on_object_spec in Ho. rewrite Ho in Cn. pose proof (Fl _ _ Hl Ha) as Hlive%Z.ltb_lt.
    unfold locked in Ha. rewrite Ha, Hlive in Cn. cbn [andb] in Cn. unfold lock_apart. rewrite Rs, Rn, Rk. unfold range_end in Cn.
    destruct (Z.ltb_spec (lr_start l) (Z.of_N (range_start (lq_range r) + range_length (lq_range r)))); [|left; lia]. destruct (Z.ltb_spec (Z.of_N (range_start (lq_range r))) (lr_start l + lr_length l)); [|right; left; lia].
    cbn [andb] in Cn. apply orb_false_iff in Cn as [Ck%bool_decide_eq_false Ckl%Z.eqb_neq]. right; right. split; [|done]. by destruct (lq_kind r). }
  split; cbn [on_handles handles open_handles range_locks pending_deletes with_range_locks]; try done.
  - intros k l. rewrite lookup_insert_Some. intros [[_ <-]|[_ Hl]] Ha; [|by eapply Co]. exists r0. rewrite Rh, Rf, Re, Rt, If, Ef. split_and!; try done; [lia|]. destruct (lq_lifetime r); [done|]. intros _. destruct Elt as [Elt|Elt]; [done|].
    apply negb_false_iff, Z.eqb_eq in Elt. congruence.
  - intros k1 l1 r1 k2 l2 r2. rewrite !lookup_insert_Some. intros [[<- <-]|[N1 X1]] [[<- <-]|[N2 X2]] Hne A1 A2 O1 O2 Ho; [done| | |by eapply Cl].
    + rewrite Rh, Ir in O1. injection O1 as <-. by eapply Hnew.
    + rewrite Rh, Ir in O2. injection O2 as <-. apply lock_apart_sym. eapply Hnew; [exact X1|done|exact O1|done].
Qed.

Lemma unlock_kept r s c s' : unlock_range r s = (Ok c, s') -> kept s s'.
Proof.
  intros [[_ ->]|(_ & s1 & a & r0 & Ex & Hin & Hv & St)]%unlock_range_Ok; [apply kept_refl|]. eapply expired_kept_all; [exact Ex| |by rewrite (proj1 St)].
  intros [C T] _. eapply settled_intact; [exact St|]. split; [|done]. eapply ends_coherent; [exact C|]. pose proof C as [_ Co _ _ Ca]. split; cbn [on_handles handles open_handles range_locks pending_deletes with_range_locks]; try done.
  - intros k l (l0 & Hl & ->)%updated_Some. match goal with |- locked (if ?x then _ else _) = _ -> _ => destruct x; [done|] end. intros Ha. destruct (Co _ _ Hl Ha) as (x & Hx & Ax & _). eauto.
  - intros key p Hp Hs. left. by exists p.
Qed.

Lemma renew_kept r s c s' : renew r s = (Ok c, s') -> kept s s'.
Proof.
  intros [[_ ->]|(_ & _ & s1 & r0 & Ex & [(Ir & Ia & Il & If & Ie) St])]%renew_Ok; [apply kept_refl|]. cbv zeta in St. eapply expired_kept_all; [exact Ex| |].
  - intros [C T] _. eapply settled_intact; [exact St|]. split; cbn [on_handles handles].
    + eapply retuned_coherent; [exact C|]. apply (renew_retuned _ r _ _ _ r0); try done. unfold resulting_fence. by intros ->.
    + cbn. by apply typed_updated.
  - rewrite (proj1 St). cbn. apply carried_updated. intros k x Hx (_ & Ax & Fx & _)%held_by_key. split_and!; [done| |done]. cbn. rewrite Fx. unfold resulting_fence. destruct (rq_takeover r); lia.
Qed.

Lemma close_kept r s c s' : close r s = (Ok c, s') -> kept s s'.
Proof.
  intros [[_ ->]|(_ & s1 & a & r0 & Ex & Hin & Hv & C)]%close_Ok; [apply kept_refl|]. eapply expired_kept_all; [exact Ex| |].
  - intros [Ci T] F. split; [eapply ends_coherent; [exact Ci|by eapply closed_ends]|]. rewrite (closed_handles _ _ _ _ C). by apply typed_updated.
  - rewrite (closed_handles _ _ _ _ C). apply carried_updated. intros k x _ _. split_and!; [done|cbn; lia|done].
Qed.

Lemma informed_kept handle fence now f s s1 s' :
  expired now s s1 -> (forall r, hr_expires (f r) = hr_expires r /\ hr_fence (f r) = hr_fence r /\ hr_desired (f r) = hr_desired r /\ hr_share (f r) = hr_share r /\ object_of (f r) = object_of r /\ hr_state (f r) = hr_state r) ->
  informed handle fence now f s1 s' -> kept s s'.
Proof.
  intros Ex Hf St. unfold informed in St. eapply expired_kept_all; [exact Ex| |].
  - intros [C T] _. eapply settled_intact; [exact St|]. split; cbn [on_handles handles].
    + eapply retuned_coherent; [exact C|]. by apply information_retuned.
    + cbn. apply typed_updated; [done|]. intros r. apply (Hf r).
  - rewrite (proj1 St). cbn. apply carried_updated. intros k x _ _. destruct (Hf x) as (_ & Ef & _ & _ & Eo & Es). split_and!; [done|lia|unfold active; congruence].
Qed.

Lemma information_kept m s c s' : apply_information m s = (Ok c, s') -> kept s s'.
Proof. intros [[_ ->]|(_ & s1 & a & r0 & Ex & _ & _ & St)]%information_Ok; [apply kept_refl|]. eapply informed_kept; [exact Ex| |exact St]. intros x. by split_and!. Qed.
Lemma write_kept r s c s' : admit_write r s = (Ok c, s') -> kept s s'.
Proof. intros [[_ ->]|(_ & s1 & a & r0 & length & Ex & _ & _ & _ & _ & St)]%admit_write_Ok; [apply kept_refl|]. eapply informed_kept; [exact Ex| |exact St]. intros x. by split_and!. Qed.

(** ** Histories *)

Inductive HandleOp :=
| OpenOp (r : OpenHandleRequest) (expected_object : option N)
| RenewOp (r : HandleLeaseRequest)
| CloseOp (r : CloseHandleRequest)
| LockOp (r : LockRangeRequest)
| UnlockOp (r : UnlockRangeRequest)
| InformationOp (m : InformationMutation)
| WriteOp (r : HandleWriteAdmissionRequest).

Definition perform (op : HandleOp) : HandleTx PublicationDisposition :=
  match op with
  | OpenOp r expected => c ← open_existing_at r expected; mret (oh_disposition c)
  | RenewOp r => c ← renew r; mret (rc_disposition c)
  | CloseOp r => c ← close r; mret (cc_disposition c)
  | LockOp r => c ← lock_range r; mret (lc_disposition c)
  | UnlockOp r => c ← unlock_range r; mret (uc_disposition c)
  | InformationOp m => c ← apply_information m; mret (ic_disposition c)
  | WriteOp r => c ← admit_write r; mret (wc_disposition c)
  end.

(** The handle and fence a request presents. *)
Definition presents (op : HandleOp) : option (N * N) :=
  match op with
  | OpenOp _ _ => None
  | RenewOp r => Some (rq_handle r, rq_fence r)
  | CloseOp r => Some (cq_handle r, cq_fence r)
  | LockOp r => Some (lq_handle r, lq_fence r)
  | UnlockOp r => Some (uq_handle r, uq_fence r)
  | InformationOp m => Some (im_handle m, im_fence m)
  | WriteOp r => Some (wq_handle r, wq_fence r)
  end.

(** Between the requests, publications and flushes change the tables that are theirs. *)
Inductive Event := Request (op : HandleOp) | Elsewhere (b : Branch) (progress : gmap bytes ProgressRow) (plans : gset bytes) (files : gmap (bytes * bytes) FileRow).

Definition published (b : Branch) (progress : gmap bytes ProgressRow) (plans : gset bytes) (files : gmap (bytes * bytes) FileRow) (s : HandleStore) : HandleStore :=
  let h := handles s in
  {| namespace := b;
     handles := {| open_handles := open_handles h; range_locks := range_locks h; mutation_operations := mutation_operations h; information_operations := information_operations h;
                   write_admissions := write_admissions h; pending_deletes := pending_deletes h; handle_paths := handle_paths h; flush_progress := progress; flush_plans := plans;
                   branch_files := files |} |}.
Definition happen (s : HandleStore) (e : Event) : HandleStore :=
  match e with Request op => (perform op s).2 | Elsewhere b progress plans files => published b progress plans files s end.
Definition run (events : list Event) (s : HandleStore) : HandleStore := foldl happen s events.

Lemma guarded_Err {A B : Type} (v : result HandleError A) (k : A -> HandleTx B) s e s' :
  (forall x, exists m, k x = transact m) -> (x ← lift v; k x) s = (Err e, s') -> s' = s.
Proof.
  intros Hk. unfold mbind, SE_bind, lift. destruct v as [x|x]; [|by intros [= _ <-]]. destruct (Hk x) as [m ->]. unfold transact. destruct (m s) as [[y|y] s2]; [done|by intros [= _ <-]].
Qed.

Lemma disposition_of {A : Type} (m : HandleTx A) (f : A -> PublicationDisposition) s x s' :
  (c ← m; mret (f c)) s = (x, s') -> (exists c, m s = (Ok c, s') /\ x = Ok (f c)) \/ exists e, m s = (Err e, s') /\ x = Err e.
Proof. unfold mbind, SE_bind. destruct (m s) as [[c|e] s2]; intros [= <- <-]; [left; by exists c|right; by exists e]. Qed.

Ltac refused E := refine (guarded_Err _ _ _ _ _ _ E); intros; eexists; reflexivity.

Lemma perform_kept op s x s' : perform op s = (x, s') -> kept s s'.
Proof.
  destruct op; cbn [perform]; intros [(c & E & _)|(e & E & _)]%disposition_of.
  - by eapply open_kept.
  - replace s' with s; [apply kept_refl|]. symmetry. unfold open_existing_at in E. refused E.
  - by eapply renew_kept.
  - replace s' with s; [apply kept_refl|]. symmetry. unfold renew in E. refused E.
  - by eapply close_kept.
  - replace s' with s; [apply kept_refl|]. symmetry. unfold close in E. refused E.
  - by eapply lock_kept.
  - replace s' with s; [apply kept_refl|]. symmetry. unfold lock_range in E. refused E.
  - by eapply unlock_kept.
  - replace s' with s; [apply kept_refl|]. symmetry. unfold unlock_range in E. refused E.
  - by eapply information_kept.
  - replace s' with s; [apply kept_refl|]. symmetry. unfold apply_information in E. refused E.
  - by eapply write_kept.
  - replace s' with s; [apply kept_refl|]. symmetry. unfold admit_write in E. refused E.
Qed.

Lemma run_kept events s : kept s (run events s).
Proof.
  revert s. induction events as [|e events IH]; intros s; [apply kept_refl|]. cbn [run foldl]. destruct (IH (happen s e)) as [Hi Hc]. assert (kept s (happen s e)) as [Hi1 Hc1].
  { destruct e as [op|b progress plans files]; cbn [happen]; [destruct (perform op s) eqn:Ep; by eapply perform_kept|]. split; [|done]. intros [[Cs Co Cl Cr Ca] T]. by split. }
  split; [by auto|by etransitivity].
Qed.

(** A fence older than the one of the row is not honoured. *)
Lemma stale_fence op s d s' handle fence r :
  perform op s = (Ok d, s') -> presents op = Some (handle, fence) -> open_handles (handles s) !! Identifier.as_bytes handle = Some r -> (Z.of_N fence < hr_fence r)%Z -> d = Replayed /\ s' = s.
Proof.
  assert (forall now s1 a r1, expired now s s1 -> row_in_force s1 handle now a r1 -> open_handles (handles s) !! Identifier.as_bytes handle = Some r -> (Z.of_N fence < hr_fence r)%Z -> ah_fence a <> fence) as Hno.
  { intros now s1 a r1 Ex Hin Hr Hlt Ef. destruct (expired_carried _ _ _ Ex _ _ Hr) as (r' & Hr' & _ & Hle & _). rewrite (in_force_row _ _ _ _ _ Hin) in Hr'. injection Hr' as <-. rewrite (in_force_fence _ _ _ _ _ Hin), Ef in Hle. lia. }
  destruct op as [q expected|q|q|q|q|m|q]; cbn [perform presents]; intros [(c & E & [= ->])|(e & _ & ?)]%disposition_of; try done; intros [= <- <-] Hr Hlt.
  - apply renew_Ok in E as [?|(_ & _ & s1 & r0 & Ex & [(Ir & _ & _ & If & _) _])]; [done|]. destruct (expired_carried _ _ _ Ex _ _ Hr) as (r' & Hr' & _ & Hle & _). rewrite Ir in Hr'. injection Hr' as <-. lia.
  - apply close_Ok in E as [?|(_ & s1 & a & r0 & Ex & Hin & Hv & _)]; [done|]. exfalso. apply (Hno _ _ _ _ Ex Hin Hr Hlt). unfold validate_close_owner in Hv. destruct (_ && _) eqn:Ev; [|done].
    rewrite !andb_true_iff, !N.eqb_eq in Ev. naive_solver.
  - apply lock_range_Ok in E as [?|(_ & s1 & a & r0 & row & Ex & Hin & [Hv _ _ _ _])]; [done|]. exfalso. apply (Hno _ _ _ _ Ex Hin Hr Hlt). unfold validate_lock_owner in Hv.
    destruct (N.eqb_spec (ah_fence a) (lq_fence q)); [done|by cbn in Hv].
  - apply unlock_range_Ok in E as [?|(_ & s1 & a & r0 & Ex & Hin & Hv & _)]; [done|]. exfalso. apply (Hno _ _ _ _ Ex Hin Hr Hlt). unfold validate_unlock_owner in Hv. destruct (N.eqb_spec (ah_fence a) (uq_fence q)); [done|by cbn in Hv].
  - apply information_Ok in E as [?|(_ & s1 & a & r0 & Ex & Hin & Hv & _)]; [done|]. exfalso. apply (Hno _ _ _ _ Ex Hin Hr Hlt). unfold validate_information_authority in Hv. destruct (N.eqb_spec (ah_fence a) (im_fence m)); [done|by cbn in Hv].
  - apply admit_write_Ok in E as [?|(_ & s1 & a & r0 & length & Ex & Hin & Hv & _)]; [done|]. exfalso. apply (Hno _ _ _ _ Ex Hin Hr Hlt). unfold validate_write_authority in Hv. destruct (N.eqb_spec (ah_fence a) (wq_fence q)); [done|by cbn in Hv].
Qed.

Definition no_handles (h : HandleTables) : Prop := open_handles h = ∅ /\ range_locks h = ∅ /\ pending_deletes h = ∅.

Lemma no_handles_intact b h : no_handles h -> intact {| namespace := b; handles := h |}.
Proof. intros (E1 & E2 & E3). split; [split|]; cbn [handles]; rewrite ?E1, ?E2, ?E3; [intros *; by rewrite lookup_empty..|apply map_Forall_empty]. Qed.


(** C11: A fence that was passed is never honoured again.  An applied takeover raises the fence of
    the handle by one and an applied renewal keeps it; whatever happens afterwards, a request that
    presents an older fence of the handle is refused, or is the replay of an earlier request and
    changes nothing. *)
Theorem takeover_fences r s c s1 :
  renew r s = (Ok c, s1) -> rc_disposition c = Applied ->
  rc_fence c = (if rq_takeover r then rq_fence r + 1 else rq_fence r) /\
  forall events op d s2 fence,
    perform op (run events s1) = (Ok d, s2) -> presents op = Some (rq_handle r, fence) -> fence < rc_fence c ->
    d = Replayed /\ s2 = run events s1.
Proof.
  intros E Ha. apply renew_Ok in E as [[Hr _]|(_ & Hf & s0 & r0 & Ex & [(Ir & Ia & Il & If & Ie) St])]; [congruence|]. cbv zeta in St.
  split; [exact Hf|]. intros events op d s2 fence Ep Hp Hlt.
  assert (exists r1, open_handles (handles s1) !! Identifier.as_bytes (rq_handle r) = Some r1 /\ hr_fence r1 = Z.of_N (rc_fence c)) as (r1 & Hr1 & Hf1).
  { rewrite (proj1 St). cbn. rewrite updated_lookup, Ir. cbn. rewrite held_by_true by done. eexists. split; [done|]. cbn. by rewrite Hf. }
  destruct (proj2 (run_kept events s1) _ _ Hr1) as (r2 & Hr2 & _ & Hle & _). eapply stale_fence; [exact Ep|exact Hp|exact Hr2|]. lia.
Qed.

(** C12: Writes respect the locks of others.  A write that is admitted for a handle goes through an
    open handle with write access, at its current fence and within its lease, and no lock in force
    that another handle has on the file, shared or exclusive, meets its range; the handle's length
    covers it. *)
Theorem writes_respect_locks b h events r c s' :
  no_handles h -> let s := run events {| namespace := b; handles := h |} in
  admit_write r s = (Ok c, s') -> wc_disposition c = Applied ->
  exists row, open_handles (handles s') !! Identifier.as_bytes (wq_handle r) = Some row /\ active row = true /\ (wq_at r < hr_expires row)%Z /\
    hr_fence row = Z.of_N (wq_fence r) /\ Z.land (hr_desired row) 2 <> 0%Z /\ (Z.of_N (range_end (wq_range r)) <= hr_length row)%Z /\
    forall k l owner, range_locks (handles s') !! k = Some l -> locked l = true -> open_handles (handles s') !! lr_handle l = Some owner ->
      lr_handle l <> Identifier.as_bytes (wq_handle r) -> object_of owner = object_of row ->
      (lr_start l + lr_length l <= Z.of_N (range_start (wq_range r)))%Z \/ (Z.of_N (range_end (wq_range r)) <= lr_start l)%Z.
Proof.
  intros Hn s E Ha. assert (intact s) as Hs by (apply run_kept, no_handles_intact, Hn). apply admit_write_Ok in E as [[Hr _]|(_ & s1 & a & r0 & length & Ex & Hin & Hv & Hcl & Hlen & St)]; [congruence|].
  destruct (expired_fresh _ _ _ Ex) as [_ Fl]. assert (typed_row r0) as Ht by (eapply expired_typed in Ex; [|apply Hs]; exact (Ex _ _ (in_force_row _ _ _ _ _ Hin))).
  pose proof Hin as [Ir Ia Il If Ie _ Id Io]. specialize (Io Ht). unfold validate_write_authority in Hv. match type of Hv with (if ?x then _ else _) = _ => destruct x eqn:Eo end; [done|].
  rewrite !orb_false_iff, !negb_false_iff, !N.eqb_eq in Eo. destruct Eo as [[[Ef _] _] _]. destruct (writes (ah_desired a)) eqn:Ew; [|done]. rewrite Ef in If. destruct St as (St1 & St2 & _). rewrite St1, St2.
  cbn [on_handles handles open_handles range_locks with_open_handles]. rewrite updated_lookup, Ir. cbn [fmap option_fmap option_map]. rewrite held_by_true by done. eexists. split; [done|].
  cbn [set_information hr_expires hr_fence hr_desired hr_length]. split_and!; try done.
  - rewrite Id. unfold writes in Ew. apply negb_true_iff, N.eqb_neq in Ew. change 2%Z with (Z.of_N WRITE_ACCESS). rewrite <- N2Z.inj_land. lia.
  - intros k l owner Hl Hlk Hown Hne Ho. apply updated_Some in Hown as (x & Hx & ->). assert (object_of x = object_of r0) as Ho' by (revert Ho; by destruct (held_by _ _ _ (lr_handle l) x)).
    specialize (Hcl _ _ Hl). unfold lock_meets in Hcl. rewrite Hx in Hcl. cbn [from_option] in Hcl. rewrite Io in Ho'. apply on_object_spec in Ho'. rewrite Ho' in Hcl. pose proof (Fl _ _ Hl Hlk) as Hlive%Z.ltb_lt.
    unfold locked in Hlk. rewrite Hlk, Hlive, (bool_decide_eq_false_2 _ Hne) in Hcl. cbn [andb negb] in Hcl.
    destruct (Z.ltb_spec (lr_start l) (Z.of_N (range_end (wq_range r)))); [|right; lia]. destruct (Z.ltb_spec (Z.of_N (range_start (wq_range r))) (lr_start l + lr_length l)); [done|left; lia].
Qed.

End facts.
