(* ===== verification/PublishedSample.v ===== *)
(** A volume with one directory, and a file published in it under another spelling of the
    directory's name; and a branch whose first directories are created by requests. *)

From Stdlib Require Import String.
From S2P Require Import Prelude Ids Codec Contracts Name Directory DirectoryFacts DirectoryMap Intent BranchStore PathCopy Query.
From S2P Require Import PathCopyFacts PathCopySafe Published Listing DirectorySample Reconcile Journal IntentStore Creation CreationFacts Created.
From stdpp Require Import prelude gmap list.
Import SampleDirectory.
#[local] Open Scope N_scope.
#[local] Existing Instances checksum checksum_bytes tables tables_laws.

Module SampleBranch.

Definition volume : N := 5.
Definition branch : N := 6.
Definition principal : N := 7.

Definition or_default {E A} (x : A) (r : result E A) : A := match r with Ok a => a | Err _ => x end.

Definition no_rows : Database :=
  {| directory_nodes := ∅; object_revisions := ∅; namespace_commits := ∅; namespace_commit_parents := ∅; branch_namespace_heads := ∅;
     file_versions := ∅; content_manifests := ∅ |}.

(** A root and two directories, all empty. *)
Definition directory_insert (revision object : N) : ObjectRevisionInsert :=
  {| inserted_revision := revision; inserted_volume := volume; inserted_object := object; inserted_kind := 1; inserted_prior := None;
     inserted_root := Some (root Directory.empty); inserted_version := None; inserted_by := principal; inserted_at := 1 |}.
Definition prepare : Tx unit :=
  _ ← persist_directory_node {| digest := root Directory.empty; node := empty_node |} 1;
  _ ← persist_object_revision (directory_insert 100 1);
  _ ← persist_object_revision (directory_insert 200 2);
  persist_object_revision (directory_insert 210 4).
Definition db0 : Database := (prepare no_rows).2.

Definition path_of (cs : list NamespaceComponent) (anc : list DirectoryRevisionTransition) : NamespacePublicationPath :=
  {| publication_path := match from_stored_components cs with Ok p => p | Err _ => {| components := []; display_bytes := 0; canonical_bytes := 0 |} end;
     publication_ancestors := anc |}.
Definition loaded_at (db : Database) (current next : N) (p : NamespacePublicationPath) : list LoadedDirectory :=
  or_default [] (load_path_directories db volume 1 current next p).
Definition edited_at (ds : list LoadedDirectory) (p : NamespacePublicationPath) (op : DirectoryOp) : DirectoryPathMutation :=
  or_default {| mutated_directories := []; mutated_nodes := [] |} (edit_path ds p op).
Definition persisted (m : DirectoryPathMutation) (db : Database) : Database := (persist_path_mutation volume principal 2 m db).2.

(** The directory appears in the root. *)
Definition docs : DirectoryEntry := {| name := component "Docs"; object_id := 2; object_revision_id := 200; kind := Directory; generation := 1 |}.
Definition path1 : NamespacePublicationPath := path_of [component "Docs"] [].
Definition op1 : DirectoryOp := Upsert docs None.
Definition dirs1 : list LoadedDirectory := loaded_at db0 100 101 path1.
Definition change1 : DirectoryPathMutation := edited_at dirs1 path1 op1.
Definition db1 : Database := persisted change1 db0.

(** The head of the branch. *)
Definition db2 : Database :=
  with_heads {[ (Identifier.as_bytes branch, Identifier.as_bytes volume) := {| head_commit := Identifier.as_bytes 50; head_sequence := 1 |} ]}
    (with_commits {[ Identifier.as_bytes 50 := commit_row {| stored_commit_id := 50; stored_branch := branch; stored_commit_volume := volume; stored_root_object := 1;
       stored_root_revision := 101; stored_parent := None; stored_by := principal; stored_operation := 60; stored_at := 2 |} [] ]} ∅ db1).

(** A file, through a path that spells the directory otherwise. *)
Definition note : DirectoryEntry := {| name := component "note"; object_id := 3; object_revision_id := 300; kind := File; generation := 1 |}.
Definition path2 : NamespacePublicationPath :=
  path_of [component "DOCS"; component "note"] [{| transition_object := 2; expected_revision := 200; new_revision := 201 |}].
Definition op2 : DirectoryOp := Upsert note None.
Definition dirs2 : list LoadedDirectory := loaded_at db2 101 102 path2.
Definition change2 : DirectoryPathMutation := edited_at dirs2 path2 op2.
Definition db3 : Database := persisted change2 db2.

Definition intent2 : NamespaceIntent :=
  {| intent_operation := 61; intent_branch := branch; intent_volume := volume; intent_root_object := 1; expected_commit := Some 50; intent_root_revision := 102;
     intent_commit := 51; intent_by := principal; intent_at := 2 |}.
Definition db4 : Database := (persist_commit intent2 [] db3).2.
Definition db5 : Database := (advance_namespace_head intent2 1 db4).2.

Lemma runs {A} (m : Tx A) db a : (m db).1 = Ok a -> m db = (Ok a, (m db).2).
Proof. destruct (m db). by intros [= ->]. Qed.

Lemma taken {E A} (r : result E A) x : is_ok r = true -> r = Ok (or_default x r).
Proof. by destruct r. Qed.

Lemma db0_checked : checked db0.
Proof. apply (bool_decide_unpack _). vm_compute. exact I. Qed.

Lemma db0_well_formed : well_formed db0.
Proof.
  assert (stored_nodes db0 !! root Directory.empty = Some empty_node) as Hn by (vm_compute; reflexivity).
  assert (map_Forall (fun _ row => row_root row = Some (root Directory.empty)) (object_revisions db0)) as Hrows by (apply (bool_decide_unpack _); vm_compute; exact I).
  intros key row d Hrow Hd. specialize (Hrows _ _ Hrow). cbv beta in Hrows. rewrite Hd in Hrows. injection Hrows as ->. exists ∅.
  eapply (represents_grow Directory.empty); [|done|apply empty_represents]. cbn [nodes Directory.empty trie_of]. by apply map_singleton_subseteq_l.
Qed.

Lemma published p : Forall (fun c => text (canonical c)) (components (publication_path p)) ->
  Forall (fun t => Identifier.valid (transition_object t)) (publication_ancestors p) ->
  is_ok (new_publication_path (publication_path p) (publication_ancestors p)) = true -> publishable volume 1 p.
Proof.
  intros Ht Hv Ho. split; [by split_and!|done|]. unfold new_publication_path in *. case_bool_decide; [|done]. by destruct p.
Qed.

Lemma path1_publishable : publishable volume 1 path1.
Proof. apply published; [apply (bool_decide_unpack _); vm_compute; exact I|constructor|vm_compute; reflexivity]. Qed.
Lemma path2_publishable : publishable volume 1 path2.
Proof. apply published; [apply (bool_decide_unpack _); vm_compute; exact I|by repeat constructor|vm_compute; reflexivity]. Qed.

Lemma dirs1_loaded : load_path_directories db0 volume 1 100 101 path1 = Ok dirs1.
Proof. unfold dirs1, loaded_at. apply taken. vm_compute. reflexivity. Qed.
Lemma change1_edited : edit_path dirs1 path1 op1 = Ok change1.
Proof. unfold change1, edited_at. apply taken. vm_compute. reflexivity. Qed.
Lemma change1_persisted : persist_path_mutation volume principal 2 change1 db0 = (Ok tt, db1).
Proof. unfold db1, persisted. apply runs. vm_compute. reflexivity. Qed.

Lemma db1_ok : checked db1 /\ well_formed db1.
Proof.
  destruct (path_copied db0 volume 1 100 101 path1 dirs1 op1 change1 principal 2 db1) as ((? & ? & _) & _); [apply db0_checked|apply db0_well_formed|apply path1_publishable| |
    apply dirs1_loaded|apply change1_edited|apply change1_persisted|done]. vm_compute. reflexivity.
Qed.

(** Commits and heads are no part of it. *)
Lemma committed_ok heads t parents db : checked db /\ well_formed db -> checked (with_heads heads (with_commits t parents db)) /\ well_formed (with_heads heads (with_commits t parents db)).
Proof. by intros [Hc Hw]. Qed.

Lemma db2_ok : checked db2 /\ well_formed db2.
Proof. unfold db2. apply committed_ok, db1_ok. Qed.

Lemma dirs2_loaded : load_path_directories db2 volume 1 101 102 path2 = Ok dirs2.
Proof. unfold dirs2, loaded_at. apply taken. vm_compute. reflexivity. Qed.
Lemma change2_edited : edit_path dirs2 path2 op2 = Ok change2.
Proof. unfold change2, edited_at. apply taken. vm_compute. reflexivity. Qed.
Lemma change2_persisted : persist_path_mutation volume principal 2 change2 db2 = (Ok tt, db3).
Proof. unfold db3, persisted. apply runs. vm_compute. reflexivity. Qed.

Lemma leaf2 : canonical <$> leaf_name path2 = Some (op_key op2).
Proof. vm_compute. reflexivity. Qed.

Lemma committed2 : persist_commit intent2 [] db3 = (Ok tt, db4).
Proof. unfold db4. apply runs. vm_compute. reflexivity. Qed.
Lemma advanced2 : advance_namespace_head intent2 1 db4 = (Ok 2, db5).
Proof. unfold db5. apply runs. vm_compute. reflexivity. Qed.

Lemma head2 : joined_head db2 branch volume = Some (Identifier.as_bytes 50, Identifier.as_bytes 1, Identifier.as_bytes 101).
Proof. vm_compute. reflexivity. Qed.

Lemma ids2 : Identifier.valid 51 /\ Identifier.valid 102 /\ Identifier.valid 50 /\ Identifier.valid 101.
Proof. by repeat split. Qed.

(** A second directory in the root, and a head that shows both. *)
Definition path3 : NamespacePublicationPath := path_of [component "Attic"] [].
Definition op3 : DirectoryOp := Upsert {| name := component "Attic"; object_id := 4; object_revision_id := 210; kind := Directory; generation := 1 |} None.
Definition dirs3 : list LoadedDirectory := loaded_at db1 101 103 path3.
Definition change3 : DirectoryPathMutation := edited_at dirs3 path3 op3.
Definition db6 : Database := persisted change3 db1.
Definition db7 : Database :=
  with_heads {[ (Identifier.as_bytes branch, Identifier.as_bytes volume) := {| head_commit := Identifier.as_bytes 52; head_sequence := 1 |} ]}
    (with_commits {[ Identifier.as_bytes 52 := commit_row {| stored_commit_id := 52; stored_branch := branch; stored_commit_volume := volume; stored_root_object := 1;
       stored_root_revision := 103; stored_parent := None; stored_by := principal; stored_operation := 62; stored_at := 2 |} [] ]} ∅ db6).

Lemma path3_publishable : publishable volume 1 path3.
Proof. apply published; [apply (bool_decide_unpack _); vm_compute; exact I|constructor|vm_compute; reflexivity]. Qed.
Lemma dirs3_loaded : load_path_directories db1 volume 1 101 103 path3 = Ok dirs3.
Proof. unfold dirs3, loaded_at. apply taken. vm_compute. reflexivity. Qed.
Lemma change3_edited : edit_path dirs3 path3 op3 = Ok change3.
Proof. unfold change3, edited_at. apply taken. vm_compute. reflexivity. Qed.
Lemma change3_persisted : persist_path_mutation volume principal 2 change3 db1 = (Ok tt, db6).
Proof. unfold db6, persisted. apply runs. vm_compute. reflexivity. Qed.

Lemma db7_ok : checked db7 /\ well_formed db7.
Proof.
  unfold db7. apply committed_ok. destruct (path_copied db1 volume 1 101 103 path3 dirs3 op3 change3 principal 2 db6) as ((? & ? & _) & _); [apply db1_ok|apply db1_ok|apply path3_publishable| |
    apply dirs3_loaded|apply change3_edited|apply change3_persisted|done]. vm_compute. reflexivity.
Qed.

Definition list_request : NamespaceListRequest := {| list_branch := branch; list_volume := volume; directory_path := None; cursor := None; maximum_results := 1 |}.
Definition root_directory : ResolvedDirectory := {| resolved_commit := 52; resolved_object := 1; resolved_revision := 103 |}.
Definition root_revision : StoredRevision :=
  or_default {| stored_volume := 0; stored_object := 0; stored_kind := File; stored_root := None; stored_version := None |} (load_revision db7 103).
Definition root_digest : bytes := default [] (stored_root root_revision).
Definition listed : list NamespaceListEntry := or_default [] (try_map (list_entry db7 volume) (listing db7 root_digest)).

Lemma root_loaded : load_revision db7 103 = Ok root_revision.
Proof. unfold root_revision. apply taken. vm_compute. reflexivity. Qed.
Lemma root_stored : stored_root root_revision = Some root_digest.
Proof. vm_compute. reflexivity. Qed.
Lemma root_represents : exists m, represents (trie_of db7 root_digest) m.
Proof. destruct (load_revision_root _ _ _ _ root_loaded root_stored) as (key & row & Hrow & Hd). exact (proj2 db7_ok _ _ _ Hrow Hd). Qed.
Lemma root_listed : try_map (list_entry db7 volume) (listing db7 root_digest) = Ok listed.
Proof. unfold listed. apply taken. vm_compute. reflexivity. Qed.
Lemma root_resolved : resolve_directory db7 list_request = Ok root_directory.
Proof. vm_compute. reflexivity. Qed.
Lemma root_length : (length (listing db7 root_digest) < 3)%nat.
Proof. apply Nat.ltb_lt. vm_compute. reflexivity. Qed.

Definition query (cs : list NamespaceComponent) : NamespacePath := {| components := cs; display_bytes := 0; canonical_bytes := 0 |}.

End SampleBranch.
Import SampleBranch.

(** The file is there, and the directory that was made as [Docs] is now spelled [DOCS]. *)
Lemma path_copy_exact_witness :
  resolve_loop db3 volume 1 102 [component "docs"; component "NOTE"] = Ok note /\
  exists old, resolve_loop db2 volume 1 101 [component "docs"] = Ok old /\ resolve_loop db3 volume 1 102 [component "docs"] = Ok (respelled (component "DOCS") old 201).
Proof.
  destruct (path_copy_exact db2 volume 1 101 102 path2 dirs2 op2 change2 principal 2 db3 (proj1 db2_ok) (proj2 db2_ok) path2_publishable leaf2 dirs2_loaded change2_edited change2_persisted)
    as (_ & Hleaf & Hdirs & _).
  split; [apply Hleaf; [apply (bool_decide_unpack _); vm_compute; exact I|vm_compute; reflexivity]|].
  destruct (Hdirs 0%nat (component "DOCS") {| transition_object := 2; expected_revision := 200; new_revision := 201 |} [component "docs"]) as (old & H1 & _ & _ & H2);
    [reflexivity|vm_compute; reflexivity|apply (bool_decide_unpack _); vm_compute; exact I|vm_compute; reflexivity|]. exists old. by split.
Defined.

Lemma publication_isolated_witness :
  branch_stat db5 branch volume (query [component "docs"; component "note"]) = (e ← leaf_answer op2; build_stat db3 51 volume e) /\
  branch_stat db5 branch volume (query [component "other"]) = Err NotFound.
Proof.
  destruct ids2 as (V1 & V2 & V3 & V4).
  destruct (publication_isolated db2 1 101 50 path2 dirs2 op2 change2 principal 2 db3 intent2 [] 1 2 db4 db5 (proj1 db2_ok) (proj2 db2_ok) path2_publishable leaf2 eq_refl V1 V2 V3 V4 head2
    dirs2_loaded change2_edited change2_persisted committed2 advanced2) as (Hleaf & Helse & _).
  split.
  - apply Hleaf; [apply (bool_decide_unpack _); vm_compute; exact I|vm_compute; reflexivity].
  - etransitivity; [apply (Helse (query [component "other"]))|vm_compute; reflexivity].
    + apply (bool_decide_unpack _); vm_compute; exact I.
    + apply (bool_decide_unpack _); vm_compute; exact I.
    + apply (bool_decide_unpack _); vm_compute; exact I.
    + vm_compute. exact I.
Defined.


(** A branch with nothing in it, where [Docs] is created and then [Drafts] in it. *)
Module SampleCreation.

Definition no_operations : Operations :=
  {| publication_operations := ∅; directory_operations := ∅; rename_operations := ∅; unlink_operations := ∅; restore_operations := ∅; reconciliation_operations := ∅;
     imported_commits := ∅ |}.
Definition no_intents : Intents :=
  {| commit_intents := ∅; path_components := ∅; intent_ancestors := ∅; commit_renames := ∅; rename_components := ∅; rename_ancestors := ∅; commit_deletions := ∅ |}.
Definition b0 : Branch := {| IntentStore.tables := no_rows; operations := no_operations; intents := no_intents; acknowledgements := ∅ |}.

Definition creation (operation object revision root commit : N) (expected : option N) (p : NamespacePublicationPath) : DirectoryPublication :=
  {| dp_operation := operation; dp_branch := branch; dp_volume := volume; dp_root_object := 1; dp_expected_commit := expected; dp_object := object; dp_revision := revision;
     dp_root_revision := root; dp_commit := commit; dp_path := p; dp_generation := 1; dp_by := principal; dp_at := 1 |}.
Definition first : DirectoryPublication := creation 70 2 200 100 50 None (path_of [component "Docs"] []).
Definition second : DirectoryPublication :=
  creation 71 3 300 101 51 (Some 50) (path_of [component "DOCS"; component "Drafts"] [{| transition_object := 2; expected_revision := 200; new_revision := 201 |}]).
Definition b1 : Branch := (create_directory first None b0).2.
Definition b2 : Branch := (create_directory second None b1).2.

Lemma first_applied : create_directory first None b0 = (Ok (receipt_of Applied first 1), b1).
Proof.
  unfold b1. assert ((create_directory first None b0).1 = Ok (receipt_of Applied first 1)) as E by (vm_compute; reflexivity). destruct (create_directory first None b0). cbn [fst snd] in *. by rewrite E.
Qed.
Lemma second_applied : create_directory second None b1 = (Ok (receipt_of Applied second 2), b2).
Proof.
  unfold b2. assert ((create_directory second None b1).1 = Ok (receipt_of Applied second 2)) as E by (vm_compute; reflexivity). destruct (create_directory second None b1). cbn [fst snd] in *. by rewrite E.
Qed.

Lemma component_sound s : is_ok (new_component (ascii_bytes s) PORTABLE) = true -> text (ascii_bytes s) -> component_ok (component s).
Proof.
  intros Ho Ht. unfold component. destruct (new_component (ascii_bytes s) PORTABLE) as [c|] eqn:Ec; [|done]. eapply new_component_ok; [|apply (new_limits_ok Portable 255 256 4096); vm_compute; reflexivity|exact Ec]. done.
Qed.

Lemma creation_typed operation object revision root commit expected p :
  Forall Identifier.valid [operation; object; revision; root; commit] -> from_option Identifier.valid True expected ->
  Forall component_ok (components (publication_path p)) -> is_ok (from_stored_components (components (publication_path p))) = true ->
  from_stored_components (components (publication_path p)) = Ok (publication_path p) -> Forall transition_typed (publication_ancestors p) ->
  length (components (publication_path p)) = S (length (publication_ancestors p)) -> publication_typed (creation operation object revision root commit expected p).
Proof. intros Hv He Hc _ Hs Ht Hl. repeat (apply Forall_cons in Hv as [? Hv]). by split. Qed.

Lemma first_typed : publication_typed first.
Proof.
  apply creation_typed; [by repeat constructor|done| |vm_compute; reflexivity|vm_compute; reflexivity|constructor|reflexivity].
  change (components _) with [component "Docs"]. constructor; [|constructor]. apply component_sound; [vm_compute; reflexivity|]. apply (bool_decide_unpack _). vm_compute. exact I.
Qed.
Lemma second_typed : publication_typed second.
Proof.
  apply creation_typed; [by repeat constructor|done| |vm_compute; reflexivity|vm_compute; reflexivity|by repeat constructor|reflexivity].
  change (components _) with [component "DOCS"; component "Drafts"]. repeat constructor. all: apply component_sound; [vm_compute; reflexivity|]; apply (bool_decide_unpack _); vm_compute; exact I.
Qed.

Lemma b0_ok : referenced b0 /\ checked (IntentStore.tables b0) /\ well_formed (IntentStore.tables b0).
Proof. split_and!; [split; intros *; cbn; rewrite ?lookup_empty; set_solver|apply map_Forall_empty|intros k row d; cbn; by rewrite lookup_empty]. Qed.

Lemma b1_ok : checked (IntentStore.tables b1) /\ well_formed (IntentStore.tables b1).
Proof.
  destruct (create_directory_inv _ _ _ _ _ first_applied eq_refl) as (_ & _ & base & entry & namespace & d1 & d2 & d3 & d4 & sequence & Hs & _). destruct b0_ok as (_ & ? & ?).
  by eapply created_stored; [exact Hs|exact first_typed|..].
Qed.

Definition removal : NamespaceUnlinkPublication :=
  {| nu_operation := 72; nu_branch := branch; nu_volume := volume; nu_root_object := 1; nu_expected_commit := 51; nu_expected_object := 2; nu_expected_revision := 201;
     nu_expected_kind := Directory; nu_expected_version := None; nu_expected_generation := 1; nu_path := path_of [component "Docs"] []; nu_root_revision := 102; nu_commit := 52;
     nu_authority := Direct None; nu_by := principal; nu_at := 3 |}.

Lemma docs_changed : exists r, load_object_revision (IntentStore.tables b2) 201 = Ok r /\ inserted_kind r = 1 /\ inserted_version r = None /\ inserted_prior r = Some 200.
Proof.
  assert (match load_object_revision (IntentStore.tables b2) 201 with
          | Ok r => (inserted_kind r =? 1) && bool_decide (inserted_version r = None) && bool_decide (inserted_prior r = Some 200)
          | Err _ => false
          end = true) as Hr by (vm_compute; reflexivity).
  generalize dependent (load_object_revision (IntentStore.tables b2) 201). intros [r|e] Hr; [|done]. rewrite !andb_true_iff, N.eqb_eq, !bool_decide_eq_true in Hr. destruct Hr as [[? ?] ?]. by exists r.
Qed.

End SampleCreation.
Import SampleCreation.



(** [Docs] after [Drafts] was created in it. *)
Lemma modified_directory_pinned_witness :
  exists r i, load_object_revision (IntentStore.tables b2) 201 = Ok r /\ unlink_intent removal r = Ok i /\ persist_branch_intent i b2 = (Err Sqlite, b2).
Proof.
  destruct docs_changed as (r & Er & Hk & Hv & Hp). destruct (proj2 (modified_directory_pinned r b2 200 Hk Hv Hp) removal eq_refl eq_refl) as (i & e & Ei & Ep & He).
  exists r, i. split; [exact Er|]. split; [exact Ei|]. rewrite Ep, He; [reflexivity|vm_compute; exact I|vm_compute; exact I].
Defined.

From S2P Require Import Handles HandleFacts.

(** The file of the volume, opened through two gateways. *)
Module SampleHandles.

#[local] Instance in_order : Scan := fun rows => rows.
#[local] Instance in_order_law : ScanLaw.
Proof. intros rows. reflexivity. Qed.

Definition id : N -> bytes := Identifier.as_bytes.
Definition with_file (db : Database) : Database :=
  {| directory_nodes := directory_nodes db;
     object_revisions := <[id 300 := {| row_volume := id volume; row_object := id 3; row_kind := 2; row_prior := None; row_root := None; row_version := Some (id 400); row_digest := [];
                                        row_created_by := id principal; row_created_at := 2 |}]> (object_revisions db);
     namespace_commits := namespace_commits db; namespace_commit_parents := namespace_commit_parents db; branch_namespace_heads := branch_namespace_heads db;
     file_versions := {[ id 400 := {| version_volume := id volume; version_object := id 3; version_length := 10; version_content := []; version_manifest := id 500 |} ]};
     content_manifests := content_manifests db |}.
Definition files : Branch := {| IntentStore.tables := with_file db5; operations := no_operations; intents := no_intents; acknowledgements := ∅ |}.
Definition idle : HandleTables :=
  {| open_handles := ∅; range_locks := ∅; mutation_operations := ∅; information_operations := ∅; write_admissions := ∅; pending_deletes := ∅; handle_paths := ∅;
     flush_progress := ∅; flush_plans := ∅; branch_files := {[ (id branch, id 3) := {| bf_volume := id volume; bf_current := Some (id 400) |} ]} |}.

Definition open_as (operation handle gateway share : N) (delete : bool) (at_ : Z) : OpenHandleRequest :=
  {| or_operation := operation; or_handle := handle; or_branch := branch; or_volume := volume; or_path := query [component "docs"; component "NOTE"]; or_principal := principal;
     or_authorization := 1; or_gateway := gateway; or_desired := 7; or_share := share; or_disposition := OpenExisting; or_delete := delete; or_expires := 100; or_opened_at := at_ |}.
Definition lock_as (operation lock handle fence gateway start length : N) (at_ : Z) : LockRangeRequest :=
  {| lq_operation := operation; lq_lock := lock; lq_handle := handle; lq_fence := fence; lq_principal := principal; lq_gateway := gateway;
     lq_range := {| range_start := start; range_length := length |}; lq_kind := Exclusive; lq_lifetime := HandleLifetime; lq_expires := 100; lq_at := at_ |}.
Definition takeover : HandleLeaseRequest :=
  {| rq_operation := 85; rq_handle := 1000; rq_fence := 1; rq_principal := principal; rq_authorization := 1; rq_gateway := 23; rq_takeover := true; rq_expires := 120; rq_at := 14 |}.
Definition write : HandleWriteAdmissionRequest :=
  {| wq_operation := 86; wq_handle := 1001; wq_fence := 1; wq_principal := principal; wq_authorization := 1; wq_gateway := 22; wq_range := {| range_start := 12; range_length := 4 |};
     wq_content := replicate 32 1; wq_at := 15 |}.

(** Two handles that share everything; a third that shares nothing is refused. *)
Definition opened : list Event :=
  [Request (OpenOp (open_as 80 1000 21 7 false 10) None); Request (OpenOp (open_as 81 1001 22 7 true 11) None); Request (OpenOp (open_as 82 1002 22 0 false 12) None);
   Request (LockOp (lock_as 83 2000 1000 1 21 0 10 13)); Request (LockOp (lock_as 84 2001 1001 1 22 5 10 13))].
Definition start : HandleStore := {| namespace := files; handles := idle |}.
Definition shared : HandleStore := run opened start.
Definition moved : HandleStore := (renew takeover shared).2.

Lemma idle_empty : no_handles idle.
Proof. by split_and!. Qed.

Definition applied (d : PublicationDisposition) : bool := match d with Applied => true | Replayed => false end.

Lemma outcome {A : Type} (m : HandleTx A) (p : A -> bool) s : match (m s).1 with Ok c => p c | Err _ => false end = true -> exists c, m s = (Ok c, (m s).2) /\ p c = true.
Proof. destruct (m s) as [[c|e] s']; [|done]. intros Hp. by exists c. Qed.

Lemma renewed : exists c, renew takeover shared = (Ok c, moved) /\ (rc_fence c =? 2) && applied (rc_disposition c) = true.
Proof.
  unfold moved. refine (outcome (renew takeover) (fun c => (rc_fence c =? 2) && applied (rc_disposition c)) shared _). vm_compute. reflexivity.
Qed.

Lemma written : exists c, admit_write write shared = (Ok c, (admit_write write shared).2) /\ applied (wc_disposition c) = true.
Proof. refine (outcome (admit_write write) (fun c => applied (wc_disposition c)) shared _). vm_compute. reflexivity. Qed.

Lemma applied_true d : applied d = true -> d = Applied.
Proof. by destruct d. Qed.

Lemma perform_ok op s : is_ok (perform op s).1 = true -> exists d s', perform op s = (Ok d, s').
Proof. destruct (perform op s) as [[d|e] s']; [|done]. by exists d, s'. Qed.

End SampleHandles.
Import SampleHandles.
#[local] Existing Instances in_order in_order_law.


(** The lock taken at the old fence is found again; a new one at that fence would be refused. *)
Lemma takeover_fences_witness :
  exists c, renew takeover shared = (Ok c, moved) /\ rc_fence c = 2 /\
    perform (LockOp (lock_as 83 2000 1000 1 21 0 10 13)) moved = (Ok Replayed, moved) /\ is_err (perform (LockOp (lock_as 87 2002 1000 1 21 40 10 16)) moved).1 = true.
Proof.
  destruct renewed as (c & E & [Hf%N.eqb_eq Hd%applied_true]%andb_true_iff). exists c. split_and!; [exact E|exact Hf| |vm_compute; reflexivity].
  destruct (perform_ok (LockOp (lock_as 83 2000 1000 1 21 0 10 13)) moved) as (d & s2 & Ep); [vm_compute; reflexivity|]. rewrite Ep.
  destruct (proj2 (takeover_fences takeover shared c moved E Hd) [] (LockOp (lock_as 83 2000 1000 1 21 0 10 13)) d s2 1 Ep eq_refl) as [-> ->]; [rewrite Hf; reflexivity|reflexivity].
Defined.

(** A write beside the lock of the other handle. *)
Lemma writes_respect_locks_witness :
  exists c s' row, admit_write write shared = (Ok c, s') /\ open_handles (handles s') !! id 1001 = Some row /\ (16 <= hr_length row)%Z.
Proof.
  destruct written as (c & E & Hd%applied_true). set (s' := (admit_write write shared).2) in E. clearbody s'. unfold shared, start in E. destruct (writes_respect_locks files idle opened write c s' idle_empty E Hd) as (row & Hrow & _ & _ & _ & _ & Hlen & _).
  exists c, s', row. split; [exact E|]. split; [exact Hrow|exact Hlen].
Defined.
